(* ===== verification/_CoqProject ===== *)
-Q . S2P
Prelude.v
Bits.v
Utils.v
RvEncoding.v
RvEncodingProofs.v
RvAlu.v
SimMemory.v
Random.v
Outcome.v
RvFloat.v
RvSimulator.v
RvFloatProofs.v
RvCalls.v
RvAssembler.v
RvExec.v
RvSimProofs.v
RvBufferProofs.v
RvCompressed.v
RvAsmCorrect.v
RvLabels.v
RvMacros.v
RvMacroProofs.v
RvBranchProofs.v
RvOverflowProofs.v
RvLabelProofs.v
RvMemExec.v
RvMemProofs.v
RvStackProofs.v
RvCallProofs.v
BitField.v
Location.v
Result.v
ParallelMove.v
ParallelMoveProofs.v
Il.v
RangeOps.v
RangeProofs.v
Integers.v
RangeArithProofs.v
RangeInfer.v
RangeInferProofs.v
RangePhiProofs.v
RangeDefects.v
DataStream.v
DataStreamProofs.v
DataStreamBuffer.v
Arrays.v
Unicode.v
UnicodeProofs.v
CaseMapping.v
DartString.v
DartStringProofs.v
DartStringOps.v
DartStringIri.v
CaseMappingProofs.v
HashMap.v
HashMapProofs.v
PriorityQueue.v
PriorityQueueProofs.v
BitSet.v
FreeList.v
FreeListProofs.v
FreeListHeap.v
PageSpace.v
PageSpaceProofs.v
Sweeper.v
SweeperProofs.v
