(* ===== verification/Prelude.v ===== *)
(** * Parts of the Dart VM, verified

    This library models six parts of the Dart VM under [src/runtime/], in the
    configuration of a 64-bit target: the code that turns code-generation requests
    into RISC-V machine code and the simulator that runs it, with the resolver of
    parallel moves of the code generator; the range analysis of the optimiser,
    which decides which bounds and overflow checks are removed; the byte streams
    snapshots and messages are written to; strings, with the Unicode
    conversions and tables behind them; the hash map and the priority queue of the
    event handler's timeouts; and the allocation and sweeping of the old generation
    of the heap.

    ** The program and its parts

    - [vm/constants_riscv.h]: registers, opcodes, the fields and immediates of
      the 32- and 16-bit formats, the sets of extensions.
    - [vm/simulator_memory.h]: the memory of the simulator, direct or through a
      16-entry store buffer.
    - [vm/random.{h,cc}]: the generator that fills the simulator's registers.
    - [vm/simulator_riscv.{h,cc}]: the fetch-decode-execute loop, floating point
      included, and the calls between C++ and simulated code.
    - [vm/compiler/assembler/assembler_riscv.{h,cc}] and the [Label] of
      [assembler_base.h]: [MicroAssembler] emits instructions and binds labels;
      [Assembler] expands macro instructions into them.
    - [platform/utils.h]: the integer helpers they share.
    - [vm/compiler/backend/parallel_move_resolver.{h,cc}], with the locations of
      [locations.h] and the bit fields of [bitfield.h]: how the code generator
      orders moves that must happen at once.
    - [vm/compiler/backend/range_analysis.{h,cc}], on the instructions of [il.h],
      and the integer arithmetic of [vm/object.cc] with the constant folding of
      [evaluator.cc] it must agree with.
    - [vm/datastream.{h,cc}]: the codecs and the growing buffers of the streams.
    - [platform/unicode.{h,cc}], [vm/unicode.cc], [vm/unicode_data.cc] and the class
      [String] of [vm/object.{h,cc}] with [vm/hash.h].
    - [platform/hashmap.{h,cc}], [platform/priority_queue.h] and the [TimeoutQueue] of
      [bin/eventhandler.h], which keeps the timers of all isolates.
    - [vm/bit_set.h], [vm/heap/freelist.{h,cc}], the allocation of [vm/heap/pages.{h,cc}]
      and [SweepPage] of [vm/heap/sweeper.cc]: the free blocks of the old generation
      are chained in the heap itself, [PageSpace] allocates from them, from a bump area
      or from a fresh page, and the sweeper gives dead objects back.

    The assembler appends bytes to a buffer using the encoders; the simulator
    fetches bytes from memory and uses the decoders.  The theorems go through
    the bytes: an emitter is correct when the code it appends, placed anywhere
    in memory, runs on the simulator as the instruction's function.  Range analysis
    is judged by the values an execution computes, and those by the integers of the
    language; strings by the sequence of code units they stand for, and that by an
    independent definition of UTF-8 and UTF-16; the containers by the finite maps they
    stand for; and the heap by the blocks that are in use and free.

    ** Files

    - [Prelude]: machine integers ([uN w], [sN w]), the C++20 bit functions,
      notations in [cint_scope], the rewrite database [cint].  [Result]: values,
      failed assertions and exhausted fuel, with the monad and [returns].
      [Arrays]: arrays whose accesses out of range fail, and loops over them.
    - [Bits]: a reflective decision procedure for equalities of bit-field
      expressions ([bits_solve]), used for every encoding.
    - [Utils]: [platform/utils.h].
    - [RvEncoding], [RvEncodingProofs]: [constants_riscv.h].  Enumerations are
      inductive types with a coercion to their value; [Encode*]/[Decode*]/[Is*]
      are functions with the names of the header, an encoder returning [None]
      where the source asserts.
    - [RvAlu]: the static arithmetic helpers of [simulator_riscv.cc] ([mulh],
      [div], [clmul], ...).
    - [SimMemory]: modules [Direct], [Buffered] and [Memory] for the three
      classes of [simulator_memory.h]; process memory is a function from
      addresses to bytes ([Host]).  The class [ByteMemory] is the interface a
      client may rely on.
    - [Random]: [vm/random.{h,cc}].
    - [Outcome]: what a handler returns, a value or the reason execution stops.
    - [RvFloat]: the floating-point helpers of [simulator_riscv.cc] ([Round],
      [fcvtws], [fclass], [rv_fmin], ...) on bit patterns; the arithmetic of the
      host is that of IEEE 754, through [SpecFloat] of the Standard Library.
    - [RvSimulator]: the record [Simulator], one definition per [Interpret*]
      function, [step] for one turn of [ExecuteNoTrace].
    - [RvCalls]: the constructor, [Call], [CallX] and the other entry points, the
      register checks around them, and the [Redirection] list.
    - [RvAssembler]: the state of the assembler (buffer, extensions, far-branch
      level, deferred comparison) and, in module [MicroAssembler], one
      definition per emitter; [None] is a failed [ASSERT].  [RvLabels]: class
      [Label], branch emission and [Bind].  [RvMacros]: class [Assembler].
    - [RvExec]: the interface between the two sides: [code_at], [executes],
      [implements] and their composition.  [RvCompressed]: the 16-bit forms.
      [RvAsmCorrect]: the instructions.  [RvMacroProofs], [RvOverflowProofs]:
      macro instructions.  [RvMemExec], [RvMemProofs], [RvStackProofs]: loads,
      stores and the stack.  [RvBranchProofs]: branches to bound labels.
      [RvLabelProofs]: linking and binding.  [RvSimProofs], [RvFloatProofs]: the
      simulator alone.  [RvBufferProofs]: the simulator with and without the
      store buffer.  [RvCallProofs]: assembled code called from C++, and
      redirections.
    - [BitField], [Location], [ParallelMove], [ParallelMoveProofs]: the move
      resolver and what it works on; the state is the list of moves and the list
      of scheduled operations.
    - [Il]: representations, instructions and the flow graph as a map from
      definitions to instruction, type, block and range.  [RangeOps]: classes
      [RangeBoundary] and [Range].  [RangeInfer]: the [InferRange] methods, the
      iteration, constraints, bounds check elimination.  [Integers]: arithmetic of
      integers and constant folding.  [RangeProofs], [RangeArithProofs],
      [RangeInferProofs], [RangePhiProofs]: ranges against executions ([consistent],
      [executes]).  [RangeDefects]: graphs on which a range does not hold.
    - [DataStream]: modules [ReadStream] and [WriteStream]; the encoders are written
      against the class [ByteSink], what [AbstractWriteStream] gets from its
      template parameter.  [DataStreamProofs]: the codecs against any sink.
      [DataStreamBuffer]: the buffers implement the sink.
    - [Unicode]: modules [Utf], [Utf8], [Utf16]; [UnicodeProofs]: the specification
      of the encodings ([utf8], [utf16], [valid]) and the routines against it.
      [CaseMapping]: the tables and [Convert].  [DartString]: class [String];
      [DartStringProofs], [DartStringOps], [DartStringIri], [CaseMappingProofs].
    - [HashMap], [HashMapProofs]: class [SimpleHashMap] and the finite map it represents
      ([represents]).  [PriorityQueue], [PriorityQueueProofs]: the heap with its map of
      offsets ([queue], [indexed]), and [TimeoutQueue].
    - [BitSet]: class [BitSet] by its bits.  [FreeList]: the header tags, classes
      [FreeListElement] and [FreeList] on a heap that is a function from addresses to
      words.  [FreeListProofs]: the invariant [wf] and what each operation does to the
      blocks of the lists.  [FreeListHeap]: owned blocks beside the free ones ([good]).
    - [PageSpace], [PageSpaceProofs]: the allocation functions, and a heap as a
      transition system ([heap_step], [reachable]).  [Sweeper], [SweeperProofs]: a page
      as a sequence of objects ([laid]) and its maximal unmarked runs ([runs]).

    ** What the theorems show

    - Encodings: every immediate format round trips.
    - Arithmetic: the helpers of the simulator are the exact mathematical
      functions (high words of products, division with its special cases,
      carry-less products, bit manipulation).
    - Memory: the store buffer refines direct memory on every trace of plain
      accesses; ordered accesses are coherent at word addresses, and a
      counterexample shows they are not below word alignment.
    - Floating point: conversions to integers round and saturate as the
      architecture says on every bit pattern, minimum and maximum order zeros and
      treat NaNs as it says; one conversion rounds the wrong way, which is proved.
    - Simulator: an invariant of its state holds from the constructor on, through
      every instruction, call and register access; only vector instructions can
      leave the simulator's own arrays.
    - Store buffer: any program, up to stated exceptions, runs in lockstep with
      and without it; the exceptions are real (AMOCAS is proved to miss it).
    - Calls: assembled code placed anywhere in memory can be called with [CallX]
      and returns what its specification says; a redirected function is found
      again from its address.
    - Instructions: every integer emitter, for every extension set and in each of
      its 16- and 32-bit forms, is executed by the simulator as its function.
    - Macros: constants, checked arithmetic, with the inputs on which the
      code is wrong stated as theorems.
    - Labels: the five lists of a label thread exactly the branches emitted, in
      every reachable state; [Bind] makes each of them a branch to the label and
      changes nothing else, or asks for far branches; the far form always binds.
    - Moves: the schedule of the resolver has the effect of all moves at once, and
      a scratch register it offers is dead; locations and bit fields round trip.
    - Range analysis: an inferred range contains the value the instruction computed,
      an overflow flag is cleared only where the operation cannot overflow, a bounds
      check found redundant succeeds, and a whole run over straight-line code keeps
      all this.  At a phi the range holds under two provisos; that neither can be
      dropped, and that truncating operations are handled wrongly, is proved on
      concrete graphs.  Walks through symbolic bounds end and widening is bounded.
    - Integers: folded constants are the values the operation computes at run time.
    - Streams: any mix of values written to any kind of stream is read back, across
      reallocations and flushes; the unrolled readers are the loop.
    - Strings: the decoders accept exactly the encodings of code points and never
      leave an array; UTF-8 and IRI conversions round trip; strings in either
      representation implement sequences of code units; case conversion follows the
      tables on every code point but one, where it reads out of bounds.
    - Containers: the hash map implements finite maps through growth and removal; the
      priority queue keeps heap order and finds the least priority, except after a
      removal by value, where a cancelled timer is proved to delay another one.
    - Heap: the free list allocates best fit among small blocks and never writes outside
      free ones; in every reachable heap blocks in use are disjoint, no call fails or
      changes a block in use, and the words counted as used are exact, while the live
      bytes of a page are proved wrong when the bump area changes; sweeping frees
      exactly the runs of unmarked objects.

    ** Bounds and fuel

    [LoadImmediate] recurses on ever shorter constants; the model gives it four
    levels and the theorem shows they suffice for every constant.  The loop of
    [Bind] is given one turn per byte of the buffer; every branch takes at least
    two.  Code is below 2 GB where distances matter.  [ExecuteNoTrace] takes a
    number of steps; theorems about emitted code show the number exists.  The
    recursion of [PerformMove] is given one level per move, shown to suffice.
    Walks through symbolic ranges take fuel; [consistent] asks for more than the
    rank of every definition, and the theorems then exclude running out.  Loops of
    the codecs are given as many turns as the type has bits, loops over arrays as
    many as the array has elements.  Strings have at most [kMaxElements] code units.
    [Lookup] and [Resize] of the hash map nest at most twice; the table has at most
    2^30 entries before it grows.  The search of the large blocks is given one turn
    more than its budget of tries, the walk of a page one per 16 bytes; that the turns
    suffice is part of the theorems.  Heap addresses are below 2^63.

    ** Not modelled

    What a C++ function called by simulated code does, the NaN the host computes,
    spurious failures of the host's compare-exchange and the object-pool builder
    are arguments of the model ([Platform], [FindImmediate]); the FP and vector
    emitters, tracing, the debugger, the memory the stacks are in, the unwinding
    of exceptions through C++ frames, and the macros for calls, frames,
    allocation and write barriers are left out.
    Addresses are those of one process: the host's own memory faults and data
    races between threads are not modelled.  Of range analysis the motion of bounds
    checks out of loops, the insertion of constraints into the graph and the choice
    of 32-bit representations are left out, of the streams the printf-style writers
    (realloc and the sink of a streaming buffer are arguments), of strings symbols,
    formatting and the parsing of numbers.  Of the heap the page
    protections, large and executable pages, growth control, marking, scavenging and
    compaction are left out; the page a call obtains and the size of an object by its
    class are arguments.  Locks are held by the caller throughout: interleavings of
    threads are not modelled.  The rest of the VM (object model, kernel front end,
    other optimisations and back ends, embedder) is outside this development.

    ** Plan

    Conditional sets and the remaining macros; the code emitted for the moves of a
    schedule; then the generalisation of bounds checks, number parsing and the sweeping
    of new-space pages. *)
From Stdlib Require Import ZArith List Bool Lia ZifyBool.
Import ListNotations.
#[global] Open Scope Z_scope.

(** ** Machine integers

    A C++ integer of width [w] is a [Z] in range: an unsigned one in
    [[0, 2^w)], a signed one in [[-2^(w-1), 2^(w-1))].  [uN w] is the cast to
    the unsigned type and [sN w] the cast to the signed type (both are total,
    as the casts of the sources are). *)

Definition uN (w x : Z) : Z := x mod 2 ^ w.
Definition sN (w x : Z) : Z := (x + 2 ^ (w - 1)) mod 2 ^ w - 2 ^ (w - 1).

Abbreviation u8 := (uN 8).
Abbreviation u16 := (uN 16).
Abbreviation u32 := (uN 32).
Abbreviation u64 := (uN 64).
Abbreviation s8 := (sN 8).
Abbreviation s16 := (sN 16).
Abbreviation s32 := (sN 32).
Abbreviation s64 := (sN 64).

Definition is_uN (w x : Z) : Prop := 0 <= x < 2 ^ w.
Definition is_sN (w x : Z) : Prop := - 2 ^ (w - 1) <= x < 2 ^ (w - 1).

Definition min_sN (w : Z) : Z := - 2 ^ (w - 1).
Definition max_sN (w : Z) : Z := 2 ^ (w - 1) - 1.
Definition max_uN (w : Z) : Z := 2 ^ w - 1.

Declare Scope cint_scope.
Delimit Scope cint_scope with cint.

Notation "x '<<' n" := (Z.shiftl x n) (at level 52, left associativity) : cint_scope.
Notation "x '>>' n" := (Z.shiftr x n) (at level 52, left associativity) : cint_scope.
Notation "x '.&' y" := (Z.land x y) (at level 53, left associativity) : cint_scope.
Notation "x '.^' y" := (Z.lxor x y) (at level 54, left associativity) : cint_scope.
Notation "x '.|' y" := (Z.lor x y) (at level 56, left associativity) : cint_scope.
#[global] Open Scope cint_scope.

(** A failed [ASSERT] (and a fatal error of pure code) is [None]. *)
Notation "'ASSERT' b ;; k" := (if b then k else None)
  (at level 100, b at level 99, k at level 200, right associativity).

(** Bitwise or of two encoded fields, either of which may fail its [ASSERT]. *)
Definition option_lor (a b : option Z) : option Z :=
  match a, b with
  | Some x, Some y => Some (x .| y)
  | _, _ => None
  end.
Notation "a '.|?' b" := (option_lor a b) (at level 57, left associativity) : cint_scope.

(** [cint] collects the facts that close the side conditions on ranges. *)
Create HintDb cint discriminated.
Create Rewrite HintDb cint.

(** ** Range and cast lemmas *)

Lemma uN_range w x : 0 <= w -> is_uN w (uN w x).
Proof. intros; apply Z.mod_pos_bound, Z.pow_pos_nonneg; lia. Qed.

Lemma sN_range w x : 0 < w -> is_sN w (sN w x).
Proof.
  intros; unfold is_sN, sN.
  pose proof (Z.mod_pos_bound (x + 2 ^ (w - 1)) (2 ^ w) ltac:(apply Z.pow_pos_nonneg; lia)).
  replace (2 ^ w) with (2 * 2 ^ (w - 1)) in * by (rewrite <- Z.pow_succ_r by lia; f_equal; lia).
  lia.
Qed.

Lemma uN_small w x : is_uN w x -> uN w x = x.
Proof. apply Z.mod_small. Qed.

Lemma pow2_pred w : 0 < w -> 2 ^ w = 2 * 2 ^ (w - 1).
Proof. intros; rewrite <- Z.pow_succ_r by lia; f_equal; lia. Qed.

Lemma is_sN_mono w w' x : 0 < w <= w' -> is_sN w x -> is_sN w' x.
Proof.
  intros Hw [L U]; unfold is_sN. pose proof (Z.pow_le_mono_r 2 (w - 1) (w' - 1)). lia.
Qed.

Lemma sN_small w x : 0 < w -> is_sN w x -> sN w x = x.
Proof.
  intros Hw Hx; unfold sN, is_sN in *.
  rewrite Z.mod_small; [lia|]. rewrite (pow2_pred w) by lia. lia.
Qed.

Lemma sN_cong w x : 0 < w -> exists k, sN w x = x + k * 2 ^ w.
Proof.
  intros; exists (- ((x + 2 ^ (w - 1)) / 2 ^ w)); unfold sN.
  pose proof (Z.div_mod (x + 2 ^ (w - 1)) (2 ^ w) ltac:(apply Z.pow_nonzero; lia)). lia.
Qed.

Lemma uN_cong w x : 0 <= w -> exists k, uN w x = x + k * 2 ^ w.
Proof.
  intros; exists (- (x / 2 ^ w)); unfold uN.
  pose proof (Z.div_mod x (2 ^ w) ltac:(apply Z.pow_nonzero; lia)). lia.
Qed.

Lemma uN_add_mult w x k : uN w (x + k * 2 ^ w) = uN w x.
Proof. unfold uN; apply Z_mod_plus_full. Qed.

Lemma uN_sN w x : 0 < w -> uN w (sN w x) = uN w x.
Proof. intros; destruct (sN_cong w x) as [k ->]; [lia|]; apply uN_add_mult. Qed.

Lemma uN_uN w x : uN w (uN w x) = uN w x.
Proof. apply Zmod_mod. Qed.

Lemma uN_uN_le w w' x : 0 <= w <= w' -> uN w (uN w' x) = uN w x.
Proof.
  intros H; destruct (uN_cong w' x ltac:(lia)) as [k ->].
  replace (2 ^ w') with (2 ^ (w' - w) * 2 ^ w) by (rewrite <- Z.pow_add_r by lia; f_equal; lia).
  rewrite Z.mul_assoc. apply uN_add_mult.
Qed.

Lemma sN_add_mult w x k : sN w (x + k * 2 ^ w) = sN w x.
Proof.
  unfold sN; f_equal.
  replace (x + k * 2 ^ w + 2 ^ (w - 1)) with (x + 2 ^ (w - 1) + k * 2 ^ w) by lia.
  apply Z_mod_plus_full.
Qed.

Lemma sN_uN w x : 0 <= w -> sN w (uN w x) = sN w x.
Proof. intros; destruct (uN_cong w x) as [k ->]; [lia|]; apply sN_add_mult. Qed.

Lemma sN_sN w x : 0 < w -> sN w (sN w x) = sN w x.
Proof. intros; apply sN_small; [lia|]; apply sN_range; lia. Qed.

Lemma uN_add_l w x y : uN w (uN w x + y) = uN w (x + y).
Proof. apply Zplus_mod_idemp_l. Qed.

Lemma uN_add_r w x y : uN w (x + uN w y) = uN w (x + y).
Proof. apply Zplus_mod_idemp_r. Qed.

Lemma uN_sub_l w x y : uN w (uN w x - y) = uN w (x - y).
Proof. apply Zminus_mod_idemp_l. Qed.

Lemma uN_sub_r w x y : uN w (x - uN w y) = uN w (x - y).
Proof. apply Zminus_mod_idemp_r. Qed.

Lemma uN_mul_l w x y : uN w (uN w x * y) = uN w (x * y).
Proof. apply Zmult_mod_idemp_l. Qed.

Lemma uN_mul_r w x y : uN w (x * uN w y) = uN w (x * y).
Proof. apply Zmult_mod_idemp_r. Qed.

Lemma uN_mul_sN_l w x y : 0 < w -> uN w (sN w x * y) = uN w (x * y).
Proof. intros; rewrite <- (uN_mul_l w (sN w x)), uN_sN, uN_mul_l by lia; reflexivity. Qed.

Lemma uN_mul_sN_r w x y : 0 < w -> uN w (x * sN w y) = uN w (x * y).
Proof. intros; rewrite <- (uN_mul_r w x (sN w y)), uN_sN, uN_mul_r by lia; reflexivity. Qed.

#[export] Hint Resolve uN_range sN_range : cint.
#[export] Hint Extern 1 (0 <= _)%Z => lia : cint.
#[export] Hint Extern 1 (0 < _)%Z => lia : cint.
#[export] Hint Rewrite uN_uN uN_add_l uN_add_r uN_sub_l uN_sub_r uN_mul_l uN_mul_r : cint.
#[export] Hint Rewrite uN_sN sN_uN uN_mul_sN_l uN_mul_sN_r using lia : cint.

(** Two values that agree modulo [2^w] have the same casts. *)
Lemma uN_eq_sN w x y : 0 < w -> uN w x = uN w y -> sN w x = sN w y.
Proof. intros Hw H; rewrite <- (sN_uN w x), <- (sN_uN w y), H by lia; reflexivity. Qed.

Lemma uN_sub_eq0 w a b : is_uN w a -> is_uN w b -> uN w (a - b) = 0 -> a = b.
Proof.
  intros Ha Hb H. unfold is_uN, uN in *.
  assert (0 <= w) by (destruct (Z.lt_ge_cases w 0); [rewrite Z.pow_neg_r in Ha|]; lia).
  apply Z.mod_divide in H; [|apply Z.pow_nonzero; lia].
  destruct H as [k Hk]. assert (k = 0) by nia. lia.
Qed.

(** ** Bits of the casts *)

Lemma testbit_uN w x i : 0 <= w -> Z.testbit (uN w x) i = (i <? w) && Z.testbit x i.
Proof.
  intros; unfold uN; destruct (Z.ltb_spec i w).
  - rewrite Z.mod_pow2_bits_low by lia; reflexivity.
  - rewrite Z.mod_pow2_bits_high by lia; reflexivity.
Qed.

Lemma testbit_uN_high w x i : is_uN w x -> 0 <= w <= i -> Z.testbit x i = false.
Proof. intros H Hi; rewrite <- (uN_small w x H), testbit_uN by lia; rewrite (proj2 (Z.ltb_ge i w)) by lia; reflexivity. Qed.

Lemma testbit_sN_low w x i : 0 < w -> 0 <= i < w -> Z.testbit (sN w x) i = Z.testbit x i.
Proof.
  intros Hw Hi.
  assert (E : uN w (sN w x) = uN w x) by (apply uN_sN; lia).
  apply (f_equal (fun z => Z.testbit z i)) in E.
  rewrite !testbit_uN, (proj2 (Z.ltb_lt i w)) in E by lia. exact E.
Qed.

Lemma testbit_is_sN w x i : 0 < w -> is_sN w x -> w - 1 <= i -> Z.testbit x i = (x <? 0).
Proof.
  intros Hw [H1 H2] Hi. destruct (Z.ltb_spec x 0).
  - destruct (Z.eq_dec x (-1)) as [->|]; [apply Z.bits_m1; lia|].
    apply Z.bits_above_log2_neg; [lia|].
    apply Z.lt_le_trans with (w - 1); [|lia]. apply Z.log2_lt_pow2; lia.
  - destruct (Z.eq_dec x 0) as [->|]; [apply Z.bits_0|].
    apply Z.bits_above_log2; [lia|].
    apply Z.lt_le_trans with (w - 1); [|lia]. apply Z.log2_lt_pow2; lia.
Qed.

Lemma testbit_is_sN_top w x i : 0 < w -> is_sN w x -> w - 1 <= i -> Z.testbit x i = Z.testbit x (w - 1).
Proof. intros; rewrite (testbit_is_sN w x i), (testbit_is_sN w x (w - 1)) by (assumption || lia); reflexivity. Qed.

Lemma testbit_sN_high w x i : 0 < w -> w - 1 <= i -> Z.testbit (sN w x) i = Z.testbit x (w - 1).
Proof.
  intros Hw Hi.
  rewrite <- (testbit_sN_low w x (w - 1)) by lia.
  pose proof (sN_range w x Hw) as R.
  rewrite (testbit_is_sN w _ i), (testbit_is_sN w _ (w - 1)) by (assumption || lia). reflexivity.
Qed.

Lemma testbit_sN w x i :
  0 < w -> 0 <= i -> Z.testbit (sN w x) i = Z.testbit x (if i <? w then i else w - 1).
Proof.
  intros; destruct (Z.ltb_spec i w).
  - apply testbit_sN_low; lia.
  - apply testbit_sN_high; lia.
Qed.

Lemma testbit_shiftl a n i : 0 <= i -> Z.testbit (a << n) i = if i <? n then false else Z.testbit a (i - n).
Proof.
  intros; destruct (Z.ltb_spec i n).
  - apply Z.shiftl_spec_low; lia.
  - rewrite Z.shiftl_spec by lia; reflexivity.
Qed.

Lemma testbit_shiftr a n i : 0 <= i -> Z.testbit (a >> n) i = Z.testbit a (i + n).
Proof. intros; apply Z.shiftr_spec; lia. Qed.

(** A value whose bits repeat from the sign bit on fits. *)
Lemma is_sN_bits w x : 0 < w -> (forall i, w - 1 <= i -> Z.testbit x i = Z.testbit x (w - 1)) -> is_sN w x.
Proof.
  intros Hw H. replace x with (sN w x); [apply sN_range, Hw|]. apply Z.bits_inj'. intros i Hi.
  rewrite testbit_sN by lia. destruct (Z.ltb_spec i w); [reflexivity|]. symmetry. apply H. lia.
Qed.

Lemma is_sN_land w x y : 0 < w -> is_sN w x -> is_sN w y -> is_sN w (x .& y).
Proof. intros Hw Hx Hy. apply is_sN_bits; [exact Hw|]. intros i Hi. rewrite !Z.land_spec, !(testbit_is_sN_top w _ i) by assumption. reflexivity. Qed.
Lemma is_sN_lor w x y : 0 < w -> is_sN w x -> is_sN w y -> is_sN w (x .| y).
Proof. intros Hw Hx Hy. apply is_sN_bits; [exact Hw|]. intros i Hi. rewrite !Z.lor_spec, !(testbit_is_sN_top w _ i) by assumption. reflexivity. Qed.
Lemma is_sN_lxor w x y : 0 < w -> is_sN w x -> is_sN w y -> is_sN w (x .^ y).
Proof. intros Hw Hx Hy. apply is_sN_bits; [exact Hw|]. intros i Hi. rewrite !Z.lxor_spec, !(testbit_is_sN_top w _ i) by assumption. reflexivity. Qed.

Lemma lor_disjoint r x s : 0 <= s -> 0 <= r < 2 ^ s -> r .| (x << s) = r + x * 2 ^ s.
Proof.
  intros Hs Hr. assert (r .& (x << s) = 0) as D.
  { apply Z.bits_inj'. intros i Hi. rewrite Z.land_spec, Z.bits_0, testbit_shiftl by lia. destruct (Z.ltb_spec i s); [apply andb_false_r|].
    rewrite (testbit_uN_high s r i) by (unfold is_uN; lia). reflexivity. }
  rewrite <- Z.lxor_lor, <- Z.add_nocarry_lxor, Z.shiftl_mul_pow2 by assumption. reflexivity.
Qed.
(** A test of all the small numbers. *)
Lemma all_below (n : nat) (p : Z -> bool) : forallb p (map Z.of_nat (seq 0 n)) = true -> forall x, 0 <= x < Z.of_nat n -> p x = true.
Proof.
  intros H x Hx. rewrite forallb_forall in H. apply H. rewrite <- (Z2Nat.id x) by lia. apply in_map, in_seq. lia.
Qed.

(** ** Division *)

Lemma quot_fits w a b : 0 < w -> is_sN w a -> b <> 0 -> ~ (b = -1 /\ a = min_sN w) -> is_sN w (Z.quot a b).
Proof.
  unfold is_sN, min_sN; intros Hw Ha Hb Hne.
  destruct (Z.eq_dec b (-1)) as [->|].
  { change (-1) with (- (1)). rewrite Z.quot_opp_r, Z.quot_1_r by lia. lia. }
  destruct (Z.eq_dec b 1) as [->|]; [rewrite Z.quot_1_r; exact Ha|].
  assert (P : 2 ^ (w - 1) > 0) by (pose proof (Z.pow_pos_nonneg 2 (w - 1)); lia).
  assert (Q : Z.abs (Z.quot a b) * 2 <= Z.abs a).
  { rewrite <- Z.quot_abs by lia. pose proof (Z.mul_quot_le (Z.abs a) (Z.abs b)).
    pose proof (Z.quot_pos (Z.abs a) (Z.abs b)). nia. }
  lia.
Qed.

(** ** Lists as C arrays *)

(** [a[i] = x]; the callers check the bound. *)
Fixpoint set_nth {A} (i : nat) (x : A) (l : list A) : list A :=
  match l, i with
  | [], _ => []
  | _ :: t, O => x :: t
  | y :: t, S j => y :: set_nth j x t
  end.

Lemma length_set_nth {A} (x : A) l : forall i, length (set_nth i x l) = length l.
Proof. induction l as [|y l IH]; intros [|i]; cbn; auto. Qed.

Lemma nth_error_set_nth {A} (x : A) l : forall i j,
  nth_error (set_nth i x l) j =
  if Nat.eqb i j then (if Nat.ltb j (length l) then Some x else None) else nth_error l j.
Proof.
  induction l as [|y l IH]; intros [|i] [|j]; cbn; try reflexivity.
  - destruct (Nat.eqb i j); reflexivity.
  - rewrite IH. reflexivity.
Qed.

(** ** Standard-library bit functions ([<bit>]) *)

Definition bit_width (x : Z) : Z := if x =? 0 then 0 else Z.log2 x + 1.

Definition countl_zero (w x : Z) : Z := w - bit_width x.

Fixpoint pos_ctz (p : positive) : Z :=
  match p with
  | xO q => 1 + pos_ctz q
  | _ => 0
  end.

Definition countr_zero (w x : Z) : Z :=
  match x with
  | Zpos p => pos_ctz p
  | _ => w
  end.

Fixpoint pos_popcount (p : positive) : Z :=
  match p with
  | xO q => pos_popcount q
  | xI q => 1 + pos_popcount q
  | xH => 1
  end.

Definition popcount (x : Z) : Z :=
  match x with
  | Zpos p => pos_popcount p
  | _ => 0
  end.

Definition has_single_bit (x : Z) : bool := popcount x =? 1.

Definition bit_ceil (x : Z) : Z := if x <=? 1 then 1 else 2 ^ bit_width (x - 1).

Definition rotl (w x s : Z) : Z :=
  let r := s mod w in uN w ((x << r) .| (x >> (w - r))).

Definition rotr (w x s : Z) : Z :=
  let r := s mod w in uN w ((x >> r) .| (x << (w - r))).

Lemma pos_popcount_pos p : 0 < pos_popcount p.
Proof. induction p; cbn [pos_popcount]; lia. Qed.

Lemma pos_ctz_nonneg p : 0 <= pos_ctz p.
Proof. induction p; cbn [pos_ctz]; lia. Qed.

(** A number with one bit is a power of two and conversely. *)
Lemma pos_popcount_1 p : pos_popcount p = 1 -> Zpos p = 2 ^ pos_ctz p.
Proof.
  induction p as [p IH|p IH|]; cbn [pos_popcount pos_ctz]; intros H; [|rewrite Z.pow_add_r|reflexivity].
  - pose proof (pos_popcount_pos p); lia.
  - rewrite Pos2Z.inj_xO, IH by lia; reflexivity.
  - lia.
  - apply pos_ctz_nonneg.
Qed.

Lemma popcount_pow2 k : 0 <= k -> popcount (2 ^ k) = 1.
Proof.
  intros Hk; pattern k; apply natlike_ind; [reflexivity| |exact Hk].
  intros x Hx IH. rewrite Z.pow_succ_r by lia.
  destruct (2 ^ x) eqn:E; cbn in *; try lia.
Qed.

Lemma has_single_bit_pow2 x : 0 <= x -> has_single_bit x = true <-> exists k, 0 <= k /\ x = 2 ^ k.
Proof.
  intros Hx; unfold has_single_bit; rewrite Z.eqb_eq; split.
  - destruct x; cbn; intros H; try lia. exists (pos_ctz p).
    auto using pos_popcount_1, pos_ctz_nonneg.
  - intros [k [Hk ->]]; apply popcount_pow2; exact Hk.
Qed.

Lemma pos_ctz_spec p : exists q, Zpos p = (2 * q + 1) * 2 ^ pos_ctz p.
Proof.
  induction p as [p IH|p [q IH]|]; cbn [pos_ctz].
  - exists (Zpos p); lia.
  - exists q. rewrite Z.pow_add_r by (try lia; apply pos_ctz_nonneg). rewrite Pos2Z.inj_xO, IH; lia.
  - exists 0; reflexivity.
Qed.

(** The trailing-zero count splits a non-zero value into an odd part and a
    power of two; it is below the width. *)
Lemma countr_zero_spec w x :
  0 < x < 2 ^ w -> 0 <= countr_zero w x < w /\ exists q, x = (2 * q + 1) * 2 ^ countr_zero w x.
Proof.
  intros [H0 Hw]; destruct x as [|p|]; try lia; cbn [countr_zero].
  destruct (pos_ctz_spec p) as [q Hq]; pose proof (pos_ctz_nonneg p).
  split; [|eauto]. split; [lia|].
  assert (0 < 2 ^ pos_ctz p) by (apply Z.pow_pos_nonneg; lia).
  assert (0 < 2 * q + 1) by nia.
  apply (Z.pow_lt_mono_r_iff 2); [lia| |nia].
  destruct (Z.lt_ge_cases w 0); [rewrite Z.pow_neg_r in Hw|]; lia.
Qed.
