(* ===== verification/Bits.v ===== *)
(** * Deciding equalities of bit-field expressions by reflection

    The encoders and decoders of the assembler, the simulator and the stream
    classes shuffle bit fields with shifts, masks and casts.  An equality of
    two such expressions is decided here by computing, for every position, the
    symbolic bit of both sides.  [bits_solve] reifies the goal, takes the
    ranges and the alignment of the variables from the context ([is_uN],
    [is_sN], [low_zero]) and evaluates the checker. *)

From Stdlib Require Import ZArith List Bool Lia.
From S2P Require Import Prelude.
Import ListNotations.

(** The [k] low bits of [x] are clear. *)
Definition low_zero (k x : Z) : Prop := forall i, 0 <= i < k -> Z.testbit x i = false.

(** What is known of a variable: nothing, or its type, with [low] clear low bits. *)
Inductive vinfo := Unknown | Uns (w low : Z) | Sgn (w low : Z).

Definition vok (v : vinfo) (x : Z) : Prop :=
  match v with
  | Unknown => True
  | Uns w low => 0 <= w /\ is_uN w x /\ low_zero low x
  | Sgn w low => 0 < w /\ is_sN w x /\ low_zero low x
  end.

Inductive expr :=
  | EVar (n : nat)
  | EConst (z : Z)
  | ELor (a b : expr)
  | ELand (a b : expr)
  | ELxor (a b : expr)
  | EShl (a : expr) (k : Z)
  | EShr (a : expr) (k : Z)
  | EU (w : Z) (a : expr)
  | ES (w : Z) (a : expr)
  | ENot (a : expr).

Fixpoint denote (env : list Z) (e : expr) : Z :=
  match e with
  | EVar n => nth n env 0
  | EConst z => z
  | ELor a b => denote env a .| denote env b
  | ELand a b => denote env a .& denote env b
  | ELxor a b => denote env a .^ denote env b
  | EShl a k => denote env a << k
  | EShr a k => denote env a >> k
  | EU w a => uN w (denote env a)
  | ES w a => sN w (denote env a)
  | ENot a => Z.lnot (denote env a)
  end.

(** Conversion unfolds the reified form before the operations it denotes. *)
Strategy expand [denote nth].

(** Symbolic bits: a constant, a bit of a variable, or a combination. *)
Inductive sbit :=
  | BF
  | BT
  | BV (n : nat) (i : Z)
  | BOr (a b : sbit)
  | BAnd (a b : sbit)
  | BXor (a b : sbit).

Fixpoint sdenote (env : list Z) (s : sbit) : bool :=
  match s with
  | BF => false
  | BT => true
  | BV n i => Z.testbit (nth n env 0) i
  | BOr a b => sdenote env a || sdenote env b
  | BAnd a b => sdenote env a && sdenote env b
  | BXor a b => xorb (sdenote env a) (sdenote env b)
  end.

Fixpoint sbit_eqb (a b : sbit) : bool :=
  match a, b with
  | BF, BF | BT, BT => true
  | BV n i, BV m j => Nat.eqb n m && (i =? j)
  | BOr a b, BOr c d | BAnd a b, BAnd c d | BXor a b, BXor c d => sbit_eqb a c && sbit_eqb b d
  | _, _ => false
  end.

Definition sor (a b : sbit) : sbit :=
  match a, b with
  | BF, x | x, BF => x
  | BT, _ | _, BT => BT
  | _, _ => if sbit_eqb a b then a else BOr a b
  end.

Definition sand (a b : sbit) : sbit :=
  match a, b with
  | BF, _ | _, BF => BF
  | BT, x | x, BT => x
  | _, _ => if sbit_eqb a b then a else BAnd a b
  end.

Definition sxor (a b : sbit) : sbit :=
  match a, b with
  | BF, x | x, BF => x
  | _, _ => if sbit_eqb a b then BF else BXor a b
  end.

Definition var_bit (v : vinfo) (n : nat) (i : Z) : sbit :=
  match v with
  | Unknown => BV n i
  | Uns w low => if (i <? low) || (w <=? i) then BF else BV n i
  | Sgn w low => if i <? low then BF else if w <=? i then BV n (w - 1) else BV n i
  end.

Fixpoint bit (vs : list vinfo) (e : expr) (i : Z) : sbit :=
  match e with
  | EVar n => var_bit (nth n vs Unknown) n i
  | EConst z => if Z.testbit z i then BT else BF
  | ELor a b => sor (bit vs a i) (bit vs b i)
  | ELand a b => sand (bit vs a i) (bit vs b i)
  | ELxor a b => sxor (bit vs a i) (bit vs b i)
  | EShl a k => if i <? k then BF else bit vs a (i - k)
  | EShr a k => if i + k <? 0 then BF else bit vs a (i + k)
  | EU w a => if i <? w then bit vs a i else BF
  | ES w a => bit vs a (if i <? w then i else w - 1)
  | ENot a => sxor BT (bit vs a i)
  end.

(** The widths of the casts are legal. *)
Fixpoint wf (e : expr) : bool :=
  match e with
  | EVar _ | EConst _ => true
  | ELor a b | ELand a b | ELxor a b => wf a && wf b
  | EShl a _ | EShr a _ | ENot a => wf a
  | EU w a => (0 <=? w) && wf a
  | ES w a => (0 <? w) && wf a
  end.

(** [bound vs e = Some n]: every bit from position [n] on equals bit [n]. *)
Definition omax (a b : option Z) : option Z :=
  match a, b with Some x, Some y => Some (Z.max x y) | _, _ => None end.

Fixpoint bound (vs : list vinfo) (e : expr) : option Z :=
  match e with
  | EVar n => match nth n vs Unknown with Unknown => None | Uns w _ => Some w | Sgn w _ => Some (w - 1) end
  | EConst z => Some (Z.log2 (Z.abs z) + 1)
  | ELand a (EConst z) => if 0 <=? z then Some (Z.log2 z + 1) else omax (bound vs a) (Some (Z.log2 (Z.abs z) + 1))
  | ELor a b | ELand a b | ELxor a b => omax (bound vs a) (bound vs b)
  | EShl a k => if k <? 0 then None else option_map (fun n => n + k) (bound vs a)
  | EShr a k => if k <? 0 then None else option_map (fun n => Z.max 0 (n - k)) (bound vs a)
  | EU w _ => Some w
  | ES w _ => Some (w - 1)
  | ENot a => bound vs a
  end.

Fixpoint check_below (n : nat) (vs : list vinfo) (a b : expr) : bool :=
  match n with
  | O => true
  | S m => sbit_eqb (bit vs a (Z.of_nat m)) (bit vs b (Z.of_nat m)) && check_below m vs a b
  end.

Definition check (vs : list vinfo) (a b : expr) : bool :=
  wf a && wf b &&
  match omax (bound vs a) (bound vs b) with
  | Some n => check_below (Z.to_nat n + 1) vs a b
  | None => false
  end.

(** ** Soundness *)

Lemma sbit_eqb_eq a : forall b, sbit_eqb a b = true -> a = b.
Proof.
  induction a; intros [] H; cbn in H; try discriminate; try reflexivity;
    apply andb_true_iff in H; destruct H as [H1 H2]; f_equal; auto.
  - apply Nat.eqb_eq; exact H1.
  - apply Z.eqb_eq; exact H2.
Qed.

Lemma sor_ok env a b : sdenote env (sor a b) = sdenote env a || sdenote env b.
Proof.
  destruct a, b; cbn [sor sdenote]; rewrite ?orb_false_r, ?orb_true_r; try reflexivity;
    match goal with |- context [if ?c then _ else _] => destruct c eqn:E; [|reflexivity] end;
    apply sbit_eqb_eq in E; rewrite <- ?E; cbn [sdenote]; rewrite ?orb_diag; congruence || (injection E as -> ->; cbn; rewrite ?orb_diag; reflexivity).
Qed.

Lemma sand_ok env a b : sdenote env (sand a b) = sdenote env a && sdenote env b.
Proof.
  destruct a, b; cbn [sand sdenote]; rewrite ?andb_false_r, ?andb_true_r; try reflexivity;
    match goal with |- context [if ?c then _ else _] => destruct c eqn:E; [|reflexivity] end;
    apply sbit_eqb_eq in E; rewrite <- ?E; cbn [sdenote]; rewrite ?andb_diag; congruence || (injection E as -> ->; cbn; rewrite ?andb_diag; reflexivity).
Qed.

Lemma sxor_ok env a b : sdenote env (sxor a b) = xorb (sdenote env a) (sdenote env b).
Proof.
  destruct a, b; cbn [sxor sdenote]; rewrite ?xorb_false_r, ?xorb_false_l; try reflexivity;
    match goal with |- context [if ?c then _ else _] => destruct c eqn:E; [|reflexivity] end;
    apply sbit_eqb_eq in E; try discriminate; try reflexivity;
    injection E as -> ->; cbn [sdenote]; rewrite xorb_nilpotent; reflexivity.
Qed.

Definition env_ok (vs : list vinfo) (env : list Z) : Prop :=
  forall n, vok (nth n vs Unknown) (nth n env 0).

Lemma var_bit_ok vs env n i :
  env_ok vs env -> 0 <= i -> sdenote env (var_bit (nth n vs Unknown) n i) = Z.testbit (nth n env 0) i.
Proof.
  intros H Hi; specialize (H n). destruct (nth n vs Unknown) as [|w low|w low]; cbn [var_bit vok] in *.
  - reflexivity.
  - destruct H as (Hw & Hx & Hl).
    destruct (Z.ltb_spec i low); cbn; [rewrite Hl by lia; reflexivity|].
    destruct (Z.leb_spec w i); cbn; [|reflexivity].
    rewrite (testbit_uN_high w) by (assumption || lia); reflexivity.
  - destruct H as (Hw & Hx & Hl).
    destruct (Z.ltb_spec i low); cbn; [rewrite Hl by lia; reflexivity|].
    destruct (Z.leb_spec w i); cbn; [|reflexivity].
    rewrite (testbit_is_sN_top w _ i) by (assumption || lia); reflexivity.
Qed.

Lemma bit_ok vs env e : env_ok vs env -> forall i, wf e = true -> 0 <= i ->
  sdenote env (bit vs e i) = Z.testbit (denote env e) i.
Proof.
  intros H; induction e; intros i Hw Hi; cbn [bit denote wf] in *;
    try (apply andb_true_iff in Hw; destruct Hw as [Hw1 Hw2]).
  - apply var_bit_ok; assumption.
  - destruct (Z.testbit z i); reflexivity.
  - rewrite sor_ok, Z.lor_spec, IHe1, IHe2 by assumption; reflexivity.
  - rewrite sand_ok, Z.land_spec, IHe1, IHe2 by assumption; reflexivity.
  - rewrite sxor_ok, Z.lxor_spec, IHe1, IHe2 by assumption; reflexivity.
  - rewrite testbit_shiftl by lia. destruct (Z.ltb_spec i k); [reflexivity|]. apply IHe; [assumption|lia].
  - rewrite testbit_shiftr by lia. destruct (Z.ltb_spec (i + k) 0).
    + rewrite Z.testbit_neg_r by lia; reflexivity.
    + apply IHe; [assumption|lia].
  - apply Z.leb_le in Hw1. rewrite testbit_uN by lia. destruct (Z.ltb_spec i w); [|reflexivity].
    cbn [andb]. apply IHe; assumption.
  - apply Z.ltb_lt in Hw1. rewrite testbit_sN by lia. apply IHe; [assumption|].
    destruct (Z.ltb_spec i w); lia.
  - rewrite sxor_ok, Z.lnot_spec, IHe by assumption. reflexivity.
Qed.

(** All bits of [x] from position [n] on are the same. *)
Definition const_above (x n : Z) : Prop :=
  0 <= n /\ forall i j, n <= i -> n <= j -> Z.testbit x i = Z.testbit x j.

Lemma const_above_pointwise x n b : 0 <= n -> (forall i, n <= i -> Z.testbit x i = b) -> const_above x n.
Proof. intros H0 H; split; [exact H0|]. intros; rewrite !H by lia; reflexivity. Qed.

Lemma const_above_const z : const_above z (Z.log2 (Z.abs z) + 1).
Proof.
  pose proof (Z.log2_nonneg (Z.abs z)).
  apply const_above_pointwise with (b := z <? 0); [lia|]. intros i Hi.
  destruct (Z.ltb_spec z 0).
  - apply Z.bits_above_log2_neg; [lia|].
    pose proof (Z.log2_le_mono (Z.pred (- z)) (Z.abs z) ltac:(lia)). lia.
  - apply Z.bits_above_log2; [lia|]. rewrite Z.abs_eq in Hi by lia. lia.
Qed.

Lemma const_above_mono x n m : n <= m -> const_above x n -> const_above x m.
Proof. intros Hm [H0 H]; split; [lia|]. intros; apply H; lia. Qed.

Lemma const_above_op2 (op : Z -> Z -> Z) (f : bool -> bool -> bool) x y n m :
  (forall a b i, Z.testbit (op a b) i = f (Z.testbit a i) (Z.testbit b i)) ->
  const_above x n -> const_above y m -> const_above (op x y) (Z.max n m).
Proof.
  intros Hop [Hn Hx] [Hm Hy]; split; [lia|]. intros i j Hi Hj.
  rewrite !Hop, (Hx i j), (Hy i j) by lia. reflexivity.
Qed.

Lemma const_above_land_const x z : 0 <= z -> const_above (x .& z) (Z.log2 z + 1).
Proof.
  intros Hz. pose proof (Z.log2_nonneg z).
  apply const_above_pointwise with (b := false); [lia|]. intros i Hi.
  rewrite Z.land_spec, (Z.bits_above_log2 z) by lia. apply andb_false_r.
Qed.

Lemma const_above_var v x n : vok v x ->
  match v with Unknown => None | Uns w _ => Some w | Sgn w _ => Some (w - 1) end = Some n -> const_above x n.
Proof.
  destruct v as [|w low|w low]; cbn [vok]; intros H [= <-]; destruct H as (Hw & Hx & _).
  - apply const_above_pointwise with (b := false); [lia|]. intros; apply (testbit_uN_high w); (assumption || lia).
  - apply const_above_pointwise with (b := x <? 0); [lia|]. intros; apply (testbit_is_sN w); (assumption || lia).
Qed.

Ltac omax_inv :=
  match goal with
  | H : omax ?a ?b = Some _ |- _ =>
      destruct a eqn:?, b eqn:?; cbn [omax] in H; try discriminate; injection H as <-
  end.

Lemma bound_ok vs env e : env_ok vs env -> wf e = true -> forall n, bound vs e = Some n ->
  const_above (denote env e) n.
Proof.
  intros H; induction e; cbn [wf]; intros Hw N HN;
    try (apply andb_true_iff in Hw; destruct Hw as [Hw1 Hw2]).
  - apply (const_above_var (nth n vs Unknown)); [apply H|exact HN].
  - injection HN as <-. apply const_above_const.
  - cbn [bound denote] in *. omax_inv. apply (const_above_op2 Z.lor orb); auto using Z.lor_spec.
  - assert (HL : omax (bound vs e1) (bound vs e2) = Some N -> const_above (denote env (ELand e1 e2)) N).
    { intros HM; omax_inv. apply (const_above_op2 Z.land andb); auto using Z.land_spec. }
    destruct e2; try (apply HL; exact HN).
    cbn [bound] in HN. destruct (Z.leb_spec 0 z) as [Hz|Hz]; [|apply HL; exact HN].
    injection HN as <-. apply const_above_land_const; exact Hz.
  - cbn [bound denote] in *. omax_inv. apply (const_above_op2 Z.lxor xorb); auto using Z.lxor_spec.
  - cbn [bound denote] in *. destruct (Z.ltb_spec k 0); [discriminate|].
    destruct (bound vs e) as [n|]; [|discriminate]. injection HN as <-.
    destruct (IHe Hw n eq_refl) as [Hn0 Hc]. split; [lia|]. intros i j Hi Hj.
    rewrite !Z.shiftl_spec by lia. apply Hc; lia.
  - cbn [bound denote] in *. destruct (Z.ltb_spec k 0); [discriminate|].
    destruct (bound vs e) as [n|]; [|discriminate]. injection HN as <-.
    destruct (IHe Hw n eq_refl) as [Hn0 Hc]. split; [lia|]. intros i j Hi Hj.
    rewrite !Z.shiftr_spec by lia. apply Hc; lia.
  - injection HN as <-. apply Z.leb_le in Hw1. cbn [denote].
    apply const_above_pointwise with (b := false); [lia|]. intros i Hi.
    rewrite testbit_uN, (proj2 (Z.ltb_ge i w)) by lia. reflexivity.
  - injection HN as <-. apply Z.ltb_lt in Hw1. cbn [denote]. split; [lia|]. intros i j Hi Hj.
    rewrite !testbit_sN_high by lia. reflexivity.
  - destruct (IHe Hw N HN) as [Hn0 Hc]. split; [exact Hn0|]. intros i j Hi Hj.
    cbn [denote]. rewrite !Z.lnot_spec, (Hc i j) by lia. reflexivity.
Qed.

Lemma check_below_ok n vs env a b : env_ok vs env -> wf a = true -> wf b = true ->
  check_below n vs a b = true ->
  forall i, 0 <= i < Z.of_nat n -> Z.testbit (denote env a) i = Z.testbit (denote env b) i.
Proof.
  intros H Ha Hb; induction n as [|n IH]; cbn [check_below]; intros Hc i Hi; [lia|].
  apply andb_true_iff in Hc; destruct Hc as [H1 H2].
  destruct (Z.eq_dec i (Z.of_nat n)) as [->|]; [|apply IH; [exact H2|lia]].
  apply sbit_eqb_eq in H1. rewrite <- (bit_ok vs env a), <- (bit_ok vs env b), H1 by (assumption || lia).
  reflexivity.
Qed.

Theorem check_sound vs env a b : env_ok vs env -> check vs a b = true -> denote env a = denote env b.
Proof.
  intros H Hc; unfold check in Hc.
  apply andb_true_iff in Hc; destruct Hc as [Hw Hc]. apply andb_true_iff in Hw; destruct Hw as [Ha Hb].
  destruct (omax (bound vs a) (bound vs b)) as [n|] eqn:E; [|discriminate].
  assert (Hbelow := check_below_ok _ vs env a b H Ha Hb Hc).
  destruct (bound vs a) as [na|] eqn:Ea; [|discriminate].
  destruct (bound vs b) as [nb|] eqn:Eb; [|discriminate]. injection E as <-.
  destruct (const_above_mono _ _ (Z.max na nb) (Z.le_max_l _ _) (bound_ok vs env a H Ha na Ea)) as [Hn Ca].
  destruct (const_above_mono _ _ (Z.max na nb) (Z.le_max_r _ _) (bound_ok vs env b H Hb nb Eb)) as [_ Cb].
  apply Z.bits_inj'; intros i Hi. destruct (Z.lt_ge_cases i (Z.max na nb + 1)).
  - apply Hbelow; lia.
  - rewrite (Ca i (Z.max na nb)), (Cb i (Z.max na nb)) by lia. apply Hbelow; lia.
Qed.

(** ** Reification *)

Lemma env_ok_nil : env_ok [] [].
Proof. intros [|n]; exact I. Qed.

Lemma env_ok_cons v vs x env : vok v x -> env_ok vs env -> env_ok (v :: vs) (x :: env).
Proof. intros Hv H [|n]; [exact Hv|apply H]. Qed.

Lemma vok_uns w low x : 0 <= w -> is_uN w x -> low_zero low x -> vok (Uns w low) x.
Proof. cbn; auto. Qed.

Lemma vok_sgn w low x : 0 < w -> is_sN w x -> low_zero low x -> vok (Sgn w low) x.
Proof. cbn; auto. Qed.

Lemma low_zero_0 x : low_zero 0 x.
Proof. intros i Hi; lia. Qed.

Ltac bits_is_pos p := lazymatch p with xI ?q => bits_is_pos q | xO ?q => bits_is_pos q | xH => idtac end.
Ltac bits_is_Z z := lazymatch z with Z0 => idtac | Zpos ?p => bits_is_pos p | Zneg ?p => bits_is_pos p end.

Ltac bits_index x env :=
  lazymatch env with
  | x :: _ => constr:(O)
  | _ :: ?t => let n := bits_index x t in constr:(S n)
  end.

Ltac bits_add x env :=
  lazymatch env with
  | context [x] => env
  | _ => constr:(x :: env)
  end.

(** The atoms of an expression; a closed term is evaluated to a constant. *)
Ltac bits_value t :=
  let z := eval vm_compute in t in
  let _ := match goal with _ => bits_is_Z z end in z.

Ltac bits_atoms t env :=
  lazymatch t with
  | Z.lor ?a ?b => let env := bits_atoms a env in bits_atoms b env
  | Z.land ?a ?b => let env := bits_atoms a env in bits_atoms b env
  | Z.lxor ?a ?b => let env := bits_atoms a env in bits_atoms b env
  | Z.shiftl ?a _ => bits_atoms a env
  | Z.shiftr ?a _ => bits_atoms a env
  | uN _ ?a => bits_atoms a env
  | sN _ ?a => bits_atoms a env
  | Z.lnot ?a => bits_atoms a env
  | _ => match goal with
         | _ => let _ := match goal with _ => is_var t end in bits_add t env
         | _ => let _ := bits_value t in env
         | _ => bits_add t env
         end
  end.

Ltac bits_reify t env :=
  lazymatch t with
  | Z.lor ?a ?b => let a := bits_reify a env in let b := bits_reify b env in constr:(ELor a b)
  | Z.land ?a ?b => let a := bits_reify a env in let b := bits_reify b env in constr:(ELand a b)
  | Z.lxor ?a ?b => let a := bits_reify a env in let b := bits_reify b env in constr:(ELxor a b)
  | Z.shiftl ?a ?k => let a := bits_reify a env in let k := bits_value k in constr:(EShl a k)
  | Z.shiftr ?a ?k => let a := bits_reify a env in let k := bits_value k in constr:(EShr a k)
  | uN ?w ?a => let a := bits_reify a env in let w := bits_value w in constr:(EU w a)
  | sN ?w ?a => let a := bits_reify a env in let w := bits_value w in constr:(ES w a)
  | Z.lnot ?a => let a := bits_reify a env in constr:(ENot a)
  | _ => match goal with
         | _ => let n := bits_index t env in constr:(EVar n)
         | _ => let z := bits_value t in constr:(EConst z)
         end
  end.

Ltac bits_low x :=
  match goal with
  | H : low_zero ?k x |- _ => constr:(k)
  | _ => constr:(0)
  end.

Ltac bits_info x :=
  match goal with
  | H : is_uN ?w x |- _ => let l := bits_low x in constr:(Uns w l)
  | H : is_sN ?w x |- _ => let l := bits_low x in constr:(Sgn w l)
  | _ => constr:(Unknown)
  end.

Ltac bits_infos env :=
  lazymatch env with
  | nil => constr:(@nil vinfo)
  | ?x :: ?t => let v := bits_info x in let vs := bits_infos t in constr:(v :: vs)
  end.

Ltac bits_vok :=
  lazymatch goal with
  | |- vok Unknown _ => exact I
  | |- vok (Uns _ _) _ => apply vok_uns; [lia | assumption | first [assumption | apply low_zero_0]]
  | |- vok (Sgn _ _) _ => apply vok_sgn; [lia | assumption | first [assumption | apply low_zero_0]]
  end.

Ltac bits_env_ok :=
  lazymatch goal with
  | |- env_ok nil nil => apply env_ok_nil
  | |- env_ok (_ :: _) (_ :: _) => apply env_ok_cons; [bits_vok | bits_env_ok]
  end.

(** Decides an equality of bit-field expressions. *)
Ltac bits_solve :=
  match goal with
  | |- @eq Z ?a ?b =>
      let env := bits_atoms a (@nil Z) in
      let env := bits_atoms b env in
      let vs := bits_infos env in
      let ea := bits_reify a env in
      let eb := bits_reify b env in
      let H := fresh in
      assert (H : denote env ea = denote env eb)
        by (apply (check_sound vs env ea eb); [bits_env_ok | vm_compute; reflexivity]);
      cbv [denote nth] in H; exact H
  end.
