(* ===== verification/Utils.v ===== *)
(** * Platform utilities ([runtime/platform/utils.h])

    The integer helpers of class [Utils] that the other components call, at
    the widths the callers use ([intptr_t] and [int64_t] are 64-bit).  An
    [ASSERT] of the source is the [None] of an [option]. *)

From Stdlib Require Import ZArith Lia Bool.
From S2P Require Import Prelude.

Definition kMinInt32 : Z := - 2 ^ 31.
Definition kMaxInt32 : Z := 2 ^ 31 - 1.
Definition kMaxUint32 : Z := 2 ^ 32 - 1.
Definition kMinInt64 : Z := - 2 ^ 63.
Definition kMaxInt64 : Z := 2 ^ 63 - 1.
Definition kMaxUint64 : Z := 2 ^ 64 - 1.
Definition kBitsPerInt64 : Z := 64.

(** [Utils::IsPowerOfTwo<T>] for a 64-bit [T]: the operand is cast to unsigned. *)
Definition IsPowerOfTwo (x : Z) : bool := has_single_bit (u64 x).

(** The loop of [ShiftForPowerOfTwo]: [while (x > 1) { num_shifts++; x >>= 1; }]. *)
Fixpoint ShiftForPowerOfTwo_loop (fuel : nat) (x num_shifts : Z) : Z :=
  match fuel with
  | O => num_shifts
  | S f => if x >? 1 then ShiftForPowerOfTwo_loop f (x >> 1) (num_shifts + 1) else num_shifts
  end.

(** [ShiftForPowerOfTwo<T>]: [x] is the value at its type [T], so it is negative
    when [T] is signed and the operand's top bit is set. *)
Definition ShiftForPowerOfTwo (x : Z) : option Z :=
  if IsPowerOfTwo x then Some (ShiftForPowerOfTwo_loop 64 x 0) else None.

(** [IsAligned]; its [ASSERT]s on [alignment] and [offset] hold at every call
    (the callers pass literals). *)
Definition IsAligned (x alignment offset : Z) : bool := (u64 x .& (alignment - 1)) =? offset.

Definition RoundDown (x alignment : Z) : option Z :=
  if IsPowerOfTwo alignment then Some (s64 (u64 x .& u64 (- alignment))) else None.

Definition RoundUp (x alignment offset : Z) : option Z :=
  if offset <? alignment
  then option_map (fun r => s64 (r - offset)) (RoundDown (s64 (x + alignment - 1 + offset)) alignment)
  else None.

Definition RoundUpToPowerOfTwo (x : Z) : Z := if x =? 0 then 0 else bit_ceil x.

(** [IsInt<intptr_t>(N, value)]; the [ASSERT(N >= 1)] holds at every call. *)
Definition IsInt (N value : Z) : bool :=
  if N >=? 64 then true
  else let limit := 1 << (N - 1) in (- limit <=? value) && (value <? limit).

Definition IsUint (N value : Z) : bool :=
  if value <? 0 then false
  else if N >=? 64 - 1 then true
  else let limit := (1 << N) - 1 in value <=? limit.

Definition CountTrailingZeros64 (x : Z) : Z := countr_zero 64 (u64 x).

(** [HighestBit]: five halving steps on the magnitude. *)
Definition HighestBit (v : Z) : Z :=
  let x := u64 (if v >? 0 then v else - v) in
  let step k '(x, r) := let t := x >> k in if negb (t =? 0) then (t, r + k) else (x, r) in
  let '(x, r) := step 2 (step 4 (step 8 (step 16 (step 32 (x, 0))))) in
  if x >? 1 then r + 1 else r.

Definition BitLength (value : Z) : Z := bit_width (u64 (value .^ (value >> (8 * 8 - 1)))).

Definition RangeCheck (offset count length : Z) : bool :=
  (offset >=? 0) && (count >=? 0) && (length >=? 0) && (count <=? s64 (length - offset)).

Definition WillAddOverflow (a b : Z) : bool :=
  ((b >? 0) && (a >? kMaxInt64 - b)) || ((b <? 0) && (a <? kMinInt64 - b)).

Definition WillSubOverflow (a b : Z) : bool :=
  ((b >? 0) && (a <? kMinInt64 + b)) || ((b <? 0) && (a >? kMaxInt64 + b)).

Definition AddWithWrapAround (a b : Z) : Z := s64 (u64 (u64 a + u64 b)).
Definition SubWithWrapAround (a b : Z) : Z := s64 (u64 (u64 a - u64 b)).
Definition MulWithWrapAround (a b : Z) : Z := s64 (u64 (u64 a * u64 b)).
Definition NegWithWrapAround (a : Z) : Z := s64 (u64 (- u64 a)).

Definition ShiftLeftWithTruncation (a b : Z) : option Z :=
  if b >=? 0
  then Some (if b >=? kBitsPerInt64 then 0 else s64 (u64 (u64 a << b)))
  else None.

Definition Low16Bits (value : Z) : Z := s32 (value .& 0xffff).
Definition High16Bits (value : Z) : Z := s32 (value >> 16).
Definition Low32Bits (value : Z) : Z := s32 value.
Definition High32Bits (value : Z) : Z := s32 (value >> 32).
Definition LowHighTo64Bits (low high : Z) : Z := s64 (u64 (u64 high << 32) .| (low .& 0x0ffffffff)).

(** ** Correctness *)

Lemma IsInt_spec N v : 1 <= N < 64 -> IsInt N v = true <-> is_sN N v.
Proof.
  intros HN; unfold IsInt, is_sN.
  rewrite Z.geb_leb, (proj2 (Z.leb_gt 64 N)) by lia. cbv zeta.
  rewrite Z.shiftl_1_l, andb_true_iff, Z.leb_le, Z.ltb_lt. reflexivity.
Qed.

Lemma IsUint_spec N v : 1 <= N < 63 -> IsUint N v = true <-> is_uN N v.
Proof.
  intros HN; unfold IsUint, is_uN. destruct (Z.ltb_spec v 0); [split; [discriminate|lia]|].
  rewrite Z.geb_leb, (proj2 (Z.leb_gt (64 - 1) N)) by lia. cbv zeta.
  rewrite Z.shiftl_1_l, Z.leb_le. lia.
Qed.

Lemma ShiftForPowerOfTwo_loop_pow2 k : forall fuel r,
  0 <= k <= Z.of_nat fuel -> ShiftForPowerOfTwo_loop fuel (2 ^ k) r = r + k.
Proof.
  intros fuel; revert k; induction fuel as [|f IH]; intros k r Hk.
  - assert (k = 0) as -> by lia. cbn. lia.
  - cbn [ShiftForPowerOfTwo_loop]. destruct (Z.eq_dec k 0) as [->|].
    + cbn; lia.
    + rewrite Z.gtb_ltb, (proj2 (Z.ltb_lt 1 (2 ^ k))) by (apply Z.pow_gt_1; lia).
      rewrite Z.shiftr_div_pow2, Z.pow_1_r by lia.
      replace (2 ^ k) with (2 ^ (k - 1) * 2) by (rewrite Z.mul_comm, <- Z.pow_succ_r by lia; f_equal; lia).
      rewrite Z.div_mul by lia. rewrite IH by lia. lia.
Qed.

Lemma IsPowerOfTwo_pow2 x : is_uN 64 x -> IsPowerOfTwo x = true <-> exists k, 0 <= k < 64 /\ x = 2 ^ k.
Proof.
  intros Hx; unfold IsPowerOfTwo; rewrite uN_small by exact Hx.
  rewrite has_single_bit_pow2 by (unfold is_uN in Hx; lia). split; intros [k [Hk ->]]; exists k; split; try lia.
  destruct Hx as [_ Hx]. apply Z.pow_lt_mono_r_iff in Hx; lia.
Qed.

Lemma ShiftForPowerOfTwo_pow2 k : 0 <= k < 64 -> ShiftForPowerOfTwo (2 ^ k) = Some k.
Proof.
  intros Hk. assert (is_uN 64 (2 ^ k)) by (split; [apply Z.pow_nonneg; lia|apply Z.pow_lt_mono_r; lia]).
  unfold ShiftForPowerOfTwo. rewrite (proj2 (IsPowerOfTwo_pow2 (2 ^ k) H)) by (exists k; lia).
  rewrite ShiftForPowerOfTwo_loop_pow2 by lia. f_equal; lia.
Qed.

(** On the signed minimum the loop does not run at all. *)
Lemma ShiftForPowerOfTwo_min_int64 : ShiftForPowerOfTwo kMinInt64 = Some 0.
Proof. reflexivity. Qed.

Lemma CountTrailingZeros64_spec x :
  is_sN 64 x -> x <> 0 ->
  0 <= CountTrailingZeros64 x < 64 /\ x mod 2 ^ CountTrailingZeros64 x = 0 /\
  Z.odd (x >> CountTrailingZeros64 x) = true.
Proof.
  intros Hx Hnz. unfold CountTrailingZeros64.
  assert (Hu : 0 < u64 x < 2 ^ 64).
  { pose proof (uN_range 64 x ltac:(lia)) as R. unfold is_uN in R. split; [|lia].
    destruct (Z.eq_dec (u64 x) 0) as [E|]; [|lia]. exfalso.
    unfold uN in E. apply Z.mod_divide in E; [|lia]. destruct E as [k E].
    unfold is_sN in Hx. change (2 ^ (64 - 1)) with (2 ^ 63) in Hx. lia. }
  destruct (countr_zero_spec 64 (u64 x) Hu) as [R [q Hq]].
  set (c := countr_zero 64 (u64 x)) in *. split; [exact R|].
  destruct (uN_cong 64 x ltac:(lia)) as [k Hk]. rewrite Hk in Hq.
  assert (E : x = (2 * (q - k * 2 ^ (64 - c - 1)) + 1) * 2 ^ c).
  { replace (2 ^ 64) with (2 * 2 ^ (64 - c - 1) * 2 ^ c) in Hq; [lia|].
    rewrite <- Z.pow_succ_r, <- Z.pow_add_r by lia. f_equal; lia. }
  assert (0 < 2 ^ c) by (apply Z.pow_pos_nonneg; lia).
  split.
  - rewrite E, Z.mod_mul by lia. reflexivity.
  - rewrite Z.shiftr_div_pow2 by lia. rewrite E, Z.div_mul by lia.
    rewrite Z.add_comm, Z.odd_add_mul_2. reflexivity.
Qed.
