(* ===== verification/RvEncoding.v ===== *)
(** * RISC-V instruction encodings ([runtime/vm/constants_riscv.h])

    Registers, opcode and function fields, and the encoders and decoders of
    every immediate format, for [XLEN == 64].  An encoding is the [uint32_t]
    (or [uint16_t]) value as a [Z]; enumerators are coerced to their value.
    [EncodeX] checks its [ASSERT] ([None] when it fails); [DecodeX] is total. *)

From Stdlib Require Import ZArith Lia Bool.
From S2P Require Import Prelude Utils.

Definition XLEN : Z := 64.

(** General-purpose registers. *)
Inductive Register : Set :=
  | ZR | RA | SP | GP | TP | T0 | T1 | T2 | FP | S1 | A0 | A1 | A2 | A3 | A4 | A5 | A6 | A7
  | S2 | S3 | S4 | S5 | S6 | S7 | S8 | S9 | S10 | S11 | T3 | T4 | T5 | T6
  | kNumberOfCpuRegisters | kNoRegister | RA2 | S0.

Definition Register_value (e : Register) : Z :=
  match e with
  | ZR => 0 | RA => 1 | SP => 2 | GP => 3 | TP => 4 | T0 => 5 | T1 => 6 | T2 => 7 | FP => 8
  | S1 => 9 | A0 => 10 | A1 => 11 | A2 => 12 | A3 => 13 | A4 => 14 | A5 => 15 | A6 => 16
  | A7 => 17 | S2 => 18 | S3 => 19 | S4 => 20 | S5 => 21 | S6 => 22 | S7 => 23 | S8 => 24
  | S9 => 25 | S10 => 26 | S11 => 27 | T3 => 28 | T4 => 29 | T5 => 30 | T6 => 31
  | kNumberOfCpuRegisters => 32 | kNoRegister => (-1) | RA2 => 5 | S0 => 8
  end.
Coercion Register_value : Register >-> Z.

(** Floating-point registers. *)
Inductive FRegister : Set :=
  | FT0 | FT1 | FT2 | FT3 | FT4 | FT5 | FT6 | FT7 | FS0 | FS1 | FA0 | FA1 | FA2 | FA3 | FA4 | FA5
  | FA6 | FA7 | FS2 | FS3 | FS4 | FS5 | FS6 | FS7 | FS8 | FS9 | FS10 | FS11 | FT8 | FT9 | FT10
  | FT11 | kNumberOfFpuRegisters | kNoFpuRegister.

Definition FRegister_value (e : FRegister) : Z :=
  match e with
  | FT0 => 0 | FT1 => 1 | FT2 => 2 | FT3 => 3 | FT4 => 4 | FT5 => 5 | FT6 => 6 | FT7 => 7
  | FS0 => 8 | FS1 => 9 | FA0 => 10 | FA1 => 11 | FA2 => 12 | FA3 => 13 | FA4 => 14 | FA5 => 15
  | FA6 => 16 | FA7 => 17 | FS2 => 18 | FS3 => 19 | FS4 => 20 | FS5 => 21 | FS6 => 22 | FS7 => 23
  | FS8 => 24 | FS9 => 25 | FS10 => 26 | FS11 => 27 | FT8 => 28 | FT9 => 29 | FT10 => 30
  | FT11 => 31 | kNumberOfFpuRegisters => 32 | kNoFpuRegister => (-1)
  end.
Coercion FRegister_value : FRegister >-> Z.

(** Register lists of the C++ ABI, one bit per register ([RegList] is a [uint32_t]). *)
Definition R (reg : Z) : Z := u32 (1 << reg).
Definition kAbiArgumentCpuRegs : Z := R A0 .| R A1 .| R A2 .| R A3 .| R A4 .| R A5 .| R A6 .| R A7.
Definition kAbiVolatileCpuRegs : Z :=
  kAbiArgumentCpuRegs .| R T0 .| R T1 .| R T2 .| R T3 .| R T4 .| R T5 .| R T6 .| R RA.
Definition kAbiPreservedCpuRegs : Z :=
  R S1 .| R S2 .| R S3 .| R S4 .| R S5 .| R S6 .| R S7 .| R S8 .| R S9 .| R S10 .| R S11.
Definition kAbiArgumentFpuRegs : Z := R FA0 .| R FA1 .| R FA2 .| R FA3 .| R FA4 .| R FA5 .| R FA6 .| R FA7.
Definition kAbiVolatileFpuRegs : Z :=
  kAbiArgumentFpuRegs .| R FT0 .| R FT1 .| R FT2 .| R FT3 .| R FT4 .| R FT5 .| R FT6 .| R FT7
  .| R FT8 .| R FT9 .| R FT10 .| R FT11.

(** Formats of the fused multiply-add instructions. *)
Inductive Funct2 : Set := F2_S | F2_D.
Definition Funct2_value (e : Funct2) : Z := match e with F2_S => 0 | F2_D => 1 end.
Coercion Funct2_value : Funct2 >-> Z.

(** Major opcodes of 32-bit instructions. *)
Inductive Opcode : Set :=
  | LUI | AUIPC | JAL | JALR | BRANCH | LOAD | STORE | OPIMM | OP | MISCMEM | SYSTEM | OP32
  | OPIMM32 | AMO | LOADFP | STOREFP | FMADD | FMSUB | FNMSUB | FNMADD | OPFP | OPV.

Definition Opcode_value (e : Opcode) : Z :=
  match e with
  | LUI => 0x37 | AUIPC => 0x17 | JAL => 0x6f | JALR => 0x67 | BRANCH => 0x63 | LOAD => 3
  | STORE => 0x23 | OPIMM => 0x13 | OP => 0x33 | MISCMEM => 0xf | SYSTEM => 0x73
  | OP32 => 0x3b | OPIMM32 => 0x1b | AMO => 0x2f | LOADFP => 7 | STOREFP => 0x27
  | FMADD => 0x43 | FMSUB => 0x47 | FNMSUB => 0x4b | FNMADD => 0x4f | OPFP => 0x53
  | OPV => 0x57
  end.
Coercion Opcode_value : Opcode >-> Z.

(** [funct12] values of SYSTEM instructions. *)
Inductive Funct12 : Set :=
  | ECALL | EBREAK | WRS_NTO | WRS_STO | MOP_R_MASK | MOP_R | SSPOPCHK | SSRDP.

Definition Funct12_value (e : Funct12) : Z :=
  match e with
  | ECALL => 0 | EBREAK => 1 | WRS_NTO => 0xd | WRS_STO => 0x1d | MOP_R_MASK => 0xb3c
  | MOP_R => 0x81c | SSPOPCHK => 0xcdc | SSRDP => 0xcdc
  end.
Coercion Funct12_value : Funct12 >-> Z.

(** [funct3] values; one number has a different meaning under each opcode. *)
Inductive Funct3 : Set :=
  | F3_0 | F3_1 | BEQ | BNE | BLT | BGE | BLTU | BGEU | LB | LH | LW | LBU | LHU | LWU | LD
  | SB | SH | SW | SD | ADDI | SLLI | SLTI | SLTIU | XORI | SRI | ORI | ANDI | ADD | SLL
  | SLT | SLTU | XOR | SR | OR | AND | FENCE | FENCEI | PRIV | CSRRW | CSRRS | CSRRC
  | CSRRWI | CSRRSI | CSRRCI | MOP | MUL | MULH | MULHSU | MULHU | DIV | DIVU | REM | REMU
  | MULW | DIVW | DIVUW | REMW | REMUW | WIDTH8 | WIDTH16 | WIDTH32 | WIDTH64 | WIDTH128
  | H_ | S_ | D_ | Q_ | E8 | E16 | E32 | E64 | J_ | JN | JX | FMIN | FMAX | FMINM | FMAXM
  | FEQ | FLT | FLE | FLTQ | FLEQ | SH1ADD | SH2ADD | SH3ADD | F3_COUNT | MAX | MAXU | MIN
  | MINU | CLMUL | CLMULH | CLMULR | SEXT | ZEXT | ROL | ROR | BCLR | BEXT | F3_BINV
  | F3_BSET | CZEROEQZ | CZERONEZ | OPIVV | OPFVV | OPMVV | OPIVI | OPIVX | OPFVF | OPMVX
  | OPCFG.

Definition Funct3_value (e : Funct3) : Z :=
  match e with
  | F3_0 => 0 | F3_1 => 1 | BEQ => 0 | BNE => 1 | BLT => 4 | BGE => 5 | BLTU => 6
  | BGEU => 7 | LB => 0 | LH => 1 | LW => 2 | LBU => 4 | LHU => 5 | LWU => 6 | LD => 3
  | SB => 0 | SH => 1 | SW => 2 | SD => 3 | ADDI => 0 | SLLI => 1 | SLTI => 2 | SLTIU => 3
  | XORI => 4 | SRI => 5 | ORI => 6 | ANDI => 7 | ADD => 0 | SLL => 1 | SLT => 2
  | SLTU => 3 | XOR => 4 | SR => 5 | OR => 6 | AND => 7 | FENCE => 0 | FENCEI => 1
  | PRIV => 0 | CSRRW => 1 | CSRRS => 2 | CSRRC => 3 | CSRRWI => 5 | CSRRSI => 6
  | CSRRCI => 7 | MOP => 4 | MUL => 0 | MULH => 1 | MULHSU => 2 | MULHU => 3 | DIV => 4
  | DIVU => 5 | REM => 6 | REMU => 7 | MULW => 0 | DIVW => 4 | DIVUW => 5 | REMW => 6
  | REMUW => 7 | WIDTH8 => 0 | WIDTH16 => 1 | WIDTH32 => 2 | WIDTH64 => 3 | WIDTH128 => 4
  | H_ => 1 | S_ => 2 | D_ => 3 | Q_ => 4 | E8 => 0 | E16 => 5 | E32 => 6 | E64 => 7
  | J_ => 0 | JN => 1 | JX => 2 | FMIN => 0 | FMAX => 1 | FMINM => 2 | FMAXM => 3
  | FEQ => 2 | FLT => 1 | FLE => 0 | FLTQ => 5 | FLEQ => 4 | SH1ADD => 2 | SH2ADD => 4
  | SH3ADD => 6 | F3_COUNT => 1 | MAX => 6 | MAXU => 7 | MIN => 4 | MINU => 5 | CLMUL => 1
  | CLMULH => 3 | CLMULR => 2 | SEXT => 1 | ZEXT => 4 | ROL => 1 | ROR => 5 | BCLR => 1
  | BEXT => 5 | F3_BINV => 1 | F3_BSET => 1 | CZEROEQZ => 5 | CZERONEZ => 7 | OPIVV => 0
  | OPFVV => 1 | OPMVV => 2 | OPIVI => 3 | OPIVX => 4 | OPFVF => 5 | OPMVX => 6
  | OPCFG => 7
  end.
Coercion Funct3_value : Funct3 >-> Z.

(** [funct7] values. *)
Inductive Funct7 : Set :=
  | F7_0 | SRA | SUB | MULDIV | FADDS | FSUBS | FMULS | FDIVS | FSQRTS | FSGNJS | FMINMAXS
  | FCMPS | FCLASSS | FCVTintS | FCVTSint | FMVXW | FMVWX | FADDD | FSUBD | FMULD | FDIVD
  | FSQRTD | FSGNJD | FMINMAXD | FCVTS | FCVTD | FCMPD | FCLASSD | FCVTintD | FCVTDint
  | FMVXD | FMVDX | FMVHXD | FMVPDX | ADDUW | SHADD | SLLIUW | COUNT | MINMAXCLMUL | ROTATE
  | BCLRBEXT | BINV | BSET | CZERO | MOP_RR_MASK | MOP_RR | SSPUSH.

Definition Funct7_value (e : Funct7) : Z :=
  match e with
  | F7_0 => 0 | SRA => 0x20 | SUB => 0x20 | MULDIV => 1 | FADDS => 0 | FSUBS => 4
  | FMULS => 8 | FDIVS => 0xc | FSQRTS => 0x2c | FSGNJS => 0x10 | FMINMAXS => 0x14
  | FCMPS => 0x50 | FCLASSS => 0x70 | FCVTintS => 0x60 | FCVTSint => 0x68 | FMVXW => 0x70
  | FMVWX => 0x78 | FADDD => 1 | FSUBD => 5 | FMULD => 9 | FDIVD => 0xd | FSQRTD => 0x2d
  | FSGNJD => 0x11 | FMINMAXD => 0x15 | FCVTS => 0x20 | FCVTD => 0x21 | FCMPD => 0x51
  | FCLASSD => 0x71 | FCVTintD => 0x61 | FCVTDint => 0x69 | FMVXD => 0x71 | FMVDX => 0x79
  | FMVHXD => 0x71 | FMVPDX => 0x59 | ADDUW => 4 | SHADD => 0x10 | SLLIUW => 4
  | COUNT => 0x30 | MINMAXCLMUL => 5 | ROTATE => 0x30 | BCLRBEXT => 0x24 | BINV => 0x34
  | BSET => 0x14 | CZERO => 7 | MOP_RR_MASK => 0x59 | MOP_RR => 0x41 | SSPUSH => 0x67
  end.
Coercion Funct7_value : Funct7 >-> Z.

(** [funct5] values of atomic instructions. *)
Inductive Funct5 : Set :=
  | LR | SC | AMOSWAP | AMOADD | AMOXOR | AMOAND | AMOOR | AMOMIN | AMOMAX | AMOMINU
  | AMOMAXU | LOADORDERED | STOREORDERED | SSAMOSWAP | AMOCAS.

Definition Funct5_value (e : Funct5) : Z :=
  match e with
  | LR => 2 | SC => 3 | AMOSWAP => 1 | AMOADD => 0 | AMOXOR => 4 | AMOAND => 0xc
  | AMOOR => 8 | AMOMIN => 0x10 | AMOMAX => 0x14 | AMOMINU => 0x18 | AMOMAXU => 0x1c
  | LOADORDERED => 6 | STOREORDERED => 7 | SSAMOSWAP => 9 | AMOCAS => 5
  end.
Coercion Funct5_value : Funct5 >-> Z.

(** Opcodes and masks of the compressed instructions. *)
Inductive COpcode : Set :=
  | C_OP_MASK | C_ADDI4SPN | C_FLD | C_LW | C_FLW | C_LD | C_FSD | C_SW | C_FSW | C_SD
  | C_ADDI | C_JAL | C_ADDIW | C_LI | C_ADDI16SP | C_LUI | C_MISCALU | C_MISCALU_MASK
  | C_SRLI | C_SRAI | C_ANDI | C_RR | C_RR_MASK | C_SUB | C_XOR | C_OR | C_AND | C_SUBW
  | C_ADDW | C_MUL | C_EXT | C_EXT_MASK | C_ZEXTB | C_SEXTB | C_ZEXTH | C_SEXTH | C_ZEXTW
  | C_NOT | C_J | C_BEQZ | C_BNEZ | C_SLLI | C_FLDSP | C_LWSP | C_FLWSP | C_LDSP | C_JR
  | C_MV | C_JALR | C_ADD | C_FSDSP | C_SWSP | C_FSWSP | C_SDSP | C_NOP | C_EBREAK | C_LBU
  | C_LH | C_LHU | C_SB | C_SH | C_MOP_MASK | C_MOP | C_SSPUSH | C_SSPOPCHK.

Definition COpcode_value (e : COpcode) : Z :=
  match e with
  | C_OP_MASK => 0xe003 | C_ADDI4SPN => 0 | C_FLD => 0x2000 | C_LW => 0x4000
  | C_FLW => 0x6000 | C_LD => 0x6000 | C_FSD => 0xa000 | C_SW => 0xc000 | C_FSW => 0xe000
  | C_SD => 0xe000 | C_ADDI => 1 | C_JAL => 0x2001 | C_ADDIW => 0x2001 | C_LI => 0x4001
  | C_ADDI16SP => 0x6001 | C_LUI => 0x6001 | C_MISCALU => 0x8001 | C_MISCALU_MASK => 0xec03
  | C_SRLI => 0x8001 | C_SRAI => 0x8401 | C_ANDI => 0x8801 | C_RR => 0x8c01
  | C_RR_MASK => 0xfc63 | C_SUB => 0x8c01 | C_XOR => 0x8c21 | C_OR => 0x8c41
  | C_AND => 0x8c61 | C_SUBW => 0x9c01 | C_ADDW => 0x9c21 | C_MUL => 0x9c41
  | C_EXT => 0x9c61 | C_EXT_MASK => 0xfc7f | C_ZEXTB => 0x9c61 | C_SEXTB => 0x9c65
  | C_ZEXTH => 0x9c69 | C_SEXTH => 0x9c6d | C_ZEXTW => 0x9c71 | C_NOT => 0x9c75
  | C_J => 0xa001 | C_BEQZ => 0xc001 | C_BNEZ => 0xe001 | C_SLLI => 2 | C_FLDSP => 0x2002
  | C_LWSP => 0x4002 | C_FLWSP => 0x6002 | C_LDSP => 0x6002 | C_JR => 0x8002
  | C_MV => 0x8002 | C_JALR => 0x9002 | C_ADD => 0x9002 | C_FSDSP => 0xa002
  | C_SWSP => 0xc002 | C_FSWSP => 0xe002 | C_SDSP => 0xe002 | C_NOP => 1
  | C_EBREAK => 0x9002 | C_LBU => 0x8000 | C_LH => 0x8440 | C_LHU => 0x8400
  | C_SB => 0x8800 | C_SH => 0x8c00 | C_MOP_MASK => 0xf8ff | C_MOP => 0x6081
  | C_SSPUSH => 0x6081 | C_SSPOPCHK => 0x6281
  end.
Coercion COpcode_value : COpcode >-> Z.

Definition TMP : Z := A3.
Definition TMP2 : Z := A4.
Definition FAR_TMP : Z := T2.
Definition PP : Z := A5.
Definition THR : Z := S1.

(** [funct6] values of vector instructions. *)
Inductive Funct6 : Set :=
  | VADD | VSUB | VRSUB | VMINU | VMIN | VMAXU | VMAX | VAND | VOR | VXOR | VMV.

Definition Funct6_value (e : Funct6) : Z :=
  match e with
  | VADD => 0 | VSUB => 2 | VRSUB => 3 | VMINU => 4 | VMIN => 5 | VMAXU => 6 | VMAX => 7
  | VAND => 9 | VOR => 0xa | VXOR => 0xb | VMV => 0x17
  end.
Coercion Funct6_value : Funct6 >-> Z.

Definition kReleaseShift : Z := 25.
Definition kAcquireShift : Z := 26.

Definition SignExtend (N value : Z) : Z := s32 (u32 (u32 value << (32 - N))) >> (32 - N).

(** The overloads of [sign_extend] for a [w]-bit argument: the result is the
    argument's signed value, whether its type is signed or unsigned. *)
Definition sign_extend (w x : Z) : Z := sN w x.

(** [DEFINE_REG_ENCODING]: a five-bit register field at [shift]. *)
Definition IsRegField (r : Z) : bool := u32 r <? 32.
Definition EncodeRegField (shift r : Z) : option Z := ASSERT (IsRegField r);; Some (u32 (u32 r << shift)).
Definition DecodeRegField (shift encoding : Z) : Z := (encoding >> shift) .& 31.

(** [DEFINE_FUNCT_ENCODING]: a function field at [shift] under [mask]. *)
Definition IsFunctField (mask f : Z) : bool := (f .& mask) =? f.
Definition EncodeFunctField (shift mask f : Z) : option Z :=
  ASSERT (IsFunctField mask f);; Some (u32 (f << shift)).
Definition DecodeFunctField (shift mask encoding : Z) : Z := (encoding >> shift) .& mask.

(** [DEFINE_REG_PRIME_ENCODING]: a three-bit field naming x8..x15. *)
Definition IsRegPrime (r : Z) : bool := (r >=? 8) && (r <? 16).
Definition EncodeRegPrime (shift r : Z) : option Z :=
  ASSERT (IsRegPrime r);; Some (u32 ((u32 r .& 7) << shift)).
Definition DecodeRegPrime (shift encoding : Z) : Z := ((encoding >> shift) .& 7) + 8.

Definition EncodeRd (r : Z) : option Z := EncodeRegField 7 r.
Definition DecodeRd (encoding : Z) : Z := DecodeRegField 7 encoding.
Definition EncodeRs1 (r : Z) : option Z := EncodeRegField 15 r.
Definition DecodeRs1 (encoding : Z) : Z := DecodeRegField 15 encoding.
Definition EncodeRs2 (r : Z) : option Z := EncodeRegField 20 r.
Definition DecodeRs2 (encoding : Z) : Z := DecodeRegField 20 encoding.
Definition EncodeFRd (r : Z) : option Z := EncodeRegField 7 r.
Definition DecodeFRd (encoding : Z) : Z := DecodeRegField 7 encoding.
Definition EncodeFRs1 (r : Z) : option Z := EncodeRegField 15 r.
Definition DecodeFRs1 (encoding : Z) : Z := DecodeRegField 15 encoding.
Definition EncodeFRs2 (r : Z) : option Z := EncodeRegField 20 r.
Definition DecodeFRs2 (encoding : Z) : Z := DecodeRegField 20 encoding.
Definition EncodeFRs3 (r : Z) : option Z := EncodeRegField 27 r.
Definition DecodeFRs3 (encoding : Z) : Z := DecodeRegField 27 encoding.
Definition DecodeVd (encoding : Z) : Z := DecodeRegField 7 encoding.
Definition DecodeVs2 (encoding : Z) : Z := DecodeRegField 20 encoding.
Definition DecodeVs3 (encoding : Z) : Z := DecodeRegField 7 encoding.
Definition EncodeCRd (r : Z) : option Z := EncodeRegField 7 r.
Definition DecodeCRd (encoding : Z) : Z := DecodeRegField 7 encoding.
Definition EncodeCRs1 (r : Z) : option Z := EncodeRegField 7 r.
Definition DecodeCRs1 (encoding : Z) : Z := DecodeRegField 7 encoding.
Definition EncodeCRs2 (r : Z) : option Z := EncodeRegField 2 r.
Definition DecodeCRs2 (encoding : Z) : Z := DecodeRegField 2 encoding.
Definition EncodeCFRd (r : Z) : option Z := EncodeRegField 7 r.
Definition DecodeCFRd (encoding : Z) : Z := DecodeRegField 7 encoding.
Definition EncodeCFRs2 (r : Z) : option Z := EncodeRegField 2 r.
Definition DecodeCFRs2 (encoding : Z) : Z := DecodeRegField 2 encoding.

Definition IsCRdp (r : Z) : bool := IsRegPrime r.
Definition EncodeCRdp (r : Z) : option Z := EncodeRegPrime 2 r.
Definition DecodeCRdp (encoding : Z) : Z := DecodeRegPrime 2 encoding.
Definition IsCRs1p (r : Z) : bool := IsRegPrime r.
Definition EncodeCRs1p (r : Z) : option Z := EncodeRegPrime 7 r.
Definition DecodeCRs1p (encoding : Z) : Z := DecodeRegPrime 7 encoding.
Definition IsCRs2p (r : Z) : bool := IsRegPrime r.
Definition EncodeCRs2p (r : Z) : option Z := EncodeRegPrime 2 r.
Definition DecodeCRs2p (encoding : Z) : Z := DecodeRegPrime 2 encoding.
Definition IsCFRdp (r : Z) : bool := IsRegPrime r.
Definition EncodeCFRdp (r : Z) : option Z := EncodeRegPrime 2 r.
Definition DecodeCFRdp (encoding : Z) : Z := DecodeRegPrime 2 encoding.
Definition IsCFRs2p (r : Z) : bool := IsRegPrime r.
Definition EncodeCFRs2p (r : Z) : option Z := EncodeRegPrime 2 r.
Definition DecodeCFRs2p (encoding : Z) : Z := DecodeRegPrime 2 encoding.

Definition EncodeOpcode (f : Z) : option Z := EncodeFunctField 0 0x7F f.
Definition DecodeOpcode (encoding : Z) : Z := DecodeFunctField 0 0x7F encoding.
Definition EncodeFunct2 (f : Z) : option Z := EncodeFunctField 25 0x3 f.
Definition DecodeFunct2 (encoding : Z) : Z := DecodeFunctField 25 0x3 encoding.
Definition EncodeRoundingMode (f : Z) : option Z := EncodeFunctField 12 0x7 f.
Definition DecodeRoundingMode (encoding : Z) : Z := DecodeFunctField 12 0x7 encoding.
Definition EncodeFunct3 (f : Z) : option Z := EncodeFunctField 12 0x7 f.
Definition DecodeFunct3 (encoding : Z) : Z := DecodeFunctField 12 0x7 encoding.
Definition EncodeFunct5 (f : Z) : option Z := EncodeFunctField 27 0x1F f.
Definition DecodeFunct5 (encoding : Z) : Z := DecodeFunctField 27 0x1F encoding.
Definition EncodeFunct6 (f : Z) : option Z := EncodeFunctField 26 0x3F f.
Definition DecodeFunct6 (encoding : Z) : Z := DecodeFunctField 26 0x3F encoding.
Definition EncodeFunct7 (f : Z) : option Z := EncodeFunctField 25 0x7F f.
Definition DecodeFunct7 (encoding : Z) : Z := DecodeFunctField 25 0x7F encoding.
Definition EncodeFunct12 (f : Z) : option Z := EncodeFunctField 20 0xFFF f.
Definition DecodeFunct12 (encoding : Z) : Z := DecodeFunctField 20 0xFFF encoding.
Definition EncodeShamt (f : Z) : option Z := EncodeFunctField 20 0x3F f.
Definition DecodeShamt (encoding : Z) : Z := DecodeFunctField 20 0x3F encoding.

Definition ImmLo (imm : Z) : Z := s64 (u64 (u64 imm << (XLEN - 12))) >> (XLEN - 12).
Definition ImmHi (imm : Z) : Z :=
  s64 (u64 (u64 (u64 imm - u64 (ImmLo imm)) << (XLEN - 32))) >> (XLEN - 32).

Definition IsBTypeImm (imm : Z) : bool := IsInt 12 imm && IsAligned imm 2 0.
Definition EncodeBTypeImm (imm : Z) : option Z :=
  ASSERT (IsBTypeImm imm);; Some (u32 (((imm >> 12) .& 0x1) << 31
    .| ((imm >> 5) .& 0x3f) << 25
    .| ((imm >> 1) .& 0xf) << 8
    .| ((imm >> 11) .& 0x1) << 7)).
Definition DecodeBTypeImm (encoded : Z) : Z :=
  SignExtend 12 (u32 (((encoded >> 31) .& 0x1) << 12
    .| ((encoded >> 25) .& 0x3f) << 5
    .| ((encoded >> 8) .& 0xf) << 1
    .| ((encoded >> 7) .& 0x1) << 11)).

Definition IsJTypeImm (imm : Z) : bool := IsInt 20 imm && IsAligned imm 2 0.
Definition EncodeJTypeImm (imm : Z) : option Z :=
  ASSERT (IsJTypeImm imm);; Some (u32 (((imm >> 20) .& 0x1) << 31
    .| ((imm >> 1) .& 0x3ff) << 21
    .| ((imm >> 11) .& 0x1) << 20
    .| ((imm >> 12) .& 0xff) << 12)).
Definition DecodeJTypeImm (encoded : Z) : Z :=
  SignExtend 20 (u32 (((encoded >> 31) .& 0x1) << 20
    .| ((encoded >> 21) .& 0x3ff) << 1
    .| ((encoded >> 20) .& 0x1) << 11
    .| ((encoded >> 12) .& 0xff) << 12)).

Definition IsITypeImm (imm : Z) : bool := IsInt 12 imm.
Definition EncodeITypeImm (imm : Z) : option Z :=
  ASSERT (IsITypeImm imm);; Some (u32 (u32 imm << 20)).
Definition DecodeITypeImm (encoded : Z) : Z := SignExtend 12 (encoded >> 20).

Definition IsUTypeImm (imm : Z) : bool := IsInt 32 imm && IsAligned imm (1 << 12) 0.
Definition EncodeUTypeImm (imm : Z) : option Z := ASSERT (IsUTypeImm imm);; Some (u32 imm).
Definition DecodeUTypeImm (encoded : Z) : Z :=
  SignExtend 32 (encoded .& u32 (Z.lnot ((1 << 12) - 1))).

Definition IsSTypeImm (imm : Z) : bool := IsInt 12 imm.
Definition EncodeSTypeImm (imm : Z) : option Z :=
  ASSERT (IsSTypeImm imm);; Some (u32 (((imm >> 5) .& 0x7f) << 25
    .| ((imm >> 0) .& 0x1f) << 7)).
Definition DecodeSTypeImm (encoded : Z) : Z :=
  SignExtend 12 (u32 (((encoded >> 25) .& 0x7f) << 5
    .| ((encoded >> 7) .& 0x1f) << 0)).

Definition IsMoprn (imm : Z) : bool := IsUint 5 imm.
Definition EncodeMoprn (imm : Z) : option Z :=
  ASSERT (IsMoprn imm);; Some (u32 (((imm >> 4) .& 0x1) << 30
    .| ((imm >> 2) .& 0x3) << 26
    .| ((imm >> 0) .& 0x3) << 20)).
Definition DecodeMoprn (encoded : Z) : Z :=
  u32 (((encoded >> 30) .& 0x1) << 4
    .| ((encoded >> 26) .& 0x3) << 2
    .| ((encoded >> 20) .& 0x3) << 0).

Definition IsMoprrn (imm : Z) : bool := IsUint 3 imm.
Definition EncodeMoprrn (imm : Z) : option Z :=
  ASSERT (IsMoprrn imm);; Some (u32 (((imm >> 2) .& 0x1) << 30
    .| ((imm >> 0) .& 0x3) << 26)).
Definition DecodeMoprrn (encoded : Z) : Z :=
  u32 (((encoded >> 30) .& 0x1) << 2
    .| ((encoded >> 26) .& 0x3) << 0).

Definition IsCInstruction (parcel : Z) : bool := negb ((parcel .& 3) =? 3).

Definition IsCSPLoad4Imm (imm : Z) : bool := IsUint 8 imm && IsAligned imm 4 0.
Definition EncodeCSPLoad4Imm (imm : Z) : option Z :=
  ASSERT (IsCSPLoad4Imm imm);; Some (u32 (((imm >> 5) .& 0x1) << 12
    .| ((imm >> 2) .& 0x7) << 4
    .| ((imm >> 6) .& 0x3) << 2)).
Definition DecodeCSPLoad4Imm (encoding : Z) : Z :=
  u32 (((encoding >> 12) .& 0x1) << 5
    .| ((encoding >> 4) .& 0x7) << 2
    .| ((encoding >> 2) .& 0x3) << 6).

Definition IsCSPLoad8Imm (imm : Z) : bool := IsUint 9 imm && IsAligned imm 8 0.
Definition EncodeCSPLoad8Imm (imm : Z) : option Z :=
  ASSERT (IsCSPLoad8Imm imm);; Some (u32 (((imm >> 5) .& 0x1) << 12
    .| ((imm >> 3) .& 0x3) << 5
    .| ((imm >> 6) .& 0x7) << 2)).
Definition DecodeCSPLoad8Imm (encoding : Z) : Z :=
  u32 (((encoding >> 12) .& 0x1) << 5
    .| ((encoding >> 5) .& 0x3) << 3
    .| ((encoding >> 2) .& 0x7) << 6).

Definition IsCSPStore4Imm (imm : Z) : bool := IsUint 8 imm && IsAligned imm 4 0.
Definition EncodeCSPStore4Imm (imm : Z) : option Z :=
  ASSERT (IsCSPStore4Imm imm);; Some (u32 (((imm >> 2) .& 0xf) << 9
    .| ((imm >> 6) .& 0x3) << 7)).
Definition DecodeCSPStore4Imm (encoding : Z) : Z :=
  u32 (((encoding >> 9) .& 0xf) << 2
    .| ((encoding >> 7) .& 0x3) << 6).

Definition IsCSPStore8Imm (imm : Z) : bool := IsUint 9 imm && IsAligned imm 8 0.
Definition EncodeCSPStore8Imm (imm : Z) : option Z :=
  ASSERT (IsCSPStore8Imm imm);; Some (u32 (((imm >> 3) .& 0x7) << 10
    .| ((imm >> 6) .& 0x7) << 7)).
Definition DecodeCSPStore8Imm (encoding : Z) : Z :=
  u32 (((encoding >> 10) .& 0x7) << 3
    .| ((encoding >> 7) .& 0x7) << 6).

Definition IsCMem1Imm (imm : Z) : bool := IsUint 2 imm && IsAligned imm 1 0.
Definition EncodeCMem1Imm (imm : Z) : option Z :=
  ASSERT (IsCMem1Imm imm);; Some (u32 (((imm >> 1) .& 0x1) << 5
    .| ((imm >> 0) .& 0x1) << 6)).
Definition DecodeCMem1Imm (encoding : Z) : Z :=
  u32 (((encoding >> 5) .& 0x1) << 1
    .| ((encoding >> 6) .& 0x1) << 0).

Definition IsCMem2Imm (imm : Z) : bool := IsUint 2 imm && IsAligned imm 2 0.
Definition EncodeCMem2Imm (imm : Z) : option Z :=
  ASSERT (IsCMem1Imm imm);; Some (u32 (((imm >> 1) .& 0x1) << 5)).
Definition DecodeCMem2Imm (encoding : Z) : Z :=
  u32 (((encoding >> 5) .& 0x1) << 1).

Definition IsCMem4Imm (imm : Z) : bool := IsUint 7 imm && IsAligned imm 4 0.
Definition EncodeCMem4Imm (imm : Z) : option Z :=
  ASSERT (IsCMem4Imm imm);; Some (u32 (((imm >> 3) .& 0x7) << 10
    .| ((imm >> 2) .& 0x1) << 6
    .| ((imm >> 6) .& 0x1) << 5)).
Definition DecodeCMem4Imm (encoding : Z) : Z :=
  u32 (((encoding >> 10) .& 0x7) << 3
    .| ((encoding >> 6) .& 0x1) << 2
    .| ((encoding >> 5) .& 0x1) << 6).

Definition IsCMem8Imm (imm : Z) : bool := IsUint 8 imm && IsAligned imm 8 0.
Definition EncodeCMem8Imm (imm : Z) : option Z :=
  ASSERT (IsCMem8Imm imm);; Some (u32 (((imm >> 3) .& 0x7) << 10
    .| ((imm >> 6) .& 0x3) << 5)).
Definition DecodeCMem8Imm (encoding : Z) : Z :=
  u32 (((encoding >> 10) .& 0x7) << 3
    .| ((encoding >> 5) .& 0x3) << 6).

Definition IsCJImm (imm : Z) : bool := IsInt 11 imm && IsAligned imm 2 0.
Definition EncodeCJImm (imm : Z) : option Z :=
  ASSERT (IsCJImm imm);; Some (u32 (((imm >> 11) .& 0x1) << 12
    .| ((imm >> 4) .& 0x1) << 11
    .| ((imm >> 8) .& 0x3) << 9
    .| ((imm >> 10) .& 0x1) << 8
    .| ((imm >> 6) .& 0x1) << 7
    .| ((imm >> 7) .& 0x1) << 6
    .| ((imm >> 1) .& 0x7) << 3
    .| ((imm >> 5) .& 0x1) << 2)).
Definition DecodeCJImm (encoding : Z) : Z :=
  SignExtend 11 (u32 (((encoding >> 12) .& 0x1) << 11
    .| ((encoding >> 11) .& 0x1) << 4
    .| ((encoding >> 9) .& 0x3) << 8
    .| ((encoding >> 8) .& 0x1) << 10
    .| ((encoding >> 7) .& 0x1) << 6
    .| ((encoding >> 6) .& 0x1) << 7
    .| ((encoding >> 3) .& 0x7) << 1
    .| ((encoding >> 2) .& 0x1) << 5)).

Definition IsCBImm (imm : Z) : bool := IsInt 8 imm && IsAligned imm 2 0.
Definition EncodeCBImm (imm : Z) : option Z :=
  ASSERT (IsCBImm imm);; Some (u32 (((imm >> 8) .& 0x1) << 12
    .| ((imm >> 3) .& 0x3) << 10
    .| ((imm >> 6) .& 0x3) << 5
    .| ((imm >> 1) .& 0x3) << 3
    .| ((imm >> 5) .& 0x1) << 2)).
Definition DecodeCBImm (encoding : Z) : Z :=
  SignExtend 8 (u32 (((encoding >> 12) .& 0x1) << 8
    .| ((encoding >> 10) .& 0x3) << 3
    .| ((encoding >> 5) .& 0x3) << 6
    .| ((encoding >> 3) .& 0x3) << 1
    .| ((encoding >> 2) .& 0x1) << 5)).

Definition IsCIImm (imm : Z) : bool := IsInt 6 imm && IsAligned imm 1 0.
Definition EncodeCIImm (imm : Z) : option Z :=
  ASSERT (IsCIImm imm);; Some (u32 (((imm >> 5) .& 0x1) << 12
    .| ((imm >> 0) .& 0x1f) << 2)).
Definition DecodeCIImm (encoding : Z) : Z :=
  SignExtend 6 (u32 (((encoding >> 12) .& 0x1) << 5
    .| ((encoding >> 2) .& 0x1f) << 0)).

Definition IsCUImm (imm : Z) : bool := IsInt 17 imm && IsAligned imm (1 << 12) 0.
Definition EncodeCUImm (imm : Z) : option Z :=
  ASSERT (IsCUImm imm);; Some (u32 (((imm >> 17) .& 0x1) << 12
    .| ((imm >> 12) .& 0x1f) << 2)).
Definition DecodeCUImm (encoding : Z) : Z :=
  SignExtend 17 (u32 (((encoding >> 12) .& 0x1) << 17
    .| ((encoding >> 2) .& 0x1f) << 12)).

Definition IsCI16Imm (imm : Z) : bool := IsInt 10 imm && IsAligned imm 16 0.
Definition EncodeCI16Imm (imm : Z) : option Z :=
  ASSERT (IsCI16Imm imm);; Some (u32 (((imm >> 9) .& 0x1) << 12
    .| ((imm >> 4) .& 0x1) << 6
    .| ((imm >> 6) .& 0x1) << 5
    .| ((imm >> 7) .& 0x3) << 3
    .| ((imm >> 5) .& 0x1) << 2)).
Definition DecodeCI16Imm (encoding : Z) : Z :=
  SignExtend 10 (u32 (((encoding >> 12) .& 0x1) << 9
    .| ((encoding >> 6) .& 0x1) << 4
    .| ((encoding >> 5) .& 0x1) << 6
    .| ((encoding >> 3) .& 0x3) << 7
    .| ((encoding >> 2) .& 0x1) << 5)).

Definition IsCI4SPNImm (imm : Z) : bool := IsUint 9 imm && IsAligned imm 4 0.
Definition EncodeCI4SPNImm (imm : Z) : option Z :=
  ASSERT (IsCI4SPNImm imm);; Some (u32 (((imm >> 4) .& 0x3) << 11
    .| ((imm >> 6) .& 0xf) << 7
    .| ((imm >> 2) .& 0x1) << 6
    .| ((imm >> 3) .& 0x1) << 5)).
Definition DecodeCI4SPNImm (encoding : Z) : Z :=
  u32 (((encoding >> 11) .& 0x3) << 4
    .| ((encoding >> 7) .& 0xf) << 6
    .| ((encoding >> 6) .& 0x1) << 2
    .| ((encoding >> 5) .& 0x1) << 3).

Definition IsCShamt (imm : Z) : bool := u32 imm <? XLEN.
Definition EncodeCShamt (imm : Z) : option Z :=
  ASSERT (IsCShamt imm);; Some (u32 (((imm >> 5) .& 0x1) << 12
    .| ((imm >> 0) .& 0x1f) << 2)).
Definition DecodeCShamt (encoding : Z) : Z :=
  u32 (((encoding >> 12) .& 0x1) << 5
    .| ((encoding >> 2) .& 0x1f) << 0).

Definition IsCMopn (imm : Z) : bool := (u32 imm <? 16) && ((u32 imm .& 1) =? 1).
Definition EncodeCMopn (imm : Z) : option Z :=
  ASSERT (IsCMopn imm);; Some (u32 (((imm >> 0) .& 0xf) << 7)).
Definition DecodeCMopn (encoding : Z) : Z :=
  u32 (((encoding >> 7) .& 0xf) << 0).

(** Field accessors of class [Instr] (a 32-bit instruction). *)
Module Instr.
Definition length : Z := 4.
Definition opcode (e : Z) : Z := DecodeOpcode e.
Definition rd (e : Z) : Z := DecodeRd e.
Definition rs1 (e : Z) : Z := DecodeRs1 e.
Definition rs2 (e : Z) : Z := DecodeRs2 e.
Definition frd (e : Z) : Z := DecodeFRd e.
Definition frs1 (e : Z) : Z := DecodeFRs1 e.
Definition frs2 (e : Z) : Z := DecodeFRs2 e.
Definition frs3 (e : Z) : Z := DecodeFRs3 e.
Definition funct2 (e : Z) : Z := DecodeFunct2 e.
Definition rounding (e : Z) : Z := DecodeRoundingMode e.
Definition funct3 (e : Z) : Z := DecodeFunct3 e.
Definition funct5 (e : Z) : Z := DecodeFunct5 e.
Definition vd (e : Z) : Z := DecodeVd e.
Definition vs2 (e : Z) : Z := DecodeVs2 e.
Definition vs3 (e : Z) : Z := DecodeVs3 e.
Definition vm (e : Z) : bool := (e .& (1 << 25)) =? 0.
Definition funct6 (e : Z) : Z := DecodeFunct6 e.
Definition funct7 (e : Z) : Z := DecodeFunct7 e.
Definition funct12 (e : Z) : Z := DecodeFunct12 e.
Definition shamt (e : Z) : Z := DecodeShamt e.
Definition itype_imm (e : Z) : Z := DecodeITypeImm e.
Definition stype_imm (e : Z) : Z := DecodeSTypeImm e.
Definition btype_imm (e : Z) : Z := DecodeBTypeImm e.
Definition utype_imm (e : Z) : Z := DecodeUTypeImm e.
Definition jtype_imm (e : Z) : Z := DecodeJTypeImm e.
Definition csr (e : Z) : Z := e >> 20.
Definition zimm (e : Z) : Z := rs1 e.
End Instr.

(** Field accessors of class [CInstr] (a 16-bit compressed instruction). *)
Module CInstr.
Definition length : Z := 2.
Definition opcode (e : Z) : Z := e .& C_OP_MASK.
Definition rd (e : Z) : Z := DecodeCRd e.
Definition rs1 (e : Z) : Z := DecodeCRd e.
Definition rs2 (e : Z) : Z := DecodeCRs2 e.
Definition rdp (e : Z) : Z := DecodeCRdp e.
Definition rs1p (e : Z) : Z := DecodeCRs1p e.
Definition rs2p (e : Z) : Z := DecodeCRs2p e.
Definition frd (e : Z) : Z := DecodeCFRd e.
Definition frs2 (e : Z) : Z := DecodeCFRs2 e.
Definition frdp (e : Z) : Z := DecodeCFRdp e.
Definition frs2p (e : Z) : Z := DecodeCFRs2p e.
Definition spload4_imm (e : Z) : Z := DecodeCSPLoad4Imm e.
Definition spload8_imm (e : Z) : Z := DecodeCSPLoad8Imm e.
Definition spstore4_imm (e : Z) : Z := DecodeCSPStore4Imm e.
Definition spstore8_imm (e : Z) : Z := DecodeCSPStore8Imm e.
Definition mem1_imm (e : Z) : Z := DecodeCMem1Imm e.
Definition mem2_imm (e : Z) : Z := DecodeCMem2Imm e.
Definition mem4_imm (e : Z) : Z := DecodeCMem4Imm e.
Definition mem8_imm (e : Z) : Z := DecodeCMem8Imm e.
Definition j_imm (e : Z) : Z := DecodeCJImm e.
Definition b_imm (e : Z) : Z := DecodeCBImm e.
Definition i_imm (e : Z) : Z := DecodeCIImm e.
Definition u_imm (e : Z) : Z := DecodeCUImm e.
Definition i16_imm (e : Z) : Z := DecodeCI16Imm e.
Definition i4spn_imm (e : Z) : Z := DecodeCI4SPNImm e.
Definition shamt (e : Z) : Z := DecodeCShamt e.
End CInstr.

(** ** Extensions ([DEFINE_TYPED_ENUM_SET(Extension, uint32_t)]) *)

Inductive Extension : Set :=
  | RV_I | RV_M | RV_A | RV_F | RV_D | RV_Q | RV_C | RV_Zba | RV_Zbb | RV_Zbs | RV_Zbc | RV_V
  | RV_Zicond | RV_Zcb | RV_Zfa | RV_Zimop | RV_Zcmop | RV_Zawrs | RV_Zicfiss | RV_Zabha
  | RV_Zalasr | RV_Zfhmin | RV_Zacas.

Definition Extension_encoding (e : Extension) : Z :=
  match e with
  | RV_I => 0 | RV_M => 1 | RV_A => 2 | RV_F => 3 | RV_D => 4 | RV_Q => 5 | RV_C => 6
  | RV_Zba => 7 | RV_Zbb => 8 | RV_Zbs => 9 | RV_Zbc => 10 | RV_V => 11 | RV_Zicond => 12
  | RV_Zcb => 13 | RV_Zfa => 14 | RV_Zimop => 15 | RV_Zcmop => 16 | RV_Zawrs => 17
  | RV_Zicfiss => 18 | RV_Zabha => 19 | RV_Zalasr => 20 | RV_Zfhmin => 21 | RV_Zacas => 22
  end.

(** [ExtensionSet::Includes] and [ExtensionSet::IncludesAll]. *)
Definition Includes (set : Z) (r : Extension) : bool :=
  negb ((set .& (1 << Extension_encoding r)) =? 0).
Definition IncludesAll (set other : Z) : bool := (set .& other) =? other.

Definition set_of (es : list Extension) : Z :=
  List.fold_left (fun s e => s .| (1 << Extension_encoding e)) es 0.

Definition RV_G : Z := set_of (RV_I :: RV_M :: RV_A :: RV_F :: RV_D :: nil).
Definition RV_GC : Z := RV_G .| set_of (RV_C :: nil).
Definition RV_B : Z := set_of (RV_Zba :: RV_Zbb :: RV_Zbs :: nil).
Definition RV_GCB : Z := RV_GC .| RV_B.
Definition RVA22 : Z := RV_GCB.
Definition RVA23 : Z :=
  RVA22 .| set_of (RV_V :: RV_Zicond :: RV_Zcb :: RV_Zfa :: RV_Zimop :: RV_Zcmop :: RV_Zawrs :: nil).
