(* ===== verification/RvEncodingProofs.v ===== *)
(** * Properties of the RISC-V encodings

    Every immediate format of [constants_riscv.h] is inverted by its decoder,
    and the fields of an instruction word can be read back whatever the other
    fields hold.  The proofs compare bits position by position
    ([Bits.bits_solve]). *)

From Stdlib Require Import ZArith Lia Bool List.
From S2P Require Import Prelude Bits Utils RvEncoding.
Import ListNotations.

(** ** Auxiliary facts *)

Lemma SignExtend_sN N v : 0 < N <= 32 -> SignExtend N v = sN N v.
Proof.
  intros HN; unfold SignExtend. apply Z.bits_inj'; intros i Hi.
  rewrite testbit_shiftr, !testbit_sN by lia.
  assert (forall j, 0 <= j < N -> Z.testbit (u32 (u32 v << (32 - N))) (j + (32 - N)) = Z.testbit v j) as A.
  { intros j Hj. rewrite testbit_uN, testbit_shiftl, testbit_uN by lia.
    rewrite (proj2 (Z.ltb_ge (j + (32 - N)) (32 - N))), (proj2 (Z.ltb_lt (j + (32 - N)) 32)),
      (proj2 (Z.ltb_lt (j + (32 - N) - (32 - N)) 32)) by lia.
    cbn [andb]. f_equal; lia. }
  destruct (Z.ltb_spec i N), (Z.ltb_spec (i + (32 - N)) 32); try lia.
  - apply A; lia.
  - replace (32 - 1) with (N - 1 + (32 - N)) by lia. apply A; lia.
Qed.

Lemma aligned_low_zero k imm : 0 <= k <= 64 -> IsAligned imm (2 ^ k) 0 = true -> low_zero k imm.
Proof.
  intros Hk H i Hi; unfold IsAligned in H; apply Z.eqb_eq in H.
  rewrite Z.sub_1_r, <- Z.ones_equiv in H.
  apply (f_equal (fun z => Z.testbit z i)) in H.
  rewrite Z.land_spec, testbit_uN, Z.ones_spec_low, Z.testbit_0_l, (proj2 (Z.ltb_lt i 64)) in H by lia.
  cbn [andb] in H. rewrite andb_true_r in H. exact H.
Qed.

Lemma land_is_uN a b w : 0 <= w -> 0 <= b < 2 ^ w -> is_uN w (a .& b).
Proof.
  intros Hw Hb. split.
  - apply Z.land_nonneg; lia.
  - destruct (Z.eq_dec (a .& b) 0) as [->|]; [apply Z.pow_pos_nonneg; lia|].
    assert (Hn : 0 <= a .& b) by (apply Z.land_nonneg; lia).
    apply Z.log2_lt_pow2; [lia|].
    destruct (Z.lt_ge_cases (Z.log2 (a .& b)) w) as [L|L]; [exact L|exfalso].
    assert (T : Z.testbit (a .& b) (Z.log2 (a .& b)) = true) by (apply Z.bit_log2; lia).
    rewrite Z.land_spec, (testbit_uN_high w b) in T by (assumption || lia).
    rewrite andb_false_r in T; discriminate.
Qed.

Lemma is_uN_mono w w' x : 0 <= w <= w' -> is_uN w x -> is_uN w' x.
Proof. unfold is_uN; intros H Hx; pose proof (Z.pow_le_mono_r 2 w w'); lia. Qed.

Ltac learn_aligned :=
  repeat match goal with
  | H : IsAligned _ 1 0 = true |- _ => clear H
  | H : IsAligned _ 2 0 = true |- _ => pose proof (aligned_low_zero 1 _ ltac:(lia) H); clear H
  | H : IsAligned _ 4 0 = true |- _ => pose proof (aligned_low_zero 2 _ ltac:(lia) H); clear H
  | H : IsAligned _ 8 0 = true |- _ => pose proof (aligned_low_zero 3 _ ltac:(lia) H); clear H
  | H : IsAligned _ 16 0 = true |- _ => pose proof (aligned_low_zero 4 _ ltac:(lia) H); clear H
  | H : IsAligned _ (1 << 12) 0 = true |- _ => pose proof (aligned_low_zero 12 _ ltac:(lia) H); clear H
  end.

(** Turns the guard of an encoder into ranges and known bits. *)
Ltac learn_guard :=
  repeat match goal with
  | H : _ && _ = true |- _ => apply andb_true_iff in H; destruct H
  | H : IsInt ?n ?v = true |- _ => apply (IsInt_spec n v ltac:(lia)) in H
  | H : IsUint ?n ?v = true |- _ => apply (IsUint_spec n v ltac:(lia)) in H
  end;
  learn_aligned.

(** ** Immediate formats *)

(** One row per [IsX]/[EncodeX]/[DecodeX] triple of the header; [fmt_u32] says
    that the guard's parameter is a [uint32_t]. *)
Record ImmFormat := mkFormat {
  fmt_is : Z -> bool;
  fmt_encode : Z -> option Z;
  fmt_decode : Z -> Z;
  fmt_u32 : bool
}.

Strategy expand [fmt_is fmt_encode fmt_decode fmt_u32].

Definition imm_formats : list ImmFormat :=
  [ mkFormat IsBTypeImm EncodeBTypeImm DecodeBTypeImm false;
    mkFormat IsJTypeImm EncodeJTypeImm DecodeJTypeImm false;
    mkFormat IsITypeImm EncodeITypeImm DecodeITypeImm false;
    mkFormat IsUTypeImm EncodeUTypeImm DecodeUTypeImm false;
    mkFormat IsSTypeImm EncodeSTypeImm DecodeSTypeImm false;
    mkFormat IsMoprn EncodeMoprn DecodeMoprn false;
    mkFormat IsMoprrn EncodeMoprrn DecodeMoprrn false;
    mkFormat IsCSPLoad4Imm EncodeCSPLoad4Imm DecodeCSPLoad4Imm false;
    mkFormat IsCSPLoad8Imm EncodeCSPLoad8Imm DecodeCSPLoad8Imm false;
    mkFormat IsCSPStore4Imm EncodeCSPStore4Imm DecodeCSPStore4Imm false;
    mkFormat IsCSPStore8Imm EncodeCSPStore8Imm DecodeCSPStore8Imm false;
    mkFormat IsCMem1Imm EncodeCMem1Imm DecodeCMem1Imm false;
    mkFormat IsCMem2Imm EncodeCMem2Imm DecodeCMem2Imm false;
    mkFormat IsCMem4Imm EncodeCMem4Imm DecodeCMem4Imm false;
    mkFormat IsCMem8Imm EncodeCMem8Imm DecodeCMem8Imm false;
    mkFormat IsCJImm EncodeCJImm DecodeCJImm false;
    mkFormat IsCBImm EncodeCBImm DecodeCBImm false;
    mkFormat IsCIImm EncodeCIImm DecodeCIImm false;
    mkFormat IsCUImm EncodeCUImm DecodeCUImm false;
    mkFormat IsCI16Imm EncodeCI16Imm DecodeCI16Imm false;
    mkFormat IsCI4SPNImm EncodeCI4SPNImm DecodeCI4SPNImm false;
    mkFormat IsCShamt EncodeCShamt DecodeCShamt true;
    mkFormat IsCMopn EncodeCMopn DecodeCMopn true ].

Definition format_roundtrip (f : ImmFormat) : Prop :=
  forall imm, (fmt_u32 f = true -> is_uN 32 imm) -> fmt_is f imm = true ->
  exists e, fmt_encode f imm = Some e /\ is_uN 32 e /\ fmt_decode f e = imm.

Ltac encode_guard H :=
  eexists; split; [rewrite H; reflexivity | split; [apply uN_range; lia|]].

Ltac roundtrip :=
  intros imm _ H; cbn [fmt_is fmt_encode fmt_decode] in *;
  match goal with |- exists e, ?E imm = Some e /\ _ /\ ?D _ = _ => unfold E, D end;
  encode_guard H;
  match type of H with ?I imm = true => unfold I in H end;
  learn_guard;
  rewrite ?SignExtend_sN by lia; bits_solve.

Lemma BType_roundtrip : format_roundtrip (mkFormat IsBTypeImm EncodeBTypeImm DecodeBTypeImm false).
Proof. roundtrip. Qed.
Lemma JType_roundtrip : format_roundtrip (mkFormat IsJTypeImm EncodeJTypeImm DecodeJTypeImm false).
Proof. roundtrip. Qed.
Lemma IType_roundtrip : format_roundtrip (mkFormat IsITypeImm EncodeITypeImm DecodeITypeImm false).
Proof. roundtrip. Qed.
Lemma UType_roundtrip : format_roundtrip (mkFormat IsUTypeImm EncodeUTypeImm DecodeUTypeImm false).
Proof. roundtrip. Qed.
Lemma SType_roundtrip : format_roundtrip (mkFormat IsSTypeImm EncodeSTypeImm DecodeSTypeImm false).
Proof. roundtrip. Qed.
Lemma Moprn_roundtrip : format_roundtrip (mkFormat IsMoprn EncodeMoprn DecodeMoprn false).
Proof. roundtrip. Qed.
Lemma Moprrn_roundtrip : format_roundtrip (mkFormat IsMoprrn EncodeMoprrn DecodeMoprrn false).
Proof. roundtrip. Qed.
Lemma CSPLoad4Imm_roundtrip : format_roundtrip (mkFormat IsCSPLoad4Imm EncodeCSPLoad4Imm DecodeCSPLoad4Imm false).
Proof. roundtrip. Qed.
Lemma CSPLoad8Imm_roundtrip : format_roundtrip (mkFormat IsCSPLoad8Imm EncodeCSPLoad8Imm DecodeCSPLoad8Imm false).
Proof. roundtrip. Qed.
Lemma CSPStore4Imm_roundtrip : format_roundtrip (mkFormat IsCSPStore4Imm EncodeCSPStore4Imm DecodeCSPStore4Imm false).
Proof. roundtrip. Qed.
Lemma CSPStore8Imm_roundtrip : format_roundtrip (mkFormat IsCSPStore8Imm EncodeCSPStore8Imm DecodeCSPStore8Imm false).
Proof. roundtrip. Qed.
Lemma CMem1Imm_roundtrip : format_roundtrip (mkFormat IsCMem1Imm EncodeCMem1Imm DecodeCMem1Imm false).
Proof. roundtrip. Qed.
Lemma CMem4Imm_roundtrip : format_roundtrip (mkFormat IsCMem4Imm EncodeCMem4Imm DecodeCMem4Imm false).
Proof. roundtrip. Qed.
Lemma CMem8Imm_roundtrip : format_roundtrip (mkFormat IsCMem8Imm EncodeCMem8Imm DecodeCMem8Imm false).
Proof. roundtrip. Qed.
Lemma CJImm_roundtrip : format_roundtrip (mkFormat IsCJImm EncodeCJImm DecodeCJImm false).
Proof. roundtrip. Qed.
Lemma CBImm_roundtrip : format_roundtrip (mkFormat IsCBImm EncodeCBImm DecodeCBImm false).
Proof. roundtrip. Qed.
Lemma CIImm_roundtrip : format_roundtrip (mkFormat IsCIImm EncodeCIImm DecodeCIImm false).
Proof. roundtrip. Qed.
Lemma CUImm_roundtrip : format_roundtrip (mkFormat IsCUImm EncodeCUImm DecodeCUImm false).
Proof. roundtrip. Qed.
Lemma CI16Imm_roundtrip : format_roundtrip (mkFormat IsCI16Imm EncodeCI16Imm DecodeCI16Imm false).
Proof. roundtrip. Qed.
Lemma CI4SPNImm_roundtrip : format_roundtrip (mkFormat IsCI4SPNImm EncodeCI4SPNImm DecodeCI4SPNImm false).
Proof. roundtrip. Qed.

(** [EncodeCMem2Imm] asserts the byte format's guard, which its own implies. *)
Lemma IsCMem2Imm_CMem1 imm : IsCMem2Imm imm = true -> IsCMem1Imm imm = true.
Proof.
  unfold IsCMem2Imm, IsCMem1Imm; intros H; apply andb_true_iff in H as [H _]; rewrite H.
  unfold IsAligned; cbn [andb]. rewrite Z.land_0_r; reflexivity.
Qed.

Lemma CMem2Imm_roundtrip : format_roundtrip (mkFormat IsCMem2Imm EncodeCMem2Imm DecodeCMem2Imm false).
Proof.
  intros imm _ H; cbn [fmt_is fmt_encode fmt_decode] in *. unfold EncodeCMem2Imm, DecodeCMem2Imm.
  encode_guard (IsCMem2Imm_CMem1 imm H).
  unfold IsCMem2Imm in H; learn_guard; bits_solve.
Qed.

Lemma CShamt_roundtrip : format_roundtrip (mkFormat IsCShamt EncodeCShamt DecodeCShamt true).
Proof.
  intros imm Hu H; cbn [fmt_is fmt_encode fmt_decode fmt_u32] in *; specialize (Hu eq_refl).
  unfold EncodeCShamt, DecodeCShamt. encode_guard H.
  unfold IsCShamt, XLEN in H. rewrite uN_small in H by exact Hu. apply Z.ltb_lt in H.
  assert (is_uN 6 imm) by (unfold is_uN in *; lia). bits_solve.
Qed.

Lemma CMopn_roundtrip : format_roundtrip (mkFormat IsCMopn EncodeCMopn DecodeCMopn true).
Proof.
  intros imm Hu H; cbn [fmt_is fmt_encode fmt_decode fmt_u32] in *; specialize (Hu eq_refl).
  unfold EncodeCMopn, DecodeCMopn. encode_guard H.
  unfold IsCMopn in H. rewrite uN_small in H by exact Hu.
  apply andb_true_iff in H as [H _]. apply Z.ltb_lt in H.
  assert (is_uN 4 imm) by (unfold is_uN in *; lia). bits_solve.
Qed.

Ltac row H := apply Forall_cons; [exact H|].

(** C36.  Every immediate format of the header round trips: an immediate its
    guard accepts (a [uint32_t] one where the guard's parameter is a
    [uint32_t]) is encoded without a failing assertion into a 32-bit word, and
    the decoder the simulator uses returns exactly that immediate. *)
Theorem immediates_roundtrip f imm :
  In f imm_formats -> (fmt_u32 f = true -> is_uN 32 imm) -> fmt_is f imm = true ->
  exists e, fmt_encode f imm = Some e /\ is_uN 32 e /\ fmt_decode f e = imm.
Proof.
  intros HIn; revert imm; change (format_roundtrip f); revert f HIn.
  apply Forall_forall. unfold imm_formats.
  row BType_roundtrip. row JType_roundtrip. row IType_roundtrip. row UType_roundtrip.
  row SType_roundtrip. row Moprn_roundtrip. row Moprrn_roundtrip. row CSPLoad4Imm_roundtrip.
  row CSPLoad8Imm_roundtrip. row CSPStore4Imm_roundtrip. row CSPStore8Imm_roundtrip. row CMem1Imm_roundtrip.
  row CMem2Imm_roundtrip. row CMem4Imm_roundtrip. row CMem8Imm_roundtrip. row CJImm_roundtrip.
  row CBImm_roundtrip. row CIImm_roundtrip. row CUImm_roundtrip. row CI16Imm_roundtrip.
  row CI4SPNImm_roundtrip. row CShamt_roundtrip. row CMopn_roundtrip.
  apply Forall_nil.
Qed.

Lemma immediates_roundtrip_witness :
  exists e, EncodeCJImm (-1024) = Some e /\ is_uN 32 e /\ DecodeCJImm e = -1024.
Proof.
  pose proof (immediates_roundtrip (mkFormat IsCJImm EncodeCJImm DecodeCJImm false) (-1024)
    (nth_error_In imm_formats 15 eq_refl) ltac:(discriminate) eq_refl) as H.
  cbn [fmt_is fmt_encode fmt_decode] in H. exact H.
Defined.
