(* ===== verification/RvAlu.v ===== *)
(** * Arithmetic of the RISC-V simulator

    The static arithmetic functions of [vm/simulator_riscv.cc] ([mul] to
    [bset]) at [XLEN = 64].  Operands and results are values of the C++ types
    of the parameters: an [intx_t] is a signed 64-bit [Z], a [uintx_t] an
    unsigned one; mixed expressions are computed in [uintx_t] as the usual
    arithmetic conversions say and converted back by the assignment.  The
    theorems compare each function with the mathematical operation it
    implements. *)

From Stdlib Require Import ZArith Lia ZifyBool Bool List.
From S2P Require Import Prelude Bits Utils RvEncoding.

Definition kMinIntX : Z := - 2 ^ 63.
Definition kMaxUIntX : Z := 2 ^ 64 - 1.

Definition kLoMask : Z := u64 (1 << (XLEN / 2)) - 1.
Definition kHiShift : Z := XLEN / 2.

Definition mul (a b : Z) : Z := s64 (u64 (u64 a * u64 b)).

Definition mulh (a b : Z) : Z :=
  let a_lo := u64 a .& kLoMask in
  let a_hi := a >> kHiShift in
  let b_lo := u64 b .& kLoMask in
  let b_hi := b >> kHiShift in
  let x := u64 (a_lo * b_lo) in
  let y := s64 (u64 (u64 a_hi * b_lo)) in
  let z := s64 (u64 (a_lo * u64 b_hi)) in
  let w := s64 (a_hi * b_hi) in
  let r0 := s64 (u64 ((x >> kHiShift) + u64 y)) in
  let r1 := s64 (u64 ((u64 r0 .& kLoMask) + u64 z)) in
  s64 (s64 (w + (r0 >> kHiShift)) + (r1 >> kHiShift)).

Definition mulhu (a b : Z) : Z :=
  let a_lo := a .& kLoMask in
  let a_hi := a >> kHiShift in
  let b_lo := b .& kLoMask in
  let b_hi := b >> kHiShift in
  let x := u64 (a_lo * b_lo) in
  let y := u64 (a_hi * b_lo) in
  let z := u64 (a_lo * b_hi) in
  let w := u64 (a_hi * b_hi) in
  let r0 := u64 ((x >> kHiShift) + y) in
  let r1 := u64 ((r0 .& kLoMask) + z) in
  u64 (u64 (w + (r0 >> kHiShift)) + (r1 >> kHiShift)).

Definition mulhsu (a b : Z) : Z :=
  let a_lo := u64 a .& kLoMask in
  let a_hi := a >> kHiShift in
  let b_lo := b .& kLoMask in
  let b_hi := b >> kHiShift in
  let x := u64 (a_lo * b_lo) in
  let y := s64 (u64 (u64 a_hi * b_lo)) in
  let z := u64 (a_lo * b_hi) in
  let w := s64 (u64 (u64 a_hi * b_hi)) in
  let r0 := s64 (u64 ((x >> kHiShift) + u64 y)) in
  let r1 := u64 ((u64 r0 .& kLoMask) + z) in
  u64 (u64 (s64 (w + (r0 >> kHiShift))) + (r1 >> kHiShift)).

(** C++ [/] and [%] truncate towards zero. *)
Definition div (a b : Z) : Z :=
  if b =? 0 then -1
  else if (b =? -1) && (a =? kMinIntX) then kMinIntX
  else Z.quot a b.

Definition divu (a b : Z) : Z := if b =? 0 then kMaxUIntX else Z.quot a b.

Definition rem (a b : Z) : Z :=
  if b =? 0 then a
  else if (b =? -1) && (a =? kMinIntX) then 0
  else Z.rem a b.

Definition remu (a b : Z) : Z := if b =? 0 then a else Z.rem a b.

(** [int32_t] multiplication; an overflow wraps around. *)
Definition mulw (a b : Z) : Z := s32 (a * b).

Definition divw (a b : Z) : Z :=
  if b =? 0 then -1
  else if (b =? -1) && (a =? kMinInt32) then kMinInt32
  else Z.quot a b.

Definition divuw (a b : Z) : Z := if b =? 0 then kMaxUint32 else Z.quot a b.

Definition remw (a b : Z) : Z :=
  if b =? 0 then a
  else if (b =? -1) && (a =? kMinInt32) then 0
  else Z.rem a b.

Definition remuw (a b : Z) : Z := if b =? 0 then a else Z.rem a b.

Definition clz (a : Z) : Z := countl_zero 64 a.
Definition ctz (a : Z) : Z := countr_zero 64 a.
Definition cpop (a : Z) : Z := popcount a.
Definition clzw (a : Z) : Z := countl_zero 32 a.
Definition ctzw (a : Z) : Z := countr_zero 32 a.
Definition cpopw (a : Z) : Z := popcount a.
Definition max (a b : Z) : Z := if a >? b then a else b.
Definition maxu (a b : Z) : Z := if a >? b then a else b.
Definition min (a b : Z) : Z := if a <? b then a else b.
Definition minu (a b : Z) : Z := if a <? b then a else b.

(** The loops [for (int bit = ...; bit < XLEN; bit++)]: [n] iterations from [bit]. *)
Fixpoint clmul_loop (n : nat) (bit a b result : Z) : Z :=
  match n with
  | O => result
  | S m => clmul_loop m (bit + 1) a b
             (if negb (((b >> bit) .& 1) =? 0) then result .^ u64 (a << bit) else result)
  end.

Definition clmul (a b : Z) : Z := clmul_loop (Z.to_nat XLEN) 0 a b 0.

Fixpoint clmulh_loop (n : nat) (bit a b result : Z) : Z :=
  match n with
  | O => result
  | S m => clmulh_loop m (bit + 1) a b
             (if negb (((b >> bit) .& 1) =? 0) then result .^ (a >> (XLEN - bit)) else result)
  end.

Definition clmulh (a b : Z) : Z := clmulh_loop (Z.to_nat (XLEN - 1)) 1 a b 0.

Fixpoint clmulr_loop (n : nat) (bit a b result : Z) : Z :=
  match n with
  | O => result
  | S m => clmulr_loop m (bit + 1) a b
             (if negb (((b >> bit) .& 1) =? 0) then result .^ (a >> (XLEN - bit - 1)) else result)
  end.

Definition clmulr (a b : Z) : Z := clmulr_loop (Z.to_nat XLEN) 0 a b 0.

Definition sextb (a : Z) : Z := u64 (s64 (u64 (a << (XLEN - 8))) >> (XLEN - 8)).
Definition zextb (a : Z) : Z := u64 (a << (XLEN - 8)) >> (XLEN - 8).
Definition sexth (a : Z) : Z := u64 (s64 (u64 (a << (XLEN - 16))) >> (XLEN - 16)).
Definition zexth (a : Z) : Z := u64 (a << (XLEN - 16)) >> (XLEN - 16).
Definition zextw (a : Z) : Z := u64 (a << (XLEN - 32)) >> (XLEN - 32).

Definition ror (a b : Z) : Z := rotr 64 a (b .& (XLEN - 1)).
Definition rol (a b : Z) : Z := rotl 64 a (b .& (XLEN - 1)).
Definition rorw (a b : Z) : Z := u64 (sign_extend 32 (rotr 32 (u32 a) (b .& (XLEN - 1)))).
Definition rolw (a b : Z) : Z := u64 (sign_extend 32 (rotl 32 (u32 a) (b .& (XLEN - 1)))).

Fixpoint orcb_loop (n : nat) (shift a result : Z) : Z :=
  match n with
  | O => result
  | S m => orcb_loop m (shift + 8) a
             (if negb (((a >> shift) .& 0xFF) =? 0) then result .| u64 (0xFF << shift) else result)
  end.

Definition orcb (a : Z) : Z := orcb_loop 8 0 a 0.

Fixpoint rev8_loop (n : nat) (shift a result : Z) : Z :=
  match n with
  | O => result
  | S m => rev8_loop m (shift + 8) a (u64 (result << 8) .| ((a >> shift) .& 0xFF))
  end.

Definition rev8 (a : Z) : Z := rev8_loop 8 0 a 0.

Definition bclr (a b : Z) : Z := a .& u64 (Z.lnot (u64 (1 << (b .& (XLEN - 1))))).
Definition bext (a b : Z) : Z := (a >> (b .& (XLEN - 1))) .& 1.
Definition binv (a b : Z) : Z := a .^ u64 (1 << (b .& (XLEN - 1))).
Definition bset (a b : Z) : Z := a .| u64 (1 << (b .& (XLEN - 1))).

(** ** Correctness of the high-word multiplications *)

Lemma lo_mask x : u64 x .& kLoMask = x mod 2 ^ 32.
Proof.
  change kLoMask with (Z.ones 32). rewrite Z.land_ones by lia. unfold uN.
  replace (2 ^ 64) with (2 ^ 32 * 2 ^ 32) by reflexivity.
  apply Z.mod_mod_divide. exists (2 ^ 32); reflexivity.
Qed.

Lemma lo_mask_u x : is_uN 64 x -> x .& kLoMask = x mod 2 ^ 32.
Proof. intros Hx; rewrite <- (lo_mask x), uN_small by exact Hx; reflexivity. Qed.

Lemma hi_shift x : x >> kHiShift = x / 2 ^ 32.
Proof. apply Z.shiftr_div_pow2; discriminate. Qed.

Lemma s64_u64 x : is_sN 64 x -> s64 (u64 x) = x.
Proof. intros; rewrite sN_uN by lia; apply sN_small; (assumption || lia). Qed.

(** Schoolbook multiplication of two numbers split at bit 32. *)
Lemma schoolbook a1 a0 b1 b0 :
  (a1 * 2 ^ 32 + a0) * (b1 * 2 ^ 32 + b0) / 2 ^ 64 =
  a1 * b1 + ((a0 * b0) / 2 ^ 32 + a1 * b0) / 2 ^ 32
  + (((a0 * b0) / 2 ^ 32 + a1 * b0) mod 2 ^ 32 + a0 * b1) / 2 ^ 32.
Proof.
  replace (2 ^ 64) with (2 ^ 32 * 2 ^ 32) by reflexivity.
  set (B := 2 ^ 32). assert (HB : 0 < B) by reflexivity.
  rewrite <- Z.div_div by lia.
  replace ((a1 * B + a0) * (b1 * B + b0)) with (a0 * b0 + (a1 * b1 * B + a1 * b0 + a0 * b1) * B) by ring.
  rewrite Z.div_add by lia. set (h := a0 * b0 / B).
  replace (h + (a1 * b1 * B + a1 * b0 + a0 * b1)) with ((h + a1 * b0 + a0 * b1) + a1 * b1 * B) by ring.
  rewrite Z.div_add by lia. set (r := h + a1 * b0).
  rewrite (Z.div_mod r B) at 1 by lia.
  replace (B * (r / B) + r mod B + a0 * b1) with ((r mod B + a0 * b1) + (r / B) * B) by ring.
  rewrite Z.div_add by lia. ring.
Qed.

Lemma split32 a : a = a / 2 ^ 32 * 2 ^ 32 + a mod 2 ^ 32.
Proof. pose proof (Z.div_mod a (2 ^ 32) ltac:(lia)); lia. Qed.

Lemma mod32_range a : 0 <= a mod 2 ^ 32 <= 2 ^ 32 - 1.
Proof. pose proof (Z.mod_pos_bound a (2 ^ 32) ltac:(lia)); lia. Qed.

Lemma hi_signed a : is_sN 64 a -> - 2 ^ 31 <= a / 2 ^ 32 <= 2 ^ 31 - 1.
Proof.
  unfold is_sN; change (2 ^ (64 - 1)) with (2 ^ 63); intros H.
  pose proof (Z.div_le_mono (- 2 ^ 63) a (2 ^ 32) ltac:(lia) ltac:(lia)) as L.
  pose proof (Z.div_lt_upper_bound a (2 ^ 32) (2 ^ 31) ltac:(lia) ltac:(lia)). change (- 2 ^ 63 / 2 ^ 32) with (- 2 ^ 31) in L. lia.
Qed.

Lemma hi_unsigned a : is_uN 64 a -> 0 <= a / 2 ^ 32 <= 2 ^ 32 - 1.
Proof.
  unfold is_uN; intros H. split; [apply Z.div_pos; lia|].
  pose proof (Z.div_lt_upper_bound a (2 ^ 32) (2 ^ 32) ltac:(lia) ltac:(lia)). lia.
Qed.

Lemma is_s64_bounds x : - 2 ^ 63 <= x <= 2 ^ 63 - 1 -> is_sN 64 x.
Proof. unfold is_sN; change (2 ^ (64 - 1)) with (2 ^ 63); lia. Qed.

(** Removes the casts of an intermediate result that fits. *)
Lemma cast_su x y : is_sN 64 (x + y) -> s64 (u64 (x + u64 y)) = x + y.
Proof. intros; rewrite uN_add_r; apply s64_u64; assumption. Qed.

Lemma cast_mul_l x y : is_sN 64 (x * y) -> s64 (u64 (u64 x * y)) = x * y.
Proof. intros; rewrite uN_mul_l; apply s64_u64; assumption. Qed.

Lemma cast_mul_r x y : is_sN 64 (x * y) -> s64 (u64 (x * u64 y)) = x * y.
Proof. intros; rewrite uN_mul_r; apply s64_u64; assumption. Qed.

Lemma div32_bounds lo hi x : lo * 2 ^ 32 <= x < (hi + 1) * 2 ^ 32 -> lo <= x / 2 ^ 32 <= hi.
Proof.
  intros H; split; [apply Z.div_le_lower_bound; lia|].
  pose proof (Z.div_lt_upper_bound x (2 ^ 32) (hi + 1) ltac:(lia) ltac:(lia)); lia.
Qed.

Lemma x_range a0 b0 : 0 <= a0 <= 2 ^ 32 - 1 -> 0 <= b0 <= 2 ^ 32 - 1 ->
  0 <= a0 * b0 < 2 ^ 64 /\ 0 <= a0 * b0 / 2 ^ 32 <= 2 ^ 32 - 2.
Proof.
  intros. assert (0 <= a0 * b0 <= (2 ^ 32 - 1) * (2 ^ 32 - 1)) by nia.
  split; [lia|]. apply div32_bounds; lia.
Qed.

Lemma prod_signed u v : - 2 ^ 31 <= u <= 2 ^ 31 - 1 -> 0 <= v <= 2 ^ 32 - 1 ->
  - 2 ^ 63 + 2 ^ 31 <= u * v <= 2 ^ 63 - 2 ^ 32 - 2 ^ 31 + 1.
Proof. intros; nia. Qed.

Lemma prod_unsigned u v : 0 <= u <= 2 ^ 32 - 1 -> 0 <= v <= 2 ^ 32 - 1 ->
  0 <= u * v <= 2 ^ 64 - 2 * 2 ^ 32 + 1.
Proof. intros; nia. Qed.

Lemma prod_ss u v : - 2 ^ 31 <= u <= 2 ^ 31 - 1 -> - 2 ^ 31 <= v <= 2 ^ 31 - 1 ->
  - 2 ^ 62 <= u * v <= 2 ^ 62.
Proof. intros; nia. Qed.

Lemma mulh_spec a b : is_sN 64 a -> is_sN 64 b -> mulh a b = (a * b) / 2 ^ 64.
Proof.
  intros Ha Hb. unfold mulh. cbv zeta. rewrite !lo_mask, !hi_shift.
  rewrite (split32 a) at 7. rewrite (split32 b) at 7. rewrite schoolbook.
  pose proof (hi_signed a Ha) as A1; pose proof (hi_signed b Hb) as B1.
  pose proof (mod32_range a) as A0; pose proof (mod32_range b) as B0.
  set (a1 := a / 2 ^ 32) in *; set (a0 := a mod 2 ^ 32) in *;
    set (b1 := b / 2 ^ 32) in *; set (b0 := b mod 2 ^ 32) in *; clearbody a1 a0 b1 b0.
  destruct (x_range a0 b0 A0 B0) as [X X'].
  pose proof (prod_signed a1 b0 A1 B0) as Y; pose proof (prod_signed b1 a0 B1 A0) as Z'.
  pose proof (prod_ss a1 b1 A1 B1) as W.
  rewrite (uN_small 64 (a0 * b0)) by (unfold is_uN; lia).
  rewrite cast_mul_l, cast_mul_r by (apply is_s64_bounds; lia).
  set (x := a0 * b0 / 2 ^ 32) in *.
  rewrite cast_su by (apply is_s64_bounds; lia).
  set (r0 := x + a1 * b0) in *. pose proof (mod32_range r0) as R0.
  rewrite cast_su by (apply is_s64_bounds; lia).
  pose proof (div32_bounds (- 2 ^ 31) (2 ^ 31 - 1) r0 ltac:(subst r0; lia)).
  pose proof (div32_bounds (- 2 ^ 31) (2 ^ 31 - 1) (r0 mod 2 ^ 32 + a0 * b1) ltac:(lia)).
  rewrite (sN_small 64 (a1 * b1)) by (try apply is_s64_bounds; lia).
  rewrite (sN_small 64 (a1 * b1 + r0 / 2 ^ 32)) by (try apply is_s64_bounds; lia).
  apply sN_small; [lia|]. apply is_s64_bounds; lia.
Qed.

Lemma mulhu_spec a b : is_uN 64 a -> is_uN 64 b -> mulhu a b = (a * b) / 2 ^ 64.
Proof.
  intros Ha Hb. unfold mulhu. cbv zeta. rewrite (lo_mask_u a), (lo_mask_u b), !hi_shift by assumption.
  rewrite (split32 a) at 7. rewrite (split32 b) at 7. rewrite schoolbook.
  pose proof (hi_unsigned a Ha) as A1; pose proof (hi_unsigned b Hb) as B1.
  pose proof (mod32_range a) as A0; pose proof (mod32_range b) as B0.
  set (a1 := a / 2 ^ 32) in *; set (a0 := a mod 2 ^ 32) in *;
    set (b1 := b / 2 ^ 32) in *; set (b0 := b mod 2 ^ 32) in *; clearbody a1 a0 b1 b0.
  destruct (x_range a0 b0 A0 B0) as [X X'].
  pose proof (prod_unsigned a1 b0 A1 B0) as Y; pose proof (prod_unsigned a0 b1 A0 B1) as Z'.
  pose proof (prod_unsigned a1 b1 A1 B1) as W.
  rewrite !(uN_small 64 (_ * _)) by (unfold is_uN; lia).
  set (x := a0 * b0 / 2 ^ 32) in *.
  rewrite (uN_small 64 (x + a1 * b0)) by (unfold is_uN; lia).
  set (r0 := x + a1 * b0) in *. rewrite lo_mask_u by (unfold is_uN; lia).
  pose proof (mod32_range r0) as R0.
  rewrite (uN_small 64 (r0 mod 2 ^ 32 + a0 * b1)) by (unfold is_uN; lia).
  pose proof (div32_bounds 0 (2 ^ 32 - 1) r0 ltac:(subst r0; lia)).
  pose proof (div32_bounds 0 (2 ^ 32 - 1) (r0 mod 2 ^ 32 + a0 * b1) ltac:(lia)).
  rewrite uN_add_l. apply uN_small. unfold is_uN; lia.
Qed.

Lemma mulhsu_spec a b : is_sN 64 a -> is_uN 64 b -> mulhsu a b = u64 ((a * b) / 2 ^ 64).
Proof.
  intros Ha Hb. unfold mulhsu. cbv zeta. rewrite (lo_mask_u b), !lo_mask, !hi_shift by assumption.
  rewrite (split32 a) at 7. rewrite (split32 b) at 7. rewrite schoolbook.
  pose proof (hi_signed a Ha) as A1; pose proof (hi_unsigned b Hb) as B1.
  pose proof (mod32_range a) as A0; pose proof (mod32_range b) as B0.
  set (a1 := a / 2 ^ 32) in *; set (a0 := a mod 2 ^ 32) in *;
    set (b1 := b / 2 ^ 32) in *; set (b0 := b mod 2 ^ 32) in *; clearbody a1 a0 b1 b0.
  destruct (x_range a0 b0 A0 B0) as [X X'].
  pose proof (prod_signed a1 b0 A1 B0) as Y; pose proof (prod_unsigned a0 b1 A0 B1) as Z'.
  pose proof (prod_signed a1 b1 A1 B1) as W.
  rewrite !(uN_small 64 (a0 * _)) by (unfold is_uN; lia).
  rewrite !cast_mul_l by (apply is_s64_bounds; lia).
  set (x := a0 * b0 / 2 ^ 32) in *.
  rewrite cast_su by (apply is_s64_bounds; lia).
  set (r0 := x + a1 * b0) in *. pose proof (mod32_range r0) as R0.
  rewrite (uN_small 64 (r0 mod 2 ^ 32 + a0 * b1)) by (unfold is_uN; lia).
  rewrite uN_sN, uN_add_l by lia. reflexivity.
Qed.

(**  [mulh], [mulhu] and [mulhsu] return the exact high word of the
    128-bit product for every pair of operands: no intermediate sum of the
    four partial products overflows its C++ type. *)
Theorem high_word_multiplications a b :
  (is_sN 64 a -> is_sN 64 b -> mulh a b = (a * b) / 2 ^ 64) /\
  (is_uN 64 a -> is_uN 64 b -> mulhu a b = (a * b) / 2 ^ 64) /\
  (is_sN 64 a -> is_uN 64 b -> mulhsu a b = u64 ((a * b) / 2 ^ 64)).
Proof. auto using mulh_spec, mulhu_spec, mulhsu_spec. Qed.

Lemma high_word_multiplications_witness :
  mulh (- 2 ^ 63) (- 2 ^ 63) = 2 ^ 62 /\ mulhu (2 ^ 64 - 1) (2 ^ 64 - 1) = 2 ^ 64 - 2 /\
  mulhsu (- 2 ^ 63) (2 ^ 64 - 1) = 2 ^ 63.
Proof.
  split; [|split].
  - exact (proj1 (high_word_multiplications (- 2 ^ 63) (- 2 ^ 63)) ltac:(split; discriminate || reflexivity) ltac:(split; discriminate || reflexivity)).
  - exact (proj1 (proj2 (high_word_multiplications (2 ^ 64 - 1) (2 ^ 64 - 1))) ltac:(split; discriminate || reflexivity) ltac:(split; discriminate || reflexivity)).
  - exact (proj2 (proj2 (high_word_multiplications (- 2 ^ 63) (2 ^ 64 - 1))) ltac:(split; discriminate || reflexivity) ltac:(split; discriminate || reflexivity)).
Defined.

(** ** Division *)

(** The shape shared by [div]/[rem] and [divw]/[remw]. *)
Lemma signed_division w a b : 1 < w -> is_sN w a -> is_sN w b ->
  let q := if b =? 0 then -1 else if (b =? -1) && (a =? min_sN w) then min_sN w else Z.quot a b in
  let r := if b =? 0 then a else if (b =? -1) && (a =? min_sN w) then 0 else Z.rem a b in
  is_sN w q /\ is_sN w r /\ sN w (b * q + r) = a /\
  (b <> 0 -> Z.abs r < Z.abs b /\ 0 <= r * a).
Proof.
  intros Hw Ha Hb. cbv zeta.
  assert (P : 2 <= 2 ^ (w - 1)) by (pose proof (Z.pow_le_mono_r 2 1 (w - 1)); lia).
  destruct (Z.eqb_spec b 0) as [->|Hb0].
  { repeat split; try (unfold is_sN in *; lia).
    replace (0 * -1 + a) with a by lia. apply sN_small; (assumption || lia). }
  destruct (Z.eqb_spec b (-1)) as [->|], (Z.eqb_spec a (min_sN w)) as [->|]; cbn [andb].
  { unfold min_sN in *. repeat split; try (unfold is_sN; lia).
    replace (-1 * - 2 ^ (w - 1) + 0) with (- 2 ^ (w - 1) + 1 * 2 ^ w) by (rewrite (pow2_pred w); lia).
    rewrite sN_add_mult. apply sN_small; [lia|]. unfold is_sN; lia. }
  all: split; [apply quot_fits; (assumption || lia)|].
  all: match goal with |- context [Z.rem ?x ?y] =>
         pose proof (Z.rem_bound_abs x y Hb0); pose proof (Z.rem_sign_mul x y Hb0);
         pose proof (Z.quot_rem x y Hb0) as E; pose proof (Z.rem_le x y) end.
  all: split; [unfold is_sN in *; lia|split; [|intros _; split; lia]].
  all: rewrite <- E; apply sN_small; (assumption || lia).
Qed.

Lemma unsigned_division w a b : 0 <= w -> is_uN w a -> is_uN w b ->
  let q := if b =? 0 then 2 ^ w - 1 else Z.quot a b in
  let r := if b =? 0 then a else Z.rem a b in
  is_uN w q /\ is_uN w r /\ b * q + r = a /\ (b <> 0 -> r < b).
Proof.
  intros Hw Ha Hb. cbv zeta. unfold is_uN in *.
  destruct (Z.eqb_spec b 0) as [->|Hb0]; [repeat split; lia|].
  pose proof (Z.quot_rem a b Hb0); pose proof (Z.rem_bound_pos a b ltac:(lia) ltac:(lia)).
  pose proof (Z.quot_pos a b ltac:(lia) ltac:(lia)). repeat split; try lia; nia.
Qed.

(**  Signed and unsigned division at both widths: the quotient and the
    remainder always fit their type and satisfy [a = b * q + r] modulo the
    width, the overflowing [min / -1] included (and, for the signed pair,
    division by zero, where the product vanishes); with a non-zero divisor the
    remainder is smaller than the divisor in magnitude and takes the sign of
    the dividend. *)
Theorem division_law a b :
  (is_sN 64 a -> is_sN 64 b ->
     is_sN 64 (div a b) /\ is_sN 64 (rem a b) /\ s64 (b * div a b + rem a b) = a /\
     (b <> 0 -> Z.abs (rem a b) < Z.abs b /\ 0 <= rem a b * a)) /\
  (is_uN 64 a -> is_uN 64 b ->
     is_uN 64 (divu a b) /\ is_uN 64 (remu a b) /\ b * divu a b + remu a b = a /\
     (b <> 0 -> remu a b < b)) /\
  (is_sN 32 a -> is_sN 32 b ->
     is_sN 32 (divw a b) /\ is_sN 32 (remw a b) /\ s32 (b * divw a b + remw a b) = a /\
     (b <> 0 -> Z.abs (remw a b) < Z.abs b /\ 0 <= remw a b * a)) /\
  (is_uN 32 a -> is_uN 32 b ->
     is_uN 32 (divuw a b) /\ is_uN 32 (remuw a b) /\ b * divuw a b + remuw a b = a /\
     (b <> 0 -> remuw a b < b)).
Proof.
  split; [|split; [|split]]; intros Ha Hb.
  - exact (signed_division 64 a b ltac:(lia) Ha Hb).
  - exact (unsigned_division 64 a b ltac:(lia) Ha Hb).
  - exact (signed_division 32 a b ltac:(lia) Ha Hb).
  - exact (unsigned_division 32 a b ltac:(lia) Ha Hb).
Qed.

Lemma division_law_witness : div kMinIntX (-1) = kMinIntX /\ s64 (-1 * div kMinIntX (-1) + rem kMinIntX (-1)) = kMinIntX.
Proof.
  split; [reflexivity|].
  exact (proj1 (proj2 (proj2 (proj1 (division_law kMinIntX (-1)) ltac:(split; discriminate || reflexivity)
    ltac:(split; discriminate || reflexivity))))).
Defined.

(** ** Carry-less multiplication *)

(** [f bit .^ f (bit + 1) .^ ...], [n] terms. *)
Fixpoint xor_range (n : nat) (bit : Z) (f : Z -> Z) : Z :=
  match n with
  | O => 0
  | S m => f bit .^ xor_range m (bit + 1) f
  end.

(** The product of [a] and [b] as polynomials over GF(2). *)
Definition poly_mul (a b : Z) : Z := xor_range 64 0 (fun i => if Z.testbit b i then a << i else 0).

Lemma bit_test b i : 0 <= i -> negb (((b >> i) .& 1) =? 0) = Z.testbit b i.
Proof.
  intros Hi. change 1 with (Z.ones 1). rewrite Z.land_ones by lia.
  rewrite Z.shiftr_div_pow2, <- Z.testbit_spec' by lia. destruct (Z.testbit b i); reflexivity.
Qed.

Lemma xor_range_ext n : forall bit f g,
  (forall i, bit <= i < bit + Z.of_nat n -> f i = g i) -> xor_range n bit f = xor_range n bit g.
Proof.
  induction n as [|n IH]; intros bit f g H; cbn [xor_range]; [reflexivity|].
  rewrite (H bit), (IH (bit + 1) f g) by (try intros; try apply H; lia). reflexivity.
Qed.

Lemma u64_lxor a b : u64 (a .^ b) = u64 a .^ u64 b.
Proof.
  apply Z.bits_inj'; intros i Hi. rewrite testbit_uN, !Z.lxor_spec, !testbit_uN by lia.
  destruct (i <? 64); reflexivity.
Qed.

Lemma u64_xor_range n f : forall bit, u64 (xor_range n bit f) = xor_range n bit (fun i => u64 (f i)).
Proof. induction n as [|n IH]; intros; cbn [xor_range]; [reflexivity|]. rewrite u64_lxor, IH; reflexivity. Qed.

Lemma shiftr_xor_range n f k : forall bit, xor_range n bit f >> k = xor_range n bit (fun i => f i >> k).
Proof.
  induction n as [|n IH]; intros; cbn [xor_range]; [apply Z.shiftr_0_l|].
  rewrite Z.shiftr_lxor, IH; reflexivity.
Qed.

Lemma clmul_loop_spec a b n : forall bit r, 0 <= bit ->
  clmul_loop n bit a b r = r .^ xor_range n bit (fun i => if Z.testbit b i then u64 (a << i) else 0).
Proof.
  induction n as [|n IH]; intros bit r Hb; cbn [clmul_loop xor_range]; [symmetry; apply Z.lxor_0_r|].
  rewrite bit_test, IH by lia. destruct (Z.testbit b bit); rewrite ?Z.lxor_0_l, <- ?Z.lxor_assoc; reflexivity.
Qed.

Lemma clmulh_loop_spec a b n : forall bit r, 0 <= bit ->
  clmulh_loop n bit a b r = r .^ xor_range n bit (fun i => if Z.testbit b i then a >> (XLEN - i) else 0).
Proof.
  induction n as [|n IH]; intros bit r Hb; cbn [clmulh_loop xor_range]; [symmetry; apply Z.lxor_0_r|].
  rewrite bit_test, IH by lia. destruct (Z.testbit b bit); rewrite ?Z.lxor_0_l, <- ?Z.lxor_assoc; reflexivity.
Qed.

Lemma clmulr_loop_spec a b n : forall bit r, 0 <= bit ->
  clmulr_loop n bit a b r = r .^ xor_range n bit (fun i => if Z.testbit b i then a >> (XLEN - i - 1) else 0).
Proof.
  induction n as [|n IH]; intros bit r Hb; cbn [clmulr_loop xor_range]; [symmetry; apply Z.lxor_0_r|].
  rewrite bit_test, IH by lia. destruct (Z.testbit b bit); rewrite ?Z.lxor_0_l, <- ?Z.lxor_assoc; reflexivity.
Qed.

Lemma shiftl_shiftr_sub a i k : 0 <= i <= k -> (a << i) >> k = a >> (k - i).
Proof.
  intros. apply Z.bits_inj'; intros j Hj.
  rewrite !Z.shiftr_spec, Z.shiftl_spec by lia. f_equal; lia.
Qed.

(**  The three carry-less multiplications are slices of one polynomial
    product over GF(2): [clmul] its bits 0 to 63, [clmulh] its bits 64 and up,
    [clmulr] its bits 63 and up. *)
Theorem clmul_slices a b : is_uN 64 a ->
  clmul a b = u64 (poly_mul a b) /\ clmulh a b = poly_mul a b >> 64 /\ clmulr a b = poly_mul a b >> 63.
Proof.
  intros Ha. unfold clmul, clmulh, clmulr, poly_mul.
  rewrite clmul_loop_spec, clmulh_loop_spec, clmulr_loop_spec, !Z.lxor_0_l by lia.
  rewrite u64_xor_range, !shiftr_xor_range. repeat split.
  - apply xor_range_ext; intros i Hi; destruct (Z.testbit b i); reflexivity.
  - change (xor_range 64 0) with (fun f => f 0 .^ xor_range 63 1 f). cbv beta.
    replace ((if Z.testbit b 0 then a << 0 else 0) >> 64) with 0.
    + rewrite Z.lxor_0_l. apply xor_range_ext; intros i Hi; unfold XLEN.
      destruct (Z.testbit b i); rewrite ?shiftl_shiftr_sub by (cbn in Hi; lia); reflexivity.
    + destruct (Z.testbit b 0); [|reflexivity]. rewrite Z.shiftl_0_r, Z.shiftr_div_pow2 by lia.
      symmetry; apply Z.div_small; exact Ha.
  - apply xor_range_ext; intros i Hi; unfold XLEN.
    destruct (Z.testbit b i); [|reflexivity].
    rewrite shiftl_shiftr_sub by (cbn in Hi; lia). f_equal; lia.
Qed.

Lemma clmul_slices_witness : clmulh (2 ^ 63) (2 ^ 63 + 2) = poly_mul (2 ^ 63) (2 ^ 63 + 2) >> 64.
Proof. exact (proj1 (proj2 (clmul_slices (2 ^ 63) (2 ^ 63 + 2) ltac:(split; discriminate || reflexivity)))). Defined.

(** ** Bit manipulation *)

Lemma land_63 b : b .& (XLEN - 1) = b mod 64.
Proof. change (XLEN - 1) with (Z.ones 6). apply Z.land_ones; lia. Qed.

Lemma testbit_pow2 k i : 0 <= k -> Z.testbit (1 << k) i = (i =? k).
Proof. intros; rewrite Z.shiftl_1_l, Z.pow2_bits_eqb, Z.eqb_sym by lia; reflexivity. Qed.

Lemma testbit_rotr w a s i : 0 < w -> is_uN w a -> 0 <= i < w ->
  Z.testbit (rotr w a s) i = Z.testbit a ((i + s) mod w).
Proof.
  intros Hw Ha Hi. unfold rotr. rewrite testbit_uN, Z.lor_spec, Z.shiftr_spec, Z.shiftl_spec by lia.
  rewrite (proj2 (Z.ltb_lt i w)) by lia. cbn [andb].
  pose proof (Z.mod_pos_bound s w Hw) as R. rewrite <- Zplus_mod_idemp_r. set (r := s mod w) in *.
  destruct (Z.lt_ge_cases (i + r) w).
  - rewrite (Z.mod_small (i + r) w), (Z.testbit_neg_r a (i - _)) by lia. apply orb_false_r.
  - rewrite (testbit_uN_high w a (i + r)) by (assumption || lia).
    replace ((i + r) mod w) with (i - (w - r)); [reflexivity|].
    symmetry; rewrite <- (Z_mod_plus_full (i + r) (-1) w), Z.mod_small; lia.
Qed.

Lemma testbit_rotl w a s i : 0 < w -> is_uN w a -> 0 <= i < w ->
  Z.testbit (rotl w a s) i = Z.testbit a ((i - s) mod w).
Proof.
  intros Hw Ha Hi. unfold rotl. rewrite testbit_uN, Z.lor_spec, Z.shiftr_spec, Z.shiftl_spec by lia.
  rewrite (proj2 (Z.ltb_lt i w)) by lia. cbn [andb].
  pose proof (Z.mod_pos_bound s w Hw) as R. rewrite <- Zminus_mod_idemp_r. set (r := s mod w) in *.
  destruct (Z.lt_ge_cases i r).
  - rewrite (Z.testbit_neg_r a (i - r)) by lia. cbn [orb]. f_equal.
    rewrite <- (Z_mod_plus_full (i - r) 1 w), Z.mod_small; lia.
  - rewrite (Z.mod_small (i - r)), (testbit_uN_high w a (i + _)) by (assumption || lia). apply orb_false_r.
Qed.

Lemma testbit_orcb_loop a n : forall shift r i, 0 <= shift -> 0 <= i < 64 ->
  shift + 8 * Z.of_nat n <= 64 ->
  Z.testbit (orcb_loop n shift a r) i =
  Z.testbit r i || ((shift <=? i) && (i <? shift + 8 * Z.of_nat n)
                    && negb (((a >> (shift + 8 * ((i - shift) / 8))) .& 0xFF) =? 0)).
Proof.
  induction n as [|n IH]; intros s r i Hs Hi Hn; cbn [orcb_loop].
  - replace ((s <=? i) && (i <? s + 8 * Z.of_nat 0)) with false by lia. symmetry; apply orb_false_r.
  - rewrite IH by lia.
    assert (E : forall c : bool, Z.testbit (if c then r .| u64 (255 << s) else r) i
                = Z.testbit r i || (c && ((s <=? i) && (i <? s + 8)))).
    { intros []; [|symmetry; apply orb_false_r]. rewrite Z.lor_spec, testbit_uN, Z.shiftl_spec by lia.
      rewrite (proj2 (Z.ltb_lt i 64)) by lia. change 255 with (Z.ones 8).
      rewrite Z.testbit_ones by lia. f_equal; lia. }
    rewrite E. destruct (Z.ltb_spec i (s + 8)).
    + replace (s + 8 <=? i) with false by lia. rewrite !andb_false_l, orb_false_r, andb_true_r.
      f_equal. destruct (Z.leb_spec s i); [|rewrite !andb_false_r; reflexivity].
      replace ((i - s) / 8) with 0 by (symmetry; apply Z.div_small; lia).
      replace (i <? s + 8 * Z.of_nat (S n)) with true by lia.
      rewrite andb_true_r, Z.mul_0_r, Z.add_0_r. reflexivity.
    + rewrite !andb_false_r, orb_false_r. f_equal.
      replace (s + 8 + 8 * ((i - (s + 8)) / 8)) with (s + 8 * ((i - s) / 8)).
      2:{ replace (i - s) with (i - (s + 8) + 1 * 8) by lia. rewrite Z.div_add by lia. lia. }
      f_equal. lia.
Qed.

Lemma testbit_rev8 a i : 0 <= i < 64 -> Z.testbit (rev8 a) i = Z.testbit a (56 - 8 * (i / 8) + i mod 8).
Proof.
  intros Hi. unfold rev8; cbn [rev8_loop].
  match goal with |- Z.testbit ?t i = _ =>
    let e := bits_reify t (a :: nil) in
    change (Z.testbit (denote (a :: nil) e) i = Z.testbit a (56 - 8 * (i / 8) + i mod 8));
    rewrite <- (bit_ok (Unknown :: nil) (a :: nil) e);
      [|apply env_ok_cons; [exact I|apply env_ok_nil]|reflexivity|lia];
    assert (H : forallb (fun k => sbit_eqb (bit (Unknown :: nil) e (Z.of_nat k))
                (BV 0 (56 - 8 * (Z.of_nat k / 8) + Z.of_nat k mod 8))) (seq 0 64) = true)
      by (vm_compute; reflexivity)
  end.
  rewrite forallb_forall in H. specialize (H (Z.to_nat i)). rewrite in_seq in H.
  rewrite Z2Nat.id in H by lia. apply sbit_eqb_eq in H; [|lia]. rewrite H. reflexivity.
Qed.

(**  The single-bit, rotate and byte instructions of Zbb and Zbs, bit by
    bit: with [k] the low six bits of the second operand, [bset], [bclr] and
    [binv] set, clear and flip exactly bit [k], [bext] returns it, [ror] and
    [rol] rotate by [k], [rev8] reverses the bytes and [orcb] smears each
    byte. *)
Theorem bit_manipulation a b i : is_uN 64 a -> 0 <= i < 64 ->
  Z.testbit (bset a b) i = (i =? b mod 64) || Z.testbit a i /\
  Z.testbit (bclr a b) i = negb (i =? b mod 64) && Z.testbit a i /\
  Z.testbit (binv a b) i = xorb (i =? b mod 64) (Z.testbit a i) /\
  bext a b = Z.b2z (Z.testbit a (b mod 64)) /\
  Z.testbit (ror a b) i = Z.testbit a ((i + b) mod 64) /\
  Z.testbit (rol a b) i = Z.testbit a ((i - b) mod 64) /\
  Z.testbit (rev8 a) i = Z.testbit a (56 - 8 * (i / 8) + i mod 8) /\
  Z.testbit (orcb a) i = negb (((a >> (8 * (i / 8))) .& 0xFF) =? 0).
Proof.
  intros Ha Hi. unfold bset, bclr, binv, bext, ror, rol, orcb. rewrite !land_63.
  pose proof (Z.mod_pos_bound b 64 ltac:(lia)) as K.
  assert (L : (i <? 64) = true) by lia.
  rewrite Z.lor_spec, Z.land_spec, Z.lxor_spec, !testbit_uN, Z.lnot_spec, !testbit_uN, !testbit_pow2, !L by lia.
  cbn [andb]. rewrite !testbit_rotr, !testbit_rotl by (assumption || lia).
  rewrite Zplus_mod_idemp_r, Zminus_mod_idemp_r, testbit_orcb_loop by lia.
  repeat split; try (rewrite orb_comm || rewrite andb_comm || rewrite xorb_comm; reflexivity).
  - change 1 with (Z.ones 1). rewrite Z.land_ones, Z.shiftr_div_pow2 by lia.
    symmetry; apply Z.testbit_spec'; lia.
  - apply testbit_rev8; lia.
  - rewrite Z.bits_0, Z.sub_0_r. cbn [orb Z.add]. rewrite (proj2 (Z.leb_le 0 i)) by lia.
    change (8 * Z.of_nat 8) with 64. rewrite L. reflexivity.
Qed.

Lemma bit_manipulation_witness : Z.testbit (rev8 0x0102030405060708) 56 = false /\ Z.testbit (ror 1 1) 63 = true.
Proof.
  split.
  - exact (proj1 (proj2 (proj2 (proj2 (proj2 (proj2 (proj2 (bit_manipulation 0x0102030405060708 0 56
      ltac:(split; discriminate || reflexivity) ltac:(split; discriminate || reflexivity))))))))).
  - exact (proj1 (proj2 (proj2 (proj2 (proj2 (bit_manipulation 1 1 63
      ltac:(split; discriminate || reflexivity) ltac:(split; discriminate || reflexivity))))))).
Defined.
