(* ===== verification/SimMemory.v ===== *)
(** * Simulator memory ([vm/simulator_memory.h])

    The simulated program shares the memory of the process.  [Host] is that
    memory: one byte per 64-bit address, little endian.  [DirectSimulatorMemory]
    accesses it at once; [BufferedSimulatorMemory] keeps up to [kCapacity]
    modified words in a store buffer and writes them back late.  An access of
    type [T] is an access of [n = sizeof(T)] bytes and carries the value's bits;
    a signed [T] converts them at the use.

    The refinement theorems show that the buffer is invisible to the thread
    that owns it: loads and stores through it behave as on the memory [view]
    obtained by laying the buffer over the process memory, the buffer never
    overflows, and no index leaves the array. *)

From Stdlib Require Import ZArith Lia ZifyBool Bool List Permutation Morphisms Setoid.
From S2P Require Import Prelude Bits.
Import ListNotations.

(** ** Process memory *)

Definition Host := Z -> Z.

Definition byte_of (v k : Z) : Z := u8 (v >> (8 * k)).

(** Reads [n] bytes at [addr] ([LoadUnaligned], or a plain dereference). *)
Fixpoint LoadLE (n : nat) (h : Host) (addr : Z) : Z :=
  match n with
  | O => 0
  | S m => u8 (h (u64 addr)) .| (LoadLE m h (addr + 1) << 8)
  end.

(** Writes the low [n] bytes of [v] at [addr]. *)
Definition StoreLE (n : Z) (h : Host) (addr v : Z) : Host :=
  fun x => let k := u64 (x - addr) in if k <? n then byte_of v k else h x.

(** ** [DirectSimulatorMemory] *)
Module Direct.
Definition Load (n : Z) (h : Host) (addr : Z) : Z := LoadLE (Z.to_nat n) h addr.
Definition Store (n : Z) (h : Host) (addr value : Z) : Host := StoreLE n h addr value.

(** [compare_exchange_weak] may fail although the values are equal
    ([spurious]); it returns its verdict and the value read. *)
Definition CompareExchange (n : Z) (spurious : bool) (h : Host) (addr old_value value : Z)
  : bool * Z * Host :=
  let current := Load n h addr in
  if (current =? uN (8 * n) old_value) && negb spurious
  then (true, old_value, Store n h addr value)
  else (false, current, h).
End Direct.

(** ** [BufferedSimulatorMemory] *)
Record Entry := mkEntry { addr : Z; value : Z }.

Definition kCapacity : Z := 16.

(** The state is the process memory and [buffer_[0 .. size_)]. *)
Definition Buffer := list Entry.

Module Buffered.

(** [for (i = size_ - 1; i >= 0; i--) if (buffer_[i].addr == word_addr)]: [k = i + 1]. *)
Fixpoint find (buf : Buffer) (k : nat) (word_addr : Z) : option nat :=
  match k with
  | O => None
  | S i => match nth_error buf i with
           | Some e => if addr e =? word_addr then Some i else find buf i word_addr
           | None => None
           end
  end.

(** Reading and writing a [T] inside the word of an entry. *)
Definition extract (n word_offset v : Z) : Z := uN (8 * n) (v >> (8 * word_offset)).
Definition insert (n word_offset v x : Z) : Z :=
  u64 ((v .& Z.lnot (Z.ones (8 * n) << (8 * word_offset))) .| (uN (8 * n) x << (8 * word_offset))).

Definition FlushAll (h : Host) (buf : Buffer) : Host * Buffer :=
  (fold_left (fun h e => StoreLE 8 h (addr e) (value e)) buf h, []).

(** [buffer_[i] = buffer_[size_ - 1]; size_--]. *)
Definition drop (i : nat) (buf : Buffer) : Buffer :=
  firstn (length buf - 1) (set_nth i (nth (length buf - 1) buf (mkEntry 0 0)) buf).

Fixpoint FlushAddress_loop (fuel i : nat) (a : Z) (h : Host) (buf : Buffer) : Host * Buffer :=
  match fuel, nth_error buf i with
  | S f, Some e =>
      if addr e =? a
      then FlushAddress_loop f (S i) a (StoreLE 8 h (addr e) (value e)) (drop i buf)
      else FlushAddress_loop f (S i) a h buf
  | _, _ => (h, buf)
  end.

(** Each iteration advances [i] and [size_] never grows, so [size_] iterations suffice. *)
Definition FlushAddress (a : Z) (h : Host) (buf : Buffer) : Host * Buffer :=
  FlushAddress_loop (length buf) 0 a h buf.

(** The victim index of [FlushSome], an [intptr_t] computed from [buffer_[0].value]. *)
Definition victim (buf : Buffer) : Z :=
  let i := s64 (value (nth 0 buf (mkEntry 0 0))) in
  let i := i .^ (i >> 4) in
  let i := i .^ (i >> 8) in
  Z.rem i (Z.of_nat (length buf)).

(** The [while] loop of [FlushSome]; [None] is an access outside [buffer_]. *)
Fixpoint FlushSome_loop (fuel : nat) (h : Host) (buf : Buffer) : option (Host * Buffer) :=
  match fuel with
  | O => Some (h, buf)
  | S f =>
      if Z.of_nat (length buf) >? kCapacity / 2 then
        let i := victim buf in
        if (0 <=? i) && (i <? kCapacity) then
          match nth_error buf (Z.to_nat i) with
          | Some e => FlushSome_loop f (StoreLE 8 h (addr e) (value e)) (drop (Z.to_nat i) buf)
          | None => None
          end
        else None
      else Some (h, buf)
  end.

(** Each iteration removes one entry. *)
Definition FlushSome (h : Host) (buf : Buffer) : option (Host * Buffer) :=
  FlushSome_loop (length buf) h buf.

Definition unbuffered (n a : Z) : bool := (n >? 8) || negb ((a .& (n - 1)) =? 0).

Definition Load (n : Z) (h : Host) (buf : Buffer) (a : Z) : Z * (Host * Buffer) :=
  if unbuffered n a
  then let '(h, buf) := FlushAll h buf in (LoadLE (Z.to_nat n) h a, (h, buf))
  else
    let word_addr := a .& u64 (Z.lnot (8 - 1)) in
    let word_offset := a - word_addr in
    match find buf (length buf) word_addr with
    | Some i => (extract n word_offset (value (nth i buf (mkEntry 0 0))), (h, buf))
    | None => (LoadLE (Z.to_nat n) h a, (h, buf))
    end.

Definition Store (n : Z) (h : Host) (buf : Buffer) (a v : Z) : option (Host * Buffer) :=
  if unbuffered n a
  then let '(h, buf) := FlushAll h buf in Some (StoreLE n h a v, buf)
  else
    let word_addr := a .& u64 (Z.lnot (8 - 1)) in
    let word_offset := a - word_addr in
    match find buf (length buf) word_addr with
    | Some i =>
        let e := nth i buf (mkEntry 0 0) in
        Some (h, set_nth i (mkEntry (addr e) (insert n word_offset (value e) v)) buf)
    | None =>
        if Z.of_nat (length buf) <? kCapacity then
          let buf := buf ++ [mkEntry word_addr (insert n word_offset (LoadLE 8 h word_addr) v)] in
          if Z.of_nat (length buf) =? kCapacity then FlushSome h buf else Some (h, buf)
        else None
    end.

(** The ordered (atomic) accesses flush the address and use the process memory. *)
Definition LoadOrdered (n : Z) (h : Host) (buf : Buffer) (a : Z) : Z * (Host * Buffer) :=
  let '(h, buf) := FlushAddress a h buf in (Direct.Load n h a, (h, buf)).

Definition StoreOrdered (n : Z) (h : Host) (buf : Buffer) (a v : Z) : Host * Buffer :=
  let '(h, buf) := FlushAddress a h buf in (Direct.Store n h a v, buf).

Definition CompareExchange (n : Z) (spurious : bool) (h : Host) (buf : Buffer) (a old_value v : Z)
  : bool * Z * (Host * Buffer) :=
  let '(h, buf) := FlushAddress a h buf in
  let '(ok, old, h) := Direct.CompareExchange n spurious h a old_value v in (ok, old, (h, buf)).
End Buffered.

(** ** [SimulatorMemory]: one of the two, chosen at construction *)
Record SimulatorMemory := mkMemory { use_buffered_ : bool; host : Host; buffer_ : Buffer }.

Module Memory.
Definition with_state (m : SimulatorMemory) (s : Host * Buffer) : SimulatorMemory :=
  mkMemory (use_buffered_ m) (fst s) (snd s).

Definition Load (n : Z) (m : SimulatorMemory) (a : Z) : Z * SimulatorMemory :=
  if use_buffered_ m
  then let '(v, s) := Buffered.Load n (host m) (buffer_ m) a in (v, with_state m s)
  else (Direct.Load n (host m) a, m).

Definition Store (n : Z) (m : SimulatorMemory) (a v : Z) : option SimulatorMemory :=
  if use_buffered_ m
  then option_map (with_state m) (Buffered.Store n (host m) (buffer_ m) a v)
  else Some (with_state m (Direct.Store n (host m) a v, buffer_ m)).

Definition LoadOrdered (n : Z) (m : SimulatorMemory) (a : Z) : Z * SimulatorMemory :=
  if use_buffered_ m
  then let '(v, s) := Buffered.LoadOrdered n (host m) (buffer_ m) a in (v, with_state m s)
  else (Direct.Load n (host m) a, m).

Definition StoreOrdered (n : Z) (m : SimulatorMemory) (a v : Z) : SimulatorMemory :=
  if use_buffered_ m
  then with_state m (Buffered.StoreOrdered n (host m) (buffer_ m) a v)
  else with_state m (Direct.Store n (host m) a v, buffer_ m).

Definition CompareExchange (n : Z) (spurious : bool) (m : SimulatorMemory) (a old_value v : Z)
  : bool * Z * SimulatorMemory :=
  if use_buffered_ m
  then let '(ok, old, s) := Buffered.CompareExchange n spurious (host m) (buffer_ m) a old_value v in
       (ok, old, with_state m s)
  else let '(ok, old, h) := Direct.CompareExchange n spurious (host m) a old_value v in
       (ok, old, with_state m (h, buffer_ m)).

Definition FlushAddress (m : SimulatorMemory) (a : Z) : SimulatorMemory :=
  if use_buffered_ m then with_state m (Buffered.FlushAddress a (host m) (buffer_ m)) else m.

Definition FlushAll (m : SimulatorMemory) : SimulatorMemory :=
  if use_buffered_ m then with_state m (Buffered.FlushAll (host m) (buffer_ m)) else m.
End Memory.

(** ** Facts on bytes *)

Lemma testbit_byte_of v k i : 0 <= k -> 0 <= i -> Z.testbit (byte_of v k) i = (i <? 8) && Z.testbit v (i + 8 * k).
Proof. intros; unfold byte_of; rewrite testbit_uN, Z.shiftr_spec by lia; reflexivity. Qed.

Lemma u8_byte_of v k : u8 (byte_of v k) = byte_of v k.
Proof. unfold byte_of; apply uN_uN. Qed.

(** A value of [n] bytes is determined by its bytes. *)
Lemma eq_by_bytes n x y : 0 <= n -> is_uN (8 * n) x -> is_uN (8 * n) y ->
  (forall k, 0 <= k < n -> byte_of x k = byte_of y k) -> x = y.
Proof.
  intros Hn Hx Hy H. apply Z.bits_inj'; intros i Hi.
  destruct (Z.lt_ge_cases i (8 * n)).
  - assert (K : 0 <= i / 8 < n) by (split; [apply Z.div_pos|apply Z.div_lt_upper_bound]; lia).
    pose proof (Z.div_mod i 8 ltac:(lia)); pose proof (Z.mod_pos_bound i 8 ltac:(lia)).
    specialize (H _ K). apply (f_equal (fun z => Z.testbit z (i mod 8))) in H.
    rewrite !testbit_byte_of, (proj2 (Z.ltb_lt (i mod 8) 8)) in H by lia. cbn [andb] in H.
    replace (i mod 8 + 8 * (i / 8)) with i in H by lia. exact H.
  - rewrite (testbit_uN_high (8 * n) x), (testbit_uN_high (8 * n) y) by (assumption || lia). reflexivity.
Qed.

Lemma LoadLE_range n h : forall a, is_uN (8 * Z.of_nat n) (LoadLE n h a).
Proof.
  induction n as [|n IH]; intros a; cbn [LoadLE]; [split; reflexivity || discriminate|].
  specialize (IH (a + 1)). set (l := LoadLE n h (a + 1)) in *.
  replace (8 * Z.of_nat (S n)) with (8 * Z.of_nat n + 8) by lia.
  unfold is_uN in *. rewrite Z.pow_add_r by lia.
  assert (D : u8 (h (u64 a)) .& (l << 8) = 0).
  { apply Z.bits_inj'; intros i Hi. rewrite Z.land_spec, Z.bits_0, testbit_uN, testbit_shiftl by lia.
    destruct (i <? 8); [apply andb_false_r|reflexivity]. }
  pose proof (Z.add_lor_land (u8 (h (u64 a))) (l << 8)) as E. rewrite D in E.
  rewrite Z.shiftl_mul_pow2 in * by lia.
  pose proof (uN_range 8 (h (u64 a)) ltac:(lia)) as R. unfold is_uN in R. nia.
Qed.

Lemma byte_of_LoadLE n h : forall a k, 0 <= k < Z.of_nat n -> byte_of (LoadLE n h a) k = u8 (h (u64 (a + k))).
Proof.
  induction n as [|n IH]; intros a k Hk; [lia|]. cbn [LoadLE].
  destruct (Z.eq_dec k 0) as [->|].
  - rewrite Z.add_0_r. apply Z.bits_inj'; intros i Hi.
    rewrite testbit_byte_of, Z.lor_spec, testbit_shiftl, !testbit_uN by lia.
    rewrite Z.add_0_r. destruct (i <? 8); [apply orb_false_r|reflexivity].
  - replace (a + k) with (a + 1 + (k - 1)) by lia. rewrite <- IH by lia.
    apply Z.bits_inj'; intros i Hi.
    rewrite !testbit_byte_of, Z.lor_spec, testbit_shiftl, !testbit_uN by lia.
    destruct (Z.ltb_spec i 8); [|reflexivity]. cbn [andb].
    rewrite !(proj2 (Z.ltb_ge (i + 8 * k) 8)) by lia. cbn [andb orb]. f_equal; lia.
Qed.

(** Equality of memories, byte by byte. *)
Definition host_eq (h1 h2 : Host) : Prop := forall a, is_uN 64 a -> u8 (h1 a) = u8 (h2 a).

#[export] Instance host_eq_equiv : Equivalence host_eq.
Proof.
  split.
  - intros h a Ha; reflexivity.
  - intros h1 h2 H a Ha; symmetry; auto.
  - intros h1 h2 h3 H1 H2 a Ha; rewrite H1 by assumption; auto.
Qed.

#[export] Instance LoadLE_proper n : Proper (host_eq ==> eq ==> eq) (LoadLE n).
Proof.
  intros h1 h2 H a ? <-; revert a; induction n as [|n IH]; intros a; cbn [LoadLE]; [reflexivity|].
  rewrite IH, (H (u64 a)) by (apply uN_range; lia). reflexivity.
Qed.

#[export] Instance StoreLE_proper n : Proper (host_eq ==> eq ==> eq ==> host_eq) (StoreLE n).
Proof.
  intros h1 h2 H a ? <- v ? <- x Hx. unfold StoreLE.
  destruct (u64 (x - a) <? n); [reflexivity|]. apply H; exact Hx.
Qed.

Lemma LoadLE_StoreLE n h a v : (n <= 8)%nat ->
  LoadLE n (StoreLE (Z.of_nat n) h a v) a = uN (8 * Z.of_nat n) v.
Proof.
  intros Hn. apply (eq_by_bytes (Z.of_nat n)); [lia|apply LoadLE_range|apply uN_range; lia|].
  intros k Hk. rewrite byte_of_LoadLE by lia. unfold StoreLE.
  replace (u64 (u64 (a + k) - a)) with k.
  2:{ rewrite uN_sub_l. replace (a + k - a) with k by lia. rewrite uN_small; [reflexivity|].
      unfold is_uN; lia. }
  rewrite (proj2 (Z.ltb_lt k (Z.of_nat n))), u8_byte_of by lia.
  apply Z.bits_inj'; intros i Hi. rewrite !testbit_byte_of, testbit_uN by lia.
  destruct (Z.ltb_spec i 8); [|reflexivity]. rewrite (proj2 (Z.ltb_lt (i + 8 * k) (8 * Z.of_nat n))) by lia. reflexivity.
Qed.

(** ** The abstract memory of a buffer *)

Definition word_of (a : Z) : Z := a .& u64 (Z.lnot (8 - 1)).

Definition lookup (buf : Buffer) (w : Z) : option Z :=
  option_map value (List.find (fun e => addr e =? w) buf).

(** The buffer laid over the process memory. *)
Definition view (h : Host) (buf : Buffer) : Host :=
  fun a => match lookup buf (word_of a) with
           | Some v => byte_of v (a - word_of a)
           | None => h a
           end.

Definition wf_entry (e : Entry) : Prop :=
  is_uN 64 (addr e) /\ addr e mod 8 = 0 /\ is_uN 64 (value e).

(** Entries hold aligned words, no word twice. *)
Definition wf_entries (buf : Buffer) : Prop := Forall wf_entry buf /\ NoDup (map addr buf).

(** The invariant between operations: there is room for one more entry. *)
Definition wf_buffer (buf : Buffer) : Prop := wf_entries buf /\ Z.of_nat (length buf) < kCapacity.

Lemma word_of_sub a : is_uN 64 a -> word_of a = a - a mod 8.
Proof.
  intros Ha. unfold word_of. assert (E : a .& 7 = a mod 8) by (apply (Z.land_ones a 3); lia).
  pose proof (Z.add_lor_land (a .& u64 (Z.lnot (8 - 1))) (a .& 7)) as S.
  replace ((a .& u64 (Z.lnot (8 - 1))) .& (a .& 7)) with 0 in S by bits_solve.
  replace ((a .& u64 (Z.lnot (8 - 1))) .| (a .& 7)) with a in S by bits_solve. lia.
Qed.

Lemma word_of_range a : is_uN 64 a -> is_uN 64 (word_of a) /\ word_of a mod 8 = 0 /\ 0 <= a - word_of a < 8.
Proof.
  intros Ha. rewrite word_of_sub by exact Ha. unfold is_uN in *.
  pose proof (Z.mod_pos_bound a 8 ltac:(lia)). pose proof (Z.div_mod a 8 ltac:(lia)).
  repeat split; try lia. replace (a - a mod 8) with (a / 8 * 8) by lia. apply Z.mod_mul; lia.
Qed.

(** An address inside the aligned word [w] has [w] as its word. *)
Lemma word_of_inside w k : is_uN 64 w -> w mod 8 = 0 -> 0 <= k < 8 -> is_uN 64 (w + k) /\ word_of (w + k) = w.
Proof.
  intros Hw Hm Hk. assert (Hr : is_uN 64 (w + k)).
  { unfold is_uN in *. pose proof (Z.div_mod w 8 ltac:(lia)). assert (w / 8 < 2 ^ 61); lia. }
  split; [exact Hr|]. rewrite word_of_sub by exact Hr.
  rewrite Z.add_mod, Hm, Z.add_0_l, Z.mod_mod, Z.mod_small by lia. lia.
Qed.

(** Bytes that a store inside one word reaches. *)
Lemma store_reach w off n x : is_uN 64 w -> w mod 8 = 0 -> 0 <= off -> 0 < n -> off + n <= 8 -> is_uN 64 x ->
  (u64 (x - (w + off)) <? n) = (word_of x =? w) && (off <=? x - w) && (x - w <? off + n).
Proof.
  intros Hw Hm Ho Hn0 Hn Hx. destruct (word_of_range x Hx) as (_ & _ & R).
  destruct (word_of_inside w 0 Hw Hm ltac:(lia)) as [_ W0].
  destruct (Z.eqb_spec (word_of x) w) as [E|E].
  - cbn [andb]. destruct (Z.leb_spec off (x - w)).
    + rewrite uN_small by (unfold is_uN in *; lia). lia.
    + cbn [andb]. apply Z.ltb_ge. replace (u64 (x - (w + off))) with (x - (w + off) + 2 ^ 64).
      * unfold is_uN in *; lia.
      * unfold uN. symmetry; rewrite <- (Z_mod_plus_full _ 1), Z.mod_small; unfold is_uN in *; lia.
  - cbn [andb]. apply Z.ltb_ge. destruct (Z.lt_ge_cases (u64 (x - (w + off))) n) as [L|]; [exfalso|assumption].
    pose proof (uN_range 64 (x - (w + off)) ltac:(lia)) as U. set (k := u64 (x - (w + off))) in *.
    assert (X : x = u64 (w + (off + k))).
    { unfold k. rewrite <- (uN_small 64 x Hx) at 1. replace (w + (off + u64 (x - (w + off)))) with (w + off + u64 (x - (w + off))) by lia.
      rewrite uN_add_r. f_equal; lia. }
    unfold is_uN in U. destruct (word_of_inside w (off + k) Hw Hm ltac:(lia)) as [Hr Hwk].
    rewrite uN_small in X by exact Hr. rewrite X in E. contradiction.
Qed.

Lemma lookup_cons e buf w : lookup (e :: buf) w = if addr e =? w then Some (value e) else lookup buf w.
Proof. unfold lookup; cbn [List.find]. destruct (addr e =? w); reflexivity. Qed.

Lemma lookup_None buf w : lookup buf w = None <-> ~ In w (map addr buf).
Proof.
  induction buf as [|e buf IH]; [cbn; tauto|]. rewrite lookup_cons. cbn [map In].
  destruct (Z.eqb_spec (addr e) w); [split; [discriminate|tauto]|]. rewrite IH; tauto.
Qed.

Lemma lookup_In buf e : NoDup (map addr buf) -> In e buf -> lookup buf (addr e) = Some (value e).
Proof.
  induction buf as [|e' buf IH]; cbn [map In]; intros N HI; [contradiction|]. inversion_clear N as [|? ? N1 N2].
  rewrite lookup_cons. destruct HI as [->|HI]; [rewrite Z.eqb_refl; reflexivity|].
  destruct (Z.eqb_spec (addr e') (addr e)) as [E|]; [|apply IH; assumption].
  exfalso; apply N1. rewrite E. apply in_map; exact HI.
Qed.

Lemma lookup_perm buf buf' w : NoDup (map addr buf) -> Permutation buf buf' -> lookup buf w = lookup buf' w.
Proof.
  intros N P. assert (N' : NoDup (map addr buf')) by (rewrite <- P; exact N).
  destruct (lookup buf' w) as [v|] eqn:E.
  - unfold lookup in E. destruct (List.find _ buf') as [e|] eqn:F; [|discriminate]. injection E as <-.
    apply find_some in F. destruct F as [F Hw]; apply Z.eqb_eq in Hw; subst w.
    apply lookup_In; [exact N|]. rewrite P; exact F.
  - rewrite lookup_None in *. rewrite P; exact E.
Qed.

Lemma wf_entries_perm buf buf' : Permutation buf buf' -> wf_entries buf -> wf_entries buf'.
Proof. intros P [F N]; split; rewrite <- P; assumption. Qed.

Lemma view_perm h buf buf' : wf_entries buf -> Permutation buf buf' -> host_eq (view h buf) (view h buf').
Proof. intros [_ N] P a Ha. unfold view. rewrite (lookup_perm buf buf') by assumption. reflexivity. Qed.

#[export] Instance view_proper : Proper (host_eq ==> eq ==> host_eq) view.
Proof.
  intros h1 h2 H buf ? <- a Ha. unfold view. destruct (lookup buf (word_of a)); [reflexivity|]. apply H; exact Ha.
Qed.

Lemma view_nil h : host_eq (view h []) h.
Proof. intros a Ha; reflexivity. Qed.

Lemma wf_entries_cons e buf :
  wf_entries (e :: buf) <-> wf_entry e /\ ~ In (addr e) (map addr buf) /\ wf_entries buf.
Proof.
  unfold wf_entries; cbn [map]. split.
  - intros [F N]; inversion_clear F as [|? ? F1 F2]; inversion_clear N as [|? ? N1 N2]; tauto.
  - intros (F1 & N1 & F2 & N2). split; constructor; assumption.
Qed.

(** A store inside a word the buffer does not hold commutes with the overlay. *)
Lemma view_StoreLE h buf w off n v : is_uN 64 w -> w mod 8 = 0 -> 0 <= off -> 0 < n -> off + n <= 8 ->
  ~ In w (map addr buf) -> host_eq (view (StoreLE n h (w + off) v) buf) (StoreLE n (view h buf) (w + off) v).
Proof.
  intros Hw Hm Ho Hn0 Hn HI x Hx. unfold view, StoreLE. rewrite store_reach by assumption.
  destruct (lookup buf (word_of x)) as [u|] eqn:E; [|reflexivity].
  destruct (Z.eqb_spec (word_of x) w) as [X|]; [exfalso|reflexivity].
  rewrite X in E. apply lookup_None in HI. congruence.
Qed.

Lemma view_StoreLE_word h buf w v : is_uN 64 w -> w mod 8 = 0 -> ~ In w (map addr buf) ->
  host_eq (view (StoreLE 8 h w v) buf) (StoreLE 8 (view h buf) w v).
Proof.
  intros Hw Hm HI. pose proof (view_StoreLE h buf w 0 8 v Hw Hm ltac:(lia) ltac:(lia) ltac:(lia) HI) as V.
  rewrite !Z.add_0_r in V. exact V.
Qed.

(** Writing an entry back leaves the view unchanged. *)
Lemma view_cons h e buf : wf_entries (e :: buf) ->
  host_eq (view h (e :: buf)) (view (StoreLE 8 h (addr e) (value e)) buf).
Proof.
  intros W; apply wf_entries_cons in W; destruct W as ((Ha & Hm & Hv) & HI & _).
  intros x Hx. unfold view at 1. rewrite lookup_cons.
  rewrite (view_StoreLE_word h buf (addr e) (value e) Ha Hm HI x Hx). unfold StoreLE at 1.
  pose proof (store_reach (addr e) 0 8 x Ha Hm ltac:(lia) ltac:(lia) ltac:(lia) Hx) as R.
  rewrite !Z.add_0_r in R. rewrite R. clear R. destruct (word_of_range x Hx) as (_ & _ & B).
  rewrite (Z.eqb_sym (addr e)). destruct (Z.eqb_spec (word_of x) (addr e)) as [X|]; [|reflexivity].
  rewrite X in *. cbn [andb].
  rewrite (proj2 (Z.leb_le 0 (x - addr e))), (proj2 (Z.ltb_lt (x - addr e) (0 + 8))) by lia. cbn [andb].
  rewrite (uN_small 64 (x - addr e)) by (unfold is_uN in *; lia). reflexivity.
Qed.

Lemma drop_perm i buf e : nth_error buf i = Some e -> Permutation buf (e :: Buffered.drop i buf).
Proof.
  intros H. destruct (exists_last (l := buf)) as (l & z & ->); [intros ->; destruct i; discriminate|].
  unfold Buffered.drop. rewrite length_app. cbn [length].
  replace (length l + 1 - 1)%nat with (length l) by lia.
  rewrite app_nth2, Nat.sub_diag by lia. cbn [nth].
  revert l H; induction i as [|i IH]; intros [|y l] H; cbn in H.
  - injection H as ->. cbn. reflexivity.
  - injection H as ->. cbn [app set_nth length firstn].
    rewrite firstn_app, firstn_all, Nat.sub_diag. cbn. rewrite app_nil_r.
    rewrite Permutation_app_comm. reflexivity.
  - destruct i; discriminate.
  - cbn [app set_nth length firstn]. rewrite (IH l H) at 1. apply perm_swap.
Qed.

Lemma set_nth_perm i (buf : Buffer) e : nth_error buf i = Some e ->
  exists rest, Permutation buf (e :: rest) /\ forall e', Permutation (set_nth i e' buf) (e' :: rest).
Proof.
  revert i; induction buf as [|y buf IH]; intros [|i] H; cbn in H; try discriminate.
  - injection H as ->. exists buf; split; [reflexivity|]. intros; reflexivity.
  - destruct (IH i H) as (rest & P & Q). exists (y :: rest). split.
    + rewrite P. apply perm_swap.
    + intros e'. cbn [set_nth]. rewrite Q. apply perm_swap.
Qed.

Lemma byte_of_insert n off v x k : 0 <= n -> 0 <= off -> off + n <= 8 -> 0 <= k < 8 ->
  byte_of (Buffered.insert n off v x) k =
  if (off <=? k) && (k <? off + n) then byte_of x (k - off) else byte_of v k.
Proof.
  intros. apply Z.bits_inj'; intros i Hi. unfold Buffered.insert.
  rewrite testbit_byte_of, testbit_uN, Z.lor_spec, Z.land_spec, Z.lnot_spec, !Z.shiftl_spec,
    testbit_uN, Z.testbit_ones by lia.
  destruct ((off <=? k) && (k <? off + n)) eqn:C; rewrite testbit_byte_of by lia;
    destruct (Z.ltb_spec i 8); cbn [andb]; try reflexivity;
    rewrite (proj2 (Z.ltb_lt (i + 8 * k) 64)) by lia; cbn [andb].
  - rewrite (proj2 (Z.leb_le 0 (i + 8 * k - 8 * off))), (proj2 (Z.ltb_lt (i + 8 * k - 8 * off) (8 * n))) by lia.
    cbn [andb negb]. rewrite andb_false_r. cbn [orb]. f_equal; lia.
  - destruct (Z.leb_spec 0 (i + 8 * k - 8 * off)).
    + rewrite (proj2 (Z.ltb_ge (i + 8 * k - 8 * off) (8 * n))) by lia.
      cbn [andb negb]. rewrite andb_true_r, orb_false_r. reflexivity.
    + rewrite (Z.testbit_neg_r x) by lia. rewrite !andb_false_r. cbn [andb negb].
      rewrite andb_true_r, orb_false_r. reflexivity.
Qed.

Lemma byte_of_extract n off v k : 0 <= n -> 0 <= off -> 0 <= k < n ->
  byte_of (Buffered.extract n off v) k = byte_of v (off + k).
Proof.
  intros. apply Z.bits_inj'; intros i Hi. unfold Buffered.extract.
  rewrite !testbit_byte_of, testbit_uN, Z.shiftr_spec by lia.
  destruct (Z.ltb_spec i 8); cbn [andb]; [|reflexivity].
  rewrite (proj2 (Z.ltb_lt (i + 8 * k) (8 * n))) by lia. cbn [andb]. f_equal; lia.
Qed.

(** Writing a word whose bytes were partly replaced is writing the replaced bytes. *)
Lemma StoreLE_insert h w off n v x : is_uN 64 w -> w mod 8 = 0 -> 0 <= off -> 0 < n -> off + n <= 8 ->
  host_eq (StoreLE 8 h w (Buffered.insert n off v x)) (StoreLE n (StoreLE 8 h w v) (w + off) x).
Proof.
  intros Hw Hm Ho Hn0 Hn y Hy. unfold StoreLE.
  rewrite store_reach by assumption.
  pose proof (store_reach w 0 8 y Hw Hm ltac:(lia) ltac:(lia) ltac:(lia) Hy) as R.
  rewrite !Z.add_0_r in R. rewrite R. destruct (word_of_range y Hy) as (_ & _ & B).
  destruct (Z.eqb_spec (word_of y) w) as [E|]; [|reflexivity]. rewrite E in B. cbn [andb].
  rewrite (proj2 (Z.leb_le 0 (y - w))), (proj2 (Z.ltb_lt (y - w) (0 + 8))) by lia. cbn [andb].
  rewrite (uN_small 64 (y - w)) by (unfold is_uN; lia).
  rewrite byte_of_insert by lia.
  destruct ((off <=? y - w) && (y - w <? off + n)) eqn:C; [|reflexivity].
  rewrite (uN_small 64 (y - (w + off))) by (unfold is_uN; lia). do 2 f_equal. lia.
Qed.

Lemma StoreLE_LoadLE h w : is_uN 64 w -> w mod 8 = 0 -> host_eq (StoreLE 8 h w (LoadLE 8 h w)) h.
Proof.
  intros Hw Hm y Hy. unfold StoreLE.
  pose proof (store_reach w 0 8 y Hw Hm ltac:(lia) ltac:(lia) ltac:(lia) Hy) as R.
  rewrite !Z.add_0_r in R. rewrite R. destruct (word_of_range y Hy) as (_ & _ & B).
  destruct (Z.eqb_spec (word_of y) w) as [E|]; [|reflexivity]. rewrite E in B. cbn [andb].
  rewrite (proj2 (Z.leb_le 0 (y - w))), (proj2 (Z.ltb_lt (y - w) (0 + 8))) by lia. cbn [andb].
  rewrite (uN_small 64 (y - w)) by (unfold is_uN; lia).
  rewrite byte_of_LoadLE, uN_uN by lia. replace (w + (y - w)) with y by lia. rewrite (uN_small 64 y Hy). reflexivity.
Qed.

(** ** The operations of the buffer *)

Lemma FlushAll_view buf : forall h, wf_entries buf -> host_eq (fst (Buffered.FlushAll h buf)) (view h buf).
Proof.
  unfold Buffered.FlushAll; cbn [fst]. induction buf as [|e buf IH]; intros h W; cbn [fold_left].
  - symmetry; apply view_nil.
  - rewrite view_cons by exact W. apply IH. apply wf_entries_cons in W; tauto.
Qed.

Lemma find_Some buf w k : forall i, Buffered.find buf k w = Some i ->
  exists e, nth_error buf i = Some e /\ addr e = w.
Proof.
  induction k as [|k IH]; intros i H; cbn [Buffered.find] in H; [discriminate|].
  destruct (nth_error buf k) as [e|] eqn:E; [|discriminate].
  destruct (Z.eqb_spec (addr e) w); [|apply IH; exact H]. injection H as <-. eauto.
Qed.

Lemma find_None buf w k : (k <= length buf)%nat -> Buffered.find buf k w = None ->
  forall i e, (i < k)%nat -> nth_error buf i = Some e -> addr e <> w.
Proof.
  induction k as [|k IH]; intros Hk H i e Hi E; cbn [Buffered.find] in H; [lia|].
  destruct (nth_error buf k) as [e'|] eqn:E'.
  - destruct (Z.eqb_spec (addr e') w); [discriminate|].
    destruct (Nat.eq_dec i k) as [->|]; [congruence|]. apply (IH ltac:(lia) H i); (assumption || lia).
  - apply nth_error_None in E'. lia.
Qed.

Lemma find_None_In buf w : Buffered.find buf (length buf) w = None -> ~ In w (map addr buf).
Proof.
  intros H HI. apply in_map_iff in HI as (e & Ha & HI). apply In_nth_error in HI as (i & E).
  apply (find_None buf w (length buf) (Nat.le_refl _) H i e); auto. apply nth_error_Some; congruence.
Qed.

Lemma length_drop i buf e : nth_error buf i = Some e -> length buf = S (length (Buffered.drop i buf)).
Proof. intros H; rewrite (Permutation_length (drop_perm i buf e H)); reflexivity. Qed.

(** Writing entry [i] back and dropping it keeps the view and the invariant. *)
Lemma drop_view h i buf e : wf_entries buf -> nth_error buf i = Some e ->
  wf_entries (Buffered.drop i buf) /\ ~ In (addr e) (map addr (Buffered.drop i buf)) /\
  host_eq (view (StoreLE 8 h (addr e) (value e)) (Buffered.drop i buf)) (view h buf).
Proof.
  intros W E. pose proof (drop_perm i buf e E) as P.
  assert (W' : wf_entries (e :: Buffered.drop i buf)) by (apply (wf_entries_perm buf); assumption).
  rewrite (view_perm h buf _ W P), (view_cons h e _ W').
  apply wf_entries_cons in W'. split; [|split]; [tauto|tauto|reflexivity].
Qed.

Lemma victim_range buf : (0 < length buf)%nat -> 0 <= Buffered.victim buf < Z.of_nat (length buf).
Proof.
  intros H. unfold Buffered.victim. cbv zeta. apply Z.rem_bound_pos; [|lia].
  assert (A : forall i, 0 <= i .^ (i >> 4)).
  { intros i. apply Z.lxor_nonneg. rewrite Z.shiftr_nonneg. reflexivity. }
  apply Z.lxor_nonneg. rewrite Z.shiftr_nonneg. reflexivity.
Qed.

Lemma FlushSome_loop_ok fuel : forall h buf, wf_entries buf -> (length buf <= fuel)%nat ->
  Z.of_nat (length buf) <= kCapacity ->
  exists h' buf', Buffered.FlushSome_loop fuel h buf = Some (h', buf') /\
    wf_buffer buf' /\ Z.of_nat (length buf') <= kCapacity / 2 /\ host_eq (view h' buf') (view h buf).
Proof.
  change (kCapacity / 2) with 8. unfold wf_buffer, kCapacity.
  induction fuel as [|f IH]; intros h buf W Hf Hc; cbn [Buffered.FlushSome_loop].
  { exists h, buf. repeat split; try apply W; lia || reflexivity. }
  change (kCapacity / 2) with 8. destruct (Z.gtb_spec (Z.of_nat (length buf)) 8).
  2:{ exists h, buf. repeat split; try apply W; lia || reflexivity. }
  pose proof (victim_range buf ltac:(lia)) as V. unfold kCapacity.
  rewrite (proj2 (Z.leb_le 0 _)), (proj2 (Z.ltb_lt (Buffered.victim buf) 16)) by lia. cbn [andb].
  destruct (nth_error buf (Z.to_nat (Buffered.victim buf))) as [e|] eqn:E.
  2:{ apply nth_error_None in E. lia. }
  destruct (drop_view h _ buf e W E) as (W' & _ & V'). pose proof (length_drop _ buf e E).
  destruct (IH (StoreLE 8 h (addr e) (value e)) _ W' ltac:(lia) ltac:(lia)) as (h' & buf' & Q & W'' & L & V'').
  exists h', buf'. rewrite <- V'. auto.
Qed.

Lemma FlushAddress_loop_absent a fuel : forall i h buf, ~ In a (map addr buf) ->
  Buffered.FlushAddress_loop fuel i a h buf = (h, buf).
Proof.
  induction fuel as [|f IH]; intros i h buf H; cbn [Buffered.FlushAddress_loop]; [reflexivity|].
  destruct (nth_error buf i) as [e|] eqn:E; [|reflexivity].
  destruct (Z.eqb_spec (addr e) a) as [<-|]; [|apply IH; exact H].
  exfalso; apply H, in_map, (nth_error_In buf i); exact E.
Qed.

Lemma FlushAddress_loop_ok a h buf fuel : wf_entries buf -> forall i, (length buf <= fuel + i)%nat ->
  (forall j e, (j < i)%nat -> nth_error buf j = Some e -> addr e <> a) ->
  let '(h', buf') := Buffered.FlushAddress_loop fuel i a h buf in
  wf_entries buf' /\ ~ In a (map addr buf') /\ (length buf' <= length buf)%nat /\ host_eq (view h' buf') (view h buf).
Proof.
  intros W. induction fuel as [|f IH]; intros i Hf Hlt; cbn [Buffered.FlushAddress_loop].
  { assert (N : ~ In a (map addr buf)).
    { intros HI. apply in_map_iff in HI as (e & Ha & HI). apply In_nth_error in HI as (j & E).
      apply (Hlt j e); auto. enough (j < length buf)%nat by lia. apply nth_error_Some; congruence. }
    repeat split; try apply W; auto with arith. }
  destruct (nth_error buf i) as [e|] eqn:E.
  - destruct (Z.eqb_spec (addr e) a) as [<-|Hne].
    + destruct (drop_view h i buf e W E) as (W' & N & V). pose proof (length_drop i buf e E).
      rewrite FlushAddress_loop_absent by exact N. repeat split; try apply W'; auto; lia.
    + apply (IH (S i)); [lia|]. intros j e' Hj E'. destruct (Nat.eq_dec j i) as [->|]; [congruence|].
      apply (Hlt j); [lia|exact E'].
  - apply nth_error_None in E. assert (N : ~ In a (map addr buf)).
    { intros HI. apply in_map_iff in HI as (e & Ha & HI). apply In_nth_error in HI as (j & E').
      apply (Hlt j e); auto. enough (j < length buf)%nat by lia. apply nth_error_Some; congruence. }
    repeat split; try apply W; auto with arith.
Qed.

Lemma FlushAddress_ok a h buf : wf_buffer buf ->
  let '(h', buf') := Buffered.FlushAddress a h buf in
  wf_buffer buf' /\ ~ In a (map addr buf') /\ host_eq (view h' buf') (view h buf).
Proof.
  intros [W L]. pose proof (FlushAddress_loop_ok a h buf (length buf) W 0 ltac:(lia) ltac:(lia)) as H.
  unfold Buffered.FlushAddress. destruct (Buffered.FlushAddress_loop _ _ _ _ _) as [h' buf'].
  destruct H as (W' & N & L' & V). repeat split; auto; try apply W'. lia.
Qed.

(** The sizes of the simulator's accesses. *)
Definition access_size (n : Z) : Prop := n = 1 \/ n = 2 \/ n = 4 \/ n = 8 \/ n = 16.

Lemma buffered_inside n a : access_size n -> is_uN 64 a -> Buffered.unbuffered n a = false ->
  0 < n /\ n <= 8 /\ 0 <= a - word_of a /\ a - word_of a + n <= 8.
Proof.
  intros Hn Ha H. unfold Buffered.unbuffered in H. apply orb_false_iff in H as [H1 H2].
  apply negb_false_iff, Z.eqb_eq in H2. rewrite word_of_sub by exact Ha.
  pose proof (Z.mod_pos_bound a 8 ltac:(lia)). pose proof (Z.div_mod a 8 ltac:(lia)).
  replace (a - (a - a mod 8)) with (a mod 8) by lia.
  destruct Hn as [->|[->|[->|[->| ->]]]]; try lia.
  - change (2 - 1) with (Z.ones 1) in H2. rewrite Z.land_ones in H2 by lia. change (2 ^ 1) with 2 in H2.
    pose proof (Z.div_mod a 2 ltac:(lia)). lia.
  - change (4 - 1) with (Z.ones 2) in H2. rewrite Z.land_ones in H2 by lia. change (2 ^ 2) with 4 in H2.
    pose proof (Z.div_mod a 4 ltac:(lia)). lia.
  - change (8 - 1) with (Z.ones 3) in H2. rewrite Z.land_ones in H2 by lia. change (2 ^ 3) with 8 in H2.
    pose proof (Z.div_mod a 8 ltac:(lia)). lia.
Qed.

Lemma wf_buffer_nil : wf_buffer [].
Proof. repeat split; try constructor. Qed.

(** Bytes of the view inside one word. *)
Lemma view_inside h buf w k : is_uN 64 w -> w mod 8 = 0 -> 0 <= k < 8 ->
  view h buf (u64 (w + k)) = match lookup buf w with Some v => byte_of v k | None => h (u64 (w + k)) end.
Proof.
  intros Hw Hm Hk. destruct (word_of_inside w k Hw Hm Hk) as [R E].
  unfold view. rewrite uN_small, E by exact R. replace (w + k - w) with k by lia. reflexivity.
Qed.

Lemma Load_ok n h buf a : access_size n -> is_uN 64 a -> wf_buffer buf ->
  let '(v, (h', buf')) := Buffered.Load n h buf a in
  v = LoadLE (Z.to_nat n) (view h buf) a /\ wf_buffer buf' /\ host_eq (view h' buf') (view h buf).
Proof.
  intros Hn Ha [W L]. unfold Buffered.Load. destruct (Buffered.unbuffered n a) eqn:U.
  { pose proof (FlushAll_view buf h W) as F. destruct (Buffered.FlushAll h buf) as [h' buf'] eqn:E.
    cbn [fst] in F. assert (buf' = []) as -> by (unfold Buffered.FlushAll in E; congruence).
    split; [rewrite F; reflexivity|]. split; [apply wf_buffer_nil|]. rewrite view_nil; exact F. }
  destruct (buffered_inside n a Hn Ha U) as (N0 & N8 & O0 & O8).
  destruct (word_of_range a Ha) as (Rw & Mw & _). cbv zeta. fold (word_of a).
  set (w := word_of a) in *.
  assert (Hb : forall k, 0 <= k < n -> u64 (a + k) = u64 (w + (a - w + k))) by (intros; f_equal; lia).
  destruct (Buffered.find buf (length buf) w) as [i|] eqn:F.
  - destruct (find_Some buf w (length buf) i F) as (e & E & Ew).
    rewrite (nth_error_nth buf i (mkEntry 0 0) E). split; [|split; [split; assumption|reflexivity]].
    assert (Hl : lookup buf w = Some (value e)).
    { rewrite <- Ew. apply lookup_In; [apply W|]. apply (nth_error_In buf i); exact E. }
    apply (eq_by_bytes n); [lia|apply uN_range; lia| |].
    { rewrite <- (Z2Nat.id n) at 1 by lia. apply LoadLE_range. }
    intros k Hk. rewrite byte_of_LoadLE, byte_of_extract, Hb, view_inside, Hl by (assumption || lia).
    symmetry; apply u8_byte_of.
  - apply find_None_In, lookup_None in F. split; [|split; [split; assumption|reflexivity]].
    apply (eq_by_bytes n); [lia| | |].
    { rewrite <- (Z2Nat.id n) at 1 by lia. apply LoadLE_range. }
    { rewrite <- (Z2Nat.id n) at 1 by lia. apply LoadLE_range. }
    intros k Hk. rewrite !byte_of_LoadLE, Hb, view_inside, F by (assumption || lia). reflexivity.
Qed.

Lemma insert_range n off v x : is_uN 64 (Buffered.insert n off v x).
Proof. apply uN_range; lia. Qed.

(** Replacing the entry of word [w], or adding one, is a store to the view. *)
Lemma view_update h rest w v0 off n x : wf_entries (mkEntry w v0 :: rest) ->
  0 <= off -> 0 < n -> off + n <= 8 ->
  wf_entries (mkEntry w (Buffered.insert n off v0 x) :: rest) /\
  host_eq (view h (mkEntry w (Buffered.insert n off v0 x) :: rest))
          (StoreLE n (view h (mkEntry w v0 :: rest)) (w + off) x).
Proof.
  intros W O0 N0 N8. pose proof W as W0. apply wf_entries_cons in W as ((Rw & Mw & Rv) & HI & W).
  cbn [addr value] in *.
  assert (W' : wf_entries (mkEntry w (Buffered.insert n off v0 x) :: rest)).
  { apply wf_entries_cons. split; [split; [|split; [|apply insert_range]]|split]; assumption. }
  split; [exact W'|].
  rewrite (view_cons _ _ _ W'), (view_cons _ _ _ W0). cbn [addr value].
  rewrite !(view_StoreLE_word h rest w) by assumption.
  apply StoreLE_insert; assumption || lia.
Qed.

Lemma view_fresh h buf w : wf_entries buf -> is_uN 64 w -> w mod 8 = 0 -> ~ In w (map addr buf) ->
  wf_entries (mkEntry w (LoadLE 8 h w) :: buf) /\ host_eq (view h (mkEntry w (LoadLE 8 h w) :: buf)) (view h buf).
Proof.
  intros W Rw Mw HI.
  assert (W' : wf_entries (mkEntry w (LoadLE 8 h w) :: buf)).
  { apply wf_entries_cons. split; [split; [|split; [|apply (LoadLE_range 8)]]|split]; assumption. }
  split; [exact W'|]. rewrite (view_cons _ _ _ W'). cbn [addr value]. rewrite StoreLE_LoadLE by assumption.
  reflexivity.
Qed.

Lemma Store_ok n h buf a v : access_size n -> is_uN 64 a -> wf_buffer buf ->
  exists h' buf', Buffered.Store n h buf a v = Some (h', buf') /\ wf_buffer buf' /\
    host_eq (view h' buf') (StoreLE n (view h buf) a v).
Proof.
  intros Hn Ha [W L]. unfold Buffered.Store. destruct (Buffered.unbuffered n a) eqn:U.
  { pose proof (FlushAll_view buf h W) as F. destruct (Buffered.FlushAll h buf) as [h' buf'] eqn:E.
    cbn [fst] in F. assert (buf' = []) as -> by (unfold Buffered.FlushAll in E; congruence).
    do 2 eexists. split; [reflexivity|]. split; [apply wf_buffer_nil|]. rewrite view_nil, F. reflexivity. }
  destruct (buffered_inside n a Hn Ha U) as (N0 & N8 & O0 & O8).
  destruct (word_of_range a Ha) as (Rw & Mw & _). cbv zeta. fold (word_of a).
  set (w := word_of a) in *. replace (StoreLE n (view h buf) a v) with (StoreLE n (view h buf) (w + (a - w)) v)
    by (f_equal; lia).
  destruct (Buffered.find buf (length buf) w) as [i|] eqn:F.
  - destruct (find_Some buf w (length buf) i F) as ([w' v0] & E & Ew). cbn [addr] in Ew. subst w'.
    rewrite (nth_error_nth buf i (mkEntry 0 0) E). cbn [addr value].
    destruct (set_nth_perm i buf _ E) as (rest & P & Q).
    pose proof (wf_entries_perm _ _ P W) as Wr.
    destruct (view_update h rest w v0 (a - w) n v Wr O0 N0 O8) as [W' V].
    do 2 eexists. split; [reflexivity|].
    pose proof (wf_entries_perm _ _ (Permutation_sym (Q _)) W') as W''. split.
    + split; [exact W''|]. rewrite length_set_nth; exact L.
    + rewrite (view_perm _ _ _ W'' (Q _)), (view_perm h buf _ W P). exact V.
  - apply find_None_In in F. rewrite (proj2 (Z.ltb_lt _ _) L).
    destruct (view_fresh h buf w W Rw Mw F) as [Wf Vf].
    destruct (view_update h buf w _ (a - w) n v Wf O0 N0 O8) as [W' V]. rewrite Vf in V.
    set (e := mkEntry w (Buffered.insert n (a - w) (LoadLE 8 h w) v)) in *.
    pose proof (Permutation_cons_append buf e) as P.
    pose proof (wf_entries_perm _ _ P W') as W''.
    rewrite (view_perm _ _ _ W' P) in V. unfold kCapacity in *.
    rewrite length_app in *. cbn [length].
    destruct (Z.eqb_spec (Z.of_nat (length buf + 1)) 16) as [C|C].
    + unfold Buffered.FlushSome.
      destruct (FlushSome_loop_ok (length (buf ++ [e])) h (buf ++ [e]) W'' ltac:(lia)) as (h' & buf' & R & Wb & _ & Vb).
      { rewrite length_app; cbn [length]. unfold kCapacity; lia. }
      exists h', buf'. rewrite Vb. auto.
    + exists h, (buf ++ [e]). split; [reflexivity|]. split; [split; [exact W''|]|exact V].
      rewrite length_app; cbn [length]. unfold kCapacity; lia.
Qed.

(** ** The interface the simulator relies on *)

(** A memory whose loads and stores act on an abstract byte array. *)
Class ByteMemory (M : Type) := {
  bm_wf : M -> Prop;
  bm_view : M -> Host;
  bm_load : Z -> M -> Z -> Z * M;
  bm_store : Z -> M -> Z -> Z -> option M;
  bm_load_spec : forall n m a, access_size n -> is_uN 64 a -> bm_wf m ->
    fst (bm_load n m a) = LoadLE (Z.to_nat n) (bm_view m) a /\
    bm_wf (snd (bm_load n m a)) /\ host_eq (bm_view (snd (bm_load n m a))) (bm_view m);
  bm_store_spec : forall n m a v, access_size n -> is_uN 64 a -> bm_wf m ->
    exists m', bm_store n m a v = Some m' /\ bm_wf m' /\ host_eq (bm_view m') (StoreLE n (bm_view m) a v)
}.

#[export, refine] Instance direct_memory : ByteMemory Host := {
  bm_wf := fun _ => True;
  bm_view := fun h => h;
  bm_load := fun n h a => (Direct.Load n h a, h);
  bm_store := fun n h a v => Some (Direct.Store n h a v);
}.
Proof.
  - intros n h a _ _ _; repeat split; reflexivity.
  - intros n h a v _ _ _; eexists; repeat split; reflexivity.
Defined.

#[export, refine] Instance buffered_memory : ByteMemory (Host * Buffer) := {
  bm_wf := fun s => wf_buffer (snd s);
  bm_view := fun s => view (fst s) (snd s);
  bm_load := fun n s a => Buffered.Load n (fst s) (snd s) a;
  bm_store := fun n s a v => Buffered.Store n (fst s) (snd s) a v;
}.
Proof.
  - intros n [h buf] a Hn Ha W; cbn [fst snd] in *. pose proof (Load_ok n h buf a Hn Ha W) as H.
    destruct (Buffered.Load n h buf a) as [v [h' buf']]. exact H.
  - intros n [h buf] a v Hn Ha W; cbn [fst snd] in *.
    destruct (Store_ok n h buf a v Hn Ha W) as (h' & buf' & E & W' & V). exists (h', buf'); auto.
Defined.

Definition wf_memory (m : SimulatorMemory) : Prop := wf_buffer (buffer_ m) /\ (use_buffered_ m = false -> buffer_ m = []).

Definition memory_view (m : SimulatorMemory) : Host := view (host m) (buffer_ m).

#[export, refine] Instance simulator_memory : ByteMemory SimulatorMemory := {
  bm_wf := wf_memory;
  bm_view := memory_view;
  bm_load := Memory.Load;
  bm_store := Memory.Store;
}.
Proof.
  - intros n [[] h buf] a Hn Ha [W D]; unfold Memory.Load; cbn [use_buffered_ host buffer_] in *.
    + pose proof (Load_ok n h buf a Hn Ha W) as H. destruct (Buffered.Load n h buf a) as [v [h' buf']].
      destruct H as (E & W' & V). split; [exact E|]. split; [split; [exact W'|discriminate]|exact V].
    + rewrite (D eq_refl) in *. repeat split; reflexivity || assumption || apply W.
  - intros n [[] h buf] a v Hn Ha [W D]; unfold Memory.Store; cbn [use_buffered_ host buffer_] in *.
    + destruct (Store_ok n h buf a v Hn Ha W) as (h' & buf' & E & W' & V). rewrite E.
      eexists; split; [reflexivity|]. split; [split; [exact W'|discriminate]|exact V].
    + rewrite (D eq_refl) in *. eexists; split; [reflexivity|].
      split; [split; [apply wf_buffer_nil|reflexivity]|]. unfold memory_view; cbn [host buffer_ Memory.with_state].
      rewrite !view_nil. reflexivity.
Defined.

(** ** Traces *)

(** A program's accesses: loads of [n] bytes, and stores. *)
Inductive access := Ld (n a : Z) | St (n a v : Z).

Definition access_ok (x : access) : Prop :=
  match x with Ld n a | St n a _ => access_size n /\ is_uN 64 a end.

(** Runs a trace and collects the loaded values; [None] is an access outside the buffer. *)
Fixpoint run_trace {M} `{ByteMemory M} (m : M) (t : list access) : option (list Z * M) :=
  match t with
  | [] => Some ([], m)
  | Ld n a :: t => let '(v, m) := bm_load n m a in
                   option_map (fun '(vs, m) => (v :: vs, m)) (run_trace m t)
  | St n a v :: t => match bm_store n m a v with Some m => run_trace m t | None => None end
  end.

(** Two memories with the same view cannot be told apart by a trace. *)
Lemma traces_agree {M1 M2} `{ByteMemory M1} `{ByteMemory M2} t : forall (m1 : M1) (m2 : M2),
  Forall access_ok t -> bm_wf m1 -> bm_wf m2 -> host_eq (bm_view m1) (bm_view m2) ->
  exists vs m1' m2', run_trace m1 t = Some (vs, m1') /\ run_trace m2 t = Some (vs, m2') /\
    bm_wf m1' /\ bm_wf m2' /\ host_eq (bm_view m1') (bm_view m2').
Proof.
  induction t as [|[n a|n a v] t IH]; intros m1 m2 F W1 W2 E; cbn [run_trace].
  - exists [], m1, m2. auto.
  - inversion_clear F as [|x l Hok F']. destruct Hok as [Hn Ha].
    destruct (bm_load_spec n m1 a Hn Ha W1) as (V1 & W1' & E1), (bm_load_spec n m2 a Hn Ha W2) as (V2 & W2' & E2).
    destruct (bm_load n m1 a) as [v1 m1'], (bm_load n m2 a) as [v2 m2']; cbn [fst snd] in *.
    destruct (IH m1' m2' F' W1' W2') as (vs & n1 & n2 & R1 & R2 & ?); [rewrite E1, E2; exact E|].
    assert (v2 = v1) as -> by (rewrite V1, V2, E; reflexivity).
    exists (v1 :: vs), n1, n2. rewrite R1, R2. cbn [option_map]. auto.
  - inversion_clear F as [|x l Hok F']. destruct Hok as [Hn Ha].
    destruct (bm_store_spec n m1 a v Hn Ha W1) as (m1' & R1 & W1' & E1), (bm_store_spec n m2 a v Hn Ha W2) as (m2' & R2 & W2' & E2).
    rewrite R1, R2. apply IH; auto. rewrite E1, E2, E. reflexivity.
Qed.

(** C33.  The store buffer refines direct memory: on every sequence of loads and
    stores, of any size and alignment, starting from an empty buffer, the
    buffered memory never indexes outside its array, returns the values direct
    memory returns, and flushing it leaves the process memory direct memory
    would have left. *)
Theorem buffered_refines_direct h t : Forall access_ok t ->
  exists vs h1 h2 buf,
    run_trace h t = Some (vs, h1) /\ run_trace (h, []) t = Some (vs, (h2, buf)) /\
    Z.of_nat (length buf) < kCapacity /\ host_eq (fst (Buffered.FlushAll h2 buf)) h1.
Proof.
  intros F. destruct (@traces_agree _ _ direct_memory buffered_memory t h (h, []) F I wf_buffer_nil) as (vs & h1 & [h2 buf] & R1 & R2 & _ & W & E).
  { symmetry; apply view_nil. }
  exists vs, h1, h2, buf. split; [exact R1|]. split; [exact R2|]. cbn in W, E. destruct W as [W L]. split; [exact L|].
  rewrite FlushAll_view by exact W. symmetry; exact E.
Qed.

Lemma buffered_refines_direct_witness :
  exists vs h1 h2 buf,
    run_trace (fun _ => 0) [St 4 4096 7; Ld 8 4096; St 2 4099 1; Ld 4 4096] = Some (vs, h1) /\
    run_trace (fun _ => 0, []) [St 4 4096 7; Ld 8 4096; St 2 4099 1; Ld 4 4096] = Some (vs, (h2, buf)) /\
    Z.of_nat (length buf) < kCapacity /\ host_eq (fst (Buffered.FlushAll h2 buf)) h1.
Proof.
  apply (buffered_refines_direct (fun _ => 0) [St 4 4096 7; Ld 8 4096; St 2 4099 1; Ld 4 4096]).
  repeat constructor; cbn; unfold access_size; lia.
Defined.

(** ** Ordered accesses *)

(** Once the word is not buffered, the process memory shows its bytes. *)
Lemma LoadLE_unbuffered n h buf w : is_uN 64 w -> w mod 8 = 0 -> (n <= 8)%nat -> ~ In w (map addr buf) ->
  LoadLE n h w = LoadLE n (view h buf) w.
Proof.
  intros Hw Hm Hn HI. apply lookup_None in HI.
  apply (eq_by_bytes (Z.of_nat n)); [lia|apply LoadLE_range|apply LoadLE_range|].
  intros k Hk. rewrite !byte_of_LoadLE, view_inside, HI by (assumption || lia). reflexivity.
Qed.

Lemma StoreLE_unbuffered n h buf w v : is_uN 64 w -> w mod 8 = 0 -> 0 < n <= 8 -> ~ In w (map addr buf) ->
  host_eq (view (StoreLE n h w v) buf) (StoreLE n (view h buf) w v).
Proof.
  intros Hw Hm Hn HI. pose proof (view_StoreLE h buf w 0 n v Hw Hm ltac:(lia) ltac:(lia) ltac:(lia) HI) as V.
  rewrite !Z.add_0_r in V. exact V.
Qed.

(**  At a word-aligned address the ordered accesses of the buffered memory
    are coherent with the plain ones: the load returns, and the store and a
    successful compare-exchange update, the memory the thread sees through its
    buffer. *)
Theorem ordered_word_coherent n h buf a v old :
  wf_buffer buf -> is_uN 64 a -> a mod 8 = 0 -> 0 < n <= 8 ->
  let '(x, (h1, buf1)) := Buffered.LoadOrdered n h buf a in
  let '(h2, buf2) := Buffered.StoreOrdered n h buf a v in
  let '(ok, seen, (h3, buf3)) := Buffered.CompareExchange n false h buf a old v in
  let before := view h buf in
  (x = LoadLE (Z.to_nat n) before a /\ wf_buffer buf1 /\ host_eq (view h1 buf1) before) /\
  (wf_buffer buf2 /\ host_eq (view h2 buf2) (StoreLE n before a v)) /\
  (wf_buffer buf3 /\ ok = (LoadLE (Z.to_nat n) before a =? uN (8 * n) old) /\
   host_eq (view h3 buf3) (if ok then StoreLE n before a v else before)).
Proof.
  intros W Ha Hm Hn. pose proof (FlushAddress_ok a h buf W) as F.
  unfold Buffered.LoadOrdered, Buffered.StoreOrdered, Buffered.CompareExchange, Direct.CompareExchange, Direct.Load, Direct.Store.
  destruct (Buffered.FlushAddress a h buf) as [h' buf']. destruct F as (W' & N & V).
  assert (E : LoadLE (Z.to_nat n) h' a = LoadLE (Z.to_nat n) (view h buf) a).
  { rewrite (LoadLE_unbuffered _ h' buf') by (assumption || lia). rewrite V. reflexivity. }
  assert (S : host_eq (view (StoreLE n h' a v) buf') (StoreLE n (view h buf) a v)).
  { rewrite StoreLE_unbuffered, V by assumption. reflexivity. }
  rewrite E, andb_true_r. destruct (LoadLE (Z.to_nat n) (view h buf) a =? uN (8 * n) old) eqn:C; cbn [fst snd];
    rewrite ?C; auto 10.
Qed.

Lemma ordered_word_coherent_witness :
  fst (Buffered.LoadOrdered 4 (fun _ => 0) [mkEntry 4096 77] 4096) = LoadLE 4 (view (fun _ => 0) [mkEntry 4096 77]) 4096.
Proof.
  exact (proj1 (proj1 (ordered_word_coherent 4 (fun _ => 0) [mkEntry 4096 77] 4096 0 0
    ltac:(repeat split; repeat constructor; cbn; auto; lia) ltac:(split; discriminate || reflexivity) eq_refl
    ltac:(lia)))).
Defined.

(**  Below word alignment they are not: [FlushAddress] compares the address
    of the access with the word addresses of the entries, so after a 4-byte
    store to the upper half of a word an ordered 4-byte load of the same address
    misses the buffered value and returns the old contents of the process
    memory, although a plain load returns the stored value. *)
Theorem ordered_subword_stale :
  exists h buf, Buffered.Store 4 (fun _ => 0) [] 4100 1 = Some (h, buf) /\
    fst (Buffered.Load 4 h buf 4100) = 1 /\ fst (Buffered.LoadOrdered 4 h buf 4100) = 0.
Proof. do 2 eexists. split; [reflexivity|]. split; reflexivity. Qed.
