(* ===== verification/Random.v ===== *)
(** * Pseudo-random numbers ([vm/random.{h,cc}])

    The multiply-with-carry generator of class [Random]; its state is the
    64-bit [state_].  The seed sources of the default constructor (flag,
    embedder callback, clock) are inputs. *)

From Stdlib Require Import ZArith Lia.
From S2P Require Import Prelude.

Definition MASK_32 : Z := 0xffffffff.
Definition random_A : Z := 0xffffda61.

(** [Random::NextState]: the new [state_], which is also the result. *)
Definition NextState (state_ : Z) : Z :=
  let state_lo := state_ .& MASK_32 in
  let state_hi := (state_ >> 32) .& MASK_32 in
  u64 (u64 (random_A * state_lo) + state_hi).

(** [Random::NextUInt32]: the number and the new state. *)
Definition NextUInt32 (state_ : Z) : Z * Z :=
  let s := NextState state_ in (u32 (s .& MASK_32), s).

(** [Random::NextUInt64]; the high half is drawn first. *)
Definition NextUInt64 (state_ : Z) : Z * Z :=
  let '(hi, s) := NextUInt32 state_ in
  let '(lo, s) := NextUInt32 s in
  (u64 (hi << 32) .| lo, s).

Definition NextJSInt (state_ : Z) : Z * Z :=
  let '(r, s) := NextUInt64 state_ in (r .& 0x1FFFFFFFFFFFFF, s).

(** [Random::Initialize]; the seed must not be zero. *)
Definition Initialize (seed : Z) : option Z :=
  ASSERT (negb (seed =? 0));;
  Some (NextState (NextState (NextState (NextState seed)))).

(** The two halves of the state recombine without overflow. *)
Lemma NextState_exact s : is_uN 64 s -> NextState s = random_A * (s mod 2 ^ 32) + s / 2 ^ 32.
Proof.
  intros Hs. unfold NextState. change MASK_32 with (Z.ones 32).
  rewrite !Z.land_ones, Z.shiftr_div_pow2 by lia.
  pose proof (Z.mod_pos_bound s (2 ^ 32) ltac:(lia)) as L.
  assert (H : 0 <= s / 2 ^ 32 < 2 ^ 32).
  { unfold is_uN in Hs. split; [apply Z.div_pos; lia|apply Z.div_lt_upper_bound; lia]. }
  rewrite (Z.mod_small (s / 2 ^ 32)) by lia. unfold random_A in *.
  rewrite !uN_small; unfold is_uN; [reflexivity|lia|].
  rewrite uN_small by (unfold is_uN; lia). lia.
Qed.

(** The invariant of the generator: a non-zero state below [A * 2^32 - 1],
    the modulus of the recurrence. *)
Definition random_wf (s : Z) : Prop := 0 < s < random_A * 2 ^ 32 - 1.

(** The recurrence is multiplication by [A] modulo [A * 2^32 - 1]. *)
Lemma NextState_recurrence s : random_wf s ->
  random_wf (NextState s) /\ NextState s = (random_A * s) mod (random_A * 2 ^ 32 - 1).
Proof.
  unfold random_wf; intros Hs. rewrite NextState_exact by (unfold is_uN, random_A in *; lia).
  pose proof (Z.mod_pos_bound s (2 ^ 32) ltac:(lia)) as L.
  pose proof (Z.div_mod s (2 ^ 32) ltac:(lia)) as D.
  assert (H : 0 <= s / 2 ^ 32) by (apply Z.div_pos; lia).
  assert (R : 0 < random_A * (s mod 2 ^ 32) + s / 2 ^ 32 < random_A * 2 ^ 32 - 1)
    by (unfold random_A in *; lia).
  split; [exact R|]. apply Z.mod_unique_pos with (q := s / 2 ^ 32); [lia|].
  unfold random_A in *. lia.
Qed.

(** The largest residue; [NextState] maps it to itself. *)
Definition bad_seed : Z := random_A * 2 ^ 32 - 1.

(** From any 64-bit state but 0 and the fixed point, two steps reach the invariant. *)
Lemma NextState_two s : is_uN 64 s -> s <> 0 -> s <> bad_seed -> random_wf (NextState (NextState s)).
Proof.
  unfold is_uN, bad_seed; intros Hs H0 Hb.
  destruct (Z.lt_ge_cases s (random_A * 2 ^ 32 - 1)) as [L|L].
  { apply NextState_recurrence, NextState_recurrence. unfold random_wf; lia. }
  pose proof (Z.div_mod s (2 ^ 32) ltac:(lia)) as D.
  pose proof (Z.mod_pos_bound s (2 ^ 32) ltac:(lia)) as M.
  assert (Q : random_A <= s / 2 ^ 32 <= 2 ^ 32 - 1) by (unfold random_A in *; lia).
  destruct (Z.lt_ge_cases (NextState s) (random_A * 2 ^ 32 - 1)) as [L'|L'].
  - apply NextState_recurrence. rewrite NextState_exact in * by (unfold is_uN; lia). unfold random_wf, random_A in *; lia.
  - rewrite NextState_exact in L' by (unfold is_uN; lia).
    assert (E : s mod 2 ^ 32 = 2 ^ 32 - 1) by (unfold random_A in *; lia).
    assert (X : NextState s = random_A * (2 ^ 32 - 1) + s / 2 ^ 32)
      by (rewrite NextState_exact by (unfold is_uN; lia); rewrite E; reflexivity).
    set (q := s / 2 ^ 32) in *. clearbody q.
    assert (Y : NextState s / 2 ^ 32 = random_A)
      by (symmetry; apply Z.div_unique_pos with (r := q - random_A); unfold random_A in *; lia).
    assert (W : NextState s mod 2 ^ 32 = q - random_A)
      by (symmetry; apply Z.mod_unique_pos with (q := random_A); unfold random_A in *; lia).
    rewrite (NextState_exact (NextState s)), Y, W by (unfold is_uN, random_A in *; lia).
    unfold random_wf, random_A in *; lia.
Qed.

(**  The generator: every non-zero 64-bit seed but one initialises it to a
    state between 1 and [A * 2^32 - 2], where each step is multiplication by [A]
    modulo [A * 2^32 - 1] and stays in that range (it never degenerates to 0);
    the remaining seed, [A * 2^32 - 1], is a fixed point from which the
    generator returns [0xffffffff] for ever. *)
Theorem random_recurrence seed : is_uN 64 seed -> seed <> 0 ->
  exists s, Initialize seed = Some s /\
    (seed <> bad_seed -> random_wf s) /\
    (random_wf s -> random_wf (NextState s) /\ NextState s = (random_A * s) mod (random_A * 2 ^ 32 - 1)) /\
    (seed = bad_seed -> s = bad_seed /\ NextUInt32 s = (0xffffffff, s)).
Proof.
  intros Hs H0. unfold Initialize. rewrite (proj2 (Z.eqb_neq seed 0) H0). cbn [negb].
  eexists; split; [reflexivity|]. split; [|split].
  - intros Hb. apply NextState_recurrence, NextState_recurrence, NextState_two; assumption.
  - apply NextState_recurrence.
  - intros ->. split; reflexivity.
Qed.

Lemma random_recurrence_witness : exists s, Initialize 42 = Some s /\ random_wf s.
Proof.
  destruct (random_recurrence 42 ltac:(split; discriminate || reflexivity) ltac:(discriminate)) as (s & E & W & _).
  exists s. split; [exact E|]. apply W. discriminate.
Defined.
