(* ===== verification/Outcome.v ===== *)
(** * Outcomes of simulated code

    A handler of the simulator returns a value or the reason execution stops:
    the [DART_NORETURN] functions [IllegalInstruction] and [Fault] of
    [vm/simulator_riscv.cc], [FATAL], a failed [ASSERT] of a DEBUG build, and
    [UNIMPLEMENTED].  [OutOfBounds] is an access outside an array of the
    simulator itself. *)

From Stdlib Require Import ZArith String.

Inductive stop :=
  | IllegalInstruction (encoding : Z)
  | Fault (message : string)
  | FATAL (message : string)
  | AssertionFailed
  | UNIMPLEMENTED
  | OutOfBounds.

Inductive outcome (A : Type) :=
  | Ok (a : A)
  | Stop (r : stop).
Arguments Ok {A} a.
Arguments Stop {A} r.

Definition bind {A B} (x : outcome A) (f : A -> outcome B) : outcome B :=
  match x with Ok a => f a | Stop r => Stop r end.
Notation "'let!' x := e 'in' k" := (bind e (fun x => k))
  (at level 10, x pattern, e at level 150, k at level 200).

(** A property of the value, when there is one. *)
Definition ok_with {A} (I : A -> Prop) (o : outcome A) : Prop :=
  match o with Ok a => I a | Stop _ => True end.

Lemma ok_bind {A B} (I : A -> Prop) (J : B -> Prop) (x : outcome A) (f : A -> outcome B) :
  ok_with I x -> (forall a, I a -> ok_with J (f a)) -> ok_with J (bind x f).
Proof. destruct x; cbn; auto. Qed.

Lemma ok_stop {A} (I : A -> Prop) r : ok_with I (Stop r).
Proof. exact Logic.I. Qed.
