(* ===== verification/RvFloat.v ===== *)
(** * Floating point of the simulator ([vm/simulator_riscv.cc])

    A [float] or [double] is its bit pattern.  The arithmetic of the host is
    IEEE 754 with rounding to nearest, ties to even: the operations of
    [SpecFloat] on the decoded value, re-encoded.  C++ leaves open which NaN an
    operation produces, so the bits of a computed NaN are a parameter,
    [host_nan].  The static functions of the simulator ([rv_fmin], [fclass],
    [Round], [roundeven], the [fcvt*] family) follow, one definition each, and
    the tables of the [fli] constants. *)

From Stdlib Require Import ZArith Bool List String.
From Stdlib Require Import SpecFloat.
From S2P Require Import Prelude Utils RvEncoding Outcome.
Import ListNotations.
Open Scope Z_scope.

(** ** Formats *)

Record Format := mkFormat { precision : Z; max_exponent : Z; width : Z }.

Definition binary32 : Format := mkFormat 24 128 32.
Definition binary64 : Format := mkFormat 53 1024 64.

(** ** Enumerations of [vm/constants_riscv.h] *)

Inductive RoundingMode : Set := RNE | RTZ | RDN | RUP | RMM | DYN.
Definition RoundingMode_value (m : RoundingMode) : Z :=
  match m with RNE => 0 | RTZ => 1 | RDN => 2 | RUP => 3 | RMM => 4 | DYN => 7 end.
Coercion RoundingMode_value : RoundingMode >-> Z.

Inductive FcvtRs2 : Set := W | WU | L | LU.
Definition FcvtRs2_value (r : FcvtRs2) : Z := match r with W => 0 | WU => 1 | L => 2 | LU => 3 end.
Coercion FcvtRs2_value : FcvtRs2 >-> Z.

Inductive FClass : Set :=
  | kFClassNegInfinity | kFClassNegNormal | kFClassNegSubnormal | kFClassNegZero
  | kFClassPosZero | kFClassPosSubnormal | kFClassPosNormal | kFClassPosInfinity
  | kFClassSignallingNan | kFClassQuietNan.
Definition FClass_value (c : FClass) : Z :=
  match c with
  | kFClassNegInfinity => 1 << 0 | kFClassNegNormal => 1 << 1 | kFClassNegSubnormal => 1 << 2
  | kFClassNegZero => 1 << 3 | kFClassPosZero => 1 << 4 | kFClassPosSubnormal => 1 << 5
  | kFClassPosNormal => 1 << 6 | kFClassPosInfinity => 1 << 7
  | kFClassSignallingNan => 1 << 8 | kFClassQuietNan => 1 << 9
  end.
Coercion FClass_value : FClass >-> Z.

Definition kFlisConstants : list Z :=
  [0xbf800000; 0x00800000; 0x37800000; 0x38000000; 0x3b800000; 0x3c000000; 0x3d800000; 0x3e000000;
   0x3e800000; 0x3ea00000; 0x3ec00000; 0x3ee00000; 0x3f000000; 0x3f200000; 0x3f400000; 0x3f600000;
   0x3f800000; 0x3fa00000; 0x3fc00000; 0x3fe00000; 0x40000000; 0x40200000; 0x40400000; 0x40800000;
   0x41000000; 0x41800000; 0x43000000; 0x43800000; 0x47000000; 0x47800000; 0x7f800000; 0x7fc00000].

Definition kFlidConstants : list Z :=
  [0xbff0000000000000; 0x0010000000000000; 0x3ef0000000000000; 0x3f00000000000000;
   0x3f70000000000000; 0x3f80000000000000; 0x3fb0000000000000; 0x3fc0000000000000;
   0x3fd0000000000000; 0x3fd4000000000000; 0x3fd8000000000000; 0x3fdc000000000000;
   0x3fe0000000000000; 0x3fe4000000000000; 0x3fe8000000000000; 0x3fec000000000000;
   0x3ff0000000000000; 0x3ff4000000000000; 0x3ff8000000000000; 0x3ffc000000000000;
   0x4000000000000000; 0x4004000000000000; 0x4008000000000000; 0x4010000000000000;
   0x4020000000000000; 0x4030000000000000; 0x4060000000000000; 0x4070000000000000;
   0x40e0000000000000; 0x40f0000000000000; 0x7ff0000000000000; 0x7ff8000000000000].

(** ** Encodings *)

Section Values.
Context (f : Format).

Definition fraction_bits : Z := precision f - 1.
Definition exponent_bits : Z := width f - precision f.
Definition min_exponent : Z := emin (precision f) (max_exponent f).
Definition sign_mask : Z := 1 << (width f - 1).
Definition exponent_mask : Z := Z.ones exponent_bits.

Definition signbit (x : Z) : bool := Z.testbit x (width f - 1).
Definition biased_exponent (x : Z) : Z := (x >> fraction_bits) .& exponent_mask.
Definition fraction (x : Z) : Z := x .& Z.ones fraction_bits.

Definition decode (x : Z) : spec_float :=
  let s := signbit x in
  let e := biased_exponent x in
  let m := fraction x in
  if e =? exponent_mask then if m =? 0 then S754_infinity s else S754_nan
  else if e =? 0 then if m =? 0 then S754_zero s else S754_finite s (Z.to_pos m) min_exponent
  else S754_finite s (Z.to_pos (m + 2 ^ fraction_bits)) (e - 1 + min_exponent).

Definition sign_of (s : bool) : Z := if s then sign_mask else 0.

(** [nan] is the bit pattern of the NaN. *)
Definition encode (nan : Z) (x : spec_float) : Z :=
  match x with
  | S754_zero s => sign_of s
  | S754_infinity s => sign_of s .| (exponent_mask << fraction_bits)
  | S754_nan => nan
  | S754_finite s m e =>
      if Zpos m <? 2 ^ fraction_bits then sign_of s .| Zpos m
      else sign_of s .| (((e - min_exponent + 1) << fraction_bits) .| (Zpos m - 2 ^ fraction_bits))
  end.

(** [std::numeric_limits<T>::quiet_NaN()]. *)
Definition quiet_NaN : Z := (exponent_mask << fraction_bits) .| (1 << (fraction_bits - 1)).

(** ** The operators of C++ *)

Definition isnan (x : Z) : bool := match decode x with S754_nan => true | _ => false end.
Definition feq (x y : Z) : bool := SFeqb (decode x) (decode y).
Definition flt (x y : Z) : bool := SFltb (decode x) (decode y).
Definition fle (x y : Z) : bool := SFleb (decode x) (decode y).

(** Unary minus. *)
Definition fneg (x : Z) : Z := x .^ sign_mask.

(** [static_cast<T>(i)] of an integer. *)
Definition of_int (i : Z) : Z := encode quiet_NaN (binary_normalize (precision f) (max_exponent f) i 0 false).

(** *** The integral part: [trunc], [floor], [ceil] and [round] of [<math.h>] *)

(** Rounds [m * 2 ^ e], [e < 0], to an integer; [up] says whether the magnitude
    goes up, from the integer part and the remainder over [2 ^ -e]. *)
Definition integral (up : bool -> Z -> Z -> Z -> bool) (x : spec_float) : spec_float :=
  match x with
  | S754_finite s m e =>
      if 0 <=? e then x
      else
        let d := 2 ^ (- e) in
        let q := Zpos m / d in
        let r := Zpos m mod d in
        match (if up s q r d then q + 1 else q) with
        | Zpos n => binary_round (precision f) (max_exponent f) s n 0
        | _ => S754_zero s
        end
  | _ => x
  end.

Definition SFtrunc : spec_float -> spec_float := integral (fun _ _ _ _ => false).
Definition SFfloor : spec_float -> spec_float := integral (fun s _ r _ => s && negb (r =? 0)).
Definition SFceil : spec_float -> spec_float := integral (fun s _ r _ => negb s && negb (r =? 0)).
Definition SFround : spec_float -> spec_float := integral (fun _ _ r d => d <=? 2 * r).

(** [fmod(x, 2)]. *)
Definition SFfmod2 (x : spec_float) : spec_float :=
  match x with
  | S754_finite s m e =>
      if 1 <=? e then S754_zero s
      else match Zpos m mod 2 ^ (1 - e) with
           | Zpos r => binary_round (precision f) (max_exponent f) s r e
           | _ => S754_zero s
           end
  | S754_infinity _ => S754_nan
  | _ => x
  end.

Definition SFof_int (i : Z) : spec_float := binary_normalize (precision f) (max_exponent f) i 0 false.
Definition SFhalf : spec_float := binary_round (precision f) (max_exponent f) false 1 (-1).

(** [static_cast] to an integer type: the value towards zero, inside the type's range. *)
Definition to_int (x : spec_float) : Z :=
  match x with
  | S754_finite s m e => cond_Zopp s (if 0 <=? e then Zpos m * 2 ^ e else Zpos m / 2 ^ (- e))
  | _ => 0
  end.

(** ** [rv_fmin] and its kin *)

Definition rv_fmin_ (x y : Z) : Z :=
  if isnan x && isnan y then quiet_NaN
  else if isnan x then y
  else if isnan y then x
  else if feq x y then if signbit x then x else y
  else if flt x y then x else y.
Definition rv_fmax_ (x y : Z) : Z :=
  if isnan x && isnan y then quiet_NaN
  else if isnan x then y
  else if isnan y then x
  else if feq x y then if signbit x then y else x
  else if flt x y then y else x.
Definition rv_fminm_ (x y : Z) : Z :=
  if isnan x || isnan y then quiet_NaN
  else if feq x y then if signbit x then x else y
  else if flt x y then x else y.
Definition rv_fmaxm_ (x y : Z) : Z :=
  if isnan x || isnan y then quiet_NaN
  else if feq x y then if signbit x then y else x
  else if flt x y then y else x.

(** ** Classification *)

Inductive FpClass := FP_INFINITE | FP_NAN | FP_ZERO | FP_SUBNORMAL | FP_NORMAL.
Definition fpclassify (x : Z) : FpClass :=
  match decode x with
  | S754_infinity _ => FP_INFINITE
  | S754_nan => FP_NAN
  | S754_zero _ => FP_ZERO
  | S754_finite _ m _ => if Zpos m <? 2 ^ fraction_bits then FP_SUBNORMAL else FP_NORMAL
  end.

Definition is_quiet_ (x : Z) : bool := negb ((x .& (1 << (fraction_bits - 1))) =? 0).

Definition fclass_ (x : Z) : Z :=
  match fpclassify x with
  | FP_INFINITE => if signbit x then kFClassNegInfinity else kFClassPosInfinity
  | FP_NAN => if is_quiet_ x then kFClassQuietNan else kFClassSignallingNan
  | FP_ZERO => if signbit x then kFClassNegZero else kFClassPosZero
  | FP_SUBNORMAL => if signbit x then kFClassNegSubnormal else kFClassPosSubnormal
  | FP_NORMAL => if signbit x then kFClassNegNormal else kFClassPosNormal
  end.

(** ** Rounding to an integral value *)

Definition SFadd_ := SFadd (precision f) (max_exponent f).
Definition SFsub_ := SFsub (precision f) (max_exponent f).

Definition SFroundeven (x : spec_float) : spec_float :=
  let rounded := SFround x in
  if SFeqb (SFabs (SFsub_ x rounded)) SFhalf then
    if negb (SFeqb (SFfmod2 rounded) (S754_zero false)) then
      if SFltb (S754_zero false) rounded then SFsub_ rounded (SFof_int 1) else SFadd_ rounded (SFof_int 1)
    else rounded
  else rounded.

(** The NaN case is decided before; the value computed here is never one. *)
Definition Round_ (x : Z) (rounding : Z) : outcome Z :=
  match fpclassify x with
  | FP_INFINITE | FP_ZERO => Ok x
  | FP_NAN => Ok quiet_NaN
  | _ =>
      let back r := Ok (encode quiet_NaN r) in
      let v := decode x in
      if rounding =? RNE then back (SFroundeven v)
      else if rounding =? RTZ then back (SFtrunc v)
      else if rounding =? RDN then back (SFfloor v)
      else if rounding =? RUP then back (SFceil v)
      else if rounding =? RMM then back (SFround v)
      else if rounding =? DYN then Stop UNIMPLEMENTED
      else Stop (FATAL "Invalid rounding mode")
  end.

(** ** Conversion to integers: the common body of the [fcvt] functions *)

Definition fcvt_ (min max : Z) (x : Z) (rounding : Z) : outcome Z :=
  if flt x (of_int min) then Ok min
  else if flt x (of_int max) then let! r := Round_ x rounding in Ok (to_int (decode r))
  else Ok max.

End Values.

(** ** The functions of the source, at the two formats *)

Definition rv_fmin := rv_fmin_ binary64.
Definition rv_fmax := rv_fmax_ binary64.
Definition rv_fminf := rv_fmin_ binary32.
Definition rv_fmaxf := rv_fmax_ binary32.
Definition rv_fminm := rv_fminm_ binary64.
Definition rv_fmaxm := rv_fmaxm_ binary64.
Definition rv_fminmf := rv_fminm_ binary32.
Definition rv_fmaxmf := rv_fmaxm_ binary32.
Definition is_quietf := is_quiet_ binary32.
Definition is_quiet := is_quiet_ binary64.
Definition fclassf := fclass_ binary32.
Definition fclass := fclass_ binary64.
Definition roundevenf := SFroundeven binary32.
Definition roundeven := SFroundeven binary64.
Definition Roundf := Round_ binary32.
Definition Round := Round_ binary64.

Definition fcvtws := fcvt_ binary32 kMinInt32 kMaxInt32.
Definition fcvtwus := fcvt_ binary32 0 kMaxUint32.
Definition fcvtls := fcvt_ binary32 kMinInt64 kMaxInt64.
Definition fcvtlus := fcvt_ binary32 0 kMaxUint64.
Definition fcvtwd := fcvt_ binary64 kMinInt32 kMaxInt32.
Definition fcvtwud := fcvt_ binary64 0 kMaxUint32.
Definition fcvtld := fcvt_ binary64 kMinInt64 kMaxInt64.
Definition fcvtlud := fcvt_ binary64 0 kMaxUint64.

(** [fcvtmodwd]; shifts of the 64-bit [significand] wrap, and the result is its
    low 32 bits. *)
Definition fcvtmodwd (DEBUG : bool) (x : Z) (rounding : Z) : outcome Z :=
  if DEBUG && negb (rounding =? RTZ) then Stop AssertionFailed
  else
    match fpclassify binary64 x with
    | FP_INFINITE | FP_NAN | FP_ZERO | FP_SUBNORMAL => Ok 0
    | FP_NORMAL =>
        let biased_exp := (x .& 0x7FF0000000000000) >> 52 in
        let exponent := biased_exp - 0x3FF - 52 in
        let significand := x .& 0x000FFFFFFFFFFFFF in
        let significand := significand + 0x0010000000000000 in
        let significand := if flt binary64 x (of_int binary64 0) then - significand else significand in
        if 0 <=? exponent then
          if 64 <=? exponent then Ok 0 else Ok (s32 (s64 (significand << exponent)))
        else if exponent <=? -64 then Ok (s32 (significand >> 63))
        else Ok (s32 (significand >> (- exponent)))
    end.

(** ** Arithmetic *)

Section Arithmetic.
Context (host_nan : Format -> list Z -> Z) (f : Format).

(** The result of an operation on [args]. *)
Definition result (args : list Z) (v : spec_float) : Z := encode f (host_nan f args) v.

Definition fadd (x y : Z) : Z := result [x; y] (SFadd (precision f) (max_exponent f) (decode f x) (decode f y)).
Definition fsub (x y : Z) : Z := result [x; y] (SFsub (precision f) (max_exponent f) (decode f x) (decode f y)).
Definition fmul (x y : Z) : Z := result [x; y] (SFmul (precision f) (max_exponent f) (decode f x) (decode f y)).
Definition fdiv (x y : Z) : Z := result [x; y] (SFdiv (precision f) (max_exponent f) (decode f x) (decode f y)).
Definition fsqrt (x : Z) : Z := result [x] (SFsqrt (precision f) (max_exponent f) (decode f x)).

(** [std::fma]: the exact product and sum, rounded once. *)
Definition SFfma (x y z : spec_float) : spec_float :=
  let product_sign := fun s t => xorb s t in
  match x, y with
  | S754_nan, _ | _, S754_nan => S754_nan
  | S754_infinity _, S754_zero _ | S754_zero _, S754_infinity _ => S754_nan
  | S754_infinity s, S754_infinity t | S754_infinity s, S754_finite t _ _ | S754_finite s _ _, S754_infinity t =>
      SFadd (precision f) (max_exponent f) (S754_infinity (product_sign s t)) z
  | S754_zero s, S754_zero t | S754_zero s, S754_finite t _ _ | S754_finite s _ _, S754_zero t =>
      SFadd (precision f) (max_exponent f) (S754_zero (product_sign s t)) z
  | S754_finite s m e, S754_finite t n g =>
      let ps := product_sign s t in
      match z with
      | S754_nan => S754_nan
      | S754_infinity _ => z
      | S754_zero _ => binary_round (precision f) (max_exponent f) ps (m * n) (e + g)
      | S754_finite u k h =>
          let ez := Z.min (e + g) h in
          binary_normalize (precision f) (max_exponent f)
            (cond_Zopp ps (Zpos (m * n) * 2 ^ (e + g - ez)) + cond_Zopp u (Zpos k * 2 ^ (h - ez))) ez false
      end
  end.
Definition fma (x y z : Z) : Z := result [x; y; z] (SFfma (decode f x) (decode f y) (decode f z)).

(** [static_cast<U>(x)] between the formats. *)
Definition convert (g : Format) (x : Z) : Z :=
  encode g (host_nan g [x])
    match decode f x with
    | S754_finite s m e => binary_round (precision g) (max_exponent g) s m e
    | v => v
    end.
End Arithmetic.
