(* ===== verification/RvSimulator.v ===== *)
(** * The RISC-V simulator ([vm/simulator_riscv.{h,cc}], [XLEN = 64])

    The state of class [Simulator] as a record, and one definition per
    [Interpret*] function: the integer, compressed, floating-point, atomic,
    control-register, may-be-operation, shadow-stack and vector instructions,
    and the calls into the runtime.  A register is a [uintx_t]; a
    floating-point register is the 64 bits of its [double].

    A handler returns the new state or the reason execution stops
    ([Outcome.v]).  What lies outside is an argument ([Platform]): whether the
    build is a DEBUG one, whether a [compare_exchange_weak] of the host fails
    spuriously, which NaN the host computes, the [Redirection] object an ECALL
    instruction is part of, and what the C++ function it redirects to does. *)

From Stdlib Require Import ZArith Bool List String.
From S2P Require Import Prelude Utils RvEncoding RvAlu SimMemory Random Outcome RvFloat.
Import ListNotations.
Open Scope Z_scope.

Definition VLEN : Z := 128.

Record Simulator := mkSimulator {
  pc_ : Z;
  xregs_ : Z -> Z;
  instret_ : Z;
  reserved_address_ : Z;
  reserved_value_ : Z;
  fregs_ : Z -> Z;
  fcsr_ : Z;
  lp_enabled_ : bool;
  ss_enabled_ : bool;
  ssp_ : Z;
  vregs_ : Host;          (** [vregs_] as one array of bytes, [VLEN / 8] per register *)
  vl_ : Z;
  vtype_ : Z;
  stack_base_ : Z;
  random_ : Z;            (** [random_.state_] *)
  memory_ : SimulatorMemory
}.

(** ** Field updates *)

Definition with_pc (s : Simulator) (x : Z) : Simulator :=
  mkSimulator x (xregs_ s) (instret_ s) (reserved_address_ s) (reserved_value_ s) (fregs_ s) (fcsr_ s)
    (lp_enabled_ s) (ss_enabled_ s) (ssp_ s) (vregs_ s) (vl_ s) (vtype_ s) (stack_base_ s) (random_ s) (memory_ s).
Definition with_xregs (s : Simulator) (x : Z -> Z) : Simulator :=
  mkSimulator (pc_ s) x (instret_ s) (reserved_address_ s) (reserved_value_ s) (fregs_ s) (fcsr_ s)
    (lp_enabled_ s) (ss_enabled_ s) (ssp_ s) (vregs_ s) (vl_ s) (vtype_ s) (stack_base_ s) (random_ s) (memory_ s).
Definition with_instret (s : Simulator) (x : Z) : Simulator :=
  mkSimulator (pc_ s) (xregs_ s) x (reserved_address_ s) (reserved_value_ s) (fregs_ s) (fcsr_ s)
    (lp_enabled_ s) (ss_enabled_ s) (ssp_ s) (vregs_ s) (vl_ s) (vtype_ s) (stack_base_ s) (random_ s) (memory_ s).
Definition with_reserved (s : Simulator) (a v : Z) : Simulator :=
  mkSimulator (pc_ s) (xregs_ s) (instret_ s) a v (fregs_ s) (fcsr_ s)
    (lp_enabled_ s) (ss_enabled_ s) (ssp_ s) (vregs_ s) (vl_ s) (vtype_ s) (stack_base_ s) (random_ s) (memory_ s).
Definition with_fregs (s : Simulator) (x : Z -> Z) : Simulator :=
  mkSimulator (pc_ s) (xregs_ s) (instret_ s) (reserved_address_ s) (reserved_value_ s) x (fcsr_ s)
    (lp_enabled_ s) (ss_enabled_ s) (ssp_ s) (vregs_ s) (vl_ s) (vtype_ s) (stack_base_ s) (random_ s) (memory_ s).
Definition with_ssp (s : Simulator) (x : Z) : Simulator :=
  mkSimulator (pc_ s) (xregs_ s) (instret_ s) (reserved_address_ s) (reserved_value_ s) (fregs_ s) (fcsr_ s)
    (lp_enabled_ s) (ss_enabled_ s) x (vregs_ s) (vl_ s) (vtype_ s) (stack_base_ s) (random_ s) (memory_ s).
Definition with_vregs (s : Simulator) (x : Host) : Simulator :=
  mkSimulator (pc_ s) (xregs_ s) (instret_ s) (reserved_address_ s) (reserved_value_ s) (fregs_ s) (fcsr_ s)
    (lp_enabled_ s) (ss_enabled_ s) (ssp_ s) x (vl_ s) (vtype_ s) (stack_base_ s) (random_ s) (memory_ s).
Definition with_vl (s : Simulator) (l t : Z) : Simulator :=
  mkSimulator (pc_ s) (xregs_ s) (instret_ s) (reserved_address_ s) (reserved_value_ s) (fregs_ s) (fcsr_ s)
    (lp_enabled_ s) (ss_enabled_ s) (ssp_ s) (vregs_ s) l t (stack_base_ s) (random_ s) (memory_ s).
Definition with_random (s : Simulator) (x : Z) : Simulator :=
  mkSimulator (pc_ s) (xregs_ s) (instret_ s) (reserved_address_ s) (reserved_value_ s) (fregs_ s) (fcsr_ s)
    (lp_enabled_ s) (ss_enabled_ s) (ssp_ s) (vregs_ s) (vl_ s) (vtype_ s) (stack_base_ s) x (memory_ s).
Definition with_memory (s : Simulator) (x : SimulatorMemory) : Simulator :=
  mkSimulator (pc_ s) (xregs_ s) (instret_ s) (reserved_address_ s) (reserved_value_ s) (fregs_ s) (fcsr_ s)
    (lp_enabled_ s) (ss_enabled_ s) (ssp_ s) (vregs_ s) (vl_ s) (vtype_ s) (stack_base_ s) (random_ s) x.

(** ** Registers *)

Definition update (f : Z -> Z) (i x : Z) : Z -> Z := fun j => if j =? i then x else f j.

Definition get_xreg (s : Simulator) (rs : Z) : Z := xregs_ s rs.
Definition set_xreg (s : Simulator) (rd value : Z) : Simulator :=
  if negb (rd =? ZR) then with_xregs s (update (xregs_ s) rd (u64 value)) else s.

Definition kNaNBox : Z := 0xFFFFFFFF00000000.
Definition get_fregd (s : Simulator) (rs : Z) : Z := fregs_ s rs.
Definition set_fregd (s : Simulator) (rd bits64 : Z) : Simulator := with_fregs s (update (fregs_ s) rd (u64 bits64)).
Definition get_fregs_raw (s : Simulator) (rs : Z) : Z := u32 (fregs_ s rs).
Definition get_fregs (s : Simulator) (rs : Z) : Z :=
  let bits64 := fregs_ s rs in
  if negb ((bits64 .& kNaNBox) =? kNaNBox) then 0x7fc00000 else u32 bits64.
Definition set_fregs (s : Simulator) (rd bits32 : Z) : Simulator :=
  with_fregs s (update (fregs_ s) rd (u32 bits32 .| kNaNBox)).

(** [pc_ += k]. *)
Definition advance (s : Simulator) (k : Z) : Simulator := with_pc s (u64 (pc_ s + k)).

(** A value of type [T], [n] bytes wide. *)
Definition as_type (signed : bool) (n v : Z) : Z := if signed then sN (8 * n) v else uN (8 * n) v.

(** ** Calls into the runtime: class [Redirection] and [Simulator::CallKind] *)

Inductive CallKind := kRuntimeCall | kLeafRuntimeCall | kLeafFloatRuntimeCall | kNativeCallWrapper.

Record Redirection := mkRedirection {
  external_function_ : Z;
  call_kind_ : CallKind;
  argument_count_ : Z
}.

(** What a C++ function called by simulated code does: it returns, with the
    state it leaves (it may have run simulated code itself) and its result, or
    an exception unwinds to a frame of simulated code ([JumpToFrame]). *)
Inductive HostCall :=
  | Returns (s : Simulator) (res : Z)
  | Throws (s : Simulator).

Record Platform := mkPlatform {
  DEBUG : bool;
  cas_failures : Simulator -> nat;   (** spurious failures before [compare_exchange_weak] succeeds *)
  host_nan : Format -> list Z -> Z;  (** the NaN an operation on these operands computes *)
  FromECallInstruction : Simulator -> Redirection;   (** the object around the instruction at [pc_] *)
  call_host : Redirection -> list Z -> Simulator -> HostCall
}.

Section Interpreter.
Context (P : Platform).

(** ** Memory *)

Definition kPageSize : Z := 16 * 1024.

(** The DEBUG checks of [MemoryRead] and [MemoryWrite]. *)
Definition CheckAccess (s : Simulator) (n addr base : Z) : option stop :=
  if negb (DEBUG P) then None
  else if (base =? SP) || (base =? FP) then
    if (u64 (addr + n) >? stack_base_ s) || (addr <? get_xreg s SP)
    then Some (Fault "Out-of-bounds stack access") else None
  else
    if (addr <? kPageSize) || (u64 (addr + n) >=? u64 (Z.lnot kPageSize))
    then Some (Fault "Bad memory access") else None.

Definition MemoryRead (signed : bool) (n : Z) (s : Simulator) (addr base : Z) : outcome (Z * Simulator) :=
  match CheckAccess s n addr base with
  | Some r => Stop r
  | None => let '(v, m) := Memory.Load n (memory_ s) addr in Ok (as_type signed n v, with_memory s m)
  end.

Definition MemoryWrite (n : Z) (s : Simulator) (addr value base : Z) : outcome Simulator :=
  match CheckAccess s n addr base with
  | Some r => Stop r
  | None => match Memory.Store n (memory_ s) addr value with
            | Some m => Ok (with_memory s m)
            | None => Stop OutOfBounds
            end
  end.

(** [set_xreg(rd, MemoryRead<T>(addr, base))]. *)
Definition load_xreg (signed : bool) (n : Z) (s : Simulator) (rd addr base : Z) : outcome Simulator :=
  let! (v, s) := MemoryRead signed n s addr base in Ok (set_xreg s rd v).

Definition CheckLandingPad (s : Simulator) (rs1 : Z) : outcome Simulator :=
  if negb (lp_enabled_ s) then Ok s
  else if (rs1 =? 1) || (rs1 =? 5) || (rs1 =? 7) then Ok s
  else if negb ((pc_ s .& 3) =? 0) then Stop (Fault "Landing pad misaligned")
  else
    let instr := LoadLE 4 (host (memory_ s)) (pc_ s) in
    if negb (Instr.opcode instr =? AUIPC) || negb (Instr.rd instr =? ZR)
    then Stop (Fault "Landing pad expected")
    else
      let label := u64 (Instr.utype_imm instr) in
      if negb (label =? 0) && negb (((label .^ get_xreg s 7) .& 0xFFFFF000) =? 0)
      then Stop (Fault "Landing pad mismatch")
      else Ok s.

(** ** Compressed instructions *)

(** The [C_MISCALU] group. *)
Definition InterpretC_MISCALU (s : Simulator) (instr : Z) : outcome Simulator :=
  let rs1p := CInstr.rs1p instr in
  let rs2p := CInstr.rs2p instr in
  let a := get_xreg s rs1p in
  let b := get_xreg s rs2p in
  let sub := instr .& C_MISCALU_MASK in
  if sub =? C_SRLI then
    if CInstr.shamt instr >=? XLEN then Stop (IllegalInstruction instr)
    else Ok (set_xreg s rs1p (a >> CInstr.shamt instr))
  else if sub =? C_SRAI then
    if CInstr.shamt instr >=? XLEN then Stop (IllegalInstruction instr)
    else Ok (set_xreg s rs1p (s64 a >> CInstr.shamt instr))
  else if sub =? C_ANDI then Ok (set_xreg s rs1p (a .& u64 (CInstr.i_imm instr)))
  else if sub =? C_RR then
    let rr := instr .& C_RR_MASK in
    if rr =? C_AND then Ok (set_xreg s rs1p (a .& b))
    else if rr =? C_OR then Ok (set_xreg s rs1p (a .| b))
    else if rr =? C_XOR then Ok (set_xreg s rs1p (a .^ b))
    else if rr =? C_SUB then Ok (set_xreg s rs1p (a - b))
    else if rr =? C_ADDW then Ok (set_xreg s rs1p (sign_extend 32 (u32 (u32 a + u32 b))))
    else if rr =? C_SUBW then Ok (set_xreg s rs1p (sign_extend 32 (u32 (u32 a - u32 b))))
    else if rr =? C_MUL then Ok (set_xreg s rs1p (mul (s64 a) (s64 b)))
    else if rr =? C_EXT then
      let ext := instr .& C_EXT_MASK in
      if ext =? C_ZEXTB then Ok (set_xreg s rs1p (zextb a))
      else if ext =? C_SEXTB then Ok (set_xreg s rs1p (sextb a))
      else if ext =? C_ZEXTH then Ok (set_xreg s rs1p (zexth a))
      else if ext =? C_SEXTH then Ok (set_xreg s rs1p (sexth a))
      else if ext =? C_ZEXTW then Ok (set_xreg s rs1p (zextw a))
      else if ext =? C_NOT then Ok (set_xreg s rs1p (u64 (Z.lnot a)))
      else Stop (IllegalInstruction instr)
    else Stop (IllegalInstruction instr)
  else Stop (IllegalInstruction instr).

(** The [C_LUI] group: addi16sp, lui and the may-be-operations. *)
Definition InterpretC_LUI (s : Simulator) (instr : Z) : outcome Simulator :=
  if CInstr.rd instr =? SP then
    if CInstr.i16_imm instr =? 0 then Stop (IllegalInstruction instr)
    else Ok (set_xreg s (CInstr.rd instr) (get_xreg s (CInstr.rs1 instr) + sign_extend 64 (CInstr.i16_imm instr)))
  else if negb (CInstr.rd instr =? ZR) && negb (CInstr.u_imm instr =? 0) then
    Ok (set_xreg s (CInstr.rd instr) (sign_extend 64 (CInstr.u_imm instr)))
  else if instr =? C_SSPUSH then
    if ss_enabled_ s then
      let ra := get_xreg s 1 in
      let s := with_ssp s (u64 (ssp_ s - 8)) in
      MemoryWrite 8 s (ssp_ s) ra ZR
    else Ok s
  else if instr =? C_SSPOPCHK then
    if ss_enabled_ s then
      let! (ra, s) := MemoryRead false 8 s (ssp_ s) ZR in
      let s := with_ssp s (u64 (ssp_ s + 8)) in
      if negb (ra =? get_xreg s 5) then Stop (Fault "Corrupt control flow") else Ok s
    else Ok s
  else if (instr .& C_MOP_MASK) =? C_MOP then Ok s
  else Stop (IllegalInstruction instr).

(** The byte and halfword accesses of Zcb. *)
Definition InterpretC_LBU (s : Simulator) (instr : Z) : outcome Simulator :=
  let rs1p := CInstr.rs1p instr in
  let base := get_xreg s rs1p in
  let sub := instr .& 0xFC03 in
  if sub =? C_LBU then load_xreg false 1 s (CInstr.rdp instr) (u64 (base + CInstr.mem1_imm instr)) rs1p
  else if sub =? C_LHU then
    let addr := u64 (base + CInstr.mem2_imm instr) in
    if (instr .& 0x40) =? 0
    then load_xreg false 2 s (CInstr.rdp instr) addr rs1p
    else load_xreg true 2 s (CInstr.rdp instr) addr rs1p
  else if sub =? C_SB then
    MemoryWrite 1 s (u64 (base + CInstr.mem1_imm instr)) (get_xreg s (CInstr.rs2p instr)) rs1p
  else if sub =? C_SH then
    MemoryWrite 2 s (u64 (base + CInstr.mem2_imm instr)) (get_xreg s (CInstr.rs2p instr)) rs1p
  else Stop (IllegalInstruction instr).

(** The [C_JR] group: jumps through a register, moves and additions.  [inl] leaves
    the [switch] (the pc is advanced after it), [inr] returns. *)
Definition InterpretC_JR (s : Simulator) (instr : Z) : outcome (Simulator + Simulator) :=
  let rs1 := CInstr.rs1 instr in
  let rs2 := CInstr.rs2 instr in
  if negb ((instr .& (C_JALR .^ C_JR)) =? 0) then
    if (rs1 =? ZR) && (rs2 =? ZR) then Stop (Fault "EBREAK")
    else if rs2 =? ZR then
      let target := get_xreg s rs1 in
      let s := set_xreg s RA (pc_ s + CInstr.length) in
      let! s := CheckLandingPad (with_pc s target) rs1 in Ok (inr s)
    else Ok (inl (set_xreg s (CInstr.rd instr) (get_xreg s rs1 + get_xreg s rs2)))
  else
    if negb (CInstr.rd instr =? ZR) && negb (rs2 =? ZR) then
      Ok (inl (set_xreg s (CInstr.rd instr) (get_xreg s rs2)))
    else if negb (rs2 =? ZR) then Stop (IllegalInstruction instr)
    else let! s := CheckLandingPad (with_pc s (get_xreg s rs1)) rs1 in Ok (inr s).

(** A handler that leaves the [switch]: the common [pc_ += instr.length()]. *)
Definition then_advance (r : outcome Simulator) (k : Z) : outcome Simulator :=
  let! s := r in Ok (advance s k).

Definition Interpret_C (s : Simulator) (instr : Z) : outcome Simulator :=
  let op := CInstr.opcode instr in
  let sp := get_xreg s SP in
  let rs1p := CInstr.rs1p instr in
  let base := get_xreg s rs1p in
  let next := fun r => then_advance r CInstr.length in
  if op =? C_LWSP then next (load_xreg true 4 s (CInstr.rd instr) (u64 (sp + CInstr.spload4_imm instr)) SP)
  else if op =? C_LDSP then next (load_xreg true 8 s (CInstr.rd instr) (u64 (sp + CInstr.spload8_imm instr)) SP)
  else if op =? C_FLDSP then
    next (let! (v, s) := MemoryRead false 8 s (u64 (sp + CInstr.spload8_imm instr)) SP in
          Ok (set_fregd s (CInstr.frd instr) v))
  else if op =? C_SWSP then
    next (MemoryWrite 4 s (u64 (sp + CInstr.spstore4_imm instr)) (get_xreg s (CInstr.rs2 instr)) SP)
  else if op =? C_SDSP then
    next (MemoryWrite 8 s (u64 (sp + CInstr.spstore8_imm instr)) (get_xreg s (CInstr.rs2 instr)) SP)
  else if op =? C_FSDSP then
    next (MemoryWrite 8 s (u64 (sp + CInstr.spstore8_imm instr)) (get_fregd s (CInstr.frs2 instr)) SP)
  else if op =? C_LW then next (load_xreg true 4 s (CInstr.rdp instr) (u64 (base + CInstr.mem4_imm instr)) rs1p)
  else if op =? C_LD then next (load_xreg true 8 s (CInstr.rdp instr) (u64 (base + CInstr.mem8_imm instr)) rs1p)
  else if op =? C_FLD then
    next (let! (v, s) := MemoryRead false 8 s (u64 (base + CInstr.mem8_imm instr)) rs1p in
          Ok (set_fregd s (CInstr.frdp instr) v))
  else if op =? C_SW then
    next (MemoryWrite 4 s (u64 (base + CInstr.mem4_imm instr)) (get_xreg s (CInstr.rs2p instr)) rs1p)
  else if op =? C_SD then
    next (MemoryWrite 8 s (u64 (base + CInstr.mem8_imm instr)) (get_xreg s (CInstr.rs2p instr)) rs1p)
  else if op =? C_FSD then
    next (MemoryWrite 8 s (u64 (base + CInstr.mem8_imm instr)) (get_fregd s (CInstr.frs2p instr)) rs1p)
  else if op =? C_J then Ok (advance s (sign_extend 32 (s32 (CInstr.j_imm instr))))
  else if op =? C_JR then
    let! r := InterpretC_JR s instr in
    match r with inl s => Ok (advance s CInstr.length) | inr s => Ok s end
  else if op =? C_BEQZ then
    if base =? 0 then Ok (advance s (CInstr.b_imm instr)) else next (Ok s)
  else if op =? C_BNEZ then
    if negb (base =? 0) then Ok (advance s (CInstr.b_imm instr)) else next (Ok s)
  else if op =? C_LI then
    next (if CInstr.rd instr =? ZR then Stop (IllegalInstruction instr)
          else Ok (set_xreg s (CInstr.rd instr) (sign_extend 64 (CInstr.i_imm instr))))
  else if op =? C_LUI then next (InterpretC_LUI s instr)
  else if op =? C_ADDI then
    next (Ok (set_xreg s (CInstr.rd instr) (get_xreg s (CInstr.rs1 instr) + CInstr.i_imm instr)))
  else if op =? C_ADDIW then
    next (let a := u32 (get_xreg s (CInstr.rs1 instr)) in
          let b := u32 (CInstr.i_imm instr) in
          Ok (set_xreg s (CInstr.rd instr) (sign_extend 32 (u32 (a + b)))))
  else if op =? C_ADDI4SPN then
    next (if CInstr.i4spn_imm instr =? 0 then Stop (IllegalInstruction instr)
          else Ok (set_xreg s (CInstr.rdp instr) (sp + CInstr.i4spn_imm instr)))
  else if op =? C_SLLI then
    next (if CInstr.rd instr =? ZR then Stop (IllegalInstruction instr)
          else Ok (set_xreg s (CInstr.rd instr) (get_xreg s (CInstr.rs1 instr) << CInstr.shamt instr)))
  else if op =? C_MISCALU then next (InterpretC_MISCALU s instr)
  else if op =? C_LBU then next (InterpretC_LBU s instr)
  else Stop (IllegalInstruction instr).

(** ** 32-bit instructions *)

(** [set_xreg(instr.rd(), value); pc_ += instr.length()]. *)
Definition write_rd (s : Simulator) (instr value : Z) : outcome Simulator :=
  Ok (advance (set_xreg s (Instr.rd instr) value) Instr.length).

Definition InterpretLUI (s : Simulator) (instr : Z) : outcome Simulator :=
  write_rd s instr (sign_extend 64 (Instr.utype_imm instr)).

Definition InterpretAUIPC (s : Simulator) (instr : Z) : outcome Simulator :=
  write_rd s instr (pc_ s + sign_extend 64 (Instr.utype_imm instr)).

Definition InterpretJAL (s : Simulator) (instr : Z) : outcome Simulator :=
  let s := set_xreg s (Instr.rd instr) (pc_ s + Instr.length) in
  Ok (advance s (sign_extend 64 (Instr.jtype_imm instr))).

Definition InterpretJALR (s : Simulator) (instr : Z) : outcome Simulator :=
  let base := get_xreg s (Instr.rs1 instr) in
  let offset := u64 (Instr.itype_imm instr) in
  let s := set_xreg s (Instr.rd instr) (pc_ s + Instr.length) in
  CheckLandingPad (with_pc s (u64 (base + offset))) (Instr.rs1 instr).

Definition branch (s : Simulator) (instr : Z) (taken : bool) : outcome Simulator :=
  Ok (advance s (if taken then Instr.btype_imm instr else Instr.length)).

Definition InterpretBRANCH (s : Simulator) (instr : Z) : outcome Simulator :=
  let a := get_xreg s (Instr.rs1 instr) in
  let b := get_xreg s (Instr.rs2 instr) in
  let f := Instr.funct3 instr in
  if f =? BEQ then branch s instr (a =? b)
  else if f =? BNE then branch s instr (negb (a =? b))
  else if f =? BLT then branch s instr (s64 a <? s64 b)
  else if f =? BGE then branch s instr (s64 a >=? s64 b)
  else if f =? BLTU then branch s instr (a <? b)
  else if f =? BGEU then branch s instr (a >=? b)
  else Stop (IllegalInstruction instr).

Definition InterpretLOAD (s : Simulator) (instr : Z) : outcome Simulator :=
  let rs1 := Instr.rs1 instr in
  let addr := u64 (get_xreg s rs1 + Instr.itype_imm instr) in
  let f := Instr.funct3 instr in
  then_advance
    (if f =? LB then load_xreg true 1 s (Instr.rd instr) addr rs1
     else if f =? LH then load_xreg true 2 s (Instr.rd instr) addr rs1
     else if f =? LW then load_xreg true 4 s (Instr.rd instr) addr rs1
     else if f =? LBU then load_xreg false 1 s (Instr.rd instr) addr rs1
     else if f =? LHU then load_xreg false 2 s (Instr.rd instr) addr rs1
     else if f =? LWU then load_xreg false 4 s (Instr.rd instr) addr rs1
     else if f =? LD then load_xreg true 8 s (Instr.rd instr) addr rs1
     else Stop (IllegalInstruction instr)) Instr.length.

(** Vector registers: element [i] of type [T] from register [v] on. *)
Definition kVectorBytes : Z := 32 * (VLEN / 8).
Definition vreg_offset (n v i : Z) : Z := v * (VLEN / 8) + i * n.
Definition get_vreg (n : Z) (s : Simulator) (v i : Z) : outcome Z :=
  let o := vreg_offset n v i in
  if o + n <=? kVectorBytes then Ok (LoadLE (Z.to_nat n) (vregs_ s) o) else Stop OutOfBounds.
Definition set_vreg (n : Z) (s : Simulator) (v i x : Z) : outcome Simulator :=
  let o := vreg_offset n v i in
  if o + n <=? kVectorBytes then Ok (with_vregs s (StoreLE n (vregs_ s) o x)) else Stop OutOfBounds.

(** [for (uintx_t i = 0; i < vl_; i++)]: [k] iterations from [i]. *)
Fixpoint for_elements (k : nat) (i : Z) (body : Simulator -> Z -> outcome Simulator) (s : Simulator)
  : outcome Simulator :=
  match k with
  | O => Ok s
  | S k => let! s := body s i in for_elements k (i + 1) body s
  end.

Definition InterpretLOADV (n : Z) (s : Simulator) (instr : Z) : outcome Simulator :=
  if negb ((instr .& 0xFFF00000) =? 0x02000000) then Stop UNIMPLEMENTED
  else
    let base := get_xreg s (Instr.rs1 instr) in
    for_elements (Z.to_nat (vl_ s)) 0 (fun s i =>
      let! (v, s) := MemoryRead false n s (u64 (base + i * n)) (Instr.rs1 instr) in
      set_vreg n s (Instr.vd instr) i v) s.

Definition InterpretSTOREV (n : Z) (s : Simulator) (instr : Z) : outcome Simulator :=
  if negb ((instr .& 0xFFF00000) =? 0x02000000) then Stop UNIMPLEMENTED
  else
    let base := get_xreg s (Instr.rs1 instr) in
    for_elements (Z.to_nat (vl_ s)) 0 (fun s i =>
      let! v := get_vreg n s (Instr.vs3 instr) i in
      MemoryWrite n s (u64 (base + i * n)) v (Instr.rs1 instr)) s.

Definition InterpretLOADFP (s : Simulator) (instr : Z) : outcome Simulator :=
  let rs1 := Instr.rs1 instr in
  let addr := u64 (get_xreg s rs1 + Instr.itype_imm instr) in
  let f := Instr.funct3 instr in
  then_advance
    (if f =? S_ then let! (v, s) := MemoryRead false 4 s addr rs1 in Ok (set_fregs s (Instr.frd instr) v)
     else if f =? D_ then let! (v, s) := MemoryRead false 8 s addr rs1 in Ok (set_fregd s (Instr.frd instr) v)
     else if f =? E8 then InterpretLOADV 1 s instr
     else if f =? E16 then InterpretLOADV 2 s instr
     else if f =? E32 then InterpretLOADV 4 s instr
     else if f =? E64 then InterpretLOADV 8 s instr
     else Stop (IllegalInstruction instr)) Instr.length.

Definition InterpretSTORE (s : Simulator) (instr : Z) : outcome Simulator :=
  let rs1 := Instr.rs1 instr in
  let addr := u64 (get_xreg s rs1 + Instr.stype_imm instr) in
  let v := get_xreg s (Instr.rs2 instr) in
  let f := Instr.funct3 instr in
  then_advance
    (if f =? SB then MemoryWrite 1 s addr v rs1
     else if f =? SH then MemoryWrite 2 s addr v rs1
     else if f =? SW then MemoryWrite 4 s addr v rs1
     else if f =? SD then MemoryWrite 8 s addr v rs1
     else Stop (IllegalInstruction instr)) Instr.length.

Definition InterpretSTOREFP (s : Simulator) (instr : Z) : outcome Simulator :=
  let rs1 := Instr.rs1 instr in
  let addr := u64 (get_xreg s rs1 + Instr.stype_imm instr) in
  let f := Instr.funct3 instr in
  then_advance
    (if f =? S_ then MemoryWrite 4 s addr (get_fregs s (Instr.frs2 instr)) rs1
     else if f =? D_ then MemoryWrite 8 s addr (get_fregd s (Instr.frs2 instr)) rs1
     else if f =? E8 then InterpretSTOREV 1 s instr
     else if f =? E16 then InterpretSTOREV 2 s instr
     else if f =? E32 then InterpretSTOREV 4 s instr
     else if f =? E64 then InterpretSTOREV 8 s instr
     else Stop (IllegalInstruction instr)) Instr.length.

Definition InterpretOPIMM (s : Simulator) (instr : Z) : outcome Simulator :=
  let a := get_xreg s (Instr.rs1 instr) in
  let imm := Instr.itype_imm instr in
  let shamt := Instr.shamt instr in
  let f := Instr.funct3 instr in
  let f7 := Instr.funct7 instr in
  if f =? ADDI then write_rd s instr (a + imm)
  else if f =? SLTI then write_rd s instr (if s64 a <? imm then 1 else 0)
  else if f =? SLTIU then write_rd s instr (if a <? u64 imm then 1 else 0)
  else if f =? XORI then write_rd s instr (a .^ u64 imm)
  else if f =? ORI then write_rd s instr (a .| u64 imm)
  else if f =? ANDI then write_rd s instr (a .& u64 imm)
  else if f =? SLLI then
    if f7 =? COUNT then
      if shamt =? 0 then write_rd s instr (clz a)
      else if shamt =? 1 then write_rd s instr (ctz a)
      else if shamt =? 2 then write_rd s instr (cpop a)
      else if shamt =? 4 then write_rd s instr (sextb a)
      else if shamt =? 5 then write_rd s instr (sexth a)
      else Stop (IllegalInstruction instr)
    else if (f7 .& 0x7E) =? BCLRBEXT then write_rd s instr (bclr a shamt)
    else if (f7 .& 0x7E) =? BINV then write_rd s instr (binv a shamt)
    else if (f7 .& 0x7E) =? BSET then write_rd s instr (bset a shamt)
    else write_rd s instr (a << shamt)
  else if f =? SRI then
    if (f7 .& 0x7E) =? SRA then write_rd s instr (s64 a >> shamt)
    else if (f7 .& 0x7E) =? ROTATE then write_rd s instr (ror a shamt)
    else if f7 =? 0x14 then write_rd s instr (orcb a)
    else if f7 =? 0x35 then write_rd s instr (rev8 a)
    else if (f7 .& 0x7E) =? BCLRBEXT then write_rd s instr (bext a shamt)
    else write_rd s instr (a >> shamt)
  else Stop (IllegalInstruction instr).

Definition InterpretOPIMM32 (s : Simulator) (instr : Z) : outcome Simulator :=
  let a := get_xreg s (Instr.rs1 instr) in
  let shamt := Instr.shamt instr in
  let f := Instr.funct3 instr in
  let f7 := Instr.funct7 instr in
  if f =? ADDI then write_rd s instr (sign_extend 32 (u32 (u32 a + u32 (Instr.itype_imm instr))))
  else if f =? SLLI then
    if f7 =? SLLIUW then write_rd s instr (u32 a << shamt)
    else if f7 =? COUNT then
      if shamt =? 0 then write_rd s instr (clzw (u32 a))
      else if shamt =? 1 then write_rd s instr (ctzw (u32 a))
      else if shamt =? 2 then write_rd s instr (cpopw (u32 a))
      else Stop (IllegalInstruction instr)
    else write_rd s instr (sign_extend 32 (u32 (u32 a << shamt)))
  else if f =? SRI then
    if f7 =? SRA then write_rd s instr (sign_extend 32 (s32 a >> shamt))
    else if f7 =? ROTATE then write_rd s instr (rorw a shamt)
    else write_rd s instr (sign_extend 32 (u32 a >> shamt))
  else Stop (IllegalInstruction instr).

Definition InterpretOP_0 (s : Simulator) (instr : Z) : outcome Simulator :=
  let a := get_xreg s (Instr.rs1 instr) in
  let b := get_xreg s (Instr.rs2 instr) in
  let shamt := b .& (XLEN - 1) in
  let f := Instr.funct3 instr in
  if f =? ADD then write_rd s instr (a + b)
  else if f =? SLL then write_rd s instr (a << shamt)
  else if f =? SLT then write_rd s instr (if s64 a <? s64 b then 1 else 0)
  else if f =? SLTU then write_rd s instr (if a <? b then 1 else 0)
  else if f =? XOR then write_rd s instr (a .^ b)
  else if f =? SR then write_rd s instr (a >> shamt)
  else if f =? OR then write_rd s instr (a .| b)
  else if f =? AND then write_rd s instr (a .& b)
  else Stop (IllegalInstruction instr).

Definition InterpretOP_MULDIV (s : Simulator) (instr : Z) : outcome Simulator :=
  let a := get_xreg s (Instr.rs1 instr) in
  let b := get_xreg s (Instr.rs2 instr) in
  let f := Instr.funct3 instr in
  if f =? MUL then write_rd s instr (mul (s64 a) (s64 b))
  else if f =? MULH then write_rd s instr (mulh (s64 a) (s64 b))
  else if f =? MULHSU then write_rd s instr (mulhsu (s64 a) b)
  else if f =? MULHU then write_rd s instr (mulhu a b)
  else if f =? DIV then write_rd s instr (div (s64 a) (s64 b))
  else if f =? DIVU then write_rd s instr (divu a b)
  else if f =? REM then write_rd s instr (rem (s64 a) (s64 b))
  else if f =? REMU then write_rd s instr (remu a b)
  else Stop (IllegalInstruction instr).

Definition InterpretOP_SUB (s : Simulator) (instr : Z) : outcome Simulator :=
  let a := get_xreg s (Instr.rs1 instr) in
  let b := get_xreg s (Instr.rs2 instr) in
  let f := Instr.funct3 instr in
  if f =? ADD then write_rd s instr (a - b)
  else if f =? SR then write_rd s instr (s64 a >> (b .& (XLEN - 1)))
  else if f =? AND then write_rd s instr (a .& u64 (Z.lnot b))
  else if f =? OR then write_rd s instr (a .| u64 (Z.lnot b))
  else if f =? XOR then write_rd s instr (a .^ u64 (Z.lnot b))
  else Stop (IllegalInstruction instr).

Definition InterpretOP_SHADD (s : Simulator) (instr : Z) : outcome Simulator :=
  let a := get_xreg s (Instr.rs1 instr) in
  let b := get_xreg s (Instr.rs2 instr) in
  let f := Instr.funct3 instr in
  if f =? SH1ADD then write_rd s instr (u64 (a << 1) + b)
  else if f =? SH2ADD then write_rd s instr (u64 (a << 2) + b)
  else if f =? SH3ADD then write_rd s instr (u64 (a << 3) + b)
  else Stop (IllegalInstruction instr).

Definition InterpretOP_MINMAXCLMUL (s : Simulator) (instr : Z) : outcome Simulator :=
  let a := get_xreg s (Instr.rs1 instr) in
  let b := get_xreg s (Instr.rs2 instr) in
  let f := Instr.funct3 instr in
  if f =? MAX then write_rd s instr (max (s64 a) (s64 b))
  else if f =? MAXU then write_rd s instr (maxu a b)
  else if f =? MIN then write_rd s instr (min (s64 a) (s64 b))
  else if f =? MINU then write_rd s instr (minu a b)
  else if f =? CLMUL then write_rd s instr (clmul a b)
  else if f =? CLMULH then write_rd s instr (clmulh a b)
  else if f =? CLMULR then write_rd s instr (clmulr a b)
  else Stop (IllegalInstruction instr).

Definition InterpretOP_ROTATE (s : Simulator) (instr : Z) : outcome Simulator :=
  let a := get_xreg s (Instr.rs1 instr) in
  let b := get_xreg s (Instr.rs2 instr) in
  let f := Instr.funct3 instr in
  if f =? ROR then write_rd s instr (ror a b)
  else if f =? ROL then write_rd s instr (rol a b)
  else Stop (IllegalInstruction instr).

Definition InterpretOP_BCLRBEXT (s : Simulator) (instr : Z) : outcome Simulator :=
  let a := get_xreg s (Instr.rs1 instr) in
  let b := get_xreg s (Instr.rs2 instr) in
  let f := Instr.funct3 instr in
  if f =? BCLR then write_rd s instr (bclr a b)
  else if f =? BEXT then write_rd s instr (bext a b)
  else Stop (IllegalInstruction instr).

Definition InterpretOP_CZERO (s : Simulator) (instr : Z) : outcome Simulator :=
  let a := get_xreg s (Instr.rs1 instr) in
  let b := get_xreg s (Instr.rs2 instr) in
  let f := Instr.funct3 instr in
  if f =? CZEROEQZ then write_rd s instr (if b =? 0 then 0 else a)
  else if f =? CZERONEZ then write_rd s instr (if negb (b =? 0) then 0 else a)
  else Stop (IllegalInstruction instr).

Definition InterpretOP (s : Simulator) (instr : Z) : outcome Simulator :=
  let a := get_xreg s (Instr.rs1 instr) in
  let b := get_xreg s (Instr.rs2 instr) in
  let f7 := Instr.funct7 instr in
  if f7 =? 0 then InterpretOP_0 s instr
  else if f7 =? SUB then InterpretOP_SUB s instr
  else if f7 =? MULDIV then InterpretOP_MULDIV s instr
  else if f7 =? SHADD then InterpretOP_SHADD s instr
  else if f7 =? MINMAXCLMUL then InterpretOP_MINMAXCLMUL s instr
  else if f7 =? ROTATE then InterpretOP_ROTATE s instr
  else if f7 =? BCLRBEXT then InterpretOP_BCLRBEXT s instr
  else if f7 =? BINV then write_rd s instr (binv a b)
  else if f7 =? BSET then write_rd s instr (bset a b)
  else if f7 =? CZERO then InterpretOP_CZERO s instr
  else Stop (IllegalInstruction instr).

Definition InterpretOP32_0 (s : Simulator) (instr : Z) : outcome Simulator :=
  let a := u32 (get_xreg s (Instr.rs1 instr)) in
  let b := get_xreg s (Instr.rs2 instr) in
  let f := Instr.funct3 instr in
  if f =? ADD then write_rd s instr (sign_extend 32 (u32 (a + u32 b)))
  else if f =? SLL then write_rd s instr (sign_extend 32 (u32 (a << u32 (b .& (32 - 1)))))
  else if f =? SR then write_rd s instr (sign_extend 32 (a >> u32 (b .& (32 - 1))))
  else Stop (IllegalInstruction instr).

Definition InterpretOP32_SUB (s : Simulator) (instr : Z) : outcome Simulator :=
  let a := get_xreg s (Instr.rs1 instr) in
  let b := get_xreg s (Instr.rs2 instr) in
  let f := Instr.funct3 instr in
  if f =? ADD then write_rd s instr (sign_extend 32 (u32 (u32 a - u32 b)))
  else if f =? SR then write_rd s instr (sign_extend 32 (s32 a >> u32 (b .& (32 - 1))))
  else Stop (IllegalInstruction instr).

Definition InterpretOP32_MULDIV (s : Simulator) (instr : Z) : outcome Simulator :=
  let a := get_xreg s (Instr.rs1 instr) in
  let b := get_xreg s (Instr.rs2 instr) in
  let f := Instr.funct3 instr in
  if f =? MULW then write_rd s instr (sign_extend 32 (mulw (s32 a) (s32 b)))
  else if f =? DIVW then write_rd s instr (sign_extend 32 (divw (s32 a) (s32 b)))
  else if f =? DIVUW then write_rd s instr (sign_extend 32 (divuw (u32 a) (u32 b)))
  else if f =? REMW then write_rd s instr (sign_extend 32 (remw (s32 a) (s32 b)))
  else if f =? REMUW then write_rd s instr (sign_extend 32 (remuw (u32 a) (u32 b)))
  else Stop (IllegalInstruction instr).

Definition InterpretOP32_SHADD (s : Simulator) (instr : Z) : outcome Simulator :=
  let a := u32 (get_xreg s (Instr.rs1 instr)) in
  let b := get_xreg s (Instr.rs2 instr) in
  let f := Instr.funct3 instr in
  if f =? SH1ADD then write_rd s instr (u64 (a << 1) + b)
  else if f =? SH2ADD then write_rd s instr (u64 (a << 2) + b)
  else if f =? SH3ADD then write_rd s instr (u64 (a << 3) + b)
  else Stop (IllegalInstruction instr).

Definition InterpretOP32_ADDUW (s : Simulator) (instr : Z) : outcome Simulator :=
  let a := get_xreg s (Instr.rs1 instr) in
  let b := get_xreg s (Instr.rs2 instr) in
  let f := Instr.funct3 instr in
  if f =? F3_0 then write_rd s instr (u32 a + b)
  else if f =? ZEXT then write_rd s instr (zexth a)
  else Stop (IllegalInstruction instr).

Definition InterpretOP32_ROTATE (s : Simulator) (instr : Z) : outcome Simulator :=
  let a := get_xreg s (Instr.rs1 instr) in
  let b := get_xreg s (Instr.rs2 instr) in
  let f := Instr.funct3 instr in
  if f =? ROR then write_rd s instr (rorw a b)
  else if f =? ROL then write_rd s instr (rolw a b)
  else Stop (IllegalInstruction instr).

Definition InterpretOP32 (s : Simulator) (instr : Z) : outcome Simulator :=
  let f7 := Instr.funct7 instr in
  if f7 =? 0 then InterpretOP32_0 s instr
  else if f7 =? SUB then InterpretOP32_SUB s instr
  else if f7 =? MULDIV then InterpretOP32_MULDIV s instr
  else if f7 =? SHADD then InterpretOP32_SHADD s instr
  else if f7 =? ADDUW then InterpretOP32_ADDUW s instr
  else if f7 =? ROTATE then InterpretOP32_ROTATE s instr
  else Stop (IllegalInstruction instr).

Definition InterpretMISCMEM (s : Simulator) (instr : Z) : outcome Simulator :=
  let f := Instr.funct3 instr in
  then_advance
    (if f =? FENCE then Ok (with_memory s (Memory.FlushAll (memory_ s)))
     else if f =? FENCEI then Ok s
     else Stop (IllegalInstruction instr)) Instr.length.

(** ** Control and status registers *)

Inductive ControlStatusRegister : Set :=
  | fflags | frm | fcsr | vstart | vxsat | vxrm | vcsr | ssp | cycle | time | instret | vl | vtype | vlenb.

Definition ControlStatusRegister_value (c : ControlStatusRegister) : Z :=
  match c with
  | fflags => 1 | frm => 2 | fcsr => 3 | vstart => 8 | vxsat => 9 | vxrm => 0xA | vcsr => 0xF | ssp => 0x11
  | cycle => 0xC00 | time => 0xC01 | instret => 0xC02 | vl => 0xC20 | vtype => 0xC21 | vlenb => 0xC22
  end.
Coercion ControlStatusRegister_value : ControlStatusRegister >-> Z.

Definition CSRRead (s : Simulator) (csr : Z) : outcome Z :=
  if csr =? fcsr then Ok (fcsr_ s)
  else if csr =? ssp then Ok (s64 (ssp_ s))
  else if csr =? cycle then Ok (s64 (instret_ s / 2))
  else if csr =? time then Ok 0
  else if csr =? instret then Ok (s64 (instret_ s))
  else if csr =? vl then Ok (s64 (vl_ s))
  else if csr =? vtype then Ok (s64 (vtype_ s))
  else if csr =? vlenb then Ok (VLEN / 8)
  else Stop (Fault "Unknown CSR").

Definition CSRWrite (s : Simulator) (csr value : Z) : outcome Simulator :=
  if csr =? ssp then Ok (with_ssp s (u64 value)) else Stop UNIMPLEMENTED.

Definition CSRSet (s : Simulator) (csr mask : Z) : outcome Simulator := Stop UNIMPLEMENTED.
Definition CSRClear (s : Simulator) (csr mask : Z) : outcome Simulator := Stop UNIMPLEMENTED.

(** The [MOP] group: shadow-stack instructions and may-be-operations. *)
Definition InterpretMOP (s : Simulator) (instr : Z) : outcome Simulator :=
  let rd := Instr.rd instr in
  let rs1 := Instr.rs1 instr in
  let rs2 := Instr.rs2 instr in
  if (Instr.funct7 instr =? SSPUSH) && (rd =? ZR) && (rs1 =? ZR) && ((rs2 =? 1) || (rs2 =? 5)) then
    if ss_enabled_ s then
      let ra := get_xreg s rs2 in
      let s := with_ssp s (u64 (ssp_ s - 8)) in
      MemoryWrite 8 s (ssp_ s) ra ZR
    else Ok s
  else if (Instr.funct12 instr =? SSPOPCHK) && (rd =? ZR) && ((rs1 =? 1) || (rs1 =? 5)) then
    if ss_enabled_ s then
      let! (ra, s) := MemoryRead false 8 s (ssp_ s) ZR in
      let s := with_ssp s (u64 (ssp_ s + 8)) in
      if negb (ra =? get_xreg s rs1) then Stop (Fault "Corrupt control flow") else Ok s
    else Ok s
  else if (Instr.funct12 instr =? SSRDP) && (rs1 =? ZR) then
    Ok (set_xreg s rd (if ss_enabled_ s then ssp_ s else 0))
  else if (Instr.funct12 instr .& MOP_R_MASK) =? MOP_R then Ok (set_xreg s rd 0)
  else if (Instr.funct7 instr .& MOP_RR_MASK) =? MOP_RR then Ok (set_xreg s rd 0)
  else Stop (IllegalInstruction instr).

(** Reads a control register, then writes, sets or clears it. *)
Definition csr_write (s : Simulator) (instr value : Z) : outcome Simulator :=
  let csr := Instr.csr instr in
  if Instr.rd instr =? ZR then CSRWrite s csr value
  else
    let! result := CSRRead s csr in
    let! s := CSRWrite s csr value in
    Ok (set_xreg s (Instr.rd instr) result).

Definition csr_modify (op : Simulator -> Z -> Z -> outcome Simulator) (s : Simulator) (instr : Z)
  (no_write : bool) (mask : Z) : outcome Simulator :=
  let csr := Instr.csr instr in
  let! result := CSRRead s csr in
  let! s := if no_write then Ok s else op s csr mask in
  Ok (set_xreg s (Instr.rd instr) result).

(** ** Calls into the runtime *)

(** [for (i = 0; i < kNumberOfCpuRegisters; i++)]: the registers of [mask] get random values. *)
Fixpoint clobber_xregs (k : nat) (i mask : Z) (s : Simulator) : Simulator :=
  match k with
  | O => s
  | S k =>
      let s := if negb ((mask .& (1 << i)) =? 0)
               then let '(v, state) := NextUInt64 (random_ s) in
                    with_random (with_xregs s (update (xregs_ s) i v)) state
               else s in
      clobber_xregs k (i + 1) mask s
  end.

Fixpoint clobber_fregs (k : nat) (i mask : Z) (s : Simulator) : Simulator :=
  match k with
  | O => s
  | S k =>
      let s := if negb ((mask .& (1 << i)) =? 0) then with_fregs s (update (fregs_ s) i kNaNBox) else s in
      clobber_fregs k (i + 1) mask s
  end.

(** The bytes of [vregs_], register by register. *)
Fixpoint clobber_vregs (k : nat) (i : Z) (s : Simulator) : Simulator :=
  match k with
  | O => s
  | S k =>
      let '(v, state) := NextUInt64 (random_ s) in
      clobber_vregs k (i + 1) (with_random (with_vregs s (update (vregs_ s) i (u8 v))) state)
  end.

Definition ClobberVolatileRegisters (s : Simulator) : Simulator :=
  if DEBUG P then
    let s := with_reserved s 0 0 in
    let s := clobber_xregs 32 0 kAbiVolatileCpuRegs s in
    let s := clobber_fregs 32 0 kAbiVolatileFpuRegs s in
    clobber_vregs (Z.to_nat kVectorBytes) 0 s
  else s.

(** The arguments each kind of call takes from the registers. *)
Definition call_arguments (k : CallKind) (s : Simulator) : list Z :=
  match k with
  | kRuntimeCall => [get_xreg s A0]
  | kLeafRuntimeCall => map (fun i => s64 (get_xreg s i)) [A0 : Z; A1 : Z; A2 : Z; A3 : Z; A4 : Z; A5 : Z; A6 : Z; A7 : Z]
  | kLeafFloatRuntimeCall => map (get_fregd s) [FA0 : Z; FA1 : Z; FA2 : Z; FA3 : Z; FA4 : Z; FA5 : Z; FA6 : Z; FA7 : Z]
  | kNativeCallWrapper => [get_xreg s A0; get_xreg s A1]
  end.

(** [ECALL] with a register operand is the fake instruction of [SimulatorPrintObject]. *)
Definition InterpretECALL (s : Simulator) (instr : Z) : outcome Simulator :=
  if negb (Instr.rs1 instr =? ZR) then Ok (advance s Instr.length)
  else if negb (IsAligned (get_xreg s SP) 16 0) then Stop (Fault "Stack misaligned at call to C function")
  else
    let s := with_memory s (Memory.FlushAll (memory_ s)) in
    let saved_ra := get_xreg s RA in
    let redirection := FromECallInstruction P s in
    let kind := call_kind_ redirection in
    let leaf := match kind with kLeafRuntimeCall | kLeafFloatRuntimeCall => true | _ => false end in
    if DEBUG P && leaf && negb ((0 <=? argument_count_ redirection) && (argument_count_ redirection <=? 8))
    then Stop AssertionFailed
    else
      match call_host P redirection (call_arguments kind s) s with
      | Throws s => Ok s
      | Returns s res =>
          let s := ClobberVolatileRegisters s in
          let s := match kind with
                   | kLeafRuntimeCall => set_xreg s A0 res
                   | kLeafFloatRuntimeCall => set_fregd s FA0 res
                   | _ => s
                   end in
          Ok (with_pc s saved_ra)
      end.

Definition InterpretSYSTEM (s : Simulator) (instr : Z) : outcome Simulator :=
  let f := Instr.funct3 instr in
  let rs1 := Instr.rs1 instr in
  let zimm := Instr.zimm instr in
  let next := fun r => then_advance r Instr.length in
  if f =? PRIV then
    let f12 := Instr.funct12 instr in
    if f12 =? ECALL then InterpretECALL s instr
    else next (if f12 =? EBREAK then Stop (Fault "EBREAK")
               else if (f12 =? WRS_NTO) || (f12 =? WRS_STO) then Ok s
               else Stop (IllegalInstruction instr))
  else if f =? MOP then next (InterpretMOP s instr)
  else if f =? CSRRW then next (csr_write s instr (get_xreg s rs1))
  else if f =? CSRRS then next (csr_modify CSRSet s instr (rs1 =? ZR) (get_xreg s rs1))
  else if f =? CSRRC then next (csr_modify CSRClear s instr (rs1 =? ZR) (get_xreg s rs1))
  else if f =? CSRRWI then next (csr_write s instr zimm)
  else if f =? CSRRSI then next (csr_modify CSRSet s instr (zimm =? 0) zimm)
  else if f =? CSRRCI then next (csr_modify CSRClear s instr (zimm =? 0) zimm)
  else Stop (IllegalInstruction instr).

(** ** Atomics *)

Definition misaligned : stop := Fault "Misaligned atomic memory operation".

(** [std::atomic_ref] on the process memory. *)
Definition atomic_load (signed : bool) (n : Z) (s : Simulator) (addr : Z) : Z :=
  as_type signed n (Direct.Load n (host (memory_ s)) addr).
Definition with_host (s : Simulator) (h : Host) : Simulator :=
  with_memory s (mkMemory (use_buffered_ (memory_ s)) h (buffer_ (memory_ s))).
Definition atomic_store (n : Z) (s : Simulator) (addr value : Z) : Simulator :=
  with_host s (Direct.Store n (host (memory_ s)) addr value).

(** [compare_exchange_weak]: its verdict and [expected] afterwards. *)
Definition compare_exchange_weak (signed : bool) (n : Z) (spurious : bool) (s : Simulator)
  (addr expected desired : Z) : bool * Z * Simulator :=
  let '(ok, seen, h) := Direct.CompareExchange n spurious (host (memory_ s)) addr expected desired in
  (ok, if ok then expected else as_type signed n seen, with_host s h).

Definition InterpretLR (n : Z) (s : Simulator) (instr : Z) : outcome Simulator :=
  let addr := get_xreg s (Instr.rs1 instr) in
  if negb ((addr .& (n - 1)) =? 0) then Stop misaligned
  else
    let '(v, m) := Memory.LoadOrdered n (memory_ s) addr in
    let s := with_reserved (with_memory s m) addr (u64 (as_type true n v)) in
    Ok (set_xreg s (Instr.rd instr) (reserved_value_ s)).

Definition InterpretSC (n : Z) (s : Simulator) (instr : Z) : outcome Simulator :=
  let addr := get_xreg s (Instr.rs1 instr) in
  let rd := Instr.rd instr in
  if negb ((addr .& (n - 1)) =? 0) then Stop misaligned
  else if negb (addr =? reserved_address_ s) then
    Ok (set_xreg (with_reserved s 0 (reserved_value_ s)) rd 1)
  else
    let '(r, state) := NextUInt32 (random_ s) in
    let s := with_random s state in
    if r mod 16 =? 0 then Ok (set_xreg (with_reserved s 0 (reserved_value_ s)) rd 1)
    else
      let expected := as_type true n (reserved_value_ s) in
      let desired := as_type true n (get_xreg s (Instr.rs2 instr)) in
      let '(success, _, m) :=
        Memory.CompareExchange n (negb (Nat.eqb (cas_failures P s) 0)) (memory_ s) addr expected desired in
      let s := set_xreg (with_memory s m) rd (if success then 0 else 1) in
      Ok (with_reserved s 0 (reserved_value_ s)).

(** The read-modify-write operations: the result is the old value, [f old arg] the new one. *)
Definition InterpretAMO_fetch (n : Z) (f : Z -> Z -> Z) (s : Simulator) (instr : Z) : outcome Simulator :=
  let addr := get_xreg s (Instr.rs1 instr) in
  if negb ((addr .& (n - 1)) =? 0) then Stop misaligned
  else
    let s := with_memory s (Memory.FlushAddress (memory_ s) addr) in
    let arg := as_type true n (get_xreg s (Instr.rs2 instr)) in
    let result := atomic_load true n s addr in
    let s := atomic_store n s addr (f result arg) in
    Ok (set_xreg s (Instr.rd instr) (sign_extend (8 * n) result)).

Definition InterpretAMOSWAP (n : Z) := InterpretAMO_fetch n (fun _ arg => arg).
Definition InterpretAMOADD (n : Z) := InterpretAMO_fetch n (fun old arg => old + arg).
Definition InterpretAMOXOR (n : Z) := InterpretAMO_fetch n (fun old arg => old .^ arg).
Definition InterpretAMOAND (n : Z) := InterpretAMO_fetch n (fun old arg => old .& arg).
Definition InterpretAMOOR (n : Z) := InterpretAMO_fetch n (fun old arg => old .| arg).

(** The [do ... while (!compare_exchange_weak(...))] loop of [AMOMIN] and
    [AMOMAX]: [failures] attempts fail spuriously; without them the exchange
    succeeds at once, no other thread writing the location. *)
Fixpoint amo_exchange_loop (failures : nat) (signed : bool) (n : Z) (pick : Z -> Z -> Z) (s : Simulator)
  (addr expected compare : Z) : Z * Simulator :=
  let desired := pick expected compare in
  let '(ok, expected, s) :=
    compare_exchange_weak signed n (negb (Nat.eqb failures 0)) s addr expected desired in
  match failures with
  | O => (expected, s)
  | S k => if ok then (expected, s) else amo_exchange_loop k signed n pick s addr expected compare
  end.

Definition InterpretAMO_pick (signed : bool) (n : Z) (pick : Z -> Z -> Z) (s : Simulator) (instr : Z) : outcome Simulator :=
  let addr := get_xreg s (Instr.rs1 instr) in
  if negb ((addr .& (n - 1)) =? 0) then Stop misaligned
  else
    let s := with_memory s (Memory.FlushAddress (memory_ s) addr) in
    let expected := atomic_load signed n s addr in
    let compare := as_type signed n (get_xreg s (Instr.rs2 instr)) in
    let '(expected, s) := amo_exchange_loop (cas_failures P s) signed n pick s addr expected compare in
    Ok (set_xreg s (Instr.rd instr) (sign_extend (8 * n) expected)).

Definition InterpretAMOMIN (signed : bool) (n : Z) :=
  InterpretAMO_pick signed n (fun expected compare => if expected <? compare then expected else compare).
Definition InterpretAMOMAX (signed : bool) (n : Z) :=
  InterpretAMO_pick signed n (fun expected compare => if expected >? compare then expected else compare).

Definition InterpretLOADORDERED (n : Z) (s : Simulator) (instr : Z) : outcome Simulator :=
  let addr := get_xreg s (Instr.rs1 instr) in
  if negb ((addr .& (n - 1)) =? 0) then Stop misaligned
  else
    let s := with_memory s (Memory.FlushAddress (memory_ s) addr) in
    Ok (set_xreg s (Instr.rd instr) (sign_extend (8 * n) (atomic_load true n s addr))).

Definition InterpretSTOREORDERED (n : Z) (s : Simulator) (instr : Z) : outcome Simulator :=
  let addr := get_xreg s (Instr.rs1 instr) in
  if negb ((addr .& (n - 1)) =? 0) then Stop misaligned
  else
    let s := with_memory s (Memory.FlushAddress (memory_ s) addr) in
    Ok (atomic_store n s addr (as_type true n (get_xreg s (Instr.rs2 instr)))).

Definition InterpretAMOCAS (n : Z) (s : Simulator) (instr : Z) : outcome Simulator :=
  let addr := get_xreg s (Instr.rs1 instr) in
  if negb ((addr .& (n - 1)) =? 0) then Stop misaligned
  else
    let expected := as_type true n (get_xreg s (Instr.rd instr)) in
    let desired := as_type true n (get_xreg s (Instr.rs2 instr)) in
    let '(_, expected, s) :=
      compare_exchange_weak true n (negb (Nat.eqb (cas_failures P s) 0)) s addr expected desired in
    Ok (set_xreg s (Instr.rd instr) expected).

(** The operations all widths have. *)
Definition InterpretAMO_common (n : Z) (s : Simulator) (instr : Z) : outcome Simulator :=
  let f := Instr.funct5 instr in
  if f =? AMOSWAP then InterpretAMOSWAP n s instr
  else if f =? AMOADD then InterpretAMOADD n s instr
  else if f =? AMOXOR then InterpretAMOXOR n s instr
  else if f =? AMOAND then InterpretAMOAND n s instr
  else if f =? AMOOR then InterpretAMOOR n s instr
  else if f =? AMOMIN then InterpretAMOMIN true n s instr
  else if f =? AMOMAX then InterpretAMOMAX true n s instr
  else if f =? AMOMINU then InterpretAMOMIN false n s instr
  else if f =? AMOMAXU then InterpretAMOMAX false n s instr
  else if f =? LOADORDERED then InterpretLOADORDERED n s instr
  else if f =? STOREORDERED then InterpretSTOREORDERED n s instr
  else if f =? AMOCAS then InterpretAMOCAS n s instr
  else Stop (IllegalInstruction instr).

Definition InterpretAMO8 (s : Simulator) (instr : Z) : outcome Simulator := InterpretAMO_common 1 s instr.
Definition InterpretAMO16 (s : Simulator) (instr : Z) : outcome Simulator := InterpretAMO_common 2 s instr.
Definition InterpretAMO32 (s : Simulator) (instr : Z) : outcome Simulator :=
  let f := Instr.funct5 instr in
  if f =? LR then InterpretLR 4 s instr
  else if f =? SC then InterpretSC 4 s instr
  else InterpretAMO_common 4 s instr.
Definition InterpretAMO64 (s : Simulator) (instr : Z) : outcome Simulator :=
  let f := Instr.funct5 instr in
  if f =? LR then InterpretLR 8 s instr
  else if f =? SC then InterpretSC 8 s instr
  else InterpretAMO_common 8 s instr.
Definition InterpretAMO128 (s : Simulator) (instr : Z) : outcome Simulator :=
  if Instr.funct5 instr =? AMOCAS then Stop UNIMPLEMENTED else Stop (IllegalInstruction instr).

Definition InterpretAMO (s : Simulator) (instr : Z) : outcome Simulator :=
  let f := Instr.funct3 instr in
  then_advance
    (if f =? WIDTH8 then InterpretAMO8 s instr
     else if f =? WIDTH16 then InterpretAMO16 s instr
     else if f =? WIDTH32 then InterpretAMO32 s instr
     else if f =? WIDTH64 then InterpretAMO64 s instr
     else if f =? WIDTH128 then InterpretAMO128 s instr
     else Stop (IllegalInstruction instr)) Instr.length.

(** ** Floating point *)

(** The body the four fused multiply-add handlers share: [op] on the operands of
    the format [funct2] selects. *)
Definition fused (op : Format -> Z -> Z -> Z -> Z) (s : Simulator) (instr : Z) : outcome Simulator :=
  then_advance
    (if Instr.funct2 instr =? F2_S then
       let rs1 := get_fregs s (Instr.frs1 instr) in
       let rs2 := get_fregs s (Instr.frs2 instr) in
       let rs3 := get_fregs s (Instr.frs3 instr) in
       Ok (set_fregs s (Instr.frd instr) (op binary32 rs1 rs2 rs3))
     else if Instr.funct2 instr =? F2_D then
       let rs1 := get_fregd s (Instr.frs1 instr) in
       let rs2 := get_fregd s (Instr.frs2 instr) in
       let rs3 := get_fregd s (Instr.frs3 instr) in
       Ok (set_fregd s (Instr.frd instr) (op binary64 rs1 rs2 rs3))
     else Stop (IllegalInstruction instr)) Instr.length.

Definition InterpretFMADD := fused (fun f rs1 rs2 rs3 => fma (host_nan P) f rs1 rs2 rs3).
Definition InterpretFMSUB := fused (fun f rs1 rs2 rs3 => fma (host_nan P) f rs1 rs2 (fneg f rs3)).
Definition InterpretFNMSUB := fused (fun f rs1 rs2 rs3 => fneg f (fma (host_nan P) f rs1 rs2 (fneg f rs3))).
Definition InterpretFNMADD := fused (fun f rs1 rs2 rs3 => fneg f (fma (host_nan P) f rs1 rs2 rs3)).

(** FSGNJS and FSGNJD, on bit patterns. *)
Definition sign_inject (kSignMask funct3 rs1 rs2 : Z) : option Z :=
  let magnitude := rs1 .& Z.lnot kSignMask in
  if funct3 =? J_ then Some (magnitude .| (rs2 .& kSignMask))
  else if funct3 =? JN then Some (magnitude .| (Z.lnot rs2 .& kSignMask))
  else if funct3 =? JX then Some (magnitude .| ((rs1 .^ rs2) .& kSignMask))
  else None.

(** The instructions on single-precision operands of [InterpretOPFP]. *)
Definition InterpretOPFP_S (s : Simulator) (instr : Z) : outcome Simulator :=
  let f7 := Instr.funct7 instr in
  let f3 := Instr.funct3 instr in
  let illegal := Stop (IllegalInstruction instr) in
  let rs1 := get_fregs s (Instr.frs1 instr) in
  let rs2 := get_fregs s (Instr.frs2 instr) in
  let rounding := Instr.rounding instr in
  let to_f v := Ok (set_fregs s (Instr.frd instr) v) in
  let to_x v := Ok (set_xreg s (Instr.rd instr) v) in
  let flag (b : bool) := to_x (if b then 1 else 0) in
  let x := get_xreg s (Instr.rs1 instr) in
  if f7 =? FADDS then to_f (fadd (host_nan P) binary32 rs1 rs2)
  else if f7 =? FSUBS then to_f (fsub (host_nan P) binary32 rs1 rs2)
  else if f7 =? FMULS then to_f (fmul (host_nan P) binary32 rs1 rs2)
  else if f7 =? FDIVS then to_f (fdiv (host_nan P) binary32 rs1 rs2)
  else if f7 =? FSQRTS then to_f (fsqrt (host_nan P) binary32 rs1)
  else if f7 =? FSGNJS then
    match sign_inject (1 << 31) f3 rs1 rs2 with Some r => to_f r | None => illegal end
  else if f7 =? FMINMAXS then
    if f3 =? FMIN then to_f (rv_fminf rs1 rs2)
    else if f3 =? FMAX then to_f (rv_fmaxf rs1 rs2)
    else if f3 =? FMINM then to_f (rv_fminmf rs1 rs2)
    else if f3 =? FMAXM then to_f (rv_fmaxmf rs1 rs2)
    else illegal
  else if f7 =? FCMPS then
    if f3 =? FEQ then flag (feq binary32 rs1 rs2)
    else if (f3 =? FLT) || (f3 =? FLTQ) then flag (flt binary32 rs1 rs2)
    else if (f3 =? FLE) || (f3 =? FLEQ) then flag (fle binary32 rs1 rs2)
    else illegal
  else if f7 =? FCLASSS then
    if f3 =? 1 then to_x (fclassf rs1)
    else if f3 =? 0 then to_x (sign_extend 32 (get_fregs_raw s (Instr.frs1 instr)))
    else illegal
  else if f7 =? FCVTintS then
    if Instr.rs2 instr =? W then let! r := fcvtws rs1 rounding in to_x (sign_extend 32 r)
    else if Instr.rs2 instr =? WU then let! r := fcvtwus rs1 rounding in to_x (sign_extend 32 r)
    else if Instr.rs2 instr =? L then let! r := fcvtls rs1 rounding in to_x (sign_extend 64 r)
    else if Instr.rs2 instr =? LU then let! r := fcvtlus rs1 rounding in to_x (sign_extend 64 r)
    else illegal
  else if f7 =? FCVTSint then
    if Instr.rs2 instr =? W then to_f (of_int binary32 (s32 x))
    else if Instr.rs2 instr =? WU then to_f (of_int binary32 (u32 x))
    else if Instr.rs2 instr =? L then to_f (of_int binary32 (s64 x))
    else if Instr.rs2 instr =? LU then to_f (of_int binary32 (u64 x))
    else illegal
  else if f7 =? FMVWX then
    if Instr.frs2 instr =? 0 then to_f (u32 x)
    else if Instr.frs2 instr =? 1 then to_f (nth (Z.to_nat (Instr.rs1 instr)) kFlisConstants 0)
    else illegal
  else if f7 =? FCVTS then
    if Instr.rs2 instr =? 1 then to_f (convert (host_nan P) binary64 binary32 (get_fregd s (Instr.frs1 instr)))
    else if (Instr.rs2 instr =? 4) || (Instr.rs2 instr =? 5) then let! r := Roundf rs1 rounding in to_f r
    else illegal
  else illegal.

(** The instructions on double-precision operands; the others are in [InterpretOPFP_S]. *)
Definition InterpretOPFP_D (s : Simulator) (instr : Z) : outcome Simulator :=
  let f7 := Instr.funct7 instr in
  let f3 := Instr.funct3 instr in
  let illegal := Stop (IllegalInstruction instr) in
  let rs1 := get_fregd s (Instr.frs1 instr) in
  let rs2 := get_fregd s (Instr.frs2 instr) in
  let rounding := Instr.rounding instr in
  let to_f v := Ok (set_fregd s (Instr.frd instr) v) in
  let to_x v := Ok (set_xreg s (Instr.rd instr) v) in
  let flag (b : bool) := to_x (if b then 1 else 0) in
  let x := get_xreg s (Instr.rs1 instr) in
  if f7 =? FADDD then to_f (fadd (host_nan P) binary64 rs1 rs2)
  else if f7 =? FSUBD then to_f (fsub (host_nan P) binary64 rs1 rs2)
  else if f7 =? FMULD then to_f (fmul (host_nan P) binary64 rs1 rs2)
  else if f7 =? FDIVD then to_f (fdiv (host_nan P) binary64 rs1 rs2)
  else if f7 =? FSQRTD then to_f (fsqrt (host_nan P) binary64 rs1)
  else if f7 =? FSGNJD then
    match sign_inject (1 << 63) f3 rs1 rs2 with Some r => to_f r | None => illegal end
  else if f7 =? FMINMAXD then
    if f3 =? FMIN then to_f (rv_fmin rs1 rs2)
    else if f3 =? FMAX then to_f (rv_fmax rs1 rs2)
    else if f3 =? FMINM then to_f (rv_fminm rs1 rs2)
    else if f3 =? FMAXM then to_f (rv_fmaxm rs1 rs2)
    else illegal
  else if f7 =? FCVTD then
    if Instr.rs2 instr =? 0 then to_f (convert (host_nan P) binary32 binary64 (get_fregs s (Instr.frs1 instr)))
    else if (Instr.rs2 instr =? 4) || (Instr.rs2 instr =? 5) then let! r := Round rs1 rounding in to_f r
    else illegal
  else if f7 =? FCMPD then
    if f3 =? FEQ then flag (feq binary64 rs1 rs2)
    else if (f3 =? FLT) || (f3 =? FLTQ) then flag (flt binary64 rs1 rs2)
    else if (f3 =? FLE) || (f3 =? FLEQ) then flag (fle binary64 rs1 rs2)
    else illegal
  else if f7 =? FCLASSD then
    if f3 =? 1 then to_x (fclass rs1)
    else if f3 =? 0 then if Instr.rs2 instr =? 0 then to_x rs1 else illegal
    else illegal
  else if f7 =? FCVTintD then
    if Instr.rs2 instr =? W then let! r := fcvtwd rs1 rounding in to_x (sign_extend 32 r)
    else if Instr.rs2 instr =? 8 then let! r := fcvtmodwd (DEBUG P) rs1 rounding in to_x (sign_extend 32 r)
    else if Instr.rs2 instr =? WU then let! r := fcvtwud rs1 rounding in to_x (sign_extend 32 r)
    else if Instr.rs2 instr =? L then let! r := fcvtld rs1 rounding in to_x (sign_extend 64 r)
    else if Instr.rs2 instr =? LU then let! r := fcvtlud rs1 rounding in to_x (sign_extend 64 r)
    else illegal
  else if f7 =? FCVTDint then
    if Instr.rs2 instr =? W then to_f (of_int binary64 (s32 x))
    else if Instr.rs2 instr =? WU then to_f (of_int binary64 (u32 x))
    else if Instr.rs2 instr =? L then to_f (of_int binary64 (s64 x))
    else if Instr.rs2 instr =? LU then to_f (of_int binary64 (u64 x))
    else illegal
  else if f7 =? FMVDX then
    if Instr.frs2 instr =? 0 then to_f x
    else if Instr.frs2 instr =? 1 then to_f (nth (Z.to_nat (Instr.rs1 instr)) kFlidConstants 0)
    else illegal
  else illegal.

(** The [switch] of [InterpretOPFP] in its two halves. *)
Definition is_single (f7 : Z) : bool :=
  existsb (fun c : Funct7 => f7 =? c)
    [FADDS; FSUBS; FMULS; FDIVS; FSQRTS; FSGNJS; FMINMAXS; FCMPS; FCLASSS; FCVTintS; FCVTSint; FMVWX; FCVTS].

Definition InterpretOPFP (s : Simulator) (instr : Z) : outcome Simulator :=
  then_advance
    (if is_single (Instr.funct7 instr) then InterpretOPFP_S s instr else InterpretOPFP_D s instr) Instr.length.

(** ** Vectors *)

(** [ElementWidth] and [LengthMultiplier]. *)
Definition e8 : Z := 0.
Definition e16 : Z := 1.
Definition e32 : Z := 2.
Definition e64 : Z := 3.
Definition mf8 : Z := 5.
Definition mf4 : Z := 6.
Definition mf2 : Z := 7.
Definition m1 : Z := 0.
Definition m2 : Z := 1.
Definition m4 : Z := 2.
Definition m8 : Z := 3.

Definition vsew (s : Simulator) : Z := (vtype_ s >> 3) .& 7.

Definition InterpretOPV_IVX_sew (n : Z) (s : Simulator) (instr : Z) : outcome Simulator :=
  if Instr.vm instr then Stop UNIMPLEMENTED
  else
    let rs1 := uN (8 * n) (get_xreg s (Instr.rs1 instr)) in
    let f6 := Instr.funct6 instr in
    if f6 =? VADD then
      for_elements (Z.to_nat (vl_ s)) 0 (fun s i =>
        let! x := get_vreg n s (Instr.vs2 instr) i in
        set_vreg n s (Instr.vd instr) i (rs1 + x)) s
    else if f6 =? VMV then
      for_elements (Z.to_nat (vl_ s)) 0 (fun s i => set_vreg n s (Instr.vd instr) i rs1) s
    else Stop (IllegalInstruction instr).

Definition InterpretOPV_IVX (s : Simulator) (instr : Z) : outcome Simulator :=
  let w := vsew s in
  if w =? e8 then InterpretOPV_IVX_sew 1 s instr
  else if w =? e16 then InterpretOPV_IVX_sew 2 s instr
  else if w =? e32 then InterpretOPV_IVX_sew 4 s instr
  else if w =? e64 then InterpretOPV_IVX_sew 8 s instr
  else Stop (Fault "Invalid SEW").

Definition InterpretOPV_CFG (s : Simulator) (instr : Z) : outcome Simulator :=
  if negb ((instr .& 0x80000000) =? 0) then Stop (IllegalInstruction instr)
  else
    let avl := get_xreg s (Instr.rs1 instr) in
    let vtype := Instr.itype_imm instr in
    let w := (vtype >> 3) .& 7 in
    let! sew := if w =? e8 then Ok 8 else if w =? e16 then Ok 16 else if w =? e32 then Ok 32
                else if w =? e64 then Ok 64 else Stop (Fault "Invalid SEW") in
    let l := (vtype >> 0) .& 7 in
    let! lmul := if l =? mf8 then Ok (-8) else if l =? mf4 then Ok (-4) else if l =? mf2 then Ok (-2)
                 else if l =? m1 then Ok 1 else if l =? m2 then Ok 2 else if l =? m4 then Ok 4
                 else if l =? m8 then Ok 8 else Stop (Fault "Invalid LMUL") in
    let vlmax := if lmul <? 0 then VLEN / sew / - lmul else VLEN / sew * lmul in
    let new_vl :=
      if (Instr.rs1 instr =? ZR) && negb (Instr.rd instr =? ZR) then vlmax
      else if Instr.rs1 instr =? ZR then vl_ s
      else if avl <? vlmax then avl else vlmax in
    let s := with_vl s new_vl (u64 vtype) in
    Ok (set_xreg s (Instr.rd instr) (vl_ s)).

Definition InterpretOPV (s : Simulator) (instr : Z) : outcome Simulator :=
  let f := Instr.funct3 instr in
  then_advance
    (if f =? OPIVX then InterpretOPV_IVX s instr
     else if f =? OPCFG then InterpretOPV_CFG s instr
     else Stop (IllegalInstruction instr)) Instr.length.

(** ** Dispatch *)

Definition Interpret (s : Simulator) (instr : Z) : outcome Simulator :=
  let op := Instr.opcode instr in
  if op =? LUI then InterpretLUI s instr
  else if op =? AUIPC then InterpretAUIPC s instr
  else if op =? JAL then InterpretJAL s instr
  else if op =? JALR then InterpretJALR s instr
  else if op =? BRANCH then InterpretBRANCH s instr
  else if op =? LOAD then InterpretLOAD s instr
  else if op =? STORE then InterpretSTORE s instr
  else if op =? OPIMM then InterpretOPIMM s instr
  else if op =? OPIMM32 then InterpretOPIMM32 s instr
  else if op =? OP then InterpretOP s instr
  else if op =? OP32 then InterpretOP32 s instr
  else if op =? MISCMEM then InterpretMISCMEM s instr
  else if op =? SYSTEM then InterpretSYSTEM s instr
  else if op =? AMO then InterpretAMO s instr
  else if op =? LOADFP then InterpretLOADFP s instr
  else if op =? STOREFP then InterpretSTOREFP s instr
  else if op =? FMADD then InterpretFMADD s instr
  else if op =? FMSUB then InterpretFMSUB s instr
  else if op =? FNMADD then InterpretFNMADD s instr
  else if op =? FNMSUB then InterpretFNMSUB s instr
  else if op =? OPFP then InterpretOPFP s instr
  else if op =? OPV then InterpretOPV s instr
  else Stop (IllegalInstruction instr).

(** ** Execution *)

Definition kBadLR : Z := u64 (-1).
Definition kEndSimulatingPC : Z := u64 (-2).

(** The body of the loop of [ExecuteNoTrace]; code is fetched from the process memory. *)
Definition step (s : Simulator) : outcome Simulator :=
  let h := host (memory_ s) in
  let parcel := LoadLE 2 h (pc_ s) in
  let! s := if IsCInstruction parcel then Interpret_C s parcel
            else Interpret s (LoadLE 4 h (pc_ s)) in
  Ok (with_instret s (u64 (instret_ s + 1))).

(** [n] instructions. *)
Fixpoint run (n : nat) (s : Simulator) : outcome Simulator :=
  match n with
  | O => Ok s
  | S n => let! s := step s in run n s
  end.

(** [ExecuteNoTrace] for at most [fuel] instructions; [None] when it has not ended. *)
Fixpoint ExecuteNoTrace (fuel : nat) (s : Simulator) : option (outcome Simulator) :=
  if pc_ s =? kEndSimulatingPC then Some (Ok s)
  else match fuel with
       | O => None
       | S f => match step s with
                | Ok s => ExecuteNoTrace f s
                | Stop r => Some (Stop r)
                end
       end.

End Interpreter.
