(* ===== verification/RvFloatProofs.v ===== *)
(** * Floating point: encodings, minima and conversions

    The value of a finite number is an integer multiple of the smallest
    subnormal, [scaled]; comparisons, rounding to an integral value and the
    conversions to integers are then statements about integers.  A number of a
    format has one canonical mantissa and exponent, and rounding a value that
    is representable finds it ([binary_round_exact]), so every step of
    [roundeven] is exact. *)

From Stdlib Require Import ZArith Lia ZifyBool Bool List.
From Stdlib Require Import SpecFloat.
From S2P Require Import Prelude Bits Utils RvEncoding Outcome RvFloat.
Import ListNotations.

(** ** Powers and digits *)

Lemma pow_split a b : 0 <= a -> 0 <= b -> 2 ^ (a + b) = 2 ^ a * 2 ^ b.
Proof. intros; apply Z.pow_add_r; assumption. Qed.

Lemma digits_log2 m : Zpos (digits2_pos m) = Z.log2 (Zpos m) + 1.
Proof.
  induction m as [m IH|m IH|]; [| |reflexivity]; cbn [digits2_pos]; rewrite Pos2Z.inj_succ, IH.
  - rewrite (Pos2Z.inj_xI m), Z.log2_succ_double by lia. lia.
  - rewrite (Pos2Z.inj_xO m), Z.log2_double by lia. lia.
Qed.

Lemma log2_scale a n : 0 < a -> 0 <= n -> Z.log2 (a * 2 ^ n) = Z.log2 a + n.
Proof. intros. rewrite <- Z.shiftl_mul_pow2 by lia. apply Z.log2_shiftl; lia. Qed.

Lemma lor_low a k b : 0 <= k -> 0 <= b < 2 ^ k -> (a << k) .| b = a * 2 ^ k + b.
Proof.
  intros Hk Hb. rewrite <- Z.shiftl_mul_pow2, <- Z.add_lor_land by lia. enough ((a << k) .& b = 0) by lia.
  apply Z.bits_inj'; intros i Hi. rewrite Z.land_spec, testbit_shiftl, Z.bits_0 by lia.
  destruct (Z.ltb_spec i k); [reflexivity|]. rewrite (testbit_uN_high k b i) by (assumption || lia). apply andb_false_r.
Qed.

(** ** Well-formed formats *)

Definition wf_format (f : Format) : Prop :=
  2 <= precision f /\ 2 <= exponent_bits f /\ max_exponent f = 2 ^ (exponent_bits f - 1) /\ precision f < max_exponent f.

Lemma wf_binary32 : wf_format binary32.
Proof. repeat split; vm_compute; congruence. Qed.
Lemma wf_binary64 : wf_format binary64.
Proof. repeat split; vm_compute; congruence. Qed.

Section Fmt.
Context (f : Format) (Hf : wf_format f).

Abbreviation prec := (precision f).
Abbreviation emax := (max_exponent f).
Abbreviation emn := (min_exponent f).
Abbreviation fb := (fraction_bits f).

Lemma prec_pos : 2 <= prec.
Proof. apply Hf. Qed.

Lemma min_exponent_eq : emn = 3 - emax - prec.
Proof. reflexivity. Qed.

Lemma min_exponent_neg : emn < 0.
Proof. rewrite min_exponent_eq. destruct Hf as (? & ? & ? & ?). lia. Qed.

Lemma pow_prec : 2 ^ prec = 2 * 2 ^ fb.
Proof.
  pose proof prec_pos. unfold fraction_bits. replace prec with (1 + (prec - 1)) at 1 by lia.
  rewrite pow_split by lia. reflexivity.
Qed.

(** ** Fields *)

Definition pack (s : bool) (e m : Z) : Z := (if s then 2 ^ (width f - 1) else 0) + e * 2 ^ fb + m.

Lemma widths : 0 < fb /\ 0 < exponent_bits f /\ width f - 1 = fb + exponent_bits f.
Proof. destruct Hf as (? & ? & _). unfold fraction_bits, exponent_bits in *. lia. Qed.

Lemma signbit_pack s e m : 0 <= e < 2 ^ exponent_bits f -> 0 <= m < 2 ^ fb -> signbit f (pack s e m) = s.
Proof.
  destruct widths as (Hb & He & Hw). intros He' Hm. unfold signbit, pack. rewrite Hw.
  assert (0 <= e * 2 ^ fb + m < 2 ^ (fb + exponent_bits f)) as Hr.
  { rewrite pow_split by lia. nia. }
  rewrite Z.testbit_odd, Z.shiftr_div_pow2 by lia. destruct s.
  - rewrite <- Z.add_assoc. replace (2 ^ (fb + exponent_bits f) + (e * 2 ^ fb + m))
      with (e * 2 ^ fb + m + 1 * 2 ^ (fb + exponent_bits f)) by lia.
    rewrite Z.div_add, Z.div_small by lia. reflexivity.
  - rewrite Z.div_small by lia. reflexivity.
Qed.

Lemma fraction_pack s e m : 0 <= m < 2 ^ fb -> fraction f (pack s e m) = m.
Proof.
  destruct widths as (Hb & He & Hw). intros Hm. unfold fraction, pack. rewrite Z.land_ones by lia. rewrite Hw, pow_split by lia.
  replace ((if s then 2 ^ fb * 2 ^ exponent_bits f else 0) + e * 2 ^ fb + m)
    with (m + (e + if s then 2 ^ exponent_bits f else 0) * 2 ^ fb) by (destruct s; ring).
  rewrite Z.mod_add, Z.mod_small by lia. reflexivity.
Qed.

Lemma biased_pack s e m : 0 <= e < 2 ^ exponent_bits f -> 0 <= m < 2 ^ fb -> biased_exponent f (pack s e m) = e.
Proof.
  destruct widths as (Hb & He & Hw). intros He' Hm. unfold biased_exponent, exponent_mask, pack.
  rewrite Z.land_ones, Z.shiftr_div_pow2 by lia. rewrite Hw, pow_split by lia.
  replace ((if s then 2 ^ fb * 2 ^ exponent_bits f else 0) + e * 2 ^ fb + m)
    with (m + (e + (if s then 1 else 0) * 2 ^ exponent_bits f) * 2 ^ fb) by (destruct s; ring).
  rewrite Z.div_add, Z.div_small, Z.add_0_l, Z.mod_add, Z.mod_small by lia. reflexivity.
Qed.

Lemma fields_range x : 0 <= biased_exponent f x < 2 ^ exponent_bits f /\ 0 <= fraction f x < 2 ^ fb.
Proof.
  destruct widths as (Hb & He & Hw). unfold biased_exponent, fraction, exponent_mask.
  rewrite !Z.land_ones by lia. split; apply Z.mod_pos_bound; lia.
Qed.

Lemma pack_fields x : is_uN (width f) x -> x = pack (signbit f x) (biased_exponent f x) (fraction f x).
Proof.
  destruct widths as (Hb & He & Hw). intros [H0 H1]. unfold pack, signbit, biased_exponent, fraction, exponent_mask.
  rewrite !Z.land_ones, Z.shiftr_div_pow2, Z.testbit_odd, Z.shiftr_div_pow2 by lia.
  replace (width f) with (1 + (fb + exponent_bits f)) in H1 by lia. rewrite Hw.
  rewrite pow_split in H1 by lia. change (2 ^ 1) with 2 in H1.
  pose proof (Z.div_mod x (2 ^ fb) ltac:(lia)) as D1.
  pose proof (Z.div_mod (x / 2 ^ fb) (2 ^ exponent_bits f) ltac:(lia)) as D2.
  rewrite Z.div_div, <- pow_split in D2 by lia.
  set (P := 2 ^ (fb + exponent_bits f)) in *.
  assert (0 <= x / P < 2) as Hq by (split; [apply Z.div_pos; lia|apply Z.div_lt_upper_bound; lia]).
  assert ((if Z.odd (x / P) then P else 0) = 2 ^ fb * 2 ^ exponent_bits f * (x / P)) as ->.
  { rewrite <- pow_split by lia. fold P. assert (x / P = 0 \/ x / P = 1) as [-> | ->] by lia; cbn [Z.odd]; lia. }
  rewrite D1 at 1. rewrite D2 at 1. ring.
Qed.

(** ** Decoding and encoding *)

Definition unpack (s : bool) (e m : Z) : spec_float :=
  if e =? exponent_mask f then if m =? 0 then S754_infinity s else S754_nan
  else if e =? 0 then if m =? 0 then S754_zero s else S754_finite s (Z.to_pos m) emn
  else S754_finite s (Z.to_pos (m + 2 ^ fb)) (e - 1 + emn).

Lemma decode_pack s e m : 0 <= e < 2 ^ exponent_bits f -> 0 <= m < 2 ^ fb -> decode f (pack s e m) = unpack s e m.
Proof. intros He Hm. unfold decode. rewrite signbit_pack, fraction_pack, biased_pack by assumption. reflexivity. Qed.

(** The bits of the parts do not overlap. *)
Lemma lor_parts s e m : 0 <= e < 2 ^ exponent_bits f -> 0 <= m < 2 ^ fb ->
  sign_of f s .| ((e << fb) .| m) = pack s e m.
Proof.
  destruct widths as (Hb & He & Hw). intros He' Hm. rewrite lor_low by lia.
  unfold sign_of, sign_mask, pack. rewrite Hw.
  assert (0 <= e * 2 ^ fb + m < 2 ^ (fb + exponent_bits f)) by (rewrite pow_split by lia; nia).
  destruct s; [rewrite lor_low by lia; lia|rewrite Z.lor_0_l; lia].
Qed.

Lemma exponent_mask_eq : exponent_mask f = 2 ^ exponent_bits f - 1.
Proof. unfold exponent_mask. rewrite Z.ones_equiv. lia. Qed.

Lemma encode_infinity nan s : encode f nan (S754_infinity s) = pack s (exponent_mask f) 0.
Proof.
  destruct widths as (Hb & He & Hw). cbn [encode]. pose proof exponent_mask_eq.
  rewrite <- lor_parts, Z.lor_0_r by lia. reflexivity.
Qed.

Lemma encode_zero nan s : encode f nan (S754_zero s) = pack s 0 0.
Proof. destruct widths as (Hb & He & Hw). cbn [encode]. rewrite <- lor_parts by lia. rewrite Z.shiftl_0_l, !Z.lor_0_r. reflexivity. Qed.

(** A canonical finite number is subnormal or has all the digits of the format. *)
Lemma bounded_cases m e : bounded prec emax m e = true ->
  emn <= e /\ e <= emax - prec /\ Zpos m < 2 ^ prec /\ (e = emn /\ Zpos m < 2 ^ fb \/ 2 ^ fb <= Zpos m).
Proof.
  pose proof prec_pos as Hp. unfold bounded, canonical_mantissa, fexp. fold emn. rewrite andb_true_iff, Z.eqb_eq, Z.leb_le.
  intros [E Hle]. change (SpecFloat.emin prec emax) with emn in E. rewrite digits_log2 in E.
  pose proof (Z.log2_spec (Zpos m) ltac:(lia)) as [L1 L2]. pose proof (Z.log2_nonneg (Zpos m)).
  assert (Z.log2 (Zpos m) + 1 <= prec) by lia.
  split; [lia|]. split; [lia|]. split.
  - eapply Z.lt_le_trans; [exact L2|]. apply Z.pow_le_mono_r; lia.
  - unfold fraction_bits. destruct (Z.eq_dec (Z.log2 (Zpos m)) (prec - 1)) as [Hl|]; [right; rewrite Hl in L1; exact L1|].
    left. split; [lia|]. eapply Z.lt_le_trans; [exact L2|]. apply Z.pow_le_mono_r; lia.
Qed.

Lemma cases_bounded m e : emn <= e -> e <= emax - prec -> Zpos m < 2 ^ prec -> e = emn \/ 2 ^ fb <= Zpos m ->
  bounded prec emax m e = true.
Proof.
  pose proof prec_pos as Hp. intros H1 H2 H3 H4. unfold bounded, canonical_mantissa, fexp.
  change (SpecFloat.emin prec emax) with emn. rewrite andb_true_iff, Z.eqb_eq, Z.leb_le. split; [|lia]. rewrite digits_log2.
  assert (Z.log2 (Zpos m) < prec) by (apply Z.log2_lt_pow2; lia).
  destruct H4 as [->|H4]; [lia|]. assert (prec - 1 <= Z.log2 (Zpos m)) by (apply Z.log2_le_pow2; [lia|exact H4]). lia.
Qed.

(** The largest exponent field of a finite number is the largest exponent. *)
Lemma exponent_fields : 2 ^ exponent_bits f = 2 * emax.
Proof.
  destruct widths as (_ & He & _). destruct Hf as (_ & _ & -> & _).
  replace (exponent_bits f) with (1 + (exponent_bits f - 1)) at 1 by lia. rewrite pow_split by lia. reflexivity.
Qed.

Lemma unpack_valid s e m : 0 <= e < 2 ^ exponent_bits f -> 0 <= m < 2 ^ fb -> valid_binary prec emax (unpack s e m) = true.
Proof.
  intros He Hm. destruct widths as (Hb & _ & _). unfold unpack. pose proof exponent_mask_eq. pose proof exponent_fields. pose proof min_exponent_eq.
  pose proof pow_prec as Hd.
  destruct Hf as (Hp2 & _ & _ & Hpe).
  destruct (Z.eqb_spec e (exponent_mask f)); [destruct (m =? 0); reflexivity|].
  destruct (Z.eqb_spec e 0); [destruct (Z.eqb_spec m 0); [reflexivity|]|]; cbn [valid_binary];
    apply cases_bounded; rewrite ?Z2Pos.id by lia; lia.
Qed.

Lemma decode_valid x : valid_binary prec emax (decode f x) = true.
Proof. destruct (fields_range x) as [He Hm]. exact (unpack_valid _ _ _ He Hm). Qed.

Lemma encode_unpack nan s e m : 0 <= e < 2 ^ exponent_bits f -> 0 <= m < 2 ^ fb -> unpack s e m <> S754_nan ->
  encode f nan (unpack s e m) = pack s e m.
Proof.
  intros He Hm. pose proof exponent_mask_eq. destruct widths as (Hb & _ & _). unfold unpack.
  destruct (Z.eqb_spec e (exponent_mask f)) as [->|].
  - destruct (Z.eqb_spec m 0) as [->|]; [intros _; apply encode_infinity|congruence].
  - intros _. destruct (Z.eqb_spec e 0) as [->|].
    + destruct (Z.eqb_spec m 0) as [->|]; [apply encode_zero|]. cbn [encode]. rewrite Z2Pos.id by lia.
      destruct (Z.ltb_spec m (2 ^ fb)); [|lia]. rewrite <- lor_parts by lia. rewrite Z.shiftl_0_l, Z.lor_0_l. reflexivity.
    + cbn [encode]. rewrite Z2Pos.id by lia. destruct (Z.ltb_spec (m + 2 ^ fb) (2 ^ fb)); [lia|].
      rewrite <- lor_parts by lia. do 2 f_equal; [f_equal; lia|lia].
Qed.

Lemma encode_decode nan x : is_uN (width f) x -> decode f x <> S754_nan -> encode f nan (decode f x) = x.
Proof.
  intros Hx Hn. destruct (fields_range x) as [He Hm]. rewrite (pack_fields x Hx) at 2.
  exact (encode_unpack nan _ _ _ He Hm Hn).
Qed.

Lemma decode_encode nan v : valid_binary prec emax v = true -> v <> S754_nan -> decode f (encode f nan v) = v.
Proof.
  intros Hv Hn. destruct widths as (Hb & He & _). pose proof exponent_mask_eq as Hm. pose proof exponent_fields as Hef.
  pose proof min_exponent_eq. assert (2 <= emax) by (destruct Hf as (? & _ & _ & ?); lia).
  destruct v as [s|s| |s m e]; [rewrite encode_zero|rewrite encode_infinity|congruence|].
  - rewrite decode_pack by lia. unfold unpack. destruct (Z.eqb_spec 0 (exponent_mask f)); [lia|reflexivity].
  - rewrite decode_pack by lia. unfold unpack. rewrite Z.eqb_refl. reflexivity.
  - destruct (bounded_cases m e Hv) as (E1 & E2 & E3 & E4). cbn [encode].
    pose proof pow_prec as Hd.
    destruct (Z.ltb_spec (Zpos m) (2 ^ fb)).
    + replace (Z.pos m) with ((0 << fb) .| Z.pos m) at 1 by (rewrite Z.shiftl_0_l; reflexivity).
      rewrite lor_parts, decode_pack by lia. unfold unpack. destruct (Z.eqb_spec 0 (exponent_mask f)); [lia|].
      cbn [Z.eqb]. replace e with emn by lia. reflexivity.
    + rewrite lor_parts, decode_pack by lia. unfold unpack.
      destruct (Z.eqb_spec (e - emn + 1) (exponent_mask f)); [lia|]. destruct (Z.eqb_spec (e - emn + 1) 0); [lia|].
      replace (Z.pos m - 2 ^ fb + 2 ^ fb) with (Z.pos m) by lia. cbn [Z.to_pos]. f_equal. lia.
Qed.

(** ** Values *)

(** The value of a number in units of the smallest subnormal. *)
Definition scaled (v : spec_float) : Z :=
  match v with S754_finite s m e => cond_Zopp s (Zpos m * 2 ^ (e - emn)) | _ => 0 end.

Definition finite (v : spec_float) : Prop :=
  match v with S754_zero _ | S754_finite _ _ _ => True | _ => False end.

(** One, in those units. *)
Definition unit : Z := 2 ^ (- emn).

Lemma unit_pos : 0 < unit.
Proof. pose proof min_exponent_neg. apply Z.pow_pos_nonneg; lia. Qed.

Lemma magnitude_pos m e : emn <= e -> 0 < Zpos m * 2 ^ (e - emn).
Proof. intros. apply Z.mul_pos_pos; [lia|apply Z.pow_pos_nonneg; lia]. Qed.

(** A larger exponent means a larger magnitude. *)
Lemma exponent_order m1 e1 m2 e2 : bounded prec emax m1 e1 = true -> bounded prec emax m2 e2 = true -> e1 < e2 ->
  Zpos m1 * 2 ^ (e1 - emn) < Zpos m2 * 2 ^ (e2 - emn).
Proof.
  intros B1 B2 H. destruct (bounded_cases _ _ B1) as (L1 & _ & H1 & _), (bounded_cases _ _ B2) as (L2 & _ & _ & [[E _]|H2]); [lia|].
  pose proof pow_prec as Hd. replace (e2 - emn) with (1 + (e1 - emn) + (e2 - e1 - 1)) by lia.
  rewrite !pow_split by lia. change (2 ^ 1) with 2.
  assert (0 < 2 ^ (e1 - emn)) by (apply Z.pow_pos_nonneg; lia). assert (0 < 2 ^ (e2 - e1 - 1)) by (apply Z.pow_pos_nonneg; lia).
  apply Z.lt_le_trans with (2 * 2 ^ fb * 2 ^ (e1 - emn)); [nia|].
  apply Z.le_trans with (Z.pos m2 * 2 * 2 ^ (e1 - emn)); [nia|]. nia.
Qed.

Lemma compare_magnitude m1 e1 m2 e2 : bounded prec emax m1 e1 = true -> bounded prec emax m2 e2 = true ->
  match e1 ?= e2 with Lt => Lt | Gt => Gt | Eq => Pos.compare_cont Eq m1 m2 end =
  (Zpos m1 * 2 ^ (e1 - emn) ?= Zpos m2 * 2 ^ (e2 - emn)).
Proof.
  intros B1 B2. symmetry. destruct (Z.compare_spec e1 e2) as [->|H|H].
  - destruct (bounded_cases _ _ B1) as (L1 & _). change (Pos.compare_cont Eq m1 m2) with (Zpos m1 ?= Zpos m2).
    symmetry. rewrite (Z.mul_comm (Z.pos m1)), (Z.mul_comm (Z.pos m2)). apply Zmult_compare_compat_l.
    apply Z.lt_gt, Z.pow_pos_nonneg; lia.
  - apply Z.compare_lt_iff. exact (exponent_order _ _ _ _ B1 B2 H).
  - apply Z.compare_gt_iff. exact (exponent_order _ _ _ _ B2 B1 H).
Qed.

(** Comparison of floating-point numbers is comparison of their values. *)
Lemma SFcompare_scaled x y : finite x -> finite y -> valid_binary prec emax x = true -> valid_binary prec emax y = true ->
  SFcompare x y = Some (scaled x ?= scaled y).
Proof.
  intros Fx Fy Vx Vy. destruct x as [s| | |s m e]; try contradiction; destruct y as [t| | |t n g]; try contradiction;
    cbn [SFcompare scaled valid_binary] in *.
  - reflexivity.
  - pose proof (magnitude_pos n g (proj1 (bounded_cases _ _ Vy))). f_equal. symmetry.
    destruct t; cbn [cond_Zopp]; [apply Z.compare_gt_iff|apply Z.compare_lt_iff]; lia.
  - pose proof (magnitude_pos m e (proj1 (bounded_cases _ _ Vx))). f_equal. symmetry.
    destruct s; cbn [cond_Zopp]; [apply Z.compare_lt_iff|apply Z.compare_gt_iff]; lia.
  - pose proof (magnitude_pos m e (proj1 (bounded_cases _ _ Vx))). pose proof (magnitude_pos n g (proj1 (bounded_cases _ _ Vy))).
    f_equal. pose proof (compare_magnitude m e n g Vx Vy) as C. destruct s, t; cbn [cond_Zopp].
    + rewrite Z.compare_opp, (Z.compare_antisym (Z.pos m * 2 ^ (e - emn))), <- C.
      destruct (e ?= g); cbn [CompOpp]; reflexivity.
    + symmetry; apply Z.compare_lt_iff; lia.
    + symmetry; apply Z.compare_gt_iff; lia.
    + exact C.
Qed.

Lemma SFltb_scaled x y : finite x -> finite y -> valid_binary prec emax x = true -> valid_binary prec emax y = true ->
  SFltb x y = (scaled x <? scaled y).
Proof. intros. unfold SFltb. rewrite SFcompare_scaled by assumption. reflexivity. Qed.

Lemma SFeqb_scaled x y : finite x -> finite y -> valid_binary prec emax x = true -> valid_binary prec emax y = true ->
  SFeqb x y = (scaled x =? scaled y).
Proof.
  intros. unfold SFeqb. rewrite SFcompare_scaled, Z.eqb_compare by assumption. reflexivity.
Qed.

(** ** Rounding a representable value *)

Lemma iter_pos_iter {A} (g : A -> A) n x : iter_pos g n x = Pos.iter g x n.
Proof.
  revert x. induction n as [n IH|n IH|]; intros x; cbn [iter_pos Pos.iter]; [| |reflexivity].
  - rewrite !IH, <- Pos.iter_swap. f_equal. rewrite <- Pos.iter_swap. reflexivity.
  - rewrite !IH. reflexivity.
Qed.

Lemma shr_exact n m : Pos.iter shr_1 (Build_shr_record (Zpos m * 2 ^ Zpos n) false false) n = Build_shr_record (Zpos m) false false.
Proof.
  revert m. induction n as [|n IH] using Pos.peano_ind; intros m.
  - cbn [Pos.iter]. change (2 ^ 1) with 2. rewrite Z.mul_comm. reflexivity.
  - rewrite Pos.iter_succ_r, Pos2Z.inj_succ, Z.pow_succ_r by lia.
    replace (Z.pos m * (2 * 2 ^ Z.pos n)) with (2 * (Z.pos m * 2 ^ Z.pos n)) by ring.
    etransitivity; [|exact (IH m)]. f_equal. pose proof (Z.pow_pos_nonneg 2 (Z.pos n) ltac:(lia) ltac:(lia)).
    destruct (Z.pos m * 2 ^ Z.pos n) eqn:E; [lia|reflexivity|lia].
Qed.

Lemma fexp_bounded m e : bounded prec emax m e = true -> fexp prec emax (Zpos (digits2_pos m) + e) = e.
Proof. unfold bounded, canonical_mantissa. rewrite andb_true_iff, Z.eqb_eq. tauto. Qed.

(** Equal values have the same leading digit. *)
Lemma digits_value m e m0 e0 : emn <= e -> emn <= e0 -> Zpos m * 2 ^ (e - emn) = Zpos m0 * 2 ^ (e0 - emn) ->
  Zpos (digits2_pos m) + e = Zpos (digits2_pos m0) + e0.
Proof.
  intros He He0 E. apply (f_equal Z.log2) in E. rewrite !log2_scale in E by lia. rewrite !digits_log2. lia.
Qed.

Lemma shift_value m e m0 e0 : emn <= e -> e <= e0 -> Zpos m * 2 ^ (e - emn) = Zpos m0 * 2 ^ (e0 - emn) ->
  Zpos m = Zpos m0 * 2 ^ (e0 - e).
Proof.
  intros He He0 E. replace (e0 - emn) with (e0 - e + (e - emn)) in E by lia. rewrite pow_split, Z.mul_assoc in E by lia.
  apply Z.mul_reg_r in E; [exact E|]. pose proof (Z.pow_pos_nonneg 2 (e - emn)). lia.
Qed.

Lemma shr_fexp_exact m e m0 e0 : bounded prec emax m0 e0 = true -> emn <= e -> e <= e0 ->
  Zpos m * 2 ^ (e - emn) = Zpos m0 * 2 ^ (e0 - emn) ->
  shr_fexp prec emax (Zpos m) e loc_Exact = (Build_shr_record (Zpos m0) false false, e0).
Proof.
  intros B He Hle E. destruct (bounded_cases _ _ B) as (He0 & _). unfold shr_fexp. cbn [Zdigits2 shr_record_of_loc].
  pose proof (shift_value m e m0 e0 He Hle E) as Hs.
  rewrite (digits_value m e m0 e0 He He0 E), (fexp_bounded _ _ B). destruct (e0 - e) as [|d|d] eqn:D; [| |lia]; cbn [shr].
  - rewrite Hs, Z.mul_1_r. replace e with e0 by lia. reflexivity.
  - rewrite iter_pos_iter, Hs, shr_exact. replace (e + Z.pos d) with e0 by lia. reflexivity.
Qed.

Lemma round_aux_exact s m e m0 e0 : bounded prec emax m0 e0 = true -> emn <= e -> e <= e0 ->
  Zpos m * 2 ^ (e - emn) = Zpos m0 * 2 ^ (e0 - emn) ->
  binary_round_aux prec emax s (Zpos m) e loc_Exact = S754_finite s m0 e0.
Proof.
  intros B He Hle E. destruct (bounded_cases _ _ B) as (He0 & Hm & _). unfold binary_round_aux.
  rewrite (shr_fexp_exact m e m0 e0 B He Hle E). cbn [shr_m loc_of_shr_record round_nearest_even].
  rewrite (shr_fexp_exact m0 e0 m0 e0 B He0 (Z.le_refl _) eq_refl). cbn [shr_m].
  destruct (Z.leb_spec e0 (emax - prec)); [reflexivity|lia].
Qed.

Lemma iter_xO m d : Zpos (Pos.iter xO m d) = Zpos m * 2 ^ Zpos d.
Proof.
  induction d as [|d IH] using Pos.peano_ind; [cbn; lia|].
  rewrite Pos.iter_succ, Pos2Z.inj_xO, IH, Pos2Z.inj_succ, Z.pow_succ_r by lia. ring.
Qed.

Lemma binary_round_exact s m e m0 e0 : bounded prec emax m0 e0 = true -> emn <= e ->
  Zpos m * 2 ^ (e - emn) = Zpos m0 * 2 ^ (e0 - emn) -> binary_round prec emax s m e = S754_finite s m0 e0.
Proof.
  intros B He E. destruct (bounded_cases _ _ B) as (He0 & Hm & _).
  unfold binary_round, shl_align. rewrite (digits_value m e m0 e0 He He0 E), (fexp_bounded _ _ B).
  destruct (e0 - e) as [|d|d] eqn:D; [apply round_aux_exact; lia || assumption..|].
  assert (Pos.iter xO m d = m0) as ->.
  { apply Pos2Z.inj. rewrite iter_xO, (shift_value m0 e0 m e He0 ltac:(lia) (eq_sym E)). do 2 f_equal. lia. }
  apply round_aux_exact; lia || assumption || reflexivity.
Qed.

(** ** Representable values *)

Definition representable (a : Z) : Prop := exists m0 e0, bounded prec emax m0 e0 = true /\ a = Zpos m0 * 2 ^ (e0 - emn).

(** [v] is the number of value [a]. *)
Definition denotes (v : spec_float) (a : Z) : Prop := finite v /\ valid_binary prec emax v = true /\ scaled v = a.

(** Few digits and a bounded magnitude. *)
Lemma representable_intro b k : 0 < b < 2 ^ prec -> 0 <= k -> b * 2 ^ k < 2 ^ (emax - emn) -> representable (b * 2 ^ k).
Proof.
  intros Hb Hk Hm. pose proof prec_pos as Hp. pose proof min_exponent_eq as He.
  assert (0 < b * 2 ^ k) by (apply Z.mul_pos_pos; [lia|apply Z.pow_pos_nonneg; lia]).
  pose proof (log2_scale b k ltac:(lia) Hk) as L. set (a := b * 2 ^ k) in *.
  assert (Z.log2 b < prec) by (apply Z.log2_lt_pow2; lia).
  assert (Z.log2 a < emax - emn) by (apply Z.log2_lt_pow2; lia). pose proof (Z.log2_nonneg b).
  destruct (Z.le_gt_cases (Z.log2 a + 1) prec) as [Hs|Hs].
  - exists (Z.to_pos a), emn. rewrite Z2Pos.id, Z.sub_diag, Z.mul_1_r by lia. split; [|reflexivity].
    apply cases_bounded; rewrite ?Z2Pos.id by lia; try lia.
    + destruct Hf as (_ & _ & _ & ?). lia.
    + apply Z.log2_lt_pow2; lia.
  - set (t := Z.log2 a + 1 - prec) in *.
    assert (0 < b * 2 ^ (k - t)) by (apply Z.mul_pos_pos; [lia|apply Z.pow_pos_nonneg; lia]).
    pose proof (log2_scale b (k - t) ltac:(lia) ltac:(lia)) as L'.
    exists (Z.to_pos (b * 2 ^ (k - t))), (emn + t). rewrite Z2Pos.id by lia. split.
    + apply cases_bounded; rewrite ?Z2Pos.id by lia; try lia.
      * apply Z.log2_lt_pow2; lia.
      * right. apply Z.log2_le_pow2; [lia|]. unfold fraction_bits. lia.
    + replace (emn + t - emn) with t by lia. rewrite <- Z.mul_assoc, <- pow_split by lia. unfold a. do 2 f_equal. lia.
Qed.

Lemma denotes_zero s : denotes (S754_zero s) 0.
Proof. repeat split. Qed.

Lemma denotes_finite s m e : bounded prec emax m e = true -> denotes (S754_finite s m e) (cond_Zopp s (Zpos m * 2 ^ (e - emn))).
Proof. intros B. repeat split. exact B. Qed.

Lemma round_denotes s m e : emn <= e -> representable (Zpos m * 2 ^ (e - emn)) ->
  denotes (binary_round prec emax s m e) (cond_Zopp s (Zpos m * 2 ^ (e - emn))).
Proof.
  intros He (m0 & e0 & B & E). rewrite (binary_round_exact s m e m0 e0 B He E), E. apply denotes_finite, B.
Qed.

Lemma normalize_denotes K e z : emn <= e -> K = 0 \/ representable (Z.abs K * 2 ^ (e - emn)) ->
  denotes (binary_normalize prec emax K e z) (K * 2 ^ (e - emn)).
Proof.
  intros He R. destruct K as [|m|m]; cbn [binary_normalize]; [apply denotes_zero| |]; destruct R as [R|R]; try discriminate R.
  - exact (round_denotes false m e He R).
  - replace (Z.neg m * 2 ^ (e - emn)) with (cond_Zopp true (Z.pos m * 2 ^ (e - emn))) by (cbn [cond_Zopp]; lia).
    exact (round_denotes true m e He R).
Qed.

(** Both operands of a sum at the smaller exponent. *)
Lemma align_value m e ez : emn <= ez -> ez <= e -> Zpos (fst (shl_align m e ez)) * 2 ^ (ez - emn) = Zpos m * 2 ^ (e - emn).
Proof.
  intros H1 H2. unfold shl_align. destruct (ez - e) as [|d|d] eqn:D; [|lia|]; cbn [fst].
  - replace ez with e by lia. reflexivity.
  - rewrite iter_xO, <- Z.mul_assoc, <- pow_split by lia. do 2 f_equal. lia.
Qed.

Lemma cond_opp_mul s a c : cond_Zopp s a * c = cond_Zopp s (a * c).
Proof. destruct s; cbn; lia. Qed.

Lemma sum_denotes e g K : emn <= e -> emn <= g -> let ez := Z.min e g in
  K * 2 ^ (ez - emn) = 0 \/ representable (Z.abs (K * 2 ^ (ez - emn))) -> denotes (binary_normalize prec emax K ez false) (K * 2 ^ (ez - emn)).
Proof.
  intros He Hg ez R. assert (0 < 2 ^ (ez - emn)) by (apply Z.pow_pos_nonneg; lia).
  apply normalize_denotes; [lia|]. destruct R as [R|R]; [left; nia|right].
  rewrite Z.abs_mul, (Z.abs_eq (2 ^ _)) in R by lia. exact R.
Qed.

Lemma SFsub_denotes x y a b : denotes x a -> denotes y b -> a - b = 0 \/ representable (Z.abs (a - b)) ->
  denotes (SFsub_ f x y) (a - b).
Proof.
  intros (Fx & Vx & <-) (Fy & Vy & <-) R. unfold SFsub_.
  destruct x as [s| | |s m e]; try contradiction; destruct y as [t| | |t n g]; try contradiction; cbn [SFsub scaled] in *.
  - destruct s, t; apply denotes_zero.
  - replace (0 - cond_Zopp t (Z.pos n * 2 ^ (g - emn))) with (cond_Zopp (negb t) (Z.pos n * 2 ^ (g - emn))) by (destruct t; cbn; lia).
    apply denotes_finite, Vy.
  - rewrite Z.sub_0_r. apply denotes_finite, Vx.
  - destruct (bounded_cases _ _ Vx) as (He & _), (bounded_cases _ _ Vy) as (Hg & _).
    pose proof (align_value m e (Z.min e g) ltac:(lia) ltac:(lia)) as A1. pose proof (align_value n g (Z.min e g) ltac:(lia) ltac:(lia)) as A2.
    rewrite <- A1, <- A2, <- !cond_opp_mul, <- Z.mul_sub_distr_r in R |- *. exact (sum_denotes e g _ He Hg R).
Qed.

Lemma SFadd_denotes x y a b : denotes x a -> denotes y b -> a + b = 0 \/ representable (Z.abs (a + b)) ->
  denotes (SFadd_ f x y) (a + b).
Proof.
  intros (Fx & Vx & <-) (Fy & Vy & <-) R. unfold SFadd_.
  destruct x as [s| | |s m e]; try contradiction; destruct y as [t| | |t n g]; try contradiction; cbn [SFadd scaled] in *.
  - destruct s, t; apply denotes_zero.
  - rewrite Z.add_0_l. apply denotes_finite, Vy.
  - rewrite Z.add_0_r. apply denotes_finite, Vx.
  - destruct (bounded_cases _ _ Vx) as (He & _), (bounded_cases _ _ Vy) as (Hg & _).
    pose proof (align_value m e (Z.min e g) ltac:(lia) ltac:(lia)) as A1. pose proof (align_value n g (Z.min e g) ltac:(lia) ltac:(lia)) as A2.
    rewrite <- A1, <- A2, <- !cond_opp_mul, <- Z.mul_add_distr_r in R |- *. exact (sum_denotes e g _ He Hg R).
Qed.

(** ** Rounding to an integral value *)

(** The magnitude [a], in units, rounded to an integer: [up] decides from the
    integer part, the remainder and the unit. *)
Definition rounded (up : Z -> Z -> Z -> bool) (a : Z) : Z :=
  let q := a / unit in if up q (a mod unit) unit then q + 1 else q.

(** [up] depends on the fraction only, and leaves integers alone. *)
Definition fair (up : Z -> Z -> Z -> bool) : Prop :=
  (forall q d, 0 < d -> up q 0 d = false) /\ (forall q r d c, 0 < c -> up q (r * c) (d * c) = up q r d).

Lemma integer_representable n : 0 < n < 2 ^ prec -> representable (n * unit).
Proof.
  intros Hn. pose proof min_exponent_neg. apply representable_intro; [exact Hn|lia|].
  replace (emax - emn) with (emax + - emn) by lia. destruct Hf as (? & _ & _ & ?). rewrite pow_split by lia.
  apply Z.mul_lt_mono_pos_r; [apply Z.pow_pos_nonneg; lia|].
  apply Z.lt_trans with (2 ^ prec); [lia|apply Z.pow_lt_mono_r; lia].
Qed.

(** A magnitude below the exponent of one: its unit and its fraction. *)
Lemma split_unit m e : bounded prec emax m e = true -> e < 0 ->
  let c := 2 ^ (e - emn) in let d := 2 ^ (- e) in
  0 < c /\ 0 < d /\ unit = d * c /\ Zpos m * c / unit = Zpos m / d /\ (Zpos m * c) mod unit = (Zpos m mod d) * c.
Proof.
  intros B He c d. destruct (bounded_cases _ _ B) as (Hm & _).
  assert (0 < c) by (apply Z.pow_pos_nonneg; lia). assert (0 < d) by (apply Z.pow_pos_nonneg; lia).
  assert (unit = d * c) as -> by (unfold unit, d, c; rewrite <- pow_split by lia; f_equal; lia).
  repeat split; try assumption.
  - apply Z.div_mul_cancel_r; lia.
  - apply Z.mul_mod_distr_r; lia.
Qed.

Lemma unit_multiple m e : emn <= e -> 0 <= e -> Zpos m * 2 ^ (e - emn) = Zpos m * 2 ^ e * unit.
Proof. intros H0 H. pose proof min_exponent_neg. unfold unit. rewrite <- Z.mul_assoc, <- pow_split by lia. reflexivity. Qed.

Lemma rounded_small up m e : bounded prec emax m e = true -> e < 0 -> 0 <= rounded up (Zpos m * 2 ^ (e - emn)) <= 2 ^ fb.
Proof.
  intros B He. destruct (bounded_cases _ _ B) as (_ & _ & Hm & _), (split_unit m e B He) as (Hc & Hd & _ & Hq & _).
  unfold rounded. rewrite Hq. pose proof pow_prec as Hp. pose proof widths as (Hb & _).
  assert (0 <= Zpos m / 2 ^ (- e) < 2 ^ fb) as Hr.
  { split; [apply Z.div_pos; lia|]. apply Z.div_lt_upper_bound; [lia|].
    assert (2 ^ 1 <= 2 ^ (- e)) by (apply Z.pow_le_mono_r; lia). change (2 ^ 1) with 2 in *. nia. }
  destruct (up _ _ _); lia.
Qed.

Lemma integral_denotes up s m e : bounded prec emax m e = true -> fair (up s) ->
  denotes (integral f up (S754_finite s m e)) (cond_Zopp s (rounded (up s) (Zpos m * 2 ^ (e - emn)) * unit)).
Proof.
  intros B [F0 Fc]. pose proof unit_pos as Hu. destruct (bounded_cases _ _ B) as (He & _ & _ & _). cbn [integral].
  destruct (Z.leb_spec 0 e) as [H|H].
  - replace (rounded (up s) _ * unit) with (Zpos m * 2 ^ (e - emn)); [apply denotes_finite, B|].
    rewrite (unit_multiple m e He H). unfold rounded. rewrite Z.div_mul, Z.mod_mul, F0 by lia. reflexivity.
  - pose proof (rounded_small (up s) m e B H) as Hn. destruct (split_unit m e B H) as (Hc & Hd & Hun & Hq & Hr).
    assert (rounded (up s) (Zpos m * 2 ^ (e - emn)) =
      if up s (Zpos m / 2 ^ (- e)) (Zpos m mod 2 ^ (- e)) (2 ^ (- e)) then Zpos m / 2 ^ (- e) + 1 else Zpos m / 2 ^ (- e)) as E.
    { unfold rounded. rewrite Hq, Hr. rewrite Hun at 1. rewrite Fc by exact Hc. reflexivity. }
    rewrite <- E. destruct (rounded (up s) _) as [|n|n]; [destruct s; apply denotes_zero| |lia].
    pose proof min_exponent_neg. unfold unit. replace (- emn) with (0 - emn) by lia. apply round_denotes; [lia|].
    replace (0 - emn) with (- emn) by lia. apply integer_representable. pose proof pow_prec. pose proof widths as (? & _).
    assert (0 < 2 ^ fb) by (apply Z.pow_pos_nonneg; lia). lia.
Qed.

(** The value of an integral number. *)
Lemma to_int_denotes v n : denotes v (n * unit) -> to_int v = n.
Proof.
  pose proof unit_pos as Hu. intros (F & V & E). destruct v as [s| | |s m e]; try contradiction; cbn [scaled to_int] in *; [nia|].
  destruct (bounded_cases _ _ V) as (He & _). destruct (Z.leb_spec 0 e) as [H|H].
  - rewrite (unit_multiple m e He H) in E. destruct s; cbn [cond_Zopp] in *; nia.
  - destruct (split_unit m e V H) as (Hc & Hd & Hun & Hq & _). rewrite <- Hq.
    replace (Z.pos m * 2 ^ (e - emn)) with (cond_Zopp s n * unit) by (destruct s; cbn [cond_Zopp] in *; lia).
    rewrite Z.div_mul by lia. destruct s; cbn; lia.
Qed.

(** The decisions of the four library functions. *)
Definition up_trunc (s : bool) (q r d : Z) : bool := false.
Definition up_floor (s : bool) (q r d : Z) : bool := s && negb (r =? 0).
Definition up_ceil (s : bool) (q r d : Z) : bool := negb s && negb (r =? 0).
Definition up_round (s : bool) (q r d : Z) : bool := d <=? 2 * r.
(** Ties to even, what [roundeven] is to compute. *)
Definition up_even (s : bool) (q r d : Z) : bool := (d <? 2 * r) || ((d =? 2 * r) && Z.odd q).

Lemma fair_trunc s : fair (up_trunc s).
Proof. split; reflexivity. Qed.
Lemma scale_eqb0 r c : 0 < c -> (r * c =? 0) = (r =? 0).
Proof. intros. destruct (Z.eqb_spec r 0) as [->|]; [reflexivity|]. apply Z.eqb_neq. nia. Qed.
Lemma fair_floor s : fair (up_floor s).
Proof. split; unfold up_floor; intros; [destruct s; reflexivity|rewrite scale_eqb0 by assumption; reflexivity]. Qed.
Lemma fair_ceil s : fair (up_ceil s).
Proof. split; unfold up_ceil; intros; [destruct s; reflexivity|rewrite scale_eqb0 by assumption; reflexivity]. Qed.
Lemma fair_round s : fair (up_round s).
Proof. split; unfold up_round; intros; [lia|]. destruct (Z.leb_spec d (2 * r)); [apply Z.leb_le|apply Z.leb_gt]; nia. Qed.

(** ** [roundeven] *)

Lemma half_denotes : exists h, denotes (SFhalf f) h /\ 2 * h = unit.
Proof.
  pose proof min_exponent_neg. pose proof prec_pos. exists (1 * 2 ^ (-1 - emn)). split.
  - apply (round_denotes false 1 (-1)); [lia|]. apply representable_intro; [|lia|].
    + split; [lia|]. apply Z.pow_gt_1; lia.
    + rewrite Z.mul_1_l. apply Z.pow_lt_mono_r; destruct Hf as (? & _ & _ & ?); lia.
  - unfold unit. replace (- emn) with (1 + (-1 - emn)) by lia. rewrite pow_split by lia. lia.
Qed.

Lemma one_denotes : denotes (SFof_int f 1) unit.
Proof.
  pose proof min_exponent_neg. pose proof prec_pos. unfold SFof_int, unit. rewrite <- (Z.mul_1_l (2 ^ (- emn))). change (- emn) with (0 - emn).
  apply normalize_denotes; [lia|]. right. change (Z.abs 1) with 1. replace (0 - emn) with (- emn) by lia.
  apply integer_representable. split; [lia|]. apply Z.pow_gt_1; lia.
Qed.

(** [fmod(x, 2) != 0] of an integral [x]. *)
Lemma odd_fmod2 v s n : denotes v (cond_Zopp s n * unit) -> 0 <= n <= 2 ^ fb ->
  negb (SFeqb (SFfmod2 f v) (S754_zero false)) = Z.odd n.
Proof.
  pose proof unit_pos as Hu. intros (F & V & E) Hn. pose proof widths as (Hb & _). pose proof pow_prec as Hp.
  destruct v as [t| | |t m e]; try contradiction; cbn [scaled SFfmod2] in *.
  { destruct s; cbn [cond_Zopp] in E; assert (n = 0) as -> by nia; destruct t; reflexivity. }
  destruct (bounded_cases _ _ V) as (He & _ & Hm & _).
  assert (Zpos m * 2 ^ (e - emn) = n * unit) as A by (pose proof (magnitude_pos m e He); destruct s, t; cbn [cond_Zopp] in E; nia).
  destruct (Z.leb_spec 1 e) as [H|H].
  - rewrite (unit_multiple m e He ltac:(lia)) in A. apply Z.mul_reg_r in A; [|lia].
    replace (2 ^ e) with (2 * 2 ^ (e - 1)) in A by (rewrite <- (Z.pow_succ_r 2) by lia; f_equal; lia).
    rewrite <- A, Z.mul_assoc, (Z.mul_comm (Z.pos m)), <- Z.mul_assoc, Z.odd_mul. destruct t; reflexivity.
  - assert (Zpos m = n * 2 ^ (- e)) as Hmn.
    { apply Z.mul_reg_r with (2 ^ (e - emn)); [pose proof (Z.pow_pos_nonneg 2 (e - emn)); lia|].
      rewrite A, <- Z.mul_assoc, <- pow_split by lia. unfold unit. do 2 f_equal. lia. }
    assert (Zpos m mod 2 ^ (1 - e) = (n mod 2) * 2 ^ (- e)) as ->.
    { replace (1 - e) with (1 + - e) by lia. rewrite Hmn, pow_split by lia. apply Z.mul_mod_distr_r; [lia|].
      pose proof (Z.pow_pos_nonneg 2 (- e)). lia. }
    rewrite Zmod_odd. destruct (Z.odd n) eqn:O; [|destruct t; reflexivity]. rewrite Z.mul_1_l.
    destruct (2 ^ (- e)) as [|r|r] eqn:Er; [pose proof (Z.pow_pos_nonneg 2 (- e)); lia| |pose proof (Z.pow_pos_nonneg 2 (- e)); lia].
    assert (0 < n) by (destruct n; [discriminate|lia|lia]).
    destruct (round_denotes t r e He) as (F' & V' & S').
    { apply representable_intro; [rewrite <- Er in *; nia|lia|]. rewrite <- Er, <- pow_split by lia.
      replace (- e + (e - emn)) with (- emn) by lia. apply Z.pow_lt_mono_r; destruct Hf as (? & _ & _ & ?); lia. }
    rewrite SFeqb_scaled, S' by (exact I || assumption || reflexivity). cbn [scaled].
    pose proof (magnitude_pos r e He). destruct t; cbn [cond_Zopp]; apply negb_true_iff, Z.eqb_neq; lia.
Qed.

Lemma magnitude_bound m e : bounded prec emax m e = true -> Zpos m * 2 ^ (e - emn) < 2 ^ (emax - emn).
Proof.
  intros B. destruct (bounded_cases _ _ B) as (He & Hx & Hm & _). pose proof prec_pos.
  apply Z.lt_le_trans with (2 ^ prec * 2 ^ (e - emn)).
  - apply Z.mul_lt_mono_pos_r; [apply Z.pow_pos_nonneg; lia|exact Hm].
  - rewrite <- pow_split by lia. apply Z.pow_le_mono_r; lia.
Qed.

(** The difference between a number and its rounding needs no more digits. *)
Lemma difference_representable s m e : bounded prec emax m e = true ->
  let a := Zpos m * 2 ^ (e - emn) in let n := rounded (up_round s) a in
  a - n * unit = 0 \/ representable (Z.abs (a - n * unit)).
Proof.
  intros B a n. pose proof unit_pos as Hu. destruct (bounded_cases _ _ B) as (He & Hx & Hm & _).
  destruct (Z.leb_spec 0 e) as [H|H].
  { left. unfold n, a. rewrite (unit_multiple m e He H). unfold rounded, up_round. rewrite Z.div_mul, Z.mod_mul by lia.
    destruct (Z.leb_spec unit (2 * 0)); lia. }
  destruct (split_unit m e B H) as (Hc & Hd & Hun & Hq & Hr). fold a in Hq, Hr.
  pose proof (Z.div_mod (Z.pos m) (2 ^ (- e)) ltac:(lia)) as Dm. pose proof (Z.mod_pos_bound (Z.pos m) (2 ^ (- e)) Hd) as Mb.
  pose proof (Z.div_pos (Z.pos m) (2 ^ (- e)) ltac:(lia) Hd) as Qb.
  set (k := Zpos m - n * 2 ^ (- e)). assert (Z.abs k <= Zpos m) as Hk.
  { unfold k, n, rounded, up_round. rewrite Hq, Hr, Hun. destruct (Z.leb_spec (2 ^ (- e) * 2 ^ (e - emn)) (2 * (Z.pos m mod 2 ^ (- e) * 2 ^ (e - emn)))); nia. }
  assert (a - n * unit = k * 2 ^ (e - emn)) as -> by (unfold k, a; rewrite Hun; ring).
  destruct (Z.eq_dec k 0) as [->|Hk0]; [left; lia|right]. rewrite Z.abs_mul, (Z.abs_eq (2 ^ _)) by lia.
  apply representable_intro; [lia|lia|].
  apply Z.le_lt_trans with (Zpos m * 2 ^ (e - emn)); [apply Z.mul_le_mono_nonneg_r; lia|apply magnitude_bound, B].
Qed.

(** A tie is a remainder of half a unit. *)
Lemma tie_distance s a h : 2 * h = unit -> 0 <= a ->
  (Z.abs (a - rounded (up_round s) a * unit) =? h) = (unit =? 2 * (a mod unit)).
Proof.
  intros Hh Ha. pose proof unit_pos as Hu. pose proof (Z.div_mod a unit ltac:(lia)). pose proof (Z.mod_pos_bound a unit Hu).
  unfold rounded, up_round.
  destruct (Z.leb_spec unit (2 * (a mod unit))); destruct (Z.eqb_spec unit (2 * (a mod unit))); (apply Z.eqb_eq || apply Z.eqb_neq); nia.
Qed.

Lemma SFabs_denotes v a : denotes v a -> denotes (SFabs v) (Z.abs a).
Proof.
  intros (F & V & <-). destruct v as [s| | |s m e]; try contradiction; [apply denotes_zero|]. cbn [SFabs scaled].
  pose proof (magnitude_pos m e (proj1 (bounded_cases _ _ V))).
  replace (Z.abs _) with (cond_Zopp false (Z.pos m * 2 ^ (e - emn))) by (destruct s; cbn [cond_Zopp]; lia). apply denotes_finite, V.
Qed.

Lemma SFeqb_denotes v w a b : denotes v a -> denotes w b -> SFeqb v w = (a =? b).
Proof. intros (? & ? & <-) (? & ? & <-). apply SFeqb_scaled; assumption. Qed.

Lemma SFltb_denotes v w a b : denotes v a -> denotes w b -> SFltb v w = (a <? b).
Proof. intros (? & ? & <-) (? & ? & <-). apply SFltb_scaled; assumption. Qed.

(** Rounding half away and then stepping back from odd ties is rounding half to even. *)
Lemma even_of_round s a : 0 <= a -> let n := rounded (up_round s) a in
  rounded (up_even s) a = if (unit =? 2 * (a mod unit)) && Z.odd n then n - 1 else n.
Proof.
  intros Ha n. unfold n, rounded, up_round, up_even.
  destruct (Z.leb_spec unit (2 * (a mod unit))); destruct (Z.ltb_spec unit (2 * (a mod unit)));
    destruct (Z.eqb_spec unit (2 * (a mod unit))); try lia; cbn [orb andb]; try reflexivity.
  rewrite Z.odd_add, <- Z.negb_even, xorb_true_r. destruct (Z.even (a / unit)); cbn [negb]; lia.
Qed.

Lemma roundeven_denotes s m e : bounded prec emax m e = true ->
  denotes (SFroundeven f (S754_finite s m e)) (cond_Zopp s (rounded (up_even s) (Zpos m * 2 ^ (e - emn)) * unit)).
Proof.
  intros B. pose proof unit_pos as Hu. destruct half_denotes as (h & Dh & Hh). pose proof (denotes_finite s m e B) as Dx.
  pose proof (integral_denotes up_round s m e B (fair_round s)) as Dr. pose proof (magnitude_pos m e (proj1 (bounded_cases _ _ B))) as Ha.
  pose proof (difference_representable s m e B) as Rd. rewrite (even_of_round s) by lia.
  unfold SFroundeven. change (SFround f) with (integral f up_round). set (v := S754_finite s m e) in *. set (r := integral f up_round v) in *.
  set (a := Zpos m * 2 ^ (e - emn)) in *. set (n := rounded (up_round s) a) in *.
  assert (denotes (SFsub_ f v r) (cond_Zopp s (a - n * unit))) as Ds.
  { replace (cond_Zopp s (a - n * unit)) with (cond_Zopp s a - cond_Zopp s (n * unit)) by (destruct s; cbn [cond_Zopp]; lia).
    apply SFsub_denotes; [exact Dx|exact Dr|]. destruct s; cbn [cond_Zopp]; [|exact Rd].
    replace (- a - - (n * unit)) with (- (a - n * unit)) by lia. rewrite Z.abs_opp. destruct Rd as [Rd|Rd]; [left; lia|right; exact Rd]. }
  rewrite (SFeqb_denotes _ _ _ _ (SFabs_denotes _ _ Ds) Dh).
  replace (Z.abs (cond_Zopp s (a - n * unit))) with (Z.abs (a - n * unit)) by (destruct s; cbn [cond_Zopp]; lia).
  unfold n. rewrite (tie_distance s a h Hh) by lia. fold n.
  destruct (Z.eqb_spec unit (2 * (a mod unit))) as [T|T]; cbn [andb]; [|exact Dr].
  assert (e < 0) as He.
  { apply Z.nle_gt. intros He. revert T. unfold a. rewrite (unit_multiple m e (proj1 (bounded_cases _ _ B)) He), Z.mod_mul; lia. }
  pose proof (rounded_small (up_round s) m e B He) as Hn. fold a n in Hn.
  rewrite (odd_fmod2 r s n); [|rewrite cond_opp_mul; exact Dr|exact Hn].
  destruct (Z.odd n) eqn:O; [|exact Dr]. rewrite (SFltb_denotes _ _ _ _ (denotes_zero false) Dr).
  assert (0 < n) by (destruct n; [discriminate|lia|lia]).
  assert ((n - 1) * unit = 0 \/ representable (Z.abs ((n - 1) * unit))) as R1.
  { destruct (Z.eq_dec n 1) as [->|]; [left; lia|right]. rewrite Z.abs_eq by nia. apply integer_representable.
    pose proof pow_prec. lia. }
  destruct s; cbn [cond_Zopp] in *.
  - destruct (Z.ltb_spec 0 (- (n * unit))); [nia|]. replace (- ((n - 1) * unit)) with (- (n * unit) + unit) by ring.
    apply SFadd_denotes; [exact Dr|exact one_denotes|]. replace (- (n * unit) + unit) with (- ((n - 1) * unit)) by ring.
    rewrite Z.abs_opp. destruct R1 as [->|R1]; auto.
  - destruct (Z.ltb_spec 0 (n * unit)); [|nia]. replace ((n - 1) * unit) with (n * unit - unit) in * by ring.
    apply SFsub_denotes; [exact Dr|exact one_denotes|exact R1].
Qed.

(** ** [Round] *)

Definition rounding_ups (rounding : Z) : bool -> Z -> Z -> Z -> bool :=
  if rounding =? RNE then up_even else if rounding =? RTZ then up_trunc else if rounding =? RDN then up_floor
  else if rounding =? RUP then up_ceil else up_round.

Definition static_mode (rounding : Z) : Prop := 0 <= rounding <= 4.

(** The value [V], in units, rounded to an integer. *)
Definition round_value (rounding V : Z) : Z :=
  cond_Zopp (V <? 0) (rounded (rounding_ups rounding (V <? 0)) (Z.abs V)).

Lemma scaled_sign s m e : emn <= e -> let V := scaled (S754_finite s m e) in
  (V <? 0) = s /\ Z.abs V = Zpos m * 2 ^ (e - emn).
Proof.
  intros He. pose proof (magnitude_pos m e He). cbn [scaled]. destruct s; cbn [cond_Zopp]; split; lia.
Qed.

Lemma denotes_not_nan v a : denotes v a -> v <> S754_nan.
Proof. intros (F & _) ->. exact F. Qed.

Lemma Round_ok x rounding : finite (decode f x) -> static_mode rounding ->
  exists r, Round_ f x rounding = Ok r /\ denotes (decode f r) (round_value rounding (scaled (decode f x)) * unit).
Proof.
  intros F M. pose proof (decode_valid x) as V. unfold Round_, fpclassify. destruct (decode f x) as [s| | |s m e] eqn:E; try contradiction.
  - exists x. split; [reflexivity|]. rewrite E. cbn [scaled]. unfold round_value, rounded. cbn [Z.ltb Z.compare Z.abs cond_Zopp].
    rewrite Z.mod_0_l, Z.div_0_l by (pose proof unit_pos; lia).
    replace (rounding_ups rounding false 0 0 unit) with false; [apply denotes_zero|].
    pose proof unit_pos. unfold rounding_ups.
    destruct (rounding =? RNE); [unfold up_even; lia|]. destruct (rounding =? RTZ); [reflexivity|].
    destruct (rounding =? RDN); [reflexivity|]. destruct (rounding =? RUP); [reflexivity|unfold up_round; lia].
  - destruct (scaled_sign s m e (proj1 (bounded_cases _ _ V))) as [Hs Ha].
    unfold round_value. rewrite Hs, Ha, cond_opp_mul.
    assert (forall v, denotes v (cond_Zopp s (rounded (rounding_ups rounding s) (Z.pos m * 2 ^ (e - emn)) * unit)) ->
      exists r, Ok (encode f (quiet_NaN f) v) = Ok r /\ denotes (decode f r)
        (cond_Zopp s (rounded (rounding_ups rounding s) (Z.pos m * 2 ^ (e - emn)) * unit))) as K.
    { intros v D. eexists. split; [reflexivity|]. rewrite decode_encode; [exact D|apply D|exact (denotes_not_nan _ _ D)]. }
    destruct (Zpos m <? _); unfold static_mode in M;
    (assert (rounding = 0 \/ rounding = 1 \/ rounding = 2 \/ rounding = 3 \/ rounding = 4) as [->|[->|[->|[->| ->]]]] by lia;
      cbn [Z.eqb RoundingMode_value Pos.eqb] in K |- *; apply K;
      [apply roundeven_denotes, V|apply (integral_denotes up_trunc); [exact V|apply fair_trunc]
      |apply (integral_denotes up_floor); [exact V|apply fair_floor]|apply (integral_denotes up_ceil); [exact V|apply fair_ceil]
      |apply (integral_denotes up_round); [exact V|apply fair_round]]).
Qed.

(** The same on signed values, with the operations of [Z]: nearest (ties to even), towards
    zero, down, up, nearest (ties away from zero). *)
Definition round_ref (rounding V D : Z) : Z :=
  if rounding =? RNE then
    let q := V / D in let r := V mod D in
    if 2 * r <? D then q else if D <? 2 * r then q + 1 else if Z.even q then q else q + 1
  else if rounding =? RTZ then Z.quot V D
  else if rounding =? RDN then V / D
  else if rounding =? RUP then - (- V / D)
  else Z.sgn V * ((2 * Z.abs V + D) / (2 * D)).

Ltac split_ifs := repeat match goal with |- context [if ?b then _ else _] => destruct b eqn:? end.

(** Quotient and remainder of a negated number. *)
Lemma div_mod_opp a D : 0 < D ->
  (a mod D = 0 /\ - a / D = - (a / D) /\ - a mod D = 0) \/
  (0 < a mod D /\ - a / D = - (a / D) - 1 /\ - a mod D = D - a mod D).
Proof.
  intros HD. pose proof (Z.mod_pos_bound a D HD). destruct (Z.eq_dec (a mod D) 0) as [E|E].
  - left. rewrite Z.div_opp_l_z, Z.mod_opp_l_z by lia. auto.
  - right. rewrite Z.div_opp_l_nz, Z.mod_opp_l_nz by lia. lia.
Qed.

Lemma nearest_away a D : 0 < D -> (2 * a + D) / (2 * D) = if D <=? 2 * (a mod D) then a / D + 1 else a / D.
Proof.
  intros HD. pose proof (Z.div_mod a D ltac:(lia)) as E. pose proof (Z.mod_pos_bound a D HD).
  destruct (Z.leb_spec D (2 * (a mod D))); symmetry.
  - apply Z.div_unique with (2 * (a mod D) - D); lia.
  - apply Z.div_unique with (2 * (a mod D) + D); lia.
Qed.

Lemma round_value_ref rounding V : static_mode rounding -> round_value rounding V = round_ref rounding V unit.
Proof.
  pose proof unit_pos as Hu. intros M. unfold static_mode in M. unfold round_value.
  assert (0 <= V \/ V < 0 /\ 0 < - V) as [H|[H H']] by lia.
  - rewrite (proj2 (Z.ltb_ge V 0) H), Z.abs_eq by lia. cbn [cond_Zopp]. unfold rounded.
    pose proof (div_mod_opp V unit Hu) as O. pose proof (Z.mod_pos_bound V unit Hu).
    assert (rounding = 0 \/ rounding = 1 \/ rounding = 2 \/ rounding = 3 \/ rounding = 4) as [->|[->|[->|[->| ->]]]] by lia;
      cbn [rounding_ups round_ref RoundingMode_value Z.eqb Pos.eqb].
    + unfold up_even. rewrite <- Z.negb_even. split_ifs; lia.
    + symmetry. apply Z.quot_div_nonneg; lia.
    + reflexivity.
    + unfold up_ceil. cbn [negb andb]. split_ifs; lia.
    + rewrite nearest_away, Z.abs_eq by lia. unfold up_round. destruct (Z.eq_dec V 0) as [->|].
      * rewrite Z.mod_0_l, Z.div_0_l by lia. split_ifs; lia.
      * rewrite Z.sgn_pos by lia. split_ifs; lia.
  - rewrite (proj2 (Z.ltb_lt V 0) H), Z.abs_neq by lia. cbn [cond_Zopp]. unfold rounded.
    pose proof (div_mod_opp V unit Hu) as O. pose proof (Z.mod_pos_bound V unit Hu).
    assert (rounding = 0 \/ rounding = 1 \/ rounding = 2 \/ rounding = 3 \/ rounding = 4) as [->|[->|[->|[->| ->]]]] by lia;
      cbn [rounding_ups round_ref RoundingMode_value Z.eqb Pos.eqb].
    + unfold up_even. rewrite <- Z.negb_even.
      destruct O as [(O1 & O2 & O3)|(O1 & O2 & O3)]; rewrite O2, O3; [rewrite Z.even_opp|rewrite Z.even_sub, Z.even_opp];
        destruct (Z.even (V / unit)) eqn:?; cbn [negb Z.even Bool.eqb]; split_ifs; lia.
    + unfold up_trunc. rewrite <- (Z.opp_involutive V) at 2. rewrite Z.quot_opp_l, Z.quot_div_nonneg by lia. reflexivity.
    + unfold up_floor. cbn [andb]. split_ifs; lia.
    + unfold up_ceil. reflexivity.
    + rewrite nearest_away, Z.abs_neq, Z.sgn_neg by lia. unfold up_round. split_ifs; lia.
Qed.

(** Every mode gives the integer below or the integer above. *)
Lemma round_ref_between rounding V D : 0 < D -> V / D <= round_ref rounding V D <= - (- V / D).
Proof.
  intros HD. unfold round_ref. pose proof (div_mod_opp V D HD) as O. pose proof (Z.mod_pos_bound V D HD).
  pose proof (Z.div_mod V D ltac:(lia)).
  destruct (rounding =? RNE); [split_ifs; lia|]. destruct (rounding =? RTZ).
  { destruct (Z.le_gt_cases 0 V); [rewrite Z.quot_div_nonneg by lia; lia|].
    rewrite <- (Z.opp_involutive V) at 2 3. rewrite Z.quot_opp_l, Z.quot_div_nonneg by lia. lia. }
  destruct (rounding =? RDN); [lia|]. destruct (rounding =? RUP); [lia|].
  rewrite nearest_away by lia. destruct (Z.sgn_spec V) as [[? ->]|[[<- ->]|[? ->]]].
  - rewrite Z.abs_eq by lia. split_ifs; lia.
  - change (- 0) with 0. rewrite Z.mul_0_l, Z.div_0_l by lia. lia.
  - rewrite Z.abs_neq by lia. split_ifs; lia.
Qed.

Lemma round_ref_le rounding V D n : 0 < D -> V <= n * D -> round_ref rounding V D <= n.
Proof.
  intros HD H. pose proof (round_ref_between rounding V D HD). enough (- n <= - V / D) by lia.
  apply Z.div_le_lower_bound; lia.
Qed.

Lemma round_ref_ge rounding V D n : 0 < D -> n * D <= V -> n <= round_ref rounding V D.
Proof.
  intros HD H. pose proof (round_ref_between rounding V D HD). enough (n <= V / D) by lia.
  apply Z.div_le_lower_bound; lia.
Qed.

(** ** The conversions to integers *)

(** [max] as a number of the format: itself, or the power of two above it, in which case the
    numbers with a fraction are far below. *)
Definition conversion_bounds (min max : Z) : Prop :=
  min <= max /\ denotes (decode f (of_int f min)) (min * unit) /\
  exists K, denotes (decode f (of_int f max)) (K * unit) /\ (K = max \/ K = max + 1 /\ 2 ^ fb <= max).

Definition saturated (min max n : Z) : Z := Z.max min (Z.min max n).

(** The value, infinities and NaN included, converted as the architecture says. *)
Definition fcvt_spec (min max x rounding : Z) : Z :=
  match decode f x with
  | S754_nan => max
  | S754_infinity s => if s then min else max
  | v => saturated min max (round_ref rounding (scaled v) unit)
  end.

(** Below [max + 1] the rounded value stays within [max]. *)
Lemma round_below v V K max rounding : denotes v V -> static_mode rounding -> V < K * unit -> K = max \/ K = max + 1 /\ 2 ^ fb <= max ->
  round_ref rounding V unit <= max.
Proof.
  pose proof unit_pos as Hu. intros (F & Vv & <-) M H [->|[-> Hm]]; [apply round_ref_le; lia|].
  destruct v as [s| | |s m e]; try contradiction; cbn [scaled] in *.
  { apply round_ref_le; [lia|]. pose proof (Z.pow_pos_nonneg 2 fb). pose proof widths. nia. }
  destruct (bounded_cases _ _ Vv) as (He & _). destruct (Z.leb_spec 0 e) as [H0|H0].
  - apply round_ref_le; [lia|]. rewrite (unit_multiple m e He H0), <- cond_opp_mul in *.
    apply Z.mul_le_mono_nonneg_r; [lia|]. apply Z.mul_lt_mono_pos_r in H; lia.
  - rewrite <- round_value_ref by exact M. destruct (scaled_sign s m e He) as [Hs Ha]. cbn [scaled] in Hs, Ha.
    unfold round_value. rewrite Hs, Ha. pose proof (rounded_small (rounding_ups rounding s) m e Vv H0). destruct s; cbn [cond_Zopp]; lia.
Qed.

Lemma flt_infinity s y : finite y -> SFltb (S754_infinity s) y = s.
Proof. destruct y; cbn; try contradiction; destruct s; reflexivity. Qed.

Lemma fcvt_ok min max x rounding : conversion_bounds min max -> static_mode rounding ->
  fcvt_ f min max x rounding = Ok (fcvt_spec min max x rounding).
Proof.
  pose proof unit_pos as Hu. intros (Hmm & Dmin & K & Dmax & HK) M. unfold fcvt_, fcvt_spec, flt.
  pose proof (decode_valid x) as V. destruct (decode f x) as [s|s| |s m e] eqn:E.
  2:{ rewrite !flt_infinity by (apply Dmin || apply Dmax). destruct s; reflexivity. }
  2:{ reflexivity. }
  all: match goal with |- context [SFltb ?v _] => assert (denotes v (scaled v)) as D by (repeat split; exact V) end.
  all: rewrite (SFltb_denotes _ _ _ _ D Dmin), (SFltb_denotes _ _ _ _ D Dmax).
  all: rewrite <- E in D |- *; set (W := scaled (decode f x)) in *; unfold saturated.
  all: destruct (Z.ltb_spec W (min * unit)); [f_equal; pose proof (round_ref_le rounding W unit min Hu ltac:(lia)); lia|].
  all: pose proof (round_ref_ge rounding W unit min Hu ltac:(lia)).
  all: destruct (Z.ltb_spec W (K * unit)) as [HW|HW];
    [|f_equal; pose proof (round_ref_ge rounding W unit K Hu HW); lia].
  all: pose proof (round_below _ _ K max rounding D M HW HK).
  all: destruct (Round_ok x rounding (proj1 D) M) as (r & -> & Dr); cbn [bind].
  all: rewrite (to_int_denotes _ _ Dr), round_value_ref by exact M; f_equal; fold W; lia.
Qed.

End Fmt.

(** ** The two formats *)

Definition formats : list Format := [binary32; binary64].

Lemma formats_wf f : In f formats -> wf_format f.
Proof. intros [<-|[<-|[]]]; [apply wf_binary32|apply wf_binary64]. Qed.

(** The encoding of the two formats is a bijection between bit patterns that are not NaN and the valid numbers of
    the format: decoding gives a valid number, and encoding and decoding undo each other. *)
Theorem float_encoding_roundtrip f nan : In f formats ->
  (forall x, valid_binary (precision f) (max_exponent f) (decode f x) = true) /\
  (forall x, is_uN (width f) x -> decode f x <> S754_nan -> encode f nan (decode f x) = x) /\
  (forall v, valid_binary (precision f) (max_exponent f) v = true -> v <> S754_nan -> decode f (encode f nan v) = v).
Proof.
  intros Hf. apply formats_wf in Hf. repeat split; intros.
  - apply decode_valid; assumption.
  - apply encode_decode; assumption.
  - apply decode_encode; assumption.
Qed.

(** The conversions of the source with the range of their result. *)
Record Conversion := mkConversion { c_fcvt : Z -> Z -> outcome Z; c_format : Format; c_min : Z; c_max : Z }.

Definition conversions : list Conversion :=
  [mkConversion fcvtws binary32 kMinInt32 kMaxInt32; mkConversion fcvtwus binary32 0 kMaxUint32;
   mkConversion fcvtls binary32 kMinInt64 kMaxInt64; mkConversion fcvtlus binary32 0 kMaxUint64;
   mkConversion fcvtwd binary64 kMinInt32 kMaxInt32; mkConversion fcvtwud binary64 0 kMaxUint32;
   mkConversion fcvtld binary64 kMinInt64 kMaxInt64; mkConversion fcvtlud binary64 0 kMaxUint64].

Lemma conversions_bounds c : In c conversions -> conversion_bounds (c_format c) (c_min c) (c_max c).
Proof.
  intros H. cbn in H. repeat destruct H as [<-|H]; try contradiction; cbn [c_format c_min c_max];
    (split; [vm_compute; congruence|split; [repeat split; vm_compute; reflexivity|]]).
  1-4, 7-8: eexists; split; [|right; split; [reflexivity|vm_compute; congruence]]; repeat split; vm_compute; reflexivity.
  all: eexists; split; [|left; reflexivity]; repeat split; vm_compute; reflexivity.
Qed.

(** C23. Every conversion of a floating-point register to an integer rounds the exact value in the requested direction
    (to nearest with ties to even, towards zero, down, up, to nearest with ties away) and saturates at the bounds of the
    integer type; infinities give the bound of their sign and a NaN the upper bound. For every bit pattern, both formats
    and all four integer types. *)
Theorem conversions_correct c x rounding : In c conversions -> static_mode rounding ->
  c_fcvt c x rounding = Ok (fcvt_spec (c_format c) (c_min c) (c_max c) x rounding).
Proof.
  intros Hc M. pose proof (conversions_bounds c Hc) as B.
  assert (wf_format (c_format c)) as W
    by (cbn in Hc; repeat destruct Hc as [<-|Hc]; try contradiction; apply wf_binary32 || apply wf_binary64).
  rewrite <- (fcvt_ok _ W _ _ _ _ B M). cbn in Hc. repeat destruct Hc as [<-|Hc]; try contradiction; reflexivity.
Qed.

Lemma conversions_correct_witness : fcvtwd 0xc004000000000000 RNE = Ok (fcvt_spec binary64 kMinInt32 kMaxInt32 0xc004000000000000 RNE).
Proof.
  apply (conversions_correct (mkConversion fcvtwd binary64 kMinInt32 kMaxInt32));
    [do 4 right; left; reflexivity|vm_compute; split; congruence].
Defined.

(** ** [fcvtmodwd] *)

Lemma normal_fields x : fpclassify binary64 x = FP_NORMAL ->
  let e := biased_exponent binary64 x in let m := fraction binary64 x in
  0 < e < 2047 /\ 0 <= m < 2 ^ 52 /\
  decode binary64 x = S754_finite (signbit binary64 x) (Z.to_pos (m + 2 ^ 52)) (e - 1075).
Proof.
  pose proof (fields_range binary64 wf_binary64 x) as [He Hm]. change (2 ^ exponent_bits binary64) with 2048 in He.
  change (fraction_bits binary64) with 52 in Hm. unfold fpclassify, decode.
  change (exponent_mask binary64) with 2047. change (fraction_bits binary64) with 52. change (min_exponent binary64) with (-1074).
  destruct (Z.eqb_spec (biased_exponent binary64 x) 2047); [destruct (_ =? 0); discriminate|].
  destruct (Z.eqb_spec (biased_exponent binary64 x) 0).
  - destruct (Z.eqb_spec (fraction binary64 x) 0); [discriminate|]. rewrite Z2Pos.id by lia.
    destruct (Z.ltb_spec (fraction binary64 x) (2 ^ 52)); [discriminate|lia].
  - intros _. split; [lia|]. split; [exact Hm|]. f_equal. lia.
Qed.

(** The fields of a double with the masks of the source. *)
Lemma double_fields x : ((x .& 0x7FF0000000000000) >> 52) = biased_exponent binary64 x /\
  (x .& 0x000FFFFFFFFFFFFF) = fraction binary64 x.
Proof.
  unfold biased_exponent, fraction. change (fraction_bits binary64) with 52. change (exponent_mask binary64) with 2047.
  rewrite Z.shiftr_land. split; reflexivity.
Qed.

Lemma s32_multiple k n : 32 <= n -> s32 (k * 2 ^ n) = 0.
Proof.
  intros H. replace n with (n - 32 + 32) by lia. rewrite pow_split by lia. rewrite Z.mul_assoc.
  rewrite <- (Z.add_0_l (_ * 2 ^ 32)). rewrite sN_add_mult by lia. reflexivity.
Qed.

Lemma floor_scaled g e : -1074 <= e -> g * 2 ^ (e - -1074) / unit binary64 = if 0 <=? e then g * 2 ^ e else g / 2 ^ (- e).
Proof.
  intros He. change (unit binary64) with (2 ^ 1074). destruct (Z.leb_spec 0 e).
  - replace (e - -1074) with (e + 1074) by lia. rewrite pow_split, Z.mul_assoc, Z.div_mul by lia. reflexivity.
  - replace (2 ^ 1074) with (2 ^ (- e) * 2 ^ (e - -1074)) by (rewrite <- pow_split by lia; f_equal; lia).
    apply Z.div_mul_cancel_r; pose proof (Z.pow_pos_nonneg 2 (- e)); pose proof (Z.pow_pos_nonneg 2 (e - -1074)); lia.
Qed.

Lemma s32_s64 y : s32 (s64 y) = s32 y.
Proof.
  destruct (sN_cong 64 y ltac:(lia)) as [k ->]. change (2 ^ 64) with (2 ^ 32 * 2 ^ 32). rewrite Z.mul_assoc. apply sN_add_mult.
Qed.

Lemma small_floor h n : - 2 ^ 53 < h < 2 ^ 53 -> 53 <= n -> h / 2 ^ n = if h <? 0 then -1 else 0.
Proof.
  intros Hh Hn. assert (2 ^ 53 <= 2 ^ n) by (apply Z.pow_le_mono_r; lia). destruct (Z.ltb_spec h 0); symmetry.
  - apply Z.div_unique with (h + 2 ^ n); lia.
  - apply Z.div_unique with h; lia.
Qed.

(** [fcvtmodwd] rounds down: for every normal double it returns the low 32 bits of the floor of the value, although
    the instruction (and the assertion at its head) asks for rounding towards zero, so a negative number with a fraction
    comes out one too low: -1.5 is converted to -2 instead of -1. *)
Theorem fcvtmodwd_floors :
  (forall x, fpclassify binary64 x = FP_NORMAL ->
     fcvtmodwd true x RTZ = Ok (s32 (round_ref RDN (scaled binary64 (decode binary64 x)) (unit binary64)))) /\
  (fcvtmodwd true 0xbff8000000000000 RTZ = Ok (-2) /\
   s32 (round_ref RTZ (scaled binary64 (decode binary64 0xbff8000000000000)) (unit binary64)) = -1).
Proof.
  split; [|split; vm_compute; reflexivity]. intros x Hx. destruct (normal_fields x Hx) as (He & Hm & D).
  destruct (double_fields x) as [F1 F2]. unfold fcvtmodwd. rewrite Hx, F1, F2. cbn [andb negb RoundingMode_value Z.eqb].
  cbv zeta. replace (biased_exponent binary64 x - 0x3FF - 52) with (biased_exponent binary64 x - 1075) by lia.
  set (e := biased_exponent binary64 x - 1075) in *. set (s := signbit binary64 x) in *.
  change 0x0010000000000000 with (2 ^ 52). set (g := fraction binary64 x + 2 ^ 52) in *.
  assert (flt binary64 x (of_int binary64 0) = s) as ->.
  { unfold flt. rewrite D. change (decode binary64 (of_int binary64 0)) with (S754_zero false). destruct s; reflexivity. }
  assert (scaled binary64 (decode binary64 x) = (if s then - g else g) * 2 ^ (e - -1074)) as ->.
  { rewrite D. cbn [scaled]. rewrite Z2Pos.id by lia. change (min_exponent binary64) with (-1074). destruct s; cbn [cond_Zopp]; lia. }
  change (round_ref RDN) with (fun V D => V / D). cbv beta. rewrite floor_scaled by lia.
  assert (- 2 ^ 53 < (if s then - g else g) < 2 ^ 53) as Hg by (destruct s; lia). set (h := if s then - g else g) in *.
  destruct (Z.leb_spec 0 e).
  - destruct (Z.leb_spec 64 e); [rewrite s32_multiple by lia; reflexivity|]. rewrite Z.shiftl_mul_pow2 by lia.
    cbn [negb Pos.eqb]. rewrite s32_s64. reflexivity.
  - destruct (Z.leb_spec e (-64)).
    + rewrite Z.shiftr_div_pow2, !small_floor by lia. reflexivity.
    + rewrite Z.shiftr_div_pow2 by lia. reflexivity.
Qed.

(** ** Minima and maxima *)

Lemma SFcompare_antisym x y : SFcompare y x = option_map CompOpp (SFcompare x y).
Proof.
  destruct x as [s|s| |s m e], y as [t|t| |t n g]; try reflexivity; try (destruct s; reflexivity); try (destruct t; reflexivity);
    try (destruct s, t; reflexivity).
  cbn [SFcompare option_map]. f_equal. rewrite (Z.compare_antisym e g).
  change (Pos.compare_cont Eq n m) with (Pos.compare n m). change (Pos.compare_cont Eq m n) with (Pos.compare m n).
  rewrite (Pos.compare_antisym m n). destruct s, t; try reflexivity; destruct (e ?= g); cbn [CompOpp]; reflexivity || (destruct (m ?= n)%positive; reflexivity).
Qed.

Lemma SFcompare_refl x : x <> S754_nan -> SFcompare x x = Some Eq.
Proof.
  destruct x as [s|s| |s m e]; try reflexivity; [destruct s; reflexivity|congruence|]. intros _. cbn [SFcompare].
  rewrite Z.compare_refl. change (Pos.compare_cont Eq m m) with (Pos.compare m m). rewrite Pos.compare_refl. destruct s; reflexivity.
Qed.

(** Numbers that compare equal are equal, but for the sign of zero. *)
Lemma SFcompare_Eq x y : SFcompare x y = Some Eq -> x = y \/ exists s t, x = S754_zero s /\ y = S754_zero t.
Proof.
  destruct x as [s|s| |s m e], y as [t|t| |t n g]; cbn [SFcompare]; try discriminate; intros H; [right; eauto|left..];
    try (destruct s; discriminate H); try (destruct t; discriminate H).
  - destruct s, t; try discriminate H; reflexivity.
  - change (Pos.compare_cont Eq m n) with (Pos.compare m n) in H.
    destruct s, t; try discriminate H; destruct (Z.compare_spec e g) as [->|?|?]; try discriminate H;
      destruct (Pos.compare_spec m n) as [->|?|?]; try discriminate H; reflexivity.
Qed.

Section MinMax.
Context (f : Format) (Hf : wf_format f).

Lemma isnan_decode x : isnan f x = false -> decode f x <> S754_nan.
Proof. unfold isnan. destruct (decode f x); congruence. Qed.

Lemma decode_inj x y : is_uN (width f) x -> is_uN (width f) y -> isnan f x = false -> decode f x = decode f y -> x = y.
Proof.
  intros Hx Hy N E. apply isnan_decode in N. rewrite <- (encode_decode f Hf 0 x Hx N), E.
  apply encode_decode; [exact Hf|exact Hy|congruence].
Qed.

(** Equal operands: the same bits, or zeros of both signs. *)
Lemma feq_cases x y : is_uN (width f) x -> is_uN (width f) y -> isnan f x = false -> feq f x y = true ->
  x = y \/ signbit f x = negb (signbit f y).
Proof.
  intros Hx Hy N H. unfold feq, SFeqb in H.
  destruct (SFcompare (decode f x) (decode f y)) as [[]|] eqn:C; try discriminate.
  apply SFcompare_Eq in C as [C|(s & t & Cx & Cy)]; [left; exact (decode_inj x y Hx Hy N C)|].
  assert (signbit f x = s) as Sx.
  { unfold decode in Cx. repeat (destruct (_ =? _) in Cx; try discriminate). injection Cx as <-. reflexivity. }
  assert (signbit f y = t) as Sy.
  { unfold decode in Cy. repeat (destruct (_ =? _) in Cy; try discriminate). injection Cy as <-. reflexivity. }
  destruct (Bool.bool_dec s t) as [->|Hst]; [left; apply decode_inj; congruence|right].
  rewrite Sx, Sy. destruct s, t; congruence || reflexivity.
Qed.

Definition min_max_spec (mn mx mnm mxm : Z -> Z -> Z) : Prop := forall x y, is_uN (width f) x -> is_uN (width f) y ->
  match isnan f x, isnan f y with
  | true, true => mn x y = quiet_NaN f /\ mx x y = quiet_NaN f /\ mnm x y = quiet_NaN f /\ mxm x y = quiet_NaN f
  | true, false => mn x y = y /\ mx x y = y /\ mnm x y = quiet_NaN f /\ mxm x y = quiet_NaN f
  | false, true => mn x y = x /\ mx x y = x /\ mnm x y = quiet_NaN f /\ mxm x y = quiet_NaN f
  | false, false =>
      (mn x y = x /\ mx x y = y \/ mn x y = y /\ mx x y = x) /\ fle f (mn x y) (mx x y) = true /\
      (feq f x y = true -> signbit f x <> signbit f y -> signbit f (mn x y) = true /\ signbit f (mx x y) = false) /\
      mn x y = mn y x /\ mx x y = mx y x /\ mnm x y = mn x y /\ mxm x y = mx x y
  end.

Lemma min_max_ok : min_max_spec (rv_fmin_ f) (rv_fmax_ f) (rv_fminm_ f) (rv_fmaxm_ f).
Proof.
  intros x y Hx Hy. unfold rv_fmin_, rv_fmax_, rv_fminm_, rv_fmaxm_.
  destruct (isnan f x) eqn:Nx, (isnan f y) eqn:Ny; cbn [andb orb]; auto.
  pose proof (isnan_decode x Nx) as Dx. pose proof (isnan_decode y Ny) as Dy.
  pose proof (SFcompare_antisym (decode f x) (decode f y)) as A.
  pose proof (feq_cases x y Hx Hy Nx) as Q. unfold feq, flt, fle, SFeqb, SFltb, SFleb in *. rewrite A.
  destruct (SFcompare (decode f x) (decode f y)) as [[]|] eqn:C; cbn [option_map CompOpp].
  - destruct (Q eq_refl) as [->|Hs].
    + destruct (signbit f y); rewrite C; repeat split; auto; congruence.
    + rewrite Hs. destruct (signbit f y) eqn:Sy; cbn [negb] in *; rewrite ?C, ?A; cbn [option_map CompOpp]; repeat split; auto.
  - rewrite C. repeat split; auto; discriminate.
  - rewrite A. cbn [option_map CompOpp]. repeat split; auto; discriminate.
  - exfalso. destruct (decode f x) as [s|s| |s m e], (decode f y) as [t|t| |t n g]; cbn in C; congruence || discriminate.
Qed.
End MinMax.

(** The minimum and maximum of the simulator follow the architecture, for single and double precision and for every
    pair of bit patterns: of two numbers they return one each, in order; -0 counts as less than +0, so the operands may be
    exchanged; [fmin] and [fmax] return the other operand of a NaN and the canonical NaN of two, [fminm] and [fmaxm] the
    canonical NaN of any. *)
Theorem min_max_correct :
  min_max_spec binary64 rv_fmin rv_fmax rv_fminm rv_fmaxm /\ min_max_spec binary32 rv_fminf rv_fmaxf rv_fminmf rv_fmaxmf.
Proof. split; [exact (min_max_ok binary64 wf_binary64)|exact (min_max_ok binary32 wf_binary32)]. Qed.
