(* ===== verification/RvCalls.v ===== *)
(** * Calls between C++ and simulated code ([vm/simulator_riscv.{h,cc}])

    The construction of a simulator, the calls of the VM into simulated code
    ([Call], [CallX] and the overloads for floating-point arguments and
    results), the register checks a DEBUG build makes around them, and the list
    of [Redirection] objects through which simulated code calls C++ functions.
    [Execute] is [ExecuteNoTrace] with [fuel] instructions; [None] means it has
    not ended. *)

From Stdlib Require Import ZArith Bool List String.
From S2P Require Import Prelude Utils RvEncoding RvAlu SimMemory Random Outcome RvFloat RvSimulator.
Import ListNotations.
Open Scope Z_scope.

Section Calls.
Context (P : Platform).

(** ** Construction *)

(** [xregs_] other than [x0] and [vregs_] start random; [vl_] and [vtype_] are not initialised. *)
Definition new_Simulator (h : Host) (sim_buffer_memory : bool) (seed stack_base shadow_stack vl0 vtype0 : Z) : Simulator :=
  let s := mkSimulator 0 (fun _ => 0) 0 0 0 (fun _ => kNaNBox) 0 false false 0 (fun _ => 0) vl0 vtype0
             stack_base seed (mkMemory sim_buffer_memory h []) in
  let s := clobber_xregs 31 1 0xFFFFFFFF s in
  let s := clobber_vregs (Z.to_nat kVectorBytes) 0 s in
  let s := set_xreg s SP stack_base in
  let s := with_ssp s (u64 (shadow_stack + 64 * 1024)) in
  let s := mkSimulator (pc_ s) (xregs_ s) (instret_ s) (reserved_address_ s) (reserved_value_ s) (fregs_ s) (fcsr_ s)
             (lp_enabled_ s) true (ssp_ s) (vregs_ s) (vl_ s) (vtype_ s) (stack_base_ s) (random_ s) (memory_ s) in
  let s := set_xreg s RA kBadLR in
  with_pc s kBadLR.

(** ** The registers a callee preserves *)

Record PreservedRegisters := mkPreserved { p_xregs : Z -> Z; p_fregs : Z -> Z; p_ssp : Z }.

Definition SavePreservedRegisters (s : Simulator) : PreservedRegisters :=
  if DEBUG P then mkPreserved (xregs_ s) (fregs_ s) (ssp_ s) else mkPreserved (fun _ => 0) (fun _ => 0) 0.

Definition PrepareCall (s : Simulator) : PreservedRegisters * Simulator :=
  if DEBUG P then
    let preserved := mkPreserved (xregs_ s) (fregs_ s) (ssp_ s) in
    let s := clobber_xregs 32 0 kAbiVolatileCpuRegs s in
    let s := clobber_fregs 32 0 kAbiVolatileFpuRegs s in
    (preserved, clobber_vregs (Z.to_nat kVectorBytes) 0 s)
  else (mkPreserved (fun _ => 0) (fun _ => 0) 0, s).

Definition kPreservedAtCall : Z := kAbiPreservedCpuRegs .| (1 << TP) .| (1 << GP) .| (1 << SP) .| (1 << FP).

Definition registers : list Z := map Z.of_nat (seq 0 32).

Definition CheckPreservedRegisters (preserved : PreservedRegisters) (s : Simulator) : outcome Simulator :=
  if DEBUG P then
    if negb (p_xregs preserved SP =? xregs_ s SP) then Stop (FATAL "Stack unbalanced")
    else if negb (forallb (fun i => ((kPreservedAtCall .& (1 << i)) =? 0) || (p_xregs preserved i =? xregs_ s i)) registers)
    then Stop (FATAL "was not preserved")
    else if negb (forallb (fun i => negb ((kAbiVolatileFpuRegs .& (1 << i)) =? 0) || (p_fregs preserved i =? fregs_ s i)) registers)
    then Stop (FATAL "was not preserved")
    else if negb (ssp_ s =? p_ssp preserved) then Stop (FATAL "ssp was not preserved")
    else Ok s
  else Ok s.

(** ** Running *)

Definition Execute := ExecuteNoTrace P.

(** The end of [RunCall] and [Call]: the check and the flush. *)
Definition finish (preserved : PreservedRegisters) (r : option (outcome Simulator)) : option (outcome Simulator) :=
  match r with
  | None => None
  | Some o => Some (let! s := o in
                    let! s := CheckPreservedRegisters preserved s in
                    Ok (with_memory s (Memory.FlushAll (memory_ s))))
  end.

Definition RunCall (fuel : nat) (entry : Z) (preserved : PreservedRegisters) (s : Simulator) : option (outcome Simulator) :=
  let s := with_pc s (u64 entry) in
  let s := set_xreg s RA kEndSimulatingPC in
  finish preserved (Execute fuel s).

(** The result of a call: a register, read from the final state. *)
Definition returning (get : Simulator -> Z) (r : option (outcome Simulator)) : option (outcome (Z * Simulator)) :=
  option_map (fun o => let! s := o in Ok (get s, s)) r.

Definition x_result (s : Simulator) : Z := s64 (get_xreg s A0).
Definition d_result (s : Simulator) : Z := get_fregd s FA0.
Definition f_result (s : Simulator) : Z := get_fregs s FA0.

Definition CallX (fuel : nat) (function arg0 arg1 arg2 arg3 : Z) (s : Simulator) : option (outcome (Z * Simulator)) :=
  let '(preserved, s) := PrepareCall s in
  let s := set_xreg s A0 arg0 in
  let s := set_xreg s A1 arg1 in
  let s := set_xreg s A2 arg2 in
  let s := set_xreg s A3 arg3 in
  returning x_result (RunCall fuel function preserved s).

(** [CallI] of two doubles and of two floats ([CallI64] is the former at [XLEN = 64]). *)
Definition CallI (fuel : nat) (function arg0 arg1 : Z) (s : Simulator) : option (outcome (Z * Simulator)) :=
  let '(preserved, s) := PrepareCall s in
  returning x_result (RunCall fuel function preserved (set_fregd (set_fregd s FA0 arg0) FA1 arg1)).
Definition CallI_float (fuel : nat) (function arg0 arg1 : Z) (s : Simulator) : option (outcome (Z * Simulator)) :=
  let '(preserved, s) := PrepareCall s in
  returning x_result (RunCall fuel function preserved (set_fregs (set_fregs s FA0 arg0) FA1 arg1)).

(** [CallD] of integers, of doubles, of an integer and a double, of a float. *)
Definition CallD_int (fuel : nat) (function arg0 arg1 : Z) (s : Simulator) : option (outcome (Z * Simulator)) :=
  let '(preserved, s) := PrepareCall s in
  returning d_result (RunCall fuel function preserved (set_xreg (set_xreg s A0 arg0) A1 arg1)).
Definition CallD (fuel : nat) (function arg0 arg1 arg2 : Z) (s : Simulator) : option (outcome (Z * Simulator)) :=
  let '(preserved, s) := PrepareCall s in
  returning d_result (RunCall fuel function preserved (set_fregd (set_fregd (set_fregd s FA0 arg0) FA1 arg1) FA2 arg2)).
Definition CallD_mixed (fuel : nat) (function arg0 arg1 : Z) (s : Simulator) : option (outcome (Z * Simulator)) :=
  let '(preserved, s) := PrepareCall s in
  returning d_result (RunCall fuel function preserved (set_fregd (set_xreg s A0 arg0) FA0 arg1)).
Definition CallD_float (fuel : nat) (function arg0 : Z) (s : Simulator) : option (outcome (Z * Simulator)) :=
  let '(preserved, s) := PrepareCall s in
  returning d_result (RunCall fuel function preserved (set_fregs s FA0 arg0)).

(** [CallF]; the overload for integers saves the registers without clobbering the volatile ones. *)
Definition CallF_int (fuel : nat) (function arg0 arg1 : Z) (s : Simulator) : option (outcome (Z * Simulator)) :=
  let preserved := SavePreservedRegisters s in
  returning f_result (RunCall fuel function preserved (set_xreg (set_xreg s A0 arg0) A1 arg1)).
Definition CallF (fuel : nat) (function arg0 arg1 arg2 : Z) (s : Simulator) : option (outcome (Z * Simulator)) :=
  let '(preserved, s) := PrepareCall s in
  returning f_result (RunCall fuel function preserved (set_fregs (set_fregs (set_fregs s FA0 arg0) FA1 arg1) FA2 arg2)).
Definition CallF_mixed (fuel : nat) (function arg0 arg1 : Z) (s : Simulator) : option (outcome (Z * Simulator)) :=
  let '(preserved, s) := PrepareCall s in
  returning f_result (RunCall fuel function preserved (set_fregs (set_xreg s A0 arg0) FA0 arg1)).
Definition CallF_double (fuel : nat) (function arg0 : Z) (s : Simulator) : option (outcome (Z * Simulator)) :=
  let '(preserved, s) := PrepareCall s in
  returning f_result (RunCall fuel function preserved (set_fregd s FA0 arg0)).

(** [OS::ActivationFrameAlignment()] on RISC-V. *)
Definition ActivationFrameAlignment : Z := 16.

(** [Simulator::Call]; floating-point parameters and results are converted from and to integers. *)
Definition Call (fuel : nat) (entry parameter0 parameter1 parameter2 parameter3 : Z) (fp_return fp_args : bool)
  (s : Simulator) : option (outcome (Z * Simulator)) :=
  let sp_before_call := get_xreg s SP in
  let s := if fp_args then
             let put s r v := set_fregd s r (of_int binary64 v) in
             put (put (put (put s FA0 parameter0) FA1 parameter1) FA2 parameter2) FA3 parameter3
           else set_xreg (set_xreg (set_xreg (set_xreg s A0 parameter0) A1 parameter1) A2 parameter2) A3 parameter3 in
  match RoundDown sp_before_call ActivationFrameAlignment with
  | None => Some (Stop AssertionFailed)
  | Some stack_pointer =>
  let s := set_xreg s SP stack_pointer in
  let s := with_pc s (u64 entry) in
  let s := set_xreg s RA kEndSimulatingPC in
  let preserved := SavePreservedRegisters s in
  match Execute fuel s with
  | None => None
  | Some o =>
      Some (let! s := o in
            let! s := CheckPreservedRegisters preserved s in
            let s := set_xreg s SP sp_before_call in
            let return_value := if fp_return then to_int (decode binary64 (get_fregd s FA0)) else x_result s in
            Ok (return_value, with_memory s (Memory.FlushAll (memory_ s))))
  end
  end.
End Calls.

(** ** Class [Redirection]: the list of redirected functions *)

Module Redirections.
(** [list_]: the objects with the address of their ECALL instruction, the newest first. *)
Record Entry := mkEntry { address_of_ecall_instruction : Z; redirection : Redirection }.

Definition find (p : Entry -> bool) (list_ : list Entry) : option Entry := List.find p list_.

(** [Redirection::Get]; [address] is where [new] puts the instruction of a new object. *)
Definition Get (address external_function : Z) (call_kind : CallKind) (argument_count : Z) (list_ : list Entry)
  : Entry * list Entry :=
  match find (fun e => external_function_ (redirection e) =? external_function) list_ with
  | Some current => (current, list_)
  | None =>
      let e := mkEntry address (mkRedirection external_function call_kind argument_count) in (e, e :: list_)
  end.

Definition RedirectExternalReference (address function : Z) (call_kind : CallKind) (argument_count : Z) (list_ : list Entry)
  : Z * list Entry :=
  let '(e, list_) := Get address function call_kind argument_count list_ in (address_of_ecall_instruction e, list_).

Definition FunctionForRedirect (address_of_ecall : Z) (list_ : list Entry) : Z :=
  match find (fun e => address_of_ecall_instruction e =? address_of_ecall) list_ with
  | Some current => external_function_ (redirection current)
  | None => 0
  end.
End Redirections.
