(* ===== verification/RvAssembler.v ===== *)
(** * The RISC-V instruction emitters ([vm/compiler/assembler/assembler_riscv.{h,cc}])

    [MicroAssembler] appends one instruction per call to a byte buffer, choosing
    a 16-bit form when the C/Zcb extensions are enabled and the operands allow
    it.  The model keeps the buffer, the extension set, the far-branch level and
    the deferred-compare state of [Assembler] in one record; each emitter is a
    function from the state to [option], [None] being a failed [ASSERT].  The
    overloads of the source that Rocq cannot share a name carry a suffix:
    [EmitRType_shamt] (immediate shift amount), [EmitRType_order] (atomics),
    [EmitIType_funct12], and [lb_ordered] and the like for the Zalasr overloads. *)

From Stdlib Require Import ZArith List Bool.
From S2P Require Import Prelude Utils RvEncoding.
Import ListNotations.

(** ** State *)

(** [Address]: a base register and an offset. *)
Record Address : Set := MkAddress { base : Z; offset : Z }.

(** [std::memory_order]. *)
Inductive MemoryOrder : Set :=
  | memory_order_relaxed | memory_order_consume | memory_order_acquire
  | memory_order_release | memory_order_acq_rel | memory_order_seq_cst.

Definition MemoryOrder_eqb (x y : MemoryOrder) : bool :=
  match x, y with
  | memory_order_relaxed, memory_order_relaxed | memory_order_consume, memory_order_consume
  | memory_order_acquire, memory_order_acquire | memory_order_release, memory_order_release
  | memory_order_acq_rel, memory_order_acq_rel | memory_order_seq_cst, memory_order_seq_cst => true
  | _, _ => false
  end.

(** [Assembler::DeferredCompareType]. *)
Inductive DeferredCompareType : Set := kNone | kCompareReg | kCompareImm | kTestReg | kTestImm.

Record Assembler : Set := MkAssembler {
  buffer_ : list Z;
  extensions_ : Z;
  far_branch_level_ : Z;
  constant_pool_allowed_ : bool;
  deferred_compare_ : DeferredCompareType;
  deferred_left_ : Z;
  deferred_reg_ : Z;
  deferred_imm_ : Z
}.

Definition with_buffer (b : list Z) (a : Assembler) : Assembler :=
  MkAssembler b (extensions_ a) (far_branch_level_ a) (constant_pool_allowed_ a)
    (deferred_compare_ a) (deferred_left_ a) (deferred_reg_ a) (deferred_imm_ a).

Definition append (bytes : list Z) (a : Assembler) : Assembler := with_buffer (buffer_ a ++ bytes) a.

(** The [n] little-endian bytes of [v], as [AssemblerBuffer] stores them. *)
Fixpoint le_bytes (n : nat) (v : Z) : list Z :=
  match n with
  | O => []
  | S n => u8 v :: le_bytes n (v >> 8)
  end.

(** Two emissions in a row. *)
Definition seq (e1 e2 : Assembler -> option Assembler) (a : Assembler) : option Assembler :=
  match e1 a with Some a => e2 a | None => None end.
Notation "e1 '>>>' e2" := (seq e1 e2) (at level 60, right associativity) : cint_scope.

Module MicroAssembler.

Definition Supports (a : Assembler) (e : Extension) : bool := Includes (extensions_ a) e.
Definition SupportsAll (a : Assembler) (es : Z) : bool := IncludesAll (extensions_ a) es.

(** [buffer_.GetPosition()]. *)
Definition Position (a : Assembler) : Z := Z.of_nat (List.length (buffer_ a)).

Definition Emit16 (instruction : option Z) (a : Assembler) : option Assembler :=
  match instruction with
  | Some e => Some (append (le_bytes 2 (u16 e)) a)
  | None => None
  end.

Definition Emit32 (instruction : option Z) (a : Assembler) : option Assembler :=
  match instruction with
  | Some e => Some (append (le_bytes 4 (u32 e)) a)
  | None => None
  end.

(** ** Instruction formats *)

Definition EmitRType (funct7 rs2 rs1 funct3 rd opcode : Z) (a : Assembler) : option Assembler :=
  Emit32 (EncodeFunct7 funct7 .|? EncodeRs2 rs2 .|? EncodeRs1 rs1 .|? EncodeFunct3 funct3
          .|? EncodeRd rd .|? EncodeOpcode opcode) a.

Definition EmitRType_shamt (funct7 shamt rs1 funct3 rd opcode : Z) (a : Assembler) : option Assembler :=
  Emit32 (EncodeFunct7 funct7 .|? EncodeShamt (u32 shamt) .|? EncodeRs1 rs1 .|? EncodeFunct3 funct3
          .|? EncodeRd rd .|? EncodeOpcode opcode) a.

Definition EmitRType_order (funct5 : Z) (order : MemoryOrder) (rs2 rs1 funct3 rd opcode : Z)
    (a : Assembler) : option Assembler :=
  let funct7 := funct5 << 2 in
  match order with
  | memory_order_acq_rel => EmitRType (funct7 .| 3) rs2 rs1 funct3 rd opcode a
  | memory_order_acquire => EmitRType (funct7 .| 2) rs2 rs1 funct3 rd opcode a
  | memory_order_release => EmitRType (funct7 .| 1) rs2 rs1 funct3 rd opcode a
  | memory_order_relaxed => EmitRType (funct7 .| 0) rs2 rs1 funct3 rd opcode a
  | _ => None
  end.

Definition EmitIType_funct12 (funct12 rs1 funct3 rd opcode : Z) (a : Assembler) : option Assembler :=
  Emit32 (EncodeFunct12 funct12 .|? EncodeRs1 rs1 .|? EncodeFunct3 funct3
          .|? EncodeRd rd .|? EncodeOpcode opcode) a.

Definition EmitIType (imm rs1 funct3 rd opcode : Z) (a : Assembler) : option Assembler :=
  Emit32 (EncodeITypeImm imm .|? EncodeRs1 rs1 .|? EncodeFunct3 funct3
          .|? EncodeRd rd .|? EncodeOpcode opcode) a.

Definition EmitSType (imm rs2 rs1 funct3 opcode : Z) (a : Assembler) : option Assembler :=
  Emit32 (EncodeSTypeImm imm .|? EncodeRs2 rs2 .|? EncodeRs1 rs1 .|? EncodeFunct3 funct3
          .|? EncodeOpcode opcode) a.

Definition EmitBType (imm rs2 rs1 funct3 opcode : Z) (a : Assembler) : option Assembler :=
  Emit32 (EncodeBTypeImm imm .|? EncodeRs2 rs2 .|? EncodeRs1 rs1 .|? EncodeFunct3 funct3
          .|? EncodeOpcode opcode) a.

Definition EmitUType (imm rd opcode : Z) (a : Assembler) : option Assembler :=
  Emit32 (EncodeUTypeImm imm .|? EncodeRd rd .|? EncodeOpcode opcode) a.

Definition EmitJType (imm rd opcode : Z) (a : Assembler) : option Assembler :=
  Emit32 (EncodeJTypeImm imm .|? EncodeRd rd .|? EncodeOpcode opcode) a.

(** ** Compressed instructions (C, Zcb) *)

Definition c_lwsp (rd : Z) (addr : Address) (a : Assembler) : option Assembler :=
  ASSERT negb (rd =? ZR);;
  ASSERT (base addr =? SP);;
  ASSERT (Supports a RV_C);;
  Emit16 (Some (COpcode_value C_LWSP) .|? EncodeCRd rd .|? EncodeCSPLoad4Imm (offset addr)) a.

Definition c_ldsp (rd : Z) (addr : Address) (a : Assembler) : option Assembler :=
  ASSERT negb (rd =? ZR);;
  ASSERT (base addr =? SP);;
  ASSERT (Supports a RV_C);;
  Emit16 (Some (COpcode_value C_LDSP) .|? EncodeCRd rd .|? EncodeCSPLoad8Imm (offset addr)) a.

Definition c_fldsp (rd : Z) (addr : Address) (a : Assembler) : option Assembler :=
  ASSERT (base addr =? SP);;
  ASSERT (Supports a RV_C);;
  ASSERT (Supports a RV_D);;
  Emit16 (Some (COpcode_value C_FLDSP) .|? EncodeCFRd rd .|? EncodeCSPLoad8Imm (offset addr)) a.

Definition c_swsp (rs2 : Z) (addr : Address) (a : Assembler) : option Assembler :=
  ASSERT (base addr =? SP);;
  ASSERT (Supports a RV_C);;
  Emit16 (Some (COpcode_value C_SWSP) .|? EncodeCRs2 rs2 .|? EncodeCSPStore4Imm (offset addr)) a.

Definition c_sdsp (rs2 : Z) (addr : Address) (a : Assembler) : option Assembler :=
  ASSERT (base addr =? SP);;
  ASSERT (Supports a RV_C);;
  Emit16 (Some (COpcode_value C_SDSP) .|? EncodeCRs2 rs2 .|? EncodeCSPStore8Imm (offset addr)) a.

Definition c_fsdsp (rs2 : Z) (addr : Address) (a : Assembler) : option Assembler :=
  ASSERT (base addr =? SP);;
  ASSERT (Supports a RV_C);;
  ASSERT (Supports a RV_D);;
  Emit16 (Some (COpcode_value C_FSDSP) .|? EncodeCFRs2 rs2 .|? EncodeCSPStore8Imm (offset addr)) a.

Definition c_lw (rd : Z) (addr : Address) (a : Assembler) : option Assembler :=
  ASSERT (Supports a RV_C);;
  Emit16 (Some (COpcode_value C_LW) .|? EncodeCRdp rd .|? EncodeCRs1p (base addr) .|? EncodeCMem4Imm (offset addr)) a.

Definition c_ld (rd : Z) (addr : Address) (a : Assembler) : option Assembler :=
  ASSERT (Supports a RV_C);;
  Emit16 (Some (COpcode_value C_LD) .|? EncodeCRdp rd .|? EncodeCRs1p (base addr) .|? EncodeCMem8Imm (offset addr)) a.

Definition c_flw (rd : Z) (addr : Address) (a : Assembler) : option Assembler :=
  ASSERT (Supports a RV_C);;
  ASSERT (Supports a RV_F);;
  Emit16 (Some (COpcode_value C_FLW) .|? EncodeCFRdp rd .|? EncodeCRs1p (base addr) .|? EncodeCMem4Imm (offset addr)) a.

Definition c_fld (rd : Z) (addr : Address) (a : Assembler) : option Assembler :=
  ASSERT (Supports a RV_C);;
  ASSERT (Supports a RV_D);;
  Emit16 (Some (COpcode_value C_FLD) .|? EncodeCFRdp rd .|? EncodeCRs1p (base addr) .|? EncodeCMem8Imm (offset addr)) a.

Definition c_sw (rs2 : Z) (addr : Address) (a : Assembler) : option Assembler :=
  ASSERT (Supports a RV_C);;
  Emit16 (Some (COpcode_value C_SW) .|? EncodeCRs1p (base addr) .|? EncodeCRs2p rs2 .|? EncodeCMem4Imm (offset addr)) a.

Definition c_sd (rs2 : Z) (addr : Address) (a : Assembler) : option Assembler :=
  ASSERT (Supports a RV_C);;
  Emit16 (Some (COpcode_value C_SD) .|? EncodeCRs1p (base addr) .|? EncodeCRs2p rs2 .|? EncodeCMem8Imm (offset addr)) a.

Definition c_fsw (rs2 : Z) (addr : Address) (a : Assembler) : option Assembler :=
  ASSERT (Supports a RV_C);;
  ASSERT (Supports a RV_F);;
  Emit16 (Some (COpcode_value C_FSW) .|? EncodeCRs1p (base addr) .|? EncodeCFRs2p rs2 .|? EncodeCMem4Imm (offset addr)) a.

Definition c_fsd (rs2 : Z) (addr : Address) (a : Assembler) : option Assembler :=
  ASSERT (Supports a RV_C);;
  ASSERT (Supports a RV_D);;
  Emit16 (Some (COpcode_value C_FSD) .|? EncodeCRs1p (base addr) .|? EncodeCFRs2p rs2 .|? EncodeCMem8Imm (offset addr)) a.

Definition c_jr (rs1 : Z) (a : Assembler) : option Assembler :=
  ASSERT (Supports a RV_C);;
  ASSERT negb (rs1 =? ZR);;
  Emit16 (Some (COpcode_value C_JR) .|? EncodeCRs1 rs1 .|? EncodeCRs2 ZR) a.

Definition c_jalr (rs1 : Z) (a : Assembler) : option Assembler :=
  ASSERT (Supports a RV_C);;
  Emit16 (Some (COpcode_value C_JALR) .|? EncodeCRs1 rs1 .|? EncodeCRs2 ZR) a.

Definition c_li (rd imm : Z) (a : Assembler) : option Assembler :=
  ASSERT (Supports a RV_C);;
  ASSERT negb (rd =? ZR);;
  Emit16 (Some (COpcode_value C_LI) .|? EncodeCRd rd .|? EncodeCIImm imm) a.

Definition c_lui (rd imm : Z) (a : Assembler) : option Assembler :=
  ASSERT (Supports a RV_C);;
  ASSERT negb (rd =? ZR);;
  ASSERT negb (rd =? SP);;
  ASSERT negb (imm =? 0);;
  Emit16 (Some (COpcode_value C_LUI) .|? EncodeCRd rd .|? EncodeCUImm imm) a.

Definition c_addi (rd rs1 imm : Z) (a : Assembler) : option Assembler :=
  ASSERT (Supports a RV_C);;
  ASSERT negb (imm =? 0);;
  ASSERT (rd =? rs1);;
  Emit16 (Some (COpcode_value C_ADDI) .|? EncodeCRd rd .|? EncodeCIImm imm) a.

Definition c_addiw (rd rs1 imm : Z) (a : Assembler) : option Assembler :=
  ASSERT (Supports a RV_C);;
  ASSERT (rd =? rs1);;
  Emit16 (Some (COpcode_value C_ADDIW) .|? EncodeCRd rd .|? EncodeCIImm imm) a.

Definition c_addi16sp (rd rs1 imm : Z) (a : Assembler) : option Assembler :=
  ASSERT (Supports a RV_C);;
  ASSERT (rd =? rs1);;
  Emit16 (Some (COpcode_value C_ADDI16SP) .|? EncodeCRd rd .|? EncodeCI16Imm imm) a.

Definition c_addi4spn (rdp rs1 imm : Z) (a : Assembler) : option Assembler :=
  ASSERT (Supports a RV_C);;
  ASSERT (rs1 =? SP);;
  ASSERT negb (imm =? 0);;
  Emit16 (Some (COpcode_value C_ADDI4SPN) .|? EncodeCRdp rdp .|? EncodeCI4SPNImm imm) a.

Definition c_slli (rd rs1 imm : Z) (a : Assembler) : option Assembler :=
  ASSERT (Supports a RV_C);;
  ASSERT (rd =? rs1);;
  ASSERT negb (rd =? ZR);;
  Emit16 (Some (COpcode_value C_SLLI) .|? EncodeCRd rd .|? EncodeCShamt imm) a.

Definition c_srli (rd rs1 imm : Z) (a : Assembler) : option Assembler :=
  ASSERT (Supports a RV_C);;
  ASSERT (rd =? rs1);;
  Emit16 (Some (COpcode_value C_SRLI) .|? EncodeCRs1p rd .|? EncodeCShamt imm) a.

Definition c_srai (rd rs1 imm : Z) (a : Assembler) : option Assembler :=
  ASSERT (Supports a RV_C);;
  ASSERT (rd =? rs1);;
  Emit16 (Some (COpcode_value C_SRAI) .|? EncodeCRs1p rd .|? EncodeCShamt imm) a.

Definition c_andi (rd rs1 imm : Z) (a : Assembler) : option Assembler :=
  ASSERT (Supports a RV_C);;
  ASSERT (rd =? rs1);;
  Emit16 (Some (COpcode_value C_ANDI) .|? EncodeCRs1p rd .|? EncodeCIImm imm) a.

Definition c_mv (rd rs2 : Z) (a : Assembler) : option Assembler :=
  ASSERT (Supports a RV_C);;
  ASSERT negb (rd =? ZR);;
  ASSERT negb (rs2 =? ZR);;
  Emit16 (Some (COpcode_value C_MV) .|? EncodeCRd rd .|? EncodeCRs2 rs2) a.

Definition c_add (rd rs1 rs2 : Z) (a : Assembler) : option Assembler :=
  ASSERT (Supports a RV_C);;
  ASSERT (rd =? rs1);;
  ASSERT negb (rs2 =? ZR);;
  Emit16 (Some (COpcode_value C_ADD) .|? EncodeCRd rd .|? EncodeCRs2 rs2) a.

Definition c_and (rd rs1 rs2 : Z) (a : Assembler) : option Assembler :=
  ASSERT (Supports a RV_C);;
  ASSERT (rd =? rs1);;
  Emit16 (Some (COpcode_value C_AND) .|? EncodeCRs1p rs1 .|? EncodeCRs2p rs2) a.

Definition c_or (rd rs1 rs2 : Z) (a : Assembler) : option Assembler :=
  ASSERT (Supports a RV_C);;
  Emit16 (Some (COpcode_value C_OR) .|? EncodeCRs1p rs1 .|? EncodeCRs2p rs2) a.

Definition c_xor (rd rs1 rs2 : Z) (a : Assembler) : option Assembler :=
  ASSERT (Supports a RV_C);;
  Emit16 (Some (COpcode_value C_XOR) .|? EncodeCRs1p rs1 .|? EncodeCRs2p rs2) a.

Definition c_sub (rd rs1 rs2 : Z) (a : Assembler) : option Assembler :=
  ASSERT (Supports a RV_C);;
  Emit16 (Some (COpcode_value C_SUB) .|? EncodeCRs1p rs1 .|? EncodeCRs2p rs2) a.

Definition c_addw (rd rs1 rs2 : Z) (a : Assembler) : option Assembler :=
  ASSERT (Supports a RV_C);;
  Emit16 (Some (COpcode_value C_ADDW) .|? EncodeCRs1p rs1 .|? EncodeCRs2p rs2) a.

Definition c_subw (rd rs1 rs2 : Z) (a : Assembler) : option Assembler :=
  ASSERT (Supports a RV_C);;
  Emit16 (Some (COpcode_value C_SUBW) .|? EncodeCRs1p rs1 .|? EncodeCRs2p rs2) a.

Definition c_nop (a : Assembler) : option Assembler :=
  ASSERT (Supports a RV_C);;
  Emit16 (Some (COpcode_value C_NOP)) a.

Definition c_ebreak (a : Assembler) : option Assembler :=
  ASSERT (Supports a RV_C);;
  Emit16 (Some (COpcode_value C_EBREAK)) a.

Definition c_lbu (rd : Z) (addr : Address) (a : Assembler) : option Assembler :=
  ASSERT (Supports a RV_Zcb);;
  Emit16 (Some (COpcode_value C_LBU) .|? EncodeCRdp rd .|? EncodeCRs1p (base addr) .|? EncodeCMem1Imm (offset addr)) a.

Definition c_lhu (rd : Z) (addr : Address) (a : Assembler) : option Assembler :=
  ASSERT (Supports a RV_Zcb);;
  Emit16 (Some (COpcode_value C_LHU) .|? EncodeCRdp rd .|? EncodeCRs1p (base addr) .|? EncodeCMem2Imm (offset addr)) a.

Definition c_lh (rd : Z) (addr : Address) (a : Assembler) : option Assembler :=
  ASSERT (Supports a RV_Zcb);;
  Emit16 (Some (COpcode_value C_LH) .|? EncodeCRdp rd .|? EncodeCRs1p (base addr) .|? EncodeCMem2Imm (offset addr)) a.

Definition c_sb (rs2 : Z) (addr : Address) (a : Assembler) : option Assembler :=
  ASSERT (Supports a RV_Zcb);;
  Emit16 (Some (COpcode_value C_SB) .|? EncodeCRs1p (base addr) .|? EncodeCRs2p rs2 .|? EncodeCMem1Imm (offset addr)) a.

Definition c_sh (rs2 : Z) (addr : Address) (a : Assembler) : option Assembler :=
  ASSERT (Supports a RV_Zcb);;
  Emit16 (Some (COpcode_value C_SH) .|? EncodeCRs1p (base addr) .|? EncodeCRs2p rs2 .|? EncodeCMem2Imm (offset addr)) a.

Definition c_zextb (rd rs1 : Z) (a : Assembler) : option Assembler :=
  ASSERT (Supports a RV_Zcb);;
  ASSERT (rd =? rs1);;
  Emit16 (Some (COpcode_value C_ZEXTB) .|? EncodeCRs1p rs1) a.

Definition c_sextb (rd rs1 : Z) (a : Assembler) : option Assembler :=
  ASSERT (Supports a RV_Zcb);;
  ASSERT (rd =? rs1);;
  Emit16 (Some (COpcode_value C_SEXTB) .|? EncodeCRs1p rs1) a.

Definition c_zexth (rd rs1 : Z) (a : Assembler) : option Assembler :=
  ASSERT (Supports a RV_Zcb);;
  ASSERT (Supports a RV_Zbb);;
  ASSERT (rd =? rs1);;
  Emit16 (Some (COpcode_value C_ZEXTH) .|? EncodeCRs1p rs1) a.

Definition c_sexth (rd rs1 : Z) (a : Assembler) : option Assembler :=
  ASSERT (Supports a RV_Zcb);;
  ASSERT (Supports a RV_Zbb);;
  ASSERT (rd =? rs1);;
  Emit16 (Some (COpcode_value C_SEXTH) .|? EncodeCRs1p rs1) a.

Definition c_zextw (rd rs1 : Z) (a : Assembler) : option Assembler :=
  ASSERT (Supports a RV_Zcb);;
  ASSERT (Supports a RV_Zba);;
  ASSERT (rd =? rs1);;
  Emit16 (Some (COpcode_value C_ZEXTW) .|? EncodeCRs1p rs1) a.

Definition c_mul (rd rs1 rs2 : Z) (a : Assembler) : option Assembler :=
  ASSERT (Supports a RV_Zcb);;
  ASSERT (Supports a RV_M);;
  ASSERT (rd =? rs1);;
  Emit16 (Some (COpcode_value C_MUL) .|? EncodeCRs1p rs1 .|? EncodeCRs2p rs2) a.

Definition c_not (rd rs1 : Z) (a : Assembler) : option Assembler :=
  ASSERT (Supports a RV_Zcb);;
  ASSERT (rd =? rs1);;
  Emit16 (Some (COpcode_value C_NOT) .|? EncodeCRs1p rs1) a.

(** ** RV32I *)

(** [HartEffects::kAll]. *)
Definition kAll : Z := 0xF.

Definition lui (rd imm : Z) (a : Assembler) : option Assembler :=
  ASSERT (Supports a RV_I);;
  if Supports a RV_C && negb (rd =? ZR) && negb (rd =? SP) && IsCUImm imm then c_lui rd imm a else
  EmitUType imm rd LUI a.

Definition lui_fixed (rd imm : Z) (a : Assembler) : option Assembler :=
  ASSERT (Supports a RV_I);;
  EmitUType imm rd LUI a.

Definition auipc (rd imm : Z) (a : Assembler) : option Assembler :=
  ASSERT (Supports a RV_I);;
  EmitUType imm rd AUIPC a.

Definition jalr (rd rs1 offset : Z) (a : Assembler) : option Assembler :=
  ASSERT (Supports a RV_I);;
  if Supports a RV_C && negb (rs1 =? ZR) && (offset =? 0) && (rd =? ZR) then c_jr rs1 a else
  if Supports a RV_C && negb (rs1 =? ZR) && (offset =? 0) && (rd =? RA) then c_jalr rs1 a else
  EmitIType offset rs1 F3_0 rd JALR a.

Definition jalr_fixed (rd rs1 offset : Z) (a : Assembler) : option Assembler :=
  ASSERT (Supports a RV_I);;
  EmitIType offset rs1 F3_0 rd JALR a.

Definition lb (rd : Z) (addr : Address) (a : Assembler) : option Assembler :=
  ASSERT (Supports a RV_I);;
  EmitIType (offset addr) (base addr) LB rd LOAD a.

Definition lh (rd : Z) (addr : Address) (a : Assembler) : option Assembler :=
  ASSERT (Supports a RV_I);;
  if Supports a RV_Zcb && IsCRdp rd && IsCRs1p (base addr) && IsCMem2Imm (offset addr) then c_lh rd addr a else
  EmitIType (offset addr) (base addr) LH rd LOAD a.

Definition lw (rd : Z) (addr : Address) (a : Assembler) : option Assembler :=
  ASSERT (Supports a RV_I);;
  if Supports a RV_C && negb (rd =? ZR) && (base addr =? SP) && IsCSPLoad4Imm (offset addr)
  then c_lwsp rd addr a else
  if Supports a RV_C && IsCRdp rd && IsCRs1p (base addr) && IsCMem4Imm (offset addr) then c_lw rd addr a else
  EmitIType (offset addr) (base addr) LW rd LOAD a.

Definition lbu (rd : Z) (addr : Address) (a : Assembler) : option Assembler :=
  ASSERT (Supports a RV_I);;
  if Supports a RV_Zcb && IsCRdp rd && IsCRs1p (base addr) && IsCMem1Imm (offset addr) then c_lbu rd addr a else
  EmitIType (offset addr) (base addr) LBU rd LOAD a.

Definition lhu (rd : Z) (addr : Address) (a : Assembler) : option Assembler :=
  ASSERT (Supports a RV_I);;
  if Supports a RV_Zcb && IsCRdp rd && IsCRs1p (base addr) && IsCMem2Imm (offset addr) then c_lhu rd addr a else
  EmitIType (offset addr) (base addr) LHU rd LOAD a.

Definition sb (rs2 : Z) (addr : Address) (a : Assembler) : option Assembler :=
  ASSERT (Supports a RV_I);;
  if Supports a RV_Zcb && IsCRs2p rs2 && IsCRs1p (base addr) && IsCMem1Imm (offset addr)
  then c_sb rs2 addr a else
  EmitSType (offset addr) rs2 (base addr) SB STORE a.

Definition sh (rs2 : Z) (addr : Address) (a : Assembler) : option Assembler :=
  ASSERT (Supports a RV_I);;
  if Supports a RV_Zcb && IsCRs2p rs2 && IsCRs1p (base addr) && IsCMem2Imm (offset addr)
  then c_sh rs2 addr a else
  EmitSType (offset addr) rs2 (base addr) SH STORE a.

Definition sw (rs2 : Z) (addr : Address) (a : Assembler) : option Assembler :=
  ASSERT (Supports a RV_I);;
  if Supports a RV_C && (base addr =? SP) && IsCSPStore4Imm (offset addr) then c_swsp rs2 addr a else
  if Supports a RV_C && IsCRs2p rs2 && IsCRs1p (base addr) && IsCMem4Imm (offset addr) then c_sw rs2 addr a else
  EmitSType (offset addr) rs2 (base addr) SW STORE a.

Definition addi (rd rs1 imm : Z) (a : Assembler) : option Assembler :=
  ASSERT (Supports a RV_I);;
  if Supports a RV_C && negb (rd =? ZR) && (rs1 =? ZR) && IsCIImm imm then c_li rd imm a else
  if Supports a RV_C && (rd =? rs1) && IsCIImm imm && negb (imm =? 0) then c_addi rd rs1 imm a else
  if Supports a RV_C && (rd =? SP) && (rs1 =? SP) && IsCI16Imm imm && negb (imm =? 0)
  then c_addi16sp rd rs1 imm a else
  if Supports a RV_C && IsCRdp rd && (rs1 =? SP) && IsCI4SPNImm imm && negb (imm =? 0)
  then c_addi4spn rd rs1 imm a else
  if Supports a RV_C && (imm =? 0) && (rd =? ZR) && (rs1 =? ZR) then c_nop a else
  if Supports a RV_C && (imm =? 0) && negb (rd =? ZR) && negb (rs1 =? ZR) then c_mv rd rs1 a else
  EmitIType imm rs1 ADDI rd OPIMM a.

Definition slti (rd rs1 imm : Z) (a : Assembler) : option Assembler :=
  ASSERT (Supports a RV_I);;
  EmitIType imm rs1 SLTI rd OPIMM a.

Definition sltiu (rd rs1 imm : Z) (a : Assembler) : option Assembler :=
  ASSERT (Supports a RV_I);;
  EmitIType imm rs1 SLTIU rd OPIMM a.

Definition xori (rd rs1 imm : Z) (a : Assembler) : option Assembler :=
  ASSERT (Supports a RV_I);;
  if Supports a RV_Zcb && (rd =? rs1) && IsCRs1p rs1 && (imm =? (-1)) then c_not rd rs1 a else
  EmitIType imm rs1 XORI rd OPIMM a.

Definition ori (rd rs1 imm : Z) (a : Assembler) : option Assembler :=
  ASSERT (Supports a RV_I);;
  EmitIType imm rs1 ORI rd OPIMM a.

Definition andi (rd rs1 imm : Z) (a : Assembler) : option Assembler :=
  ASSERT (Supports a RV_I);;
  if Supports a RV_C && (rd =? rs1) && IsCRs1p rs1 && IsCIImm imm then c_andi rd rs1 imm a else
  if Supports a RV_C && Supports a RV_Zcb && (rd =? rs1) && IsCRs1p rs1 && (imm =? 0xFF)
  then c_zextb rd rs1 a else
  EmitIType imm rs1 ANDI rd OPIMM a.

Definition slli (rd rs1 shamt : Z) (a : Assembler) : option Assembler :=
  ASSERT ((shamt >? 0) && (shamt <? XLEN));;
  ASSERT (Supports a RV_I);;
  if Supports a RV_C && (rd =? rs1) && negb (rd =? ZR) && IsCShamt shamt then c_slli rd rs1 shamt a else
  EmitRType_shamt F7_0 shamt rs1 SLLI rd OPIMM a.

Definition srli (rd rs1 shamt : Z) (a : Assembler) : option Assembler :=
  ASSERT ((shamt >? 0) && (shamt <? XLEN));;
  ASSERT (Supports a RV_I);;
  if Supports a RV_C && (rd =? rs1) && IsCRs1p rs1 && IsCShamt shamt then c_srli rd rs1 shamt a else
  EmitRType_shamt F7_0 shamt rs1 SRI rd OPIMM a.

Definition srai (rd rs1 shamt : Z) (a : Assembler) : option Assembler :=
  ASSERT ((shamt >? 0) && (shamt <? XLEN));;
  ASSERT (Supports a RV_I);;
  if Supports a RV_C && (rd =? rs1) && IsCRs1p rs1 && IsCShamt shamt then c_srai rd rs1 shamt a else
  EmitRType_shamt SRA shamt rs1 SRI rd OPIMM a.

Definition add (rd rs1 rs2 : Z) (a : Assembler) : option Assembler :=
  ASSERT (Supports a RV_I);;
  if Supports a RV_C && (rd =? rs1) && negb (rs2 =? ZR) then c_add rd rs1 rs2 a else
  if Supports a RV_C && (rd =? rs2) && negb (rs1 =? ZR) then c_add rd rs2 rs1 a else
  EmitRType F7_0 rs2 rs1 ADD rd OP a.

Definition sub (rd rs1 rs2 : Z) (a : Assembler) : option Assembler :=
  ASSERT (Supports a RV_I);;
  if Supports a RV_C && (rd =? rs1) && IsCRs1p rs1 && IsCRs2p rs2 then c_sub rd rs1 rs2 a else
  EmitRType SUB rs2 rs1 ADD rd OP a.

Definition sll (rd rs1 rs2 : Z) (a : Assembler) : option Assembler :=
  ASSERT (Supports a RV_I);;
  EmitRType F7_0 rs2 rs1 SLL rd OP a.

Definition slt (rd rs1 rs2 : Z) (a : Assembler) : option Assembler :=
  ASSERT (Supports a RV_I);;
  EmitRType F7_0 rs2 rs1 SLT rd OP a.

Definition sltu (rd rs1 rs2 : Z) (a : Assembler) : option Assembler :=
  ASSERT (Supports a RV_I);;
  EmitRType F7_0 rs2 rs1 SLTU rd OP a.

Definition xor_ (rd rs1 rs2 : Z) (a : Assembler) : option Assembler :=
  ASSERT (Supports a RV_I);;
  if Supports a RV_C && (rd =? rs1) && IsCRs1p rs1 && IsCRs2p rs2 then c_xor rd rs1 rs2 a else
  if Supports a RV_C && (rd =? rs2) && IsCRs1p rs1 && IsCRs2p rs2 then c_xor rd rs2 rs1 a else
  EmitRType F7_0 rs2 rs1 XOR rd OP a.

Definition srl (rd rs1 rs2 : Z) (a : Assembler) : option Assembler :=
  ASSERT (Supports a RV_I);;
  EmitRType F7_0 rs2 rs1 SR rd OP a.

Definition sra (rd rs1 rs2 : Z) (a : Assembler) : option Assembler :=
  ASSERT (Supports a RV_I);;
  EmitRType SRA rs2 rs1 SR rd OP a.

Definition or_ (rd rs1 rs2 : Z) (a : Assembler) : option Assembler :=
  ASSERT (Supports a RV_I);;
  if Supports a RV_C && (rd =? rs1) && IsCRs1p rs1 && IsCRs2p rs2 then c_or rd rs1 rs2 a else
  if Supports a RV_C && (rd =? rs2) && IsCRs1p rs1 && IsCRs2p rs2 then c_or rd rs2 rs1 a else
  EmitRType F7_0 rs2 rs1 OR rd OP a.

Definition and_ (rd rs1 rs2 : Z) (a : Assembler) : option Assembler :=
  ASSERT (Supports a RV_I);;
  if Supports a RV_C && (rd =? rs1) && IsCRs1p rs1 && IsCRs2p rs2 then c_and rd rs1 rs2 a else
  if Supports a RV_C && (rd =? rs2) && IsCRs1p rs1 && IsCRs2p rs2 then c_and rd rs2 rs1 a else
  EmitRType F7_0 rs2 rs1 AND rd OP a.

Definition fence (predecessor successor : Z) (a : Assembler) : option Assembler :=
  ASSERT ((predecessor .& kAll) =? predecessor);;
  ASSERT ((successor .& kAll) =? successor);;
  ASSERT (Supports a RV_I);;
  EmitIType ((predecessor << 4) .| successor) ZR FENCE ZR MISCMEM a.

Definition fencei (a : Assembler) : option Assembler :=
  ASSERT (Supports a RV_I);;
  EmitIType 0 ZR FENCEI ZR MISCMEM a.

Definition ecall (a : Assembler) : option Assembler :=
  ASSERT (Supports a RV_I);;
  EmitIType_funct12 ECALL ZR PRIV ZR SYSTEM a.

Definition ebreak (a : Assembler) : option Assembler :=
  ASSERT (Supports a RV_I);;
  if Supports a RV_C then c_ebreak a else
  EmitIType_funct12 EBREAK ZR PRIV ZR SYSTEM a.

Definition SimulatorPrintObject (rs1 : Z) (a : Assembler) : option Assembler :=
  ASSERT (Supports a RV_I);;
  EmitIType_funct12 ECALL rs1 PRIV ZR SYSTEM a.

Definition csrrw (rd csr rs1 : Z) (a : Assembler) : option Assembler :=
  ASSERT (Supports a RV_I);;
  EmitIType csr rs1 CSRRW rd SYSTEM a.

Definition csrrs (rd csr rs1 : Z) (a : Assembler) : option Assembler :=
  ASSERT (Supports a RV_I);;
  EmitIType csr rs1 CSRRS rd SYSTEM a.

Definition csrrc (rd csr rs1 : Z) (a : Assembler) : option Assembler :=
  ASSERT (Supports a RV_I);;
  EmitIType csr rs1 CSRRC rd SYSTEM a.

Definition csrrwi (rd csr imm : Z) (a : Assembler) : option Assembler :=
  ASSERT (Supports a RV_I);;
  EmitIType csr imm CSRRWI rd SYSTEM a.

Definition csrrsi (rd csr imm : Z) (a : Assembler) : option Assembler :=
  ASSERT (Supports a RV_I);;
  EmitIType csr imm CSRRSI rd SYSTEM a.

Definition csrrci (rd csr imm : Z) (a : Assembler) : option Assembler :=
  ASSERT (Supports a RV_I);;
  EmitIType csr imm CSRRCI rd SYSTEM a.

(** ** RV64I *)

Definition lwu (rd : Z) (addr : Address) (a : Assembler) : option Assembler :=
  ASSERT (Supports a RV_I);;
  EmitIType (offset addr) (base addr) LWU rd LOAD a.

Definition ld (rd : Z) (addr : Address) (a : Assembler) : option Assembler :=
  ASSERT (Supports a RV_I);;
  if Supports a RV_C && negb (rd =? ZR) && (base addr =? SP) && IsCSPLoad8Imm (offset addr)
  then c_ldsp rd addr a else
  if Supports a RV_C && IsCRdp rd && IsCRs1p (base addr) && IsCMem8Imm (offset addr) then c_ld rd addr a else
  EmitIType (offset addr) (base addr) LD rd LOAD a.

Definition sd (rs2 : Z) (addr : Address) (a : Assembler) : option Assembler :=
  ASSERT (Supports a RV_I);;
  if Supports a RV_C && (base addr =? SP) && IsCSPStore8Imm (offset addr) then c_sdsp rs2 addr a else
  if Supports a RV_C && IsCRs2p rs2 && IsCRs1p (base addr) && IsCMem8Imm (offset addr) then c_sd rs2 addr a else
  EmitSType (offset addr) rs2 (base addr) SD STORE a.

Definition addiw (rd rs1 imm : Z) (a : Assembler) : option Assembler :=
  ASSERT (Supports a RV_I);;
  if Supports a RV_C && negb (rd =? ZR) && (rs1 =? ZR) && IsCIImm imm then c_li rd imm a else
  if Supports a RV_C && (rd =? rs1) && negb (rd =? ZR) && IsCIImm imm then c_addiw rd rs1 imm a else
  EmitIType imm rs1 ADDI rd OPIMM32 a.

Definition slliw (rd rs1 shamt : Z) (a : Assembler) : option Assembler :=
  ASSERT ((shamt >? 0) && (shamt <? 32));;
  ASSERT (Supports a RV_I);;
  EmitRType_shamt F7_0 shamt rs1 SLLI rd OPIMM32 a.

Definition srliw (rd rs1 shamt : Z) (a : Assembler) : option Assembler :=
  ASSERT ((shamt >? 0) && (shamt <? 32));;
  ASSERT (Supports a RV_I);;
  EmitRType_shamt F7_0 shamt rs1 SRI rd OPIMM32 a.

Definition sraiw (rd rs1 shamt : Z) (a : Assembler) : option Assembler :=
  ASSERT ((shamt >? 0) && (shamt <? XLEN));;
  ASSERT (Supports a RV_I);;
  EmitRType_shamt SRA shamt rs1 SRI rd OPIMM32 a.

Definition addw (rd rs1 rs2 : Z) (a : Assembler) : option Assembler :=
  ASSERT (Supports a RV_I);;
  if Supports a RV_C && (rd =? rs1) && IsCRs1p rs1 && IsCRs2p rs2 then c_addw rd rs1 rs2 a else
  if Supports a RV_C && (rd =? rs2) && IsCRs1p rs1 && IsCRs2p rs2 then c_addw rd rs2 rs1 a else
  EmitRType F7_0 rs2 rs1 ADD rd OP32 a.

Definition subw (rd rs1 rs2 : Z) (a : Assembler) : option Assembler :=
  ASSERT (Supports a RV_I);;
  if Supports a RV_C && (rd =? rs1) && IsCRs1p rs1 && IsCRs2p rs2 then c_subw rd rs1 rs2 a else
  EmitRType SUB rs2 rs1 ADD rd OP32 a.

Definition sllw (rd rs1 rs2 : Z) (a : Assembler) : option Assembler :=
  ASSERT (Supports a RV_I);;
  EmitRType F7_0 rs2 rs1 SLL rd OP32 a.

Definition srlw (rd rs1 rs2 : Z) (a : Assembler) : option Assembler :=
  ASSERT (Supports a RV_I);;
  EmitRType F7_0 rs2 rs1 SR rd OP32 a.

Definition sraw (rd rs1 rs2 : Z) (a : Assembler) : option Assembler :=
  ASSERT (Supports a RV_I);;
  EmitRType SRA rs2 rs1 SR rd OP32 a.

(** ** M *)

Definition mul (rd rs1 rs2 : Z) (a : Assembler) : option Assembler :=
  ASSERT (Supports a RV_M);;
  if Supports a RV_Zcb && (rd =? rs1) && IsCRs1p rs1 && IsCRs2p rs2 then c_mul rd rs1 rs2 a else
  if Supports a RV_Zcb && (rd =? rs2) && IsCRs1p rs1 && IsCRs2p rs2 then c_mul rd rs2 rs1 a else
  EmitRType MULDIV rs2 rs1 MUL rd OP a.

Definition mulh (rd rs1 rs2 : Z) (a : Assembler) : option Assembler :=
  ASSERT (Supports a RV_M);;
  EmitRType MULDIV rs2 rs1 MULH rd OP a.

Definition mulhsu (rd rs1 rs2 : Z) (a : Assembler) : option Assembler :=
  ASSERT (Supports a RV_M);;
  EmitRType MULDIV rs2 rs1 MULHSU rd OP a.

Definition mulhu (rd rs1 rs2 : Z) (a : Assembler) : option Assembler :=
  ASSERT (Supports a RV_M);;
  EmitRType MULDIV rs2 rs1 MULHU rd OP a.

Definition div (rd rs1 rs2 : Z) (a : Assembler) : option Assembler :=
  ASSERT (Supports a RV_M);;
  EmitRType MULDIV rs2 rs1 DIV rd OP a.

Definition divu (rd rs1 rs2 : Z) (a : Assembler) : option Assembler :=
  ASSERT (Supports a RV_M);;
  EmitRType MULDIV rs2 rs1 DIVU rd OP a.

Definition rem (rd rs1 rs2 : Z) (a : Assembler) : option Assembler :=
  ASSERT (Supports a RV_M);;
  EmitRType MULDIV rs2 rs1 REM rd OP a.

Definition remu (rd rs1 rs2 : Z) (a : Assembler) : option Assembler :=
  ASSERT (Supports a RV_M);;
  EmitRType MULDIV rs2 rs1 REMU rd OP a.

Definition mulw (rd rs1 rs2 : Z) (a : Assembler) : option Assembler :=
  ASSERT (Supports a RV_M);;
  EmitRType MULDIV rs2 rs1 MULW rd OP32 a.

Definition divw (rd rs1 rs2 : Z) (a : Assembler) : option Assembler :=
  ASSERT (Supports a RV_M);;
  EmitRType MULDIV rs2 rs1 DIVW rd OP32 a.

Definition divuw (rd rs1 rs2 : Z) (a : Assembler) : option Assembler :=
  ASSERT (Supports a RV_M);;
  EmitRType MULDIV rs2 rs1 DIVUW rd OP32 a.

Definition remw (rd rs1 rs2 : Z) (a : Assembler) : option Assembler :=
  ASSERT (Supports a RV_M);;
  EmitRType MULDIV rs2 rs1 REMW rd OP32 a.

Definition remuw (rd rs1 rs2 : Z) (a : Assembler) : option Assembler :=
  ASSERT (Supports a RV_M);;
  EmitRType MULDIV rs2 rs1 REMUW rd OP32 a.

(** ** A *)

Definition lrw (rd : Z) (addr : Address) (order : MemoryOrder) (a : Assembler) : option Assembler :=
  ASSERT (offset addr =? 0);;
  ASSERT (Supports a RV_A);;
  EmitRType_order LR order ZR (base addr) WIDTH32 rd AMO a.

Definition scw (rd rs2 : Z) (addr : Address) (order : MemoryOrder) (a : Assembler) : option Assembler :=
  ASSERT (offset addr =? 0);;
  ASSERT (Supports a RV_A);;
  EmitRType_order SC order rs2 (base addr) WIDTH32 rd AMO a.

Definition amoswapw (rd rs2 : Z) (addr : Address) (order : MemoryOrder) (a : Assembler) : option Assembler :=
  ASSERT (offset addr =? 0);;
  ASSERT (Supports a RV_A);;
  EmitRType_order AMOSWAP order rs2 (base addr) WIDTH32 rd AMO a.

Definition amoaddw (rd rs2 : Z) (addr : Address) (order : MemoryOrder) (a : Assembler) : option Assembler :=
  ASSERT (offset addr =? 0);;
  ASSERT (Supports a RV_A);;
  EmitRType_order AMOADD order rs2 (base addr) WIDTH32 rd AMO a.

Definition amoxorw (rd rs2 : Z) (addr : Address) (order : MemoryOrder) (a : Assembler) : option Assembler :=
  ASSERT (offset addr =? 0);;
  ASSERT (Supports a RV_A);;
  EmitRType_order AMOXOR order rs2 (base addr) WIDTH32 rd AMO a.

Definition amoandw (rd rs2 : Z) (addr : Address) (order : MemoryOrder) (a : Assembler) : option Assembler :=
  ASSERT (offset addr =? 0);;
  ASSERT (Supports a RV_A);;
  EmitRType_order AMOAND order rs2 (base addr) WIDTH32 rd AMO a.

Definition amoorw (rd rs2 : Z) (addr : Address) (order : MemoryOrder) (a : Assembler) : option Assembler :=
  ASSERT (offset addr =? 0);;
  ASSERT (Supports a RV_A);;
  EmitRType_order AMOOR order rs2 (base addr) WIDTH32 rd AMO a.

Definition amominw (rd rs2 : Z) (addr : Address) (order : MemoryOrder) (a : Assembler) : option Assembler :=
  ASSERT (offset addr =? 0);;
  ASSERT (Supports a RV_A);;
  EmitRType_order AMOMIN order rs2 (base addr) WIDTH32 rd AMO a.

Definition amomaxw (rd rs2 : Z) (addr : Address) (order : MemoryOrder) (a : Assembler) : option Assembler :=
  ASSERT (offset addr =? 0);;
  ASSERT (Supports a RV_A);;
  EmitRType_order AMOMAX order rs2 (base addr) WIDTH32 rd AMO a.

Definition amominuw (rd rs2 : Z) (addr : Address) (order : MemoryOrder) (a : Assembler) : option Assembler :=
  ASSERT (offset addr =? 0);;
  ASSERT (Supports a RV_A);;
  EmitRType_order AMOMINU order rs2 (base addr) WIDTH32 rd AMO a.

Definition amomaxuw (rd rs2 : Z) (addr : Address) (order : MemoryOrder) (a : Assembler) : option Assembler :=
  ASSERT (offset addr =? 0);;
  ASSERT (Supports a RV_A);;
  EmitRType_order AMOMAXU order rs2 (base addr) WIDTH32 rd AMO a.

Definition lrd (rd : Z) (addr : Address) (order : MemoryOrder) (a : Assembler) : option Assembler :=
  ASSERT (offset addr =? 0);;
  ASSERT (Supports a RV_A);;
  EmitRType_order LR order ZR (base addr) WIDTH64 rd AMO a.

Definition scd (rd rs2 : Z) (addr : Address) (order : MemoryOrder) (a : Assembler) : option Assembler :=
  ASSERT (offset addr =? 0);;
  ASSERT (Supports a RV_A);;
  EmitRType_order SC order rs2 (base addr) WIDTH64 rd AMO a.

Definition amoswapd (rd rs2 : Z) (addr : Address) (order : MemoryOrder) (a : Assembler) : option Assembler :=
  ASSERT (offset addr =? 0);;
  ASSERT (Supports a RV_A);;
  EmitRType_order AMOSWAP order rs2 (base addr) WIDTH64 rd AMO a.

Definition amoaddd (rd rs2 : Z) (addr : Address) (order : MemoryOrder) (a : Assembler) : option Assembler :=
  ASSERT (offset addr =? 0);;
  ASSERT (Supports a RV_A);;
  EmitRType_order AMOADD order rs2 (base addr) WIDTH64 rd AMO a.

Definition amoxord (rd rs2 : Z) (addr : Address) (order : MemoryOrder) (a : Assembler) : option Assembler :=
  ASSERT (offset addr =? 0);;
  ASSERT (Supports a RV_A);;
  EmitRType_order AMOXOR order rs2 (base addr) WIDTH64 rd AMO a.

Definition amoandd (rd rs2 : Z) (addr : Address) (order : MemoryOrder) (a : Assembler) : option Assembler :=
  ASSERT (offset addr =? 0);;
  ASSERT (Supports a RV_A);;
  EmitRType_order AMOAND order rs2 (base addr) WIDTH64 rd AMO a.

Definition amoord (rd rs2 : Z) (addr : Address) (order : MemoryOrder) (a : Assembler) : option Assembler :=
  ASSERT (offset addr =? 0);;
  ASSERT (Supports a RV_A);;
  EmitRType_order AMOOR order rs2 (base addr) WIDTH64 rd AMO a.

Definition amomind (rd rs2 : Z) (addr : Address) (order : MemoryOrder) (a : Assembler) : option Assembler :=
  ASSERT (offset addr =? 0);;
  ASSERT (Supports a RV_A);;
  EmitRType_order AMOMIN order rs2 (base addr) WIDTH64 rd AMO a.

Definition amomaxd (rd rs2 : Z) (addr : Address) (order : MemoryOrder) (a : Assembler) : option Assembler :=
  ASSERT (offset addr =? 0);;
  ASSERT (Supports a RV_A);;
  EmitRType_order AMOMAX order rs2 (base addr) WIDTH64 rd AMO a.

Definition amominud (rd rs2 : Z) (addr : Address) (order : MemoryOrder) (a : Assembler) : option Assembler :=
  ASSERT (offset addr =? 0);;
  ASSERT (Supports a RV_A);;
  EmitRType_order AMOMINU order rs2 (base addr) WIDTH64 rd AMO a.

Definition amomaxud (rd rs2 : Z) (addr : Address) (order : MemoryOrder) (a : Assembler) : option Assembler :=
  ASSERT (offset addr =? 0);;
  ASSERT (Supports a RV_A);;
  EmitRType_order AMOMAXU order rs2 (base addr) WIDTH64 rd AMO a.

(** ** Zba, Zbb, Zbc, Zbs, Zicond *)

Definition adduw (rd rs1 rs2 : Z) (a : Assembler) : option Assembler :=
  ASSERT (Supports a RV_Zba);;
  if Supports a RV_Zcb && (rd =? rs1) && IsCRs1p rs1 && (rs2 =? ZR) then c_zextw rd rs1 a else
  EmitRType ADDUW rs2 rs1 F3_0 rd OP32 a.

Definition sh1add (rd rs1 rs2 : Z) (a : Assembler) : option Assembler :=
  ASSERT (Supports a RV_Zba);;
  EmitRType SHADD rs2 rs1 SH1ADD rd OP a.

Definition sh1adduw (rd rs1 rs2 : Z) (a : Assembler) : option Assembler :=
  ASSERT (Supports a RV_Zba);;
  EmitRType SHADD rs2 rs1 SH1ADD rd OP32 a.

Definition sh2add (rd rs1 rs2 : Z) (a : Assembler) : option Assembler :=
  ASSERT (Supports a RV_Zba);;
  EmitRType SHADD rs2 rs1 SH2ADD rd OP a.

Definition sh2adduw (rd rs1 rs2 : Z) (a : Assembler) : option Assembler :=
  ASSERT (Supports a RV_Zba);;
  EmitRType SHADD rs2 rs1 SH2ADD rd OP32 a.

Definition sh3add (rd rs1 rs2 : Z) (a : Assembler) : option Assembler :=
  ASSERT (Supports a RV_Zba);;
  EmitRType SHADD rs2 rs1 SH3ADD rd OP a.

Definition sh3adduw (rd rs1 rs2 : Z) (a : Assembler) : option Assembler :=
  ASSERT (Supports a RV_Zba);;
  EmitRType SHADD rs2 rs1 SH3ADD rd OP32 a.

Definition slliuw (rd rs1 shamt : Z) (a : Assembler) : option Assembler :=
  ASSERT ((shamt >? 0) && (shamt <? 32));;
  ASSERT (Supports a RV_Zba);;
  EmitRType_shamt SLLIUW shamt rs1 SLLI rd OPIMM32 a.

Definition andn (rd rs1 rs2 : Z) (a : Assembler) : option Assembler :=
  ASSERT (Supports a RV_Zbb);;
  EmitRType SUB rs2 rs1 AND rd OP a.

Definition orn (rd rs1 rs2 : Z) (a : Assembler) : option Assembler :=
  ASSERT (Supports a RV_Zbb);;
  EmitRType SUB rs2 rs1 OR rd OP a.

Definition xnor (rd rs1 rs2 : Z) (a : Assembler) : option Assembler :=
  ASSERT (Supports a RV_Zbb);;
  EmitRType SUB rs2 rs1 XOR rd OP a.

Definition clz (rd rs1 : Z) (a : Assembler) : option Assembler :=
  ASSERT (Supports a RV_Zbb);;
  EmitRType_shamt COUNT 0 rs1 F3_COUNT rd OPIMM a.

Definition clzw (rd rs1 : Z) (a : Assembler) : option Assembler :=
  ASSERT (Supports a RV_Zbb);;
  EmitRType_shamt COUNT 0 rs1 F3_COUNT rd OPIMM32 a.

Definition ctz (rd rs1 : Z) (a : Assembler) : option Assembler :=
  ASSERT (Supports a RV_Zbb);;
  EmitRType_shamt COUNT 1 rs1 F3_COUNT rd OPIMM a.

Definition ctzw (rd rs1 : Z) (a : Assembler) : option Assembler :=
  ASSERT (Supports a RV_Zbb);;
  EmitRType_shamt COUNT 1 rs1 F3_COUNT rd OPIMM32 a.

Definition cpop (rd rs1 : Z) (a : Assembler) : option Assembler :=
  ASSERT (Supports a RV_Zbb);;
  EmitRType_shamt COUNT 2 rs1 F3_COUNT rd OPIMM a.

Definition cpopw (rd rs1 : Z) (a : Assembler) : option Assembler :=
  ASSERT (Supports a RV_Zbb);;
  EmitRType_shamt COUNT 2 rs1 F3_COUNT rd OPIMM32 a.

Definition max (rd rs1 rs2 : Z) (a : Assembler) : option Assembler :=
  ASSERT (Supports a RV_Zbb);;
  EmitRType MINMAXCLMUL rs2 rs1 MAX rd OP a.

Definition maxu (rd rs1 rs2 : Z) (a : Assembler) : option Assembler :=
  ASSERT (Supports a RV_Zbb);;
  EmitRType MINMAXCLMUL rs2 rs1 MAXU rd OP a.

Definition min (rd rs1 rs2 : Z) (a : Assembler) : option Assembler :=
  ASSERT (Supports a RV_Zbb);;
  EmitRType MINMAXCLMUL rs2 rs1 MIN rd OP a.

Definition minu (rd rs1 rs2 : Z) (a : Assembler) : option Assembler :=
  ASSERT (Supports a RV_Zbb);;
  EmitRType MINMAXCLMUL rs2 rs1 MINU rd OP a.

Definition sextb (rd rs1 : Z) (a : Assembler) : option Assembler :=
  ASSERT (Supports a RV_Zbb);;
  if Supports a RV_Zcb && (rd =? rs1) && IsCRs1p rs1 then c_sextb rd rs1 a else
  EmitRType_shamt 0x30 4 rs1 SEXT rd OPIMM a.

Definition sexth (rd rs1 : Z) (a : Assembler) : option Assembler :=
  ASSERT (Supports a RV_Zbb);;
  if Supports a RV_Zcb && (rd =? rs1) && IsCRs1p rs1 then c_sexth rd rs1 a else
  EmitRType_shamt 0x30 5 rs1 SEXT rd OPIMM a.

Definition zexth (rd rs1 : Z) (a : Assembler) : option Assembler :=
  ASSERT (Supports a RV_Zbb);;
  if Supports a RV_Zcb && (rd =? rs1) && IsCRs1p rs1 then c_zexth rd rs1 a else
  EmitRType_shamt 4 0 rs1 ZEXT rd OP32 a.

Definition rol (rd rs1 rs2 : Z) (a : Assembler) : option Assembler :=
  ASSERT (Supports a RV_Zbb);;
  EmitRType ROTATE rs2 rs1 ROL rd OP a.

Definition rolw (rd rs1 rs2 : Z) (a : Assembler) : option Assembler :=
  ASSERT (Supports a RV_Zbb);;
  EmitRType ROTATE rs2 rs1 ROL rd OP32 a.

Definition ror (rd rs1 rs2 : Z) (a : Assembler) : option Assembler :=
  ASSERT (Supports a RV_Zbb);;
  EmitRType ROTATE rs2 rs1 ROR rd OP a.

Definition rori (rd rs1 shamt : Z) (a : Assembler) : option Assembler :=
  ASSERT (Supports a RV_Zbb);;
  EmitRType_shamt ROTATE shamt rs1 ROR rd OPIMM a.

Definition roriw (rd rs1 shamt : Z) (a : Assembler) : option Assembler :=
  ASSERT (Supports a RV_Zbb);;
  EmitRType_shamt ROTATE shamt rs1 ROR rd OPIMM32 a.

Definition rorw (rd rs1 rs2 : Z) (a : Assembler) : option Assembler :=
  ASSERT (Supports a RV_Zbb);;
  EmitRType ROTATE rs2 rs1 ROR rd OP32 a.

Definition orcb (rd rs1 : Z) (a : Assembler) : option Assembler :=
  ASSERT (Supports a RV_Zbb);;
  EmitRType_shamt 0x14 7 rs1 5 rd OPIMM a.

Definition rev8 (rd rs1 : Z) (a : Assembler) : option Assembler :=
  ASSERT (Supports a RV_Zbb);;
  EmitRType_shamt 0x35 0x18 rs1 5 rd OPIMM a.

Definition clmul (rd rs1 rs2 : Z) (a : Assembler) : option Assembler :=
  ASSERT (Supports a RV_Zbc);;
  EmitRType MINMAXCLMUL rs2 rs1 CLMUL rd OP a.

Definition clmulh (rd rs1 rs2 : Z) (a : Assembler) : option Assembler :=
  ASSERT (Supports a RV_Zbc);;
  EmitRType MINMAXCLMUL rs2 rs1 CLMULH rd OP a.

Definition clmulr (rd rs1 rs2 : Z) (a : Assembler) : option Assembler :=
  ASSERT (Supports a RV_Zbc);;
  EmitRType MINMAXCLMUL rs2 rs1 CLMULR rd OP a.

Definition bclr (rd rs1 rs2 : Z) (a : Assembler) : option Assembler :=
  ASSERT (Supports a RV_Zbs);;
  EmitRType BCLRBEXT rs2 rs1 BCLR rd OP a.

Definition bclri (rd rs1 shamt : Z) (a : Assembler) : option Assembler :=
  ASSERT (Supports a RV_Zbs);;
  EmitRType_shamt BCLRBEXT shamt rs1 BCLR rd OPIMM a.

Definition bext (rd rs1 rs2 : Z) (a : Assembler) : option Assembler :=
  ASSERT (Supports a RV_Zbs);;
  EmitRType BCLRBEXT rs2 rs1 BEXT rd OP a.

Definition bexti (rd rs1 shamt : Z) (a : Assembler) : option Assembler :=
  ASSERT (Supports a RV_Zbs);;
  EmitRType_shamt BCLRBEXT shamt rs1 BEXT rd OPIMM a.

Definition binv (rd rs1 rs2 : Z) (a : Assembler) : option Assembler :=
  ASSERT (Supports a RV_Zbs);;
  EmitRType BINV rs2 rs1 F3_BINV rd OP a.

Definition binvi (rd rs1 shamt : Z) (a : Assembler) : option Assembler :=
  ASSERT (Supports a RV_Zbs);;
  EmitRType_shamt BINV shamt rs1 F3_BINV rd OPIMM a.

Definition bset (rd rs1 rs2 : Z) (a : Assembler) : option Assembler :=
  ASSERT (Supports a RV_Zbs);;
  EmitRType BSET rs2 rs1 F3_BSET rd OP a.

Definition bseti (rd rs1 shamt : Z) (a : Assembler) : option Assembler :=
  ASSERT (Supports a RV_Zbs);;
  EmitRType_shamt BSET shamt rs1 F3_BSET rd OPIMM a.

Definition czeroeqz (rd rs1 rs2 : Z) (a : Assembler) : option Assembler :=
  ASSERT (Supports a RV_Zicond);;
  EmitRType CZERO rs2 rs1 CZEROEQZ rd OP a.

Definition czeronez (rd rs1 rs2 : Z) (a : Assembler) : option Assembler :=
  ASSERT (Supports a RV_Zicond);;
  EmitRType CZERO rs2 rs1 CZERONEZ rd OP a.

(** ** Zabha *)

Definition amoswapb (rd rs2 : Z) (addr : Address) (order : MemoryOrder) (a : Assembler) : option Assembler :=
  ASSERT (offset addr =? 0);;
  ASSERT (Supports a RV_Zabha);;
  EmitRType_order AMOSWAP order rs2 (base addr) WIDTH8 rd AMO a.

Definition amoaddb (rd rs2 : Z) (addr : Address) (order : MemoryOrder) (a : Assembler) : option Assembler :=
  ASSERT (offset addr =? 0);;
  ASSERT (Supports a RV_Zabha);;
  EmitRType_order AMOADD order rs2 (base addr) WIDTH8 rd AMO a.

Definition amoxorb (rd rs2 : Z) (addr : Address) (order : MemoryOrder) (a : Assembler) : option Assembler :=
  ASSERT (offset addr =? 0);;
  ASSERT (Supports a RV_Zabha);;
  EmitRType_order AMOXOR order rs2 (base addr) WIDTH8 rd AMO a.

Definition amoandb (rd rs2 : Z) (addr : Address) (order : MemoryOrder) (a : Assembler) : option Assembler :=
  ASSERT (offset addr =? 0);;
  ASSERT (Supports a RV_Zabha);;
  EmitRType_order AMOAND order rs2 (base addr) WIDTH8 rd AMO a.

Definition amoorb (rd rs2 : Z) (addr : Address) (order : MemoryOrder) (a : Assembler) : option Assembler :=
  ASSERT (offset addr =? 0);;
  ASSERT (Supports a RV_Zabha);;
  EmitRType_order AMOOR order rs2 (base addr) WIDTH8 rd AMO a.

Definition amominb (rd rs2 : Z) (addr : Address) (order : MemoryOrder) (a : Assembler) : option Assembler :=
  ASSERT (offset addr =? 0);;
  ASSERT (Supports a RV_Zabha);;
  EmitRType_order AMOMIN order rs2 (base addr) WIDTH8 rd AMO a.

Definition amomaxb (rd rs2 : Z) (addr : Address) (order : MemoryOrder) (a : Assembler) : option Assembler :=
  ASSERT (offset addr =? 0);;
  ASSERT (Supports a RV_Zabha);;
  EmitRType_order AMOMAX order rs2 (base addr) WIDTH8 rd AMO a.

Definition amominub (rd rs2 : Z) (addr : Address) (order : MemoryOrder) (a : Assembler) : option Assembler :=
  ASSERT (offset addr =? 0);;
  ASSERT (Supports a RV_Zabha);;
  EmitRType_order AMOMINU order rs2 (base addr) WIDTH8 rd AMO a.

Definition amomaxub (rd rs2 : Z) (addr : Address) (order : MemoryOrder) (a : Assembler) : option Assembler :=
  ASSERT (offset addr =? 0);;
  ASSERT (Supports a RV_Zabha);;
  EmitRType_order AMOMAXU order rs2 (base addr) WIDTH8 rd AMO a.

Definition amoswaph (rd rs2 : Z) (addr : Address) (order : MemoryOrder) (a : Assembler) : option Assembler :=
  ASSERT (offset addr =? 0);;
  ASSERT (Supports a RV_Zabha);;
  EmitRType_order AMOSWAP order rs2 (base addr) WIDTH16 rd AMO a.

Definition amoaddh (rd rs2 : Z) (addr : Address) (order : MemoryOrder) (a : Assembler) : option Assembler :=
  ASSERT (offset addr =? 0);;
  ASSERT (Supports a RV_Zabha);;
  EmitRType_order AMOADD order rs2 (base addr) WIDTH16 rd AMO a.

Definition amoxorh (rd rs2 : Z) (addr : Address) (order : MemoryOrder) (a : Assembler) : option Assembler :=
  ASSERT (offset addr =? 0);;
  ASSERT (Supports a RV_Zabha);;
  EmitRType_order AMOXOR order rs2 (base addr) WIDTH16 rd AMO a.

Definition amoandh (rd rs2 : Z) (addr : Address) (order : MemoryOrder) (a : Assembler) : option Assembler :=
  ASSERT (offset addr =? 0);;
  ASSERT (Supports a RV_Zabha);;
  EmitRType_order AMOAND order rs2 (base addr) WIDTH16 rd AMO a.

Definition amoorh (rd rs2 : Z) (addr : Address) (order : MemoryOrder) (a : Assembler) : option Assembler :=
  ASSERT (offset addr =? 0);;
  ASSERT (Supports a RV_Zabha);;
  EmitRType_order AMOOR order rs2 (base addr) WIDTH16 rd AMO a.

Definition amominh (rd rs2 : Z) (addr : Address) (order : MemoryOrder) (a : Assembler) : option Assembler :=
  ASSERT (offset addr =? 0);;
  ASSERT (Supports a RV_Zabha);;
  EmitRType_order AMOMIN order rs2 (base addr) WIDTH16 rd AMO a.

Definition amomaxh (rd rs2 : Z) (addr : Address) (order : MemoryOrder) (a : Assembler) : option Assembler :=
  ASSERT (offset addr =? 0);;
  ASSERT (Supports a RV_Zabha);;
  EmitRType_order AMOMAX order rs2 (base addr) WIDTH16 rd AMO a.

Definition amominuh (rd rs2 : Z) (addr : Address) (order : MemoryOrder) (a : Assembler) : option Assembler :=
  ASSERT (offset addr =? 0);;
  ASSERT (Supports a RV_Zabha);;
  EmitRType_order AMOMINU order rs2 (base addr) WIDTH16 rd AMO a.

Definition amomaxuh (rd rs2 : Z) (addr : Address) (order : MemoryOrder) (a : Assembler) : option Assembler :=
  ASSERT (offset addr =? 0);;
  ASSERT (Supports a RV_Zabha);;
  EmitRType_order AMOMAXU order rs2 (base addr) WIDTH16 rd AMO a.

(** ** Zalasr *)

Definition lb_ordered (rd : Z) (addr : Address) (order : MemoryOrder) (a : Assembler) : option Assembler :=
  ASSERT (offset addr =? 0);;
  ASSERT (MemoryOrder_eqb order memory_order_acquire || MemoryOrder_eqb order memory_order_acq_rel);;
  ASSERT (Supports a RV_Zalasr);;
  EmitRType_order LOADORDERED order ZR (base addr) WIDTH8 rd AMO a.

Definition lh_ordered (rd : Z) (addr : Address) (order : MemoryOrder) (a : Assembler) : option Assembler :=
  ASSERT (offset addr =? 0);;
  ASSERT (MemoryOrder_eqb order memory_order_acquire || MemoryOrder_eqb order memory_order_acq_rel);;
  ASSERT (Supports a RV_Zalasr);;
  EmitRType_order LOADORDERED order ZR (base addr) WIDTH16 rd AMO a.

Definition lw_ordered (rd : Z) (addr : Address) (order : MemoryOrder) (a : Assembler) : option Assembler :=
  ASSERT (offset addr =? 0);;
  ASSERT (MemoryOrder_eqb order memory_order_acquire || MemoryOrder_eqb order memory_order_acq_rel);;
  ASSERT (Supports a RV_Zalasr);;
  EmitRType_order LOADORDERED order ZR (base addr) WIDTH32 rd AMO a.

Definition sb_ordered (rs2 : Z) (addr : Address) (order : MemoryOrder) (a : Assembler) : option Assembler :=
  ASSERT (offset addr =? 0);;
  ASSERT (MemoryOrder_eqb order memory_order_release || MemoryOrder_eqb order memory_order_acq_rel);;
  ASSERT (Supports a RV_Zalasr);;
  EmitRType_order STOREORDERED order rs2 (base addr) WIDTH8 ZR AMO a.

Definition sh_ordered (rs2 : Z) (addr : Address) (order : MemoryOrder) (a : Assembler) : option Assembler :=
  ASSERT (offset addr =? 0);;
  ASSERT (MemoryOrder_eqb order memory_order_release || MemoryOrder_eqb order memory_order_acq_rel);;
  ASSERT (Supports a RV_Zalasr);;
  EmitRType_order STOREORDERED order rs2 (base addr) WIDTH16 ZR AMO a.

Definition sw_ordered (rs2 : Z) (addr : Address) (order : MemoryOrder) (a : Assembler) : option Assembler :=
  ASSERT (offset addr =? 0);;
  ASSERT (MemoryOrder_eqb order memory_order_release || MemoryOrder_eqb order memory_order_acq_rel);;
  ASSERT (Supports a RV_Zalasr);;
  EmitRType_order STOREORDERED order rs2 (base addr) WIDTH32 ZR AMO a.

Definition ld_ordered (rd : Z) (addr : Address) (order : MemoryOrder) (a : Assembler) : option Assembler :=
  ASSERT (offset addr =? 0);;
  ASSERT (MemoryOrder_eqb order memory_order_acquire || MemoryOrder_eqb order memory_order_acq_rel);;
  ASSERT (Supports a RV_Zalasr);;
  EmitRType_order LOADORDERED order ZR (base addr) WIDTH64 rd AMO a.

Definition sd_ordered (rs2 : Z) (addr : Address) (order : MemoryOrder) (a : Assembler) : option Assembler :=
  ASSERT (offset addr =? 0);;
  ASSERT (MemoryOrder_eqb order memory_order_release || MemoryOrder_eqb order memory_order_acq_rel);;
  ASSERT (Supports a RV_Zalasr);;
  EmitRType_order STOREORDERED order rs2 (base addr) WIDTH64 ZR AMO a.

(** ** Zacas, Zawrs *)

Definition amocasb (rd rs2 : Z) (addr : Address) (order : MemoryOrder) (a : Assembler) : option Assembler :=
  ASSERT (offset addr =? 0);;
  ASSERT (SupportsAll a (set_of [RV_Zacas; RV_Zabha]));;
  EmitRType_order AMOCAS order rs2 (base addr) WIDTH8 rd AMO a.

Definition amocash (rd rs2 : Z) (addr : Address) (order : MemoryOrder) (a : Assembler) : option Assembler :=
  ASSERT (offset addr =? 0);;
  ASSERT (SupportsAll a (set_of [RV_Zacas; RV_Zabha]));;
  EmitRType_order AMOCAS order rs2 (base addr) WIDTH16 rd AMO a.

Definition amocasw (rd rs2 : Z) (addr : Address) (order : MemoryOrder) (a : Assembler) : option Assembler :=
  ASSERT (offset addr =? 0);;
  ASSERT (Supports a RV_Zacas);;
  EmitRType_order AMOCAS order rs2 (base addr) WIDTH32 rd AMO a.

Definition amocasd (rd rs2 : Z) (addr : Address) (order : MemoryOrder) (a : Assembler) : option Assembler :=
  ASSERT (offset addr =? 0);;
  ASSERT (Supports a RV_Zacas);;
  EmitRType_order AMOCAS order rs2 (base addr) WIDTH64 rd AMO a.

Definition amocasq (rd rs2 : Z) (addr : Address) (order : MemoryOrder) (a : Assembler) : option Assembler :=
  ASSERT (offset addr =? 0);;
  ASSERT (rd mod 2 =? 0);;
  ASSERT (rs2 mod 2 =? 0);;
  ASSERT (Supports a RV_Zacas);;
  EmitRType_order AMOCAS order rs2 (base addr) WIDTH128 rd AMO a.

Definition wrsnto (a : Assembler) : option Assembler :=
  ASSERT (Supports a RV_Zawrs);;
  EmitIType_funct12 WRS_NTO ZR PRIV ZR SYSTEM a.

Definition wrssto (a : Assembler) : option Assembler :=
  ASSERT (Supports a RV_Zawrs);;
  EmitIType_funct12 WRS_STO ZR PRIV ZR SYSTEM a.

(** ** Zimop, Zcmop, Zicfiss *)

Definition mopr (n rd rs1 : Z) (a : Assembler) : option Assembler :=
  ASSERT (Supports a RV_Zimop);;
  Emit32 (EncodeMoprn n .|? EncodeFunct12 MOP_R .|? EncodeRs1 rs1 .|? EncodeFunct3 MOP
          .|? EncodeRd rd .|? EncodeOpcode SYSTEM) a.

Definition moprr (n rd rs1 rs2 : Z) (a : Assembler) : option Assembler :=
  ASSERT (Supports a RV_Zimop);;
  Emit32 (EncodeMoprrn n .|? EncodeFunct7 MOP_RR .|? EncodeRs2 rs2 .|? EncodeRs1 rs1
          .|? EncodeFunct3 MOP .|? EncodeRd rd .|? EncodeOpcode SYSTEM) a.

Definition cmop (n : Z) (a : Assembler) : option Assembler :=
  ASSERT (Supports a RV_Zcmop);;
  ASSERT (IsUint 4 n && ((n .& 1) =? 1));;
  Emit16 (Some (COpcode_value C_LUI) .|? EncodeCMopn n) a.

Definition sspush (rs2 : Z) (a : Assembler) : option Assembler :=
  ASSERT ((rs2 =? 1) || (rs2 =? 5));;
  if Supports a RV_Zcmop && (rs2 =? 1) then cmop 1 a else moprr 7 ZR ZR rs2 a.

Definition sspopchk (rs1 : Z) (a : Assembler) : option Assembler :=
  ASSERT ((rs1 =? 1) || (rs1 =? 5));;
  if Supports a RV_Zcmop && (rs1 =? 5) then cmop 5 a else mopr 28 ZR rs1 a.

Definition ssrdp (rd : Z) (a : Assembler) : option Assembler := mopr 28 rd ZR a.

Definition ssamoswapw (rd rs2 : Z) (addr : Address) (order : MemoryOrder) (a : Assembler) : option Assembler :=
  ASSERT (offset addr =? 0);;
  ASSERT (Supports a RV_Zicfiss);;
  EmitRType_order SSAMOSWAP order rs2 (base addr) WIDTH32 rd AMO a.

Definition ssamoswapd (rd rs2 : Z) (addr : Address) (order : MemoryOrder) (a : Assembler) : option Assembler :=
  ASSERT (offset addr =? 0);;
  ASSERT (Supports a RV_Zicfiss);;
  EmitRType_order SSAMOSWAP order rs2 (base addr) WIDTH64 rd AMO a.

Definition trap (a : Assembler) : option Assembler :=
  ASSERT (Supports a RV_I);;
  if Supports a RV_C then Emit16 (Some 0) a else Emit32 (Some 0) a.

(** ** Aliases of the header *)

Definition lpad (label : Z) := auipc ZR label.
Definition jr (rs1 offset : Z) := jalr ZR rs1 offset.
Definition ret := jalr ZR RA 0.
Definition subi (rd rs1 imm : Z) := addi rd rs1 (- imm).
Definition csrr (rd csr : Z) := csrrs rd csr ZR.
Definition csrw (csr rs : Z) := csrrw ZR csr rs.
Definition nop := addi ZR ZR 0.
Definition li (rd imm : Z) := addi rd ZR imm.
Definition mv (rd rs : Z) := addi rd rs 0.
Definition not_ (rd rs : Z) := xori rd rs (-1).
Definition neg (rd rs : Z) := sub rd ZR rs.
Definition zextb (rd rs : Z) := andi rd rs 0xFF.
Definition snez (rd rs : Z) := sltu rd ZR rs.
Definition seqz (rd rs : Z) := sltiu rd rs 1.
Definition sltz (rd rs : Z) := slt rd rs ZR.
Definition sgtz (rd rs : Z) := slt rd ZR rs.
Definition subiw (rd rs1 imm : Z) := addiw rd rs1 (- imm).
Definition negw (rd rs : Z) := subw rd ZR rs.
Definition sextw (rd rs : Z) := addiw rd rs 0.
Definition lx (rd : Z) (addr : Address) := ld rd addr.
Definition sx (rs2 : Z) (addr : Address) := sd rs2 addr.
Definition zextw (rd rs : Z) := adduw rd rs ZR.

End MicroAssembler.
