(* ===== verification/RvExec.v ===== *)
(** * Running emitted code on the simulator

    The interface between the assembler and the simulator: [code_at] places a
    piece of emitted code at the program counter, [executes] says what running
    it does to the registers (and that nothing else changes), [implements] that
    an emitter appends code with that behaviour whatever the buffer holds.
    Emitters compose with [>>>], and so do their specifications. *)

From Stdlib Require Import ZArith Lia ZifyBool Bool List.
From S2P Require Import Prelude Bits Utils RvEncoding RvEncodingProofs RvAlu SimMemory Outcome RvFloat RvSimulator RvAssembler.
Import ListNotations.

(** ** Register files *)

Definition wf_regs (regs : Z -> Z) : Prop := regs 0 = 0 /\ forall r, is_uN 5 r -> is_uN 64 (regs r).

Definition set_reg (regs : Z -> Z) (rd v : Z) : Z -> Z := if rd =? 0 then regs else update regs rd (u64 v).

(** [regs'] is [regs] with [v] written to [rd] (writes to x0 are dropped). *)
Definition writes (rd : Z) (v : (Z -> Z) -> Z) (regs regs' : Z -> Z) : Prop :=
  forall r, regs' r = set_reg regs rd (v regs) r.

Lemma wf_set_reg regs rd v : wf_regs regs -> wf_regs (set_reg regs rd v).
Proof.
  unfold set_reg, update; intros [H0 Hr]; destruct (Z.eqb_spec rd 0); [split; assumption|].
  split; [destruct (Z.eqb_spec 0 rd); congruence|].
  intros r Hr5; destruct (r =? rd); [apply uN_range; lia|auto].
Qed.

Lemma wf_regs_ext regs regs' : (forall r, regs' r = regs r) -> wf_regs regs -> wf_regs regs'.
Proof. intros E [H0 H]; split; [rewrite E; exact H0|intros r Hr; rewrite E; auto]. Qed.

Lemma writes_wf rd v regs regs' : wf_regs regs -> writes rd v regs regs' -> wf_regs regs'.
Proof. intros H W. apply (wf_regs_ext (set_reg regs rd (v regs))); [exact W|apply wf_set_reg, H]. Qed.

Lemma writes_rd rd v regs regs' : rd <> 0 -> writes rd v regs regs' -> regs' rd = u64 (v regs).
Proof.
  intros H W; rewrite (W rd); unfold set_reg, update.
  destruct (Z.eqb_spec rd 0); [contradiction|]. rewrite Z.eqb_refl; reflexivity.
Qed.

Lemma writes_other rd v regs regs' r : r <> rd -> writes rd v regs regs' -> regs' r = regs r.
Proof.
  intros H W; rewrite (W r); unfold set_reg, update.
  destruct (rd =? 0); [reflexivity|]. destruct (Z.eqb_spec r rd); [contradiction|reflexivity].
Qed.

Lemma writes_intro rd v regs regs' : (rd = 0 -> regs' 0 = regs 0) -> (rd <> 0 -> regs' rd = u64 (v regs)) ->
  (forall r, r <> rd -> regs' r = regs r) -> writes rd v regs regs'.
Proof.
  intros H0 Hrd Ho r; unfold set_reg, update. destruct (Z.eqb_spec rd 0) as [->|Hn].
  - destruct (Z.eq_dec r 0) as [->|]; [apply H0; reflexivity|auto].
  - destruct (Z.eqb_spec r rd) as [->|]; auto.
Qed.

Lemma writes_ext rd v w regs regs' : wf_regs regs -> (u64 (v regs) = u64 (w regs)) ->
  writes rd v regs regs' -> writes rd w regs regs'.
Proof. intros _ E W r; rewrite (W r); unfold set_reg; rewrite E; reflexivity. Qed.

(** ** Code in memory *)

Definition code_at (s : Simulator) (code : list Z) : Prop :=
  0 <= pc_ s /\ pc_ s + Z.of_nat (length code) < 2 ^ 64 /\
  forall i b, nth_error code i = Some b -> host (memory_ s) (pc_ s + Z.of_nat i) = b.

Lemma code_at_app_l s c1 c2 : code_at s (c1 ++ c2) -> code_at s c1.
Proof.
  intros (H0 & H1 & H2); rewrite length_app in H1; split; [exact H0|split; [lia|]].
  intros i b Hi; apply H2. rewrite nth_error_app1; [exact Hi|].
  apply nth_error_Some; congruence.
Qed.

Lemma uN_split_byte n v : uN (8 * Z.of_nat (S n)) v = u8 v .| (uN (8 * Z.of_nat n) (v >> 8) << 8).
Proof.
  apply Z.bits_inj'; intros i Hi.
  rewrite Z.lor_spec, testbit_shiftl, !testbit_uN by lia.
  destruct (Z.ltb_spec i 8).
  - rewrite (proj2 (Z.ltb_lt i (8 * Z.of_nat (S n)))) by lia. rewrite orb_false_r; reflexivity.
  - cbn [andb orb]. rewrite testbit_shiftr by lia.
    replace (i - 8 + 8) with i by lia. f_equal.
    destruct (Z.ltb_spec i (8 * Z.of_nat (S n))), (Z.ltb_spec (i - 8) (8 * Z.of_nat n)); lia.
Qed.

Lemma length_le_bytes n : forall v, length (le_bytes n v) = n.
Proof. induction n; intros; cbn; [|rewrite IHn]; reflexivity. Qed.

Lemma LoadLE_le_bytes n : forall v h a,
  (forall i b, nth_error (le_bytes n v) i = Some b -> h (u64 (a + Z.of_nat i)) = b) ->
  LoadLE n h a = uN (8 * Z.of_nat n) v.
Proof.
  induction n as [|n IH]; intros v h a H; [symmetry; apply Z.mod_1_r|].
  rewrite uN_split_byte; cbn [LoadLE le_bytes] in *.
  rewrite <- (IH (v >> 8) h (a + 1)).
  - specialize (H 0%nat _ eq_refl); rewrite Z.add_0_r in H; rewrite H, uN_uN; reflexivity.
  - intros i b Hi. replace (a + 1 + Z.of_nat i) with (a + Z.of_nat (S i)) by lia. apply H, Hi.
Qed.

Lemma nth_error_le_bytes_prefix m : forall n v i b, (m <= n)%nat ->
  nth_error (le_bytes m v) i = Some b -> nth_error (le_bytes n v) i = Some b.
Proof.
  induction m as [|m IH]; intros n v i b L; [destruct i; discriminate|].
  destruct n as [|n]; [lia|]. cbn [le_bytes].
  destruct i as [|i]; cbn [nth_error]; [trivial|]. apply IH; lia.
Qed.

(** Fetching the first [m] bytes of an [n]-byte instruction at the pc. *)
Lemma fetch s m n e : (m <= n)%nat -> code_at s (le_bytes n e) ->
  LoadLE m (host (memory_ s)) (pc_ s) = uN (8 * Z.of_nat m) e.
Proof.
  intros L (H0 & H1 & H2); rewrite length_le_bytes in H1. apply LoadLE_le_bytes; intros i b Hi.
  assert (i < m)%nat by (rewrite <- (length_le_bytes m e); apply nth_error_Some; congruence).
  rewrite uN_small by (unfold is_uN; lia). apply H2, (nth_error_le_bytes_prefix m); assumption.
Qed.

(** ** Execution *)

(** [s'] is [s] after [n] instructions that only changed the registers and moved the pc by [k]. *)
Record after (s : Simulator) (k : Z) (n : nat) (s' : Simulator) : Prop := mkAfter {
  after_pc : pc_ s' = u64 (pc_ s + k);
  after_instret : u64 (instret_ s') = u64 (instret_ s + Z.of_nat n);
  after_rest : s' = with_pc (with_instret (with_xregs s (xregs_ s')) (instret_ s')) (pc_ s')
}.

Lemma after_memory s k n s' : after s k n s' -> memory_ s' = memory_ s.
Proof. intros A; rewrite (after_rest _ _ _ _ A); reflexivity. Qed.

Lemma after_trans s1 k1 n1 s2 k2 n2 s3 :
  after s1 k1 n1 s2 -> after s2 k2 n2 s3 -> after s1 (k1 + k2) (n1 + n2) s3.
Proof.
  intros [P1 I1 R1] [P2 I2 R2]; split.
  - rewrite P2, P1, uN_add_l; f_equal; lia.
  - rewrite I2, <- uN_add_l, I1, uN_add_l; f_equal; lia.
  - rewrite R2 at 1. rewrite R1 at 1. reflexivity.
Qed.

Lemma code_at_app_pc s c1 c2 n s' : code_at s (c1 ++ c2) ->
  after s (Z.of_nat (length c1)) n s' -> pc_ s' = pc_ s + Z.of_nat (length c1).
Proof.
  intros (H0 & H1 & _) A. rewrite length_app in H1.
  rewrite (after_pc _ _ _ _ A), uN_small; [reflexivity|unfold is_uN; lia].
Qed.

Lemma code_at_app_r s c1 c2 n s' : code_at s (c1 ++ c2) ->
  after s (Z.of_nat (length c1)) n s' -> code_at s' c2.
Proof.
  intros C A. pose proof (code_at_app_pc _ _ _ _ _ C A) as Hpc. destruct C as (H0 & H1 & H2). rewrite length_app in H1.
  unfold code_at; rewrite Hpc, (after_memory _ _ _ _ A). split; [lia|split; [lia|]].
  intros i b Hi. replace (pc_ s + Z.of_nat (length c1) + Z.of_nat i)
    with (pc_ s + Z.of_nat (length c1 + i)) by lia.
  apply H2. rewrite nth_error_app2 by lia. replace (length c1 + i - length c1)%nat with i by lia. exact Hi.
Qed.

Section Executes.
Context (P : Platform).

(** [n] instructions, all of them fetched from the addresses between [lo] and [hi]. *)
Fixpoint run_in (lo hi : Z) (n : nat) (s : Simulator) : outcome Simulator :=
  match n with
  | O => Ok s
  | S n => if (lo <=? pc_ s) && (pc_ s <? hi) then let! s := step P s in run_in lo hi n s else Stop OutOfBounds
  end.

(** Running [code] from any well-formed state relates the registers by [R],
    keeps them well formed, and leaves the pc at the end of the code. *)
Definition executes (code : list Z) (R : (Z -> Z) -> (Z -> Z) -> Prop) : Prop :=
  forall s, wf_regs (xregs_ s) -> code_at s code ->
  exists n s', run_in (pc_ s) (pc_ s + Z.of_nat (length code)) n s = Ok s' /\ after s (Z.of_nat (length code)) n s' /\
    wf_regs (xregs_ s') /\ R (xregs_ s) (xregs_ s').

(** [emit] succeeds and appends code with the behaviour [R], whatever is in the buffer of [a]. *)
Definition implements (a : Assembler) (emit : Assembler -> option Assembler)
    (R : (Z -> Z) -> (Z -> Z) -> Prop) : Prop :=
  forall b, exists code, emit (with_buffer b a) = Some (append code (with_buffer b a)) /\ executes code R.

Lemma run_app n1 n2 s : run P (n1 + n2) s = bind (run P n1 s) (run P n2).
Proof.
  revert s; induction n1 as [|n1 IH]; intros s; [reflexivity|]. cbn [Nat.add run].
  destruct (step P s) as [s1|r]; cbn [bind]; [apply IH|reflexivity].
Qed.

Lemma run_in_run lo hi n : forall s s', run_in lo hi n s = Ok s' -> run P n s = Ok s'.
Proof.
  induction n as [|n IH]; intros s s' H; [exact H|]. cbn [run_in run] in *. destruct (_ && _); [|discriminate].
  destruct (step P s) as [s1|r]; cbn [bind] in *; [apply IH, H|discriminate].
Qed.

Lemma run_in_mono lo hi lo' hi' n : lo' <= lo -> hi <= hi' -> forall s s', run_in lo hi n s = Ok s' -> run_in lo' hi' n s = Ok s'.
Proof.
  intros Hl Hh. induction n as [|n IH]; intros s s' H; [exact H|]. cbn [run_in] in *.
  destruct (Z.leb_spec lo (pc_ s)), (Z.ltb_spec (pc_ s) hi); try discriminate. cbn [andb] in H.
  destruct (Z.leb_spec lo' (pc_ s)), (Z.ltb_spec (pc_ s) hi'); try lia. cbn [andb].
  destruct (step P s) as [s1|r]; cbn [bind] in *; [apply IH, H|discriminate].
Qed.

Lemma run_in_app lo hi n1 n2 s s1 s2 : run_in lo hi n1 s = Ok s1 -> run_in lo hi n2 s1 = Ok s2 -> run_in lo hi (n1 + n2) s = Ok s2.
Proof.
  revert s; induction n1 as [|n1 IH]; intros s H1 H2; cbn [run_in Nat.add] in *; [injection H1 as ->; exact H2|].
  destruct (_ && _); [|discriminate]. destruct (step P s) as [s'|r]; cbn [bind] in *; [apply IH; assumption|discriminate].
Qed.

(** Two stretches of code, the second starting where the first ends. *)
Lemma run_in_seq (c1 c2 : list Z) n1 n2 s s1 s2 : pc_ s1 = pc_ s + Z.of_nat (length c1) ->
  run_in (pc_ s) (pc_ s + Z.of_nat (length c1)) n1 s = Ok s1 -> run_in (pc_ s1) (pc_ s1 + Z.of_nat (length c2)) n2 s1 = Ok s2 ->
  run_in (pc_ s) (pc_ s + Z.of_nat (length (c1 ++ c2))) (n1 + n2) s = Ok s2.
Proof.
  intros Hpc H1 H2. rewrite length_app. eapply run_in_app; eapply run_in_mono; [| |exact H1| | |exact H2]; lia.
Qed.

Lemma run_in_1 k s s' : (0 < k)%nat -> step P s = Ok s' -> run_in (pc_ s) (pc_ s + Z.of_nat k) 1 s = Ok s'.
Proof.
  intros Hk H. cbn [run_in]. rewrite H. destruct (Z.leb_spec (pc_ s) (pc_ s)), (Z.ltb_spec (pc_ s) (pc_ s + Z.of_nat k)); lia || reflexivity.
Qed.

Lemma executes_app c1 c2 R1 R2 : executes c1 R1 -> executes c2 R2 ->
  executes (c1 ++ c2) (fun r r' => exists m, wf_regs m /\ R1 r m /\ R2 m r').
Proof.
  intros E1 E2 s W C.
  destruct (E1 s W (code_at_app_l _ _ _ C)) as (n1 & s1 & Hr1 & A1 & W1 & HR1).
  destruct (E2 s1 W1 (code_at_app_r _ _ _ _ _ C A1)) as (n2 & s2 & Hr2 & A2 & W2 & HR2).
  exists (n1 + n2)%nat, s2. split; [exact (run_in_seq _ _ _ _ _ _ _ (code_at_app_pc _ _ _ _ _ C A1) Hr1 Hr2)|].
  rewrite length_app, Nat2Z.inj_add. split; [exact (after_trans _ _ _ _ _ _ _ A1 A2)|].
  split; [exact W2|]. exists (xregs_ s1); auto.
Qed.

Lemma executes_weaken c R1 R2 : (forall r r', wf_regs r -> wf_regs r' -> R1 r r' -> R2 r r') ->
  executes c R1 -> executes c R2.
Proof.
  intros H E s W C. destruct (E s W C) as (n & s' & Hr & A & W' & HR).
  exists n, s'; auto.
Qed.

Lemma executes_nil (R : (Z -> Z) -> (Z -> Z) -> Prop) : (forall r, wf_regs r -> R r r) -> executes [] R.
Proof.
  intros H s W (C0 & C1 & _). exists 0%nat, s. split; [reflexivity|]. split; [|auto].
  cbn [length] in *. split.
  - rewrite Z.add_0_r, uN_small; [reflexivity|unfold is_uN; lia].
  - rewrite Z.add_0_r; reflexivity.
  - destruct s; reflexivity.
Qed.

(** *** Emitters *)

Lemma append_append c1 c2 a : append c2 (append c1 a) = append (c1 ++ c2) a.
Proof. unfold append, with_buffer; cbn; rewrite app_assoc; reflexivity. Qed.

Lemma implements_seq a e1 e2 R1 R2 : implements a e1 R1 -> implements a e2 R2 ->
  implements a (e1 >>> e2) (fun r r' => exists m, wf_regs m /\ R1 r m /\ R2 m r').
Proof.
  intros I1 I2 b. destruct (I1 b) as (c1 & H1 & E1).
  destruct (I2 (b ++ c1)) as (c2 & H2 & E2).
  exists (c1 ++ c2). split; [|apply executes_app; assumption].
  unfold seq; rewrite H1. change (append c1 (with_buffer b a)) with (with_buffer (b ++ c1) a).
  rewrite H2. change (with_buffer (b ++ c1) a) with (append c1 (with_buffer b a)).
  rewrite append_append; reflexivity.
Qed.

Lemma implements_weaken a e R1 R2 : (forall r r', wf_regs r -> wf_regs r' -> R1 r r' -> R2 r r') ->
  implements a e R1 -> implements a e R2.
Proof.
  intros H I b; destruct (I b) as (c & Hc & E); exists c; split; [exact Hc|].
  exact (executes_weaken c R1 R2 H E).
Qed.

Lemma implements_none a (R : (Z -> Z) -> (Z -> Z) -> Prop) : (forall r, wf_regs r -> R r r) ->
  implements a (fun a => Some a) R.
Proof.
  intros H b; exists []. split; [unfold append, with_buffer; cbn; rewrite app_nil_r; reflexivity|].
  apply executes_nil, H.
Qed.

Lemma implements_emit a (emit emit' : Assembler -> option Assembler) R :
  (forall b, emit (with_buffer b a) = emit' (with_buffer b a)) -> implements a emit' R -> implements a emit R.
Proof. intros H I b; rewrite H; apply I. Qed.

Lemma implements_if a (c : bool) emit e1 e2 R :
  (forall b, emit (with_buffer b a) = if c then e1 (with_buffer b a) else e2 (with_buffer b a)) ->
  (c = true -> implements a e1 R) -> (c = false -> implements a e2 R) -> implements a emit R.
Proof. intros H I1 I2 b; rewrite H; destruct c; [apply I1|apply I2]; reflexivity. Qed.

Lemma implements_value a e rd v w : (forall r, wf_regs r -> u64 (v r) = u64 (w r)) ->
  implements a e (writes rd v) -> implements a e (writes rd w).
Proof.
  intros E; apply implements_weaken; intros r r' Wr _. apply writes_ext; auto.
Qed.

(** *** One instruction *)

Lemma set_xreg_regs s rd v : xregs_ (set_xreg s rd v) = set_reg (xregs_ s) rd v.
Proof. unfold set_xreg, set_reg. change (Register_value ZR) with 0. destruct (rd =? 0); reflexivity. Qed.

Lemma set_xreg_with s rd v : set_xreg s rd v = with_xregs s (set_reg (xregs_ s) rd v).
Proof.
  unfold set_xreg, set_reg. change (Register_value ZR) with 0.
  destruct (rd =? 0); [destruct s|]; reflexivity.
Qed.

(** An instruction that writes one register and falls through. *)
Lemma executes_one n e rd f (interp : Simulator -> outcome Simulator) :
  (forall s, code_at s (le_bytes (S n) e) ->
     step P s = let! s := interp s in Ok (with_instret s (u64 (instret_ s + 1)))) ->
  (forall s, wf_regs (xregs_ s) ->
     exists v, interp s = Ok (advance (set_xreg s rd v) (Z.of_nat (S n))) /\ u64 v = u64 (f (xregs_ s))) ->
  executes (le_bytes (S n) e) (writes rd f).
Proof.
  intros Hstep Hint s W C. destruct (Hint s W) as (v & Hv & Ev).
  pose proof (Hstep s C) as St. rewrite Hv, set_xreg_with in St. cbn [bind] in St. rewrite length_le_bytes.
  eexists 1%nat, _. split; [exact (run_in_1 (S n) _ _ ltac:(lia) St)|]. split; [|split].
  - split; [reflexivity|cbn; apply uN_uN|reflexivity].
  - cbn; apply wf_set_reg, W.
  - intros r; cbn. unfold set_reg; rewrite Ev; reflexivity.
Qed.

Lemma u32_low2 e : u16 e .& 3 = e .& 3.
Proof. bits_solve. Qed.

Lemma step_32 s e : is_uN 32 e -> e .& 3 = 3 -> code_at s (le_bytes 4 e) ->
  step P s = let! s := Interpret P s e in Ok (with_instret s (u64 (instret_ s + 1))).
Proof.
  intros He H3 C; unfold step. rewrite (fetch s 2 4 e), (fetch s 4 4 e) by (assumption || lia).
  change (8 * Z.of_nat 2) with 16. change (8 * Z.of_nat 4) with 32.
  unfold IsCInstruction; rewrite u32_low2, H3, (uN_small 32 e He). reflexivity.
Qed.

Lemma step_16 s e : is_uN 16 e -> e .& 3 <> 3 -> code_at s (le_bytes 2 e) ->
  step P s = let! s := Interpret_C P s e in Ok (with_instret s (u64 (instret_ s + 1))).
Proof.
  intros He H3 C; unfold step. rewrite (fetch s 2 2 e) by (assumption || lia).
  change (8 * Z.of_nat 2) with 16.
  unfold IsCInstruction; rewrite u32_low2, (uN_small 16 e He).
  destruct (Z.eqb_spec (e .& 3) 3); [contradiction|]. reflexivity.
Qed.

Lemma executes_32 e rd f : is_uN 32 e -> e .& 3 = 3 ->
  (forall s, wf_regs (xregs_ s) ->
     exists v, Interpret P s e = Ok (advance (set_xreg s rd v) 4) /\ u64 v = u64 (f (xregs_ s))) ->
  executes (le_bytes 4 e) (writes rd f).
Proof.
  intros He H3 H; apply (executes_one 3 e rd f (fun s => Interpret P s e)); [|exact H].
  intros s C; apply step_32; assumption.
Qed.

Lemma executes_16 e rd f : is_uN 16 e -> e .& 3 <> 3 ->
  (forall s, wf_regs (xregs_ s) ->
     exists v, Interpret_C P s e = Ok (advance (set_xreg s rd v) 2) /\ u64 v = u64 (f (xregs_ s))) ->
  executes (le_bytes 2 e) (writes rd f).
Proof.
  intros He H3 H; apply (executes_one 1 e rd f (fun s => Interpret_C P s e)); [|exact H].
  intros s C; apply step_16; assumption.
Qed.

End Executes.

(** ** Instruction words *)

Lemma EncodeRegField_ok sh r : is_uN 5 r -> EncodeRegField sh r = Some (u32 (u32 r << sh)).
Proof.
  intros H; unfold EncodeRegField, IsRegField. rewrite (uN_small 32) by (apply (is_uN_mono 5); [lia|exact H]).
  destruct (Z.ltb_spec r 32); [reflexivity|unfold is_uN in H; lia].
Qed.

Lemma EncodeFunctField_ok sh w f : 0 <= w -> is_uN w f ->
  EncodeFunctField sh (Z.ones w) f = Some (u32 (f << sh)).
Proof.
  intros Hw H; unfold EncodeFunctField, IsFunctField.
  rewrite Z.land_ones, Z.mod_small, Z.eqb_refl by (assumption || lia). reflexivity.
Qed.

Lemma EncodeRegPrime_ok sh r : IsRegPrime r = true -> EncodeRegPrime sh r = Some (u32 ((u32 r .& 7) << sh)).
Proof. intros H; unfold EncodeRegPrime; rewrite H; reflexivity. Qed.

Lemma regprime_range r : IsRegPrime r = true -> is_uN 4 r /\ is_uN 5 r /\ (r .& 7) + 8 = r.
Proof.
  unfold IsRegPrime, is_uN; intros H. assert (8 <= r < 16) as Hr by lia.
  split; [lia|split; [lia|]]. change 7 with (Z.ones 3). rewrite Z.land_ones by lia.
  change (2 ^ 3) with 8. rewrite (Z.mod_eq r 8), <- (Z.div_unique_pos r 8 1 (r - 8)) by lia. lia.
Qed.

(** Rewrites every field encoder whose argument is known to be in range. *)
Ltac encode_fields :=
  unfold EncodeRd, EncodeRs1, EncodeRs2, EncodeFunct7, EncodeFunct3, EncodeOpcode, EncodeShamt, EncodeFunct12;
  rewrite ?EncodeRegField_ok by assumption;
  change 0x7F with (Z.ones 7); change 0x7 with (Z.ones 3); change 0x3F with (Z.ones 6);
  rewrite ?(EncodeFunctField_ok _ 7), ?(EncodeFunctField_ok _ 6), ?(EncodeFunctField_ok _ 3) by (assumption || lia);
  cbn [option_lor].

(** The word [e] as the simulator decodes it. *)
Record is_rtype (e f7 rs2 rs1 f3 rd op : Z) : Prop := mkRtype {
  rtype_word : is_uN 32 e;
  rtype_low : e .& 3 = op .& 3;
  rtype_opcode : Instr.opcode e = op;
  rtype_rd : Instr.rd e = rd;
  rtype_rs1 : Instr.rs1 e = rs1;
  rtype_rs2 : Instr.rs2 e = rs2;
  rtype_funct3 : Instr.funct3 e = f3;
  rtype_funct7 : Instr.funct7 e = f7
}.

Ltac field_solve :=
  unfold Instr.opcode, Instr.rd, Instr.rs1, Instr.rs2, Instr.funct3, Instr.funct7, Instr.shamt,
    Instr.itype_imm, Instr.stype_imm, Instr.btype_imm, Instr.utype_imm, Instr.jtype_imm,
    DecodeOpcode, DecodeRd, DecodeRs1, DecodeRs2, DecodeFunct3, DecodeFunct7, DecodeShamt,
    DecodeITypeImm, DecodeSTypeImm, DecodeBTypeImm, DecodeUTypeImm, DecodeJTypeImm,
    DecodeRegField, DecodeFunctField;
  rewrite ?SignExtend_sN by lia; bits_solve.

Lemma EmitRType_spec f7 rs2 rs1 f3 rd op a :
  is_uN 7 f7 -> is_uN 5 rs2 -> is_uN 5 rs1 -> is_uN 3 f3 -> is_uN 5 rd -> is_uN 7 op ->
  exists e, MicroAssembler.EmitRType f7 rs2 rs1 f3 rd op a = Some (append (le_bytes 4 e) a) /\
    is_rtype e f7 rs2 rs1 f3 rd op.
Proof.
  intros. unfold MicroAssembler.EmitRType, MicroAssembler.Emit32. encode_fields.
  eexists; split; [reflexivity|]. split; [apply uN_range; lia|field_solve..].
Qed.

Record is_shtype (e f7 sh rs1 f3 rd op : Z) : Prop := mkShtype {
  shtype_word : is_uN 32 e;
  shtype_low : e .& 3 = op .& 3;
  shtype_opcode : Instr.opcode e = op;
  shtype_rd : Instr.rd e = rd;
  shtype_rs1 : Instr.rs1 e = rs1;
  shtype_funct3 : Instr.funct3 e = f3;
  shtype_funct7 : Instr.funct7 e = f7 .| (sh >> 5);
  shtype_shamt : low_zero 1 f7 -> Instr.shamt e = sh   (** the two fields share bit 25 *)
}.

Lemma EmitRType_shamt_spec f7 sh rs1 f3 rd op a :
  is_uN 7 f7 -> is_uN 6 sh -> is_uN 5 rs1 -> is_uN 3 f3 -> is_uN 5 rd -> is_uN 7 op ->
  exists e, MicroAssembler.EmitRType_shamt f7 sh rs1 f3 rd op a = Some (append (le_bytes 4 e) a) /\
    is_shtype e f7 sh rs1 f3 rd op.
Proof.
  intros. unfold MicroAssembler.EmitRType_shamt, MicroAssembler.Emit32.
  rewrite (uN_small 32 sh) by (apply (is_uN_mono 6); [lia|assumption]). encode_fields.
  eexists; split; [reflexivity|]. split; [apply uN_range; lia|try intro; field_solve..].
Qed.

Record is_itype (e imm rs1 f3 rd op : Z) : Prop := mkItype {
  itype_word : is_uN 32 e;
  itype_low : e .& 3 = op .& 3;
  itype_opcode : Instr.opcode e = op;
  itype_rd : Instr.rd e = rd;
  itype_rs1 : Instr.rs1 e = rs1;
  itype_funct3 : Instr.funct3 e = f3;
  itype_imm_ : Instr.itype_imm e = imm
}.

Lemma EmitIType_spec imm rs1 f3 rd op a :
  IsITypeImm imm = true -> is_uN 5 rs1 -> is_uN 3 f3 -> is_uN 5 rd -> is_uN 7 op ->
  exists e, MicroAssembler.EmitIType imm rs1 f3 rd op a = Some (append (le_bytes 4 e) a) /\
    is_itype e imm rs1 f3 rd op.
Proof.
  intros Himm **. unfold MicroAssembler.EmitIType, MicroAssembler.Emit32, EncodeITypeImm.
  rewrite Himm; unfold IsITypeImm in Himm; learn_guard. encode_fields.
  eexists; split; [reflexivity|]. split; [apply uN_range; lia|field_solve..].
Qed.

Record is_stype (e imm rs2 rs1 f3 op : Z) : Prop := mkStype {
  stype_word : is_uN 32 e;
  stype_low : e .& 3 = op .& 3;
  stype_opcode : Instr.opcode e = op;
  stype_rs1 : Instr.rs1 e = rs1;
  stype_rs2 : Instr.rs2 e = rs2;
  stype_funct3 : Instr.funct3 e = f3;
  stype_imm_ : Instr.stype_imm e = imm
}.

Lemma EmitSType_spec imm rs2 rs1 f3 op a :
  IsSTypeImm imm = true -> is_uN 5 rs2 -> is_uN 5 rs1 -> is_uN 3 f3 -> is_uN 7 op ->
  exists e, MicroAssembler.EmitSType imm rs2 rs1 f3 op a = Some (append (le_bytes 4 e) a) /\
    is_stype e imm rs2 rs1 f3 op.
Proof.
  intros Himm **. unfold MicroAssembler.EmitSType, MicroAssembler.Emit32, EncodeSTypeImm.
  rewrite Himm; unfold IsSTypeImm in Himm; learn_guard. encode_fields.
  eexists; split; [reflexivity|]. split; [apply uN_range; lia|field_solve..].
Qed.

Record is_btype (e imm rs2 rs1 f3 op : Z) : Prop := mkBtype {
  btype_word : is_uN 32 e;
  btype_low : e .& 3 = op .& 3;
  btype_opcode : Instr.opcode e = op;
  btype_rs1 : Instr.rs1 e = rs1;
  btype_rs2 : Instr.rs2 e = rs2;
  btype_funct3 : Instr.funct3 e = f3;
  btype_imm_ : Instr.btype_imm e = imm
}.

Lemma EmitBType_spec imm rs2 rs1 f3 op a :
  IsBTypeImm imm = true -> is_uN 5 rs2 -> is_uN 5 rs1 -> is_uN 3 f3 -> is_uN 7 op ->
  exists e, MicroAssembler.EmitBType imm rs2 rs1 f3 op a = Some (append (le_bytes 4 e) a) /\
    is_btype e imm rs2 rs1 f3 op.
Proof.
  intros Himm **. unfold MicroAssembler.EmitBType, MicroAssembler.Emit32, EncodeBTypeImm.
  rewrite Himm; unfold IsBTypeImm in Himm; learn_guard. encode_fields.
  eexists; split; [reflexivity|]. split; [apply uN_range; lia|field_solve..].
Qed.

Record is_utype (e imm rd op : Z) : Prop := mkUtype {
  utype_word : is_uN 32 e;
  utype_low : e .& 3 = op .& 3;
  utype_opcode : Instr.opcode e = op;
  utype_rd : Instr.rd e = rd;
  utype_imm_ : Instr.utype_imm e = imm
}.

Lemma EmitUType_spec imm rd op a : IsUTypeImm imm = true -> is_uN 5 rd -> is_uN 7 op ->
  exists e, MicroAssembler.EmitUType imm rd op a = Some (append (le_bytes 4 e) a) /\ is_utype e imm rd op.
Proof.
  intros Himm **. unfold MicroAssembler.EmitUType, MicroAssembler.Emit32, EncodeUTypeImm.
  rewrite Himm; unfold IsUTypeImm in Himm; learn_guard. encode_fields.
  eexists; split; [reflexivity|]. split; [apply uN_range; lia|field_solve..].
Qed.

Record is_jtype (e imm rd op : Z) : Prop := mkJtype {
  jtype_word : is_uN 32 e;
  jtype_low : e .& 3 = op .& 3;
  jtype_opcode : Instr.opcode e = op;
  jtype_rd : Instr.rd e = rd;
  jtype_imm_ : Instr.jtype_imm e = imm
}.

Lemma EmitJType_spec imm rd op a : IsJTypeImm imm = true -> is_uN 5 rd -> is_uN 7 op ->
  exists e, MicroAssembler.EmitJType imm rd op a = Some (append (le_bytes 4 e) a) /\ is_jtype e imm rd op.
Proof.
  intros Himm **. unfold MicroAssembler.EmitJType, MicroAssembler.Emit32, EncodeJTypeImm.
  rewrite Himm; unfold IsJTypeImm in Himm; learn_guard. encode_fields.
  eexists; split; [reflexivity|]. split; [apply uN_range; lia|field_solve..].
Qed.

(** A release build on a host that never fails a [compare_exchange_weak], computes the canonical
    NaN, and whose functions return 0 and leave the simulator alone. *)
Definition plain_platform : Platform :=
  mkPlatform false (fun _ => 0%nat) (fun f _ => quiet_NaN f) (fun _ => mkRedirection 0 kRuntimeCall 0) (fun _ _ s => Returns s 0).
