(* ===== verification/RvSimProofs.v ===== *)
(** * Invariants of the simulator

    The well-formedness of the simulator's state (register ranges, [x0 = 0],
    the vector length, the store buffer) and that every instruction keeps it:
    the handlers are covered one by one and [step] composes them.  Along the
    way no handler indexes outside the simulator's own arrays, the vector
    instructions apart. *)

From Stdlib Require Import ZArith Lia ZifyBool Bool List String.
From S2P Require Import Prelude Bits Utils RvEncoding RvEncodingProofs RvAlu SimMemory Random Outcome RvFloat RvSimulator RvCalls RvExec.
Import ListNotations.
Open Scope Z_scope.

(** ** The invariant *)

Record sim_wf (s : Simulator) : Prop := mkWf {
  wf_x : wf_regs (xregs_ s);
  wf_f : forall r, is_uN 64 (fregs_ s r);
  wf_pc : is_uN 64 (pc_ s);
  wf_instret : is_uN 64 (instret_ s);
  wf_ssp : is_uN 64 (ssp_ s);
  wf_reserved : is_uN 64 (reserved_address_ s) /\ is_uN 64 (reserved_value_ s);
  wf_vl : 0 <= vl_ s <= VLEN;
  wf_mem : wf_memory (memory_ s)
}.

(** An outcome that keeps the invariant; only a vector instruction leaves the simulator's arrays. *)
Definition good (vector : bool) (o : outcome Simulator) : Prop :=
  match o with Ok s => sim_wf s | Stop OutOfBounds => vector = true | Stop _ => True end.

(** What a C++ function called by simulated code does to the simulator: it uses its interface. *)
Definition host_keeps (P : Platform) : Prop := forall r args s, sim_wf s ->
  match call_host P r args s with Returns s' _ | Throws s' => sim_wf s' end.

(** ** Field updates *)

Lemma wf_set_xreg s rd v : sim_wf s -> sim_wf (set_xreg s rd v).
Proof. intros [X F Pc I S Rv V M]. rewrite set_xreg_with. split; cbn; try assumption. apply wf_set_reg, X. Qed.

Lemma wf_with_fregs s g : sim_wf s -> (forall r, is_uN 64 (g r)) -> sim_wf (with_fregs s g).
Proof. intros [X F Pc I S Rv V M] Hg. split; cbn; assumption. Qed.

Lemma wf_set_fregd s rd v : sim_wf s -> sim_wf (set_fregd s rd v).
Proof.
  intros W. apply wf_with_fregs; [exact W|]. intros r. unfold update. destruct (r =? rd); [apply uN_range; lia|apply W].
Qed.

Lemma nan_boxed v : is_uN 64 (u32 v .| kNaNBox).
Proof.
  replace (u32 v .| kNaNBox) with (u64 (u32 v .| kNaNBox)) by (unfold kNaNBox; bits_solve). apply uN_range; lia.
Qed.

Lemma wf_set_fregs s rd v : sim_wf s -> sim_wf (set_fregs s rd v).
Proof.
  intros W. apply wf_with_fregs; [exact W|]. intros r. unfold update. destruct (r =? rd); [apply nan_boxed|apply W].
Qed.

Lemma wf_with_pc s x : sim_wf s -> is_uN 64 x -> sim_wf (with_pc s x).
Proof. intros [X F Pc I S Rv V M] Hx. split; cbn; assumption. Qed.

Lemma wf_advance s k : sim_wf s -> sim_wf (advance s k).
Proof. intros W. apply wf_with_pc; [exact W|apply uN_range; lia]. Qed.

Lemma wf_with_memory s m : sim_wf s -> wf_memory m -> sim_wf (with_memory s m).
Proof. intros [X F Pc I S Rv V M] Hm. split; cbn; assumption. Qed.

Lemma wf_with_ssp s x : sim_wf s -> sim_wf (with_ssp s (u64 x)).
Proof. intros [X F Pc I S Rv V M]. split; cbn; try assumption. apply uN_range; lia. Qed.

Lemma wf_with_reserved s a v : sim_wf s -> is_uN 64 a -> is_uN 64 v -> sim_wf (with_reserved s a v).
Proof. intros [X F Pc I S Rv V M] Ha Hv. split; cbn; try assumption. split; assumption. Qed.

Lemma wf_with_vregs s x : sim_wf s -> sim_wf (with_vregs s x).
Proof. intros [X F Pc I S Rv V M]. split; cbn; assumption. Qed.

Lemma wf_with_random s x : sim_wf s -> sim_wf (with_random s x).
Proof. intros [X F Pc I S Rv V M]. split; cbn; assumption. Qed.

Lemma wf_with_vl s l t : sim_wf s -> 0 <= l <= VLEN -> sim_wf (with_vl s l t).
Proof. intros [X F Pc I S Rv V M] Hl. split; cbn; assumption. Qed.

Lemma wf_get_xreg s r : sim_wf s -> is_uN 5 r -> is_uN 64 (get_xreg s r).
Proof. intros W Hr. apply (proj2 (wf_x s W)), Hr. Qed.

Create HintDb sim.
#[export] Hint Resolve wf_set_xreg wf_set_fregd wf_set_fregs wf_advance wf_with_ssp wf_with_vregs wf_with_random : sim.

(** ** Memory *)

Lemma wf_FlushAll m : wf_memory m -> wf_memory (Memory.FlushAll m).
Proof.
  intros [W D]. unfold Memory.FlushAll. destruct m as [[] h buf]; cbn [use_buffered_ host buffer_] in *.
  - split; [apply wf_buffer_nil|reflexivity].
  - split; assumption.
Qed.

Lemma wf_FlushAddress m a : wf_memory m -> wf_memory (Memory.FlushAddress m a).
Proof.
  intros [W D]. unfold Memory.FlushAddress. destruct m as [[] h buf]; cbn [use_buffered_ host buffer_] in *; [|split; assumption].
  pose proof (FlushAddress_ok a h buf W) as F. destruct (Buffered.FlushAddress a h buf) as [h' buf'].
  split; [apply F|discriminate].
Qed.

Lemma wf_LoadOrdered n m a : wf_memory m -> wf_memory (snd (Memory.LoadOrdered n m a)).
Proof.
  intros [W D]. unfold Memory.LoadOrdered, Buffered.LoadOrdered. destruct m as [[] h buf]; cbn [use_buffered_ host buffer_] in *; [|split; assumption].
  pose proof (FlushAddress_ok a h buf W) as F. destruct (Buffered.FlushAddress a h buf) as [h' buf'].
  split; [apply F|discriminate].
Qed.

Lemma wf_CompareExchange n sp m a o v : wf_memory m -> wf_memory (snd (Memory.CompareExchange n sp m a o v)).
Proof.
  intros [W D]. unfold Memory.CompareExchange, Buffered.CompareExchange. destruct m as [[] h buf]; cbn [use_buffered_ host buffer_] in *.
  - pose proof (FlushAddress_ok a h buf W) as F. destruct (Buffered.FlushAddress a h buf) as [h' buf'].
    destruct (Direct.CompareExchange n sp h' a o v) as [[ok old] h'']. split; [apply F|discriminate].
  - destruct (Direct.CompareExchange n sp h a o v) as [[ok old] h'']. split; assumption.
Qed.

Lemma wf_with_host s h : sim_wf s -> sim_wf (with_host s h).
Proof. intros W. apply wf_with_memory; [exact W|]. destruct (wf_mem s W) as [B D]. split; assumption. Qed.

Lemma wf_FlushAddress_at s a : sim_wf s -> sim_wf (with_memory s (Memory.FlushAddress (memory_ s) a)).
Proof. intros W. apply wf_with_memory; [exact W|apply wf_FlushAddress, W]. Qed.
#[export] Hint Resolve wf_with_host wf_FlushAddress_at : sim.

Section Sim.
Context (P : Platform) (Hhost : host_keeps P).

(** A read keeps the invariant of the state it returns. *)
Definition good_read (o : outcome (Z * Simulator)) : Prop :=
  match o with Ok (_, s) => sim_wf s | Stop OutOfBounds => False | Stop _ => True end.

Lemma CheckAccess_stop s n a base r : CheckAccess P s n a base = Some r -> r <> OutOfBounds.
Proof.
  unfold CheckAccess. repeat match goal with |- context [if ?b then _ else _] => destruct b end; congruence.
Qed.

Lemma good_MemoryRead signed n s a base : sim_wf s -> access_size n -> is_uN 64 a -> good_read (MemoryRead P signed n s a base).
Proof.
  intros W Hn Ha. unfold MemoryRead. destruct (CheckAccess P s n a base) as [r|] eqn:C.
  - apply CheckAccess_stop in C. destruct r; cbn; congruence || exact I.
  - pose proof (bm_load_spec (ByteMemory := simulator_memory) n (memory_ s) a Hn Ha (wf_mem s W)) as (_ & M & _). cbn [bm_load simulator_memory] in M.
    destruct (Memory.Load n (memory_ s) a) as [v m]. apply wf_with_memory; assumption.
Qed.

Lemma good_MemoryWrite vec n s a v base : sim_wf s -> access_size n -> is_uN 64 a -> good vec (MemoryWrite P n s a v base).
Proof.
  intros W Hn Ha. unfold MemoryWrite. destruct (CheckAccess P s n a base) as [r|] eqn:C.
  - apply CheckAccess_stop in C. destruct r; cbn; congruence || exact I.
  - destruct (bm_store_spec (ByteMemory := simulator_memory) n (memory_ s) a v Hn Ha (wf_mem s W)) as (m & E & M & _).
    cbn [bm_store simulator_memory] in E. rewrite E. apply wf_with_memory; assumption.
Qed.

(** ** Sequencing *)

(** A computation that does not leave the simulator's arrays. *)
Definition in_bounds {A} (o : outcome A) : Prop := o <> Stop OutOfBounds.

Lemma good_stop vec r : r <> OutOfBounds -> good vec (Stop r).
Proof. destruct r; cbn; congruence || (intros; exact I). Qed.

Lemma good_bind {A} vec (o : outcome A) k : in_bounds o -> (forall a, good vec (k a)) -> good vec (bind o k).
Proof. intros Ho Hk. destruct o; [apply Hk|apply good_stop; intros ->; apply Ho; reflexivity]. Qed.

Lemma good_bind_sim vec o k : good vec o -> (forall s, sim_wf s -> good vec (k s)) -> good vec (bind o k).
Proof. intros Ho Hk. destruct o as [s|r]; [apply Hk, Ho|exact Ho]. Qed.

Lemma good_bind_read vec o k : good_read o -> (forall v s, sim_wf s -> good vec (k (v, s))) -> good vec (bind o k).
Proof. intros Ho Hk. destruct o as [[v s]|[]]; cbn in *; try exact I; [apply Hk, Ho|contradiction]. Qed.

Lemma good_weaken vec o : good false o -> good vec o.
Proof. destruct o as [s|[]]; cbn; intros; try assumption; discriminate. Qed.

Lemma good_then_advance vec o k : good vec o -> good vec (then_advance o k).
Proof. intros Ho. apply good_bind_sim; [exact Ho|]. intros s W. apply wf_advance, W. Qed.

Lemma good_write_rd vec s instr v : sim_wf s -> good vec (write_rd s instr v).
Proof. intros W. apply wf_advance, wf_set_xreg, W. Qed.

Lemma good_branch vec s instr t : sim_wf s -> good vec (branch s instr t).
Proof. intros W. apply wf_advance, W. Qed.

Lemma good_load_xreg vec signed n s rd a base : sim_wf s -> access_size n -> is_uN 64 a ->
  good vec (load_xreg P signed n s rd a base).
Proof.
  intros W Hn Ha. apply good_bind_read; [apply good_MemoryRead; assumption|]. intros v s' W'. apply wf_set_xreg, W'.
Qed.

Lemma good_CheckLandingPad vec s rs1 : sim_wf s -> good vec (CheckLandingPad s rs1).
Proof.
  intros W. unfold CheckLandingPad. cbv zeta.
  repeat match goal with |- good _ (if ?b then _ else _) => destruct b end; exact W || exact I.
Qed.

Lemma reg_field k e : is_uN 5 (DecodeRegField k e).
Proof. unfold DecodeRegField. change 31 with (Z.ones 5). rewrite Z.land_ones by lia. apply Z.mod_pos_bound. lia. Qed.

End Sim.

(** Case analysis of a handler: its branches end in a stop, a register write, a memory access or a
    nested handler. *)
Ltac sim_leaf :=
  match goal with
  | |- sim_wf _ => eauto with sim
  | |- access_size _ => unfold access_size; lia
  | |- is_uN 64 (uN 64 _) => apply uN_range; lia
  | |- is_uN 64 (ssp_ _) => eauto using wf_ssp with sim
  | |- good _ (Stop _) => exact I
  | |- good _ (Ok _) => cbn [good]; eauto with sim
  end.
Ltac sim_cases :=
  cbv zeta;
  repeat match goal with
  | |- good _ (if ?b then _ else _) => destruct b
  | |- good _ (match ?b with Some _ => _ | None => _ end) => destruct b
  | |- good _ (then_advance _ _) => apply good_then_advance
  | |- good _ (write_rd _ _ _) => apply good_write_rd
  | |- good _ (branch _ _ _) => apply good_branch
  | |- good _ (load_xreg _ _ _ _ _ _ _) => apply good_load_xreg
  | |- good _ (MemoryWrite _ _ _ _ _ _) => apply good_MemoryWrite
  | |- good _ (CheckLandingPad _ _) => apply good_CheckLandingPad
  | |- good _ (bind (MemoryRead _ _ _ _ _ _) _) =>
      apply good_bind_read; [apply good_MemoryRead|let W := fresh "W" in intros ? ? W; cbv zeta; cbv iota beta]
  end;
  try sim_leaf.

Section Handlers.
Context (P : Platform) (Hhost : host_keeps P).

(** ** Integer instructions *)

Lemma good_C_MISCALU s instr : sim_wf s -> good false (InterpretC_MISCALU s instr).
Proof. intros W. unfold InterpretC_MISCALU. sim_cases. Qed.

Lemma good_C_LUI s instr : sim_wf s -> good false (InterpretC_LUI P s instr).
Proof. intros W. unfold InterpretC_LUI. sim_cases. Qed.

Lemma good_C_LBU s instr : sim_wf s -> good false (InterpretC_LBU P s instr).
Proof. intros W. unfold InterpretC_LBU. sim_cases. Qed.

(** A jump through a register: the target, then the landing pad it must have. *)
Lemma good_jump vec s rs1 k x : sim_wf s -> is_uN 64 x -> (forall s', sim_wf s' -> good vec (k s')) ->
  good vec (let! r := let! s := CheckLandingPad (with_pc s x) rs1 in Ok (inr s) in
            match r with inl s => Ok (advance s CInstr.length) | inr s => k s end).
Proof.
  intros W Hx Hk. pose proof (good_CheckLandingPad vec (with_pc s x) rs1 (wf_with_pc s x W Hx)) as G.
  destruct (CheckLandingPad (with_pc s x) rs1); cbn [bind]; [apply Hk, G|exact G].
Qed.

Lemma good_C_JR s instr : sim_wf s ->
  good false (let! r := InterpretC_JR s instr in match r with inl s => Ok (advance s CInstr.length) | inr s => Ok s end).
Proof.
  intros W. unfold InterpretC_JR. cbv zeta.
  repeat match goal with |- context [bind (if ?b then _ else _)] => destruct b end;
    lazymatch goal with
    | |- context [CheckLandingPad] =>
        apply good_jump; [eauto with sim|apply wf_get_xreg; [exact W|apply reg_field]|intros; assumption]
    | |- _ => cbn [bind]; sim_leaf
    end.
Qed.

Lemma good_Interpret_C s instr : sim_wf s -> good false (Interpret_C P s instr).
Proof.
  intros W. unfold Interpret_C. sim_cases;
    eauto using good_C_MISCALU, good_C_LUI, good_C_LBU, good_C_JR.
Qed.

Lemma good_JALR s instr : sim_wf s -> good false (InterpretJALR s instr).
Proof. intros W. apply good_CheckLandingPad, wf_with_pc; [eauto with sim|apply uN_range; lia]. Qed.

Lemma good_LOAD s instr : sim_wf s -> good false (InterpretLOAD P s instr).
Proof. intros W. unfold InterpretLOAD. sim_cases. Qed.

Lemma good_STORE s instr : sim_wf s -> good false (InterpretSTORE P s instr).
Proof. intros W. unfold InterpretSTORE. sim_cases. Qed.

Lemma good_OPIMM s instr : sim_wf s -> good false (InterpretOPIMM s instr) /\ good false (InterpretOPIMM32 s instr).
Proof. intros W. unfold InterpretOPIMM, InterpretOPIMM32. split; sim_cases. Qed.

Lemma good_OP s instr : sim_wf s -> good false (InterpretOP s instr).
Proof.
  intros W. unfold InterpretOP, InterpretOP_0, InterpretOP_SUB, InterpretOP_MULDIV, InterpretOP_SHADD,
    InterpretOP_MINMAXCLMUL, InterpretOP_ROTATE, InterpretOP_BCLRBEXT, InterpretOP_CZERO. sim_cases.
Qed.

Lemma good_OP32 s instr : sim_wf s -> good false (InterpretOP32 s instr).
Proof.
  intros W. unfold InterpretOP32, InterpretOP32_0, InterpretOP32_SUB, InterpretOP32_MULDIV, InterpretOP32_SHADD,
    InterpretOP32_ADDUW, InterpretOP32_ROTATE. sim_cases.
Qed.

Lemma good_MISCMEM s instr : sim_wf s -> good false (InterpretMISCMEM s instr).
Proof.
  intros W. unfold InterpretMISCMEM. sim_cases. apply wf_with_memory; [exact W|apply wf_FlushAll, W].
Qed.

(** ** Control registers and calls *)

Lemma good_MOP s instr : sim_wf s -> good false (InterpretMOP P s instr).
Proof. intros W. unfold InterpretMOP. sim_cases. Qed.

Lemma CSRRead_in_bounds s csr : in_bounds (CSRRead s csr).
Proof. unfold in_bounds, CSRRead. repeat match goal with |- context [if ?b then _ else _] => destruct b end; discriminate. Qed.

Lemma good_CSRWrite s csr v : sim_wf s -> good false (CSRWrite s csr v).
Proof. intros W. unfold CSRWrite. sim_cases. Qed.

Lemma good_csr_write s instr v : sim_wf s -> good false (csr_write s instr v).
Proof.
  intros W. unfold csr_write. cbv zeta. destruct (_ =? _); [apply good_CSRWrite, W|].
  apply good_bind; [apply CSRRead_in_bounds|]. intros r. apply good_bind_sim; [apply good_CSRWrite, W|].
  intros s' W'. sim_leaf.
Qed.

Lemma good_csr_modify op s instr nw m : sim_wf s -> (op = CSRSet \/ op = CSRClear) -> good false (csr_modify op s instr nw m).
Proof.
  intros W Hop. apply good_bind; [apply CSRRead_in_bounds|]. intros r. apply good_bind_sim.
  - destruct nw; [exact W|destruct Hop as [-> | ->]; exact I].
  - intros s' W'. sim_leaf.
Qed.

Lemma halves_range hi lo : is_uN 64 (u64 (hi << 32) .| u32 lo).
Proof.
  replace (u64 (hi << 32) .| u32 lo) with (u64 (u64 (hi << 32) .| u32 lo)) by bits_solve. apply uN_range; lia.
Qed.

Lemma NextUInt64_range state : is_uN 64 (fst (NextUInt64 state)).
Proof. apply halves_range. Qed.

Lemma wf_clobber_xregs mask : forall k i s, 0 <= i -> (i = 0 -> Z.land mask 1 = 0) -> sim_wf s -> sim_wf (clobber_xregs k i mask s).
Proof.
  induction k as [|k IH]; intros i s Hi Hm W; cbn [clobber_xregs]; [exact W|]. apply IH; [lia|lia|].
  destruct (negb _) eqn:B; [|exact W]. pose proof (NextUInt64_range (random_ s)) as Hv.
  destruct (NextUInt64 (random_ s)) as [v state]. cbn [fst] in Hv. apply wf_with_random.
  assert (i <> 0) by (intros ->; rewrite Z.shiftl_0_r, (Hm eq_refl) in B; discriminate).
  destruct W as [[X0 X] F Pc I S Rv V M]. split; cbn; try assumption. split; unfold update.
  - replace (0 =? i) with false by lia. exact X0.
  - intros r Hr. destruct (r =? i); [exact Hv|apply X, Hr].
Qed.

Lemma wf_clobber_fregs mask : forall k i s, sim_wf s -> sim_wf (clobber_fregs k i mask s).
Proof.
  induction k as [|k IH]; intros i s W; cbn [clobber_fregs]; [exact W|]. apply IH.
  destruct (negb _); [|exact W]. apply wf_with_fregs; [exact W|]. intros r. unfold update.
  destruct (r =? i); [vm_compute; split; congruence|apply W].
Qed.

Lemma wf_clobber_vregs : forall k i s, sim_wf s -> sim_wf (clobber_vregs k i s).
Proof.
  induction k as [|k IH]; intros i s W; cbn [clobber_vregs]; [exact W|].
  destruct (NextUInt64 (random_ s)) as [v state]. apply IH. eauto with sim.
Qed.

Lemma wf_ClobberVolatileRegisters s : sim_wf s -> sim_wf (ClobberVolatileRegisters P s).
Proof.
  intros W. unfold ClobberVolatileRegisters. destruct (DEBUG P); [|exact W].
  apply wf_clobber_vregs, wf_clobber_fregs, wf_clobber_xregs; [lia|reflexivity|].
  apply wf_with_reserved; [exact W|split; lia|split; lia].
Qed.

Lemma good_ECALL s instr : sim_wf s -> good false (InterpretECALL P s instr).
Proof.
  intros W. unfold InterpretECALL. cbv zeta. destruct (negb _); [apply wf_advance, W|].
  destruct (negb _); [exact I|]. set (s1 := with_memory s _).
  assert (W1 : sim_wf s1) by (apply wf_with_memory; [exact W|apply wf_FlushAll, W]).
  destruct (_ && _); [exact I|].
  pose proof (Hhost (FromECallInstruction P s1) (call_arguments (call_kind_ (FromECallInstruction P s1)) s1) s1 W1) as Hh.
  destruct (call_host P _ _ s1) as [s2 res|s2]; [|exact Hh].
  apply wf_with_pc; [|apply wf_get_xreg; [exact W1|split; cbn; lia]].
  apply wf_ClobberVolatileRegisters in Hh. destruct (call_kind_ _); eauto with sim.
Qed.

Lemma good_SYSTEM s instr : sim_wf s -> good false (InterpretSYSTEM P s instr).
Proof.
  intros W. unfold InterpretSYSTEM. sim_cases; eauto using good_ECALL, good_MOP, good_csr_write, good_csr_modify.
Qed.

(** ** Atomics *)

Lemma wf_compare_exchange_weak signed n sp s a e d : sim_wf s -> sim_wf (snd (compare_exchange_weak signed n sp s a e d)).
Proof.
  intros W. unfold compare_exchange_weak. destruct (Direct.CompareExchange _ _ _ _ _ _) as [[ok seen] h]. apply wf_with_host, W.
Qed.

Lemma wf_amo_exchange_loop signed n pick a c : forall k s e, sim_wf s ->
  sim_wf (snd (amo_exchange_loop k signed n pick s a e c)).
Proof.
  induction k as [|k IH]; intros s e W; cbn [amo_exchange_loop];
    pose proof (wf_compare_exchange_weak signed n (negb (Nat.eqb 0 0)) s a e (pick e c) W) as W0;
    match goal with |- context [compare_exchange_weak signed n ?b s a e ?d] =>
      pose proof (wf_compare_exchange_weak signed n b s a e d W) as W1; destruct (compare_exchange_weak signed n b s a e d) as [[ok e'] s'] end;
    cbn [snd] in *; [exact W1|]. destruct ok; [exact W1|apply IH, W1].
Qed.

Lemma good_LR n s instr : sim_wf s -> good false (InterpretLR n s instr).
Proof.
  intros W. unfold InterpretLR. cbv zeta. destruct (negb _); [exact I|].
  pose proof (wf_LoadOrdered n (memory_ s) (get_xreg s (Instr.rs1 instr)) (wf_mem s W)) as M.
  destruct (Memory.LoadOrdered _ _ _) as [v m]. apply wf_set_xreg, wf_with_reserved.
  - apply wf_with_memory; assumption.
  - apply wf_get_xreg; [exact W|apply reg_field].
  - apply uN_range; lia.
Qed.

Lemma wf_lose_reservation s : sim_wf s -> sim_wf (with_reserved s 0 (reserved_value_ s)).
Proof. intros W. apply wf_with_reserved; [exact W|split; lia|apply W]. Qed.

Lemma good_SC n s instr : sim_wf s -> good false (InterpretSC P n s instr).
Proof.
  intros W. unfold InterpretSC. cbv zeta. destruct (negb _); [exact I|].
  destruct (negb _); [apply wf_set_xreg, wf_lose_reservation, W|].
  destruct (NextUInt32 (random_ s)) as [r state].
  destruct (_ =? _); [apply wf_set_xreg, wf_lose_reservation, wf_with_random, W|].
  match goal with |- context [Memory.CompareExchange n ?b ?m ?a ?e ?d] =>
    pose proof (wf_CompareExchange n b m a e d (wf_mem s W)) as M; destruct (Memory.CompareExchange n b m a e d) as [[ok old] m'] end.
  apply wf_lose_reservation, wf_set_xreg, wf_with_memory; [apply wf_with_random, W|exact M].
Qed.

Lemma good_AMO_fetch n f s instr : sim_wf s -> good false (InterpretAMO_fetch n f s instr).
Proof. intros W. unfold InterpretAMO_fetch, atomic_store. sim_cases. Qed.

Lemma good_AMO_pick signed n pick s instr : sim_wf s -> good false (InterpretAMO_pick P signed n pick s instr).
Proof.
  intros W. unfold InterpretAMO_pick. cbv zeta. destruct (negb _); [exact I|].
  match goal with |- context [amo_exchange_loop ?k signed n pick ?t ?a ?e ?c] =>
    pose proof (wf_amo_exchange_loop signed n pick a c k t e (wf_FlushAddress_at s a W)) as M;
    destruct (amo_exchange_loop k signed n pick t a e c) as [e' s'] end.
  apply wf_set_xreg, M.
Qed.

Lemma good_AMOCAS n s instr : sim_wf s -> good false (InterpretAMOCAS P n s instr).
Proof.
  intros W. unfold InterpretAMOCAS. cbv zeta. destruct (negb _); [exact I|].
  match goal with |- context [compare_exchange_weak true n ?b s ?a ?e ?d] =>
    pose proof (wf_compare_exchange_weak true n b s a e d W) as M; destruct (compare_exchange_weak true n b s a e d) as [[ok e'] s'] end.
  apply wf_set_xreg, M.
Qed.

Lemma good_AMO_common n s instr : sim_wf s -> good false (InterpretAMO_common P n s instr).
Proof.
  intros W. unfold InterpretAMO_common, InterpretAMOSWAP, InterpretAMOADD, InterpretAMOXOR, InterpretAMOAND, InterpretAMOOR,
    InterpretAMOMIN, InterpretAMOMAX.
  sim_cases; eauto using good_AMO_fetch, good_AMO_pick, good_AMOCAS.
  - unfold InterpretLOADORDERED. sim_cases.
  - unfold InterpretSTOREORDERED, atomic_store. sim_cases.
Qed.

Lemma good_AMO s instr : sim_wf s -> good false (InterpretAMO P s instr).
Proof.
  intros W. unfold InterpretAMO, InterpretAMO8, InterpretAMO16, InterpretAMO32, InterpretAMO64, InterpretAMO128.
  sim_cases; eauto using good_AMO_common, good_LR, good_SC.
Qed.

(** ** Floating point *)

Lemma Round_in_bounds f x r : in_bounds (Round_ f x r).
Proof.
  unfold in_bounds, Round_. destruct (fpclassify f x); try discriminate; cbv zeta;
    repeat match goal with |- context [if ?b then _ else _] => destruct b end; discriminate.
Qed.

Lemma fcvt_in_bounds f lo hi x r : in_bounds (fcvt_ f lo hi x r).
Proof.
  unfold in_bounds, fcvt_. destruct (flt f x (of_int f lo)); [discriminate|]. destruct (flt f x (of_int f hi)); [|discriminate].
  pose proof (Round_in_bounds f x r) as B. destruct (Round_ f x r) as [v|[]]; cbn; congruence || discriminate.
Qed.

Lemma fcvtmodwd_in_bounds D x r : in_bounds (fcvtmodwd D x r).
Proof.
  unfold in_bounds, fcvtmodwd. cbv zeta. destruct (D && _); [discriminate|]. destruct (fpclassify _ _); try discriminate;
    repeat match goal with |- context [if ?b then _ else _] => destruct b end; discriminate.
Qed.

Lemma good_fused op s instr : sim_wf s -> good false (fused op s instr).
Proof. intros W. unfold fused. sim_cases. Qed.

Lemma good_OPFP s instr : sim_wf s -> good false (InterpretOPFP P s instr).
Proof.
  intros W. unfold InterpretOPFP, InterpretOPFP_S, InterpretOPFP_D. sim_cases;
    (apply good_bind; [apply fcvt_in_bounds || apply Round_in_bounds || apply fcvtmodwd_in_bounds|intros; sim_leaf]).
Qed.

(** ** Vectors *)

Lemma good_for_elements vec body : (forall s i, sim_wf s -> good vec (body s i)) ->
  forall k i s, sim_wf s -> good vec (for_elements k i body s).
Proof.
  intros Hb. induction k as [|k IH]; intros i s W; cbn [for_elements]; [exact W|].
  apply good_bind_sim; [apply Hb, W|]. intros s' W'. apply IH, W'.
Qed.

Lemma good_set_vreg n s v i x : sim_wf s -> good true (set_vreg n s v i x).
Proof. intros W. unfold set_vreg. sim_cases. reflexivity. Qed.

Lemma good_get_vreg n s v i k : (forall x, good true (k x)) -> good true (bind (get_vreg n s v i) k).
Proof. intros Hk. unfold get_vreg. cbv zeta. destruct (_ <=? _); [apply Hk|reflexivity]. Qed.

Lemma good_LOADV n s instr : sim_wf s -> access_size n -> good true (InterpretLOADV P n s instr).
Proof.
  intros W Hn. unfold InterpretLOADV. cbv zeta. destruct (negb _); [exact I|]. apply good_for_elements; [|exact W].
  intros s' i W'. sim_cases; [exact Hn|]. apply good_set_vreg. assumption.
Qed.

Lemma good_STOREV n s instr : sim_wf s -> access_size n -> good true (InterpretSTOREV P n s instr).
Proof.
  intros W Hn. unfold InterpretSTOREV. cbv zeta. destruct (negb _); [exact I|]. apply good_for_elements; [|exact W].
  intros s' i W'. apply good_get_vreg. intros x. sim_cases. exact Hn.
Qed.

Lemma good_OPV_IVX s instr : sim_wf s -> good true (InterpretOPV_IVX s instr).
Proof.
  intros W. unfold InterpretOPV_IVX, InterpretOPV_IVX_sew. sim_cases;
    (apply good_for_elements; [|exact W]; intros; try apply good_get_vreg; intros; apply good_set_vreg; assumption).
Qed.

Lemma new_vl_range s instr vlmax (keep set : bool) : sim_wf s -> 0 <= vlmax <= VLEN ->
  0 <= (if set then vlmax else if keep then vl_ s
        else if get_xreg s (Instr.rs1 instr) <? vlmax then get_xreg s (Instr.rs1 instr) else vlmax) <= VLEN.
Proof.
  intros W B. pose proof (wf_get_xreg s (Instr.rs1 instr) W (reg_field _ _)) as [A _]. pose proof (wf_vl s W) as V.
  destruct set, keep; try assumption. destruct (_ <? _) eqn:E; lia.
Qed.

Lemma good_OPV_CFG s instr : sim_wf s -> good false (InterpretOPV_CFG s instr).
Proof.
  intros W. unfold InterpretOPV_CFG. cbv zeta. destruct (negb _); [exact I|].
  generalize ((Instr.itype_imm instr >> 3) .& 7) ((Instr.itype_imm instr >> 0) .& 7). intros w l.
  repeat match goal with
  | |- good _ (bind (if ?b then _ else _) _) => destruct b
  | |- good _ (bind (Ok ?a) ?k) => change (good false (k a)); cbv beta
  | |- good _ (bind (Stop ?r) _) => exact I
  end; (apply wf_set_xreg, wf_with_vl; [exact W|]; apply new_vl_range; [exact W|vm_compute; split; discriminate]).
Qed.

(** The instructions that index the vector registers. *)
Definition uses_vregs (instr : Z) : bool :=
  let op := Instr.opcode instr in
  let f := Instr.funct3 instr in
  (((op =? LOADFP) || (op =? STOREFP)) && negb (f =? S_) && negb (f =? D_)) || ((op =? OPV) && (f =? OPIVX)).

Lemma good_LOADFP s instr : sim_wf s -> Instr.opcode instr = LOADFP -> good (uses_vregs instr) (InterpretLOADFP P s instr).
Proof.
  intros W E. unfold InterpretLOADFP, uses_vregs. rewrite E. cbv zeta. apply good_then_advance.
  destruct (_ =? S_) eqn:?; [sim_cases|]. destruct (_ =? D_) eqn:?; [sim_cases|].
  sim_cases; apply good_LOADV; assumption || sim_leaf.
Qed.

Lemma good_STOREFP s instr : sim_wf s -> Instr.opcode instr = STOREFP -> good (uses_vregs instr) (InterpretSTOREFP P s instr).
Proof.
  intros W E. unfold InterpretSTOREFP, uses_vregs. rewrite E. cbv zeta. apply good_then_advance.
  destruct (_ =? S_) eqn:?; [sim_cases|]. destruct (_ =? D_) eqn:?; [sim_cases|].
  sim_cases; apply good_STOREV; assumption || sim_leaf.
Qed.

Lemma good_OPV s instr : sim_wf s -> Instr.opcode instr = OPV -> good (uses_vregs instr) (InterpretOPV s instr).
Proof.
  intros W E. unfold InterpretOPV, uses_vregs. rewrite E. cbv zeta. apply good_then_advance.
  destruct (_ =? OPIVX) eqn:?; [apply good_OPV_IVX, W|]. sim_cases. apply good_weaken, good_OPV_CFG, W.
Qed.

Lemma good_Interpret s instr : sim_wf s -> good (uses_vregs instr) (Interpret P s instr).
Proof.
  intros W. unfold Interpret. cbv zeta.
  repeat match goal with |- good _ (if ?b then _ else _) => let E := fresh "E" in destruct b eqn:E; [apply Z.eqb_eq in E|clear E] end;
    lazymatch goal with
    | |- good _ (Stop _) => exact I
    | |- good _ (InterpretLOADFP _ _ _) => apply good_LOADFP; assumption
    | |- good _ (InterpretSTOREFP _ _ _) => apply good_STOREFP; assumption
    | |- good _ (InterpretOPV _ _) => apply good_OPV; assumption
    | |- _ => apply good_weaken
    end;
    lazymatch goal with
    | |- good _ (InterpretLUI _ _) => unfold InterpretLUI; sim_cases
    | |- good _ (InterpretAUIPC _ _) => unfold InterpretAUIPC; sim_cases
    | |- good _ (InterpretJAL _ _) => unfold InterpretJAL; sim_cases
    | |- good _ (InterpretBRANCH _ _) => unfold InterpretBRANCH; sim_cases
    | |- good _ (InterpretJALR _ _) => apply good_JALR, W
    | |- good _ (InterpretLOAD _ _ _) => apply good_LOAD, W
    | |- good _ (InterpretSTORE _ _ _) => apply good_STORE, W
    | |- good _ (InterpretOPIMM _ _) => exact (proj1 (good_OPIMM s instr W))
    | |- good _ (InterpretOPIMM32 _ _) => exact (proj2 (good_OPIMM s instr W))
    | |- good _ (InterpretOP _ _) => apply good_OP, W
    | |- good _ (InterpretOP32 _ _) => apply good_OP32, W
    | |- good _ (InterpretMISCMEM _ _) => apply good_MISCMEM, W
    | |- good _ (InterpretSYSTEM _ _ _) => apply good_SYSTEM, W
    | |- good _ (InterpretAMO _ _ _) => apply good_AMO, W
    | |- good _ (InterpretOPFP _ _ _) => apply good_OPFP, W
    | |- good _ (?op _ _ _) => unfold op; apply good_fused, W
    end.
Qed.

(** The instruction at [pc_] indexes the vector registers. *)
Definition at_vector_instruction (s : Simulator) : bool :=
  let h := host (memory_ s) in
  negb (IsCInstruction (LoadLE 2 h (pc_ s))) && uses_vregs (LoadLE 4 h (pc_ s)).

Lemma good_step s : sim_wf s -> good (at_vector_instruction s) (step P s).
Proof.
  intros W. unfold step, at_vector_instruction. cbv zeta. apply good_bind_sim.
  - destruct (IsCInstruction _); [apply good_Interpret_C|apply good_Interpret]; exact W.
  - intros s' [X F Pc I S Rv V M]. split; cbn; try assumption. apply uN_range; lia.
Qed.

(** ** The life of a simulator *)

(** The states a simulator goes through: its construction, the instructions it executes, and what
    the VM does between them through the interface of the class. *)
Inductive reachable : Simulator -> Prop :=
  | reach_new h b seed base shadow vl0 vtype0 : 0 <= vl0 <= VLEN ->
      reachable (new_Simulator h b seed base shadow vl0 vtype0)
  | reach_step s s' : reachable s -> step P s = Ok s' -> reachable s'
  | reach_PrepareCall s : reachable s -> reachable (snd (PrepareCall P s))
  | reach_set_xreg s r v : reachable s -> reachable (set_xreg s r v)
  | reach_set_fregd s r v : reachable s -> reachable (set_fregd s r v)
  | reach_set_fregs s r v : reachable s -> reachable (set_fregs s r v)
  | reach_set_pc s v : reachable s -> reachable (with_pc s (u64 v))
  | reach_FlushAll s : reachable s -> reachable (with_memory s (Memory.FlushAll (memory_ s))).

Lemma wf_ss_enabled s : sim_wf s ->
  sim_wf (mkSimulator (pc_ s) (xregs_ s) (instret_ s) (reserved_address_ s) (reserved_value_ s) (fregs_ s) (fcsr_ s)
            (lp_enabled_ s) true (ssp_ s) (vregs_ s) (vl_ s) (vtype_ s) (stack_base_ s) (random_ s) (memory_ s)).
Proof. intros [X F Pc I S Rv V M]. split; assumption. Qed.

(** The state before the registers are filled. *)
Lemma wf_zeroed h b seed base vl0 vtype0 : 0 <= vl0 <= VLEN ->
  sim_wf (mkSimulator 0 (fun _ => 0) 0 0 0 (fun _ => kNaNBox) 0 false false 0 (fun _ => 0) vl0 vtype0 base seed (mkMemory b h [])).
Proof.
  intros Hvl. split; cbn; try (repeat split; lia).
  - intros _. vm_compute; split; congruence.
  - split; [apply wf_buffer_nil|reflexivity].
Qed.

Lemma wf_new_Simulator h b seed base shadow vl0 vtype0 : 0 <= vl0 <= VLEN ->
  sim_wf (new_Simulator h b seed base shadow vl0 vtype0).
Proof.
  intros Hvl. unfold new_Simulator. cbv zeta. apply wf_with_pc; [|vm_compute; split; congruence].
  apply wf_set_xreg, wf_ss_enabled, wf_with_ssp, wf_set_xreg, wf_clobber_vregs, wf_clobber_xregs; [lia|lia|].
  apply wf_zeroed, Hvl.
Qed.

Lemma wf_PrepareCall s : sim_wf s -> sim_wf (snd (PrepareCall P s)).
Proof.
  intros W. unfold PrepareCall. destruct (DEBUG P); [|exact W].
  apply wf_clobber_vregs, wf_clobber_fregs, wf_clobber_xregs; [lia|reflexivity|exact W].
Qed.

Lemma reachable_wf s : reachable s -> sim_wf s.
Proof.
  induction 1 as [h b seed base shadow vl0 vtype0 Hvl|s s' _ W E| | | | | |]; eauto using wf_PrepareCall with sim.
  - apply wf_new_Simulator, Hvl.
  - pose proof (good_step s W) as G. rewrite E in G. exact G.
  - apply wf_with_pc; [assumption|apply uN_range; lia].
  - apply wf_with_memory; [assumption|apply wf_FlushAll, wf_mem; assumption].
Qed.

Lemma reachable_Execute fuel : forall s s', reachable s -> Execute P fuel s = Some (Ok s') -> reachable s'.
Proof.
  induction fuel as [|fuel IH]; intros s s' R; unfold Execute; cbn [ExecuteNoTrace]; destruct (_ =? _); try discriminate;
    try (intros [= <-]; exact R).
  destruct (step P s) as [t|] eqn:E; [|discriminate]. intros H. apply (IH t); [apply (reach_step s), E; exact R|exact H].
Qed.

Lemma reachable_RunCall fuel entry preserved s s' : reachable s -> RunCall P fuel entry preserved s = Some (Ok s') -> reachable s'.
Proof.
  intros R. unfold RunCall, finish. cbv zeta.
  destruct (Execute P fuel _) as [[t|]|] eqn:E; cbn [bind]; try discriminate.
  apply reachable_Execute in E; [|apply reach_set_xreg, reach_set_pc, R].
  unfold CheckPreservedRegisters. repeat match goal with |- context [if ?b then _ else _] => destruct b end; cbn [bind]; try discriminate;
    intros [= <-]; apply reach_FlushAll, E.
Qed.

Lemma reachable_CallX fuel f a0 a1 a2 a3 s v s' : reachable s -> CallX P fuel f a0 a1 a2 a3 s = Some (Ok (v, s')) -> reachable s'.
Proof.
  intros R. unfold CallX. pose proof (reach_PrepareCall s R) as R1. destruct (PrepareCall P s) as [preserved s1].
  cbn [snd] in R1. cbv zeta. destruct (RunCall P _ _ _ _) as [[t|]|] eqn:E; cbn; try discriminate. intros [= _ <-].
  apply reachable_RunCall in E; [exact E|]. auto using reach_set_xreg.
Qed.

End Handlers.


