(* ===== verification/RvBufferProofs.v ===== *)
(** * The store buffer under whole programs

    Two simulators that differ only in their memory, one with the store buffer
    and one accessing the process memory directly, run in lockstep: every
    instruction reads the same values, stops for the same reason and leaves
    states that again differ only there.  The exceptions are stated as a
    condition on the states: code that is still in the buffer, and atomic
    accesses the buffer does not handle. *)

From Stdlib Require Import ZArith Lia ZifyBool Bool List String Morphisms.
From S2P Require Import Prelude Bits Utils RvEncoding RvEncodingProofs RvAlu SimMemory Random Outcome RvFloat RvSimulator RvCalls RvExec RvSimProofs.
Import ListNotations.
Open Scope Z_scope.

(** ** The relation *)

(** [d] is direct and holds what a program sees through [m]. *)
Definition shows (m d : SimulatorMemory) : Prop :=
  wf_memory m /\ use_buffered_ d = false /\ buffer_ d = [] /\ host_eq (memory_view m) (host d).

Inductive lockstep : outcome Simulator -> outcome Simulator -> Prop :=
  | lockstep_ok s d : shows (memory_ s) d -> lockstep (Ok s) (Ok (with_memory s d))
  | lockstep_stop r : lockstep (Stop r) (Stop r).

Inductive lockstep_read : outcome (Z * Simulator) -> outcome (Z * Simulator) -> Prop :=
  | lockstep_read_ok v s d : shows (memory_ s) d -> lockstep_read (Ok (v, s)) (Ok (v, with_memory s d))
  | lockstep_read_stop r : lockstep_read (Stop r) (Stop r).

(** ** Memory *)

Lemma shows_wf m d : shows m d -> wf_memory d.
Proof. intros (_ & U & B & _). split; rewrite B; [apply wf_buffer_nil|reflexivity]. Qed.

Lemma direct_view d : buffer_ d = [] -> host_eq (memory_view d) (host d).
Proof. unfold memory_view. intros ->. apply view_nil. Qed.

Lemma shows_Load n m d a : shows m d -> access_size n -> is_uN 64 a ->
  exists m', Memory.Load n m a = (fst (Memory.Load n d a), m') /\ snd (Memory.Load n d a) = d /\ shows m' d.
Proof.
  intros (W & U & B & V) Hn Ha.
  pose proof (bm_load_spec (ByteMemory := simulator_memory) n m a Hn Ha W) as (L & W' & V'). cbn [bm_load bm_view simulator_memory] in L, W', V'.
  unfold Memory.Load at 2 3. rewrite U. cbn [fst snd]. exists (snd (Memory.Load n m a)).
  rewrite (surjective_pairing (Memory.Load n m a)), L, V. split; [reflexivity|split; [reflexivity|]].
  split; [exact W'|split; [exact U|split; [exact B|]]]. etransitivity; eassumption.
Qed.

Lemma shows_Store n m d a v : shows m d -> access_size n -> is_uN 64 a ->
  exists m' d', Memory.Store n m a v = Some m' /\ Memory.Store n d a v = Some d' /\ shows m' d'.
Proof.
  intros (W & U & B & V) Hn Ha.
  destruct (bm_store_spec (ByteMemory := simulator_memory) n m a v Hn Ha W) as (m' & E & W' & V'). cbn [bm_store bm_view simulator_memory] in E, W', V'.
  exists m'. eexists. split; [exact E|]. unfold Memory.Store. rewrite U. split; [reflexivity|].
  split; [exact W'|split; [exact U|split; [exact B|]]]. etransitivity; [exact V'|]. apply StoreLE_proper; auto.
Qed.

Lemma shows_FlushAll m d : shows m d -> shows (Memory.FlushAll m) (Memory.FlushAll d) /\ buffer_ (Memory.FlushAll m) = [].
Proof.
  intros (W & U & B & V). unfold Memory.FlushAll. rewrite U. destruct W as [W D]. destruct (use_buffered_ m) eqn:E.
  - split; [|reflexivity]. split; [split; [apply wf_buffer_nil|reflexivity]|]. repeat split; try assumption.
    etransitivity; [apply view_nil|]. etransitivity; [apply FlushAll_view, (proj1 W)|exact V].
  - split; [|apply D; reflexivity]. split; [split; auto|auto].
Qed.

(** *** Atomic accesses at word addresses *)

(** The word at [a] is not in the buffer. *)
Definition settled (m : SimulatorMemory) (a : Z) : Prop := ~ In a (map addr (buffer_ m)).

Lemma shows_FlushAddress m d a : shows m d ->
  Memory.FlushAddress d a = d /\ shows (Memory.FlushAddress m a) d /\ settled (Memory.FlushAddress m a) a.
Proof.
  intros (W & U & B & V). unfold Memory.FlushAddress. rewrite U. split; [reflexivity|]. destruct W as [W D].
  destruct (use_buffered_ m) eqn:E.
  - pose proof (FlushAddress_ok a (host m) (buffer_ m) W) as F.
    destruct (Buffered.FlushAddress a (host m) (buffer_ m)) as [h' buf']. destruct F as (W' & N & V').
    split; [|exact N]. split; [split; [exact W'|cbn; congruence]|]. split; [exact U|split; [exact B|]]. etransitivity; eassumption.
  - unfold settled. rewrite (D eq_refl). split; [|intros []]. split; [split; auto|auto].
Qed.

Lemma LoadOrdered_flush n m a : Memory.LoadOrdered n m a = (Direct.Load n (host (Memory.FlushAddress m a)) a, Memory.FlushAddress m a).
Proof.
  unfold Memory.LoadOrdered, Memory.FlushAddress, Buffered.LoadOrdered. destruct (use_buffered_ m); [|reflexivity].
  destruct (Buffered.FlushAddress a (host m) (buffer_ m)); reflexivity.
Qed.

Lemma CompareExchange_flush n sp m a o v : Memory.CompareExchange n sp m a o v =
  let f := Memory.FlushAddress m a in
  let '(ok, old, h) := Direct.CompareExchange n sp (host f) a o v in (ok, old, mkMemory (use_buffered_ f) h (buffer_ f)).
Proof.
  unfold Memory.CompareExchange, Memory.FlushAddress, Buffered.CompareExchange. destruct (use_buffered_ m) eqn:U; cbv zeta.
  - destruct (Buffered.FlushAddress a (host m) (buffer_ m)) as [h buf]. cbn. destruct (Direct.CompareExchange _ _ _ _ _ _) as [[ok old] h']; reflexivity.
  - rewrite U. destruct (Direct.CompareExchange _ _ _ _ _ _) as [[ok old] h']. unfold Memory.with_state. rewrite U. reflexivity.
Qed.

Section Word.
Context (m d : SimulatorMemory) (a n : Z) (Hs : shows m d) (Hset : settled m a) (Ha : is_uN 64 a) (Hw : a mod 8 = 0) (Hn : 0 < n <= 8).

Lemma shows_atomic_load : Direct.Load n (host m) a = Direct.Load n (host d) a.
Proof.
  destruct Hs as (_ & _ & _ & V). unfold Direct.Load.
  rewrite (LoadLE_unbuffered _ (host m) (buffer_ m)) by (assumption || lia). apply LoadLE_proper; [exact V|reflexivity].
Qed.

Lemma shows_atomic_store v :
  shows (mkMemory (use_buffered_ m) (Direct.Store n (host m) a v) (buffer_ m))
        (mkMemory (use_buffered_ d) (Direct.Store n (host d) a v) (buffer_ d)).
Proof.
  destruct Hs as (W & U & B & V). split; [exact W|split; [exact U|split; [exact B|]]]. cbn [host].
  etransitivity; [apply StoreLE_unbuffered; assumption|]. apply StoreLE_proper; auto.
Qed.

Lemma shows_CompareExchange sp o v :
  let '(ok, seen, h) := Direct.CompareExchange n sp (host m) a o v in
  let '(ok', seen', h') := Direct.CompareExchange n sp (host d) a o v in
  ok = ok' /\ seen = seen' /\ shows (mkMemory (use_buffered_ m) h (buffer_ m)) (mkMemory (use_buffered_ d) h' (buffer_ d)).
Proof.
  unfold Direct.CompareExchange. cbv zeta. rewrite shows_atomic_load. destruct (_ && _).
  - auto using shows_atomic_store.
  - destruct Hs as (W & U & B & V). split; [reflexivity|split; [reflexivity|]]. split; [exact W|auto].
Qed.

End Word.

(** ** Registers do not see the memory *)

Lemma memory_set_xreg s r v : memory_ (set_xreg s r v) = memory_ s.
Proof. unfold set_xreg. destruct (negb _); reflexivity. Qed.

Lemma set_xreg_with_memory s d r v : set_xreg (with_memory s d) r v = with_memory (set_xreg s r v) d.
Proof. unfold set_xreg. destruct (negb _); reflexivity. Qed.

(** Moves [with_memory] to the outside of a state. *)
Ltac memory_out s d :=
  change (get_xreg (with_memory s d)) with (get_xreg s);
  change (get_fregs (with_memory s d)) with (get_fregs s);
  change (get_fregs_raw (with_memory s d)) with (get_fregs_raw s);
  change (get_fregd (with_memory s d)) with (get_fregd s);
  change (pc_ (with_memory s d)) with (pc_ s);
  change (ssp_ (with_memory s d)) with (ssp_ s);
  change (ss_enabled_ (with_memory s d)) with (ss_enabled_ s);
  change (vl_ (with_memory s d)) with (vl_ s);
  change (vsew (with_memory s d)) with (vsew s).

Create HintDb lockstep.

Lemma shows_set_xreg s r v d : shows (memory_ s) d -> shows (memory_ (set_xreg s r v)) d.
Proof. rewrite memory_set_xreg. auto. Qed.
#[export] Hint Resolve shows_set_xreg : lockstep.

Lemma lockstep_set_xreg s d r v : shows (memory_ s) d -> lockstep (Ok (set_xreg s r v)) (Ok (set_xreg (with_memory s d) r v)).
Proof. intros H. rewrite set_xreg_with_memory. constructor. auto with lockstep. Qed.

Lemma lockstep_write_rd s d instr v : shows (memory_ s) d -> lockstep (write_rd s instr v) (write_rd (with_memory s d) instr v).
Proof.
  intros H. unfold write_rd. rewrite set_xreg_with_memory. apply (lockstep_ok (advance (set_xreg s _ v) _)).
  cbn. rewrite memory_set_xreg. exact H.
Qed.

Lemma lockstep_bind o1 o2 k1 k2 : lockstep o1 o2 ->
  (forall s d, shows (memory_ s) d -> lockstep (k1 s) (k2 (with_memory s d))) -> lockstep (bind o1 k1) (bind o2 k2).
Proof. intros [s d H|r] Hk; cbn; [apply Hk, H|constructor]. Qed.

Lemma lockstep_bind_read o1 o2 k1 k2 : lockstep_read o1 o2 ->
  (forall v s d, shows (memory_ s) d -> lockstep (k1 (v, s)) (k2 (v, with_memory s d))) -> lockstep (bind o1 k1) (bind o2 k2).
Proof. intros [v s d H|r] Hk; cbn; [apply Hk, H|constructor]. Qed.

Lemma lockstep_bind_same {A} (o : outcome A) k1 k2 : (forall a, lockstep (k1 a) (k2 a)) -> lockstep (bind o k1) (bind o k2).
Proof. intros Hk. destruct o; cbn; [apply Hk|constructor]. Qed.

Lemma lockstep_then_advance o1 o2 k : lockstep o1 o2 -> lockstep (then_advance o1 k) (then_advance o2 k).
Proof. intros H. apply lockstep_bind; [exact H|]. intros s d Hs. apply (lockstep_ok (advance s k)), Hs. Qed.

Section Accesses.
Context (P : Platform).

Lemma lockstep_MemoryRead signed n s d a base : shows (memory_ s) d -> access_size n -> is_uN 64 a ->
  lockstep_read (MemoryRead P signed n s a base) (MemoryRead P signed n (with_memory s d) a base).
Proof.
  intros Hs Hn Ha. unfold MemoryRead. change (CheckAccess P (with_memory s d) n a base) with (CheckAccess P s n a base).
  destruct (CheckAccess P s n a base); [constructor|]. change (memory_ (with_memory s d)) with d.
  destruct (shows_Load n (memory_ s) d a Hs Hn Ha) as (m' & E & E' & Hs'). rewrite E, (surjective_pairing (Memory.Load n d a)), E'.
  apply (lockstep_read_ok _ (with_memory s m') d). exact Hs'.
Qed.

Lemma lockstep_MemoryWrite n s d a v base : shows (memory_ s) d -> access_size n -> is_uN 64 a ->
  lockstep (MemoryWrite P n s a v base) (MemoryWrite P n (with_memory s d) a v base).
Proof.
  intros Hs Hn Ha. unfold MemoryWrite. change (CheckAccess P (with_memory s d) n a base) with (CheckAccess P s n a base).
  destruct (CheckAccess P s n a base); [constructor|]. change (memory_ (with_memory s d)) with d.
  destruct (shows_Store n (memory_ s) d a v Hs Hn Ha) as (m' & d' & E & E' & Hs'). rewrite E, E'.
  apply (lockstep_ok (with_memory s m') d'). exact Hs'.
Qed.

Lemma lockstep_load_xreg signed n s d rd a base : shows (memory_ s) d -> access_size n -> is_uN 64 a ->
  lockstep (load_xreg P signed n s rd a base) (load_xreg P signed n (with_memory s d) rd a base).
Proof.
  intros Hs Hn Ha. apply lockstep_bind_read; [apply lockstep_MemoryRead; assumption|]. intros v s' d' H. apply lockstep_set_xreg, H.
Qed.

End Accesses.

(** Both simulators take the same branch; a branch ends alike on both sides. *)
Ltac lockstep_leaf :=
  match goal with
  | |- access_size _ => unfold access_size; lia
  | |- is_uN 64 (uN 64 _) => apply uN_range; lia
  | |- is_uN 64 (ssp_ _) => eauto using wf_ssp with sim
  | |- shows _ _ => assumption
  | |- lockstep (Stop _) (Stop _) => constructor
  | H : shows (memory_ _) ?d |- lockstep (Ok ?x) (Ok ?y) =>
      change y with (with_memory x d); apply lockstep_ok; first [exact H | apply shows_set_xreg, H]
  end.
Ltac lockstep_cases :=
  cbv zeta;
  repeat match goal with
  | |- context [with_memory ?s ?d] => progress memory_out s d
  | |- context [with_ssp (with_memory ?s ?d) ?x] => change (with_ssp (with_memory s d) x) with (with_memory (with_ssp s x) d)
  | |- context [set_xreg (with_memory ?s ?d) ?r ?v] => rewrite (set_xreg_with_memory s d r v)
  | |- lockstep (if ?b then _ else _) (if ?b then _ else _) => destruct b
  | |- lockstep (match ?b with Some _ => _ | None => _ end) _ => destruct b
  | |- lockstep (then_advance _ _) _ => apply lockstep_then_advance
  | |- lockstep (write_rd _ _ _) _ => apply lockstep_write_rd
  | |- lockstep (load_xreg _ _ _ _ _ _ _) _ => apply lockstep_load_xreg
  | |- lockstep (MemoryWrite _ _ _ _ _ _) _ => apply lockstep_MemoryWrite
  | |- lockstep (bind (MemoryRead _ _ _ _ _ _) _) _ =>
      apply lockstep_bind_read; [apply lockstep_MemoryRead|let H := fresh "H" in intros ? ? ? H; cbv zeta; cbv iota beta]
  end;
  try lockstep_leaf.

Section Handlers.
Context (P : Platform) (s : Simulator) (d : SimulatorMemory) (W : sim_wf s) (Hs : shows (memory_ s) d) (instr : Z).

(** ** Integer instructions *)

Lemma lockstep_C_MISCALU : lockstep (InterpretC_MISCALU s instr) (InterpretC_MISCALU (with_memory s d) instr).
Proof. unfold InterpretC_MISCALU. lockstep_cases. Qed.

Lemma lockstep_C_LUI : lockstep (InterpretC_LUI P s instr) (InterpretC_LUI P (with_memory s d) instr).
Proof. unfold InterpretC_LUI. lockstep_cases. Qed.

Lemma lockstep_C_LBU : lockstep (InterpretC_LBU P s instr) (InterpretC_LBU P (with_memory s d) instr).
Proof. unfold InterpretC_LBU. lockstep_cases. Qed.

Lemma lockstep_LOAD : lockstep (InterpretLOAD P s instr) (InterpretLOAD P (with_memory s d) instr).
Proof. unfold InterpretLOAD. lockstep_cases. Qed.

Lemma lockstep_STORE : lockstep (InterpretSTORE P s instr) (InterpretSTORE P (with_memory s d) instr).
Proof. unfold InterpretSTORE. lockstep_cases. Qed.

Lemma lockstep_LUI : lockstep (InterpretLUI s instr) (InterpretLUI (with_memory s d) instr).
Proof. unfold InterpretLUI. lockstep_cases. Qed.

Lemma lockstep_AUIPC : lockstep (InterpretAUIPC s instr) (InterpretAUIPC (with_memory s d) instr).
Proof. unfold InterpretAUIPC. lockstep_cases. Qed.

Lemma lockstep_JAL : lockstep (InterpretJAL s instr) (InterpretJAL (with_memory s d) instr).
Proof. unfold InterpretJAL. lockstep_cases. Qed.

Lemma lockstep_BRANCH : lockstep (InterpretBRANCH s instr) (InterpretBRANCH (with_memory s d) instr).
Proof. unfold InterpretBRANCH, branch. lockstep_cases. Qed.

Lemma lockstep_OPIMM : lockstep (InterpretOPIMM s instr) (InterpretOPIMM (with_memory s d) instr).
Proof. unfold InterpretOPIMM. lockstep_cases. Qed.

Lemma lockstep_OPIMM32 : lockstep (InterpretOPIMM32 s instr) (InterpretOPIMM32 (with_memory s d) instr).
Proof. unfold InterpretOPIMM32. lockstep_cases. Qed.

Lemma lockstep_OP : lockstep (InterpretOP s instr) (InterpretOP (with_memory s d) instr).
Proof.
  unfold InterpretOP, InterpretOP_0, InterpretOP_SUB, InterpretOP_MULDIV, InterpretOP_SHADD,
    InterpretOP_MINMAXCLMUL, InterpretOP_ROTATE, InterpretOP_BCLRBEXT, InterpretOP_CZERO. lockstep_cases.
Qed.

Lemma lockstep_OP32 : lockstep (InterpretOP32 s instr) (InterpretOP32 (with_memory s d) instr).
Proof.
  unfold InterpretOP32, InterpretOP32_0, InterpretOP32_SUB, InterpretOP32_MULDIV, InterpretOP32_SHADD,
    InterpretOP32_ADDUW, InterpretOP32_ROTATE. lockstep_cases.
Qed.

Lemma lockstep_FlushAll : lockstep (Ok (with_memory s (Memory.FlushAll (memory_ s))))
  (Ok (with_memory (with_memory s d) (Memory.FlushAll (memory_ (with_memory s d))))).
Proof.
  apply (lockstep_ok (with_memory s (Memory.FlushAll (memory_ s))) (Memory.FlushAll d)). apply shows_FlushAll, Hs.
Qed.

Lemma lockstep_MISCMEM : lockstep (InterpretMISCMEM s instr) (InterpretMISCMEM (with_memory s d) instr).
Proof.
  unfold InterpretMISCMEM. cbv zeta. apply lockstep_then_advance. destruct (_ =? FENCE); [apply lockstep_FlushAll|]. lockstep_cases.
Qed.

(** ** Control registers *)

Lemma lockstep_MOP : lockstep (InterpretMOP P s instr) (InterpretMOP P (with_memory s d) instr).
Proof. unfold InterpretMOP. lockstep_cases. Qed.

Lemma lockstep_csr_write v : lockstep (csr_write s instr v) (csr_write (with_memory s d) instr v).
Proof.
  unfold csr_write, CSRWrite. cbv zeta. change (CSRRead (with_memory s d)) with (CSRRead s).
  destruct (_ =? ZR); [lockstep_cases|]. apply lockstep_bind_same. intros r. destruct (_ =? ssp); cbn [bind]; [|constructor].
  lockstep_cases.
Qed.

Lemma lockstep_csr_modify op nw k : (op = CSRSet \/ op = CSRClear) ->
  lockstep (csr_modify op s instr nw k) (csr_modify op (with_memory s d) instr nw k).
Proof.
  intros Hop. unfold csr_modify. change (CSRRead (with_memory s d)) with (CSRRead s). apply lockstep_bind_same. intros r.
  destruct nw; [cbn [bind]; lockstep_cases|]. destruct Hop as [-> | ->]; constructor.
Qed.

(** ** Floating point *)

Lemma lockstep_fused op : lockstep (fused op s instr) (fused op (with_memory s d) instr).
Proof. unfold fused. lockstep_cases. Qed.

Lemma lockstep_OPFP : lockstep (InterpretOPFP P s instr) (InterpretOPFP P (with_memory s d) instr).
Proof. unfold InterpretOPFP, InterpretOPFP_S, InterpretOPFP_D. lockstep_cases; apply lockstep_bind_same; intros; lockstep_cases. Qed.

(** ** Jumps through registers: landing pads are off *)

Context (Hlp : lp_enabled_ s = false).

Lemma no_landing_pad t rs1 : lp_enabled_ t = false -> CheckLandingPad t rs1 = Ok t.
Proof. unfold CheckLandingPad. intros ->. reflexivity. Qed.

Lemma lp_set_xreg t r v : lp_enabled_ (set_xreg t r v) = lp_enabled_ t.
Proof. unfold set_xreg. destruct (negb _); reflexivity. Qed.

Lemma lockstep_jump r v x rs1 : lockstep (CheckLandingPad (with_pc (set_xreg s r v) x) rs1)
  (CheckLandingPad (with_pc (set_xreg (with_memory s d) r v) x) rs1).
Proof.
  rewrite set_xreg_with_memory, !no_landing_pad by (cbn; rewrite lp_set_xreg; exact Hlp). lockstep_leaf.
Qed.

Lemma lockstep_JALR : lockstep (InterpretJALR s instr) (InterpretJALR (with_memory s d) instr).
Proof. unfold InterpretJALR. cbv zeta. memory_out s d. apply lockstep_jump. Qed.

Lemma lockstep_C_JR : let k r := match r with inl s => Ok (advance s CInstr.length) | inr s => Ok s end in
  lockstep (let! r := InterpretC_JR s instr in k r) (let! r := InterpretC_JR (with_memory s d) instr in k r).
Proof.
  unfold InterpretC_JR. cbv zeta. memory_out s d.
  repeat match goal with |- lockstep (bind (if ?b then _ else _) _) _ => destruct b end;
    rewrite ?set_xreg_with_memory, ?no_landing_pad by (cbn; rewrite ?lp_set_xreg; exact Hlp); cbn [bind]; lockstep_leaf.
Qed.

Lemma lockstep_Interpret_C : lockstep (Interpret_C P s instr) (Interpret_C P (with_memory s d) instr).
Proof.
  unfold Interpret_C. lockstep_cases.
  all: first [apply lockstep_C_MISCALU | apply lockstep_C_LUI | apply lockstep_C_LBU | apply lockstep_C_JR].
Qed.

(** ** Atomics at word addresses *)

Context (Hword : get_xreg s (Instr.rs1 instr) mod 8 = 0) (n : Z) (Hn : 0 < n <= 8).
Let a : Z := get_xreg s (Instr.rs1 instr).

Lemma amo_address : is_uN 64 a.
Proof. apply wf_get_xreg; [exact W|apply reg_field]. Qed.

(** The state after [FlushAddress]. *)
Let t : Simulator := with_memory s (Memory.FlushAddress (memory_ s) a).

Lemma flushed_direct : with_memory (with_memory s d) (Memory.FlushAddress (memory_ (with_memory s d)) a) = with_memory t d.
Proof. unfold t. cbn [memory_ with_memory]. destruct (shows_FlushAddress (memory_ s) d a Hs) as (-> & _). reflexivity. Qed.

Lemma flushed_shows : shows (memory_ t) d.
Proof. apply (shows_FlushAddress (memory_ s) d a Hs). Qed.

Lemma flushed_settled : settled (memory_ t) a.
Proof. apply (shows_FlushAddress (memory_ s) d a Hs). Qed.

Lemma flushed_load signed : atomic_load signed n (with_memory t d) a = atomic_load signed n t a.
Proof.
  unfold atomic_load. cbn [memory_ with_memory]. f_equal. symmetry.
  apply shows_atomic_load; auto using flushed_shows, flushed_settled, amo_address.
Qed.

Lemma flushed_store v : shows (memory_ (atomic_store n t a v)) (memory_ (atomic_store n (with_memory t d) a v)) /\
  atomic_store n (with_memory t d) a v = with_memory (atomic_store n t a v) (memory_ (atomic_store n (with_memory t d) a v)).
Proof.
  split; [|reflexivity]. apply (shows_atomic_store (memory_ t) d a n); auto using flushed_shows, flushed_settled, amo_address.
Qed.

Lemma lockstep_AMO_fetch f : lockstep (InterpretAMO_fetch n f s instr) (InterpretAMO_fetch n f (with_memory s d) instr).
Proof.
  unfold InterpretAMO_fetch. cbv zeta. memory_out s d. fold a. destruct (negb _); [constructor|].
  rewrite flushed_direct. fold t. memory_out t d. rewrite flushed_load.
  destruct (flushed_store (f (atomic_load true n t a) (as_type true n (get_xreg t (Instr.rs2 instr))))) as [H E].
  rewrite E. apply lockstep_set_xreg, H.
Qed.

Lemma lockstep_LOADORDERED : lockstep (InterpretLOADORDERED n s instr) (InterpretLOADORDERED n (with_memory s d) instr).
Proof.
  unfold InterpretLOADORDERED. cbv zeta. memory_out s d. fold a. destruct (negb _); [constructor|].
  rewrite flushed_direct. fold t. rewrite flushed_load. apply lockstep_set_xreg, flushed_shows.
Qed.

Lemma lockstep_STOREORDERED : lockstep (InterpretSTOREORDERED n s instr) (InterpretSTOREORDERED n (with_memory s d) instr).
Proof.
  unfold InterpretSTOREORDERED. cbv zeta. memory_out s d. fold a. destruct (negb _); [constructor|].
  rewrite flushed_direct. fold t. memory_out t d.
  destruct (flushed_store (as_type true n (get_xreg t (Instr.rs2 instr)))) as [H E]. rewrite E. constructor. exact H.
Qed.

Lemma shows_compare_exchange_weak signed sp u e o v : shows (memory_ u) e -> settled (memory_ u) a ->
  let '(ok, seen, u1) := compare_exchange_weak signed n sp u a o v in
  exists e1, compare_exchange_weak signed n sp (with_memory u e) a o v = (ok, seen, with_memory u1 e1) /\
    shows (memory_ u1) e1 /\ settled (memory_ u1) a.
Proof.
  intros He Hset. unfold compare_exchange_weak. cbn [memory_ with_memory].
  pose proof (shows_CompareExchange (memory_ u) e a n He Hset amo_address Hword Hn sp o v) as C.
  destruct (Direct.CompareExchange n sp (host (memory_ u)) a o v) as [[ok seen] h].
  destruct (Direct.CompareExchange n sp (host e) a o v) as [[ok' seen'] h']. destruct C as (<- & <- & C).
  eexists. split; [reflexivity|]. split; [exact C|exact Hset].
Qed.

Lemma shows_amo_exchange_loop signed pick c k : forall u e o, shows (memory_ u) e -> settled (memory_ u) a ->
  let '(r, u1) := amo_exchange_loop k signed n pick u a o c in
  exists e1, amo_exchange_loop k signed n pick (with_memory u e) a o c = (r, with_memory u1 e1) /\ shows (memory_ u1) e1.
Proof.
  induction k as [|k IH]; intros u e o He Hset; cbn [amo_exchange_loop];
    match goal with |- context [compare_exchange_weak signed n ?sp u a o ?v] =>
      pose proof (shows_compare_exchange_weak signed sp u e o v He Hset) as C;
      destruct (compare_exchange_weak signed n sp u a o v) as [[ok seen] u1] end;
    destruct C as (e1 & -> & He1 & Hset1); [eauto|]. destruct ok; [eauto|apply IH; assumption].
Qed.

Context (Hcas : forall u e, shows (memory_ u) e -> cas_failures P (with_memory u e) = cas_failures P u).

Lemma lockstep_AMO_pick signed pick :
  lockstep (InterpretAMO_pick P signed n pick s instr) (InterpretAMO_pick P signed n pick (with_memory s d) instr).
Proof.
  unfold InterpretAMO_pick. cbv zeta. memory_out s d. fold a. destruct (negb _); [constructor|].
  rewrite flushed_direct. fold t. memory_out t d. rewrite flushed_load, Hcas by apply flushed_shows.
  pose proof (shows_amo_exchange_loop signed pick (as_type signed n (get_xreg t (Instr.rs2 instr))) (cas_failures P t) t d
    (atomic_load signed n t a) flushed_shows flushed_settled) as L.
  destruct (amo_exchange_loop _ signed n pick t _ _ _) as [r u]. destruct L as (e & -> & He). apply lockstep_set_xreg, He.
Qed.

Lemma lockstep_LR : lockstep (InterpretLR n s instr) (InterpretLR n (with_memory s d) instr).
Proof.
  unfold InterpretLR. cbv zeta. memory_out s d. fold a. destruct (negb _); [constructor|]. rewrite !LoadOrdered_flush.
  change (memory_ (with_memory s d)) with d. destruct (shows_FlushAddress (memory_ s) d a Hs) as (-> & F & S).
  rewrite <- (shows_atomic_load (Memory.FlushAddress (memory_ s) a) d a n) by auto using amo_address.
  apply (lockstep_set_xreg (with_reserved t a (u64 (as_type true n (Direct.Load n (host (memory_ t)) a))))). exact F.
Qed.

Lemma lockstep_SC : lockstep (InterpretSC P n s instr) (InterpretSC P n (with_memory s d) instr).
Proof.
  unfold InterpretSC. cbv zeta. memory_out s d. fold a. destruct (negb _); [constructor|].
  change (reserved_address_ (with_memory s d)) with (reserved_address_ s).
  change (random_ (with_memory s d)) with (random_ s).
  destruct (negb _); [apply (lockstep_set_xreg (with_reserved s 0 (reserved_value_ s))), Hs|].
  destruct (NextUInt32 (random_ s)) as [r state].
  destruct (_ =? _); [apply (lockstep_set_xreg (with_reserved (with_random s state) 0 (reserved_value_ s))), Hs|].
  change (with_random (with_memory s d) state) with (with_memory (with_random s state) d). set (u := with_random s state).
  rewrite (Hcas u d) by exact Hs. rewrite !CompareExchange_flush. cbv zeta.
  change (memory_ (with_memory u d)) with d. change (memory_ u) with (memory_ s).
  destruct (shows_FlushAddress (memory_ s) d a Hs) as (-> & F & S). memory_out u d.
  change (reserved_value_ (with_memory u d)) with (reserved_value_ u).
  match goal with |- context [Direct.CompareExchange n ?sp (host d) a ?o ?v] =>
    pose proof (shows_CompareExchange _ d a n F S amo_address Hword Hn sp o v) as C end.
  destruct (Direct.CompareExchange n _ (host (Memory.FlushAddress _ _)) a _ _) as [[ok old] h].
  destruct (Direct.CompareExchange n _ (host d) a _ _) as [[ok' old'] h']. destruct C as (<- & <- & C).
  change (with_memory (with_memory u d) ?m) with (with_memory u m).
  set (m1 := mkMemory _ h _) in *. set (d1 := mkMemory _ h' _) in *.
  change (with_memory u d1) with (with_memory (with_memory u m1) d1). rewrite (set_xreg_with_memory (with_memory u m1) d1).
  set (x := set_xreg _ _ _). apply (lockstep_ok (with_reserved x 0 (reserved_value_ x)) d1). apply shows_set_xreg, C.
Qed.

Context (Hnocas : Instr.funct5 instr <> AMOCAS).

Lemma lockstep_AMO_common : lockstep (InterpretAMO_common P n s instr) (InterpretAMO_common P n (with_memory s d) instr).
Proof.
  unfold InterpretAMO_common, InterpretAMOSWAP, InterpretAMOADD, InterpretAMOXOR, InterpretAMOAND, InterpretAMOOR,
    InterpretAMOMIN, InterpretAMOMAX. cbv zeta.
  replace (Instr.funct5 instr =? AMOCAS) with false by lia.
  repeat match goal with |- lockstep (if ?b then _ else _) _ => destruct b end;
    lazymatch goal with
    | |- lockstep (InterpretAMO_fetch _ _ _ _) _ => apply lockstep_AMO_fetch
    | |- lockstep (InterpretAMO_pick _ _ _ _ _ _) _ => apply lockstep_AMO_pick
    | |- lockstep (InterpretLOADORDERED _ _ _) _ => apply lockstep_LOADORDERED
    | |- lockstep (InterpretSTOREORDERED _ _ _) _ => apply lockstep_STOREORDERED
    | |- _ => constructor
    end.
Qed.

End Handlers.

(** ** Vectors *)

Lemma lockstep_for_elements b1 b2 : (forall s d i, shows (memory_ s) d -> lockstep (b1 s i) (b2 (with_memory s d) i)) ->
  forall k i s d, shows (memory_ s) d -> lockstep (for_elements k i b1 s) (for_elements k i b2 (with_memory s d)).
Proof.
  intros Hb. induction k as [|k IH]; intros i s d Hs; cbn [for_elements]; [constructor; exact Hs|].
  apply lockstep_bind; [apply Hb, Hs|]. intros s' d' H'. apply IH, H'.
Qed.

Lemma lockstep_set_vreg n s d v i x : shows (memory_ s) d -> lockstep (set_vreg n s v i x) (set_vreg n (with_memory s d) v i x).
Proof.
  intros Hs. unfold set_vreg. cbv zeta. destruct (_ <=? _); [|constructor].
  apply (lockstep_ok (with_vregs s (StoreLE n (vregs_ s) (vreg_offset n v i) x))). exact Hs.
Qed.

Section Vectors.
Context (P : Platform) (s : Simulator) (d : SimulatorMemory) (Hs : shows (memory_ s) d) (instr n : Z) (Hn : access_size n).

Lemma lockstep_LOADV : lockstep (InterpretLOADV P n s instr) (InterpretLOADV P n (with_memory s d) instr).
Proof.
  unfold InterpretLOADV. cbv zeta. memory_out s d. destruct (negb _); [constructor|]. apply lockstep_for_elements; [|exact Hs].
  intros u e i He. lockstep_cases; [exact Hn|]. apply lockstep_set_vreg. assumption.
Qed.

Lemma lockstep_STOREV : lockstep (InterpretSTOREV P n s instr) (InterpretSTOREV P n (with_memory s d) instr).
Proof.
  unfold InterpretSTOREV. cbv zeta. memory_out s d. destruct (negb _); [constructor|]. apply lockstep_for_elements; [|exact Hs].
  intros u e i He. change (get_vreg n (with_memory u e)) with (get_vreg n u). apply lockstep_bind_same. intros v.
  lockstep_cases. exact Hn.
Qed.

Lemma lockstep_OPV_IVX_sew : lockstep (InterpretOPV_IVX_sew n s instr) (InterpretOPV_IVX_sew n (with_memory s d) instr).
Proof.
  unfold InterpretOPV_IVX_sew. cbv zeta. memory_out s d.
  repeat match goal with |- lockstep (if ?b then _ else _) _ => destruct b end; try constructor;
    (apply lockstep_for_elements; [|exact Hs]); intros u e i He; [|apply lockstep_set_vreg, He].
  change (get_vreg n (with_memory u e)) with (get_vreg n u). apply lockstep_bind_same. intros x. apply lockstep_set_vreg, He.
Qed.

End Vectors.

(** ** Whole instructions *)

(** What the rest of the process does the same whichever memory the simulator uses: the spurious
    failures of [compare_exchange_weak], the redirection object, and the effect of a C++ function,
    which runs when the buffer is empty. *)
Definition host_agrees (P : Platform) : Prop :=
  (forall s d, shows (memory_ s) d -> cas_failures P (with_memory s d) = cas_failures P s) /\
  (forall s d, shows (memory_ s) d -> FromECallInstruction P (with_memory s d) = FromECallInstruction P s) /\
  (forall r args s d, shows (memory_ s) d -> buffer_ (memory_ s) = [] ->
     match call_host P r args s, call_host P r args (with_memory s d) with
     | Returns t v, Returns t' v' => v' = v /\ lockstep (Ok t) (Ok t')
     | Throws t, Throws t' => lockstep (Ok t) (Ok t')
     | _, _ => False
     end).

(** The instructions the buffer is transparent to: landing pads are off (they are read from the
    process memory), and an atomic instruction is not AMOCAS and addresses a word. *)
Definition buffer_safe (s : Simulator) (instr : Z) : Prop :=
  lp_enabled_ s = false /\
  (Instr.opcode instr = AMO -> Instr.funct5 instr <> AMOCAS /\ get_xreg s (Instr.rs1 instr) mod 8 = 0).

Section Programs.
Context (P : Platform) (HP : host_agrees P).

Lemma clobber_xregs_with_memory mask d : forall k i s,
  clobber_xregs k i mask (with_memory s d) = with_memory (clobber_xregs k i mask s) d /\ memory_ (clobber_xregs k i mask s) = memory_ s.
Proof.
  induction k as [|k IH]; intros i s; cbn [clobber_xregs]; [auto|].
  change (random_ (with_memory s d)) with (random_ s). destruct (NextUInt64 (random_ s)) as [v state]. destruct (negb _); [|apply IH].
  exact (IH (i + 1) (with_random (with_xregs s (update (xregs_ s) i v)) state)).
Qed.

Lemma clobber_fregs_with_memory mask d : forall k i s,
  clobber_fregs k i mask (with_memory s d) = with_memory (clobber_fregs k i mask s) d /\ memory_ (clobber_fregs k i mask s) = memory_ s.
Proof.
  induction k as [|k IH]; intros i s; cbn [clobber_fregs]; [auto|]. destruct (negb _); [|apply IH].
  exact (IH (i + 1) (with_fregs s (update (fregs_ s) i kNaNBox))).
Qed.

Lemma clobber_vregs_with_memory d : forall k i s,
  clobber_vregs k i (with_memory s d) = with_memory (clobber_vregs k i s) d /\ memory_ (clobber_vregs k i s) = memory_ s.
Proof.
  induction k as [|k IH]; intros i s; cbn [clobber_vregs]; [auto|].
  change (random_ (with_memory s d)) with (random_ s). destruct (NextUInt64 (random_ s)) as [v state].
  exact (IH (i + 1) (with_random (with_vregs s (update (vregs_ s) i (u8 v))) state)).
Qed.

Lemma lockstep_Clobber s d : shows (memory_ s) d ->
  ClobberVolatileRegisters P (with_memory s d) = with_memory (ClobberVolatileRegisters P s) d /\
  shows (memory_ (ClobberVolatileRegisters P s)) d.
Proof.
  intros Hs. unfold ClobberVolatileRegisters. destruct (DEBUG P); [|auto]. cbv zeta.
  change (with_reserved (with_memory s d) 0 0) with (with_memory (with_reserved s 0 0) d).
  rewrite (proj1 (clobber_xregs_with_memory _ d _ _ _)), (proj1 (clobber_fregs_with_memory _ d _ _ _)), (proj1 (clobber_vregs_with_memory d _ _ _)).
  rewrite (proj2 (clobber_vregs_with_memory d _ _ _)), (proj2 (clobber_fregs_with_memory _ d _ _ _)), (proj2 (clobber_xregs_with_memory _ d _ _ _)).
  auto.
Qed.

Context (s : Simulator) (d : SimulatorMemory) (W : sim_wf s) (Hs : shows (memory_ s) d) (instr : Z).

Lemma lockstep_ECALL : lockstep (InterpretECALL P s instr) (InterpretECALL P (with_memory s d) instr).
Proof.
  unfold InterpretECALL. cbv zeta. memory_out s d. destruct (negb _); [lockstep_cases|]. destruct (negb _); [constructor|].
  change (with_memory (with_memory s d) (Memory.FlushAll (memory_ (with_memory s d)))) with (with_memory s (Memory.FlushAll d)).
  destruct (shows_FlushAll _ _ Hs) as [F B]. set (u := with_memory s (Memory.FlushAll (memory_ s))).
  change (with_memory s (Memory.FlushAll d)) with (with_memory u (Memory.FlushAll d)). set (e := Memory.FlushAll d) in *.
  change (shows (memory_ u) e) in F. destruct HP as (_ & HR & HC). rewrite (HR u e F). memory_out u e.
  set (r := FromECallInstruction P u). destruct (_ && _); [constructor|].
  replace (call_arguments (call_kind_ r) (with_memory u e)) with (call_arguments (call_kind_ r) u) by (destruct (call_kind_ r); reflexivity).
  specialize (HC r (call_arguments (call_kind_ r) u) u e F B).
  destruct (call_host P r _ u) as [v res|v], (call_host P r _ (with_memory u e)) as [v' res'|v']; try contradiction; [|exact HC].
  destruct HC as [-> L]. inversion L as [v0 e' F' E1 E2|]. subst v0 v'. destruct (lockstep_Clobber v e' F') as [-> C].
  destruct (call_kind_ r); rewrite ?set_xreg_with_memory; lockstep_leaf.
Qed.

Lemma lockstep_SYSTEM : lockstep (InterpretSYSTEM P s instr) (InterpretSYSTEM P (with_memory s d) instr).
Proof.
  unfold InterpretSYSTEM. cbv zeta. memory_out s d.
  repeat match goal with |- lockstep (if ?b then _ else _) _ => destruct b end;
    first [apply lockstep_ECALL | constructor | apply lockstep_then_advance];
    repeat match goal with |- lockstep (if ?b then _ else _) _ => destruct b end;
    lazymatch goal with
    | |- lockstep (InterpretMOP _ _ _) _ => apply lockstep_MOP; assumption
    | |- lockstep (csr_write _ _ _) _ => apply lockstep_csr_write; assumption
    | |- lockstep (csr_modify _ _ _ _ _) _ => apply lockstep_csr_modify; auto
    | |- _ => lockstep_leaf
    end.
Qed.

Context (Hsafe : buffer_safe s instr).

Lemma lockstep_AMO : Instr.opcode instr = AMO -> lockstep (InterpretAMO P s instr) (InterpretAMO P (with_memory s d) instr).
Proof.
  intros E. destruct Hsafe as [Hlp HA]. destruct (HA E) as [Hno Hw]. destruct HP as (Hcas & _).
  unfold InterpretAMO, InterpretAMO8, InterpretAMO16, InterpretAMO32, InterpretAMO64, InterpretAMO128. cbv zeta.
  apply lockstep_then_advance.
  repeat match goal with |- lockstep (if ?b then _ else _) _ => destruct b end;
    lazymatch goal with
    | |- lockstep (InterpretAMO_common _ _ _ _) _ => apply lockstep_AMO_common; auto; lia
    | |- lockstep (InterpretLR _ _ _) _ => apply lockstep_LR; auto; lia
    | |- lockstep (InterpretSC _ _ _ _) _ => apply lockstep_SC; auto; lia
    | |- _ => constructor
    end.
Qed.

Lemma lockstep_LOADFP : lockstep (InterpretLOADFP P s instr) (InterpretLOADFP P (with_memory s d) instr).
Proof. unfold InterpretLOADFP. lockstep_cases; apply lockstep_LOADV; try lockstep_leaf; assumption. Qed.

Lemma lockstep_STOREFP : lockstep (InterpretSTOREFP P s instr) (InterpretSTOREFP P (with_memory s d) instr).
Proof. unfold InterpretSTOREFP. lockstep_cases; apply lockstep_STOREV; try lockstep_leaf; assumption. Qed.

Lemma lockstep_OPV_CFG : lockstep (InterpretOPV_CFG s instr) (InterpretOPV_CFG (with_memory s d) instr).
Proof.
  unfold InterpretOPV_CFG. cbv zeta. memory_out s d. destruct (negb _); [constructor|].
  apply lockstep_bind_same. intros sew. apply lockstep_bind_same. intros lmul.
  match goal with |- lockstep (Ok (set_xreg (with_vl s ?l ?t) ?r ?v)) _ => apply (lockstep_set_xreg (with_vl s l t) d r v) end. exact Hs.
Qed.

Lemma lockstep_OPV : lockstep (InterpretOPV s instr) (InterpretOPV (with_memory s d) instr).
Proof.
  unfold InterpretOPV, InterpretOPV_IVX. cbv zeta. memory_out s d. apply lockstep_then_advance.
  repeat match goal with |- lockstep (if ?b then _ else _) _ => destruct b end;
    first [apply lockstep_OPV_CFG | apply lockstep_OPV_IVX_sew; assumption | constructor].
Qed.

Lemma lockstep_Interpret : lockstep (Interpret P s instr) (Interpret P (with_memory s d) instr).
Proof.
  destruct Hsafe as [Hlp _]. unfold Interpret. cbv zeta.
  repeat match goal with |- lockstep (if ?b then _ else _) _ => let E := fresh "E" in destruct b eqn:E; [apply Z.eqb_eq in E|clear E] end;
    lazymatch goal with
    | |- lockstep (Stop _) _ => constructor
    | |- lockstep (InterpretLUI _ _) _ => apply lockstep_LUI, Hs
    | |- lockstep (InterpretAUIPC _ _) _ => apply lockstep_AUIPC, Hs
    | |- lockstep (InterpretJAL _ _) _ => apply lockstep_JAL, Hs
    | |- lockstep (InterpretJALR _ _) _ => apply lockstep_JALR; assumption
    | |- lockstep (InterpretBRANCH _ _) _ => apply lockstep_BRANCH, Hs
    | |- lockstep (InterpretLOAD _ _ _) _ => apply lockstep_LOAD, Hs
    | |- lockstep (InterpretSTORE _ _ _) _ => apply lockstep_STORE, Hs
    | |- lockstep (InterpretOPIMM _ _) _ => apply lockstep_OPIMM, Hs
    | |- lockstep (InterpretOPIMM32 _ _) _ => apply lockstep_OPIMM32, Hs
    | |- lockstep (InterpretOP _ _) _ => apply lockstep_OP, Hs
    | |- lockstep (InterpretOP32 _ _) _ => apply lockstep_OP32, Hs
    | |- lockstep (InterpretMISCMEM _ _) _ => apply lockstep_MISCMEM, Hs
    | |- lockstep (InterpretSYSTEM _ _ _) _ => apply lockstep_SYSTEM
    | |- lockstep (InterpretAMO _ _ _) _ => apply lockstep_AMO; assumption
    | |- lockstep (InterpretLOADFP _ _ _) _ => apply lockstep_LOADFP
    | |- lockstep (InterpretSTOREFP _ _ _) _ => apply lockstep_STOREFP
    | |- lockstep (InterpretOPFP _ _ _) _ => apply lockstep_OPFP, Hs
    | |- lockstep (InterpretOPV _ _) _ => apply lockstep_OPV
    | |- lockstep (?op _ _ _) _ => unfold op; apply lockstep_fused, Hs
    end.
Qed.

End Programs.

(** ** Programs *)

(** The code at [pc_] has left the buffer: the process memory, where code is fetched, shows it. *)
Definition code_settled (s : Simulator) : Prop :=
  forall k, 0 <= k < 4 -> u8 (host (memory_ s) (u64 (pc_ s + k))) = u8 (memory_view (memory_ s) (u64 (pc_ s + k))).

(** The next instruction is one the buffer is transparent to. *)
Definition buffer_transparent (s : Simulator) : Prop :=
  code_settled s /\ buffer_safe s (LoadLE 4 (host (memory_ s)) (pc_ s)).

Lemma LoadLE_bytes n h h' a : (forall k, 0 <= k < Z.of_nat n -> u8 (h (u64 (a + k))) = u8 (h' (u64 (a + k)))) -> LoadLE n h a = LoadLE n h' a.
Proof.
  intros H. apply (eq_by_bytes (Z.of_nat n)); [lia|apply LoadLE_range|apply LoadLE_range|].
  intros k Hk. rewrite !byte_of_LoadLE by exact Hk. apply H, Hk.
Qed.

Lemma fetch_direct s d n : shows (memory_ s) d -> code_settled s -> (n <= 4)%nat ->
  LoadLE n (host d) (pc_ s) = LoadLE n (host (memory_ s)) (pc_ s).
Proof.
  intros (_ & _ & _ & V) C Hn. apply LoadLE_bytes. intros k Hk. rewrite (C k) by lia. symmetry. apply V, uN_range. lia.
Qed.

Lemma lockstep_step P s d : host_agrees P -> sim_wf s -> shows (memory_ s) d -> buffer_transparent s ->
  lockstep (step P s) (step P (with_memory s d)).
Proof.
  intros HP W Hs [C Hsafe]. unfold step. cbv zeta. cbn [memory_ with_memory pc_].
  rewrite !(fetch_direct s d) by (assumption || lia). apply lockstep_bind.
  - destruct (IsCInstruction _); [apply lockstep_Interpret_C; try assumption; apply Hsafe|apply lockstep_Interpret; assumption].
  - intros u e He. apply (lockstep_ok (with_instret u (u64 (instret_ u + 1))) e). exact He.
Qed.

Lemma lockstep_run P (HP : host_agrees P) (HK : host_keeps P) n : forall s d, sim_wf s -> shows (memory_ s) d ->
  (forall k t, (k < n)%nat -> run P k s = Ok t -> buffer_transparent t) ->
  lockstep (run P n s) (run P n (with_memory s d)).
Proof.
  induction n as [|n IH]; intros s d W Hs Ht; cbn [run]; [constructor; exact Hs|].
  pose proof (good_step P HK s W) as G. pose proof (lockstep_step P s d HP W Hs (Ht O s ltac:(lia) eq_refl)) as L.
  inversion L as [t e He E1 E2|r E1 E2]; cbn [bind]; [|constructor]. rewrite <- E1 in G. apply IH; [exact G|exact He|].
  intros k u Hk Hu. apply (Ht (S k)); [lia|]. cbn [run]. rewrite <- E1. exact Hu.
Qed.

(** C16. The store buffer is invisible to programs.  Run any number of instructions of any program,
    floating point, vectors, atomics and calls into C++ included, on a simulator with the store buffer
    and on one that accesses the process memory directly and holds what the first one sees: they stop
    for the same reason or reach states that agree on everything but the memory object, the direct one
    again holding what the buffered one sees.  Required of the program: it does not execute code that is
    still in the buffer, its atomic instructions address whole words and are not AMOCAS, and landing
    pads are off. *)
Theorem buffered_program_refines_direct P n s d : host_agrees P -> host_keeps P -> sim_wf s -> shows (memory_ s) d ->
  (forall k t, (k < n)%nat -> run P k s = Ok t -> buffer_transparent t) ->
  match run P n s, run P n (with_memory s d) with
  | Ok t, Ok t' => exists d', t' = with_memory t d' /\ shows (memory_ t) d'
  | Stop r, Stop r' => r = r'
  | _, _ => False
  end.
Proof.
  intros HP HK W Hs Ht. destruct (lockstep_run P HP HK n s d W Hs Ht) as [t e He|r]; eauto.
Qed.

(** A word in the buffer, read through it. *)
Lemma LoadLE_buffered h a v : is_uN 64 a -> a mod 8 = 0 -> is_uN 64 v -> LoadLE 8 (view h [mkEntry a v]) a = v.
Proof.
  intros Ha Hw Hv. apply (eq_by_bytes 8); [lia|apply (LoadLE_range 8)|exact Hv|].
  intros k Hk. rewrite (byte_of_LoadLE 8) by exact Hk. rewrite view_inside, lookup_cons by assumption.
  cbn [addr value]. rewrite Z.eqb_refl. apply u8_byte_of.
Qed.

(** What AMOCAS does to the process memory, whatever the buffer holds. *)
Lemma AMOCAS_host P s instr : let a := get_xreg s (Instr.rs1 instr) in let old := LoadLE 8 (host (memory_ s)) a in
  sim_wf s -> a mod 8 = 0 -> Instr.rd instr <> 0 -> cas_failures P s = 0%nat ->
  exists t, InterpretAMOCAS P 8 s instr = Ok t /\ get_xreg t (Instr.rd instr) = old /\
    host (memory_ t) = if old =? get_xreg s (Instr.rd instr) then StoreLE 8 (host (memory_ s)) a (s64 (get_xreg s (Instr.rs2 instr)))
                       else host (memory_ s).
Proof.
  cbv zeta. intros W Hw Hrd Hc. unfold InterpretAMOCAS. cbv zeta. set (a := get_xreg s (Instr.rs1 instr)) in *.
  replace (a .& (8 - 1)) with 0 by (change (8 - 1) with (Z.ones 3); rewrite Z.land_ones by lia; symmetry; exact Hw).
  cbn [Z.eqb negb]. rewrite Hc. cbn [Nat.eqb negb]. unfold compare_exchange_weak, Direct.CompareExchange, Direct.Load, Direct.Store.
  cbv zeta. change (Z.to_nat 8) with 8%nat. change (as_type true 8) with s64. change (uN (8 * 8)) with u64.
  pose proof (wf_get_xreg s (Instr.rd instr) W (reg_field _ _)) as Hv. rewrite (uN_sN 64), (uN_small 64 (get_xreg s _)), andb_true_r by (assumption || lia).
  pose proof (LoadLE_range 8 (host (memory_ s)) a) as Hr. change (8 * Z.of_nat 8) with 64 in Hr.
  assert (Hget : forall u x, is_uN 64 x -> get_xreg (set_xreg u (Instr.rd instr) (s64 x)) (Instr.rd instr) = x).
  { intros u x Hx. unfold get_xreg. rewrite set_xreg_regs. unfold set_reg, update. replace (Instr.rd instr =? 0) with false by lia.
    rewrite Z.eqb_refl, (uN_sN 64), uN_small by (assumption || lia). reflexivity. }
  destruct (_ =? get_xreg s _) eqn:E; eexists; (split; [reflexivity|]); rewrite Hget, memory_set_xreg by assumption; split; try reflexivity. lia.
Qed.

(** AMOCAS does not see the buffer: it compares with the process memory without flushing the word
    first.  After a store of [v] to a word that held something else, a compare-and-swap that expects [v]
    fails, reports the old contents and stores nothing, where the same instruction on direct memory finds
    [v] and stores. *)
Theorem amocas_misses_buffer P s d instr h : sim_wf s ->
  let a := get_xreg s (Instr.rs1 instr) in
  let v := get_xreg s (Instr.rd instr) in
  memory_ s = mkMemory true h [mkEntry a v] -> shows (memory_ s) d -> a mod 8 = 0 -> Instr.rd instr <> 0 -> LoadLE 8 h a <> v ->
  cas_failures P s = 0%nat -> cas_failures P (with_memory s d) = 0%nat ->
  exists t t', InterpretAMOCAS P 8 s instr = Ok t /\ InterpretAMOCAS P 8 (with_memory s d) instr = Ok t' /\
    get_xreg t (Instr.rd instr) = LoadLE 8 h a /\ host (memory_ t) = h /\
    get_xreg t' (Instr.rd instr) = v /\ host (memory_ t') = StoreLE 8 (host d) a (s64 (get_xreg s (Instr.rs2 instr))).
Proof.
  intros W a v Em Hs Hw Hrd Hold C1 C2.
  assert (W' : sim_wf (with_memory s d)) by (apply wf_with_memory; [exact W|apply (shows_wf _ _ Hs)]).
  assert (L : LoadLE 8 (host d) a = v).
  { destruct Hs as (_ & _ & _ & V). rewrite <- V, Em. apply LoadLE_buffered; try exact Hw; (apply wf_get_xreg; [exact W|apply reg_field]). }
  destruct (AMOCAS_host P s instr W Hw Hrd C1) as (t & E & R & M). destruct (AMOCAS_host P (with_memory s d) instr W' Hw Hrd C2) as (t' & E' & R' & M').
  exists t, t'. change (get_xreg (with_memory s d)) with (get_xreg s) in R', M'.
  change (memory_ (with_memory s d)) with d in R', M'. fold a in R, R'. fold a v in M, M'.
  rewrite Em in R, M. cbn [host] in R, M. replace (LoadLE 8 h a =? v) with false in M by lia.
  rewrite L in R', M'. rewrite Z.eqb_refl in M'. auto 10.
Qed.

(** ** Witnesses *)

Lemma plain_platform_agrees : host_agrees plain_platform.
Proof. repeat split; auto. apply lockstep_ok. assumption. Qed.

(** A state with a store buffer, code at [0x1000], [A0] pointing to [0x2000] and [A1 = 7]. *)
Definition sample (code : Host) (buf : Buffer) : Simulator :=
  mkSimulator 0x1000 (fun r => if r =? A0 then 0x2000 else if r =? A1 then 7 else 0) 0 0 0 (fun _ => 0) 0 false false 0
    (fun _ => 0) 0 0 0 1 (mkMemory true code buf).

Lemma sample_wf code buf : wf_buffer buf -> sim_wf (sample code buf).
Proof.
  intros B. split; try (repeat split; cbn; lia); [|vm_compute; split; discriminate|split; [exact B|discriminate]].
  split; [reflexivity|]. intros r _. cbn. destruct (r =? 10); [split; lia|]. destruct (r =? 11); split; lia.
Qed.

(** [buffer_transparent], decided. *)
Definition buffer_transparentb (s : Simulator) : bool :=
  let h := host (memory_ s) in
  let instr := LoadLE 4 h (pc_ s) in
  forallb (fun k => u8 (h (u64 (pc_ s + k))) =? u8 (memory_view (memory_ s) (u64 (pc_ s + k)))) [0; 1; 2; 3] &&
  negb (lp_enabled_ s) &&
  (negb (Instr.opcode instr =? AMO) || (negb (Instr.funct5 instr =? AMOCAS) && (get_xreg s (Instr.rs1 instr) mod 8 =? 0))).

Lemma buffer_transparentb_ok s : buffer_transparentb s = true -> buffer_transparent s.
Proof.
  unfold buffer_transparentb. cbv zeta. rewrite !andb_true_iff, forallb_forall. intros [[C L] A]. split; [|split].
  - intros k Hk. apply Z.eqb_eq, C. cbn. lia.
  - destruct (lp_enabled_ s); [discriminate|reflexivity].
  - intros E. rewrite E, Z.eqb_refl in A. cbn [negb orb] in A. lia.
Qed.

(** [sd a1, 0(a0); ld a2, 0(a0)]. *)
Definition store_load : Host := StoreLE 4 (StoreLE 4 (fun _ => 0) 0x1000 0xB53023) 0x1004 0x53603.

Lemma buffered_program_refines_direct_witness :
  let s := sample store_load [] in
  let d := mkMemory false store_load [] in
  shows (memory_ s) d /\
  match run plain_platform 2 s, run plain_platform 2 (with_memory s d) with
  | Ok t, Ok t' => get_xreg t 12 = 7 /\ exists d', t' = with_memory t d' /\ shows (memory_ t) d'
  | Stop r, Stop r' => r = r'
  | _, _ => False
  end.
Proof.
  assert (Hs : shows (memory_ (sample store_load [])) (mkMemory false store_load [])).
  { split; [split; [apply wf_buffer_nil|discriminate]|split; [reflexivity|split; [reflexivity|apply view_nil]]]. }
  split; [exact Hs|].
  pose proof (buffered_program_refines_direct plain_platform 2 _ _ plain_platform_agrees (fun _ _ _ W => W) (sample_wf store_load [] wf_buffer_nil) Hs) as T.
  assert (Ht : forall k t, (k < 2)%nat -> run plain_platform k (sample store_load []) = Ok t -> buffer_transparent t).
  { intros k t Hk E. apply buffer_transparentb_ok.
    assert (C : match run plain_platform k (sample store_load []) with Ok t => buffer_transparentb t = true | Stop _ => True end)
      by (destruct k as [|[|k]]; [vm_compute; reflexivity|vm_compute; reflexivity|lia]).
    rewrite E in C. exact C. }
  specialize (T Ht). clear Hs Ht. revert T.
  assert (G : match run plain_platform 2 (sample store_load []) with Ok t => get_xreg t 12 = 7 | Stop _ => False end) by (vm_compute; reflexivity).
  revert G. generalize (run plain_platform 2 (sample store_load [])),
    (run plain_platform 2 (with_memory (sample store_load []) (mkMemory false store_load []))).
  intros [t|r] [t'|r'] G T; [exact (conj G T)|exact T|destruct G|destruct G].
Defined.

(** The word at [0x2000] holds 7 in the buffer and 0 in the process memory; [amocas.d a1, a2, (a0)]. *)
Lemma amocas_misses_buffer_witness :
  let s := sample (fun _ => 0) [mkEntry 0x2000 7] in
  let d := mkMemory false (view (fun _ => 0) [mkEntry 0x2000 7]) [] in
  exists t t', InterpretAMOCAS plain_platform 8 s 0x28c535af = Ok t /\ InterpretAMOCAS plain_platform 8 (with_memory s d) 0x28c535af = Ok t' /\
    get_xreg t A1 = 0 /\ get_xreg t' A1 = 7.
Proof.
  assert (B : wf_buffer [mkEntry 0x2000 7]) by (repeat split; repeat constructor; cbn; auto; lia).
  destruct (amocas_misses_buffer plain_platform (sample (fun _ => 0) [mkEntry 0x2000 7]) (mkMemory false (view (fun _ => 0) [mkEntry 0x2000 7]) [])
    0x28c535af (fun _ => 0) (sample_wf _ _ B)) as (t & t' & E & E' & R & _ & R' & _); try reflexivity; try discriminate.
  - split; [split; [exact B|discriminate]|split; [reflexivity|split; [reflexivity|]]]. cbn [host]. reflexivity.
  - exists t, t'. split; [exact E|split; [exact E'|split; [exact R|exact R']]].
Defined.
