(* ===== verification/RvCompressed.v ===== *)
(** * The 16-bit instructions

    Each [c_*] emitter of the integer instructions, when its assertions hold,
    appends a halfword that the simulator decodes to the operands given and
    executes as the instruction's function. *)

From Stdlib Require Import ZArith Lia ZifyBool Bool List.
From S2P Require Import Prelude Bits Utils RvEncoding RvEncodingProofs RvAlu SimMemory Outcome RvFloat RvSimulator RvAssembler RvExec.
Import ListNotations.
Import MicroAssembler(Supports).

(** ** Automation *)

Ltac learn_primes :=
  repeat match goal with
  | H : IsCRs1p ?r = true |- _ => change (IsRegPrime r = true) in H
  | H : IsCRs2p ?r = true |- _ => change (IsRegPrime r = true) in H
  | H : IsCRdp ?r = true |- _ => change (IsRegPrime r = true) in H
  end;
  repeat match goal with
  | H : IsRegPrime ?r = true |- _ =>
      lazymatch goal with
      | _ : (r .& 7) + 8 = r |- _ => fail
      | _ => destruct (regprime_range r H) as (? & ? & ?)
      end
  end.

Ltac c_unfold :=
  unfold CInstr.opcode, CInstr.rd, CInstr.rs1, CInstr.rs2, CInstr.rdp, CInstr.rs1p, CInstr.rs2p, CInstr.i_imm,
    CInstr.i16_imm, CInstr.i4spn_imm, CInstr.u_imm, CInstr.shamt, CInstr.spload4_imm, CInstr.spload8_imm,
    CInstr.spstore4_imm, CInstr.spstore8_imm, CInstr.mem1_imm, CInstr.mem2_imm, CInstr.mem4_imm, CInstr.mem8_imm,
    DecodeCRd, DecodeCRs1, DecodeCRs2, DecodeCRdp, DecodeCRs1p, DecodeCRs2p, DecodeRegField, DecodeRegPrime,
    DecodeCIImm, DecodeCI16Imm, DecodeCI4SPNImm, DecodeCUImm, DecodeCShamt, DecodeCSPLoad4Imm, DecodeCSPLoad8Imm,
    DecodeCSPStore4Imm, DecodeCSPStore8Imm, DecodeCMem1Imm, DecodeCMem2Imm, DecodeCMem4Imm, DecodeCMem8Imm.

(** Reads a field of a compressed word: [bits_solve] on the field's bits. *)
Ltac c_field := c_unfold; rewrite ?SignExtend_sN by lia; bits_solve.
Ltac c_prime := c_unfold;
  match goal with
  | H : (?r .& 7) + 8 = ?r |- _ + 8 = ?r => rewrite <- H at 2; f_equal; bits_solve
  end.

Ltac c_encode :=
  unfold EncodeCRd, EncodeCRs1, EncodeCRs2, EncodeCRdp, EncodeCRs1p, EncodeCRs2p;
  rewrite ?EncodeRegField_ok, ?EncodeRegPrime_ok by assumption; cbn [option_lor].

Lemma Supports_with_buffer b a x : Supports (with_buffer b a) x = Supports a x.
Proof. reflexivity. Qed.

(** Evaluates the assertions and guards of an emitter with the facts of the context. *)
Ltac head_of t := lazymatch t with ?f _ => head_of f | _ => t end.
Ltac eval_guards :=
  rewrite ?Supports_with_buffer, ?Z.eqb_refl;
  repeat match goal with
  | H : ?x = true |- context [?x] => rewrite H
  | H : ?x = false |- context [?x] => rewrite H
  end; cbn [negb andb].

Ltac open_head :=
  match goal with |- ?t = _ => let h := head_of t in try unfold h end; cbv beta;
  unfold EncodeCIImm, EncodeCUImm, EncodeCI16Imm, EncodeCI4SPNImm, EncodeCShamt; eval_guards.

(** Opens an emitter: its assertions hold and its fields are encoded. *)
Ltac open_emitter a :=
  eapply implements_emit; [let b := fresh "b" in intros b; open_head; c_encode; reflexivity|].

(** Opens an emitter up to its first choice of form: one goal per branch. *)
Ltac learn_bools :=
  repeat match goal with
  | H : _ && _ = true |- _ => apply andb_true_iff in H; destruct H
  | H : negb _ = true |- _ => apply negb_true_iff in H
  | H : (_ =? _) = true |- _ => apply Z.eqb_eq in H
  end; subst.
Ltac emit_if a :=
  eapply implements_if;
  [let b := fresh "b" in intros b; open_head;
   match goal with
   | |- (if ?c then ?x else ?y) = (if ?c0 then ?e1 _ else ?e2 _) =>
       unify c0 c;
       match eval pattern (with_buffer b a) in x with ?fx _ => unify e1 fx end;
       match eval pattern (with_buffer b a) in y with ?fy _ => unify e2 fy end;
       reflexivity
   end
  |let G := fresh "G" in intros G; learn_bools
  |let G := fresh "G" in intros G].

Ltac low_bits c := match goal with |- (?e =? 3) = false => assert (e = c) as -> by c_field; reflexivity end.

Ltac casts := unfold sign_extend; autorewrite with cint; try reflexivity.

Ltac set_word e :=
  match goal with |- RvExec.implements _ _ (MicroAssembler.Emit16 (Some ?w)) _ => set (e := w) end.
Ltac word_facts e := subst e; split; [first [low_bits 0|low_bits 1|low_bits 2]|first [c_prime|c_field]..].

Section Compressed.
Context (P : Platform).

Abbreviation implements := (RvExec.implements P).

(** ** Compressed words *)

Lemma Interpret_C_MISCALU s e : CInstr.opcode e = C_MISCALU ->
  Interpret_C P s e = then_advance (InterpretC_MISCALU s e) 2.
Proof. intros H; unfold Interpret_C; rewrite H; reflexivity. Qed.
Lemma Interpret_C_LUI s e : CInstr.opcode e = C_LUI ->
  Interpret_C P s e = then_advance (InterpretC_LUI P s e) 2.
Proof. intros H; unfold Interpret_C; rewrite H; reflexivity. Qed.
Lemma Interpret_C_JR s e : CInstr.opcode e = C_JR ->
  Interpret_C P s e = let! r := InterpretC_JR s e in match r with inl s => Ok (advance s CInstr.length) | inr s => Ok s end.
Proof. intros H; unfold Interpret_C; rewrite H; reflexivity. Qed.
Lemma Interpret_C_LI s e : CInstr.opcode e = C_LI -> (CInstr.rd e =? ZR) = false ->
  Interpret_C P s e = Ok (advance (set_xreg s (CInstr.rd e) (sign_extend 64 (CInstr.i_imm e))) 2).
Proof. intros H H'; unfold Interpret_C; rewrite H, H'; reflexivity. Qed.
Lemma Interpret_C_ADDI s e : CInstr.opcode e = C_ADDI ->
  Interpret_C P s e = Ok (advance (set_xreg s (CInstr.rd e) (get_xreg s (CInstr.rs1 e) + CInstr.i_imm e)) 2).
Proof. intros H; unfold Interpret_C; rewrite H; reflexivity. Qed.
Lemma Interpret_C_ADDIW s e : CInstr.opcode e = C_ADDIW ->
  Interpret_C P s e = Ok (advance (set_xreg s (CInstr.rd e)
    (sign_extend 32 (u32 (u32 (get_xreg s (CInstr.rs1 e)) + u32 (CInstr.i_imm e))))) 2).
Proof. intros H; unfold Interpret_C; rewrite H; reflexivity. Qed.
Lemma Interpret_C_ADDI4SPN s e : CInstr.opcode e = C_ADDI4SPN -> (CInstr.i4spn_imm e =? 0) = false ->
  Interpret_C P s e = Ok (advance (set_xreg s (CInstr.rdp e) (get_xreg s SP + CInstr.i4spn_imm e)) 2).
Proof. intros H H'; unfold Interpret_C; rewrite H, H'; reflexivity. Qed.
Lemma Interpret_C_SLLI s e : CInstr.opcode e = C_SLLI -> (CInstr.rd e =? ZR) = false ->
  Interpret_C P s e = Ok (advance (set_xreg s (CInstr.rd e) (get_xreg s (CInstr.rs1 e) << CInstr.shamt e)) 2).
Proof. intros H H'; unfold Interpret_C; rewrite H, H'; reflexivity. Qed.

(** A 16-bit emission whose word [e] the simulator executes as a write to [rd]. *)
Lemma implements_16 a w rd f :
  (u16 w .& 3 =? 3) = false ->
  (forall s, wf_regs (xregs_ s) ->
     exists v, Interpret_C P s (u16 w) = Ok (advance (set_xreg s rd v) 2) /\ u64 v = u64 (f (xregs_ s))) ->
  implements a (MicroAssembler.Emit16 (Some w)) (writes rd f).
Proof.
  intros H3 H b; exists (le_bytes 2 (u16 w)); split; [reflexivity|].
  apply executes_16; [apply uN_range; lia|apply Z.eqb_neq, H3|exact H].
Qed.

Record is_ca (e op rs1 rs2 : Z) : Prop := mkCa {
  ca_low : (e .& 3 =? 3) = false;
  ca_opcode : CInstr.opcode e = C_MISCALU;
  ca_group : e .& C_MISCALU_MASK = C_RR;
  ca_op : e .& C_RR_MASK = op;
  ca_rs1 : CInstr.rs1p e = rs1;
  ca_rs2 : CInstr.rs2p e = rs2
}.

Lemma ca_word op rs1 rs2 : In op [C_SUB; C_XOR; C_OR; C_AND; C_SUBW; C_ADDW; C_MUL] ->
  IsCRs1p rs1 = true -> IsCRs2p rs2 = true ->
  is_ca (u16 (op .| u32 ((u32 rs1 .& 7) << 7) .| u32 ((u32 rs2 .& 7) << 2))) op rs1 rs2.
Proof.
  intros Hop H1 H2; learn_primes.
  repeat (destruct Hop as [<-|Hop]; [split; [low_bits 1|c_field|c_field|c_field|c_prime|c_prime]|]).
  destruct Hop.
Qed.

Lemma ca_implements a op rs1 rs2 f : In op [C_SUB; C_XOR; C_OR; C_AND; C_SUBW; C_ADDW; C_MUL] ->
  IsCRs1p rs1 = true -> IsCRs2p rs2 = true ->
  (forall s e, is_ca e op rs1 rs2 -> wf_regs (xregs_ s) ->
     exists v, InterpretC_MISCALU s e = Ok (set_xreg s rs1 v) /\ u64 v = u64 (f (xregs_ s rs1) (xregs_ s rs2))) ->
  implements a (MicroAssembler.Emit16 (Some (op .| u32 ((u32 rs1 .& 7) << 7) .| u32 ((u32 rs2 .& 7) << 2))))
    (writes rs1 (fun r => f (r rs1) (r rs2))).
Proof.
  intros Hop H1 H2 H. pose proof (ca_word op rs1 rs2 Hop H1 H2) as Hw.
  apply implements_16; [exact (ca_low _ _ _ _ Hw)|]. intros s W.
  destruct (H s _ Hw W) as (v & Hv & E). exists v. split; [|exact E].
  rewrite Interpret_C_MISCALU, Hv by exact (ca_opcode _ _ _ _ Hw). reflexivity.
Qed.

Ltac ca_interp :=
  intros s e [Hl Hop Hg Hr Hrs1 Hrs2] W; eexists; split;
  [unfold InterpretC_MISCALU; rewrite Hg, Hr, Hrs1, Hrs2; reflexivity|unfold get_xreg].

Ltac ca_solve a f :=
  intros; learn_primes; open_emitter a; apply (ca_implements a _ _ _ f); [cbn; tauto|assumption|assumption|ca_interp].

Lemma c_and_ok a rd rs2 : Supports a RV_C = true -> IsCRs1p rd = true -> IsCRs2p rs2 = true ->
  implements a (MicroAssembler.c_and rd rd rs2) (writes rd (fun r => r rd .& r rs2)).
Proof. ca_solve a Z.land. reflexivity. Qed.

Lemma c_or_ok a rd rs2 : Supports a RV_C = true -> IsCRs1p rd = true -> IsCRs2p rs2 = true ->
  implements a (MicroAssembler.c_or rd rd rs2) (writes rd (fun r => r rd .| r rs2)).
Proof. ca_solve a Z.lor. reflexivity. Qed.
Lemma c_xor_ok a rd rs2 : Supports a RV_C = true -> IsCRs1p rd = true -> IsCRs2p rs2 = true ->
  implements a (MicroAssembler.c_xor rd rd rs2) (writes rd (fun r => r rd .^ r rs2)).
Proof. ca_solve a Z.lxor. reflexivity. Qed.
Lemma c_sub_ok a rd rs2 : Supports a RV_C = true -> IsCRs1p rd = true -> IsCRs2p rs2 = true ->
  implements a (MicroAssembler.c_sub rd rd rs2) (writes rd (fun r => r rd - r rs2)).
Proof. ca_solve a Z.sub. reflexivity. Qed.
Lemma c_addw_ok a rd rs2 : Supports a RV_C = true -> IsCRs1p rd = true -> IsCRs2p rs2 = true ->
  implements a (MicroAssembler.c_addw rd rd rs2) (writes rd (fun r => s32 (r rd + r rs2))).
Proof. ca_solve a (fun x y => s32 (x + y)). f_equal; apply uN_eq_sN; casts. Qed.
Lemma c_subw_ok a rd rs2 : Supports a RV_C = true -> IsCRs1p rd = true -> IsCRs2p rs2 = true ->
  implements a (MicroAssembler.c_subw rd rd rs2) (writes rd (fun r => s32 (r rd - r rs2))).
Proof. ca_solve a (fun x y => s32 (x - y)). f_equal; apply uN_eq_sN; casts. Qed.
Lemma c_mul_ok a rd rs2 : Supports a RV_Zcb = true -> Supports a RV_M = true ->
  IsCRs1p rd = true -> IsCRs2p rs2 = true ->
  implements a (MicroAssembler.c_mul rd rd rs2) (writes rd (fun r => r rd * r rs2)).
Proof. ca_solve a Z.mul. unfold mul; casts. Qed.

(** Unary operations of Zcb. *)
Record is_cext (e op rs1 : Z) : Prop := mkCext {
  cext_low : (e .& 3 =? 3) = false;
  cext_opcode : CInstr.opcode e = C_MISCALU;
  cext_group : e .& C_MISCALU_MASK = C_RR;
  cext_rr : e .& C_RR_MASK = C_EXT;
  cext_op : e .& C_EXT_MASK = op;
  cext_rs1 : CInstr.rs1p e = rs1
}.

Lemma cext_word op rs1 : In op [C_ZEXTB; C_SEXTB; C_ZEXTH; C_SEXTH; C_ZEXTW; C_NOT] -> IsCRs1p rs1 = true ->
  is_cext (u16 (op .| u32 ((u32 rs1 .& 7) << 7))) op rs1.
Proof.
  intros Hop H1; learn_primes.
  repeat (destruct Hop as [<-|Hop]; [split; [low_bits 1|c_field|c_field|c_field|c_field|c_prime]|]).
  destruct Hop.
Qed.

Lemma cext_implements a op rs1 f : In op [C_ZEXTB; C_SEXTB; C_ZEXTH; C_SEXTH; C_ZEXTW; C_NOT] ->
  IsCRs1p rs1 = true ->
  (forall s e, is_cext e op rs1 -> wf_regs (xregs_ s) ->
     exists v, InterpretC_MISCALU s e = Ok (set_xreg s rs1 v) /\ u64 v = u64 (f (xregs_ s rs1))) ->
  implements a (MicroAssembler.Emit16 (Some (op .| u32 ((u32 rs1 .& 7) << 7)))) (writes rs1 (fun r => f (r rs1))).
Proof.
  intros Hop H1 H. pose proof (cext_word op rs1 Hop H1) as Hw.
  apply implements_16; [exact (cext_low _ _ _ Hw)|]. intros s W.
  destruct (H s _ Hw W) as (v & Hv & E). exists v. split; [|exact E].
  rewrite Interpret_C_MISCALU, Hv by exact (cext_opcode _ _ _ Hw). reflexivity.
Qed.

Ltac cext_solve a f :=
  intros; learn_primes; open_emitter a; apply (cext_implements a _ _ f); [cbn; tauto|assumption|];
  intros s e [Hl Hop Hg Hr He Hrs1] W; eexists; split;
  [unfold InterpretC_MISCALU; rewrite Hg, Hr, He, Hrs1; reflexivity|unfold get_xreg].

Lemma c_zextb_ok a rd : Supports a RV_Zcb = true -> IsCRs1p rd = true ->
  implements a (MicroAssembler.c_zextb rd rd) (writes rd (fun r => r rd .& 0xFF)).
Proof. cext_solve a (fun x => x .& 0xFF). unfold zextb, XLEN; bits_solve. Qed.
Lemma c_sextb_ok a rd : Supports a RV_Zcb = true -> Supports a RV_Zbb = true -> IsCRs1p rd = true ->
  implements a (MicroAssembler.c_sextb rd rd) (writes rd (fun r => s8 (r rd))).
Proof. cext_solve a (sN 8). unfold sextb, XLEN; bits_solve. Qed.
Lemma c_zexth_ok a rd : Supports a RV_Zcb = true -> Supports a RV_Zbb = true -> IsCRs1p rd = true ->
  implements a (MicroAssembler.c_zexth rd rd) (writes rd (fun r => u16 (r rd))).
Proof. cext_solve a (uN 16). unfold zexth, XLEN; bits_solve. Qed.
Lemma c_sexth_ok a rd : Supports a RV_Zcb = true -> Supports a RV_Zbb = true -> IsCRs1p rd = true ->
  implements a (MicroAssembler.c_sexth rd rd) (writes rd (fun r => s16 (r rd))).
Proof. cext_solve a (sN 16). unfold sexth, XLEN; bits_solve. Qed.
Lemma c_zextw_ok a rd : Supports a RV_Zcb = true -> Supports a RV_Zba = true -> IsCRs1p rd = true ->
  implements a (MicroAssembler.c_zextw rd rd) (writes rd (fun r => u32 (r rd))).
Proof. cext_solve a (uN 32). unfold zextw, XLEN; bits_solve. Qed.
Lemma c_not_ok a rd : Supports a RV_Zcb = true -> IsCRs1p rd = true ->
  implements a (MicroAssembler.c_not rd rd) (writes rd (fun r => Z.lnot (r rd))).
Proof. cext_solve a Z.lnot. apply uN_uN. Qed.

(** Moves and additions of full registers. *)
Record is_cr (e b rd rs2 : Z) : Prop := mkCr {
  cr_low : (e .& 3 =? 3) = false;
  cr_opcode : CInstr.opcode e = C_JR;
  cr_bit : e .& (C_JALR .^ C_JR) = b;
  cr_rd : CInstr.rd e = rd;
  cr_rs1 : CInstr.rs1 e = rd;
  cr_rs2 : CInstr.rs2 e = rs2
}.

Lemma c_mv_ok a rd rs2 : Supports a RV_C = true -> is_uN 5 rd -> is_uN 5 rs2 -> (rd =? ZR) = false ->
  (rs2 =? ZR) = false -> implements a (MicroAssembler.c_mv rd rs2) (writes rd (fun r => r rs2)).
Proof.
  intros. open_emitter a.
  match goal with |- RvExec.implements _ _ (MicroAssembler.Emit16 (Some ?w)) _ =>
    assert (is_cr (u16 w) 0 rd rs2) as [Hl Hop Hb Hrd Hrs1 Hrs2] by (split; [low_bits 2|c_field..]) end.
  apply implements_16; [assumption|]. intros s W. eexists; split; [|reflexivity].
  rewrite Interpret_C_JR by assumption. unfold InterpretC_JR.
  rewrite Hb, Hrd, Hrs2. eval_guards. reflexivity.
Qed.

Lemma c_add_ok a rd rs2 : Supports a RV_C = true -> is_uN 5 rd -> is_uN 5 rs2 -> (rs2 =? ZR) = false ->
  implements a (MicroAssembler.c_add rd rd rs2) (writes rd (fun r => r rd + r rs2)).
Proof.
  intros. open_emitter a.
  match goal with |- RvExec.implements _ _ (MicroAssembler.Emit16 (Some ?w)) _ =>
    assert (is_cr (u16 w) 0x1000 rd rs2) as [Hl Hop Hb Hrd Hrs1 Hrs2] by (split; [low_bits 2|c_field..]) end.
  apply implements_16; [assumption|]. intros s W. eexists; split; [|reflexivity].
  rewrite Interpret_C_JR by assumption. unfold InterpretC_JR.
  rewrite Hb, Hrd, Hrs1, Hrs2. eval_guards. rewrite andb_false_r. reflexivity.
Qed.

(** Immediates. *)
Record is_ci (e op rd imm : Z) : Prop := mkCi {
  ci_low : (e .& 3 =? 3) = false;
  ci_opcode : CInstr.opcode e = op;
  ci_rd : CInstr.rd e = rd;
  ci_rs1 : CInstr.rs1 e = rd;
  ci_imm : CInstr.i_imm e = imm
}.

Lemma c_li_ok a rd imm : Supports a RV_C = true -> is_uN 5 rd -> (rd =? ZR) = false -> IsCIImm imm = true ->
  implements a (MicroAssembler.c_li rd imm) (writes rd (fun _ => imm)).
Proof.
  intros HC Hr H0 Hi. open_emitter a. unfold IsCIImm in Hi; learn_guard. set_word e.
  assert (is_ci (u16 e) C_LI rd imm) as [Hl Hop Hrd Hrs1 Himm] by word_facts e.
  apply implements_16; [exact Hl|]. intros s W. eexists; split.
  - rewrite Interpret_C_LI by (rewrite ?Hrd; assumption). rewrite Hrd, Himm. reflexivity.
  - casts.
Qed.

Lemma c_addi_ok a rd imm : Supports a RV_C = true -> is_uN 5 rd -> (imm =? 0) = false -> IsCIImm imm = true ->
  implements a (MicroAssembler.c_addi rd rd imm) (writes rd (fun r => r rd + imm)).
Proof.
  intros HC Hr H0 Hi. open_emitter a. unfold IsCIImm in Hi; learn_guard. set_word e.
  assert (is_ci (u16 e) C_ADDI rd imm) as [Hl Hop Hrd Hrs1 Himm] by word_facts e.
  apply implements_16; [exact Hl|]. intros s W. eexists; split.
  - rewrite Interpret_C_ADDI, Hrd, Hrs1, Himm by assumption. reflexivity.
  - reflexivity.
Qed.

Lemma c_addiw_ok a rd imm : Supports a RV_C = true -> is_uN 5 rd -> IsCIImm imm = true ->
  implements a (MicroAssembler.c_addiw rd rd imm) (writes rd (fun r => s32 (r rd + imm))).
Proof.
  intros HC Hr Hi. open_emitter a. unfold IsCIImm in Hi; learn_guard. set_word e.
  assert (is_ci (u16 e) C_ADDIW rd imm) as [Hl Hop Hrd Hrs1 Himm] by word_facts e.
  apply implements_16; [exact Hl|]. intros s W. eexists; split.
  - rewrite Interpret_C_ADDIW, Hrd, Hrs1, Himm by assumption. reflexivity.
  - unfold get_xreg; f_equal; apply uN_eq_sN; casts.
Qed.

Lemma c_nop_ok a rd v : Supports a RV_C = true -> rd = 0 ->
  implements a MicroAssembler.c_nop (writes rd v).
Proof.
  intros HC ->. open_emitter a. set_word e.
  assert (is_ci (u16 e) C_ADDI 0 0) as [Hl Hop Hrd Hrs1 Himm] by (subst e; split; vm_compute; reflexivity).
  apply implements_16; [exact Hl|]. intros s W. exists (v (xregs_ s)); split; [|reflexivity].
  rewrite Interpret_C_ADDI, Hrd by assumption. reflexivity.
Qed.

(** [c_lui] and [c_addi16sp] share an opcode. *)
Lemma c_lui_ok a rd imm : Supports a RV_C = true -> is_uN 5 rd -> (rd =? ZR) = false -> (rd =? SP) = false ->
  (imm =? 0) = false -> IsCUImm imm = true -> implements a (MicroAssembler.c_lui rd imm) (writes rd (fun _ => imm)).
Proof.
  intros HC Hr H0 H2 Hn Hi. open_emitter a. unfold IsCUImm in Hi; learn_guard. set_word e.
  assert (CInstr.opcode (u16 e) = C_LUI) as Hop by (subst e; c_field).
  assert (CInstr.rd (u16 e) = rd) as Hrd by (subst e; c_field).
  assert (CInstr.u_imm (u16 e) = imm) as Himm by (subst e; c_field).
  apply implements_16; [subst e; low_bits 1|]. intros s W. eexists; split.
  - rewrite Interpret_C_LUI by exact Hop. unfold InterpretC_LUI. rewrite Hrd, Himm. eval_guards. reflexivity.
  - casts.
Qed.

Lemma c_addi16sp_ok a imm : Supports a RV_C = true -> (imm =? 0) = false -> IsCI16Imm imm = true ->
  implements a (MicroAssembler.c_addi16sp SP SP imm) (writes SP (fun r => r SP + imm)).
Proof.
  intros HC Hn Hi. assert (is_uN 5 SP) by (vm_compute; split; congruence).
  open_emitter a. unfold IsCI16Imm in Hi; learn_guard. set_word e.
  assert (CInstr.opcode (u16 e) = C_LUI) as Hop by (subst e; c_field).
  assert (CInstr.rd (u16 e) = SP) as Hrd by (subst e; c_field).
  assert (CInstr.rs1 (u16 e) = SP) as Hrs1 by (subst e; c_field).
  assert (CInstr.i16_imm (u16 e) = imm) as Himm by (subst e; c_field).
  apply implements_16; [subst e; low_bits 1|]. intros s W. eexists; split.
  - rewrite Interpret_C_LUI by exact Hop. unfold InterpretC_LUI. rewrite Hrd, Hrs1, Himm. eval_guards. reflexivity.
  - unfold get_xreg, sign_extend. rewrite <- uN_add_r, uN_sN, uN_add_r by lia. reflexivity.
Qed.

Lemma c_addi4spn_ok a rd imm : Supports a RV_C = true -> IsCRdp rd = true -> (imm =? 0) = false ->
  IsCI4SPNImm imm = true ->
  implements a (MicroAssembler.c_addi4spn rd SP imm) (writes rd (fun r => r SP + imm)).
Proof.
  intros HC Hp Hn Hi. learn_primes. open_emitter a. unfold IsCI4SPNImm in Hi; learn_guard. set_word e.
  assert (CInstr.opcode (u16 e) = C_ADDI4SPN) as Hop by (subst e; c_field).
  assert (CInstr.rdp (u16 e) = rd) as Hrd by (subst e; c_prime).
  assert (CInstr.i4spn_imm (u16 e) = imm) as Himm by (subst e; c_field).
  apply implements_16; [subst e; low_bits 0|]. intros s W. eexists; split; [|reflexivity].
  rewrite Interpret_C_ADDI4SPN, Hrd, Himm by (rewrite ?Himm; assumption). reflexivity.
Qed.

(** Shifts and [andi]. *)
Lemma IsCShamt_range sh : 0 <= sh < 64 -> IsCShamt sh = true /\ is_uN 6 sh.
Proof.
  intros H; unfold IsCShamt, XLEN. rewrite uN_small by (unfold is_uN; lia).
  split; [apply Z.ltb_lt; lia|unfold is_uN; lia].
Qed.

Lemma shamt_legal sh : is_uN 6 sh -> (sh >=? XLEN) = false.
Proof. unfold is_uN, XLEN; lia. Qed.

Lemma c_slli_ok a rd sh : Supports a RV_C = true -> is_uN 5 rd -> (rd =? ZR) = false -> 0 <= sh < 64 ->
  implements a (MicroAssembler.c_slli rd rd sh) (writes rd (fun r => r rd * 2 ^ sh)).
Proof.
  intros HC Hr H0 Hs. destruct (IsCShamt_range sh Hs) as [Hc Hu]. open_emitter a. set_word e.
  assert (CInstr.opcode (u16 e) = C_SLLI) as Hop by (subst e; c_field).
  assert (CInstr.rd (u16 e) = rd) as Hrd by (subst e; c_field).
  assert (CInstr.rs1 (u16 e) = rd) as Hrs1 by (subst e; c_field).
  assert (CInstr.shamt (u16 e) = sh) as Hsh by (subst e; c_field).
  apply implements_16; [subst e; low_bits 2|]. intros s W. eexists; split.
  - rewrite Interpret_C_SLLI, Hrd, Hrs1, Hsh by (rewrite ?Hrd; assumption). reflexivity.
  - rewrite Z.shiftl_mul_pow2 by lia. reflexivity.
Qed.

Record is_cb (e op rd : Z) : Prop := mkCb {
  cb_low : (e .& 3 =? 3) = false;
  cb_opcode : CInstr.opcode e = C_MISCALU;
  cb_op : e .& C_MISCALU_MASK = op;
  cb_rd : CInstr.rs1p e = rd
}.

Lemma c_srli_ok a rd sh : Supports a RV_C = true -> IsCRs1p rd = true -> 0 <= sh < 64 ->
  implements a (MicroAssembler.c_srli rd rd sh) (writes rd (fun r => r rd / 2 ^ sh)).
Proof.
  intros HC Hp Hs. learn_primes. destruct (IsCShamt_range sh Hs) as [Hc Hu]. open_emitter a. set_word e.
  assert (is_cb (u16 e) C_SRLI rd) as [Hl Hop Hg Hrd] by word_facts e.
  assert (CInstr.shamt (u16 e) = sh) as Hsh by (subst e; c_field).
  apply implements_16; [exact Hl|]. intros s W. eexists; split.
  - rewrite Interpret_C_MISCALU by exact Hop. unfold InterpretC_MISCALU.
    rewrite Hg, Hrd, Hsh, (shamt_legal sh Hu). reflexivity.
  - unfold get_xreg. rewrite Z.shiftr_div_pow2 by lia. reflexivity.
Qed.

Lemma c_srai_ok a rd sh : Supports a RV_C = true -> IsCRs1p rd = true -> 0 <= sh < 64 ->
  implements a (MicroAssembler.c_srai rd rd sh) (writes rd (fun r => s64 (r rd) / 2 ^ sh)).
Proof.
  intros HC Hp Hs. learn_primes. destruct (IsCShamt_range sh Hs) as [Hc Hu]. open_emitter a. set_word e.
  assert (is_cb (u16 e) C_SRAI rd) as [Hl Hop Hg Hrd] by word_facts e.
  assert (CInstr.shamt (u16 e) = sh) as Hsh by (subst e; c_field).
  apply implements_16; [exact Hl|]. intros s W. eexists; split.
  - rewrite Interpret_C_MISCALU by exact Hop. unfold InterpretC_MISCALU.
    rewrite Hg, Hrd, Hsh, (shamt_legal sh Hu). reflexivity.
  - unfold get_xreg. rewrite Z.shiftr_div_pow2 by lia. reflexivity.
Qed.

Lemma u64_land_r x y : u64 (x .& u64 y) = u64 (x .& y).
Proof. bits_solve. Qed.
Lemma u64_lor_r x y : u64 (x .| u64 y) = u64 (x .| y).
Proof. bits_solve. Qed.
Lemma u64_lxor_r x y : u64 (x .^ u64 y) = u64 (x .^ y).
Proof. bits_solve. Qed.

Lemma c_andi_ok a rd imm : Supports a RV_C = true -> IsCRs1p rd = true -> IsCIImm imm = true ->
  implements a (MicroAssembler.c_andi rd rd imm) (writes rd (fun r => r rd .& imm)).
Proof.
  intros HC Hp Hi. learn_primes. open_emitter a. unfold IsCIImm in Hi; learn_guard. set_word e.
  assert (is_cb (u16 e) C_ANDI rd) as [Hl Hop Hg Hrd] by word_facts e.
  assert (CInstr.i_imm (u16 e) = imm) as Himm by (subst e; c_field).
  apply implements_16; [exact Hl|]. intros s W. eexists; split.
  - rewrite Interpret_C_MISCALU by exact Hop. unfold InterpretC_MISCALU. rewrite Hg, Hrd, Himm. reflexivity.
  - apply u64_land_r.
Qed.

End Compressed.
