(* ===== verification/RvAsmCorrect.v ===== *)
(** * Emitted instructions do what the ISA says

    For each integer emitter of [MicroAssembler], whatever the enabled
    extensions, the operand registers and the resulting choice between the
    16-bit and the 32-bit form, the code it appends makes the simulator compute
    the mathematical function the instruction stands for. *)

From Stdlib Require Import ZArith Lia ZifyBool Bool List.
From S2P Require Import Prelude Bits Utils RvEncoding RvEncodingProofs RvAlu SimMemory Outcome RvFloat RvSimulator RvAssembler RvExec RvCompressed.
Import ListNotations.
Import MicroAssembler(Supports).

Section Correct.
Context (P : Platform).

Abbreviation implements := (RvExec.implements P).

(** ** Dispatch *)

Lemma Interpret_OP s e : Instr.opcode e = OP -> Interpret P s e = InterpretOP s e.
Proof. intros H; unfold Interpret; rewrite H; reflexivity. Qed.
Lemma Interpret_OP32 s e : Instr.opcode e = OP32 -> Interpret P s e = InterpretOP32 s e.
Proof. intros H; unfold Interpret; rewrite H; reflexivity. Qed.
Lemma Interpret_OPIMM s e : Instr.opcode e = OPIMM -> Interpret P s e = InterpretOPIMM s e.
Proof. intros H; unfold Interpret; rewrite H; reflexivity. Qed.
Lemma Interpret_OPIMM32 s e : Instr.opcode e = OPIMM32 -> Interpret P s e = InterpretOPIMM32 s e.
Proof. intros H; unfold Interpret; rewrite H; reflexivity. Qed.
Lemma Interpret_LUI s e : Instr.opcode e = LUI -> Interpret P s e = InterpretLUI s e.
Proof. intros H; unfold Interpret; rewrite H; reflexivity. Qed.

(** ** Words in the R format *)

Ltac ranges := try assumption; try (split; [vm_compute; discriminate|vm_compute; reflexivity]).

Lemma rtype_executes f7 rs2 rs1 f3 rd op f :
  is_uN 7 f7 -> is_uN 5 rs2 -> is_uN 5 rs1 -> is_uN 3 f3 -> is_uN 5 rd -> is_uN 7 op -> op .& 3 = 3 ->
  (forall s e, is_rtype e f7 rs2 rs1 f3 rd op -> wf_regs (xregs_ s) ->
     exists v, Interpret P s e = write_rd s e v /\ u64 v = u64 (f (xregs_ s rs1) (xregs_ s rs2))) ->
  forall a, implements a (MicroAssembler.EmitRType f7 rs2 rs1 f3 rd op) (writes rd (fun r => f (r rs1) (r rs2))).
Proof.
  intros ? ? ? ? ? ? H3 H a b.
  destruct (EmitRType_spec f7 rs2 rs1 f3 rd op (with_buffer b a)) as (e & He & Hw); try assumption.
  exists (le_bytes 4 e); split; [exact He|].
  apply executes_32; [exact (rtype_word _ _ _ _ _ _ _ Hw)|rewrite (rtype_low _ _ _ _ _ _ _ Hw); exact H3|].
  intros s W. destruct (H s e Hw W) as (v & Hi & Hv). exists v. split; [|exact Hv].
  rewrite Hi. unfold write_rd. rewrite (rtype_rd _ _ _ _ _ _ _ Hw). reflexivity.
Qed.

Ltac rtype_interp :=
  intros s e [Hw Hl Hop Hrd Hrs1 Hrs2 Hf3 Hf7] W; eexists; split;
  [first [rewrite Interpret_OP by exact Hop; unfold InterpretOP | rewrite Interpret_OP32 by exact Hop; unfold InterpretOP32];
   rewrite Hf7; try rewrite Hrs1; try rewrite Hrs2;
   cbv beta delta [InterpretOP_0 InterpretOP_SUB InterpretOP_MULDIV InterpretOP_SHADD InterpretOP_MINMAXCLMUL
     InterpretOP_ROTATE InterpretOP_BCLRBEXT InterpretOP_CZERO InterpretOP32_0 InterpretOP32_SUB InterpretOP32_MULDIV
     InterpretOP32_SHADD InterpretOP32_ADDUW InterpretOP32_ROTATE] zeta;
   rewrite ?Hf3, ?Hrs1, ?Hrs2; reflexivity|].

Ltac rword f := apply (rtype_executes _ _ _ _ _ _ f); ranges; try reflexivity; rtype_interp; unfold get_xreg.

(** ** Values *)

Lemma land_31_mod y : u32 (y .& (32 - 1)) = y mod 32.
Proof.
  change (32 - 1) with (Z.ones 5). rewrite Z.land_ones by lia. change (2 ^ 5) with 32.
  apply uN_small. pose proof (Z.mod_pos_bound y 32); unfold is_uN; lia.
Qed.

Lemma mod_nonneg y n : 0 < n -> 0 <= y mod n.
Proof. intros; apply Z.mod_pos_bound; assumption. Qed.

Ltac shifts :=
  rewrite ?land_63, ?land_31_mod, ?Z.shiftl_mul_pow2, ?Z.shiftr_div_pow2 by (try apply mod_nonneg; lia).

Lemma s64_eq0 x : is_uN 64 x -> (s64 x =? 0) = (x =? 0).
Proof.
  intros H. destruct (Z.eqb_spec x 0) as [->|N]; [reflexivity|]. apply Z.eqb_neq; intros E.
  apply N. rewrite <- (uN_small 64 x H), <- uN_sN, E by lia. reflexivity.
Qed.
Lemma s32_eq0 x : (s32 x =? 0) = (u32 x =? 0).
Proof.
  destruct (Z.eqb_spec (u32 x) 0) as [E|N].
  - rewrite <- sN_uN, E by lia. reflexivity.
  - apply Z.eqb_neq; intros E. apply N. rewrite <- uN_sN, E by lia. reflexivity.
Qed.

(** The simulator's guarded divisions are the mathematical ones. *)
Lemma div_value x y : is_uN 64 x -> is_uN 64 y ->
  u64 (div (s64 x) (s64 y)) = u64 (if y =? 0 then -1 else Z.quot (s64 x) (s64 y)).
Proof.
  intros Hx Hy. unfold div. rewrite s64_eq0 by exact Hy. destruct (y =? 0); [reflexivity|].
  destruct (Z.eqb_spec (s64 y) (-1)) as [->|]; [|reflexivity].
  destruct (Z.eqb_spec (s64 x) kMinIntX) as [->|]; reflexivity.
Qed.
Lemma rem_value x y : is_uN 64 x -> is_uN 64 y ->
  u64 (rem (s64 x) (s64 y)) = u64 (if y =? 0 then x else Z.rem (s64 x) (s64 y)).
Proof.
  intros Hx Hy. unfold rem. rewrite s64_eq0 by exact Hy. destruct (y =? 0); [apply uN_sN; lia|].
  destruct (Z.eqb_spec (s64 y) (-1)) as [->|]; [|reflexivity].
  destruct (Z.eqb_spec (s64 x) kMinIntX) as [->|]; reflexivity.
Qed.
Lemma divu_value x y : is_uN 64 x -> is_uN 64 y -> u64 (divu x y) = u64 (if y =? 0 then -1 else x / y).
Proof.
  intros Hx Hy. unfold divu, is_uN in *. destruct (Z.eqb_spec y 0); [reflexivity|].
  rewrite Z.quot_div_nonneg by lia. reflexivity.
Qed.
Lemma remu_value x y : is_uN 64 x -> is_uN 64 y -> remu x y = if y =? 0 then x else x mod y.
Proof.
  intros Hx Hy. unfold remu, is_uN in *. destruct (Z.eqb_spec y 0); [reflexivity|].
  apply Z.rem_mod_nonneg; lia.
Qed.
Lemma divw_value x y : s32 (divw (s32 x) (s32 y)) = if u32 y =? 0 then -1 else s32 (Z.quot (s32 x) (s32 y)).
Proof.
  unfold divw. rewrite s32_eq0. destruct (u32 y =? 0); [reflexivity|].
  destruct (Z.eqb_spec (s32 y) (-1)) as [->|]; [|reflexivity].
  destruct (Z.eqb_spec (s32 x) kMinInt32) as [->|]; reflexivity.
Qed.
Lemma remw_value x y : s32 (remw (s32 x) (s32 y)) = s32 (if u32 y =? 0 then x else Z.rem (s32 x) (s32 y)).
Proof.
  unfold remw. rewrite s32_eq0. destruct (u32 y =? 0); [apply sN_sN; lia|].
  destruct (Z.eqb_spec (s32 y) (-1)) as [->|]; [|reflexivity].
  destruct (Z.eqb_spec (s32 x) kMinInt32) as [->|]; reflexivity.
Qed.
Lemma divuw_value x y : s32 (divuw (u32 x) (u32 y)) = if u32 y =? 0 then -1 else s32 (u32 x / u32 y).
Proof.
  unfold divuw. pose proof (uN_range 32 x ltac:(lia)). pose proof (uN_range 32 y ltac:(lia)). unfold is_uN in *.
  destruct (Z.eqb_spec (u32 y) 0); [reflexivity|]. rewrite Z.quot_div_nonneg by lia. reflexivity.
Qed.
Lemma remuw_value x y : s32 (remuw (u32 x) (u32 y)) = s32 (if u32 y =? 0 then x else u32 x mod u32 y).
Proof.
  unfold remuw. pose proof (uN_range 32 x ltac:(lia)). pose proof (uN_range 32 y ltac:(lia)). unfold is_uN in *.
  destruct (Z.eqb_spec (u32 y) 0); [apply sN_uN; lia|]. rewrite Z.rem_mod_nonneg by lia. reflexivity.
Qed.

Lemma div_is_sN w x k : 0 < w -> is_sN w x -> 0 <= k -> is_sN w (x / 2 ^ k).
Proof.
  unfold is_sN; intros Hw Hx Hk. assert (1 <= 2 ^ k) by (apply (Z.pow_le_mono_r 2 0 k); lia).
  assert (0 < 2 ^ (w - 1)) by (apply Z.pow_pos_nonneg; lia). split.
  - apply Z.div_le_lower_bound; nia.
  - apply Z.div_lt_upper_bound; nia.
Qed.

(** A rotation is a sum: its two parts have no bit in common. *)
Lemma split_lor w x r : is_uN w x -> 0 <= r <= w -> (x << r) .| (x >> (w - r)) = x * 2 ^ r + x / 2 ^ (w - r).
Proof.
  intros Hx Hr. assert ((x << r) .& (x >> (w - r)) = 0) as D.
  { apply Z.bits_inj'; intros i Hi. rewrite Z.land_spec, testbit_shiftl, testbit_shiftr, Z.bits_0 by lia.
    destruct (Z.ltb_spec i r); [reflexivity|].
    rewrite (testbit_uN_high w x (i + (w - r))) by (assumption || lia). apply andb_false_r. }
  rewrite <- Z.shiftl_mul_pow2, <- Z.shiftr_div_pow2, Z.add_nocarry_lxor, Z.lxor_lor by (assumption || lia).
  reflexivity.
Qed.
Lemma rotl_value w x y : 0 < w -> is_uN w x -> rotl w x y = uN w (x * 2 ^ (y mod w) + x / 2 ^ (w - y mod w)).
Proof. intros Hw Hx; unfold rotl; rewrite split_lor; [reflexivity|exact Hx|pose proof (Z.mod_pos_bound y w Hw); lia]. Qed.
Lemma rotr_value w x y : 0 < w -> is_uN w x -> rotr w x y = uN w (x / 2 ^ (y mod w) + x * 2 ^ (w - y mod w)).
Proof.
  intros Hw Hx; unfold rotr; pose proof (Z.mod_pos_bound y w Hw).
  replace (x >> (y mod w)) with (x >> (w - (w - y mod w))) by (f_equal; lia).
  rewrite Z.lor_comm, split_lor by (assumption || lia).
  f_equal. replace (w - (w - y mod w)) with (y mod w) by lia. lia.
Qed.
Lemma mod_mod_64_32 y : (y mod 64) mod 32 = y mod 32.
Proof.
  rewrite (Z.div_mod y 64) at 2 by lia.
  replace (64 * (y / 64) + y mod 64) with (y mod 64 + 2 * (y / 64) * 32) by lia.
  rewrite Z_mod_plus_full. reflexivity.
Qed.
Lemma rol_value x y : is_uN 64 x -> u64 (rol x y) = u64 (x * 2 ^ (y mod 64) + x / 2 ^ (64 - y mod 64)).
Proof. intros; unfold rol. rewrite land_63, rotl_value, Zmod_mod, uN_uN by (assumption || lia). reflexivity. Qed.
Lemma ror_value x y : is_uN 64 x -> u64 (ror x y) = u64 (x / 2 ^ (y mod 64) + x * 2 ^ (64 - y mod 64)).
Proof. intros; unfold ror. rewrite land_63, rotr_value, Zmod_mod, uN_uN by (assumption || lia). reflexivity. Qed.
Lemma rolw_value x y :
  u64 (rolw x y) = u64 (s32 (u32 x * 2 ^ (y mod 32) + u32 x / 2 ^ (32 - y mod 32))).
Proof.
  unfold rolw, sign_extend. rewrite land_63, rotl_value, mod_mod_64_32, uN_uN, sN_uN by (lia || apply uN_range; lia).
  reflexivity.
Qed.
Lemma rorw_value x y :
  u64 (rorw x y) = u64 (s32 (u32 x / 2 ^ (y mod 32) + u32 x * 2 ^ (32 - y mod 32))).
Proof.
  unfold rorw, sign_extend. rewrite land_63, rotr_value, mod_mod_64_32, uN_uN, sN_uN by (lia || apply uN_range; lia).
  reflexivity.
Qed.

Lemma if_max x y : (if x >? y then x else y) = Z.max x y.
Proof. destruct (Z.gtb_spec x y); lia. Qed.
Lemma if_min x y : (if x <? y then x else y) = Z.min x y.
Proof. destruct (Z.ltb_spec x y); lia. Qed.

Lemma pow2_mod_64 y : u64 (1 << (y mod 64)) = 2 ^ (y mod 64).
Proof.
  rewrite Z.shiftl_1_l. apply uN_small. pose proof (Z.mod_pos_bound y 64 ltac:(lia)).
  split; [apply Z.pow_nonneg; lia|apply Z.pow_lt_mono_r; lia].
Qed.
Lemma bclr_value x y : u64 (bclr x y) = u64 (Z.clearbit x (y mod 64)).
Proof.
  unfold bclr. rewrite land_63, u64_land_r, pow2_mod_64. unfold Z.clearbit.
  rewrite Z.shiftl_1_l, Z.ldiff_land. reflexivity.
Qed.
Lemma bext_value x y : u64 (bext x y) = u64 (Z.b2z (Z.testbit x (y mod 64))).
Proof.
  unfold bext. rewrite land_63, Z.testbit_odd, (Z.land_ones _ 1), Zmod_odd by lia.
  destruct (Z.odd _); reflexivity.
Qed.
Lemma binv_value x y : u64 (binv x y) = u64 (x .^ 2 ^ (y mod 64)).
Proof. unfold binv. rewrite land_63, pow2_mod_64. reflexivity. Qed.
Lemma bset_value x y : u64 (bset x y) = u64 (Z.setbit x (y mod 64)).
Proof. unfold bset, Z.setbit. rewrite land_63, u64_lor_r. reflexivity. Qed.

(** ** Register-register instructions *)

(** An emitter, the extension it needs and the function of its two operands. *)
Record RInstr := mkR {
  r_ext : Extension;
  r_emit : Z -> Z -> Z -> Assembler -> option Assembler;
  r_spec : Z -> Z -> Z
}.

Definition rtype_ok (i : RInstr) : Prop := forall a rd rs1 rs2,
  Supports a (r_ext i) = true -> is_uN 5 rd -> is_uN 5 rs1 -> is_uN 5 rs2 ->
  implements a (r_emit i rd rs1 rs2) (writes rd (fun r => r_spec i (r rs1) (r rs2))).

Ltac commuted :=
  eapply implements_value;
  [|first [apply c_add_ok | apply c_addw_ok | apply c_mul_ok | apply c_xor_ok | apply c_or_ok | apply c_and_ok]; assumption];
  intros; cbv beta; rewrite 1?Z.add_comm, 1?Z.mul_comm, 1?Z.lxor_comm, 1?Z.lor_comm, 1?Z.land_comm; reflexivity.

Lemma add_ok : rtype_ok (mkR RV_I MicroAssembler.add (fun x y => x + y)).
Proof.
  intros a rd rs1 rs2 ? ? ? ?; cbn [r_ext r_emit r_spec] in *.
  emit_if a; [apply c_add_ok; assumption|].
  emit_if a; [commuted|].
  open_emitter a. rword (fun x y => x + y). reflexivity.
Qed.
Lemma sub_ok : rtype_ok (mkR RV_I MicroAssembler.sub (fun x y => x - y)).
Proof.
  intros a rd rs1 rs2 ? ? ? ?; cbn [r_ext r_emit r_spec] in *.
  emit_if a; [apply c_sub_ok; assumption|].
  open_emitter a. rword (fun x y => x - y). reflexivity.
Qed.
Lemma sll_ok : rtype_ok (mkR RV_I MicroAssembler.sll (fun x y => x * 2 ^ (y mod 64))).
Proof.
  intros a rd rs1 rs2 ? ? ? ?; cbn [r_ext r_emit r_spec] in *.
  open_emitter a. rword (fun x y => x * 2 ^ (y mod 64)). shifts; reflexivity.
Qed.
Lemma slt_ok : rtype_ok (mkR RV_I MicroAssembler.slt (fun x y => Z.b2z (s64 x <? s64 y))).
Proof.
  intros a rd rs1 rs2 ? ? ? ?; cbn [r_ext r_emit r_spec] in *.
  open_emitter a. rword (fun x y => Z.b2z (s64 x <? s64 y)). destruct (_ <? _); reflexivity.
Qed.
Lemma sltu_ok : rtype_ok (mkR RV_I MicroAssembler.sltu (fun x y => Z.b2z (x <? y))).
Proof.
  intros a rd rs1 rs2 ? ? ? ?; cbn [r_ext r_emit r_spec] in *.
  open_emitter a. rword (fun x y => Z.b2z (x <? y)). destruct (_ <? _); reflexivity.
Qed.
Lemma xor_ok : rtype_ok (mkR RV_I MicroAssembler.xor_ (fun x y => x .^ y)).
Proof.
  intros a rd rs1 rs2 ? ? ? ?; cbn [r_ext r_emit r_spec] in *.
  emit_if a; [apply c_xor_ok; assumption|].
  emit_if a; [commuted|].
  open_emitter a. rword (fun x y => x .^ y). reflexivity.
Qed.
Lemma srl_ok : rtype_ok (mkR RV_I MicroAssembler.srl (fun x y => x / 2 ^ (y mod 64))).
Proof.
  intros a rd rs1 rs2 ? ? ? ?; cbn [r_ext r_emit r_spec] in *.
  open_emitter a. rword (fun x y => x / 2 ^ (y mod 64)). shifts; reflexivity.
Qed.
Lemma sra_ok : rtype_ok (mkR RV_I MicroAssembler.sra (fun x y => s64 x / 2 ^ (y mod 64))).
Proof.
  intros a rd rs1 rs2 ? ? ? ?; cbn [r_ext r_emit r_spec] in *.
  open_emitter a. rword (fun x y => s64 x / 2 ^ (y mod 64)). shifts; reflexivity.
Qed.
Lemma or_ok : rtype_ok (mkR RV_I MicroAssembler.or_ (fun x y => x .| y)).
Proof.
  intros a rd rs1 rs2 ? ? ? ?; cbn [r_ext r_emit r_spec] in *.
  emit_if a; [apply c_or_ok; assumption|].
  emit_if a; [commuted|].
  open_emitter a. rword (fun x y => x .| y). reflexivity.
Qed.
Lemma and_ok : rtype_ok (mkR RV_I MicroAssembler.and_ (fun x y => x .& y)).
Proof.
  intros a rd rs1 rs2 ? ? ? ?; cbn [r_ext r_emit r_spec] in *.
  emit_if a; [apply c_and_ok; assumption|].
  emit_if a; [commuted|].
  open_emitter a. rword (fun x y => x .& y). reflexivity.
Qed.
Lemma addw_ok : rtype_ok (mkR RV_I MicroAssembler.addw (fun x y => s32 (x + y))).
Proof.
  intros a rd rs1 rs2 ? ? ? ?; cbn [r_ext r_emit r_spec] in *.
  emit_if a; [apply c_addw_ok; assumption|].
  emit_if a; [commuted|].
  open_emitter a. rword (fun x y => s32 (x + y)). f_equal; apply uN_eq_sN; casts.
Qed.
Lemma subw_ok : rtype_ok (mkR RV_I MicroAssembler.subw (fun x y => s32 (x - y))).
Proof.
  intros a rd rs1 rs2 ? ? ? ?; cbn [r_ext r_emit r_spec] in *.
  emit_if a; [apply c_subw_ok; assumption|].
  open_emitter a. rword (fun x y => s32 (x - y)). f_equal; apply uN_eq_sN; casts.
Qed.
Lemma sllw_ok : rtype_ok (mkR RV_I MicroAssembler.sllw (fun x y => s32 (x * 2 ^ (y mod 32)))).
Proof.
  intros a rd rs1 rs2 ? ? ? ?; cbn [r_ext r_emit r_spec] in *.
  open_emitter a. rword (fun x y => s32 (x * 2 ^ (y mod 32))). shifts; f_equal; apply uN_eq_sN; casts.
Qed.
Lemma srlw_ok : rtype_ok (mkR RV_I MicroAssembler.srlw (fun x y => s32 (u32 x / 2 ^ (y mod 32)))).
Proof.
  intros a rd rs1 rs2 ? ? ? ?; cbn [r_ext r_emit r_spec] in *.
  open_emitter a. rword (fun x y => s32 (u32 x / 2 ^ (y mod 32))). shifts; reflexivity.
Qed.
Lemma sraw_ok : rtype_ok (mkR RV_I MicroAssembler.sraw (fun x y => s32 x / 2 ^ (y mod 32))).
Proof.
  intros a rd rs1 rs2 ? ? ? ?; cbn [r_ext r_emit r_spec] in *.
  open_emitter a. rword (fun x y => s32 x / 2 ^ (y mod 32)). shifts; f_equal; apply sN_small; [lia|apply div_is_sN; [lia|apply sN_range; lia|apply mod_nonneg; lia]].
Qed.
Lemma mul_ok : rtype_ok (mkR RV_M MicroAssembler.mul (fun x y => x * y)).
Proof.
  intros a rd rs1 rs2 ? ? ? ?; cbn [r_ext r_emit r_spec] in *.
  emit_if a; [apply c_mul_ok; assumption|].
  emit_if a; [commuted|].
  open_emitter a. rword (fun x y => x * y). unfold mul; casts.
Qed.
Lemma mulh_ok : rtype_ok (mkR RV_M MicroAssembler.mulh (fun x y => (s64 x * s64 y) / 2 ^ 64)).
Proof.
  intros a rd rs1 rs2 ? ? ? ?; cbn [r_ext r_emit r_spec] in *.
  open_emitter a. rword (fun x y => (s64 x * s64 y) / 2 ^ 64). rewrite mulh_spec by (apply sN_range; lia); reflexivity.
Qed.
Lemma mulhsu_ok : rtype_ok (mkR RV_M MicroAssembler.mulhsu (fun x y => (s64 x * y) / 2 ^ 64)).
Proof.
  intros a rd rs1 rs2 ? ? ? ?; cbn [r_ext r_emit r_spec] in *.
  open_emitter a. rword (fun x y => (s64 x * y) / 2 ^ 64). destruct W as [W0 W]. rewrite mulhsu_spec by first [apply W; assumption | apply sN_range; lia]; apply uN_uN.
Qed.
Lemma mulhu_ok : rtype_ok (mkR RV_M MicroAssembler.mulhu (fun x y => (x * y) / 2 ^ 64)).
Proof.
  intros a rd rs1 rs2 ? ? ? ?; cbn [r_ext r_emit r_spec] in *.
  open_emitter a. rword (fun x y => (x * y) / 2 ^ 64). destruct W as [W0 W]. rewrite mulhu_spec by (apply W; assumption); reflexivity.
Qed.
Lemma div_ok : rtype_ok (mkR RV_M MicroAssembler.div (fun x y => if y =? 0 then -1 else Z.quot (s64 x) (s64 y))).
Proof.
  intros a rd rs1 rs2 ? ? ? ?; cbn [r_ext r_emit r_spec] in *.
  open_emitter a. rword (fun x y => if y =? 0 then -1 else Z.quot (s64 x) (s64 y)). destruct W as [W0 W]. apply div_value; apply W; assumption.
Qed.
Lemma divu_ok : rtype_ok (mkR RV_M MicroAssembler.divu (fun x y => if y =? 0 then -1 else x / y)).
Proof.
  intros a rd rs1 rs2 ? ? ? ?; cbn [r_ext r_emit r_spec] in *.
  open_emitter a. rword (fun x y => if y =? 0 then -1 else x / y). destruct W as [W0 W]. apply divu_value; apply W; assumption.
Qed.
Lemma rem_ok : rtype_ok (mkR RV_M MicroAssembler.rem (fun x y => if y =? 0 then x else Z.rem (s64 x) (s64 y))).
Proof.
  intros a rd rs1 rs2 ? ? ? ?; cbn [r_ext r_emit r_spec] in *.
  open_emitter a. rword (fun x y => if y =? 0 then x else Z.rem (s64 x) (s64 y)). destruct W as [W0 W]. apply rem_value; apply W; assumption.
Qed.
Lemma remu_ok : rtype_ok (mkR RV_M MicroAssembler.remu (fun x y => if y =? 0 then x else x mod y)).
Proof.
  intros a rd rs1 rs2 ? ? ? ?; cbn [r_ext r_emit r_spec] in *.
  open_emitter a. rword (fun x y => if y =? 0 then x else x mod y). destruct W as [W0 W]. rewrite remu_value by (apply W; assumption); reflexivity.
Qed.
Lemma mulw_ok : rtype_ok (mkR RV_M MicroAssembler.mulw (fun x y => s32 (x * y))).
Proof.
  intros a rd rs1 rs2 ? ? ? ?; cbn [r_ext r_emit r_spec] in *.
  open_emitter a. rword (fun x y => s32 (x * y)). unfold mulw, sign_extend; rewrite sN_sN by lia; f_equal; apply uN_eq_sN; casts.
Qed.
Lemma divw_ok : rtype_ok (mkR RV_M MicroAssembler.divw (fun x y => if u32 y =? 0 then -1 else s32 (Z.quot (s32 x) (s32 y)))).
Proof.
  intros a rd rs1 rs2 ? ? ? ?; cbn [r_ext r_emit r_spec] in *.
  open_emitter a. rword (fun x y => if u32 y =? 0 then -1 else s32 (Z.quot (s32 x) (s32 y))). unfold sign_extend; rewrite divw_value; reflexivity.
Qed.
Lemma divuw_ok : rtype_ok (mkR RV_M MicroAssembler.divuw (fun x y => if u32 y =? 0 then -1 else s32 (u32 x / u32 y))).
Proof.
  intros a rd rs1 rs2 ? ? ? ?; cbn [r_ext r_emit r_spec] in *.
  open_emitter a. rword (fun x y => if u32 y =? 0 then -1 else s32 (u32 x / u32 y)). unfold sign_extend; rewrite divuw_value; reflexivity.
Qed.
Lemma remw_ok : rtype_ok (mkR RV_M MicroAssembler.remw (fun x y => s32 (if u32 y =? 0 then x else Z.rem (s32 x) (s32 y)))).
Proof.
  intros a rd rs1 rs2 ? ? ? ?; cbn [r_ext r_emit r_spec] in *.
  open_emitter a. rword (fun x y => s32 (if u32 y =? 0 then x else Z.rem (s32 x) (s32 y))). unfold sign_extend; rewrite remw_value; reflexivity.
Qed.
Lemma remuw_ok : rtype_ok (mkR RV_M MicroAssembler.remuw (fun x y => s32 (if u32 y =? 0 then x else u32 x mod u32 y))).
Proof.
  intros a rd rs1 rs2 ? ? ? ?; cbn [r_ext r_emit r_spec] in *.
  open_emitter a. rword (fun x y => s32 (if u32 y =? 0 then x else u32 x mod u32 y)). unfold sign_extend; rewrite remuw_value; reflexivity.
Qed.
Lemma adduw_ok : rtype_ok (mkR RV_Zba MicroAssembler.adduw (fun x y => u32 x + y)).
Proof.
  intros a rd rs1 rs2 ? ? ? ?; cbn [r_ext r_emit r_spec] in *.
  emit_if a; [eapply implements_value; [|apply c_zextw_ok; assumption]; intros r [W0 W]; cbv beta;
    rewrite (W0 : r ZR = 0), Z.add_0_r; reflexivity|].
  open_emitter a. rword (fun x y => u32 x + y). reflexivity.
Qed.
Lemma sh1add_ok : rtype_ok (mkR RV_Zba MicroAssembler.sh1add (fun x y => x * 2 ^ 1 + y)).
Proof.
  intros a rd rs1 rs2 ? ? ? ?; cbn [r_ext r_emit r_spec] in *.
  open_emitter a. rword (fun x y => x * 2 ^ 1 + y). shifts; casts.
Qed.
Lemma sh1adduw_ok : rtype_ok (mkR RV_Zba MicroAssembler.sh1adduw (fun x y => u32 x * 2 ^ 1 + y)).
Proof.
  intros a rd rs1 rs2 ? ? ? ?; cbn [r_ext r_emit r_spec] in *.
  open_emitter a. rword (fun x y => u32 x * 2 ^ 1 + y). shifts; casts.
Qed.
Lemma sh2add_ok : rtype_ok (mkR RV_Zba MicroAssembler.sh2add (fun x y => x * 2 ^ 2 + y)).
Proof.
  intros a rd rs1 rs2 ? ? ? ?; cbn [r_ext r_emit r_spec] in *.
  open_emitter a. rword (fun x y => x * 2 ^ 2 + y). shifts; casts.
Qed.
Lemma sh2adduw_ok : rtype_ok (mkR RV_Zba MicroAssembler.sh2adduw (fun x y => u32 x * 2 ^ 2 + y)).
Proof.
  intros a rd rs1 rs2 ? ? ? ?; cbn [r_ext r_emit r_spec] in *.
  open_emitter a. rword (fun x y => u32 x * 2 ^ 2 + y). shifts; casts.
Qed.
Lemma sh3add_ok : rtype_ok (mkR RV_Zba MicroAssembler.sh3add (fun x y => x * 2 ^ 3 + y)).
Proof.
  intros a rd rs1 rs2 ? ? ? ?; cbn [r_ext r_emit r_spec] in *.
  open_emitter a. rword (fun x y => x * 2 ^ 3 + y). shifts; casts.
Qed.
Lemma sh3adduw_ok : rtype_ok (mkR RV_Zba MicroAssembler.sh3adduw (fun x y => u32 x * 2 ^ 3 + y)).
Proof.
  intros a rd rs1 rs2 ? ? ? ?; cbn [r_ext r_emit r_spec] in *.
  open_emitter a. rword (fun x y => u32 x * 2 ^ 3 + y). shifts; casts.
Qed.
Lemma andn_ok : rtype_ok (mkR RV_Zbb MicroAssembler.andn (fun x y => x .& Z.lnot y)).
Proof.
  intros a rd rs1 rs2 ? ? ? ?; cbn [r_ext r_emit r_spec] in *.
  open_emitter a. rword (fun x y => x .& Z.lnot y). apply u64_land_r.
Qed.
Lemma orn_ok : rtype_ok (mkR RV_Zbb MicroAssembler.orn (fun x y => x .| Z.lnot y)).
Proof.
  intros a rd rs1 rs2 ? ? ? ?; cbn [r_ext r_emit r_spec] in *.
  open_emitter a. rword (fun x y => x .| Z.lnot y). apply u64_lor_r.
Qed.
Lemma xnor_ok : rtype_ok (mkR RV_Zbb MicroAssembler.xnor (fun x y => x .^ Z.lnot y)).
Proof.
  intros a rd rs1 rs2 ? ? ? ?; cbn [r_ext r_emit r_spec] in *.
  open_emitter a. rword (fun x y => x .^ Z.lnot y). apply u64_lxor_r.
Qed.
Lemma max_ok : rtype_ok (mkR RV_Zbb MicroAssembler.max (fun x y => Z.max (s64 x) (s64 y))).
Proof.
  intros a rd rs1 rs2 ? ? ? ?; cbn [r_ext r_emit r_spec] in *.
  open_emitter a. rword (fun x y => Z.max (s64 x) (s64 y)). unfold RvAlu.max, maxu; rewrite if_max; reflexivity.
Qed.
Lemma maxu_ok : rtype_ok (mkR RV_Zbb MicroAssembler.maxu (fun x y => Z.max x y)).
Proof.
  intros a rd rs1 rs2 ? ? ? ?; cbn [r_ext r_emit r_spec] in *.
  open_emitter a. rword (fun x y => Z.max x y). unfold RvAlu.max, maxu; rewrite if_max; reflexivity.
Qed.
Lemma min_ok : rtype_ok (mkR RV_Zbb MicroAssembler.min (fun x y => Z.min (s64 x) (s64 y))).
Proof.
  intros a rd rs1 rs2 ? ? ? ?; cbn [r_ext r_emit r_spec] in *.
  open_emitter a. rword (fun x y => Z.min (s64 x) (s64 y)). unfold RvAlu.min, minu; rewrite if_min; reflexivity.
Qed.
Lemma minu_ok : rtype_ok (mkR RV_Zbb MicroAssembler.minu (fun x y => Z.min x y)).
Proof.
  intros a rd rs1 rs2 ? ? ? ?; cbn [r_ext r_emit r_spec] in *.
  open_emitter a. rword (fun x y => Z.min x y). unfold RvAlu.min, minu; rewrite if_min; reflexivity.
Qed.
Lemma rol_ok : rtype_ok (mkR RV_Zbb MicroAssembler.rol (fun x y => x * 2 ^ (y mod 64) + x / 2 ^ (64 - y mod 64))).
Proof.
  intros a rd rs1 rs2 ? ? ? ?; cbn [r_ext r_emit r_spec] in *.
  open_emitter a. rword (fun x y => x * 2 ^ (y mod 64) + x / 2 ^ (64 - y mod 64)). destruct W as [W0 W]. apply rol_value; apply W; assumption.
Qed.
Lemma ror_ok : rtype_ok (mkR RV_Zbb MicroAssembler.ror (fun x y => x / 2 ^ (y mod 64) + x * 2 ^ (64 - y mod 64))).
Proof.
  intros a rd rs1 rs2 ? ? ? ?; cbn [r_ext r_emit r_spec] in *.
  open_emitter a. rword (fun x y => x / 2 ^ (y mod 64) + x * 2 ^ (64 - y mod 64)). destruct W as [W0 W]. apply ror_value; apply W; assumption.
Qed.
Lemma rolw_ok : rtype_ok (mkR RV_Zbb MicroAssembler.rolw (fun x y => s32 (u32 x * 2 ^ (y mod 32) + u32 x / 2 ^ (32 - y mod 32)))).
Proof.
  intros a rd rs1 rs2 ? ? ? ?; cbn [r_ext r_emit r_spec] in *.
  open_emitter a. rword (fun x y => s32 (u32 x * 2 ^ (y mod 32) + u32 x / 2 ^ (32 - y mod 32))). apply rolw_value.
Qed.
Lemma rorw_ok : rtype_ok (mkR RV_Zbb MicroAssembler.rorw (fun x y => s32 (u32 x / 2 ^ (y mod 32) + u32 x * 2 ^ (32 - y mod 32)))).
Proof.
  intros a rd rs1 rs2 ? ? ? ?; cbn [r_ext r_emit r_spec] in *.
  open_emitter a. rword (fun x y => s32 (u32 x / 2 ^ (y mod 32) + u32 x * 2 ^ (32 - y mod 32))). apply rorw_value.
Qed.
Lemma clmul_ok : rtype_ok (mkR RV_Zbc MicroAssembler.clmul (RvAlu.clmul)).
Proof.
  intros a rd rs1 rs2 ? ? ? ?; cbn [r_ext r_emit r_spec] in *.
  open_emitter a. rword (RvAlu.clmul). reflexivity.
Qed.
Lemma clmulh_ok : rtype_ok (mkR RV_Zbc MicroAssembler.clmulh (RvAlu.clmulh)).
Proof.
  intros a rd rs1 rs2 ? ? ? ?; cbn [r_ext r_emit r_spec] in *.
  open_emitter a. rword (RvAlu.clmulh). reflexivity.
Qed.
Lemma clmulr_ok : rtype_ok (mkR RV_Zbc MicroAssembler.clmulr (RvAlu.clmulr)).
Proof.
  intros a rd rs1 rs2 ? ? ? ?; cbn [r_ext r_emit r_spec] in *.
  open_emitter a. rword (RvAlu.clmulr). reflexivity.
Qed.
Lemma bclr_ok : rtype_ok (mkR RV_Zbs MicroAssembler.bclr (fun x y => Z.clearbit x (y mod 64))).
Proof.
  intros a rd rs1 rs2 ? ? ? ?; cbn [r_ext r_emit r_spec] in *.
  open_emitter a. rword (fun x y => Z.clearbit x (y mod 64)). apply bclr_value.
Qed.
Lemma bext_ok : rtype_ok (mkR RV_Zbs MicroAssembler.bext (fun x y => Z.b2z (Z.testbit x (y mod 64)))).
Proof.
  intros a rd rs1 rs2 ? ? ? ?; cbn [r_ext r_emit r_spec] in *.
  open_emitter a. rword (fun x y => Z.b2z (Z.testbit x (y mod 64))). apply bext_value.
Qed.
Lemma binv_ok : rtype_ok (mkR RV_Zbs MicroAssembler.binv (fun x y => x .^ 2 ^ (y mod 64))).
Proof.
  intros a rd rs1 rs2 ? ? ? ?; cbn [r_ext r_emit r_spec] in *.
  open_emitter a. rword (fun x y => x .^ 2 ^ (y mod 64)). apply binv_value.
Qed.
Lemma bset_ok : rtype_ok (mkR RV_Zbs MicroAssembler.bset (fun x y => Z.setbit x (y mod 64))).
Proof.
  intros a rd rs1 rs2 ? ? ? ?; cbn [r_ext r_emit r_spec] in *.
  open_emitter a. rword (fun x y => Z.setbit x (y mod 64)). apply bset_value.
Qed.
Lemma czeroeqz_ok : rtype_ok (mkR RV_Zicond MicroAssembler.czeroeqz (fun x y => if y =? 0 then 0 else x)).
Proof.
  intros a rd rs1 rs2 ? ? ? ?; cbn [r_ext r_emit r_spec] in *.
  open_emitter a. rword (fun x y => if y =? 0 then 0 else x). reflexivity.
Qed.
Lemma czeronez_ok : rtype_ok (mkR RV_Zicond MicroAssembler.czeronez (fun x y => if y =? 0 then x else 0)).
Proof.
  intros a rd rs1 rs2 ? ? ? ?; cbn [r_ext r_emit r_spec] in *.
  open_emitter a. rword (fun x y => if y =? 0 then x else 0). destruct (_ =? _); reflexivity.
Qed.

Definition rtype_instructions : list RInstr :=
  [ mkR RV_I MicroAssembler.add (fun x y => x + y);
    mkR RV_I MicroAssembler.sub (fun x y => x - y);
    mkR RV_I MicroAssembler.sll (fun x y => x * 2 ^ (y mod 64));
    mkR RV_I MicroAssembler.slt (fun x y => Z.b2z (s64 x <? s64 y));
    mkR RV_I MicroAssembler.sltu (fun x y => Z.b2z (x <? y));
    mkR RV_I MicroAssembler.xor_ (fun x y => x .^ y);
    mkR RV_I MicroAssembler.srl (fun x y => x / 2 ^ (y mod 64));
    mkR RV_I MicroAssembler.sra (fun x y => s64 x / 2 ^ (y mod 64));
    mkR RV_I MicroAssembler.or_ (fun x y => x .| y);
    mkR RV_I MicroAssembler.and_ (fun x y => x .& y);
    mkR RV_I MicroAssembler.addw (fun x y => s32 (x + y));
    mkR RV_I MicroAssembler.subw (fun x y => s32 (x - y));
    mkR RV_I MicroAssembler.sllw (fun x y => s32 (x * 2 ^ (y mod 32)));
    mkR RV_I MicroAssembler.srlw (fun x y => s32 (u32 x / 2 ^ (y mod 32)));
    mkR RV_I MicroAssembler.sraw (fun x y => s32 x / 2 ^ (y mod 32));
    mkR RV_M MicroAssembler.mul (fun x y => x * y);
    mkR RV_M MicroAssembler.mulh (fun x y => (s64 x * s64 y) / 2 ^ 64);
    mkR RV_M MicroAssembler.mulhsu (fun x y => (s64 x * y) / 2 ^ 64);
    mkR RV_M MicroAssembler.mulhu (fun x y => (x * y) / 2 ^ 64);
    mkR RV_M MicroAssembler.div (fun x y => if y =? 0 then -1 else Z.quot (s64 x) (s64 y));
    mkR RV_M MicroAssembler.divu (fun x y => if y =? 0 then -1 else x / y);
    mkR RV_M MicroAssembler.rem (fun x y => if y =? 0 then x else Z.rem (s64 x) (s64 y));
    mkR RV_M MicroAssembler.remu (fun x y => if y =? 0 then x else x mod y);
    mkR RV_M MicroAssembler.mulw (fun x y => s32 (x * y));
    mkR RV_M MicroAssembler.divw (fun x y => if u32 y =? 0 then -1 else s32 (Z.quot (s32 x) (s32 y)));
    mkR RV_M MicroAssembler.divuw (fun x y => if u32 y =? 0 then -1 else s32 (u32 x / u32 y));
    mkR RV_M MicroAssembler.remw (fun x y => s32 (if u32 y =? 0 then x else Z.rem (s32 x) (s32 y)));
    mkR RV_M MicroAssembler.remuw (fun x y => s32 (if u32 y =? 0 then x else u32 x mod u32 y));
    mkR RV_Zba MicroAssembler.adduw (fun x y => u32 x + y);
    mkR RV_Zba MicroAssembler.sh1add (fun x y => x * 2 ^ 1 + y);
    mkR RV_Zba MicroAssembler.sh1adduw (fun x y => u32 x * 2 ^ 1 + y);
    mkR RV_Zba MicroAssembler.sh2add (fun x y => x * 2 ^ 2 + y);
    mkR RV_Zba MicroAssembler.sh2adduw (fun x y => u32 x * 2 ^ 2 + y);
    mkR RV_Zba MicroAssembler.sh3add (fun x y => x * 2 ^ 3 + y);
    mkR RV_Zba MicroAssembler.sh3adduw (fun x y => u32 x * 2 ^ 3 + y);
    mkR RV_Zbb MicroAssembler.andn (fun x y => x .& Z.lnot y);
    mkR RV_Zbb MicroAssembler.orn (fun x y => x .| Z.lnot y);
    mkR RV_Zbb MicroAssembler.xnor (fun x y => x .^ Z.lnot y);
    mkR RV_Zbb MicroAssembler.max (fun x y => Z.max (s64 x) (s64 y));
    mkR RV_Zbb MicroAssembler.maxu (fun x y => Z.max x y);
    mkR RV_Zbb MicroAssembler.min (fun x y => Z.min (s64 x) (s64 y));
    mkR RV_Zbb MicroAssembler.minu (fun x y => Z.min x y);
    mkR RV_Zbb MicroAssembler.rol (fun x y => x * 2 ^ (y mod 64) + x / 2 ^ (64 - y mod 64));
    mkR RV_Zbb MicroAssembler.ror (fun x y => x / 2 ^ (y mod 64) + x * 2 ^ (64 - y mod 64));
    mkR RV_Zbb MicroAssembler.rolw (fun x y => s32 (u32 x * 2 ^ (y mod 32) + u32 x / 2 ^ (32 - y mod 32)));
    mkR RV_Zbb MicroAssembler.rorw (fun x y => s32 (u32 x / 2 ^ (y mod 32) + u32 x * 2 ^ (32 - y mod 32)));
    mkR RV_Zbc MicroAssembler.clmul (RvAlu.clmul);
    mkR RV_Zbc MicroAssembler.clmulh (RvAlu.clmulh);
    mkR RV_Zbc MicroAssembler.clmulr (RvAlu.clmulr);
    mkR RV_Zbs MicroAssembler.bclr (fun x y => Z.clearbit x (y mod 64));
    mkR RV_Zbs MicroAssembler.bext (fun x y => Z.b2z (Z.testbit x (y mod 64)));
    mkR RV_Zbs MicroAssembler.binv (fun x y => x .^ 2 ^ (y mod 64));
    mkR RV_Zbs MicroAssembler.bset (fun x y => Z.setbit x (y mod 64));
    mkR RV_Zicond MicroAssembler.czeroeqz (fun x y => if y =? 0 then 0 else x);
    mkR RV_Zicond MicroAssembler.czeronez (fun x y => if y =? 0 then x else 0) ].

Lemma rtype_all_ok : Forall rtype_ok rtype_instructions.
Proof.
  unfold rtype_instructions.
  apply Forall_cons; [exact add_ok|].
  apply Forall_cons; [exact sub_ok|].
  apply Forall_cons; [exact sll_ok|].
  apply Forall_cons; [exact slt_ok|].
  apply Forall_cons; [exact sltu_ok|].
  apply Forall_cons; [exact xor_ok|].
  apply Forall_cons; [exact srl_ok|].
  apply Forall_cons; [exact sra_ok|].
  apply Forall_cons; [exact or_ok|].
  apply Forall_cons; [exact and_ok|].
  apply Forall_cons; [exact addw_ok|].
  apply Forall_cons; [exact subw_ok|].
  apply Forall_cons; [exact sllw_ok|].
  apply Forall_cons; [exact srlw_ok|].
  apply Forall_cons; [exact sraw_ok|].
  apply Forall_cons; [exact mul_ok|].
  apply Forall_cons; [exact mulh_ok|].
  apply Forall_cons; [exact mulhsu_ok|].
  apply Forall_cons; [exact mulhu_ok|].
  apply Forall_cons; [exact div_ok|].
  apply Forall_cons; [exact divu_ok|].
  apply Forall_cons; [exact rem_ok|].
  apply Forall_cons; [exact remu_ok|].
  apply Forall_cons; [exact mulw_ok|].
  apply Forall_cons; [exact divw_ok|].
  apply Forall_cons; [exact divuw_ok|].
  apply Forall_cons; [exact remw_ok|].
  apply Forall_cons; [exact remuw_ok|].
  apply Forall_cons; [exact adduw_ok|].
  apply Forall_cons; [exact sh1add_ok|].
  apply Forall_cons; [exact sh1adduw_ok|].
  apply Forall_cons; [exact sh2add_ok|].
  apply Forall_cons; [exact sh2adduw_ok|].
  apply Forall_cons; [exact sh3add_ok|].
  apply Forall_cons; [exact sh3adduw_ok|].
  apply Forall_cons; [exact andn_ok|].
  apply Forall_cons; [exact orn_ok|].
  apply Forall_cons; [exact xnor_ok|].
  apply Forall_cons; [exact max_ok|].
  apply Forall_cons; [exact maxu_ok|].
  apply Forall_cons; [exact min_ok|].
  apply Forall_cons; [exact minu_ok|].
  apply Forall_cons; [exact rol_ok|].
  apply Forall_cons; [exact ror_ok|].
  apply Forall_cons; [exact rolw_ok|].
  apply Forall_cons; [exact rorw_ok|].
  apply Forall_cons; [exact clmul_ok|].
  apply Forall_cons; [exact clmulh_ok|].
  apply Forall_cons; [exact clmulr_ok|].
  apply Forall_cons; [exact bclr_ok|].
  apply Forall_cons; [exact bext_ok|].
  apply Forall_cons; [exact binv_ok|].
  apply Forall_cons; [exact bset_ok|].
  apply Forall_cons; [exact czeroeqz_ok|].
  apply Forall_cons; [exact czeronez_ok|].
  apply Forall_nil.
Qed.

(** ** Register-immediate instructions *)

Lemma itype_executes imm rs1 f3 rd op f :
  IsITypeImm imm = true -> is_uN 5 rs1 -> is_uN 3 f3 -> is_uN 5 rd -> is_uN 7 op -> op .& 3 = 3 ->
  (forall s e, is_itype e imm rs1 f3 rd op -> wf_regs (xregs_ s) ->
     exists v, Interpret P s e = write_rd s e v /\ u64 v = u64 (f (xregs_ s rs1))) ->
  forall a, implements a (MicroAssembler.EmitIType imm rs1 f3 rd op) (writes rd (fun r => f (r rs1))).
Proof.
  intros ? ? ? ? ? H3 H a b.
  destruct (EmitIType_spec imm rs1 f3 rd op (with_buffer b a)) as (e & He & Hw); try assumption.
  exists (le_bytes 4 e); split; [exact He|].
  apply executes_32; [exact (itype_word _ _ _ _ _ _ Hw)|rewrite (itype_low _ _ _ _ _ _ Hw); exact H3|].
  intros s W. destruct (H s e Hw W) as (v & Hi & Hv). exists v. split; [|exact Hv].
  rewrite Hi. unfold write_rd. rewrite (itype_rd _ _ _ _ _ _ Hw). reflexivity.
Qed.

Ltac iword f :=
  apply (itype_executes _ _ _ _ _ f); ranges; try reflexivity;
  intros s e [Hw Hl Hop Hrd Hrs1 Hf3 Himm] W; eexists; split;
  [first [rewrite Interpret_OPIMM by exact Hop; unfold InterpretOPIMM
         | rewrite Interpret_OPIMM32 by exact Hop; unfold InterpretOPIMM32];
   rewrite Hf3, Hrs1, Himm; reflexivity
  |unfold get_xreg].

Record IInstr := mkI {
  i_ext : Extension;
  i_emit : Z -> Z -> Z -> Assembler -> option Assembler;
  i_spec : Z -> Z -> Z                       (** of the register and the immediate *)
}.

Definition itype_ok (i : IInstr) : Prop := forall a rd rs1 imm,
  Supports a (i_ext i) = true -> is_uN 5 rd -> is_uN 5 rs1 -> IsITypeImm imm = true ->
  implements a (i_emit i rd rs1 imm) (writes rd (fun r => i_spec i (r rs1) imm)).

(** The value of x0 is 0. *)
Ltac zero_reg := intros r [W0 W]; cbv beta; rewrite (W0 : r ZR = 0).

Lemma ciimm_s32 imm : IsCIImm imm = true -> s32 imm = imm.
Proof. unfold IsCIImm; intros H; learn_guard. apply sN_small; [lia|]. unfold is_sN in *; lia. Qed.

Lemma addi_ok : itype_ok (mkI RV_I MicroAssembler.addi (fun x imm => x + imm)).
Proof.
  intros a rd rs1 imm ? ? ? ?; cbn [i_ext i_emit i_spec] in *.
  emit_if a; [eapply implements_value; [|apply c_li_ok; assumption]; zero_reg; reflexivity|].
  emit_if a; [apply c_addi_ok; assumption|].
  emit_if a; [apply c_addi16sp_ok; assumption|].
  emit_if a; [apply c_addi4spn_ok; assumption|].
  emit_if a; [apply c_nop_ok; [assumption|reflexivity]|].
  emit_if a; [eapply implements_value; [|apply c_mv_ok; assumption]; intros r W; cbv beta; rewrite Z.add_0_r; reflexivity|].
  open_emitter a. iword (fun x => x + imm). reflexivity.
Qed.
Lemma slti_ok : itype_ok (mkI RV_I MicroAssembler.slti (fun x imm => Z.b2z (s64 x <? imm))).
Proof.
  intros a rd rs1 imm ? ? ? ?; cbn [i_ext i_emit i_spec] in *.
  open_emitter a. iword (fun x => Z.b2z (s64 x <? imm)). destruct (_ <? _); reflexivity.
Qed.
Lemma sltiu_ok : itype_ok (mkI RV_I MicroAssembler.sltiu (fun x imm => Z.b2z (x <? u64 imm))).
Proof.
  intros a rd rs1 imm ? ? ? ?; cbn [i_ext i_emit i_spec] in *.
  open_emitter a. iword (fun x => Z.b2z (x <? u64 imm)). destruct (_ <? _); reflexivity.
Qed.
Lemma xori_ok : itype_ok (mkI RV_I MicroAssembler.xori Z.lxor).
Proof.
  intros a rd rs1 imm ? ? ? ?; cbn [i_ext i_emit i_spec] in *.
  emit_if a; [eapply implements_value; [|apply c_not_ok; assumption]; intros r W; cbv beta;
              rewrite Z.lxor_m1_r; reflexivity|].
  open_emitter a. iword (fun x => x .^ imm). apply u64_lxor_r.
Qed.
Lemma ori_ok : itype_ok (mkI RV_I MicroAssembler.ori Z.lor).
Proof.
  intros a rd rs1 imm ? ? ? ?; cbn [i_ext i_emit i_spec] in *.
  open_emitter a. iword (fun x => x .| imm). apply u64_lor_r.
Qed.
Lemma andi_ok : itype_ok (mkI RV_I MicroAssembler.andi Z.land).
Proof.
  intros a rd rs1 imm ? ? ? ?; cbn [i_ext i_emit i_spec] in *.
  emit_if a; [apply c_andi_ok; assumption|].
  emit_if a; [apply c_zextb_ok; assumption|].
  open_emitter a. iword (fun x => x .& imm). apply u64_land_r.
Qed.
Lemma addiw_ok : itype_ok (mkI RV_I MicroAssembler.addiw (fun x imm => s32 (x + imm))).
Proof.
  intros a rd rs1 imm ? ? ? ?; cbn [i_ext i_emit i_spec] in *.
  emit_if a; [eapply implements_value; [|apply c_li_ok; assumption]; zero_reg; rewrite Z.add_0_l, ciimm_s32 by assumption;
              reflexivity|].
  emit_if a; [apply c_addiw_ok; assumption|].
  open_emitter a. iword (fun x => s32 (x + imm)). f_equal; apply uN_eq_sN; casts.
Qed.

Definition itype_instructions : list IInstr :=
  [ mkI RV_I MicroAssembler.addi (fun x imm => x + imm);
    mkI RV_I MicroAssembler.slti (fun x imm => Z.b2z (s64 x <? imm));
    mkI RV_I MicroAssembler.sltiu (fun x imm => Z.b2z (x <? u64 imm));
    mkI RV_I MicroAssembler.xori Z.lxor;
    mkI RV_I MicroAssembler.ori Z.lor;
    mkI RV_I MicroAssembler.andi Z.land;
    mkI RV_I MicroAssembler.addiw (fun x imm => s32 (x + imm)) ].

Lemma itype_all_ok : Forall itype_ok itype_instructions.
Proof.
  unfold itype_instructions.
  apply Forall_cons; [exact addi_ok|]. apply Forall_cons; [exact slti_ok|].
  apply Forall_cons; [exact sltiu_ok|]. apply Forall_cons; [exact xori_ok|].
  apply Forall_cons; [exact ori_ok|]. apply Forall_cons; [exact andi_ok|].
  apply Forall_cons; [exact addiw_ok|]. apply Forall_nil.
Qed.

(** [lui]; the 16-bit form has no encoding for 0. *)
Lemma lui_ok a rd imm : Supports a RV_I = true -> is_uN 5 rd -> IsUTypeImm imm = true -> imm <> 0 ->
  implements a (MicroAssembler.lui rd imm) (writes rd (fun _ => imm)).
Proof.
  intros HI Hr Hi Hn. emit_if a; [apply c_lui_ok; try assumption; apply Z.eqb_neq; exact Hn|].
  open_emitter a. intros b.
  destruct (EmitUType_spec imm rd LUI (with_buffer b a)) as (e & He & [Hw Hl Hop Hrd Himm]); ranges.
  exists (le_bytes 4 e); split; [exact He|]. apply executes_32; [exact Hw|rewrite Hl; reflexivity|].
  intros s W. eexists; split; [rewrite Interpret_LUI by exact Hop; unfold InterpretLUI, write_rd; rewrite Hrd, Himm; reflexivity|].
  unfold sign_extend; apply uN_sN; lia.
Qed.

(** ** Shifts by an immediate, and unary instructions *)

Lemma shtype_executes f7 sh rs1 f3 rd op f :
  is_uN 7 f7 -> is_uN 6 sh -> is_uN 5 rs1 -> is_uN 3 f3 -> is_uN 5 rd -> is_uN 7 op -> op .& 3 = 3 ->
  (forall s e, is_shtype e f7 sh rs1 f3 rd op -> wf_regs (xregs_ s) ->
     exists v, Interpret P s e = write_rd s e v /\ u64 v = u64 (f (xregs_ s rs1))) ->
  forall a, implements a (MicroAssembler.EmitRType_shamt f7 sh rs1 f3 rd op) (writes rd (fun r => f (r rs1))).
Proof.
  intros ? ? ? ? ? ? H3 H a b.
  destruct (EmitRType_shamt_spec f7 sh rs1 f3 rd op (with_buffer b a)) as (e & He & Hw); try assumption.
  exists (le_bytes 4 e); split; [exact He|].
  apply executes_32; [exact (shtype_word _ _ _ _ _ _ _ Hw)|rewrite (shtype_low _ _ _ _ _ _ _ Hw); exact H3|].
  intros s W. destruct (H s e Hw W) as (v & Hi & Hv). exists v. split; [|exact Hv].
  rewrite Hi. unfold write_rd. rewrite (shtype_rd _ _ _ _ _ _ _ Hw). reflexivity.
Qed.

Lemma shr5_cases sh : is_uN 6 sh -> sh >> 5 = 0 \/ sh >> 5 = 1.
Proof.
  intros H. rewrite Z.shiftr_div_pow2 by lia. unfold is_uN in H.
  pose proof (Z.div_mod sh (2 ^ 5)). pose proof (Z.mod_pos_bound sh (2 ^ 5)). lia.
Qed.

Lemma low_zero_even x : Z.testbit x 0 = false -> low_zero 1 x.
Proof. intros H i Hi; replace i with 0 by lia; exact H. Qed.

(** Decodes a shift word; [E] fixes bit 25, shared by the two fields. *)
Ltac shinterp E :=
  intros s e [Hw Hl Hop Hrd Hrs1 Hf3 Hf7 Hsh] W; rewrite E in Hf7; eexists; split;
  [first [rewrite Interpret_OPIMM by exact Hop; unfold InterpretOPIMM
         | rewrite Interpret_OPIMM32 by exact Hop; unfold InterpretOPIMM32
         | rewrite Interpret_OP32 by exact Hop; unfold InterpretOP32];
   rewrite Hf7; try unfold InterpretOP32_ADDUW; rewrite Hf3, Hrs1; 
   try rewrite Hsh by (apply low_zero_even; reflexivity); reflexivity
  |unfold get_xreg].

Ltac shword f E := apply (shtype_executes _ _ _ _ _ _ f); ranges; try reflexivity; shinterp E.

(** The emitter, its extension, the shift amounts it takes and its function. *)
Record ShInstr := mkSh {
  sh_ext : Extension;
  sh_emit : Z -> Z -> Z -> Assembler -> option Assembler;
  sh_lo : Z;
  sh_hi : Z;
  sh_spec : Z -> Z -> Z
}.

Definition shift_ok (i : ShInstr) : Prop := forall a rd rs1 sh,
  Supports a (sh_ext i) = true -> is_uN 5 rd -> is_uN 5 rs1 -> sh_lo i <= sh < sh_hi i ->
  implements a (sh_emit i rd rs1 sh) (writes rd (fun r => sh_spec i (r rs1) sh)).

Ltac shift_start :=
  intros a rd rs1 sh ? ? ? Hs; cbn [sh_ext sh_emit sh_lo sh_hi sh_spec] in *;
  assert (is_uN 6 sh) as Hu by (unfold is_uN; lia);
  assert ((sh >? 0) && (sh <? XLEN) = true \/ sh = 0) as Hx by (unfold XLEN; lia);
  assert ((sh >? 0) && (sh <? 32) = true \/ sh = 0 \/ 32 <= sh) as Hy by lia.

Lemma slli_ok : shift_ok (mkSh RV_I MicroAssembler.slli 1 64 (fun x sh => x * 2 ^ sh)).
Proof.
  shift_start.
  destruct Hx as [Hx|Hx]; [|lia].
  emit_if a; [apply c_slli_ok; solve [assumption | lia]|].
  open_emitter a. destruct (shr5_cases sh Hu) as [E|E]; shword (fun x => x * 2 ^ sh) E; shifts; reflexivity.
Qed.
Lemma srli_ok : shift_ok (mkSh RV_I MicroAssembler.srli 1 64 (fun x sh => x / 2 ^ sh)).
Proof.
  shift_start.
  destruct Hx as [Hx|Hx]; [|lia].
  emit_if a; [apply c_srli_ok; solve [assumption | lia]|].
  open_emitter a. destruct (shr5_cases sh Hu) as [E|E]; shword (fun x => x / 2 ^ sh) E; shifts; reflexivity.
Qed.
Lemma srai_ok : shift_ok (mkSh RV_I MicroAssembler.srai 1 64 (fun x sh => s64 x / 2 ^ sh)).
Proof.
  shift_start.
  destruct Hx as [Hx|Hx]; [|lia].
  emit_if a; [apply c_srai_ok; solve [assumption | lia]|].
  open_emitter a. destruct (shr5_cases sh Hu) as [E|E]; shword (fun x => s64 x / 2 ^ sh) E; shifts; reflexivity.
Qed.
Lemma slliw_ok : shift_ok (mkSh RV_I MicroAssembler.slliw 1 32 (fun x sh => s32 (x * 2 ^ sh))).
Proof.
  shift_start.
  destruct Hy as [Hy|Hy]; [|lia].
  assert (sh >> 5 = 0) as E by (rewrite Z.shiftr_div_pow2 by lia; apply Z.div_small; lia).
  open_emitter a. shword (fun x => s32 (x * 2 ^ sh)) E. shifts; f_equal; apply uN_eq_sN; casts.
Qed.
Lemma srliw_ok : shift_ok (mkSh RV_I MicroAssembler.srliw 1 32 (fun x sh => s32 (u32 x / 2 ^ sh))).
Proof.
  shift_start.
  destruct Hy as [Hy|Hy]; [|lia].
  assert (sh >> 5 = 0) as E by (rewrite Z.shiftr_div_pow2 by lia; apply Z.div_small; lia).
  open_emitter a. shword (fun x => s32 (u32 x / 2 ^ sh)) E. shifts; reflexivity.
Qed.
Lemma sraiw_ok : shift_ok (mkSh RV_I MicroAssembler.sraiw 1 32 (fun x sh => s32 x / 2 ^ sh)).
Proof.
  shift_start.
  destruct Hx as [Hx|Hx]; [|lia].
  assert (sh >> 5 = 0) as E by (rewrite Z.shiftr_div_pow2 by lia; apply Z.div_small; lia).
  open_emitter a. shword (fun x => s32 x / 2 ^ sh) E. shifts; f_equal; apply sN_small; [lia|apply div_is_sN; [lia|apply sN_range; lia|lia]].
Qed.
Lemma slliuw_ok : shift_ok (mkSh RV_Zba MicroAssembler.slliuw 1 32 (fun x sh => u32 x * 2 ^ sh)).
Proof.
  shift_start.
  destruct Hy as [Hy|Hy]; [|lia].
  assert (sh >> 5 = 0) as E by (rewrite Z.shiftr_div_pow2 by lia; apply Z.div_small; lia).
  open_emitter a. shword (fun x => u32 x * 2 ^ sh) E. shifts; reflexivity.
Qed.
Lemma rori_ok : shift_ok (mkSh RV_Zbb MicroAssembler.rori 0 64 (fun x sh => x / 2 ^ sh + x * 2 ^ (64 - sh))).
Proof.
  shift_start.
  open_emitter a. destruct (shr5_cases sh Hu) as [E|E]; shword (fun x => x / 2 ^ sh + x * 2 ^ (64 - sh)) E; destruct W as [W0 W]; rewrite ror_value, (Z.mod_small sh) by (lia || apply W; assumption); reflexivity.
Qed.
Lemma roriw_ok : shift_ok (mkSh RV_Zbb MicroAssembler.roriw 0 32 (fun x sh => s32 (u32 x / 2 ^ sh + u32 x * 2 ^ (32 - sh)))).
Proof.
  shift_start.
  assert (sh >> 5 = 0) as E by (rewrite Z.shiftr_div_pow2 by lia; apply Z.div_small; lia).
  open_emitter a. shword (fun x => s32 (u32 x / 2 ^ sh + u32 x * 2 ^ (32 - sh))) E. rewrite rorw_value, (Z.mod_small sh) by lia; reflexivity.
Qed.
Lemma bclri_ok : shift_ok (mkSh RV_Zbs MicroAssembler.bclri 0 64 (fun x sh => Z.clearbit x sh)).
Proof.
  shift_start.
  open_emitter a. destruct (shr5_cases sh Hu) as [E|E]; shword (fun x => Z.clearbit x sh) E; rewrite bclr_value, (Z.mod_small sh) by lia; reflexivity.
Qed.
Lemma bexti_ok : shift_ok (mkSh RV_Zbs MicroAssembler.bexti 0 64 (fun x sh => Z.b2z (Z.testbit x sh))).
Proof.
  shift_start.
  open_emitter a. destruct (shr5_cases sh Hu) as [E|E]; shword (fun x => Z.b2z (Z.testbit x sh)) E; rewrite bext_value, (Z.mod_small sh) by lia; reflexivity.
Qed.
Lemma binvi_ok : shift_ok (mkSh RV_Zbs MicroAssembler.binvi 0 64 (fun x sh => x .^ 2 ^ sh)).
Proof.
  shift_start.
  open_emitter a. destruct (shr5_cases sh Hu) as [E|E]; shword (fun x => x .^ 2 ^ sh) E; rewrite binv_value, (Z.mod_small sh) by lia; reflexivity.
Qed.
Lemma bseti_ok : shift_ok (mkSh RV_Zbs MicroAssembler.bseti 0 64 (fun x sh => Z.setbit x sh)).
Proof.
  shift_start.
  open_emitter a. destruct (shr5_cases sh Hu) as [E|E]; shword (fun x => Z.setbit x sh) E; rewrite bset_value, (Z.mod_small sh) by lia; reflexivity.
Qed.

Definition shift_instructions : list ShInstr :=
  [ mkSh RV_I MicroAssembler.slli 1 64 (fun x sh => x * 2 ^ sh);
    mkSh RV_I MicroAssembler.srli 1 64 (fun x sh => x / 2 ^ sh);
    mkSh RV_I MicroAssembler.srai 1 64 (fun x sh => s64 x / 2 ^ sh);
    mkSh RV_I MicroAssembler.slliw 1 32 (fun x sh => s32 (x * 2 ^ sh));
    mkSh RV_I MicroAssembler.srliw 1 32 (fun x sh => s32 (u32 x / 2 ^ sh));
    mkSh RV_I MicroAssembler.sraiw 1 32 (fun x sh => s32 x / 2 ^ sh);
    mkSh RV_Zba MicroAssembler.slliuw 1 32 (fun x sh => u32 x * 2 ^ sh);
    mkSh RV_Zbb MicroAssembler.rori 0 64 (fun x sh => x / 2 ^ sh + x * 2 ^ (64 - sh));
    mkSh RV_Zbb MicroAssembler.roriw 0 32 (fun x sh => s32 (u32 x / 2 ^ sh + u32 x * 2 ^ (32 - sh)));
    mkSh RV_Zbs MicroAssembler.bclri 0 64 (fun x sh => Z.clearbit x sh);
    mkSh RV_Zbs MicroAssembler.bexti 0 64 (fun x sh => Z.b2z (Z.testbit x sh));
    mkSh RV_Zbs MicroAssembler.binvi 0 64 (fun x sh => x .^ 2 ^ sh);
    mkSh RV_Zbs MicroAssembler.bseti 0 64 (fun x sh => Z.setbit x sh) ].

Lemma shift_all_ok : Forall shift_ok shift_instructions.
Proof.
  unfold shift_instructions.
  apply Forall_cons; [exact slli_ok|].
  apply Forall_cons; [exact srli_ok|].
  apply Forall_cons; [exact srai_ok|].
  apply Forall_cons; [exact slliw_ok|].
  apply Forall_cons; [exact srliw_ok|].
  apply Forall_cons; [exact sraiw_ok|].
  apply Forall_cons; [exact slliuw_ok|].
  apply Forall_cons; [exact rori_ok|].
  apply Forall_cons; [exact roriw_ok|].
  apply Forall_cons; [exact bclri_ok|].
  apply Forall_cons; [exact bexti_ok|].
  apply Forall_cons; [exact binvi_ok|].
  apply Forall_cons; [exact bseti_ok|].
  apply Forall_nil.
Qed.

(** Unary instructions. *)
Record UInstr := mkU {
  u_ext : Extension;
  u_emit : Z -> Z -> Assembler -> option Assembler;
  u_spec : Z -> Z
}.

Definition unary_ok (i : UInstr) : Prop := forall a rd rs1,
  Supports a (u_ext i) = true -> is_uN 5 rd -> is_uN 5 rs1 ->
  implements a (u_emit i rd rs1) (writes rd (fun r => u_spec i (r rs1))).

Lemma clz_ok : unary_ok (mkU RV_Zbb MicroAssembler.clz (fun x => countl_zero 64 x)).
Proof.
  intros a rd rs1 ? ? ?; cbn [u_ext u_emit u_spec] in *.
  assert (0 >> 5 = 0) as E by reflexivity. open_emitter a. shword (fun x => countl_zero 64 x) E. reflexivity.
Qed.
Lemma ctz_ok : unary_ok (mkU RV_Zbb MicroAssembler.ctz (fun x => countr_zero 64 x)).
Proof.
  intros a rd rs1 ? ? ?; cbn [u_ext u_emit u_spec] in *.
  assert (1 >> 5 = 0) as E by reflexivity. open_emitter a. shword (fun x => countr_zero 64 x) E. reflexivity.
Qed.
Lemma cpop_ok : unary_ok (mkU RV_Zbb MicroAssembler.cpop (popcount)).
Proof.
  intros a rd rs1 ? ? ?; cbn [u_ext u_emit u_spec] in *.
  assert (2 >> 5 = 0) as E by reflexivity. open_emitter a. shword (popcount) E. reflexivity.
Qed.
Lemma clzw_ok : unary_ok (mkU RV_Zbb MicroAssembler.clzw (fun x => countl_zero 32 (u32 x))).
Proof.
  intros a rd rs1 ? ? ?; cbn [u_ext u_emit u_spec] in *.
  assert (0 >> 5 = 0) as E by reflexivity. open_emitter a. shword (fun x => countl_zero 32 (u32 x)) E. reflexivity.
Qed.
Lemma ctzw_ok : unary_ok (mkU RV_Zbb MicroAssembler.ctzw (fun x => countr_zero 32 (u32 x))).
Proof.
  intros a rd rs1 ? ? ?; cbn [u_ext u_emit u_spec] in *.
  assert (1 >> 5 = 0) as E by reflexivity. open_emitter a. shword (fun x => countr_zero 32 (u32 x)) E. reflexivity.
Qed.
Lemma cpopw_ok : unary_ok (mkU RV_Zbb MicroAssembler.cpopw (fun x => popcount (u32 x))).
Proof.
  intros a rd rs1 ? ? ?; cbn [u_ext u_emit u_spec] in *.
  assert (2 >> 5 = 0) as E by reflexivity. open_emitter a. shword (fun x => popcount (u32 x)) E. reflexivity.
Qed.
Lemma sextb_ok : unary_ok (mkU RV_Zbb MicroAssembler.sextb (fun x => s8 x)).
Proof.
  intros a rd rs1 ? ? ?; cbn [u_ext u_emit u_spec] in *.
  emit_if a; [apply c_sextb_ok; assumption|].
  assert (4 >> 5 = 0) as E by reflexivity. open_emitter a. shword (fun x => s8 x) E. unfold sextb, XLEN; bits_solve.
Qed.
Lemma sexth_ok : unary_ok (mkU RV_Zbb MicroAssembler.sexth (fun x => s16 x)).
Proof.
  intros a rd rs1 ? ? ?; cbn [u_ext u_emit u_spec] in *.
  emit_if a; [apply c_sexth_ok; assumption|].
  assert (5 >> 5 = 0) as E by reflexivity. open_emitter a. shword (fun x => s16 x) E. unfold sexth, XLEN; bits_solve.
Qed.
Lemma zexth_ok : unary_ok (mkU RV_Zbb MicroAssembler.zexth (fun x => u16 x)).
Proof.
  intros a rd rs1 ? ? ?; cbn [u_ext u_emit u_spec] in *.
  emit_if a; [apply c_zexth_ok; assumption|].
  assert (0 >> 5 = 0) as E by reflexivity. open_emitter a. shword (fun x => u16 x) E. unfold zexth, XLEN; bits_solve.
Qed.
Lemma orcb_ok : unary_ok (mkU RV_Zbb MicroAssembler.orcb (RvAlu.orcb)).
Proof.
  intros a rd rs1 ? ? ?; cbn [u_ext u_emit u_spec] in *.
  assert (7 >> 5 = 0) as E by reflexivity. open_emitter a. shword (RvAlu.orcb) E. reflexivity.
Qed.
Lemma rev8_ok : unary_ok (mkU RV_Zbb MicroAssembler.rev8 (RvAlu.rev8)).
Proof.
  intros a rd rs1 ? ? ?; cbn [u_ext u_emit u_spec] in *.
  assert (24 >> 5 = 0) as E by reflexivity. open_emitter a. shword (RvAlu.rev8) E. reflexivity.
Qed.

Definition unary_instructions : list UInstr :=
  [ mkU RV_Zbb MicroAssembler.clz (fun x => countl_zero 64 x);
    mkU RV_Zbb MicroAssembler.ctz (fun x => countr_zero 64 x);
    mkU RV_Zbb MicroAssembler.cpop (popcount);
    mkU RV_Zbb MicroAssembler.clzw (fun x => countl_zero 32 (u32 x));
    mkU RV_Zbb MicroAssembler.ctzw (fun x => countr_zero 32 (u32 x));
    mkU RV_Zbb MicroAssembler.cpopw (fun x => popcount (u32 x));
    mkU RV_Zbb MicroAssembler.sextb (fun x => s8 x);
    mkU RV_Zbb MicroAssembler.sexth (fun x => s16 x);
    mkU RV_Zbb MicroAssembler.zexth (fun x => u16 x);
    mkU RV_Zbb MicroAssembler.orcb (RvAlu.orcb);
    mkU RV_Zbb MicroAssembler.rev8 (RvAlu.rev8) ].

Lemma unary_all_ok : Forall unary_ok unary_instructions.
Proof.
  unfold unary_instructions.
  apply Forall_cons; [exact clz_ok|].
  apply Forall_cons; [exact ctz_ok|].
  apply Forall_cons; [exact cpop_ok|].
  apply Forall_cons; [exact clzw_ok|].
  apply Forall_cons; [exact ctzw_ok|].
  apply Forall_cons; [exact cpopw_ok|].
  apply Forall_cons; [exact sextb_ok|].
  apply Forall_cons; [exact sexth_ok|].
  apply Forall_cons; [exact zexth_ok|].
  apply Forall_cons; [exact orcb_ok|].
  apply Forall_cons; [exact rev8_ok|].
  apply Forall_nil.
Qed.

End Correct.

(** ** The tables *)

(** An assembler with the extensions of the RVA23 profile. *)
Definition asm_rva23 : Assembler := MkAssembler [] RVA23 0 false kNone 0 0 0.

(** C12.  Every register-register instruction the assembler can emit (RV64I, M,
    Zba, Zbb, Zbc, Zbs, Zicond): for every extension set that includes the
    instruction's own and every choice of registers, emission succeeds, and the
    code appended (16-bit or 32-bit form) makes the simulator write exactly the
    function of the table's last column to [rd], advance the pc past the code
    and change nothing else. *)
Theorem register_instructions_correct P i a rd rs1 rs2 :
  In i rtype_instructions -> Supports a (r_ext i) = true ->
  is_uN 5 rd -> is_uN 5 rs1 -> is_uN 5 rs2 ->
  implements P a (r_emit i rd rs1 rs2) (writes rd (fun r => r_spec i (r rs1) (r rs2))).
Proof.
  intros Hi; revert a rd rs1 rs2. exact (proj1 (Forall_forall _ _) (rtype_all_ok P) i Hi).
Qed.

Lemma register_instructions_correct_witness :
  implements plain_platform asm_rva23 (MicroAssembler.add A0 A1 A0) (writes A0 (fun r => r A1 + r A0)).
Proof.
  apply (register_instructions_correct plain_platform (mkR RV_I MicroAssembler.add (fun x y => x + y)));
    [exact (nth_error_In rtype_instructions 0 eq_refl)|reflexivity|vm_compute; split; congruence..].
Defined.

(** C24.  The same for the instructions with a 12-bit immediate, including
    [addi] with its seven forms (addi, c.li, c.addi, c.addi16sp, c.addi4spn,
    c.nop, c.mv). *)
Theorem immediate_instructions_correct P i a rd rs1 imm :
  In i itype_instructions -> Supports a (i_ext i) = true ->
  is_uN 5 rd -> is_uN 5 rs1 -> IsITypeImm imm = true ->
  implements P a (i_emit i rd rs1 imm) (writes rd (fun r => i_spec i (r rs1) imm)).
Proof.
  intros Hi; revert a rd rs1 imm. exact (proj1 (Forall_forall _ _) (itype_all_ok P) i Hi).
Qed.

Lemma immediate_instructions_correct_witness :
  implements plain_platform asm_rva23 (MicroAssembler.addi SP SP (-16)) (writes SP (fun r => r SP + -16)).
Proof.
  apply (immediate_instructions_correct plain_platform (mkI RV_I MicroAssembler.addi (fun x imm => x + imm)));
    [exact (nth_error_In itype_instructions 0 eq_refl)|reflexivity|vm_compute; split; congruence..|reflexivity].
Defined.

(**  The same for the shifts, rotations and single-bit instructions with an
    immediate amount (within the bounds the table gives) and for the unary
    instructions (counts, extensions, orc.b, rev8). *)
Theorem shift_unary_instructions_correct P :
  (forall i a rd rs1 sh, In i shift_instructions -> Supports a (sh_ext i) = true ->
     is_uN 5 rd -> is_uN 5 rs1 -> sh_lo i <= sh < sh_hi i ->
     implements P a (sh_emit i rd rs1 sh) (writes rd (fun r => sh_spec i (r rs1) sh))) /\
  (forall i a rd rs1, In i unary_instructions -> Supports a (u_ext i) = true -> is_uN 5 rd -> is_uN 5 rs1 ->
     implements P a (u_emit i rd rs1) (writes rd (fun r => u_spec i (r rs1)))).
Proof.
  split.
  - intros i a rd rs1 sh Hi; revert a rd rs1 sh. exact (proj1 (Forall_forall _ _) (shift_all_ok P) i Hi).
  - intros i a rd rs1 Hi; revert a rd rs1. exact (proj1 (Forall_forall _ _) (unary_all_ok P) i Hi).
Qed.

Lemma shift_unary_instructions_correct_witness :
  implements plain_platform asm_rva23 (MicroAssembler.srai A0 A1 63) (writes A0 (fun r => s64 (r A1) / 2 ^ 63)).
Proof.
  apply (proj1 (shift_unary_instructions_correct plain_platform)
           (mkSh RV_I MicroAssembler.srai 1 64 (fun x sh => s64 x / 2 ^ sh)));
    [exact (nth_error_In shift_instructions 2 eq_refl)|reflexivity|vm_compute; split; congruence..].
Defined.
