(* ===== verification/RvLabels.v ===== *)
(** * Labels, branches and jumps ([assembler_base.h] [Label], [assembler_riscv.cc])

    A label is bound to a position or carries five lists of unresolved
    branches, one per instruction class, threaded through the offset fields of
    the branches themselves.  A branch to a bound label is emitted with its
    final offset; one to an unbound label is emitted with the distance to the
    previous branch of its class (0 for the first) and patched by [Bind].

    [BranchOffsetError] is [BailoutWithBranchOffsetError]: the function is
    assembled again with a higher far-branch level.  [Failed] is a failed
    [ASSERT] or a [FATAL]. *)

From Stdlib Require Import ZArith List Bool.
From S2P Require Import Prelude Utils RvEncoding RvAssembler.
Import ListNotations.
Import MicroAssembler.

(** ** [class Label] *)

Record Label : Set := MkLabel {
  position_ : Z;
  unresolved_cb_ : Z;
  unresolved_cj_ : Z;
  unresolved_b_ : Z;
  unresolved_j_ : Z;
  unresolved_far_ : Z
}.

Definition new_label : Label := MkLabel (-1) (-1) (-1) (-1) (-1) (-1).

Definition IsBound (l : Label) : bool := negb (position_ l =? -1).
Definition IsLinked (l : Label) : bool :=
  negb (unresolved_cb_ l =? -1) || negb (unresolved_cj_ l =? -1) || negb (unresolved_b_ l =? -1)
  || negb (unresolved_j_ l =? -1) || negb (unresolved_far_ l =? -1).

(** The class of a branch selects its list. *)
Inductive BranchClass : Set := class_cb | class_cj | class_b | class_j | class_far.

Definition unresolved (c : BranchClass) (l : Label) : Z :=
  match c with
  | class_cb => unresolved_cb_ l | class_cj => unresolved_cj_ l | class_b => unresolved_b_ l
  | class_j => unresolved_j_ l | class_far => unresolved_far_ l
  end.

Definition set_unresolved (c : BranchClass) (p : Z) (l : Label) : Label :=
  match c with
  | class_cb => MkLabel (position_ l) p (unresolved_cj_ l) (unresolved_b_ l) (unresolved_j_ l) (unresolved_far_ l)
  | class_cj => MkLabel (position_ l) (unresolved_cb_ l) p (unresolved_b_ l) (unresolved_j_ l) (unresolved_far_ l)
  | class_b => MkLabel (position_ l) (unresolved_cb_ l) (unresolved_cj_ l) p (unresolved_j_ l) (unresolved_far_ l)
  | class_j => MkLabel (position_ l) (unresolved_cb_ l) (unresolved_cj_ l) (unresolved_b_ l) p (unresolved_far_ l)
  | class_far => MkLabel (position_ l) (unresolved_cb_ l) (unresolved_cj_ l) (unresolved_b_ l) (unresolved_j_ l) p
  end.

(** [link_cb], [link_cj], [link_b], [link_j] and [link_far] ([DEFINE_BRANCH_CLASS]). *)
Definition link (c : BranchClass) (position : Z) (l : Label) : option (Z * Label) :=
  let position := s32 position in
  let head := unresolved c l in
  ASSERT (position >? head);;
  if head =? -1 then Some (0, set_unresolved c position l)
  else
    let offset := s32 (position - head) in
    ASSERT (offset >? 0);;
    Some (offset, set_unresolved c position l).

Definition BindTo (position : Z) (l : Label) : option Label :=
  ASSERT (negb (IsBound l));;
  ASSERT (negb (IsLinked l));;
  let l := MkLabel (s32 position) (unresolved_cb_ l) (unresolved_cj_ l) (unresolved_b_ l)
             (unresolved_j_ l) (unresolved_far_ l) in
  ASSERT (IsBound l);;
  Some l.

(** ** Results *)

Inductive label_result (A : Type) : Type :=
  | Done (a : A)
  | BranchOffsetError
  | Failed.
Arguments Done {A} a.
Arguments BranchOffsetError {A}.
Arguments Failed {A}.

Definition lift {A} (o : option A) : label_result A :=
  match o with Some a => Done a | None => Failed end.
Definition lbind {A B} (x : label_result A) (f : A -> label_result B) : label_result B :=
  match x with Done a => f a | BranchOffsetError => BranchOffsetError | Failed => Failed end.
Notation "'do' x <- e ; k" := (lbind e (fun x => k))
  (at level 10, x pattern, e at level 150, k at level 200).

(** [Assembler::kNearJump] and [kFarJump]. *)
Inductive JumpDistance : Set := kFarJump | kNearJump.
Definition is_near (d : JumpDistance) : bool := match d with kNearJump => true | kFarJump => false end.

(** ** Emission *)

Definition InvertFunct3 (func : Z) : option Z :=
  if func =? BEQ then Some (BNE : Z)
  else if func =? BNE then Some (BEQ : Z)
  else if func =? BGE then Some (BLT : Z)
  else if func =? BGEU then Some (BLTU : Z)
  else if func =? BLT then Some (BGE : Z)
  else if func =? BLTU then Some (BGEU : Z)
  else None.

(** [EmitBType(length, rs2, rs1, InvertFunct3(func), BRANCH)]: skips the far jump. *)
Definition EmitInverted (length rs2 rs1 func : Z) (a : Assembler) : option Assembler :=
  match InvertFunct3 func with
  | Some f => EmitBType length rs2 rs1 f BRANCH a
  | None => None
  end.

(** [EmitUType(hi, FAR_TMP, AUIPC); EmitIType(lo, FAR_TMP, F3_0, ZR, JALR)]. *)
Definition EmitFarJump (offset : Z) (a : Assembler) : option Assembler :=
  let lo := ImmLo offset in
  let hi := ImmHi offset in
  ASSERT (IsUTypeImm hi);;
  match EmitUType hi FAR_TMP AUIPC a with
  | Some a => EmitIType lo FAR_TMP F3_0 ZR JALR a
  | None => None
  end.

(** The compressed test-and-skip of the far forward branches; [None] when it does not apply. *)
Definition CompressedSkip (rs1 rs2 func : Z) (a : Assembler) : bool :=
  Supports a RV_C && ((func =? BEQ) || (func =? BNE))
  && ((rs1 =? ZR) && IsCRs1p rs2 || (rs2 =? ZR) && IsCRs1p rs1).

Definition EmitSkip (compressed length : Z) (rs1 rs2 func : Z) (a : Assembler) : option (Z * Assembler) :=
  if CompressedSkip rs1 rs2 func a then
    match Emit16 (Some (COpcode_value (if func =? BEQ then C_BNEZ else C_BEQZ))
                  .|? EncodeCRs1p (if rs1 =? ZR then rs2 else rs1) .|? EncodeCBImm compressed) a with
    | Some a => Some (compressed, a)
    | None => None
    end
  else
    match EmitInverted length rs2 rs1 func a with
    | Some a => Some (length, a)
    | None => None
    end.

(** [ASSERT_EQUAL(end - start, kFarBranchLength)]. *)
Definition AssertLength (start length : Z) (a : Assembler) : option Assembler :=
  ASSERT (Position a - start =? length);; Some a.

Definition EmitBranch (rs1 rs2 : Z) (label : Label) (func : Z) (distance : JumpDistance) (a : Assembler)
  : label_result (Label * Assembler) :=
  let start := Position a in
  if IsBound label then
    let offset := position_ label - Position a in
    if IsBTypeImm offset then
      do a <- lift (EmitBType offset rs2 rs1 func BRANCH a); Done (label, a)
    else if IsJTypeImm (offset + 4) then
      do a <- lift (EmitInverted 8 rs2 rs1 func a);
      let offset := position_ label - Position a in
      do a <- lift (EmitJType offset ZR JAL a);
      do a <- lift (AssertLength start 8 a);
      Done (label, a)
    else
      do a <- lift (EmitInverted 12 rs2 rs1 func a);
      let offset := position_ label - Position a in
      do a <- lift (EmitFarJump offset a);
      do a <- lift (AssertLength start 12 a);
      Done (label, a)
  else if is_near distance then
    do (offset, label) <- lift (link class_b (Position a) label);
    if negb (IsBTypeImm offset) then Failed
    else do a <- lift (EmitBType offset rs2 rs1 func BRANCH a); Done (label, a)
  else if far_branch_level_ a =? 0 then
    do (offset, label) <- lift (link class_b (Position a) label);
    if negb (IsBTypeImm offset) then BranchOffsetError
    else do a <- lift (EmitBType offset rs2 rs1 func BRANCH a); Done (label, a)
  else if far_branch_level_ a =? 1 then
    do (kFarBranchLength, a) <- lift (EmitSkip 6 8 rs1 rs2 func a);
    do (offset, label) <- lift (link class_j (Position a) label);
    do a <- lift (EmitJType offset ZR JAL a);
    do a <- lift (AssertLength start kFarBranchLength a);
    Done (label, a)
  else
    do (kFarBranchLength, a) <- lift (EmitSkip 10 12 rs1 rs2 func a);
    do (offset, label) <- lift (link class_far (Position a) label);
    do a <- lift (EmitFarJump offset a);
    do a <- lift (AssertLength start kFarBranchLength a);
    Done (label, a).

Definition EmitJump (rd : Z) (label : Label) (distance : JumpDistance) (a : Assembler)
  : label_result (Label * Assembler) :=
  if IsBound label then
    let offset := position_ label - Position a in
    if IsJTypeImm offset then do a <- lift (EmitJType offset rd JAL a); Done (label, a)
    else do a <- lift (EmitFarJump offset a); Done (label, a)
  else if is_near distance then
    do (offset, label) <- lift (link class_j (Position a) label);
    if negb (IsJTypeImm offset) then Failed
    else do a <- lift (EmitJType offset rd JAL a); Done (label, a)
  else if far_branch_level_ a <? 2 then
    do (offset, label) <- lift (link class_j (Position a) label);
    if negb (IsJTypeImm offset) then BranchOffsetError
    else do a <- lift (EmitJType offset rd JAL a); Done (label, a)
  else
    do (offset, label) <- lift (link class_far (Position a) label);
    do a <- lift (EmitFarJump offset a);
    Done (label, a).

Definition EmitCBranch (rs1p : Z) (label : Label) (op : COpcode) (a : Assembler)
  : label_result (Label * Assembler) :=
  do (offset, label) <- (if IsBound label then Done (position_ label - Position a, label)
                         else lift (link class_cb (Position a) label));
  if negb (IsCBImm offset) then Failed
  else do a <- lift (Emit16 (Some (COpcode_value op) .|? EncodeCRs1p rs1p .|? EncodeCBImm offset) a);
       Done (label, a).

Definition EmitCJump (label : Label) (op : COpcode) (a : Assembler) : label_result (Label * Assembler) :=
  do (offset, label) <- (if IsBound label then Done (position_ label - Position a, label)
                         else lift (link class_cj (Position a) label));
  if negb (IsCJImm offset) then Failed
  else do a <- lift (Emit16 (Some (COpcode_value op) .|? EncodeCJImm offset) a);
       Done (label, a).

(** ** Branch and jump instructions *)

Definition c_j (label : Label) (a : Assembler) : label_result (Label * Assembler) :=
  if Supports a RV_C then EmitCJump label C_J a else Failed.
Definition c_beqz (rs1p : Z) (label : Label) (a : Assembler) : label_result (Label * Assembler) :=
  if Supports a RV_C then EmitCBranch rs1p label C_BEQZ a else Failed.
Definition c_bnez (rs1p : Z) (label : Label) (a : Assembler) : label_result (Label * Assembler) :=
  if Supports a RV_C then EmitCBranch rs1p label C_BNEZ a else Failed.

Definition jal (rd : Z) (label : Label) (distance : JumpDistance) (a : Assembler)
  : label_result (Label * Assembler) :=
  if negb (Supports a RV_I) then Failed
  else if Supports a RV_C && (is_near distance || IsBound label && IsCJImm (position_ label - Position a))
          && (rd =? ZR)
  then c_j label a
  else EmitJump rd label distance a.

Definition j (label : Label) (distance : JumpDistance) (a : Assembler) : label_result (Label * Assembler) :=
  jal ZR label distance a.

(** [beq] and [bne] against x0 have a 16-bit form. *)
Definition beq (rs1 rs2 : Z) (label : Label) (distance : JumpDistance) (a : Assembler)
  : label_result (Label * Assembler) :=
  if negb (Supports a RV_I) then Failed
  else if Supports a RV_C && (is_near distance || IsBound label && IsCBImm (position_ label - Position a)) then
    if (rs1 =? ZR) && IsCRs1p rs2 then c_beqz rs2 label a
    else if (rs2 =? ZR) && IsCRs1p rs1 then c_beqz rs1 label a
    else EmitBranch rs1 rs2 label BEQ distance a
  else EmitBranch rs1 rs2 label BEQ distance a.

Definition bne (rs1 rs2 : Z) (label : Label) (distance : JumpDistance) (a : Assembler)
  : label_result (Label * Assembler) :=
  if negb (Supports a RV_I) then Failed
  else if Supports a RV_C && (is_near distance || IsBound label && IsCBImm (position_ label - Position a)) then
    if (rs1 =? ZR) && IsCRs1p rs2 then c_bnez rs2 label a
    else if (rs2 =? ZR) && IsCRs1p rs1 then c_bnez rs1 label a
    else EmitBranch rs1 rs2 label BNE distance a
  else EmitBranch rs1 rs2 label BNE distance a.

Definition blt (rs1 rs2 : Z) (label : Label) (distance : JumpDistance) (a : Assembler)
  : label_result (Label * Assembler) :=
  if negb (Supports a RV_I) then Failed else EmitBranch rs1 rs2 label BLT distance a.
Definition bge (rs1 rs2 : Z) (label : Label) (distance : JumpDistance) (a : Assembler)
  : label_result (Label * Assembler) :=
  if negb (Supports a RV_I) then Failed else EmitBranch rs1 rs2 label BGE distance a.
Definition bltu (rs1 rs2 : Z) (label : Label) (distance : JumpDistance) (a : Assembler)
  : label_result (Label * Assembler) :=
  if negb (Supports a RV_I) then Failed else EmitBranch rs1 rs2 label BLTU distance a.
Definition bgeu (rs1 rs2 : Z) (label : Label) (distance : JumpDistance) (a : Assembler)
  : label_result (Label * Assembler) :=
  EmitBranch rs1 rs2 label BGEU distance a.

Definition bgt (rs1 rs2 : Z) := blt rs2 rs1.
Definition ble (rs1 rs2 : Z) := bge rs2 rs1.
Definition bgtu (rs1 rs2 : Z) := bltu rs2 rs1.
Definition bleu (rs1 rs2 : Z) := bgeu rs2 rs1.
Definition beqz (rs : Z) := beq rs ZR.
Definition bnez (rs : Z) := bne rs ZR.
Definition blez (rs : Z) := bge ZR rs.
Definition bgez (rs : Z) := bge rs ZR.
Definition bltz (rs : Z) := blt rs ZR.
Definition bgtz (rs : Z) := blt ZR rs.

(** ** Patching *)

Fixpoint le_value (bytes : list Z) : Z :=
  match bytes with
  | [] => 0
  | b :: t => b .| (le_value t << 8)
  end.

(** [buffer_.Load<T>(position)] and [buffer_.Store<T>(position, value)], in bounds. *)
Definition ReadN (n : nat) (position : Z) (a : Assembler) : option Z :=
  ASSERT ((0 <=? position) && (position + Z.of_nat n <=? Position a));;
  Some (le_value (firstn n (skipn (Z.to_nat position) (buffer_ a)))).
Definition WriteN (n : nat) (position v : Z) (a : Assembler) : option Assembler :=
  ASSERT ((0 <=? position) && (position + Z.of_nat n <=? Position a));;
  Some (with_buffer (firstn (Z.to_nat position) (buffer_ a) ++ le_bytes n v
                     ++ skipn (Z.to_nat position + n) (buffer_ a)) a).

Definition Read16 := ReadN 2.
Definition Read32 := ReadN 4.
Definition Write16 (position : Z) (instruction : option Z) (a : Assembler) : option Assembler :=
  match instruction with Some e => WriteN 2 position (u16 e) a | None => None end.
Definition Write32 (position : Z) (instruction : option Z) (a : Assembler) : option Assembler :=
  match instruction with Some e => WriteN 4 position (u32 e) a | None => None end.

(** Each returns the offset the branch held, the distance to the previous one. *)
Definition UpdateCBOffset (branch_position new_offset : Z) (a : Assembler) : label_result (Z * Assembler) :=
  do instr <- lift (Read16 branch_position a);
  if negb ((CInstr.opcode instr =? C_BEQZ) || (CInstr.opcode instr =? C_BNEZ)) then Failed
  else
    let old_offset := CInstr.b_imm instr in
    if negb (IsCBImm new_offset) then Failed
    else
      do a <- lift (Write16 branch_position
                (Some (CInstr.opcode instr) .|? EncodeCRs1p (CInstr.rs1p instr) .|? EncodeCBImm new_offset) a);
      Done (old_offset, a).

Definition UpdateCJOffset (branch_position new_offset : Z) (a : Assembler) : label_result (Z * Assembler) :=
  do instr <- lift (Read16 branch_position a);
  if negb ((CInstr.opcode instr =? C_J) || (CInstr.opcode instr =? C_JAL)) then Failed
  else
    let old_offset := CInstr.j_imm instr in
    if negb (IsCJImm new_offset) then Failed
    else
      do a <- lift (Write16 branch_position (Some (CInstr.opcode instr) .|? EncodeCJImm new_offset) a);
      Done (old_offset, a).

Definition UpdateBOffset (branch_position new_offset : Z) (a : Assembler) : label_result (Z * Assembler) :=
  do instr <- lift (Read32 branch_position a);
  if negb (Instr.opcode instr =? BRANCH) then Failed
  else
    let old_offset := Instr.btype_imm instr in
    if negb (IsBTypeImm new_offset) then BranchOffsetError
    else
      do a <- lift (Write32 branch_position
                (EncodeRs2 (Instr.rs2 instr) .|? EncodeRs1 (Instr.rs1 instr) .|? EncodeFunct3 (Instr.funct3 instr)
                 .|? EncodeOpcode (Instr.opcode instr) .|? EncodeBTypeImm new_offset) a);
      Done (old_offset, a).

Definition UpdateJOffset (branch_position new_offset : Z) (a : Assembler) : label_result (Z * Assembler) :=
  do instr <- lift (Read32 branch_position a);
  if negb (Instr.opcode instr =? JAL) then Failed
  else
    let old_offset := Instr.jtype_imm instr in
    if negb (IsJTypeImm new_offset) then BranchOffsetError
    else
      do a <- lift (Write32 branch_position
                (EncodeRd (Instr.rd instr) .|? EncodeOpcode (Instr.opcode instr) .|? EncodeJTypeImm new_offset) a);
      Done (old_offset, a).

Definition UpdateFarOffset (branch_position new_offset : Z) (a : Assembler) : label_result (Z * Assembler) :=
  do auipc_instr <- lift (Read32 branch_position a);
  do jr_instr <- lift (Read32 (branch_position + 4) a);
  if negb ((Instr.opcode auipc_instr =? AUIPC) && (Instr.rd auipc_instr =? FAR_TMP)
           && (Instr.opcode jr_instr =? JALR) && (Instr.rd jr_instr =? ZR)
           && (Instr.funct3 jr_instr =? F3_0) && (Instr.rs1 jr_instr =? FAR_TMP)) then Failed
  else
    let old_offset := Instr.utype_imm auipc_instr + Instr.itype_imm jr_instr in
    let lo := ImmLo new_offset in
    let hi := ImmHi new_offset in
    if negb (IsUTypeImm hi) then Failed
    else
      do a <- lift (Write32 branch_position (EncodeUTypeImm hi .|? EncodeRd FAR_TMP .|? EncodeOpcode AUIPC) a);
      do a <- lift (Write32 (branch_position + 4)
                (EncodeITypeImm lo .|? EncodeRs1 FAR_TMP .|? EncodeFunct3 F3_0 .|? EncodeRd ZR
                 .|? EncodeOpcode JALR) a);
      Done (old_offset, a).

Definition UpdateOffset (c : BranchClass) : Z -> Z -> Assembler -> label_result (Z * Assembler) :=
  match c with
  | class_cb => UpdateCBOffset | class_cj => UpdateCJOffset | class_b => UpdateBOffset
  | class_j => UpdateJOffset | class_far => UpdateFarOffset
  end.

(** The loop of [BIND(head, update)].  Every branch of a list is at a smaller
    position than the one before it, so the size of the buffer bounds the number
    of iterations. *)
Fixpoint bind_loop (fuel : nat) (c : BranchClass) (target_position branch_position : Z) (a : Assembler)
  : label_result Assembler :=
  if branch_position <? 0 then Done a
  else
    match fuel with
    | O => Failed
    | S fuel =>
        let alignment := if Supports a RV_C then 2 else 4 in
        if negb (IsAligned branch_position alignment 0) then Failed
        else
          let new_offset := target_position - branch_position in
          if negb (IsAligned new_offset alignment 0) then Failed
          else
            do (old_offset, a) <- UpdateOffset c branch_position new_offset a;
            if old_offset =? 0 then Done a
            else bind_loop fuel c target_position (branch_position - old_offset) a
    end.

Definition BIND (c : BranchClass) (target_position : Z) (label : Label) (a : Assembler)
  : label_result (Label * Assembler) :=
  do a <- bind_loop (S (length (buffer_ a))) c target_position (unresolved c label) a;
  Done (set_unresolved c (-1) label, a).

Definition Bind (label : Label) (a : Assembler) : label_result (Label * Assembler) :=
  if IsBound label then Failed
  else
    let target_position := Position a in
    do (label, a) <- BIND class_cb target_position label a;
    do (label, a) <- BIND class_cj target_position label a;
    do (label, a) <- BIND class_b target_position label a;
    do (label, a) <- BIND class_j target_position label a;
    do (label, a) <- BIND class_far target_position label a;
    do label <- lift (BindTo target_position label);
    Done (label, a).
