(* ===== verification/RvMacros.v ===== *)
(** * Macro instructions ([class Assembler] of [assembler_riscv.{h,cc}])

    The machine-independent interface of the assembler as sequences of
    [MicroAssembler] instructions: constants, arithmetic and logic with
    immediates of any size, extensions, deferred comparisons consumed by a
    branch, a set or a conditional zero, arithmetic with overflow checks, the
    stack.  [TMP] and [TMP2] are scratch registers. *)

From Stdlib Require Import ZArith List Bool.
From S2P Require Import Prelude Utils RvEncoding RvAssembler RvLabels.
Import ListNotations.
Import MicroAssembler.

(** ** Types *)

Inductive OperandSize : Set :=
  | kByte | kUnsignedByte | kTwoBytes | kUnsignedTwoBytes | kFourBytes | kUnsignedFourBytes | kEightBytes
  | kSWord | kDWord | kWordPair | kRegList | kQWord.

Abbreviation kWordBytes := kEightBytes.

Definition OperandSizeInBits (os : OperandSize) : option Z :=
  match os with
  | kByte | kUnsignedByte => Some 8
  | kTwoBytes | kUnsignedTwoBytes => Some 16
  | kFourBytes | kUnsignedFourBytes => Some 32
  | kEightBytes => Some 64
  | _ => None
  end.

Definition kWordSize : Z := 8.
Definition kSmiTagSize : Z := 1.
Definition kSmiTagShift : Z := 1.
Definition kSmiTagMask : Z := 1.

(** [Condition] without its aliases and sentinels. *)
Inductive Condition : Set :=
  | EQ | NE | CS | CC | MI | PL | VS | VC | HI | LS | GE | LT | GT | LE | AL | NV.

Abbreviation EQUAL := EQ.
Abbreviation ZERO := EQ.
Abbreviation NOT_EQUAL := NE.
Abbreviation NOT_ZERO := NE.
Abbreviation LESS := LT.
Abbreviation LESS_EQUAL := LE.
Abbreviation GREATER_EQUAL := GE.
Abbreviation GREATER := GT.
Abbreviation UNSIGNED_LESS := CC.
Abbreviation UNSIGNED_LESS_EQUAL := LS.
Abbreviation UNSIGNED_GREATER := HI.
Abbreviation UNSIGNED_GREATER_EQUAL := CS.

(** Emits nothing. *)
Definition skip (a : Assembler) : option Assembler := Some a.

(** ** Extensions and moves *)

Definition ExtendValue (rd rn : Z) (sz : OperandSize) (a : Assembler) : option Assembler :=
  match sz with
  | kEightBytes => if rd =? rn then skip a else mv rd rn a
  | kUnsignedFourBytes =>
      if Supports a RV_Zba then zextw rd rn a
      else (slli rd rn (XLEN - 32) >>> srli rd rd (XLEN - 32)) a
  | kFourBytes => sextw rd rn a
  | kUnsignedTwoBytes =>
      if Supports a RV_Zbb then zexth rd rn a
      else (slli rd rn (XLEN - 16) >>> srli rd rd (XLEN - 16)) a
  | kTwoBytes =>
      if Supports a RV_Zbb then sexth rd rn a
      else (slli rd rn (XLEN - 16) >>> srai rd rd (XLEN - 16)) a
  | kUnsignedByte => andi rd rn 0xFF a
  | kByte =>
      if Supports a RV_Zbb then sextb rd rn a
      else (slli rd rn (XLEN - 8) >>> srai rd rd (XLEN - 8)) a
  | _ => None
  end.

Definition MoveRegister (dst src : Z) : Assembler -> option Assembler := ExtendValue dst src kWordBytes.

Definition SmiTag (dst src : Z) := slli dst src kSmiTagSize.
Definition SmiUntag (dst src : Z) := srai dst src kSmiTagSize.

Definition ExtendAndSmiTagValue (rd rn : Z) (sz : OperandSize) (a : Assembler) : option Assembler :=
  match sz with
  | kEightBytes => SmiTag rd rn a
  | kUnsignedFourBytes => (slli rd rn (XLEN - 32) >>> srli rd rd (XLEN - 32 - kSmiTagShift)) a
  | kFourBytes => (slli rd rn (XLEN - 32) >>> srai rd rd (XLEN - 32 - kSmiTagShift)) a
  | kUnsignedTwoBytes => (slli rd rn (XLEN - 16) >>> srli rd rd (XLEN - 16 - kSmiTagShift)) a
  | kTwoBytes => (slli rd rn (XLEN - 16) >>> srai rd rd (XLEN - 16 - kSmiTagShift)) a
  | kUnsignedByte => (slli rd rn (XLEN - 8) >>> srli rd rd (XLEN - 8 - kSmiTagShift)) a
  | kByte => (slli rd rn (XLEN - 8) >>> srai rd rd (XLEN - 8 - kSmiTagShift)) a
  | _ => None
  end.

Section Pool.
(** The object pool of the compiler: the index of an immediate and the offset
    of an entry from the pool pointer. *)
Context (FindImmediate : Z -> Z) (element_offset : Z -> Z).

Definition LoadWordFromPoolIndex (dst index pp : Z) (a : Assembler) : option Assembler :=
  ASSERT (negb (pp =? PP) || constant_pool_allowed_ a);;
  ASSERT (negb (dst =? pp));;
  let offset := u32 (element_offset index) in
  let lo := ImmLo offset in
  let hi := ImmHi offset in
  if hi =? 0 then lx dst (MkAddress pp lo) a
  else (lui dst hi >>> add dst dst pp >>> lx dst (MkAddress dst lo)) a.

(** ** Constants *)

(** [bseti(reg, ZR, Utils::ShiftForPowerOfTwo(imm))]. *)
Definition bseti_pow2 (rd rs1 imm : Z) (a : Assembler) : option Assembler :=
  match ShiftForPowerOfTwo imm with Some shift => bseti rd rs1 shift a | None => None end.

(** The constants of 32 bits: the end of [LoadImmediate]. *)
Definition LoadImmediate32 (reg imm : Z) (a : Assembler) : option Assembler :=
  let lo := ImmLo imm in
  let hi := ImmHi imm in
  if hi =? 0 then addi reg ZR lo a
  else (lui reg hi >>> (if lo =? 0 then skip else addiw reg reg lo)) a.

(** Each recursive call drops at least the low 12 bits of the constant, so a
    depth of four is enough for 64 bits. *)
Fixpoint LoadImmediate_loop (fuel : nat) (reg imm : Z) (a : Assembler) : option Assembler :=
  match fuel with
  | O => None
  | S fuel =>
      if negb (IsInt 32 imm) then
        if Supports a RV_Zbs && IsPowerOfTwo imm then bseti_pow2 reg ZR imm a
        else
          let shift := CountTrailingZeros64 imm in
          if IsITypeImm (imm >> shift) then (li reg (imm >> shift) >>> slli reg reg shift) a
          else if (shift >=? 12) && IsUTypeImm (imm >> (shift - 12)) then
            (lui reg (imm >> (shift - 12)) >>> slli reg reg (shift - 12)) a
          else if constant_pool_allowed_ a then
            LoadWordFromPoolIndex reg (FindImmediate imm) PP a
          else
            let lo := ImmLo imm in
            let hi := s64 (imm - lo) in
            let shift := CountTrailingZeros64 hi in
            ASSERT (negb (shift =? 0));;
            (LoadImmediate_loop fuel reg (hi >> shift)
             >>> slli reg reg shift
             >>> (if lo =? 0 then skip else addi reg reg lo)) a
      else LoadImmediate32 reg imm a
  end.

Definition LoadImmediate (reg imm : Z) : Assembler -> option Assembler := LoadImmediate_loop 4 reg imm.

(** ** Arithmetic with immediates *)

Definition AddShifted (dest base index shift : Z) (a : Assembler) : option Assembler :=
  if shift =? 0 then add dest index base a
  else if Supports a RV_Zba && (shift =? 1) then sh1add dest index base a
  else if Supports a RV_Zba && (shift =? 2) then sh2add dest index base a
  else if Supports a RV_Zba && (shift =? 3) then sh3add dest index base a
  else if shift <? 0 then
    if negb (base =? dest) then (srai dest index (- shift) >>> add dest dest base) a
    else (srai TMP2 index (- shift) >>> add dest TMP2 base) a
  else
    if negb (base =? dest) then (slli dest index shift >>> add dest dest base) a
    else (slli TMP2 index shift >>> add dest TMP2 base) a.

Definition is_four_bytes (sz : OperandSize) : bool := match sz with kFourBytes => true | _ => false end.
Definition is_eight_bytes (sz : OperandSize) : bool := match sz with kEightBytes => true | _ => false end.
Definition is_unsigned_four_bytes (sz : OperandSize) : bool :=
  match sz with kUnsignedFourBytes => true | _ => false end.

Definition AddImmediate (rd rs1 imm : Z) (sz : OperandSize) (a : Assembler) : option Assembler :=
  if (imm =? 0) && (rd =? rs1) then skip a
  else if is_four_bytes sz then
    if IsITypeImm imm then addiw rd rs1 imm a
    else ASSERT (negb (rs1 =? TMP2));; (LoadImmediate TMP2 imm >>> addw rd rs1 TMP2) a
  else if IsITypeImm imm then addi rd rs1 imm a
  else ASSERT (negb (rs1 =? TMP2));; (LoadImmediate TMP2 imm >>> add rd rs1 TMP2) a.

Definition MulImmediate (rd rs1 imm : Z) (sz : OperandSize) (a : Assembler) : option Assembler :=
  if IsPowerOfTwo imm then
    match ShiftForPowerOfTwo imm with
    | Some shift =>
        ASSERT (is_four_bytes sz || is_eight_bytes sz);;
        if is_four_bytes sz then slliw rd rs1 shift a else slli rd rs1 shift a
    | None => None
    end
  else
    (LoadImmediate TMP imm
     >>> (fun a => ASSERT (is_four_bytes sz || is_eight_bytes sz);;
                   if is_four_bytes sz then mulw rd rs1 TMP a else mul rd rs1 TMP a)) a.

Definition AndImmediate (rd rs1 imm : Z) (sz : OperandSize) (a : Assembler) : option Assembler :=
  ASSERT (is_eight_bytes sz || is_unsigned_four_bytes sz || is_four_bytes sz);;
  match OperandSizeInBits sz with
  | None => None
  | Some bit_size =>
      ASSERT (IsInt bit_size imm || IsUint bit_size imm);;
      let uimm := if bit_size =? XLEN then u64 imm else u32 imm in
      if (bit_size =? XLEN) && (imm =? -1) then MoveRegister rd rs1 a
      else if (bit_size <? XLEN) && (s32 imm =? -1) then ExtendValue rd rs1 kUnsignedFourBytes a
      else if IsITypeImm (s64 uimm) then andi rd rs1 (s64 uimm) a
      else if Supports a RV_Zbs && IsPowerOfTwo (u64 (Z.lnot uimm)) then
        match ShiftForPowerOfTwo (u64 (Z.lnot uimm)) with Some shift => bclri rd rs1 shift a | None => None end
      else if IsPowerOfTwo (u64 (uimm + 1)) then
        match ShiftForPowerOfTwo (u64 (uimm + 1)) with
        | Some shift =>
            if Supports a RV_Zbb && (shift =? 16) then zexth rd rs1 a
            else (slli rd rs1 (XLEN - shift) >>> srli rd rd (XLEN - shift)) a
        | None => None
        end
      else ASSERT (negb (rs1 =? TMP2));; (LoadImmediate TMP2 (s64 uimm) >>> and_ rd rs1 TMP2) a
  end.

Definition OrImmediate (rd rs1 imm : Z) (a : Assembler) : option Assembler :=
  if imm =? 0 then MoveRegister rd rs1 a
  else if IsITypeImm imm then ori rd rs1 imm a
  else if Supports a RV_Zbs && IsPowerOfTwo (u64 imm) then bseti_pow2 rd rs1 (u64 imm) a
  else ASSERT (negb (rs1 =? TMP2));; (LoadImmediate TMP2 imm >>> or_ rd rs1 TMP2) a.

Definition XorImmediate (rd rs1 imm : Z) (a : Assembler) : option Assembler :=
  if imm =? 0 then MoveRegister rd rs1 a
  else if IsITypeImm imm then xori rd rs1 imm a
  else if Supports a RV_Zbs && IsPowerOfTwo (u64 imm) then
    match ShiftForPowerOfTwo (u64 imm) with Some shift => binvi rd rs1 shift a | None => None end
  else ASSERT (negb (rs1 =? TMP2));; (LoadImmediate TMP2 imm >>> xor_ rd rs1 TMP2) a.

Definition LslImmediate (rd rn shift : Z) (sz : OperandSize) (a : Assembler) : option Assembler :=
  ASSERT (is_eight_bytes sz || is_four_bytes sz || is_unsigned_four_bytes sz);;
  match OperandSizeInBits sz with
  | None => None
  | Some bits =>
      ASSERT ((shift >=? 0) && (shift <? bits));;
      if shift =? 0 then ExtendValue rd rn sz a
      else if is_four_bytes sz then slliw rd rn shift a
      else if is_unsigned_four_bytes sz then
        (slli rd rn (shift + XLEN / 2) >>> srli rd rd (XLEN / 2)) a
      else slli rd rn shift a
  end.

Definition ArithmeticShiftRightImmediate (dst src shift : Z) (sz : OperandSize) (a : Assembler) : option Assembler :=
  ASSERT (is_eight_bytes sz || is_four_bytes sz);;
  match OperandSizeInBits sz with
  | None => None
  | Some bits =>
      ASSERT ((shift >=? 0) && (shift <? bits));;
      if shift =? 0 then ExtendValue dst src sz a
      else if is_four_bytes sz then sraiw dst src shift a
      else srai dst src shift a
  end.

(** ** Deferred comparisons *)

Definition with_deferred (c : DeferredCompareType) (left reg imm : Z) (a : Assembler) : Assembler :=
  MkAssembler (buffer_ a) (extensions_ a) (far_branch_level_ a) (constant_pool_allowed_ a) c left reg imm.

(** [deferred_compare_ = kNone;  // Consumed.] *)
Definition consumed (a : Assembler) : Assembler :=
  with_deferred kNone (deferred_left_ a) (deferred_reg_ a) (deferred_imm_ a) a.

Definition is_none (c : DeferredCompareType) : bool := match c with kNone => true | _ => false end.

Definition CompareRegisters (rn rm : Z) (a : Assembler) : option Assembler :=
  ASSERT (is_none (deferred_compare_ a));; Some (with_deferred kCompareReg rn rm (deferred_imm_ a) a).
Definition TestRegisters (rn rm : Z) (a : Assembler) : option Assembler :=
  ASSERT (is_none (deferred_compare_ a));; Some (with_deferred kTestReg rn rm (deferred_imm_ a) a).
Definition TestImmediate (rn imm : Z) (a : Assembler) : option Assembler :=
  ASSERT (is_none (deferred_compare_ a));; Some (with_deferred kTestImm rn (deferred_reg_ a) imm a).
Definition CompareImmediate (rn imm : Z) (a : Assembler) : option Assembler :=
  ASSERT (is_none (deferred_compare_ a));; Some (with_deferred kCompareImm rn (deferred_reg_ a) imm a).

(** [SetIf], the cases of [kCompareReg], [kCompareImm] with a small immediate,
    [kTestImm] and [kTestReg]. *)
Definition SetIf_CompareReg (condition : Condition) (rd left right : Z) : Assembler -> option Assembler :=
  match condition with
  | EQUAL => if right =? ZR then seqz rd left else xor_ rd left right >>> seqz rd rd
  | NOT_EQUAL => if right =? ZR then snez rd left else xor_ rd left right >>> snez rd rd
  | LESS => slt rd left right
  | LESS_EQUAL => slt rd right left >>> xori rd rd 1
  | GREATER_EQUAL => slt rd left right >>> xori rd rd 1
  | GREATER => slt rd right left
  | UNSIGNED_LESS => sltu rd left right
  | UNSIGNED_LESS_EQUAL => sltu rd right left >>> xori rd rd 1
  | UNSIGNED_GREATER_EQUAL => sltu rd left right >>> xori rd rd 1
  | UNSIGNED_GREATER => sltu rd right left
  | _ => fun _ => None
  end.

Definition SetIf_CompareImm (condition : Condition) (rd left right : Z) : Assembler -> option Assembler :=
  match condition with
  | EQUAL => subi rd left right >>> seqz rd rd
  | NOT_EQUAL => subi rd left right >>> snez rd rd
  | LESS => slti rd left right
  | LESS_EQUAL => slti rd left (right + 1)
  | GREATER_EQUAL => slti rd left right >>> xori rd rd 1
  | GREATER => slti rd left (right + 1) >>> xori rd rd 1
  | UNSIGNED_LESS => sltiu rd left right
  | UNSIGNED_LESS_EQUAL => sltiu rd left (right + 1)
  | UNSIGNED_GREATER_EQUAL => sltiu rd left right >>> xori rd rd 1
  | UNSIGNED_GREATER => sltiu rd left (right + 1) >>> xori rd rd 1
  | _ => fun _ => None
  end.

(** [switch (condition)] on [ZERO] and [NOT_ZERO]. *)
Definition on_zero {A} (condition : Condition) (zero not_zero : Assembler -> option A) : Assembler -> option A :=
  match condition with
  | ZERO => zero
  | NOT_ZERO => not_zero
  | _ => fun _ => None
  end.

Definition SetIf_TestImm (condition : Condition) (rd left imm : Z) (a : Assembler) : option Assembler :=
  let uimm := u64 imm in
  if IsPowerOfTwo uimm then
    match ShiftForPowerOfTwo uimm with
    | Some shamt =>
        ((if shamt =? 0 then andi rd left 1
          else if shamt =? XLEN - 1 then sltz rd left
          else if Supports a RV_Zbs then bexti rd left shamt
          else srli rd left shamt >>> andi rd rd 1)
         >>> on_zero condition (xori rd rd 1) skip) a
    | None => None
    end
  else (AndImmediate rd left imm kWordBytes >>> on_zero condition (seqz rd rd) (snez rd rd)) a.

Definition SetIf_TestReg (condition : Condition) (rd left reg : Z) : Assembler -> option Assembler :=
  and_ rd left reg >>> on_zero condition (seqz rd rd) (snez rd rd).

(** An immediate that does not fit in the instruction is compared through a register. *)
Definition SetIf (condition : Condition) (rd : Z) (a : Assembler) : option Assembler :=
  let left := deferred_left_ a in
  let imm := deferred_imm_ a in
  option_map consumed
    (match deferred_compare_ a with
     | kCompareImm =>
         if imm =? 0 then
           SetIf_CompareReg condition rd left ZR (with_deferred kCompareReg left ZR imm a)
         else if negb (IsITypeImm imm) || negb (IsITypeImm (imm + 1)) then
           (LoadImmediate TMP2 imm
            >>> (fun a => SetIf_CompareReg condition rd left TMP2 (with_deferred kCompareReg left TMP2 imm a))) a
         else SetIf_CompareImm condition rd left imm a
     | kCompareReg => SetIf_CompareReg condition rd left (deferred_reg_ a) a
     | kTestImm => SetIf_TestImm condition rd left imm a
     | kTestReg => SetIf_TestReg condition rd left (deferred_reg_ a) a
     | kNone => None
     end).

(** [ZeroIf]: [rd = condition ? 0 : otherwise]. *)
Definition ZeroIf_CompareReg (condition : Condition) (rd otherwise left right : Z) : Assembler -> option Assembler :=
  match condition with
  | EQUAL => if right =? ZR then czeroeqz rd otherwise left
             else xor_ rd left right >>> czeroeqz rd otherwise rd
  | NOT_EQUAL => if right =? ZR then czeronez rd otherwise left
                 else xor_ rd left right >>> czeronez rd otherwise rd
  | LESS => slt rd left right >>> czeronez rd otherwise rd
  | LESS_EQUAL => slt rd right left >>> czeroeqz rd otherwise rd
  | GREATER_EQUAL => slt rd left right >>> czeroeqz rd otherwise rd
  | GREATER => slt rd right left >>> czeronez rd otherwise rd
  | UNSIGNED_LESS => sltu rd left right >>> czeronez rd otherwise rd
  | UNSIGNED_LESS_EQUAL => sltu rd right left >>> czeroeqz rd otherwise rd
  | UNSIGNED_GREATER_EQUAL => sltu rd left right >>> czeroeqz rd otherwise rd
  | UNSIGNED_GREATER => sltu rd right left >>> czeronez rd otherwise rd
  | _ => fun _ => None
  end.

Definition ZeroIf_CompareImm (condition : Condition) (rd otherwise left right : Z) : Assembler -> option Assembler :=
  match condition with
  | EQUAL => subi rd left right >>> czeroeqz rd otherwise rd
  | NOT_EQUAL => subi rd left right >>> czeronez rd otherwise rd
  | LESS => slti rd left right >>> czeronez rd otherwise rd
  | LESS_EQUAL => slti rd left (right + 1) >>> czeronez rd otherwise rd
  | GREATER_EQUAL => slti rd left right >>> czeroeqz rd otherwise rd
  | GREATER => slti rd left (right + 1) >>> czeroeqz rd otherwise rd
  | UNSIGNED_LESS => sltiu rd left right >>> czeronez rd otherwise rd
  | UNSIGNED_LESS_EQUAL => sltiu rd left (right + 1) >>> czeronez rd otherwise rd
  | UNSIGNED_GREATER_EQUAL => sltiu rd left right >>> czeroeqz rd otherwise rd
  | UNSIGNED_GREATER => sltiu rd left (right + 1) >>> czeroeqz rd otherwise rd
  | _ => fun _ => None
  end.

Definition ZeroIf_TestImm (condition : Condition) (rd otherwise left imm : Z) (a : Assembler) : option Assembler :=
  let uimm := u64 imm in
  ((if IsITypeImm imm then andi rd left imm
    else if IsPowerOfTwo uimm then
      match ShiftForPowerOfTwo uimm with
      | Some shamt =>
          if shamt =? XLEN - 1 then sltz rd left
          else if Supports a RV_Zbs then bexti rd left shamt
          else srli rd left shamt >>> andi rd rd 1
      | None => fun _ => None
      end
    else AndImmediate rd left imm kWordBytes)
   >>> on_zero condition (czeroeqz rd otherwise rd) (czeronez rd otherwise rd)) a.

Definition ZeroIf (condition : Condition) (rd otherwise : Z) (a : Assembler) : option Assembler :=
  let left := deferred_left_ a in
  let imm := deferred_imm_ a in
  ASSERT (negb (rd =? otherwise));;
  option_map consumed
    (match deferred_compare_ a with
     | kCompareImm =>
         if imm =? 0 then
           ZeroIf_CompareReg condition rd otherwise left ZR (with_deferred kCompareReg left ZR imm a)
         else if negb (IsITypeImm imm) || negb (IsITypeImm (imm + 1)) then
           (LoadImmediate TMP2 imm
            >>> (fun a => ZeroIf_CompareReg condition rd otherwise left TMP2
                            (with_deferred kCompareReg left TMP2 imm a))) a
         else ZeroIf_CompareImm condition rd otherwise left imm a
     | kCompareReg => ZeroIf_CompareReg condition rd otherwise left (deferred_reg_ a) a
     | kTestImm => ZeroIf_TestImm condition rd otherwise left imm a
     | kTestReg =>
         (and_ rd left (deferred_reg_ a)
          >>> on_zero condition (czeroeqz rd otherwise rd) (czeronez rd otherwise rd)) a
     | kNone => None
     end).

(** ** Branches *)

(** [emit] then a branch. *)
Definition then_branch (emit : Assembler -> option Assembler)
    (branch : Assembler -> label_result (Label * Assembler)) (a : Assembler) : label_result (Label * Assembler) :=
  do a <- lift (emit a); branch a.

Definition branch_on (condition : Condition) (left right : Z) (label : Label) (distance : JumpDistance)
  : Assembler -> label_result (Label * Assembler) :=
  match condition with
  | EQUAL => beq left right label distance
  | NOT_EQUAL => bne left right label distance
  | LESS => blt left right label distance
  | LESS_EQUAL => ble left right label distance
  | GREATER_EQUAL => bge left right label distance
  | GREATER => bgt left right label distance
  | UNSIGNED_LESS => bltu left right label distance
  | UNSIGNED_LESS_EQUAL => bleu left right label distance
  | UNSIGNED_GREATER_EQUAL => bgeu left right label distance
  | UNSIGNED_GREATER => bgtu left right label distance
  | _ => fun _ => Failed
  end.

Definition branch_zero (condition : Condition) (zero not_zero : Assembler -> label_result (Label * Assembler))
  : Assembler -> label_result (Label * Assembler) :=
  match condition with
  | ZERO => zero
  | NOT_ZERO => not_zero
  | _ => fun _ => Failed
  end.

Definition BranchIf_Test (condition : Condition) (label : Label) (distance : JumpDistance) (a : Assembler)
  : label_result (Label * Assembler) :=
  let left := deferred_left_ a in
  let imm := deferred_imm_ a in
  let uimm := u64 imm in
  let on_tmp2 := branch_zero condition (beqz TMP2 label distance) (bnez TMP2 label distance) in
  match deferred_compare_ a with
  | kTestReg => then_branch (and_ TMP2 left (deferred_reg_ a)) on_tmp2 a
  | _ =>
      if IsITypeImm imm then then_branch (andi TMP2 left imm) on_tmp2 a
      else if IsPowerOfTwo uimm then
        match ShiftForPowerOfTwo uimm with
        | Some shift =>
            if shift =? XLEN - 1
            then branch_zero condition (bgez left label distance) (bltz left label distance) a
            else then_branch (slli TMP2 left (XLEN - 1 - shift))
                   (branch_zero condition (bgez TMP2 label distance) (bltz TMP2 label distance)) a
        | None => Failed
        end
      else then_branch (AndImmediate TMP2 left imm kWordBytes) on_tmp2 a
  end.

Definition BranchIf (condition : Condition) (label : Label) (distance : JumpDistance) (a : Assembler)
  : label_result (Label * Assembler) :=
  let left := deferred_left_ a in
  do (label, a) <-
    match deferred_compare_ a with
    | kCompareImm =>
        if deferred_imm_ a =? 0 then branch_on condition left ZR label distance a
        else then_branch (LoadImmediate TMP2 (deferred_imm_ a)) (branch_on condition left TMP2 label distance) a
    | kCompareReg => branch_on condition left (deferred_reg_ a) label distance a
    | kTestImm | kTestReg => BranchIf_Test condition label distance a
    | kNone => Failed
    end;
  Done (label, consumed a).

Definition BranchIfZero (rn : Z) := beqz rn.

Definition BranchIfBit (rn bit_number : Z) (condition : Condition) (label : Label) (distance : JumpDistance)
    (a : Assembler) : label_result (Label * Assembler) :=
  if rn =? TMP2 then Failed
  else then_branch (andi TMP2 rn (s32 (1 << bit_number)))
         (branch_zero condition (beqz TMP2 label distance) (bnez TMP2 label distance)) a.

Definition BranchIfNotSmi (reg : Z) (label : Label) (distance : JumpDistance) (a : Assembler)
  : label_result (Label * Assembler) :=
  if reg =? TMP2 then Failed
  else then_branch (andi TMP2 reg kSmiTagMask) (bnez TMP2 label distance) a.
Definition BranchIfSmi (reg : Z) (label : Label) (distance : JumpDistance) (a : Assembler)
  : label_result (Label * Assembler) :=
  if reg =? TMP2 then Failed
  else then_branch (andi TMP2 reg kSmiTagMask) (beqz TMP2 label distance) a.

(** ** Arithmetic with overflow checks *)

Definition AddImmediateBranchOverflow (rd rs1 imm : Z) (overflow : Label) (a : Assembler)
  : label_result (Label * Assembler) :=
  if rd =? TMP2 then Failed
  else if rd =? rs1 then
    then_branch (mv TMP2 rs1 >>> AddImmediate rd rs1 imm kWordBytes)
      (if imm >? 0 then blt rd TMP2 overflow kFarJump
       else if imm <? 0 then bgt rd TMP2 overflow kFarJump
       else fun a => Done (overflow, a)) a
  else
    then_branch (AddImmediate rd rs1 imm kWordBytes)
      (if imm >? 0 then blt rd rs1 overflow kFarJump
       else if imm <? 0 then bgt rd rs1 overflow kFarJump
       else fun a => Done (overflow, a)) a.

Definition SubtractImmediateBranchOverflow (rd rs1 imm : Z) (overflow : Label) :=
  AddImmediateBranchOverflow rd rs1 (s64 (- imm)) overflow.

Definition MultiplyImmediateBranchOverflow (rd rs1 imm : Z) (overflow : Label) (a : Assembler)
  : label_result (Label * Assembler) :=
  if (rd =? TMP) || (rd =? TMP2) || (rs1 =? TMP) || (rs1 =? TMP2) then Failed
  else then_branch (LoadImmediate TMP2 imm >>> mulh TMP rs1 TMP2 >>> mul rd rs1 TMP2 >>> srai TMP2 rd (XLEN - 1))
         (bne TMP TMP2 overflow kFarJump) a.

(** None of the operands is a scratch register. *)
Definition no_scratch (rd rs1 rs2 : Z) : bool :=
  negb (rd =? TMP) && negb (rd =? TMP2) && negb (rs1 =? TMP) && negb (rs1 =? TMP2)
  && negb (rs2 =? TMP) && negb (rs2 =? TMP2).

Definition AddBranchOverflow (rd rs1 rs2 : Z) (overflow : Label) (a : Assembler)
  : label_result (Label * Assembler) :=
  if negb (no_scratch rd rs1 rs2) then Failed
  else if (rd =? rs1) && (rd =? rs2) then
    then_branch (mv TMP rs1 >>> add rd rs1 rs2 >>> xor_ TMP TMP rd) (bltz TMP overflow kFarJump) a
  else if rs1 =? rs2 then
    then_branch (add rd rs1 rs2 >>> xor_ TMP rd rs1) (bltz TMP overflow kFarJump) a
  else if rd =? rs1 then
    then_branch (slti TMP rs1 0 >>> add rd rs1 rs2 >>> slt TMP2 rd rs2) (bne TMP TMP2 overflow kFarJump) a
  else if rd =? rs2 then
    then_branch (slti TMP rs2 0 >>> add rd rs1 rs2 >>> slt TMP2 rd rs1) (bne TMP TMP2 overflow kFarJump) a
  else
    then_branch (add rd rs1 rs2 >>> slti TMP rs2 0 >>> slt TMP2 rd rs1) (bne TMP TMP2 overflow kFarJump) a.

Definition SubtractBranchOverflow (rd rs1 rs2 : Z) (overflow : Label) (a : Assembler)
  : label_result (Label * Assembler) :=
  if negb (no_scratch rd rs1 rs2) then Failed
  else if (rd =? rs1) && (rd =? rs2) then
    then_branch (mv TMP rs1 >>> sub rd rs1 rs2 >>> xor_ TMP TMP rd) (bltz TMP overflow kFarJump) a
  else if rs1 =? rs2 then
    then_branch (sub rd rs1 rs2 >>> xor_ TMP rd rs1) (bltz TMP overflow kFarJump) a
  else if rd =? rs1 then
    then_branch (slti TMP rs1 0 >>> sub rd rs1 rs2 >>> slt TMP2 rd rs2) (bne TMP TMP2 overflow kFarJump) a
  else if rd =? rs2 then
    then_branch (slti TMP rs2 0 >>> sub rd rs1 rs2 >>> slt TMP2 rd rs1) (bne TMP TMP2 overflow kFarJump) a
  else
    then_branch (sub rd rs1 rs2 >>> slti TMP rs2 0 >>> slt TMP2 rs1 rd) (bne TMP TMP2 overflow kFarJump) a.

Definition MultiplyBranchOverflow (rd rs1 rs2 : Z) (overflow : Label) (a : Assembler)
  : label_result (Label * Assembler) :=
  if negb (no_scratch rd rs1 rs2) then Failed
  else then_branch (mulh TMP rs1 rs2 >>> mul rd rs1 rs2 >>> srai TMP2 rd (XLEN - 1))
         (bne TMP TMP2 overflow kFarJump) a.

(** ** Range checks and leading zeros *)

Inductive RangeCheckCondition : Set := kIfNotInRange | kIfInRange.

Definition RangeCheck (value : Z) (temp : option Z) (low high : Z) (condition : RangeCheckCondition)
    (target : Label) (a : Assembler) : label_result (Label * Assembler) :=
  let cc := match condition with kIfInRange => LS | kIfNotInRange => HI end in
  let to_check := match temp with Some t => t | None => value end in
  do a <- lift (AddImmediate to_check value (- low) kWordBytes a);
  do a <- lift (CompareImmediate to_check (high - low) a);
  BranchIf cc target kFarJump a.

(** [srli(TMP, rs, k); beqz(TMP, &l, kNearJump); subi(TMP2, TMP2, k); mv(rs, TMP); Bind(&l);] *)
Definition clz_stage (rs k : Z) (a : Assembler) : label_result Assembler :=
  do a <- lift (srli TMP rs k a);
  do (l, a) <- beqz TMP new_label kNearJump a;
  do a <- lift ((subi TMP2 TMP2 k >>> mv rs TMP) a);
  do (_, a) <- Bind l a;
  Done a.

Definition CountLeadingZeroes (rd rs : Z) (a : Assembler) : label_result Assembler :=
  if Supports a RV_Zbb then lift (clz rd rs a)
  else
    do a <- lift (li TMP2 XLEN a);
    do a <- clz_stage rs 32 a;
    do a <- clz_stage rs 16 a;
    do a <- clz_stage rs 8 a;
    do a <- clz_stage rs 4 a;
    do a <- clz_stage rs 2 a;
    do a <- lift ((srli TMP rs 1 >>> sub rd TMP2 rs) a);
    do (l5, a) <- beqz TMP new_label kNearJump a;
    do a <- lift (subi rd TMP2 2 a);
    do (_, a) <- Bind l5 a;
    Done a.

(** ** The stack *)

Definition PushRegister (r : Z) (a : Assembler) : option Assembler :=
  ASSERT (negb (r =? SP));;
  (subi SP SP kWordSize >>> sx r (MkAddress SP 0)) a.
Definition PopRegister (r : Z) (a : Assembler) : option Assembler :=
  ASSERT (negb (r =? SP));;
  (lx r (MkAddress SP 0) >>> addi SP SP kWordSize) a.
Definition PushRegisterPair (r0 r1 : Z) (a : Assembler) : option Assembler :=
  ASSERT (negb (r0 =? SP));;
  ASSERT (negb (r1 =? SP));;
  (subi SP SP (2 * kWordSize) >>> sx r1 (MkAddress SP kWordSize) >>> sx r0 (MkAddress SP 0)) a.
Definition PopRegisterPair (r0 r1 : Z) (a : Assembler) : option Assembler :=
  ASSERT (negb (r0 =? SP));;
  ASSERT (negb (r1 =? SP));;
  (lx r1 (MkAddress SP kWordSize) >>> lx r0 (MkAddress SP 0) >>> addi SP SP (2 * kWordSize)) a.

Fixpoint PushRegistersInOrder_loop (regs : list Z) (offset : Z) (a : Assembler) : option Assembler :=
  match regs with
  | [] => Some a
  | reg :: regs =>
      ASSERT (negb (reg =? SP));;
      (sx reg (MkAddress SP (offset - kWordSize))
       >>> PushRegistersInOrder_loop regs (offset - kWordSize)) a
  end.
Definition PushRegistersInOrder (regs : list Z) (a : Assembler) : option Assembler :=
  let offset := Z.of_nat (length regs) * kWordSize in
  (subi SP SP offset >>> PushRegistersInOrder_loop regs offset) a.

(** ** Addresses out of the immediate range *)

Definition PrepareLargeOffset (base offset : Z) (a : Assembler) : option (Address * Assembler) :=
  ASSERT (negb (base =? TMP2));;
  if IsITypeImm offset then Some (MkAddress base offset, a)
  else
    let lo := ImmLo offset in
    let hi := ImmHi offset in
    ASSERT (negb (hi =? 0));;
    match (lui TMP2 hi >>> add TMP2 TMP2 base) a with
    | Some a => Some (MkAddress TMP2 lo, a)
    | None => None
    end.

Definition PrepareAtomicOffset (base offset : Z) (a : Assembler) : option (Address * Assembler) :=
  ASSERT (negb (base =? TMP2));;
  if offset =? 0 then Some (MkAddress base 0, a)
  else match AddImmediate TMP2 base offset kWordBytes a with
       | Some a => Some (MkAddress TMP2 0, a)
       | None => None
       end.

Definition Load (dest : Z) (address : Address) (sz : OperandSize) (a : Assembler) : option Assembler :=
  match PrepareLargeOffset (base address) (s32 (offset address)) a with
  | None => None
  | Some (addr, a) =>
      match sz with
      | kEightBytes => ld dest addr a
      | kUnsignedFourBytes => lwu dest addr a
      | kFourBytes => lw dest addr a
      | kUnsignedTwoBytes => lhu dest addr a
      | kTwoBytes => lh dest addr a
      | kUnsignedByte => lbu dest addr a
      | kByte => lb dest addr a
      | _ => None
      end
  end.

Definition Store (src : Z) (address : Address) (sz : OperandSize) (a : Assembler) : option Assembler :=
  match PrepareLargeOffset (base address) (s32 (offset address)) a with
  | None => None
  | Some (addr, a) =>
      match sz with
      | kEightBytes => sd src addr a
      | kUnsignedFourBytes | kFourBytes => sw src addr a
      | kUnsignedTwoBytes | kTwoBytes => sh src addr a
      | kUnsignedByte | kByte => sb src addr a
      | _ => None
      end
  end.

End Pool.
