(* ===== verification/RvMacroProofs.v ===== *)
(** * Macro instructions compute what their names say

    Each macro of [RvMacros] is run through the instructions it expands to:
    constants of any size, arithmetic and logic with immediates, extensions,
    conditional sets, and the overflow-checked operations. *)

From Stdlib Require Import ZArith Lia ZifyBool Bool List.
From S2P Require Import Prelude Bits Utils RvEncoding RvEncodingProofs RvAlu SimMemory Outcome RvFloat RvSimulator RvAssembler RvExec RvCompressed RvAsmCorrect RvLabels RvMacros.
Import ListNotations.
Import MicroAssembler(Supports).

(** ** Splitting an immediate *)

Lemma ImmLo_sN imm : ImmLo imm = sN 12 imm.
Proof. unfold ImmLo, XLEN; bits_solve. Qed.

Lemma ImmHi_sN imm : ImmHi imm = s32 (imm - ImmLo imm).
Proof.
  unfold ImmHi, XLEN. rewrite uN_sub_l, uN_sub_r. set (x := imm - ImmLo imm). bits_solve.
Qed.

Lemma ImmLo_range imm : IsITypeImm (ImmLo imm) = true.
Proof. rewrite ImmLo_sN. apply IsInt_spec; [lia|apply sN_range; lia]. Qed.

Lemma ImmLo_s12 imm : is_sN 12 (ImmLo imm).
Proof. rewrite ImmLo_sN; apply sN_range; lia. Qed.

Lemma sN_mod_low w k x : 0 < w -> 0 <= k <= w -> x mod 2 ^ k = 0 -> sN w x mod 2 ^ k = 0.
Proof.
  intros Hw Hk H. destruct (sN_cong w x Hw) as [q ->].
  replace (2 ^ w) with (2 ^ (w - k) * 2 ^ k) by (rewrite <- Z.pow_add_r by lia; f_equal; lia).
  rewrite Z.mul_assoc, Z_mod_plus_full. exact H.
Qed.

Lemma ImmLo_cong imm : (imm - ImmLo imm) mod 2 ^ 12 = 0.
Proof.
  rewrite ImmLo_sN. destruct (sN_cong 12 imm ltac:(lia)) as [q ->].
  replace (imm - (imm + q * 2 ^ 12)) with (- q * 2 ^ 12) by lia. apply Z_mod_mult.
Qed.

Lemma IsUTypeImm_spec x : IsUTypeImm x = true <-> is_sN 32 x /\ x mod 2 ^ 12 = 0.
Proof.
  unfold IsUTypeImm, IsAligned. rewrite andb_true_iff, IsInt_spec, Z.eqb_eq by lia.
  change ((1 << 12) - 1) with (Z.ones 12). rewrite Z.land_ones by lia.
  unfold uN. rewrite <- (Z.mod_mod_divide x (2 ^ 64) (2 ^ 12)) by (exists (2 ^ 52); reflexivity).
  reflexivity.
Qed.

Lemma ImmHi_UType imm : IsUTypeImm (ImmHi imm) = true.
Proof.
  apply IsUTypeImm_spec. rewrite ImmHi_sN. split; [apply sN_range; lia|].
  apply sN_mod_low; [lia|lia|apply ImmLo_cong].
Qed.

Lemma ImmHi_ImmLo imm : is_sN 32 imm -> s32 (ImmHi imm + ImmLo imm) = imm.
Proof.
  intros H. rewrite ImmHi_sN. transitivity (s32 imm); [|apply sN_small; [lia|exact H]].
  apply uN_eq_sN; [lia|]. rewrite <- uN_add_l, uN_sN, uN_add_l by lia. f_equal; lia.
Qed.

Lemma pow2_signed imm : is_sN 64 imm -> imm <> kMinInt64 -> IsPowerOfTwo imm = true ->
  exists k, 0 <= k < 63 /\ imm = 2 ^ k.
Proof.
  intros Hi Hm Hp.
  assert (IsPowerOfTwo (u64 imm) = true) as Hu by (unfold IsPowerOfTwo in *; rewrite uN_uN; exact Hp).
  apply IsPowerOfTwo_pow2 in Hu as (k & Hk & E); [|apply uN_range; lia].
  assert (s64 (2 ^ k) = imm) as Es by (rewrite <- E, sN_uN by lia; apply sN_small; [lia|exact Hi]).
  destruct (Z.eq_dec k 63) as [->|]; [exfalso; apply Hm; rewrite <- Es; reflexivity|].
  exists k; split; [lia|]. rewrite <- Es. apply sN_small; [lia|].
  split; [pose proof (Z.pow_nonneg 2 k); lia|apply Z.pow_lt_mono_r; lia].
Qed.

(** The trailing zeros split a constant into an odd part and a power of two. *)
Lemma ctz_split imm : is_sN 64 imm -> imm <> 0 ->
  0 <= CountTrailingZeros64 imm < 64 /\
  (imm >> CountTrailingZeros64 imm) * 2 ^ CountTrailingZeros64 imm = imm /\
  Z.odd (imm >> CountTrailingZeros64 imm) = true.
Proof.
  intros Hi Hn. destruct (CountTrailingZeros64_spec imm Hi Hn) as (Hs & Hm & Ho).
  split; [exact Hs|split; [|exact Ho]]. rewrite Z.shiftr_div_pow2 by lia.
  assert (0 < 2 ^ CountTrailingZeros64 imm) by (apply Z.pow_pos_nonneg; lia).
  pose proof (Z.div_mod imm (2 ^ CountTrailingZeros64 imm)). lia.
Qed.

Lemma ctz_aligned imm k : is_sN 64 imm -> imm <> 0 -> 0 <= k -> imm mod 2 ^ k = 0 -> k <= CountTrailingZeros64 imm.
Proof.
  intros Hi Hn Hk Hm. destruct (ctz_split imm Hi Hn) as (Hs & E & Ho).
  set (c := CountTrailingZeros64 imm) in *. destruct (Z.le_gt_cases k c) as [|L]; [assumption|exfalso].
  apply Z.mod_divide in Hm as [q Hq]; [|apply Z.pow_nonzero; lia].
  replace (2 ^ k) with (2 * 2 ^ (k - c - 1) * 2 ^ c) in Hq
    by (rewrite <- Z.pow_succ_r, <- Z.pow_add_r by lia; f_equal; lia).
  assert (0 < 2 ^ c) by (apply Z.pow_pos_nonneg; lia).
  assert (imm >> c = 2 * (q * 2 ^ (k - c - 1))) as Eq by nia.
  rewrite Eq, Z.odd_mul in Ho. discriminate.
Qed.

(** ** Sequencing on one register *)

Section Macros.
Context (P : Platform) (FindImmediate element_offset : Z -> Z).

Abbreviation implements := (RvExec.implements P).
Abbreviation LoadImmediate_loop := (RvMacros.LoadImmediate_loop FindImmediate element_offset).
Abbreviation LoadImmediate := (RvMacros.LoadImmediate FindImmediate element_offset).

Lemma implements_then a e1 e2 reg v f : reg <> 0 -> implements a e1 (writes reg v) ->
  implements a e2 (writes reg (fun r => f (r reg))) ->
  implements a (e1 >>> e2) (writes reg (fun r => f (u64 (v r)))).
Proof.
  intros Hr I1 I2. eapply implements_weaken; [|exact (implements_seq P a e1 e2 _ _ I1 I2)].
  intros r r' _ _ (m & _ & W1 & W2). apply writes_intro.
  - intros; contradiction.
  - intros _. rewrite (writes_rd _ _ _ _ Hr W2), (writes_rd _ _ _ _ Hr W1). reflexivity.
  - intros x Hx. rewrite (writes_other _ _ _ _ x Hx W2). exact (writes_other _ _ _ _ x Hx W1).
Qed.

Lemma implements_seq_skip a e R : implements a e R -> implements a (e >>> skip) R.
Proof.
  apply implements_emit. intros b; unfold seq, skip. destruct (e (with_buffer b a)); reflexivity.
Qed.

(** *** The instructions used by the macros, as [implements] facts *)

Lemma addi_i a rd rs1 imm : Supports a RV_I = true -> is_uN 5 rd -> is_uN 5 rs1 -> IsITypeImm imm = true ->
  implements a (MicroAssembler.addi rd rs1 imm) (writes rd (fun r => r rs1 + imm)).
Proof. exact (addi_ok P a rd rs1 imm). Qed.
Lemma addiw_i a rd rs1 imm : Supports a RV_I = true -> is_uN 5 rd -> is_uN 5 rs1 -> IsITypeImm imm = true ->
  implements a (MicroAssembler.addiw rd rs1 imm) (writes rd (fun r => s32 (r rs1 + imm))).
Proof. exact (addiw_ok P a rd rs1 imm). Qed.
Lemma slli_i a rd rs1 sh : Supports a RV_I = true -> is_uN 5 rd -> is_uN 5 rs1 -> 1 <= sh < 64 ->
  implements a (MicroAssembler.slli rd rs1 sh) (writes rd (fun r => r rs1 * 2 ^ sh)).
Proof. exact (slli_ok P a rd rs1 sh). Qed.
Lemma bseti_i a rd rs1 sh : Supports a RV_Zbs = true -> is_uN 5 rd -> is_uN 5 rs1 -> 0 <= sh < 64 ->
  implements a (MicroAssembler.bseti rd rs1 sh) (writes rd (fun r => Z.setbit (r rs1) sh)).
Proof. exact (bseti_ok P a rd rs1 sh). Qed.

Lemma add_i a rd rs1 rs2 : Supports a RV_I = true -> is_uN 5 rd -> is_uN 5 rs1 -> is_uN 5 rs2 ->
  implements a (MicroAssembler.add rd rs1 rs2) (writes rd (fun r => r rs1 + r rs2)).
Proof. exact (add_ok P a rd rs1 rs2). Qed.
Lemma sub_i a rd rs1 rs2 : Supports a RV_I = true -> is_uN 5 rd -> is_uN 5 rs1 -> is_uN 5 rs2 ->
  implements a (MicroAssembler.sub rd rs1 rs2) (writes rd (fun r => r rs1 - r rs2)).
Proof. exact (sub_ok P a rd rs1 rs2). Qed.
Lemma xor_i a rd rs1 rs2 : Supports a RV_I = true -> is_uN 5 rd -> is_uN 5 rs1 -> is_uN 5 rs2 ->
  implements a (MicroAssembler.xor_ rd rs1 rs2) (writes rd (fun r => r rs1 .^ r rs2)).
Proof. exact (xor_ok P a rd rs1 rs2). Qed.
Lemma or_i a rd rs1 rs2 : Supports a RV_I = true -> is_uN 5 rd -> is_uN 5 rs1 -> is_uN 5 rs2 ->
  implements a (MicroAssembler.or_ rd rs1 rs2) (writes rd (fun r => r rs1 .| r rs2)).
Proof. exact (or_ok P a rd rs1 rs2). Qed.
Lemma and_i a rd rs1 rs2 : Supports a RV_I = true -> is_uN 5 rd -> is_uN 5 rs1 -> is_uN 5 rs2 ->
  implements a (MicroAssembler.and_ rd rs1 rs2) (writes rd (fun r => r rs1 .& r rs2)).
Proof. exact (and_ok P a rd rs1 rs2). Qed.
Lemma slt_i a rd rs1 rs2 : Supports a RV_I = true -> is_uN 5 rd -> is_uN 5 rs1 -> is_uN 5 rs2 ->
  implements a (MicroAssembler.slt rd rs1 rs2) (writes rd (fun r => Z.b2z (s64 (r rs1) <? s64 (r rs2)))).
Proof. exact (slt_ok P a rd rs1 rs2). Qed.
Lemma mul_i a rd rs1 rs2 : Supports a RV_M = true -> is_uN 5 rd -> is_uN 5 rs1 -> is_uN 5 rs2 ->
  implements a (MicroAssembler.mul rd rs1 rs2) (writes rd (fun r => r rs1 * r rs2)).
Proof. exact (mul_ok P a rd rs1 rs2). Qed.
Lemma mulh_i a rd rs1 rs2 : Supports a RV_M = true -> is_uN 5 rd -> is_uN 5 rs1 -> is_uN 5 rs2 ->
  implements a (MicroAssembler.mulh rd rs1 rs2) (writes rd (fun r => s64 (r rs1) * s64 (r rs2) / 2 ^ 64)).
Proof. exact (mulh_ok P a rd rs1 rs2). Qed.
Lemma slti_i a rd rs1 imm : Supports a RV_I = true -> is_uN 5 rd -> is_uN 5 rs1 -> IsITypeImm imm = true ->
  implements a (MicroAssembler.slti rd rs1 imm) (writes rd (fun r => Z.b2z (s64 (r rs1) <? imm))).
Proof. exact (slti_ok P a rd rs1 imm). Qed.
Lemma srai_i a rd rs1 sh : Supports a RV_I = true -> is_uN 5 rd -> is_uN 5 rs1 -> 1 <= sh < 64 ->
  implements a (MicroAssembler.srai rd rs1 sh) (writes rd (fun r => s64 (r rs1) / 2 ^ sh)).
Proof. exact (srai_ok P a rd rs1 sh). Qed.

Lemma zr5 : is_uN 5 ZR.
Proof. vm_compute; split; congruence. Qed.

Lemma li_i a rd imm : Supports a RV_I = true -> is_uN 5 rd -> IsITypeImm imm = true ->
  implements a (MicroAssembler.li rd imm) (writes rd (fun _ => imm)).
Proof.
  intros HI Hr Hi. eapply implements_value; [|apply (addi_i a rd ZR imm HI Hr zr5 Hi)].
  intros r [W0 _]; cbv beta. rewrite (W0 : r ZR = 0). reflexivity.
Qed.

(** ** Constants *)

Lemma LoadImmediate32_ok a reg imm : Supports a RV_I = true -> is_uN 5 reg -> reg <> 0 -> is_sN 32 imm ->
  implements a (LoadImmediate32 reg imm) (writes reg (fun _ => imm)).
Proof.
  intros HI Hr Hn Hi. pose proof (ImmHi_ImmLo imm Hi) as Hs. pose proof (ImmLo_s12 imm) as Hl.
  unfold LoadImmediate32. destruct (Z.eqb_spec (ImmHi imm) 0) as [E|E].
  - rewrite E, sN_small in Hs by (unfold is_sN in *; lia). rewrite Z.add_0_l in Hs.
    eapply implements_value; [|apply (li_i a reg (ImmLo imm) HI Hr (ImmLo_range imm))].
    intros; cbv beta; rewrite Hs; reflexivity.
  - assert (implements a (MicroAssembler.lui reg (ImmHi imm)) (writes reg (fun _ => ImmHi imm))) as Hlui
      by (apply lui_ok; [exact HI|exact Hr|apply ImmHi_UType|exact E]).
    destruct (Z.eqb_spec (ImmLo imm) 0) as [L|L].
    + apply implements_seq_skip. rewrite L, Z.add_0_r in Hs.
      rewrite sN_small in Hs; [|lia|rewrite ImmHi_sN; apply sN_range; lia].
      eapply implements_value; [|exact Hlui]. intros; cbv beta; rewrite Hs; reflexivity.
    + eapply implements_value; [|apply (implements_then a _ _ reg (fun _ => ImmHi imm) (fun x => s32 (x + ImmLo imm)) Hn Hlui);
        apply addiw_i; auto using ImmLo_range].
      intros r _. cbv beta. f_equal. transitivity (s32 (ImmHi imm + ImmLo imm)); [|exact Hs].
      apply uN_eq_sN; [lia|]. rewrite <- uN_add_l, uN_uN_le, uN_add_l by lia. reflexivity.
Qed.

(** A power of two other than [kMinInt64] is loaded by one [bseti]. *)
Lemma bseti_pow2_ok a reg imm : Supports a RV_Zbs = true -> is_uN 5 reg -> is_sN 64 imm -> imm <> kMinInt64 ->
  IsPowerOfTwo imm = true -> implements a (bseti_pow2 reg ZR imm) (writes reg (fun _ => imm)).
Proof.
  intros HZ Hr Hi Hm Hp. destruct (pow2_signed imm Hi Hm Hp) as (k & Hk & ->).
  unfold bseti_pow2. rewrite ShiftForPowerOfTwo_pow2 by lia.
  eapply implements_value; [|apply bseti_i; auto using zr5; lia]. intros r [W0 _]; cbv beta.
  rewrite (W0 : r ZR = 0). unfold Z.setbit. rewrite Z.lor_0_l, Z.shiftl_1_l. reflexivity.
Qed.

(** What is left after the low twelve bits fits in twelve bits less. *)
Lemma LoadImmediate_shrinks f imm : (1 <= f <= 3)%nat -> is_sN (32 + 12 * Z.of_nat f) imm -> is_sN 64 imm ->
  ~ is_sN 32 imm ->
  let hi := s64 (imm - ImmLo imm) in let shift := CountTrailingZeros64 hi in
  12 <= shift < 64 /\ (hi >> shift) * 2 ^ shift = hi /\
  is_sN (32 + 12 * Z.of_nat (f - 1)) (hi >> shift) /\ is_sN 64 (hi >> shift) /\ hi >> shift <> kMinInt64.
Proof.
  intros Hf Hw Hi H32 hi shift. pose proof (ImmLo_s12 imm) as Hl.
  assert (is_sN 64 hi) as Hh by (apply sN_range; lia).
  assert (hi mod 2 ^ 12 = 0) as Hm by (apply sN_mod_low; [lia|lia|apply ImmLo_cong]).
  assert (hi = imm - ImmLo imm \/ hi = - 2 ^ 63 /\ f = 3%nat) as Hc.
  { unfold hi. destruct (Z.le_gt_cases (2 ^ 63) (imm - ImmLo imm)) as [L|L].
    - right. pose proof (ImmLo_cong imm) as C. unfold is_sN in *.
      pose proof (Z.div_mod (imm - ImmLo imm) (2 ^ 12)). assert (imm - ImmLo imm = 2 ^ 63) as -> by lia.
      split; [reflexivity|]. destruct f as [|[|[|[|]]]]; cbn in Hw; lia.
    - destruct (Z.le_gt_cases (- 2 ^ 63) (imm - ImmLo imm)) as [L'|L'].
      + left. apply sN_small; [lia|]. unfold is_sN in *; lia.
      + pose proof (ImmLo_cong imm) as C. unfold is_sN in *. pose proof (Z.div_mod (imm - ImmLo imm) (2 ^ 12)). lia. }
  assert (hi <> 0) as Hn by (unfold is_sN in *; lia).
  destruct (ctz_split hi Hh Hn) as (Hs & E & Ho). pose proof (ctz_aligned hi 12 Hh Hn ltac:(lia) Hm) as H12.
  fold shift in Hs, E, Ho, H12. split; [lia|]. split; [exact E|].
  set (q := hi >> shift) in *.
  assert (exists m, 1 <= m /\ q * m * 4096 = hi) as (m & Hm1 & Eq).
  { exists (2 ^ (shift - 12)). split; [apply (Z.pow_le_mono_r 2 0); lia|].
    change 4096 with (2 ^ 12). rewrite <- Z.mul_assoc, <- Z.pow_add_r by lia. rewrite <- E. do 2 f_equal; lia. }
  rewrite Z.odd_spec in Ho. destruct Ho as [z Hz].
  assert (Z.abs q <= Z.abs (q * m)) as Ha by (rewrite Z.abs_mul; nia).
  unfold is_sN, kMinInt64 in *. destruct f as [|[|[|[|]]]]; cbn -[Z.pow] in Hw |- *; lia.
Qed.

(** A constant loaded without its trailing zeros, then shifted. *)
Lemma load_shifted a e reg v sh imm : Supports a RV_I = true -> is_uN 5 reg -> reg <> 0 -> 1 <= sh < 64 ->
  v * 2 ^ sh = imm -> implements a e (writes reg (fun _ => v)) ->
  implements a (e >>> MicroAssembler.slli reg reg sh) (writes reg (fun _ => imm)).
Proof.
  intros HI Hr Hn Hs E He. eapply implements_value; cycle 1.
  - apply (implements_then a e _ reg (fun _ => v) (fun x => x * 2 ^ sh) Hn He), slli_i; assumption.
  - intros r _. cbv beta. rewrite uN_mul_l, E. reflexivity.
Qed.

Lemma ctz_pos imm : ~ is_sN 32 imm -> 0 <= CountTrailingZeros64 imm < 64 ->
  IsITypeImm (imm >> CountTrailingZeros64 imm) = true -> 1 <= CountTrailingZeros64 imm < 64.
Proof.
  intros H32 Hs H. destruct (Z.eq_dec (CountTrailingZeros64 imm) 0) as [E|]; [|lia].
  rewrite E, Z.shiftr_0_r in H. apply IsInt_spec in H; [|lia]. exfalso; apply H32. unfold is_sN in *; lia.
Qed.

Lemma load_upper a reg imm : Supports a RV_I = true -> is_uN 5 reg -> reg <> 0 -> ~ is_sN 32 imm ->
  0 <= CountTrailingZeros64 imm < 64 ->
  (imm >> CountTrailingZeros64 imm) * 2 ^ CountTrailingZeros64 imm = imm ->
  12 <= CountTrailingZeros64 imm -> IsUTypeImm (imm >> (CountTrailingZeros64 imm - 12)) = true ->
  implements a (MicroAssembler.lui reg (imm >> (CountTrailingZeros64 imm - 12))
                >>> MicroAssembler.slli reg reg (CountTrailingZeros64 imm - 12)) (writes reg (fun _ => imm)).
Proof.
  intros HI Hr Hn H32 Hs E H12 HU. set (c := CountTrailingZeros64 imm) in *.
  assert ((imm >> (c - 12)) * 2 ^ (c - 12) = imm) as E'.
  { rewrite <- E at 1. rewrite Z.shiftr_div_pow2 by lia.
    replace (2 ^ c) with (2 ^ 12 * 2 ^ (c - 12)) by (rewrite <- Z.pow_add_r by lia; f_equal; lia).
    rewrite Z.mul_assoc, Z.div_mul by (apply Z.pow_nonzero; lia). rewrite <- Z.mul_assoc, <- Z.pow_add_r by lia.
    rewrite <- E at 2. do 2 f_equal; lia. }
  apply (load_shifted a _ reg (imm >> (c - 12))); try assumption.
  - destruct (Z.eq_dec c 12) as [Ec|]; [|lia]. exfalso; apply H32.
    rewrite Ec, Z.shiftr_0_r in HU. apply IsUTypeImm_spec in HU. tauto.
  - apply lui_ok; try assumption. intros E0. rewrite E0 in E'. apply H32. rewrite <- E'. vm_compute; split; congruence.
Qed.

(** The upper part shifted into place, then the low twelve bits added. *)
Lemma load_low a e reg imm sh hi : Supports a RV_I = true -> is_uN 5 reg -> reg <> 0 -> 12 <= sh < 64 ->
  (hi >> sh) * 2 ^ sh = hi -> hi = s64 (imm - ImmLo imm) -> implements a e (writes reg (fun _ => hi >> sh)) ->
  implements a (e >>> MicroAssembler.slli reg reg sh
    >>> (if ImmLo imm =? 0 then skip else MicroAssembler.addi reg reg (ImmLo imm))) (writes reg (fun _ => imm)).
Proof.
  intros HI Hr Hn Hs E Hhi He.
  assert (u64 (hi + ImmLo imm) = u64 imm) as Ev
    by (rewrite Hhi, <- uN_add_l, uN_sN, uN_add_l by lia; f_equal; lia).
  eapply (implements_value _ _ _ _ (fun r => u64 (u64 (hi >> sh) * 2 ^ sh) + ImmLo imm)).
  { intros r _; cbv beta. rewrite uN_add_l, <- uN_add_l, uN_mul_l, uN_add_l, E. exact Ev. }
  apply (implements_then a e _ reg (fun _ => hi >> sh) (fun x => u64 (x * 2 ^ sh) + ImmLo imm) Hn He).
  destruct (Z.eqb_spec (ImmLo imm) 0) as [L|L].
  - apply implements_seq_skip. eapply implements_value; [|apply slli_i; auto; lia].
    intros r _; cbv beta. rewrite L, Z.add_0_r, uN_uN. reflexivity.
  - apply (implements_then a _ _ reg (fun r => r reg * 2 ^ sh) (fun x => x + ImmLo imm) Hn).
    + apply slli_i; auto; lia.
    + apply addi_i; auto using ImmLo_range.
Qed.

(** The main theorem's induction: [fuel] levels load [32 + 12 * (fuel - 1)] bits. *)
Lemma LoadImmediate_loop_ok f : forall a reg imm, (f <= 3)%nat ->
  Supports a RV_I = true -> constant_pool_allowed_ a = false -> is_uN 5 reg -> reg <> 0 ->
  is_sN (32 + 12 * Z.of_nat f) imm -> is_sN 64 imm -> imm <> kMinInt64 \/ Supports a RV_Zbs = false ->
  implements a (LoadImmediate_loop (S f) reg imm) (writes reg (fun _ => imm)).
Proof.
  induction f as [|f IH]; intros a reg imm Hf HI Hp Hr Hn Hw Hi Hz; cbn [RvMacros.LoadImmediate_loop];
    (emit_if a; [|apply (LoadImmediate32_ok a reg imm HI Hr Hn); apply IsInt_spec; [lia|];
                  apply negb_false_iff in G; exact G]);
    assert (~ is_sN 32 imm) as H32 by (rewrite <- IsInt_spec by lia; congruence).
  { exfalso; apply H32; exact Hw. }
  emit_if a; [apply bseti_pow2_ok; try assumption; destruct Hz; congruence|].
  destruct (ctz_split imm Hi ltac:(intros ->; apply H32; vm_compute; split; congruence)) as (Hs & E & Ho).
  emit_if a; [apply (load_shifted a _ reg (imm >> CountTrailingZeros64 imm)); auto using li_i; apply ctz_pos; assumption|].
  emit_if a; [apply load_upper; try assumption; lia|].
  pose proof (LoadImmediate_shrinks (S f) imm ltac:(lia) Hw Hi H32) as (Hs' & E' & Hb & Hb' & Hm).
  set (hi := s64 (imm - ImmLo imm)) in *. set (sh := CountTrailingZeros64 hi) in *.
  apply (implements_emit P a _ (LoadImmediate_loop (S f) reg (hi >> sh) >>> MicroAssembler.slli reg reg sh
    >>> (if ImmLo imm =? 0 then skip else MicroAssembler.addi reg reg (ImmLo imm)))).
  { intros b; cbv beta zeta. change (constant_pool_allowed_ (with_buffer b a)) with (constant_pool_allowed_ a).
    fold hi sh. rewrite Hp, (proj2 (Z.eqb_neq sh 0)) by lia. reflexivity. }
  apply (load_low a _ reg imm sh hi); try assumption; [reflexivity|].
  replace (S f - 1)%nat with f in Hb by lia. apply IH; try assumption; [lia|left; exact Hm].
Qed.

End Macros.

(** ** Theorems *)



(**  With Zbs, [LoadImmediate] of [INT64_MIN] emits a single
    [bseti reg, zero, 0] and therefore loads 1: [ShiftForPowerOfTwo] returns 0
    for the signed minimum although [IsPowerOfTwo] accepts it. *)
Theorem LoadImmediate_min_int64 P FindImmediate element_offset a reg :
  Supports a RV_I = true -> Supports a RV_Zbs = true -> is_uN 5 reg ->
  implements P a (LoadImmediate FindImmediate element_offset reg kMinInt64) (writes reg (fun _ => 1)).
Proof.
  intros HI HZ Hr. apply (implements_emit P a _ (MicroAssembler.bseti reg ZR 0)).
  { intros b. unfold LoadImmediate. cbn [LoadImmediate_loop].
    change (Supports (with_buffer b a) RV_Zbs) with (Supports a RV_Zbs). rewrite HZ. reflexivity. }
  eapply implements_value; [|apply (bseti_i P a reg ZR 0 HZ Hr zr5); lia].
  intros r [W0 _]; cbv beta. rewrite (W0 : r ZR = 0). reflexivity.
Qed.

Lemma LoadImmediate_min_int64_witness :
  implements plain_platform asm_rva23 (LoadImmediate (fun _ => 0) (fun _ => 0) A0 kMinInt64) (writes A0 (fun _ => 1)).
Proof.
  apply LoadImmediate_min_int64; [reflexivity|reflexivity|vm_compute; split; congruence].
Defined.
