(* ===== verification/RvBranchProofs.v ===== *)
(** * Branches to bound labels

    A branch or jump to a bound label reaches the label exactly when its
    condition holds, at any distance up to 2 GB: a B-type branch, an inverted
    branch over a jump, or an inverted branch over an auipc/jalr pair. *)

From Stdlib Require Import ZArith Lia ZifyBool Bool List.
From S2P Require Import Prelude Bits Utils RvEncoding RvEncodingProofs RvAlu SimMemory Outcome RvFloat RvSimulator RvAssembler RvExec RvCompressed RvAsmCorrect RvLabels RvMacros RvMacroProofs.
Import ListNotations.
Import MicroAssembler(Supports, Position).

(** The condition a branch instruction tests. *)
Definition taken (func x y : Z) : bool :=
  if func =? BEQ then x =? y
  else if func =? BNE then negb (x =? y)
  else if func =? BLT then s64 x <? s64 y
  else if func =? BGE then s64 x >=? s64 y
  else if func =? BLTU then x <? y
  else x >=? y.

Definition is_branch (func : Z) : Prop := In func [BEQ : Z; BNE : Z; BLT : Z; BGE : Z; BLTU : Z; BGEU : Z].

Definition keeps (regs regs' : Z -> Z) : Prop := forall r, regs' r = regs r.

(** Only the far-jump scratch register may change. *)
Definition keeps_but_far (regs regs' : Z -> Z) : Prop := forall r, r <> FAR_TMP -> regs' r = regs r.

Section Branches.
Context (P : Platform).

(** Running [code] ends at [target] (an offset from its start) when [cond]
    holds of the registers, and at its end otherwise. *)
Definition executes_to (code : list Z) (target : Z) (cond : (Z -> Z) -> bool)
    (R : (Z -> Z) -> (Z -> Z) -> Prop) : Prop :=
  forall s, wf_regs (xregs_ s) -> code_at s code ->
  exists n s', run P n s = Ok s' /\
    after s (if cond (xregs_ s) then target else Z.of_nat (length code)) n s' /\
    wf_regs (xregs_ s') /\ R (xregs_ s) (xregs_ s').

(** [emit] succeeds, keeps the (bound) label and appends code that branches to it. *)
Definition branches (a : Assembler) (label : Label) (emit : Assembler -> label_result (Label * Assembler))
    (cond : (Z -> Z) -> bool) (R : (Z -> Z) -> (Z -> Z) -> Prop) (b : list Z) : Prop :=
  exists code, emit (with_buffer b a) = Done (label, append code (with_buffer b a)) /\
    executes_to code (position_ label - Z.of_nat (length b)) cond R.

Lemma executes_to_app c1 c2 R1 t cond R2 : executes P c1 R1 -> executes_to c2 t cond R2 ->
  forall s, wf_regs (xregs_ s) -> code_at s (c1 ++ c2) ->
  exists n s' m, run P n s = Ok s' /\ wf_regs m /\ R1 (xregs_ s) m /\
    after s (if cond m then Z.of_nat (length c1) + t else Z.of_nat (length (c1 ++ c2))) n s' /\
    wf_regs (xregs_ s') /\ R2 m (xregs_ s').
Proof.
  intros E1 E2 s W C.
  destruct (E1 s W (code_at_app_l _ _ _ C)) as (n1 & s1 & Hr1 & A1 & W1 & HR1).
  destruct (E2 s1 W1 (code_at_app_r _ _ _ _ _ C A1)) as (n2 & s2 & Hr2 & A2 & W2 & HR2).
  exists (n1 + n2)%nat, s2, (xregs_ s1). rewrite (run_app P), (run_in_run _ _ _ _ _ _ Hr1); cbn [bind].
  repeat (split; [assumption|]). split; [|auto].
  pose proof (after_trans _ _ _ _ _ _ _ A1 A2) as A. rewrite length_app, Nat2Z.inj_add.
  destruct (cond (xregs_ s1)); exact A.
Qed.

(** ** One branch instruction *)

Lemma Interpret_BRANCH s e : Instr.opcode e = BRANCH -> Interpret P s e = InterpretBRANCH s e.
Proof. intros H; unfold Interpret; rewrite H; reflexivity. Qed.
Lemma Interpret_JAL s e : Instr.opcode e = JAL -> Interpret P s e = InterpretJAL s e.
Proof. intros H; unfold Interpret; rewrite H; reflexivity. Qed.

Lemma step_advance s e k : is_uN 32 e -> e .& 3 = 3 -> code_at s (le_bytes 4 e) ->
  Interpret P s e = Ok (advance s k) ->
  exists s', run P 1 s = Ok s' /\ after s k 1 s' /\ xregs_ s' = xregs_ s.
Proof.
  intros He H3 C Hi. eexists. cbn [run]. rewrite (step_32 P s e He H3 C), Hi; cbn [bind].
  split; [reflexivity|]. split; [|reflexivity]. split; [reflexivity|cbn; apply uN_uN|destruct s; reflexivity].
Qed.

Lemma InterpretBRANCH_taken s e imm rs2 rs1 func : is_btype e imm rs2 rs1 func BRANCH -> is_branch func ->
  InterpretBRANCH s e = Ok (advance s (if taken func (xregs_ s rs1) (xregs_ s rs2) then imm else 4)).
Proof.
  intros [Hw Hl Hop Hrs1 Hrs2 Hf Himm] Hb. unfold InterpretBRANCH, branch, taken, get_xreg.
  rewrite Hf, Hrs1, Hrs2, Himm.
  repeat (destruct Hb as [<-|Hb]; [reflexivity|]). destruct Hb.
Qed.

Lemma btype_executes e imm rs2 rs1 func : is_btype e imm rs2 rs1 func BRANCH -> is_branch func ->
  executes_to (le_bytes 4 e) imm (fun r => taken func (r rs1) (r rs2)) keeps.
Proof.
  intros Hw Hb s W C. exists 1%nat.
  destruct (step_advance s e (if taken func (xregs_ s rs1) (xregs_ s rs2) then imm else 4)) as (s' & Hr & A & X).
  - exact (btype_word _ _ _ _ _ _ Hw).
  - rewrite (btype_low _ _ _ _ _ _ Hw). reflexivity.
  - exact C.
  - rewrite Interpret_BRANCH by exact (btype_opcode _ _ _ _ _ _ Hw).
    apply (InterpretBRANCH_taken _ _ _ _ _ _ Hw Hb).
  - exists s'. rewrite length_le_bytes. split; [exact Hr|]. split; [exact A|]. rewrite X.
    split; [exact W|intros r; reflexivity].
Qed.

Lemma is_branch_u3 func : is_branch func -> is_uN 3 func.
Proof. intros Hb. repeat (destruct Hb as [<-|Hb]; [vm_compute; split; congruence|]). destruct Hb. Qed.

Lemma branch_word imm rs2 rs1 func a : IsBTypeImm imm = true -> is_uN 5 rs2 -> is_uN 5 rs1 -> is_branch func ->
  exists e, MicroAssembler.EmitBType imm rs2 rs1 func BRANCH a = Some (append (le_bytes 4 e) a) /\
    executes_to (le_bytes 4 e) imm (fun r => taken func (r rs1) (r rs2)) keeps.
Proof.
  intros Hi H2 H1 Hb. pose proof (is_branch_u3 func Hb).
  destruct (EmitBType_spec imm rs2 rs1 func BRANCH a) as (e & He & Hw); try assumption; [vm_compute; split; congruence|].
  exists e; split; [exact He|]. apply btype_executes; assumption.
Qed.

(** Only the link register changes. *)
Definition keeps_but (d : Z) (regs regs' : Z -> Z) : Prop := forall r, r <> d -> regs' r = regs r.

Lemma jtype_executes e imm rd : is_jtype e imm rd JAL -> executes_to (le_bytes 4 e) imm (fun _ => true) (keeps_but rd).
Proof.
  intros [Hw Hl Hop Hrd Himm] s W C. eexists 1%nat, _. cbn [run].
  rewrite (step_32 P s e Hw ltac:(rewrite Hl; reflexivity) C), Interpret_JAL by exact Hop.
  unfold InterpretJAL; rewrite Hrd, Himm; cbn [bind]. split; [reflexivity|].
  rewrite set_xreg_with. split; [|split].
  - split; [|cbn; apply uN_uN|reflexivity].
    unfold sign_extend. cbn. rewrite <- uN_add_r, uN_sN, uN_add_r by lia. reflexivity.
  - cbn. apply wf_set_reg, W.
  - intros r Hr; cbn. apply (writes_other rd (fun _ => pc_ s + Instr.length) (xregs_ s) _ r Hr). intros x; reflexivity.
Qed.

Lemma jump_word imm a : IsJTypeImm imm = true ->
  exists e, MicroAssembler.EmitJType imm ZR JAL a = Some (append (le_bytes 4 e) a) /\
    executes_to (le_bytes 4 e) imm (fun _ => true) keeps.
Proof.
  intros Hi. destruct (EmitJType_spec imm ZR JAL a) as (e & He & Hw);
    [exact Hi|vm_compute; split; congruence..|].
  exists e; split; [exact He|]. intros s W C.
  destruct (jtype_executes e imm ZR Hw s W C) as (n & s' & Hr & A & W' & K). exists n, s'.
  split; [exact Hr|]. split; [exact A|]. split; [exact W'|].
  intros r. destruct (Z.eq_dec r ZR) as [->|Hn]; [|exact (K r Hn)].
  change (Register_value ZR) with 0. rewrite (proj1 W), (proj1 W'). reflexivity.
Qed.

(** ** The auipc/jalr pair *)

Lemma Interpret_AUIPC s e : Instr.opcode e = AUIPC -> Interpret P s e = InterpretAUIPC s e.
Proof. intros H; unfold Interpret; rewrite H; reflexivity. Qed.
Lemma Interpret_JALR s e : Instr.opcode e = JALR -> Interpret P s e = InterpretJALR s e.
Proof. intros H; unfold Interpret; rewrite H; reflexivity. Qed.

Lemma InterpretJALR_far s e lo : is_itype e lo FAR_TMP F3_0 ZR JALR ->
  InterpretJALR s e = Ok (with_pc s (u64 (xregs_ s FAR_TMP + lo))).
Proof.
  intros [Hw Hl Hop Hrd Hrs Hf Himm]. unfold InterpretJALR, CheckLandingPad, get_xreg.
  rewrite Hrd, Hrs, Himm, uN_add_r. cbn [set_xreg]. change (set_xreg s (Register_value ZR) _) with s.
  destruct (lp_enabled_ _); reflexivity.
Qed.

Lemma far_executes e1 e2 offset : is_utype e1 (ImmHi offset) FAR_TMP AUIPC ->
  is_itype e2 (ImmLo offset) FAR_TMP F3_0 ZR JALR -> is_sN 32 (offset - ImmLo offset) ->
  executes_to (le_bytes 4 e1 ++ le_bytes 4 e2) offset (fun _ => true) keeps_but_far.
Proof.
  intros [Hw1 Hl1 Hop1 Hrd1 Himm1] H2 Ho s W C.
  assert (code_at s (le_bytes 4 e1)) as C1 by exact (code_at_app_l _ _ _ C).
  set (s1 := with_instret (advance (set_xreg s FAR_TMP (pc_ s + ImmHi offset)) 4) (u64 (instret_ s + 1))).
  assert (step P s = Ok s1) as E1.
  { rewrite (step_32 P s e1 Hw1 ltac:(rewrite Hl1; reflexivity) C1), Interpret_AUIPC by exact Hop1.
    unfold InterpretAUIPC, write_rd, sign_extend. rewrite Hrd1, Himm1, sN_small; [reflexivity|lia|].
    apply (is_sN_mono 32); [lia|]. apply IsUTypeImm_spec, ImmHi_UType. }
  assert (after s 4 1 s1) as A1 by (split; [reflexivity|cbn; apply uN_uN|destruct s; reflexivity]).
  assert (code_at s1 (le_bytes 4 e2)) as C2 by
    (apply (code_at_app_r s (le_bytes 4 e1) _ 1); [exact C|rewrite length_le_bytes; exact A1]).
  set (s2 := with_instret (with_pc s1 (u64 (xregs_ s1 FAR_TMP + ImmLo offset))) (u64 (instret_ s1 + 1))).
  exists 2%nat, s2. cbn [run]. rewrite E1; cbn [bind].
  rewrite (step_32 P s1 e2 (itype_word _ _ _ _ _ _ H2) ltac:(rewrite (itype_low _ _ _ _ _ _ H2); reflexivity) C2).
  rewrite Interpret_JALR by exact (itype_opcode _ _ _ _ _ _ H2). rewrite (InterpretJALR_far s1 e2 _ H2).
  split; [reflexivity|]. split; [|split].
  - split; [|cbn; rewrite uN_add_l, !uN_uN; f_equal; lia|destruct s; reflexivity].
    change (pc_ s2) with (u64 (u64 (pc_ s + ImmHi offset) + ImmLo offset)).
    rewrite uN_add_l, ImmHi_sN, sN_small by (assumption || lia). f_equal; lia.
  - exact (wf_set_reg (xregs_ s) FAR_TMP _ W).
  - intros r Hr.
    exact (writes_other FAR_TMP (fun _ => pc_ s + ImmHi offset) (xregs_ s) (xregs_ s2) r Hr (fun _ => eq_refl)).
Qed.

(** [EmitFarJump] emits that pair. *)
Lemma EmitFarJump_spec offset a : exists e1 e2,
  EmitFarJump offset a = Some (append (le_bytes 4 e1 ++ le_bytes 4 e2) a) /\
  is_utype e1 (ImmHi offset) FAR_TMP AUIPC /\ is_itype e2 (ImmLo offset) FAR_TMP F3_0 ZR JALR.
Proof.
  pose proof (ImmHi_UType offset) as Hu. unfold EmitFarJump; rewrite Hu.
  destruct (EmitUType_spec (ImmHi offset) FAR_TMP AUIPC a Hu) as (e1 & -> & H1); [vm_compute; split; congruence..|].
  destruct (EmitIType_spec (ImmLo offset) FAR_TMP F3_0 ZR JALR (append (le_bytes 4 e1) a) (ImmLo_range offset))
    as (e2 & -> & H2); [vm_compute; split; congruence..|].
  exists e1, e2. rewrite append_append. auto.
Qed.

Lemma far_jump offset a : is_sN 32 (offset - ImmLo offset) ->
  exists code, EmitFarJump offset a = Some (append code a) /\ length code = 8%nat /\
    executes_to code offset (fun _ => true) keeps_but_far.
Proof.
  intros Ho. destruct (EmitFarJump_spec offset a) as (e1 & e2 & He & H1 & H2).
  eexists; split; [exact He|]. rewrite length_app, !length_le_bytes. split; [reflexivity|].
  apply far_executes; assumption.
Qed.

(** ** The three forms of a branch to a bound label *)

Lemma InvertFunct3_taken func : is_branch func ->
  exists f, InvertFunct3 func = Some f /\ is_branch f /\ forall x y, taken f x y = negb (taken func x y).
Proof.
  intros Hb. repeat (destruct Hb as [<-|Hb]; [eexists; split; [reflexivity|]; split; [cbn; tauto|]|]); [..|destruct Hb];
    intros x y; unfold taken; cbn; lia.
Qed.

(** An inverted branch over a jump is the branch. *)
Lemma executes_over c1 c2 cond off : executes_to c1 (Z.of_nat (length (c1 ++ c2))) (fun r => negb (cond r)) keeps ->
  executes_to c2 off (fun _ => true) keeps_but_far -> (forall r r', keeps r r' -> cond r' = cond r) ->
  executes_to (c1 ++ c2) (Z.of_nat (length c1) + off) cond keeps_but_far.
Proof.
  intros E1 E2 Hc s W C.
  destruct (E1 s W (code_at_app_l _ _ _ C)) as (n1 & s1 & Hr1 & A1 & W1 & K1).
  destruct (cond (xregs_ s)) eqn:T; cbn [negb] in A1.
  - destruct (E2 s1 W1 (code_at_app_r _ _ _ _ _ C A1)) as (n2 & s2 & Hr2 & A2 & W2 & K2).
    exists (n1 + n2)%nat, s2. rewrite (run_app P), Hr1; cbn [bind]. split; [exact Hr2|].
    split; [exact (after_trans _ _ _ _ _ _ _ A1 A2)|]. split; [exact W2|].
    intros r Hr; rewrite (K2 r Hr); apply K1.
  - exists n1, s1. split; [exact Hr1|]. split; [exact A1|]. split; [exact W1|]. intros r _; apply K1.
Qed.

Lemma executes_to_weaken c t cond (R1 R2 : (Z -> Z) -> (Z -> Z) -> Prop) : (forall r r', R1 r r' -> R2 r r') ->
  executes_to c t cond R1 -> executes_to c t cond R2.
Proof. intros H E s W C. destruct (E s W C) as (n & s' & Hr & A & W' & HR). exists n, s'; auto. Qed.

Lemma executes_to_cond c t cond cond' R : (forall r, cond r = cond' r) ->
  executes_to c t cond R -> executes_to c t cond' R.
Proof.
  intros H E s W C. destruct (E s W C) as (n & s' & Hr & A & W' & HR). exists n, s'. rewrite <- H; auto.
Qed.

Lemma taken_keeps func rs1 rs2 r r' : keeps r r' -> taken func (r' rs1) (r' rs2) = taken func (r rs1) (r rs2).
Proof. intros K; rewrite !K; reflexivity. Qed.

(** A bound label is behind the current position. *)
Definition bound_before (label : Label) (b : list Z) : Prop :=
  0 <= position_ label <= Z.of_nat (length b) /\ Z.of_nat (length b) < 2 ^ 31 - 2 ^ 13.

(** The two distances at which the choice of the middle form is wrong. *)
Definition in_gap (offset : Z) : bool := IsJTypeImm (offset + 4) && negb (IsJTypeImm (offset - 4)).

Lemma bound_before_IsBound label b : bound_before label b -> IsBound label = true.
Proof. intros [H _]; unfold IsBound. destruct (Z.eqb_spec (position_ label) (-1)); [lia|reflexivity]. Qed.

Lemma Position_with_buffer b a : Position (with_buffer b a) = Z.of_nat (length b).
Proof. reflexivity. Qed.

Lemma Position_append c a : Position (append c a) = Position a + Z.of_nat (length c).
Proof. unfold Position; cbn. rewrite length_app. lia. Qed.

Lemma AssertLength_ok start n a : Position a = start + n -> AssertLength start n a = Some a.
Proof. intros H; unfold AssertLength. replace (Position a - start =? n) with true by lia. reflexivity. Qed.

(** The inverted branch skips [n] bytes when the branch is not taken. *)
Lemma inverted_word n rs2 rs1 func a : IsBTypeImm n = true -> is_uN 5 rs2 -> is_uN 5 rs1 -> is_branch func ->
  exists c, EmitInverted n rs2 rs1 func a = Some (append c a) /\ length c = 4%nat /\
    executes_to c n (fun r => negb (taken func (r rs1) (r rs2))) keeps.
Proof.
  intros Hn H2 H1 Hb. destruct (InvertFunct3_taken func Hb) as (f & Hf & Hbf & Ht).
  unfold EmitInverted; rewrite Hf. destruct (branch_word n rs2 rs1 f a Hn H2 H1 Hbf) as (e & He & Ee).
  exists (le_bytes 4 e). split; [exact He|]. split; [apply length_le_bytes|].
  apply (executes_to_cond _ _ (fun r => taken f (r rs1) (r rs2))); [intros; apply Ht|exact Ee].
Qed.

Lemma over_jump c1 c2 n off func rs1 rs2 : length c1 = 4%nat -> n = 4 + Z.of_nat (length c2) ->
  executes_to c1 n (fun r => negb (taken func (r rs1) (r rs2))) keeps ->
  executes_to c2 (off - 4) (fun _ => true) keeps_but_far ->
  executes_to (c1 ++ c2) off (fun r => taken func (r rs1) (r rs2)) keeps_but_far.
Proof.
  intros L1 Hn E1 E2. replace off with (Z.of_nat (length c1) + (off - 4)) by lia.
  apply executes_over; [|exact E2|intros r r'; apply taken_keeps].
  rewrite length_app, L1. replace (Z.of_nat (4 + length c2)) with n by lia. exact E1.
Qed.

Lemma ImmLo_neg offset : -2 ^ 31 + 2 ^ 12 <= offset <= 0 -> is_sN 32 (offset - ImmLo offset).
Proof. intros H. pose proof (ImmLo_s12 offset) as L. unfold is_sN in *. lia. Qed.

Lemma keeps_far r r' : keeps r r' -> keeps_but_far r r'.
Proof. intros K x _; apply K. Qed.

Lemma EmitBranch_ok a label rs1 rs2 func distance b : is_uN 5 rs1 -> is_uN 5 rs2 -> is_branch func ->
  bound_before label b ->
  in_gap (position_ label - Z.of_nat (length b)) = false ->
  branches a label (EmitBranch rs1 rs2 label func distance) (fun r => taken func (r rs1) (r rs2)) keeps_but_far b.
Proof.
  intros H1 H2 Hb Hl Hg. unfold branches, EmitBranch.
  rewrite (bound_before_IsBound _ _ Hl), Position_with_buffer. destruct Hl as [Hp Hlen].
  set (off := position_ label - Z.of_nat (length b)) in *.
  destruct (IsBTypeImm off) eqn:HB; [|destruct (IsJTypeImm (off + 4)) eqn:HJ].
  - destruct (branch_word off rs2 rs1 func (with_buffer b a) HB H2 H1 Hb) as (e & -> & E).
    eexists; split; [reflexivity|]. exact (executes_to_weaken _ _ _ _ _ keeps_far E).
  - assert (IsJTypeImm (off - 4) = true) as HJ4 by (unfold in_gap in Hg; rewrite HJ in Hg; apply negb_false_iff, Hg).
    destruct (inverted_word 8 rs2 rs1 func (with_buffer b a)) as (c & -> & Lc & Ec); [reflexivity|assumption..|].
    destruct (jump_word (off - 4) (append c (with_buffer b a)) HJ4) as (e & He & E).
    cbn [lift lbind]. rewrite Position_append, Position_with_buffer, Lc.
    replace (position_ label - (Z.of_nat (length b) + Z.of_nat 4)) with (off - 4) by lia.
    rewrite He; cbn [lift lbind].
    rewrite append_append, AssertLength_ok by (rewrite Position_append, length_app, length_le_bytes, Lc; reflexivity).
    eexists; split; [reflexivity|].
    apply (over_jump _ _ 8); [assumption|rewrite length_le_bytes; reflexivity|exact Ec|].
    exact (executes_to_weaken _ _ _ _ _ keeps_far E).
  - destruct (inverted_word 12 rs2 rs1 func (with_buffer b a)) as (c & -> & Lc & Ec); [reflexivity|assumption..|].
    destruct (far_jump (off - 4) (append c (with_buffer b a))) as (c2 & He & L2 & E); [apply ImmLo_neg; lia|].
    cbn [lift lbind]. rewrite Position_append, Position_with_buffer, Lc.
    replace (position_ label - (Z.of_nat (length b) + Z.of_nat 4)) with (off - 4) by lia.
    rewrite He; cbn [lift lbind].
    rewrite append_append, AssertLength_ok by (rewrite Position_append, length_app, Lc, L2; reflexivity).
    eexists; split; [reflexivity|].
    apply (over_jump _ _ 12); [assumption|rewrite L2; reflexivity|exact Ec|exact E].
Qed.

(** ** Compressed branches and jumps *)

Lemma step_advance_16 s e k : is_uN 16 e -> (e .& 3 =? 3) = false -> code_at s (le_bytes 2 e) ->
  Interpret_C P s e = Ok (advance s k) ->
  exists s', run P 1 s = Ok s' /\ after s k 1 s' /\ xregs_ s' = xregs_ s.
Proof.
  intros He H3 C Hi. eexists. cbn [run].
  rewrite (step_16 P s e He (proj1 (Z.eqb_neq _ _) H3) C), Hi; cbn [bind].
  split; [reflexivity|]. split; [|reflexivity]. split; [reflexivity|cbn; apply uN_uN|destruct s; reflexivity].
Qed.

(** A compressed word that adds [off] to the pc when [cond] holds. *)
Lemma executes_to_16 e off (cond : (Z -> Z) -> bool) : is_uN 16 e -> (e .& 3 =? 3) = false ->
  (forall s, Interpret_C P s e = Ok (advance s (if cond (xregs_ s) then off else 2))) ->
  executes_to (le_bytes 2 e) off cond keeps.
Proof.
  intros He H3 Hi s W C. exists 1%nat.
  destruct (step_advance_16 s e _ He H3 C (Hi s)) as (s' & Hr & A & X).
  exists s'. rewrite length_le_bytes. split; [exact Hr|]. split; [exact A|]. rewrite X.
  split; [exact W|intros r; reflexivity].
Qed.

Record is_cb (e op rs1 imm : Z) : Prop := mkCb {
  cb_word : is_uN 16 e;
  cb_low : (e .& 3 =? 3) = false;
  cb_opcode : CInstr.opcode e = op;
  cb_rs1 : CInstr.rs1p e = rs1;
  cb_imm : CInstr.b_imm e = imm
}.

Lemma EmitCB_spec (op : COpcode) rs1 imm a : In op [C_BEQZ; C_BNEZ] -> IsCRs1p rs1 = true -> IsCBImm imm = true ->
  exists e, MicroAssembler.Emit16 (Some (COpcode_value op) .|? EncodeCRs1p rs1 .|? EncodeCBImm imm) a
    = Some (append (le_bytes 2 e) a) /\ is_cb e op rs1 imm.
Proof.
  intros Hop Hr Hi. learn_primes. unfold EncodeCBImm; rewrite Hi; unfold IsCBImm in Hi; learn_guard. c_encode.
  eexists; split; [reflexivity|].
  repeat (destruct Hop as [<-|Hop];
    [split; [apply uN_range; lia|low_bits 1|c_field|c_prime|unfold CInstr.b_imm, DecodeCBImm; c_field]|]).
  destruct Hop.
Qed.

(** The condition of a compressed branch. *)
Definition c_taken (op : COpcode) (x : Z) : bool := xorb (match op with C_BNEZ => true | _ => false end) (x =? 0).

Lemma cb_executes e (op : COpcode) rs1 imm : In op [C_BEQZ; C_BNEZ] -> is_cb e op rs1 imm ->
  executes_to (le_bytes 2 e) imm (fun r => c_taken op (r rs1)) keeps.
Proof.
  intros Hop [Hw H3 Ho Hrs Him]. apply executes_to_16; [assumption..|].
  intros s. unfold Interpret_C, get_xreg, c_taken. rewrite Ho, Hrs, Him.
  repeat (destruct Hop as [<-|Hop];
    [cbn -[Z.eqb Z.add advance position_ Z.sub Z.of_nat]; destruct (xregs_ s rs1 =? 0); reflexivity|]).
  destruct Hop.
Qed.

Lemma c_branch_ok a label rs1 (op : COpcode) b : In op [C_BEQZ; C_BNEZ] -> IsCRs1p rs1 = true -> IsBound label = true ->
  IsCBImm (position_ label - Z.of_nat (length b)) = true ->
  branches a label (EmitCBranch rs1 label op) (fun r => c_taken op (r rs1)) keeps_but_far b.
Proof.
  intros Hop Hr Hl Hi. unfold branches, EmitCBranch. rewrite Hl; cbn [lbind]. rewrite Position_with_buffer, Hi.
  destruct (EmitCB_spec op rs1 _ (with_buffer b a) Hop Hr Hi) as (e & -> & Hw).
  eexists; split; [reflexivity|]. apply (executes_to_weaken _ _ _ _ _ keeps_far), cb_executes; assumption.
Qed.

Record is_cj (e imm : Z) : Prop := mkCj {
  cj_word : is_uN 16 e;
  cj_low : (e .& 3 =? 3) = false;
  cj_opcode : CInstr.opcode e = C_J;
  cj_imm : CInstr.j_imm e = imm
}.

Lemma EmitCJ_spec imm a : IsCJImm imm = true ->
  exists e, MicroAssembler.Emit16 (Some (COpcode_value C_J) .|? EncodeCJImm imm) a
    = Some (append (le_bytes 2 e) a) /\ is_cj e imm /\ is_sN 11 imm.
Proof.
  intros Hi. unfold EncodeCJImm; rewrite Hi; unfold IsCJImm in Hi; learn_guard. cbn [option_lor].
  eexists; split; [reflexivity|]. split; [|assumption].
  split; [apply uN_range; lia|low_bits 1|c_field|unfold CInstr.j_imm, DecodeCJImm; c_field].
Qed.

Lemma cj_executes e imm : is_cj e imm -> is_sN 11 imm ->
  executes_to (le_bytes 2 e) imm (fun _ => true) keeps.
Proof.
  intros [Hw H3 Ho Him] Hs. apply executes_to_16; [assumption..|].
  intros s. unfold Interpret_C. rewrite Ho, Him. unfold sign_extend.
  pose proof (is_sN_mono 11 32 _ ltac:(lia) Hs) as H32.
  rewrite !(sN_small 32 _ ltac:(lia) H32). reflexivity.
Qed.

Lemma c_j_ok a label b : Supports a RV_C = true -> IsBound label = true ->
  IsCJImm (position_ label - Z.of_nat (length b)) = true ->
  branches a label (c_j label) (fun _ => true) keeps_but_far b.
Proof.
  intros HC Hl Hi. unfold branches, c_j, EmitCJump. rewrite Supports_with_buffer, HC, Hl; cbn [lbind].
  rewrite Position_with_buffer, Hi.
  destruct (EmitCJ_spec _ (with_buffer b a) Hi) as (e & -> & Hw & Hs).
  eexists; split; [reflexivity|]. apply (executes_to_weaken _ _ _ _ _ keeps_far), cj_executes; assumption.
Qed.

(** ** The branch instructions *)

Lemma branches_cond a label emit cond cond' R b : (forall r, wf_regs r -> cond r = cond' r) ->
  branches a label emit cond R b -> branches a label emit cond' R b.
Proof.
  intros H (c & Hc & E). exists c; split; [exact Hc|]. intros s W C.
  destruct (E s W C) as (n & s' & Hr & A & W' & HR). exists n, s'. rewrite <- H by exact W; auto.
Qed.

Lemma taken_zero r rs : wf_regs r -> (taken BEQ (r ZR) (r rs) = (r rs =? 0)) /\ (taken BEQ (r rs) (r ZR) = (r rs =? 0))
  /\ (taken BNE (r ZR) (r rs) = negb (r rs =? 0)) /\ (taken BNE (r rs) (r ZR) = negb (r rs =? 0)).
Proof. intros [W0 _]. change (Register_value ZR) with 0. rewrite W0. unfold taken; cbn. repeat split; lia. Qed.

(** [beq] and [bne] choose the 16-bit form for a near test against zero. *)
Lemma eq_branch_ok (op : COpcode) func (emit : Z -> Z -> Label -> JumpDistance -> Assembler -> label_result (Label * Assembler))
    (c_emit : Z -> Label -> Assembler -> label_result (Label * Assembler)) a label rs1 rs2 b :
  (op = C_BEQZ /\ func = (BEQ : Z) \/ op = C_BNEZ /\ func = (BNE : Z)) ->
  (forall rs a, Supports a RV_C = true -> c_emit rs label a = EmitCBranch rs label op a) ->
  (forall a, Supports a RV_I = true -> emit rs1 rs2 label kFarJump a =
     if Supports a RV_C && (IsBound label && IsCBImm (position_ label - Position a)) then
       if (rs1 =? ZR) && IsCRs1p rs2 then c_emit rs2 label a
       else if (rs2 =? ZR) && IsCRs1p rs1 then c_emit rs1 label a
       else EmitBranch rs1 rs2 label func kFarJump a
     else EmitBranch rs1 rs2 label func kFarJump a) ->
  Supports a RV_I = true -> is_uN 5 rs1 -> is_uN 5 rs2 -> bound_before label b ->
  in_gap (position_ label - Z.of_nat (length b)) = false ->
  branches a label (emit rs1 rs2 label kFarJump) (fun r => taken func (r rs1) (r rs2)) keeps_but_far b.
Proof.
  intros Hop Hc He HI H1 H2 Hl Hg.
  assert (is_branch func) as Hb by (destruct Hop as [[_ ->]|[_ ->]]; cbn; tauto).
  assert (In op [C_BEQZ; C_BNEZ]) as Hin by (destruct Hop as [[-> _]|[-> _]]; cbn; tauto).
  pose proof (EmitBranch_ok a label rs1 rs2 func kFarJump b H1 H2 Hb Hl Hg) as Hlong.
  pose proof (bound_before_IsBound _ _ Hl) as HB.
  unfold branches. rewrite He by exact HI. rewrite Supports_with_buffer, HB, Position_with_buffer. cbn [andb].
  destruct (Supports a RV_C) eqn:HC; [|exact Hlong].
  destruct (IsCBImm _) eqn:Hi; cbn [andb]; [|exact Hlong].
  destruct ((rs1 =? ZR) && IsCRs1p rs2) eqn:G1; [|destruct ((rs2 =? ZR) && IsCRs1p rs1) eqn:G2; [|exact Hlong]].
  - learn_bools. rewrite Hc by exact HC.
    apply (branches_cond a label (EmitCBranch rs2 label op) _ _ _ b) with (2 := c_branch_ok a label rs2 op b Hin ltac:(assumption) HB Hi).
    intros r W. pose proof (taken_zero r rs2 W). unfold c_taken. destruct Hop as [[-> ->]|[-> ->]]; cbn [xorb]; symmetry; tauto.
  - learn_bools. rewrite Hc by exact HC.
    apply (branches_cond a label (EmitCBranch rs1 label op) _ _ _ b) with (2 := c_branch_ok a label rs1 op b Hin ltac:(assumption) HB Hi).
    intros r W. pose proof (taken_zero r rs1 W). unfold c_taken. destruct Hop as [[-> ->]|[-> ->]]; cbn [xorb]; symmetry; tauto.
Qed.

Lemma beq_ok a label rs1 rs2 b : Supports a RV_I = true -> is_uN 5 rs1 -> is_uN 5 rs2 -> bound_before label b ->
  in_gap (position_ label - Z.of_nat (length b)) = false ->
  branches a label (beq rs1 rs2 label kFarJump) (fun r => taken BEQ (r rs1) (r rs2)) keeps_but_far b.
Proof.
  apply (eq_branch_ok C_BEQZ BEQ beq c_beqz); [tauto| |].
  - intros rs a' H; unfold c_beqz; rewrite H; reflexivity.
  - intros a' H; unfold beq; rewrite H; reflexivity.
Qed.
Lemma bne_ok a label rs1 rs2 b : Supports a RV_I = true -> is_uN 5 rs1 -> is_uN 5 rs2 -> bound_before label b ->
  in_gap (position_ label - Z.of_nat (length b)) = false ->
  branches a label (bne rs1 rs2 label kFarJump) (fun r => taken BNE (r rs1) (r rs2)) keeps_but_far b.
Proof.
  apply (eq_branch_ok C_BNEZ BNE bne c_bnez); [tauto| |].
  - intros rs a' H; unfold c_bnez; rewrite H; reflexivity.
  - intros a' H; unfold bne; rewrite H; reflexivity.
Qed.

Definition branch_instructions : list (Z * (Z -> Z -> Label -> JumpDistance -> Assembler -> label_result (Label * Assembler))) :=
  [(BEQ : Z, beq); (BNE : Z, bne); (BLT : Z, blt); (BGE : Z, bge); (BLTU : Z, bltu); (BGEU : Z, bgeu)].

Lemma branch_ok func emit a label rs1 rs2 b : In (func, emit) branch_instructions ->
  Supports a RV_I = true -> is_uN 5 rs1 -> is_uN 5 rs2 -> bound_before label b ->
  in_gap (position_ label - Z.of_nat (length b)) = false ->
  branches a label (emit rs1 rs2 label kFarJump) (fun r => taken func (r rs1) (r rs2)) keeps_but_far b.
Proof.
  intros Hin HI H1 H2 Hl Hg. cbn [branch_instructions In] in Hin.
  destruct Hin as [[= <- <-]|[[= <- <-]|Hin]]; [apply beq_ok; assumption|apply bne_ok; assumption|].
  repeat (destruct Hin as [[= <- <-]|Hin];
    [unfold branches, blt, bge, bltu, bgeu; rewrite ?Supports_with_buffer, ?HI; cbn [negb];
     apply EmitBranch_ok; (assumption || (cbn; tauto))|]). destruct Hin.
Qed.

(** ** Jumps *)

Lemma EmitJump_ok a label b : bound_before label b ->
  branches a label (EmitJump ZR label kFarJump) (fun _ => true) keeps_but_far b.
Proof.
  intros Hl. unfold branches, EmitJump. rewrite (bound_before_IsBound _ _ Hl), Position_with_buffer.
  destruct Hl as [Hp Hlen]. set (off := position_ label - Z.of_nat (length b)) in *.
  destruct (IsJTypeImm off) eqn:HJ.
  - destruct (jump_word off (with_buffer b a) HJ) as (e & -> & E).
    eexists; split; [reflexivity|]. exact (executes_to_weaken _ _ _ _ _ keeps_far E).
  - destruct (far_jump off (with_buffer b a)) as (c & -> & _ & E); [apply ImmLo_neg; lia|].
    eexists; split; [reflexivity|exact E].
Qed.

Lemma j_ok a label b : Supports a RV_I = true -> bound_before label b ->
  branches a label (j label kFarJump) (fun _ => true) keeps_but_far b.
Proof.
  intros HI Hl. unfold branches, j, jal. rewrite !Supports_with_buffer, HI, (bound_before_IsBound _ _ Hl), Position_with_buffer.
  cbn [negb is_near orb andb]. destruct (Supports a RV_C) eqn:HC; cbn [andb]; [|apply EmitJump_ok, Hl].
  destruct (IsCJImm _) eqn:Hi; cbn [andb]; [|apply EmitJump_ok, Hl].
  exact (c_j_ok a label b HC (bound_before_IsBound _ _ Hl) Hi).
Qed.

(** ** Code before a branch *)

(** [emit] appends at most [k] bytes. *)
Definition grows (k : nat) (emit : Assembler -> option Assembler) : Prop :=
  forall a a', emit a = Some a' -> exists c, a' = append c a /\ (length c <= k)%nat.

Lemma grows_seq k1 k2 e1 e2 : grows k1 e1 -> grows k2 e2 -> grows (k1 + k2) (e1 >>> e2).
Proof.
  intros G1 G2 a a' H; unfold seq in H. destruct (e1 a) as [a1|] eqn:E1; [|discriminate].
  destruct (G1 a a1 E1) as (c1 & -> & L1). destruct (G2 _ _ H) as (c2 & -> & L2).
  exists (c1 ++ c2). rewrite append_append, length_app. split; [reflexivity|lia].
Qed.

Lemma append_inj c1 c2 a : append c1 a = append c2 a -> c1 = c2.
Proof. intros H; apply (f_equal buffer_) in H; cbn in H. exact (app_inv_head _ _ _ H). Qed.

(** The label is behind, and no position of the next [k] bytes is at one of the two bad distances. *)
Definition placed (k : nat) (label : Label) (b : list Z) : Prop :=
  0 <= position_ label <= Z.of_nat (length b) /\ Z.of_nat (length b) + Z.of_nat k < 2 ^ 31 - 2 ^ 13 /\
  (Z.of_nat (length b) + Z.of_nat k - position_ label <= 2 ^ 19 - 4 \/
   2 ^ 19 + 4 < Z.of_nat (length b) - position_ label).

Lemma placed_app k label b c : placed k label b -> (length c <= k)%nat ->
  bound_before label (b ++ c) /\ in_gap (position_ label - Z.of_nat (length (b ++ c))) = false.
Proof.
  intros (Hp & Hlen & Hg) L. rewrite length_app. split; [unfold bound_before; rewrite length_app; lia|].
  unfold in_gap, IsJTypeImm.
  set (d := position_ label - Z.of_nat (length b + length c)).
  destruct (IsAligned (d + 4) 2 0) eqn:A; [|rewrite andb_false_r; reflexivity].
  assert (IsAligned (d - 4) 2 0 = true) as ->.
  { rewrite <- A. unfold IsAligned. change (2 - 1) with (Z.ones 1). rewrite !Z.land_ones by lia.
    unfold uN. rewrite ?Z.add_0_r, !Z.mod_mod_divide by (exists (2 ^ 63); reflexivity).
    replace (d - 4) with (d + 4 + (-4) * 2 ^ 1) by lia. rewrite Z_mod_plus_full. reflexivity. }
  destruct (IsInt 20 (d + 4)) eqn:I1, (IsInt 20 (d - 4)) eqn:I2; try reflexivity. exfalso.
  apply IsInt_spec in I1; [|lia]. enough (IsInt 20 (d - 4) = true) by congruence.
  apply IsInt_spec; [lia|]. unfold is_sN in *. lia.
Qed.

(** [emit], then a branch on registers related to the initial ones by [R1]. *)
Lemma then_branch_ok a label emit k br R1 cond R2 cond' (R : (Z -> Z) -> (Z -> Z) -> Prop) b :
  implements P a emit R1 -> grows k emit -> placed k label b ->
  (forall b, bound_before label b -> in_gap (position_ label - Z.of_nat (length b)) = false ->
     branches a label br cond R2 b) ->
  (forall r m, wf_regs r -> wf_regs m -> R1 r m -> cond m = cond' r) ->
  (forall r m r', wf_regs r -> wf_regs m -> R1 r m -> R2 m r' -> R r r') ->
  branches a label (then_branch emit br) cond' R b.
Proof.
  intros I G Hp Hbr Hc HR. destruct (I b) as (c1 & H1 & E1).
  assert (length c1 <= k)%nat as L1
    by (destruct (G _ _ H1) as (c & Hc1 & L); rewrite (append_inj _ _ _ Hc1); exact L).
  destruct (placed_app k label b c1 Hp L1) as [Hbb Hg].
  destruct (Hbr _ Hbb Hg) as (c2 & H2 & E2). exists (c1 ++ c2). unfold then_branch. rewrite H1; cbn [lift lbind].
  change (append c1 (with_buffer b a)) with (with_buffer (b ++ c1) a). rewrite H2. split.
  { change (with_buffer (b ++ c1) a) with (append c1 (with_buffer b a)). rewrite append_append; reflexivity. }
  intros s W C. destruct (executes_to_app c1 c2 R1 _ cond R2 E1 E2 s W C) as (n & s' & m & Hr & Wm & HR1 & A & W' & HR2).
  exists n, s'. split; [exact Hr|]. rewrite <- (Hc _ _ W Wm HR1). split; [|split; [exact W'|eauto]].
  rewrite length_app in A at 1. replace (Z.of_nat (length c1) + (position_ label - Z.of_nat (length b + length c1)))
    with (position_ label - Z.of_nat (length b)) in A by lia. exact A.
Qed.

End Branches.

(** Bounds the code of an emitter by following its choices of form. *)
Ltac grow_emit :=
  let a := fresh "a" in let a' := fresh "a'" in let H := fresh "H" in
  intros a a' H;
  repeat first
  [ match type of H with (if ?c then _ else _) = _ => destruct c end
  | match type of H with MicroAssembler.Emit16 ?o _ = _ => unfold MicroAssembler.Emit16 in H end
  | match type of H with MicroAssembler.Emit32 ?o _ = _ => unfold MicroAssembler.Emit32 in H end
  | match type of H with match ?o with Some _ => _ | None => _ end = _ => destruct o end
  | discriminate H
  | match type of H with Some (append ?c _) = Some _ => injection H as <-; exists c; split; [reflexivity|cbn; lia] end
  | match type of H with ?t = _ => let h := head_of t in unfold h in H end ].

(** ** Theorems *)



(**  [EmitBranch] tests [IsJTypeImm(offset + 4)] before it emits the jump
    with [offset - 4], so at two backward distances a branch to a bound label
    fails the assertion of the J-type encoder instead of using the far form. *)
Theorem EmitBranch_gap a label rs1 rs2 func distance : is_uN 5 rs1 -> is_uN 5 rs2 -> is_branch func ->
  IsBound label = true -> position_ label - Position a = - 2 ^ 19 - 4 \/ position_ label - Position a = - 2 ^ 19 - 2 ->
  EmitBranch rs1 rs2 label func distance a = Failed.
Proof.
  intros H1 H2 Hb Hl Ho. unfold EmitBranch. rewrite Hl.
  destruct (inverted_word plain_platform 8 rs2 rs1 func a eq_refl H2 H1 Hb) as (c & Hc & Lc & _).
  rewrite Hc. cbn [lift lbind]. rewrite Position_append, Lc.
  replace (position_ label - (Position a + Z.of_nat 4)) with (position_ label - Position a - 4) by lia.
  destruct Ho as [-> | ->]; reflexivity.
Qed.

Lemma EmitBranch_gap_witness :
  EmitBranch A0 A1 (MkLabel 0 (-1) (-1) (-1) (-1) (-1)) BEQ kFarJump
    (with_buffer (repeat 0 (Z.to_nat 0x80002)) asm_rva23) = Failed.
Proof.
  apply EmitBranch_gap;
    [vm_compute; split; congruence|vm_compute; split; congruence|cbn; tauto|reflexivity|right].
  rewrite Position_with_buffer, repeat_length, Z2Nat.id; [reflexivity|lia].
Defined.
