(* ===== verification/RvOverflowProofs.v ===== *)
(** * Overflow-checked arithmetic

    [AddBranchOverflow], [SubtractBranchOverflow] and [MultiplyBranchOverflow]
    put the wrapped result in [rd] and branch when the exact result does not fit
    in 64 bits.  Subtraction does so only when its registers are distinct. *)

From Stdlib Require Import ZArith Lia ZifyBool Bool List.
From S2P Require Import Prelude Bits Utils RvEncoding RvEncodingProofs RvAlu SimMemory Outcome RvFloat RvSimulator RvAssembler RvExec RvCompressed RvAsmCorrect RvLabels RvMacros RvMacroProofs RvBranchProofs.
Import ListNotations.
Import MicroAssembler(Supports, Position).

Definition overflows (z : Z) : bool := negb ((- 2 ^ 63 <=? z) && (z <? 2 ^ 63)).

(** The registers after a checked operation: the wrapped result in [rd], the scratch registers lost. *)
Definition checked_result (rd : Z) (v : (Z -> Z) -> Z) (r r' : Z -> Z) : Prop :=
  r' rd = u64 (v r) /\
  forall x, x <> rd -> x <> TMP -> x <> TMP2 -> x <> FAR_TMP -> r' x = r x.

(** ** Signs *)

Lemma s64_neg x : (s64 x <? 0) = Z.testbit x 63.
Proof.
  rewrite <- (testbit_is_sN 64 (s64 x) 63) by (lia || (apply sN_range; lia)).
  rewrite testbit_sN by lia. reflexivity.
Qed.

Lemma s64_lxor_neg x y : (s64 (x .^ y) <? 0) = xorb (s64 x <? 0) (s64 y <? 0).
Proof. rewrite !s64_neg, Z.lxor_spec. reflexivity. Qed.

Lemma s64_wrap z : exists q, s64 z = z + q * 2 ^ 64 /\ - 2 ^ 63 <= s64 z < 2 ^ 63.
Proof. destruct (sN_cong 64 z ltac:(lia)) as [q E]. exists q. split; [exact E|exact (sN_range 64 z ltac:(lia))]. Qed.

Lemma s64_sum x y : s64 (x + y) = s64 (s64 x + s64 y).
Proof. apply uN_eq_sN; [lia|]. rewrite <- (uN_add_l 64 (s64 x)), <- (uN_add_r 64 _ (s64 y)), !uN_sN, uN_add_l, uN_add_r by lia. reflexivity. Qed.
Lemma s64_difference x y : s64 (x - y) = s64 (s64 x - s64 y).
Proof. apply uN_eq_sN; [lia|]. rewrite <- (uN_sub_l 64 (s64 x)), <- (uN_sub_r 64 _ (s64 y)), !uN_sN, uN_sub_l, uN_sub_r by lia. reflexivity. Qed.

Ltac wrap z := let q := fresh "q" in destruct (s64_wrap z) as (q & ? & ?).

Lemma add_sign x y : xorb (s64 x <? 0) (s64 (x + y) <? s64 y) = overflows (s64 x + s64 y).
Proof. rewrite s64_sum. wrap x; wrap y; wrap (s64 x + s64 y). unfold overflows. lia. Qed.
Lemma double_sign x : xorb (s64 x <? 0) (s64 (x + x) <? 0) = overflows (s64 x + s64 x).
Proof. rewrite s64_sum. wrap x; wrap (s64 x + s64 x). unfold overflows. lia. Qed.
Lemma sub_sign x y : xorb (s64 y <? 0) (s64 x <? s64 (x - y)) = overflows (s64 x - s64 y).
Proof. rewrite s64_difference. wrap x; wrap y; wrap (s64 x - s64 y). unfold overflows. lia. Qed.

(** The high half of a product is the sign of the low half exactly when the product fits. *)
Lemma mul_sign x y : negb (u64 (s64 x * s64 y / 2 ^ 64) =? u64 (s64 (x * y) / 2 ^ 63)) = overflows (s64 x * s64 y).
Proof.
  assert (s64 (x * y) = s64 (s64 x * s64 y)) as ->
    by (apply uN_eq_sN; [lia|]; rewrite uN_mul_sN_l, uN_mul_sN_r by lia; reflexivity).
  wrap x; wrap y. set (p := s64 x * s64 y) in *.
  assert (- 2 ^ 126 <= p <= 2 ^ 126) as Hp by (subst p; nia). wrap p. clearbody p. unfold overflows.
  assert (s64 p / 2 ^ 63 = if s64 p <? 0 then -1 else 0) as ->
    by (destruct (Z.ltb_spec (s64 p) 0); symmetry; [apply (Z.div_unique_pos _ _ _ (s64 p + 2 ^ 63))|
        apply (Z.div_unique_pos _ _ _ (s64 p))]; lia).
  assert (- 2 ^ 63 <= p / 2 ^ 64 < 2 ^ 63) as Hh
    by (split; [apply Z.div_le_lower_bound|apply Z.div_lt_upper_bound]; lia).
  set (h := p / 2 ^ 64) in *. assert (p = 2 ^ 64 * h + p mod 2 ^ 64) as Ep by (apply Z.div_mod; lia).
  pose proof (Z.mod_pos_bound p (2 ^ 64)) as Hm.
  assert (forall k, - 2 ^ 63 <= k < 2 ^ 63 -> (u64 h =? u64 k) = (h =? k)) as Heq.
  { intros k Hk. destruct (Z.eqb_spec (u64 h) (u64 k)) as [E|E], (Z.eqb_spec h k) as [E'|E']; try congruence; try reflexivity.
    exfalso; apply E'. rewrite <- (sN_small 64 h), <- (sN_small 64 k) by (unfold is_sN; lia). apply uN_eq_sN; [lia|exact E]. }
  destruct (Z.ltb_spec (s64 p) 0); rewrite Heq by lia; lia.
Qed.

(** ** Three instructions and a branch *)

Section Overflow.
Context (P : Platform).

Lemma implements_three a e1 e2 e3 d1 d2 d3 v1 v2 v3 :
  implements P a e1 (writes d1 v1) -> implements P a e2 (writes d2 v2) -> implements P a e3 (writes d3 v3) ->
  implements P a (e1 >>> e2 >>> e3)
    (fun r r' => exists m1 m2, writes d1 v1 r m1 /\ writes d2 v2 m1 m2 /\ writes d3 v3 m2 r').
Proof.
  intros I1 I2 I3. eapply implements_weaken; [|exact (implements_seq P a _ _ _ _ I1 (implements_seq P a _ _ _ _ I2 I3))].
  cbv beta. intros r r' _ _ (m1 & _ & W1 & m2 & _ & W2 & W3). eauto.
Qed.

Lemma implements_two a e1 e2 d1 d2 v1 v2 :
  implements P a e1 (writes d1 v1) -> implements P a e2 (writes d2 v2) ->
  implements P a (e1 >>> e2) (fun r r' => exists m1, writes d1 v1 r m1 /\ writes d2 v2 m1 r').
Proof.
  intros I1 I2. eapply implements_weaken; [|exact (implements_seq P a _ _ _ _ I1 I2)].
  cbv beta. intros r r' _ _ (m1 & _ & W1 & W2). eauto.
Qed.

Lemma bne_cond (m : Z -> Z) rs1 rs2 b1 b2 : m rs1 = u64 (Z.b2z b1) -> m rs2 = u64 (Z.b2z b2) ->
  taken BNE (m rs1) (m rs2) = xorb b1 b2.
Proof. intros -> ->; destruct b1, b2; reflexivity. Qed.

Lemma bltz_cond (m : Z -> Z) rs : wf_regs m -> taken BLT (m rs) (m ZR) = (s64 (m rs) <? 0).
Proof. intros [W0 _]. rewrite (W0 : m ZR = 0). reflexivity. Qed.

Lemma bltz_ok a label rs b : Supports a RV_I = true -> is_uN 5 rs -> bound_before label b ->
  in_gap (position_ label - Z.of_nat (length b)) = false ->
  branches P a label (bltz rs label kFarJump) (fun r => taken BLT (r rs) (r ZR)) keeps_but_far b.
Proof.
  intros HI Hr. apply (branch_ok P BLT blt); [cbn; tauto|exact HI|exact Hr|exact zr5].
Qed.

End Overflow.

(** Reads a register through the writes of the context. *)
Ltac neq := first [assumption|discriminate|congruence|(let H := fresh in intro H; first [discriminate H|congruence|apply H; assumption])].
Ltac read_regs :=
  repeat match goal with
  | W : writes ?d ?v ?r ?m |- context [?m ?x] =>
      first [ constr_eq x d; rewrite (writes_rd d v r m ltac:(neq) W)
            | rewrite (writes_other d v r m x ltac:(neq) W) ]
  end.

Ltac in5 := first [assumption|exact zr5|vm_compute; split; congruence].

Section Checked.
Context (P : Platform) (a : Assembler) (label : Label) (rd rs1 rs2 : Z) (b : list Z).
Context (HI : Supports a RV_I = true).
Context (Hrd : is_uN 5 rd) (H1 : is_uN 5 rs1) (H2 : is_uN 5 rs2).
Context (Hn0 : rd <> 0) (Hnf : rd <> FAR_TMP) (Hs : no_scratch rd rs1 rs2 = true).
Context (Hp : placed 12 label b).

Lemma scratch_distinct : rd <> TMP /\ rd <> TMP2 /\ rs1 <> TMP /\ rs1 <> TMP2 /\ rs2 <> TMP /\ rs2 <> TMP2.
Proof. unfold no_scratch in Hs. lia. Qed.

(** The branch keeps what the three instructions computed. *)
Lemma checked_intro v (r m : Z -> Z) r' : m rd = u64 (v r) ->
  (forall x, x <> rd -> x <> TMP -> x <> TMP2 -> m x = r x) -> keeps_but_far m r' -> checked_result rd v r r'.
Proof.
  intros Em Ex K. split; [rewrite (K rd Hnf); exact Em|].
  intros x Hx Ht Ht2 Hf. rewrite (K x Hf). auto.
Qed.

Ltac scratch := destruct scratch_distinct as (N1 & N2 & N3 & N4 & N5 & N6);
  assert (TMP <> 0) as NT by discriminate; assert (TMP2 <> 0) as NT2 by discriminate; assert (TMP <> TMP2) as NTT by discriminate.

Lemma placed_8 : placed 8 label b.
Proof. destruct Hp as (? & ? & Hg). split; [assumption|split; [lia|]]. destruct Hg; [left|right]; lia. Qed.

Ltac emits := first
  [ apply slti_i; (reflexivity || in5) | apply slt_i; in5 | apply add_i; in5 | apply sub_i; in5 | apply xor_i; in5
  | apply addi_i; (reflexivity || in5) | apply mulh_i; in5 | apply mul_i; in5 | apply srai_i; (in5 || lia) ].
Ltac short := repeat first [apply (grows_seq 4 8)|apply (grows_seq 4 4)]; grow_emit.

(** Leaves the condition of the branch, with the values of the registers in the writes of the context. *)
Ltac checked :=
  eapply then_branch_ok;
  [ first [apply implements_three|apply implements_two]; emits
  | short
  | first [exact Hp|exact placed_8]
  | intros; first [apply bne_ok|apply bltz_ok]; (assumption || in5)
  | cbv beta; intros r m Wr Wm W;
    first [destruct W as (m1 & m2 & W1 & W2 & W3)|destruct W as (m1 & W1 & W2)]
  | cbv beta; intros r m r' Wr Wm W K;
    first [destruct W as (m1 & m2 & W1 & W2 & W3)|destruct W as (m1 & W1 & W2)];
    apply (checked_intro _ r m);
    [read_regs; reflexivity|intros x Hx Ht Ht2; read_regs; reflexivity|exact K] ].

Lemma AddBranchOverflow_ok :
  branches P a label (AddBranchOverflow rd rs1 rs2 label)
    (fun r => overflows (s64 (r rs1) + s64 (r rs2))) (checked_result rd (fun r => r rs1 + r rs2)) b.
Proof.
  scratch. unfold branches, AddBranchOverflow; rewrite Hs; cbn [negb].
  destruct ((rd =? rs1) && (rd =? rs2)) eqn:G; [|destruct (Z.eqb_spec rs1 rs2) as [E|E];
    [|destruct (Z.eqb_spec rd rs1) as [E1|E1]; [|destruct (Z.eqb_spec rd rs2) as [E2|E2]]]].
  - assert (rs1 = rd /\ rs2 = rd) as [-> ->] by lia. unfold MicroAssembler.mv. checked.
    rewrite bltz_cond by exact Wm. read_regs.
    rewrite sN_uN, s64_lxor_neg, !sN_uN, Z.add_0_r by lia. apply double_sign.
  - subst rs2. assert (rs1 <> rd) by lia. checked. rewrite bltz_cond by exact Wm. read_regs.
    rewrite sN_uN, s64_lxor_neg, sN_uN, xorb_comm by lia. apply double_sign.
  - subst rs1. checked.
    rewrite (bne_cond m TMP TMP2 (s64 (r rd) <? 0) (s64 (r rd + r rs2) <? s64 (r rs2)));
      [apply add_sign|read_regs; reflexivity|read_regs; rewrite ?sN_uN by lia; reflexivity].
  - subst rs2. checked. rewrite Z.add_comm.
    rewrite (bne_cond m TMP TMP2 (s64 (r rd) <? 0) (s64 (r rd + r rs1) <? s64 (r rs1)));
      [apply add_sign|read_regs; reflexivity|read_regs; rewrite (Z.add_comm (r rd)), ?sN_uN by lia; reflexivity].
  - checked. rewrite Z.add_comm.
    rewrite (bne_cond m TMP TMP2 (s64 (r rs2) <? 0) (s64 (r rs2 + r rs1) <? s64 (r rs1)));
      [apply add_sign|read_regs; reflexivity|read_regs; rewrite (Z.add_comm (r rs2)), ?sN_uN by lia; reflexivity].
Qed.

Lemma MultiplyBranchOverflow_ok : Supports a RV_M = true ->
  branches P a label (MultiplyBranchOverflow rd rs1 rs2 label)
    (fun r => overflows (s64 (r rs1) * s64 (r rs2))) (checked_result rd (fun r => r rs1 * r rs2)) b.
Proof.
  intros HM. scratch. unfold branches, MultiplyBranchOverflow, XLEN; rewrite Hs; cbn [negb]. checked.
  rewrite <- mul_sign. unfold taken; cbn [Z.eqb]. read_regs. rewrite ?sN_uN by lia. reflexivity.
Qed.

Lemma SubtractBranchOverflow_ok : rd <> rs1 -> rd <> rs2 -> rs1 <> rs2 ->
  branches P a label (SubtractBranchOverflow rd rs1 rs2 label)
    (fun r => overflows (s64 (r rs1) - s64 (r rs2))) (checked_result rd (fun r => r rs1 - r rs2)) b.
Proof.
  intros D1 D2 D3. scratch. unfold branches, SubtractBranchOverflow; rewrite Hs; cbn [negb].
  rewrite !(proj2 (Z.eqb_neq _ _)) by assumption. cbn [andb]. checked.
  rewrite (bne_cond m TMP TMP2 (s64 (r rs2) <? 0) (s64 (r rs1) <? s64 (r rs1 - r rs2)));
    [apply sub_sign|read_regs; reflexivity|read_regs; rewrite ?sN_uN by lia; reflexivity].
Qed.

(** What the destructive form tests instead. *)
Lemma SubtractBranchOverflow_destructive : rd = rs1 -> rs1 <> rs2 ->
  branches P a label (SubtractBranchOverflow rd rs1 rs2 label)
    (fun r => xorb (s64 (r rs1) <? 0) (s64 (r rs1 - r rs2) <? s64 (r rs2)))
    (checked_result rd (fun r => r rs1 - r rs2)) b.
Proof.
  intros E D. scratch. unfold branches, SubtractBranchOverflow; rewrite Hs; cbn [negb].
  rewrite (proj2 (Z.eqb_eq rd rs1) E), (proj2 (Z.eqb_neq rs1 rs2) D), (proj2 (Z.eqb_neq rd rs2)) by congruence.
  cbn [andb]. subst rs1. checked.
  rewrite (bne_cond m TMP TMP2 (s64 (r rd) <? 0) (s64 (r rd - r rs2) <? s64 (r rs2)));
    [reflexivity|read_regs; reflexivity|read_regs; rewrite ?sN_uN by lia; reflexivity].
Qed.

End Checked.

(** ** Theorems *)

Definition overflow_instructions :
  list (Extension * (Z -> Z -> Z -> Label -> Assembler -> label_result (Label * Assembler)) * (Z -> Z -> Z)) :=
  [(RV_I, AddBranchOverflow, Z.add); (RV_M, MultiplyBranchOverflow, Z.mul)].



(**  [SubtractBranchOverflow] on distinct registers leaves the wrapped
    difference in [rd] and branches exactly when it overflows. *)
Theorem subtract_distinct_correct P a label rd rs1 rs2 b :
  Supports a RV_I = true -> is_uN 5 rd -> is_uN 5 rs1 -> is_uN 5 rs2 -> rd <> ZR -> rd <> FAR_TMP ->
  no_scratch rd rs1 rs2 = true -> rd <> rs1 -> rd <> rs2 -> rs1 <> rs2 -> placed 12 label b ->
  branches P a label (SubtractBranchOverflow rd rs1 rs2 label) (fun r => overflows (s64 (r rs1) - s64 (r rs2)))
    (checked_result rd (fun r => r rs1 - r rs2)) b.
Proof. intros; apply SubtractBranchOverflow_ok; assumption. Qed.

Lemma subtract_distinct_correct_witness :
  branches plain_platform asm_rva23 (MkLabel 0 (-1) (-1) (-1) (-1) (-1))
    (SubtractBranchOverflow A0 A1 A2 (MkLabel 0 (-1) (-1) (-1) (-1) (-1)))
    (fun r => overflows (s64 (r A1) - s64 (r A2))) (checked_result A0 (fun r => r A1 - r A2)) [1; 0; 1; 0].
Proof.
  apply subtract_distinct_correct;
    [reflexivity|in5|in5|in5|discriminate|discriminate|reflexivity|discriminate|discriminate|discriminate|].
  unfold placed; cbn; lia.
Defined.

(**  With [rd == rs1] the same macro compares the difference with the
    subtrahend, a test that belongs to addition: it branches on [1 - 5], which
    does not overflow, and does not branch on [INT64_MAX - INT64_MIN], which does. *)
Theorem subtract_destructive_wrong P a label rd rs2 b :
  Supports a RV_I = true -> is_uN 5 rd -> is_uN 5 rs2 -> rd <> ZR -> rd <> FAR_TMP ->
  no_scratch rd rd rs2 = true -> rd <> rs2 -> placed 12 label b ->
  exists cond, branches P a label (SubtractBranchOverflow rd rd rs2 label) cond
      (checked_result rd (fun r => r rd - r rs2)) b /\
    (forall r, r rd = 1 -> r rs2 = 5 -> cond r = true /\ overflows (s64 (r rd) - s64 (r rs2)) = false) /\
    (forall r, r rd = 2 ^ 63 - 1 -> r rs2 = 2 ^ 63 -> cond r = false /\ overflows (s64 (r rd) - s64 (r rs2)) = true).
Proof.
  intros HI Hd H2 Hn Hf Hs D Hp. eexists. split.
  { apply (SubtractBranchOverflow_destructive P a label rd rd rs2 b); auto. }
  split; intros r -> ->; split; reflexivity.
Qed.

Lemma subtract_destructive_wrong_witness :
  exists cond, branches plain_platform asm_rva23 (MkLabel 0 (-1) (-1) (-1) (-1) (-1))
      (SubtractBranchOverflow A0 A0 A1 (MkLabel 0 (-1) (-1) (-1) (-1) (-1))) cond
      (checked_result A0 (fun r => r A0 - r A1)) [1; 0; 1; 0] /\
    (forall r : Z -> Z, r A0 = 1 -> r A1 = 5 -> cond r = true /\ overflows (s64 (r A0) - s64 (r A1)) = false) /\
    (forall r : Z -> Z, r A0 = 2 ^ 63 - 1 -> r A1 = 2 ^ 63 -> cond r = false /\ overflows (s64 (r A0) - s64 (r A1)) = true).
Proof.
  apply (subtract_destructive_wrong plain_platform asm_rva23);
    [reflexivity|in5|in5|discriminate|discriminate|reflexivity|discriminate|].
  unfold placed; cbn; lia.
Defined.
