(* ===== verification/RvLabelProofs.v ===== *)
(** * Binding a label resolves its branches

    A label under construction threads its unresolved branches through their own
    offset fields.  [labelled] is the set of states reachable by emitting code
    and branches to a fresh label; the invariant [linked] says what the threads
    look like; [Bind] turns every branch of the five lists into a branch to the
    label and touches no other byte. *)

From Stdlib Require Import ZArith Lia ZifyBool Bool List.
From S2P Require Import Prelude Bits Utils RvEncoding RvEncodingProofs RvAlu SimMemory Outcome RvFloat RvSimulator RvAssembler RvExec RvCompressed RvAsmCorrect RvLabels RvMacros RvMacroProofs RvBranchProofs.
Import ListNotations.
Import MicroAssembler(Supports, Position).

(** ** Bytes in the buffer *)

Definition holds (buf : list Z) (p : Z) (code : list Z) : Prop :=
  0 <= p /\ forall i b, nth_error code i = Some b -> nth_error buf (Z.to_nat p + i) = Some b.

Definition patch (buf : list Z) (p : Z) (code : list Z) : list Z :=
  firstn (Z.to_nat p) buf ++ code ++ skipn (Z.to_nat p + length code) buf.

Lemma holds_slice buf p code : holds buf p code -> firstn (length code) (skipn (Z.to_nat p) buf) = code.
Proof.
  intros [_ H]. apply nth_error_ext; intros i. rewrite nth_error_firstn, nth_error_skipn.
  destruct (Nat.ltb_spec i (length code)) as [L|L].
  - destruct (nth_error code i) as [b|] eqn:E; [apply H, E|]. apply nth_error_None in E; lia.
  - symmetry; apply nth_error_None; lia.
Qed.

Lemma holds_length buf p code : holds buf p code -> code <> [] -> p + Z.of_nat (length code) <= Z.of_nat (length buf).
Proof.
  intros [Hp H] Hn. destruct (nth_error code (length code - 1)) as [b|] eqn:E.
  - apply H in E. assert (Z.to_nat p + (length code - 1) < length buf)%nat by (apply nth_error_Some; congruence).
    destruct code; [contradiction|cbn [length] in *; lia].
  - apply nth_error_None in E. destruct code; [contradiction|cbn [length] in *; lia].
Qed.

Lemma holds_app_l buf p c1 c2 : holds buf p (c1 ++ c2) -> holds buf p c1.
Proof.
  intros [Hp H]; split; [exact Hp|]. intros i b Hi; apply H. rewrite nth_error_app1; [exact Hi|].
  apply nth_error_Some; congruence.
Qed.
Lemma holds_app_r buf p c1 c2 : holds buf p (c1 ++ c2) -> holds buf (p + Z.of_nat (length c1)) c2.
Proof.
  intros [Hp H]; split; [lia|]. intros i b Hi.
  replace (Z.to_nat (p + Z.of_nat (length c1)) + i)%nat with (Z.to_nat p + (length c1 + i))%nat by lia.
  apply H. rewrite nth_error_app2 by lia. replace (length c1 + i - length c1)%nat with i by lia. exact Hi.
Qed.
Lemma holds_app buf p c1 c2 : holds buf p c1 -> holds buf (p + Z.of_nat (length c1)) c2 -> holds buf p (c1 ++ c2).
Proof.
  intros [Hp H1] [_ H2]; split; [exact Hp|]. intros i b Hi.
  destruct (Nat.lt_ge_cases i (length c1)) as [L|L].
  - apply H1. rewrite nth_error_app1 in Hi by exact L. exact Hi.
  - rewrite nth_error_app2 in Hi by exact L. apply H2 in Hi.
    replace (Z.to_nat p + i)%nat with (Z.to_nat (p + Z.of_nat (length c1)) + (i - length c1))%nat by lia. exact Hi.
Qed.

(** Appending keeps what is there, and what is appended is there. *)
Lemma holds_append buf c p code : holds buf p code -> holds (buf ++ c) p code.
Proof.
  intros [Hp H]; split; [exact Hp|]. intros i b Hi. pose proof (H i b Hi) as Hb.
  rewrite nth_error_app1; [exact Hb|]. apply nth_error_Some; congruence.
Qed.
Lemma holds_new buf c : holds (buf ++ c) (Z.of_nat (length buf)) c.
Proof.
  split; [lia|]. intros i b Hi. rewrite nth_error_app2 by lia.
  replace (Z.to_nat (Z.of_nat (length buf)) + i - length buf)%nat with i by lia. exact Hi.
Qed.

Lemma nth_error_patch buf p code j : 0 <= p -> p + Z.of_nat (length code) <= Z.of_nat (length buf) ->
  nth_error (patch buf p code) j =
    if (Z.of_nat j <? p) || (p + Z.of_nat (length code) <=? Z.of_nat j) then nth_error buf j
    else nth_error code (j - Z.to_nat p).
Proof.
  intros Hp Hl. unfold patch. assert (length (firstn (Z.to_nat p) buf) = Z.to_nat p) as L by (rewrite length_firstn; lia).
  destruct (Z.ltb_spec (Z.of_nat j) p) as [J|J]; cbn [orb].
  - rewrite nth_error_app1 by lia. rewrite nth_error_firstn. destruct (Nat.ltb_spec j (Z.to_nat p)); [reflexivity|lia].
  - rewrite nth_error_app2, L by lia. destruct (Z.leb_spec (p + Z.of_nat (length code)) (Z.of_nat j)) as [J2|J2].
    + rewrite nth_error_app2, nth_error_skipn by lia. f_equal; lia.
    + rewrite nth_error_app1 by lia. reflexivity.
Qed.

Lemma length_patch buf p code : 0 <= p -> p + Z.of_nat (length code) <= Z.of_nat (length buf) ->
  length (patch buf p code) = length buf.
Proof. intros; unfold patch. rewrite !length_app, length_firstn, length_skipn. lia. Qed.

Lemma patch_holds buf p code : 0 <= p -> p + Z.of_nat (length code) <= Z.of_nat (length buf) ->
  holds (patch buf p code) p code.
Proof.
  intros Hp Hl; split; [exact Hp|]. intros i b Hi. rewrite nth_error_patch by assumption.
  assert (i < length code)%nat by (apply nth_error_Some; congruence).
  replace (Z.of_nat (Z.to_nat p + i) <? p) with false by lia.
  replace (p + Z.of_nat (length code) <=? Z.of_nat (Z.to_nat p + i)) with false by lia. cbn [orb].
  replace (Z.to_nat p + i - Z.to_nat p)%nat with i by lia. exact Hi.
Qed.

Lemma shiftr_is_uN w k x : 0 <= w -> 0 <= k -> is_uN (w + k) x -> is_uN w (x >> k).
Proof.
  intros Hw Hk [L U]; unfold is_uN. rewrite Z.shiftr_div_pow2 by lia. rewrite Z.pow_add_r in U by lia.
  assert (0 < 2 ^ k) by (apply Z.pow_pos_nonneg; lia).
  split; [apply Z.div_pos; lia|apply Z.div_lt_upper_bound; lia].
Qed.

Lemma le_value_bytes n : forall v, is_uN (8 * Z.of_nat n) v -> le_value (le_bytes n v) = v.
Proof.
  induction n as [|n IH]; intros v Hv; cbn [le_bytes le_value].
  - unfold is_uN in Hv. change (2 ^ (8 * Z.of_nat 0)) with 1 in Hv. lia.
  - rewrite IH.
    + replace v with (uN (8 * Z.of_nat (S n)) v) at 3 by (apply uN_small; exact Hv).
      rewrite uN_split_byte. f_equal. f_equal. symmetry; apply uN_small.
      apply shiftr_is_uN; [lia|lia|]. replace (8 * Z.of_nat n + 8) with (8 * Z.of_nat (S n)) by lia. exact Hv.
    + apply shiftr_is_uN; [lia|lia|]. replace (8 * Z.of_nat n + 8) with (8 * Z.of_nat (S n)) by lia. exact Hv.
Qed.

Lemma ReadN_holds n p e a : holds (buffer_ a) p (le_bytes n e) -> (0 < n)%nat -> is_uN (8 * Z.of_nat n) e ->
  ReadN n p a = Some e.
Proof.
  intros H Hn He. unfold ReadN, Position.
  assert (le_bytes n e <> []) by (destruct n; [lia|discriminate]).
  pose proof (holds_length _ _ _ H ltac:(assumption)) as L. rewrite length_le_bytes in L. destruct (H) as [Hp _].
  replace ((0 <=? p) && (p + Z.of_nat n <=? Z.of_nat (length (buffer_ a)))) with true by lia.
  pose proof (holds_slice _ _ _ H) as S. rewrite length_le_bytes in S. rewrite S, le_value_bytes by exact He. reflexivity.
Qed.

Lemma WriteN_patch n p v a : 0 <= p -> p + Z.of_nat n <= Position a ->
  WriteN n p v a = Some (with_buffer (patch (buffer_ a) p (le_bytes n v)) a).
Proof.
  intros Hp Hl. unfold WriteN. replace ((0 <=? p) && (p + Z.of_nat n <=? Position a)) with true by lia.
  unfold patch. rewrite length_le_bytes. reflexivity.
Qed.

(** ** Branch sites *)

Inductive site : Set :=
  | SiteB (rs2 rs1 func : Z)
  | SiteJ (rd : Z)
  | SiteCB (op : COpcode) (rs1 : Z)
  | SiteCJ
  | SiteFar.

Definition site_class (s : site) : BranchClass :=
  match s with
  | SiteB _ _ _ => class_b | SiteJ _ => class_j | SiteCB _ _ => class_cb | SiteCJ => class_cj | SiteFar => class_far
  end.

Definition site_length (s : site) : Z :=
  match s with SiteB _ _ _ => 4 | SiteJ _ => 4 | SiteCB _ _ => 2 | SiteCJ => 2 | SiteFar => 8 end.

Definition site_ok (s : site) : Prop :=
  match s with
  | SiteB rs2 rs1 func => is_uN 5 rs2 /\ is_uN 5 rs1 /\ is_branch func
  | SiteJ rd => is_uN 5 rd
  | SiteCB op rs1 => In op [C_BEQZ; C_BNEZ] /\ IsCRs1p rs1 = true
  | SiteCJ => True
  | SiteFar => True
  end.

(** The offsets a branch of each class can carry. *)
Definition in_range (c : BranchClass) (k : Z) : Prop :=
  match c with
  | class_b => IsBTypeImm k = true
  | class_j => IsJTypeImm k = true
  | class_cb => IsCBImm k = true
  | class_cj => IsCJImm k = true
  | class_far => is_sN 32 (k - ImmLo k)
  end.

(** [code] is the branch [s] with offset [k]. *)
Definition site_code (s : site) (k : Z) (code : list Z) : Prop :=
  match s with
  | SiteB rs2 rs1 func => exists e, code = le_bytes 4 e /\ is_btype e k rs2 rs1 func BRANCH
  | SiteJ rd => exists e, code = le_bytes 4 e /\ is_jtype e k rd JAL
  | SiteCB op rs1 => exists e, code = le_bytes 2 e /\ is_cb e op rs1 k
  | SiteCJ => exists e, code = le_bytes 2 e /\ is_cj e k
  | SiteFar => exists e1 e2, code = le_bytes 4 e1 ++ le_bytes 4 e2 /\
      is_utype e1 (ImmHi k) FAR_TMP AUIPC /\ is_itype e2 (ImmLo k) FAR_TMP F3_0 ZR JALR
  end.

Definition site_at (buf : list Z) (p : Z) (s : site) (k : Z) : Prop :=
  in_range (site_class s) k /\ exists code, site_code s k code /\ holds buf p code.

Lemma site_code_length s k code : site_code s k code -> Z.of_nat (length code) = site_length s.
Proof.
  destruct s; cbn [site_code site_length].
  1-4: intros (e & -> & _); rewrite length_le_bytes; reflexivity.
  intros (e1 & e2 & -> & _). rewrite length_app, !length_le_bytes. reflexivity.
Qed.

Lemma site_length_pos s : 2 <= site_length s.
Proof. destruct s; cbn; lia. Qed.

Lemma site_at_bounds buf p s k : site_at buf p s k -> 0 <= p /\ p + site_length s <= Z.of_nat (length buf).
Proof.
  intros (_ & code & Hc & H). pose proof (site_code_length _ _ _ Hc) as L. pose proof (site_length_pos s).
  split; [exact (proj1 H)|]. rewrite <- L. apply holds_length; [exact H|]. intros ->. cbn in L; lia.
Qed.

(** What running the branch does. *)
Definition site_cond (s : site) (r : Z -> Z) : bool :=
  match s with
  | SiteB rs2 rs1 func => taken func (r rs1) (r rs2)
  | SiteCB op rs1 => c_taken op (r rs1)
  | _ => true
  end.
Definition site_keeps (s : site) : (Z -> Z) -> (Z -> Z) -> Prop :=
  match s with
  | SiteJ rd => keeps_but rd
  | SiteFar => keeps_but_far
  | _ => keeps
  end.

Lemma site_executes P s k code : site_ok s -> in_range (site_class s) k -> site_code s k code ->
  executes_to P code k (site_cond s) (site_keeps s).
Proof.
  destruct s; cbn [site_ok site_class in_range site_code site_cond site_keeps].
  - intros (H2 & H1 & Hb) _ (e & -> & Hw). exact (btype_executes P e k rs2 rs1 func Hw Hb).
  - intros _ _ (e & -> & Hw). exact (jtype_executes P e k rd Hw).
  - intros (Ho & _) _ (e & -> & Hw). exact (cb_executes P e op rs1 k Ho Hw).
  - intros _ Hk (e & -> & Hw). apply (cj_executes P e k Hw). unfold IsCJImm in Hk. apply andb_true_iff in Hk.
    apply IsInt_spec; [lia|tauto].
  - intros _ Hk (e1 & e2 & -> & H1 & H2). exact (far_executes P e1 e2 k H1 H2 Hk).
Qed.

(** ** Patching one branch *)

Lemma patch_patch buf p c1 c2 : 0 <= p -> p + Z.of_nat (length c1 + length c2) <= Z.of_nat (length buf) ->
  patch (patch buf p c1) (p + Z.of_nat (length c1)) c2 = patch buf p (c1 ++ c2).
Proof.
  intros Hp Hl. apply nth_error_ext; intros j.
  rewrite !nth_error_patch by (rewrite ?length_patch, ?length_app; lia). rewrite length_app, Nat2Z.inj_add.
  destruct (Z.ltb_spec (Z.of_nat j) p), (Z.ltb_spec (Z.of_nat j) (p + Z.of_nat (length c1))),
    (Z.leb_spec (p + Z.of_nat (length c1)) (Z.of_nat j)),
    (Z.leb_spec (p + Z.of_nat (length c1) + Z.of_nat (length c2)) (Z.of_nat j)),
    (Z.leb_spec (p + (Z.of_nat (length c1) + Z.of_nat (length c2))) (Z.of_nat j)); cbn [orb]; try lia; try reflexivity.
  - rewrite nth_error_app1 by lia. reflexivity.
  - rewrite nth_error_app2 by lia. f_equal; lia.
Qed.

Lemma encode_btype rs2 rs1 func k : is_uN 5 rs2 -> is_uN 5 rs1 -> is_uN 3 func -> IsBTypeImm k = true ->
  exists w, EncodeRs2 rs2 .|? EncodeRs1 rs1 .|? EncodeFunct3 func .|? EncodeOpcode BRANCH .|? EncodeBTypeImm k = Some w /\
    is_btype (u32 w) k rs2 rs1 func BRANCH.
Proof.
  intros H2 H1 Hf Hk. assert (is_uN 7 BRANCH) by (vm_compute; split; congruence).
  unfold EncodeBTypeImm; rewrite Hk; unfold IsBTypeImm in Hk; learn_guard. encode_fields.
  eexists; split; [reflexivity|]. split; [apply uN_range; lia|field_solve..].
Qed.

Lemma encode_jtype rd k : is_uN 5 rd -> IsJTypeImm k = true ->
  exists w, EncodeRd rd .|? EncodeOpcode JAL .|? EncodeJTypeImm k = Some w /\ is_jtype (u32 w) k rd JAL.
Proof.
  intros Hr Hk. assert (is_uN 7 JAL) by (vm_compute; split; congruence).
  unfold EncodeJTypeImm; rewrite Hk; unfold IsJTypeImm in Hk; learn_guard. encode_fields.
  eexists; split; [reflexivity|]. split; [apply uN_range; lia|field_solve..].
Qed.

(** The word an emission appended. *)
Lemma Emit32_word o e a : MicroAssembler.Emit32 o a = Some (append (le_bytes 4 e) a) -> is_uN 32 e ->
  exists w, o = Some w /\ u32 w = e.
Proof.
  unfold MicroAssembler.Emit32. destruct o as [w|]; [|discriminate]. intros H He. exists w; split; [reflexivity|].
  assert (append (le_bytes 4 (u32 w)) a = append (le_bytes 4 e) a) as E by congruence. apply append_inj in E. rewrite <- (le_value_bytes 4 e), <- (le_value_bytes 4 (u32 w)); [congruence|apply uN_range; lia|exact He].
Qed.
Lemma Emit16_word o e a : MicroAssembler.Emit16 o a = Some (append (le_bytes 2 e) a) -> is_uN 16 e ->
  exists w, o = Some w /\ u16 w = e.
Proof.
  unfold MicroAssembler.Emit16. destruct o as [w|]; [|discriminate]. intros H He. exists w; split; [reflexivity|].
  assert (append (le_bytes 2 (u16 w)) a = append (le_bytes 2 e) a) as E by congruence. apply append_inj in E. rewrite <- (le_value_bytes 2 e), <- (le_value_bytes 2 (u16 w)); [congruence|apply uN_range; lia|exact He].
Qed.

Lemma encode_auipc k : exists w, EncodeUTypeImm (ImmHi k) .|? EncodeRd FAR_TMP .|? EncodeOpcode AUIPC = Some w /\
    is_utype (u32 w) (ImmHi k) FAR_TMP AUIPC.
Proof.
  destruct (EmitUType_spec (ImmHi k) FAR_TMP AUIPC asm_rva23 (ImmHi_UType k)) as (e & He & Hw);
    [vm_compute; split; congruence..|].
  destruct (Emit32_word _ _ _ He (utype_word _ _ _ _ Hw)) as (w & -> & <-). eauto.
Qed.

Lemma encode_jalr k : exists w, EncodeITypeImm (ImmLo k) .|? EncodeRs1 FAR_TMP .|? EncodeFunct3 F3_0 .|? EncodeRd ZR
      .|? EncodeOpcode JALR = Some w /\ is_itype (u32 w) (ImmLo k) FAR_TMP F3_0 ZR JALR.
Proof.
  destruct (EmitIType_spec (ImmLo k) FAR_TMP F3_0 ZR JALR asm_rva23 (ImmLo_range k)) as (e & He & Hw);
    [vm_compute; split; congruence..|].
  destruct (Emit32_word _ _ _ He (itype_word _ _ _ _ _ _ Hw)) as (w & -> & <-). eauto.
Qed.

Lemma encode_cb (op : COpcode) rs1 k : In op [C_BEQZ; C_BNEZ] -> IsCRs1p rs1 = true -> IsCBImm k = true ->
  exists w, Some (COpcode_value op) .|? EncodeCRs1p rs1 .|? EncodeCBImm k = Some w /\ is_cb (u16 w) op rs1 k.
Proof.
  intros Hop Hr Hk. destruct (EmitCB_spec op rs1 k asm_rva23 Hop Hr Hk) as (e & He & Hw).
  destruct (Emit16_word _ _ _ He (cb_word _ _ _ _ Hw)) as (w & -> & <-). eauto.
Qed.

Lemma encode_cj k : IsCJImm k = true ->
  exists w, Some (COpcode_value C_J) .|? EncodeCJImm k = Some w /\ is_cj (u16 w) k.
Proof.
  intros Hk. destruct (EmitCJ_spec k asm_rva23 Hk) as (e & He & Hw & _).
  destruct (Emit16_word _ _ _ He (cj_word _ _ Hw)) as (w & -> & <-). eauto.
Qed.

(** Rewriting the offset of a branch keeps its other fields and returns the old offset. *)
Lemma UpdateOffset_ok s p old new a : site_ok s -> site_at (buffer_ a) p s old -> in_range (site_class s) new ->
  exists code, UpdateOffset (site_class s) p new a = Done (old, with_buffer (patch (buffer_ a) p code) a) /\
    site_code s new code.
Proof.
  intros Hs Ha Hn. destruct (site_at_bounds _ _ _ _ Ha) as [Hp Hl]. destruct Ha as (Ho & code & Hc & H).
  destruct s; cbn [site_ok site_class in_range site_code site_length UpdateOffset] in *.
  - destruct Hc as (e & -> & [Hw Hlo Hop Hr1 Hr2 Hf Hi]), Hs as (H2 & H1 & Hb).
    destruct (encode_btype rs2 rs1 func new H2 H1 (is_branch_u3 _ Hb) Hn) as (w & Ew & Hw').
    unfold UpdateBOffset, Read32. rewrite (ReadN_holds 4 p e a H) by (lia || exact Hw). cbn [lift lbind].
    rewrite Hop, Hi, Hr1, Hr2, Hf, Hn, Ew. cbn [Z.eqb negb]. unfold Write32. rewrite WriteN_patch by assumption.
    eexists; split; [reflexivity|]. eauto.
  - destruct Hc as (e & -> & [Hw Hlo Hop Hrd Hi]).
    destruct (encode_jtype rd new Hs Hn) as (w & Ew & Hw').
    unfold UpdateJOffset, Read32. rewrite (ReadN_holds 4 p e a H) by (lia || exact Hw). cbn [lift lbind].
    rewrite Hop, Hi, Hrd, Hn, Ew. unfold Write32. rewrite WriteN_patch by assumption.
    eexists; split; [reflexivity|]. eauto.
  - destruct Hc as (e & -> & [Hw Hlo Hop Hrs Hi]), Hs as (Hin & Hr).
    destruct (encode_cb op rs1 new Hin Hr Hn) as (w & Ew & Hw').
    unfold UpdateCBOffset, Read16. rewrite (ReadN_holds 2 p e a H) by (lia || exact Hw). cbn [lift lbind].
    rewrite Hop, Hi, Hrs, Hn, Ew. unfold Write16. rewrite WriteN_patch by assumption.
    assert (negb ((COpcode_value op =? C_BEQZ) || (COpcode_value op =? C_BNEZ)) = false) as ->
      by (destruct Hin as [<-|[<-|[]]]; reflexivity).
    eexists; split; [reflexivity|]. eauto.
  - destruct Hc as (e & -> & [Hw Hlo Hop Hi]). destruct (encode_cj new Hn) as (w & Ew & Hw').
    unfold UpdateCJOffset, Read16. rewrite (ReadN_holds 2 p e a H) by (lia || exact Hw). cbn [lift lbind].
    rewrite Hop, Hi, Hn, Ew. unfold Write16. rewrite WriteN_patch by assumption.
    eexists; split; [reflexivity|]. eauto.
  - destruct Hc as (e1 & e2 & -> & [Hw1 Hl1 Hop1 Hrd1 Hi1] & [Hw2 Hl2 Hop2 Hrd2 Hrs2 Hf2 Hi2]).
    pose proof (holds_app_r _ _ _ _ H) as H2. rewrite length_le_bytes in H2.
    destruct (encode_auipc new) as (w1 & Ew1 & Hw1'), (encode_jalr new) as (w2 & Ew2 & Hw2').
    unfold UpdateFarOffset, Read32. rewrite (ReadN_holds 4 p e1 a (holds_app_l _ _ _ _ H)) by (lia || exact Hw1).
    cbn [lift lbind]. rewrite (ReadN_holds 4 (p + 4) e2 a H2) by (lia || exact Hw2). cbn [lift lbind].
    rewrite Hop1, Hrd1, Hop2, Hrd2, Hf2, Hrs2, Hi1, Hi2, (ImmHi_UType new), Ew1, Ew2. unfold Write32.
    rewrite WriteN_patch by (unfold Position; lia). cbn [lift lbind negb andb Z.eqb Pos.eqb].
    rewrite WriteN_patch by (lia || (rewrite Position_with_buffer, length_patch; rewrite ?length_le_bytes; lia)).
    exists (le_bytes 4 (u32 w1) ++ le_bytes 4 (u32 w2)). split; [|eauto 6].
    rewrite ImmHi_sN, sN_small, Z.sub_add by (assumption || lia). cbn [lift lbind].
    rewrite <- patch_patch by (rewrite ?length_le_bytes; lia). rewrite length_le_bytes. reflexivity.
Qed.

(** ** A list of branches *)

Abbreviation refs := (list (Z * site)).

Definition first_ref (L : refs) : Z := match L with [] => -1 | (p, _) :: _ => p end.

(** Each branch carries the distance to the next one of its list, 0 for the last. *)
Fixpoint links (buf : list Z) (L : refs) : Prop :=
  match L with
  | [] => True
  | (p, s) :: rest =>
      site_ok s /\ site_at buf p s (match rest with [] => 0 | (q, _) :: _ => p - q end) /\ links buf rest
  end.

(** The branches lie one below the other, under [top]. *)
Fixpoint stacked (top : Z) (L : refs) : Prop :=
  match L with
  | [] => True
  | (p, s) :: rest => 0 <= p /\ p + site_length s <= top /\ stacked p rest
  end.

Definition resolved (buf : list Z) (target : Z) (L : refs) : Prop :=
  forall p s, In (p, s) L -> site_ok s /\ site_at buf p s (target - p).

(** Only bytes of the branches of [L] may differ. *)
Definition same_outside (L : refs) (buf buf' : list Z) : Prop :=
  length buf' = length buf /\
  forall j, (forall p s, In (p, s) L -> Z.of_nat j < p \/ p + site_length s <= Z.of_nat j) ->
    nth_error buf' j = nth_error buf j.

Definition alignment (a : Assembler) : Z := if Supports a RV_C then 2 else 4.
Definition aligned_ref (a : Assembler) (target : Z) (r : Z * site) : Prop :=
  IsAligned (fst r) (alignment a) 0 = true /\ IsAligned (target - fst r) (alignment a) 0 = true.

Lemma stacked_in top L p s : stacked top L -> In (p, s) L -> 0 <= p /\ p + site_length s <= top.
Proof.
  revert top; induction L as [|[q t] L IH]; [intros ? _ []|]. cbn [stacked].
  intros top (H0 & H1 & H2) [[= <- <-]|Hin]; [auto|]. pose proof (site_length_pos t).
  destruct (IH q H2 Hin). lia.
Qed.

Lemma site_at_frame L buf buf' p s k : same_outside L buf buf' ->
  (forall q t, In (q, t) L -> p + site_length s <= q \/ q + site_length t <= p) ->
  site_at buf p s k -> site_at buf' p s k.
Proof.
  intros [_ F] D (Hr & code & Hc & Hp & H). split; [exact Hr|]. exists code; split; [exact Hc|]. split; [exact Hp|].
  intros i b Hi. rewrite F; [apply H, Hi|]. intros q t Hq.
  assert (i < length code)%nat by (apply nth_error_Some; congruence).
  pose proof (site_code_length _ _ _ Hc). destruct (D q t Hq); lia.
Qed.

Lemma links_frame L M buf buf' : same_outside M buf buf' ->
  (forall p s q t, In (p, s) L -> In (q, t) M -> p + site_length s <= q \/ q + site_length t <= p) ->
  links buf L -> links buf' L.
Proof.
  intros F; induction L as [|[p s] L IH]; [trivial|]. cbn [links]. intros D (Hs & Ha & Hl).
  split; [exact Hs|]. split.
  - apply (site_at_frame M buf buf'); [exact F| |exact Ha]. intros q t Hq. apply (D p s q t); [left; reflexivity|exact Hq].
  - apply IH; [|exact Hl]. intros p' s' q t Hp'. apply D. right; exact Hp'.
Qed.

Lemma same_outside_patch buf p s k code : site_at buf p s k -> Z.of_nat (length code) = site_length s ->
  same_outside [(p, s)] buf (patch buf p code).
Proof.
  intros Ha L. destruct (site_at_bounds _ _ _ _ Ha) as [Hp Hl]. split; [apply length_patch; lia|].
  intros j Hj. rewrite nth_error_patch by lia. specialize (Hj p s (or_introl eq_refl)).
  destruct ((Z.of_nat j <? p) || (p + Z.of_nat (length code) <=? Z.of_nat j)) eqn:E; [reflexivity|lia].
Qed.

Lemma same_outside_cons r L buf buf1 buf2 : same_outside [r] buf buf1 -> same_outside L buf1 buf2 ->
  same_outside (r :: L) buf buf2.
Proof.
  intros [L1 F1] [L2 F2]; split; [congruence|]. intros j Hj.
  rewrite F2 by (intros p s Hp; apply Hj; right; exact Hp). apply F1.
  intros p s [->|[]]. apply Hj; left; reflexivity.
Qed.

Lemma same_outside_refl L buf : same_outside L buf buf.
Proof. split; auto. Qed.

(** One turn of the loop resolves the first branch and keeps the others. *)
Lemma bind_step c target L p s fuel a :
  stacked (Position a) ((p, s) :: L) -> links (buffer_ a) ((p, s) :: L) ->
  site_class s = c -> in_range c (target - p) -> aligned_ref a target (p, s) ->
  exists buf1, bind_loop (S fuel) c target p a =
      match L with [] => Done (with_buffer buf1 a) | (q, _) :: _ => bind_loop fuel c target q (with_buffer buf1 a) end /\
    site_at buf1 p s (target - p) /\ links buf1 L /\ same_outside [(p, s)] (buffer_ a) buf1.
Proof.
  intros (Hp & Htop & Hst) (Hs & Ha & Hlk) Hc Hr [Ha1 Ha2]; subst c; cbn [fst] in *.
  destruct (UpdateOffset_ok s p _ (target - p) a Hs Ha Hr) as (code & Hu & Hcode).
  pose proof (site_code_length _ _ _ Hcode) as Lc.
  pose proof (same_outside_patch _ _ _ _ code Ha Lc) as F1. exists (patch (buffer_ a) p code). split; [|split; [|split]].
  - cbn [bind_loop]; fold (alignment a). rewrite (proj2 (Z.ltb_ge p 0) Hp), Ha1, Ha2; cbn [negb].
    rewrite Hu; cbn [lbind]. destruct L as [|[q t] L]; [reflexivity|].
    pose proof (site_length_pos t). destruct Hst as (_ & Hq & _).
    destruct (Z.eqb_spec (p - q) 0); [lia|]. replace (p - (p - q)) with q by lia. reflexivity.
  - split; [exact Hr|]; exists code; split; [exact Hcode|]. apply patch_holds; unfold Position in *; lia.
  - apply (links_frame _ [(p, s)] (buffer_ a)); [exact F1| |exact Hlk].
    intros p' s' q t Hin [[= <- <-]|[]]. left. destruct (stacked_in p L p' s' Hst Hin); lia.
  - exact F1.
Qed.

(** The loop resolves every branch of the list. *)
Lemma bind_loop_ok c target : forall L p s fuel a,
  stacked (Position a) ((p, s) :: L) -> links (buffer_ a) ((p, s) :: L) -> (length L < fuel)%nat ->
  Forall (fun r => site_class (snd r) = c /\ in_range c (target - fst r) /\ aligned_ref a target r) ((p, s) :: L) ->
  exists buf', bind_loop fuel c target p a = Done (with_buffer buf' a) /\
    resolved buf' target ((p, s) :: L) /\ same_outside ((p, s) :: L) (buffer_ a) buf'.
Proof.
  induction L as [|[q t] L IH]; intros p s fuel a Hst Hlk Hf HF.
  all: destruct fuel as [|fuel]; [cbn in Hf; lia|]; apply Forall_cons_iff in HF as ((Hc & Hr & Ha) & HF').
  all: destruct (bind_step c target _ p s fuel a Hst Hlk Hc Hr Ha) as (buf1 & Hb1 & Hs1 & Hl1 & F1).
  all: rewrite Hb1; pose proof (proj1 Hlk) as Hok.
  - exists buf1; split; [reflexivity|]. split; [|exact F1]. intros p' s' [[= <- <-]|[]]. auto.
  - destruct Hst as (Hp & Htop & Hst).
    destruct (IH q t fuel (with_buffer buf1 a)) as (buf' & Hb & Hr' & F2); [|exact Hl1|cbn in Hf; lia|exact HF'|].
    + rewrite Position_with_buffer, (proj1 F1). pose proof (site_length_pos s). unfold Position in *. cbn [stacked] in *.
      split; [tauto|]. split; [lia|tauto].
    + exists buf'; split; [exact Hb|]. split; [|exact (same_outside_cons _ _ _ _ _ F1 F2)].
      intros p' s' [[= <- <-]|Hin]; [|exact (Hr' p' s' Hin)]. split; [exact Hok|].
      apply (site_at_frame ((q, t) :: L) buf1); [exact F2| |exact Hs1].
      intros q' t' Hin. right. destruct (stacked_in p _ q' t' Hst Hin); lia.
Qed.

(** ** The five lists of a label *)

Definition class_eqb (c d : BranchClass) : bool :=
  match c, d with
  | class_cb, class_cb | class_cj, class_cj | class_b, class_b | class_j, class_j | class_far, class_far => true
  | _, _ => false
  end.

Lemma class_eqb_eq c d : class_eqb c d = true <-> c = d.
Proof. destruct c, d; cbn; split; congruence. Qed.

Definition of_class (c : BranchClass) (L : refs) : refs := filter (fun r => class_eqb (site_class (snd r)) c) L.

Lemma in_of_class c L r : In r (of_class c L) <-> In r L /\ site_class (snd r) = c.
Proof. unfold of_class. rewrite filter_In, class_eqb_eq. reflexivity. Qed.

Lemma stacked_weaken top top' L : stacked top L -> top <= top' -> stacked top' L.
Proof. destruct L as [|[p s] L]; [trivial|]. cbn [stacked]. intros (? & ? & ?) ?. repeat split; (assumption || lia). Qed.

Lemma stacked_of_class c L : forall top, stacked top L -> stacked top (of_class c L).
Proof.
  induction L as [|[p s] L IH]; intros top; [trivial|]. intros (H0 & H1 & H2). unfold of_class; cbn [filter].
  pose proof (site_length_pos s). destruct (class_eqb _ c).
  - cbn [stacked]. auto.
  - apply (stacked_weaken p); [apply IH, H2|lia].
Qed.

Lemma stacked_disjoint top L p s q t : stacked top L -> In (p, s) L -> In (q, t) L -> (p, s) <> (q, t) ->
  p + site_length s <= q \/ q + site_length t <= p.
Proof.
  revert top; induction L as [|[x y] L IH]; intros top; [intros _ []|]. intros (H0 & H1 & H2).
  intros [[= <- <-]|Hp] [[= <- <-]|Hq] Hn.
  - contradiction.
  - right. apply (stacked_in _ L); assumption.
  - left. apply (stacked_in _ L); assumption.
  - exact (IH x H2 Hp Hq Hn).
Qed.

Lemma stacked_length top L : 0 <= top -> stacked top L -> 2 * Z.of_nat (length L) <= top.
Proof.
  revert top; induction L as [|[p s] L IH]; intros top Ht; [cbn; lia|]. intros (H0 & H1 & H2).
  pose proof (site_length_pos s). specialize (IH p H0 H2). cbn [length]. lia.
Qed.

(** The state of [Bind] when the classes of [done] are resolved. *)
Record binding (done : BranchClass -> bool) (L : refs) (target : Z) (l : Label) (a : Assembler) : Prop := mkBinding {
  b_unbound : position_ l = -1;
  b_stacked : stacked (Position a) L;
  b_head : forall c, unresolved c l = if done c then -1 else first_ref (of_class c L);
  b_links : forall c, done c = false -> links (buffer_ a) (of_class c L);
  b_resolved : forall c, done c = true -> resolved (buffer_ a) target (of_class c L)
}.

Definition aligned_refs (L : refs) (target : Z) (a : Assembler) : Prop :=
  forall p s, In (p, s) L -> aligned_ref a target (p, s).

Lemma binding_step done L target l a c buf' : binding done L target l a -> done c = false ->
  resolved buf' target (of_class c L) -> same_outside (of_class c L) (buffer_ a) buf' ->
  binding (fun d => class_eqb d c || done d) L target (set_unresolved c (-1) l) (with_buffer buf' a).
Proof.
  intros [Hu Hst Hh Hl Hr] Hd Hres F.
  assert (forall d p s q t, class_eqb d c = false -> In (p, s) (of_class d L) -> In (q, t) (of_class c L) ->
    p + site_length s <= q \/ q + site_length t <= p) as D.
  { intros d p s q t Hdc Hp Hq. apply in_of_class in Hp as [Hp Cp], Hq as [Hq Cq].
    apply (stacked_disjoint _ _ _ _ _ _ Hst Hp Hq). intros [= -> ->]. cbn [snd] in *.
    rewrite Cp in Cq. rewrite (proj2 (class_eqb_eq d c) Cq) in Hdc. discriminate. }
  split.
  - destruct c; exact Hu.
  - rewrite Position_with_buffer, (proj1 F). exact Hst.
  - intros d. specialize (Hh d). destruct c, d; cbn in *; (exact Hh || reflexivity).
  - intros d Hdd. apply orb_false_iff in Hdd as [Hdc Hdd].
    apply (links_frame _ (of_class c L) (buffer_ a)); [exact F| |apply Hl, Hdd]. intros p s q t; apply (D d); exact Hdc.
  - intros d Hdd. destruct (class_eqb d c) eqn:E; [apply class_eqb_eq in E as ->; exact Hres|].
    intros p s Hp. destruct (Hr d Hdd p s Hp) as [Hok Ha]. split; [exact Hok|].
    apply (site_at_frame (of_class c L) (buffer_ a)); [exact F| |exact Ha]. intros q t Hq. apply (D d p s q t E Hp Hq).
Qed.

Lemma same_outside_incl L M buf buf' : incl L M -> same_outside L buf buf' -> same_outside M buf buf'.
Proof. intros I [H F]; split; [exact H|]. intros j Hj; apply F. intros p s Hp; apply Hj, I, Hp. Qed.

Lemma same_outside_trans L b1 b2 b3 : same_outside L b1 b2 -> same_outside L b2 b3 -> same_outside L b1 b3.
Proof. intros [L1 F1] [L2 F2]; split; [congruence|]. intros j Hj; rewrite F2, F1; auto. Qed.

Lemma BIND_ok done L target l a c : binding done L target l a -> done c = false -> aligned_refs L target a ->
  (forall p s, In (p, s) L -> site_class s = c -> in_range c (target - p)) ->
  exists l' buf', BIND c target l a = Done (l', with_buffer buf' a) /\
    binding (fun d => class_eqb d c || done d) L target l' (with_buffer buf' a) /\
    same_outside L (buffer_ a) buf'.
Proof.
  intros B Hd HL HR. pose proof (b_head _ _ _ _ _ B c) as Hh. rewrite Hd in Hh.
  exists (set_unresolved c (-1) l).
  assert (exists buf', bind_loop (S (length (buffer_ a))) c target (unresolved c l) a = Done (with_buffer buf' a) /\
    resolved buf' target (of_class c L) /\ same_outside (of_class c L) (buffer_ a) buf') as (buf' & Hb & Hres & F).
  { rewrite Hh. pose proof (stacked_of_class c L _ (b_stacked _ _ _ _ _ B)) as Hst.
    pose proof (b_links _ _ _ _ _ B c Hd) as Hl.
    assert (forall r, In r (of_class c L) -> site_class (snd r) = c /\ in_range c (target - fst r) /\ aligned_ref a target r) as HF.
    { intros [p s] Hin. apply in_of_class in Hin as [Hin Hc]. cbn [fst snd] in *.
      split; [exact Hc|]. split; [exact (HR p s Hin Hc)|exact (HL p s Hin)]. }
    pose proof (stacked_length (Position a) (of_class c L) ltac:(unfold Position; lia) Hst) as Hlen.
    destruct (of_class c L) as [|[p s] M].
    - exists (buffer_ a). split; [destruct a; reflexivity|]. split; [intros ? ? []|apply same_outside_refl].
    - apply bind_loop_ok; [exact Hst|exact Hl|unfold Position in Hlen; cbn [length] in Hlen; lia|apply Forall_forall, HF]. }
  exists buf'. unfold BIND. rewrite Hb. split; [reflexivity|]. split; [apply binding_step; assumption|].
  apply (same_outside_incl (of_class c L)); [|exact F]. intros r Hr; apply in_of_class in Hr; tauto.
Qed.

(** ** Linking *)

Definition linked (L : refs) (l : Label) (a : Assembler) : Prop := binding (fun _ => false) L 0 l a.

Lemma binding_retarget L target target' l a :
  binding (fun _ => false) L target l a -> binding (fun _ => false) L target' l a.
Proof. intros [Hu Hst Hh Hl _]; split; try assumption. discriminate. Qed.

Lemma linked_new a : linked [] new_label a.
Proof. split; [reflexivity|exact I|intros []; reflexivity|intros; exact I|discriminate]. Qed.

Lemma links_append L buf c : links buf L -> links (buf ++ c) L.
Proof.
  induction L as [|[p s] L IH]; [trivial|]. intros (Hs & (Hr & code & Hc & H) & Hl).
  split; [exact Hs|]. split; [|auto]. split; [exact Hr|]. exists code; split; [exact Hc|apply holds_append, H].
Qed.

Lemma linked_append L l a c : linked L l a -> linked L l (append c a).
Proof.
  intros [Hu Hst Hh Hl Hr]; split; [exact Hu| |exact Hh| |discriminate].
  - apply (stacked_weaken (Position a)); [exact Hst|rewrite Position_append; lia].
  - intros d Hd. apply links_append, Hl, Hd.
Qed.

(** The offset given to a new branch of class [c]. *)
Definition link_offset (c : BranchClass) (L : refs) (p : Z) : Z :=
  match of_class c L with [] => 0 | (q, _) :: _ => p - q end.

Lemma first_ref_below c L l a : linked L l a -> -1 <= first_ref (of_class c L) < Position a \/ of_class c L = [].
Proof.
  intros B. pose proof (stacked_of_class c L _ (b_stacked _ _ _ _ _ B)) as Hst.
  destruct (of_class c L) as [|[p s] M]; [right; reflexivity|left]. cbn [first_ref stacked] in *.
  pose proof (site_length_pos s). lia.
Qed.

Lemma link_ok c L l a : linked L l a -> Position a < 2 ^ 31 ->
  link c (Position a) l = Some (link_offset c L (Position a), set_unresolved c (Position a) l).
Proof.
  intros B Hp. assert (0 <= Position a) by (unfold Position; lia).
  pose proof (b_head _ _ _ _ _ B c) as Hh. cbn [negb] in Hh.
  pose proof (stacked_of_class c L _ (b_stacked _ _ _ _ _ B)) as Hst. unfold link, link_offset.
  rewrite Hh, (sN_small 32 (Position a)) by (lia || (unfold is_sN; lia)).
  destruct (of_class c L) as [|[q t] M]; cbn [first_ref stacked] in *.
  - destruct (Z.gtb_spec (Position a) (-1)); [reflexivity|lia].
  - pose proof (site_length_pos t). destruct (Z.gtb_spec (Position a) q); [|lia].
    destruct (Z.eqb_spec q (-1)); [lia|]. rewrite sN_small by (lia || (unfold is_sN; lia)).
    destruct (Z.gtb_spec (Position a - q) 0); [reflexivity|lia].
Qed.

Lemma linked_cons L l a s code : linked L l a -> site_ok s ->
  site_code s (link_offset (site_class s) L (Position a)) code ->
  in_range (site_class s) (link_offset (site_class s) L (Position a)) ->
  linked ((Position a, s) :: L) (set_unresolved (site_class s) (Position a) l) (append code a).
Proof.
  intros B Hs Hc Hr. pose proof (linked_append L l a code B) as [Hu Hst Hh Hl _].
  pose proof (site_code_length _ _ _ Hc) as Lc. split.
  - destruct (site_class s); exact Hu.
  - cbn [stacked]. rewrite Position_append, Lc. split; [unfold Position; lia|]. split; [lia|].
    exact (b_stacked _ _ _ _ _ B).
  - intros d. unfold of_class; cbn [filter snd]. specialize (Hh d). cbn beta iota in *.
    destruct (site_class s), d; cbn [class_eqb] in *; first [exact Hh|reflexivity].
  - intros d _. unfold of_class; cbn [filter snd]. destruct (class_eqb (site_class s) d) eqn:E; [|exact (Hl d eq_refl)].
    apply class_eqb_eq in E as <-. cbn [links]. split; [exact Hs|]. split; [|exact (Hl (site_class s) eq_refl)].
    split; [exact Hr|]. exists code; split; [exact Hc|apply holds_new].
  - discriminate.
Qed.

(** ** Emitting branches to an unbound label *)

Definition kMaxCodeSize : Z := 2 ^ 31 - 2 ^ 12.

(** Where [EmitBranch] puts the branch that refers to the label, and its form. *)
Definition branch_ref (rs1 rs2 func : Z) (distance : JumpDistance) (a : Assembler) : Z * site :=
  if is_near distance || (far_branch_level_ a =? 0) then (Position a, SiteB rs2 rs1 func)
  else
    let p := Position a + (if CompressedSkip rs1 rs2 func a then 2 else 4) in
    (p, if far_branch_level_ a =? 1 then SiteJ ZR else SiteFar).

Definition jump_ref (rd : Z) (distance : JumpDistance) (a : Assembler) : Z * site :=
  (Position a, if is_near distance || (far_branch_level_ a <? 2) then SiteJ rd else SiteFar).

(** A result that refers to the label once more: some code before the branch, then the branch. *)
Definition refers (L : refs) (l : Label) (a : Assembler) (r : Z * site) (res : Label * Assembler) : Prop :=
  exists pre code, snd res = append code (append pre a) /\ fst r = Position (append pre a) /\
    (Z.of_nat (length pre) = 0 \/ Z.of_nat (length pre) = 4 \/ Supports a RV_C = true /\ Z.of_nat (length pre) = 2) /\
    fst res = set_unresolved (site_class (snd r)) (fst r) l /\ site_ok (snd r) /\
    site_code (snd r) (link_offset (site_class (snd r)) L (fst r)) code /\
    in_range (site_class (snd r)) (link_offset (site_class (snd r)) L (fst r)).

Lemma refers_linked L l a r res : linked L l a -> refers L l a r res -> linked (r :: L) (fst res) (snd res).
Proof.
  intros B (pre & code & Ha & Hp & _ & Hl & Hs & Hc & Hr). destruct r as [p s], res as [l' a']; cbn [fst snd] in *.
  subst a' l' p. apply linked_cons; [apply linked_append, B|assumption..].
Qed.

Lemma refers_intro L l a s code : site_ok s -> site_code s (link_offset (site_class s) L (Position a)) code ->
  in_range (site_class s) (link_offset (site_class s) L (Position a)) ->
  refers L l a (Position a, s) (set_unresolved (site_class s) (Position a) l, append code a).
Proof.
  intros Hs Hc Hr. exists [], code. cbn [fst snd].
  assert (append [] a = a) as -> by (unfold append, with_buffer; rewrite app_nil_r; destruct a; reflexivity).
  repeat (split; [solve [auto]|]). exact Hr.
Qed.

Lemma unbound L l a : linked L l a -> IsBound l = false.
Proof. intros B; unfold IsBound. rewrite (b_unbound _ _ _ _ _ B). reflexivity. Qed.

(** The offset between two branches of a function fits the auipc/jalr pair. *)
Lemma far_offset_range L l a : linked L l a -> Position a < kMaxCodeSize ->
  in_range class_far (link_offset class_far L (Position a)).
Proof.
  intros B Hp. unfold in_range, link_offset.
  pose proof (stacked_of_class class_far L _ (b_stacked _ _ _ _ _ B)) as Hst.
  destruct (of_class class_far L) as [|[q t] M]; [vm_compute; split; congruence|]. cbn [stacked] in Hst.
  pose proof (ImmLo_s12 (Position a - q)) as Hl. unfold is_sN, kMaxCodeSize in *. pose proof (site_length_pos t). lia.
Qed.

Lemma EmitJType_success k rd op a a' : MicroAssembler.EmitJType k rd op a = Some a' -> IsJTypeImm k = true.
Proof.
  unfold MicroAssembler.EmitJType, EncodeJTypeImm. destruct (IsJTypeImm k); [reflexivity|]. discriminate.
Qed.

(** The skip over a far branch. *)
Lemma EmitSkip_length c n rs1 rs2 func a k a' : EmitSkip c n rs1 rs2 func a = Some (k, a') ->
  exists pre, a' = append pre a /\ Z.of_nat (length pre) = (if CompressedSkip rs1 rs2 func a then 2 else 4).
Proof.
  unfold EmitSkip. destruct (CompressedSkip rs1 rs2 func a).
  - destruct (MicroAssembler.Emit16 _ a) eqn:E; [|discriminate]. intros [= <- <-].
    unfold MicroAssembler.Emit16 in E. destruct (_ .|? _); [|discriminate]. injection E as <-.
    eexists; split; [reflexivity|]. reflexivity.
  - destruct (EmitInverted n rs2 rs1 func a) eqn:E; [|discriminate]. intros [= <- <-].
    unfold EmitInverted in E. destruct (InvertFunct3 func); [|discriminate].
    unfold MicroAssembler.EmitBType, MicroAssembler.Emit32 in E. destruct (_ .|? _); [|discriminate]. injection E as <-.
    eexists; split; [reflexivity|]. reflexivity.
Qed.

Lemma emit_b L l a rs1 rs2 func : is_uN 5 rs1 -> is_uN 5 rs2 -> is_branch func ->
  IsBTypeImm (link_offset class_b L (Position a)) = true ->
  exists res, (do a' <- lift (MicroAssembler.EmitBType (link_offset class_b L (Position a)) rs2 rs1 func BRANCH a);
    Done (set_unresolved class_b (Position a) l, a')) = Done res /\
    refers L l a (Position a, SiteB rs2 rs1 func) res.
Proof.
  intros H1 H2 Hb Hk.
  destruct (EmitBType_spec _ rs2 rs1 func BRANCH a Hk H2 H1 (is_branch_u3 _ Hb)) as (e & -> & He);
    [vm_compute; split; congruence|].
  eexists; split; [reflexivity|]. apply (refers_intro L l a (SiteB rs2 rs1 func)); cbn [site_ok site_class site_code in_range]; eauto.
Qed.

Lemma emit_j L l a rd a' : is_uN 5 rd -> MicroAssembler.EmitJType (link_offset class_j L (Position a)) rd JAL a = Some a' ->
  refers L l a (Position a, SiteJ rd) (set_unresolved class_j (Position a) l, a').
Proof.
  intros Hrd E. pose proof (EmitJType_success _ _ _ _ _ E) as Hk.
  destruct (EmitJType_spec _ rd JAL a Hk Hrd) as (e & E' & He); [vm_compute; split; congruence|].
  assert (a' = append (le_bytes 4 e) a) as -> by congruence.
  apply (refers_intro L l a (SiteJ rd)); cbn [site_ok site_class site_code in_range]; eauto.
Qed.

Lemma emit_far L l a a' : linked L l a -> Position a < kMaxCodeSize ->
  EmitFarJump (link_offset class_far L (Position a)) a = Some a' ->
  refers L l a (Position a, SiteFar) (set_unresolved class_far (Position a) l, a').
Proof.
  intros B Hp E. destruct (EmitFarJump_spec (link_offset class_far L (Position a)) a) as (e1 & e2 & E' & H1 & H2).
  assert (a' = append (le_bytes 4 e1 ++ le_bytes 4 e2) a) as -> by congruence.
  apply (refers_intro L l a SiteFar); cbn [site_ok site_class site_code]; [exact I|eauto 6|].
  exact (far_offset_range L l a B Hp).
Qed.

(** Code before the branch does not change what the branch refers to. *)
Lemma refers_after L l a pre r res :
  (Z.of_nat (length pre) = 4 \/ Supports a RV_C = true /\ Z.of_nat (length pre) = 2) ->
  refers L l (append pre a) (Position (append pre a), r) res -> refers L l a (Position (append pre a), r) res.
Proof.
  intros Hpre (pre' & code & Ha & Hp & _ & Hrest). cbn [fst snd] in *.
  assert (pre' = []) as -> by (rewrite !Position_append in Hp; destruct pre'; [reflexivity|cbn [length] in Hp; lia]).
  exists pre, code. cbn [fst snd].
  assert (append [] (append pre a) = append pre a) as E by (unfold append, with_buffer; cbn; rewrite app_nil_r; reflexivity).
  rewrite E in Ha. split; [exact Ha|]. split; [reflexivity|]. split; [tauto|exact Hrest].
Qed.

Lemma AssertLength_same start n a a' : AssertLength start n a = Some a' -> a' = a.
Proof. unfold AssertLength. destruct (_ =? _); [intros [= <-]; reflexivity|discriminate]. Qed.

(** The far forms: a skip, then a jump that refers to the label. *)
Lemma skip_refers L l a rs1 rs2 func c n s (emit : Z -> Assembler -> option Assembler) res :
  linked L l a -> Position a + 4 < kMaxCodeSize ->
  (forall a1 a', linked L l a1 -> Position a1 < kMaxCodeSize ->
     emit (link_offset (site_class s) L (Position a1)) a1 = Some a' ->
     refers L l a1 (Position a1, s) (set_unresolved (site_class s) (Position a1) l, a')) ->
  (do (k, a1) <- lift (EmitSkip c n rs1 rs2 func a);
   do (offset, l1) <- lift (link (site_class s) (Position a1) l);
   do a2 <- lift (emit offset a1);
   do a2 <- lift (AssertLength (Position a) k a2);
   Done (l1, a2)) = Done res ->
  refers L l a (Position a + (if CompressedSkip rs1 rs2 func a then 2 else 4), s) res.
Proof.
  intros B Hp He. destruct (EmitSkip c n rs1 rs2 func a) as [[k a1]|] eqn:E1; [|discriminate]. cbn [lift lbind].
  destruct (EmitSkip_length _ _ _ _ _ _ _ _ E1) as (pre & -> & Lp).
  assert (Z.of_nat (length pre) <= 4) by (destruct (CompressedSkip _ _ _ _); lia).
  assert (Position (append pre a) < kMaxCodeSize) as Hp1 by (rewrite Position_append; lia).
  rewrite (link_ok (site_class s) L l (append pre a)) by (first [apply linked_append, B|unfold kMaxCodeSize in *; lia]).
  cbn [lift lbind]. destruct (emit _ (append pre a)) as [a2|] eqn:E2; [|discriminate]. cbn [lift lbind].
  destruct (AssertLength _ _ a2) as [a3|] eqn:E3; [|discriminate]. cbn [lift lbind].
  apply AssertLength_same in E3 as ->. intros [= <-].
  rewrite <- Lp, <- Position_append. apply refers_after.
  - unfold CompressedSkip in Lp. destruct (Supports a RV_C); cbn [andb] in Lp; [|left; exact Lp].
    destruct (_ && _) in Lp; [right; auto|left; exact Lp].
  - apply He; [apply linked_append, B|exact Hp1|exact E2].
Qed.

Lemma EmitBranch_refers L l a rs1 rs2 func distance res : linked L l a -> Position a + 4 < kMaxCodeSize ->
  is_uN 5 rs1 -> is_uN 5 rs2 -> is_branch func ->
  EmitBranch rs1 rs2 l func distance a = Done res -> refers L l a (branch_ref rs1 rs2 func distance a) res.
Proof.
  intros B Hp H1 H2 Hb. unfold EmitBranch, branch_ref. rewrite (unbound _ _ _ B).
  pose proof (link_ok class_b L l a B ltac:(unfold kMaxCodeSize in Hp; lia)) as Hlk.
  destruct (is_near distance); cbn [orb]; [|destruct (far_branch_level_ a =? 0)].
  1-2: rewrite Hlk; cbn [lift lbind]; destruct (IsBTypeImm _) eqn:Hk; cbn [negb]; [|discriminate];
    destruct (emit_b L l a rs1 rs2 func H1 H2 Hb Hk) as (res' & -> & Hr); intros [= <-]; exact Hr.
  destruct (far_branch_level_ a =? 1).
  - apply (skip_refers L l a rs1 rs2 func 6 8 (SiteJ ZR) (fun k => MicroAssembler.EmitJType k ZR JAL)); [exact B|exact Hp|].
    intros a1 a' _ _. apply emit_j, zr5.
  - apply (skip_refers L l a rs1 rs2 func 10 12 SiteFar EmitFarJump); [exact B|exact Hp|].
    intros a1 a'. apply emit_far.
Qed.

Lemma EmitJump_refers L l a rd distance res : linked L l a -> Position a < kMaxCodeSize -> is_uN 5 rd ->
  EmitJump rd l distance a = Done res -> refers L l a (jump_ref rd distance a) res.
Proof.
  intros B Hp Hr. unfold EmitJump, jump_ref. rewrite (unbound _ _ _ B).
  pose proof (link_ok class_j L l a B ltac:(unfold kMaxCodeSize in Hp; lia)) as Hj.
  pose proof (link_ok class_far L l a B ltac:(unfold kMaxCodeSize in Hp; lia)) as Hf.
  destruct (is_near distance); cbn [orb]; [|destruct (far_branch_level_ a <? 2)]; rewrite ?Hj, ?Hf; cbn [lift lbind].
  1-2: destruct (IsJTypeImm _); cbn [negb]; [|discriminate];
    destruct (MicroAssembler.EmitJType _ rd JAL a) as [a'|] eqn:E; [|discriminate]; intros [= <-]; apply emit_j; assumption.
  destruct (EmitFarJump _ a) as [a'|] eqn:E; [|discriminate]. intros [= <-]. apply emit_far; assumption.
Qed.

Lemma EmitCBranch_refers L l a rs1 (op : COpcode) res : linked L l a -> Position a < kMaxCodeSize ->
  In op [C_BEQZ; C_BNEZ] -> IsCRs1p rs1 = true ->
  EmitCBranch rs1 l op a = Done res -> refers L l a (Position a, SiteCB op rs1) res.
Proof.
  intros B Hp Hop Hr. unfold EmitCBranch. rewrite (unbound _ _ _ B), (link_ok class_cb L l a B) by (unfold kMaxCodeSize in Hp; lia).
  cbn [lift lbind]. destruct (IsCBImm _) eqn:Hk; cbn [negb]; [|discriminate].
  destruct (EmitCB_spec op rs1 _ a Hop Hr Hk) as (e & -> & He). cbn [lift lbind]. intros H.
  assert (res = (set_unresolved class_cb (Position a) l, append (le_bytes 2 e) a)) as -> by congruence.
  apply (refers_intro L l a (SiteCB op rs1)); cbn [site_ok site_class site_code in_range]; eauto.
Qed.

Lemma EmitCJump_refers L l a res : linked L l a -> Position a < kMaxCodeSize ->
  EmitCJump l C_J a = Done res -> refers L l a (Position a, SiteCJ) res.
Proof.
  intros B Hp. unfold EmitCJump. rewrite (unbound _ _ _ B), (link_ok class_cj L l a B) by (unfold kMaxCodeSize in Hp; lia).
  cbn [lift lbind]. destruct (IsCJImm _) eqn:Hk; cbn [negb]; [|discriminate].
  destruct (EmitCJ_spec _ a Hk) as (e & -> & He & _). cbn [lift lbind]. intros H.
  assert (res = (set_unresolved class_cj (Position a) l, append (le_bytes 2 e) a)) as -> by congruence.
  apply (refers_intro L l a SiteCJ); cbn [site_ok site_class site_code in_range]; eauto.
Qed.

(** ** Reachable states *)

(** [labelled L l a]: the assembler [a] has emitted code and the branches [L] to
    the label [l], starting from a fresh label. *)
Inductive labelled : refs -> Label -> Assembler -> Prop :=
  | lab_new a : Position a mod alignment a = 0 -> labelled [] new_label a
  | lab_emit L l a code : labelled L l a -> Z.of_nat (length code) mod alignment a = 0 -> labelled L l (append code a)
  | lab_branch L l a rs1 rs2 func distance l' a' : labelled L l a -> Position a + 4 < kMaxCodeSize ->
      is_uN 5 rs1 -> is_uN 5 rs2 -> is_branch func -> EmitBranch rs1 rs2 l func distance a = Done (l', a') ->
      labelled (branch_ref rs1 rs2 func distance a :: L) l' a'
  | lab_jump L l a rd distance l' a' : labelled L l a -> Position a < kMaxCodeSize -> is_uN 5 rd ->
      EmitJump rd l distance a = Done (l', a') -> labelled (jump_ref rd distance a :: L) l' a'
  | lab_beqz L l a rs l' a' : labelled L l a -> Position a < kMaxCodeSize -> IsCRs1p rs = true ->
      c_beqz rs l a = Done (l', a') -> labelled ((Position a, SiteCB C_BEQZ rs) :: L) l' a'
  | lab_bnez L l a rs l' a' : labelled L l a -> Position a < kMaxCodeSize -> IsCRs1p rs = true ->
      c_bnez rs l a = Done (l', a') -> labelled ((Position a, SiteCB C_BNEZ rs) :: L) l' a'
  | lab_c_j L l a l' a' : labelled L l a -> Position a < kMaxCodeSize ->
      c_j l a = Done (l', a') -> labelled ((Position a, SiteCJ) :: L) l' a'.

Record label_inv (L : refs) (l : Label) (a : Assembler) : Prop := mkInv {
  inv_linked : linked L l a;
  inv_position : Position a mod alignment a = 0;
  inv_refs : Forall (fun r => fst r mod alignment a = 0) L
}.

Lemma site_length_aligned s a : (match s with SiteCB _ _ | SiteCJ => Supports a RV_C = true | _ => True end) ->
  site_length s mod alignment a = 0.
Proof. unfold alignment. destruct s; intros H; try rewrite H; destruct (Supports a RV_C); reflexivity. Qed.

Lemma add_aligned x y a : x mod alignment a = 0 -> y mod alignment a = 0 -> (x + y) mod alignment a = 0.
Proof.
  intros Hx Hy. rewrite Zplus_mod, Hx, Hy. unfold alignment; destruct (Supports a RV_C); reflexivity.
Qed.

Lemma label_inv_step L l a r res : label_inv L l a -> refers L l a r res ->
  (match snd r with SiteCB _ _ | SiteCJ => Supports a RV_C = true | _ => True end) ->
  label_inv (r :: L) (fst res) (snd res).
Proof.
  intros [B Hp Hf] Hr Hc. pose proof (refers_linked _ _ _ _ _ B Hr) as B'.
  destruct Hr as (pre & code & Ha & Hr & Hpre & _ & _ & Hcode & _).
  apply site_code_length in Hcode. rewrite Ha in *.
  assert (Z.of_nat (length pre) mod alignment a = 0) as Hpre0 by
    (unfold alignment; destruct Hpre as [->|[->|[-> ->]]]; destruct (Supports a RV_C); reflexivity).
  split.
  - exact B'.
  - change (alignment (append code (append pre a))) with (alignment a).
    rewrite !Position_append, Hcode. apply add_aligned; [apply add_aligned; assumption|apply site_length_aligned, Hc].
  - change (alignment (append code (append pre a))) with (alignment a). constructor; [|exact Hf].
    rewrite Hr, Position_append. apply add_aligned; assumption.
Qed.

Lemma labelled_inv L l a : labelled L l a -> label_inv L l a.
Proof.
  induction 1.
  - split; [apply linked_new|assumption|constructor].
  - destruct IHlabelled as [B Hp Hf]. split; [apply linked_append, B| |exact Hf].
    rewrite Position_append. change (alignment (append code a)) with (alignment a). apply add_aligned; assumption.
  - apply (label_inv_step L l a _ (l', a')); [assumption|apply EmitBranch_refers; auto using inv_linked|].
    unfold branch_ref. destruct (_ || _); cbn [snd]; [exact I|]. destruct (_ =? 1); exact I.
  - apply (label_inv_step L l a _ (l', a')); [assumption|apply EmitJump_refers; auto using inv_linked|].
    unfold jump_ref; cbn [snd]. destruct (_ || _); exact I.
  - unfold c_beqz in *. destruct (Supports a RV_C) eqn:HC; [|discriminate].
    apply (label_inv_step L l a _ (l', a')); [assumption|apply EmitCBranch_refers; cbn; auto using inv_linked|exact HC].
  - unfold c_bnez in *. destruct (Supports a RV_C) eqn:HC; [|discriminate].
    apply (label_inv_step L l a _ (l', a')); [assumption|apply EmitCBranch_refers; cbn; auto using inv_linked|exact HC].
  - unfold c_j in *. destruct (Supports a RV_C) eqn:HC; [|discriminate].
    apply (label_inv_step L l a _ (l', a')); [assumption|apply EmitCJump_refers; auto using inv_linked|exact HC].
Qed.

Lemma IsAligned_mod a x : x mod alignment a = 0 -> IsAligned x (alignment a) 0 = true.
Proof.
  intros H. unfold IsAligned. apply Z.eqb_eq. unfold alignment in *. destruct (Supports a RV_C).
  - change (2 - 1) with (Z.ones 1). rewrite Z.land_ones by lia. unfold uN.
    rewrite Z.mod_mod_divide by (exists (2 ^ 63); reflexivity). exact H.
  - change (4 - 1) with (Z.ones 2). rewrite Z.land_ones by lia. unfold uN.
    rewrite Z.mod_mod_divide by (exists (2 ^ 62); reflexivity). exact H.
Qed.

Lemma label_inv_aligned L l a : label_inv L l a -> aligned_refs L (Position a) a.
Proof.
  intros [B Hp Hf] p s Hin. rewrite Forall_forall in Hf. specialize (Hf _ Hin).
  unfold aligned_ref; cbn [fst] in *. split; apply IsAligned_mod; [exact Hf|].
  rewrite Zminus_mod, Hp, Hf. unfold alignment; destruct (Supports a RV_C); reflexivity.
Qed.

(** ** Branches that do not reach *)

Definition in_range_b (c : BranchClass) (k : Z) : bool :=
  match c with
  | class_b => IsBTypeImm k | class_j => IsJTypeImm k | class_cb => IsCBImm k | class_cj => IsCJImm k
  | class_far => (- 2 ^ 31 <=? k - ImmLo k) && (k - ImmLo k <? 2 ^ 31)
  end.

Lemma in_range_spec c k : in_range c k <-> in_range_b c k = true.
Proof. destruct c; cbn [in_range in_range_b]; try reflexivity. unfold is_sN. lia. Qed.

Lemma UpdateOffset_far s p old new a : site_ok s -> site_at (buffer_ a) p s old ->
  site_class s = class_b \/ site_class s = class_j -> in_range_b (site_class s) new = false ->
  UpdateOffset (site_class s) p new a = BranchOffsetError.
Proof.
  intros Hs (Ho & code & Hc & H) Hcl Hn.
  destruct s; destruct Hcl as [Hcl|Hcl]; try discriminate; cbn [site_class site_code in_range_b UpdateOffset] in *.
  - destruct Hc as (e & -> & [Hw Hlo Hop Hr1 Hr2 Hf Hi]).
    unfold UpdateBOffset, Read32. rewrite (ReadN_holds 4 p e a H) by (lia || exact Hw). cbn [lift lbind].
    rewrite Hop, Hn. reflexivity.
  - destruct Hc as (e & -> & [Hw Hlo Hop Hrd Hi]).
    unfold UpdateJOffset, Read32. rewrite (ReadN_holds 4 p e a H) by (lia || exact Hw). cbn [lift lbind].
    rewrite Hop, Hn. reflexivity.
Qed.

Lemma bind_loop_far c target : c = class_b \/ c = class_j -> forall L p s fuel a,
  stacked (Position a) ((p, s) :: L) -> links (buffer_ a) ((p, s) :: L) -> (length L < fuel)%nat ->
  Forall (fun r => site_class (snd r) = c /\ aligned_ref a target r) ((p, s) :: L) ->
  Exists (fun r => in_range_b c (target - fst r) = false) ((p, s) :: L) ->
  bind_loop fuel c target p a = BranchOffsetError.
Proof.
  intros Hcl. induction L as [|[q t] L IH]; intros p s fuel a Hst Hlk Hf HF HE.
  all: destruct fuel as [|fuel]; [cbn in Hf; lia|]; apply Forall_cons_iff in HF as ((Hc & Ha) & HF'); cbn [snd] in Hc.
  all: destruct (in_range_b c (target - p)) eqn:Hr; [|cbn [bind_loop]; fold (alignment a);
    rewrite (proj2 (Z.ltb_ge p 0) (proj1 Hst)), (proj1 Ha : IsAligned p _ _ = _),
      (proj2 Ha : IsAligned (target - p) _ _ = _); cbn [negb]; subst c;
    rewrite (UpdateOffset_far s p _ (target - p) a (proj1 Hlk) (proj1 (proj2 Hlk)) Hcl Hr); reflexivity].
  all: apply Exists_cons in HE as [HE|HE]; [cbn [fst] in HE; congruence|].
  - inversion HE.
  - destruct (bind_step c target _ p s fuel a Hst Hlk Hc (proj2 (in_range_spec _ _) Hr) Ha) as (buf1 & -> & _ & Hl1 & F1).
    apply (IH q t fuel (with_buffer buf1 a)); [|exact Hl1|cbn in Hf; lia|exact HF'|exact HE].
    rewrite Position_with_buffer, (proj1 F1). destruct Hst as (Hp & Htop & Hst). pose proof (site_length_pos s).
    unfold Position in *. cbn [stacked] in *. split; [tauto|]. split; [lia|tauto].
Qed.

Lemma BIND_far done L target l a c : binding done L target l a -> done c = false -> c = class_b \/ c = class_j ->
  aligned_refs L target a ->
  (exists p s, In (p, s) L /\ site_class s = c /\ in_range_b c (target - p) = false) ->
  BIND c target l a = BranchOffsetError.
Proof.
  intros B Hd Hcl HL (p0 & s0 & Hin & Hs0 & Hr). unfold BIND.
  rewrite (b_head _ _ _ _ _ B c), Hd. pose proof (stacked_of_class c L _ (b_stacked _ _ _ _ _ B)) as Hst.
  pose proof (b_links _ _ _ _ _ B c Hd) as Hl.
  pose proof (proj2 (in_of_class c L (p0, s0)) (conj Hin Hs0)) as Hin'.
  pose proof (stacked_length (Position a) (of_class c L) ltac:(unfold Position; lia) Hst) as Hlen.
  assert (forall r, In r (of_class c L) -> site_class (snd r) = c /\ aligned_ref a target r) as HF.
  { intros [p s] Hps. apply in_of_class in Hps as [Hps Hc]. auto. }
  destruct (of_class c L) as [|[p s] M]; [destruct Hin'|]. cbn [first_ref].
  rewrite (bind_loop_far c target Hcl M p s); [reflexivity|exact Hst|exact Hl| |apply Forall_forall, HF|].
  - unfold Position in Hlen; cbn [length] in Hlen; lia.
  - apply Exists_exists. exists (p0, s0). auto.
Qed.

Definition reaches (L : refs) (target : Z) (c : BranchClass) : bool :=
  forallb (fun r => in_range_b c (target - fst r)) (of_class c L).

Lemma reaches_spec L target c : reaches L target c = true <->
  forall p s, In (p, s) L -> site_class s = c -> in_range c (target - p).
Proof.
  unfold reaches. rewrite forallb_forall. split.
  - intros H p s Hin Hc. apply in_range_spec, (H (p, s)), in_of_class. auto.
  - intros H [p s] Hin. apply in_of_class in Hin as [Hin Hc]. apply in_range_spec, (H p s); assumption.
Qed.

Lemma unreached L target c : reaches L target c = false ->
  exists p s, In (p, s) L /\ site_class s = c /\ in_range_b c (target - p) = false.
Proof.
  unfold reaches. intros H. destruct (existsb (fun r => negb (in_range_b c (target - fst r))) (of_class c L)) eqn:E.
  - apply existsb_exists in E as ([p s] & Hin & Hn). apply in_of_class in Hin as [Hin Hc].
    exists p, s. cbn [fst snd] in *. apply negb_true_iff in Hn. auto.
  - exfalso. rewrite (proj2 (forallb_forall _ _)) in H; [discriminate|]. intros r Hin.
    destruct (in_range_b c (target - fst r)) eqn:Er; [reflexivity|].
    rewrite (proj2 (existsb_exists _ _)) in E; [discriminate|]. exists r. rewrite Er. auto.
Qed.

(** ** [Bind] *)

(** The last step: every list is empty and the label gets its position. *)
Lemma BindTo_ok L target l a : binding (fun _ => true) L target l a -> 0 <= target < 2 ^ 31 ->
  exists l', BindTo target l = Some l' /\ position_ l' = target /\ IsLinked l' = false.
Proof.
  intros [Hu _ Hh _ _] Ht.
  pose proof (Hh class_cb) as E1; pose proof (Hh class_cj) as E2; pose proof (Hh class_b) as E3;
    pose proof (Hh class_j) as E4; pose proof (Hh class_far) as E5. cbn in E1, E2, E3, E4, E5.
  unfold BindTo, IsBound, IsLinked; cbn [position_].
  rewrite Hu, E1, E2, E3, E4, E5, (sN_small 32 target) by (lia || (unfold is_sN; lia)).
  cbn [Z.eqb Pos.eqb negb orb]. destruct (Z.eqb_spec target (-1)); [lia|]. eexists. split; [reflexivity|].
  split; [reflexivity|]. cbn [unresolved_cb_ unresolved_cj_ unresolved_b_ unresolved_j_ unresolved_far_].
  reflexivity.
Qed.

Lemma binding_done done done' L target l a : (forall c, done c = done' c) ->
  binding done L target l a -> binding done' L target l a.
Proof.
  intros E [Hu Hst Hh Hl Hr]; split; try assumption.
  - intros c; rewrite <- E; apply Hh.
  - intros c; rewrite <- E; apply Hl.
  - intros c; rewrite <- E; apply Hr.
Qed.

Definition near_reach (L : refs) (target : Z) : Prop :=
  reaches L target class_cb = true /\ reaches L target class_cj = true /\ reaches L target class_far = true.

(** [Bind] patches every branch when all of them reach; when only B- or J-type
    branches do not, it asks for the function to be assembled with far branches. *)
Lemma Bind_ok L l a : label_inv L l a -> Position a < 2 ^ 31 -> near_reach L (Position a) ->
  if reaches L (Position a) class_b && reaches L (Position a) class_j then
    exists l' buf', Bind l a = Done (l', with_buffer buf' a) /\ position_ l' = Position a /\ IsLinked l' = false /\
      resolved buf' (Position a) L /\ same_outside L (buffer_ a) buf'
  else Bind l a = BranchOffsetError.
Proof.
  intros Hinv Hp (R1 & R2 & R5). pose proof (label_inv_aligned _ _ _ Hinv) as HL.
  pose proof (binding_retarget _ _ (Position a) _ _ (inv_linked _ _ _ Hinv)) as B.
  unfold Bind, IsBound. rewrite (b_unbound _ _ _ _ _ B). cbn [Z.eqb Pos.eqb negb].
  assert (0 <= Position a) by (unfold Position; lia). set (target := Position a) in *.
  rewrite reaches_spec in R1, R2, R5.
  destruct (BIND_ok _ _ _ _ _ class_cb B eq_refl HL R1) as (l1 & f1 & -> & B1 & F1); cbn [lbind].
  destruct (BIND_ok _ _ _ _ _ class_cj B1 eq_refl HL R2) as (l2 & f2 & -> & B2 & F2); cbn [lbind].
  destruct (reaches L target class_b) eqn:R3; cbn [andb];
    [|rewrite (BIND_far _ _ _ _ _ class_b B2 eq_refl (or_introl eq_refl) HL (unreached _ _ _ R3)); reflexivity].
  rewrite reaches_spec in R3.
  destruct (BIND_ok _ _ _ _ _ class_b B2 eq_refl HL R3) as (l3 & f3 & -> & B3 & F3); cbn [lbind].
  destruct (reaches L target class_j) eqn:R4;
    [|rewrite (BIND_far _ _ _ _ _ class_j B3 eq_refl (or_intror eq_refl) HL (unreached _ _ _ R4)); reflexivity].
  rewrite reaches_spec in R4.
  destruct (BIND_ok _ _ _ _ _ class_j B3 eq_refl HL R4) as (l4 & f4 & -> & B4 & F4); cbn [lbind].
  destruct (BIND_ok _ _ _ _ _ class_far B4 eq_refl HL R5) as (l5 & f5 & -> & B5 & F5); cbn [lbind].
  apply (binding_done _ (fun _ => true)) in B5; [|intros []; reflexivity].
  destruct (BindTo_ok L target l5 _ B5 ltac:(lia)) as (l' & -> & Hl' & Hlk). cbn [lift lbind].
  exists l', f5. split; [reflexivity|]. split; [exact Hl'|]. split; [exact Hlk|]. split.
  - intros p s Hin. apply (b_resolved _ _ _ _ _ B5 (site_class s) eq_refl). apply in_of_class; auto.
  - apply (same_outside_trans _ _ _ _ F1), (same_outside_trans _ _ _ _ F2), (same_outside_trans _ _ _ _ F3).
    exact (same_outside_trans _ _ _ _ F4 F5).
Qed.

(** ** Theorems *)

(** A small function: a branch, a nop, a jump and a compressed branch to one label. *)
Definition done_or {A} (d : A) (r : label_result A) : A := match r with Done x => x | _ => d end.
Definition demo_branch : Label * Assembler :=
  done_or (new_label, asm_rva23) (EmitBranch A0 A1 new_label BNE kFarJump asm_rva23).
Definition demo_nop : Assembler := append (le_bytes 2 1) (snd demo_branch).
Definition demo_jump : Label * Assembler := done_or (new_label, asm_rva23) (EmitJump ZR (fst demo_branch) kFarJump demo_nop).
Definition demo_cbranch : Label * Assembler := done_or (new_label, asm_rva23) (c_beqz A2 (fst demo_jump) (snd demo_jump)).
Definition demo_refs : refs := [(10, SiteCB C_BEQZ A2); (6, SiteJ ZR); (0, SiteB A1 A0 BNE)].

Lemma demo_labelled : labelled demo_refs (fst demo_cbranch) (snd demo_cbranch).
Proof.
  change demo_refs with [(Position (snd demo_jump), SiteCB C_BEQZ A2); jump_ref ZR kFarJump demo_nop;
    branch_ref A0 A1 BNE kFarJump asm_rva23].
  apply (lab_beqz _ (fst demo_jump) (snd demo_jump)); [|reflexivity|reflexivity|reflexivity].
  apply (lab_jump _ (fst demo_branch) demo_nop); [|reflexivity|exact zr5|reflexivity].
  apply lab_emit; [|reflexivity].
  apply (lab_branch _ new_label asm_rva23); [apply lab_new; reflexivity|reflexivity| | |cbn; tauto|reflexivity];
    vm_compute; split; congruence.
Defined.

(**  In every state reached by emitting code and branches to a fresh label,
    the five unresolved lists of the label thread exactly the branches emitted,
    newest first, through their own offset fields; the branches do not overlap,
    lie inside the buffer and are aligned. *)
Theorem label_lists_invariant L l a : labelled L l a -> label_inv L l a.
Proof. exact (labelled_inv L l a). Qed.

Lemma label_lists_invariant_witness : label_inv demo_refs (fst demo_cbranch) (snd demo_cbranch).
Proof. apply label_lists_invariant, demo_labelled. Defined.



(**  When a B- or J-type branch does not reach, [Bind] reports the branch
    offset error that makes the function be assembled again with far branches. *)
Theorem Bind_asks_for_far_branches L l a :
  labelled L l a -> Position a < 2 ^ 31 -> near_reach L (Position a) ->
  reaches L (Position a) class_b && reaches L (Position a) class_j = false -> Bind l a = BranchOffsetError.
Proof.
  intros HL Hp Hn Hf. pose proof (Bind_ok L l a (labelled_inv _ _ _ HL) Hp Hn) as H. rewrite Hf in H. exact H.
Qed.

Lemma Bind_asks_for_far_branches_witness :
  Bind (fst demo_branch) (append (repeat 0 (Z.to_nat 4096)) (snd demo_branch)) = BranchOffsetError.
Proof.
  assert (Position (append (repeat 0 (Z.to_nat 4096)) (snd demo_branch)) = 4100) as E
    by (rewrite Position_append, repeat_length, Z2Nat.id; [reflexivity|lia]).
  apply (Bind_asks_for_far_branches [branch_ref A0 A1 BNE kFarJump asm_rva23]).
  - apply lab_emit; [|rewrite repeat_length, Z2Nat.id; [reflexivity|lia]].
    apply (lab_branch _ new_label asm_rva23); [apply lab_new; reflexivity|reflexivity| | |cbn; tauto|reflexivity];
      vm_compute; split; congruence.
  - rewrite E. reflexivity.
  - rewrite E. repeat split.
  - rewrite E. reflexivity.
Defined.


Definition asm_far : Assembler := MkAssembler [] RVA23 2 false kNone 0 0 0.
Definition demo_far : Label * Assembler := done_or (new_label, asm_far) (EmitBranch A0 A1 new_label BNE kFarJump asm_far).

