(* ===== verification/RvMemExec.v ===== *)
(** * Loads and stores on the simulator

    [RvExec] describes code that only changes registers; this file adds the
    process memory.  [executesM Q code R] says that from a state with direct
    memory whose pc and registers satisfy [Q], [code] relates registers and
    memory by [R].  Code that stores and goes on must not overwrite itself,
    which is what [Q] is for. *)

From Stdlib Require Import ZArith Lia ZifyBool Bool List.
From S2P Require Import Prelude Bits Utils RvEncoding RvEncodingProofs RvAlu SimMemory Outcome RvFloat RvSimulator RvAssembler RvExec RvCompressed RvAsmCorrect.
Import ListNotations.
Import MicroAssembler(Supports).

Abbreviation Regs := (Z -> Z).
Abbreviation MemRel := (Regs -> Host -> Regs -> Host -> Prop).

Definition direct (s : Simulator) : Prop := use_buffered_ (memory_ s) = false.
Definition hostm (s : Simulator) : Host := host (memory_ s).

(** [s'] is [s] after [n] instructions that moved the pc by [k] and changed
    only registers and process memory. *)
Record afterM (s : Simulator) (k : Z) (n : nat) (s' : Simulator) : Prop := mkAfterM {
  afterM_pc : pc_ s' = u64 (pc_ s + k);
  afterM_instret : u64 (instret_ s') = u64 (instret_ s + Z.of_nat n);
  afterM_direct : direct s';
  afterM_rest : s' = with_pc (with_instret (with_memory (with_xregs s (xregs_ s')) (memory_ s')) (instret_ s')) (pc_ s')
}.

Lemma afterM_trans s1 k1 n1 s2 k2 n2 s3 :
  afterM s1 k1 n1 s2 -> afterM s2 k2 n2 s3 -> afterM s1 (k1 + k2) (n1 + n2) s3.
Proof.
  intros [P1 I1 D1 R1] [P2 I2 D2 R2]; split.
  - rewrite P2, P1, uN_add_l; f_equal; lia.
  - rewrite I2, <- uN_add_l, I1, uN_add_l; f_equal; lia.
  - exact D2.
  - rewrite R2 at 1. rewrite R1 at 1. reflexivity.
Qed.

Lemma after_afterM s k n s' : direct s -> after s k n s' -> afterM s k n s'.
Proof.
  intros D A. pose proof (after_memory _ _ _ _ A) as M. destruct A as [P1 I1 R1]. split; try assumption.
  - unfold direct in *. rewrite M. exact D.
  - rewrite R1 at 1. rewrite M. destruct s; reflexivity.
Qed.

Section MemExec.
Context (P : Platform) (Hdebug : DEBUG P = false).

Definition executesM (Q : Z -> Regs -> Prop) (code : list Z) (R : MemRel) : Prop :=
  forall s, wf_regs (xregs_ s) -> direct s -> Q (pc_ s) (xregs_ s) -> code_at s code ->
  exists n s', run_in P (pc_ s) (pc_ s + Z.of_nat (length code)) n s = Ok s' /\ afterM s (Z.of_nat (length code)) n s' /\
    wf_regs (xregs_ s') /\ R (xregs_ s) (hostm s) (xregs_ s') (hostm s').

Definition anywhere : Z -> Regs -> Prop := fun _ _ => True.

Definition implementsM (a : Assembler) (emit : Assembler -> option Assembler) (R : MemRel) : Prop :=
  forall b, exists code, emit (with_buffer b a) = Some (append code (with_buffer b a)) /\ executesM anywhere code R.

(** Code that leaves memory alone. *)
Definition pure (R : Regs -> Regs -> Prop) : MemRel := fun r h r' h' => R r r' /\ h' = h.

Lemma executes_executesM Q code R : executes P code R -> executesM Q code (pure R).
Proof.
  intros E s W D _ C. destruct (E s W C) as (n & s' & Hr & A & W' & HR).
  exists n, s'. split; [exact Hr|]. split; [exact (after_afterM _ _ _ _ D A)|]. split; [exact W'|].
  split; [exact HR|]. unfold hostm. rewrite (after_memory _ _ _ _ A). reflexivity.
Qed.

(** What a piece of code may write without touching the code that follows it. *)
Definition spares (h h' : Host) (lo hi : Z) : Prop := forall x, lo <= x < hi -> h' x = h x.

Lemma code_at_app_rM s c1 c2 n s' : code_at s (c1 ++ c2) -> afterM s (Z.of_nat (length c1)) n s' ->
  spares (hostm s) (hostm s') (pc_ s + Z.of_nat (length c1)) (pc_ s + Z.of_nat (length (c1 ++ c2))) ->
  code_at s' c2 /\ pc_ s' = pc_ s + Z.of_nat (length c1).
Proof.
  intros (H0 & H1 & H2) A Sp. rewrite length_app in *.
  assert (Hpc : pc_ s' = pc_ s + Z.of_nat (length c1))
    by (rewrite (afterM_pc _ _ _ _ A), uN_small; [reflexivity|unfold is_uN; lia]).
  split; [|exact Hpc]. unfold code_at; rewrite Hpc. split; [lia|split; [lia|]].
  intros i b Hi. assert (i < length c2)%nat by (apply nth_error_Some; congruence).
  change (host (memory_ s')) with (hostm s'). rewrite Sp by lia.
  replace (pc_ s + Z.of_nat (length c1) + Z.of_nat i) with (pc_ s + Z.of_nat (length c1 + i)) by lia.
  apply H2. rewrite nth_error_app2 by lia. replace (length c1 + i - length c1)%nat with i by lia. exact Hi.
Qed.

Lemma executesM_app (Q Q1 Q2 : Z -> Regs -> Prop) c1 c2 (R1 R2 : MemRel) :
  executesM Q1 c1 R1 -> executesM Q2 c2 R2 ->
  (forall pc r h r' h', wf_regs r -> Q pc r -> 0 <= pc -> pc + Z.of_nat (length (c1 ++ c2)) < 2 ^ 64 ->
     Q1 pc r /\ (R1 r h r' h' -> Q2 (pc + Z.of_nat (length c1)) r' /\
       spares h h' (pc + Z.of_nat (length c1)) (pc + Z.of_nat (length (c1 ++ c2))))) ->
  executesM Q (c1 ++ c2) (fun r h r' h' => exists m k, wf_regs m /\ R1 r h m k /\ R2 m k r' h').
Proof.
  intros E1 E2 HQ s W D Hq C. pose proof C as (Hpc0 & Hpc1 & _).
  destruct (E1 s W D) as (n1 & s1 & Hr1 & A1 & W1 & HR1).
  { apply (HQ _ _ (hostm s) (xregs_ s) (hostm s)); assumption. }
  { exact (code_at_app_l _ _ _ C). }
  destruct (proj2 (HQ _ _ (hostm s) (xregs_ s1) (hostm s1) W Hq Hpc0 Hpc1) HR1) as [Hq2 Sp].
  destruct (code_at_app_rM _ _ _ _ _ C A1 Sp) as [C2 Hpc]. rewrite <- Hpc in Hq2.
  destruct (E2 s1 W1 (afterM_direct _ _ _ _ A1) Hq2 C2) as (n2 & s2 & Hr2 & A2 & W2 & HR2).
  exists (n1 + n2)%nat, s2. split; [exact (run_in_seq P _ _ _ _ _ _ _ Hpc Hr1 Hr2)|].
  rewrite length_app, Nat2Z.inj_add. split; [exact (afterM_trans _ _ _ _ _ _ _ A1 A2)|].
  split; [exact W2|]. exists (xregs_ s1), (hostm s1); auto.
Qed.

Lemma executesM_weaken (Q Q' : Z -> Regs -> Prop) c (R R' : MemRel) :
  (forall pc r, Q' pc r -> Q pc r) -> (forall r h r' h', wf_regs r -> wf_regs r' -> R r h r' h' -> R' r h r' h') ->
  executesM Q c R -> executesM Q' c R'.
Proof.
  intros HQ HR E s W D Hq C. destruct (E s W D (HQ _ _ Hq) C) as (n & s' & Hr & A & W' & H).
  exists n, s'; auto.
Qed.

(** ** One memory instruction *)

Definition loads (rd : Z) (signed : bool) (n : Z) (addr : Regs -> Z) : MemRel :=
  fun r h r' h' => h' = h /\ writes rd (fun r => as_type signed n (LoadLE (Z.to_nat n) h (u64 (addr r)))) r r'.

Definition stores (n : Z) (addr v : Regs -> Z) : MemRel :=
  fun r h r' h' => h' = StoreLE n h (u64 (addr r)) (v r) /\ forall x, r' x = r x.

Lemma load_xreg_direct signed n s rd a base : direct s ->
  load_xreg P signed n s rd a base = Ok (set_xreg s rd (as_type signed n (LoadLE (Z.to_nat n) (hostm s) a))).
Proof.
  intros D. unfold load_xreg, MemoryRead, CheckAccess, Memory.Load. rewrite Hdebug. cbn [negb].
  unfold direct in D. rewrite D. cbn [bind]. destruct s; reflexivity.
Qed.

Lemma MemoryWrite_direct n s a v base : direct s ->
  MemoryWrite P n s a v base =
    Ok (with_memory s (mkMemory false (StoreLE n (hostm s) a v) (SimMemory.buffer_ (memory_ s)))).
Proof.
  intros D. unfold MemoryWrite, CheckAccess, Memory.Store, Memory.with_state. rewrite Hdebug. cbn [negb].
  unfold direct in D. rewrite D. reflexivity.
Qed.

Lemma executesM_load k e rd signed n addr base (interp : Simulator -> outcome Simulator) :
  (forall s, code_at s (le_bytes (S k) e) ->
     step P s = let! s := interp s in Ok (with_instret s (u64 (instret_ s + 1)))) ->
  (forall s, interp s = then_advance (load_xreg P signed n s rd (u64 (addr (xregs_ s))) base) (Z.of_nat (S k))) ->
  executesM anywhere (le_bytes (S k) e) (loads rd signed n addr).
Proof.
  intros Hstep Hint s W D _ C. pose proof (Hstep s C) as St. rewrite Hint, (load_xreg_direct _ _ _ _ _ _ D) in St.
  cbn [then_advance bind] in St. rewrite set_xreg_with in St. rewrite length_le_bytes.
  eexists 1%nat, _. split; [exact (run_in_1 P (S k) _ _ ltac:(lia) St)|]. split; [|split].
  - split; [reflexivity|cbn; apply uN_uN|exact D|destruct s; reflexivity].
  - cbn; apply wf_set_reg, W.
  - split; [reflexivity|]. intros x; reflexivity.
Qed.

Lemma executesM_store k e n addr v base (interp : Simulator -> outcome Simulator) :
  (forall s, code_at s (le_bytes (S k) e) ->
     step P s = let! s := interp s in Ok (with_instret s (u64 (instret_ s + 1)))) ->
  (forall s, interp s = then_advance (MemoryWrite P n s (u64 (addr (xregs_ s))) (v (xregs_ s)) base) (Z.of_nat (S k))) ->
  executesM anywhere (le_bytes (S k) e) (stores n addr v).
Proof.
  intros Hstep Hint s W D _ C. pose proof (Hstep s C) as St. rewrite Hint, (MemoryWrite_direct _ _ _ _ _ D) in St.
  cbn [then_advance bind] in St. rewrite length_le_bytes.
  eexists 1%nat, _. split; [exact (run_in_1 P (S k) _ _ ltac:(lia) St)|]. split; [|split].
  - split; [reflexivity|cbn; apply uN_uN|reflexivity|destruct s; reflexivity].
  - exact W.
  - split; [reflexivity|]. intros x; reflexivity.
Qed.

End MemExec.
