(* ===== verification/RvMemProofs.v ===== *)
(** * Loads and stores

    Each load and store emitter, in its 16- and 32-bit forms, reads or writes
    process memory at [base + offset]. *)

From Stdlib Require Import ZArith Lia ZifyBool Bool List.
From S2P Require Import Prelude Bits Utils RvEncoding RvEncodingProofs RvAlu SimMemory Outcome RvFloat RvSimulator RvAssembler RvExec RvCompressed RvAsmCorrect RvLabels RvMacros RvMacroProofs RvMemExec.
Import ListNotations.
Import MicroAssembler(Supports).

Lemma implementsM_emit P a (emit emit' : Assembler -> option Assembler) R :
  (forall b, emit (with_buffer b a) = emit' (with_buffer b a)) -> implementsM P a emit' R -> implementsM P a emit R.
Proof. intros H I b; rewrite H; apply I. Qed.

Lemma implementsM_if P a (c : bool) emit e1 e2 R :
  (forall b, emit (with_buffer b a) = if c then e1 (with_buffer b a) else e2 (with_buffer b a)) ->
  (c = true -> implementsM P a e1 R) -> (c = false -> implementsM P a e2 R) -> implementsM P a emit R.
Proof. intros H I1 I2 b; rewrite H; destruct c; [apply I1|apply I2]; reflexivity. Qed.

(** [emit_if] and [open_emitter] of [RvCompressed] for memory instructions. *)
Ltac emit_ifM a :=
  eapply implementsM_if;
  [let b := fresh "b" in intros b; open_head;
   match goal with
   | |- (if ?c then ?x else ?y) = (if ?c0 then ?e1 _ else ?e2 _) =>
       unify c0 c;
       match eval pattern (with_buffer b a) in x with ?fx _ => unify e1 fx end;
       match eval pattern (with_buffer b a) in y with ?fy _ => unify e2 fy end;
       reflexivity
   end
  |let G := fresh "G" in intros G; learn_bools
  |let G := fresh "G" in intros G].
Ltac open_emitterM a :=
  eapply implementsM_emit; [let b := fresh "b" in intros b; open_head; c_encode; reflexivity|].

Section Mem.
Context (P : Platform) (Hdebug : DEBUG P = false).

Abbreviation implementsM := (RvMemExec.implementsM P).

Lemma Interpret_LOAD s e : Instr.opcode e = LOAD -> Interpret P s e = InterpretLOAD P s e.
Proof. intros H; unfold Interpret; rewrite H; reflexivity. Qed.
Lemma Interpret_STORE s e : Instr.opcode e = STORE -> Interpret P s e = InterpretSTORE P s e.
Proof. intros H; unfold Interpret; rewrite H; reflexivity. Qed.

(** ** 32-bit forms *)

Definition load_widths : list (Z * bool * Z) :=
  [(LB : Z, true, 1); (LH : Z, true, 2); (LW : Z, true, 4); (LBU : Z, false, 1); (LHU : Z, false, 2);
   (LWU : Z, false, 4); (LD : Z, true, 8)].
Definition store_widths : list (Z * Z) := [(SB : Z, 1); (SH : Z, 2); (SW : Z, 4); (SD : Z, 8)].

Lemma load_32 a f signed n rd base off : In (f, signed, n) load_widths -> is_uN 5 rd -> is_uN 5 base ->
  IsITypeImm off = true ->
  implementsM a (MicroAssembler.EmitIType off base f rd LOAD) (loads rd signed n (fun r => r base + off)).
Proof.
  intros Hin Hrd Hb Ho b.
  assert (is_uN 3 f) by (cbn [load_widths In] in Hin; repeat (destruct Hin as [[= <- <- <-]|Hin]; [vm_compute; split; congruence|]); destruct Hin).
  destruct (EmitIType_spec off base f rd LOAD (with_buffer b a)) as (e & He & [Hw Hl Hop Hrd' Hrs Hf Hi]);
    try assumption; [vm_compute; split; congruence|].
  eexists; split; [exact He|]. eapply (executesM_load P Hdebug 3 e rd signed n (fun r => r base + off) base (fun s => Interpret P s e)).
  - intros s C. apply step_32; [exact Hw|rewrite Hl; reflexivity|exact C].
  - intros s. rewrite Interpret_LOAD by exact Hop. unfold InterpretLOAD, get_xreg. rewrite Hf, Hrs, Hrd', Hi.
    cbn [load_widths In] in Hin. repeat (destruct Hin as [[= <- <- <-]|Hin]; [reflexivity|]). destruct Hin.
Qed.

Lemma store_32 a f n rs2 base off : In (f, n) store_widths -> is_uN 5 rs2 -> is_uN 5 base -> IsSTypeImm off = true ->
  implementsM a (MicroAssembler.EmitSType off rs2 base f STORE) (stores n (fun r => r base + off) (fun r => r rs2)).
Proof.
  intros Hin Hrs Hb Ho b.
  assert (is_uN 3 f) by (cbn [store_widths In] in Hin; repeat (destruct Hin as [[= <- <-]|Hin]; [vm_compute; split; congruence|]); destruct Hin).
  destruct (EmitSType_spec off rs2 base f STORE (with_buffer b a)) as (e & He & [Hw Hl Hop Hrs1 Hrs2 Hf Hi]);
    try assumption; [vm_compute; split; congruence|].
  eexists; split; [exact He|].
  eapply (executesM_store P Hdebug 3 e n (fun r => r base + off) (fun r => r rs2) base (fun s => Interpret P s e)).
  - intros s C. apply step_32; [exact Hw|rewrite Hl; reflexivity|exact C].
  - intros s. rewrite Interpret_STORE by exact Hop. unfold InterpretSTORE, get_xreg. rewrite Hf, Hrs1, Hrs2, Hi.
    cbn [store_widths In] in Hin. repeat (destruct Hin as [[= <- <-]|Hin]; [reflexivity|]). destruct Hin.
Qed.

(** ** 16-bit forms *)

Lemma load_16 a w rd signed n base off :
  (u16 w .& 3 =? 3) = false ->
  (forall s, Interpret_C P s (u16 w) = then_advance (load_xreg P signed n s rd (u64 (xregs_ s base + off)) base) 2) ->
  implementsM a (MicroAssembler.Emit16 (Some w)) (loads rd signed n (fun r => r base + off)).
Proof.
  intros H3 H b; exists (le_bytes 2 (u16 w)); split; [reflexivity|].
  eapply (executesM_load P Hdebug 1 (u16 w) rd signed n (fun r => r base + off) base (fun s => Interpret_C P s (u16 w))); [|exact H].
  intros s C. apply step_16; [apply uN_range; lia|apply Z.eqb_neq, H3|exact C].
Qed.

Lemma store_16 a w rs2 n base off :
  (u16 w .& 3 =? 3) = false ->
  (forall s, Interpret_C P s (u16 w) = then_advance (MemoryWrite P n s (u64 (xregs_ s base + off)) (xregs_ s rs2) base) 2) ->
  implementsM a (MicroAssembler.Emit16 (Some w)) (stores n (fun r => r base + off) (fun r => r rs2)).
Proof.
  intros H3 H b; exists (le_bytes 2 (u16 w)); split; [reflexivity|].
  eapply (executesM_store P Hdebug 1 (u16 w) n (fun r => r base + off) (fun r => r rs2) base (fun s => Interpret_C P s (u16 w))); [|exact H].
  intros s C. apply step_16; [apply uN_range; lia|apply Z.eqb_neq, H3|exact C].
Qed.

(** Opens a compressed emitter whose immediate encoder is [enc]; [e] is the word. *)
Ltac c_mem enc guard e :=
  learn_primes;
  eapply implementsM_emit;
  [let b := fresh "b" in intros b; open_head; cbn [offset RvAssembler.base]; unfold enc; eval_guards; c_encode; reflexivity|];
  match goal with H : guard ?o = true |- _ => unfold guard in H end; learn_guard;
  match goal with |- RvMemExec.implementsM _ _ (MicroAssembler.Emit16 (Some ?w)) _ => set (e := w) end.
Ltac c_word e := subst e; first [c_prime|c_field].

(** The access of a word [e] with opcode [op]: the data register [d] is read by
    [dacc], the immediate [o] by [acc]; [apply_it] is the lemma for loads or stores. *)
Ltac c_access e low op dacc d acc o apply_it :=
  assert (CInstr.opcode (u16 e) = COpcode_value op) as Hop by c_word e;
  assert (dacc (u16 e) = d) as Hdt by c_word e;
  assert (acc (u16 e) = o) as Hi by c_word e;
  apply apply_it; [subst e; low_bits low|];
  let s := fresh "s" in intros s; unfold Interpret_C, InterpretC_LBU, get_xreg; rewrite Hop, Hdt, Hi.

(** The same with the base in a popular register. *)
Ltac c_access_p e op dacc d acc b o apply_it :=
  assert (CInstr.rs1p (u16 e) = b) as Hbs by c_word e;
  c_access e 0 op dacc d acc o apply_it; rewrite Hbs.

Lemma c_ld_ok a rd base off : Supports a RV_C = true -> IsCRdp rd = true -> IsCRs1p base = true ->
  IsCMem8Imm off = true -> implementsM a (MicroAssembler.c_ld rd (MkAddress base off)) (loads rd true 8 (fun r => r base + off)).
Proof.
  intros HC Hd Hb Ho. c_mem EncodeCMem8Imm IsCMem8Imm e.
  c_access_p e C_LD CInstr.rdp rd CInstr.mem8_imm base off load_16. reflexivity.
Qed.

Lemma c_lw_ok a rd base off : Supports a RV_C = true -> IsCRdp rd = true -> IsCRs1p base = true ->
  IsCMem4Imm off = true -> implementsM a (MicroAssembler.c_lw rd (MkAddress base off)) (loads rd true 4 (fun r => r base + off)).
Proof.
  intros HC Hd Hb Ho. c_mem EncodeCMem4Imm IsCMem4Imm e.
  c_access_p e C_LW CInstr.rdp rd CInstr.mem4_imm base off load_16. reflexivity.
Qed.

Lemma c_sd_ok a rs2 base off : Supports a RV_C = true -> IsCRs2p rs2 = true -> IsCRs1p base = true ->
  IsCMem8Imm off = true -> implementsM a (MicroAssembler.c_sd rs2 (MkAddress base off)) (stores 8 (fun r => r base + off) (fun r => r rs2)).
Proof.
  intros HC Hd Hb Ho. c_mem EncodeCMem8Imm IsCMem8Imm e.
  c_access_p e C_SD CInstr.rs2p rs2 CInstr.mem8_imm base off store_16. reflexivity.
Qed.

Lemma c_sw_ok a rs2 base off : Supports a RV_C = true -> IsCRs2p rs2 = true -> IsCRs1p base = true ->
  IsCMem4Imm off = true -> implementsM a (MicroAssembler.c_sw rs2 (MkAddress base off)) (stores 4 (fun r => r base + off) (fun r => r rs2)).
Proof.
  intros HC Hd Hb Ho. c_mem EncodeCMem4Imm IsCMem4Imm e.
  c_access_p e C_SW CInstr.rs2p rs2 CInstr.mem4_imm base off store_16. reflexivity.
Qed.

Lemma c_lbu_ok a rd base off : Supports a RV_Zcb = true -> IsCRdp rd = true -> IsCRs1p base = true ->
  IsCMem1Imm off = true -> implementsM a (MicroAssembler.c_lbu rd (MkAddress base off)) (loads rd false 1 (fun r => r base + off)).
Proof.
  intros HC Hd Hb Ho. c_mem EncodeCMem1Imm IsCMem1Imm e.
  assert (u16 e .& 0xFC03 = C_LBU) as Hsub by c_word e.
  c_access_p e C_LBU CInstr.rdp rd CInstr.mem1_imm base off load_16. rewrite Hsub. reflexivity.
Qed.

Lemma c_lhu_ok a rd base off : Supports a RV_Zcb = true -> IsCRdp rd = true -> IsCRs1p base = true ->
  IsCMem2Imm off = true -> implementsM a (MicroAssembler.c_lhu rd (MkAddress base off)) (loads rd false 2 (fun r => r base + off)).
Proof.
  intros HC Hd Hb Ho. pose proof (IsCMem2Imm_CMem1 off Ho). c_mem EncodeCMem2Imm IsCMem2Imm e.
  assert (u16 e .& 0xFC03 = C_LHU) as Hsub by c_word e. assert (u16 e .& 0x40 = 0) as Hbit by c_word e.
  c_access_p e C_LBU CInstr.rdp rd CInstr.mem2_imm base off load_16. rewrite Hsub, Hbit. reflexivity.
Qed.

Lemma c_lh_ok a rd base off : Supports a RV_Zcb = true -> IsCRdp rd = true -> IsCRs1p base = true ->
  IsCMem2Imm off = true -> implementsM a (MicroAssembler.c_lh rd (MkAddress base off)) (loads rd true 2 (fun r => r base + off)).
Proof.
  intros HC Hd Hb Ho. pose proof (IsCMem2Imm_CMem1 off Ho). c_mem EncodeCMem2Imm IsCMem2Imm e.
  assert (u16 e .& 0xFC03 = C_LHU) as Hsub by c_word e. assert (u16 e .& 0x40 = 0x40) as Hbit by c_word e.
  c_access_p e C_LBU CInstr.rdp rd CInstr.mem2_imm base off load_16. rewrite Hsub, Hbit. reflexivity.
Qed.

Lemma c_sb_ok a rs2 base off : Supports a RV_Zcb = true -> IsCRs2p rs2 = true -> IsCRs1p base = true ->
  IsCMem1Imm off = true -> implementsM a (MicroAssembler.c_sb rs2 (MkAddress base off)) (stores 1 (fun r => r base + off) (fun r => r rs2)).
Proof.
  intros HC Hd Hb Ho. c_mem EncodeCMem1Imm IsCMem1Imm e.
  assert (u16 e .& 0xFC03 = C_SB) as Hsub by c_word e.
  c_access_p e C_LBU CInstr.rs2p rs2 CInstr.mem1_imm base off store_16. rewrite Hsub. reflexivity.
Qed.

Lemma c_sh_ok a rs2 base off : Supports a RV_Zcb = true -> IsCRs2p rs2 = true -> IsCRs1p base = true ->
  IsCMem2Imm off = true -> implementsM a (MicroAssembler.c_sh rs2 (MkAddress base off)) (stores 2 (fun r => r base + off) (fun r => r rs2)).
Proof.
  intros HC Hd Hb Ho. pose proof (IsCMem2Imm_CMem1 off Ho). c_mem EncodeCMem2Imm IsCMem2Imm e.
  assert (u16 e .& 0xFC03 = C_SH) as Hsub by c_word e.
  c_access_p e C_LBU CInstr.rs2p rs2 CInstr.mem2_imm base off store_16. rewrite Hsub. reflexivity.
Qed.

Lemma c_ldsp_ok a rd off : Supports a RV_C = true -> is_uN 5 rd -> (rd =? ZR) = false -> IsCSPLoad8Imm off = true ->
  implementsM a (MicroAssembler.c_ldsp rd (MkAddress SP off)) (loads rd true 8 (fun r => r SP + off)).
Proof.
  intros HC Hd Hn Ho. c_mem EncodeCSPLoad8Imm IsCSPLoad8Imm e.
  c_access e 2 C_LDSP CInstr.rd rd CInstr.spload8_imm off load_16. reflexivity.
Qed.

Lemma c_lwsp_ok a rd off : Supports a RV_C = true -> is_uN 5 rd -> (rd =? ZR) = false -> IsCSPLoad4Imm off = true ->
  implementsM a (MicroAssembler.c_lwsp rd (MkAddress SP off)) (loads rd true 4 (fun r => r SP + off)).
Proof.
  intros HC Hd Hn Ho. c_mem EncodeCSPLoad4Imm IsCSPLoad4Imm e.
  c_access e 2 C_LWSP CInstr.rd rd CInstr.spload4_imm off load_16. reflexivity.
Qed.

Lemma c_sdsp_ok a rs2 off : Supports a RV_C = true -> is_uN 5 rs2 -> IsCSPStore8Imm off = true ->
  implementsM a (MicroAssembler.c_sdsp rs2 (MkAddress SP off)) (stores 8 (fun r => r SP + off) (fun r => r rs2)).
Proof.
  intros HC Hd Ho. c_mem EncodeCSPStore8Imm IsCSPStore8Imm e.
  c_access e 2 C_SDSP CInstr.rs2 rs2 CInstr.spstore8_imm off store_16. reflexivity.
Qed.

Lemma c_swsp_ok a rs2 off : Supports a RV_C = true -> is_uN 5 rs2 -> IsCSPStore4Imm off = true ->
  implementsM a (MicroAssembler.c_swsp rs2 (MkAddress SP off)) (stores 4 (fun r => r SP + off) (fun r => r rs2)).
Proof.
  intros HC Hd Ho. c_mem EncodeCSPStore4Imm IsCSPStore4Imm e.
  c_access e 2 C_SWSP CInstr.rs2 rs2 CInstr.spstore4_imm off store_16. reflexivity.
Qed.

(** ** The load and store instructions *)

Lemma lb_ok a rd base off : Supports a RV_I = true -> is_uN 5 rd -> is_uN 5 base -> IsITypeImm off = true ->
  implementsM a (MicroAssembler.lb rd (MkAddress base off)) (loads rd true 1 (fun r => r base + off)).
Proof.
  intros HI Hd Hb Ho.
  open_emitterM a. apply load_32; [cbn; tauto|assumption..].
Qed.
Lemma lh_ok a rd base off : Supports a RV_I = true -> is_uN 5 rd -> is_uN 5 base -> IsITypeImm off = true ->
  implementsM a (MicroAssembler.lh rd (MkAddress base off)) (loads rd true 2 (fun r => r base + off)).
Proof.
  intros HI Hd Hb Ho.
  emit_ifM a; [cbn [RvAssembler.base offset] in *; subst; apply c_lh_ok; assumption|].
  open_emitterM a. apply load_32; [cbn; tauto|assumption..].
Qed.
Lemma lw_ok a rd base off : Supports a RV_I = true -> is_uN 5 rd -> is_uN 5 base -> IsITypeImm off = true ->
  implementsM a (MicroAssembler.lw rd (MkAddress base off)) (loads rd true 4 (fun r => r base + off)).
Proof.
  intros HI Hd Hb Ho.
  emit_ifM a; [cbn [RvAssembler.base offset] in *; subst; apply c_lwsp_ok; assumption|].
  emit_ifM a; [cbn [RvAssembler.base offset] in *; subst; apply c_lw_ok; assumption|].
  open_emitterM a. apply load_32; [cbn; tauto|assumption..].
Qed.
Lemma lbu_ok a rd base off : Supports a RV_I = true -> is_uN 5 rd -> is_uN 5 base -> IsITypeImm off = true ->
  implementsM a (MicroAssembler.lbu rd (MkAddress base off)) (loads rd false 1 (fun r => r base + off)).
Proof.
  intros HI Hd Hb Ho.
  emit_ifM a; [cbn [RvAssembler.base offset] in *; subst; apply c_lbu_ok; assumption|].
  open_emitterM a. apply load_32; [cbn; tauto|assumption..].
Qed.
Lemma lhu_ok a rd base off : Supports a RV_I = true -> is_uN 5 rd -> is_uN 5 base -> IsITypeImm off = true ->
  implementsM a (MicroAssembler.lhu rd (MkAddress base off)) (loads rd false 2 (fun r => r base + off)).
Proof.
  intros HI Hd Hb Ho.
  emit_ifM a; [cbn [RvAssembler.base offset] in *; subst; apply c_lhu_ok; assumption|].
  open_emitterM a. apply load_32; [cbn; tauto|assumption..].
Qed.
Lemma lwu_ok a rd base off : Supports a RV_I = true -> is_uN 5 rd -> is_uN 5 base -> IsITypeImm off = true ->
  implementsM a (MicroAssembler.lwu rd (MkAddress base off)) (loads rd false 4 (fun r => r base + off)).
Proof.
  intros HI Hd Hb Ho.
  open_emitterM a. apply load_32; [cbn; tauto|assumption..].
Qed.
Lemma ld_ok a rd base off : Supports a RV_I = true -> is_uN 5 rd -> is_uN 5 base -> IsITypeImm off = true ->
  implementsM a (MicroAssembler.ld rd (MkAddress base off)) (loads rd true 8 (fun r => r base + off)).
Proof.
  intros HI Hd Hb Ho.
  emit_ifM a; [cbn [RvAssembler.base offset] in *; subst; apply c_ldsp_ok; assumption|].
  emit_ifM a; [cbn [RvAssembler.base offset] in *; subst; apply c_ld_ok; assumption|].
  open_emitterM a. apply load_32; [cbn; tauto|assumption..].
Qed.
Lemma sb_ok a rs2 base off : Supports a RV_I = true -> is_uN 5 rs2 -> is_uN 5 base -> IsSTypeImm off = true ->
  implementsM a (MicroAssembler.sb rs2 (MkAddress base off)) (stores 1 (fun r => r base + off) (fun r => r rs2)).
Proof.
  intros HI Hd Hb Ho.
  emit_ifM a; [cbn [RvAssembler.base offset] in *; subst; apply c_sb_ok; assumption|].
  open_emitterM a. apply store_32; [cbn; tauto|assumption..].
Qed.
Lemma sh_ok a rs2 base off : Supports a RV_I = true -> is_uN 5 rs2 -> is_uN 5 base -> IsSTypeImm off = true ->
  implementsM a (MicroAssembler.sh rs2 (MkAddress base off)) (stores 2 (fun r => r base + off) (fun r => r rs2)).
Proof.
  intros HI Hd Hb Ho.
  emit_ifM a; [cbn [RvAssembler.base offset] in *; subst; apply c_sh_ok; assumption|].
  open_emitterM a. apply store_32; [cbn; tauto|assumption..].
Qed.
Lemma sw_ok a rs2 base off : Supports a RV_I = true -> is_uN 5 rs2 -> is_uN 5 base -> IsSTypeImm off = true ->
  implementsM a (MicroAssembler.sw rs2 (MkAddress base off)) (stores 4 (fun r => r base + off) (fun r => r rs2)).
Proof.
  intros HI Hd Hb Ho.
  emit_ifM a; [cbn [RvAssembler.base offset] in *; subst; apply c_swsp_ok; assumption|].
  emit_ifM a; [cbn [RvAssembler.base offset] in *; subst; apply c_sw_ok; assumption|].
  open_emitterM a. apply store_32; [cbn; tauto|assumption..].
Qed.
Lemma sd_ok a rs2 base off : Supports a RV_I = true -> is_uN 5 rs2 -> is_uN 5 base -> IsSTypeImm off = true ->
  implementsM a (MicroAssembler.sd rs2 (MkAddress base off)) (stores 8 (fun r => r base + off) (fun r => r rs2)).
Proof.
  intros HI Hd Hb Ho.
  emit_ifM a; [cbn [RvAssembler.base offset] in *; subst; apply c_sdsp_ok; assumption|].
  emit_ifM a; [cbn [RvAssembler.base offset] in *; subst; apply c_sd_ok; assumption|].
  open_emitterM a. apply store_32; [cbn; tauto|assumption..].
Qed.

End Mem.

(** ** The load and store emitters *)

Record LoadInstruction := mkLoad { l_emit : Z -> Address -> Assembler -> option Assembler; l_signed : bool; l_size : Z }.
Record StoreInstruction := mkStore { s_emit : Z -> Address -> Assembler -> option Assembler; s_size : Z }.

Definition load_instructions : list LoadInstruction :=
  [mkLoad MicroAssembler.lb true 1; mkLoad MicroAssembler.lh true 2; mkLoad MicroAssembler.lw true 4;
   mkLoad MicroAssembler.ld true 8; mkLoad MicroAssembler.lbu false 1; mkLoad MicroAssembler.lhu false 2;
   mkLoad MicroAssembler.lwu false 4].

Definition store_instructions : list StoreInstruction :=
  [mkStore MicroAssembler.sb 1; mkStore MicroAssembler.sh 2; mkStore MicroAssembler.sw 4; mkStore MicroAssembler.sd 8].


