(* ===== verification/RvStackProofs.v ===== *)
(** The stack macros of [Assembler] (push and pop of a register, of a pair, of a list) against the simulator: where the
    registers land in memory, that nothing else of memory changes, and that a pop undoes a push. *)
From Stdlib Require Import ZArith Lia ZifyBool Bool List.
From S2P Require Import Prelude Bits Utils RvEncoding RvEncodingProofs RvAlu SimMemory Outcome RvFloat RvSimulator RvAssembler RvExec RvCompressed RvAsmCorrect RvLabels RvMacros RvMacroProofs RvMemExec.
From S2P Require Import RvMemProofs.
Import ListNotations.
Import MicroAssembler(Supports).

Section Stack.
Context (P : Platform) (Hdebug : DEBUG P = false).

(** ** Pushing registers *)

(** No byte of the code from [pc + k1] to [pc + k2] is among the [n] bytes at [addr]. *)
Definition clear (n : Z) (addr : Regs -> Z) (k1 k2 : Z) (pc : Z) (r : Regs) : Prop :=
  forall x, pc + k1 <= x < pc + k2 -> n <= u64 (x - u64 (addr r)).

Lemma StoreLE_spares n h a v lo hi : (forall x, lo <= x < hi -> n <= u64 (x - a)) -> spares h (StoreLE n h a v) lo hi.
Proof. intros H x Hx. unfold StoreLE. destruct (Z.ltb_spec (u64 (x - a)) n); [specialize (H x Hx); lia|reflexivity]. Qed.

(** A slot inside a clear area is clear. *)
Lemma slot_clear n base o m x : 0 <= o -> 0 <= m -> o + m <= n -> n < 2 ^ 64 ->
  n <= u64 (x - u64 base) -> m <= u64 (x - u64 (base + o)).
Proof.
  intros Ho Hm Hn Hw. rewrite !uN_sub_r. replace (x - (base + o)) with (x - base - o) by lia.
  set (d := x - base). rewrite <- (uN_sub_l 64 d). pose proof (uN_range 64 d ltac:(lia)) as Hd. intros H.
  rewrite uN_small; unfold is_uN in *; lia.
Qed.

Lemma clear_slot n base k1 k2 o m pc r : 0 <= o -> 0 <= m -> o + m <= n -> n < 2 ^ 64 -> clear n base k1 k2 pc r ->
  clear m (fun r => base r + o) k1 k2 pc r.
Proof. intros Ho Hm Hn Hw C x Hx. apply (slot_clear n); auto. Qed.

Definition same (r r' : Regs) : Prop := forall x, r' x = r x.

(** ** Sequences *)

(** The first part leaves memory alone. *)
Lemma executesM_app_kept Q Q2 c1 c2 (R1 R2 : MemRel) : executesM P anywhere c1 R1 -> executesM P Q2 c2 R2 ->
  (forall r h r' h', R1 r h r' h' -> h' = h) ->
  (forall pc r r' h h', wf_regs r -> Q pc r -> R1 r h r' h' -> Q2 (pc + Z.of_nat (length c1)) r') ->
  executesM P Q (c1 ++ c2) (fun r h r' h' => exists m, wf_regs m /\ R1 r h m h /\ R2 m h r' h').
Proof.
  intros X1 X2 Hh HQ. eapply executesM_weaken; [intros pc r H; exact H| |
    refine (executesM_app P Hdebug Q anywhere Q2 c1 c2 R1 R2 X1 X2 _)].
  - intros r h r' h' _ _ (m & k & W & H1 & H2). pose proof (Hh _ _ _ _ H1); subst k. exists m; auto.
  - intros pc r h r' h' W Hq _ _. split; [exact I|]. intros H1. split; [exact (HQ _ _ _ _ _ W Hq H1)|].
    rewrite (Hh _ _ _ _ H1). intros x _; reflexivity.
Qed.

(** The first part is a store out of the way of the second. *)
Lemma executesM_app_store Q Q2 c1 c2 n addr v (R2 : MemRel) : executesM P anywhere c1 (stores n addr v) -> executesM P Q2 c2 R2 ->
  (forall pc r r', wf_regs r -> Q pc r -> same r r' ->
     clear n addr 0 (Z.of_nat (length (c1 ++ c2))) pc r /\ Q2 (pc + Z.of_nat (length c1)) r') ->
  executesM P Q (c1 ++ c2)
    (fun r h r' h' => exists m, wf_regs m /\ same r m /\ R2 m (StoreLE n h (u64 (addr r)) (v r)) r' h').
Proof.
  intros X1 X2 HQ. eapply executesM_weaken; [intros pc r H; exact H| |
    refine (executesM_app P Hdebug Q anywhere Q2 c1 c2 _ R2 X1 X2 _)].
  - cbv beta. intros r h r' h' _ _ (m & k & W & (-> & H1) & H2). exists m; auto.
  - intros pc r h r' h' W Hq H0 Hlen. split; [exact I|]. intros [-> Hs]. destruct (HQ _ _ _ W Hq Hs) as [Hc Hq2].
    split; [exact Hq2|]. apply StoreLE_spares. intros x Hx. apply Hc; lia.
Qed.

(** ** Pushing a list *)

(** The memory after storing [regs] downwards from [r SP + off]. *)
Fixpoint stores_down (regs : list Z) (off : Z) (r : Regs) (h : Host) : Host :=
  match regs with
  | [] => h
  | reg :: regs => stores_down regs (off - 8) r (StoreLE 8 h (u64 (r SP + (off - 8))) (r reg))
  end.

Lemma stores_down_ext regs : forall off r r' h, same r r' -> stores_down regs off r' h = stores_down regs off r h.
Proof. induction regs as [|reg regs IH]; intros off r r' h E; [reflexivity|]. cbn [stores_down]. rewrite !E. apply IH, E. Qed.

Definition pushable (regs : list Z) : Prop := Forall (fun reg => is_uN 5 reg /\ reg <> SP) regs.

Lemma sp5 : is_uN 5 SP.
Proof. vm_compute; split; congruence. Qed.

Lemma sp_nonzero : Register_value SP <> 0.
Proof. discriminate. Qed.

Lemma push_offset off : 0 <= off < 2048 -> IsSTypeImm off = true /\ IsITypeImm off = true.
Proof. intros H. split; apply IsInt_spec; (lia || (unfold is_sN; lia)). Qed.

Lemma PushRegistersInOrder_loop_ok a : Supports a RV_I = true -> forall regs off b, pushable regs ->
  off = 8 * Z.of_nat (length regs) -> off <= 2048 ->
  exists code, PushRegistersInOrder_loop regs off (with_buffer b a) = Some (append code (with_buffer b a)) /\
    executesM P (clear off (fun r => r SP) 0 (Z.of_nat (length code))) code
      (fun r h r' h' => same r r' /\ h' = stores_down regs off r h).
Proof.
  intros HI. induction regs as [|reg regs IH]; intros off b HF Hoff Hlim.
  - exists []. split; [unfold append, with_buffer; cbn; rewrite app_nil_r; reflexivity|].
    apply (executesM_weaken P anywhere _ [] (pure (fun r r' => same r r'))); [intros; exact I|intros; exact H1|].
    apply executes_executesM, executes_nil. intros r _ x; reflexivity.
  - apply Forall_cons_iff in HF as ((Hr & Hn) & HF). cbn [length] in Hoff.
    assert (0 <= off - 8 < 2048) as Ho by lia. destruct (push_offset _ Ho) as [HS _].
    destruct (sd_ok P Hdebug a reg SP (off - 8) HI Hr sp5 HS b) as (c1 & E1 & X1).
    destruct (IH (off - 8) (b ++ c1) HF ltac:(lia) ltac:(lia)) as (c2 & E2 & X2).
    exists (c1 ++ c2). split.
    + cbn [PushRegistersInOrder_loop]. rewrite (proj2 (Z.eqb_neq reg SP) Hn). cbn [negb].
      unfold seq, MicroAssembler.sx, kWordSize. rewrite E1.
      change (append c1 (with_buffer b a)) with (with_buffer (b ++ c1) a). rewrite E2.
      change (with_buffer (b ++ c1) a) with (append c1 (with_buffer b a)). rewrite append_append; reflexivity.
    + eapply executesM_weaken; [intros pc r Hq; exact Hq| |
        refine (executesM_app_store _ _ c1 c2 _ _ _ _ X1 X2 _)]; cbv beta.
      * intros r h r' h' _ _ (m & _ & Hm & Hr' & Hh'). cbn [stores_down]. split; [intros x; rewrite Hr'; apply Hm|].
        rewrite Hh'. apply stores_down_ext, Hm.
      * intros pc r r' _ Hq Hs. rewrite length_app, Nat2Z.inj_add in *. split.
        -- apply (clear_slot off); lia || exact Hq.
        -- intros x Hx. rewrite Hs. replace (r SP) with (r SP + 0) by lia. apply (slot_clear off); try lia. apply Hq; lia.
Qed.

(** Where a pushed register is found, and what is left alone. *)
Lemma stores_down_outside regs : forall off (r : Regs) h x, off = 8 * Z.of_nat (length regs) -> off < 2 ^ 64 ->
  off <= u64 (x - u64 (r SP)) -> stores_down regs off r h x = h x.
Proof.
  induction regs as [|reg regs IH]; intros off r h x Ho Hw Hx; [reflexivity|]. cbn [stores_down length] in *.
  rewrite IH by lia. unfold StoreLE. pose proof (slot_clear off (r SP) (off - 8) 8 x ltac:(lia) ltac:(lia) ltac:(lia) Hw Hx).
  destruct (Z.ltb_spec (u64 (x - u64 (r SP + (off - 8)))) 8); [lia|reflexivity].
Qed.

Lemma LoadLE_outside regs off (r : Regs) h a : off = 8 * Z.of_nat (length regs) -> off + 8 < 2 ^ 64 ->
  a = r SP + off -> LoadLE 8 (stores_down regs off r h) a = LoadLE 8 h a.
Proof.
  intros Ho Hw ->. apply (eq_by_bytes 8); [lia|exact (LoadLE_range 8 _ _)|exact (LoadLE_range 8 _ _)|].
  intros k Hk. rewrite !byte_of_LoadLE by lia. rewrite stores_down_outside; [reflexivity|exact Ho|lia|].
  rewrite uN_sub_l, uN_sub_r. replace (r SP + off + k - r SP) with (off + k) by lia.
  rewrite uN_small; unfold is_uN; lia.
Qed.

Lemma LoadLE_u64 h a : LoadLE 8 h a = LoadLE 8 h (u64 a).
Proof.
  apply (eq_by_bytes 8); [lia|exact (LoadLE_range 8 _ _)|exact (LoadLE_range 8 _ _)|].
  intros k Hk. rewrite !byte_of_LoadLE, uN_add_l by lia. reflexivity.
Qed.

Lemma stores_down_slot regs : forall off (r : Regs) h i reg, off = 8 * Z.of_nat (length regs) -> off < 2 ^ 64 ->
  nth_error regs i = Some reg ->
  LoadLE 8 (stores_down regs off r h) (r SP + (off - 8 * (Z.of_nat i + 1))) = u64 (r reg).
Proof.
  induction regs as [|reg0 regs IH]; intros off r h i reg Ho Hw E; [destruct i; discriminate|].
  cbn [stores_down length] in *. destruct i as [|i]; cbn [nth_error] in E.
  - injection E as <-. rewrite LoadLE_outside by lia. rewrite LoadLE_u64.
    exact (LoadLE_StoreLE 8 h (u64 (r SP + (off - 8))) (r reg0) ltac:(lia)).
  - replace (off - 8 * (Z.of_nat (S i) + 1)) with (off - 8 - 8 * (Z.of_nat i + 1)) by lia. apply IH; lia || exact E.
Qed.

(** ** Moving the stack pointer *)

Lemma move_sp a k : Supports a RV_I = true -> IsITypeImm k = true ->
  forall b, exists c, MicroAssembler.addi SP SP k (with_buffer b a) = Some (append c (with_buffer b a)) /\
    executesM P anywhere c (pure (writes SP (fun r => r SP + k))).
Proof.
  intros HI Hk b. destruct (addi_i P a SP SP k HI sp5 sp5 Hk b) as (c & E & X).
  exists c. split; [exact E|]. apply executes_executesM, X.
Qed.

Lemma sp_moved k (r r' : Regs) : writes SP (fun r => r SP + k) r r' -> r' SP = u64 (r SP + k) /\ forall x : Z, x <> SP -> r' x = r x.
Proof.
  intros H. split; [exact (writes_rd _ _ _ _ sp_nonzero H)|intros x Hx; exact (writes_other _ _ _ _ x Hx H)].
Qed.

(** The code of a sequence of emitters. *)
Lemma emits_seq a b e1 e2 c1 c2 : e1 (with_buffer b a) = Some (append c1 (with_buffer b a)) ->
  e2 (with_buffer (b ++ c1) a) = Some (append c2 (with_buffer (b ++ c1) a)) ->
  (e1 >>> e2) (with_buffer b a) = Some (append (c1 ++ c2) (with_buffer b a)).
Proof.
  intros E1 E2. unfold seq. rewrite E1. change (append c1 (with_buffer b a)) with (with_buffer (b ++ c1) a). rewrite E2.
  change (with_buffer (b ++ c1) a) with (append c1 (with_buffer b a)). rewrite append_append; reflexivity.
Qed.

(** The stack grows by the registers of [regs], the first one at the highest address. *)
Definition pushed (regs : list Z) : MemRel := fun r h r' h' =>
  let size := 8 * Z.of_nat (length regs) in
  writes SP (fun r => r SP - size) r r' /\
  (forall i reg, nth_error regs i = Some reg -> LoadLE 8 h' (r' SP + (size - 8 * (Z.of_nat i + 1))) = r reg) /\
  (forall x, size <= u64 (x - r' SP) -> h' x = h x).

Definition PushRegistersInOrder_spec (regs : list Z) (a : Assembler) : Prop :=
  let size := 8 * Z.of_nat (length regs) in
  forall b, exists code, PushRegistersInOrder regs (with_buffer b a) = Some (append code (with_buffer b a)) /\
    executesM P (clear size (fun r => r SP - size) 0 (Z.of_nat (length code))) code (pushed regs).

Lemma PushRegistersInOrder_ok a regs : Supports a RV_I = true -> pushable regs ->
  8 * Z.of_nat (length regs) <= 2048 -> PushRegistersInOrder_spec regs a.
Proof.
  intros HI HF Hlim b. set (size := 8 * Z.of_nat (length regs)) in *.
  assert (IsITypeImm (- size) = true) as Hk by (apply IsInt_spec; [lia|unfold is_sN; lia]).
  destruct (move_sp a (- size) HI Hk b) as (c1 & E1 & X1).
  destruct (PushRegistersInOrder_loop_ok a HI regs size (b ++ c1) HF eq_refl Hlim) as (c2 & E2 & X2).
  exists (c1 ++ c2). split.
  { unfold PushRegistersInOrder, MicroAssembler.subi, kWordSize.
    replace (Z.of_nat (length regs) * 8) with size by (unfold size; lia). exact (emits_seq a b _ _ _ _ E1 E2). }
  eapply executesM_weaken; [intros pc r Hq; exact Hq| |refine (executesM_app_kept _ _ c1 c2 _ _ X1 X2 _ _)]; cbv beta.
  - intros r h r' h' W _ (m & Wm & [Hm _] & Hr' & Hh'). destruct (sp_moved _ _ _ Hm) as [Hsp Hx].
    assert (writes SP (fun r => r SP - size) r r') as Hw.
    { intros x. rewrite Hr', (Hm x). reflexivity. }
    subst h'. split; [exact Hw|]. split.
    + intros i reg E. fold size. rewrite Hr', (stores_down_slot regs) with (reg := reg); [|reflexivity|fold size; lia|exact E].
      apply nth_error_In in E. destruct (proj1 (Forall_forall _ _) HF _ E) as [Hr Hn].
      rewrite Hx by exact Hn. rewrite uN_small by (apply W; exact Hr). reflexivity.
    + intros x Hs. apply stores_down_outside; [reflexivity|fold size; lia|]. fold size in Hs |- *. rewrite uN_sub_r. rewrite Hr' in Hs. exact Hs.
  - intros r h r' h' [_ H]; exact H.
  - intros pc r r' h h' W Hq [Hm _] x Hx. destruct (sp_moved _ _ _ Hm) as [-> _]. rewrite uN_uN by lia.
    replace (r SP + - size) with (r SP - size) by lia. apply Hq. rewrite length_app, Nat2Z.inj_add in *. lia.
Qed.

(** ** Popping *)

(** The code that follows a push finds the memory the push left. *)
Lemma executesM_push_app regs c1 c2 (R2 : MemRel) : let size := 8 * Z.of_nat (length regs) in
  executesM P (clear size (fun r => r SP - size) 0 (Z.of_nat (length c1))) c1 (pushed regs) -> executesM P anywhere c2 R2 ->
  executesM P (clear size (fun r => r SP - size) 0 (Z.of_nat (length (c1 ++ c2)))) (c1 ++ c2)
    (fun r h r' h' => exists m k, wf_regs m /\ pushed regs r h m k /\ R2 m k r' h').
Proof.
  intros size X1 X2. refine (executesM_app P Hdebug _ _ anywhere c1 c2 _ _ X1 X2 _).
  intros pc r h r' h' _ Hq _ _. rewrite length_app, Nat2Z.inj_add in *. split.
  - intros x Hx. apply Hq. lia.
  - intros (Hw & _ & Hout). split; [exact I|]. intros x Hx. apply Hout. fold size.
    rewrite (writes_rd _ _ _ _ sp_nonzero Hw). apply Hq. lia.
Qed.

Lemma loads_word a rd off : Supports a RV_I = true -> is_uN 5 rd -> 0 <= off < 2048 ->
  forall b, exists c, MicroAssembler.lx rd (MkAddress SP off) (with_buffer b a) = Some (append c (with_buffer b a)) /\
    executesM P anywhere c (fun r h r' h' => h' = h /\ writes rd (fun r => LoadLE 8 h (r SP + off)) r r').
Proof.
  intros HI Hr Ho b. destruct (ld_ok P Hdebug a rd SP off HI Hr sp5 (proj2 (push_offset _ Ho)) b) as (c & E & X).
  exists c. split; [exact E|]. eapply executesM_weaken; [intros pc r H; exact H| |exact X].
  intros r h r' h' _ _ [-> H]. split; [reflexivity|]. intros x. rewrite H. unfold set_reg.
  change (Z.to_nat 8) with 8%nat. rewrite <- LoadLE_u64. cbn [as_type]. rewrite uN_sN by lia. reflexivity.
Qed.

Definition popped (r0 : Z) : MemRel := fun r h r' h' => h' = h /\ exists m,
  writes r0 (fun r => LoadLE 8 h (r SP)) r m /\ writes SP (fun r => r SP + 8) m r'.

Definition popped_pair (r0 r1 : Z) : MemRel := fun r h r' h' => h' = h /\ exists m1 m2,
  writes r1 (fun r => LoadLE 8 h (r SP + 8)) r m1 /\ writes r0 (fun r => LoadLE 8 h (r SP)) m1 m2 /\
  writes SP (fun r => r SP + 16) m2 r'.

Lemma PopRegister_ok a r0 : Supports a RV_I = true -> is_uN 5 r0 -> r0 <> SP -> implementsM P a (PopRegister r0) (popped r0).
Proof.
  intros HI H0 N0 b. destruct (loads_word a r0 0 HI H0 ltac:(lia) b) as (c1 & E1 & X1).
  destruct (move_sp a 8 HI eq_refl (b ++ c1)) as (c2 & E2 & X2). exists (c1 ++ c2). split.
  { unfold PopRegister. rewrite (proj2 (Z.eqb_neq _ _) N0). exact (emits_seq a b _ _ _ _ E1 E2). }
  eapply executesM_weaken; [intros pc r Hq; exact Hq| |refine (executesM_app_kept anywhere anywhere c1 c2 _ _ X1 X2 _ _)]; cbv beta.
  - intros r h r' h' _ _ (m & _ & [_ Hm] & Hr' & ->). split; [reflexivity|]. exists m. split; [|exact Hr'].
    intros x. rewrite Hm, Z.add_0_r. reflexivity.
  - intros r h r' h' [H _]; exact H.
  - intros; exact I.
Qed.

Lemma PopRegisterPair_ok a r0 r1 : Supports a RV_I = true -> is_uN 5 r0 -> is_uN 5 r1 -> r0 <> SP -> r1 <> SP ->
  implementsM P a (PopRegisterPair r0 r1) (popped_pair r0 r1).
Proof.
  intros HI H0 H1 N0 N1 b. destruct (loads_word a r1 8 HI H1 ltac:(lia) b) as (c1 & E1 & X1).
  destruct (loads_word a r0 0 HI H0 ltac:(lia) (b ++ c1)) as (c2 & E2 & X2).
  destruct (move_sp a 16 HI eq_refl ((b ++ c1) ++ c2)) as (c3 & E3 & X3). exists (c1 ++ c2 ++ c3). split.
  { unfold PopRegisterPair. rewrite (proj2 (Z.eqb_neq _ _) N0), (proj2 (Z.eqb_neq _ _) N1). cbn [negb].
    exact (emits_seq a b _ _ _ _ E1 (emits_seq a (b ++ c1) _ _ _ _ E2 E3)). }
  eapply executesM_weaken; [intros pc r Hq; exact Hq| |
    refine (executesM_app_kept anywhere anywhere c1 (c2 ++ c3) _ _ X1 (executesM_app_kept anywhere anywhere c2 c3 _ _ X2 X3 _ _) _ _)];
    cbv beta; try (intros; exact I); try (intros r h r' h' [H _]; exact H).
  intros r h r' h' _ _ (m1 & _ & [_ Hm1] & m2 & _ & [_ Hm2] & Hr' & ->). split; [reflexivity|]. exists m1, m2.
  split; [exact Hm1|]. split; [|exact Hr']. intros x. rewrite Hm2, Z.add_0_r. reflexivity.
Qed.

(** The single and the pair push are pushes of lists. *)
Lemma PushRegister_list (r : Z) a : r <> SP -> PushRegister r a = PushRegistersInOrder [r] a.
Proof.
  intros N. unfold PushRegister, PushRegistersInOrder. rewrite (proj2 (Z.eqb_neq _ _) N). cbn [negb]. unfold seq.
  change (Z.of_nat (length [r]) * kWordSize) with kWordSize. destruct (MicroAssembler.subi SP SP kWordSize a); [|reflexivity].
  cbn [PushRegistersInOrder_loop]. rewrite (proj2 (Z.eqb_neq _ _) N). cbn [negb]. unfold seq.
  change (kWordSize - kWordSize) with 0. destruct (MicroAssembler.sx r _ _); reflexivity.
Qed.

Lemma PushRegisterPair_list (r0 r1 : Z) a : r0 <> SP -> r1 <> SP -> PushRegisterPair r0 r1 a = PushRegistersInOrder [r1; r0] a.
Proof.
  intros N0 N1. unfold PushRegisterPair, PushRegistersInOrder.
  rewrite (proj2 (Z.eqb_neq _ _) N0), (proj2 (Z.eqb_neq _ _) N1). cbn [negb]. unfold seq.
  change (Z.of_nat (length [r1; r0]) * kWordSize) with (2 * kWordSize).
  destruct (MicroAssembler.subi SP SP (2 * kWordSize) a) as [a1|]; [|reflexivity].
  cbn [PushRegistersInOrder_loop]. rewrite (proj2 (Z.eqb_neq _ _) N0), (proj2 (Z.eqb_neq _ _) N1). cbn [negb]. unfold seq.
  change (2 * kWordSize - kWordSize) with kWordSize. destruct (MicroAssembler.sx r1 _ a1) as [a2|]; [|reflexivity].
  change (kWordSize - kWordSize) with 0. destruct (MicroAssembler.sx r0 _ a2); reflexivity.
Qed.

(** A push and what follows it. *)
Lemma push_then a regs push e (R : MemRel) : Supports a RV_I = true -> pushable regs -> 8 * Z.of_nat (length regs) <= 2048 ->
  (forall a, push a = PushRegistersInOrder regs a) -> implementsM P a e R ->
  forall b, exists code, (push >>> e) (with_buffer b a) = Some (append code (with_buffer b a)) /\
    executesM P (clear (8 * Z.of_nat (length regs)) (fun r => r SP - 8 * Z.of_nat (length regs)) 0 (Z.of_nat (length code))) code
      (fun r h r' h' => exists m k, wf_regs m /\ pushed regs r h m k /\ R m k r' h').
Proof.
  intros HI HF Hlim He I b. destruct (PushRegistersInOrder_ok a regs HI HF Hlim b) as (c1 & E1 & X1).
  destruct (I (b ++ c1)) as (c2 & E2 & X2). rewrite <- He in E1. exists (c1 ++ c2).
  split; [exact (emits_seq a b _ _ _ _ E1 E2)|exact (executesM_push_app regs c1 c2 R X1 X2)].
Qed.

(** Every byte but the [n] below the stack pointer is kept. *)
Definition kept_above (n : Z) (r : Regs) (h h' : Host) : Prop := forall x, n <= u64 (x - (r SP - n)) -> h' x = h x.

Lemma pushed_kept regs r h m k : pushed regs r h m k -> kept_above (8 * Z.of_nat (length regs)) r h k.
Proof.
  intros (Hw & _ & Ho) x Hx. apply Ho. rewrite (writes_rd _ _ _ _ sp_nonzero Hw), uN_sub_r. exact Hx.
Qed.

(** The stack pointer comes back, the other registers are those before the last move. *)
Lemma sp_restored n (r m m2 r' : Regs) : wf_regs r -> writes SP (fun r => r SP - n) r m -> m2 SP = m SP ->
  writes SP (fun r => r SP + n) m2 r' -> (r' SP = r SP) /\ (forall x : Z, x <> SP -> m x = r x) /\ forall x : Z, x <> SP -> r' x = m2 x.
Proof.
  intros W Hm E Hr'. split; [|split; intros x Hx; [exact (writes_other _ _ _ _ x Hx Hm)|exact (writes_other _ _ _ _ x Hx Hr')]].
  rewrite (writes_rd _ _ _ _ sp_nonzero Hr'), E, (writes_rd _ _ _ _ sp_nonzero Hm), uN_add_l.
  replace (r SP - n + n) with (r SP) by lia. apply uN_small, W, sp5.
Qed.

Lemma writes_as rd v w (r r' : Regs) : writes rd v r r' -> (v r = w r) -> writes rd w r r'.
Proof. intros H E x. rewrite H, E. reflexivity. Qed.

Lemma writes_transport (q : Z) v (r m m1 r' : Regs) : q <> SP -> (forall x : Z, x <> SP -> m x = r x) -> m1 SP = m SP ->
  writes q (fun _ => v) m m1 -> r' SP = r SP -> (forall x : Z, x <> SP -> r' x = m1 x) -> writes q (fun _ => v) r r'.
Proof.
  intros Nq Hm Hsp Hm1 Hr Hr' x. destruct (Z.eq_dec x SP) as [->|Nx].
  - rewrite Hr. unfold set_reg, update. destruct (q =? 0); [reflexivity|].
    destruct (Z.eqb_spec (Register_value SP) q); [congruence|reflexivity].
  - rewrite Hr', Hm1 by exact Nx. unfold set_reg, update. destruct (q =? 0); [exact (Hm x Nx)|].
    destruct (x =? q); [reflexivity|exact (Hm x Nx)].
Qed.

Lemma push_pop a r0 q0 : Supports a RV_I = true -> is_uN 5 r0 -> is_uN 5 q0 -> r0 <> SP -> q0 <> SP ->
  forall b, exists code, (PushRegister r0 >>> PopRegister q0) (with_buffer b a) = Some (append code (with_buffer b a)) /\
    executesM P (clear 8 (fun r => r SP - 8) 0 (Z.of_nat (length code))) code
      (fun r h r' h' => writes q0 (fun r => r r0) r r' /\ kept_above 8 r h h').
Proof.
  intros HI H0 Hq N0 Nq b.
  destruct (push_then a [r0] (PushRegister r0) (PopRegister q0) (popped q0) HI
    ltac:(repeat constructor; assumption || (destruct H0; assumption)) ltac:(cbn; lia)
    (fun a => PushRegister_list r0 a N0) (PopRegister_ok a q0 HI Hq Nq) b) as (c & E & X).
  exists c. split; [exact E|]. eapply executesM_weaken; [intros pc r H; exact H| |exact X]. cbv beta.
  intros r h r' h' W _ (m & k & _ & Hp & -> & m1 & Hm1 & Hr'). split; [|exact (pushed_kept [r0] _ _ _ _ Hp)].
  destruct Hp as (Hw & Hs & _). specialize (Hs 0%nat r0 eq_refl). change (8 * Z.of_nat (length [r0])) with 8 in *.
  change (8 - 8 * (Z.of_nat 0 + 1)) with 0 in Hs. rewrite Z.add_0_r in Hs.
  assert (m1 SP = m SP) as Hsp by exact (writes_other _ _ _ _ _ (not_eq_sym Nq) Hm1).
  destruct (sp_restored 8 r m m1 r' W Hw Hsp Hr') as (R1 & R2 & R3).
  apply (writes_as _ (fun _ => r r0)); [|reflexivity].
  apply (writes_transport q0 (r r0) r m m1 r' Nq R2 Hsp); [|exact R1|exact R3].
  apply (writes_as _ (fun r => LoadLE 8 k (r SP))); assumption.
Qed.

Lemma set_reg_agree (r m : Regs) q v x : m x = r x -> set_reg m q v x = set_reg r q v x.
Proof. intros E. unfold set_reg, update. destruct (q =? 0); [exact E|]. destruct (x =? q); [reflexivity|exact E]. Qed.

Lemma set_reg_other (r : Regs) (q : Z) v x : x <> q -> set_reg r q v x = r x.
Proof. intros N. unfold set_reg, update. destruct (q =? 0); [reflexivity|]. apply Z.eqb_neq in N. rewrite N. reflexivity. Qed.

Lemma push_pop_pair a r0 r1 q0 q1 : Supports a RV_I = true -> Forall (is_uN 5) [r0; r1; q0; q1] ->
  Forall (fun x : Z => x <> SP) [r0; r1; q0; q1] ->
  forall b, exists code, (PushRegisterPair r0 r1 >>> PopRegisterPair q0 q1) (with_buffer b a) = Some (append code (with_buffer b a)) /\
    executesM P (clear 16 (fun r => r SP - 16) 0 (Z.of_nat (length code))) code
      (fun r h r' h' => (forall x, r' x = set_reg (set_reg r q1 (r r1)) q0 (r r0) x) /\ kept_above 16 r h h').
Proof.
  rewrite !Forall_cons_iff. intros HI (H0 & H1 & Hq0 & Hq1 & _) (N0 & N1 & Nq0 & Nq1 & _) b.
  destruct (push_then a [r1; r0] (PushRegisterPair r0 r1) (PopRegisterPair q0 q1) (popped_pair q0 q1) HI
    ltac:(repeat constructor; assumption || (destruct H0, H1; assumption)) ltac:(cbn; lia)
    (fun a => PushRegisterPair_list r0 r1 a N0 N1) (PopRegisterPair_ok a q0 q1 HI Hq0 Hq1 Nq0 Nq1) b) as (c & E & X).
  exists c. split; [exact E|]. eapply executesM_weaken; [intros pc r H; exact H| |exact X]. cbv beta.
  intros r h r' h' W _ (m & k & _ & Hp & -> & m1 & m2 & Hm1 & Hm2 & Hr'). split; [|exact (pushed_kept [r1; r0] _ _ _ _ Hp)].
  destruct Hp as (Hw & Hs & _). pose proof (Hs 0%nat r1 eq_refl) as S1. pose proof (Hs 1%nat r0 eq_refl) as S0. clear Hs.
  change (8 * Z.of_nat (length [r1; r0])) with 16 in *. change (16 - 8 * (Z.of_nat 0 + 1)) with 8 in S1.
  change (16 - 8 * (Z.of_nat 1 + 1)) with 0 in S0. rewrite Z.add_0_r in S0.
  assert (m1 SP = m SP) as Sp1 by exact (writes_other _ _ _ _ _ (not_eq_sym Nq1) Hm1).
  assert (m2 SP = m SP) as Sp2 by (rewrite (writes_other _ _ _ _ _ (not_eq_sym Nq0) Hm2); exact Sp1).
  destruct (sp_restored 16 r m m2 r' W Hw Sp2 Hr') as (R1 & R2 & R3).
  intros x. destruct (Z.eq_dec x SP) as [->|Nx].
  - rewrite R1, !set_reg_other by (apply not_eq_sym; assumption). reflexivity.
  - rewrite R3, Hm2, Sp1, S0 by exact Nx. apply set_reg_agree. rewrite Hm1, S1. apply set_reg_agree, R2, Nx.
Qed.

End Stack.

(** [PushRegistersInOrder] emits code that lowers the stack pointer by a word for each register, stores register [i]
    of the list [i + 1] words below the old stack pointer, and changes no other register and no other byte of memory. For
    every list of up to 256 registers other than the stack pointer, provided the stack does not overlap the code. *)
Theorem PushRegistersInOrder_correct P a regs : DEBUG P = false -> Supports a RV_I = true -> pushable regs ->
  8 * Z.of_nat (length regs) <= 2048 -> PushRegistersInOrder_spec P regs a.
Proof. intros Hd. exact (PushRegistersInOrder_ok P Hd a regs). Qed.

Lemma PushRegistersInOrder_correct_witness : PushRegistersInOrder_spec plain_platform [RA : Z; FP : Z; A0 : Z] asm_rva23.
Proof.
  apply PushRegistersInOrder_correct; [reflexivity|reflexivity| |vm_compute; congruence].
  repeat constructor; discriminate.
Defined.

(** A push followed by a pop round trips: the popped registers get the values of the pushed ones, the stack pointer
    and every other register come back, and only the words below the stack pointer change. For single registers and for
    pairs, the destinations free to differ from the sources. *)
Theorem push_pop_roundtrip P a r0 r1 q0 q1 : DEBUG P = false -> Supports a RV_I = true ->
  Forall (is_uN 5) [r0; r1; q0; q1] -> Forall (fun x : Z => x <> SP) [r0; r1; q0; q1] -> forall b,
  (exists code, (PushRegister r0 >>> PopRegister q0) (with_buffer b a) = Some (append code (with_buffer b a)) /\
    executesM P (clear 8 (fun r => r SP - 8) 0 (Z.of_nat (length code))) code
      (fun r h r' h' => writes q0 (fun r => r r0) r r' /\ kept_above 8 r h h')) /\
  (exists code, (PushRegisterPair r0 r1 >>> PopRegisterPair q0 q1) (with_buffer b a) = Some (append code (with_buffer b a)) /\
    executesM P (clear 16 (fun r => r SP - 16) 0 (Z.of_nat (length code))) code
      (fun r h r' h' => (forall x, r' x = set_reg (set_reg r q1 (r r1)) q0 (r r0) x) /\ kept_above 16 r h h')).
Proof.
  intros Hd HI H5 Hsp b. split; [|exact (push_pop_pair P Hd a r0 r1 q0 q1 HI H5 Hsp b)].
  rewrite !Forall_cons_iff in H5, Hsp. apply (push_pop P Hd a r0 q0 HI); tauto.
Qed.

Lemma push_pop_roundtrip_witness : exists code,
  (PushRegisterPair RA FP >>> PopRegisterPair RA FP) asm_rva23 = Some (append code asm_rva23) /\
  executesM plain_platform (clear 16 (fun r => r SP - 16) 0 (Z.of_nat (length code))) code
    (fun r h r' h' => (forall x, r' x = set_reg (set_reg r FP (r FP)) RA (r RA) x) /\ kept_above 16 r h h').
Proof.
  apply (push_pop_roundtrip plain_platform asm_rva23 RA FP RA FP eq_refl eq_refl
           ltac:(repeat constructor; discriminate) ltac:(repeat constructor; discriminate) []).
Defined.
