(* ===== verification/RvCallProofs.v ===== *)
(** * Calling assembled code

    A function assembled by the macro-assembler and ended with [ret], placed in
    memory and called through [CallX], returns: the call runs the body from the
    argument registers, [ret] reaches the end marker, and the result is read
    from [A0].  And the list of redirections maps addresses back to functions. *)

From Stdlib Require Import ZArith Lia ZifyBool Bool List.
From S2P Require Import Prelude Bits Utils RvEncoding RvEncodingProofs RvAlu SimMemory Outcome RvFloat RvSimulator RvAssembler RvExec RvCompressed RvAsmCorrect RvCalls.
Import ListNotations.
Import MicroAssembler(Supports).

Section Returns.
Context (P : Platform).

(** ** [ret] *)

Definition ret_code (a : Assembler) : list Z := if Supports a RV_C then le_bytes 2 0x8082 else le_bytes 4 0x8067.

Lemma ret_emits a b : Supports a RV_I = true -> MicroAssembler.ret (with_buffer b a) = Some (append (ret_code a) (with_buffer b a)).
Proof.
  intros HI. unfold MicroAssembler.ret, MicroAssembler.jalr, ret_code. rewrite !Supports_with_buffer, HI.
  destruct (Supports a RV_C) eqn:HC; cbn [andb]; [|reflexivity].
  cbn [negb Z.eqb Register_value Pos.eqb andb]. unfold MicroAssembler.c_jr. rewrite Supports_with_buffer, HC. reflexivity.
Qed.

Lemma ret_step a s : code_at s (ret_code a) ->
  step P s = Ok (with_instret (with_pc s (u64 (xregs_ s RA))) (u64 (instret_ s + 1))) \/
  step P s = Ok (with_instret (with_pc s (xregs_ s RA)) (u64 (instret_ s + 1))).
Proof.
  unfold ret_code. destruct (Supports a RV_C); intros C.
  - right. rewrite (step_16 P s 0x8082 ltac:(split; vm_compute; congruence) ltac:(vm_compute; congruence) C).
    rewrite Interpret_C_JR by reflexivity. unfold InterpretC_JR, CheckLandingPad.
    cbv [CInstr.rs1 CInstr.rs2 CInstr.rd]. cbn. destruct (lp_enabled_ s); reflexivity.
  - left. rewrite (step_32 P s 0x8067 ltac:(split; vm_compute; congruence) ltac:(vm_compute; congruence) C).
    change (Interpret P s 32871) with (InterpretJALR s 32871). unfold InterpretJALR, CheckLandingPad.
    destruct (lp_enabled_ _); cbn; rewrite Z.add_0_r; reflexivity.
Qed.

Lemma ret_code_length a : (2 <= length (ret_code a))%nat.
Proof. unfold ret_code. destruct (Supports a RV_C); rewrite length_le_bytes; lia. Qed.

(** ** Running up to the end marker *)

Lemma end_marker : kEndSimulatingPC = 2 ^ 64 - 2.
Proof. reflexivity. Qed.

Lemma Execute_run_in lo hi n m : hi <= kEndSimulatingPC -> forall s s', run_in P lo hi n s = Ok s' ->
  ExecuteNoTrace P (n + m) s = ExecuteNoTrace P m s'.
Proof.
  intros Hh. induction n as [|n IH]; intros s s' H; cbn [run_in Nat.add] in *; [injection H as ->; reflexivity|].
  destruct (Z.leb_spec lo (pc_ s)), (Z.ltb_spec (pc_ s) hi); try discriminate. cbn [andb] in H. cbn [ExecuteNoTrace].
  destruct (Z.eqb_spec (pc_ s) kEndSimulatingPC); [lia|]. destruct (step P s) as [s1|r]; [exact (IH _ _ H)|discriminate].
Qed.

(** The body, then [ret], from a state whose return address is the end marker. *)
Lemma body_returns a code (R : (Z -> Z) -> (Z -> Z) -> Prop) s :
  executes P code R -> (forall r r', wf_regs r -> R r r' -> r' RA = r RA) ->
  wf_regs (xregs_ s) -> xregs_ s RA = kEndSimulatingPC -> code_at s (code ++ ret_code a) ->
  exists fuel s', ExecuteNoTrace P fuel s = Some (Ok s') /\ R (xregs_ s) (xregs_ s') /\
    memory_ s' = memory_ s /\ pc_ s' = kEndSimulatingPC.
Proof.
  intros E HRA W Hra C. destruct (E s W (code_at_app_l _ _ _ C)) as (n & s1 & Hr & A & W1 & HR).
  pose proof (code_at_app_pc _ _ _ _ _ C A) as Hpc. pose proof (code_at_app_r _ _ _ _ _ C A) as Cr.
  destruct C as (C0 & C1 & _). rewrite length_app in C1. pose proof (ret_code_length a).
  assert (xregs_ s1 RA = kEndSimulatingPC) as Hra1 by (rewrite (HRA _ _ W HR); exact Hra).
  pose proof end_marker. exists (n + 1)%nat. eexists. rewrite (Execute_run_in (pc_ s) (pc_ s + Z.of_nat (length code)) n 1 ltac:(lia) s s1 Hr).
  cbn [ExecuteNoTrace]. destruct (Z.eqb_spec (pc_ s1) kEndSimulatingPC) as [X|X].
  { exfalso. lia. }
  assert (step P s1 = Ok (with_instret (with_pc s1 kEndSimulatingPC) (u64 (instret_ s1 + 1)))) as ->
    by (destruct (ret_step a s1 Cr) as [-> | ->]; rewrite Hra1; reflexivity).
  cbn [pc_ with_instret with_pc]. rewrite Z.eqb_refl. split; [reflexivity|]. cbn.
  rewrite (after_memory _ _ _ _ A). auto.
Qed.

(** ** [CallX] *)

(** The registers at the entry of a call. *)
Definition call_regs (r : Z -> Z) (arg0 arg1 arg2 arg3 : Z) : Z -> Z :=
  set_reg (set_reg (set_reg (set_reg (set_reg r A0 arg0) A1 arg1) A2 arg2) A3 arg3) RA kEndSimulatingPC.

Definition placed_at (s : Simulator) (entry : Z) (code : list Z) : Prop := code_at (with_pc s entry) code.

Lemma CallX_returns a code (R : (Z -> Z) -> (Z -> Z) -> Prop) s entry arg0 arg1 arg2 arg3 : DEBUG P = false ->
  executes P code R -> (forall r r', wf_regs r -> R r r' -> r' RA = r RA) ->
  wf_regs (xregs_ s) -> placed_at s entry (code ++ ret_code a) ->
  exists fuel s', CallX P fuel entry arg0 arg1 arg2 arg3 s = Some (Ok (s64 (xregs_ s' A0), s')) /\
    R (call_regs (xregs_ s) arg0 arg1 arg2 arg3) (xregs_ s') /\ memory_ s' = Memory.FlushAll (memory_ s).
Proof.
  intros Hd E HRA W C. set (r := call_regs (xregs_ s) arg0 arg1 arg2 arg3).
  assert (is_uN 64 entry) as He by (destruct C as (C0 & C1 & _); cbn in *; unfold is_uN; lia).
  assert (wf_regs r) as Wr by (repeat apply wf_set_reg; exact W).
  destruct (body_returns a code R (with_xregs (with_pc s entry) r) E HRA Wr eq_refl C) as (fuel & s' & Hx & HR & Hm & _).
  exists fuel. eexists. unfold CallX, PrepareCall. rewrite Hd. unfold RunCall, Execute, finish, CheckPreservedRegisters.
  rewrite Hd, !set_xreg_with, (uN_small 64 entry He).
  change (with_xregs _ _) with (with_xregs (with_pc s entry) r) at 1.
  rewrite Hx. cbn [returning option_map bind]. split; [reflexivity|]. cbn. rewrite Hm. auto.
Qed.

End Returns.



(** ** Redirections *)

Module RedirectionProofs.
Import Redirections.

(** The list as calls of [Get] build it, each new object at a new address. *)
Inductive built : list Entry -> list Entry -> Prop :=
  | built_here l : built l l
  | built_get l l' address f k n : built l l' -> ~ In address (map address_of_ecall_instruction l') ->
      built l (snd (Get address f k n l')).

Definition unique (l : list Entry) : Prop := NoDup (map address_of_ecall_instruction l).

Lemma unique_get l address f k n : unique l -> ~ In address (map address_of_ecall_instruction l) -> unique (snd (Get address f k n l)).
Proof.
  intros U N. unfold Get. destruct (find _ l); cbn [snd]; [exact U|]. constructor; assumption.
Qed.

Lemma built_unique l l' : built l l' -> unique l -> unique l'.
Proof. induction 1; intros U; [exact U|]. apply unique_get; auto. Qed.

Lemma get_keeps l address f k n e : In e l -> In e (snd (Get address f k n l)).
Proof. intros H. unfold Get. destruct (find _ l); cbn [snd]; [exact H|right; exact H]. Qed.

Lemma built_keeps l l' e : built l l' -> In e l -> In e l'.
Proof. induction 1; intros He; [exact He|]. apply get_keeps; auto. Qed.

(** The object [Get] returns is in the list and is for the function. *)
Lemma get_entry l address f k n : let '(e, l') := Get address f k n l in In e l' /\ external_function_ (redirection e) = f.
Proof.
  unfold Get. destruct (find _ l) as [e|] eqn:F; [|split; [left; reflexivity|reflexivity]].
  apply find_some in F as [H E]. apply Z.eqb_eq in E. auto.
Qed.

Lemma lookup_entry l e : unique l -> In e l -> FunctionForRedirect (address_of_ecall_instruction e) l = external_function_ (redirection e).
Proof.
  intros U H. unfold FunctionForRedirect, find. induction l as [|e' l IH]; [destruct H|]. cbn [List.find map] in *.
  inversion_clear U as [|? ? N U']. destruct H as [->|H]; [rewrite Z.eqb_refl; reflexivity|].
  destruct (Z.eqb_spec (address_of_ecall_instruction e') (address_of_ecall_instruction e)) as [Q|_]; [|exact (IH U' H)].
  exfalso. apply N. rewrite Q. apply in_map, H.
Qed.
End RedirectionProofs.

(** Redirection is one-to-one and permanent: the address [RedirectExternalReference] returns for a function maps back
    to it, also after any later redirections; and a second request for the function, whatever call kind it names, returns
    the same address and changes nothing. *)
Theorem redirection_roundtrip l0 l address f k n : RedirectionProofs.built l0 l -> RedirectionProofs.unique l0 ->
  ~ In address (map Redirections.address_of_ecall_instruction l) ->
  let '(a, l1) := Redirections.RedirectExternalReference address f k n l in
  (forall l2, RedirectionProofs.built l1 l2 -> Redirections.FunctionForRedirect a l2 = f) /\
  (forall address' k' n', Redirections.RedirectExternalReference address' f k' n' l1 = (a, l1)).
Proof.
  intros B U N. pose proof (RedirectionProofs.built_unique _ _ B U) as Ul.
  pose proof (RedirectionProofs.unique_get l address f k n Ul N) as U1. pose proof (RedirectionProofs.get_entry l address f k n) as G.
  unfold Redirections.RedirectExternalReference. destruct (Redirections.Get address f k n l) as [e l1] eqn:E. cbn [snd] in U1.
  destruct G as [HI HF]. split.
  - intros l2 B2. rewrite RedirectionProofs.lookup_entry; [exact HF|exact (RedirectionProofs.built_unique _ _ B2 U1)|exact (RedirectionProofs.built_keeps _ _ _ B2 HI)].
  - intros address' k' n'. unfold Redirections.Get in *. unfold Redirections.find in *.
    destruct (List.find _ l) as [e'|] eqn:F; injection E as <- <-.
    + rewrite F. reflexivity.
    + cbn [List.find]. cbn [Redirections.redirection external_function_]. rewrite Z.eqb_refl. reflexivity.
Qed.

Lemma redirection_roundtrip_witness :
  let '(a, l1) := Redirections.RedirectExternalReference 4096 77 kLeafRuntimeCall 2 [] in
  (forall l2, RedirectionProofs.built l1 l2 -> Redirections.FunctionForRedirect a l2 = 77) /\
  (forall address' k' n', Redirections.RedirectExternalReference address' 77 k' n' l1 = (a, l1)).
Proof.
  apply (redirection_roundtrip [] [] 4096 77 kLeafRuntimeCall 2); [constructor|constructor|intros []].
Defined.
