(* ===== verification/BitField.v ===== *)
(** * Bit fields of a word ([vm/bitfield.h])

    [BitField<S, T, position, size, sign_extend>] for a 64-bit container [S]; a
    value of [T] is an integer.  The static members of the class are functions
    of the descriptor.  [encode] and [update] return [None] where the source
    asserts that the value is valid. *)

From Stdlib Require Import ZArith Lia ZifyBool Bool List.
From S2P Require Import Prelude Utils.
Import ListNotations.
Open Scope Z_scope.

Record BitField := mkBitField { position : Z; bitsize : Z; sign_extended : bool }.

Definition kNextBit (b : BitField) : Z := position b + bitsize b.

(** The [static_assert]s of the class. *)
Definition fits (b : BitField) : Prop := 0 <= position b /\ 0 < bitsize b /\ kNextBit b <= 64.

(** [Utils::NBitMask<uint64_t>]. *)
Definition NBitMask (n : Z) : Z := if n =? 64 then kMaxUint64 else u64 (1 << n) - 1.

Definition mask (b : BitField) : Z := NBitMask (bitsize b).
Definition mask_in_place (b : BitField) : Z := u64 (mask b << position b).

Definition decode (b : BitField) (value : Z) : Z :=
  let u := u64 value in
  if sign_extended b then s64 (u64 (u << (64 - kNextBit b))) >> (64 - bitsize b)
  else (u >> position b) .& mask b.

Definition encode_unchecked (b : BitField) (value : Z) : Z := u64 ((u64 value .& mask b) << position b).

Definition is_valid (b : BitField) (value : Z) : bool := decode b (encode_unchecked b value) =? value.

Definition encode (b : BitField) (value : Z) : option Z :=
  ASSERT (is_valid b value);; Some (encode_unchecked b value).

Definition update (b : BitField) (value original : Z) : option Z :=
  encode b value .|? Some (u64 (Z.lnot (mask_in_place b)) .& u64 original).

Definition max (b : BitField) : Z := NBitMask (bitsize b - (if sign_extended b then 1 else 0)).
Definition min (b : BitField) : Z := if sign_extended b then s64 (u64 (Z.lnot (max b))) else 0.

(** ** The members, mathematically *)

Lemma NBitMask_ones n : 0 <= n <= 64 -> NBitMask n = Z.ones n.
Proof.
  intros Hn. unfold NBitMask. destruct (n =? 64) eqn:E; [replace n with 64 by lia; reflexivity|].
  rewrite Z.shiftl_1_l, uN_small, Z.ones_equiv; [lia|]. split; [apply Z.pow_nonneg; lia|apply Z.pow_lt_mono_r; lia].
Qed.

(** A value as a field of [size] bits gives it back. *)
Definition extend (b : BitField) (x : Z) : Z := if sign_extended b then sN (bitsize b) x else uN (bitsize b) x.

Lemma extend_bits b x y : 0 < bitsize b -> (forall i, 0 <= i < bitsize b -> Z.testbit x i = Z.testbit y i) -> extend b x = extend b y.
Proof.
  intros Hb H. assert (E : uN (bitsize b) x = uN (bitsize b) y).
  { apply Z.bits_inj'. intros i Hi. rewrite !testbit_uN by lia. destruct (i <? bitsize b) eqn:L; [|reflexivity]. cbn. apply H. lia. }
  unfold extend. destruct (sign_extended b); [apply uN_eq_sN; assumption|exact E].
Qed.

Section Field.
Context (b : BitField) (F : fits b).

Lemma decode_extend value : decode b value = extend b (value >> position b).
Proof.
  destruct F as (Hp & Hs & Hn). unfold decode, extend, kNextBit in *. cbv zeta. destruct (sign_extended b).
  - rewrite <- (sN_small (bitsize b) (_ >> (64 - bitsize b))); [apply (uN_eq_sN (bitsize b)); [lia|]|lia|].
    + apply Z.bits_inj'. intros i Hi. rewrite !testbit_uN by lia. destruct (i <? bitsize b) eqn:L; [|reflexivity]. cbn [andb].
      rewrite !testbit_shiftr, testbit_sN_low, testbit_uN, testbit_shiftl, testbit_uN by lia.
      replace (i + (64 - bitsize b) <? 64 - (position b + bitsize b)) with false by lia.
      replace (i + (64 - bitsize b) - (64 - (position b + bitsize b))) with (i + position b) by lia.
      replace (i + position b <? 64) with true by lia. replace (i + (64 - bitsize b) <? 64) with true by lia. reflexivity.
    + pose proof (sN_range 64 (u64 (u64 value << (64 - (position b + bitsize b)))) ltac:(lia)) as [L U].
      rewrite Z.shiftr_div_pow2 by lia. change (64 - 1) with 63 in L, U.
      assert (E : 2 ^ 63 = 2 ^ (bitsize b - 1) * 2 ^ (64 - bitsize b)) by (rewrite <- Z.pow_add_r by lia; f_equal; lia).
      assert (0 < 2 ^ (64 - bitsize b)) by (apply Z.pow_pos_nonneg; lia).
      split; [apply Z.div_le_lower_bound; lia|apply Z.div_lt_upper_bound; lia].
  - unfold mask. rewrite NBitMask_ones, Z.land_ones by lia. apply Z.bits_inj'. intros i Hi. fold (uN (bitsize b) (u64 value >> position b)).
    rewrite !testbit_uN by lia. destruct (i <? bitsize b) eqn:L; [|reflexivity]. cbn [andb].
    rewrite !testbit_shiftr, testbit_uN by lia. replace (i + position b <? 64) with true by lia. reflexivity.
Qed.

Lemma testbit_encode value i : 0 <= i ->
  Z.testbit (encode_unchecked b value) i = (position b <=? i) && (i <? kNextBit b) && Z.testbit value (i - position b).
Proof.
  destruct F as (Hp & Hs & Hn). unfold encode_unchecked, mask, kNextBit in *. intros Hi.
  rewrite NBitMask_ones, Z.land_ones by lia. fold (uN (bitsize b) (u64 value)).
  rewrite testbit_uN, testbit_shiftl by lia. destruct (i <? position b) eqn:L; [rewrite andb_false_r; replace (position b <=? i) with false by lia; reflexivity|].
  rewrite testbit_uN, testbit_uN by lia. replace (position b <=? i) with true by lia. cbn [andb].
  destruct (i <? position b + bitsize b) eqn:R.
  - replace (i <? 64) with true by lia. replace (i - position b <? bitsize b) with true by lia. replace (i - position b <? 64) with true by lia. reflexivity.
  - replace (i - position b <? bitsize b) with false by lia. apply andb_false_r.
Qed.

Lemma testbit_mask_in_place i : 0 <= i -> Z.testbit (mask_in_place b) i = (position b <=? i) && (i <? kNextBit b).
Proof.
  destruct F as (Hp & Hs & Hn). unfold mask_in_place, mask, kNextBit in *. intros Hi. rewrite NBitMask_ones by lia.
  rewrite testbit_uN, testbit_shiftl by lia. destruct (i <? position b) eqn:L; [rewrite andb_false_r; replace (position b <=? i) with false by lia; reflexivity|].
  rewrite Z.testbit_ones_nonneg by lia. lia.
Qed.

Lemma decode_encode_unchecked value : decode b (encode_unchecked b value) = extend b value.
Proof.
  rewrite decode_extend. destruct F as (Hp & Hs & Hn). apply extend_bits; [exact Hs|]. intros i Hi.
  rewrite testbit_shiftr, testbit_encode by lia. unfold kNextBit in *. replace (i + position b - position b) with i by lia.
  replace (position b <=? i + position b) with true by lia. replace (i + position b <? position b + bitsize b) with true by lia. reflexivity.
Qed.

(** The valid values are those from [min] to [max]. *)
Lemma is_valid_range value : is_valid b value = true <-> min b <= value <= max b.
Proof.
  unfold is_valid. rewrite decode_encode_unchecked, Z.eqb_eq. destruct F as (Hp & Hs & Hn). unfold kNextBit in Hn.
  unfold extend, min, max. destruct (sign_extended b).
  - rewrite NBitMask_ones, Z.ones_equiv by lia.
    assert (P : 0 < 2 ^ (bitsize b - 1) <= 2 ^ 63) by (split; [apply Z.pow_pos_nonneg; lia|apply Z.pow_le_mono_r; lia]).
    replace (s64 (u64 (Z.lnot (Z.pred (2 ^ (bitsize b - 1)))))) with (- 2 ^ (bitsize b - 1)).
    + split; [intros E; pose proof (sN_range (bitsize b) value Hs) as R; rewrite E in R; unfold is_sN in R; lia|].
      intros R. apply sN_small; [exact Hs|unfold is_sN; lia].
    + rewrite sN_uN by lia. rewrite sN_small by (unfold is_sN, Z.lnot; lia). unfold Z.lnot. lia.
  - rewrite Z.sub_0_r, NBitMask_ones, Z.ones_equiv by lia.
    split; [intros E; pose proof (uN_range (bitsize b) value ltac:(lia)) as R; rewrite E in R; unfold is_uN in R; lia|].
    intros R. apply uN_small. unfold is_uN. lia.
Qed.

Lemma encode_valid value : is_valid b value = true -> encode b value = Some (encode_unchecked b value).
Proof. unfold encode. intros ->. reflexivity. Qed.

End Field.

(** ** Round trips and independence *)

Definition disjoint (b b' : BitField) : Prop := kNextBit b <= position b' \/ kNextBit b' <= position b.

Lemma testbit_clear b original i : fits b -> 0 <= i ->
  Z.testbit (u64 (Z.lnot (mask_in_place b)) .& u64 original) i =
  (i <? 64) && negb ((position b <=? i) && (i <? kNextBit b)) && Z.testbit original i.
Proof.
  intros F Hi. rewrite Z.land_spec, !testbit_uN, Z.lnot_spec, testbit_mask_in_place by (assumption || lia).
  destruct (i <? 64), (negb _), (Z.testbit original i); reflexivity.
Qed.

(** The bits of an updated word. *)
Lemma testbit_update b value original i : fits b -> 0 <= i < 64 ->
  Z.testbit (encode_unchecked b value .| (u64 (Z.lnot (mask_in_place b)) .& u64 original)) i =
  if (position b <=? i) && (i <? kNextBit b) then Z.testbit value (i - position b) else Z.testbit original i.
Proof.
  intros F Hi. rewrite Z.lor_spec, testbit_encode, testbit_clear by (assumption || lia). replace (i <? 64) with true by lia.
  destruct ((position b <=? i) && (i <? kNextBit b)); cbn; [apply orb_false_r|reflexivity].
Qed.

Lemma decode_bits b x y : fits b -> (forall i, position b <= i < kNextBit b -> Z.testbit x i = Z.testbit y i) -> decode b x = decode b y.
Proof.
  intros F H. rewrite !decode_extend by exact F. destruct F as (Hp & Hs & Hn). unfold kNextBit in *. apply extend_bits; [exact Hs|].
  intros i Hi. rewrite !testbit_shiftr by lia. apply H. lia.
Qed.

(** A word made of two fields. *)
Lemma decode_two b b' v v' : fits b -> fits b' -> disjoint b b' ->
  decode b (encode_unchecked b v .| encode_unchecked b' v') = extend b v /\
  decode b' (encode_unchecked b v .| encode_unchecked b' v') = extend b' v'.
Proof.
  intros F F' D. pose proof F as (Hp & Hs & Hn). pose proof F' as (Hp' & Hs' & Hn'). unfold disjoint, kNextBit in D.
  split; rewrite <- decode_encode_unchecked by assumption; (apply decode_bits; [assumption|]); intros i Hi; unfold kNextBit in Hi;
    rewrite Z.lor_spec, !testbit_encode by (assumption || lia); unfold kNextBit.
  - replace ((position b' <=? i) && (i <? position b' + bitsize b')) with false by lia. apply orb_false_r.
  - replace ((position b <=? i) && (i <? position b + bitsize b)) with false by lia. reflexivity.
Qed.

Lemma valid_extend b v : fits b -> is_valid b v = true -> extend b v = v.
Proof. intros F. unfold is_valid. rewrite decode_encode_unchecked by exact F. lia. Qed.

Lemma encode_two b b' v v' : fits b -> fits b' -> disjoint b b' -> is_valid b v = true -> is_valid b' v' = true ->
  exists x, encode b v .|? encode b' v' = Some x /\ decode b x = v /\ decode b' x = v' /\
    (forall i, 0 <= i -> Z.testbit x i = true -> position b <= i < kNextBit b \/ position b' <= i < kNextBit b').
Proof.
  intros F F' D V V'. rewrite !encode_valid by assumption. eexists. split; [reflexivity|].
  destruct (decode_two b b' v v' F F' D) as [-> ->]. rewrite !valid_extend by assumption. split; [reflexivity|split; [reflexivity|]].
  intros i Hi. rewrite Z.lor_spec, !testbit_encode by assumption. lia.
Qed.

(** Bit fields round trip and are independent.  For any field that fits the word, the values accepted are exactly
    those from [min] to [max]; encoding or updating with an accepted value and decoding gives it back, and an update
    leaves every disjoint field of the word as it was. *)
Theorem bitfield_update b value original : fits b -> min b <= value <= max b ->
  exists e u, encode b value = Some e /\ update b value original = Some u /\ decode b e = value /\ decode b u = value /\
    (forall b', fits b' -> disjoint b b' -> decode b' u = decode b' original) /\
    (forall v, encode b v = None <-> ~ (min b <= v <= max b)).
Proof.
  intros F R. pose proof (proj2 (is_valid_range b F value) R) as V. eexists. eexists. unfold update. rewrite (encode_valid b value V).
  split; [reflexivity|split; [reflexivity|]].
  assert (D : decode b (encode_unchecked b value) = value) by (unfold is_valid in V; lia).
  pose proof F as (Hp & Hs & Hn). split; [exact D|split; [|split]].
  - rewrite <- D at 2. apply decode_bits; [exact F|]. intros i Hi. rewrite testbit_update, testbit_encode by (assumption || lia).
    replace (position b <=? i) with true by lia. replace (i <? kNextBit b) with true by lia. reflexivity.
  - intros b' F' Hd. pose proof F' as (Hp' & Hs' & Hn'). apply decode_bits; [exact F'|]. intros i Hi.
    rewrite testbit_update by (assumption || lia). unfold disjoint, kNextBit in *.
    replace ((position b <=? i) && (i <? position b + bitsize b)) with false by lia. reflexivity.
  - intros v. rewrite <- (is_valid_range b F v). unfold encode. destruct (is_valid b v); split; congruence.
Qed.

Lemma bitfield_update_witness :
  exists u, update (mkBitField 6 53 true) (-5) 0xffff = Some u /\ decode (mkBitField 6 53 true) u = -5 /\ decode (mkBitField 0 6 false) u = 63.
Proof.
  destruct (bitfield_update (mkBitField 6 53 true) (-5) 0xffff) as (e & u & _ & U & _ & D & I & _).
  - unfold fits, kNextBit; cbn; lia.
  - vm_compute; split; discriminate.
  - exists u. split; [exact U|split; [exact D|]]. rewrite (I (mkBitField 0 6 false)); [reflexivity|unfold fits, kNextBit; cbn; lia|right; cbn; lia].
Defined.
