(* ===== verification/Location.v ===== *)
(** * Locations of values ([vm/compiler/backend/locations.{h,cc}])

    Class [Location]: where the register allocator puts a value, encoded in one
    word.  A location is its [value_]; the constructors return [None] where the
    source asserts.  Pair locations are pointers to a heap object and are not
    modelled; the kinds are [RISC-V] ones at [XLEN = 64]. *)

From Stdlib Require Import ZArith Lia ZifyBool Bool List.
From S2P Require Import Prelude Bits Utils RvEncoding BitField.
Import ListNotations.
Open Scope Z_scope.

Definition Location := Z.

Definition kInvalidLocation : Z := 0.
Definition kLocationTagMask : Z := 3.

Inductive Kind :=
  | kInvalid | kConstantTag | kPairLocationTag | kUnallocated | kStackSlot | kDoubleStackSlot | kQuadStackSlot
  | kRegister | kFpuRegister.

Definition Kind_value (k : Kind) : Z :=
  match k with
  | kInvalid => 0 | kConstantTag => 1 | kPairLocationTag => 2 | kUnallocated => 1 << 2 | kStackSlot => 2 << 2
  | kDoubleStackSlot => 3 << 2 | kQuadStackSlot => 4 << 2 | kRegister => 5 << 2 | kFpuRegister => 6 << 2
  end.
Coercion Kind_value : Kind >-> Z.

Inductive Policy :=
  | kAny | kPrefersRegister | kRequiresRegister | kRequiresFpuRegister | kWritableRegister | kSameAsFirstInput
  | kSameAsFirstOrSecondInput | kMayBeSameAsFirstInput | kRequiresStack.

Definition Policy_value (p : Policy) : Z :=
  match p with
  | kAny => 0 | kPrefersRegister => 1 | kRequiresRegister => 2 | kRequiresFpuRegister => 3 | kWritableRegister => 4
  | kSameAsFirstInput => 5 | kSameAsFirstOrSecondInput => 6 | kMayBeSameAsFirstInput => 7 | kRequiresStack => 8
  end.

(** ** The layout *)

Definition kBitsForBaseReg : Z := 6.
Definition KindField : BitField := mkBitField 0 (BitLength kFpuRegister) false.
Definition PayloadField : BitField := mkBitField (kNextBit KindField) (64 - kNextBit KindField) false.
Definition PolicyField : BitField := mkBitField 0 (BitLength (Policy_value kRequiresStack)) false.
Definition StackSlotBaseField : BitField := mkBitField 0 kBitsForBaseReg false.
Definition StackIndexField : BitField :=
  mkBitField (kNextBit StackSlotBaseField) (bitsize PayloadField - kNextBit StackSlotBaseField) true.

Definition kind (l : Location) : Z := decode KindField l.
Definition payload (l : Location) : Z := decode PayloadField l.

(** The constructor of a kind and a payload. *)
Definition make (k : Kind) (payload : Z) : option Location := encode KindField k .|? encode PayloadField payload.

Definition NoLocation : Location := kInvalidLocation.
Definition IsInvalid (l : Location) : bool := l =? kInvalidLocation.
Definition Equals (l other : Location) : bool := l =? other.

(** ** Constants *)

Definition IsConstant (l : Location) : bool := (l .& kConstantTag) =? kConstantTag.
Definition pair_index (l : Location) : option Z :=
  ASSERT (IsConstant l);; Some (if negb ((l .& kPairLocationTag) =? 0) then 1 else 0).
Definition constant_instruction (l : Location) : option Z :=
  ASSERT (IsConstant l);; Some (l .& u64 (Z.lnot kLocationTagMask)).

Definition option_eqb (o : option Z) (x : Z) : bool := match o with Some y => y =? x | None => false end.

(** [obj] is the address of the [ConstantInstr]. *)
Definition Constant (obj index : Z) : option Location :=
  ASSERT ((index =? 0) || (index =? 1));;
  let loc := obj .| (if negb (index =? 0) then kPairLocationTag else 0) .| kConstantTag in
  ASSERT (option_eqb (constant_instruction loc) obj);;
  ASSERT (option_eqb (pair_index loc) index);;
  Some loc.

Definition IsPairLocation (l : Location) : bool := (l .& kLocationTagMask) =? kPairLocationTag.

(** ** Unallocated locations *)

Definition UnallocatedLocation (p : Policy) : option Location :=
  match encode PolicyField (Policy_value p) with Some x => make kUnallocated x | None => None end.
Definition IsUnallocated (l : Location) : bool := kind l =? kUnallocated.
Definition policy (l : Location) : option Z := ASSERT (IsUnallocated l);; Some (decode PolicyField (payload l)).

(** ** Registers *)

Definition RegisterLocation (r : Z) : option Location := make kRegister r.
Definition IsRegister (l : Location) : bool := kind l =? kRegister.
Definition reg (l : Location) : option Z := ASSERT (IsRegister l);; Some (payload l).

Definition FpuRegisterLocation (r : Z) : option Location := make kFpuRegister r.
Definition IsFpuRegister (l : Location) : bool := kind l =? kFpuRegister.
Definition fpu_reg (l : Location) : option Z := ASSERT (IsFpuRegister l);; Some (payload l).

Definition IsMachineRegisterKind (k : Z) : bool := (k =? kRegister) || (k =? kFpuRegister).
Definition IsMachineRegister (l : Location) : bool := IsMachineRegisterKind (kind l).
Definition MachineRegisterLocation (k : Kind) (r : Z) : option Location :=
  if Kind_value k =? kRegister then RegisterLocation r
  else ASSERT (Kind_value k =? kFpuRegister);; FpuRegisterLocation r.
Definition register_code (l : Location) : option Z := ASSERT (IsMachineRegister l);; Some (payload l).

(** ** Stack slots *)

Definition IsStackSlot (l : Location) : bool := kind l =? kStackSlot.
Definition IsDoubleStackSlot (l : Location) : bool := kind l =? kDoubleStackSlot.
Definition IsQuadStackSlot (l : Location) : bool := kind l =? kQuadStackSlot.
Definition HasStackIndex (l : Location) : bool := IsStackSlot l || IsDoubleStackSlot l || IsQuadStackSlot l.
Definition base_reg (l : Location) : option Z := ASSERT (HasStackIndex l);; Some (decode StackSlotBaseField (payload l)).
Definition stack_index (l : Location) : option Z := ASSERT (HasStackIndex l);; Some (decode StackIndexField (payload l)).

Definition slot_payload (index base : Z) : option Z := encode StackSlotBaseField base .|? encode StackIndexField index.

(** The three constructors differ in the kind. *)
Definition slot (k : Kind) (index base : Z) : option Location :=
  match slot_payload index base with
  | None => None
  | Some payload =>
      match make k payload with
      | None => None
      | Some loc => ASSERT (option_eqb (stack_index loc) index);; Some loc
      end
  end.
Definition StackSlot (index base : Z) : option Location := slot kStackSlot index base.
Definition DoubleStackSlot (index base : Z) : option Location := slot kDoubleStackSlot index base.
Definition QuadStackSlot (index base : Z) : option Location := slot kQuadStackSlot index base.

Definition kWordSize : Z := 8.
Definition ToStackSlotOffset (l : Location) : option Z := option_map (fun i => i * kWordSize) (stack_index l).

(** For a location that is not a pair; [FPREG] and [SPREG] are [FP] and [SP]. *)
Definition ToSpRelative (fp_to_sp_delta : Z) (l : Location) : option Location :=
  if HasStackIndex l then
    ASSERT (option_eqb (base_reg l) FP);;
    match stack_index l with
    | None => None
    | Some i =>
        match slot_payload (i - fp_to_sp_delta) SP with
        | None => None
        | Some payload => encode KindField (kind l) .|? encode PayloadField payload
        end
    end
  else Some l.

(** ** What a location stands for *)

Inductive place :=
  | AtRegister (r : Z)
  | AtFpuRegister (r : Z)
  | AtSlot (k : Kind) (index base : Z)
  | AtConstant (obj index : Z)
  | AtAny (p : Policy).

Definition is_slot_kind (k : Kind) : bool := match k with kStackSlot | kDoubleStackSlot | kQuadStackSlot => true | _ => false end.

(** The arguments the constructors take: a [ConstantInstr] is word aligned. *)
Definition valid_place (p : place) : Prop :=
  match p with
  | AtRegister r | AtFpuRegister r => is_uN 59 r
  | AtSlot k index base => is_slot_kind k = true /\ is_sN 53 index /\ is_uN 6 base
  | AtConstant obj index => is_uN 64 obj /\ obj mod 4 = 0 /\ (index = 0 \/ index = 1)
  | AtAny _ => True
  end.

Definition location_of (p : place) : option Location :=
  match p with
  | AtRegister r => RegisterLocation r
  | AtFpuRegister r => FpuRegisterLocation r
  | AtSlot k index base => slot k index base
  | AtConstant obj index => Constant obj index
  | AtAny p => UnallocatedLocation p
  end.

Definition kind_of (x : Z) : option Kind := find (fun k => x =? Kind_value k) [kStackSlot; kDoubleStackSlot; kQuadStackSlot].
Definition policy_of (x : Z) : option Policy :=
  find (fun p => x =? Policy_value p)
    [kAny; kPrefersRegister; kRequiresRegister; kRequiresFpuRegister; kWritableRegister; kSameAsFirstInput;
     kSameAsFirstOrSecondInput; kMayBeSameAsFirstInput; kRequiresStack].

(** The place, read back with the predicates and accessors of the class. *)
Definition describe (l : Location) : option place :=
  if IsConstant l then
    match constant_instruction l, pair_index l with Some obj, Some i => Some (AtConstant obj i) | _, _ => None end
  else if IsRegister l then option_map AtRegister (reg l)
  else if IsFpuRegister l then option_map AtFpuRegister (fpu_reg l)
  else if HasStackIndex l then
    match kind_of (kind l), stack_index l, base_reg l with Some k, Some i, Some b => Some (AtSlot k i b) | _, _, _ => None end
  else match policy l with Some p => option_map AtAny (policy_of p) | None => None end.

Lemma fits_all : fits KindField /\ fits PayloadField /\ fits PolicyField /\ fits StackSlotBaseField /\ fits StackIndexField.
Proof. vm_compute; intuition discriminate. Qed.

Lemma valid_payload x : is_uN 59 x -> is_valid PayloadField x = true.
Proof. intros [L U]. apply is_valid_range; [apply fits_all|]. change (min PayloadField) with 0. change (max PayloadField) with (2 ^ 59 - 1). lia. Qed.

(** A location of a kind that is neither a constant nor a pair. *)
Lemma make_ok (k : Kind) x : Z.land k 3 = 0 -> Kind_value k <> 0 -> is_uN 59 x ->
  exists l, make k x = Some l /\ kind l = Kind_value k /\ payload l = x /\ IsConstant l = false /\ l <> 0.
Proof.
  intros Hk K0 Hx. destruct fits_all as (FK & FP' & _).
  destruct (encode_two KindField PayloadField k x FK FP') as (l & E & DK & DP & B).
  - left. vm_compute. discriminate.
  - destruct k; reflexivity.
  - apply valid_payload, Hx.
  - exists l. split; [exact E|split; [exact DK|split; [exact DP|]]].
    assert (L : Z.testbit l 0 = false).
    { destruct (Z.testbit l 0) eqn:T; [|reflexivity]. unfold kind in DK.
      assert (Z.testbit (decode KindField l) 0 = true) by (change (decode KindField l) with ((u64 l >> 0) .& 31); rewrite Z.land_spec, Z.shiftr_0_r, testbit_uN, T by lia; reflexivity).
      rewrite DK in H. assert (Z.testbit (Z.land k 3) 0 = true) by (rewrite Z.land_spec, H; reflexivity). rewrite Hk in *. discriminate. }
    split; [|intros ->; apply K0; rewrite <- DK; reflexivity].
    unfold IsConstant. change (Kind_value kConstantTag) with 1. replace (l .& 1) with 0; [reflexivity|].
    symmetry. apply Z.bits_inj'. intros i Hi. rewrite Z.land_spec, Z.bits_0. destruct (Z.eq_dec i 0) as [->|]; [rewrite L; reflexivity|].
    replace (Z.testbit 1 i) with false; [apply andb_false_r|]. symmetry. change 1 with (2 ^ 0). apply Z.pow2_bits_false. lia.
Qed.

Lemma slot_payload_ok index base : is_sN 53 index -> is_uN 6 base ->
  exists x, slot_payload index base = Some x /\ is_uN 59 x /\ decode StackSlotBaseField x = base /\ decode StackIndexField x = index.
Proof.
  intros Hi Hb. destruct fits_all as (_ & _ & _ & FB & FI).
  destruct (encode_two StackSlotBaseField StackIndexField base index FB FI) as (x & E & DB & DI & B).
  - left. vm_compute. discriminate.
  - apply is_valid_range; [exact FB|]. change (min StackSlotBaseField) with 0. change (max StackSlotBaseField) with 63. destruct Hb. lia.
  - apply is_valid_range; [exact FI|]. change (min StackIndexField) with (- 2 ^ 52). change (max StackIndexField) with (2 ^ 52 - 1). destruct Hi. lia.
  - exists x. split; [exact E|split; [|auto]].
    enough (X : x = uN 59 x) by (rewrite X; apply uN_range; lia).
    apply Z.bits_inj'. intros i Hi'. rewrite testbit_uN by lia. destruct (Z.testbit x i) eqn:T; [|rewrite andb_false_r; reflexivity].
    destruct (B i Hi' T) as [R|R]; change (kNextBit StackSlotBaseField) with 6 in R; change (kNextBit StackIndexField) with 59 in R; lia.
Qed.

Lemma slot_ok k index base : valid_place (AtSlot k index base) ->
  exists l, slot k index base = Some l /\ kind l = Kind_value k /\ IsConstant l = false /\ l <> 0 /\
    stack_index l = Some index /\ base_reg l = Some base.
Proof.
  intros (Hk & Hi & Hb). destruct (slot_payload_ok index base Hi Hb) as (x & E & Rx & DB & DI).
  destruct (make_ok k x) as (l & M & K & Pl & C & N); [destruct k; discriminate || reflexivity..|exact Rx|].
  assert (HS : HasStackIndex l = true) by (unfold HasStackIndex, IsStackSlot, IsDoubleStackSlot, IsQuadStackSlot; rewrite K; destruct k; discriminate || reflexivity).
  exists l. unfold slot, stack_index, base_reg. rewrite E, M, HS, Pl, DB, DI. cbn [option_eqb]. rewrite Z.eqb_refl. auto 10.
Qed.

Lemma constant_ok obj index : valid_place (AtConstant obj index) ->
  exists l, Constant obj index = Some l /\ IsConstant l = true /\ constant_instruction l = Some obj /\ pair_index l = Some index.
Proof.
  intros (Ho & Hm & Hi). assert (O : exists q, obj = q << 2).
  { exists (obj / 4). rewrite Z.shiftl_mul_pow2 by lia. change (2 ^ 2) with 4. rewrite (Z.div_mod obj 4) at 1 by lia. lia. }
  destruct O as [q Hq]. set (l := obj .| (if negb (index =? 0) then 2 else 0) .| 1).
  assert (C : IsConstant l = true).
  { unfold IsConstant. apply Z.eqb_eq. change (Kind_value kConstantTag) with 1. subst l. destruct Hi as [-> | ->]; cbn [Z.eqb negb]; bits_solve. }
  assert (I : constant_instruction l = Some obj).
  { unfold constant_instruction. rewrite C. f_equal. change (Z.lnot kLocationTagMask) with (-4). subst l.
    assert (R : obj = u64 obj) by (rewrite uN_small; auto). rewrite R, Hq. destruct Hi as [-> | ->]; cbn [Z.eqb negb]; bits_solve. }
  assert (X : pair_index l = Some index).
  { unfold pair_index. rewrite C. change (Kind_value kPairLocationTag) with 2. subst l. rewrite Hq. f_equal.
    destruct Hi as [-> | ->]; cbn [Z.eqb negb].
    - replace ((q << 2 .| 0 .| 1) .& 2) with 0 by bits_solve. reflexivity.
    - replace ((q << 2 .| 2 .| 1) .& 2) with 2 by bits_solve. reflexivity. }
  exists l. split; [|auto]. unfold Constant. replace ((index =? 0) || (index =? 1)) with true by lia. cbv zeta.
  change (obj .| (if negb (index =? 0) then Kind_value kPairLocationTag else 0) .| Kind_value kConstantTag) with l.
  rewrite I, X. cbn [option_eqb]. rewrite !Z.eqb_refl. reflexivity.
Qed.

Lemma location_of_ok p : valid_place p -> exists l, location_of p = Some l /\ describe l = Some p /\ IsInvalid l = false.
Proof.
  unfold IsInvalid. destruct p as [r|r|k index base|obj index|p]; intros V; cbn [location_of].
  - destruct (make_ok kRegister r eq_refl ltac:(discriminate) V) as (l & M & K & Pl & C & N). exists l. split; [exact M|].
    unfold describe, IsRegister, reg, IsRegister. rewrite C, K, Pl. split; [reflexivity|apply Z.eqb_neq, N].
  - destruct (make_ok kFpuRegister r eq_refl ltac:(discriminate) V) as (l & M & K & Pl & C & N). exists l. split; [exact M|].
    unfold describe, IsRegister, IsFpuRegister, fpu_reg, IsFpuRegister. rewrite C, K, Pl. split; [reflexivity|apply Z.eqb_neq, N].
  - destruct (slot_ok k index base V) as (l & M & K & C & N & I & B). exists l. split; [exact M|]. split; [|apply Z.eqb_neq, N].
    unfold describe, IsRegister, IsFpuRegister, HasStackIndex, IsStackSlot, IsDoubleStackSlot, IsQuadStackSlot. rewrite C, K, I, B.
    destruct V as [V _]. destruct k; discriminate || reflexivity.
  - destruct (constant_ok obj index V) as (l & M & C & I & X). exists l. split; [exact M|]. unfold describe. rewrite C, I, X.
    split; [reflexivity|]. apply Z.eqb_neq. intros ->. discriminate C.
  - destruct p; eexists; (split; [reflexivity|split; reflexivity]).
Qed.

Lemma base_registers : is_uN 6 FP /\ is_uN 6 SP.
Proof. split; split; vm_compute; discriminate || reflexivity. Qed.

(** A location encodes its place without loss: every register, FPU register, stack slot of each of the three sizes
    with any base register and index, constant and allocation policy has a location, its predicates and accessors read
    the place back, it is never the invalid location, and no two places share one; rebasing a slot of the frame pointer
    gives the slot of the stack pointer at the shifted index. *)
Theorem locations_faithful p : valid_place p ->
  exists l, location_of p = Some l /\ describe l = Some p /\ IsInvalid l = false /\
    (forall q, valid_place q -> location_of q = Some l -> q = p) /\
    (forall k index delta, p = AtSlot k index FP -> is_sN 53 (index - delta) ->
       ToSpRelative delta l = location_of (AtSlot k (index - delta) SP)).
Proof.
  intros V. destruct (location_of_ok p V) as (l & L & D & I). exists l. split; [exact L|split; [exact D|split; [exact I|split]]].
  - intros q Vq Lq. destruct (location_of_ok q Vq) as (l' & L' & D' & _). congruence.
  - intros k index delta -> Hd. destruct V as (Hk & Hi & _).
    destruct (slot_ok k index FP (conj Hk (conj Hi (proj1 base_registers)))) as (l' & M & K & _ & _ & X & B).
    cbn [location_of] in L. assert (l' = l) by congruence. subst l'.
    destruct (slot_ok k (index - delta) SP (conj Hk (conj Hd (proj2 base_registers)))) as (m & M' & _).
    cbn [location_of]. revert M'. unfold ToSpRelative, slot, make.
    replace (HasStackIndex l) with true by (unfold HasStackIndex, IsStackSlot, IsDoubleStackSlot, IsQuadStackSlot; rewrite K; destruct k; discriminate || reflexivity).
    rewrite B, X, K. change (option_eqb (Some (Register_value FP)) FP) with true. cbv iota. destruct (slot_payload (index - delta) SP) as [x|]; [|discriminate].
    destruct (encode KindField k .|? encode PayloadField x) as [m'|]; [|discriminate]. destruct (option_eqb _ _); [|discriminate]. reflexivity.
Qed.

Lemma locations_faithful_witness :
  exists l, StackSlot (-3) FP = Some l /\ describe l = Some (AtSlot kStackSlot (-3) FP) /\ ToSpRelative 4 l = StackSlot (-3 - 4) SP.
Proof.
  destruct (locations_faithful (AtSlot kStackSlot (-3) FP)) as (l & L & D & _ & _ & T); [repeat split; vm_compute; discriminate || reflexivity|].
  exists l. split; [exact L|split; [exact D|]]. apply (T kStackSlot (-3) 4); [reflexivity|split; vm_compute; discriminate || reflexivity].
Defined.
