(* ===== verification/Result.v ===== *)
(** * Results of pure compiler code

    A computation of the compiler ends with a value ([Done]), fails an [ASSERT]
    (or reaches [UNREACHABLE], or overflows a signed integer, which C++ leaves
    undefined), or runs out of the fuel that bounds its loops. *)

From Stdlib Require Import ZArith.
From S2P Require Import Prelude.

Inductive result (A : Type) :=
  | Done (a : A)
  | AssertionFailure
  | OutOfFuel.
Arguments Done {A} a.
Arguments AssertionFailure {A}.
Arguments OutOfFuel {A}.

Definition rbind {A B} (x : result A) (f : A -> result B) : result B :=
  match x with Done a => f a | AssertionFailure => AssertionFailure | OutOfFuel => OutOfFuel end.
Notation "'let*' x := e 'in' k" := (rbind e (fun x => k)) (at level 10, x pattern, e at level 150, k at level 200).
Notation "'require' b ;; k" := (if b then k else AssertionFailure) (at level 10, b at level 150, k at level 200).

(** The computation ends, with a value that satisfies [P]. *)
Definition returns {A} (P : A -> Prop) (x : result A) : Prop := exists a, x = Done a /\ P a.

Lemma returns_done {A} (P : A -> Prop) a : P a -> returns P (Done a).
Proof. exists a. auto. Qed.

Lemma returns_done_inv {A} (P : A -> Prop) a : returns P (Done a) -> P a.
Proof. intros (b & [= ->] & H). exact H. Qed.

Lemma returns_bind {A B} (P : A -> Prop) (Q : B -> Prop) x (f : A -> result B) :
  returns P x -> (forall a, P a -> returns Q (f a)) -> returns Q (rbind x f).
Proof. intros (a & -> & Ha) H. exact (H a Ha). Qed.

Lemma returns_weaken {A} (P Q : A -> Prop) x : returns P x -> (forall a, P a -> Q a) -> returns Q x.
Proof. intros (a & -> & Ha) H. exists a. auto. Qed.

Lemma returns_require {A} (P : A -> Prop) b (x : result A) : b = true -> returns P x -> returns P (require b;; x).
Proof. intros ->. auto. Qed.

(** No loop runs out of fuel, and a value that is returned satisfies [P]. *)
Definition ensures {A} (P : A -> Prop) (x : result A) : Prop :=
  match x with Done a => P a | AssertionFailure => True | OutOfFuel => False end.

Lemma returns_ensures {A} (P : A -> Prop) x : returns P x -> ensures P x.
Proof. intros (a & -> & H). exact H. Qed.

Lemma ensures_bind {A B} (P : A -> Prop) (Q : B -> Prop) x (f : A -> result B) :
  ensures P x -> (forall a, P a -> ensures Q (f a)) -> ensures Q (rbind x f).
Proof. destruct x; cbn; auto. Qed.

Lemma ensures_weaken {A} (P Q : A -> Prop) x : ensures P x -> (forall a, P a -> Q a) -> ensures Q x.
Proof. destruct x; cbn; auto. Qed.
