(* ===== verification/ParallelMove.v ===== *)
(** * The parallel move resolver ([vm/compiler/backend/parallel_move_resolver.{h,cc}])

    Class [MoveOperands] of [il.h], class [ParallelMoveResolver], which turns a
    set of moves to be done at once into a sequence of moves and swaps, and the
    part of [ParallelMoveEmitter] that chooses scratch registers.  The state of
    the resolver is the list [moves_] and the list [scheduled_ops_].

    [PerformMove] recurses into the moves that block it; [fuel] bounds the depth.
    A computation ends ([Done]), fails an [ASSERT], or runs out of fuel. *)

From Stdlib Require Import ZArith Lia ZifyBool Bool List.
From S2P Require Import Prelude Utils RvEncoding BitField Location Result.
Import ListNotations.
Open Scope Z_scope.

(** ** [MoveOperands] *)

Record MoveOperands := mkMove { dest_ : Location; src_ : Location }.

(** The [ASSERT] in [IsPending] and [IsEliminated]. *)
Definition consistent (m : MoveOperands) : bool := negb (IsInvalid (src_ m)) || IsInvalid (dest_ m).

Definition IsEliminated (m : MoveOperands) : result bool := require consistent m;; Done (IsInvalid (src_ m)).
Definition IsPending (m : MoveOperands) : result bool :=
  require consistent m;; Done (IsInvalid (dest_ m) && negb (IsInvalid (src_ m))).

(** The destination and the move marked as pending. *)
Definition MarkPending (m : MoveOperands) : result (Location * MoveOperands) :=
  let* p := IsPending m in
  require negb p;; Done (dest_ m, mkMove NoLocation (src_ m)).
Definition ClearPending (m : MoveOperands) (dest : Location) : result MoveOperands :=
  let* p := IsPending m in
  require p;; Done (mkMove dest (src_ m)).

Definition Blocks (m : MoveOperands) (loc : Location) : result bool :=
  let* e := IsEliminated m in Done (negb e && Equals (src_ m) loc).

Definition IsRedundant (m : MoveOperands) : result bool :=
  let* e := IsEliminated m in Done (e || IsInvalid (dest_ m) || Equals (src_ m) (dest_ m)).

Definition Eliminate (m : MoveOperands) : MoveOperands := mkMove NoLocation NoLocation.
Definition set_src (m : MoveOperands) (value : Location) : MoveOperands := mkMove (dest_ m) value.

(** ** [ParallelMoveResolver] *)

Inductive OpKind := kNop | kMove | kSwap.
Record Op := mkOp { op_kind : OpKind; operands : MoveOperands }.

Record Resolver := mkResolver { moves_ : list MoveOperands; scheduled_ops_ : list Op }.

Definition move_at (st : Resolver) (i : nat) : result MoveOperands :=
  match nth_error (moves_ st) i with Some m => Done m | None => AssertionFailure end.
Definition set_move (st : Resolver) (i : nat) (m : MoveOperands) : Resolver :=
  mkResolver (set_nth i m (moves_ st)) (scheduled_ops_ st).
Definition add_op (st : Resolver) (k : OpKind) (m : MoveOperands) : Resolver :=
  mkResolver (moves_ st) (scheduled_ops_ st ++ [mkOp k m]).

Definition AddMoveToSchedule (st : Resolver) (index : nat) : result Resolver :=
  let* move := move_at st index in
  let st := add_op st kMove move in
  Done (set_move st index (Eliminate move)).

(** The loop of [AddSwapToSchedule] over the moves. *)
Fixpoint swap_sources (source destination : Location) (ms : list MoveOperands) : result (list MoveOperands) :=
  match ms with
  | [] => Done []
  | other_move :: rest =>
      let* bs := Blocks other_move source in
      let* m := if bs then Done (set_src other_move destination)
                else let* bd := Blocks other_move destination in
                     Done (if bd then set_src other_move source else other_move) in
      let* rest := swap_sources source destination rest in
      Done (m :: rest)
  end.

Definition AddSwapToSchedule (st : Resolver) (index : nat) : result Resolver :=
  let* move := move_at st index in
  let source := src_ move in
  let destination := dest_ move in
  let st := add_op st kSwap move in
  let st := set_move st index (Eliminate move) in
  let* ms := swap_sources source destination (moves_ st) in
  Done (mkResolver ms (scheduled_ops_ st)).

(** [for (int i = 0; i < moves_.length(); ++i)]: [k] iterations from [i]. *)
Fixpoint for_moves (k i : nat) (body : nat -> Resolver -> result Resolver) (st : Resolver) : result Resolver :=
  match k with
  | O => Done st
  | S k => let* st := body i st in for_moves k (S i) body st
  end.

(** The search for a blocking move; the one found must be pending. *)
Fixpoint find_blocking (destination : Location) (ms : list MoveOperands) : result bool :=
  match ms with
  | [] => Done false
  | other_move :: rest =>
      let* b := Blocks other_move destination in
      if b then let* p := IsPending other_move in require p;; Done true
      else find_blocking destination rest
  end.

(** After the blocking moves: the move is the last of a cycle, closes a cycle, or is free. *)
Definition finish_move (destination : Location) (index : nat) (st : Resolver) : result Resolver :=
  let* move := move_at st index in
  let* move := ClearPending move destination in
  let st := set_move st index move in
  if Equals (src_ move) destination then Done (set_move st index (Eliminate move))
  else
    let* blocked := find_blocking destination (moves_ st) in
    if blocked then AddSwapToSchedule st index else AddMoveToSchedule st index.

Fixpoint PerformMove (fuel : nat) (index : nat) (st : Resolver) : result Resolver :=
  match fuel with
  | O => OutOfFuel
  | S fuel =>
      let* move := move_at st index in
      let* pending := IsPending move in
      require negb pending;;
      let* redundant := IsRedundant move in
      require negb redundant;;
      require negb (IsInvalid (src_ move));;
      let* (destination, marked) := MarkPending move in
      let st := set_move st index marked in
      let* st := for_moves (length (moves_ st)) 0 (fun i st =>
                   let* other_move := move_at st i in
                   let* b := Blocks other_move destination in
                   if b then
                     let* p := IsPending other_move in
                     if negb p then PerformMove fuel i st else Done st
                   else Done st) st in
      finish_move destination index st
  end.

Fixpoint BuildInitialMoveList (ms : list MoveOperands) : result (list MoveOperands) :=
  match ms with
  | [] => Done []
  | move :: rest =>
      let* r := IsRedundant move in
      let* rest := BuildInitialMoveList rest in
      Done (if negb r then move :: rest else rest)
  end.

(** The moves with constant sources, last. *)
Fixpoint add_constants (ms : list MoveOperands) (st : Resolver) : result Resolver :=
  match ms with
  | [] => Done st
  | move :: rest =>
      let* e := IsEliminated move in
      if negb e then require IsConstant (src_ move);; add_constants rest (add_op st kMove move)
      else add_constants rest st
  end.

(** [MoveSchedule::From]. *)
Definition MoveSchedule_From (ops : list Op) : list Op :=
  filter (fun op => match op_kind op with kNop => false | _ => true end) ops.

Definition Resolve (fuel : nat) (parallel_move : list MoveOperands) : result (list Op) :=
  let* ms := BuildInitialMoveList parallel_move in
  let st := mkResolver ms [] in
  let* st := for_moves (length ms) 0 (fun i st =>
               let* move := move_at st i in
               let* e := IsEliminated move in
               if negb e && negb (IsConstant (src_ move)) then PerformMove fuel i st else Done st) st in
  let* st := add_constants (moves_ st) st in
  Done (MoveSchedule_From (scheduled_ops_ st)).

(** ** Scratch registers: [ParallelMoveEmitter] *)

Definition reads (op : Op) (loc : Location) : bool :=
  Equals (src_ (operands op)) loc ||
  (match op_kind op with kSwap => true | _ => false end && Equals (dest_ (operands op)) loc).
Definition overwrites (op : Op) (loc : Location) : bool :=
  match op_kind op with kMove => true | _ => false end && Equals (dest_ (operands op)) loc.

Definition IsScratchLocation (move_schedule : list Op) (current_move_ : nat) (loc : Location) : bool :=
  if existsb (fun op => reads op loc) (skipn current_move_ move_schedule) then false
  else existsb (fun op => overwrites op loc) (skipn (S current_move_) move_schedule).

(** The first register from [reg] on, among [k], that satisfies [test]; [-1] if there is none. *)
Fixpoint first_register (k : nat) (reg : Z) (test : Z -> bool) : Z :=
  match k with
  | O => -1
  | S k => if test reg then reg else first_register k (reg + 1) test
  end.

Definition is_blocked (blocked_mask reg : Z) : bool := negb (((1 << reg) .& blocked_mask) =? 0).

(** The register and [*spilled]; [MachineRegisterLocation] asserts nothing for register numbers. *)
Definition AllocateScratchRegister (move_schedule : list Op) (current_move_ : nat) (kind : Kind)
  (blocked_mask first_free_register last_free_register : Z) : Z * bool :=
  let count := Z.to_nat (last_free_register - first_free_register + 1) in
  let scratch := first_register count first_free_register (fun reg =>
    negb (is_blocked blocked_mask reg) &&
    match MachineRegisterLocation kind reg with Some loc => IsScratchLocation move_schedule current_move_ loc | None => false end) in
  if scratch =? -1
  then (first_register count first_free_register (fun reg => negb (is_blocked blocked_mask reg)), true)
  else (scratch, false).
