(* ===== verification/ParallelMoveProofs.v ===== *)
(** * Correctness of the parallel move resolver

    The schedule [Resolve] builds, executed in order, has the effect of all the
    moves at once, whatever cycles and trees they form; the resolver ends, fails
    no assertion, and a scratch register it offers holds nothing that is needed.

    The invariant ([Inv]) is about the stack of pending moves of the recursion:
    each pending move but the first reads the destination of the one below. *)

From Stdlib Require Import ZArith Lia ZifyBool Bool List.
From S2P Require Import Prelude Utils RvEncoding BitField Location ParallelMove Result.
Import ListNotations.
Open Scope Z_scope.

(** ** Executing a schedule *)

Section Exec.
Context {V : Type}.

Definition put (env : Location -> V) (l : Location) (v : V) : Location -> V := fun x => if x =? l then v else env x.

Definition exec_op (env : Location -> V) (op : Op) : Location -> V :=
  let d := dest_ (operands op) in
  let s := src_ (operands op) in
  match op_kind op with
  | kNop => env
  | kMove => put env d (env s)
  | kSwap => put (put env d (env s)) s (env d)
  end.

Definition exec (ops : list Op) (env : Location -> V) : Location -> V := fold_left exec_op ops env.

Lemma exec_app ops1 ops2 env : exec (ops1 ++ ops2) env = exec ops2 (exec ops1 env).
Proof. apply fold_left_app. Qed.

End Exec.

(** ** The state of the recursion *)

Definition moves : Type := list MoveOperands.
Definition stack : Type := list (nat * Location).

Definition gone : MoveOperands := mkMove NoLocation NoLocation.

(** The destination of a move that is not eliminated; the stack has those of the pending ones. *)
Definition dst (st : stack) (ms : moves) (i : nat) (d : Location) : Prop :=
  In (i, d) st \/ exists m, nth_error ms i = Some m /\ dest_ m = d /\ d <> NoLocation.

Definition source (ms : moves) (i : nat) (s : Location) : Prop :=
  exists m, nth_error ms i = Some m /\ src_ m = s /\ s <> NoLocation.

(** Move [i] is neither eliminated nor pending and reads [s]. *)
Definition idle (ms : moves) (i : nat) (s : Location) : Prop :=
  exists m, nth_error ms i = Some m /\ dest_ m <> NoLocation /\ src_ m = s.

(** Each pending move reads the destination of the one below it. *)
Fixpoint chain (st : stack) (ms : moves) : Prop :=
  match st with
  | (i, _) :: ((_, d) :: _) as rest => source ms i d /\ chain rest ms
  | _ => True
  end.
Arguments chain : simpl nomatch.

Record Inv (st : stack) (ms : moves) : Prop := mkInv {
  inv_shape : forall i m, nth_error ms i = Some m ->
    m = gone \/ (src_ m <> NoLocation /\ (dest_ m <> NoLocation \/ exists d, In (i, d) st));
  inv_stack : forall i d, In (i, d) st -> exists s, nth_error ms i = Some (mkMove NoLocation s) /\ s <> NoLocation;
  inv_nodup : NoDup (map fst st);
  inv_dst : forall i d, dst st ms i d -> d <> NoLocation /\ IsConstant d = false;
  inv_distinct : forall i j d, dst st ms i d -> dst st ms j d -> i = j;
  inv_self : forall i m, nth_error ms i = Some m -> dest_ m <> NoLocation -> src_ m <> dest_ m;
  inv_chain : chain st ms
}.

(** What remains to be done turns [env] into [target]. *)
Definition meets {V} (st : stack) (ms : moves) (env target : Location -> V) : Prop :=
  (forall i d s, dst st ms i d -> source ms i s -> target d = env s) /\
  (forall l, (forall i, ~ dst st ms i l) -> target l = env l).

(** ** Lookups *)

Lemma nth_set_same (ms : moves) i m m' : nth_error ms i = Some m -> nth_error (set_nth i m' ms) i = Some m'.
Proof.
  intros H. rewrite nth_error_set_nth, Nat.eqb_refl. assert (i < length ms)%nat by (apply nth_error_Some; congruence).
  replace (Nat.ltb i (length ms)) with true by (symmetry; apply Nat.ltb_lt; assumption). reflexivity.
Qed.

Lemma nth_set_other (ms : moves) i j m' : i <> j -> nth_error (set_nth i m' ms) j = nth_error ms j.
Proof. intros H. rewrite nth_error_set_nth. apply Nat.eqb_neq in H. rewrite H. reflexivity. Qed.

Lemma nth_set_inv (ms : moves) i j m m' : nth_error (set_nth i m' ms) j = Some m ->
  (i = j /\ m = m') \/ (i <> j /\ nth_error ms j = Some m).
Proof.
  rewrite nth_error_set_nth. destruct (Nat.eqb i j) eqn:E; [|intros H; right; split; [apply Nat.eqb_neq, E|exact H]].
  apply Nat.eqb_eq in E. destruct (Nat.ltb j (length ms)); intros [= <-]. auto.
Qed.

(** ** The predicates of [MoveOperands] on well-shaped moves *)

Definition shaped (m : MoveOperands) : Prop := m = gone \/ src_ m <> NoLocation.

Lemma inv_shaped st ms i m : Inv st ms -> nth_error ms i = Some m -> shaped m.
Proof. intros I H. destruct (inv_shape _ _ I i m H) as [->|[S _]]; [left|right]; auto. Qed.

Lemma invalid_eq l : IsInvalid l = (l =? NoLocation).
Proof. reflexivity. Qed.

Lemma shaped_consistent m : shaped m -> consistent m = true.
Proof. intros [->|S]; unfold consistent; [reflexivity|]. rewrite invalid_eq. replace (src_ m =? NoLocation) with false by (symmetry; apply Z.eqb_neq; exact S). reflexivity. Qed.

Lemma Blocks_ok m loc : shaped m -> loc <> NoLocation -> Blocks m loc = Done (src_ m =? loc).
Proof.
  intros S Hl. unfold Blocks, IsEliminated. rewrite shaped_consistent by exact S. cbn [rbind]. rewrite invalid_eq. unfold Equals.
  destruct (src_ m =? NoLocation) eqn:E; [|reflexivity]. cbn. f_equal. symmetry. unfold NoLocation, kInvalidLocation in *. lia.
Qed.

Lemma IsPending_ok m : shaped m -> IsPending m = Done (negb (src_ m =? NoLocation) && (dest_ m =? NoLocation)).
Proof. intros S. unfold IsPending. rewrite shaped_consistent by exact S. rewrite !invalid_eq, andb_comm. reflexivity. Qed.

Lemma IsRedundant_ok m : shaped m -> IsRedundant m = Done ((src_ m =? NoLocation) || (dest_ m =? NoLocation) || (src_ m =? dest_ m)).
Proof. intros S. unfold IsRedundant, IsEliminated. rewrite shaped_consistent by exact S. reflexivity. Qed.

(** ** Marking a move as pending *)

Section Mark.
Context (st : stack) (ms : moves) (I : Inv st ms) (i : nat) (d s : Location) (Hi : nth_error ms i = Some (mkMove d s))
  (Hd : d <> NoLocation) (Hs : s <> NoLocation) (Htop : match st with [] => True | (_, d') :: _ => s = d' end).

Let ms1 : moves := set_nth i (mkMove NoLocation s) ms.
Let st1 : stack := (i, d) :: st.

Lemma idle_fresh : ~ In i (map fst st).
Proof.
  intros H. apply in_map_iff in H as ([j d'] & E & H). cbn in E. subst j. destruct (inv_stack _ _ I i d' H) as (s' & N & _). congruence.
Qed.

Lemma mark_dst j l : dst st1 ms1 j l <-> dst st ms j l.
Proof.
  unfold dst, st1, ms1. split.
  - intros [[[= <- <-]|H]|(m & N & E & Hl)]; [right; eexists; split; [exact Hi|auto]|left; exact H|].
    destruct (nth_set_inv _ _ _ _ _ N) as [(-> & ->)|(_ & N')]; [cbn in E; congruence|]. right. exists m. auto.
  - intros [H|(m & N & E & Hl)]; [left; right; exact H|]. destruct (Nat.eq_dec i j) as [->|Hj].
    + left. left. rewrite Hi in N. injection N as <-. cbn in E. congruence.
    + right. exists m. rewrite nth_set_other by exact Hj. auto.
Qed.

Lemma mark_source j l : source ms1 j l <-> source ms j l.
Proof.
  unfold source, ms1. destruct (Nat.eq_dec i j) as [->|Hj].
  - rewrite (nth_set_same ms j _ _ Hi), Hi. split; intros (m & [= <-] & E & H); eexists; (split; [reflexivity|]); cbn in *; auto.
  - rewrite nth_set_other by exact Hj. reflexivity.
Qed.

Lemma mark_chain l : chain l ms -> chain l ms1.
Proof.
  induction l as [|[j d1] [|[k d2] l] IH]; auto. intros [H1 H2]. split; [apply mark_source, H1|apply IH, H2].
Qed.

Lemma mark_Inv : Inv st1 ms1.
Proof.
  split.
  - intros j m N. destruct (nth_set_inv _ _ _ _ _ N) as [(<- & ->)|(_ & N')].
    + right. split; [exact Hs|right; exists d; left; reflexivity].
    + destruct (inv_shape _ _ I j m N') as [->|(S & [D|(d' & D)])]; auto. right. split; [exact S|right; exists d'; right; exact D].
  - intros j d' [[= <- <-]|H]; [exists s; split; [apply (nth_set_same ms i _ _ Hi)|exact Hs]|].
    destruct (inv_stack _ _ I j d' H) as (s' & N & S). exists s'. split; [|exact S]. unfold ms1. rewrite nth_set_other; [exact N|].
    intros <-. apply idle_fresh, in_map_iff. exists (i, d'). auto.
  - cbn. constructor; [apply idle_fresh|apply I].
  - intros j l H. apply (inv_dst _ _ I j), mark_dst, H.
  - intros j k l H1 H2. apply (inv_distinct _ _ I j k l); apply mark_dst; assumption.
  - intros j m N D. destruct (nth_set_inv _ _ _ _ _ N) as [(<- & ->)|(_ & N')]; [contradiction|]. apply (inv_self _ _ I j m N' D).
  - unfold st1. pose proof (mark_chain st (inv_chain _ _ I)) as C. destruct st as [|[j d'] rest]; [exact Logic.I|].
    split; [|exact C]. apply mark_source. subst d'. exists (mkMove d s). auto.
Qed.

Lemma mark_meets {V} (env target : Location -> V) : meets st ms env target -> meets st1 ms1 env target.
Proof.
  intros [M1 M2]. split.
  - intros j l s' D S. apply (M1 j l s'); [apply mark_dst, D|apply mark_source, S].
  - intros l H. apply M2. intros j D. apply (H j), mark_dst, D.
Qed.

Lemma mark_idle j l : idle ms1 j l -> idle ms j l.
Proof.
  intros (m & N & D & S). destruct (nth_set_inv _ _ _ _ _ N) as [(<- & ->)|(_ & N')]; [contradiction|]. exists m. auto.
Qed.

End Mark.

(** ** Removing the move on top of the stack *)

Lemma chain_ext st (ms ms' : moves) : (forall j l, In j (map fst st) -> source ms j l -> source ms' j l) -> chain st ms -> chain st ms'.
Proof.
  induction st as [|[j d1] [|[k d2] st] IH]; auto. intros H [H1 H2]. split; [apply H; [left; reflexivity|exact H1]|].
  apply IH; [|exact H2]. intros j' l Hj. apply H. right. exact Hj.
Qed.

Section Drop.
Context (st : stack) (ms : moves) (i : nat) (d s : Location) (I : Inv ((i, d) :: st) ms) (Hi : nth_error ms i = Some (mkMove NoLocation s)).

Let st1 : stack := (i, d) :: st.
Let ms' : moves := set_nth i gone ms.

Lemma drop_fresh : ~ In i (map fst st).
Proof. pose proof (inv_nodup _ _ I) as N. inversion N. assumption. Qed.

Lemma top_dst : dst st1 ms i d.
Proof. left. left. reflexivity. Qed.

Lemma top_dst_unique l : dst st1 ms i l -> l = d.
Proof.
  intros [[[= <-]|H]|(m & N & E & Hl)]; [reflexivity| |].
  - exfalso. apply drop_fresh, in_map_iff. exists (i, l). auto.
  - rewrite Hi in N. injection N as <-. cbn in E. congruence.
Qed.

Lemma drop_dst j l : dst st ms' j l <-> dst st1 ms j l /\ j <> i.
Proof.
  unfold dst, st1, ms'. split.
  - intros [H|(m & N & E & Hl)].
    + split; [left; right; exact H|]. intros ->. apply drop_fresh, in_map_iff. exists (i, l). auto.
    + destruct (nth_set_inv _ _ _ _ _ N) as [(<- & ->)|(Hj & N')]; [cbn in E; congruence|]. split; [right; exists m; auto|auto].
  - intros [[[[= <- <-]|H]|(m & N & E & Hl)] Hj]; [contradiction|left; exact H|]. right. exists m. rewrite nth_set_other by auto. auto.
Qed.

Lemma drop_source j l : source ms' j l <-> source ms j l /\ j <> i.
Proof.
  unfold source, ms'. split.
  - intros (m & N & E & Hl). destruct (nth_set_inv _ _ _ _ _ N) as [(<- & ->)|(Hj & N')]; [cbn in E; congruence|]. split; [exists m; auto|auto].
  - intros [(m & N & E & Hl) Hj]. exists m. rewrite nth_set_other by auto. auto.
Qed.

Lemma drop_idle j l : idle ms' j l -> idle ms j l /\ j <> i.
Proof.
  intros (m & N & D & S). destruct (nth_set_inv _ _ _ _ _ N) as [(<- & ->)|(Hj & N')]; [contradiction|]. split; [exists m; auto|auto].
Qed.

Lemma drop_Inv : Inv st ms'.
Proof.
  split.
  - intros j m N. destruct (nth_set_inv _ _ _ _ _ N) as [(<- & ->)|(Hj & N')]; [left; reflexivity|].
    destruct (inv_shape _ _ I j m N') as [->|(S & [D|(d' & [[= <- <-]|D])])]; auto; [congruence|]. right. split; [exact S|right; exists d'; exact D].
  - intros j d' H. destruct (inv_stack _ _ I j d' (or_intror H)) as (s' & N & S). exists s'. split; [|exact S]. unfold ms'.
    rewrite nth_set_other; [exact N|]. intros <-. apply drop_fresh, in_map_iff. exists (i, d'). auto.
  - pose proof (inv_nodup _ _ I) as N. inversion N. assumption.
  - intros j l H. apply (inv_dst _ _ I j), drop_dst, H.
  - intros j k l H1 H2. apply (inv_distinct _ _ I j k l); apply drop_dst; assumption.
  - intros j m N D. destruct (nth_set_inv _ _ _ _ _ N) as [(<- & ->)|(_ & N')]; [contradiction|]. apply (inv_self _ _ I j m N' D).
  - apply (chain_ext st ms ms').
    + intros j l Hj S. apply drop_source. split; [exact S|]. intros ->. apply drop_fresh, Hj.
    + pose proof (inv_chain _ _ I) as C. destruct st as [|[j d'] rest]; [exact Logic.I|apply C].
Qed.

(** The location no remaining move writes: not [d], unless the dropped move did. *)
Lemma drop_unwritten {V} (env target : Location -> V) l : meets st1 ms env target -> (forall j, ~ dst st ms' j l) -> l <> d -> target l = env l.
Proof.
  intros [_ M2] H Hl. apply M2. intros j D. destruct (Nat.eq_dec j i) as [->|Hj]; [apply Hl, top_dst_unique, D|].
  apply (H j), drop_dst. auto.
Qed.

Lemma drop_done {V} (env target : Location -> V) : s <> NoLocation -> meets st1 ms env target -> target d = env s.
Proof. intros Hs [M1 _]. apply (M1 i); [apply top_dst|]. exists (mkMove NoLocation s). auto. Qed.

(** The last move of a cycle is already done. *)
Lemma drop_meets_self {V} (env target : Location -> V) : s <> NoLocation -> s = d -> meets st1 ms env target -> meets st ms' env target.
Proof.
  intros Hs E M. split.
  - intros j l s' D S. apply drop_dst in D. apply drop_source in S. apply (proj1 M j l s'); [apply D|apply S].
  - intros l H. destruct (Z.eq_dec l d) as [->|Hl]; [|apply drop_unwritten; assumption]. rewrite (drop_done env target Hs M), E. reflexivity.
Qed.

(** A move nothing waits for. *)
Lemma drop_meets_move {V} (env target : Location -> V) : s <> NoLocation -> (forall j, j <> i -> ~ source ms j d) ->
  meets st1 ms env target -> meets st ms' (put env d (env s)) target.
Proof.
  intros Hs Hfree M. unfold put. split.
  - intros j l s' D S. apply drop_dst in D. apply drop_source in S. destruct S as [S Hj].
    destruct (s' =? d) eqn:E; [apply Z.eqb_eq in E; subst s'; destruct (Hfree j Hj S)|]. apply (proj1 M j l s'); [apply D|exact S].
  - intros l H. destruct (l =? d) eqn:E; [apply Z.eqb_eq in E; subst l; apply drop_done; assumption|].
    apply drop_unwritten; [exact M|exact H|apply Z.eqb_neq, E].
Qed.

End Drop.

(** ** Renaming the sources after a swap *)

Definition rn (a b l : Location) : Location := if l =? a then b else if l =? b then a else l.
Definition rename (a b : Location) (m : MoveOperands) : MoveOperands := mkMove (dest_ m) (rn a b (src_ m)).

Lemma swap_sources_ok a b ms : a <> NoLocation -> b <> NoLocation -> Forall shaped ms -> swap_sources a b ms = Done (map (rename a b) ms).
Proof.
  intros Ha Hb. induction 1 as [|m ms S F IH]; [reflexivity|]. cbn [swap_sources map]. rewrite !Blocks_ok by assumption. cbn [rbind].
  destruct m as [d s]. unfold rename, rn, set_src. cbn [src_ dest_]. destruct (s =? a); [|destruct (s =? b)]; cbn [rbind]; rewrite IH; reflexivity.
Qed.

Section Rename.
Context (i : nat) (s d : Location) (rest : stack) (ms : moves).
Let st : stack := (i, s) :: rest.
Context (I : Inv st ms) (Hd : d <> NoLocation) (Hcd : IsConstant d = false) (Hfree : forall j, ~ dst st ms j d) (Hidle : forall j, ~ idle ms j d).

Let ms' : moves := map (rename s d) ms.

Lemma nth_rename j m' : nth_error ms' j = Some m' -> exists m, nth_error ms j = Some m /\ m' = rename s d m.
Proof. unfold ms'. rewrite nth_error_map. destruct (nth_error ms j) as [m|]; [|discriminate]. intros [= <-]. eauto. Qed.

Lemma s_dst : dst st ms i s.
Proof. left. left. reflexivity. Qed.

Lemma s_valid : s <> NoLocation /\ IsConstant s = false.
Proof. apply (inv_dst _ _ I i), s_dst. Qed.

Lemma s_not_d : s <> d.
Proof. intros E. apply (Hfree i). rewrite <- E. apply s_dst. Qed.

Lemma rn_valid l : rn s d l <> NoLocation <-> l <> NoLocation.
Proof. pose proof s_valid as [S _]. unfold rn. destruct (l =? s) eqn:E1; [|destruct (l =? d) eqn:E2]; unfold NoLocation, kInvalidLocation in *; lia. Qed.

Lemma rn_none : rn s d NoLocation = NoLocation.
Proof. destruct (Z.eq_dec (rn s d NoLocation) NoLocation) as [E|E]; [exact E|]. exact (match proj1 (rn_valid NoLocation) E eq_refl with end). Qed.

Lemma rename_dst j l : dst st ms' j l <-> dst st ms j l.
Proof.
  unfold dst. split; (intros [H|(m & N & E & Hl)]; [left; exact H|right]).
  - destruct (nth_rename j m N) as (m0 & N0 & ->). exists m0. auto.
  - exists (rename s d m). unfold ms'. rewrite nth_error_map, N. auto.
Qed.

Lemma rename_source j l : source ms' j l <-> exists l', source ms j l' /\ l = rn s d l'.
Proof.
  unfold source. split.
  - intros (m & N & E & Hl). destruct (nth_rename j m N) as (m0 & N0 & ->). exists (src_ m0). cbn in E. split; [|auto].
    exists m0. split; [exact N0|split; [reflexivity|]]. apply rn_valid. rewrite E. exact Hl.
  - intros (l' & (m & N & E & Hl) & ->). exists (rename s d m). unfold ms'. rewrite nth_error_map, N. split; [reflexivity|split; [cbn; congruence|apply rn_valid, Hl]].
Qed.

Lemma rename_idle j l : dst st ms i l \/ (exists k, dst st ms k l) -> idle ms' j l -> idle ms j l.
Proof.
  intros Hl (m & N & D & S). destruct (nth_rename j m N) as (m0 & N0 & ->). cbn in S, D. exists m0. split; [exact N0|split; [exact D|]].
  unfold rn in S. destruct (src_ m0 =? s) eqn:E1; [exfalso; subst l; destruct Hl as [Hl|[k Hl]]; eapply Hfree, Hl|].
  destruct (src_ m0 =? d) eqn:E2; [|exact S]. exfalso. apply (Hidle j). exists m0. split; [exact N0|split; [exact D|apply Z.eqb_eq, E2]].
Qed.

Lemma chain_rename l : (forall k dk, In (k, dk) (tl l) -> dk <> s /\ dk <> d) -> chain l ms -> chain l ms'.
Proof.
  induction l as [|[j d1] [|[k d2] l] IH]; auto. intros H [H1 H2]. split.
  - apply rename_source. exists d2. split; [exact H1|]. destruct (H k d2 (or_introl eq_refl)) as [N1 N2]. unfold rn.
    apply Z.eqb_neq in N1, N2. rewrite N1, N2. reflexivity.
  - apply IH; [|exact H2]. intros k' dk Hk. apply (H k' dk). right. exact Hk.
Qed.

Lemma rename_Inv : Inv st ms'.
Proof.
  split.
  - intros j m N. destruct (nth_rename j m N) as (m0 & N0 & ->). destruct (inv_shape _ _ I j m0 N0) as [->|(S & D)].
    + left. unfold rename, gone. cbn [dest_ src_]. rewrite rn_none. reflexivity.
    + right. cbn. split; [apply rn_valid, S|exact D].
  - intros j d' H. destruct (inv_stack _ _ I j d' H) as (s' & N & S). exists (rn s d s'). unfold ms'. rewrite nth_error_map, N.
    split; [reflexivity|apply rn_valid, S].
  - apply I.
  - intros j l H. apply (inv_dst _ _ I j), rename_dst, H.
  - intros j k l H1 H2. apply (inv_distinct _ _ I j k l); apply rename_dst; assumption.
  - intros j m N D. destruct (nth_rename j m N) as (m0 & N0 & ->). cbn in *. unfold rn. destruct (src_ m0 =? s) eqn:E1.
    + intros E. apply (Hfree j). right. exists m0. rewrite E in *. auto.
    + destruct (src_ m0 =? d) eqn:E2; [|apply (inv_self _ _ I j m0 N0 D)]. exfalso. apply (Hidle j). exists m0. apply Z.eqb_eq in E2. auto.
  - apply chain_rename; [|apply I]. cbn [tl]. intros k dk Hk. split.
    + intros ->. assert (k = i) by (apply (inv_distinct _ _ I k i s); [left; right; exact Hk|apply s_dst]). subst k.
      pose proof (inv_nodup _ _ I) as N. inversion N as [|x y Hx _]. apply Hx, in_map_iff. exists (i, s). auto.
    + intros ->. apply (Hfree k). left. right. exact Hk.
Qed.

(** The swap moves [s] to [d]; the other sources follow. *)
Lemma rename_meets {V} (env target : Location -> V) :
  (forall j l s', dst st ms j l -> source ms j s' -> target l = env s') -> target d = env s ->
  (forall l, (forall j, ~ dst st ms j l) -> l <> d -> target l = env l) ->
  meets st ms' (put (put env d (env s)) s (env d)) target.
Proof.
  intros H1 H2 H3. pose proof s_not_d as N. split.
  - intros j l s' D S. apply rename_source in S as (l' & S & ->). rewrite (H1 j l l'); [|apply rename_dst, D|exact S].
    unfold put, rn. destruct (l' =? s) eqn:E1; [|destruct (l' =? d) eqn:E2].
    + replace (d =? s) with false by (symmetry; apply Z.eqb_neq; auto). rewrite Z.eqb_refl. apply Z.eqb_eq in E1. congruence.
    + rewrite Z.eqb_refl. apply Z.eqb_eq in E2. congruence.
    + rewrite E1, E2. reflexivity.
  - intros l H. assert (Hl : forall j, ~ dst st ms j l) by (intros j D; apply (H j), rename_dst, D). unfold put.
    replace (l =? s) with false by (symmetry; apply Z.eqb_neq; intros ->; apply (Hl i), s_dst).
    destruct (l =? d) eqn:E; [apply Z.eqb_eq in E; congruence|]. apply H3; [exact Hl|apply Z.eqb_neq, E].
Qed.

End Rename.

(** ** One call of [PerformMove] *)

(** What a piece of the algorithm does while the moves of [st] are pending: it keeps the invariant, only eliminates moves
    or replaces their sources, makes no idle move read the destination of a pending one, and schedules [ops], whose
    effect is that of the moves eliminated. *)
Record Post (st : stack) (ms ms' : moves) (ops : list Op) : Prop := mkPost {
  post_length : length ms' = length ms;
  post_Inv : Inv st ms';
  post_kept : forall i m', nth_error ms' i = Some m' -> exists m, nth_error ms i = Some m /\
    (m' = gone \/ (dest_ m' = dest_ m /\ m <> gone /\ IsConstant (src_ m') = IsConstant (src_ m)));
  post_idle : forall i d j, In (i, d) st -> idle ms' j d -> idle ms j d;
  post_meets : forall V (env target : Location -> V), meets st ms env target -> meets st ms' (exec ops env) target
}.

Lemma gone_or m : {m = gone} + {m <> gone}.
Proof. destruct m as [d s], (Z.eq_dec d NoLocation), (Z.eq_dec s NoLocation); subst; [left; reflexivity|right; intros [=]; congruence..]. Qed.

Lemma Post_refl st ms : Inv st ms -> Post st ms ms [].
Proof. intros I. split; auto. intros i m N. exists m. split; [exact N|]. destruct (gone_or m); auto. Qed.

Lemma Post_trans st ms1 ms2 ms3 ops1 ops2 : Post st ms1 ms2 ops1 -> Post st ms2 ms3 ops2 -> Post st ms1 ms3 (ops1 ++ ops2).
Proof.
  intros P1 P2. split.
  - rewrite (post_length _ _ _ _ P2). apply P1.
  - apply P2.
  - intros i m3 N3. destruct (post_kept _ _ _ _ P2 i m3 N3) as (m2 & N2 & H2). destruct (post_kept _ _ _ _ P1 i m2 N2) as (m1 & N1 & H1).
    exists m1. split; [exact N1|]. destruct H2 as [->|(D2 & G2 & C2)]; [auto|]. destruct H1 as [->|(D1 & G1 & C1)]; [contradiction|]. right. repeat split; congruence.
  - intros i d j H J. apply (post_idle _ _ _ _ P1 i d j H), (post_idle _ _ _ _ P2 i d j H), J.
  - intros V env target M. rewrite exec_app. apply P2, P1, M.
Qed.

Lemma Inv_shaped st ms : Inv st ms -> Forall shaped ms.
Proof. intros I. apply Forall_forall. intros m H. apply In_nth_error in H as [i N]. apply (inv_shaped st ms i m I N). Qed.

Lemma set_nth_twice (ms : moves) i x y : set_nth i x (set_nth i y ms) = set_nth i x ms.
Proof. revert i. induction ms as [|m ms IH]; intros [|i]; cbn; congruence. Qed.

(** The search finds a move that reads [d] if there is one. *)
Lemma find_blocking_ok d ms : d <> NoLocation -> Forall shaped ms -> (forall i m, nth_error ms i = Some m -> src_ m = d -> dest_ m = NoLocation) ->
  find_blocking d ms = Done (existsb (fun m => src_ m =? d) ms).
Proof.
  intros Hd. induction 1 as [|m ms Sh F IH]; intros Hp; [reflexivity|]. cbn [find_blocking existsb]. rewrite Blocks_ok by assumption. cbn [rbind].
  destruct (src_ m =? d) eqn:E.
  - rewrite IsPending_ok by exact Sh. cbn [rbind]. apply Z.eqb_eq in E. rewrite (Hp O m eq_refl E), Z.eqb_refl, E.
    apply Z.eqb_neq in Hd. rewrite Hd. reflexivity.
  - apply IH. intros i m' N. apply (Hp (S i) m' N).
Qed.

Section Finish.
Context (st : stack) (ms : moves) (i : nat) (d : Location) (I : Inv ((i, d) :: st) ms) (Hidle : forall j, ~ idle ms j d) (ops : list Op).

Lemma kept_drop j m' : nth_error (set_nth i gone ms) j = Some m' -> exists m, nth_error ms j = Some m /\
    (m' = gone \/ (dest_ m' = dest_ m /\ m <> gone /\ IsConstant (src_ m') = IsConstant (src_ m))).
Proof.
  intros N. destruct (nth_set_inv _ _ _ _ _ N) as [(<- & ->)|(Hj & N')].
  - destruct (inv_stack _ _ I i d (or_introl eq_refl)) as (s & Ns & _). eauto.
  - exists m'. split; [exact N'|]. destruct (gone_or m'); auto.
Qed.

(** The postcondition of the whole call, from [ms] to [ms'], in which move [i] is gone. *)
Definition FinishPost (ms' : moves) (ops' : list Op) : Prop :=
  length ms' = length ms /\ Inv st ms' /\ nth_error ms' i = Some gone /\
  (forall j m', nth_error ms' j = Some m' -> exists m, nth_error ms j = Some m /\
     (m' = gone \/ (dest_ m' = dest_ m /\ m <> gone /\ IsConstant (src_ m') = IsConstant (src_ m)))) /\
  (forall k dk j, In (k, dk) st -> idle ms' j dk -> idle ms j dk) /\
  (forall V (env target : Location -> V), meets ((i, d) :: st) ms env target -> meets st ms' (exec ops' env) target).

Lemma FinishPost_drop s ops' : nth_error ms i = Some (mkMove NoLocation s) ->
  (forall V (env target : Location -> V), meets ((i, d) :: st) ms env target -> meets st (set_nth i gone ms) (exec ops' env) target) ->
  FinishPost (set_nth i gone ms) ops'.
Proof.
  intros N M. split; [apply length_set_nth|split; [apply (drop_Inv st ms i d I)|split; [apply (nth_set_same ms i _ _ N)|split; [apply kept_drop|split; [|exact M]]]]].
  intros k dk j _ J. apply (drop_idle ms i) in J. apply J.
Qed.

Lemma FinishPost_swap s k rest : st = (k, s) :: rest -> s <> NoLocation -> nth_error ms i = Some (mkMove NoLocation s) ->
  FinishPost (map (rename s d) (set_nth i gone ms)) [mkOp kSwap (mkMove d s)].
Proof.
  intros Est Hs N. pose proof (drop_Inv st ms i d I) as I'. rewrite Est in I'.
  pose proof (inv_dst _ _ I i d (top_dst st ms i d)) as [Hd Hcd].
  assert (Hfree : forall j, ~ dst ((k, s) :: rest) (set_nth i gone ms) j d).
  { intros j D. rewrite <- Est in D. apply (drop_dst st ms i d I) in D as [D Hj]. apply Hj. apply (inv_distinct _ _ I j i d D), top_dst. }
  assert (Hidle' : forall j, ~ idle (set_nth i gone ms) j d) by (intros j J; apply (drop_idle ms i) in J; apply (Hidle j), J).
  pose proof (s_valid k s rest _ I') as [_ Hcs].
  assert (Rg : rename s d gone = gone) by (unfold rename, gone; cbn [dest_ src_]; rewrite (rn_none k s d rest (set_nth i gone ms)) by assumption; reflexivity).
  split; [rewrite length_map; apply length_set_nth|split; [rewrite Est; apply rename_Inv; assumption|split; [|split; [|split]]]].
  - rewrite nth_error_map, (nth_set_same ms i _ _ N). exact (f_equal Some Rg).
  - intros j m' Nj. destruct (nth_rename s d _ j m' Nj) as (m0 & N0 & ->). destruct (kept_drop j m0 N0) as (m & Nm & [->|(D & G & C)]); exists m; (split; [exact Nm|]).
    + left. exact Rg.
    + right. cbn [rename dest_ src_]. split; [exact D|split; [exact G|]]. rewrite <- C. unfold rn.
      destruct (src_ m0 =? s) eqn:E1; [apply Z.eqb_eq in E1; congruence|]. destruct (src_ m0 =? d) eqn:E2; [apply Z.eqb_eq in E2; congruence|reflexivity].
  - intros k' dk j Hk J. rewrite Est in Hk. apply (rename_idle k s d rest _ Hfree Hidle') in J; [apply (drop_idle ms i) in J; apply J|].
    right. exists k'. left. exact Hk.
  - intros V env target M. rewrite Est in *. apply rename_meets; try assumption.
    + intros j l s' D S. apply (drop_dst ((k, s) :: rest) ms i d I) in D. apply (drop_source ms i) in S. apply (proj1 M j l s'); [apply D|apply S].
    + apply (drop_done ((k, s) :: rest) ms i d s N env target Hs M).
    + intros l H Hl. apply (drop_unwritten ((k, s) :: rest) ms i d s I N env target l M H Hl).
Qed.

End Finish.

Section FinishMove.
Context (st : stack) (ms : moves) (i : nat) (d s : Location) (I : Inv ((i, d) :: st) ms) (Hidle : forall j, ~ idle ms j d) (ops : list Op)
  (N : nth_error ms i = Some (mkMove NoLocation s)) (Hs : s <> NoLocation) (Hsd : s <> d).

Let restored : moves := set_nth i (mkMove d s) ms.

Lemma restored_shaped : Forall shaped restored.
Proof.
  apply Forall_forall. intros m H. apply In_nth_error in H as [j Nj]. destruct (nth_set_inv _ _ _ _ _ Nj) as [(_ & ->)|(_ & N')]; [right; exact Hs|].
  apply (inv_shaped _ _ j m I N').
Qed.

Lemma restored_blocking j m : nth_error restored j = Some m -> src_ m = d -> j <> i /\ nth_error ms j = Some m /\ dest_ m = NoLocation.
Proof.
  intros Nj E. destruct (nth_set_inv _ _ _ _ _ Nj) as [(_ & ->)|(Hj & N')]; [cbn in E; congruence|]. split; [auto|split; [exact N'|]].
  destruct (Z.eq_dec (dest_ m) NoLocation) as [H|H]; [exact H|]. destruct (Hidle j). exists m. auto.
Qed.

(** A move that is still blocked waits for a pending one, so it is not the first: its source is the destination below. *)
Lemma blocked_below : existsb (fun m => src_ m =? d) restored = true -> exists k rest, st = (k, s) :: rest.
Proof.
  intros H. apply existsb_exists in H as (m & Hm & E). apply Z.eqb_eq in E. apply In_nth_error in Hm as [j Nj].
  destruct (restored_blocking j m Nj E) as (Hj & N' & D). destruct (inv_shape _ _ I j m N') as [->|(_ & [D'|(dj & [[= <- _]|Hin])])]; try contradiction.
  - exfalso. apply (proj1 (inv_dst _ _ I i d (top_dst st ms i d))). symmetry. exact E.
  - destruct st as [|[k dk] rest]; [destruct Hin|]. exists k, rest. destruct (inv_chain _ _ I) as [(m' & N2 & E2 & _) _]. rewrite N in N2. injection N2 as <-. cbn in E2. congruence.
Qed.

Lemma finish_blocked_ok : exists ms' ops', (let* blocked := find_blocking d restored in
    if blocked then AddSwapToSchedule (mkResolver restored ops) i else AddMoveToSchedule (mkResolver restored ops) i)
    = Done (mkResolver ms' (ops ++ ops')) /\ FinishPost st ms i d ms' ops'.
Proof.
  pose proof (inv_dst _ _ I i d (top_dst st ms i d)) as [Hd _].
  rewrite find_blocking_ok; [|exact Hd|exact restored_shaped|intros j m Nj E; apply (restored_blocking j m Nj E)]. cbn [rbind].
  destruct (existsb _ restored) eqn:B; unfold AddSwapToSchedule, AddMoveToSchedule, move_at; cbn [moves_];
    unfold restored at 1; rewrite (nth_set_same ms i _ _ N); cbn [rbind]; cbv zeta; unfold set_move, add_op; cbn [moves_ scheduled_ops_ src_ dest_];
    change (Eliminate (mkMove d s)) with gone; unfold restored; rewrite set_nth_twice.
  - destruct (blocked_below B) as (k & rest & Est). rewrite swap_sources_ok; [|exact Hs|exact Hd|apply (Inv_shaped st), (drop_Inv st ms i d I)].
    eexists. exists [mkOp kSwap (mkMove d s)]. split; [reflexivity|]. apply (FinishPost_swap st ms i d I Hidle s k rest); assumption.
  - eexists. exists [mkOp kMove (mkMove d s)]. split; [reflexivity|]. apply (FinishPost_drop st ms i d I s); [exact N|].
    intros V env target M. apply (drop_meets_move st ms i d s I N env target Hs); [|exact M].
    intros j Hj (m & Nj & E & _). assert (In m restored) by (apply (nth_error_In _ j); unfold restored; rewrite nth_set_other by auto; exact Nj).
    assert (existsb (fun m => src_ m =? d) restored = true) by (apply existsb_exists; exists m; split; [assumption|apply Z.eqb_eq, E]). congruence.
Qed.

End FinishMove.

Lemma finish_move_ok st ms i d ops : Inv ((i, d) :: st) ms -> (forall j, ~ idle ms j d) ->
  exists ms' ops', finish_move d i (mkResolver ms ops) = Done (mkResolver ms' (ops ++ ops')) /\ FinishPost st ms i d ms' ops'.
Proof.
  intros I Hidle. destruct (inv_stack _ _ I i d (or_introl eq_refl)) as (s & N & Hs).
  unfold finish_move, move_at, ClearPending. cbn [moves_]. rewrite N. cbn [rbind]. rewrite IsPending_ok by (right; exact Hs). cbn [rbind src_ dest_].
  apply Z.eqb_neq in Hs as Hs'. rewrite Hs', Z.eqb_refl. cbn [negb andb rbind src_]. unfold Equals, set_move. cbn [moves_ scheduled_ops_].
  destruct (s =? d) eqn:E.
  - apply Z.eqb_eq in E. change (Eliminate (mkMove d s)) with gone. rewrite set_nth_twice. eexists. exists []. rewrite app_nil_r. split; [reflexivity|].
    apply (FinishPost_drop st ms i d I s); [exact N|]. intros V env target M. apply (drop_meets_self st ms i d s I N env target Hs E M).
  - apply finish_blocked_ok; try assumption. apply Z.eqb_neq, E.
Qed.

(** ** The recursion *)

(** The specification of a call on an idle move that the pending move on top of the stack waits for. *)
Definition performs (fuel : nat) : Prop := forall st ms ops i d s,
  Inv st ms -> nth_error ms i = Some (mkMove d s) -> d <> NoLocation -> s <> NoLocation ->
  match st with [] => True | (_, d') :: _ => s = d' end -> (length ms <= fuel + length st)%nat ->
  exists ms' ops', PerformMove fuel i (mkResolver ms ops) = Done (mkResolver ms' (ops ++ ops')) /\
    Post st ms ms' ops' /\ nth_error ms' i = Some gone.

(** The body of the loop over the blocking moves. *)
Definition unblock (fuel : nat) (destination : Location) (i : nat) (st : Resolver) : result Resolver :=
  let* other_move := move_at st i in
  let* b := Blocks other_move destination in
  if b then let* p := IsPending other_move in if negb p then PerformMove fuel i st else Done st else Done st.

Lemma unblock_ok fuel st ms ops i0 d i : performs fuel -> Inv ((i0, d) :: st) ms -> (length ms <= fuel + length ((i0, d) :: st))%nat -> (i < length ms)%nat ->
  exists ms' ops', unblock fuel d i (mkResolver ms ops) = Done (mkResolver ms' (ops ++ ops')) /\ Post ((i0, d) :: st) ms ms' ops' /\ ~ idle ms' i d.
Proof.
  intros HP I Hf Hi. destruct (nth_error ms i) as [m|] eqn:N; [|apply nth_error_None in N; lia].
  pose proof (inv_shaped _ _ i m I N) as Sh. pose proof (inv_dst _ _ I i0 d (top_dst st ms i0 d)) as [Hd _].
  unfold unblock, move_at. cbn [moves_]. rewrite N. cbn [rbind]. rewrite Blocks_ok by assumption. cbn [rbind].
  assert (Skip : ~ idle ms i d -> exists ms' ops', Done (mkResolver ms ops) = Done (mkResolver ms' (ops ++ ops')) /\ Post ((i0, d) :: st) ms ms' ops' /\ ~ idle ms' i d)
    by (intros H; exists ms, []; rewrite app_nil_r; auto using Post_refl).
  destruct (src_ m =? d) eqn:E; [|apply Skip; intros (m' & N' & _ & E'); rewrite N in N'; injection N' as <-; apply Z.eqb_neq in E; contradiction].
  apply Z.eqb_eq in E. rewrite IsPending_ok by exact Sh. cbn [rbind]. rewrite E. apply Z.eqb_neq in Hd as Hd'. rewrite Hd'. cbn [negb andb].
  destruct (dest_ m =? NoLocation) eqn:D; cbn [negb].
  - apply Skip. intros (m' & N' & D' & _). rewrite N in N'. injection N' as <-. apply Z.eqb_eq in D. contradiction.
  - destruct m as [dm sm]. cbn in *. subst sm. apply Z.eqb_neq in D.
    destruct (HP ((i0, d) :: st) ms ops i dm d I N D Hd eq_refl Hf) as (ms' & ops' & R & Ps & G). exists ms', ops'. split; [exact R|split; [exact Ps|]].
    intros (m' & N' & D' & _). rewrite G in N'. injection N' as <-. contradiction.
Qed.

Lemma unblock_loop_ok fuel st i0 d (HP : performs fuel) : forall k i ms ops, Inv ((i0, d) :: st) ms ->
  (length ms <= fuel + length ((i0, d) :: st))%nat -> (i + k = length ms)%nat -> (forall j, (j < i)%nat -> ~ idle ms j d) ->
  exists ms' ops', for_moves k i (unblock fuel d) (mkResolver ms ops) = Done (mkResolver ms' (ops ++ ops')) /\
    Post ((i0, d) :: st) ms ms' ops' /\ (forall j, ~ idle ms' j d).
Proof.
  induction k as [|k IH]; intros i ms ops I Hf Hk Hdone; cbn [for_moves].
  - exists ms, []. rewrite app_nil_r. split; [reflexivity|split; [apply Post_refl, I|]]. intros j J. apply (Hdone j); [|exact J].
    destruct J as (m & N & _). assert (j < length ms)%nat by (apply nth_error_Some; congruence). lia.
  - destruct (unblock_ok fuel st ms ops i0 d i HP I Hf ltac:(lia)) as (ms1 & ops1 & -> & P1 & G1). cbn [rbind].
    pose proof (post_length _ _ _ _ P1) as L1.
    destruct (IH (S i) ms1 (ops ++ ops1)) as (ms2 & ops2 & -> & P2 & G2); [apply P1|lia|lia| |].
    + intros j Hj J. destruct (Nat.eq_dec j i) as [->|Hji]; [contradiction|]. apply (Hdone j); [lia|]. apply (post_idle _ _ _ _ P1 i0 d j (or_introl eq_refl) J).
    + exists ms2, (ops1 ++ ops2). rewrite <- app_assoc. split; [reflexivity|split; [eapply Post_trans; eassumption|exact G2]].
Qed.

Lemma stack_bound st ms i d s : Inv st ms -> nth_error ms i = Some (mkMove d s) -> d <> NoLocation -> (length st < length ms)%nat.
Proof.
  intros I N Hd. assert (F : ~ In i (map fst st)).
  { intros H. apply in_map_iff in H as ([j d'] & E & H). cbn in E. subst j. destruct (inv_stack _ _ I i d' H) as (s' & N' & _). congruence. }
  assert (incl (i :: map fst st) (seq 0 (length ms))).
  { intros j [<-|H]; apply in_seq; [split; [lia|apply nth_error_Some; congruence]|]. apply in_map_iff in H as ([k d'] & <- & H).
    destruct (inv_stack _ _ I k d' H) as (s' & N' & _). split; [cbn; lia|]. apply nth_error_Some. cbn. congruence. }
  apply NoDup_incl_length in H; [|constructor; [exact F|apply I]]. cbn in H. rewrite length_map, length_seq in H. lia.
Qed.

Lemma PerformMove_ok : forall fuel, performs fuel.
Proof.
  induction fuel as [|fuel IH]; intros st ms ops i d s I N Hd Hs Htop Hf.
  - pose proof (stack_bound st ms i d s I N Hd). lia.
  - cbn [PerformMove]. unfold move_at at 1. cbn [moves_]. rewrite N. cbn [rbind].
    assert (Sh : shaped (mkMove d s)) by (right; exact Hs). apply Z.eqb_neq in Hd as Hd', Hs as Hs'.
    pose proof (inv_self _ _ I i _ N Hd) as Hself. apply Z.eqb_neq in Hself. cbn [src_ dest_] in Hself.
    unfold MarkPending. rewrite IsRedundant_ok, IsPending_ok by exact Sh. cbn [rbind src_ dest_]. rewrite Hd', Hs', Hself. cbn [negb andb orb rbind].
    rewrite invalid_eq, Hs'. cbn [negb]. unfold set_move at 1 2. cbn [moves_ scheduled_ops_]. fold (unblock fuel d).
    destruct (unblock_loop_ok fuel st i d IH (length (set_nth i (mkMove NoLocation s) ms)) 0 (set_nth i (mkMove NoLocation s) ms) ops) as (ms1 & ops1 & E1 & P1 & G1).
    + apply mark_Inv; assumption.
    + rewrite length_set_nth. cbn [length]. lia.
    + reflexivity.
    + intros j Hj. lia.
    + change (fun (i : nat) (st : Resolver) => _) with (unblock fuel d). rewrite E1. cbn [rbind].
      destruct (finish_move_ok st ms1 i d (ops ++ ops1) (post_Inv _ _ _ _ P1) G1) as (ms2 & ops2 & E2 & L2 & I2 & Gone & K2 & J2 & M2).
      exists ms2, (ops1 ++ ops2). rewrite E2, <- app_assoc. split; [reflexivity|]. split; [|exact Gone]. split.
      * rewrite L2, (post_length _ _ _ _ P1). apply length_set_nth.
      * exact I2.
      * intros j m2 N2. destruct (K2 j m2 N2) as (m1 & N1 & H1). destruct (post_kept _ _ _ _ P1 j m1 N1) as (m0 & N0 & H0).
        destruct (nth_set_inv _ _ _ _ _ N0) as [(<- & ->)|(_ & N0')].
        -- exists (mkMove d s). split; [exact N|]. left. congruence.
        -- exists m0. split; [exact N0'|]. destruct H1 as [->|(D1 & G & C1)]; [auto|]. destruct H0 as [->|(D0 & G0 & C0)]; [contradiction|]. right. repeat split; congruence.
      * intros k dk j Hk J. apply (mark_idle ms i s), (post_idle _ _ _ _ P1 k dk j (or_intror Hk)), (J2 k dk j Hk), J.
      * intros V env target M. rewrite exec_app. apply M2, (post_meets _ _ _ _ P1), mark_meets; assumption.
Qed.

(** ** The whole schedule *)

(** A move with both operands; its destination is a register or a slot. *)
Definition needed (m : MoveOperands) : bool := negb (IsInvalid (src_ m)) && negb (IsInvalid (dest_ m)).

(** A parallel move writes each location at most once, and no constant. *)
Definition wf_parallel_move (pm : moves) : Prop :=
  Forall (fun m => consistent m = true) pm /\ Forall (fun m => IsConstant (dest_ m) = false) pm /\ NoDup (map dest_ (filter needed pm)).

Definition redundant (m : MoveOperands) : bool := negb (needed m) || (src_ m =? dest_ m).

Lemma needed_spec m : needed m = true <-> src_ m <> NoLocation /\ dest_ m <> NoLocation.
Proof. unfold needed, IsInvalid, NoLocation. lia. Qed.

Lemma BuildInitialMoveList_ok pm : Forall (fun m => consistent m = true) pm -> BuildInitialMoveList pm = Done (filter (fun m => negb (redundant m)) pm).
Proof.
  induction 1 as [|m pm C _ IH]; [reflexivity|]. cbn [BuildInitialMoveList filter]. unfold IsRedundant, IsEliminated. rewrite C, IH. cbn [rbind].
  replace (IsInvalid (src_ m) || IsInvalid (dest_ m) || Equals (src_ m) (dest_ m)) with (redundant m)
    by (unfold redundant, needed, Equals; destruct (IsInvalid (src_ m)), (IsInvalid (dest_ m)); reflexivity).
  reflexivity.
Qed.

Section Whole.
Context (pm : moves) (Hwf : wf_parallel_move pm).

Let ms0 : moves := filter (fun m => negb (redundant m)) pm.

Lemma ms0_spec m : In m ms0 <-> In m pm /\ src_ m <> NoLocation /\ dest_ m <> NoLocation /\ src_ m <> dest_ m.
Proof. unfold ms0. rewrite filter_In. unfold redundant. pose proof (needed_spec m). destruct (needed m); cbn; intuition lia. Qed.

Lemma same_dest_needed m m' : In m pm -> In m' pm -> needed m = true -> needed m' = true -> dest_ m = dest_ m' -> m = m'.
Proof.
  intros H H' N N' E. destruct Hwf as (_ & _ & D). assert (G : In m (filter needed pm)) by (apply filter_In; auto).
  assert (G' : In m' (filter needed pm)) by (apply filter_In; auto). revert D G G'. generalize (filter needed pm). clear -E.
  induction l as [|x l IH]; [intros _ []|]. cbn. inversion 1 as [|y z Hx Hl]; subst. intros [->|G] [->|G']; auto.
  - exfalso. apply Hx. rewrite E. apply in_map, G'.
  - exfalso. apply Hx. rewrite <- E. apply in_map, G.
Qed.

Lemma ms0_distinct : NoDup (map dest_ ms0).
Proof.
  destruct Hwf as (_ & _ & D). unfold ms0. replace (filter (fun m => negb (redundant m)) pm) with (filter (fun m => negb (src_ m =? dest_ m)) (filter needed pm)).
  - revert D. generalize (filter needed pm). induction l as [|x l IH]; [constructor|]. cbn. inversion 1 as [|y z Hx Hl]; subst.
    destruct (negb _); [|auto]. cbn. constructor; [|auto]. intros H. apply Hx. apply in_map_iff in H as (m & E & H). apply filter_In in H as [H _].
    apply in_map_iff. eauto.
  - clear. induction pm as [|x l IH]; [reflexivity|]. cbn [filter]. unfold redundant at 1. destruct (needed x); cbn [filter negb orb]; rewrite IH; reflexivity.
Qed.

Lemma ms0_dst i d : dst [] ms0 i d -> exists m, nth_error ms0 i = Some m /\ In m ms0 /\ dest_ m = d.
Proof. intros [[]|(m & N & E & _)]. exists m. split; [exact N|split; [apply (nth_error_In _ i), N|exact E]]. Qed.

Lemma ms0_Inv : Inv [] ms0.
Proof.
  split.
  - intros i m N. apply nth_error_In in N. apply ms0_spec in N as (_ & S & D & _). auto.
  - intros i d [].
  - constructor.
  - intros i d H. destruct (ms0_dst i d H) as (m & _ & G & <-). apply ms0_spec in G as (Hpm & _ & D & _). split; [exact D|].
    destruct Hwf as (_ & C & _). rewrite Forall_forall in C. apply C, Hpm.
  - intros i j d H1 H2. destruct (ms0_dst i d H1) as (m & N & _ & E). destruct (ms0_dst j d H2) as (m' & N' & _ & E').
    apply (proj1 (NoDup_nth_error (map dest_ ms0)) ms0_distinct).
    + rewrite length_map. apply nth_error_Some. congruence.
    + rewrite !nth_error_map, N, N'. cbn. congruence.
  - intros i m N _. apply nth_error_In in N. apply ms0_spec in N. apply N.
  - exact Logic.I.
Qed.

(** The effect of all the moves at once. *)
Definition parallel {V} (env : Location -> V) : Location -> V :=
  fun l => match find (fun m => needed m && (dest_ m =? l)) pm with Some m => env (src_ m) | None => env l end.

Lemma parallel_at {V} (env : Location -> V) m : In m pm -> needed m = true -> parallel env (dest_ m) = env (src_ m).
Proof.
  intros H N. unfold parallel. destruct (find _ pm) as [m'|] eqn:F.
  - apply find_some in F as (H' & E). apply andb_true_iff in E as [N' E]. apply Z.eqb_eq in E. rewrite (same_dest_needed m' m); auto.
  - pose proof (find_none _ _ F m H) as E. cbn in E. rewrite N, Z.eqb_refl in E. discriminate.
Qed.

Lemma parallel_other {V} (env : Location -> V) l : (forall m, In m pm -> needed m = true -> dest_ m <> l) -> parallel env l = env l.
Proof.
  intros H. unfold parallel. destruct (find _ pm) as [m|] eqn:F; [|reflexivity]. apply find_some in F as (H' & E).
  apply andb_true_iff in E as [N E]. apply Z.eqb_eq in E. destruct (H m H' N E).
Qed.

Lemma ms0_meets {V} (env : Location -> V) : meets [] ms0 env (parallel env).
Proof.
  split.
  - intros i d s D (m' & N' & <- & _). destruct (ms0_dst i d D) as (m & N & G & <-). assert (m' = m) by congruence. subst m'.
    apply ms0_spec in G as (G & S & Dv & _). apply parallel_at; [exact G|]. apply needed_spec. auto.
  - intros l H. destruct (find (fun m => needed m && (dest_ m =? l)) pm) as [m|] eqn:F; [|unfold parallel; rewrite F; reflexivity].
    apply find_some in F as (G & E). apply andb_true_iff in E as [N E]. apply Z.eqb_eq in E. subst l. rewrite parallel_at by assumption.
    apply needed_spec in N as [S D]. destruct (Z.eq_dec (src_ m) (dest_ m)) as [Q|Q]; [congruence|].
    assert (G0 : In m ms0) by (apply ms0_spec; auto). apply In_nth_error in G0 as [i Ni]. destruct (H i). right. exists m. auto.
Qed.

(** The loop of [Resolve] leaves only moves from constants. *)
Definition resolve_body (fuel : nat) (i : nat) (st : Resolver) : result Resolver :=
  let* move := move_at st i in
  let* e := IsEliminated move in
  if negb e && negb (IsConstant (src_ move)) then PerformMove fuel i st else Done st.

Definition settled (m : MoveOperands) : Prop := m = gone \/ IsConstant (src_ m) = true.

Lemma settled_kept ms ms' ops j : Post [] ms ms' ops -> (forall m, nth_error ms j = Some m -> settled m) -> forall m, nth_error ms' j = Some m -> settled m.
Proof.
  intros P H m N. destruct (post_kept _ _ _ _ P j m N) as (m0 & N0 & [->|(_ & G & C)]); [left; reflexivity|].
  destruct (H m0 N0) as [->|S]; [contradiction|]. right. congruence.
Qed.

Lemma resolve_loop_ok fuel : forall k i ms ops, Inv [] ms -> (length ms <= fuel)%nat -> (i + k = length ms)%nat ->
  (forall j m, (j < i)%nat -> nth_error ms j = Some m -> settled m) ->
  exists ms' ops', for_moves k i (resolve_body fuel) (mkResolver ms ops) = Done (mkResolver ms' (ops ++ ops')) /\ Post [] ms ms' ops' /\ Forall settled ms'.
Proof.
  induction k as [|k IH]; intros i ms ops I Hf Hk Hdone; cbn [for_moves].
  - exists ms, []. rewrite app_nil_r. split; [reflexivity|split; [apply Post_refl, I|]]. apply Forall_forall. intros m H. apply In_nth_error in H as [j N].
    apply (Hdone j m); [|exact N]. assert (j < length ms)%nat by (apply nth_error_Some; congruence). lia.
  - destruct (nth_error ms i) as [m|] eqn:N; [|apply nth_error_None in N; lia]. pose proof (inv_shaped _ _ i m I N) as Sh.
    assert (B : exists ms1 ops1, resolve_body fuel i (mkResolver ms ops) = Done (mkResolver ms1 (ops ++ ops1)) /\ Post [] ms ms1 ops1 /\
        forall m, nth_error ms1 i = Some m -> settled m).
    { unfold resolve_body, move_at, IsEliminated. cbn [moves_]. rewrite N. cbn [rbind]. rewrite shaped_consistent by exact Sh. cbn [rbind].
      destruct (negb _ && negb _) eqn:E.
      - apply andb_true_iff in E as [E1 E2]. destruct m as [d s]. cbn in *. assert (Hs : s <> NoLocation) by (unfold IsInvalid, NoLocation in *; lia).
        destruct (inv_shape _ _ I i _ N) as [[= -> ->]|(_ & [Hd|(d' & [])])]; [contradiction|]. cbn in Hd.
        destruct (PerformMove_ok fuel [] ms ops i d s I N Hd Hs Logic.I ltac:(cbn; lia)) as (ms1 & ops1 & R & P & G). exists ms1, ops1.
        split; [exact R|split; [exact P|]]. intros m' N'. left. congruence.
      - exists ms, []. rewrite app_nil_r. split; [reflexivity|split; [apply Post_refl, I|]]. intros m' N'. assert (m' = m) by congruence. subst m'.
        destruct Sh as [->|S]; [left; reflexivity|right]. unfold IsInvalid, NoLocation in *. lia. }
    destruct B as (ms1 & ops1 & -> & P1 & G1). cbn [rbind]. pose proof (post_length _ _ _ _ P1) as L1.
    destruct (IH (S i) ms1 (ops ++ ops1)) as (ms2 & ops2 & -> & P2 & G2); [apply P1|lia|lia| |].
    + intros j mj Hj Nj. destruct (Nat.eq_dec j i) as [->|Hji]; [apply G1, Nj|].
      apply (settled_kept ms ms1 ops1 j P1); [|exact Nj]. intros m' N'. apply (Hdone j m'); [lia|exact N'].
    + exists ms2, (ops1 ++ ops2). rewrite <- app_assoc. split; [reflexivity|split; [eapply Post_trans; eassumption|exact G2]].
Qed.

End Whole.

(** The moves from constants, in order. *)
Lemma add_constants_ok ms : forall ms0 ops, Forall shaped ms -> Forall settled ms ->
  add_constants ms (mkResolver ms0 ops) = Done (mkResolver ms0 (ops ++ map (mkOp kMove) (filter (fun m => negb (IsInvalid (src_ m))) ms))).
Proof.
  induction ms as [|m ms IH]; intros ms0 ops F G; cbn [add_constants filter map]; [rewrite app_nil_r; reflexivity|].
  inversion F as [|x y Sh F']; subst. inversion G as [|x y St G']; subst. unfold IsEliminated. rewrite shaped_consistent by exact Sh. cbn [rbind].
  destruct (IsInvalid (src_ m)) eqn:E; cbn [negb]; [apply IH; assumption|].
  destruct St as [->|C]; [discriminate|]. rewrite C. unfold add_op. cbn [moves_ scheduled_ops_]. rewrite IH by assumption. cbn [map]. rewrite <- app_assoc. reflexivity.
Qed.

(** Executing moves from constants: the constants stay, each destination is written once. *)
Lemma exec_constants {V} (ms : moves) : forall (env : Location -> V),
  Forall (fun m => IsConstant (src_ m) = true /\ IsConstant (dest_ m) = false) ms -> NoDup (map dest_ ms) ->
  (forall m, In m ms -> exec (map (mkOp kMove) ms) env (dest_ m) = env (src_ m)) /\
  (forall l, ~ In l (map dest_ ms) -> exec (map (mkOp kMove) ms) env l = env l).
Proof.
  induction ms as [|m ms IH]; intros env F N; cbn [map exec fold_left]; [split; [intros ? []|reflexivity]|].
  inversion F as [|x y [Cs Cd] F']; subst. inversion N as [|x y Hx N']; subst. destruct (IH (exec_op env (mkOp kMove m)) F' N') as [H1 H2].
  fold (exec (map (mkOp kMove) ms) (exec_op env (mkOp kMove m))). split.
  - intros m' [<-|H'].
    + rewrite H2 by exact Hx. cbn. unfold put. rewrite Z.eqb_refl. reflexivity.
    + rewrite H1 by exact H'. cbn. unfold put. replace (src_ m' =? dest_ m) with false; [reflexivity|].
      symmetry. apply Z.eqb_neq. intros E. rewrite Forall_forall in F'. destruct (F' m' H') as [C _]. congruence.
  - intros l Hl. cbn in Hl. rewrite H2 by tauto. cbn. unfold put. replace (l =? dest_ m) with false; [reflexivity|]. symmetry. apply Z.eqb_neq. intros ->. tauto.
Qed.

Section Remaining.
Context (ms : moves) (I : Inv [] ms) (Hset : Forall settled ms).

Let remaining : moves := filter (fun m => negb (IsInvalid (src_ m))) ms.

Lemma remaining_spec m : In m remaining -> In m ms /\ src_ m <> NoLocation /\ dest_ m <> NoLocation.
Proof.
  intros H. apply filter_In in H as [H E]. apply In_nth_error in H as [i N]. split; [apply (nth_error_In _ i), N|].
  destruct (inv_shape _ _ I i m N) as [->|(S & [D|(d & [])])]; [discriminate|auto].
Qed.

Lemma remaining_dst m : In m remaining -> exists i, nth_error ms i = Some m /\ dst [] ms i (dest_ m).
Proof.
  intros H. destruct (remaining_spec m H) as (G & _ & D). apply In_nth_error in G as [i N]. exists i. split; [exact N|]. right. exists m. auto.
Qed.

Lemma remaining_constants : Forall (fun m => IsConstant (src_ m) = true /\ IsConstant (dest_ m) = false) remaining.
Proof.
  apply Forall_forall. intros m H. destruct (remaining_dst m H) as (i & N & D). split; [|apply (inv_dst _ _ I i _ D)].
  destruct (remaining_spec m H) as (G & S & _). rewrite Forall_forall in Hset. destruct (Hset m G) as [->|C]; [contradiction|exact C].
Qed.

Lemma NoDup_dests (l : moves) : (forall i j m m', nth_error l i = Some m -> nth_error l j = Some m' -> src_ m <> NoLocation -> src_ m' <> NoLocation -> dest_ m = dest_ m' -> i = j) ->
  NoDup (map dest_ (filter (fun m => negb (IsInvalid (src_ m))) l)).
Proof.
  induction l as [|x l IH]; intros H; cbn [filter map]; [constructor|].
  assert (IH' : NoDup (map dest_ (filter (fun m => negb (IsInvalid (src_ m))) l))).
  { apply IH. intros i j m m' N N' Hs Hs' E. assert (Q : S i = S j) by (apply (H (S i) (S j) m m'); assumption). congruence. }
  destruct (IsInvalid (src_ x)) eqn:E; cbn [negb map]; [exact IH'|]. constructor; [|exact IH'].
  intros G. apply in_map_iff in G as (m & D & G). apply filter_In in G as [G Em]. apply In_nth_error in G as [j N].
  assert (Q : O = S j) by (apply (H O (S j) x m eq_refl N); [| |congruence]; unfold IsInvalid, NoLocation in *; lia). discriminate.
Qed.

Lemma remaining_distinct : NoDup (map dest_ remaining).
Proof.
  apply NoDup_dests. intros i j m m' N N' S S' E. apply (inv_distinct _ _ I i j (dest_ m)).
  - right. exists m. split; [exact N|split; [reflexivity|]]. destruct (inv_shape _ _ I i m N) as [->|(_ & [D|(d & [])])]; [contradiction|exact D].
  - right. exists m'. split; [exact N'|split; [congruence|]]. rewrite E. destruct (inv_shape _ _ I j m' N') as [->|(_ & [D|(d & [])])]; [contradiction|exact D].
Qed.

Lemma remaining_meets {V} (env target : Location -> V) l : meets [] ms env target -> exec (map (mkOp kMove) remaining) env l = target l.
Proof.
  intros [M1 M2]. destruct (exec_constants remaining env remaining_constants remaining_distinct) as [H1 H2].
  destruct (in_dec Z.eq_dec l (map dest_ remaining)) as [G|G].
  - apply in_map_iff in G as (m & <- & G). rewrite H1 by exact G. destruct (remaining_dst m G) as (i & N & D). symmetry. apply (M1 i); [exact D|].
    exists m. split; [exact N|split; [reflexivity|]]. apply (remaining_spec m G).
  - rewrite H2 by exact G. symmetry. apply M2. intros i [[]|(m & N & E & Hl)]. apply G, in_map_iff. exists m. split; [exact E|].
    apply filter_In. split; [apply (nth_error_In _ i), N|]. destruct (inv_shape _ _ I i m N) as [->|(S & _)]; [cbn in E; congruence|]. unfold IsInvalid, NoLocation in *. lia.
Qed.

End Remaining.

Lemma exec_filter {V} ops : forall (env : Location -> V), exec (MoveSchedule_From ops) env = exec ops env.
Proof.
  induction ops as [|[[] m] ops IH]; intros env; [reflexivity|..]; cbn [MoveSchedule_From filter op_kind exec fold_left]; apply IH.
Qed.

Lemma Resolve_ok pm : wf_parallel_move pm -> exists ops, Resolve (length pm) pm = Done (MoveSchedule_From ops) /\
  forall V (env : Location -> V) l, exec ops env l = parallel pm env l.
Proof.
  intros Hwf. unfold Resolve. rewrite BuildInitialMoveList_ok by apply Hwf. cbn [rbind]. cbv zeta. set (ms0 := filter _ pm).
  change (fun (i : nat) (st : Resolver) => _) with (resolve_body (length pm)).
  destruct (resolve_loop_ok (length pm) (length ms0) 0 ms0 []) as (ms & ops & E & P & G).
  - apply ms0_Inv, Hwf.
  - apply filter_length_le.
  - reflexivity.
  - intros j m Hj. lia.
  - rewrite E. cbn [rbind moves_]. rewrite add_constants_ok; [|apply (Inv_shaped []), P|exact G]. cbn [rbind scheduled_ops_].
    eexists. split; [reflexivity|]. intros V env l. cbn [app]. rewrite exec_app. apply remaining_meets; [apply P|exact G|].
    apply (post_meets _ _ _ _ P), ms0_meets, Hwf.
Qed.

(** C2. Parallel moves are resolved correctly.  For every parallel move that writes each location at most once, with any
    cycles, trees and constants, [Resolve] ends without a failed assertion, recursing no deeper than the number of moves,
    and the schedule it stores, executed operation by operation, leaves in every destination the value its source had at
    the start and every other location as it was; the schedule has no empty operations. *)
Theorem parallel_moves_resolved pm : wf_parallel_move pm -> exists schedule, Resolve (length pm) pm = Done schedule /\
  (forall V (env : Location -> V) m, In m pm -> needed m = true -> exec schedule env (dest_ m) = env (src_ m)) /\
  (forall V (env : Location -> V) l, (forall m, In m pm -> needed m = true -> dest_ m <> l) -> exec schedule env l = env l) /\
  Forall (fun op => op_kind op <> kNop) schedule.
Proof.
  intros Hwf. destruct (Resolve_ok pm Hwf) as (ops & E & X). exists (MoveSchedule_From ops). split; [exact E|split; [|split]].
  - intros V env m H N. rewrite exec_filter, X. apply parallel_at; assumption.
  - intros V env l H. rewrite exec_filter, X. apply parallel_other, H.
  - apply Forall_forall. intros op H. apply filter_In in H as [_ H]. destruct (op_kind op); discriminate.
Qed.

(** [A0 <- A1, A1 <- A2, A2 <- A0, A3 <- A1, A4 <- constant]. *)
Lemma parallel_moves_resolved_witness :
  let r i := Z.lor 20 (Z.shiftl i 5) in
  let pm := [mkMove (r 10) (r 11); mkMove (r 11) (r 12); mkMove (r 12) (r 10); mkMove (r 13) (r 11); mkMove (r 14) 4097] in
  wf_parallel_move pm /\ exists schedule, Resolve 5 pm = Done schedule /\ exec schedule (fun l => l) (r 12) = r 10 /\ exec schedule (fun l => l) (r 13) = r 11.
Proof.
  intros r pm. assert (W : wf_parallel_move pm).
  { split; [repeat constructor|split; [repeat constructor|]]. vm_compute. repeat constructor; cbn; intuition discriminate. }
  split; [exact W|]. destruct (parallel_moves_resolved pm W) as (sch & E & H & _). exists sch. split; [exact E|]. split.
  - apply (H Z (fun l => l) (mkMove (r 12) (r 10))); [cbn; auto|reflexivity].
  - apply (H Z (fun l => l) (mkMove (r 13) (r 11))); [cbn; auto 6|reflexivity].
Defined.

(** ** Scratch registers *)

Lemma exec_ext {V} ops : forall (e1 e2 : Location -> V), (forall l, e1 l = e2 l) -> forall l, exec ops e1 l = exec ops e2 l.
Proof.
  induction ops as [|[k [d s]] ops IH]; intros e1 e2 H l; [apply H|]. cbn [exec fold_left]. apply IH. intros x.
  destruct k; cbn; unfold put; rewrite ?H; reflexivity.
Qed.

(** A location that is overwritten before it is read may hold anything. *)
Lemma exec_dead {V} loc ops : forall (e1 e2 : Location -> V), (forall l, l <> loc -> e1 l = e2 l) ->
  existsb (fun op => reads op loc) ops = false -> existsb (fun op => overwrites op loc) ops = true -> forall l, exec ops e1 l = exec ops e2 l.
Proof.
  induction ops as [|[k [d s]] ops IH]; intros e1 e2 H R O l; [discriminate|]. cbn [existsb] in R, O. apply orb_false_iff in R as [R Rs].
  unfold reads, Equals in R. cbn in R. apply orb_false_iff in R as [Rsrc Rdst]. apply Z.eqb_neq in Rsrc. cbn [exec fold_left].
  destruct k; cbn in Rdst, O.
  - apply IH; assumption.
  - unfold overwrites, Equals in O. cbn in O. destruct (d =? loc) eqn:Ed.
    + apply Z.eqb_eq in Ed. subst d. apply exec_ext. intros x. cbn. unfold put. destruct (x =? loc) eqn:Ex; [apply H, Rsrc|]. apply H, Z.eqb_neq, Ex.
    + apply IH; [|exact Rs|exact O]. intros x Hx. cbn. unfold put. destruct (x =? d); [apply H, Rsrc|apply H, Hx].
  - apply Z.eqb_neq in Rdst. apply IH; [|exact Rs|exact O]. intros x Hx. cbn. unfold put. rewrite (H d), (H s) by assumption. rewrite (H x) by assumption. reflexivity.
Qed.

Lemma first_register_spec test : forall k reg, first_register k reg test <> -1 -> test (first_register k reg test) = true.
Proof. induction k as [|k IH]; intros reg; cbn; [congruence|]. destruct (test reg) eqn:E; auto. Qed.

(** C35. A scratch register is free.  When [AllocateScratchRegister] returns a register without asking for it to be
    spilled, the register is not blocked, and whatever is put into it before or right after the current operation, the
    rest of the schedule leaves every location with the same value. *)
Theorem scratch_register_is_dead schedule current k blocked first last r :
  AllocateScratchRegister schedule current k blocked first last = (r, false) ->
  is_blocked blocked r = false /\ exists loc, MachineRegisterLocation k r = Some loc /\
    forall V (env : Location -> V) v l, exec (skipn current schedule) (put env loc v) l = exec (skipn current schedule) env l /\
      exec (skipn (S current) schedule) (put env loc v) l = exec (skipn (S current) schedule) env l.
Proof.
  unfold AllocateScratchRegister. cbv zeta. set (test := fun reg => _). destruct (first_register _ first test =? -1) eqn:E; [discriminate|].
  intros [= <-]. apply Z.eqb_neq, first_register_spec in E. revert E. generalize (first_register (Z.to_nat (last - first + 1)) first test). intros r T.
  unfold test in T. apply andb_true_iff in T as [B T]. split; [apply negb_true_iff, B|]. destruct (MachineRegisterLocation k r) as [loc|]; [|discriminate].
  exists loc. split; [reflexivity|]. unfold IsScratchLocation in T. destruct (existsb _ (skipn current schedule)) eqn:R; [discriminate|].
  assert (Hput : forall V (env : Location -> V) v x, x <> loc -> put env loc v x = env x)
    by (intros V env v x Hx; unfold put; apply Z.eqb_neq in Hx; rewrite Hx; reflexivity).
  assert (Sub : forall f, existsb f (skipn (S current) schedule) = true -> existsb f (skipn current schedule) = true).
  { intros f. rewrite !existsb_exists. intros (op & H & G). exists op. split; [|exact G]. revert H. clear. revert schedule.
    induction current as [|n IH]; intros [|x l]; cbn; auto. }
  intros V env v l. split; apply exec_dead with (loc := loc); auto.
  destruct (existsb (fun op => reads op loc) (skipn (S current) schedule)) eqn:R'; [|reflexivity]. apply Sub in R'. congruence.
Qed.

(** While [A0 <- A1] is emitted, [A2] is free: it is written later and not read. *)
Lemma scratch_register_is_dead_witness :
  let r i := Z.lor 20 (Z.shiftl i 5) in
  let schedule := [mkOp kMove (mkMove (r 10) (r 11)); mkOp kMove (mkMove (r 12) (r 13))] in
  AllocateScratchRegister schedule 0 kRegister 0 0 31 = (12, false) /\
  forall v l, exec schedule (put (fun x => x) (r 12) v) l = exec schedule (fun x => x) l.
Proof.
  intros r schedule. assert (E : AllocateScratchRegister schedule 0 kRegister 0 0 31 = (12, false)) by (vm_compute; reflexivity).
  split; [exact E|]. destruct (scratch_register_is_dead schedule 0 kRegister 0 0 31 12 E) as (_ & loc & L & H).
  assert (Q : MachineRegisterLocation kRegister 12 = Some (r 12)) by (vm_compute; reflexivity). rewrite Q in L. injection L as <-.
  intros v l. apply (H Z (fun x => x) v l).
Defined.
