(* ===== verification/Il.v ===== *)
(** * Intermediate language ([vm/compiler/backend/il.{h,cc}], [locations.{h,cc}], [slot.cc], [vm/token.h])

    The definitions of an SSA flow graph that range analysis looks at.  A
    [Definition*] is an index into the graph; a [Value*] (a use) is the index of
    the definition it uses.  A definition has its instruction, representation,
    type, block and, once inferred, range.  Instructions the analysis treats
    alike are [OtherInstr]: a tag, inputs and attributes. *)

From Stdlib Require Import ZArith Bool List Lia.
From S2P Require Import Prelude Utils Result.
Import ListNotations.
Open Scope Z_scope.

(** ** [target::kSmiBits] and its limits, 64-bit words *)
Definition kSmiBits : Z := 8 * 8 - 2.
Definition kSmiMax : Z := (1 << kSmiBits) - 1.
Definition kSmiMin : Z := - (1 << kSmiBits).
Definition IsSmi (v : Z) : bool := IsInt (kSmiBits + 1) v.

(** ** Tokens *)
Module Token.
Inductive Kind :=
  | kADD | kSUB | kMUL | kTRUNCDIV | kMOD | kSHL | kSHR | kUSHR | kBIT_AND | kBIT_OR | kBIT_XOR | kDIV
  | kEQ | kNE | kLT | kGT | kLTE | kGTE.

Definition eqb (a b : Kind) : bool :=
  match a, b with
  | kADD, kADD | kSUB, kSUB | kMUL, kMUL | kTRUNCDIV, kTRUNCDIV | kMOD, kMOD | kSHL, kSHL | kSHR, kSHR | kUSHR, kUSHR
  | kBIT_AND, kBIT_AND | kBIT_OR, kBIT_OR | kBIT_XOR, kBIT_XOR | kDIV, kDIV
  | kEQ, kEQ | kNE, kNE | kLT, kLT | kGT, kGT | kLTE, kLTE | kGTE, kGTE => true
  | _, _ => false
  end.

Definition NegateComparison (op : Kind) : result Kind :=
  match op with
  | kEQ => Done kNE | kNE => Done kEQ | kLT => Done kGTE | kGT => Done kLTE | kLTE => Done kGT | kGTE => Done kLT
  | _ => AssertionFailure
  end.

Definition FlipComparison (op : Kind) : result Kind :=
  match op with
  | kEQ => Done kEQ | kNE => Done kNE | kLT => Done kGT | kGT => Done kLT | kLTE => Done kGTE | kGTE => Done kLTE
  | _ => AssertionFailure
  end.
End Token.
Export Token (Kind, kADD, kSUB, kMUL, kTRUNCDIV, kMOD, kSHL, kSHR, kUSHR, kBIT_AND, kBIT_OR, kBIT_XOR, kDIV, kEQ, kNE, kLT, kGT, kLTE, kGTE).

(** ** Representations of integer values *)
Inductive Representation :=
  | kTagged | kUntagged
  | kUnboxedInt8 | kUnboxedUint8 | kUnboxedInt16 | kUnboxedUint16 | kUnboxedInt32 | kUnboxedUint32 | kUnboxedInt64.

Definition rep_eqb (a b : Representation) : bool :=
  match a, b with
  | kTagged, kTagged | kUntagged, kUntagged | kUnboxedInt8, kUnboxedInt8 | kUnboxedUint8, kUnboxedUint8
  | kUnboxedInt16, kUnboxedInt16 | kUnboxedUint16, kUnboxedUint16 | kUnboxedInt32, kUnboxedInt32
  | kUnboxedUint32, kUnboxedUint32 | kUnboxedInt64, kUnboxedInt64 => true
  | _, _ => false
  end.

Module RepresentationUtils.
Definition IsUnboxedInteger (rep : Representation) : bool :=
  match rep with kTagged | kUntagged => false | _ => true end.

(** In bytes; a [target::word] has eight. *)
Definition ValueSize (rep : Representation) : Z :=
  match rep with
  | kUnboxedInt8 | kUnboxedUint8 => 1
  | kUnboxedInt16 | kUnboxedUint16 => 2
  | kUnboxedInt32 | kUnboxedUint32 => 4
  | kUnboxedInt64 | kTagged | kUntagged => 8
  end.

Definition IsUnsignedInteger (rep : Representation) : bool :=
  match rep with kUnboxedUint8 | kUnboxedUint16 | kUnboxedUint32 => true | _ => false end.

Definition MinValue (rep : Representation) : result Z :=
  require IsUnboxedInteger rep;;
  Done (if IsUnsignedInteger rep then 0 else min_sN (8 * ValueSize rep)).

Definition MaxValue (rep : Representation) : result Z :=
  require IsUnboxedInteger rep;;
  Done (if IsUnsignedInteger rep then max_uN (8 * ValueSize rep) else max_sN (8 * ValueSize rep)).

Definition IsRepresentable (rep : Representation) (value : Z) : result bool :=
  require IsUnboxedInteger rep;;
  let bit_size := ValueSize rep * 8 in
  Done (if IsUnsignedInteger rep then IsUint bit_size value else IsInt bit_size value).
End RepresentationUtils.

(** ** Ranges, as data ([range_analysis.h]) *)

Definition defn := nat.
Bind Scope nat_scope with defn.

Inductive RangeBoundary :=
  | Unknown
  | Symbol (symbol : defn) (offset : Z)
  | Constant (value : Z).

Record Range := mkRange { min_ : RangeBoundary; max_ : RangeBoundary }.

(** ** Slots of [LoadField] *)
Inductive Slot :=
  | Array_length | GrowableObjectArray_length | TypedDataBase_length | TypedDataView_offset_in_bytes
  | AbstractType_hash | TypeArguments_hash | TypeArguments_length | Record_shape | String_length
  | DartField (field : nat) (immutable : bool)
  | UnboxedNative (slot : nat) (rep : Representation) (immutable : bool)
  | PositiveSmiNative (slot : nat) (immutable : bool).

Definition slot_eqb (a b : Slot) : bool :=
  match a, b with
  | Array_length, Array_length | GrowableObjectArray_length, GrowableObjectArray_length
  | TypedDataBase_length, TypedDataBase_length | TypedDataView_offset_in_bytes, TypedDataView_offset_in_bytes
  | AbstractType_hash, AbstractType_hash | TypeArguments_hash, TypeArguments_hash
  | TypeArguments_length, TypeArguments_length | Record_shape, Record_shape | String_length, String_length => true
  | DartField f i, DartField f' i' => Nat.eqb f f' && Bool.eqb i i'
  | UnboxedNative n r i, UnboxedNative n' r' i' => Nat.eqb n n' && rep_eqb r r' && Bool.eqb i i'
  | PositiveSmiNative n i, PositiveSmiNative n' i' => Nat.eqb n n' && Bool.eqb i i'
  | _, _ => false
  end.

Definition IsLengthSlot (s : Slot) : bool :=
  match s with
  | Array_length | TypedDataBase_length | String_length | TypeArguments_length | GrowableObjectArray_length => true
  | _ => false
  end.

(** The [FINAL]/[VAR] column of the slot lists. *)
Definition is_immutable (s : Slot) : bool :=
  match s with
  | GrowableObjectArray_length | AbstractType_hash | TypeArguments_hash => false
  | DartField _ i | UnboxedNative _ _ i | PositiveSmiNative _ i => i
  | _ => true
  end.

(** ** Instructions and definitions *)

Inductive CheckBoundKind := CheckArrayBound | GenericCheckBound (phantom : bool).

Inductive Instr :=
  | ConstantInstr (value : Z)
  | ConstraintInstr (value : defn) (constraint : Range)
  | PhiInstr (inputs : list defn)
  | BinaryIntegerOpInstr (op_kind : Kind) (left right : defn) (can_overflow is_truncating : bool) (right_range : option Range)
  | UnboxIntegerInstr (value : defn) (check_type : bool)
  | BoxIntegerInstr (from_representation : Representation) (value : defn)
  | IntConverterInstr (from to : Representation) (value : defn)
  | LoadFieldInstr (instance : defn) (slot : Slot)
  | CheckBoundBaseInstr (kind : CheckBoundKind) (length index : defn)
  | AssertAssignableInstr (value : defn) (types : list defn)
  | OtherInstr (tag : nat) (inputs : list defn) (attributes : Z) (pure : bool).

(** What [CompileType] says of a value: [ToCid()] and [IsInt()]. *)
Inductive Type_ := SmiType | MintType | IntType | NotInt.

Record Definition_ := mkDefinition {
  instr : Instr;
  representation : Representation;
  type_ : Type_;
  block : nat;
  range_ : option Range
}.

Record FlowGraph := mkGraph {
  def : defn -> Definition_;
  Dominates : nat -> nat -> bool
}.

Definition set_instr (d : defn) (i : Instr) (g : FlowGraph) : FlowGraph :=
  mkGraph (fun x => if Nat.eqb x d
                    then let o := def g x in mkDefinition i (representation o) (type_ o) (block o) (range_ o)
                    else def g x) (Dominates g).
Definition set_range (d : defn) (r : Range) (g : FlowGraph) : FlowGraph :=
  mkGraph (fun x => if Nat.eqb x d
                    then let o := def g x in mkDefinition (instr o) (representation o) (type_ o) (block o) (Some r)
                    else def g x) (Dominates g).

Definition IsInt_ (d : Definition_) : bool := match type_ d with NotInt => false | _ => true end.
Definition ToCid_IsSmi (d : Definition_) : bool := match type_ d with SmiType => true | _ => false end.

Section Graph.
Context (g : FlowGraph) (fuel : nat).

Definition AsConstant (d : defn) : option Z := match instr (def g d) with ConstantInstr v => Some v | _ => None end.
Definition IsConstant (d : defn) : bool := match AsConstant d with Some _ => true | None => false end.
Definition AsConstraint (d : defn) : option defn := match instr (def g d) with ConstraintInstr v _ => Some v | _ => None end.
Definition AsUnboxInt64 (d : defn) : option defn :=
  match instr (def g d), representation (def g d) with UnboxIntegerInstr v _, kUnboxedInt64 => Some v | _, _ => None end.
Definition AsBinarySmiOp (d : defn) : option (Kind * defn * defn) :=
  match instr (def g d), representation (def g d) with
  | BinaryIntegerOpInstr op l r _ _ _, kTagged => Some (op, l, r)
  | _, _ => None
  end.
Definition IsPhi (d : defn) : bool := match instr (def g d) with PhiInstr _ => true | _ => false end.

Definition RedefinedValue (d : defn) : option defn :=
  match instr (def g d) with
  | AssertAssignableInstr v _ => Some v
  | CheckBoundBaseInstr _ _ index => Some index
  | _ => None
  end.

(** [while ((next = f(d)) != nullptr) d = next]. *)
Fixpoint follow (f : defn -> option defn) (fuel : nat) (d : defn) : result defn :=
  match fuel with
  | O => OutOfFuel
  | S n => match f d with Some d' => follow f n d' | None => Done d end
  end.

Definition OriginalDefinition (d : defn) : result defn := follow RedefinedValue fuel d.

(** One turn of the loop of [OriginalDefinitionIgnoreBoxingAndConstraints]. *)
Definition IgnoredInput (d : defn) : option defn :=
  match instr (def g d) with
  | ConstraintInstr v _ | BoxIntegerInstr _ v | UnboxIntegerInstr v _ | IntConverterInstr _ _ v => Some v
  | _ => RedefinedValue d
  end.
Definition OriginalDefinitionIgnoreBoxingAndConstraints (d : defn) : result defn := follow IgnoredInput fuel d.

Definition IsLengthLoad (d : defn) : result bool :=
  let* o := OriginalDefinitionIgnoreBoxingAndConstraints d in
  Done (match instr (def g o) with LoadFieldInstr _ s => IsLengthSlot s | _ => false end).

Definition UnwrapConstraint (d : defn) : result defn := follow AsConstraint fuel d.

(** *** [AllowsCSE] and [Instruction::Equals] *)

Definition AllowsCSE (d : defn) : bool :=
  match instr (def g d) with
  | ConstraintInstr _ _ | PhiInstr _ => false
  | LoadFieldInstr _ s => is_immutable s
  | OtherInstr _ _ _ pure => pure
  | _ => true
  end.

Definition inputs_of (i : Instr) : list defn :=
  match i with
  | ConstantInstr _ => []
  | ConstraintInstr v _ | UnboxIntegerInstr v _ | BoxIntegerInstr _ v | IntConverterInstr _ _ v | LoadFieldInstr v _ => [v]
  | PhiInstr l | OtherInstr _ l _ _ => l
  | BinaryIntegerOpInstr _ l r _ _ _ => [l; r]
  | CheckBoundBaseInstr _ l i => [l; i]
  | AssertAssignableInstr v l => v :: l
  end.

Definition check_kind_eqb (a b : CheckBoundKind) : bool :=
  match a, b with
  | CheckArrayBound, CheckArrayBound => true
  | GenericCheckBound p, GenericCheckBound q => Bool.eqb p q
  | _, _ => false
  end.

(** The same tag and [AttributesEqual]; the representation is part of the tag of
    a binary operation and an attribute of a constant and of an unboxing. *)
Definition SameTagAndAttributes (a b : defn) : bool :=
  let same_rep := rep_eqb (representation (def g a)) (representation (def g b)) in
  match instr (def g a), instr (def g b) with
  | ConstantInstr v, ConstantInstr v' => (v =? v') && same_rep
  | BinaryIntegerOpInstr op _ _ o t _, BinaryIntegerOpInstr op' _ _ o' t' _ => Token.eqb op op' && Bool.eqb o o' && Bool.eqb t t' && same_rep
  | UnboxIntegerInstr _ m, UnboxIntegerInstr _ m' => same_rep && Bool.eqb m m'
  | BoxIntegerInstr r _, BoxIntegerInstr r' _ => rep_eqb r r'
  | IntConverterInstr f t _, IntConverterInstr f' t' _ => rep_eqb f f' && rep_eqb t t'
  | LoadFieldInstr _ s, LoadFieldInstr _ s' => slot_eqb s s'
  | CheckBoundBaseInstr k _ _, CheckBoundBaseInstr k' _ _ => check_kind_eqb k k'
  | AssertAssignableInstr _ _, AssertAssignableInstr _ _ => true
  | OtherInstr t _ x p, OtherInstr t' _ x' p' => Nat.eqb t t' && (x =? x') && Bool.eqb p p'
  | _, _ => false
  end.

Fixpoint list_eqb (a b : list defn) : bool :=
  match a, b with
  | [], [] => true
  | x :: a, y :: b => Nat.eqb x y && list_eqb a b
  | _, _ => false
  end.

Definition Equals (a b : defn) : bool :=
  list_eqb (inputs_of (instr (def g a))) (inputs_of (instr (def g b))) && SameTagAndAttributes a b.

(** *** Constants behind redefinitions ([Value::BindsToSmiConstant]) *)

Definition BoundSmiConstant (d : defn) : result (option Z) :=
  let* o := OriginalDefinition d in
  Done (match AsConstant o with Some v => if IsSmi v then Some v else None | None => None end).
End Graph.
