(* ===== verification/RangeOps.v ===== *)
(** * Ranges of integer values ([vm/compiler/backend/range_analysis.{h,cc}]: [RangeBoundary], [Range])

    A boundary is a constant or a symbol, the value of a definition, plus an
    offset; a range is a pair of boundaries.  The bounds of a symbol are those of
    its definition's range, which may be symbolic again: [LowerBound] and
    [UpperBound] recurse through the graph, and so do the functions that compare
    boundaries by rewriting them ([Canonicalize...]).  [fuel] bounds these walks.

    [int64_t] arithmetic that the sources do not guard is [int64]: undefined
    behaviour on overflow is an assertion failure of the model. *)

From Stdlib Require Import ZArith Bool List Lia.
From S2P Require Import Prelude Utils Result Il.
Import ListNotations.
Open Scope Z_scope.

(** A signed 64-bit result. *)
Definition int64 (z : Z) : result Z := require (kMinInt64 <=? z) && (z <=? kMaxInt64);; Done z.

(** C++ integer division. *)
Definition int_div (a b : Z) : result Z := require negb (b =? 0);; int64 (Z.quot a b).

(** ** Boundaries: kinds and constants *)

Definition IsUnknown_ (b : RangeBoundary) : bool := match b with Unknown => true | _ => false end.
Definition IsConstant_ (b : RangeBoundary) : bool := match b with Constant _ => true | _ => false end.
Definition IsSymbol_ (b : RangeBoundary) : bool := match b with Symbol _ _ => true | _ => false end.
Definition ConstantValue (b : RangeBoundary) : result Z := match b with Constant v => Done v | _ => AssertionFailure end.
Definition offset_ (b : RangeBoundary) : Z := match b with Symbol _ o => o | _ => 0 end.
Definition symbol_ (b : RangeBoundary) : result defn := match b with Symbol s _ => Done s | _ => AssertionFailure end.

Definition IsValidOffsetForSymbolicRangeBoundary (offset : Z) : bool :=
  if (offset >? kMaxInt64 - kSmiMax) || (offset <? kMinInt64 - kSmiMin) then false else true.

Definition MinSmi := Constant kSmiMin.
Definition MaxSmi := Constant kSmiMax.
Definition MinInt64 := Constant kMinInt64.
Definition MaxInt64 := Constant kMaxInt64.

Definition OverflowedSmi (b : RangeBoundary) : bool := match b with Constant v => negb (IsSmi v) | _ => false end.

Definition IsLessOrEqual (b other : RangeBoundary) : result bool :=
  let* o := ConstantValue other in Done (match b with Constant v => v <=? o | _ => false end).
Definition IsGreaterOrEqual (b other : RangeBoundary) : result bool :=
  let* o := ConstantValue other in Done (match b with Constant v => v >=? o | _ => false end).

(** ** Ranges: construction *)

Definition MakeRange (min max : RangeBoundary) : result Range :=
  require Bool.eqb (IsUnknown_ min) (IsUnknown_ max);; Done (mkRange min max).

Definition SmiRange : Range := mkRange MinSmi MaxSmi.
Definition Int64Range : Range := mkRange MinInt64 MaxInt64.
Definition UnknownRange : Range := mkRange Unknown Unknown.

(** [Range::IsUnknown], of a pointer. *)
Definition IsUnknown (r : option Range) : bool := match r with None => true | Some r => IsUnknown_ (min_ r) end.

Inductive TaggedMode := kTaggedNotAllowed | kTaggedIsSmi.

Definition Full (rep : Representation) (mode : TaggedMode) : result Range :=
  if rep_eqb rep kTagged then match mode with kTaggedIsSmi => Done SmiRange | kTaggedNotAllowed => AssertionFailure end
  else let* lo := RepresentationUtils.MinValue rep in
       let* hi := RepresentationUtils.MaxValue rep in
       Done (mkRange (Constant lo) (Constant hi)).

(** Clamp a constant boundary; a symbolic one is left alone. *)
Definition Clamp (b : RangeBoundary) (full_range : Range) : result RangeBoundary :=
  match b with
  | Constant v =>
      let* lo := ConstantValue (min_ full_range) in
      if v <=? lo then Done (min_ full_range)
      else let* hi := ConstantValue (max_ full_range) in
           if v >=? hi then Done (max_ full_range) else Done b
  | _ => Done b
  end.

(** ** Constant arithmetic on boundaries *)

Definition WillAddOverflow_ (a b : RangeBoundary) : result bool :=
  let* x := ConstantValue a in let* y := ConstantValue b in Done (WillAddOverflow x y).
Definition Add_ (a b : RangeBoundary) : result RangeBoundary :=
  let* x := ConstantValue a in let* y := ConstantValue b in
  require negb (WillAddOverflow x y);; let* r := int64 (x + y) in Done (Constant r).
Definition WillSubOverflow_ (a b : RangeBoundary) : result bool :=
  let* x := ConstantValue a in let* y := ConstantValue b in Done (WillSubOverflow x y).
Definition Sub_ (a b : RangeBoundary) : result RangeBoundary :=
  let* x := ConstantValue a in let* y := ConstantValue b in
  require negb (WillSubOverflow x y);; let* r := int64 (x - y) in Done (Constant r).

Definition WillShlOverflow (value_boundary : RangeBoundary) (shift_count : Z) : result bool :=
  let* value := ConstantValue value_boundary in
  require shift_count >=? 0;;
  Done (if value =? 0 then false
        else (shift_count >=? kBitsPerInt64) || negb (IsInt (kBitsPerInt64 - shift_count) value)).

Definition Shl_ (value_boundary : RangeBoundary) (shift_count : Z) : result RangeBoundary :=
  let* overflow := WillShlOverflow value_boundary shift_count in
  require negb overflow;;
  let* value := ConstantValue value_boundary in
  Done (if value =? 0 then Constant 0 else Constant (s64 (u64 (u64 value << shift_count)))).

Definition Shr_ (value_boundary : RangeBoundary) (shift_count : Z) : result RangeBoundary :=
  let* value := ConstantValue value_boundary in
  require shift_count >=? 0;;
  Done (Constant (if shift_count <=? 63 then value >> shift_count else if value >=? 0 then 0 else -1)).

(** ** Ranges that need no graph *)

Definition IsSingleton (r : Range) : bool :=
  match min_ r, max_ r with Constant a, Constant b => a =? b | _, _ => false end.

Definition ClampRange (r : Range) (full_range : Range) : result Range :=
  let* lo := Clamp (min_ r) full_range in
  let* hi := Clamp (max_ r) full_range in
  Done (mkRange lo hi).

Definition AbsWithSaturation (x : Z) : Z := if x <? 0 then if x =? kMinInt64 then kMaxInt64 else - x else x.

Definition ConvertRangeToUnsigned (a b : Z) : result (Z * Z) :=
  require a <=? b;; Done (if (a <? 0) && (b >=? 0) then (0, kMaxUint64) else (u64 a, u64 b)).

Definition ConvertRangeToSigned (a b : Z) : result (Z * Z) :=
  require a <=? b;;
  Done (if (a <=? u64 kMaxInt64) && (b >=? u64 kMinInt64) then (kMinInt64, kMaxInt64) else (s64 a, s64 b)).

Section Graph.
Context (g : FlowGraph) (fuel : nat).

Abbreviation range d := (range_ (def g d)).

Definition FromDefinition (d : defn) (offs : Z) : result RangeBoundary :=
  match AsConstant g d with
  | Some v =>
      if IsSmi v then let* r := int64 (v + offs) in Done (Constant r)
      else require IsValidOffsetForSymbolicRangeBoundary offs;; Done (Symbol d offs)
  | None => require IsValidOffsetForSymbolicRangeBoundary offs;; Done (Symbol d offs)
  end.

(** ** Bounds of a boundary

    [LowerBound] calls [Range::ConstantMinSmi] on the range of the symbol, which
    calls [LowerBound] on the minimum of that range. *)

Fixpoint LowerBound_ (fuel : nat) (b : RangeBoundary) : result RangeBoundary :=
  match fuel with
  | O => OutOfFuel
  | S n =>
      match b with
      | Constant _ => Done b
      | Symbol s o =>
          let* c := match range s with
                    | None => Done (min_ SmiRange)
                    | Some r => let* l := LowerBound_ n (min_ r) in Clamp l SmiRange
                    end in
          Add_ c (Constant o)
      | Unknown => AssertionFailure
      end
  end.

Fixpoint UpperBound_ (fuel : nat) (b : RangeBoundary) : result RangeBoundary :=
  match fuel with
  | O => OutOfFuel
  | S n =>
      match b with
      | Constant _ => Done b
      | Symbol s o =>
          let* c := match range s with
                    | None => Done (max_ SmiRange)
                    | Some r => let* u := UpperBound_ n (max_ r) in Clamp u SmiRange
                    end in
          Add_ c (Constant o)
      | Unknown => AssertionFailure
      end
  end.

Definition LowerBound (b : RangeBoundary) : result RangeBoundary := LowerBound_ fuel b.
Definition UpperBound (b : RangeBoundary) : result RangeBoundary := UpperBound_ fuel b.

Definition LowerBoundIn (b : RangeBoundary) (full_range : Range) : result Z :=
  let* l := LowerBound b in let* c := Clamp l full_range in ConstantValue c.
Definition UpperBoundIn (b : RangeBoundary) (full_range : Range) : result Z :=
  let* u := UpperBound b in let* c := Clamp u full_range in ConstantValue c.

Definition ConstantMinIn (r : option Range) (full_range : Range) : result RangeBoundary :=
  match r with
  | None => Done (min_ full_range)
  | Some r => let* l := LowerBound (min_ r) in Clamp l full_range
  end.
Definition ConstantMaxIn (r : option Range) (full_range : Range) : result RangeBoundary :=
  match r with
  | None => Done (max_ full_range)
  | Some r => let* u := UpperBound (max_ r) in Clamp u full_range
  end.

(** [ConstantMin(range).ConstantValue()], the form most callers use. *)
Definition ConstantMin (r : Range) : result Z := let* c := ConstantMinIn (Some r) Int64Range in ConstantValue c.
Definition ConstantMax (r : Range) : result Z := let* c := ConstantMaxIn (Some r) Int64Range in ConstantValue c.

Definition OnlyLessThanOrEqualTo (r : Range) (val : Z) : result bool :=
  let* u := UpperBound (max_ r) in let* v := ConstantValue u in Done (v <=? val).
Definition OnlyGreaterThanOrEqualTo (r : Range) (val : Z) : result bool :=
  let* l := LowerBound (min_ r) in let* v := ConstantValue l in Done (v >=? val).
Definition IsPositive (r : Range) : result bool := OnlyGreaterThanOrEqualTo r 0.
Definition IsNegative (r : Range) : result bool := OnlyLessThanOrEqualTo r (-1).

Definition rand (a b : result bool) : result bool := let* x := a in if x then b else Done false.
Definition ror (a b : result bool) : result bool := let* x := a in if x then Done true else b.

Definition IsWithinInts (r : Range) (min_int max_int : Z) : result bool :=
  rand (OnlyGreaterThanOrEqualTo r min_int) (OnlyLessThanOrEqualTo r max_int).

(** The bounds of [other] are computed and not used. *)
Definition IsWithin (r other : Range) : result bool :=
  let* _ := LowerBound (min_ other) in
  let* _ := UpperBound (max_ other) in
  let* lo := ConstantValue (min_ other) in
  let* hi := ConstantValue (max_ other) in
  IsWithinInts r lo hi.

Definition Overlaps (r : Range) (min_int max_int : Z) : result bool :=
  let* lower := LowerBound (min_ r) in
  let* upper := UpperBound (max_ r) in
  let* this_min := ConstantValue lower in
  let* this_max := ConstantValue upper in
  Done (((this_min <=? min_int) && (min_int <=? this_max)) || ((this_min <=? max_int) && (max_int <=? this_max)) ||
        ((min_int <? this_min) && (max_int >? this_max))).

Definition Fits (r : option Range) (rep : Representation) (mode : TaggedMode) : result bool :=
  match r with
  | None => Done false
  | Some r => let* other := Full rep mode in IsWithin r other
  end.

Definition ClampToConstant (r : Range) (full_range : Range) : result Range :=
  let* l := LowerBound (min_ r) in let* lo := Clamp l full_range in
  let* u := UpperBound (max_ r) in let* hi := Clamp u full_range in
  Done (mkRange lo hi).

(** ** Comparison of boundaries *)

Definition AreEqualDefinitions (a b : defn) : result bool :=
  let* a := UnwrapConstraint g fuel a in
  let* b := UnwrapConstraint g fuel b in
  Done (Nat.eqb a b || (AllowsCSE g a && AllowsCSE g b && Equals g a b)).

Definition DependOnSameSymbol (a b : RangeBoundary) : result bool :=
  match a, b with
  | Symbol x _, Symbol y _ => AreEqualDefinitions x y
  | _, _ => Done false
  end.

Definition BoundaryEquals (a b : RangeBoundary) : result bool :=
  match a, b with
  | Constant x, Constant y => Done (x =? y)
  | Symbol _ o, Symbol _ o' => if o =? o' then DependOnSameSymbol a b else Done false
  | Unknown, Unknown => Done true
  | _, _ => Done false
  end.

Definition RangeEquals (r : Range) (other : option Range) : result bool :=
  require Bool.eqb (IsUnknown_ (min_ r)) (IsUnknown_ (max_ r));;
  match other with
  | None => Done (IsUnknown_ (min_ r))
  | Some o => rand (BoundaryEquals (min_ r) (min_ o)) (BoundaryEquals (max_ r) (max_ o))
  end.

Definition Overflowed (b : RangeBoundary) (full_range : Range) : result bool :=
  require IsConstant_ b;;
  let* c := Clamp b full_range in
  let* e := BoundaryEquals b c in Done (negb e).

Definition IsUnsatisfiable (r : Range) : result bool :=
  let* lo := ConstantMin r in
  let* hi := ConstantMax r in
  if lo >? hi then Done true
  else let* same := DependOnSameSymbol (min_ r) (max_ r) in
       Done (same && (offset_ (min_ r) >? offset_ (max_ r))).

(** *** Canonicalization: a symbol that is [x + c] in the graph becomes [x] *)

Definition AsSmiConstant (d : defn) : result Z :=
  match AsConstant g d with Some v => require IsSmi v;; Done v | None => AssertionFailure end.

Inductive canonical_step :=
  | Stuck
  | Overflow
  | Continue (symbol : defn) (offset : Z).

(** One turn of the loop of [CanonicalizeBoundary]. *)
Definition CanonicalizeStep (symbol : defn) (offset : Z) : result canonical_step :=
  match AsConstraint g symbol with
  | Some v => Done (Continue v offset)
  | None =>
      match AsUnboxInt64 g symbol with
      | Some v => Done (Continue v offset)
      | None =>
          match AsBinarySmiOp g symbol with
          | Some (kADD, left_, right_) =>
              if IsConstant g right_ then
                let* rhs := AsSmiConstant right_ in
                if WillAddOverflow offset rhs then Done Overflow
                else let* o := int64 (offset + rhs) in Done (Continue left_ o)
              else if IsConstant g left_ then
                let* rhs := AsSmiConstant left_ in
                if WillAddOverflow offset rhs then Done Overflow
                else let* o := int64 (offset + rhs) in Done (Continue right_ o)
              else Done Stuck
          | Some (kSUB, left_, right_) =>
              if IsConstant g right_ then
                let* rhs := AsSmiConstant right_ in
                if WillSubOverflow offset rhs then Done Overflow
                else let* o := int64 (offset - rhs) in Done (Continue left_ o)
              else Done Stuck
          | _ => Done Stuck
          end
      end
  end.

Fixpoint CanonicalizeBoundary_loop (n : nat) (symbol : defn) (offset : Z) (overflow : RangeBoundary) : result RangeBoundary :=
  match n with
  | O => OutOfFuel
  | S n =>
      let* s := CanonicalizeStep symbol offset in
      match s with
      | Overflow => Done overflow
      | Continue symbol offset => CanonicalizeBoundary_loop n symbol offset overflow
      | Stuck =>
          if IsValidOffsetForSymbolicRangeBoundary offset then FromDefinition symbol offset else Done overflow
      end
  end.

Definition CanonicalizeBoundary (a overflow : RangeBoundary) : result RangeBoundary :=
  match a with
  | Constant _ => Done a
  | Symbol s o => CanonicalizeBoundary_loop fuel s o overflow
  | Unknown => AssertionFailure
  end.

(** [CanonicalizeMaxBoundary] and [CanonicalizeMinBoundary]: [bound] selects the
    boundary of the symbol's range, [limit] is what replaces it on overflow.
    [None] is the result [false]. *)
Definition CanonicalizeBy (bound : Range -> RangeBoundary) (limit a : RangeBoundary) : result (option RangeBoundary) :=
  match a with
  | Symbol s o =>
      match range s with
      | None => Done None
      | Some r =>
          match bound r with
          | Symbol s' o' =>
              if WillAddOverflow o' o then Done (Some limit)
              else let* offset := int64 (o' + o) in
                   if negb (IsValidOffsetForSymbolicRangeBoundary offset) then Done (Some limit)
                   else let* b := FromDefinition s' offset in
                        let* c := CanonicalizeBoundary b limit in Done (Some c)
          | _ => Done None
          end
      end
  | _ => Done None
  end.

Definition CanonicalizeMaxBoundary := CanonicalizeBy max_ MaxInt64.
Definition CanonicalizeMinBoundary := CanonicalizeBy min_ MinInt64.

(** [do { if (...) return true } while (op(&a) || op(&b))]. *)
Fixpoint CanonicalizeForComparison_loop (op : RangeBoundary -> result (option RangeBoundary)) (n : nat)
  (a b : RangeBoundary) : result (option (RangeBoundary * RangeBoundary)) :=
  match n with
  | O => OutOfFuel
  | S n =>
      let* same := DependOnSameSymbol a b in
      if same then Done (Some (a, b))
      else let* a' := op a in
           match a' with
           | Some a' => CanonicalizeForComparison_loop op n a' b
           | None =>
               let* b' := op b in
               match b' with
               | Some b' => CanonicalizeForComparison_loop op n a b'
               | None => Done None
               end
           end
  end.

Definition CanonicalizeForComparison (a b : RangeBoundary) (op : RangeBoundary -> result (option RangeBoundary)) :
  result (option (RangeBoundary * RangeBoundary)) :=
  if negb (IsSymbol_ a) || negb (IsSymbol_ b) then Done None
  else CanonicalizeForComparison_loop op (2 * fuel) a b.

(** ** Joins and intersections of boundaries *)

Definition JoinMin (a b : RangeBoundary) (full_range : Range) : result RangeBoundary :=
  let* e := BoundaryEquals a b in
  if e then Done b
  else
    let* c := CanonicalizeForComparison a b CanonicalizeMinBoundary in
    match c with
    | Some (a, b) => Done (if offset_ a <=? offset_ b then a else b)
    | None =>
        let* inf_a := LowerBoundIn a full_range in
        let* inf_b := LowerBoundIn b full_range in
        let* sup_a := UpperBoundIn a full_range in
        let* sup_b := UpperBoundIn b full_range in
        let fits x := let* l := LowerBound x in let* o := Overflowed l full_range in Done (negb o) in
        let* keep_a := rand (Done (sup_a <=? inf_b)) (fits a) in
        if keep_a then Done a
        else let* keep_b := rand (Done (sup_b <=? inf_a)) (fits b) in
             if keep_b then Done b else Done (Constant (Z.min inf_a inf_b))
    end.

Definition JoinMax (a b : RangeBoundary) (full_range : Range) : result RangeBoundary :=
  let* e := BoundaryEquals a b in
  if e then Done b
  else
    let* c := CanonicalizeForComparison a b CanonicalizeMaxBoundary in
    match c with
    | Some (a, b) => Done (if offset_ a >=? offset_ b then a else b)
    | None =>
        let* inf_a := LowerBoundIn a full_range in
        let* inf_b := LowerBoundIn b full_range in
        let* sup_a := UpperBoundIn a full_range in
        let* sup_b := UpperBoundIn b full_range in
        let fits x := let* u := UpperBound x in let* o := Overflowed u full_range in Done (negb o) in
        let* keep_b := rand (Done (sup_a <=? inf_b)) (fits b) in
        if keep_b then Done b
        else let* keep_a := rand (Done (sup_b <=? inf_a)) (fits a) in
             if keep_a then Done a else Done (Constant (Z.max sup_a sup_b))
    end.

Definition IntersectionMin (a b : RangeBoundary) : result RangeBoundary :=
  require negb (IsUnknown_ a) && negb (IsUnknown_ b);;
  let* e := BoundaryEquals a b in
  if e then Done a
  else match a, b with
       | Constant x, Constant y => Done (Constant (Z.max x y))
       | _, _ =>
           let* c := CanonicalizeForComparison a b CanonicalizeMinBoundary in
           match c with
           | Some (a, b) => Done (if offset_ a >=? offset_ b then a else b)
           | None =>
               let* la := LowerBound a in let* inf_a := ConstantValue la in
               let* lb := LowerBound b in let* inf_b := ConstantValue lb in
               Done (if inf_a >=? inf_b then a else b)
           end
       end.

Definition IntersectionMax (a b : RangeBoundary) : result RangeBoundary :=
  require negb (IsUnknown_ a) && negb (IsUnknown_ b);;
  let* e := BoundaryEquals a b in
  if e then Done a
  else match a, b with
       | Constant x, Constant y => Done (Constant (Z.min x y))
       | _, _ =>
           let* c := CanonicalizeForComparison a b CanonicalizeMaxBoundary in
           match c with
           | Some (a, b) => Done (if offset_ a <=? offset_ b then a else b)
           | None =>
               let* ua := UpperBound a in let* sup_a := ConstantValue ua in
               let* ub := UpperBound b in let* sup_b := ConstantValue ub in
               Done (if sup_a <=? sup_b then a else b)
           end
       end.

Definition Intersect (r other : Range) : result Range :=
  let* lo := IntersectionMin (min_ r) (min_ other) in
  let* hi := IntersectionMax (max_ r) (max_ other) in
  MakeRange lo hi.

(** ** Arithmetic on ranges; the results are the two boundaries *)

(** [SymbolicAdd] and [SymbolicSub]; [None] is the result [false]. *)
Definition SymbolicAdd1 (s : defn) (o c : Z) : result (option RangeBoundary) :=
  if WillAddOverflow o c then Done None
  else let* offset := int64 (o + c) in
       if negb (IsValidOffsetForSymbolicRangeBoundary offset) then Done None
       else let* b := FromDefinition s offset in Done (Some b).

Definition SymbolicAdd (a b : RangeBoundary) : result (option RangeBoundary) :=
  match a, b with
  | Symbol s o, Constant c => SymbolicAdd1 s o c
  | Constant c, Symbol s o => SymbolicAdd1 s o c
  | _, _ => Done None
  end.

Definition SymbolicSub (a b : RangeBoundary) : result (option RangeBoundary) :=
  match a, b with
  | Symbol s o, Constant c =>
      if WillSubOverflow o c then Done None
      else let* offset := int64 (o - c) in
           if negb (IsValidOffsetForSymbolicRangeBoundary offset) then Done None
           else let* b := FromDefinition s offset in Done (Some b)
  | _, _ => Done None
  end.

(** [None] in the place of a boundary is [overflow = true]. *)
Definition or_full (lo hi : option RangeBoundary) : RangeBoundary * RangeBoundary :=
  match lo, hi with
  | Some lo, Some hi => (lo, hi)
  | _, _ => (MinInt64, MaxInt64)
  end.

Definition AddBound (left_bound right_bound symbolic_left symbolic_right : RangeBoundary)
  (bound : RangeBoundary -> result RangeBoundary) : result (option RangeBoundary) :=
  let* s := SymbolicAdd symbolic_left symbolic_right in
  match s with
  | Some b => Done (Some b)
  | None =>
      let* l := bound left_bound in
      let* r := bound right_bound in
      let* overflow := WillAddOverflow_ l r in
      if overflow then Done None else let* b := Add_ l r in Done (Some b)
  end.

Definition Add (left_range right_range : Range) (left_defn : defn) : result (RangeBoundary * RangeBoundary) :=
  let* is_length := IsLengthLoad g fuel left_defn in
  let* left_min := if is_length then FromDefinition left_defn 0 else Done (min_ left_range) in
  let* left_max := if is_length then FromDefinition left_defn 0 else Done (max_ left_range) in
  let* lo := AddBound (min_ left_range) (min_ right_range) left_min (min_ right_range) LowerBound in
  let* hi := AddBound (max_ left_range) (max_ right_range) left_max (max_ right_range) UpperBound in
  Done (or_full lo hi).

Definition SubBound (left_bound right_bound symbolic_left : RangeBoundary)
  (bound_left bound_right : RangeBoundary -> result RangeBoundary) : result (option RangeBoundary) :=
  let* s := SymbolicSub symbolic_left right_bound in
  match s with
  | Some b => Done (Some b)
  | None =>
      let* l := bound_left left_bound in
      let* r := bound_right right_bound in
      let* overflow := WillSubOverflow_ l r in
      if overflow then Done None else let* b := Sub_ l r in Done (Some b)
  end.

Definition Sub (left_range right_range : Range) (left_defn : defn) : result (RangeBoundary * RangeBoundary) :=
  let* is_length := IsLengthLoad g fuel left_defn in
  let* left_min := if is_length then FromDefinition left_defn 0 else Done (min_ left_range) in
  let* left_max := if is_length then FromDefinition left_defn 0 else Done (max_ left_range) in
  let* lo := SubBound (min_ left_range) (max_ right_range) left_min LowerBound UpperBound in
  let* hi := SubBound (max_ left_range) (min_ right_range) left_max UpperBound LowerBound in
  Done (or_full lo hi).

Definition ConstantAbsMax (r : Range) : result Z :=
  let* lo := ConstantMin r in let* hi := ConstantMax r in Done (Z.max (AbsWithSaturation lo) (AbsWithSaturation hi)).
Definition ConstantAbsMin (r : Range) : result Z :=
  let* lo := ConstantMin r in let* hi := ConstantMax r in Done (Z.min (AbsWithSaturation lo) (AbsWithSaturation hi)).

Definition OnlyPositiveOrZero (a b : Range) : result bool := rand (OnlyGreaterThanOrEqualTo a 0) (OnlyGreaterThanOrEqualTo b 0).
Definition OnlyNegativeOrZero (a b : Range) : result bool := rand (OnlyLessThanOrEqualTo a 0) (OnlyLessThanOrEqualTo b 0).

Definition Mul (left_range right_range : Range) : result (RangeBoundary * RangeBoundary) :=
  let* left_max := ConstantAbsMax left_range in
  let* right_max := ConstantAbsMax right_range in
  let* fits :=
    if (left_max <=? - kSmiMin) && (right_max <=? - kSmiMin)
    then if left_max =? 0 then Done true else let* q := int_div kMaxInt64 left_max in Done (right_max <=? q)
    else Done false in
  if fits then
    let* mul_max := int64 (left_max * right_max) in
    let* same_sign := ror (OnlyPositiveOrZero left_range right_range) (OnlyNegativeOrZero left_range right_range) in
    if same_sign then
      let* left_min := ConstantAbsMin left_range in
      let* right_min := ConstantAbsMin right_range in
      let* mul_min := int64 (left_min * right_min) in
      Done (Constant mul_min, Constant mul_max)
    else let* neg := int64 (- mul_max) in Done (Constant neg, Constant mul_max)
  else Done (MinInt64, MaxInt64).

Definition TruncDiv (left_range right_range : Range) : result (RangeBoundary * RangeBoundary) :=
  let* positive := rand (OnlyGreaterThanOrEqualTo left_range 0) (OnlyGreaterThanOrEqualTo right_range 1) in
  if positive then
    let* left_max := ConstantAbsMax left_range in
    let* left_min := ConstantAbsMin left_range in
    let* right_max := ConstantAbsMax right_range in
    let* right_min := ConstantAbsMin right_range in
    let* hi := int_div left_max right_min in
    let* lo := int_div left_min right_max in
    Done (Constant lo, Constant hi)
  else Done (MinInt64, MaxInt64).

Definition Mod (right_range : Range) : result (RangeBoundary * RangeBoundary) :=
  let kModMin := 0 in
  let* right_min := ConstantMin right_range in
  let* mod_max :=
    if negb (right_min =? kMinInt64)
    then let* right_max := ConstantAbsMax right_range in let* m := int64 (right_max - 1) in Done (Z.max m kModMin)
    else Done kMaxInt64 in
  Done (Constant kModMin, Constant mod_max).

(** The shift counts [right_min] and [right_max]: a negative count throws. *)
Definition ShiftCounts (right_range : Range) : result (Z * Z) :=
  let* right_max := ConstantMax right_range in
  let* right_min := ConstantMin right_range in
  Done (Z.max right_min 0, Z.max right_max 0).

Definition Shl (left_range right_range : Range) : result (RangeBoundary * RangeBoundary) :=
  let* left_max := ConstantMax left_range in
  let* left_min := ConstantMin left_range in
  let* (right_min, right_max) := ShiftCounts right_range in
  let shifted value shift_amount :=
    let* overflow := WillShlOverflow (Constant value) shift_amount in
    if overflow then Done None else let* b := Shl_ (Constant value) shift_amount in Done (Some b) in
  let* lo := shifted left_min (if left_min >? 0 then right_min else right_max) in
  let* hi := shifted left_max (if left_max >? 0 then right_max else right_min) in
  Done (or_full lo hi).

Definition Shr (left_range right_range : Range) : result (RangeBoundary * RangeBoundary) :=
  let* left_max := ConstantMax left_range in
  let* left_min := ConstantMin left_range in
  let* (right_min, right_max) := ShiftCounts right_range in
  let* lo := Shr_ (Constant left_min) (if left_min >? 0 then right_max else right_min) in
  let* hi := Shr_ (Constant left_max) (if left_max >? 0 then right_min else right_max) in
  Done (lo, hi).

Definition Ushr (left_range right_range : Range) : result (RangeBoundary * RangeBoundary) :=
  let* left_max := ConstantMax left_range in
  let* left_min := ConstantMin left_range in
  let* (right_min, right_max) := ShiftCounts right_range in
  let* (unsigned_left_min, unsigned_left_max) := ConvertRangeToUnsigned left_min left_max in
  let unsigned_result_min := if right_max >=? kBitsPerInt64 then 0 else unsigned_left_min >> right_max in
  let unsigned_result_max := if right_min >=? kBitsPerInt64 then 0 else unsigned_left_max >> right_min in
  let* (lo, hi) := ConvertRangeToSigned unsigned_result_min unsigned_result_max in
  Done (Constant lo, Constant hi).

Definition BitSize (r : Range) : result Z :=
  let* lo := ConstantMin r in let* hi := ConstantMax r in Done (Z.max (BitLength lo) (BitLength hi)).

Definition BitwiseOp (left_range right_range : Range) : result (RangeBoundary * RangeBoundary) :=
  let* left_size := BitSize left_range in
  let* right_size := BitSize right_range in
  let bitsize := Z.max left_size right_size in
  let* positive := rand (IsPositive left_range) (IsPositive right_range) in
  Done (if positive then Constant 0 else Constant (s64 (u64 (- u64 (1 << bitsize)))),
        Constant (s64 (u64 (u64 (1 << bitsize) - 1)))).

Definition And (left_range right_range : Range) : result (RangeBoundary * RangeBoundary) :=
  let* right_min := ConstantMin right_range in
  if right_min >=? 0 then let* hi := ConstantMax right_range in Done (Constant 0, Constant hi)
  else let* left_min := ConstantMin left_range in
       if left_min >=? 0 then let* hi := ConstantMax left_range in Done (Constant 0, Constant hi)
       else BitwiseOp left_range right_range.

Definition BinaryOp (op : Kind) (left_range right_range : Range) (left_defn : defn) : result Range :=
  let finish (b : result (RangeBoundary * RangeBoundary)) :=
    let* (min, max) := b in
    require negb (IsUnknown_ min) && negb (IsUnknown_ max);;
    require match min, max with Constant l, Constant u => l <=? u | _, _ => true end;;
    MakeRange min max in
  match op with
  | kADD => finish (Add left_range right_range left_defn)
  | kSUB => finish (Sub left_range right_range left_defn)
  | kMUL => finish (Mul left_range right_range)
  | kTRUNCDIV => finish (TruncDiv left_range right_range)
  | kMOD => finish (Mod right_range)
  | kSHL => finish (Shl left_range right_range)
  | kSHR => finish (Shr left_range right_range)
  | kUSHR => finish (Ushr left_range right_range)
  | kBIT_AND => finish (And left_range right_range)
  | kBIT_XOR | kBIT_OR => finish (BitwiseOp left_range right_range)
  | _ => Done Int64Range
  end.
End Graph.
