(* ===== verification/RangeProofs.v ===== *)
(** * Soundness of ranges

    What a boundary means, and that the operations of [RangeOps] respect it.  An
    execution of the function being compiled is seen at one point: [rho] gives the
    values of the definitions that have one ([avail]).  [rank] is their order in
    the dominator tree: a definition's operands and the symbols of its range come
    before it. *)

From Stdlib Require Import ZArith Bool List Lia ZifyBool.
From S2P Require Import Prelude Utils Result Il RangeOps.
Import ListNotations.
Open Scope Z_scope.

Definition smi (z : Z) : Prop := kSmiMin <= z <= kSmiMax.
Definition i64 (z : Z) : Prop := kMinInt64 <= z <= kMaxInt64.

(** Decide linear goals about the limits of integers. *)
Ltac range_lia :=
  unfold smi, i64 in *;
  change kSmiMin with (-4611686018427387904) in *; change kSmiMax with 4611686018427387903 in *;
  change kMinInt64 with (-9223372036854775808) in *; change kMaxInt64 with 9223372036854775807 in *;
  lia.

Lemma valid_offset o : IsValidOffsetForSymbolicRangeBoundary o = true <-> -4611686018427387904 <= o <= 4611686018427387904.
Proof.
  unfold IsValidOffsetForSymbolicRangeBoundary.
  change (kMaxInt64 - kSmiMax) with 4611686018427387904. change (kMinInt64 - kSmiMin) with (-4611686018427387904).
  destruct (Z.gtb_spec o 4611686018427387904), (Z.ltb_spec o (-4611686018427387904)); cbn; lia.
Qed.

Lemma IsSmi_spec v : i64 v -> IsSmi v = true <-> smi v.
Proof.
  intros _. unfold IsSmi. rewrite IsInt_spec by (unfold kSmiBits; lia). unfold is_sN, smi.
  change (2 ^ (kSmiBits + 1 - 1)) with 4611686018427387904. range_lia.
Qed.

Lemma int64_returns (P : Z -> Prop) z : i64 z -> P z -> returns P (int64 z).
Proof. intros H Hp. unfold int64. rewrite (proj2 (andb_true_iff _ _)) by (rewrite !Z.leb_le; exact H). exists z; auto. Qed.

Lemma WillAddOverflow_spec a b : i64 a -> i64 b -> WillAddOverflow a b = false <-> i64 (a + b).
Proof. intros Ha Hb. unfold WillAddOverflow. range_lia. Qed.

Lemma WillSubOverflow_spec a b : i64 a -> i64 b -> WillSubOverflow a b = false <-> i64 (a - b).
Proof. intros Ha Hb. unfold WillSubOverflow. range_lia. Qed.

(** [b] is the constant [c]. *)
Definition constant_such (P : Z -> Prop) (b : RangeBoundary) : Prop := exists c, b = Constant c /\ P c.

Lemma Add_returns x y P : i64 x -> i64 y -> i64 (x + y) -> P (Constant (x + y)) -> returns P (Add_ (Constant x) (Constant y)).
Proof.
  intros Hx Hy H HP. unfold Add_; cbn [rbind ConstantValue]. rewrite (proj2 (WillAddOverflow_spec x y Hx Hy) H). cbn [negb].
  apply (returns_bind (fun r => r = x + y)); [apply int64_returns; auto|]. intros r ->. apply returns_done, HP.
Qed.

Lemma Sub_returns x y P : i64 x -> i64 y -> i64 (x - y) -> P (Constant (x - y)) -> returns P (Sub_ (Constant x) (Constant y)).
Proof.
  intros Hx Hy H HP. unfold Sub_; cbn [rbind ConstantValue]. rewrite (proj2 (WillSubOverflow_spec x y Hx Hy) H). cbn [negb].
  apply (returns_bind (fun r => r = x - y)); [apply int64_returns; auto|]. intros r ->. apply returns_done, HP.
Qed.

(** A full range: constant bounds in order. *)
Definition full (r : Range) (lo hi : Z) : Prop := r = mkRange (Constant lo) (Constant hi) /\ lo <= hi /\ i64 lo /\ i64 hi.

Lemma full_smi : full SmiRange kSmiMin kSmiMax.
Proof. split; [reflexivity|]. repeat split; discriminate. Qed.
Lemma full_int64 : full Int64Range kMinInt64 kMaxInt64.
Proof. split; [reflexivity|]. repeat split; discriminate. Qed.

Definition clamped (lo hi c : Z) : Z := Z.max lo (Z.min c hi).

Lemma Clamp_constant r lo hi c : full r lo hi -> Clamp (Constant c) r = Done (Constant (clamped lo hi c)).
Proof.
  intros [-> H]. unfold Clamp, clamped; cbn.
  destruct (Z.leb_spec c lo); [do 2 f_equal; lia|]. destruct (Z.geb_spec c hi); do 2 f_equal; lia.
Qed.

Create HintDb range discriminated.
#[export] Hint Resolve full_smi full_int64 : range.

(** Run one computation whose result is known to satisfy [P]. *)
Tactic Notation "rstep" uconstr(H) "as" simple_intropattern(p) := eapply returns_bind; [refine H|intros ? p].

Section Soundness.
Context (g : FlowGraph) (fuel : nat) (rho : defn -> Z) (avail : defn -> Prop) (rank : defn -> nat).

Definition value_of (b : RangeBoundary) : Z :=
  match b with Unknown => 0 | Constant c => c | Symbol s o => rho s + o end.

(** The boundary is known, does not leave 64 bits, and its symbol is an available
    Smi that comes before [n]. *)
Definition wf (n : nat) (b : RangeBoundary) : Prop :=
  match b with
  | Unknown => False
  | Constant c => i64 c
  | Symbol s o => avail s /\ (rank s < n)%nat /\ -4611686018427387904 <= o <= 4611686018427387904 /\ smi (rho s)
  end.

Definition wf_range (n : nat) (r : Range) : Prop := wf n (min_ r) /\ wf n (max_ r).
Definition in_range (v : Z) (r : Range) : Prop := value_of (min_ r) <= v <= value_of (max_ r).

(** What an instruction computes: the instruction without what range analysis
    records in it. *)
Definition computation (i : Instr) : Instr :=
  match i with
  | BinaryIntegerOpInstr op l r _ t _ => BinaryIntegerOpInstr op l r false t None
  | i => i
  end.

Definition computations (g : FlowGraph) : FlowGraph :=
  mkGraph (fun d => let o := def g d in mkDefinition (computation (instr o)) (representation o) (type_ o) (block o) (range_ o)) (Dominates g).

(** The graph describes the execution: every range holds, operands come first,
    Smi operations computed the exact sum (they deoptimise otherwise), equal pure
    instructions computed equal values. *)
Record consistent : Prop := {
  c_rank : forall d, avail d -> (S (S (rank d)) < fuel)%nat;
  c_fuel : (1 < fuel)%nat;
  c_range : forall d r, avail d -> range_ (def g d) = Some r -> wf_range (rank d) r /\ in_range (rho d) r;
  c_constant : forall d v, avail d -> AsConstant g d = Some v -> rho d = v;
  c_constraint : forall d v, avail d -> AsConstraint g d = Some v -> rho d = rho v;
  c_redefined : forall d v, avail d -> RedefinedValue g d = Some v -> rho d = rho v;
  c_unbox : forall d v, avail d -> AsUnboxInt64 g d = Some v -> rho d = rho v;
  c_input : forall d v, avail d -> IgnoredInput g d = Some v -> avail v /\ (rank v < rank d)%nat;
  c_smiop : forall d op l r, avail d -> AsBinarySmiOp g d = Some (op, l, r) ->
    avail l /\ avail r /\ (rank l < rank d)%nat /\ (rank r < rank d)%nat /\ smi (rho l) /\ smi (rho r) /\
    (op = kADD -> rho d = rho l + rho r) /\ (op = kSUB -> rho d = rho l - rho r);
  c_cse : forall a b, avail a -> avail b -> AllowsCSE g a = true -> AllowsCSE g b = true ->
    Equals (computations g) a b = true -> rho a = rho b;
  c_length : forall d, avail d -> IsLengthLoad g fuel d = Done true -> smi (rho d)
}.

Context (C : consistent).

Lemma wf_i64 n b : wf n b -> i64 (value_of b).
Proof. destruct b; cbn; [tauto| |tauto]. intros (_ & _ & H & S). range_lia. Qed.

Lemma wf_mono n m b : (n <= m)%nat -> wf n b -> wf m b.
Proof. destruct b; cbn; auto. intros H (A & R & OS). split; [exact A|]. split; [lia|exact OS]. Qed.

(** Well formed for the fuel at hand. *)
Abbreviation wfb := (wf (pred fuel)).

Lemma wf_wfb d b : avail d -> wf (rank d) b -> wfb b.
Proof. intros A. apply wf_mono. pose proof (c_rank C d A). lia. Qed.

(** ** Bounds *)

Lemma LowerBound_returns n b : forall k, wf n b -> (n < k)%nat ->
  returns (constant_such (fun c => i64 c /\ c <= value_of b)) (LowerBound_ g k b).
Proof.
  revert b. induction n as [n IH] using lt_wf_ind. intros b [|k] W L; [lia|]. cbn [LowerBound_].
  destruct b as [|s o|c]; cbn in W |- *; [tauto| |apply returns_done; exists c; repeat split; solve [apply W|lia]].
  destruct W as (A & R & O & S).
  apply (returns_bind (constant_such (fun c => smi c /\ c <= rho s))).
  - destruct (range_ (def g s)) as [r|] eqn:E.
    + destruct (c_range C s r A E) as [[W _] [I _]].
      eapply returns_bind; [apply (IH (rank s)); [lia|exact W|lia]|]. intros ? (c & -> & Hc & Hle).
      rewrite (Clamp_constant _ _ _ c full_smi). apply returns_done. eexists; split; [reflexivity|].
      unfold clamped. range_lia.
    + apply returns_done. eexists; split; [reflexivity|]. range_lia.
  - intros ? (c & -> & Hc & Hle). apply Add_returns; try range_lia. eexists; split; [reflexivity|]. range_lia.
Qed.

Lemma UpperBound_returns n b : forall k, wf n b -> (n < k)%nat ->
  returns (constant_such (fun c => i64 c /\ value_of b <= c)) (UpperBound_ g k b).
Proof.
  revert b. induction n as [n IH] using lt_wf_ind. intros b [|k] W L; [lia|]. cbn [UpperBound_].
  destruct b as [|s o|c]; cbn in W |- *; [tauto| |apply returns_done; exists c; repeat split; solve [apply W|lia]].
  destruct W as (A & R & O & S).
  apply (returns_bind (constant_such (fun c => smi c /\ rho s <= c))).
  - destruct (range_ (def g s)) as [r|] eqn:E.
    + destruct (c_range C s r A E) as [[_ W] [_ I]].
      eapply returns_bind; [apply (IH (rank s)); [lia|exact W|lia]|]. intros ? (c & -> & Hc & Hle).
      rewrite (Clamp_constant _ _ _ c full_smi). apply returns_done. eexists; split; [reflexivity|].
      unfold clamped. range_lia.
    + apply returns_done. eexists; split; [reflexivity|]. range_lia.
  - intros ? (c & -> & Hc & Hle). apply Add_returns; try range_lia. eexists; split; [reflexivity|]. range_lia.
Qed.

Lemma LowerBound_sound b : wfb b -> returns (constant_such (fun c => i64 c /\ c <= value_of b)) (LowerBound g fuel b).
Proof. intros W. apply (LowerBound_returns _ _ _ W). pose proof (c_fuel C); lia. Qed.

Lemma UpperBound_sound b : wfb b -> returns (constant_such (fun c => i64 c /\ value_of b <= c)) (UpperBound g fuel b).
Proof. intros W. apply (UpperBound_returns _ _ _ W). pose proof (c_fuel C); lia. Qed.

(** Within a full range: of a value in that range the clamped bound is a bound. *)
Lemma LowerBoundIn_sound b r lo hi : wfb b -> full r lo hi ->
  returns (fun c => lo <= c <= hi /\ forall v, lo <= v <= hi -> value_of b <= v -> c <= v) (LowerBoundIn g fuel b r).
Proof.
  intros W F. unfold LowerBoundIn. rstep (LowerBound_sound b W) as (c & -> & Hc & Hle).
  rewrite (Clamp_constant _ _ _ c F). cbn [rbind ConstantValue]. destruct F as [_ F].
  apply returns_done. unfold clamped. split; [lia|]. intros. lia.
Qed.

Lemma UpperBoundIn_sound b r lo hi : wfb b -> full r lo hi ->
  returns (fun c => lo <= c <= hi /\ forall v, lo <= v <= hi -> v <= value_of b -> v <= c) (UpperBoundIn g fuel b r).
Proof.
  intros W F. unfold UpperBoundIn. rstep (UpperBound_sound b W) as (c & -> & Hc & Hle).
  rewrite (Clamp_constant _ _ _ c F). cbn [rbind ConstantValue]. destruct F as [_ F].
  apply returns_done. unfold clamped. split; [lia|]. intros. lia.
Qed.

Lemma ConstantMin_sound r : wfb (min_ r) -> returns (fun c => i64 c /\ c <= value_of (min_ r)) (ConstantMin g fuel r).
Proof.
  intros W. unfold ConstantMin, ConstantMinIn. apply (returns_bind (constant_such (fun c => i64 c /\ c <= value_of (min_ r)))).
  - rstep (LowerBound_sound _ W) as (c & -> & Hc & Hle). rewrite (Clamp_constant _ _ _ c full_int64). apply returns_done.
    eexists; split; [reflexivity|]. unfold clamped. range_lia.
  - intros ? (c & -> & H). apply returns_done, H.
Qed.

Lemma ConstantMax_sound r : wfb (max_ r) -> returns (fun c => i64 c /\ value_of (max_ r) <= c) (ConstantMax g fuel r).
Proof.
  intros W. unfold ConstantMax, ConstantMaxIn. apply (returns_bind (constant_such (fun c => i64 c /\ value_of (max_ r) <= c))).
  - rstep (UpperBound_sound _ W) as (c & -> & Hc & Hle). rewrite (Clamp_constant _ _ _ c full_int64). apply returns_done.
    eexists; split; [reflexivity|]. unfold clamped. range_lia.
  - intros ? (c & -> & H). apply returns_done, H.
Qed.

Lemma OnlyGreaterThanOrEqualTo_sound r k : wfb (min_ r) ->
  returns (fun b => b = true -> k <= value_of (min_ r)) (OnlyGreaterThanOrEqualTo g fuel r k).
Proof. intros W. unfold OnlyGreaterThanOrEqualTo. rstep (LowerBound_sound _ W) as (c & -> & Hc). apply returns_done. lia. Qed.

Lemma OnlyLessThanOrEqualTo_sound r k : wfb (max_ r) ->
  returns (fun b => b = true -> value_of (max_ r) <= k) (OnlyLessThanOrEqualTo g fuel r k).
Proof. intros W. unfold OnlyLessThanOrEqualTo. rstep (UpperBound_sound _ W) as (c & -> & Hc). apply returns_done. lia. Qed.

Lemma rand_returns (P Q : Prop) a b : returns (fun x => x = true -> P) a -> returns (fun x => x = true -> Q) b ->
  returns (fun x => x = true -> P /\ Q) (rand a b).
Proof.
  intros Ha (y & -> & Hy). unfold rand. eapply returns_bind; [exact Ha|]. intros [|] Hx; apply returns_done; auto. discriminate.
Qed.

Lemma ror_returns (P Q : Prop) a b : returns (fun x => x = true -> P) a -> returns (fun x => x = true -> Q) b ->
  returns (fun x => x = true -> P \/ Q) (ror a b).
Proof. intros Ha (y & -> & Hy). unfold ror. eapply returns_bind; [exact Ha|]. intros [|] Hx; apply returns_done; auto. Qed.

Lemma IsWithinInts_sound r lo hi : wf_range (pred fuel) r ->
  returns (fun b => b = true -> lo <= value_of (min_ r) /\ value_of (max_ r) <= hi) (IsWithinInts g fuel r lo hi).
Proof. intros [W1 W2]. apply rand_returns; [apply OnlyGreaterThanOrEqualTo_sound|apply OnlyLessThanOrEqualTo_sound]; assumption. Qed.

Lemma bounds_of_constant c :
  LowerBound g fuel (Constant c) = Done (Constant c) /\ UpperBound g fuel (Constant c) = Done (Constant c).
Proof. pose proof (c_fuel C) as H. unfold LowerBound, UpperBound. destruct fuel; [lia|]. split; reflexivity. Qed.

Lemma IsWithin_sound r other lo hi : wf_range (pred fuel) r -> full other lo hi ->
  returns (fun b => b = true -> lo <= value_of (min_ r) /\ value_of (max_ r) <= hi) (IsWithin g fuel r other).
Proof.
  intros W [-> F]. unfold IsWithin. cbn [min_ max_]. rewrite (proj1 (bounds_of_constant lo)), (proj2 (bounds_of_constant hi)).
  apply IsWithinInts_sound, W.
Qed.

(** ** Symbols *)

Lemma FromDefinition_sound d o n : avail d -> (rank d < n)%nat -> smi (rho d) -> IsValidOffsetForSymbolicRangeBoundary o = true ->
  returns (fun b => wf n b /\ value_of b = rho d + o) (FromDefinition g d o).
Proof.
  intros A R S V. pose proof (proj1 (valid_offset o) V) as O. unfold FromDefinition.
  assert (returns (fun b => wf n b /\ value_of b = rho d + o)
    (require IsValidOffsetForSymbolicRangeBoundary o;; Done (Symbol d o))) as Hs
    by (rewrite V; apply returns_done; cbn; auto).
  destruct (AsConstant g d) as [v|] eqn:E; [|exact Hs]. destruct (IsSmi v); [|exact Hs].
  rewrite (c_constant C d v A E) in *. apply (returns_bind (fun r => r = v + o)); [apply int64_returns; [range_lia|reflexivity]|].
  intros ? ->. apply returns_done. cbn. split; [range_lia|reflexivity].
Qed.

(** A walk to earlier definitions ends at an available one. *)
Lemma follow_returns (f : defn -> option defn) (same : Prop) :
  (forall d v, avail d -> f d = Some v -> avail v /\ (rank v < rank d)%nat /\ (same -> rho d = rho v)) ->
  forall k d, avail d -> (rank d < k)%nat ->
  returns (fun o => avail o /\ (rank o <= rank d)%nat /\ (same -> rho d = rho o)) (follow f k d).
Proof.
  intros H. induction k as [|k IH]; intros d A L; [lia|]. cbn [follow]. destruct (f d) as [v|] eqn:E.
  - destruct (H d v A E) as (Av & Rv & Sv). eapply returns_weaken; [apply (IH v Av); lia|].
    intros o (Ao & Ro & So). repeat split; [exact Ao|lia|]. intros S. rewrite (Sv S). exact (So S).
  - apply returns_done. auto.
Qed.

Lemma constraint_step d v : avail d -> AsConstraint g d = Some v -> avail v /\ (rank v < rank d)%nat /\ (True -> rho d = rho v).
Proof.
  intros A E. destruct (c_input C d v A) as [Av R].
  - unfold AsConstraint in E. unfold IgnoredInput. destruct (instr (def g d)); inversion E; reflexivity.
  - repeat split; auto. intros _. exact (c_constraint C d v A E).
Qed.

Lemma redefined_step d v : avail d -> RedefinedValue g d = Some v -> avail v /\ (rank v < rank d)%nat /\ (True -> rho d = rho v).
Proof.
  intros A E. destruct (c_input C d v A) as [Av R].
  - pose proof E as E'. unfold RedefinedValue in E'. unfold IgnoredInput. destruct (instr (def g d)); try discriminate; exact E.
  - repeat split; auto. intros _. exact (c_redefined C d v A E).
Qed.

Lemma UnwrapConstraint_returns d : avail d ->
  returns (fun o => avail o /\ (rank o <= rank d)%nat /\ rho d = rho o) (UnwrapConstraint g fuel d).
Proof.
  intros A. eapply returns_weaken; [apply (follow_returns _ True constraint_step _ d A); pose proof (c_rank C d A); lia|].
  intros o (H & R & S). auto.
Qed.

Lemma OriginalDefinition_returns d : avail d ->
  returns (fun o => avail o /\ (rank o <= rank d)%nat /\ rho d = rho o) (OriginalDefinition g fuel d).
Proof.
  intros A. eapply returns_weaken; [apply (follow_returns _ True redefined_step _ d A); pose proof (c_rank C d A); lia|].
  intros o (H & R & S). auto.
Qed.

Lemma IsLengthLoad_returns d : avail d -> returns (fun b => b = true -> smi (rho d)) (IsLengthLoad g fuel d).
Proof.
  intros A.
  assert (returns (fun _ => True) (IsLengthLoad g fuel d)) as (b & E & _).
  { unfold IsLengthLoad, OriginalDefinitionIgnoreBoxingAndConstraints.
    eapply returns_bind; [apply (follow_returns _ False)|].
    - intros x v Ax Ex. destruct (c_input C x v Ax Ex). repeat split; tauto.
    - exact A.
    - pose proof (c_rank C d A); lia.
    - intros. apply returns_done. exact I. }
  exists b. split; [exact E|]. intros ->. exact (c_length C d A E).
Qed.

Lemma Equals_computations a b : Equals g a b = true -> Equals (computations g) a b = true.
Proof.
  unfold Equals, SameTagAndAttributes. cbn [computations def instr representation].
  destruct (instr (def g a)), (instr (def g b)); cbn [computation inputs_of]; try (rewrite ?andb_false_r; auto; fail).
  rewrite !andb_true_iff. tauto.
Qed.

Lemma AreEqualDefinitions_sound a b : avail a -> avail b ->
  returns (fun e => e = true -> rho a = rho b) (AreEqualDefinitions g fuel a b).
Proof.
  intros Aa Ab. unfold AreEqualDefinitions.
  rstep (UnwrapConstraint_returns a Aa) as (Aa' & _ & ->). rstep (UnwrapConstraint_returns b Ab) as (Ab' & _ & ->).
  apply returns_done. intros [E%Nat.eqb_eq|[[H1 H2]%andb_true_iff H3]%andb_true_iff]%orb_true_iff; [congruence|].
  exact (c_cse C _ _ Aa' Ab' H1 H2 (Equals_computations _ _ H3)).
Qed.

(** A boundary whose symbol need not be a Smi. *)
Definition known (n : nat) (b : RangeBoundary) : Prop :=
  match b with
  | Unknown => False
  | Constant c => i64 c
  | Symbol s o => avail s /\ (rank s < n)%nat /\ -4611686018427387904 <= o <= 4611686018427387904 /\ i64 (rho s + o)
  end.

Lemma wf_known n b : wf n b -> known n b.
Proof. intros W. pose proof (wf_i64 n b W) as H. destruct b; cbn in *; tauto. Qed.

Lemma DependOnSameSymbol_sound n m a b : known n a -> known m b ->
  returns (fun e => e = true -> value_of a - offset_ a = value_of b - offset_ b /\ exists s t, a = Symbol s (offset_ a) /\ b = Symbol t (offset_ b))
    (DependOnSameSymbol g fuel a b).
Proof.
  destruct a as [|s o|c], b as [|t p|e]; cbn; try tauto; intros Wa Wb; try (apply returns_done; discriminate).
  eapply returns_weaken; [apply AreEqualDefinitions_sound; [apply Wa|apply Wb]|].
  intros ? H E. split; [rewrite (H E); lia|eauto].
Qed.

Lemma BoundaryEquals_sound n m a b : wf n a -> wf m b ->
  returns (fun e => e = true -> value_of a = value_of b) (BoundaryEquals g fuel a b).
Proof.
  intros Wa Wb. pose proof (DependOnSameSymbol_sound n m a b (wf_known n a Wa) (wf_known m b Wb)) as H.
  destruct a as [|s o|c], b as [|t p|e]; try (cbn in Wa, Wb; tauto); try (apply returns_done; discriminate).
  - unfold BoundaryEquals. destruct (Z.eqb_spec o p); [|apply returns_done; discriminate].
    eapply returns_weaken; [exact H|]. intros ? H' E. destruct (H' E) as [H'' _]. cbn in *. lia.
  - apply returns_done. cbn. lia.
Qed.

(** ** Canonicalization *)

Lemma AsSmiConstant_returns d : avail d -> smi (rho d) -> IsConstant g d = true -> returns (fun v => rho d = v) (AsSmiConstant g d).
Proof.
  unfold IsConstant, AsSmiConstant. intros A S. destruct (AsConstant g d) as [v|] eqn:E; [|discriminate]. intros _.
  pose proof (c_constant C d v A E) as H. rewrite (proj2 (IsSmi_spec v ltac:(subst v; range_lia))) by (rewrite <- H; exact S).
  apply returns_done, H.
Qed.

(** A turn of the loop keeps the value and moves to an earlier Smi. *)
Definition step_ok (s : defn) (o : Z) (x : canonical_step) : Prop :=
  match x with
  | Continue s' o' => avail s' /\ (rank s' < rank s)%nat /\ smi (rho s') /\ i64 o' /\ rho s' + o' = rho s + o
  | _ => True
  end.

Lemma CanonicalizeStep_sound s o : avail s -> smi (rho s) -> i64 o -> returns (step_ok s o) (CanonicalizeStep g s o).
Proof.
  intros A S O. unfold CanonicalizeStep.
  destruct (AsConstraint g s) as [v|] eqn:E1.
  { destruct (constraint_step s v A E1) as (Av & Rv & Hv). apply returns_done. cbn. rewrite <- (Hv Logic.I). auto. }
  destruct (AsUnboxInt64 g s) as [v|] eqn:E2.
  { pose proof (c_unbox C s v A E2) as Hv. destruct (c_input C s v A) as [Av Rv].
    - unfold AsUnboxInt64 in E2. unfold IgnoredInput. destruct (instr (def g s)), (representation (def g s)); inversion E2; reflexivity.
    - apply returns_done. cbn. rewrite <- Hv. auto. }
  destruct (AsBinarySmiOp g s) as [[[op l] r]|] eqn:E3; [|apply returns_done; exact Logic.I].
  destruct (c_smiop C s op l r A E3) as (Al & Ar & Rl & Rr & Sl & Sr & Hadd & Hsub).
  assert (forall x y, smi (rho y) -> avail x -> (rank x < rank s)%nat -> smi (rho x) -> rho s = rho x + rho y ->
    returns (step_ok s o) (if WillAddOverflow o (rho y) then Done Overflow else let* o := int64 (o + rho y) in Done (Continue x o))) as Hplus.
  { intros x y Sy Ax Rx Sx E. destruct (WillAddOverflow o (rho y)) eqn:W; [apply returns_done; exact Logic.I|].
    apply WillAddOverflow_spec in W; [|exact O|range_lia].
    apply (returns_bind (fun z => z = o + rho y)); [apply int64_returns; auto|]. intros ? ->. apply returns_done. cbn. rewrite E.
    repeat split; try assumption; try apply W; try apply Sx; lia. }
  destruct op; try (apply returns_done; exact Logic.I).
  - destruct (IsConstant g r) eqn:Er.
    + rstep (AsSmiConstant_returns r Ar Sr Er) as <-. apply Hplus; auto.
    + destruct (IsConstant g l) eqn:El; [|apply returns_done; exact Logic.I].
      rstep (AsSmiConstant_returns l Al Sl El) as <-. apply Hplus; auto. rewrite (Hadd eq_refl). lia.
  - destruct (IsConstant g r) eqn:Er; [|apply returns_done; exact Logic.I].
    rstep (AsSmiConstant_returns r Ar Sr Er) as <-. destruct (WillSubOverflow o (rho r)) eqn:W; [apply returns_done; exact Logic.I|].
    apply WillSubOverflow_spec in W; [|exact O|range_lia].
    apply (returns_bind (fun z => z = o - rho r)); [apply int64_returns; auto|]. intros ? ->. apply returns_done. cbn. rewrite (Hsub eq_refl).
    repeat split; try assumption; try apply W; try apply Sl; lia.
Qed.

Lemma CanonicalizeBoundary_loop_sound overflow : forall k s o, avail s -> smi (rho s) -> i64 o -> (rank s < k)%nat ->
  returns (fun b => b = overflow \/ wf (S (rank s)) b /\ value_of b = rho s + o) (CanonicalizeBoundary_loop g k s o overflow).
Proof.
  induction k as [|k IH]; intros s o A S O L; [lia|]. cbn [CanonicalizeBoundary_loop].
  rstep (CanonicalizeStep_sound s o A S O) as Hx. destruct a as [| |s' o']; cbn in Hx.
  - destruct (IsValidOffsetForSymbolicRangeBoundary o) eqn:V; [|apply returns_done; auto].
    eapply returns_weaken; [apply (FromDefinition_sound s o (Datatypes.S (rank s))); auto|]. intros ? H. right. exact H.
  - apply returns_done; auto.
  - destruct Hx as (A' & R' & S' & O' & E'). eapply returns_weaken; [apply (IH s' o' A' S' O'); lia|].
    intros b [->|[W V]]; [auto|]. right. split; [eapply wf_mono; [|exact W]; lia|lia].
Qed.

Lemma CanonicalizeBoundary_sound n a overflow : wf n a -> (n < fuel)%nat ->
  returns (fun b => b = overflow \/ wf n b /\ value_of b = value_of a) (CanonicalizeBoundary g fuel a overflow).
Proof.
  destruct a as [|s o|c]; cbn [wf]; [tauto| |intros H _; apply returns_done; auto].
  intros (A & R & O & S) L. cbn [CanonicalizeBoundary].
  eapply returns_weaken; [apply CanonicalizeBoundary_loop_sound; auto; [range_lia|lia]|].
  intros b [->|[W V]]; [auto|]. right. split; [eapply wf_mono; [|exact W]; lia|exact V].
Qed.

(** The measure of the comparison loops. *)
Definition mu (b : RangeBoundary) : nat := match b with Symbol s _ => S (rank s) | _ => O end.

Lemma mu_wf n b : wf n b -> (mu b <= n)%nat.
Proof. destruct b; cbn; lia. Qed.

(** The direction in which a canonicalization may move: up for maxima. *)
Definition toward (up : bool) (x y : Z) : Prop := if up then x <= y else y <= x.
Definition bound_of (up : bool) : Range -> RangeBoundary := if up then max_ else min_.
Definition limit_of (up : bool) : RangeBoundary := if up then MaxInt64 else MinInt64.

Lemma limit_ok up n a : known n a -> forall m, wf m (limit_of up) /\ toward up (value_of a) (value_of (limit_of up)) /\ mu (limit_of up) = O.
Proof.
  intros K m. assert (i64 (value_of a)) as H by (destruct a; cbn in *; tauto).
  destruct up; cbn; repeat split; range_lia.
Qed.

Lemma CanonicalizeBy_sound up n a : known n a -> (n < fuel)%nat ->
  returns (fun o => match o with Some c => wf n c /\ toward up (value_of a) (value_of c) /\ (mu c < mu a)%nat | None => True end)
    (CanonicalizeBy g fuel (bound_of up) (limit_of up) a).
Proof.
  intros K L. pose proof (limit_ok up n a K n) as (Wl & Dl & Ml).
  destruct a as [|s o|c]; try (apply returns_done; exact Logic.I). cbn [CanonicalizeBy].
  destruct K as (A & R & O & K). destruct (range_ (def g s)) as [r|] eqn:E; [|apply returns_done; exact Logic.I].
  assert (wf (rank s) (bound_of up r) /\ toward up (rho s) (value_of (bound_of up r))) as [W D].
  { destruct (c_range C s r A E) as [[W1 W2] [I1 I2]]. destruct up; split; assumption. }
  destruct (bound_of up r) as [|s' o'|c']; try (apply returns_done; exact Logic.I). destruct W as (A' & R' & O' & S').
  destruct (WillAddOverflow o' o) eqn:V; [apply returns_done; cbn [mu]; repeat split; (exact Wl || exact Dl || lia)|].
  apply WillAddOverflow_spec in V; [|range_lia..].
  apply (returns_bind (fun z => z = o' + o)); [apply int64_returns; auto|]. intros ? ->.
  destruct (IsValidOffsetForSymbolicRangeBoundary (o' + o)) eqn:V'; cbn [negb];
    [|apply returns_done; cbn [mu]; repeat split; (exact Wl || exact Dl || lia)].
  rstep (FromDefinition_sound s' (o' + o) (S (rank s')) A' ltac:(lia) S' V') as [Wb Eb].
  rstep (CanonicalizeBoundary_sound (S (rank s')) _ (limit_of up) Wb ltac:(pose proof (c_rank C s' A'); lia)) as Hc.
  apply returns_done. destruct Hc as [->|[Wc Ec]]; [cbn [mu]; repeat split; (exact Wl || exact Dl || lia)|].
  split; [eapply wf_mono; [|exact Wc]; lia|]. split.
  - rewrite Ec, Eb. cbn [value_of]. destruct up; cbn in *; lia.
  - pose proof (mu_wf _ _ Wc). cbn [mu]. lia.
Qed.

(** What [CanonicalizeForComparison] promises: bounds of both over one symbol. *)
Definition comparable (up : bool) (a b : RangeBoundary) (o : option (RangeBoundary * RangeBoundary)) : Prop :=
  match o with
  | Some (a', b') => wf (pred fuel) a' /\ wf (pred fuel) b' /\ toward up (value_of a) (value_of a') /\ toward up (value_of b) (value_of b') /\
      value_of a' - offset_ a' = value_of b' - offset_ b'
  | None => True
  end.

Lemma CanonicalizeForComparison_loop_sound up : forall k a b, wf (pred fuel) a -> wf (pred fuel) b -> (mu a + mu b < k)%nat ->
  returns (comparable up a b) (CanonicalizeForComparison_loop g fuel (CanonicalizeBy g fuel (bound_of up) (limit_of up)) k a b).
Proof.
  pose proof (c_fuel C) as F.
  induction k as [|k IH]; intros a b Wa Wb L; [lia|]. cbn [CanonicalizeForComparison_loop].
  rstep (DependOnSameSymbol_sound _ _ a b (wf_known _ a Wa) (wf_known _ b Wb)) as Hs. destruct a0.
  { apply returns_done. cbn. destruct (Hs eq_refl) as [E _]. destruct up; cbn; repeat split; (assumption || lia). }
  rstep (CanonicalizeBy_sound up _ a (wf_known _ a Wa) ltac:(lia)) as Ha. destruct a0 as [a'|].
  { destruct Ha as (Wa' & Da & Ma). eapply returns_weaken; [apply (IH a' b Wa' Wb); lia|].
    intros [[a'' b'']|]; cbn; [|auto]. intros (H1 & H2 & H3 & H4 & H5). repeat split; auto. destruct up; cbn in *; lia. }
  rstep (CanonicalizeBy_sound up _ b (wf_known _ b Wb) ltac:(lia)) as Hb. destruct a0 as [b'|]; [|apply returns_done; exact Logic.I].
  destruct Hb as (Wb' & Db & Mb). eapply returns_weaken; [apply (IH a b' Wa Wb'); lia|].
  intros [[a'' b'']|]; cbn; [|auto]. intros (H1 & H2 & H3 & H4 & H5). repeat split; auto. destruct up; cbn in *; lia.
Qed.

Lemma CanonicalizeForComparison_sound up a b : wf (pred fuel) a -> wf (pred fuel) b ->
  returns (comparable up a b) (CanonicalizeForComparison g fuel a b (CanonicalizeBy g fuel (bound_of up) (limit_of up))).
Proof.
  intros Wa Wb. unfold CanonicalizeForComparison. destruct (negb (IsSymbol_ a) || negb (IsSymbol_ b)); [apply returns_done; exact Logic.I|].
  apply CanonicalizeForComparison_loop_sound; try assumption.
  pose proof (mu_wf _ _ Wa). pose proof (mu_wf _ _ Wb). pose proof (c_fuel C). lia.
Qed.

(** ** Joins and intersections *)

Lemma Overflowed_returns c r lo hi : full r lo hi -> returns (fun _ => True) (Overflowed g fuel (Constant c) r).
Proof. intros F. unfold Overflowed. cbn [IsConstant_]. rewrite (Clamp_constant _ _ _ c F). apply returns_done. exact Logic.I. Qed.

Lemma lower_fits x r lo hi : wfb x -> full r lo hi ->
  returns (fun _ => True) (let* l := LowerBound g fuel x in let* o := Overflowed g fuel l r in Done (negb o)).
Proof. intros W F. rstep (LowerBound_sound x W) as (c & -> & _). rstep (Overflowed_returns c r lo hi F) as _. apply returns_done. exact Logic.I. Qed.

Lemma upper_fits x r lo hi : wfb x -> full r lo hi ->
  returns (fun _ => True) (let* u := UpperBound g fuel x in let* o := Overflowed g fuel u r in Done (negb o)).
Proof. intros W F. rstep (UpperBound_sound x W) as (c & -> & _). rstep (Overflowed_returns c r lo hi F) as _. apply returns_done. exact Logic.I. Qed.

Lemma rand_any b x : returns (fun _ => True) x -> returns (fun r => r = true -> b = true) (rand (Done b) x).
Proof. intros (y & -> & _). destruct b; cbn; apply returns_done; auto. Qed.

Lemma JoinMin_sound a b r lo hi : wfb a -> wfb b -> full r lo hi ->
  returns (fun c => wfb c /\ forall v, lo <= v <= hi -> value_of a <= hi -> value_of b <= hi ->
                    value_of a <= v \/ value_of b <= v -> value_of c <= v) (JoinMin g fuel a b r).
Proof.
  intros Wa Wb F. unfold JoinMin. rstep (BoundaryEquals_sound _ _ a b Wa Wb) as He. destruct a0.
  { apply returns_done. split; [exact Wb|]. rewrite (He eq_refl). lia. }
  rstep (CanonicalizeForComparison_sound false a b Wa Wb) as Hc. destruct a0 as [[a' b']|].
  { destruct Hc as (Wa' & Wb' & Da & Db & E). cbn in Da, Db. apply returns_done. destruct (Z.leb_spec (offset_ a') (offset_ b')).
    all: split; [assumption|]; intros; lia. }
  clear Hc. rstep (LowerBoundIn_sound a r lo hi Wa F) as [La Ia]. rstep (LowerBoundIn_sound b r lo hi Wb F) as [Lb Ib].
  rstep (UpperBoundIn_sound a r lo hi Wa F) as [Ua Sa]. rstep (UpperBoundIn_sound b r lo hi Wb F) as [Ub Sb].
  cbv beta zeta. rstep (rand_any (_ <=? _) _ (lower_fits a r lo hi Wa F)) as K. destruct a4.
  { specialize (K eq_refl). apply returns_done. split; [exact Wa|]. intros v Hv H1 H2 [H|H]; [lia|]. specialize (Ib v Hv H).
    destruct (Z.lt_ge_cases (value_of a) lo); [lia|]. specialize (Sa (value_of a) ltac:(lia) ltac:(lia)). lia. }
  rstep (rand_any (_ <=? _) _ (lower_fits b r lo hi Wb F)) as K'. destruct a4.
  { specialize (K' eq_refl). apply returns_done. split; [exact Wb|]. intros v Hv H1 H2 [H|H]; [|lia]. specialize (Ia v Hv H).
    destruct (Z.lt_ge_cases (value_of b) lo); [lia|]. specialize (Sb (value_of b) ltac:(lia) ltac:(lia)). lia. }
  apply returns_done. split; [cbn; destruct F as (_ & F); range_lia|]. cbn. intros v Hv _ _ [H|H]; [specialize (Ia v Hv H)|specialize (Ib v Hv H)]; lia.
Qed.

Lemma JoinMax_sound a b r lo hi : wfb a -> wfb b -> full r lo hi ->
  returns (fun c => wfb c /\ forall v, lo <= v <= hi -> lo <= value_of a -> lo <= value_of b ->
                    v <= value_of a \/ v <= value_of b -> v <= value_of c) (JoinMax g fuel a b r).
Proof.
  intros Wa Wb F. unfold JoinMax. rstep (BoundaryEquals_sound _ _ a b Wa Wb) as He. destruct a0.
  { apply returns_done. split; [exact Wb|]. rewrite (He eq_refl). lia. }
  rstep (CanonicalizeForComparison_sound true a b Wa Wb) as Hc. destruct a0 as [[a' b']|].
  { destruct Hc as (Wa' & Wb' & Da & Db & E). cbn in Da, Db. apply returns_done. destruct (Z.geb_spec (offset_ a') (offset_ b')).
    all: split; [assumption|]; intros; lia. }
  clear Hc. rstep (LowerBoundIn_sound a r lo hi Wa F) as [La Ia]. rstep (LowerBoundIn_sound b r lo hi Wb F) as [Lb Ib].
  rstep (UpperBoundIn_sound a r lo hi Wa F) as [Ua Sa]. rstep (UpperBoundIn_sound b r lo hi Wb F) as [Ub Sb].
  cbv beta zeta. rstep (rand_any (_ <=? _) _ (upper_fits b r lo hi Wb F)) as K. destruct a4.
  { specialize (K eq_refl). apply returns_done. split; [exact Wb|]. intros v Hv H1 H2 [H|H]; [|lia]. specialize (Sa v Hv H).
    destruct (Z.lt_ge_cases hi (value_of b)); [lia|]. specialize (Ib (value_of b) ltac:(lia) ltac:(lia)). lia. }
  rstep (rand_any (_ <=? _) _ (upper_fits a r lo hi Wa F)) as K'. destruct a4.
  { specialize (K' eq_refl). apply returns_done. split; [exact Wa|]. intros v Hv H1 H2 [H|H]; [lia|]. specialize (Sb v Hv H).
    destruct (Z.lt_ge_cases hi (value_of a)); [lia|]. specialize (Ia (value_of a) ltac:(lia) ltac:(lia)). lia. }
  apply returns_done. split; [cbn; destruct F as (_ & F); range_lia|]. cbn. intros v Hv _ _ [H|H]; [specialize (Sa v Hv H)|specialize (Sb v Hv H)]; lia.
Qed.

Lemma IntersectionMin_sound a b : wfb a -> wfb b ->
  returns (fun c => wfb c /\ forall v, value_of a <= v -> value_of b <= v -> value_of c <= v) (IntersectionMin g fuel a b).
Proof.
  intros Wa Wb. unfold IntersectionMin.
  apply returns_require; [destruct a, b; cbn in *; tauto|].
  rstep (BoundaryEquals_sound _ _ a b Wa Wb) as He. destruct a0; [apply returns_done; auto|]. clear He.
  assert (returns (fun c => wfb c /\ forall v, value_of a <= v -> value_of b <= v -> value_of c <= v)
    (let* c := CanonicalizeForComparison g fuel a b (CanonicalizeMinBoundary g fuel) in
     match c with
     | Some (a, b) => Done (if offset_ a >=? offset_ b then a else b)
     | None => let* la := LowerBound g fuel a in let* inf_a := ConstantValue la in
               let* lb := LowerBound g fuel b in let* inf_b := ConstantValue lb in Done (if inf_a >=? inf_b then a else b)
     end)) as H.
  { rstep (CanonicalizeForComparison_sound false a b Wa Wb) as Hc. destruct a0 as [[a' b']|].
    - destruct Hc as (Wa' & Wb' & Da & Db & E). cbn in Da, Db. apply returns_done. destruct (offset_ a' >=? offset_ b'); split; try assumption; lia.
    - rstep (LowerBound_sound a Wa) as (c & -> & _). cbn [rbind ConstantValue]. rstep (LowerBound_sound b Wb) as (c' & -> & _).
      cbn [rbind ConstantValue]. apply returns_done. destruct (c >=? c'); split; try assumption; auto. }
  destruct a as [|s o|x], b as [|t p|y]; try exact H. apply returns_done. cbn in *. split; [range_lia|lia].
Qed.

Lemma IntersectionMax_sound a b : wfb a -> wfb b ->
  returns (fun c => wfb c /\ forall v, v <= value_of a -> v <= value_of b -> v <= value_of c) (IntersectionMax g fuel a b).
Proof.
  intros Wa Wb. unfold IntersectionMax.
  apply returns_require; [destruct a, b; cbn in *; tauto|].
  rstep (BoundaryEquals_sound _ _ a b Wa Wb) as He. destruct a0; [apply returns_done; auto|]. clear He.
  assert (returns (fun c => wfb c /\ forall v, v <= value_of a -> v <= value_of b -> v <= value_of c)
    (let* c := CanonicalizeForComparison g fuel a b (CanonicalizeMaxBoundary g fuel) in
     match c with
     | Some (a, b) => Done (if offset_ a <=? offset_ b then a else b)
     | None => let* ua := UpperBound g fuel a in let* sup_a := ConstantValue ua in
               let* ub := UpperBound g fuel b in let* sup_b := ConstantValue ub in Done (if sup_a <=? sup_b then a else b)
     end)) as H.
  { rstep (CanonicalizeForComparison_sound true a b Wa Wb) as Hc. destruct a0 as [[a' b']|].
    - destruct Hc as (Wa' & Wb' & Da & Db & E). cbn in Da, Db. apply returns_done. destruct (offset_ a' <=? offset_ b'); split; try assumption; lia.
    - rstep (UpperBound_sound a Wa) as (c & -> & _). cbn [rbind ConstantValue]. rstep (UpperBound_sound b Wb) as (c' & -> & _).
      cbn [rbind ConstantValue]. apply returns_done. destruct (c <=? c'); split; try assumption; auto. }
  destruct a as [|s o|x], b as [|t p|y]; try exact H. apply returns_done. cbn in *. split; [range_lia|lia].
Qed.

Lemma MakeRange_returns n a b (P : Range -> Prop) : wf n a -> wf n b -> P (mkRange a b) -> returns P (MakeRange a b).
Proof. intros Wa Wb H. unfold MakeRange. destruct a, b; cbn in *; try tauto; apply returns_done, H. Qed.

Lemma Intersect_sound r other : wf_range (pred fuel) r -> wf_range (pred fuel) other ->
  returns (fun i => wf_range (pred fuel) i /\ forall v, in_range v r -> in_range v other -> in_range v i) (Intersect g fuel r other).
Proof.
  intros [W1 W2] [W3 W4]. unfold Intersect. rstep (IntersectionMin_sound _ _ W1 W3) as [Wl Hl]. rstep (IntersectionMax_sound _ _ W2 W4) as [Wu Hu].
  apply (MakeRange_returns (pred fuel)); try assumption. split; [split; assumption|]. unfold in_range. intros v Hv Hv'. cbn. split; [apply Hl|apply Hu]; lia.
Qed.

Lemma IsUnsatisfiable_sound r : wf_range (pred fuel) r -> returns (fun u => u = true -> forall v, ~ in_range v r) (IsUnsatisfiable g fuel r).
Proof.
  intros [W1 W2]. unfold IsUnsatisfiable. rstep (ConstantMin_sound r W1) as [_ Hl]. rstep (ConstantMax_sound r W2) as [_ Hu].
  destruct (Z.gtb_spec a a0); [apply returns_done; unfold in_range; intros _ v; lia|].
  rstep (DependOnSameSymbol_sound _ _ _ _ (wf_known _ _ W1) (wf_known _ _ W2)) as Hs. apply returns_done.
  intros [E O]%andb_true_iff v. destruct (Hs E) as [H' _]. unfold in_range. lia.
Qed.
End Soundness.
