(* ===== verification/Integers.v ===== *)
(** * Dart integers and constant folding ([vm/object.cc]: [Integer]; [vm/compiler/backend/evaluator.cc])

    The operations of class [Integer] on 64-bit values, and the evaluator that
    folds integer operations of the intermediate language.  An [Integer] is its
    value; [Integer::null()] is [None].  Operations the sources leave undefined
    (division by zero, signed overflow) are assertion failures. *)

From Stdlib Require Import ZArith Bool List Lia ZifyBool.
From S2P Require Import Prelude Utils Result Il RangeOps RangeProofs.
Open Scope Z_scope.

(** ** Specification: the exact result, wrapped to 64 bits *)

(** The mathematical result; none when the operation throws. *)
Definition exact (op : Kind) (l r : Z) : option Z :=
  match op with
  | kADD => Some (l + r)
  | kSUB => Some (l - r)
  | kMUL => Some (l * r)
  | kTRUNCDIV => if r =? 0 then None else Some (Z.quot l r)
  | kMOD => if r =? 0 then None else Some (l mod Z.abs r)
  | kSHL => if r <? 0 then None else Some (l * 2 ^ r)
  | kSHR => if r <? 0 then None else Some (l / 2 ^ r)
  | kUSHR => if r <? 0 then None else Some (s64 (u64 l / 2 ^ r))
  | kBIT_AND => Some (Z.land l r)
  | kBIT_OR => Some (Z.lor l r)
  | kBIT_XOR => Some (Z.lxor l r)
  | _ => None
  end.

Definition dart_op (op : Kind) (l r : Z) : option Z := option_map s64 (exact op l r).

(** ** [Integer] *)

(** [%] of C++: the sign of the dividend. *)
Definition int_rem (a b : Z) : result Z := require negb (b =? 0);; let* _ := int64 (Z.quot a b) in Done (Z.rem a b).

Definition ModFromRemainder (remainder right_value : Z) : result Z :=
  if remainder <? 0
  then if right_value <? 0 then int64 (remainder - right_value) else int64 (remainder + right_value)
  else Done remainder.

Definition ArithmeticOp (operation : Kind) (left_value right_value : Z) : result Z :=
  if IsSmi left_value && IsSmi right_value then
    match operation with
    | kADD => int64 (left_value + right_value)
    | kSUB => int64 (left_value - right_value)
    | kMUL => Done (MulWithWrapAround left_value right_value)
    | kTRUNCDIV => int_div left_value right_value
    | kMOD => let* remainder := int_rem left_value right_value in ModFromRemainder remainder right_value
    | _ => AssertionFailure
    end
  else
    match operation with
    | kADD => Done (AddWithWrapAround left_value right_value)
    | kSUB => Done (SubWithWrapAround left_value right_value)
    | kMUL => Done (MulWithWrapAround left_value right_value)
    | kTRUNCDIV => if (left_value =? kMinInt64) && (right_value =? -1) then Done kMinInt64 else int_div left_value right_value
    | kMOD => if (left_value =? kMinInt64) && (right_value =? -1) then Done 0
              else let* remainder := int_rem left_value right_value in ModFromRemainder remainder right_value
    | _ => AssertionFailure
    end.

Definition BitOp (kind : Kind) (a b : Z) : result Z :=
  let both_smi := IsSmi a && IsSmi b in
  let* r := match kind with
            | kBIT_AND => Done (Z.land a b)
            | kBIT_OR => Done (Z.lor a b)
            | kBIT_XOR => Done (Z.lxor a b)
            | _ => AssertionFailure
            end in
  if both_smi then require IsSmi r;; Done r else Done r.

Definition Mint_kBits : Z := 63.

Definition ShiftOp (kind : Kind) (a b : Z) : result Z :=
  require b >=? 0;;
  match kind with
  | kSHL => match ShiftLeftWithTruncation a b with Some v => Done v | None => AssertionFailure end
  | kSHR => Done (a >> Z.min b Mint_kBits)
  | kUSHR => Done (s64 (if b >=? kBitsPerInt64 then 0 else u64 a >> b))
  | _ => AssertionFailure
  end.

(** ** [Evaluator] *)

Definition BinaryIntegerEvaluateRaw (left_ right_ : Z) (token_kind : Kind) : result (option Z) :=
  let some (r : result Z) := let* v := r in Done (Some v) in
  match token_kind with
  | kTRUNCDIV | kMOD => if right_ =? 0 then Done None else some (ArithmeticOp token_kind left_ right_)
  | kADD | kSUB | kMUL => some (ArithmeticOp token_kind left_ right_)
  | kSHL | kSHR | kUSHR => if right_ >=? 0 then some (ShiftOp token_kind left_ right_) else Done None
  | kBIT_AND | kBIT_OR | kBIT_XOR => some (BitOp token_kind left_ right_)
  | kDIV => Done None
  | _ => AssertionFailure
  end.

(** A left shift and an arithmetic right shift by the same amount. *)
Definition SignExtendLow (v bits : Z) : result Z :=
  match ShiftLeftWithTruncation v bits with Some x => Done (x >> bits) | None => AssertionFailure end.

Definition TruncateTo (v : Z) (r : Representation) : result Z :=
  match r with
  | kTagged => SignExtendLow v (kBitsPerInt64 - (kSmiBits + 1))
  | kUnboxedInt32 => SignExtendLow v 32
  | kUnboxedUint32 => Done (v .& kMaxUint32)
  | kUnboxedInt64 => Done v
  | _ => AssertionFailure
  end.

(** [FlowGraph::IsConstantRepresentable] of an integer, Smis only when tagged. *)
Definition IsConstantRepresentable (value : Z) (target_rep : Representation) : bool :=
  match target_rep with
  | kTagged => IsSmi value
  | kUnboxedInt32 => IsInt 32 value
  | kUnboxedUint32 => IsUint 32 value
  | kUnboxedInt64 => true
  | _ => false
  end.

Definition BinaryIntegerEvaluate (left_ right_ : Z) (token_kind : Kind) (is_truncating : bool) (rep : Representation) : result (option Z) :=
  let* r := BinaryIntegerEvaluateRaw left_ right_ token_kind in
  match r with
  | None => Done None
  | Some v =>
      if is_truncating then
        let* truncated := TruncateTo v rep in
        require IsConstantRepresentable truncated rep;; Done (Some truncated)
      else Done (if IsConstantRepresentable v rep then Some v else None)
  end.

(** ** Correctness of [Integer] *)

Lemma is_s64 z : is_sN 64 z <-> i64 z.
Proof. unfold is_sN. change (2 ^ (64 - 1)) with 9223372036854775808. range_lia. Qed.

Lemma s64_small z : i64 z -> s64 z = z.
Proof. intros H. apply sN_small; [lia|]. apply is_s64, H. Qed.

Lemma s64_i64 z : i64 (s64 z).
Proof. apply is_s64, sN_range. lia. Qed.

Lemma smi_i64 z : smi z -> i64 z.
Proof. range_lia. Qed.

Lemma wrap_add a b : AddWithWrapAround a b = s64 (a + b).
Proof. unfold AddWithWrapAround. rewrite uN_add_l, uN_add_r. apply sN_uN. lia. Qed.
Lemma wrap_sub a b : SubWithWrapAround a b = s64 (a - b).
Proof. unfold SubWithWrapAround. rewrite uN_sub_l, uN_sub_r. apply sN_uN. lia. Qed.
Lemma wrap_mul a b : MulWithWrapAround a b = s64 (a * b).
Proof. unfold MulWithWrapAround. rewrite uN_mul_l, uN_mul_r. apply sN_uN. lia. Qed.

Lemma i64_quot a b : i64 a -> b <> 0 -> ~ (b = -1 /\ a = kMinInt64) -> i64 (Z.quot a b).
Proof. intros Ha Hb H. apply is_s64. apply quot_fits; [lia|apply is_s64, Ha|exact Hb|exact H]. Qed.

Lemma int_div_returns P a b : i64 a -> b <> 0 -> ~ (b = -1 /\ a = kMinInt64) -> P (Z.quot a b) -> returns P (int_div a b).
Proof.
  intros Ha Hb H HP. unfold int_div. rewrite (proj2 (Z.eqb_neq b 0) Hb). apply int64_returns; [apply i64_quot; assumption|exact HP].
Qed.

(** The remainder of C++ with the sign corrected is the Euclidean one. *)
Lemma ModFromRemainder_spec a b : i64 a -> i64 b -> b <> 0 -> returns (fun v => v = a mod Z.abs b) (ModFromRemainder (Z.rem a b) b).
Proof.
  intros Ha Hb Hnz. unfold ModFromRemainder. pose proof (Z.rem_bound_abs a b Hnz) as B. pose proof (Z.quot_rem a b Hnz) as E.
  destruct (Z.ltb_spec (Z.rem a b) 0) as [N|N].
  - destruct (Z.ltb_spec b 0); (apply int64_returns; [range_lia|]).
    + apply (Z.mod_unique_pos a (Z.abs b) (- Z.quot a b - 1)); lia.
    + apply (Z.mod_unique_pos a (Z.abs b) (Z.quot a b - 1)); lia.
  - apply returns_done. destruct (Z.lt_ge_cases b 0).
    + apply (Z.mod_unique_pos a (Z.abs b) (- Z.quot a b)); lia.
    + apply (Z.mod_unique_pos a (Z.abs b) (Z.quot a b)); lia.
Qed.

Lemma mod_i64 a b : i64 b -> b <> 0 -> i64 (a mod Z.abs b).
Proof. intros Hb Hnz. pose proof (Z.mod_pos_bound a (Z.abs b) ltac:(lia)). range_lia. Qed.

Lemma int_mod_returns a b : i64 a -> i64 b -> b <> 0 -> ~ (b = -1 /\ a = kMinInt64) ->
  returns (fun v => v = a mod Z.abs b) (let* remainder := int_rem a b in ModFromRemainder remainder b).
Proof.
  intros Ha Hb Hnz H. unfold int_rem. rewrite (proj2 (Z.eqb_neq b 0) Hnz). cbn [negb].
  destruct (int64_returns (fun _ => True) (Z.quot a b) (i64_quot a b Ha Hnz H) Logic.I) as (q & -> & _). cbn [rbind].
  apply ModFromRemainder_spec; assumption.
Qed.

Lemma shl_wrap a b : 0 <= b -> ShiftLeftWithTruncation a b = Some (s64 (a * 2 ^ b)).
Proof.
  intros Hb. unfold ShiftLeftWithTruncation. rewrite (proj2 (Z.geb_le b 0) Hb). f_equal. unfold kBitsPerInt64.
  destruct (Z.geb_spec b 64) as [H|H].
  - replace (a * 2 ^ b) with (0 + (a * 2 ^ (b - 64)) * 2 ^ 64); [rewrite sN_add_mult; reflexivity|].
    rewrite Z.add_0_l, <- Z.mul_assoc, <- Z.pow_add_r by lia. replace (b - 64 + 64) with b by lia. reflexivity.
  - rewrite Z.shiftl_mul_pow2, uN_mul_l by lia. apply sN_uN. lia.
Qed.

Lemma shr_saturated a b : i64 a -> 0 <= b -> a >> Z.min b 63 = a / 2 ^ b.
Proof.
  intros Ha Hb. rewrite Z.shiftr_div_pow2 by lia. destruct (Z.le_gt_cases b 63); [rewrite Z.min_l by lia; reflexivity|].
  rewrite Z.min_r by lia. change (2 ^ 63) with 9223372036854775808.
  assert (9223372036854775808 * 2 <= 2 ^ b) by (change (9223372036854775808 * 2) with (2 ^ 64); apply Z.pow_le_mono_r; lia).
  destruct (Z.lt_ge_cases a 0).
  - rewrite <- (Z.div_unique a 9223372036854775808 (-1) (a + 9223372036854775808)) by range_lia.
    apply (Z.div_unique a (2 ^ b) (-1) (a + 2 ^ b)); range_lia.
  - rewrite !Z.div_small by range_lia. reflexivity.
Qed.

Lemma i64_shr a b : i64 a -> 0 <= b -> i64 (a / 2 ^ b).
Proof.
  intros Ha Hb. assert (0 < 2 ^ b) by (apply Z.pow_pos_nonneg; lia).
  pose proof (Z.div_le_lower_bound a (2 ^ b) (-9223372036854775808)). pose proof (Z.div_lt_upper_bound a (2 ^ b) 9223372036854775808).
  assert (2 ^ b * 9223372036854775808 >= 9223372036854775808) by nia. range_lia.
Qed.

Lemma bit_i64 f a b : (forall w x y, 0 < w -> is_sN w x -> is_sN w y -> is_sN w (f x y)) -> i64 a -> i64 b -> i64 (f a b).
Proof. intros H Ha Hb. apply is_s64. apply H; [lia|apply is_s64; assumption..]. Qed.

Lemma bit_smi f a b : (forall w x y, 0 < w -> is_sN w x -> is_sN w y -> is_sN w (f x y)) ->
  IsSmi a = true -> IsSmi b = true -> IsSmi (f a b) = true.
Proof. unfold IsSmi. rewrite !IsInt_spec by (unfold kSmiBits; lia). intros H Ha Hb. apply H; [unfold kSmiBits; lia|assumption..]. Qed.

Lemma BitOp_returns k f a b : (forall w x y, 0 < w -> is_sN w x -> is_sN w y -> is_sN w (f x y)) ->
  (forall x y, match k with kBIT_AND => Done (Z.land x y) | kBIT_OR => Done (Z.lor x y) | kBIT_XOR => Done (Z.lxor x y) | _ => AssertionFailure end = Done (f x y)) ->
  i64 a -> i64 b -> returns (fun v => s64 (f a b) = v) (BitOp k a b).
Proof.
  intros H E Ha Hb. unfold BitOp. rewrite E. cbn [rbind]. rewrite (s64_small _ (bit_i64 f a b H Ha Hb)).
  destruct (IsSmi a) eqn:Sa, (IsSmi b) eqn:Sb; cbn [andb]; try (apply returns_done; reflexivity).
  rewrite (bit_smi f a b H Sa Sb). apply returns_done. reflexivity.
Qed.

(** The arithmetic of [ArithmeticOp], whichever of its two halves runs. *)
Lemma ArithmeticOp_returns op a b v : i64 a -> i64 b -> dart_op op a b = Some v ->
  match op with kADD | kSUB | kMUL | kTRUNCDIV | kMOD => returns (fun r => r = v) (ArithmeticOp op a b) | _ => True end.
Proof.
  intros Ha Hb. unfold dart_op, ArithmeticOp.
  assert (IsSmi a && IsSmi b = true -> smi a /\ smi b) as Hs
    by (intros [H1 H2]%andb_true_iff; split; apply IsSmi_spec; assumption).
  destruct op; try exact (fun _ => Logic.I); cbn [exact option_map].
  - intros [= <-]. destruct (IsSmi a && IsSmi b).
    + destruct (Hs eq_refl). assert (i64 (a + b)) by range_lia. apply int64_returns; [assumption|]. symmetry. apply s64_small. assumption.
    + apply returns_done, wrap_add.
  - intros [= <-]. destruct (IsSmi a && IsSmi b).
    + destruct (Hs eq_refl). assert (i64 (a - b)) by range_lia. apply int64_returns; [assumption|]. symmetry. apply s64_small. assumption.
    + apply returns_done, wrap_sub.
  - intros [= <-]. destruct (IsSmi a && IsSmi b); apply returns_done, wrap_mul.
  - destruct (Z.eqb_spec b 0); [discriminate|]. intros [= <-].
    assert (~ (b = -1 /\ a = kMinInt64) -> returns (fun r => r = s64 (Z.quot a b)) (int_div a b)) as Hd.
    { intros Hne. apply int_div_returns; try assumption. symmetry. apply s64_small, i64_quot; assumption. }
    destruct (IsSmi a && IsSmi b); [apply Hd; destruct (Hs eq_refl); range_lia|].
    destruct (Z.eqb_spec a kMinInt64), (Z.eqb_spec b (-1)); cbn [andb]; try (apply Hd; tauto).
    subst. apply returns_done. reflexivity.
  - destruct (Z.eqb_spec b 0); [discriminate|]. intros [= <-]. rewrite (s64_small _ (mod_i64 a b Hb ltac:(assumption))).
    destruct (IsSmi a && IsSmi b); [apply int_mod_returns; try assumption; destruct (Hs eq_refl); range_lia|].
    destruct (Z.eqb_spec a kMinInt64), (Z.eqb_spec b (-1)); cbn [andb]; try (apply int_mod_returns; tauto).
    subst. apply returns_done. reflexivity.
Qed.

Lemma ShiftOp_returns op a b v : i64 a -> i64 b -> dart_op op a b = Some v ->
  match op with kSHL | kSHR | kUSHR => 0 <= b /\ returns (fun r => r = v) (ShiftOp op a b) | _ => True end.
Proof.
  intros Ha Hb. unfold dart_op, ShiftOp. destruct op; try exact (fun _ => Logic.I); cbn [exact option_map].
  all: destruct (Z.ltb_spec b 0); [discriminate|]; intros [= <-]; split; [assumption|]; rewrite (proj2 (Z.geb_le b 0)) by assumption.
  - rewrite shl_wrap by assumption. apply returns_done. reflexivity.
  - unfold Mint_kBits. rewrite shr_saturated by assumption. apply returns_done. symmetry. apply s64_small, i64_shr; assumption.
  - apply returns_done. rewrite sN_sN by lia. unfold kBitsPerInt64. destruct (Z.geb_spec b 64).
    + rewrite Z.div_small; [reflexivity|]. pose proof (uN_range 64 a ltac:(lia)) as R. unfold is_uN in R.
      pose proof (Z.pow_le_mono_r 2 64 b). lia.
    + rewrite Z.shiftr_div_pow2 by lia. reflexivity.
Qed.

(** ** Correctness of [Evaluator] *)

(** What a representation keeps of an integer. *)
Definition narrow (rep : Representation) (x : Z) : Z :=
  match rep with kTagged => sN 63 x | kUnboxedInt32 => s32 x | kUnboxedUint32 => u32 x | _ => s64 x end.

(** The representations binary integer operations have. *)
Definition operation_rep (rep : Representation) : bool :=
  match rep with kTagged | kUnboxedInt32 | kUnboxedUint32 | kUnboxedInt64 => true | _ => false end.

Definition is_operator (op : Kind) : bool :=
  match op with kEQ | kNE | kLT | kGT | kLTE | kGTE => false | _ => true end.

Lemma SignExtendLow_returns v k : 0 < k < 64 -> returns (fun r => r = sN (64 - k) v) (SignExtendLow v k).
Proof.
  intros Hk. unfold SignExtendLow. rewrite shl_wrap by lia. apply returns_done. apply Z.bits_inj'. intros i Hi.
  rewrite Z.shiftr_spec, !testbit_sN by lia. rewrite <- Z.shiftl_mul_pow2 by lia.
  destruct (Z.ltb_spec i (64 - k)).
  - rewrite (proj2 (Z.ltb_lt (i + k) 64)), Z.shiftl_spec by lia. f_equal. lia.
  - rewrite (proj2 (Z.ltb_ge (i + k) 64)), Z.shiftl_spec by lia. f_equal. lia.
Qed.

Lemma narrow_s64 rep x : operation_rep rep = true -> narrow rep (s64 x) = narrow rep x.
Proof.
  assert (forall w, 0 < w <= 64 -> uN w (s64 x) = uN w x) as U.
  { intros w Hw. rewrite <- (uN_uN_le w 64 (s64 x)), uN_sN, uN_uN_le by lia. reflexivity. }
  destruct rep; try discriminate; intros _; cbn [narrow].
  - apply uN_eq_sN; [lia|apply U; lia].
  - apply uN_eq_sN; [lia|apply U; lia].
  - apply U; lia.
  - apply sN_sN; lia.
Qed.

Lemma TruncateTo_returns v rep : i64 v -> operation_rep rep = true -> returns (fun r => r = narrow rep v) (TruncateTo v rep).
Proof.
  intros Hv. destruct rep; try discriminate; intros _; cbn [TruncateTo narrow].
  - apply SignExtendLow_returns. unfold kBitsPerInt64, kSmiBits. lia.
  - apply SignExtendLow_returns. lia.
  - apply returns_done. change kMaxUint32 with (Z.ones 32). apply Z.land_ones. lia.
  - apply returns_done. symmetry. apply s64_small, Hv.
Qed.

Lemma narrow_representable rep x : operation_rep rep = true -> IsConstantRepresentable (narrow rep x) rep = true.
Proof.
  destruct rep; try discriminate; intros _; cbn [IsConstantRepresentable narrow].
  - unfold IsSmi. apply IsInt_spec; [unfold kSmiBits; lia|]. apply sN_range. lia.
  - apply IsInt_spec; [lia|]. apply sN_range. lia.
  - apply IsUint_spec; [lia|]. apply uN_range. lia.
  - reflexivity.
Qed.

Lemma EvaluateRaw_returns op l r : is_operator op = true -> i64 l -> i64 r ->
  returns (fun o => o = dart_op op l r) (BinaryIntegerEvaluateRaw l r op).
Proof.
  intros Hop Hl Hr. pose proof (ArithmeticOp_returns op l r) as HA. pose proof (ShiftOp_returns op l r) as HS.
  assert (forall k f, (forall w x y, 0 < w -> is_sN w x -> is_sN w y -> is_sN w (f x y)) -> dart_op k l r = Some (s64 (f l r)) ->
    (forall x y, match k with kBIT_AND => Done (Z.land x y) | kBIT_OR => Done (Z.lor x y) | kBIT_XOR => Done (Z.lxor x y) | _ => AssertionFailure end = Done (f x y)) ->
    returns (fun o => o = dart_op k l r) (let* v := BitOp k l r in Done (Some v))) as HB.
  { intros k f Hf E Hk. rstep (BitOp_returns k f l r Hf Hk Hl Hr) as <-. apply returns_done. symmetry. exact E. }
  assert (forall x v, returns (fun a => a = v) x -> dart_op op l r = Some v -> returns (fun o => o = dart_op op l r) (let* v := x in Done (Some v))) as HR.
  { intros x v Hx E. rstep Hx as ->. apply returns_done. symmetry. exact E. }
  destruct op; try discriminate; cbn [BinaryIntegerEvaluateRaw].
  1-3: eapply HR; [apply HA; auto|]; reflexivity.
  1-2: destruct (Z.eqb_spec r 0) as [->|N]; [apply returns_done; reflexivity|].
  1-2: match goal with |- context [ArithmeticOp ?k _ _] => assert (exists v, dart_op k l r = Some v) as [v E]
         by (unfold dart_op; cbn; rewrite (proj2 (Z.eqb_neq r 0) N); cbn; eauto) end.
  1-2: eapply HR; [apply HA; eauto|exact E].
  1-3: destruct (Z.geb_spec r 0); [|apply returns_done; unfold dart_op; cbn; rewrite (proj2 (Z.ltb_lt r 0)) by lia; reflexivity].
  1-3: match goal with |- context [ShiftOp ?k _ _] => assert (exists v, dart_op k l r = Some v) as [v E]
         by (unfold dart_op; cbn; rewrite (proj2 (Z.ltb_ge r 0)) by lia; cbn; eauto) end.
  1-3: eapply HR; [apply HS; eauto|exact E].
  - apply (HB _ Z.land); auto using is_sN_land.
  - apply (HB _ Z.lor); auto using is_sN_lor.
  - apply (HB _ Z.lxor); auto using is_sN_lxor.
  - apply returns_done. reflexivity.
Qed.

(** C18. Folding a binary integer operation never fails an assertion and gives the value the operation computes: nothing when
    the operation throws (division by zero, negative shift count); the exact result wrapped to 64 bits when that value has
    the operation's representation and nothing otherwise, if the operation checks for overflow; and the bits the
    representation keeps of the exact result, if it truncates. *)
Theorem constant_folding_correct op l r (is_truncating : bool) rep :
  is_operator op = true -> operation_rep rep = true -> i64 l -> i64 r ->
  returns (fun o : option Z => o = match exact op l r with
                        | None => None
                        | Some x => if is_truncating then Some (narrow rep x)
                                    else if IsConstantRepresentable (s64 x) rep then Some (s64 x) else None
                        end) (BinaryIntegerEvaluate l r op is_truncating rep).
Proof.
  intros Hop Hrep Hl Hr. unfold BinaryIntegerEvaluate. rstep (EvaluateRaw_returns op l r Hop Hl Hr) as ->. unfold dart_op.
  destruct (exact op l r) as [x|]; cbn [option_map]; [|apply returns_done; reflexivity].
  destruct is_truncating; [|apply returns_done; reflexivity].
  rstep (TruncateTo_returns (s64 x) rep (s64_i64 x) Hrep) as ->. rewrite (narrow_s64 rep x Hrep), (narrow_representable rep x Hrep).
  apply returns_done. reflexivity.
Qed.

Lemma constant_folding_correct_witness :
  returns (fun o => o = Some (-8)) (BinaryIntegerEvaluate (2 ^ 62 - 1) 8 kMUL true kTagged) /\
  returns (fun o => o = None) (BinaryIntegerEvaluate (2 ^ 62 - 1) 1 kADD false kTagged) /\
  returns (fun o => o = Some 2) (BinaryIntegerEvaluate (-7) (-3) kMOD false kUnboxedInt64).
Proof.
  split; [|split].
  - apply (constant_folding_correct kMUL (2 ^ 62 - 1) 8 true kTagged); [reflexivity|reflexivity|split; discriminate|split; discriminate].
  - apply (constant_folding_correct kADD (2 ^ 62 - 1) 1 false kTagged); [reflexivity|reflexivity|split; discriminate|split; discriminate].
  - apply (constant_folding_correct kMOD (-7) (-3) false kUnboxedInt64); [reflexivity|reflexivity|split; discriminate|split; discriminate].
Defined.
