(* ===== verification/RangeArithProofs.v ===== *)
(** * Soundness of range arithmetic

    Every operation of [Range] contains the result of the operation on any two
    values of its operands' ranges, or is the full 64-bit range when the exact
    result may not fit; and never fails an assertion. *)

From Stdlib Require Import ZArith Bool List Lia ZifyBool.
From S2P Require Import Prelude Utils Result Il RangeOps RangeProofs Integers.
Import ListNotations.
Open Scope Z_scope.

(** ** Integer facts *)

Lemma AbsWithSaturation_spec x : i64 x -> AbsWithSaturation x = Z.min (Z.abs x) kMaxInt64.
Proof. intros H. unfold AbsWithSaturation. destruct (Z.ltb_spec x 0); [destruct (Z.eqb_spec x kMinInt64)|]; range_lia. Qed.

Lemma land_le_r a b : 0 <= b -> 0 <= Z.land a b <= b.
Proof.
  intros Hb. split; [apply Z.land_nonneg; auto|].
  assert (Z.ldiff (Z.land a b) b = 0) as E.
  { apply Z.bits_inj'. intros i Hi. rewrite Z.ldiff_spec, Z.land_spec, Z.bits_0. destruct (Z.testbit a i), (Z.testbit b i); reflexivity. }
  pose proof (Z.sub_nocarry_ldiff b (Z.land a b) E). pose proof (proj2 (Z.ldiff_nonneg b (Z.land a b)) (or_introl Hb)). lia.
Qed.

Lemma BitLength_spec x : i64 x -> 0 <= BitLength x <= 63 /\ is_sN (BitLength x + 1) x.
Proof.
  intros Hx. unfold BitLength. change (8 * 8 - 1) with 63.
  assert (forall y, 0 <= y < 2 ^ 63 -> 0 <= bit_width (u64 y) <= 63 /\ y < 2 ^ bit_width (u64 y)) as H.
  { intros y Hy. rewrite uN_small by (unfold is_uN; lia). unfold bit_width. destruct (Z.eqb_spec y 0); [subst; cbn; lia|].
    pose proof (Z.log2_nonneg y). pose proof (proj1 (Z.log2_lt_pow2 y 63 ltac:(lia)) ltac:(lia)).
    pose proof (Z.log2_spec y ltac:(lia)). change (Z.succ (Z.log2 y)) with (Z.log2 y + 1) in *. lia. }
  unfold is_sN. destruct (Z.lt_ge_cases x 0) as [N|N].
  - replace (x >> 63) with (-1); [|rewrite Z.shiftr_div_pow2 by lia; apply (Z.div_unique x (2 ^ 63) (-1) (x + 2 ^ 63)); range_lia].
    rewrite Z.lxor_m1_r. pose proof (Z.lnot_eq_pred_opp x). destruct (H (Z.lnot x)) as [H1 H2]; [range_lia|]. split; [exact H1|].
    rewrite Z.add_simpl_r. lia.
  - replace (x >> 63) with 0; [|rewrite Z.shiftr_div_pow2 by lia; symmetry; apply Z.div_small; range_lia].
    rewrite Z.lxor_0_r. destruct (H x) as [H1 H2]; [range_lia|]. split; [exact H1|]. rewrite Z.add_simpl_r. lia.
Qed.

Lemma is_sN_between w lo x hi : is_sN w lo -> is_sN w hi -> lo <= x <= hi -> is_sN w x.
Proof. unfold is_sN. lia. Qed.

(** *** Shifts *)

Lemma pow2_pos k : 0 <= k -> 0 < 2 ^ k.
Proof. intros. apply Z.pow_pos_nonneg; lia. Qed.

Lemma pow2_mono k m : 0 <= k <= m -> 2 ^ k <= 2 ^ m.
Proof. intros. apply Z.pow_le_mono_r; lia. Qed.

Lemma div_pow2_mono x y k : 0 <= k -> x <= y -> x / 2 ^ k <= y / 2 ^ k.
Proof. intros Hk H. apply Z.div_le_mono; [apply pow2_pos, Hk|exact H]. Qed.

Lemma div_pow2_more x k m : 0 <= x -> 0 <= k <= m -> x / 2 ^ m <= x / 2 ^ k.
Proof. intros Hx H. apply Z.div_le_compat_l; [exact Hx|]. split; [apply pow2_pos|apply pow2_mono]; lia. Qed.

Lemma div_pow2_less x k m : x <= 0 -> 0 <= k <= m -> x / 2 ^ k <= x / 2 ^ m.
Proof.
  intros Hx H. apply Z.div_le_lower_bound; [apply pow2_pos; lia|].
  pose proof (Z.mul_div_le x (2 ^ k) (pow2_pos k ltac:(lia))). pose proof (pow2_mono k m ltac:(lia)). pose proof (pow2_pos k ltac:(lia)).
  assert (x / 2 ^ k <= 0) by (apply Z.div_le_upper_bound; lia). nia.
Qed.

Lemma Shr_returns c k : i64 c -> 0 <= k -> Shr_ (Constant c) k = Done (Constant (c / 2 ^ k)).
Proof.
  intros Hc Hk. unfold Shr_. cbn [rbind ConstantValue]. rewrite (proj2 (Z.geb_le k 0) Hk). do 2 f_equal.
  pose proof (shr_saturated c k Hc Hk) as E. destruct (Z.leb_spec k 63).
  - rewrite Z.min_l in E by lia. exact E.
  - rewrite Z.min_r, Z.shiftr_div_pow2 in E by lia. rewrite <- E. destruct (Z.geb_spec c 0).
    + symmetry. apply Z.div_small. range_lia.
    + apply (Z.div_unique c (2 ^ 63) (-1) (c + 2 ^ 63)); range_lia.
Qed.

Lemma Shl_returns c k : i64 c -> 0 <= k ->
  returns (fun overflow : bool => overflow = false -> i64 (c * 2 ^ k) /\ Shl_ (Constant c) k = Done (Constant (c * 2 ^ k)))
    (WillShlOverflow (Constant c) k).
Proof.
  intros Hc Hk. unfold Shl_. unfold WillShlOverflow. cbn [rbind ConstantValue]. rewrite (proj2 (Z.geb_le k 0) Hk). apply returns_done.
  intros E. cbn [rbind]. rewrite E. cbn [negb rbind]. destruct (Z.eqb_spec c 0) as [->|N]; [split; [range_lia|reflexivity]|].
  apply orb_false_iff in E. destruct E as [E1 E2]. unfold kBitsPerInt64 in *. apply negb_false_iff in E2. rewrite Z.geb_leb in E1. apply Z.leb_gt in E1.
  assert (i64 (c * 2 ^ k)) as H.
  { destruct (Z.eq_dec k 0) as [->|]; [rewrite Z.mul_1_r; exact Hc|]. apply (proj1 (IsInt_spec (64 - k) c ltac:(lia))) in E2.
    apply is_s64. unfold is_sN in *. replace (2 ^ (64 - 1)) with (2 ^ (64 - k - 1) * 2 ^ k) by (rewrite <- Z.pow_add_r by lia; f_equal; lia).
    pose proof (pow2_pos k Hk). nia. }
  split; [exact H|]. do 2 f_equal. rewrite Z.shiftl_mul_pow2, uN_mul_l, sN_uN by lia. apply s64_small, H.
Qed.

(** *** Signed and unsigned ranges *)

Ltac split_ifs := repeat match goal with |- context [if ?a <? ?b then _ else _] => destruct (Z.ltb_spec a b) end.

Lemma u64_signed x : i64 x -> u64 x = if x <? 0 then x + 2 ^ 64 else x.
Proof.
  intros H. unfold uN. destruct (Z.ltb_spec x 0); [|apply Z.mod_small; range_lia].
  symmetry. apply (Z.mod_unique_pos x (2 ^ 64) (-1)); range_lia.
Qed.

Lemma s64_unsigned x : 0 <= x <= kMaxUint64 -> s64 x = if x <? 2 ^ 63 then x else x - 2 ^ 64.
Proof.
  intros H. change kMaxUint64 with (2 ^ 64 - 1) in H. destruct (Z.ltb_spec x (2 ^ 63)); [apply s64_small; range_lia|].
  replace x with ((x - 2 ^ 64) + 1 * 2 ^ 64) at 1 by lia. rewrite sN_add_mult. apply s64_small. range_lia.
Qed.

Lemma ConvertRangeToUnsigned_returns a x b : i64 a -> i64 b -> a <= x <= b ->
  returns (fun p => 0 <= fst p <= u64 x /\ u64 x <= snd p <= kMaxUint64) (ConvertRangeToUnsigned a b).
Proof.
  intros Ha Hb Hx. unfold ConvertRangeToUnsigned. rewrite (proj2 (Z.leb_le a b)) by lia. apply returns_done.
  assert (i64 x) as Ix by range_lia. rewrite (u64_signed x Ix). change kMaxUint64 with (2 ^ 64 - 1).
  destruct (Z.ltb_spec a 0), (Z.geb_spec b 0); cbn [andb fst snd]; rewrite ?(u64_signed a Ha), ?(u64_signed b Hb); split_ifs; range_lia.
Qed.

Lemma ConvertRangeToSigned_returns a u b : 0 <= a <= u -> u <= b <= kMaxUint64 ->
  returns (fun p => i64 (fst p) /\ i64 (snd p) /\ fst p <= s64 u <= snd p) (ConvertRangeToSigned a b).
Proof.
  intros Ha Hb. unfold ConvertRangeToSigned. rewrite (proj2 (Z.leb_le a b)) by lia. apply returns_done.
  rewrite (s64_unsigned u) by lia. change (u64 kMaxInt64) with (2 ^ 63 - 1). change (u64 kMinInt64) with (2 ^ 63).
  change kMaxUint64 with (2 ^ 64 - 1) in *.
  destruct (Z.leb_spec a (2 ^ 63 - 1)), (Z.geb_spec b (2 ^ 63)); cbn [andb fst snd];
    rewrite ?(s64_unsigned a), ?(s64_unsigned b) by (change kMaxUint64 with (2 ^ 64 - 1); lia); split_ifs; range_lia.
Qed.

Lemma quot_bound a b m : 0 < a -> 0 <= m -> b <= Z.quot m a -> a * b <= m.
Proof. intros. pose proof (Z.mul_quot_le m a). nia. Qed.

Lemma abs_mul_le x y a b : Z.abs x <= a -> Z.abs y <= b -> - (a * b) <= x * y <= a * b.
Proof. intros. assert (Z.abs (x * y) <= a * b) by (rewrite Z.abs_mul; apply Z.mul_le_mono_nonneg; lia). lia. Qed.

Lemma same_sign_mul x y a b : 0 <= a <= Z.abs x -> 0 <= b <= Z.abs y -> (0 <= x /\ 0 <= y \/ x <= 0 /\ y <= 0) -> 0 <= a * b <= x * y.
Proof.
  intros Ha Hb Hs. replace (x * y) with (Z.abs x * Z.abs y) by (destruct Hs; nia).
  split; [apply Z.mul_nonneg_nonneg; lia|apply Z.mul_le_mono_nonneg; lia].
Qed.

Section Arithmetic.
Context (g : FlowGraph) (fuel : nat) (rho : defn -> Z) (avail : defn -> Prop) (rank : defn -> nat).
Context (C : consistent g fuel rho avail rank).

Abbreviation value_of := (value_of rho).
Abbreviation in_range := (in_range rho).
Abbreviation wfb := (wf rho avail rank (pred fuel)).
Abbreviation wf_range := (wf_range rho avail rank (pred fuel)).

(** The constant bounds of a range, and all that is computed from them. *)
Record bounds (r : Range) (lo hi : Z) : Prop := {
  b_lo : i64 lo;
  b_hi : i64 hi;
  b_in : forall v, in_range v r -> lo <= v <= hi;
  b_lower : LowerBound g fuel (min_ r) = Done (Constant lo);
  b_upper : UpperBound g fuel (max_ r) = Done (Constant hi);
  b_min : ConstantMin g fuel r = Done lo;
  b_max : ConstantMax g fuel r = Done hi;
  b_ge : forall k, OnlyGreaterThanOrEqualTo g fuel r k = Done (lo >=? k);
  b_le : forall k, OnlyLessThanOrEqualTo g fuel r k = Done (hi <=? k)
}.

Lemma bounds_exist r : wf_range r -> exists lo hi, bounds r lo hi.
Proof.
  intros [W1 W2].
  destruct (LowerBound_sound g fuel rho avail rank C _ W1) as (? & El & lo & -> & Il & Hl).
  destruct (UpperBound_sound g fuel rho avail rank C _ W2) as (? & Eu & hi & -> & Iu & Hu).
  exists lo, hi. split; try assumption.
  - unfold RangeProofs.in_range. lia.
  - unfold ConstantMin, ConstantMinIn. rewrite El. cbn [rbind]. rewrite (Clamp_constant _ _ _ lo full_int64). cbn. f_equal. unfold clamped. range_lia.
  - unfold ConstantMax, ConstantMaxIn. rewrite Eu. cbn [rbind]. rewrite (Clamp_constant _ _ _ hi full_int64). cbn. f_equal. unfold clamped. range_lia.
  - intros k. unfold OnlyGreaterThanOrEqualTo. rewrite El. reflexivity.
  - intros k. unfold OnlyLessThanOrEqualTo. rewrite Eu. reflexivity.
Qed.

(** The result of an operation whose exact value is [v]. *)
Definition covers (v : Z) (p : RangeBoundary * RangeBoundary) : Prop :=
  wfb (fst p) /\ wfb (snd p) /\ (value_of (fst p) <= v <= value_of (snd p) \/ p = (MinInt64, MaxInt64)).

Lemma covers_constants v lo hi : i64 lo -> i64 hi -> lo <= v <= hi -> covers v (Constant lo, Constant hi).
Proof. intros. repeat split; cbn; try apply H; try apply H0; auto. Qed.

Lemma covers_full v : covers v (MinInt64, MaxInt64).
Proof. split; [|split]; cbn; [range_lia|range_lia|auto]. Qed.

Lemma or_full_covers v lo hi :
  (forall b, lo = Some b -> wfb b /\ value_of b <= v) -> (forall b, hi = Some b -> wfb b /\ v <= value_of b) -> covers v (or_full lo hi).
Proof.
  intros Hl Hu. destruct lo as [a|], hi as [b|]; cbn; try apply covers_full.
  destruct (Hl a eq_refl), (Hu b eq_refl). split; [|split]; cbn; auto.
Qed.

(** ** Addition and subtraction *)

Lemma SymbolicAdd1_sound s o c : wfb (Symbol s o) -> i64 c ->
  returns (fun x => forall b, x = Some b -> wfb b /\ value_of b = rho s + o + c) (SymbolicAdd1 g s o c).
Proof.
  intros (A & R & O & S) Hc. unfold SymbolicAdd1. destruct (WillAddOverflow o c) eqn:V; [apply returns_done; discriminate|].
  apply WillAddOverflow_spec in V; [|range_lia|exact Hc].
  apply (returns_bind (fun z => z = o + c)); [apply int64_returns; auto|]. intros ? ->.
  destruct (IsValidOffsetForSymbolicRangeBoundary (o + c)) eqn:V'; cbn [negb]; [|apply returns_done; discriminate].
  rstep (FromDefinition_sound g fuel rho avail rank C s (o + c) (pred fuel) A R S V') as [W E].
  apply returns_done. intros b [= <-]. split; [exact W|lia].
Qed.

Lemma SymbolicAdd_sound a b : wfb a -> wfb b ->
  returns (fun x => forall c, x = Some c -> wfb c /\ value_of c = value_of a + value_of b) (SymbolicAdd g a b).
Proof.
  intros Wa Wb. destruct a as [|s o|c], b as [|t p|e]; cbn [SymbolicAdd]; try (apply returns_done; discriminate).
  - apply SymbolicAdd1_sound; [exact Wa|exact Wb].
  - eapply returns_weaken; [apply (SymbolicAdd1_sound t p c); [exact Wb|exact Wa]|]. cbn. intros x H b ->. destruct (H b eq_refl). split; [assumption|lia].
Qed.

Lemma SymbolicSub_sound a b : wfb a -> wfb b ->
  returns (fun x => forall c, x = Some c -> wfb c /\ value_of c = value_of a - value_of b) (SymbolicSub g a b).
Proof.
  intros Wa Wb. destruct a as [|s o|c], b as [|t p|e]; cbn [SymbolicSub]; try (apply returns_done; discriminate).
  destruct Wa as (A & R & O & S). cbn in Wb. destruct (WillSubOverflow o e) eqn:V; [apply returns_done; discriminate|].
  apply WillSubOverflow_spec in V; [|range_lia|exact Wb].
  apply (returns_bind (fun z => z = o - e)); [apply int64_returns; auto|]. intros ? ->.
  destruct (IsValidOffsetForSymbolicRangeBoundary (o - e)) eqn:V'; cbn [negb]; [|apply returns_done; discriminate].
  rstep (FromDefinition_sound g fuel rho avail rank C s (o - e) (pred fuel) A R S V') as [W E].
  apply returns_done. intros b [= <-]. split; [exact W|cbn; lia].
Qed.

Lemma AddBound_sound up lb rb sl sr bound x y lc rc : wfb sl -> wfb sr -> i64 lc -> i64 rc ->
  bound lb = Done (Constant lc) -> bound rb = Done (Constant rc) ->
  toward up x (value_of sl) -> toward up y (value_of sr) -> toward up x lc -> toward up y rc ->
  returns (fun o => forall b, o = Some b -> wfb b /\ toward up (x + y) (value_of b)) (AddBound g lb rb sl sr bound).
Proof.
  intros Wl Wr Il Ir El Er Dl Dr Dlc Drc. unfold AddBound. rstep (SymbolicAdd_sound sl sr Wl Wr) as Hs. destruct a as [b|].
  { apply returns_done. intros ? [= <-]. destruct (Hs b eq_refl) as [W E]. split; [exact W|]. rewrite E. destruct up; cbn in *; lia. }
  rewrite El, Er. cbn [rbind]. unfold WillAddOverflow_. cbn [rbind ConstantValue].
  destruct (WillAddOverflow lc rc) eqn:V; [apply returns_done; discriminate|]. apply WillAddOverflow_spec in V; try assumption.
  apply (returns_bind (fun b => b = Constant (lc + rc))); [apply Add_returns; auto|]. intros ? ->. apply returns_done.
  intros ? [= <-]. split; [exact V|]. destruct up; cbn in *; lia.
Qed.

Lemma SubBound_sound up lb rb sl bl br x y lc rc : wfb sl -> wfb rb -> i64 lc -> i64 rc ->
  bl lb = Done (Constant lc) -> br rb = Done (Constant rc) ->
  toward up x (value_of sl) -> toward up (value_of rb) y -> toward up x lc -> toward up rc y ->
  returns (fun o => forall b, o = Some b -> wfb b /\ toward up (x - y) (value_of b)) (SubBound g lb rb sl bl br).
Proof.
  intros Wl Wr Il Ir El Er Dl Dr Dlc Drc. unfold SubBound. rstep (SymbolicSub_sound sl rb Wl Wr) as Hs. destruct a as [b|].
  { apply returns_done. intros ? [= <-]. destruct (Hs b eq_refl) as [W E]. split; [exact W|]. rewrite E. destruct up; cbn in *; lia. }
  rewrite El, Er. cbn [rbind]. unfold WillSubOverflow_. cbn [rbind ConstantValue].
  destruct (WillSubOverflow lc rc) eqn:V; [apply returns_done; discriminate|]. apply WillSubOverflow_spec in V; try assumption.
  apply (returns_bind (fun b => b = Constant (lc - rc))); [apply Sub_returns; auto|]. intros ? ->. apply returns_done.
  intros ? [= <-]. split; [exact V|]. destruct up; cbn in *; lia.
Qed.

(** ** The operands *)
Context (l r : Z) (left_range right_range : Range) (left_defn : defn).
Context (Wl : wf_range left_range) (Wr : wf_range right_range) (Il : in_range l left_range) (Ir : in_range r right_range).
Context (Al : avail left_defn) (El : rho left_defn = l).

(** [left_min] and [left_max] of [Add] and [Sub]. *)
Lemma length_symbol b : wfb b ->
  returns (fun is_length : bool => returns (fun x => wfb x /\ (x = b \/ value_of x = l)) (if is_length then FromDefinition g left_defn 0 else Done b))
    (IsLengthLoad g fuel left_defn).
Proof.
  intros W. eapply returns_weaken; [apply (IsLengthLoad_returns g fuel rho avail rank C left_defn Al)|]. intros [|] H.
  - eapply returns_weaken; [apply (FromDefinition_sound g fuel rho avail rank C left_defn 0 (pred fuel) Al); [|exact (H eq_refl)|reflexivity]|].
    + pose proof (c_rank _ _ _ _ _ C left_defn Al). lia.
    + intros x [Wx Ex]. split; [exact Wx|]. right. lia.
  - apply returns_done. auto.
Qed.

Lemma Add_sound : returns (covers (l + r)) (Add g fuel left_range right_range left_defn).
Proof.
  destruct (bounds_exist _ Wl) as (llo & lhi & Bl). destruct (bounds_exist _ Wr) as (rlo & rhi & Br).
  pose proof (b_in _ _ _ Bl l Il) as Hl. pose proof (b_in _ _ _ Br r Ir) as Hr. destruct Wl as [Wl1 Wl2], Wr as [Wr1 Wr2], Il as [Il1 Il2], Ir as [Ir1 Ir2].
  unfold Add. destruct (length_symbol _ Wl1) as (b & E & H1). destruct (length_symbol _ Wl2) as (b' & E' & H2).
  rewrite E in E'. injection E' as <-. rewrite E. cbn [rbind].
  eapply returns_bind; [exact H1|]. intros lm [Wlm Hlm]. eapply returns_bind; [exact H2|]. intros lM [WlM HlM].
  rstep (AddBound_sound false _ _ _ _ _ l r llo rlo Wlm Wr1 (b_lo _ _ _ Bl) (b_lo _ _ _ Br) (b_lower _ _ _ Bl) (b_lower _ _ _ Br) _ _ _ _) as Hlo;
    cbn; try lia. { destruct Hlm as [-> | ->]; lia. }
  rstep (AddBound_sound true _ _ _ _ _ l r lhi rhi WlM Wr2 (b_hi _ _ _ Bl) (b_hi _ _ _ Br) (b_upper _ _ _ Bl) (b_upper _ _ _ Br) _ _ _ _) as Hhi;
    cbn; try lia. { destruct HlM as [-> | ->]; lia. }
  apply returns_done. apply or_full_covers; assumption.
Qed.

Lemma Sub_sound : returns (covers (l - r)) (Sub g fuel left_range right_range left_defn).
Proof.
  destruct (bounds_exist _ Wl) as (llo & lhi & Bl). destruct (bounds_exist _ Wr) as (rlo & rhi & Br).
  pose proof (b_in _ _ _ Bl l Il) as Hl. pose proof (b_in _ _ _ Br r Ir) as Hr. destruct Wl as [Wl1 Wl2], Wr as [Wr1 Wr2], Il as [Il1 Il2], Ir as [Ir1 Ir2].
  unfold Sub. destruct (length_symbol _ Wl1) as (b & E & H1). destruct (length_symbol _ Wl2) as (b' & E' & H2).
  rewrite E in E'. injection E' as <-. rewrite E. cbn [rbind].
  eapply returns_bind; [exact H1|]. intros lm [Wlm Hlm]. eapply returns_bind; [exact H2|]. intros lM [WlM HlM].
  rstep (SubBound_sound false _ _ _ _ _ l r llo rhi Wlm Wr2 (b_lo _ _ _ Bl) (b_hi _ _ _ Br) (b_lower _ _ _ Bl) (b_upper _ _ _ Br) _ _ _ _) as Hlo;
    cbn; try lia. { destruct Hlm as [-> | ->]; lia. }
  rstep (SubBound_sound true _ _ _ _ _ l r lhi rlo WlM Wr1 (b_hi _ _ _ Bl) (b_lo _ _ _ Br) (b_upper _ _ _ Bl) (b_lower _ _ _ Br) _ _ _ _) as Hhi;
    cbn; try lia. { destruct HlM as [-> | ->]; lia. }
  apply returns_done. apply or_full_covers; assumption.
Qed.

(** ** Multiplication and division *)

Context (llo lhi rlo rhi : Z) (Bl : bounds left_range llo lhi) (Br : bounds right_range rlo rhi).

Lemma left_between : i64 llo /\ i64 lhi /\ llo <= l <= lhi.
Proof. split; [apply Bl|]. split; [apply Bl|]. apply (b_in _ _ _ Bl l Il). Qed.
Lemma right_between : i64 rlo /\ i64 rhi /\ rlo <= r <= rhi.
Proof. split; [apply Br|]. split; [apply Br|]. apply (b_in _ _ _ Br r Ir). Qed.

Ltac operands := destruct left_between as (Hllo & Hlhi & Hl); destruct right_between as (Hrlo & Hrhi & Hr).
Ltac compute_bounds :=
  unfold ShiftCounts, ConstantAbsMax, ConstantAbsMin, OnlyPositiveOrZero, OnlyNegativeOrZero, IsPositive, BitSize, rand, ror;
  rewrite ?(b_min _ _ _ Bl), ?(b_max _ _ _ Bl), ?(b_min _ _ _ Br), ?(b_max _ _ _ Br),
    ?(b_ge _ _ _ Bl), ?(b_ge _ _ _ Br), ?(b_le _ _ _ Bl), ?(b_le _ _ _ Br); cbn [rbind].

Lemma Mul_sound : returns (covers (l * r)) (Mul g fuel left_range right_range).
Proof.
  operands. unfold Mul. compute_bounds. rewrite !AbsWithSaturation_spec by assumption.
  set (ml := Z.max (Z.min (Z.abs llo) kMaxInt64) (Z.min (Z.abs lhi) kMaxInt64)).
  set (mr := Z.max (Z.min (Z.abs rlo) kMaxInt64) (Z.min (Z.abs rhi) kMaxInt64)).
  apply (returns_bind (fun fits : bool => fits = true -> ml <= 4611686018427387904 /\ mr <= 4611686018427387904 /\ ml * mr <= kMaxInt64)).
  { change (- kSmiMin) with 4611686018427387904. destruct (Z.leb_spec ml 4611686018427387904); [|apply returns_done; discriminate].
    destruct (Z.leb_spec mr 4611686018427387904); [|apply returns_done; discriminate]. cbn [andb].
    destruct (Z.eqb_spec ml 0) as [E|E]; [apply returns_done; rewrite E; intros _; repeat split; try assumption; range_lia|].
    assert (0 < ml) as Hml by (clearbody mr; unfold ml in *; range_lia).
    apply (returns_bind (fun q => q = Z.quot kMaxInt64 ml)); [apply int_div_returns; try range_lia; reflexivity|]. intros q ->.
    apply returns_done. intros Hq%Z.leb_le. repeat split; try assumption.
    apply quot_bound; [exact Hml|discriminate|exact Hq]. }
  intros fits Hfits. destruct fits; [|apply returns_done, covers_full]. destruct (Hfits eq_refl) as (H1 & H2 & H3). clear Hfits.
  assert (Z.abs llo <= ml /\ Z.abs lhi <= ml) as [A1 A2] by (unfold ml in *; range_lia).
  assert (Z.abs rlo <= mr /\ Z.abs rhi <= mr) as [A3 A4] by (unfold mr in *; range_lia).
  assert (Z.abs l <= ml /\ Z.abs r <= mr) as [A5 A6] by (clearbody ml mr; clear - Hl Hr A1 A2 A3 A4; lia).
  pose proof (abs_mul_le l r ml mr A5 A6) as Habs. clearbody ml mr. assert (0 <= ml * mr) as H0 by (clear - Habs; lia).
  apply (returns_bind (fun z => z = ml * mr)); [apply int64_returns; [range_lia|reflexivity]|]. intros ? ->.
  assert (returns (covers (l * r)) (let* neg := int64 (- (ml * mr)) in Done (Constant neg, Constant (ml * mr)))) as Hmixed.
  { apply (returns_bind (fun z => z = - (ml * mr))); [apply int64_returns; [range_lia|reflexivity]|]. intros ? ->.
    apply returns_done, covers_constants; range_lia. }
  assert (forall x y, x = Z.min (Z.min (Z.abs llo) kMaxInt64) (Z.min (Z.abs lhi) kMaxInt64) ->
    y = Z.min (Z.min (Z.abs rlo) kMaxInt64) (Z.min (Z.abs rhi) kMaxInt64) -> 0 <= x * y <= l * r ->
    returns (covers (l * r)) (let* mul_min := int64 (x * y) in Done (Constant mul_min, Constant (ml * mr)))) as Hsame.
  { intros x y _ _ Hxy. apply (returns_bind (fun z => z = x * y)); [apply int64_returns; [range_lia|reflexivity]|]. intros ? ->.
    apply returns_done, covers_constants; range_lia. }
  destruct (Z.geb_spec llo 0), (Z.geb_spec rlo 0), (Z.leb_spec lhi 0), (Z.leb_spec rhi 0); cbn [rbind];
    rewrite ?AbsWithSaturation_spec by assumption; try exact Hmixed.
  all: apply Hsame; [reflexivity..|].
  all: rewrite !(Z.min_l (Z.abs _) kMaxInt64) by range_lia; apply same_sign_mul; lia.
Qed.

Lemma TruncDiv_sound : r <> 0 -> returns (covers (Z.quot l r)) (TruncDiv g fuel left_range right_range).
Proof.
  intros Hnz. operands. unfold TruncDiv. compute_bounds.
  destruct (Z.geb_spec llo 0); cbn [rbind]; [|apply returns_done, covers_full].
  destruct (Z.geb_spec rlo 1); cbn [rbind]; [|apply returns_done, covers_full].
  compute_bounds. rewrite !AbsWithSaturation_spec by assumption.
  replace (Z.max (Z.min (Z.abs llo) kMaxInt64) (Z.min (Z.abs lhi) kMaxInt64)) with lhi by range_lia.
  replace (Z.min (Z.min (Z.abs llo) kMaxInt64) (Z.min (Z.abs lhi) kMaxInt64)) with llo by range_lia.
  replace (Z.max (Z.min (Z.abs rlo) kMaxInt64) (Z.min (Z.abs rhi) kMaxInt64)) with rhi by range_lia.
  replace (Z.min (Z.min (Z.abs rlo) kMaxInt64) (Z.min (Z.abs rhi) kMaxInt64)) with rlo by range_lia.
  apply (returns_bind (fun z => z = Z.quot lhi rlo)); [apply int_div_returns; try range_lia; reflexivity|]. intros ? ->.
  apply (returns_bind (fun z => z = Z.quot llo rhi)); [apply int_div_returns; try range_lia; reflexivity|]. intros ? ->.
  apply returns_done, covers_constants; try (apply i64_quot; range_lia).
  rewrite !Z.quot_div_nonneg by lia. split.
  - transitivity (llo / r); [apply Z.div_le_compat_l; lia|apply Z.div_le_mono; lia].
  - transitivity (lhi / r); [apply Z.div_le_mono; lia|apply Z.div_le_compat_l; lia].
Qed.

Lemma Mod_sound : r <> 0 -> returns (covers (l mod Z.abs r)) (Mod g fuel right_range).
Proof.
  intros Hnz. operands. unfold Mod. compute_bounds. pose proof (Z.mod_pos_bound l (Z.abs r) ltac:(lia)) as B.
  destruct (Z.eqb_spec rlo kMinInt64) as [E|E]; cbn [negb rbind].
  - apply returns_done, covers_constants; range_lia.
  - rewrite !AbsWithSaturation_spec by assumption.
    set (m := Z.max (Z.min (Z.abs rlo) kMaxInt64) (Z.min (Z.abs rhi) kMaxInt64)).
    assert (Z.abs r <= m <= kMaxInt64) as Hm by (unfold m; range_lia). clearbody m.
    apply (returns_bind (fun z => z = Z.max (m - 1) 0)).
    + apply (returns_bind (fun z => z = m - 1)); [apply int64_returns; [range_lia|reflexivity]|]. intros ? ->. apply returns_done. reflexivity.
    + intros ? ->. apply returns_done, covers_constants; range_lia.
Qed.

(** ** Shifts *)

Lemma Shl_sound : 0 <= r -> returns (covers (l * 2 ^ r)) (Shl g fuel left_range right_range).
Proof.
  intros Hr0. operands. unfold Shl. compute_bounds.
  set (a := Z.max rlo 0). set (b := Z.max rhi 0). assert (0 <= a <= r /\ r <= b) as [Ha Hb] by (unfold a, b; lia). clearbody a b.
  pose proof (pow2_mono a r Ha) as P1. pose proof (pow2_mono r b ltac:(lia)) as P2. pose proof (pow2_pos a ltac:(lia)) as P0.
  assert (forall c k, i64 c -> 0 <= k -> returns (fun o => forall x, o = Some x -> x = Constant (c * 2 ^ k) /\ i64 (c * 2 ^ k))
    (let* overflow := WillShlOverflow (Constant c) k in
     if overflow then Done None else let* b := Shl_ (Constant c) k in Done (Some b))) as H.
  { intros c k Hc Hk. rstep (Shl_returns c k Hc Hk) as Ho. destruct a0; [apply returns_done; discriminate|].
    destruct (Ho eq_refl) as [Hi ->]. apply returns_done. intros x [= <-]. auto. }
  eapply returns_bind; [apply H; [exact Hllo|destruct (llo >? 0); lia]|]. intros lo' Hlo'.
  eapply returns_bind; [apply H; [exact Hlhi|destruct (lhi >? 0); lia]|]. intros hi' Hhi'.
  apply returns_done, or_full_covers.
  - intros x Hx. destruct (Hlo' x Hx) as [-> Hi]. split; [exact Hi|]. cbn. destruct (Z.gtb_spec llo 0); nia.
  - intros x Hx. destruct (Hhi' x Hx) as [-> Hi]. split; [exact Hi|]. cbn. destruct (Z.gtb_spec lhi 0); nia.
Qed.

Lemma Shr_sound : 0 <= r -> returns (covers (l / 2 ^ r)) (Shr g fuel left_range right_range).
Proof.
  intros Hr0. operands. unfold Shr. compute_bounds.
  set (a := Z.max rlo 0). set (b := Z.max rhi 0). assert (0 <= a <= r /\ r <= b) as [Ha Hb] by (unfold a, b; lia). clearbody a b.
  rewrite !Shr_returns by (try assumption; (destruct (llo >? 0) + destruct (lhi >? 0)); lia). cbn [rbind]. apply returns_done, covers_constants.
  1-2: apply i64_shr; [assumption|]; (destruct (llo >? 0) + destruct (lhi >? 0)); lia.
  split.
  - transitivity (llo / 2 ^ r); [|apply div_pow2_mono; lia]. destruct (Z.gtb_spec llo 0); [apply div_pow2_more|apply div_pow2_less]; lia.
  - transitivity (lhi / 2 ^ r); [apply div_pow2_mono; lia|]. destruct (Z.gtb_spec lhi 0); [apply div_pow2_more|apply div_pow2_less]; lia.
Qed.

Lemma shifted_unsigned u k : 0 <= u <= kMaxUint64 -> 0 <= k -> (if k >=? kBitsPerInt64 then 0 else u >> k) = u / 2 ^ k.
Proof.
  intros Hu Hk. unfold kBitsPerInt64. destruct (Z.geb_spec k 64); [|apply Z.shiftr_div_pow2; lia].
  symmetry. apply Z.div_small. change kMaxUint64 with (2 ^ 64 - 1) in Hu. pose proof (pow2_mono 64 k). lia.
Qed.

Lemma Ushr_sound : 0 <= r -> returns (covers (s64 (u64 l / 2 ^ r))) (Ushr g fuel left_range right_range).
Proof.
  intros Hr0. operands. unfold Ushr. compute_bounds.
  set (a := Z.max rlo 0). set (b := Z.max rhi 0). assert (0 <= a <= r /\ r <= b) as [Ha Hb] by (unfold a, b; lia). clearbody a b.
  rstep (ConvertRangeToUnsigned_returns llo l lhi Hllo Hlhi Hl) as [Hu1 Hu2]. destruct a0 as [ua ub]. cbn [fst snd] in *.
  rewrite !shifted_unsigned by lia.
  assert (0 <= ua / 2 ^ b <= u64 l / 2 ^ r) as H1.
  { split; [apply Z.div_pos; [lia|apply pow2_pos; lia]|]. transitivity (ua / 2 ^ r); [apply div_pow2_more|apply div_pow2_mono]; lia. }
  assert (u64 l / 2 ^ r <= ub / 2 ^ a <= kMaxUint64) as H2.
  { split; [transitivity (u64 l / 2 ^ a); [apply div_pow2_more|apply div_pow2_mono]; lia|].
    transitivity ub; [|lia]. apply Z.div_le_upper_bound; [apply pow2_pos; lia|]. pose proof (pow2_pos a ltac:(lia)). nia. }
  rstep (ConvertRangeToSigned_returns _ (u64 l / 2 ^ r) _ H1 H2) as (S1 & S2 & S3). destruct a0 as [sa sb]. cbn [fst snd] in *.
  apply returns_done, covers_constants; assumption.
Qed.

(** ** Bitwise operations *)

Lemma BitwiseOp_sound f : (forall w x y, 0 < w -> is_sN w x -> is_sN w y -> is_sN w (f x y)) -> (0 <= l -> 0 <= r -> 0 <= f l r) ->
  returns (covers (f l r)) (BitwiseOp g fuel left_range right_range).
Proof.
  intros Hf Hpos. operands. unfold BitwiseOp. compute_bounds.
  destruct (BitLength_spec _ Hllo) as [L1 N1], (BitLength_spec _ Hlhi) as [L2 N2], (BitLength_spec _ Hrlo) as [L3 N3], (BitLength_spec _ Hrhi) as [L4 N4].
  set (n := Z.max (Z.max (BitLength llo) (BitLength lhi)) (Z.max (BitLength rlo) (BitLength rhi))).
  assert (is_sN (n + 1) (f l r)) as H.
  { apply Hf; [unfold n; lia|eapply is_sN_between; [| |exact Hl]|eapply is_sN_between; [| |exact Hr]]; (eapply is_sN_mono; [|eassumption]); unfold n; lia. }
  assert (0 <= n <= 63) as Hn by (unfold n; lia). clearbody n.
  rewrite Z.shiftl_1_l. unfold is_sN in H. rewrite Z.add_simpl_r in H. pose proof (pow2_pos n ltac:(lia)) as P. pose proof (pow2_mono n 63 Hn) as M.
  assert (s64 (u64 (- u64 (2 ^ n))) = - 2 ^ n) as E1.
  { rewrite sN_uN by lia. rewrite (uN_small 64 (2 ^ n)) by (unfold is_uN; lia). apply s64_small. range_lia. }
  assert (s64 (u64 (u64 (2 ^ n) - 1)) = 2 ^ n - 1) as E2.
  { rewrite sN_uN by lia. rewrite (uN_small 64 (2 ^ n)) by (unfold is_uN; lia). apply s64_small. range_lia. }
  rewrite E1, E2.
  destruct (Z.geb_spec llo 0); cbn [rbind]; [compute_bounds; destruct (Z.geb_spec rlo 0)|]; apply returns_done, covers_constants; try range_lia.
Qed.

Lemma And_sound : returns (covers (Z.land l r)) (And g fuel left_range right_range).
Proof.
  operands. unfold And. compute_bounds. destruct (Z.geb_spec rlo 0).
  { compute_bounds. pose proof (land_le_r l r ltac:(lia)). apply returns_done, covers_constants; range_lia. }
  compute_bounds. destruct (Z.geb_spec llo 0).
  { compute_bounds. pose proof (land_le_r r l ltac:(lia)). rewrite Z.land_comm. apply returns_done, covers_constants; range_lia. }
  apply BitwiseOp_sound; [exact is_sN_land|]. intros. apply Z.land_nonneg. auto.
Qed.
End Arithmetic.

(** ** The operation as a whole *)
Section Operation.
Context (g : FlowGraph) (fuel : nat) (rho : defn -> Z) (avail : defn -> Prop) (rank : defn -> nat).
Context (C : consistent g fuel rho avail rank).

Abbreviation in_range := (in_range rho).
Abbreviation wf_range := (wf_range rho avail rank (pred fuel)).

(** The exact value is in the range, unless that is the range of all results. *)
Definition holds (v : Z) (r : Range) : Prop := wf_range r /\ (in_range v r \/ r = Int64Range).

Lemma finish_returns v b : returns (covers fuel rho avail rank v) b ->
  returns (holds v) (let* (min, max) := b in
    require negb (IsUnknown_ min) && negb (IsUnknown_ max);;
    require match min, max with Constant l, Constant u => l <=? u | _, _ => true end;;
    MakeRange min max).
Proof.
  intros H. eapply returns_bind; [exact H|]. intros [min max] (W1 & W2 & V). cbn [fst snd] in *.
  apply returns_require; [destruct min, max; cbn in *; tauto|]. apply returns_require.
  { destruct min, max; try reflexivity. apply Z.leb_le. destruct V as [V|[= -> ->]]; [cbn in V; lia|discriminate]. }
  apply (MakeRange_returns rho avail rank (pred fuel)); try assumption. split; [split; assumption|].
  destruct V as [V|[= -> ->]]; auto.
Qed.

Lemma BinaryOp_returns op l r v left_range right_range left_defn :
  wf_range left_range -> wf_range right_range -> in_range l left_range -> in_range r right_range ->
  avail left_defn -> rho left_defn = l -> exact op l r = Some v ->
  returns (holds v) (BinaryOp g fuel op left_range right_range left_defn).
Proof.
  intros Wl Wr Il Ir Al El E.
  destruct (bounds_exist _ _ _ _ _ C _ Wl) as (llo & lhi & Bl). destruct (bounds_exist _ _ _ _ _ C _ Wr) as (rlo & rhi & Br).
  destruct op; try discriminate E; cbn [exact] in E; cbn [BinaryOp].
  all: try (destruct (Z.eqb_spec r 0); [discriminate|]); try (destruct (Z.ltb_spec r 0); [discriminate|]); injection E as <-.
  all: apply finish_returns.
  all: first [eapply Add_sound; eassumption | eapply Sub_sound; eassumption | eapply Mul_sound; eassumption
    | eapply TruncDiv_sound; eassumption | eapply Mod_sound; eassumption | eapply Shl_sound; eassumption | eapply Shr_sound; eassumption
    | eapply Ushr_sound; eassumption | eapply And_sound; eassumption | eapply BitwiseOp_sound; try eassumption].
  - exact is_sN_lor.
  - intros. apply Z.lor_nonneg. auto.
  - exact is_sN_lxor.
  - intros. apply Z.lxor_nonneg. tauto.
Qed.

(** The machine's result, the exact one wrapped to 64 bits, is in the range. *)
Lemma holds_wrapped v r : holds v r -> in_range (s64 v) r.
Proof.
  intros [[W1 W2] [H| ->]]; [|unfold RangeProofs.in_range; cbn; pose proof (s64_i64 v); range_lia].
  rewrite s64_small; [exact H|]. pose proof (wf_i64 _ _ _ _ _ W1). pose proof (wf_i64 _ _ _ _ _ W2). unfold RangeProofs.in_range in H. range_lia.
Qed.
End Operation.
