(* ===== verification/RangeInfer.v ===== *)
(** * Range analysis ([vm/compiler/backend/range_analysis.cc]: [InferRange], [RangeAnalysis])

    The transfer function of each instruction, the join of a phi's inputs, the
    widening and narrowing iteration, and the decision that a bounds check is
    redundant.  [InferRange] returns the inferred range (unknown bounds when
    nothing can be said yet) and the graph, which a binary operation updates with
    its overflow flag and the range of its right operand. *)

From Stdlib Require Import ZArith Bool List Lia.
From S2P Require Import Prelude Utils Result Il RangeOps.
Import ListNotations.
Open Scope Z_scope.

(** [compiler::target::Array::kMaxElements] and the like, RISC-V 64. *)
Definition Array_kMaxElements : Z := 0x7ffffffffffffff.
Definition String_kMaxElements : Z := 0x1fffffffffffffff.
Definition TypeArguments_kMaxElements : Z := 0x7ffffffffffffff.

(** ** Constraints at branches and checks *)
Section Constraints.
Context (g : FlowGraph).

(** The range of the left operand of a comparison that held. *)
Definition ConstraintRange (op : Kind) (boundary : defn) (full_range : Range) : result Range :=
  match op with
  | kEQ => let* b := FromDefinition g boundary 0 in let* c := FromDefinition g boundary 0 in MakeRange b c
  | kNE => Done full_range
  | kLT => let* b := FromDefinition g boundary (-1) in MakeRange (min_ full_range) b
  | kGT => let* b := FromDefinition g boundary 1 in MakeRange b (max_ full_range)
  | kLTE => let* b := FromDefinition g boundary 0 in MakeRange (min_ full_range) b
  | kGTE => let* b := FromDefinition g boundary 0 in MakeRange b (max_ full_range)
  | _ => AssertionFailure
  end.

(** The two ranges [ConstrainValueAfterBranch] gives [defn] at the true and at
    the false successor of a comparison [kind], for the operand [use_index]. *)
Definition BranchConstraints (fuel : nat) (kind : Kind) (use_index : nat) (left_ right_ : defn)
  (input_representation : Representation) : result (option (Range * Range)) :=
  let boundary := if Nat.eqb use_index 0 then right_ else left_ in
  let* op_kind := if Nat.eqb use_index 0 then Done kind else require Nat.eqb use_index 1;; Token.FlipComparison kind in
  let* full_range :=
    if rep_eqb input_representation kTagged then Done (Some SmiRange)
    else require RepresentationUtils.IsUnboxedInteger input_representation;;
         let* l := IsLengthLoad g fuel boundary in
         if negb l then Done None else let* f := Full input_representation kTaggedNotAllowed in Done (Some f) in
  match full_range with
  | None => Done None
  | Some full_range =>
      let* t := ConstraintRange op_kind boundary full_range in
      let* negated := Token.NegateComparison op_kind in
      let* f := ConstraintRange negated boundary full_range in
      Done (Some (t, f))
  end.

(** [ConstrainValueAfterCheckBound]: of the index and of the length. *)
Definition CheckedIndexConstraint (length : defn) : result Range :=
  let* hi := FromDefinition g length (-1) in MakeRange (Constant 0) hi.
Definition CheckedLengthConstraint (index : defn) : result Range :=
  let* lo := FromDefinition g index 1 in MakeRange lo MaxSmi.
End Constraints.

Section Infer.
Context (fuel : nat) (g : FlowGraph).

Abbreviation range d := (range_ (def g d)).
Abbreviation LowerBound := (LowerBound g fuel).
Abbreviation UpperBound := (UpperBound g fuel).
Abbreviation LowerBoundIn := (LowerBoundIn g fuel).
Abbreviation UpperBoundIn := (UpperBoundIn g fuel).
Abbreviation FromDefinition := (FromDefinition g).

(** ** Widening and narrowing *)

Definition WidenMin (range new_range : Range) (full_range : Range) : result RangeBoundary :=
  let by_constants :=
    let* lo := ConstantMinIn g fuel (Some range) full_range in
    let* new_lo := ConstantMinIn g fuel (Some new_range) full_range in
    let* x := ConstantValue lo in let* y := ConstantValue new_lo in
    Done (if x <=? y then lo else min_ full_range) in
  let min := min_ range in let new_min := min_ new_range in
  if IsSymbol_ min then
    let* l := LowerBound min in
    let* overflowed := Overflowed g fuel l full_range in
    if overflowed then Done (min_ full_range)
    else let* same := DependOnSameSymbol g fuel min new_min in
         if same then Done (if offset_ min <=? offset_ new_min then min else min_ full_range)
         else let* u := UpperBoundIn min full_range in
              let* l := LowerBoundIn new_min full_range in
              if u <=? l then Done min else by_constants
  else by_constants.

Definition WidenMax (range new_range : Range) (full_range : Range) : result RangeBoundary :=
  let by_constants :=
    let* hi := ConstantMaxIn g fuel (Some range) full_range in
    let* new_hi := ConstantMaxIn g fuel (Some new_range) full_range in
    let* x := ConstantValue hi in let* y := ConstantValue new_hi in
    Done (if x >=? y then hi else max_ full_range) in
  let max := max_ range in let new_max := max_ new_range in
  if IsSymbol_ max then
    let* u := UpperBound max in
    let* overflowed := Overflowed g fuel u full_range in
    if overflowed then Done (max_ full_range)
    else let* same := DependOnSameSymbol g fuel max new_max in
         if same then Done (if offset_ max >=? offset_ new_max then max else max_ full_range)
         else let* l := LowerBoundIn max full_range in
              let* u := UpperBoundIn new_max full_range in
              if l >=? u then Done max else by_constants
  else by_constants.

Definition NarrowMin (range new_range : Range) (full_range : Range) : result RangeBoundary :=
  let* lo := ConstantMinIn g fuel (Some range) full_range in
  let* new_lo := ConstantMinIn g fuel (Some new_range) full_range in
  let* x := ConstantValue lo in let* y := ConstantValue new_lo in
  if x >? y then Done (min_ range)
  else let* widened := IsLessOrEqual (min_ range) (min_ full_range) in
       Done (if widened then min_ new_range else min_ range).

Definition NarrowMax (range new_range : Range) (full_range : Range) : result RangeBoundary :=
  let* hi := ConstantMaxIn g fuel (Some range) full_range in
  let* new_hi := ConstantMaxIn g fuel (Some new_range) full_range in
  let* x := ConstantValue hi in let* y := ConstantValue new_hi in
  if x <? y then Done (max_ range)
  else let* widened := IsGreaterOrEqual (max_ range) (max_ full_range) in
       Done (if widened then max_ new_range else max_ range).

(** ** Phis *)

Definition FullRangeForPhi (phi : defn) : result Range :=
  require IsPhi g phi;;
  let d := def g phi in
  if ToCid_IsSmi d then Done SmiRange
  else if RepresentationUtils.IsUnboxedInteger (representation d) then Full (representation d) kTaggedNotAllowed
  else require rep_eqb (representation d) kTagged;; require IsInt_ d;; Done Int64Range.

Definition DependsOnSymbol (a : RangeBoundary) (symbol : defn) : result bool :=
  match a with
  | Symbol s _ => let* u := UnwrapConstraint g fuel s in Done (Nat.eqb u symbol)
  | _ => Done false
  end.

Definition Join (r : Range) (d : defn) (defn_range : option Range) (full_range : Range) : result Range :=
  match defn_range with
  | None => Done r
  | Some dr =>
      if IsUnknown defn_range then Done r
      else if IsUnknown (Some r) then Done dr
      else
        let* unwrapped := UnwrapConstraint g fuel d in
        let* depends := ror (DependsOnSymbol (min_ r) unwrapped) (DependsOnSymbol (max_ r) unwrapped) in
        let* other := if depends
                      then let* a := FromDefinition d 0 in let* b := FromDefinition d 0 in MakeRange a b
                      else Done dr in
        let* inf_range := LowerBoundIn (min_ r) full_range in
        let* inf_other := LowerBoundIn (min_ other) full_range in
        let* sup_range := UpperBoundIn (max_ r) full_range in
        let* sup_other := UpperBoundIn (max_ other) full_range in
        if sup_range <=? inf_other then Done (mkRange (min_ r) (max_ other))
        else if sup_other <=? inf_range then Done (mkRange (min_ other) (max_ r))
        else let* lo := JoinMin g fuel (min_ r) (min_ other) full_range in
             let* hi := JoinMax g fuel (max_ r) (max_ other) full_range in
             MakeRange lo hi
  end.

Definition DominatesPhi (a phi_block : nat) : bool := Dominates g a phi_block && negb (Nat.eqb a phi_block).

Definition EnsureAcyclicSymbol (phi_block : nat) (a limit : RangeBoundary) : result RangeBoundary :=
  match a with
  | Symbol s o =>
      if DominatesPhi (block (def g s)) phi_block then Done a
      else let* unwrapped := UnwrapConstraint g fuel s in
           if negb (Nat.eqb unwrapped s) && DominatesPhi (block (def g unwrapped)) phi_block
           then FromDefinition unwrapped o
           else Done limit
  | _ => Done a
  end.

Definition GetInputRange (input : defn) (full_range : Range) : option Range :=
  match range input with
  | None => if IsInt_ (def g input) then None else Some full_range
  | r => r
  end.

Fixpoint JoinInputs (inputs : list defn) (full_range r : Range) : result Range :=
  match inputs with
  | [] => Done r
  | i :: inputs => let* r := Join r i (GetInputRange i full_range) full_range in JoinInputs inputs full_range r
  end.

Definition PhiInferRange (phi : defn) (inputs : list defn) : result Range :=
  let* full_range := FullRangeForPhi phi in
  let* r := JoinInputs inputs full_range UnknownRange in
  let phi_block := block (def g phi) in
  let* lo := EnsureAcyclicSymbol phi_block (min_ r) MinSmi in
  let* hi := EnsureAcyclicSymbol phi_block (max_ r) MaxSmi in
  Done (mkRange lo hi).

(** ** The other instructions *)

Definition ConstraintInferRange (d value : defn) (constraint : Range) : result Range :=
  let* full_range := Full (representation (def g d)) kTaggedIsSmi in
  match GetInputRange value full_range with
  | None => Done UnknownRange
  | Some value_range =>
      if IsUnknown (Some value_range) then Done UnknownRange
      else let* r := Intersect g fuel value_range constraint in
           let* u := IsUnsatisfiable g fuel r in
           Done (if u then UnknownRange else r)
  end.

Definition DefinitionInferRange (d : defn) : result Range :=
  let o := def g d in
  let is_int64 := match instr o with
                  | BinaryIntegerOpInstr _ _ _ _ _ _ | UnboxIntegerInstr _ _ => rep_eqb (representation o) kUnboxedInt64
                  | BoxIntegerInstr from _ => rep_eqb from kUnboxedInt64
                  | _ => false end in
  let is_int32 := match instr o with
                  | BinaryIntegerOpInstr _ _ _ _ _ _ | UnboxIntegerInstr _ _ => rep_eqb (representation o) kUnboxedInt32
                  | BoxIntegerInstr from _ => rep_eqb from kUnboxedInt32
                  | IntConverterInstr _ _ _ => true
                  | _ => false end in
  let* r := match type_ o with
            | SmiType => Done SmiRange
            | MintType => Done Int64Range
            | t => if is_int64 then Done Int64Range
                   else if is_int32 then Full kUnboxedInt32 kTaggedNotAllowed
                   else match t with IntType => Done Int64Range | _ => AssertionFailure end
            end in
  if RepresentationUtils.IsUnboxedInteger (representation o)
  then let* f := Full (representation o) kTaggedNotAllowed in Intersect g fuel f r
  else Done r.

Definition LoadFieldInferRange (d : defn) (slot : Slot) : result Range :=
  match slot with
  | Array_length | GrowableObjectArray_length => Done (mkRange (Constant 0) (Constant Array_kMaxElements))
  | TypedDataBase_length | TypedDataView_offset_in_bytes => Done (mkRange (Constant 0) MaxSmi)
  | AbstractType_hash | TypeArguments_hash => Done SmiRange
  | TypeArguments_length => Done (mkRange (Constant 0) (Constant TypeArguments_kMaxElements))
  | Record_shape => Done (mkRange (Constant 0) MaxSmi)
  | String_length => Done (mkRange (Constant 0) (Constant String_kMaxElements))
  | DartField _ _ => DefinitionInferRange d
  | UnboxedNative _ rep _ => Full rep kTaggedNotAllowed
  | PositiveSmiNative _ _ => Done (mkRange (Constant 0) MaxSmi)
  end.

(** [InferRangeHelper]: the range, and the overflow flag when it is recomputed. *)
Definition InferRangeHelper (d : defn) (op : Kind) (left_ : defn) (is_truncating : bool)
  (left_range right_range : option Range) : result (Range * option bool) :=
  match left_range, right_range with
  | Some l, Some r =>
      if IsUnknown left_range || IsUnknown right_range then Done (UnknownRange, None)
      else
        let rep := representation (def g d) in
        let* res := BinaryOp g fuel op l r left_ in
        require negb (IsUnknown (Some res));;
        let* flag := if negb is_truncating
                     then let* fits := Fits g fuel (Some res) rep kTaggedIsSmi in Done (Some (negb fits))
                     else Done None in
        let* full := Full rep kTaggedIsSmi in
        let* res := ClampRange res full in
        Done (res, flag)
  | _, _ => Done (UnknownRange, None)
  end.

Definition CacheRange (slot : option Range) (range : option Range) (full_range : Range) : result (option Range) :=
  match range with
  | Some r => let* c := ClampToConstant g fuel r full_range in Done (Some c)
  | None => Done (match slot with Some _ => Some UnknownRange | None => None end)
  end.

Definition UsesRightRange (op : Kind) : bool :=
  match op with kSHL | kSHR | kUSHR | kMOD | kTRUNCDIV => true | _ => false end.

(** [BinaryIntegerOpInstr::InferRange].  Every subclass requires its operands in the
    representation of its result. *)
Definition BinaryIntegerOpInferRange (d : defn) (op : Kind) (left_ right_ : defn) (can_overflow is_truncating : bool)
  (cached : option Range) : result (Range * FlowGraph) :=
  let* full := Full (representation (def g d)) kTaggedIsSmi in
  let right_input_range := GetInputRange right_ full in
  let* cached := if UsesRightRange op then CacheRange cached right_input_range full else Done cached in
  let* (r, flag) := InferRangeHelper d op left_ is_truncating (GetInputRange left_ full) right_input_range in
  let can_overflow := match flag with Some f => f | None => can_overflow end in
  Done (r, set_instr d (BinaryIntegerOpInstr op left_ right_ can_overflow is_truncating cached) g).

Definition ASSERT_VALID_RANGE_FOR_REPRESENTATION (r : option Range) (rep : Representation) : result unit :=
  let* other := Full rep kTaggedNotAllowed in
  match r with
  | Some r => if IsUnknown_ (min_ r) then AssertionFailure
              else let* w := IsWithin g fuel r other in require w;; Done tt
  | None => AssertionFailure
  end.

Definition BoxIntegerInferRange (from : Representation) (value : defn) : result Range :=
  if IsUnknown (range value) then Full from kTaggedNotAllowed
  else let* _ := ASSERT_VALID_RANGE_FOR_REPRESENTATION (range value) from in
       match range value with Some r => Done r | None => AssertionFailure end.

Definition UnboxIntegerInferRange (d value : defn) : result Range :=
  let rep := representation (def g d) in
  let* length := if rep_eqb rep kUnboxedInt64 then IsLengthLoad g fuel value else Done false in
  if length then let* v := FromDefinition value 0 in MakeRange v v
  else
    let* to_range := Full rep kTaggedNotAllowed in
    let* r := match range value with
              | Some vr =>
                  if IsUnknown (range value) then Done to_range
                  else let* w := IsWithin g fuel vr to_range in
                       if w then Done vr
                       else require rep_eqb rep kUnboxedInt32 || rep_eqb rep kUnboxedUint32;; Done to_range
              | None => Done to_range
              end in
    let* _ := ASSERT_VALID_RANGE_FOR_REPRESENTATION (Some r) rep in
    Done r.

Definition IntConverterInferRange (from to : Representation) (value : defn) : result Range :=
  require negb (rep_eqb to kUntagged);;
  require RepresentationUtils.IsUnboxedInteger to;;
  require rep_eqb from kUntagged || RepresentationUtils.IsUnboxedInteger from;;
  let* to_range := Full to kTaggedNotAllowed in
  let* r :=
    if rep_eqb from kUntagged then require match range value with None => true | _ => false end;; Done to_range
    else match range value with
         | Some vr =>
             if IsUnknown (range value) then Done to_range
             else if (RepresentationUtils.ValueSize to >? RepresentationUtils.ValueSize from) &&
                     (negb (RepresentationUtils.IsUnsignedInteger to) || RepresentationUtils.IsUnsignedInteger from)
             then Done vr
             else let* f := Full from kTaggedNotAllowed in
                  let* common := Intersect g fuel f to_range in
                  let* w := IsWithin g fuel vr common in
                  Done (if w then vr else to_range)
         | None => Done to_range
         end in
  let* _ := ASSERT_VALID_RANGE_FOR_REPRESENTATION (Some r) to in
  Done r.

Definition AssertAssignableInferRange (value : defn) : Range :=
  match range value with
  | Some r => if IsUnknown (range value) then Int64Range else r
  | None => Int64Range
  end.

Definition CheckBoundInferRange (length index : defn) : result Range :=
  let* hi := ConstantMaxIn g fuel (range length) Int64Range in
  let* checked_range := MakeRange (Constant 0) hi in
  let* r := match range index with
            | Some ir => if IsUnknown (range index) then Done checked_range else Intersect g fuel ir checked_range
            | None => Done checked_range
            end in
  let* u := IsUnsatisfiable g fuel r in
  Done (if u then UnknownRange else r).

(** [defn->InferRange(...)], the virtual call. *)
Definition InferRange (d : defn) : result (Range * FlowGraph) :=
  let pure (r : result Range) := let* r := r in Done (r, g) in
  match instr (def g d) with
  | ConstantInstr v => Done (mkRange (Constant v) (Constant v), g)
  | ConstraintInstr v c => pure (ConstraintInferRange d v c)
  | PhiInstr inputs => pure (PhiInferRange d inputs)
  | BinaryIntegerOpInstr op l r o t c => BinaryIntegerOpInferRange d op l r o t c
  | UnboxIntegerInstr v _ => pure (UnboxIntegerInferRange d v)
  | BoxIntegerInstr from v => pure (BoxIntegerInferRange from v)
  | IntConverterInstr from to v => pure (IntConverterInferRange from to v)
  | LoadFieldInstr _ slot => pure (LoadFieldInferRange d slot)
  | CheckBoundBaseInstr _ l i => pure (CheckBoundInferRange l i)
  | AssertAssignableInstr v _ => Done (AssertAssignableInferRange v, g)
  | OtherInstr _ _ _ _ => pure (DefinitionInferRange d)
  end.
End Infer.

(** ** The iteration *)

Inductive JoinOperator := NONE | WIDEN | NARROW.

(** [RangeAnalysis::InferRange]: whether the range of [d] changed. *)
Definition InferRangeOf (fuel : nat) (op : JoinOperator) (d : defn) (g : FlowGraph) : result (bool * FlowGraph) :=
  let* (r, g) := InferRange fuel g d in
  if IsUnknown (Some r) then Done (false, g)
  else
    let* r := match range_ (def g d) with
              | Some old =>
                  if negb (IsUnknown (Some old)) && IsPhi g d then
                    let* full_range := FullRangeForPhi g d in
                    match op with
                    | NONE => Done r
                    | WIDEN => let* lo := WidenMin fuel g old r full_range in
                               let* hi := WidenMax fuel g old r full_range in MakeRange lo hi
                    | NARROW => let* lo := NarrowMin fuel g old r full_range in
                                let* hi := NarrowMax fuel g old r full_range in MakeRange lo hi
                    end
                  else Done r
              | None => Done r
              end in
    let* same := RangeEquals g fuel r (range_ (def g d)) in
    if same then Done (false, g) else Done (true, set_range d r g).

Fixpoint InferAll (fuel : nat) (op : JoinOperator) (definitions_ : list defn) (changed : bool) (g : FlowGraph) : result (bool * FlowGraph) :=
  match definitions_ with
  | [] => Done (changed, g)
  | d :: ds => let* (c, g) := InferRangeOf fuel op d g in InferAll fuel op ds (changed || c) g
  end.

(** [max_iterations] turns at most; [turns] is fuel for the unbounded phases. *)
Fixpoint Iterate (fuel turns : nat) (op : JoinOperator) (definitions_ : list defn) (iteration max_iterations : Z)
  (g : FlowGraph) : result FlowGraph :=
  match turns with
  | O => OutOfFuel
  | S n =>
      let* (changed, g) := InferAll fuel op definitions_ false g in
      if changed && (iteration + 1 <? max_iterations)
      then Iterate fuel n op definitions_ (iteration + 1) max_iterations g
      else Done g
  end.

Definition InferRanges (fuel turns : nat) (definitions_ : list defn) (g : FlowGraph) : result FlowGraph :=
  let* g := Iterate fuel turns NONE definitions_ 0 2 g in
  let* g := Iterate fuel turns WIDEN definitions_ 0 kMaxInt32 g in
  Iterate fuel turns NARROW definitions_ 0 kMaxInt32 g.

(** ** Redundant bounds checks *)

Fixpoint SymbolicRedundant (g : FlowGraph) (fuel n : nat) (max canonical_length : RangeBoundary) : result bool :=
  match n with
  | O => OutOfFuel
  | S n =>
      let* same := DependOnSameSymbol g fuel max canonical_length in
      if same then Done (offset_ max <? offset_ canonical_length)
      else let* m := CanonicalizeMaxBoundary g fuel max in
           match m with
           | Some m => SymbolicRedundant g fuel n m canonical_length
           | None => let* l := CanonicalizeMinBoundary g fuel canonical_length in
                     match l with
                     | Some l => SymbolicRedundant g fuel n max l
                     | None => Done false
                     end
           end
  end.

(** The part of [IsRedundantBasedOnRangeInformation] after the range of the
    index is known. *)
Definition IsRedundantForRange (fuel : nat) (g : FlowGraph) (index_defn length : defn) (index_range : Range) : result bool :=
  let* lo := ConstantMinIn g fuel (Some index_range) SmiRange in
  let* lo := ConstantValue lo in
  if lo <? 0 then Done false
  else
    let* max := FromDefinition g index_defn 0 in
    let* max_upper := UpperBound g fuel max in
    let* array_length := FromDefinition g length 0 in
    let* length_lower := LowerBound g fuel array_length in
    if OverflowedSmi max_upper || OverflowedSmi length_lower then Done false
    else
      let* mu := ConstantValue max_upper in
      let* ll := ConstantValue length_lower in
      if mu <? ll then Done true
      else
        let* canonical_length := CanonicalizeBoundary g fuel array_length MaxInt64 in
        if OverflowedSmi canonical_length then Done false
        else SymbolicRedundant g fuel (2 * fuel) max canonical_length.

Definition IsRedundantBasedOnRangeInformation (fuel : nat) (g : FlowGraph) (index length : defn) : result bool :=
  let* ci := BoundSmiConstant g fuel index in
  let* cl := BoundSmiConstant g fuel length in
  match ci, cl with
  | Some i, Some l => Done ((0 <=? i) && (i <? l))
  | _, _ =>
      match range_ (def g index), ci with
      | Some r, _ => IsRedundantForRange fuel g index length r
      | None, None => Done false
      | None, Some _ =>
          let* index_defn := OriginalDefinition g fuel index in
          let* (r, g) := InferRange fuel g index_defn in
          require negb (IsUnknown (Some r));;
          IsRedundantForRange fuel (set_range index_defn r g) index_defn length r
      end
  end.
