(* ===== verification/RangeInferProofs.v ===== *)
(** * Soundness of range inference and of bounds check elimination

    The graph stays a description of the execution while ranges are inferred, and
    a bounds check that is found redundant on a graph that describes the execution
    would have succeeded. *)

From Stdlib Require Import ZArith Bool List Lia ZifyBool.
From S2P Require Import Prelude Utils Result Il RangeOps RangeProofs Integers RangeArithProofs RangeInfer.
Import ListNotations.
Open Scope Z_scope.

(** ** Graphs that compute the same *)

Definition same_computations (g g' : FlowGraph) : Prop := forall d,
  computation (instr (def g' d)) = computation (instr (def g d)) /\ representation (def g' d) = representation (def g d).

Section Same.
Context (g g' : FlowGraph) (S : same_computations g g').

Ltac same d :=
  let E := fresh in let R := fresh in destruct (S d) as [E R]; rewrite ?R;
  destruct (instr (def g' d)), (instr (def g d)); cbn [computation] in E; try discriminate E; inversion E; subst; reflexivity.

Lemma same_AsConstant d : AsConstant g' d = AsConstant g d.
Proof. unfold AsConstant. same d. Qed.
Lemma same_AsConstraint d : AsConstraint g' d = AsConstraint g d.
Proof. unfold AsConstraint. same d. Qed.
Lemma same_RedefinedValue d : RedefinedValue g' d = RedefinedValue g d.
Proof. unfold RedefinedValue. same d. Qed.
Lemma same_AsUnboxInt64 d : AsUnboxInt64 g' d = AsUnboxInt64 g d.
Proof. unfold AsUnboxInt64. same d. Qed.
Lemma same_AsBinarySmiOp d : AsBinarySmiOp g' d = AsBinarySmiOp g d.
Proof. unfold AsBinarySmiOp. same d. Qed.
Lemma same_IgnoredInput d : IgnoredInput g' d = IgnoredInput g d.
Proof. unfold IgnoredInput, RedefinedValue. same d. Qed.
Lemma same_AllowsCSE d : AllowsCSE g' d = AllowsCSE g d.
Proof. unfold AllowsCSE. same d. Qed.

Lemma same_Equals a b : Equals (computations g') a b = Equals (computations g) a b.
Proof.
  unfold Equals, SameTagAndAttributes. cbn [computations def instr representation].
  destruct (S a) as [-> ->], (S b) as [-> ->]. reflexivity.
Qed.

Lemma same_follow f f' : (forall d, f' d = f d) -> forall k d, follow f' k d = follow f k d.
Proof. intros H. induction k as [|k IH]; intros d; cbn; [reflexivity|]. rewrite H. destruct (f d); auto. Qed.

Lemma same_IsLengthLoad k d : IsLengthLoad g' k d = IsLengthLoad g k d.
Proof.
  unfold IsLengthLoad, OriginalDefinitionIgnoreBoxingAndConstraints. rewrite (same_follow _ _ same_IgnoredInput).
  destruct (follow _ k d) as [o| |]; cbn [rbind]; try reflexivity. f_equal. same o.
Qed.
End Same.

Section Preservation.
Context (g : FlowGraph) (fuel : nat) (rho : defn -> Z) (avail : defn -> Prop) (rank : defn -> nat).
Context (C : consistent g fuel rho avail rank).

(** Only the ranges are left to check when the computations stay. *)
Lemma consistent_same g' : same_computations g g' ->
  (forall d r, avail d -> range_ (def g' d) = Some r -> wf_range rho avail rank (rank d) r /\ in_range rho (rho d) r) ->
  consistent g' fuel rho avail rank.
Proof.
  intros S H. destruct C. split; try assumption.
  - intros d v. rewrite (same_AsConstant _ _ S). apply c_constant.
  - intros d v. rewrite (same_AsConstraint _ _ S). apply c_constraint.
  - intros d v. rewrite (same_RedefinedValue _ _ S). apply c_redefined.
  - intros d v. rewrite (same_AsUnboxInt64 _ _ S). apply c_unbox.
  - intros d v. rewrite (same_IgnoredInput _ _ S). apply c_input.
  - intros d op l r. rewrite (same_AsBinarySmiOp _ _ S). apply c_smiop.
  - intros a b. rewrite !(same_AllowsCSE _ _ S), (same_Equals _ _ S). apply c_cse.
  - intros d. rewrite (same_IsLengthLoad _ _ S). apply c_length.
Qed.

Lemma consistent_set_range d r : (avail d -> wf_range rho avail rank (rank d) r /\ in_range rho (rho d) r) ->
  consistent (set_range d r g) fuel rho avail rank.
Proof.
  intros H. apply consistent_same.
  - intros x. cbn. destruct (Nat.eqb x d); split; reflexivity.
  - intros x s A. cbn. destruct (Nat.eqb_spec x d) as [->|]; [|apply (c_range _ _ _ _ _ C x s A)]. cbn. intros [= <-]. exact (H A).
Qed.

Lemma consistent_set_instr d i : computation i = computation (instr (def g d)) -> consistent (set_instr d i g) fuel rho avail rank.
Proof.
  intros H. apply consistent_same.
  - intros x. cbn. destruct (Nat.eqb_spec x d) as [->|]; split; (reflexivity || exact H).
  - intros x s A. cbn. destruct (Nat.eqb x d); apply (c_range _ _ _ _ _ C x s A).
Qed.

(** Seen from [n] on, only the definitions before it are available. *)
Definition before (n : nat) (d : defn) : Prop := avail d /\ (rank d < n)%nat.

Lemma wf_before n m b : (n <= m)%nat -> wf rho avail rank n b -> wf rho (before m) rank n b.
Proof. destruct b; cbn; auto. unfold before. intros L (A & R & H). repeat split; (assumption || lia || apply H). Qed.

Lemma before_wf n m b : wf rho (before m) rank n b -> wf rho avail rank m b.
Proof. destruct b; cbn; auto. unfold before. tauto. Qed.

Lemma consistent_before n : consistent g fuel rho (before n) rank.
Proof.
  destruct C. unfold before. split; try assumption.
  3-6: intros d v [A _]; auto.
  - intros d [A _]. auto.
  - intros d r [A R] E. destruct (c_range d r A E) as [[W1 W2] I]. split; [|exact I]. split; apply wf_before; (assumption || lia).
  - intros d v [A R] E. destruct (c_input d v A E). repeat split; (assumption || lia).
  - intros d op l r [A R] E. destruct (c_smiop d op l r A E) as (A1 & A2 & R1 & R2 & S1 & S2 & H).
    repeat split; (assumption || lia || apply S1 || apply S2 || apply H).
  - intros a b [A _] [B _]. auto.
  - intros d [A _]. auto.
Qed.
End Preservation.

(** ** Redundant bounds checks *)
Section Redundant.
Context (g : FlowGraph) (fuel : nat) (rho : defn -> Z) (avail : defn -> Prop) (rank : defn -> nat).
Context (C : consistent g fuel rho avail rank).

Abbreviation known := (known rho avail rank).
Abbreviation wf := (wf rho avail rank).
Abbreviation value_of := (value_of rho).

Lemma clamped_nonneg lo hi c : lo < 0 -> 0 <= clamped lo hi c -> 0 <= c.
Proof. unfold clamped. lia. Qed.

Lemma known_mu n b : known n b -> (mu rank b <= n)%nat.
Proof. destruct b; cbn; lia. Qed.

(** [max] bounds the index from above, [length] the length from below. *)
Lemma SymbolicRedundant_sound : forall k max length, known (pred fuel) max -> wf (pred fuel) length -> (mu rank max + mu rank length < k)%nat ->
  returns (fun b => b = true -> value_of max < value_of length) (SymbolicRedundant g fuel k max length).
Proof.
  pose proof (c_fuel _ _ _ _ _ C) as F.
  induction k as [|k IH]; intros max length Km Wl L; [lia|]. cbn [SymbolicRedundant].
  rstep (DependOnSameSymbol_sound g fuel rho avail rank C _ _ max length Km (wf_known _ _ _ _ _ Wl)) as Hs. destruct a.
  { apply returns_done. destruct (Hs eq_refl) as [E _]. lia. }
  rstep (CanonicalizeBy_sound g fuel rho avail rank C true _ max Km ltac:(lia)) as Hm. destruct a as [m|].
  { destruct Hm as (Wm & Dm & Mm). eapply returns_weaken; [apply (IH m length (wf_known _ _ _ _ _ Wm) Wl); lia|]. cbn in Dm. lia. }
  rstep (CanonicalizeBy_sound g fuel rho avail rank C false _ length (wf_known _ _ _ _ _ Wl) ltac:(lia)) as Hl.
  destruct a as [l|]; [|apply returns_done; discriminate].
  destruct Hl as (Wl' & Dl & Ml). eapply returns_weaken; [apply (IH max l Km Wl'); lia|]. cbn in Dl. lia.
Qed.

(** The index as a boundary, which need not be a Smi. *)
Lemma FromDefinition_known d : avail d -> i64 (rho d) ->
  returns (fun b => known (pred fuel) b /\ value_of b = rho d) (FromDefinition g d 0).
Proof.
  intros A H. pose proof (c_rank _ _ _ _ _ C d A). unfold FromDefinition.
  assert (known (pred fuel) (Symbol d 0) /\ value_of (Symbol d 0) = rho d) as Hs.
  { cbn. rewrite Z.add_0_r. repeat split; (assumption || lia || apply H). }
  destruct (AsConstant g d) as [v|] eqn:E; [|apply returns_done, Hs]. destruct (IsSmi v); [|apply returns_done, Hs].
  rewrite (c_constant _ _ _ _ _ C d v A E), Z.add_0_r in *.
  apply (returns_bind (fun z => z = v)); [apply int64_returns; auto|]. intros ? ->. apply returns_done. auto.
Qed.

(** Its upper bound is one, or the largest Smi. *)
Lemma UpperBound_index d r b : avail d -> range_ (def g d) = Some r -> known (pred fuel) b -> value_of b = rho d -> (b = Symbol d 0 \/ IsConstant_ b = true) ->
  returns (constant_such (fun c => i64 c /\ (rho d <= c \/ c = kSmiMax))) (UpperBound g fuel b).
Proof.
  intros A E K V Hb. pose proof (c_fuel _ _ _ _ _ C) as F. pose proof (c_rank _ _ _ _ _ C d A) as R.
  destruct (c_range _ _ _ _ _ C d r A E) as [[_ W] [_ I]]. unfold UpperBound.
  destruct Hb as [->|Hb].
  - destruct fuel as [|k]; [lia|]. cbn [UpperBound_]. rewrite E.
    destruct (UpperBound_returns _ _ _ _ _ C _ _ k W ltac:(lia)) as (? & -> & c & -> & Hc & Hle). cbn [rbind].
    rewrite (Clamp_constant _ _ _ c full_smi). cbn [rbind].
    apply Add_returns; unfold clamped; try range_lia. eexists; split; [reflexivity|]. range_lia.
  - destruct b; try discriminate. destruct fuel; [lia|]. apply returns_done. eexists; split; [reflexivity|]. cbn in *. range_lia.
Qed.

Lemma FromDefinition_shape d : returns (fun b => b = Symbol d 0 \/ IsConstant_ b = true) (FromDefinition g d 0) \/ FromDefinition g d 0 = AssertionFailure.
Proof.
  unfold FromDefinition. destruct (AsConstant g d); [destruct (IsSmi _)|]; cbn; try (left; apply returns_done; auto).
  unfold int64. destruct (_ && _); [left; apply returns_done; auto|right; reflexivity].
Qed.

Lemma IsRedundantForRange_sound index length r : avail index -> avail length -> i64 (rho index) -> smi (rho length) ->
  range_ (def g index) = Some r ->
  returns (fun b => b = true -> 0 <= rho index < rho length) (IsRedundantForRange fuel g index length r).
Proof.
  intros Ai Al Ii Sl E. pose proof (c_fuel _ _ _ _ _ C) as F. pose proof (c_rank _ _ _ _ _ C length Al) as Rl.
  destruct (c_range _ _ _ _ _ C index r Ai E) as [[W1 W2] [I1 I2]].
  unfold IsRedundantForRange, ConstantMinIn.
  destruct (LowerBound_sound _ _ _ _ _ C (min_ r) (wf_wfb _ _ _ _ _ C index _ Ai W1)) as (? & -> & c & -> & Hc & Hle). cbn [rbind].
  rewrite (Clamp_constant _ _ _ c full_smi). cbn [rbind ConstantValue].
  destruct (Z.ltb_spec (clamped kSmiMin kSmiMax c) 0) as [|H0]; [apply returns_done; discriminate|].
  pose proof (clamped_nonneg kSmiMin kSmiMax c eq_refl H0) as Hc0. assert (0 <= rho index) as Hi0 by lia.
  destruct (FromDefinition_known index Ai Ii) as (max & Em & Km & Vm).
  assert (max = Symbol index 0 \/ IsConstant_ max = true) as Sm
    by (destruct (FromDefinition_shape index) as [(? & H & ?)|H]; rewrite Em in H; [injection H as <-; assumption|discriminate]).
  rewrite Em. cbn [rbind].
  destruct (UpperBound_index index r max Ai E Km Vm Sm) as (? & -> & u & -> & Iu & Hu). cbn [rbind].
  rstep (FromDefinition_sound g fuel rho avail rank C length 0 (pred fuel) Al ltac:(lia) Sl ltac:(reflexivity)) as [Wl Vl].
  rename a into array_length.
  destruct (LowerBound_sound _ _ _ _ _ C _ Wl) as (? & -> & ll & -> & Ill & Hll). cbn [rbind].
  destruct (OverflowedSmi (Constant u) || OverflowedSmi (Constant ll)); [apply returns_done; discriminate|]. cbn [rbind ConstantValue].
  destruct (Z.ltb_spec u ll); [apply returns_done; intros _; clear - Hi0 Hu Hll H Vl Sl; range_lia|].
  rstep (CanonicalizeBoundary_sound _ _ _ _ _ C _ _ MaxInt64 Wl ltac:(lia)) as Hcl. rename a into canonical_length.
  destruct (OverflowedSmi canonical_length) eqn:O; [apply returns_done; discriminate|].
  destruct Hcl as [->|[Wc Vc]]; [discriminate O|].
  eapply returns_weaken; [apply (SymbolicRedundant_sound (2 * fuel) max canonical_length Km Wc)|].
  - pose proof (known_mu _ _ Km). pose proof (mu_wf _ _ _ _ _ Wc). lia.
  - intros b Hb Eb. specialize (Hb Eb). lia.
Qed.

Lemma BoundSmiConstant_returns d : avail d ->
  returns (fun o => forall v, o = Some v -> rho d = v /\ smi v) (BoundSmiConstant g fuel d).
Proof.
  intros A. unfold BoundSmiConstant. rstep (OriginalDefinition_returns _ _ _ _ _ C d A) as (Ao & _ & Eo).
  apply returns_done. intros v. destruct (AsConstant g a) as [c|] eqn:E; [|discriminate].
  destruct (IsSmi c) eqn:Sc; [|discriminate]. intros [= ->]. rewrite Eo, (c_constant _ _ _ _ _ C _ _ Ao E). split; [reflexivity|].
  apply IsSmi_spec; [|exact Sc]. unfold IsSmi in Sc. rewrite IsInt_spec in Sc by (unfold kSmiBits; lia).
  apply is_s64. eapply is_sN_mono; [|exact Sc]. unfold kSmiBits. lia.
Qed.
End Redundant.

(** The whole decision. *)
Lemma IsRedundant_returns g fuel rho avail rank index length :
  consistent g fuel rho avail rank -> avail index -> avail length -> i64 (rho index) -> smi (rho length) ->
  returns (fun b => b = true -> 0 <= rho index < rho length) (IsRedundantBasedOnRangeInformation fuel g index length).
Proof.
  intros C Ai Al Ii Sl. unfold IsRedundantBasedOnRangeInformation.
  pose proof (BoundSmiConstant_returns g fuel rho avail rank C index Ai) as Bi. unfold BoundSmiConstant in *.
  destruct (OriginalDefinition_returns g fuel rho avail rank C index Ai) as (o & Eo & Ao & _ & Vo). rewrite Eo in *. cbn [rbind] in *.
  apply returns_done_inv in Bi. rstep (BoundSmiConstant_returns g fuel rho avail rank C length Al) as Bl. rename a into cl.
  assert (forall r, range_ (def g index) = Some r -> returns (fun b => b = true -> 0 <= rho index < rho length) (IsRedundantForRange fuel g index length r)) as Hr
    by (intros r Er; apply (IsRedundantForRange_sound g fuel rho avail rank C); assumption).
  destruct (AsConstant g o) as [v|] eqn:Ev; cycle 1.
  { destruct (range_ (def g index)) as [r|] eqn:Er; [apply Hr; reflexivity|apply returns_done; discriminate]. }
  destruct (IsSmi v) eqn:Sv; cycle 1.
  { destruct (range_ (def g index)) as [r|] eqn:Er; [apply Hr; reflexivity|apply returns_done; discriminate]. }
  destruct (Bi v eq_refl) as [Vi Siv]. destruct cl as [l|].
  { destruct (Bl l eq_refl) as [-> _]. rewrite Vi. apply returns_done. lia. }
  destruct (range_ (def g index)) as [r|] eqn:Er; [apply Hr; reflexivity|]. clear Hr.
  cbn [rbind]. unfold InferRange. unfold AsConstant in Ev. destruct (instr (def g o)) as [v'| | | | | | | | | |] eqn:Eo'; try discriminate. injection Ev as ->.
  cbn [rbind]. apply returns_require; [reflexivity|]. rewrite Vo in Ii |- *.
  apply (IsRedundantForRange_sound _ fuel rho avail rank).
  - apply consistent_set_range; [exact C|]. intros _. split; [split; cbn; apply smi_i64, Siv|]. unfold in_range. cbn. lia.
  - exact Ao.
  - exact Al.
  - exact Ii.
  - exact Sl.
  - cbn. rewrite Nat.eqb_refl. reflexivity.
Qed.

(** ** The transfer functions *)
Section Transfer.
Context (g : FlowGraph) (fuel : nat) (rho : defn -> Z) (avail : defn -> Prop) (rank : defn -> nat).

Abbreviation in_range := (in_range rho).
Abbreviation wfr := (wf_range rho avail rank (pred fuel)).
Abbreviation range d := (range_ (def g d)).

(** [z] is a value of the representation; a tagged one is a Smi. *)
Definition fits (rep : Representation) (z : Z) : Prop :=
  match Full rep kTaggedIsSmi with Done r => in_range z r | _ => False end.

Definition unboxed (rep : Representation) : Prop := RepresentationUtils.IsUnboxedInteger rep = true.

(** An operand has a value; one not known to be an integer has the
    representation's. *)
Definition operand (rep : Representation) (v : defn) : Prop := avail v /\ (IsInt_ (def g v) = false -> fits rep (rho v)).

(** What [Type_] and the representation say of the value. *)
Definition typed (d : defn) : Prop :=
  match type_ (def g d) with SmiType => smi (rho d) | MintType | IntType => i64 (rho d) | NotInt => False end /\
  (unboxed (representation (def g d)) -> fits (representation (def g d)) (rho d)).

Definition slot_value (d : defn) (slot : Slot) : Prop :=
  match slot with
  | Array_length | GrowableObjectArray_length => 0 <= rho d <= Array_kMaxElements
  | TypedDataBase_length | TypedDataView_offset_in_bytes | Record_shape | PositiveSmiNative _ _ => 0 <= rho d <= kSmiMax
  | AbstractType_hash | TypeArguments_hash => smi (rho d)
  | TypeArguments_length => 0 <= rho d <= TypeArguments_kMaxElements
  | String_length => 0 <= rho d <= String_kMaxElements
  | DartField _ _ => typed d
  | UnboxedNative _ rep _ => unboxed rep /\ fits rep (rho d)
  end.

(** What the instruction of [d] computed from its operands.  A truncating
    operation wraps at 64 bits. *)
Definition executes (d : defn) : Prop :=
  let rep := representation (def g d) in
  match instr (def g d) with
  | ConstantInstr v => rho d = v /\ i64 v
  | ConstraintInstr v c => operand rep v /\ rep <> kUntagged /\ rho d = rho v /\ wfr c /\ in_range (rho d) c
  | PhiInstr _ => False
  | BinaryIntegerOpInstr op l r _ is_truncating _ =>
      operand rep l /\ operand rep r /\ rep <> kUntagged /\
      exists v, exact op (rho l) (rho r) = Some v /\
        if is_truncating then rep = kUnboxedInt64 /\ rho d = s64 v else rho d = v /\ fits rep v
  | UnboxIntegerInstr v _ =>
      avail v /\ (rep = kUnboxedInt64 \/ rep = kUnboxedInt32 \/ rep = kUnboxedUint32) /\
      fits rep (rho d) /\ (fits rep (rho v) -> rho d = rho v)
  | BoxIntegerInstr from v => avail v /\ unboxed from /\ fits from (rho d) /\ rho d = rho v
  | IntConverterInstr from to v =>
      unboxed to /\ fits to (rho d) /\
      (from = kUntagged \/ avail v /\ unboxed from /\ fits from (rho v) /\ (fits to (rho v) -> rho d = rho v))
  | LoadFieldInstr _ slot => slot_value d slot
  | CheckBoundBaseInstr _ l i => avail l /\ avail i /\ rho d = rho i /\ 0 <= rho i < rho l /\ i64 (rho l)
  | AssertAssignableInstr v _ => avail v /\ i64 (rho d) /\ rho d = rho v
  | OtherInstr _ _ _ _ => typed d
  end.

(** The assertion on the range of the operand of a conversion. *)
Definition valid_range (rep : Representation) (v : defn) : Prop :=
  match range v with
  | Some r => exists f, Full rep kTaggedNotAllowed = Done f /\ IsWithin g fuel r f = Done true
  | None => True
  end.
Definition asserted (d : defn) : Prop :=
  match instr (def g d) with
  | BoxIntegerInstr from v => valid_range from v
  | IntConverterInstr from _ v => if rep_eqb from kUntagged then range v = None else valid_range from v
  | _ => True
  end.

Definition inferred (v : Z) (r : Range) : Prop := r = UnknownRange \/ wfr r /\ in_range v r.

Context (C : consistent g fuel rho avail rank).

Lemma Full_tagged rep : rep <> kUntagged -> exists f lo hi, Full rep kTaggedIsSmi = Done f /\ full f lo hi /\ forall z, fits rep z <-> lo <= z <= hi.
Proof.
  intros H. unfold fits. destruct rep; try contradiction; cbn; eexists _, _, _; (split; [reflexivity|]); (split; [split; [reflexivity|]|unfold RangeProofs.in_range; cbn; reflexivity]).
  all: split; [|split]; (split || idtac); discriminate.
Qed.

Lemma Full_unboxed rep : unboxed rep -> exists f lo hi, Full rep kTaggedNotAllowed = Done f /\ full f lo hi /\ forall z, fits rep z <-> lo <= z <= hi.
Proof.
  intros H. destruct (Full_tagged rep) as (f & lo & hi & E & F); [destruct rep; discriminate|]. exists f, lo, hi.
  split; [rewrite <- E; destruct rep; (discriminate || reflexivity)|exact F].
Qed.

Lemma full_wfr r lo hi : full r lo hi -> wfr r.
Proof. intros (-> & _ & Hl & Hh). split; assumption. Qed.

Lemma full_in r lo hi z : full r lo hi -> in_range z r <-> lo <= z <= hi.
Proof. intros (-> & _). reflexivity. Qed.

Lemma constants_inferred lo hi v : i64 lo -> i64 hi -> lo <= v <= hi -> inferred v (mkRange (Constant lo) (Constant hi)).
Proof. intros Hl Hh H. right. split; [split; assumption|exact H]. Qed.

Lemma available_range v r : avail v -> range v = Some r -> wfr r /\ in_range (rho v) r.
Proof.
  intros A E. destruct (c_range _ _ _ _ _ C v r A E) as [[W1 W2] I]. split; [|exact I]. split; apply (wf_wfb _ _ _ _ _ C v); assumption.
Qed.

Lemma operand_range rep v f r : rep <> kUntagged -> Full rep kTaggedIsSmi = Done f -> operand rep v -> GetInputRange g v f = Some r -> wfr r /\ in_range (rho v) r.
Proof.
  intros N E [A H]. unfold GetInputRange. destruct (range v) as [vr|] eqn:Er.
  - intros [= <-]. apply available_range; assumption.
  - destruct (IsInt_ (def g v)) eqn:T; [discriminate|]. intros [= <-]. destruct (Full_tagged rep N) as (f' & lo & hi & E' & F & Hf).
    rewrite E in E'. injection E' as <-. split; [exact (full_wfr _ _ _ F)|]. apply (full_in _ _ _ _ F), Hf, H. reflexivity.
Qed.

Lemma wfr_known r : wfr r -> IsUnknown (Some r) = false.
Proof. intros [W _]. cbn. destruct (min_ r); [contradiction|reflexivity..]. Qed.

Lemma satisfiable_inferred v r : wfr r -> in_range v r ->
  returns (inferred v) (let* u := IsUnsatisfiable g fuel r in Done (if u then UnknownRange else r)).
Proof.
  intros W I. rstep (IsUnsatisfiable_sound _ _ _ _ _ C r W) as Hu. apply returns_done. destruct a; [left; reflexivity|right; auto].
Qed.

Lemma Constraint_returns d v c : operand (representation (def g d)) v -> representation (def g d) <> kUntagged -> rho d = rho v ->
  wfr c -> in_range (rho d) c -> returns (inferred (rho d)) (ConstraintInferRange fuel g d v c).
Proof.
  intros O N E W I. unfold ConstraintInferRange. destruct (Full_tagged _ N) as (f & lo & hi & Ef & F & _). rewrite Ef. cbn [rbind].
  destruct (GetInputRange g v f) as [r|] eqn:Er; [|apply returns_done; left; reflexivity].
  destruct (operand_range _ _ _ _ N Ef O Er) as [Wr Ir]. rewrite (wfr_known r Wr).
  rstep (Intersect_sound _ _ _ _ _ C r c Wr W) as [Wi Hi]. apply satisfiable_inferred; [exact Wi|]. apply Hi; [rewrite E; exact Ir|exact I].
Qed.

Lemma Definition_returns d : typed d ->
  match instr (def g d) with OtherInstr _ _ _ _ | LoadFieldInstr _ _ => True | _ => False end ->
  returns (inferred (rho d)) (DefinitionInferRange fuel g d).
Proof.
  intros [T R] K. unfold DefinitionInferRange.
  assert (returns (fun r => exists lo hi, full r lo hi /\ lo <= rho d <= hi) (match type_ (def g d) with
            | SmiType => Done SmiRange | MintType => Done Int64Range | IntType => Done Int64Range | NotInt => AssertionFailure end)) as H.
  { destruct (type_ (def g d)); try contradiction; apply returns_done; eexists _, _; (split; [apply full_smi||apply full_int64|exact T]). }
  destruct H as (r & E & lo & hi & F & Hv).
  assert (returns (inferred (rho d)) (if RepresentationUtils.IsUnboxedInteger (representation (def g d))
    then let* f := Full (representation (def g d)) kTaggedNotAllowed in Intersect g fuel f r else Done r)) as H.
  { destruct (RepresentationUtils.IsUnboxedInteger _) eqn:U.
    - destruct (Full_unboxed _ U) as (f & lo' & hi' & -> & F' & Hf). cbn [rbind].
      eapply returns_weaken; [apply (Intersect_sound _ _ _ _ _ C f r (full_wfr _ _ _ F') (full_wfr _ _ _ F))|]. intros i [Wi Hi]. right. split; [exact Wi|].
      apply Hi; [apply (full_in _ _ _ _ F'), Hf, R, U|apply (full_in _ _ _ _ F), Hv].
    - apply returns_done. right. split; [exact (full_wfr _ _ _ F)|apply (full_in _ _ _ _ F), Hv]. }
  destruct (instr (def g d)); try contradiction; destruct (type_ (def g d)); try discriminate E; injection E as <-; exact H.
Qed.

Lemma LoadField_returns d i slot : instr (def g d) = LoadFieldInstr i slot -> slot_value d slot ->
  returns (inferred (rho d)) (LoadFieldInferRange fuel g d slot).
Proof.
  intros K H. unfold LoadFieldInferRange. destruct slot; cbn [slot_value] in H;
    try (apply returns_done, constants_inferred; try exact H; unfold Array_kMaxElements, TypeArguments_kMaxElements, String_kMaxElements; range_lia).
  - apply Definition_returns; [exact H|rewrite K; exact I].
  - destruct H as [U H]. destruct (Full_unboxed _ U) as (f & lo & hi & -> & F & Hf). apply returns_done. right.
    split; [exact (full_wfr _ _ _ F)|]. apply (full_in _ _ _ _ F), Hf, H.
Qed.

Lemma CheckBound_returns l i v : avail l -> avail i -> v = rho i -> 0 <= v < rho l -> i64 (rho l) ->
  returns (inferred v) (CheckBoundInferRange fuel g l i).
Proof.
  intros Al Ai -> H Il. unfold CheckBoundInferRange.
  apply (returns_bind (constant_such (fun c => i64 c /\ rho l <= c))).
  { unfold ConstantMaxIn. destruct (range l) as [r|] eqn:E.
    - destruct (available_range l r Al E) as [[_ W] [_ I]]. rstep (UpperBound_sound _ _ _ _ _ C _ W) as (c & -> & Hc & Hle).
      rewrite (Clamp_constant _ _ _ c full_int64). apply returns_done. eexists; split; [reflexivity|]. unfold clamped. range_lia.
    - apply returns_done. eexists; split; [reflexivity|]. range_lia. }
  intros ? (c & -> & Hc & Hle). cbn [MakeRange IsUnknown_ Bool.eqb rbind].
  assert (wfr (mkRange (Constant 0) (Constant c)) /\ in_range (rho i) (mkRange (Constant 0) (Constant c))) as [W I].
  { split; [split; cbn; range_lia|]. unfold RangeProofs.in_range; cbn. lia. }
  apply (returns_bind (fun r => wfr r /\ in_range (rho i) r)); [|intros r []; apply satisfiable_inferred; assumption].
  destruct (range i) as [r|] eqn:E; [|apply returns_done; auto]. destruct (available_range i r Ai E) as [Wr Ir]. rewrite (wfr_known r Wr).
  eapply returns_weaken; [apply (Intersect_sound _ _ _ _ _ C r _ Wr W)|]. intros x [Wx Hx]. auto.
Qed.

(** *** Conversions *)

Lemma IsWithin_bounds r rlo rhi f lo hi : bounds g fuel rho r rlo rhi -> full f lo hi ->
  IsWithin g fuel r f = Done ((rlo >=? lo) && (rhi <=? hi)).
Proof.
  intros B (-> & _). unfold IsWithin. cbn [min_ max_]. rewrite (proj1 (bounds_of_constant _ _ _ _ _ C lo)), (proj2 (bounds_of_constant _ _ _ _ _ C hi)).
  cbn [rbind ConstantValue]. unfold IsWithinInts, rand. rewrite (b_ge _ _ _ _ _ _ B), (b_le _ _ _ _ _ _ B). cbn [rbind]. destruct (rlo >=? lo); reflexivity.
Qed.

(** The range is within the representation, and so is every value in it. *)
Definition within (rep : Representation) (r : Range) : Prop :=
  exists f, Full rep kTaggedNotAllowed = Done f /\ IsWithin g fuel r f = Done true.

Lemma within_spec rep r rlo rhi f lo hi : bounds g fuel rho r rlo rhi -> Full rep kTaggedNotAllowed = Done f -> full f lo hi ->
  within rep r <-> lo <= rlo /\ rhi <= hi.
Proof.
  intros B E F. unfold within. split.
  - intros (f' & E' & H). rewrite E in E'. injection E' as <-. rewrite (IsWithin_bounds _ _ _ _ _ _ B F) in H. injection H. lia.
  - intros H. exists f. split; [exact E|]. rewrite (IsWithin_bounds _ _ _ _ _ _ B F). f_equal. lia.
Qed.

Lemma within_fits rep r v : unboxed rep -> wfr r -> in_range v r -> within rep r -> fits rep v.
Proof.
  intros U W I H. destruct (bounds_exist _ _ _ _ _ C r W) as (rlo & rhi & B). destruct (Full_unboxed rep U) as (f & lo & hi & E & F & Hf).
  apply (within_spec _ _ _ _ _ _ _ B E F) in H. pose proof (b_in _ _ _ _ _ _ B v I). apply Hf. lia.
Qed.

Lemma Full_within rep f : unboxed rep -> Full rep kTaggedNotAllowed = Done f -> within rep f.
Proof.
  intros U E. destruct (Full_unboxed rep U) as (f' & lo & hi & E' & F & _). rewrite E in E'. injection E' as <-.
  destruct (bounds_of_constant _ _ _ _ _ C lo) as [L _], (bounds_of_constant _ _ _ _ _ C hi) as [_ H].
  exists f. split; [exact E|]. destruct F as (-> & _). unfold IsWithin. cbn [min_ max_]. rewrite L, H. cbn [rbind ConstantValue].
  unfold IsWithinInts, rand, OnlyGreaterThanOrEqualTo, OnlyLessThanOrEqualTo. cbn [min_ max_]. rewrite L, H. cbn [rbind ConstantValue].
  rewrite (proj2 (Z.geb_le lo lo)), (proj2 (Z.leb_le hi hi)) by lia. reflexivity.
Qed.

Lemma valid_returns rep r : wfr r -> within rep r -> ASSERT_VALID_RANGE_FOR_REPRESENTATION fuel g (Some r) rep = Done tt.
Proof.
  intros W (f & E & H). unfold ASSERT_VALID_RANGE_FOR_REPRESENTATION. rewrite E. cbn [rbind].
  pose proof (wfr_known r W) as K. cbn in K. rewrite K, H. reflexivity.
Qed.

(** The last steps of the conversions. *)
Lemma valid_inferred rep v r : wfr r -> in_range v r -> within rep r ->
  returns (inferred v) (let* _ := ASSERT_VALID_RANGE_FOR_REPRESENTATION fuel g (Some r) rep in Done r).
Proof. intros W I H. rewrite (valid_returns rep r W H). apply returns_done. right. auto. Qed.

Lemma Full_inferred rep v f : unboxed rep -> Full rep kTaggedNotAllowed = Done f -> fits rep v -> wfr f /\ in_range v f.
Proof.
  intros U E H. destruct (Full_unboxed rep U) as (f' & lo & hi & E' & F & Hf). rewrite E in E'. injection E' as <-.
  split; [exact (full_wfr _ _ _ F)|]. apply (full_in _ _ _ _ F), Hf, H.
Qed.

Lemma Box_returns d from v : avail v -> unboxed from -> fits from (rho d) -> rho d = rho v -> valid_range from v ->
  returns (inferred (rho d)) (BoxIntegerInferRange fuel g from v).
Proof.
  intros A U H E V. unfold BoxIntegerInferRange, valid_range in *. destruct (range v) as [r|] eqn:Er.
  - destruct (available_range v r A Er) as [W I]. rewrite (wfr_known r W), (valid_returns from r W V). apply returns_done. right. rewrite E. auto.
  - destruct (Full_unboxed from U) as (f & lo & hi & Ef & _). cbn [IsUnknown]. rewrite Ef. apply returns_done. right.
    exact (Full_inferred _ _ _ U Ef H).
Qed.

Lemma Unbox_returns d v : let rep := representation (def g d) in
  avail v -> (rep = kUnboxedInt64 \/ rep = kUnboxedInt32 \/ rep = kUnboxedUint32) -> fits rep (rho d) -> (fits rep (rho v) -> rho d = rho v) ->
  returns (inferred (rho d)) (UnboxIntegerInferRange fuel g d v).
Proof.
  intros rep A R H E. unfold UnboxIntegerInferRange. fold rep. assert (unboxed rep) as U by (destruct R as [-> |[-> | ->]]; reflexivity).
  destruct (Full_unboxed rep U) as (f & lo & hi & Ef & F & Hf).
  apply (returns_bind (fun b => b = true -> rep = kUnboxedInt64 /\ smi (rho v))).
  { destruct (rep_eqb rep kUnboxedInt64) eqn:E64; [|apply returns_done; discriminate].
    eapply returns_weaken; [apply (IsLengthLoad_returns _ _ _ _ _ C v A)|]. intros b Hb T. split; [destruct rep; (discriminate || reflexivity)|auto]. }
  intros [|] Hl.
  - destruct (Hl eq_refl) as [E64 Sv]. rstep (FromDefinition_sound _ _ _ _ _ C v 0 (pred fuel) A ltac:(pose proof (c_rank _ _ _ _ _ C v A); lia) Sv ltac:(reflexivity)) as [W V].
    apply (MakeRange_returns rho avail rank (pred fuel)); try assumption. right. split; [split; assumption|].
    unfold RangeProofs.in_range. cbn [min_ max_]. rewrite V, E; [lia|]. rewrite E64. unfold fits, RangeProofs.in_range. cbn. range_lia.
  - clear Hl. rewrite Ef. cbn [rbind]. destruct (Full_inferred _ _ _ U Ef H) as [Wf If]. pose proof (Full_within _ _ U Ef) as Vf.
    destruct (range v) as [r|] eqn:Er; [|apply valid_inferred; assumption].
    destruct (available_range v r A Er) as [W I]. rewrite (wfr_known r W). destruct (bounds_exist _ _ _ _ _ C r W) as (rlo & rhi & B).
    rewrite (IsWithin_bounds _ _ _ _ _ _ B F). cbn [rbind]. destruct (_ && _) eqn:Ew.
    + assert (within rep r) as Hw by (apply (within_spec _ _ _ _ _ _ _ B Ef F); lia).
      apply valid_inferred; try assumption. rewrite (E (within_fits _ _ _ U W I Hw)). exact I.
    + destruct R as [R|R].
      * exfalso. assert (f = Int64Range) as -> by (rewrite R in Ef; injection Ef as <-; reflexivity). destruct F as ([= <- <-] & _). pose proof (b_lo _ _ _ _ _ _ B). pose proof (b_hi _ _ _ _ _ _ B). range_lia.
      * replace (rep_eqb rep kUnboxedInt32 || rep_eqb rep kUnboxedUint32) with true by (destruct R as [-> | ->]; reflexivity).
        apply valid_inferred; assumption.
Qed.

Lemma Intersect_full from to f t : unboxed from -> unboxed to -> Full from kTaggedNotAllowed = Done f -> Full to kTaggedNotAllowed = Done t ->
  exists c lo hi, Intersect g fuel f t = Done c /\ full c lo hi /\ forall z, lo <= z <= hi <-> fits from z /\ fits to z.
Proof.
  intros U U' E E'. unfold fits, RangeProofs.in_range. destruct from, to; try discriminate U; try discriminate U';
    injection E as <-; injection E' as <-; cbn; eexists _, _, _; (split; [reflexivity|]); (split; [split; [reflexivity|]|]).
  all: try (split; [|split]; (split || idtac); discriminate).
  all: cbn; intros z; lia.
Qed.

Lemma wider_fits from to z : unboxed from -> unboxed to -> (RepresentationUtils.ValueSize to >? RepresentationUtils.ValueSize from) = true ->
  negb (RepresentationUtils.IsUnsignedInteger to) || RepresentationUtils.IsUnsignedInteger from = true -> fits from z -> fits to z.
Proof.
  intros U U' H H'. unfold fits, RangeProofs.in_range. destruct from, to; try discriminate; cbn; lia.
Qed.

Lemma rep_eqb_untagged rep : unboxed rep -> rep_eqb rep kUntagged = false.
Proof. destruct rep; (discriminate || reflexivity). Qed.

(** The range that is checked and returned at the end. *)
Lemma IntConverter_choice d from to v : unboxed to -> fits to (rho d) ->
  (from = kUntagged /\ range v = None \/ avail v /\ unboxed from /\ fits from (rho v) /\ (fits to (rho v) -> rho d = rho v)) ->
  exists r, IntConverterInferRange fuel g from to v = (let* _ := ASSERT_VALID_RANGE_FOR_REPRESENTATION fuel g (Some r) to in Done r) /\
    wfr r /\ in_range (rho d) r /\ (from = kUntagged \/ valid_range from v -> within to r).
Proof.
  intros U H K. unfold IntConverterInferRange, valid_range. destruct (Full_unboxed to U) as (t & tlo & thi & Et & Ft & Ht).
  destruct (Full_inferred _ _ _ U Et H) as [Wt It]. pose proof (Full_within _ _ U Et) as Vt. unfold unboxed in U.
  rewrite (rep_eqb_untagged to U), U, Et. cbn [negb rbind].
  destruct K as [[-> ->]|(A & Uf & Hf & E)]; [exists t; auto|]. rewrite (rep_eqb_untagged from Uf). unfold unboxed in Uf. rewrite Uf. cbn [orb].
  destruct (range v) as [r|] eqn:Er; [|exists t; auto]. destruct (available_range v r A Er) as [W I]. rewrite (wfr_known r W).
  destruct (bounds_exist _ _ _ _ _ C r W) as (rlo & rhi & B). pose proof (b_in _ _ _ _ _ _ B _ I) as Hv.
  destruct (Full_unboxed from Uf) as (f & flo & fhi & Ef & Ff & Hff). rewrite Ef. cbn [rbind].
  assert ((forall z, rlo <= z <= rhi -> fits to z) -> within to r) as Hw.
  { intros Hto. apply (within_spec _ _ _ _ _ _ _ B Et Ft). pose proof (proj1 (Ht _) (Hto rlo ltac:(lia))). pose proof (proj1 (Ht _) (Hto rhi ltac:(lia))). lia. }
  destruct ((RepresentationUtils.ValueSize to >? RepresentationUtils.ValueSize from) && _) eqn:Wd.
  - apply andb_prop in Wd as [W1 W2]. exists r. split; [reflexivity|]. split; [exact W|]. split; [rewrite (E (wider_fits from to _ Uf U W1 W2 Hf)); exact I|].
    intros [->|(f' & [= <-] & V)]; [discriminate Uf|]. rewrite (IsWithin_bounds _ _ _ _ _ _ B Ff) in V. injection V as V. apply Hw. intros z Hz.
    apply (wider_fits from to z Uf U W1 W2). apply Hff. lia.
  - destruct (Intersect_full from to f t Uf U Ef Et) as (c & lo & hi & -> & Fc & Hc). cbn [rbind].
    rewrite (IsWithin_bounds _ _ _ _ _ _ B Fc). cbn [rbind]. destruct ((rlo >=? lo) && (rhi <=? hi)) eqn:Ew; [|exists t; auto].
    assert (forall z, rlo <= z <= rhi -> fits to z) as Hto by (intros z Hz; apply (Hc z); lia). exists r. split; [reflexivity|].
    rewrite (E (Hto _ Hv)). auto.
Qed.

Lemma IntConverter_returns d from to v : unboxed to -> fits to (rho d) ->
  (from = kUntagged \/ avail v /\ unboxed from /\ fits from (rho v) /\ (fits to (rho v) -> rho d = rho v)) ->
  (if rep_eqb from kUntagged then range v = None else valid_range from v) -> returns (inferred (rho d)) (IntConverterInferRange fuel g from to v).
Proof.
  intros U H K V. destruct (IntConverter_choice d from to v U H) as (r & -> & W & I & Hw).
  - destruct K as [->|K]; [left; auto|right; exact K].
  - apply valid_inferred; try assumption. apply Hw. destruct K as [->|(_ & Uf & _)]; [auto|]. rewrite (rep_eqb_untagged from Uf) in V. auto.
Qed.

Lemma ASSERT_ensures rep v r : wfr r -> in_range v r -> unboxed rep ->
  ensures (inferred v) (let* _ := ASSERT_VALID_RANGE_FOR_REPRESENTATION fuel g (Some r) rep in Done r).
Proof.
  intros W I U. destruct (Full_unboxed rep U) as (f & lo & hi & Ef & F & _). unfold ASSERT_VALID_RANGE_FOR_REPRESENTATION. rewrite Ef. cbn [rbind].
  destruct (IsUnknown_ (min_ r)); [exact Logic.I|]. destruct (IsWithin_sound _ _ _ _ _ C r f lo hi W F) as (w & -> & _). destruct w; [right; auto|exact Logic.I].
Qed.

Lemma IntConverter_ensures d from to v : unboxed to -> fits to (rho d) ->
  (from = kUntagged \/ avail v /\ unboxed from /\ fits from (rho v) /\ (fits to (rho v) -> rho d = rho v)) ->
  ensures (inferred (rho d)) (IntConverterInferRange fuel g from to v).
Proof.
  intros U H K. destruct K as [->|K].
  - destruct (range v) as [x|] eqn:Er; [unfold IntConverterInferRange; destruct (Full_unboxed to U) as (? & ? & ? & -> & _); rewrite Er, (rep_eqb_untagged to U), U; exact Logic.I|].
    destruct (IntConverter_choice d kUntagged to v U H) as (r & -> & W & I & _); [auto|]. apply ASSERT_ensures; assumption.
  - destruct (IntConverter_choice d from to v U H (or_intror K)) as (r & -> & W & I & _). apply ASSERT_ensures; assumption.
Qed.

Lemma Box_ensures d from v : avail v -> unboxed from -> fits from (rho d) -> rho d = rho v ->
  ensures (inferred (rho d)) (BoxIntegerInferRange fuel g from v).
Proof.
  intros A U H E. unfold BoxIntegerInferRange. destruct (range v) as [r|] eqn:Er.
  - destruct (available_range v r A Er) as [W I]. rewrite (wfr_known r W). apply ASSERT_ensures; try assumption. rewrite E. exact I.
  - destruct (Full_unboxed from U) as (f & lo & hi & Ef & _). cbn [IsUnknown]. rewrite Ef. right. exact (Full_inferred _ _ _ U Ef H).
Qed.

(** *** Operations *)

Lemma ClampRange_done f lo hi r : full f lo hi -> exists c, ClampRange r f = Done c.
Proof.
  intros F. assert (forall b, exists c, Clamp b f = Done c) as H by (intros [|s o|k]; [eexists; reflexivity..|rewrite (Clamp_constant _ _ _ k F); eauto]).
  unfold ClampRange. destruct (H (min_ r)) as [a ->], (H (max_ r)) as [b ->]. eexists. reflexivity.
Qed.

Lemma clamp_in f lo hi r v : full f lo hi -> wfr r -> in_range v r -> lo <= v <= hi ->
  returns (fun c => wfr c /\ in_range v c) (ClampRange r f).
Proof.
  intros F [W1 W2] I Hv. assert (forall b, wf rho avail rank (pred fuel) b -> exists c, Clamp b f = Done c /\ wf rho avail rank (pred fuel) c /\
    ((value_of rho b <= v -> value_of rho c <= v) /\ (v <= value_of rho b -> v <= value_of rho c))) as H.
  { intros [|s o|k] Wb; [contradiction|exists (Symbol s o); split; [reflexivity|]; split; [exact Wb|auto]|].
    rewrite (Clamp_constant _ _ _ k F). destruct F as (_ & Hlh & Il & Ih). eexists; split; [reflexivity|]. cbn in *. unfold clamped. split; [range_lia|lia]. }
  destruct (H _ W1) as (a & Ea & Wa & Ha & _), (H _ W2) as (b & Eb & Wb & _ & Hb), I as [I1 I2]. unfold ClampRange. rewrite Ea, Eb. cbn [rbind].
  apply returns_done. split; [split; assumption|split; cbn; auto].
Qed.

(** Only 64-bit integers have the range of all results. *)
Lemma narrow_fits rep f lo hi : Full rep kTaggedIsSmi = Done f -> full f lo hi -> lo <= kMinInt64 -> rep = kUnboxedInt64.
Proof. intros E (-> & _). destruct rep; try discriminate E; injection E as <- <-; intros H; try reflexivity; exfalso; apply H; reflexivity. Qed.

(** The range of the result, and the flag that says whether the exact result can
    leave the representation. *)
Lemma InferRangeHelper_returns d op l t lr rr x y v : let rep := representation (def g d) in
  rep <> kUntagged -> avail l -> rho l = x -> exact op x y = Some v ->
  (forall r, lr = Some r -> wfr r /\ in_range x r) -> (forall r, rr = Some r -> wfr r /\ in_range y r) ->
  returns (fun p => (snd p = Some false -> rep <> kUnboxedInt64 -> fits rep v) /\
                    (fits rep v -> inferred v (fst p)) /\ (rep = kUnboxedInt64 -> inferred (s64 v) (fst p)))
    (InferRangeHelper fuel g d op l t lr rr).
Proof.
  intros rep N Al El E Hl Hr. unfold InferRangeHelper. fold rep.
  destruct lr as [lr|], rr as [rr|]; try (apply returns_done; split; [discriminate|split; left; reflexivity]).
  destruct (Hl lr eq_refl) as [Wl Il], (Hr rr eq_refl) as [Wr Ir]. rewrite (wfr_known lr Wl), (wfr_known rr Wr). cbn [orb].
  rstep (BinaryOp_returns _ _ _ _ _ C op x y v lr rr l Wl Wr Il Ir Al El E) as H. rename a into res.
  apply returns_require; [rewrite (wfr_known res (proj1 H)); reflexivity|].
  destruct (Full_tagged rep N) as (f & lo & hi & Ef & F & Hf). destruct (bounds_exist _ _ _ _ _ C res (proj1 H)) as (rlo & rhi & B).
  apply (returns_bind (fun o => o = Some false -> rep <> kUnboxedInt64 -> fits rep v)).
  { destruct t; cbn [negb]; [apply returns_done; discriminate|]. unfold Fits. rewrite Ef. cbn [rbind].
    rewrite (IsWithin_bounds _ _ _ _ _ _ B F). cbn [rbind]. apply returns_done. intros [= Hw] N64. apply Hf.
    assert (rlo >= lo /\ rhi <= hi) as [L1 L2] by lia. destruct H as [_ [H| ->]]; [pose proof (b_in _ _ _ _ _ _ B v H); lia|].
    destruct N64. apply (narrow_fits rep f lo hi Ef F). assert (in_range kMinInt64 Int64Range) as HI by (split; discriminate).
    pose proof (b_in _ _ _ _ _ _ B _ HI). lia. }
  intros flag Hflag. rewrite Ef. cbn [rbind].
  assert (forall z, in_range z res -> lo <= z <= hi -> returns (inferred z) (ClampRange res f)) as Hc
    by (intros z Iz Hz; eapply returns_weaken; [apply (clamp_in f lo hi res z F (proj1 H) Iz Hz)|right; assumption]).
  destruct (ClampRange_done f lo hi res F) as [c Ec].
  rewrite Ec. cbn [rbind]. apply returns_done. cbn [fst snd]. split; [exact Hflag|].
  split.
  - intros Hv. apply returns_done_inv. rewrite <- Ec. apply Hc; [|apply Hf, Hv]. pose proof (holds_wrapped _ _ _ _ _ _ H) as Hs.
    rewrite s64_small in Hs; [exact Hs|]. apply Hf in Hv. destruct F as (_ & _ & Il' & Ih'). range_lia.
  - intros R. apply returns_done_inv. rewrite <- Ec. apply Hc; [exact (holds_wrapped _ _ _ _ _ _ H)|].
    apply Hf. rewrite R. pose proof (s64_i64 v). unfold fits, RangeProofs.in_range. cbn. range_lia.
Qed.

Lemma CacheRange_returns slot r f lo hi : full f lo hi -> (forall x, r = Some x -> wfr x) ->
  returns (fun _ => True) (CacheRange fuel g slot r f).
Proof.
  intros F H. unfold CacheRange. destruct r as [r|]; [|apply returns_done; exact I]. destruct (H r eq_refl) as [W1 W2]. unfold ClampToConstant.
  destruct (LowerBound_sound _ _ _ _ _ C _ W1) as (? & -> & a & -> & _), (UpperBound_sound _ _ _ _ _ C _ W2) as (? & -> & b & -> & _). cbn [rbind].
  rewrite !(Clamp_constant _ _ _ _ F). apply returns_done. exact I.
Qed.

(** The range, and the graph with at most the instruction's notes changed. *)
Definition step_of (d : defn) (p : Range * FlowGraph) : Prop :=
  inferred (rho d) (fst p) /\
  (snd p = g \/ exists i, snd p = set_instr d i g /\ computation i = computation (instr (def g d))).

Lemma BinaryIntegerOp_returns d op l r o t c v : let rep := representation (def g d) in
  instr (def g d) = BinaryIntegerOpInstr op l r o t c -> operand rep l -> operand rep r -> rep <> kUntagged ->
  exact op (rho l) (rho r) = Some v -> (if t then rep = kUnboxedInt64 /\ rho d = s64 v else rho d = v /\ fits rep v) ->
  returns (step_of d) (BinaryIntegerOpInferRange fuel g d op l r o t c).
Proof.
  intros rep K Ol Or N E V. unfold BinaryIntegerOpInferRange. fold rep. destruct (Full_tagged rep N) as (f & lo & hi & Ef & F & Hf). rewrite Ef. cbn [rbind].
  pose proof (fun x H => operand_range rep r f x N Ef Or H) as Hr. pose proof (fun x H => operand_range rep l f x N Ef Ol H) as Hl.
  apply (returns_bind (fun _ => True)).
  { destruct (UsesRightRange op); [|apply returns_done; exact I]. eapply CacheRange_returns; [exact F|]. intros x Hx. apply (Hr x Hx). }
  intros cached _. rstep (InferRangeHelper_returns d op l t _ _ _ _ v N (proj1 Ol) eq_refl E Hl Hr) as (_ & H1 & H2). destruct a as [x flag]. cbn [fst snd] in *.
  apply returns_done. split; cbn [fst snd].
  - destruct t; destruct V as [V1 V2]; [rewrite V2; exact (H2 V1)|rewrite V1; exact (H1 V2)].
  - right. eexists. split; [reflexivity|]. rewrite K. reflexivity.
Qed.

Lemma pure_returns d (x : result Range) : returns (inferred (rho d)) x -> returns (step_of d) (let* r := x in Done (r, g)).
Proof. intros H. eapply returns_bind; [exact H|]. intros r Hr. apply returns_done. split; [exact Hr|left; reflexivity]. Qed.

Lemma InferRange_returns d : executes d -> asserted d -> returns (step_of d) (InferRange fuel g d).
Proof.
  unfold executes, asserted, InferRange. cbv zeta. destruct (instr (def g d)) as [v|v c|inputs|op l r o t c|v ck|from v|from to v|i slot|k l i|v ts|tag ins at_ pu] eqn:K; intros X A.
  - apply returns_done. split; [|left; reflexivity]. destruct X as [-> H]. apply constants_inferred; (exact H || lia).
  - apply pure_returns, Constraint_returns; tauto.
  - contradiction.
  - destruct X as (Ol & Or & N & v & E & V). eapply BinaryIntegerOp_returns; eassumption.
  - apply pure_returns, Unbox_returns; tauto.
  - apply pure_returns, (Box_returns d); tauto.
  - apply pure_returns, (IntConverter_returns d); tauto.
  - apply pure_returns, (LoadField_returns d i); assumption.
  - apply pure_returns, CheckBound_returns; try tauto; destruct X as (_ & _ & -> & H & _); exact H.
  - apply returns_done. split; [|left; reflexivity]. destruct X as (Av & H & E). unfold AssertAssignableInferRange. cbn [fst].
    destruct (range v) as [r|] eqn:Er; [|apply constants_inferred; range_lia]. destruct (available_range v r Av Er) as [W I].
    rewrite (wfr_known r W). right. rewrite E. auto.
  - apply pure_returns, Definition_returns; [exact X|rewrite K; exact I].
Qed.

Lemma InferRange_ensures d : executes d -> ensures (step_of d) (InferRange fuel g d).
Proof.
  intros X. assert (asserted d -> ensures (step_of d) (InferRange fuel g d)) as H by (intros A; apply returns_ensures, InferRange_returns; assumption).
  unfold asserted in H. unfold executes in X.
  assert (forall x : result Range, ensures (inferred (rho d)) x -> ensures (step_of d) (let* r := x in Done (r, g))) as Hp
    by (intros x Hx; eapply ensures_bind; [exact Hx|]; intros r Hr; split; [exact Hr|left; reflexivity]).
  destruct (instr (def g d)) eqn:K; try (apply H; exact I); unfold InferRange; rewrite K; apply Hp; [apply Box_ensures|apply IntConverter_ensures]; tauto.
Qed.
End Transfer.

(** ** Passes over straight-line code *)
Section Pass.
Context (fuel : nat) (rho : defn -> Z) (avail : defn -> Prop) (rank : defn -> nat).

Abbreviation consistent g := (consistent g fuel rho avail rank).

(** [d] computed its value from definitions before it. *)
Definition executed (g : FlowGraph) (d : defn) : Prop := avail d /\ executes g fuel rho (before avail rank (rank d)) rank d.

(** The graph differs from [g] in ranges and notes only. *)
Record refines (g g' : FlowGraph) : Prop := {
  r_consistent : consistent g';
  r_same : same_computations g g';
  r_type : forall d, type_ (def g' d) = type_ (def g d)
}.

Lemma refines_refl g : consistent g -> refines g g.
Proof. intros H. split; [exact H|intros d; auto|reflexivity]. Qed.

Lemma refines_trans g g' g'' : refines g g' -> refines g' g'' -> refines g g''.
Proof.
  intros [_ S T] [C' S' T']. split; [exact C'| |].
  - intros d. destruct (S d) as [<- <-]. apply S'.
  - intros d. rewrite T', T. reflexivity.
Qed.

Lemma executed_refines g g' d : refines g g' -> executed g d -> executed g' d.
Proof.
  intros [_ S T] [A X]. split; [exact A|]. revert X. unfold executes, operand, slot_value, typed, IsInt_.
  destruct (S d) as [E ->]. rewrite T.
  destruct (instr (def g d)) eqn:K, (instr (def g' d)) eqn:K'; try discriminate E; inversion E; subst; rewrite ?T; auto.
Qed.

Lemma set_instr_refines g d i : consistent g -> computation i = computation (instr (def g d)) -> refines g (set_instr d i g).
Proof.
  intros H E. split; [apply consistent_set_instr; assumption| |].
  - intros x. cbn. destruct (Nat.eqb_spec x d) as [->|]; split; (reflexivity || exact E).
  - intros x. cbn. destruct (Nat.eqb x d); reflexivity.
Qed.

Lemma set_range_refines g d r : consistent g -> wf_range rho avail rank (rank d) r /\ in_range rho (rho d) r -> refines g (set_range d r g).
Proof.
  intros H W. split; [apply consistent_set_range; [exact H|intros _; exact W]| |].
  all: intros x; cbn; destruct (Nat.eqb x d); try split; reflexivity.
Qed.

Lemma RangeEquals_returns g n r other : consistent g -> wf_range rho avail rank n r ->
  (forall o, other = Some o -> wf_range rho avail rank n o) -> returns (fun _ => True) (RangeEquals g fuel r other).
Proof.
  intros H [W1 W2] Ho. unfold RangeEquals. apply returns_require; [destruct (min_ r), (max_ r); cbn in *; tauto|].
  destruct other as [o|]; [|apply returns_done; exact I]. destruct (Ho o eq_refl) as [W3 W4].
  eapply returns_weaken; [apply (rand_returns True True); (eapply returns_weaken; [eapply (BoundaryEquals_sound _ _ _ _ _ H); eassumption|auto])|auto].
Qed.

(** [RangeAnalysis::InferRange] keeps the ranges true of the execution. *)
Lemma InferRangeOf_ensures g op d : consistent g -> executed g d -> ensures (fun p => refines g (snd p)) (InferRangeOf fuel op d g).
Proof.
  intros H [A X]. unfold InferRangeOf.
  eapply ensures_bind; [apply (InferRange_ensures g fuel rho _ rank (consistent_before _ _ _ _ _ H (rank d)) d X)|]. intros [r g1] [Hr Hg]. cbn [fst snd] in *.
  assert (refines g g1) as R by (destruct Hg as [->|(i & -> & E)]; [apply refines_refl, H|apply set_instr_refines; assumption]).
  assert (range_ (def g1 d) = range_ (def g d)) as Er by (destruct Hg as [->|(i & -> & _)]; [|cbn; rewrite Nat.eqb_refl]; reflexivity).
  destruct Hr as [-> |[[W1 W2] I]]; [exact R|]. apply before_wf in W1, W2.
  replace (IsUnknown (Some r)) with false by (cbn; destruct (min_ r); [contradiction|reflexivity..]).
  assert (IsPhi g1 d = false) as NP.
  { unfold IsPhi. destruct (r_same _ _ R d) as [E _]. unfold executes in X. destruct (instr (def g d)), (instr (def g1 d)); (reflexivity || discriminate E || contradiction). }
  rewrite NP. replace (match range_ (def g1 d) with Some _ => _ | None => _ end) with (Done r) by (destruct (range_ (def g1 d)) as [o|]; [rewrite andb_false_r|]; reflexivity).
  cbn [rbind]. destruct (RangeEquals_returns g1 (rank d) r (range_ (def g1 d)) (r_consistent _ _ R)) as (same & -> & _).
  - split; assumption.
  - intros o Eo. rewrite Er in Eo. apply (c_range _ _ _ _ _ H d o A Eo).
  - cbn [rbind]. destruct same; [exact R|]. eapply refines_trans; [exact R|]. apply set_range_refines; [apply R|]. split; [split; assumption|exact I].
Qed.

Lemma InferAll_ensures op ds : forall g changed, consistent g -> Forall (executed g) ds ->
  ensures (fun p => refines g (snd p)) (InferAll fuel op ds changed g).
Proof.
  induction ds as [|d ds IH]; intros g changed H X; cbn [InferAll]; [apply refines_refl, H|]. inversion X; subst.
  eapply ensures_bind; [apply InferRangeOf_ensures; assumption|]. intros [c g1] R. cbn [snd] in R.
  eapply ensures_weaken; [apply IH; [apply R|]|].
  - eapply Forall_impl; [|eassumption]. intros x. apply executed_refines, R.
  - intros [c' g2] R'. eapply refines_trans; eassumption.
Qed.

(** Whatever the phase, an iteration that ends keeps them. *)
Lemma Iterate_refines turns op ds : forall i m g g', consistent g -> Forall (executed g) ds ->
  Iterate fuel turns op ds i m g = Done g' -> refines g g'.
Proof.
  induction turns as [|n IH]; intros i m g g' H X E; cbn [Iterate] in E; [discriminate|].
  pose proof (InferAll_ensures op ds g false H X) as R. destruct (InferAll fuel op ds false g) as [[c g1]| |]; try discriminate E. cbn [rbind ensures snd] in *.
  destruct (c && (i + 1 <? m)); [|injection E as <-; exact R]. eapply refines_trans; [exact R|]. apply (IH _ _ _ _ (r_consistent _ _ R)) in E; [exact E|].
  eapply Forall_impl; [|exact X]. intros x. apply executed_refines, R.
Qed.

Lemma InferRanges_refines turns ds g g' : consistent g -> Forall (executed g) ds -> InferRanges fuel turns ds g = Done g' -> refines g g'.
Proof.
  assert (forall g n op, (consistent g -> Forall (executed g) ds -> forall h, Iterate fuel turns op ds 0 n g = Done h -> refines g h)) as I1
    by (intros; eapply Iterate_refines; eassumption).
  assert (forall a b, refines a b -> Forall (executed a) ds -> Forall (executed b) ds) as I2
    by (intros a b R; apply Forall_impl; intros x; apply executed_refines, R).
  intros C X E. unfold InferRanges in E.
  destruct (Iterate fuel turns NONE ds 0 2 g) as [g1| |] eqn:E1; try discriminate E. cbn [rbind] in E. pose proof (I1 g 2 NONE C X _ E1) as R1.
  destruct (Iterate fuel turns WIDEN ds 0 kMaxInt32 g1) as [g2| |] eqn:E2; try discriminate E. cbn [rbind] in E.
  pose proof (I1 g1 _ WIDEN (r_consistent _ _ R1) (I2 _ _ R1 X) _ E2) as R2.
  pose proof (I1 g2 _ NARROW (r_consistent _ _ R2) (I2 _ _ R2 (I2 _ _ R1 X)) _ E) as R3.
  eapply refines_trans; [exact R1|]. eapply refines_trans; eassumption.
Qed.
End Pass.

(** C19. Bounds check elimination is safe.  On a graph whose ranges hold of the
    execution, [CheckBoundBase::IsRedundantBasedOnRangeInformation] ends, and when
    it answers that the check is redundant the index is within the length: removing
    the check removes one that succeeds.  The index may be any 64-bit integer, the
    length is a Smi. *)
Theorem redundant_bound_check_succeeds g fuel rho avail rank index length :
  consistent g fuel rho avail rank -> avail index -> avail length -> i64 (rho index) -> smi (rho length) ->
  returns (fun b => b = true -> 0 <= rho index < rho length) (IsRedundantBasedOnRangeInformation fuel g index length).
Proof. apply IsRedundant_returns. Qed.


(** An overflow check is dropped only where it cannot fire.  When
    [InferRangeHelper] clears [can_overflow] of a Smi or 32-bit operation whose
    operands are in their ranges, the exact result of the operation is a value of
    its representation. *)
Theorem cleared_overflow_flag_is_sound g fuel rho avail rank d op l t lr rr y v :
  consistent g fuel rho avail rank -> representation (def g d) <> kUntagged -> representation (def g d) <> kUnboxedInt64 ->
  avail l -> exact op (rho l) y = Some v ->
  (forall r, lr = Some r -> wf_range rho avail rank (pred fuel) r /\ in_range rho (rho l) r) ->
  (forall r, rr = Some r -> wf_range rho avail rank (pred fuel) r /\ in_range rho y r) ->
  returns (fun p => snd p = Some false -> fits rho (representation (def g d)) v) (InferRangeHelper fuel g d op l t lr rr).
Proof.
  intros C N N64 Al E Hl Hr. eapply returns_weaken; [apply (InferRangeHelper_returns g fuel rho avail rank C d op l t lr rr (rho l) y v N Al eq_refl E Hl Hr)|].
  intros p (H & _) F. exact (H F N64).
Qed.


(** ** An execution

    [n = array.length; i = x] where [0 <= x < n] was tested, [array[i]], and the
    sum [i + 1], with ten elements and [x = 4]. *)
Module Sample.
Definition instruction (i : Instr) (rep : Representation) (t : Type_) (r : option Range) : Definition_ := mkDefinition i rep t 0 r.

Definition before_inference (d : defn) : Definition_ :=
  match d with
  | 0%nat => instruction (OtherInstr 0 [] 0 false) kTagged NotInt None
  | 1%nat => instruction (LoadFieldInstr 0 Array_length) kTagged SmiType None
  | 2%nat => instruction (OtherInstr 1 [] 0 false) kTagged SmiType None
  | 3%nat => instruction (ConstraintInstr 2 (mkRange (Constant 0) (Symbol 1 (-1)))) kTagged SmiType None
  | 4%nat => instruction (ConstantInstr 1) kTagged SmiType None
  | 5%nat => instruction (BinaryIntegerOpInstr kADD 3 4 true false None) kTagged SmiType None
  | 6%nat => instruction (PhiInstr [3; 4]%nat) kTagged SmiType None
  | _ => instruction (OtherInstr 2 [] 0 false) kTagged NotInt None
  end.

Definition graph : FlowGraph := mkGraph before_inference (fun _ _ => true).
Definition ranges : FlowGraph := set_range 4 (mkRange (Constant 1) (Constant 1)) (set_range 3 (mkRange (Constant 0) (Symbol 1 (-1))) graph).
Definition rho (d : defn) : Z := match d with 1%nat => 10 | 2%nat | 3%nat => 4 | 4%nat => 1 | 5%nat => 5 | _ => 0 end.
Definition avail (d : defn) : Prop := (d <= 5)%nat.
Definition rank (d : defn) : nat := d.

Ltac each d := destruct d as [|[|[|[|[|[|d]]]]]]; [..|exfalso; unfold avail in *; lia].

Lemma consistent_graph : consistent graph 10 rho avail rank.
Proof.
  split.
  - unfold avail, rank. lia.
  - lia.
  - intros d r A. each d; discriminate.
  - intros d v A. each d; try discriminate. intros [= <-]. reflexivity.
  - intros d v A. each d; try discriminate. intros [= <-]. reflexivity.
  - intros d v A. each d; discriminate.
  - intros d v A. each d; discriminate.
  - intros d v A. each d; try discriminate. intros [= <-]. unfold avail, rank. lia.
  - intros d op l r A. each d; try discriminate. intros [= <- <- <-]. unfold avail, rank, smi. cbn.
    repeat split; try lia; try discriminate; reflexivity.
  - intros a b A B. each a; each b; try discriminate; reflexivity.
  - intros d A. each d; try discriminate; intros _; split; discriminate.
Qed.

Lemma consistent_ranges : consistent ranges 10 rho avail rank.
Proof.
  apply consistent_set_range; [apply consistent_set_range; [exact consistent_graph|]|].
  - intros _. repeat split; try discriminate; unfold avail, rank; lia.
  - intros _. repeat split; discriminate.
Qed.

Lemma available_before n d : (d <= 5)%nat -> (d < n)%nat -> before avail rank n d.
Proof. split; assumption. Qed.

Lemma executed_graph : Forall (executed 10 rho avail rank graph) [1; 2; 3; 4; 5]%nat.
Proof.
  repeat apply Forall_cons; [..|constructor]; (split; [unfold avail; lia|]); cbn [executes graph def before_inference instruction instr].
  - split; discriminate.
  - split; [split; discriminate|discriminate].
  - split; [split; [apply available_before; unfold rank; lia|discriminate]|]. repeat split; try discriminate; cbn; unfold avail, rank; lia.
  - split; [reflexivity|split; discriminate].
  - do 2 (split; [split; [apply available_before; unfold rank; lia|discriminate]|]). split; [discriminate|]. exists 5. repeat split; discriminate.
Qed.
End Sample.

Lemma redundant_bound_check_succeeds_witness :
  returns (fun b => b = true -> 0 <= Sample.rho 3 < Sample.rho 1) (IsRedundantBasedOnRangeInformation 10 Sample.ranges 3 1) /\
  IsRedundantBasedOnRangeInformation 10 Sample.ranges 3 1 = Done true.
Proof.
  split; [|vm_compute; reflexivity]. apply (redundant_bound_check_succeeds Sample.ranges 10 Sample.rho Sample.avail Sample.rank).
  - exact Sample.consistent_ranges.
  - unfold Sample.avail; lia.
  - unfold Sample.avail; lia.
  - split; discriminate.
  - split; discriminate.
Defined.


Lemma cleared_overflow_flag_is_sound_witness :
  returns (fun p => snd p = Some false -> fits Sample.rho kTagged 5)
    (InferRangeHelper 10 Sample.ranges 5 kADD 3 false (Some (mkRange (Constant 0) (Symbol 1 (-1)))) (Some (mkRange (Constant 1) (Constant 1)))).
Proof.
  apply (cleared_overflow_flag_is_sound Sample.ranges 10 Sample.rho Sample.avail Sample.rank 5 kADD 3 false _ _ 1 5).
  - exact Sample.consistent_ranges.
  - discriminate.
  - discriminate.
  - unfold Sample.avail; lia.
  - reflexivity.
  - intros r [= <-]. repeat split; try discriminate; unfold Sample.avail, Sample.rank; cbn; lia.
  - intros r [= <-]. repeat split; discriminate.
Defined.

(** ** Constraints *)
Section Constraints.
Context (g : FlowGraph) (fuel : nat) (rho : defn -> Z) (avail : defn -> Prop) (rank : defn -> nat).
Context (C : consistent g fuel rho avail rank).

(** The comparisons of [Token::Kind]. *)
Definition compare (op : Kind) (a b : Z) : option bool :=
  match op with
  | kEQ => Some (a =? b) | kNE => Some (negb (a =? b))
  | kLT => Some (a <? b) | kGT => Some (a >? b) | kLTE => Some (a <=? b) | kGTE => Some (a >=? b)
  | _ => None
  end.

Lemma NegateComparison_returns op a b c : compare op a b = Some c ->
  returns (fun n => compare n a b = Some (negb c)) (Token.NegateComparison op).
Proof. destruct op; try discriminate; intros [= <-]; apply returns_done; cbn; f_equal; lia. Qed.

Lemma FlipComparison_returns op a b c : compare op a b = Some c -> returns (fun f => compare f b a = Some c) (Token.FlipComparison op).
Proof. destruct op; try discriminate; intros [= <-]; apply returns_done; cbn; f_equal; lia. Qed.

(** The range of a value whose comparison with [boundary] held. *)
Lemma ConstraintRange_returns op boundary full_range lo hi v c : full full_range lo hi -> avail boundary -> smi (rho boundary) -> lo <= v <= hi ->
  compare op v (rho boundary) = Some c ->
  returns (fun r => wf_range rho avail rank (pred fuel) r /\ (c = true -> in_range rho v r)) (ConstraintRange g op boundary full_range).
Proof.
  intros F A S Hv E. pose proof (c_rank _ _ _ _ _ C boundary A) as R.
  assert (forall o, IsValidOffsetForSymbolicRangeBoundary o = true -> exists b, FromDefinition g boundary o = Done b /\ wf rho avail rank (pred fuel) b /\ value_of rho b = rho boundary + o) as H.
  { intros o V. destruct (FromDefinition_sound _ _ _ _ _ C boundary o (pred fuel) A ltac:(lia) S V) as (b & Eb & W & Vb). eauto. }
  destruct (full_wfr fuel rho avail rank _ _ _ F) as [W1 W2]. pose proof F as (-> & _ & I1 & I2). cbn [min_ max_] in *.
  destruct (H 0 eq_refl) as (b0 & E0 & B0 & V0), (H (-1) eq_refl) as (b1 & E1 & B1 & V1), (H 1 eq_refl) as (b2 & E2 & B2 & V2).
  unfold ConstraintRange. rewrite ?E0, ?E1, ?E2. cbn [rbind min_ max_].
  destruct op; try discriminate E; injection E as <-; try (apply returns_done; split; [split; assumption|intros _; exact Hv]).
  all: apply (MakeRange_returns rho avail rank (pred fuel)); try assumption; (split; [split; assumption|]); unfold in_range; cbn [min_ max_ value_of]; lia.
Qed.
End Constraints.

(** The constraints of a branch hold where they are inserted.  For a comparison
    of two integers, [BranchConstraints] returns a range that contains the operand
    [use_index] when the comparison holds (the true successor) and one that contains
    it when it does not (the false successor), for either operand. *)
Theorem branch_constraints_hold g fuel rho avail rank kind use_index left_ right_ rep c :
  consistent g fuel rho avail rank -> (use_index < 2)%nat -> rep <> kUntagged -> avail left_ -> avail right_ ->
  fits rho rep (rho left_) -> fits rho rep (rho right_) ->
  compare kind (rho left_) (rho right_) = Some c ->
  returns (fun o => forall t f, o = Some (t, f) -> in_range rho (rho (if Nat.eqb use_index 0 then left_ else right_)) (if c then t else f))
    (BranchConstraints g fuel kind use_index left_ right_ rep).
Proof.
  intros C U N Al Ar Fl Fr E. unfold BranchConstraints.
  set (boundary := if Nat.eqb use_index 0 then right_ else left_). set (d := if Nat.eqb use_index 0 then left_ else right_).
  assert (avail boundary /\ fits rho rep (rho d) /\ fits rho rep (rho boundary)) as (Ab & Fd & Fb) by (unfold boundary, d; destruct (Nat.eqb use_index 0); auto).
  apply (returns_bind (fun op => compare op (rho d) (rho boundary) = Some c)).
  { unfold boundary, d. destruct use_index as [|[|]]; cbn [Nat.eqb]; [apply returns_done, E|eapply FlipComparison_returns, E|lia]. }
  intros op Eop. clearbody boundary d. destruct (Full_tagged rho rep N) as (f & lo & hi & Ef & F & Hf).
  apply (returns_bind (fun o => o = None \/ o = Some f /\ smi (rho boundary))).
  { destruct (rep_eqb rep kTagged) eqn:T.
    - apply returns_done. right. destruct rep; try discriminate T. injection Ef as <-. split; [reflexivity|exact Fb].
    - apply returns_require; [destruct rep; (reflexivity || discriminate T || contradiction)|].
      rstep (IsLengthLoad_returns _ _ _ _ _ C boundary Ab) as Hl. destruct a; [|apply returns_done; left; reflexivity]. cbn [negb].
      replace (Full rep kTaggedNotAllowed) with (Full rep kTaggedIsSmi) by (destruct rep; (reflexivity || discriminate T)).
      rewrite Ef. apply returns_done. right. auto. }
  intros o [->|[-> S]]; [apply returns_done; discriminate|].
  rstep (ConstraintRange_returns _ _ _ _ _ C op boundary f lo hi (rho d) c F Ab S (proj1 (Hf _) Fd) Eop) as [_ Ht]. rename a into t.
  rstep (NegateComparison_returns op _ _ c Eop) as En. rstep (ConstraintRange_returns _ _ _ _ _ C _ boundary f lo hi (rho d) (negb c) F Ab S (proj1 (Hf _) Fd) En) as [_ Hn].
  apply returns_done. intros t' f' [= <- <-]. destruct c; [exact (Ht eq_refl)|exact (Hn eq_refl)].
Qed.

Lemma branch_constraints_hold_witness :
  returns (fun o => forall t f, o = Some (t, f) -> in_range Sample.rho 4 t) (BranchConstraints Sample.ranges 10 kLT 0 2 1 kTagged).
Proof.
  apply (branch_constraints_hold Sample.ranges 10 Sample.rho Sample.avail Sample.rank kLT 0 2 1 kTagged true).
  - exact Sample.consistent_ranges.
  - lia.
  - discriminate.
  - unfold Sample.avail; lia.
  - unfold Sample.avail; lia.
  - split; discriminate.
  - split; discriminate.
  - reflexivity.
Defined.
