(* ===== verification/RangePhiProofs.v ===== *)
(** * Phis: joins, widening, and where the analysis is not sound

    The join of ranges that hold, what widening and narrowing keep, why widening
    ends, why the walks through symbolic ranges end, and three programs on which
    an inferred range does not contain the value. *)

From Stdlib Require Import ZArith Bool List Lia ZifyBool.
From S2P Require Import Prelude Utils Result Il RangeOps RangeProofs Integers RangeArithProofs RangeInfer RangeInferProofs.
Import ListNotations.
Open Scope Z_scope.

(** ** Walks end *)
Section Termination.
Context (g : FlowGraph) (rank : defn -> nat).

(** The symbol of a boundary comes before [n], and its offset is valid. *)
Definition placed (n : nat) (b : RangeBoundary) : Prop :=
  match b with
  | Unknown => False
  | Constant _ => True
  | Symbol s o => (rank s < n)%nat /\ -4611686018427387904 <= o <= 4611686018427387904
  end.

(** Ranges mention earlier definitions only. *)
Definition acyclic : Prop := forall d r, range_ (def g d) = Some r -> placed (rank d) (min_ r) /\ placed (rank d) (max_ r).

Lemma clamped_smi_add c o : -4611686018427387904 <= o <= 4611686018427387904 ->
  returns (fun b => IsConstant_ b = true) (Add_ (Constant (clamped kSmiMin kSmiMax c)) (Constant o)).
Proof. intros O. apply Add_returns; unfold clamped; try range_lia. reflexivity. Qed.

Lemma LowerBound_ends : acyclic -> forall n b k, placed n b -> (n < k)%nat -> returns (fun c => IsConstant_ c = true) (LowerBound_ g k b).
Proof.
  intros H. induction n as [n IH] using lt_wf_ind. intros b [|k] P L; [lia|]. cbn [LowerBound_].
  destruct b as [|s o|c]; [contradiction| |apply returns_done; reflexivity]. destruct P as [R O]. destruct (range_ (def g s)) as [r|] eqn:E.
  - destruct (IH (rank s) R (min_ r) k (proj1 (H s r E)) ltac:(lia)) as (c & -> & Hc). destruct c; try discriminate. cbn [rbind].
    rewrite (Clamp_constant _ _ _ _ full_smi). cbn [rbind]. apply clamped_smi_add, O.
  - cbn [rbind]. apply (clamped_smi_add kSmiMin o O).
Qed.

Lemma UpperBound_ends : acyclic -> forall n b k, placed n b -> (n < k)%nat -> returns (fun c => IsConstant_ c = true) (UpperBound_ g k b).
Proof.
  intros H. induction n as [n IH] using lt_wf_ind. intros b [|k] P L; [lia|]. cbn [UpperBound_].
  destruct b as [|s o|c]; [contradiction| |apply returns_done; reflexivity]. destruct P as [R O]. destruct (range_ (def g s)) as [r|] eqn:E.
  - destruct (IH (rank s) R (max_ r) k (proj2 (H s r E)) ltac:(lia)) as (c & -> & Hc). destruct c; try discriminate. cbn [rbind].
    rewrite (Clamp_constant _ _ _ _ full_smi). cbn [rbind]. apply clamped_smi_add, O.
  - cbn [rbind]. apply (clamped_smi_add kSmiMax o O).
Qed.

(** *** [EnsureAcyclicSymbol] *)

(** Dominance in the order of definitions; constraints rename earlier ones. *)
Record ordered : Prop := {
  o_dominates : forall s phi, DominatesPhi g (block (def g s)) (block (def g phi)) = true -> (rank s < rank phi)%nat;
  o_constraint : forall s v, AsConstraint g s = Some v -> (rank v < rank s)%nat
}.

Lemma Unwrap_ends : ordered -> forall k s, (rank s < k)%nat -> exists u, UnwrapConstraint g k s = Done u /\ (rank u <= rank s)%nat.
Proof.
  intros H. induction k as [|k IH]; intros s L; [lia|]. unfold UnwrapConstraint. cbn [follow]. destruct (AsConstraint g s) as [v|] eqn:E; [|eauto].
  pose proof (o_constraint H s v E). destruct (IH v ltac:(lia)) as (u & Eu & Lu). exists u. split; [exact Eu|lia].
Qed.

Lemma FromDefinition_placed n d o : (rank d < n)%nat -> -4611686018427387904 <= o <= 4611686018427387904 -> returns (placed n) (FromDefinition g d o).
Proof.
  intros R O. unfold FromDefinition. destruct (AsConstant g d) as [v|]; [destruct (IsSmi v) eqn:S|].
  2-3: rewrite (proj2 (valid_offset o) O); apply returns_done; split; assumption.
  unfold IsSmi in S. rewrite IsInt_spec in S by (unfold kSmiBits; lia). unfold is_sN in S. change (2 ^ (kSmiBits + 1 - 1)) with 4611686018427387904 in S.
  apply (returns_bind (fun _ => True)); [apply int64_returns; [range_lia|exact I]|]. intros. apply returns_done. exact I.
Qed.

Lemma EnsureAcyclicSymbol_placed fuel phi a c : ordered -> placed fuel a ->
  returns (placed (rank phi)) (EnsureAcyclicSymbol fuel g (block (def g phi)) a (Constant c)).
Proof.
  intros H P. unfold EnsureAcyclicSymbol. destruct a as [|s o|k]; [contradiction| |apply returns_done; exact I]. destruct P as [R O].
  destruct (DominatesPhi g (block (def g s)) _) eqn:D; [apply returns_done; split; [apply (o_dominates H), D|exact O]|].
  destruct (Unwrap_ends H fuel s R) as (u & -> & L). cbn [rbind].
  destruct (negb (Nat.eqb u s) && DominatesPhi g (block (def g u)) _) eqn:D'; [|apply returns_done; exact I].
  apply andb_prop in D' as [_ D']. apply FromDefinition_placed; [apply (o_dominates H), D'|exact O].
Qed.
End Termination.

(** C21. Walks through symbolic ranges end.  When ranges mention earlier definitions
    only, [LowerBound] and [UpperBound] reach a constant within as many turns as the
    symbol has predecessors; and the bounds of a phi keep that order, because
    [EnsureAcyclicSymbol] leaves only symbols that strictly dominate the phi. *)
Theorem symbolic_bounds_terminate g rank : acyclic g rank -> ordered g rank ->
  (forall n b k, placed rank n b -> (n < k)%nat ->
     returns (fun c => IsConstant_ c = true) (LowerBound_ g k b) /\ returns (fun c => IsConstant_ c = true) (UpperBound_ g k b)) /\
  (forall fuel phi a c k, placed rank fuel a -> (rank phi < k)%nat ->
     returns (fun b => returns (fun c => IsConstant_ c = true) (LowerBound_ g k b) /\ returns (fun c => IsConstant_ c = true) (UpperBound_ g k b))
       (EnsureAcyclicSymbol fuel g (block (def g phi)) a (Constant c))).
Proof.
  intros A O. split; [split; [eapply LowerBound_ends|eapply UpperBound_ends]; eassumption|].
  intros fuel phi a c k P L. eapply returns_weaken; [apply (EnsureAcyclicSymbol_placed g rank fuel phi a c O P)|].
  intros b Pb. split; [eapply LowerBound_ends|eapply UpperBound_ends]; eassumption.
Qed.

(** ** Widening *)

Definition boundary_eq_dec (a b : RangeBoundary) : {a = b} + {a <> b}.
Proof. decide equality; (apply Z.eq_dec || apply Nat.eq_dec). Defined.

Definition range_eq_dec (a b : Range) : {a = b} + {a <> b}.
Proof. decide equality; apply boundary_eq_dec. Defined.

Section Widening.
Context (full_range : Range) (lo hi : Z) (F : full full_range lo hi).

(** How often a bound can still be widened; [limit] is the full range's. *)
Definition height (limit : Z) (b : RangeBoundary) : nat :=
  match b with
  | Constant c => if c =? limit then 0 else if (lo <=? c) && (c <=? hi) then 1 else 2
  | _ => 2
  end.

Lemma height_clamped limit c : (height limit (Constant (clamped lo hi c)) <= 1)%nat.
Proof.
  destruct F as (_ & L & _). cbn. destruct (_ =? limit); [lia|].
  rewrite (proj2 (andb_true_iff _ _)); [lia|]. unfold clamped. split; apply Z.leb_le; lia.
Qed.

Lemma height_limit limit : height limit (Constant limit) = O.
Proof. cbn. rewrite Z.eqb_refl. reflexivity. Qed.

(** A bound that is a constant of the full range is its own clamp. *)
Lemma height_constant limit c : Constant (clamped lo hi c) = Constant c \/ height limit (Constant c) = O \/ height limit (Constant c) = 2%nat.
Proof.
  destruct F as (_ & L & _). cbn. destruct (c =? limit); [auto|]. destruct (_ && _) eqn:E; [left; unfold clamped; f_equal; lia|auto].
Qed.

Definition widens (limit : Z) (old new : RangeBoundary) : Prop := new = old \/ (height limit new < height limit old)%nat.

Lemma widens_constants limit c : limit = lo \/ limit = hi -> widens limit (Constant c) (Constant (clamped lo hi c)).
Proof.
  intros Hl. pose proof (height_clamped limit c). destruct (height_constant limit c) as [E|[E|E]]; [left; exact E| |right; lia].
  left. cbn in E. destruct (Z.eqb_spec c limit) as [->|]; [|destruct (_ && _); discriminate]. destruct F as (_ & L & _). f_equal. unfold clamped. lia.
Qed.

Lemma widens_limit limit old : widens limit old (Constant limit).
Proof.
  unfold widens. rewrite height_limit. destruct old as [|s o|c]; [right; cbn; lia..|]. cbn.
  destruct (Z.eqb_spec c limit) as [->|]; [left; reflexivity|]. right. destruct (_ && _); lia.
Qed.

Lemma Add_constant a b c : Add_ a b = Done c -> exists k, c = Constant k.
Proof.
  unfold Add_. destruct a, b; cbn; try discriminate. destruct (negb _); [|discriminate]. unfold int64.
  destruct (_ && _); [|discriminate]. intros [= <-]. eauto.
Qed.

(** A bound that is computed is a constant, a constant's is itself. *)
Definition bound_of_ (b m : RangeBoundary) : Prop := exists c, m = Constant c /\ forall o, b = Constant o -> o = c.

Lemma LowerBound_constant g k b m : LowerBound_ g k b = Done m -> bound_of_ b m.
Proof.
  destruct k as [|k]; [discriminate|]. cbn [LowerBound_]. destruct b as [|s o|c]; [discriminate| |intros [= <-]; exists c; split; [reflexivity|congruence]].
  destruct (match range_ (def g s) with Some _ => _ | None => _ end) as [x| |]; try discriminate. intros E. destruct (Add_constant _ _ _ E) as [c ->]. exists c. split; [reflexivity|discriminate].
Qed.

Lemma UpperBound_constant g k b m : UpperBound_ g k b = Done m -> bound_of_ b m.
Proof.
  destruct k as [|k]; [discriminate|]. cbn [UpperBound_]. destruct b as [|s o|c]; [discriminate| |intros [= <-]; exists c; split; [reflexivity|congruence]].
  destruct (match range_ (def g s) with Some _ => _ | None => _ end) as [x| |]; try discriminate. intros E. destruct (Add_constant _ _ _ E) as [c ->]. exists c. split; [reflexivity|discriminate].
Qed.

Lemma bound_widens limit b m : limit = lo \/ limit = hi -> bound_of_ b m -> returns (widens limit b) (Clamp m full_range).
Proof.
  intros Hl (c & -> & Hc). rewrite (Clamp_constant _ _ _ c F). apply returns_done.
  destruct b as [|s o|o]; [right|right|rewrite (Hc o eq_refl); apply widens_constants, Hl].
  all: pose proof (height_clamped limit c); cbn [height] in *; lia.
Qed.

Lemma ConstantMinIn_widens g fuel r m : ConstantMinIn g fuel (Some r) full_range = Done m -> widens lo (min_ r) m.
Proof.
  unfold ConstantMinIn. destruct (LowerBound g fuel (min_ r)) as [x| |] eqn:E; try discriminate. cbn [rbind]. intros Em.
  apply returns_done_inv. rewrite <- Em. apply bound_widens; [auto|]. exact (LowerBound_constant g fuel _ _ E).
Qed.

Lemma ConstantMaxIn_widens g fuel r m : ConstantMaxIn g fuel (Some r) full_range = Done m -> widens hi (max_ r) m.
Proof.
  unfold ConstantMaxIn. destruct (UpperBound g fuel (max_ r)) as [x| |] eqn:E; try discriminate. cbn [rbind]. intros Em.
  apply returns_done_inv. rewrite <- Em. apply bound_widens; [auto|]. exact (UpperBound_constant g fuel _ _ E).
Qed.

Ltac bind_done H :=
  repeat match type of H with
  | rbind ?x _ = Done _ => let E := fresh "E" in destruct x eqn:E; [|discriminate H..]; cbn [rbind] in H
  end.

Lemma WidenMin_widens g fuel r new m : WidenMin fuel g r new full_range = Done m -> widens lo (min_ r) m.
Proof.
  assert (min_ full_range = Constant lo) as El by (destruct F as (-> & _); reflexivity).
  unfold WidenMin. cbv zeta. match goal with |- (if _ then _ else ?b) = _ -> _ => assert (forall m, b = Done m -> widens lo (min_ r) m) as Hc end.
  { intros m' H. bind_done H. injection H as <-. destruct (_ <=? _); [eapply ConstantMinIn_widens; eassumption|rewrite El; apply widens_limit]. }
  destruct (IsSymbol_ (min_ r)); [|apply Hc]. intros H. bind_done H.
  destruct a0; [injection H as <-; rewrite El; apply widens_limit|]. bind_done H.
  destruct a0; [injection H as <-; destruct (_ <=? _); [left; reflexivity|rewrite El; apply widens_limit]|]. bind_done H.
  destruct (_ <=? _); [injection H as <-; left; reflexivity|apply Hc, H].
Qed.

Lemma WidenMax_widens g fuel r new m : WidenMax fuel g r new full_range = Done m -> widens hi (max_ r) m.
Proof.
  assert (max_ full_range = Constant hi) as El by (destruct F as (-> & _); reflexivity).
  unfold WidenMax. cbv zeta. match goal with |- (if _ then _ else ?b) = _ -> _ => assert (forall m, b = Done m -> widens hi (max_ r) m) as Hc end.
  { intros m' H. bind_done H. injection H as <-. destruct (_ >=? _); [eapply ConstantMaxIn_widens; eassumption|rewrite El; apply widens_limit]. }
  destruct (IsSymbol_ (max_ r)); [|apply Hc]. intros H. bind_done H.
  destruct a0; [injection H as <-; rewrite El; apply widens_limit|]. bind_done H.
  destruct a0; [injection H as <-; destruct (_ >=? _); [left; reflexivity|rewrite El; apply widens_limit]|]. bind_done H.
  destruct (_ >=? _); [injection H as <-; left; reflexivity|apply Hc, H].
Qed.

(** [widenings n r r']: a phi's range goes from [r] to [r'] with [n] changes, each
    by widening with some new range of some graph. *)
Inductive widenings : nat -> Range -> Range -> Prop :=
  | widenings_none r : widenings 0 r r
  | widenings_step n r r' g fuel new m m' :
      widenings n r r' -> WidenMin fuel g r' new full_range = Done m -> WidenMax fuel g r' new full_range = Done m' ->
      widenings (if range_eq_dec (mkRange m m') r' then n else S n) r (mkRange m m').

Definition range_height (r : Range) : nat := height lo (min_ r) + height hi (max_ r).

Lemma widenings_height n r r' : widenings n r r' -> (n + range_height r' <= range_height r)%nat.
Proof.
  induction 1 as [|n r r' g fuel new m m' _ IH E E']; [lia|]. pose proof (WidenMin_widens _ _ _ _ _ E) as W. pose proof (WidenMax_widens _ _ _ _ _ E') as W'.
  destruct (range_eq_dec (mkRange m m') r') as [<-|N]; [exact IH|]. unfold range_height in *. cbn [min_ max_].
  destruct W as [->|W], W' as [->|W']; try lia. destruct N. destruct r'; reflexivity.
Qed.
End Widening.

(** C27. Widening ends.  However many times the range of a phi is widened, with
    whatever new ranges, it changes at most four times: each bound goes from a
    symbol to a constant and from there to the bound of the full range. *)
Theorem widening_changes_at_most_four_times full_range lo hi n r r' :
  full full_range lo hi -> widenings full_range n r r' -> (n <= 4)%nat.
Proof.
  intros F W. pose proof (widenings_height full_range lo hi F n r r' W) as H. unfold range_height in H.
  assert (forall l b, (height lo hi l b <= 2)%nat) as Hh
    by (intros l [|s o|c]; cbn; [lia..|]; destruct (c =? l); [lia|]; destruct (_ && _); lia).
  pose proof (Hh lo (min_ r)). pose proof (Hh hi (max_ r)). lia.
Qed.

(** ** Joins *)
Section Joins.
Context (g : FlowGraph) (fuel : nat) (rho : defn -> Z) (avail : defn -> Prop) (rank : defn -> nat).
Context (C : consistent g fuel rho avail rank).
Context (full_range : Range) (lo hi : Z) (F : full full_range lo hi).

Abbreviation value_of := (value_of rho).
Abbreviation in_range := (in_range rho).
Abbreviation wfb := (wf rho avail rank (pred fuel)).
Abbreviation wfr := (wf_range rho avail rank (pred fuel)).

(** Symbols of [r] are Smis: so is a definition they rename. *)
Lemma DependsOnSymbol_smi b d u : wfb b -> avail d -> UnwrapConstraint g fuel d = Done u ->
  returns (fun e => e = true -> smi (rho d)) (DependsOnSymbol fuel g b u).
Proof.
  intros W A Eu. destruct b as [|s o|c]; [contradiction| |apply returns_done; discriminate]. destruct W as (As & _ & _ & Ss). cbn [DependsOnSymbol].
  rstep (UnwrapConstraint_returns _ _ _ _ _ C s As) as (_ & _ & Es). apply returns_done. intros ->%Nat.eqb_eq.
  destruct (UnwrapConstraint_returns _ _ _ _ _ C d A) as (u' & Eu' & _ & _ & Ed). rewrite Eu in Eu'. injection Eu' as <-. rewrite Ed, <- Es. exact Ss.
Qed.

(** The join of a range that holds of [w] and the range of [d] contains both. *)
Lemma Join_returns r d dr w : avail d -> wfr r -> wfr dr -> in_range (rho d) dr -> in_range w r -> lo <= w <= hi -> lo <= rho d <= hi ->
  returns (fun j => wfr j /\ forall v, v = rho d \/ in_range v r -> lo <= v <= hi -> in_range v j) (Join fuel g r d (Some dr) full_range).
Proof.
  intros A Wr Wd Id Iw Hw Hd. unfold Join. rewrite (wfr_known fuel rho avail rank dr Wd), (wfr_known fuel rho avail rank r Wr).
  destruct (UnwrapConstraint_returns _ _ _ _ _ C d A) as (u & Eu & _). rewrite Eu. cbn [rbind].
  rstep (ror_returns _ _ _ _ (DependsOnSymbol_smi (min_ r) d u (proj1 Wr) A Eu) (DependsOnSymbol_smi (max_ r) d u (proj2 Wr) A Eu)) as Hdep.
  apply (returns_bind (fun o => wfr o /\ in_range (rho d) o)).
  { destruct a; [|apply returns_done; auto]. assert (smi (rho d)) as S by tauto. pose proof (c_rank _ _ _ _ _ C d A).
    destruct (FromDefinition_sound _ _ _ _ _ C d 0 (pred fuel) A ltac:(lia) S ltac:(reflexivity)) as (b & -> & Wb & Vb). cbn [rbind].
    apply (MakeRange_returns rho avail rank (pred fuel)); try assumption. split; [split; assumption|]. unfold RangeProofs.in_range. cbn. lia. }
  intros o [[Wo1 Wo2] Io]. destruct Wr as [W1 W2].
  rstep (LowerBoundIn_sound _ _ _ _ _ C _ _ lo hi W1 F) as [L1 B1]. rstep (LowerBoundIn_sound _ _ _ _ _ C _ _ lo hi Wo1 F) as [L2 B2].
  rstep (UpperBoundIn_sound _ _ _ _ _ C _ _ lo hi W2 F) as [L3 B3]. rstep (UpperBoundIn_sound _ _ _ _ _ C _ _ lo hi Wo2 F) as [L4 B4].
  unfold RangeProofs.in_range in *.
  destruct (Z.leb_spec a2 a1).
  { apply returns_done. split; [split; assumption|]. cbn. pose proof (B3 w Hw ltac:(lia)). specialize (B2 (rho d) Hd ltac:(lia)).
    intros v [->|Iv] Hv; [lia|]. specialize (B3 v Hv ltac:(lia)). lia. }
  destruct (Z.leb_spec a3 a0).
  { apply returns_done. split; [split; assumption|]. cbn. specialize (B4 (rho d) Hd ltac:(lia)). pose proof (B1 w Hw ltac:(lia)).
    intros v [->|Iv] Hv; [lia|]. specialize (B1 v Hv ltac:(lia)). lia. }
  rstep (JoinMin_sound _ _ _ _ _ C _ _ full_range lo hi W1 Wo1 F) as [Wj1 J1]. rstep (JoinMax_sound _ _ _ _ _ C _ _ full_range lo hi W2 Wo2 F) as [Wj2 J2].
  apply (MakeRange_returns rho avail rank (pred fuel)); try assumption. split; [split; assumption|]. cbn. intros v Hv Hf.
  split; [apply J1; try assumption; try lia|apply J2; try assumption; try lia].
Qed.

Lemma input_range i : avail i -> lo <= rho i <= hi -> (range_ (def g i) <> None \/ IsInt_ (def g i) = false) ->
  exists dr, GetInputRange g i full_range = Some dr /\ wfr dr /\ in_range (rho i) dr.
Proof.
  intros A Hv Hk. unfold GetInputRange. destruct (range_ (def g i)) as [dr|] eqn:Er.
  - exists dr. split; [reflexivity|apply (available_range _ _ _ _ _ C i); assumption].
  - destruct Hk as [Hk|Hk]; [contradiction|]; rewrite Hk. exists full_range. split; [reflexivity|]. split; [exact (full_wfr fuel rho avail rank _ _ _ F)|].
    apply (full_in rho _ _ _ _ F), Hv.
Qed.

(** All inputs: the values of [done] are in the range already. *)
Lemma JoinInputs_returns inputs : forall done r, done <> [] -> wfr r -> Forall (fun i => in_range (rho i) r /\ lo <= rho i <= hi) done ->
  Forall (fun i => avail i /\ lo <= rho i <= hi /\ (range_ (def g i) <> None \/ IsInt_ (def g i) = false)) inputs ->
  returns (fun j => wfr j /\ Forall (fun i => in_range (rho i) j) (done ++ inputs)) (JoinInputs fuel g inputs full_range r).
Proof.
  induction inputs as [|i inputs IH]; intros done r N W Hd Hi; cbn [JoinInputs].
  { apply returns_done. split; [exact W|]. rewrite app_nil_r. eapply Forall_impl; [|exact Hd]. intros x [Hx _]. exact Hx. }
  inversion Hi as [|? ? (A & Hv & Hk) Hi']; subst. destruct done as [|w done]; [contradiction|]. inversion Hd as [|? ? [Iw Hw] _]; subst.
  destruct (input_range i A Hv Hk) as (dr & -> & Wd & Id).
  rstep (Join_returns r i dr (rho w) A W Wd Id Iw Hw Hv) as [Wj Hj].
  change ((w :: done) ++ i :: inputs) with (w :: done ++ i :: inputs). replace (w :: done ++ i :: inputs) with ((w :: done ++ [i]) ++ inputs) by (cbn; rewrite <- app_assoc; reflexivity).
  apply (IH (w :: done ++ [i])); [discriminate|exact Wj| |exact Hi']. change (w :: done ++ [i]) with ((w :: done) ++ [i]).
  apply Forall_app. split; [|constructor; [split; [apply Hj; auto|exact Hv]|constructor]].
  eapply Forall_impl; [|exact Hd]. intros x [Ix Hx]. split; [apply Hj; auto|exact Hx].
Qed.

Lemma EnsureAcyclicSymbol_returns up b v block : wfb b -> smi v -> toward up v (value_of b) ->
  returns (fun c => wfb c /\ toward up v (value_of c)) (EnsureAcyclicSymbol fuel g block b (if up then MaxSmi else MinSmi)).
Proof.
  intros W S T. assert (wfb (if up then MaxSmi else MinSmi) /\ toward up v (value_of (if up then MaxSmi else MinSmi))) as Hl
    by (destruct up; cbn; range_lia).
  unfold EnsureAcyclicSymbol. destruct b as [|s o|c]; [contradiction| |apply returns_done; auto]. destruct (DominatesPhi _ _ _); [apply returns_done; auto|].
  destruct W as (A & R & O & Ss). rstep (UnwrapConstraint_returns _ _ _ _ _ C s A) as (Au & Ru & Eu).
  destruct (_ && _); [|apply returns_done, Hl]. eapply returns_weaken; [apply (FromDefinition_sound _ _ _ _ _ C a o (pred fuel) Au ltac:(lia))|].
  - rewrite <- Eu. exact Ss.
  - apply valid_offset, O.
  - intros c [Wc Vc]. split; [exact Wc|]. rewrite Vc, <- Eu. exact T.
Qed.

(** The first known range starts the join. *)
Lemma JoinInputs_from_unknown inputs : inputs <> [] ->
  Forall (fun i => avail i /\ lo <= rho i <= hi /\ (range_ (def g i) <> None \/ IsInt_ (def g i) = false)) inputs ->
  returns (fun j => wfr j /\ Forall (fun i => in_range (rho i) j) inputs) (JoinInputs fuel g inputs full_range UnknownRange).
Proof.
  destruct inputs as [|i inputs]; [contradiction|]. intros _ H. inversion H as [|? ? (A & Hv & Hk) H']; subst. cbn [JoinInputs].
  destruct (input_range i A Hv Hk) as (dr & -> & Wd & Id). unfold Join. rewrite (wfr_known fuel rho avail rank dr Wd). cbn [IsUnknown UnknownRange min_ IsUnknown_ rbind].
  apply (JoinInputs_returns inputs [i] dr); [discriminate|exact Wd| |exact H']. constructor; [auto|constructor].
Qed.
End Joins.

(** ** What widening and narrowing keep *)
Section Keeping.
Context (g : FlowGraph) (fuel : nat) (rho : defn -> Z) (avail : defn -> Prop) (rank : defn -> nat).
Context (C : consistent g fuel rho avail rank).
Context (full_range : Range) (lo hi : Z) (F : full full_range lo hi).
Context (r new : Range).
Context (Wr : wf_range rho avail rank (pred fuel) r) (Wn : wf_range rho avail rank (pred fuel) new).

Abbreviation value_of := (value_of rho).
Abbreviation in_range := (in_range rho).

Lemma ConstantMinIn_returns x : wf rho avail rank (pred fuel) (min_ x) ->
  returns (constant_such (fun c => forall v, lo <= v <= hi -> value_of (min_ x) <= v -> c <= v)) (ConstantMinIn g fuel (Some x) full_range).
Proof.
  intros W. unfold ConstantMinIn. rstep (LowerBound_sound _ _ _ _ _ C _ W) as (c & -> & Hc & Hle). rewrite (Clamp_constant _ _ _ c F).
  apply returns_done. eexists. split; [reflexivity|]. unfold clamped. lia.
Qed.

Lemma ConstantMaxIn_returns x : wf rho avail rank (pred fuel) (max_ x) ->
  returns (constant_such (fun c => forall v, lo <= v <= hi -> v <= value_of (max_ x) -> v <= c)) (ConstantMaxIn g fuel (Some x) full_range).
Proof.
  intros W. unfold ConstantMaxIn. rstep (UpperBound_sound _ _ _ _ _ C _ W) as (c & -> & Hc & Hle). rewrite (Clamp_constant _ _ _ c F).
  apply returns_done. eexists. split; [reflexivity|]. unfold clamped. lia.
Qed.

Lemma WidenMin_returns w : in_range w r -> lo <= w <= hi ->
  returns (fun c => forall v, lo <= v <= hi -> in_range v r \/ in_range v new -> value_of c <= v) (WidenMin fuel g r new full_range).
Proof.
  intros Iw Hw. destruct Wr as [Wr1 _], Wn as [Wn1 _]. unfold WidenMin. cbv zeta. unfold RangeProofs.in_range in *.
  assert (value_of (min_ full_range) = lo) as El by (destruct F as (-> & _); reflexivity).
  match goal with |- returns ?P (if _ then _ else ?b) => assert (returns P b) as Hc end.
  { rstep (ConstantMinIn_returns r Wr1) as (x & -> & Hx). rstep (ConstantMinIn_returns new Wn1) as (y & -> & Hy). cbn [rbind ConstantValue].
    apply returns_done. intros v Hv H. destruct (Z.leb_spec x y); [|lia]. cbn. destruct H as [H|H]; [apply Hx; lia|specialize (Hy v Hv ltac:(lia)); lia]. }
  destruct (IsSymbol_ (min_ r)); [|exact Hc]. rstep (LowerBound_sound _ _ _ _ _ C _ Wr1) as (c & -> & _).
  destruct (Overflowed_returns g fuel c full_range lo hi F) as (o & -> & _). cbn [rbind]. destruct o; [apply returns_done; lia|].
  rstep (DependOnSameSymbol_sound _ _ _ _ _ C _ _ _ _ (wf_known _ _ _ _ _ Wr1) (wf_known _ _ _ _ _ Wn1)) as Hs. destruct a.
  { apply returns_done. destruct (Hs eq_refl) as [E _]. intros v Hv H. destruct (Z.leb_spec (offset_ (min_ r)) (offset_ (min_ new))); lia. }
  rstep (UpperBoundIn_sound _ _ _ _ _ C _ _ lo hi Wr1 F) as [L1 B1]. rstep (LowerBoundIn_sound _ _ _ _ _ C _ _ lo hi Wn1 F) as [L2 B2].
  destruct (Z.leb_spec a a0); [|exact Hc]. apply returns_done. intros v Hv [H'|H']; [lia|]. specialize (B2 v Hv ltac:(lia)).
  destruct (Z.lt_ge_cases (value_of (min_ r)) lo); [lia|]. specialize (B1 (value_of (min_ r)) ltac:(lia) ltac:(lia)). lia.
Qed.

Lemma WidenMax_returns w : in_range w r -> lo <= w <= hi ->
  returns (fun c => forall v, lo <= v <= hi -> in_range v r \/ in_range v new -> v <= value_of c) (WidenMax fuel g r new full_range).
Proof.
  intros Iw Hw. destruct Wr as [_ Wr2], Wn as [_ Wn2]. unfold WidenMax. cbv zeta. unfold RangeProofs.in_range in *.
  assert (value_of (max_ full_range) = hi) as El by (destruct F as (-> & _); reflexivity).
  match goal with |- returns ?P (if _ then _ else ?b) => assert (returns P b) as Hc end.
  { rstep (ConstantMaxIn_returns r Wr2) as (x & -> & Hx). rstep (ConstantMaxIn_returns new Wn2) as (y & -> & Hy). cbn [rbind ConstantValue].
    apply returns_done. intros v Hv H. destruct (Z.geb_spec x y); [|lia]. cbn. destruct H as [H|H]; [apply Hx; lia|specialize (Hy v Hv ltac:(lia)); lia]. }
  destruct (IsSymbol_ (max_ r)); [|exact Hc]. rstep (UpperBound_sound _ _ _ _ _ C _ Wr2) as (c & -> & _).
  destruct (Overflowed_returns g fuel c full_range lo hi F) as (o & -> & _). cbn [rbind]. destruct o; [apply returns_done; lia|].
  rstep (DependOnSameSymbol_sound _ _ _ _ _ C _ _ _ _ (wf_known _ _ _ _ _ Wr2) (wf_known _ _ _ _ _ Wn2)) as Hs. destruct a.
  { apply returns_done. destruct (Hs eq_refl) as [E _]. intros v Hv H. destruct (Z.geb_spec (offset_ (max_ r)) (offset_ (max_ new))); lia. }
  rstep (LowerBoundIn_sound _ _ _ _ _ C _ _ lo hi Wr2 F) as [L1 B1]. rstep (UpperBoundIn_sound _ _ _ _ _ C _ _ lo hi Wn2 F) as [L2 B2].
  destruct (Z.geb_spec a a0); [|exact Hc]. apply returns_done. intros v Hv [H'|H']; [lia|]. specialize (B2 v Hv ltac:(lia)).
  destruct (Z.lt_ge_cases hi (value_of (max_ r))); [lia|]. specialize (B1 (value_of (max_ r)) ltac:(lia) ltac:(lia)). lia.
Qed.

Lemma NarrowMin_returns v : in_range v r -> in_range v new -> returns (fun c => value_of c <= v) (NarrowMin fuel g r new full_range).
Proof.
  intros I I'. unfold RangeProofs.in_range in *. unfold NarrowMin. rstep (ConstantMinIn_returns r (proj1 Wr)) as (x & -> & _).
  rstep (ConstantMinIn_returns new (proj1 Wn)) as (y & -> & _). cbn [rbind ConstantValue]. destruct (x >? y); [apply returns_done; lia|].
  destruct F as (-> & _). cbn [min_ IsLessOrEqual ConstantValue rbind]. apply returns_done. destruct (match min_ r with Constant _ => _ | _ => _ end); lia.
Qed.

Lemma NarrowMax_returns v : in_range v r -> in_range v new -> returns (fun c => v <= value_of c) (NarrowMax fuel g r new full_range).
Proof.
  intros I I'. unfold RangeProofs.in_range in *. unfold NarrowMax. rstep (ConstantMaxIn_returns r (proj2 Wr)) as (x & -> & _).
  rstep (ConstantMaxIn_returns new (proj2 Wn)) as (y & -> & _). cbn [rbind ConstantValue]. destruct (x <? y); [apply returns_done; lia|].
  destruct F as (-> & _). cbn [max_ IsGreaterOrEqual ConstantValue rbind]. apply returns_done. destruct (match max_ r with Constant _ => _ | _ => _ end); lia.
Qed.
End Keeping.

(** C28. The range of a phi holds when all its inputs' do.  At a point where every
    input of a phi has a value that its range contains, [PhiInstr::InferRange] ends
    with a range that contains the value of each of them, provided that value is a
    Smi.  Neither proviso can be dropped: [RangeDefects] has an
    execution for each in which the range does not hold. *)
Theorem phi_range_holds g fuel rho avail rank phi inputs full_range lo hi i :
  consistent g fuel rho avail rank -> FullRangeForPhi g phi = Done full_range -> full full_range lo hi ->
  Forall (fun i => avail i /\ lo <= rho i <= hi /\ (range_ (def g i) <> None \/ IsInt_ (def g i) = false)) inputs ->
  In i inputs -> smi (rho i) ->
  returns (fun r => in_range rho (rho i) r) (PhiInferRange fuel g phi inputs).
Proof.
  intros C E F H Hi S. unfold PhiInferRange. rewrite E. cbn [rbind].
  rstep (JoinInputs_from_unknown g fuel rho avail rank C full_range lo hi F inputs ltac:(destruct inputs; [contradiction Hi|discriminate]) H) as [[W1 W2] Hj].
  destruct (proj1 (Forall_forall _ _) Hj i Hi) as [I1 I2].
  rstep (EnsureAcyclicSymbol_returns g fuel rho avail rank C false (min_ a) (rho i) _ W1 S I1) as [_ L].
  rstep (EnsureAcyclicSymbol_returns g fuel rho avail rank C true (max_ a) (rho i) _ W2 S I2) as [_ U].
  apply returns_done. split; assumption.
Qed.

(** Widening keeps what either range holds, narrowing what both hold.  Of ranges
    that describe the execution, with the old one inhabited, the widened range
    contains every value of the full range that is in the old or in the new one,
    and the narrowed range every value that is in both. *)
Theorem widening_and_narrowing_keep_values g fuel rho avail rank full_range lo hi r new w v :
  consistent g fuel rho avail rank -> full full_range lo hi ->
  wf_range rho avail rank (pred fuel) r -> wf_range rho avail rank (pred fuel) new ->
  in_range rho w r -> lo <= w <= hi -> lo <= v <= hi ->
  (in_range rho v r \/ in_range rho v new ->
   returns (fun m => value_of rho m <= v) (WidenMin fuel g r new full_range) /\
   returns (fun m => v <= value_of rho m) (WidenMax fuel g r new full_range)) /\
  (in_range rho v r /\ in_range rho v new ->
   returns (fun m => value_of rho m <= v) (NarrowMin fuel g r new full_range) /\
   returns (fun m => v <= value_of rho m) (NarrowMax fuel g r new full_range)).
Proof.
  intros C F Wr Wn Iw Hw Hv. split.
  - intros H. split; (eapply returns_weaken; [eapply WidenMin_returns || eapply WidenMax_returns; eassumption|]); intros c Hc; apply Hc; assumption.
  - intros [H H']. split; [eapply NarrowMin_returns|eapply NarrowMax_returns]; eassumption.
Qed.

Lemma widening_and_narrowing_keep_values_witness :
  let r := mkRange (Constant 0) (Symbol 1 (-1)) in let new := mkRange (Constant 0) (Symbol 1 0) in
  (in_range Sample.rho 4 r \/ in_range Sample.rho 4 new ->
   returns (fun m => value_of Sample.rho m <= 4) (WidenMin 10 Sample.ranges r new SmiRange) /\
   returns (fun m => 4 <= value_of Sample.rho m) (WidenMax 10 Sample.ranges r new SmiRange)) /\
  (in_range Sample.rho 4 r /\ in_range Sample.rho 4 new ->
   returns (fun m => value_of Sample.rho m <= 4) (NarrowMin 10 Sample.ranges r new SmiRange) /\
   returns (fun m => 4 <= value_of Sample.rho m) (NarrowMax 10 Sample.ranges r new SmiRange)).
Proof.
  intros r new. apply (widening_and_narrowing_keep_values Sample.ranges 10 Sample.rho Sample.avail Sample.rank SmiRange kSmiMin kSmiMax r new 4 4).
  - exact Sample.consistent_ranges.
  - exact full_smi.
  - repeat split; try discriminate; unfold Sample.avail, Sample.rank; cbn; lia.
  - repeat split; try discriminate; unfold Sample.avail, Sample.rank; cbn; lia.
  - split; discriminate.
  - split; discriminate.
  - split; discriminate.
Defined.

Lemma symbolic_bounds_terminate_witness :
  returns (fun c => IsConstant_ c = true) (LowerBound_ Sample.ranges 5 (Symbol 3 7)) /\ returns (fun c => IsConstant_ c = true) (UpperBound_ Sample.ranges 5 (Symbol 3 7)).
Proof.
  apply (symbolic_bounds_terminate Sample.ranges Sample.rank) with (n := 4%nat).
  - intros d r. destruct d as [|[|[|[|[|[|[|d]]]]]]]; try discriminate; intros [= <-]; cbn; unfold Sample.rank; repeat split; (discriminate || lia).
  - split.
    + intros s phi. unfold DominatesPhi. intros [_ H]%andb_prop. exfalso. revert H.
      destruct s as [|[|[|[|[|[|[|s]]]]]]], phi as [|[|[|[|[|[|[|phi]]]]]]]; discriminate.
    + intros s v. destruct s as [|[|[|[|[|[|[|s]]]]]]]; try discriminate. intros [= <-]. unfold Sample.rank. lia.
  - split; [unfold Sample.rank; lia|split; discriminate].
  - lia.
Defined.

Lemma widening_changes_at_most_four_times_witness :
  widenings SmiRange 2 (mkRange (Constant 0) (Symbol 1 (-1))) (mkRange (Constant 0) MaxSmi) /\ (2 <= 4)%nat.
Proof.
  assert (widenings SmiRange 2 (mkRange (Constant 0) (Symbol 1 (-1))) (mkRange (Constant 0) MaxSmi)) as W.
  { pose proof (widenings_step SmiRange 0 _ _ Sample.ranges 10 (mkRange (Constant 0) (Constant 3)) (Constant 0) (Constant (kSmiMax - 1))
      (widenings_none SmiRange (mkRange (Constant 0) (Symbol 1 (-1)))) eq_refl eq_refl) as W1.
    exact (widenings_step SmiRange 1 _ _ Sample.ranges 10 (mkRange (Constant 0) MaxSmi) (Constant 0) MaxSmi W1 eq_refl eq_refl). }
  split; [exact W|]. apply (widening_changes_at_most_four_times SmiRange kSmiMin kSmiMax 2 _ _ full_smi W).
Defined.

Lemma phi_range_holds_witness : returns (fun r => in_range Sample.rho 4 r) (PhiInferRange 10 Sample.ranges 6 [3; 4]%nat).
Proof.
  apply (phi_range_holds Sample.ranges 10 Sample.rho Sample.avail Sample.rank 6 [3; 4]%nat SmiRange kSmiMin kSmiMax 3).
  - exact Sample.consistent_ranges.
  - reflexivity.
  - exact full_smi.
  - repeat apply Forall_cons; [..|constructor]; (split; [unfold Sample.avail; lia|]); (split; [split; discriminate|left; discriminate]).
  - left. reflexivity.
  - split; discriminate.
Defined.
