(* ===== verification/RangeDefects.v ===== *)
(** * Programs on which an inferred range does not contain the value

    Three graphs, each with the execution that leaves a range computed for it. *)

From Stdlib Require Import ZArith Bool List Lia.
From S2P Require Import Prelude Utils Result Il RangeOps RangeProofs Integers RangeInfer RangeInferProofs.
Import ListNotations.
Open Scope Z_scope.

Definition at_block (b : nat) (i : Instr) (rep : Representation) (t : Type_) : Definition_ := mkDefinition i rep t b None.

(** The range inferred for [d]. *)
Definition analysed (ds : list defn) (g : FlowGraph) (d : defn) : result (option Range) :=
  let* g := InferRanges 20 20 ds g in Done (range_ (def g d)).

(** ** [if (x >= 5) { y = (x < n) ? x : 3; a[y] }] *)
Module EmptyBranch.
Definition definitions (d : defn) : Definition_ :=
  match d with
  | 0%nat => at_block 0 (OtherInstr 0 [] 0 false) kTagged NotInt
  | 1%nat => at_block 0 (OtherInstr 1 [] 0 false) kTagged SmiType
  | 2%nat => at_block 0 (LoadFieldInstr 0 Array_length) kTagged SmiType
  | 3%nat => at_block 0 (ConstantInstr 3) kTagged SmiType
  | 4%nat => at_block 1 (ConstraintInstr 1 (mkRange (Constant 5) MaxSmi)) kTagged SmiType
  | 5%nat => at_block 2 (ConstraintInstr 4 (mkRange MinSmi (Symbol 2 (-1)))) kTagged SmiType
  | 6%nat => at_block 3 (PhiInstr [5; 3]%nat) kTagged SmiType
  | _ => at_block 3 (OtherInstr 2 [] 0 false) kTagged NotInt
  end.

(** Block 1 is entered when [x >= 5], block 2 when [x < n]; block 3 joins. *)
Definition graph : FlowGraph := mkGraph definitions (fun a b => Nat.eqb a b || Nat.eqb a 0 || Nat.eqb a 1 && negb (Nat.eqb b 0)).

(** [n = 0], [x = 7]: the second test fails, and the phi takes its second input. *)
Definition rho (d : defn) : Z := match d with 1%nat | 4%nat => 7 | 3%nat | 6%nat => 3 | _ => 0 end.
Definition avail (d : defn) : Prop := (d <= 4)%nat.
Definition rank (d : defn) : nat := d.
End EmptyBranch.

(** C38. A join loses the branch that was taken.  [Range] joins ranges that do not
    overlap by taking the lower bound of one and the upper bound of the other, which
    assumes that both have an element.  After [x >= 5] the range of [x] in the branch
    [x < n] is [[5, n-1]], empty for short arrays; its join with [3] is [[3, n-1]],
    and the check of [a[y]] is removed although [y = 3] and [n = 0] are possible: all
    that precedes the phi executes as described and the access is out of bounds. *)
Theorem join_loses_the_taken_branch :
  Forall (executed 20 EmptyBranch.rho EmptyBranch.avail EmptyBranch.rank EmptyBranch.graph) [1; 2; 3; 4]%nat /\
  EmptyBranch.rho 6 = EmptyBranch.rho 3 /\
  ~ (0 <= EmptyBranch.rho 6 < EmptyBranch.rho 2) /\
  analysed [1; 2; 3; 4; 5; 6]%nat EmptyBranch.graph 6 = Done (Some (mkRange (Constant 3) (Symbol 2 (-1)))) /\
  (let* g := InferRanges 20 20 [1; 2; 3; 4; 5; 6]%nat EmptyBranch.graph in IsRedundantBasedOnRangeInformation 20 g 6 2) = Done true.
Proof.
  split; [|split; [reflexivity|split; [cbn; lia|split; vm_compute; reflexivity]]].
  repeat apply Forall_cons; [..|constructor]; (split; [unfold EmptyBranch.avail; lia|]); cbn.
  - split; [split; discriminate|discriminate].
  - split; discriminate.
  - split; [reflexivity|split; discriminate].
  - split; [split; [split; [unfold EmptyBranch.avail; lia|unfold EmptyBranch.rank; lia]|discriminate]|]. repeat split; discriminate.
Qed.

(** ** [if (c) { y = a.length + 4611686018427387903 } else { y = 0 }] *)
Module LargePhi.
Definition definitions (d : defn) : Definition_ :=
  match d with
  | 0%nat => at_block 0 (OtherInstr 0 [] 0 false) kTagged NotInt
  | 1%nat => at_block 0 (ConstantInstr 4611686018427387903) kUnboxedInt64 IntType
  | 2%nat => at_block 0 (ConstantInstr 0) kUnboxedInt64 IntType
  | 3%nat => at_block 1 (LoadFieldInstr 0 Array_length) kTagged SmiType
  | 4%nat => at_block 1 (UnboxIntegerInstr 3 false) kUnboxedInt64 IntType
  | 5%nat => at_block 1 (BinaryIntegerOpInstr kADD 4 1 false true None) kUnboxedInt64 IntType
  | 6%nat => at_block 2 (PhiInstr [5; 2]%nat) kUnboxedInt64 IntType
  | _ => at_block 2 (OtherInstr 2 [] 0 false) kTagged NotInt
  end.

(** Block 1 is one of the two predecessors of block 2. *)
Definition graph : FlowGraph := mkGraph definitions (fun a b => Nat.eqb a b || Nat.eqb a 0).

(** Ten elements, and the first branch. *)
Definition rho (d : defn) : Z :=
  match d with 1%nat => 4611686018427387903 | 3%nat | 4%nat => 10 | 5%nat | 6%nat => 4611686018427387913 | _ => 0 end.
Definition avail (d : defn) : Prop := (d <= 5)%nat.
Definition rank (d : defn) : nat := d.
End LargePhi.

(** The range of a 64-bit phi is cut to Smis.  [PhiInstr::InferRange] replaces a
    symbolic bound whose symbol does not dominate the phi by the largest Smi, also
    when the phi is an unboxed 64-bit integer: the range does not contain the value,
    which is then taken to fit a Smi where it is boxed. *)
Theorem phi_of_int64_is_limited_to_smi :
  Forall (executed 20 LargePhi.rho LargePhi.avail LargePhi.rank LargePhi.graph) [1; 2; 3; 4; 5]%nat /\
  LargePhi.rho 6 = LargePhi.rho 5 /\
  analysed [1; 2; 3; 4; 5; 6]%nat LargePhi.graph 6 = Done (Some (mkRange (Constant 0) MaxSmi)) /\
  ~ in_range LargePhi.rho (LargePhi.rho 6) (mkRange (Constant 0) MaxSmi).
Proof.
  split; [|split; [reflexivity|split; [vm_compute; reflexivity|intros [_ H]; apply H; reflexivity]]].
  repeat apply Forall_cons; [..|constructor]; (split; [unfold LargePhi.avail; lia|]); cbn.
  - split; [reflexivity|split; discriminate].
  - split; [reflexivity|split; discriminate].
  - split; discriminate.
  - split; [split; [unfold LargePhi.avail; lia|unfold LargePhi.rank; lia]|]. split; [left; reflexivity|]. split; [split; discriminate|reflexivity].
  - do 2 (split; [split; [split; [unfold LargePhi.avail; lia|unfold LargePhi.rank; lia]|discriminate]|]). split; [discriminate|].
    exists 4611686018427387913. repeat split.
Qed.

(** ** A truncating 32-bit addition *)
Module Truncating.
Definition definitions (d : defn) : Definition_ :=
  match d with
  | 0%nat => at_block 0 (ConstantInstr kMaxInt32) kUnboxedInt32 IntType
  | 1%nat => at_block 0 (ConstantInstr 1) kUnboxedInt32 IntType
  | 2%nat => at_block 0 (BinaryIntegerOpInstr kADD 0 1 false true None) kUnboxedInt32 IntType
  | _ => at_block 0 (OtherInstr 2 [] 0 false) kTagged NotInt
  end.
Definition graph : FlowGraph := mkGraph definitions (fun _ _ => true).
End Truncating.

(** The range of a truncating operation is clamped, not wrapped.
    [InferRangeHelper] clamps the exact range of a truncating 32-bit operation to the
    representation: the range of [kMaxInt32 + 1] is [[kMaxInt32, kMaxInt32]], the
    value the machine computes is [kMinInt32]. *)
Theorem truncating_range_is_clamped rho :
  exact kADD kMaxInt32 1 = Some (kMaxInt32 + 1) /\ s32 (kMaxInt32 + 1) = kMinInt32 /\
  analysed [0; 1; 2]%nat Truncating.graph 2 = Done (Some (mkRange (Constant kMaxInt32) (Constant kMaxInt32))) /\
  ~ in_range rho (s32 (kMaxInt32 + 1)) (mkRange (Constant kMaxInt32) (Constant kMaxInt32)).
Proof.
  split; [reflexivity|]. split; [reflexivity|]. split; [vm_compute; reflexivity|]. intros [H _]. apply H. reflexivity.
Qed.
