(* ===== verification/DataStream.v ===== *)
(** * Data streams ([vm/datastream.{h,cc}])

    The byte streams snapshots and services are written to and read from: integer
    codecs with an end marker in the last byte, LEB128 and SLEB128, reference ids,
    alignment, and the buffer that grows or is flushed.  A byte is a number from 0 to
    255.  [ReadStream] works on [result]; a writer may also run out of memory. *)

From Stdlib Require Import ZArith Bool List Lia.
From S2P Require Import Prelude Utils Result.
Import ListNotations.
Open Scope Z_scope.
Open Scope cint_scope.

(** ** Constants and integer types *)

Definition kDataBitsPerByte : Z := 7.
Definition kByteMask : Z := (1 << kDataBitsPerByte) - 1.
Definition kMaxUnsignedDataPerByte : Z := kByteMask.
Definition kMinDataPerByte : Z := - (1 << (kDataBitsPerByte - 1)).
Definition kMaxDataPerByte : Z := Z.lnot kMinDataPerByte .& kByteMask.
Definition kEndByteMarker : Z := 255 - kMaxDataPerByte.
Definition kEndUnsignedByteMarker : Z := 255 - kMaxUnsignedDataPerByte.

Module LEB128Constants.
Definition kDataByteMask : Z := (1 << 7) - 1.
Definition kMoreDataMask : Z := 1 << 7.
Definition kSignMask : Z := 1 << 6.
End LEB128Constants.
Import LEB128Constants.

(** The type parameter [T] of the codecs. *)
Record IntType := mkType { bits : Z; is_signed : bool }.
Definition int32_t := mkType 32 true.
Definition uint32_t := mkType 32 false.
Definition int64_t := mkType 64 true.
Definition uint64_t := mkType 64 false.
Definition convert (T : IntType) (z : Z) : Z := if is_signed T then sN (bits T) z else uN (bits T) z.

(** ** [ReadStream] *)
Module ReadStream.
Record t := mk { buffer_ : list Z; current_ : Z }.
Definition end_ (st : t) : Z := Z.of_nat (length (buffer_ st)).
Definition with_current (st : t) (c : Z) : t := mk (buffer_ st) c.

Definition ReadByte (st : t) : result (Z * t) :=
  require current_ st <? end_ st;;
  Done (nth (Z.to_nat (current_ st)) (buffer_ st) 0, with_current st (current_ st + 1)).

Definition Position (st : t) : Z := current_ st.
Definition SetPosition (value : Z) (st : t) : result t := require end_ st >=? value;; Done (with_current st value).
Definition Advance (value : Z) (st : t) : result t := require end_ st - current_ st >=? value;; Done (with_current st (current_ st + value)).
Definition PendingBytes (st : t) : result Z := require end_ st >=? current_ st;; Done (end_ st - current_ st).

Definition Align (alignment offset : Z) (st : t) : result t :=
  let position_before := Position st in
  match RoundUp position_before alignment offset with
  | Some position_after => Advance (position_after - position_before) st
  | None => AssertionFailure
  end.

Definition ReadBytes (len : Z) (st : t) : result (list Z * t) :=
  require end_ st - current_ st >=? len;;
  require 0 <=? len;;
  Done (firstn (Z.to_nat len) (skipn (Z.to_nat (current_ st)) (buffer_ st)), with_current st (current_ st + len)).

(** [Read<T>(end_byte_marker)], for types of 32 and 64 bits.  A shift by the width
    or more is undefined. *)
Fixpoint Read_loop (T : IntType) (end_byte_marker : Z) (n : nat) (b r s : Z) (st : t) : result (Z * t) :=
  match n with
  | O => OutOfFuel
  | S n =>
      require s <? bits T;;
      let r := convert T (uN (bits T) r .| uN (bits T) (b << s)) in
      let s := s + kDataBitsPerByte in
      let* (b, st) := ReadByte st in
      if b <=? kMaxUnsignedDataPerByte then Read_loop T end_byte_marker n b r s st
      else require s <? bits T;;
           Done (convert T (uN (bits T) r .| uN (bits T) (uN (bits T) (b - end_byte_marker) << s)), st)
  end.

Definition Read_ (T : IntType) (end_byte_marker : Z) (st : t) : result (Z * t) :=
  let* (b, st) := ReadByte st in
  if b >? kMaxUnsignedDataPerByte then Done (convert T (uN (bits T) (b - end_byte_marker)), st)
  else Read_loop T end_byte_marker (Z.to_nat (bits T)) b 0 0 st.

Definition Read (T : IntType) : t -> result (Z * t) := Read_ T kEndByteMarker.
Definition ReadUnsigned (T : IntType) : t -> result (Z * t) := Read_ T kEndUnsignedByteMarker.

(** The unrolled loops, at an unsigned type of [N] bits. *)
Section Unrolled.
Context (N end_byte_marker : Z).

Definition UNROLLED_INIT (k : Z -> t -> result (Z * t)) (st : t) : result (Z * t) :=
  let* (b, st) := ReadByte st in
  if b >? kMaxUnsignedDataPerByte then Done (uN N (b - end_byte_marker), st) else k (uN N b) st.

Definition UNROLLED_BODY (bit_start : Z) (k : Z -> t -> result (Z * t)) (r : Z) (st : t) : result (Z * t) :=
  let* (b, st) := ReadByte st in
  if b >? kMaxUnsignedDataPerByte then Done (uN N (r .| (uN N (b - end_byte_marker) << bit_start)), st)
  else k (uN N (r .| (b << bit_start))) st.

Definition UNROLLED_END (bit_start : Z) (r : Z) (st : t) : result (Z * t) :=
  let* (b, st) := ReadByte st in
  require b >? kMaxUnsignedDataPerByte;;
  Done (uN N (r .| (uN N (b - end_byte_marker) << bit_start)), st).
End Unrolled.

Definition Read16 (m : Z) : t -> result (Z * t) := UNROLLED_INIT 16 m (UNROLLED_BODY 16 m 7 (UNROLLED_END 16 m 14)).

Definition Read32 (m : Z) : t -> result (Z * t) :=
  UNROLLED_INIT 32 m (UNROLLED_BODY 32 m 7 (UNROLLED_BODY 32 m 14 (UNROLLED_BODY 32 m 21 (UNROLLED_END 32 m 28)))).

Definition Read64 (m : Z) : t -> result (Z * t) :=
  UNROLLED_INIT 64 m (UNROLLED_BODY 64 m 7 (UNROLLED_BODY 64 m 14 (UNROLLED_BODY 64 m 21 (UNROLLED_BODY 64 m 28
    (UNROLLED_BODY 64 m 35 (UNROLLED_BODY 64 m 42 (UNROLLED_BODY 64 m 49 (UNROLLED_BODY 64 m 56 (UNROLLED_END 64 m 63))))))))).

(** [Raw<N, T>::Read]: the bits, as an unsigned number. *)
Definition Raw_Read (size : Z) (st : t) : result (Z * t) :=
  if size =? 1 then ReadByte st
  else if size =? 2 then Read16 kEndByteMarker st
  else if size =? 4 then Read32 kEndByteMarker st
  else if size =? 8 then Read64 kEndByteMarker st
  else AssertionFailure.

Definition ReadWordWith32BitReads (st : t) : result (Z * t) :=
  let* (lo, st) := Raw_Read 4 st in
  let* (hi, st) := Raw_Read 4 st in
  Done (uN 64 (uN 64 (lo << 0) .| uN 64 (hi << 32)), st).

(** Four stages; a byte is read as signed. *)
Fixpoint ReadRefId_stages (n : nat) (result_ : Z) (st : t) : result (Z * t) :=
  match n with
  | O => AssertionFailure
  | S n =>
      let* (b, st) := ReadByte st in
      let byte := sN 8 b in
      let result_ := byte + (result_ << 7) in
      if byte <? 0 then Done (result_ + 128, st) else ReadRefId_stages n result_ st
  end.
Definition ReadRefId : t -> result (Z * t) := ReadRefId_stages 4 0.

(** The loop of [ReadLEB128] and of [ReadSLEB128], which end with the bits read,
    their number and the last byte. *)
Fixpoint ReadLEB128_loop (N : Z) (n : nat) (r s : Z) (st : t) : result (Z * Z * Z * t) :=
  match n with
  | O => OutOfFuel
  | S n =>
      require s <? N;;
      let* (b, st) := ReadByte st in
      let r := uN N (r .| uN N (uN N (b .& kDataByteMask) << s)) in
      let s := s + kDataBitsPerByte in
      if negb ((b .& kMoreDataMask) =? 0) then ReadLEB128_loop N n r s st
      else require s <? kDataBitsPerByte + N;; Done (r, s, b, st)
  end.

Definition ReadLEB128 (T : IntType) (st : t) : result (Z * t) :=
  let* (r, s, b, st) := ReadLEB128_loop (bits T) (Z.to_nat (bits T)) 0 0 st in
  Done (convert T r, st).

Definition ReadSLEB128 (T : IntType) (st : t) : result (Z * t) :=
  let* (r, s, b, st) := ReadLEB128_loop (bits T) (Z.to_nat (bits T)) 0 0 st in
  let sign_bits := if negb ((b .& kSignMask) =? 0) && (s <? bits T)
                   then uN (bits T) (Z.lnot (uN (bits T) (1 << s) - 1)) else 0 in
  Done (convert T (r .| sign_bits), st).
End ReadStream.

(** ** Writing *)

(** A write ends with a value, throws the out-of-memory exception, fails an
    assertion (or overflows), or runs out of fuel. *)
Inductive written (A : Type) :=
  | Wrote (a : A)
  | ThrowOOM
  | WriteFailed
  | WriteOutOfFuel.
Arguments Wrote {A} a.
Arguments ThrowOOM {A}.
Arguments WriteFailed {A}.
Arguments WriteOutOfFuel {A}.

Definition wbind {A B} (x : written A) (f : A -> written B) : written B :=
  match x with Wrote a => f a | ThrowOOM => ThrowOOM | WriteFailed => WriteFailed | WriteOutOfFuel => WriteOutOfFuel end.
Notation "'let^' x := e 'in' k" := (wbind e (fun x => k)) (at level 10, x pattern, e at level 150, k at level 200).
Notation "'assert' b ;; k" := (if b then k else WriteFailed) (at level 10, b at level 150, k at level 200).

(** What the codecs ask of a stream ([AbstractWriteStream::WriteByte]): a byte is
    appended to what was written, or memory runs out. *)
Class ByteSink (W : Type) := {
  WriteByte : Z -> W -> written W;
  contents : W -> list Z;
  sound : W -> Prop;
  WriteByte_appends : forall b w, sound w -> is_uN 8 b ->
    WriteByte b w = ThrowOOM \/ exists w', WriteByte b w = Wrote w' /\ sound w' /\ contents w' = contents w ++ [b]
}.

(** *** The codecs of [AbstractWriteStream] and [BaseWriteStream] *)
Section Codecs.
Context {W : Type} `{ByteSink W}.

Fixpoint WriteLEB128_loop (N : Z) (n : nat) (remainder : Z) (w : W) : written W :=
  match n with
  | O => WriteOutOfFuel
  | S n =>
      let part := uN 8 (remainder .& kDataByteMask) in
      let remainder := uN N (remainder >> 7) in
      let is_last_part := remainder =? 0 in
      let part := if negb is_last_part then part .| kMoreDataMask else part in
      let^ w := WriteByte part w in
      if is_last_part then Wrote w else WriteLEB128_loop N n remainder w
  end.

Definition WriteLEB128 (T : IntType) (value : Z) (w : W) : written W :=
  assert negb (is_signed T) || (value >=? 0);;
  WriteLEB128_loop (bits T) (Z.to_nat (bits T)) (uN (bits T) value) w.

Definition WriteFixed5LEB128 (value : Z) (w : W) : written W :=
  assert value >=? 0;;
  let^ w := WriteByte (uN 8 ((value .& kDataByteMask) .| kMoreDataMask)) w in
  let value := value >> 7 in
  let^ w := WriteByte (uN 8 ((value .& kDataByteMask) .| kMoreDataMask)) w in
  let value := value >> 7 in
  let^ w := WriteByte (uN 8 ((value .& kDataByteMask) .| kMoreDataMask)) w in
  let value := value >> 7 in
  let^ w := WriteByte (uN 8 ((value .& kDataByteMask) .| kMoreDataMask)) w in
  let value := value >> 7 in
  let^ w := WriteByte (uN 8 (value .& kDataByteMask)) w in
  let value := value >> 7 in
  assert value =? 0;; Wrote w.

Fixpoint WriteSLEB128_loop (N : Z) (n : nat) (is_negative : bool) (remainder : Z) (w : W) : written W :=
  match n with
  | O => WriteOutOfFuel
  | S n =>
      let part := uN 8 (remainder .& kDataByteMask) in
      let remainder := remainder >> 7 in
      let continue (remainder : Z) (is_last_part : bool) :=
        let part := if negb is_last_part then part .| kMoreDataMask else part in
        let^ w := WriteByte part w in
        if is_last_part then Wrote w else WriteSLEB128_loop N n is_negative remainder w in
      if is_negative then
        let sign_extend := Z.lnot (sN N ((1 << (N - 7)) - 1)) in
        let remainder := remainder .| sign_extend in
        assert remainder <? 0;;
        continue remainder ((remainder =? -1) && negb ((part .& kSignMask) =? 0))
      else
        assert remainder >=? 0;;
        continue remainder ((remainder =? 0) && ((part .& kSignMask) =? 0))
  end.

Definition WriteSLEB128 (T : IntType) (value : Z) (w : W) : written W :=
  let value := sN (bits T) value in
  WriteSLEB128_loop (bits T) (Z.to_nat (bits T)) (value <? 0) value w.

Fixpoint WriteUnsigned_loop (n : nat) (value : Z) (w : W) : written W :=
  match n with
  | O => WriteOutOfFuel
  | S n =>
      if value >? kMaxUnsignedDataPerByte
      then let^ w := WriteByte (uN 8 (value .& kByteMask)) w in WriteUnsigned_loop n (value >> kDataBitsPerByte) w
      else WriteByte (uN 8 (value + kEndUnsignedByteMarker)) w
  end.
Definition WriteUnsigned (T : IntType) (value : Z) (w : W) : written W :=
  assert value >=? 0;; WriteUnsigned_loop (Z.to_nat (bits T)) value w.

Fixpoint Write_loop (n : nat) (v : Z) (w : W) : written W :=
  match n with
  | O => WriteOutOfFuel
  | S n =>
      if (v <? kMinDataPerByte) || (v >? kMaxDataPerByte)
      then let^ w := WriteByte (uN 8 (v .& kByteMask)) w in Write_loop n (v >> kDataBitsPerByte) w
      else WriteByte (uN 8 (v + kEndByteMarker)) w
  end.
Definition Write (T : IntType) (value : Z) (w : W) : written W := Write_loop (Z.to_nat (bits T)) value w.

(** [Raw<N, T>::Write]: [value] are the bits, as an unsigned number. *)
Definition Raw_Write (size value : Z) (w : W) : written W :=
  if size =? 1 then WriteByte value w
  else if size =? 2 then Write (mkType 16 true) (sN 16 value) w
  else if size =? 4 then Write int32_t (sN 32 value) w
  else if size =? 8 then Write int64_t (sN 64 value) w
  else WriteFailed.

Definition WriteWordWith32BitWrites (value : Z) (w : W) : written W :=
  let mask := uN 32 (2 ^ 32 - 1) in
  let^ w := Raw_Write 4 (uN 32 (value >> 0) .& mask) w in
  Raw_Write 4 (uN 32 (value >> 32) .& mask) w.
End Codecs.

(** *** [BaseWriteStream] and its subclasses *)
Module WriteStream.

(** [MallocWriteStream] and [ZoneWriteStream] keep what was written;
    [StreamingWriteStream] gives it to a callback: [sink] is what the callback has
    received. *)
Inductive kind :=
  | NonStreaming
  | Streaming (sink : list Z) (flushed_size_ : Z).

Record t := mk {
  initial_size_ : Z;
  buffer_ : option (list Z);
  current_ : Z;
  capacity_ : Z;
  kind_ : kind
}.

Definition new (initial_size : Z) (k : kind) : t := mk (RoundUpToPowerOfTwo initial_size) None 0 0 k.

Definition bytes_of (b : option (list Z)) : list Z := match b with Some l => l | None => [] end.

(** [BaseWriteStream::Position] and the virtual [Position]. *)
Definition BasePosition (st : t) : Z := current_ st.
Definition Position (st : t) : Z :=
  match kind_ st with NonStreaming => BasePosition st | Streaming _ flushed_size => flushed_size + BasePosition st end.
Definition Remaining (st : t) : Z := capacity_ st - BasePosition st.

(** [memmove(current_, addr, len); current_ += len]. *)
Definition put (bytes : list Z) (st : t) : t :=
  let c := Z.to_nat (current_ st) in
  let b := bytes_of (buffer_ st) in
  mk (initial_size_ st) (Some (firstn c b ++ bytes ++ skipn (c + length bytes) b)) (current_ st + Z.of_nat (length bytes)) (capacity_ st) (kind_ st).

Definition Flush (st : t) : t :=
  match kind_ st with
  | NonStreaming => st
  | Streaming sink flushed_size =>
      let size := current_ st in
      mk (initial_size_ st) (buffer_ st) 0 (capacity_ st)
        (Streaming (sink ++ firstn (Z.to_nat size) (bytes_of (buffer_ st))) (flushed_size + size))
  end.

Section Allocator.
(** [realloc], and [Zone::Realloc]: none when memory has run out. *)
Context (realloc : option (list Z) -> Z -> option (list Z)).

Definition Realloc (new_size : Z) (st : t) : written t :=
  match kind_ st with
  | NonStreaming =>
      let old_offset := current_ st in
      Wrote (match realloc (buffer_ st) new_size with
             | Some b => mk (initial_size_ st) (Some b) old_offset new_size (kind_ st)
             | None => mk (initial_size_ st) None 0 0 (kind_ st)
             end)
  | Streaming _ _ =>
      let st := Flush st in
      if new_size <=? capacity_ st then Wrote st
      else match RoundUp new_size (64 * 1024) 0 with
           | Some new_capacity =>
               Wrote (match realloc (buffer_ st) new_capacity with
                      | Some b => mk (initial_size_ st) (Some b) 0 new_capacity (kind_ st)
                      | None => mk (initial_size_ st) None 0 0 (kind_ st)
                      end)
           | None => WriteFailed
           end
  end.

Definition EnsureSpace (size_needed : Z) (st : t) : written t :=
  if Remaining st >=? size_needed then Wrote st
  else
    let increment_size := if size_needed >? capacity_ st then RoundUp size_needed (initial_size_ st) 0 else Some (capacity_ st) in
    match increment_size with
    | None => WriteFailed
    | Some increment_size =>
        let new_size := capacity_ st + increment_size in
        assert new_size <=? kMaxInt64;;
        assert new_size >? capacity_ st;;
        let^ st := Realloc new_size st in
        match buffer_ st with
        | None => ThrowOOM
        | Some _ => assert Remaining st >=? size_needed;; Wrote st
        end
    end.

Definition WriteByte_ (value : Z) (st : t) : written t := let^ st := EnsureSpace 1 st in Wrote (put [value] st).

Definition WriteBytes (bytes : list Z) (st : t) : written t :=
  let len := Z.of_nat (length bytes) in
  if negb (len =? 0) then let^ st := EnsureSpace len st in Wrote (put bytes st) else Wrote st.

(** [WriteFixed<T>]: the object representation, little endian. *)
Fixpoint object_representation (size : nat) (value : Z) : list Z :=
  match size with O => [] | S n => uN 8 value :: object_representation n (value >> 8) end.
Definition WriteFixed (size : nat) (value : Z) : t -> written t := WriteBytes (object_representation size value).
Definition WriteWord (value : Z) : t -> written t := WriteFixed 8 value.
Definition WriteTargetWord (value : Z) (st : t) : written t := assert BitLength value <=? 64;; WriteFixed 8 (s64 value) st.

(** [BaseWriteStream::SetPosition] and the overriding one. *)
Definition BaseSetPosition (value : Z) (st : t) : written t :=
  let^ st := EnsureSpace (value - BasePosition st) st in
  Wrote (mk (initial_size_ st) (buffer_ st) value (capacity_ st) (kind_ st)).
Definition SetPosition (value : Z) (st : t) : written t :=
  match kind_ st with
  | NonStreaming => BaseSetPosition value st
  | Streaming _ flushed_size => assert value >=? flushed_size;; BaseSetPosition (value - flushed_size) st
  end.

(** The number of bytes added, and the stream. *)
Definition Align (alignment offset fill_byte : Z) (st : t) : written (Z * t) :=
  let position_before := Position st in
  match RoundUp position_before alignment offset with
  | None => WriteFailed
  | Some position_after =>
      let length := position_after - position_before in
      if negb (length =? 0) then
        let^ st := EnsureSpace length st in
        let filled := mk (initial_size_ st) (buffer_ (put (repeat fill_byte (Z.to_nat length)) st)) (current_ st) (capacity_ st) (kind_ st) in
        let^ st := SetPosition position_after filled in
        Wrote (length, st)
      else Wrote (length, st)
  end.

Definition WriteRefId (value : Z) (st : t) : written t :=
  assert IsUint 28 value;;
  let^ st := EnsureSpace 4 st in
  let st := if negb ((value >> 21) =? 0) then put [(value >> 21) .& 127] st else st in
  let st := if negb ((value >> 14) =? 0) then put [(value >> 14) .& 127] st else st in
  let st := if negb ((value >> 7) =? 0) then put [(value >> 7) .& 127] st else st in
  Wrote (put [((value >> 0) .& 127) .| 128] st).
End Allocator.

(** [MallocWriteStream::Steal]: the buffer, the length written, the empty stream. *)
Definition Steal (st : t) : option (list Z) * Z * t :=
  (buffer_ st, Position st, mk (initial_size_ st) None 0 0 (kind_ st)).

(** [~StreamingWriteStream]: what the callback has received in the end. *)
Definition Destroy (st : t) : t := if negb (BasePosition st =? 0) then Flush st else st.
End WriteStream.
