(* ===== verification/DataStreamProofs.v ===== *)
(** * Data streams: what is written is read back

    The codecs against the interface of a byte sink, the streams that implement it,
    and the round trip of messages through a stream that grows or is flushed. *)

From Stdlib Require Import ZArith Bool List Lia ZifyBool.
From S2P Require Import Prelude Utils Result DataStream.
Import ListNotations.
Import LEB128Constants.
Open Scope Z_scope.
Open Scope cint_scope.

Ltac constants :=
  change kDataBitsPerByte with 7 in *; change kByteMask with 127 in *; change kMaxUnsignedDataPerByte with 127 in *;
  change kMinDataPerByte with (-64) in *; change kMaxDataPerByte with 63 in *; change kEndByteMarker with 192 in *;
  change kEndUnsignedByteMarker with 128 in *; change kDataByteMask with 127 in *; change kMoreDataMask with 128 in *;
  change kSignMask with 64 in *.

(** ** Bits as arithmetic *)

Lemma land_127 x : x .& 127 = x mod 128.
Proof. change 127 with (Z.ones 7). rewrite Z.land_ones by lia. reflexivity. Qed.

Lemma shiftr_7 x : x >> 7 = x / 128.
Proof. rewrite Z.shiftr_div_pow2 by lia. reflexivity. Qed.

Lemma lor_128 d : 0 <= d < 128 -> d .| 128 = d + 128.
Proof. intros H. exact (lor_disjoint d 1 7 ltac:(lia) ltac:(lia)). Qed.

Lemma land_more b : is_uN 8 b -> (b .& 128) = if b <? 128 then 0 else 128.
Proof.
  intros H. unfold is_uN in H. change (2 ^ 8) with 256 in H. apply Z.bits_inj'. intros i Hi. rewrite Z.land_spec. change 128 with (2 ^ 7) at 1.
  rewrite Z.pow2_bits_eqb by lia. destruct (Z.eqb_spec 7 i) as [<-|N].
  - rewrite andb_true_r. destruct (Z.ltb_spec b 128).
    + rewrite (testbit_uN_high 7 b 7) by (unfold is_uN; lia). reflexivity.
    + replace b with ((b - 128) + 1 * 2 ^ 7) by lia. rewrite <- lor_disjoint, Z.lor_spec by lia.
      rewrite (testbit_uN_high 7 (b - 128) 7) by (unfold is_uN; lia). reflexivity.
  - rewrite andb_false_r. destruct (b <? 128); [symmetry; apply Z.bits_0|]. change 128 with (2 ^ 7). rewrite Z.pow2_bits_eqb by lia.
    symmetry. apply Z.eqb_neq. exact N.
Qed.

Lemma land_sign d : 0 <= d < 128 -> (d .& 64) = if d <? 64 then 0 else 64.
Proof.
  intros H. apply Z.bits_inj'. intros i Hi. rewrite Z.land_spec. change 64 with (2 ^ 6) at 1. rewrite Z.pow2_bits_eqb by lia.
  destruct (Z.eqb_spec 6 i) as [<-|N].
  - rewrite andb_true_r. destruct (Z.ltb_spec d 64).
    + rewrite (testbit_uN_high 6 d 6) by (unfold is_uN; lia). reflexivity.
    + replace d with ((d - 64) + 1 * 2 ^ 6) by lia. rewrite <- lor_disjoint, Z.lor_spec by lia.
      rewrite (testbit_uN_high 6 (d - 64) 6) by (unfold is_uN; lia). reflexivity.
  - rewrite andb_false_r. destruct (d <? 64); [symmetry; apply Z.bits_0|]. change 64 with (2 ^ 6). rewrite Z.pow2_bits_eqb by lia.
    symmetry. apply Z.eqb_neq. exact N.
Qed.

(** ** Digits *)

Definition is_byte (b : Z) : Prop := is_uN 8 b.
Definition is_digit (d : Z) : Prop := 0 <= d < 128.

(** A number as base-128 digits and what is left, once [stop] says it fits. *)
Fixpoint digits (stop : Z -> bool) (n : nat) (v : Z) : list Z * Z :=
  match n with
  | O => ([], v)
  | S n => if stop v then ([], v) else let (ds, l) := digits stop n (v / 128) in (v mod 128 :: ds, l)
  end.

Definition value (p : list Z * Z) : Z := fold_right (fun d acc => d + 128 * acc) (snd p) (fst p).

(** The two layouts: the end in the last byte, a mark in all others. *)
Definition marked (marker : Z) (p : list Z * Z) : list Z := fst p ++ [snd p + marker].
Definition leb (p : list Z * Z) : list Z := map (fun d => d + 128) (fst p) ++ [snd p mod 128].

Lemma digit_values stop n : forall v, value (digits stop n v) = v.
Proof.
  induction n as [|n IH]; intros v; cbn [digits]; [reflexivity|]. destruct (stop v); [reflexivity|]. specialize (IH (v / 128)).
  destruct (digits stop n (v / 128)) as [ds l]. unfold value in *. cbn [fold_right fst snd] in *. rewrite IH. pose proof (Z.div_mod v 128). lia.
Qed.

Section Digits.
Context (stop : Z -> bool) (B : Z -> Z -> Prop).
Context (B_stop : forall w v, B w v -> 0 < w <= 7 -> stop v = true).
Context (B_next : forall w v, B w v -> 7 < w -> B (w - 7) (v / 128)).

Lemma digits_spec n : forall w v, B w v -> 0 < w -> w <= 7 * Z.of_nat n ->
  let (ds, l) := digits stop n v in
  stop l = true /\ Forall is_digit ds /\ 7 * Z.of_nat (length ds) < w /\ B (w - 7 * Z.of_nat (length ds)) l.
Proof.
  induction n as [|n IH]; intros w v Hv Hw Hn; [lia|]. cbn [digits]. destruct (stop v) eqn:E.
  - cbn. rewrite Z.sub_0_r. auto.
  - assert (7 < w) as H7 by (destruct (Z.lt_ge_cases 7 w); [assumption|rewrite (B_stop w v Hv) in E by lia; discriminate]).
    specialize (IH (w - 7) (v / 128) (B_next w v Hv H7) ltac:(lia) ltac:(lia)). destruct (digits stop n (v / 128)) as [ds l].
    destruct IH as (H1 & H2 & H3 & H4). cbn [length]. rewrite Nat2Z.inj_succ. repeat split; try assumption; try lia.
    + constructor; [unfold is_digit; apply Z.mod_pos_bound; lia|exact H2].
    + replace (w - 7 * Z.succ (Z.of_nat (length ds))) with (w - 7 - 7 * Z.of_nat (length ds)) by lia. exact H4.
Qed.
End Digits.

(** The limits of the four codecs. *)
Definition stop_unsigned (v : Z) : bool := v <=? 127.
Definition stop_signed (v : Z) : bool := (-64 <=? v) && (v <=? 63).

Lemma pow2_128 w : 7 <= w -> 2 ^ w = 2 ^ (w - 7) * 128.
Proof. intros H. change 128 with (2 ^ 7). rewrite <- Z.pow_add_r by lia. f_equal. lia. Qed.

Lemma unsigned_stop w v : is_uN w v -> 0 < w <= 7 -> stop_unsigned v = true.
Proof. unfold is_uN, stop_unsigned. intros H Hw. pose proof (Z.pow_le_mono_r 2 w 7). lia. Qed.
Lemma unsigned_next w v : is_uN w v -> 7 < w -> is_uN (w - 7) (v / 128).
Proof.
  unfold is_uN. intros H Hw. rewrite (pow2_128 w) in H by lia.
  split; [apply Z.div_pos; lia|]. apply Z.div_lt_upper_bound; lia.
Qed.
Lemma signed_stop w v : is_sN w v -> 0 < w <= 7 -> stop_signed v = true.
Proof. unfold is_sN, stop_signed. intros H Hw. pose proof (Z.pow_le_mono_r 2 (w - 1) 6). lia. Qed.
Lemma signed_next w v : is_sN w v -> 7 < w -> is_sN (w - 7) (v / 128).
Proof.
  unfold is_sN. intros H Hw. rewrite (pow2_128 (w - 1)) in H by lia. replace (w - 1 - 7) with (w - 7 - 1) in H by lia.
  split; [apply Z.div_le_lower_bound; lia|]. apply Z.div_lt_upper_bound; lia.
Qed.

Definition unsigned_spec n w v := digits_spec stop_unsigned is_uN unsigned_stop unsigned_next n w v.
Definition signed_spec n w v := digits_spec stop_signed is_sN signed_stop signed_next n w v.

(** ** Reading *)

Lemma convert_uN T z : 0 < bits T -> convert T (uN (bits T) z) = convert T z.
Proof. intros H. unfold convert. destruct (is_signed T); [apply sN_uN; lia|apply uN_uN]. Qed.

Lemma convert_small T z : 0 < bits T -> 0 <= z < 2 ^ (bits T - 1) -> convert T z = z.
Proof.
  intros H Hz. unfold convert. destruct (is_signed T); [apply sN_small; [exact H|unfold is_sN; lia]|].
  apply uN_small. unfold is_uN. pose proof (Z.pow_le_mono_r 2 (bits T - 1) (bits T)). lia.
Qed.

Lemma uN_shift W x s : 0 <= s <= W -> uN W (x << s) = (x mod 2 ^ (W - s)) << s.
Proof.
  intros H. unfold uN. rewrite !Z.shiftl_mul_pow2 by lia. replace (2 ^ W) with (2 ^ (W - s) * 2 ^ s) by (rewrite <- Z.pow_add_r by lia; f_equal; lia).
  apply Z.mul_mod_distr_r; apply Z.pow_nonzero; lia.
Qed.

Lemma lor_wrap W r x s : 0 <= s <= W -> 0 <= r < 2 ^ s -> r .| uN W (uN W x << s) = uN W (r + x * 2 ^ s).
Proof.
  intros Hs Hr. assert (uN W (uN W x << s) = uN W (x << s)) as -> by (rewrite !Z.shiftl_mul_pow2 by lia; apply uN_mul_l).
  rewrite uN_shift by lia. rewrite lor_disjoint by lia. set (y := x mod 2 ^ (W - s)).
  assert (0 <= y < 2 ^ (W - s)) as Hy by (apply Z.mod_pos_bound, Z.pow_pos_nonneg; lia).
  assert (2 ^ W = 2 ^ (W - s) * 2 ^ s) as EW by (rewrite <- Z.pow_add_r by lia; f_equal; lia).
  rewrite <- (uN_small W (r + y * 2 ^ s)) by (unfold is_uN; rewrite EW; nia).
  rewrite <- !Z.shiftl_mul_pow2 by lia. unfold y. rewrite <- uN_shift by lia. apply uN_add_r.
Qed.

Module R := ReadStream.

Definition pending (st : R.t) : list Z := skipn (Z.to_nat (R.current_ st)) (R.buffer_ st).
Definition ready (st : R.t) : Prop := 0 <= R.current_ st <= R.end_ st.
Definition advanced (st : R.t) (n : nat) : R.t := R.with_current st (R.current_ st + Z.of_nat n).

(** [f] reads the bytes [bs] and returns [v]. *)
Definition reads {A} (f : R.t -> result (A * R.t)) (bs : list Z) (v : A) : Prop :=
  forall st l, ready st -> pending st = bs ++ l -> f st = Done (v, advanced st (length bs)).

Lemma pending_length st : ready st -> Z.of_nat (length (pending st)) = R.end_ st - R.current_ st.
Proof. intros H. unfold pending, ready, R.end_ in *. rewrite length_skipn. lia. Qed.

Lemma advanced_ready st bs l : ready st -> pending st = bs ++ l -> ready (advanced st (length bs)) /\ pending (advanced st (length bs)) = l.
Proof.
  intros H E. pose proof (pending_length st H) as L. rewrite E, length_app in L. split; [unfold ready, advanced, R.end_, R.with_current in *; cbn [R.current_ R.buffer_]; lia|].
  unfold pending, advanced, R.with_current in *. cbn [R.current_ R.buffer_]. unfold ready in H. rewrite Z2Nat.inj_add, Nat2Z.id, Nat.add_comm by lia. rewrite <- skipn_skipn, E.
  rewrite skipn_app, skipn_all, Nat.sub_diag. reflexivity.
Qed.

Lemma advanced_advanced st n m : advanced (advanced st n) m = advanced st (n + m).
Proof. unfold advanced, R.with_current. cbn. f_equal. lia. Qed.

Lemma reads_byte b : reads R.ReadByte [b] b.
Proof.
  intros st l H E. pose proof (pending_length st H) as L. rewrite E in L. cbn [app length] in L. unfold R.ReadByte.
  rewrite (proj2 (Z.ltb_lt _ _)) by lia. f_equal. f_equal. unfold pending in E.
  rewrite <- (firstn_skipn (Z.to_nat (R.current_ st)) (R.buffer_ st)), E. rewrite app_nth2; rewrite length_firstn; unfold ready, R.end_ in H; [|lia].
  replace (Z.to_nat (R.current_ st) - _)%nat with O by lia. reflexivity.
Qed.

Lemma next_byte st b l : ready st -> pending st = b :: l ->
  R.ReadByte st = Done (b, advanced st 1) /\ ready (advanced st 1) /\ pending (advanced st 1) = l.
Proof. intros H E. split; [exact (reads_byte b st l H E)|exact (advanced_ready st [b] l H E)]. Qed.

(** Read the next byte of the pending ones. *)
Ltac next H E :=
  let R := fresh in let H' := fresh in let E' := fresh in
  destruct (next_byte _ _ _ H E) as (R & H' & E'); rewrite R; cbn [rbind]; clear R H E; rename H' into H; rename E' into E.

Lemma Read_loop_reads T marker last (Hm : 127 < last + marker <= 255) : forall ds n b r s,
  is_digit b -> Forall is_digit ds -> 0 <= s -> 0 <= r < 2 ^ s -> s + 7 * (Z.of_nat (length ds) + 1) < bits T -> (length ds < n)%nat ->
  reads (R.Read_loop T marker n b r s) (marked marker (ds, last)) (convert T (r + 2 ^ s * value (b :: ds, last))).
Proof.
  induction ds as [|d ds IH]; intros n b r s Hb Hds Hs Hr Hw Hn st l H E; (destruct n as [|n]; [cbn in Hn; lia|]); cbn [R.Read_loop]; constants;
    cbn [length] in Hw; rewrite (proj2 (Z.ltb_lt s (bits T))) by lia; unfold is_digit in Hb.
  all: assert (2 ^ (s + 7) = 2 ^ s * 128) as E7 by (rewrite Z.pow_add_r by lia; reflexivity).
  all: assert (convert T (uN (bits T) r .| uN (bits T) (b << s)) = r + b * 2 ^ s) as ->.
  1, 3: pose proof (Z.pow_le_mono_r 2 (s + 7) (bits T - 1) ltac:(lia) ltac:(lia)); pose proof (Z.pow_le_mono_r 2 (bits T - 1) (bits T) ltac:(lia) ltac:(lia)).
  1-2: rewrite (uN_small (bits T) r), (uN_small (bits T) (b << s)), lor_disjoint by (unfold is_uN; rewrite ?Z.shiftl_mul_pow2 by lia; nia); apply convert_small; nia.
  all: assert (0 <= r + b * 2 ^ s < 2 ^ (s + 7)) as Hr' by nia.
  - unfold marked in *. cbn [fst snd app] in *. next H E. rewrite (proj2 (Z.leb_gt _ _)) by lia. rewrite (proj2 (Z.ltb_lt _ _)) by lia. f_equal. f_equal.
    replace (last + marker - marker) with last by lia. pose proof (Z.pow_le_mono_r 2 (s + 7) (bits T) ltac:(lia) ltac:(lia)).
    rewrite (uN_small (bits T) (r + _)) by (unfold is_uN; lia). rewrite lor_wrap, convert_uN by lia. f_equal. unfold value. cbn [fold_right fst snd]. rewrite E7. nia.
  - inversion Hds as [|? ? Hd Hds']; subst. unfold marked in *. cbn [fst snd app] in *. next H E. unfold is_digit in Hd. rewrite (proj2 (Z.leb_le _ _)) by lia.
    rewrite (IH n d _ (s + 7) Hd Hds' ltac:(lia) Hr' ltac:(lia) ltac:(cbn in Hn; lia) _ l H E), advanced_advanced. f_equal. f_equal.
    f_equal. unfold value. cbn [fold_right fst snd]. rewrite E7. nia.
Qed.

Lemma Read_reads T marker ds last : 127 < last + marker <= 255 -> Forall is_digit ds -> 7 * Z.of_nat (length ds) < bits T ->
  reads (R.Read_ T marker) (marked marker (ds, last)) (convert T (value (ds, last))).
Proof.
  intros Hm Hds Hw st l H E. unfold R.Read_. destruct ds as [|d ds]; unfold marked in E; cbn [fst snd app] in E; next H E; constants.
  - rewrite (proj2 (Z.gtb_lt _ _)) by lia. replace (last + marker - marker) with last by lia. rewrite convert_uN by (cbn in Hw; lia). reflexivity.
  - inversion Hds as [|? ? Hd Hds']; subst. unfold is_digit in Hd. cbn [length] in Hw.
    replace (d >? 127) with false by lia.
    rewrite (Read_loop_reads T marker last Hm ds (Z.to_nat (bits T)) d 0 0 Hd Hds' ltac:(lia) ltac:(cbn; lia) ltac:(lia) ltac:(lia) _ l H E), advanced_advanced.
    f_equal. f_equal. f_equal. rewrite Z.mul_1_l. reflexivity.
Qed.

(** *** The unrolled loops *)

Lemma uN_lor N x y : 0 <= N -> uN N (x .| y) = uN N x .| uN N y.
Proof.
  intros H. apply Z.bits_inj'. intros i Hi. rewrite Z.lor_spec, !testbit_uN, Z.lor_spec by lia. destruct (i <? N), (Z.testbit x i); reflexivity.
Qed.

Lemma uN_lor_uN N x y : 0 <= N -> uN N (uN N x .| uN N y) = uN N (x .| y).
Proof. intros H. rewrite !uN_lor, !uN_uN by exact H. reflexivity. Qed.

Section Unrolled.
Context (N m : Z) (HN : 0 < N).

(** The rest of the loop after some bytes. *)
Definition tail (n : nat) (r s : Z) (st : R.t) : result (Z * R.t) :=
  let* (b, st) := R.ReadByte st in
  if b <=? 127 then R.Read_loop (mkType N false) m n b r s st
  else require s <? N;; Done (uN N (uN N r .| uN N (uN N (b - m) << s)), st).

Lemma Read_loop_tail n b r s st : s < N -> R.Read_loop (mkType N false) m (S n) b r s st = tail n (uN N (uN N r .| uN N (b << s))) (s + 7) st.
Proof. intros H. cbn [R.Read_loop bits]. rewrite (proj2 (Z.ltb_lt _ _)) by exact H. reflexivity. Qed.

Lemma BODY_tail n s k r st : s < N -> (forall r st, k r st = tail n r (s + 7) st) -> R.UNROLLED_BODY N m s k r st = tail (S n) r s st.
Proof.
  intros H Hk. unfold R.UNROLLED_BODY, tail. destruct (R.ReadByte st) as [[b st']| |]; cbn [rbind]; try reflexivity. constants.
  destruct (Z.leb_spec b 127), (Z.gtb_spec b 127); try lia.
  - rewrite Read_loop_tail, Hk, uN_lor_uN by lia. reflexivity.
  - rewrite (proj2 (Z.ltb_lt _ _)) by exact H. rewrite uN_lor_uN by lia. reflexivity.
Qed.

Lemma END_tail n s r st : s < N <= s + 7 -> R.UNROLLED_END N m s r st = tail (S (S n)) r s st.
Proof.
  intros H. unfold R.UNROLLED_END, tail. destruct (R.ReadByte st) as [[b st']| |]; cbn [rbind]; try reflexivity. constants.
  destruct (Z.leb_spec b 127), (Z.gtb_spec b 127); try lia.
  - rewrite Read_loop_tail by lia. unfold tail. unfold R.ReadByte. destruct (R.current_ st' <? R.end_ st'); [|reflexivity]. cbn [rbind].
    destruct (_ <=? 127); cbn [R.Read_loop bits]; rewrite (proj2 (Z.ltb_ge _ _)) by lia; reflexivity.
  - rewrite (proj2 (Z.ltb_lt _ _)) by lia. rewrite uN_lor_uN by lia. reflexivity.
Qed.

Lemma INIT_tail n k st : (forall r st, k r st = tail n r 7 st) -> Z.to_nat N = S n ->
  R.UNROLLED_INIT N m k st = R.Read_ (mkType N false) m st.
Proof.
  intros Hk Hn. unfold R.UNROLLED_INIT, R.Read_. destruct (R.ReadByte st) as [[b st']| |]; cbn [rbind]; try reflexivity. constants. cbn [bits].
  destruct (b >? 127); [unfold convert; cbn [bits is_signed]; rewrite uN_uN; reflexivity|].
  rewrite Hn, Read_loop_tail, Hk by lia. rewrite uN_lor_uN, Z.shiftl_0_r by lia. reflexivity.
Qed.
End Unrolled.

Lemma Read32_loop m st : R.Read32 m st = R.Read_ uint32_t m st.
Proof.
  apply (INIT_tail 32 m ltac:(lia) 31); [|reflexivity]. intros. do 3 (apply (BODY_tail 32 m ltac:(lia)); [lia|intros]). apply (END_tail 32 m ltac:(lia)). lia.
Qed.

Lemma Read64_loop m st : R.Read64 m st = R.Read_ uint64_t m st.
Proof.
  apply (INIT_tail 64 m ltac:(lia) 63); [|reflexivity]. intros. do 8 (apply (BODY_tail 64 m ltac:(lia)); [lia|intros]). apply (END_tail 64 m ltac:(lia)). lia.
Qed.

(** C32. The unrolled readers are the loop.  On every stream [Read32] and [Read64]
    return what the loop [Read<uint32_t>] and [Read<uint64_t>] returns, and fail on
    the same bytes: a shift beyond the width in the loop is the failed assertion of
    the unrolled form. *)
Theorem unrolled_reads_are_the_loop m st :
  R.Read32 m st = R.Read_ uint32_t m st /\ R.Read64 m st = R.Read_ uint64_t m st.
Proof. split; [apply Read32_loop|apply Read64_loop]. Qed.

(** *** LEB128 *)

Lemma more_byte d : is_digit d -> ((d + 128) .& 127 = d) /\ negb (((d + 128) .& 128) =? 0) = true.
Proof.
  unfold is_digit. intros H. rewrite land_127, land_more by (unfold is_uN; change (2 ^ 8) with 256; lia). split.
  - replace (d + 128) with (d + 1 * 128) by lia. rewrite Z.mod_add, Z.mod_small by lia. reflexivity.
  - rewrite (proj2 (Z.ltb_ge _ _)) by lia. reflexivity.
Qed.

Lemma last_byte d : is_digit d -> (d .& 127 = d) /\ negb ((d .& 128) =? 0) = false.
Proof.
  unfold is_digit. intros H. rewrite land_127, land_more, Z.mod_small by (unfold is_uN; change (2 ^ 8) with 256; lia). split; [reflexivity|].
  rewrite (proj2 (Z.ltb_lt _ _)) by lia. reflexivity.
Qed.

Lemma ReadLEB128_loop_reads N d (Hd : is_digit d) : forall ds n r s,
  Forall is_digit ds -> 0 <= s -> 0 <= r < 2 ^ s -> s + 7 * Z.of_nat (length ds) < N -> (length ds < n)%nat ->
  reads (R.ReadLEB128_loop N n r s) (map (fun d => d + 128) ds ++ [d])
    (uN N (r + 2 ^ s * value (ds, d)), s + 7 * (Z.of_nat (length ds) + 1), d).
Proof.
  induction ds as [|x ds IH]; intros n r s Hds Hs Hr Hw Hn st l H E; (destruct n as [|n]; [cbn in Hn; lia|]); cbn [R.ReadLEB128_loop]; constants;
    cbn [length] in Hw; rewrite (proj2 (Z.ltb_lt s N)) by lia; cbn [map app] in E; next H E.
  - destruct (last_byte d Hd) as [-> ->]. rewrite (proj2 (Z.ltb_lt (s + 7) (7 + N))) by lia. rewrite lor_wrap, uN_uN by lia.
    unfold value. cbn [fold_right fst snd length].
    replace (r + d * 2 ^ s) with (r + 2 ^ s * d) by lia. replace (s + 7 * (Z.of_nat 0 + 1)) with (s + 7) by (cbn; lia). reflexivity.
  - inversion Hds as [|? ? Hx Hds']; subst. destruct (more_byte x Hx) as [-> ->]. rewrite lor_wrap, uN_uN by lia.
    assert (2 ^ (s + 7) = 2 ^ s * 128) as E7 by (rewrite Z.pow_add_r by lia; reflexivity). unfold is_digit in Hx.
    pose proof (Z.pow_le_mono_r 2 (s + 7) N ltac:(lia) ltac:(lia)).
    rewrite (uN_small N (r + x * 2 ^ s)) by (unfold is_uN; nia).
    rewrite (IH n (r + x * 2 ^ s) (s + 7) Hds' ltac:(lia) ltac:(nia) ltac:(lia) ltac:(cbn in Hn; lia) _ l H E), advanced_advanced.
    unfold value. cbn [fold_right fst snd length map app]. rewrite E7, Nat2Z.inj_succ.
    set (w := fold_right _ _ _). replace (r + x * 2 ^ s + 2 ^ s * 128 * w) with (r + 2 ^ s * (x + 128 * w)) by nia.
    replace (s + 7 + 7 * (Z.of_nat (length ds) + 1)) with (s + 7 * (Z.succ (Z.of_nat (length ds)) + 1)) by lia. reflexivity.
Qed.

Lemma ReadLEB128_reads T ds d : is_digit d -> Forall is_digit ds -> 7 * Z.of_nat (length ds) < bits T ->
  reads (R.ReadLEB128 T) (map (fun d => d + 128) ds ++ [d]) (convert T (value (ds, d))).
Proof.
  intros Hd Hds Hw st l H E. unfold R.ReadLEB128.
  rewrite (ReadLEB128_loop_reads (bits T) d Hd ds (Z.to_nat (bits T)) 0 0 Hds ltac:(lia) ltac:(cbn; lia) ltac:(lia) ltac:(lia) st l H E). cbn [rbind].
  rewrite convert_uN by lia. change (2 ^ 0) with 1. rewrite Z.add_0_l, Z.mul_1_l. reflexivity.
Qed.

Lemma digit_mod x : is_digit (x mod 128).
Proof. apply Z.mod_pos_bound. lia. Qed.

Lemma value_last ds l : value (ds, l mod 128) = value (ds, l) - 128 ^ Z.of_nat (length ds) * (l - l mod 128).
Proof.
  unfold value. cbn [fst snd]. induction ds as [|d ds IH]; cbn [fold_right length]; [change (128 ^ Z.of_nat 0) with 1; lia|].
  rewrite IH, Nat2Z.inj_succ, Z.pow_succ_r by lia. lia.
Qed.

Lemma pow_128 n : 128 ^ Z.of_nat n = 2 ^ (7 * Z.of_nat n).
Proof. rewrite Z.pow_mul_r by lia. reflexivity. Qed.

Lemma value_bounds ds l : Forall is_digit ds -> 2 ^ (7 * Z.of_nat (length ds)) * l <= value (ds, l) < 2 ^ (7 * Z.of_nat (length ds)) * (l + 1).
Proof.
  intros H. rewrite <- pow_128. unfold value. cbn [fst snd]. induction H as [|d ds Hd _ IH]; cbn [fold_right length]; [change (128 ^ Z.of_nat 0) with 1; lia|].
  rewrite Nat2Z.inj_succ, Z.pow_succ_r by lia. unfold is_digit in Hd. lia.
Qed.

(** The sign extension of [ReadSLEB128]. *)
Lemma ReadSLEB128_reads T ds l : 0 < bits T -> -64 <= l <= 63 -> Forall is_digit ds -> 7 * Z.of_nat (length ds) < bits T ->
  reads (R.ReadSLEB128 T) (leb (ds, l)) (convert T (value (ds, l))).
Proof.
  intros HN Hl Hds Hw st t H E. unfold R.ReadSLEB128, leb in *. cbn [fst snd] in *. set (N := bits T) in *. set (s := 7 * (Z.of_nat (length ds) + 1)).
  rewrite (ReadLEB128_loop_reads N (l mod 128) (digit_mod l) ds (Z.to_nat N) 0 0 Hds ltac:(lia) ltac:(cbn; lia) ltac:(lia) ltac:(lia) st t H E). cbn [rbind]. constants.
  change (2 ^ 0) with 1. rewrite !Z.add_0_l, Z.mul_1_l. fold s. f_equal. f_equal.
  pose proof (value_bounds ds l Hds) as B. rewrite value_last, pow_128, land_sign by apply digit_mod. set (V := value (ds, l)) in *.
  assert (2 ^ s = 2 ^ (7 * Z.of_nat (length ds)) * 128) as Es by (unfold s; rewrite <- (Z.pow_add_r 2 _ 7) by lia; f_equal; lia).
  set (P := 2 ^ (7 * Z.of_nat (length ds))) in *. assert (0 < P) by (apply Z.pow_pos_nonneg; lia).
  destruct (Z.lt_ge_cases l 0) as [Hneg|Hpos].
  - assert (l mod 128 = l + 128) as -> by (rewrite <- (Z.mod_add l 1 128), Z.mod_small by lia; lia).
    rewrite (proj2 (Z.ltb_ge (l + 128) 64)) by lia. cbn [Z.eqb negb andb]. replace (V - P * (l - (l + 128))) with (V + 2 ^ s) by lia.
    destruct (Z.ltb_spec s N).
    + assert (2 ^ s < 2 ^ N) by (apply Z.pow_lt_mono_r; lia). rewrite Z.shiftl_1_l, (uN_small N (2 ^ s)), (uN_small N (V + 2 ^ s)) by (unfold is_uN; nia).
      replace (Z.lnot (2 ^ s - 1)) with ((-1) << s) by (rewrite Z.shiftl_mul_pow2 by (unfold s; lia); unfold Z.lnot; lia).
      rewrite uN_shift by (unfold s in *; lia). rewrite lor_disjoint by (unfold s in *; nia). rewrite <- (convert_uN T (V + _ + _)) by exact HN. fold N.
      rewrite <- Z.shiftl_mul_pow2 by (unfold s; lia). rewrite <- uN_shift, uN_add_r by (unfold s in *; lia). rewrite Z.shiftl_mul_pow2 by (unfold s; lia).
      replace (V + 2 ^ s + -1 * 2 ^ s) with V by lia. apply convert_uN, HN.
    + rewrite Z.lor_0_r, convert_uN by exact HN. rewrite <- (convert_uN T (V + 2 ^ s)), <- (convert_uN T V) by exact HN. fold N. f_equal.
      replace (2 ^ s) with (2 ^ (s - N) * 2 ^ N) by (rewrite <- Z.pow_add_r by lia; f_equal; lia). apply uN_add_mult.
  - rewrite (Z.mod_small l) by lia. rewrite (proj2 (Z.ltb_lt l 64)) by lia. cbn [Z.eqb negb andb]. rewrite Z.lor_0_r, convert_uN by exact HN. f_equal. lia.
Qed.

(** *** Reference ids: big endian *)

Definition horner (acc : Z) (l : list Z) : Z := fold_left (fun a d => d + a * 128) l acc.

Lemma sN_8_digit d : is_digit d -> sN 8 d = d.
Proof. unfold is_digit. intros H. apply sN_small; [lia|]. unfold is_sN. change (2 ^ (8 - 1)) with 128. lia. Qed.

Lemma sN_8_last d : is_digit d -> sN 8 (d + 128) = d - 128.
Proof.
  unfold is_digit. intros H. replace (d + 128) with ((d - 128) + 1 * 2 ^ 8) by lia. rewrite sN_add_mult. apply sN_small; [lia|].
  unfold is_sN. change (2 ^ (8 - 1)) with 128. lia.
Qed.

Lemma ReadRefId_stages_reads last (Hl : is_digit last) : forall ds n acc, Forall is_digit ds -> (length ds < n)%nat ->
  reads (R.ReadRefId_stages n acc) (ds ++ [last + 128]) (horner acc (ds ++ [last])).
Proof.
  induction ds as [|d ds IH]; intros n acc Hds Hn st l H E; (destruct n as [|n]; [cbn in Hn; lia|]); cbn [R.ReadRefId_stages app] in *; next H E.
  - rewrite sN_8_last, Z.shiftl_mul_pow2 by (assumption || lia). unfold is_digit in Hl. rewrite (proj2 (Z.ltb_lt _ _)) by lia.
    cbn [horner fold_left length]. change (2 ^ 7) with 128. replace (last - 128 + acc * 128 + 128) with (last + acc * 128) by lia. reflexivity.
  - inversion Hds as [|? ? Hd Hds']; subst. rewrite sN_8_digit, Z.shiftl_mul_pow2 by (assumption || lia). unfold is_digit in Hd.
    rewrite (proj2 (Z.ltb_ge _ _)) by lia. change (2 ^ 7) with 128. rewrite (IH n _ Hds' ltac:(cbn in Hn; lia) _ l H E), advanced_advanced. reflexivity.
Qed.

Definition refid_prefix (v : Z) : list Z :=
  (if v / 2 ^ 21 =? 0 then [] else [v / 2 ^ 21 mod 128]) ++ (if v / 2 ^ 14 =? 0 then [] else [v / 2 ^ 14 mod 128]) ++
  (if v / 2 ^ 7 =? 0 then [] else [v / 2 ^ 7 mod 128]).
Definition refid (v : Z) : list Z := refid_prefix v ++ [v mod 128 + 128].

Lemma refid_prefix_spec v : 0 <= v < 2 ^ 28 ->
  Forall is_digit (refid_prefix v) /\ (length (refid_prefix v) < 4)%nat /\ horner 0 (refid_prefix v ++ [v mod 128]) = v.
Proof.
  intros Hv. unfold refid_prefix. change (2 ^ 28) with 268435456 in Hv. change (2 ^ 21) with 2097152. change (2 ^ 14) with 16384. change (2 ^ 7) with 128.
  destruct (Z.eqb_spec (v / 2097152) 0), (Z.eqb_spec (v / 16384) 0), (Z.eqb_spec (v / 128) 0); cbn [app length horner fold_left];
    (split; [repeat (apply Forall_nil || apply Forall_cons); apply digit_mod|split; [lia|]]); Z.div_mod_to_equations; lia.
Qed.

Lemma ReadRefId_reads v : 0 <= v < 2 ^ 28 -> reads R.ReadRefId (refid v) v.
Proof.
  intros Hv. destruct (refid_prefix_spec v Hv) as (Hd & Hn & E).
  pose proof (ReadRefId_stages_reads (v mod 128) (digit_mod v) (refid_prefix v) 4 0 Hd Hn) as H. rewrite E in H. exact H.
Qed.

(** ** Writing *)
Section Writing.
Context {W : Type} `{ByteSink W}.

(** [f] appends [bs], or memory runs out. *)
Definition writes (f : W -> written W) (bs : list Z) : Prop :=
  forall w, sound w -> f w = ThrowOOM \/ exists w', f w = Wrote w' /\ sound w' /\ contents w' = contents w ++ bs.

Lemma writes_byte b : is_byte b -> writes (WriteByte b) [b].
Proof. intros Hb w Hw. apply WriteByte_appends; assumption. Qed.

Lemma writes_nothing : writes Wrote [].
Proof. intros w Hw. right. exists w. rewrite app_nil_r. auto. Qed.

Lemma writes_bind f k bs cs : writes f bs -> writes k cs -> writes (fun w => let^ w := f w in k w) (bs ++ cs).
Proof.
  intros Hf Hk w Hw. destruct (Hf w Hw) as [->|(w1 & -> & H1 & E1)]; [left; reflexivity|]. cbn [wbind].
  destruct (Hk w1 H1) as [->|(w2 & -> & H2 & E2)]; [left; reflexivity|]. right. exists w2. rewrite E2, E1, app_assoc. auto.
Qed.

Lemma writes_same f g bs : (forall w, f w = g w) -> writes f bs -> writes g bs.
Proof. intros E Hf w Hw. rewrite <- E. exact (Hf w Hw). Qed.

Lemma digit_byte d : is_digit d -> is_byte d.
Proof. unfold is_digit, is_byte, is_uN. change (2 ^ 8) with 256. lia. Qed.
Lemma digit_more_byte d : is_digit d -> is_byte (d + 128).
Proof. unfold is_digit, is_byte, is_uN. change (2 ^ 8) with 256. lia. Qed.

Lemma WriteUnsigned_loop_writes n : forall w v, is_uN w v -> 0 < w -> w <= 7 * Z.of_nat n ->
  writes (WriteUnsigned_loop n v) (marked 128 (digits stop_unsigned n v)).
Proof.
  induction n as [|n IH]; intros w v Hv Hw Hn; [lia|]. cbn [WriteUnsigned_loop digits]. unfold stop_unsigned at 1. constants.
  pose proof (proj1 Hv). destruct (Z.leb_spec v 127).
  - replace (v >? 127) with false by lia. unfold marked. cbn [fst snd app]. rewrite uN_small by (unfold is_uN; change (2 ^ 8) with 256; lia).
    apply writes_byte. unfold is_byte, is_uN. change (2 ^ 8) with 256. lia.
  - replace (v >? 127) with true by lia. rewrite land_127, shiftr_7, uN_small by apply (digit_byte _ (digit_mod v)).
    assert (7 < w) as H7 by (destruct (Z.lt_ge_cases 7 w) as [|L]; [assumption|pose proof (unsigned_stop w v Hv ltac:(lia)) as K; unfold stop_unsigned in K; lia]).
    specialize (IH (w - 7) (v / 128) (unsigned_next w v Hv H7) ltac:(lia) ltac:(lia)). destruct (digits stop_unsigned n (v / 128)) as [ds l].
    unfold marked in *. cbn [fst snd app] in *. apply (writes_bind _ _ [_] _ (writes_byte _ (digit_byte _ (digit_mod v))) IH).
Qed.

Lemma Write_loop_writes n : forall w v, is_sN w v -> 0 < w -> w <= 7 * Z.of_nat n ->
  writes (Write_loop n v) (marked 192 (digits stop_signed n v)).
Proof.
  induction n as [|n IH]; intros w v Hv Hw Hn; [lia|]. cbn [Write_loop digits]. constants. destruct (stop_signed v) eqn:S.
  - replace ((v <? -64) || (v >? 63)) with false by (unfold stop_signed in S; lia). unfold marked. cbn [fst snd app].
    assert (is_byte (v + 192)) as Hb by (unfold is_byte, is_uN, stop_signed in *; change (2 ^ 8) with 256; lia). rewrite uN_small by exact Hb. apply writes_byte, Hb.
  - replace ((v <? -64) || (v >? 63)) with true by (unfold stop_signed in S; lia). rewrite land_127, shiftr_7, uN_small by apply (digit_byte _ (digit_mod v)).
    assert (7 < w) as H7 by (destruct (Z.lt_ge_cases 7 w) as [|L]; [assumption|rewrite (signed_stop w v Hv) in S by lia; discriminate]).
    specialize (IH (w - 7) (v / 128) (signed_next w v Hv H7) ltac:(lia) ltac:(lia)). destruct (digits stop_signed n (v / 128)) as [ds l].
    unfold marked in *. cbn [fst snd app] in *. apply (writes_bind _ _ [_] _ (writes_byte _ (digit_byte _ (digit_mod v))) IH).
Qed.

Lemma WriteLEB128_loop_writes N n : forall w v, is_uN w v -> 0 < w <= N -> w <= 7 * Z.of_nat n ->
  writes (WriteLEB128_loop N n v) (leb (digits stop_unsigned n v)).
Proof.
  induction n as [|n IH]; intros w v Hv Hw Hn; [lia|]. cbn [WriteLEB128_loop digits]. unfold stop_unsigned at 1. constants. cbv zeta.
  rewrite land_127, shiftr_7, (uN_small 8) by apply (digit_byte _ (digit_mod v)). pose proof (proj1 Hv) as H0.
  rewrite (uN_small N (v / 128)) by (destruct Hv; split; [apply Z.div_pos; lia|]; pose proof (Z.pow_le_mono_r 2 w N); apply Z.div_lt_upper_bound; nia).
  destruct (Z.leb_spec v 127).
  - rewrite (Z.div_small v 128) by lia. cbn [Z.eqb negb]. unfold leb. cbn [fst snd map app].
    rewrite <- (app_nil_r [v mod 128]). apply (writes_bind _ _ [_] []); [apply writes_byte, digit_byte, digit_mod|apply writes_nothing].
  - assert ((v / 128 =? 0) = false) as -> by (apply Z.eqb_neq; intros E; apply Z.div_small_iff in E; lia). cbn [negb]. rewrite lor_128 by apply digit_mod.
    assert (7 < w) as H7 by (destruct (Z.lt_ge_cases 7 w) as [|L]; [assumption|pose proof (unsigned_stop w v Hv ltac:(lia)) as K; unfold stop_unsigned in K; lia]).
    specialize (IH (w - 7) (v / 128) (unsigned_next w v Hv H7) ltac:(lia) ltac:(lia)). destruct (digits stop_unsigned n (v / 128)) as [ds l].
    unfold leb in *. cbn [fst snd map app] in *. apply (writes_bind _ _ [_] _ (writes_byte _ (digit_more_byte _ (digit_mod v))) IH).
Qed.

Lemma lor_sign k x : 0 <= k -> - 2 ^ k <= x < 0 -> x .| Z.lnot (2 ^ k - 1) = x.
Proof.
  intros Hk Hx. replace (Z.lnot (2 ^ k - 1)) with ((-1) << k) by (rewrite Z.shiftl_mul_pow2 by lia; unfold Z.lnot; lia).
  apply Z.bits_inj'. intros i Hi. rewrite Z.lor_spec, testbit_shiftl by lia. destruct (Z.ltb_spec i k); [apply orb_false_r|].
  rewrite (testbit_is_sN (k + 1) x i) by (unfold is_sN; replace (k + 1 - 1) with k by lia; lia).
  rewrite (proj2 (Z.ltb_lt x 0)) by lia. reflexivity.
Qed.

Lemma WriteSLEB128_loop_writes N n : 7 < N -> forall w v, is_sN w v -> 0 < w <= N -> w <= 7 * Z.of_nat n ->
  writes (WriteSLEB128_loop N n (v <? 0) v) (leb (digits stop_signed n v)).
Proof.
  intros HN. induction n as [|n IH]; intros w v Hv Hw Hn; [lia|]. cbn [WriteSLEB128_loop digits]. constants. cbv zeta.
  rewrite land_127, shiftr_7, (uN_small 8), land_sign by (apply digit_mod || apply (digit_byte _ (digit_mod v))).
  assert (writes (fun w => let^ w := WriteByte (if negb (stop_signed v) then v mod 128 .| 128 else v mod 128) w in
    if stop_signed v then Wrote w else WriteSLEB128_loop N n (v <? 0) (v / 128) w) (leb (if stop_signed v then ([], v) else let (ds, l) := digits stop_signed n (v / 128) in (v mod 128 :: ds, l)))) as Hc.
  { destruct (stop_signed v) eqn:S; cbn [negb].
    - unfold leb. cbn [fst snd map app]. rewrite <- (app_nil_r [v mod 128]). apply (writes_bind _ _ [_] []); [apply writes_byte, digit_byte, digit_mod|apply writes_nothing].
    - rewrite lor_128 by apply digit_mod.
      assert (7 < w) as H7 by (destruct (Z.lt_ge_cases 7 w) as [|L]; [assumption|rewrite (signed_stop w v Hv) in S by lia; discriminate]).
      specialize (IH (w - 7) (v / 128) (signed_next w v Hv H7) ltac:(lia) ltac:(lia)).
      replace (v / 128 <? 0) with (v <? 0) in IH by (Z.div_mod_to_equations; lia).
      destruct (digits stop_signed n (v / 128)) as [ds l]. unfold leb in *. cbn [fst snd map app] in *.
      apply (writes_bind _ _ [_] _ (writes_byte _ (digit_more_byte _ (digit_mod v))) IH). }
  destruct (Z.ltb_spec v 0) as [Hneg|Hpos].
  - assert (sN N ((1 << (N - 7)) - 1) = 2 ^ (N - 7) - 1) as ->.
    { rewrite Z.shiftl_1_l. apply sN_small; [lia|]. unfold is_sN. pose proof (Z.pow_pos_nonneg 2 (N - 7)). pose proof (Z.pow_le_mono_r 2 (N - 7) (N - 1)). lia. }
    rewrite lor_sign; cycle 1. { lia. }
    { assert (is_sN (N - 6) (v / 128)) as B.
      { assert (is_sN N v) as B by (eapply is_sN_mono; [|exact Hv]; lia). unfold is_sN in *. rewrite (pow2_128 (N - 1)) in B by lia.
        replace (N - 6 - 1) with (N - 7) by lia. replace (N - 7) with (N - 1 - 7 + 1) by lia. rewrite Z.pow_add_r by lia. Z.div_mod_to_equations. lia. }
      unfold is_sN in B. replace (N - 6 - 1) with (N - 7) in B by lia. Z.div_mod_to_equations. lia. }
    rewrite (proj2 (Z.ltb_lt (v / 128) 0)) by (Z.div_mod_to_equations; lia).
    replace ((v / 128 =? -1) && negb ((if v mod 128 <? 64 then 0 else 64) =? 0)) with (stop_signed v); [exact Hc|].
    unfold stop_signed. Z.div_mod_to_equations. destruct (Z.ltb_spec r 64); cbn [Z.eqb negb]; lia.
  - replace (v / 128 >=? 0) with true by (Z.div_mod_to_equations; lia).
    replace ((v / 128 =? 0) && ((if v mod 128 <? 64 then 0 else 64) =? 0)) with (stop_signed v); [exact Hc|].
    unfold stop_signed. Z.div_mod_to_equations. destruct (Z.ltb_spec r 64); cbn [Z.eqb negb]; lia.
Qed.

(** Fixed width: five bytes whatever the value. *)
Definition fixed5 (v : Z) : list Z * Z := ([v mod 128; v / 128 mod 128; v / 128 / 128 mod 128; v / 128 / 128 / 128 mod 128], v / 128 / 128 / 128 / 128).

Lemma WriteFixed5LEB128_writes v : 0 <= v < 2 ^ 35 -> writes (WriteFixed5LEB128 v) (leb (fixed5 v)).
Proof.
  intros Hv. unfold WriteFixed5LEB128. constants. cbv zeta. rewrite (proj2 (Z.geb_le v 0)) by lia. rewrite !shiftr_7, !land_127, !lor_128 by apply digit_mod.
  rewrite !uN_small by (apply digit_more_byte, digit_mod || apply digit_byte, digit_mod).
  replace (v / 128 / 128 / 128 / 128 / 128 =? 0) with true by (change (2 ^ 35) with 34359738368 in Hv; Z.div_mod_to_equations; lia).
  unfold leb, fixed5. cbn [fst snd map app].
  do 4 (apply (writes_bind _ _ [_] _ (writes_byte _ (digit_more_byte _ (digit_mod _))))).
  apply (writes_bind _ _ [_] [] (writes_byte _ (digit_byte _ (digit_mod _)))), writes_nothing.
Qed.
End Writing.
