(* ===== verification/DataStreamBuffer.v ===== *)
(** * Data streams: the buffer and the round trip

    The growing buffer of the write streams implements the byte sink the codecs are
    proved against; messages written to any of the streams are read back. *)

From Stdlib Require Import ZArith Bool List Lia ZifyBool.
From S2P Require Import Prelude Utils Result DataStream DataStreamProofs.
Import ListNotations.
Open Scope Z_scope.
Open Scope cint_scope.

Module S := WriteStream.

(** ** Rounding *)

Lemma RoundDown_spec k x : 0 <= k < 63 -> 0 <= x < 2 ^ 63 -> RoundDown x (2 ^ k) = Some (x / 2 ^ k * 2 ^ k).
Proof.
  intros Hk Hx. unfold RoundDown. pose proof (Z.pow_pos_nonneg 2 k). pose proof (Z.pow_lt_mono_r 2 k 64).
  rewrite (proj2 (IsPowerOfTwo_pow2 (2 ^ k) ltac:(unfold is_uN; lia))) by (exists k; lia). f_equal.
  assert (is_uN 64 x) as Ux by (unfold is_uN; change (2 ^ 63) with 9223372036854775808 in Hx; change (2 ^ 64) with 18446744073709551616; lia).
  rewrite (uN_small 64 x Ux).
  replace (u64 (- 2 ^ k)) with (uN 64 ((-1) << k)) by (rewrite Z.shiftl_mul_pow2 by lia; f_equal; lia).
  assert (x .& uN 64 ((-1) << k) = (x >> k) << k) as ->.
  { apply Z.bits_inj'. intros i Hi. rewrite Z.land_spec, testbit_uN, !testbit_shiftl by lia. destruct (Z.ltb_spec i k).
    - rewrite andb_false_r. apply andb_false_r.
    - rewrite testbit_shiftr by lia. replace (i - k + k) with i by lia. destruct (Z.ltb_spec i 64).
      + rewrite Z.bits_m1 by lia. apply andb_true_r.
      + rewrite (testbit_uN_high 64 x i Ux) by lia. reflexivity. }
  rewrite Z.shiftl_mul_pow2, Z.shiftr_div_pow2 by lia. apply sN_small; [lia|]. unfold is_sN. change (64 - 1) with 63.
  change (2 ^ 63) with 9223372036854775808 in *.
  pose proof (Z.div_mod x (2 ^ k) ltac:(lia)). pose proof (Z.mod_pos_bound x (2 ^ k) ltac:(lia)). pose proof (Z.div_pos x (2 ^ k) ltac:(lia) ltac:(lia)). nia.
Qed.

Lemma RoundUp_spec k x o : 0 <= k <= 60 -> 0 <= o < 2 ^ k -> 0 <= x < 2 ^ 61 ->
  exists r, RoundUp x (2 ^ k) o = Some r /\ x <= r < x + 2 ^ k /\ (r + o) mod 2 ^ k = 0.
Proof.
  intros Hk Ho Hx. unfold RoundUp. rewrite (proj2 (Z.ltb_lt o (2 ^ k))) by lia.
  pose proof (Z.pow_le_mono_r 2 k 60 ltac:(lia) ltac:(lia)) as P. change (2 ^ 60) with 1152921504606846976 in P. change (2 ^ 61) with 2305843009213693952 in Hx.
  set (y := x + 2 ^ k - 1 + o). assert (0 <= y < 2 ^ 63) as Hy by (unfold y; change (2 ^ 63) with 9223372036854775808; lia).
  assert (is_sN 64 y) as Sy by (unfold is_sN; change (64 - 1) with 63; lia). rewrite (sN_small 64 y) by (lia || exact Sy).
  rewrite (RoundDown_spec k y) by lia. cbn [option_map]. pose proof (Z.div_mod y (2 ^ k) ltac:(lia)) as D. pose proof (Z.mod_pos_bound y (2 ^ k) ltac:(lia)) as M.
  assert (x + o <= y / 2 ^ k * 2 ^ k <= y) as B by (unfold y in *; lia).
  exists (y / 2 ^ k * 2 ^ k - o). split.
  - f_equal. apply sN_small; [lia|]. unfold is_sN. change (64 - 1) with 63. change (2 ^ 63) with 9223372036854775808. unfold y in *. lia.
  - split; [unfold y in *; lia|]. rewrite Z.sub_add. apply Z.mod_mul. lia.
Qed.

(** ** What the allocator promises *)

Definition kMaxAllocation : Z := 2 ^ 57.

Record allocator (realloc : option (list Z) -> Z -> option (list Z)) : Prop := {
  a_length : forall b n b', realloc b n = Some b' -> Z.of_nat (length b') = n;
  a_limit : forall b n b', realloc b n = Some b' -> n <= kMaxAllocation;
  a_keeps : forall b n b' k, realloc b n = Some b' -> (k <= length (S.bytes_of b))%nat -> Z.of_nat k <= n ->
    firstn k b' = firstn k (S.bytes_of b)
}.

Section Buffer.
Context (realloc : option (list Z) -> Z -> option (list Z)) (A : allocator realloc).

(** Everything written so far: what was flushed and what is in the buffer. *)
Definition flushed (st : S.t) : list Z := match S.kind_ st with S.NonStreaming => [] | S.Streaming sink _ => sink end.
Definition buffered (st : S.t) : list Z := firstn (Z.to_nat (S.current_ st)) (S.bytes_of (S.buffer_ st)).
Definition everything (st : S.t) : list Z := flushed st ++ buffered st.

Record well_formed (st : S.t) : Prop := {
  s_initial : exists k, 0 <= k <= 57 /\ S.initial_size_ st = 2 ^ k;
  s_capacity : S.capacity_ st = Z.of_nat (length (S.bytes_of (S.buffer_ st))) /\ S.capacity_ st <= kMaxAllocation;
  s_current : 0 <= S.current_ st <= S.capacity_ st;
  s_flushed : match S.kind_ st with S.NonStreaming => True | S.Streaming sink n => n = Z.of_nat (length sink) end
}.

Lemma Position_everything st : well_formed st -> S.Position st = Z.of_nat (length (everything st)).
Proof.
  intros [_ [E _] C F]. unfold S.Position, S.BasePosition, everything, flushed, buffered. rewrite length_app, length_firstn.
  destruct (S.kind_ st); cbn [length]; [lia|]. rewrite F. lia.
Qed.

Lemma Flush_spec st : well_formed st -> well_formed (S.Flush st) /\ everything (S.Flush st) = everything st.
Proof.
  intros [I [E L] C F]. unfold S.Flush. destruct (S.kind_ st) as [|sink n] eqn:K; [split; [split; auto; rewrite ?K; auto|reflexivity]|]. split.
  - split; cbn; auto; [lia|]. rewrite length_app, length_firstn, F. lia.
  - unfold everything, flushed, buffered. cbn. rewrite K, app_nil_r. reflexivity.
Qed.

(** Room for [n] bytes, with the same contents, or no memory. *)
Definition enlarged (n : Z) (st st' : S.t) : Prop :=
  well_formed st' /\ everything st' = everything st /\ n <= S.Remaining st' /\
  (S.kind_ st = S.NonStreaming -> S.kind_ st' = S.NonStreaming /\ S.current_ st' = S.current_ st).

Lemma EnsureSpace_spec n st : well_formed st -> 0 <= n <= kMaxAllocation ->
  S.EnsureSpace realloc n st = ThrowOOM \/ exists st', S.EnsureSpace realloc n st = Wrote st' /\ enlarged n st st'.
Proof.
  intros Wf Hn. unfold S.EnsureSpace. destruct (Z.geb_spec (S.Remaining st) n) as [G|G].
  { right. exists st. split; [reflexivity|]. split; [exact Wf|]. split; [reflexivity|]. split; [lia|auto]. }
  pose proof Wf as [[k [Hk Ek]] [E L] C F]. unfold kMaxAllocation in *. change (2 ^ 57) with 144115188075855872 in *.
  assert (exists i, (if n >? S.capacity_ st then RoundUp n (S.initial_size_ st) 0 else Some (S.capacity_ st)) = Some i /\ n <= i <= 288230376151711744 /\ 0 < i) as (i & -> & Hi & Hi0).
  { unfold S.Remaining, S.BasePosition in G. destruct (Z.gtb_spec n (S.capacity_ st)); [|exists (S.capacity_ st); split; [reflexivity|lia]].
    rewrite Ek. pose proof (Z.pow_pos_nonneg 2 k). destruct (RoundUp_spec k n 0 ltac:(lia) ltac:(lia)) as (r & -> & Hr & _).
    - change (2 ^ 61) with 2305843009213693952. lia.
    - pose proof (Z.pow_le_mono_r 2 k 57 ltac:(lia) ltac:(lia)). change (2 ^ 57) with 144115188075855872 in *. exists r. split; [reflexivity|lia]. }
  rewrite (proj2 (Z.leb_le _ kMaxInt64)) by (change kMaxInt64 with 9223372036854775807; lia). rewrite (proj2 (Z.gtb_lt _ _)) by lia.
  set (new_size := S.capacity_ st + i).
  unfold S.Realloc. destruct (S.kind_ st) as [|sink f] eqn:K.
  - destruct (realloc (S.buffer_ st) new_size) as [b'|] eqn:R; cbn [wbind S.buffer_]; [|left; reflexivity]. right.
    rewrite (proj2 (Z.geb_le _ _)) by (unfold S.Remaining, S.BasePosition in *; cbn; unfold new_size; lia). eexists. split; [reflexivity|].
    pose proof (a_length _ A _ _ _ R) as La. pose proof (a_limit _ A _ _ _ R). unfold kMaxAllocation in *.
    split; [split; cbn; [eauto|split; [lia|assumption]|unfold new_size in *; lia|exact Logic.I]|].
    split; [|split; [unfold S.Remaining, S.BasePosition in *; cbn; unfold new_size; lia|cbn; auto]].
    unfold everything, flushed, buffered. cbn. rewrite K. cbn. apply (a_keeps _ A _ _ _ _ R); unfold new_size; lia.
  - destruct (Flush_spec st Wf) as [Wf' Ev]. unfold S.Flush in Wf', Ev |- *. rewrite K in *. cbn [S.capacity_ S.buffer_ S.initial_size_ S.kind_] in *.
    rewrite (proj2 (Z.leb_gt _ _)) by (unfold new_size; lia).
    destruct (RoundUp_spec 16 new_size 0 ltac:(lia) ltac:(cbn; lia)) as (r & Er & Hr & _).
    { unfold new_size. change (2 ^ 61) with 2305843009213693952. lia. }
    change (64 * 1024) with (2 ^ 16). rewrite Er. change (2 ^ 16) with 65536 in Hr.
    destruct (realloc (S.buffer_ st) r) as [b'|] eqn:R; cbn [wbind S.buffer_]; [|left; reflexivity]. right.
    unfold S.Remaining, S.BasePosition in *. cbn [S.capacity_ S.current_] in *.
    rewrite (proj2 (Z.geb_le _ _)) by (unfold new_size in *; lia). eexists. split; [reflexivity|].
    pose proof (a_length _ A _ _ _ R) as La. pose proof (a_limit _ A _ _ _ R). destruct Wf' as [_ _ _ F']. cbn [S.kind_] in F'.
    split; [split; cbn [S.initial_size_ S.capacity_ S.buffer_ S.bytes_of S.current_ S.kind_]; [eauto|split; [lia|assumption]|unfold new_size in *; lia|exact F']|].
    split; [|split; [unfold S.Remaining, S.BasePosition; cbn [S.capacity_ S.current_]; unfold new_size in *; lia|congruence]].
    rewrite <- Ev. unfold everything, flushed, buffered. cbn. reflexivity.
Qed.

Lemma put_spec bytes st : well_formed st -> Z.of_nat (length bytes) <= S.Remaining st ->
  well_formed (S.put bytes st) /\ everything (S.put bytes st) = everything st ++ bytes /\
  S.Remaining (S.put bytes st) = S.Remaining st - Z.of_nat (length bytes) /\ S.kind_ (S.put bytes st) = S.kind_ st.
Proof.
  intros [I [E L] C F] G. unfold S.Remaining, S.BasePosition in *. unfold S.put. set (c := Z.to_nat (S.current_ st)) in *. set (b := S.bytes_of (S.buffer_ st)) in *.
  assert (length (firstn c b) = c) as Lc by (rewrite length_firstn; lia).
  split; [|split; [|split; [cbn [S.capacity_ S.current_]; lia|reflexivity]]].
  - split; cbn [S.initial_size_ S.capacity_ S.buffer_ S.bytes_of S.current_ S.kind_]; auto; [|lia].
    rewrite !length_app, Lc, length_skipn. lia.
  - unfold everything, flushed, buffered. cbn [S.kind_ S.buffer_ S.bytes_of S.current_]. rewrite <- app_assoc. f_equal.
    replace (Z.to_nat (S.current_ st + Z.of_nat (length bytes))) with (c + length bytes)%nat by lia. fold c b.
    rewrite firstn_app, Lc, firstn_all2 by lia. replace (c + length bytes - c)%nat with (length bytes) by lia.
    rewrite firstn_app, Nat.sub_diag, firstn_all, firstn_O, app_nil_r. reflexivity.
Qed.

Lemma WriteByte_spec b st : well_formed st -> is_uN 8 b ->
  S.WriteByte_ realloc b st = ThrowOOM \/ exists st', S.WriteByte_ realloc b st = Wrote st' /\ well_formed st' /\ everything st' = everything st ++ [b].
Proof.
  intros Wf _. unfold S.WriteByte_. destruct (EnsureSpace_spec 1 st Wf) as [-> |(st' & -> & W' & E' & R' & _)]; [unfold kMaxAllocation; lia|left; reflexivity|]. right.
  cbn [wbind]. destruct (put_spec [b] st' W' ltac:(cbn; lia)) as (W & E & _). eexists. split; [reflexivity|]. rewrite E, E'. auto.
Qed.

(** The streams are byte sinks. *)
#[export] Instance stream_sink : ByteSink S.t := {
  WriteByte := S.WriteByte_ realloc;
  contents := everything;
  sound := well_formed;
  WriteByte_appends := WriteByte_spec
}.

Lemma WriteBytes_writes bytes : Z.of_nat (length bytes) <= kMaxAllocation -> writes (S.WriteBytes realloc bytes) bytes.
Proof.
  intros H st Wf. unfold S.WriteBytes. destruct (Z.eqb_spec (Z.of_nat (length bytes)) 0) as [E|E]; cbn [negb].
  - right. exists st. destruct bytes; [|discriminate E]. split; [reflexivity|]. rewrite app_nil_r. split; [exact Wf|reflexivity].
  - destruct (EnsureSpace_spec (Z.of_nat (length bytes)) st Wf ltac:(lia)) as [-> |(st' & -> & W' & E' & R' & _)]; [left; reflexivity|]. right. cbn [wbind].
    destruct (put_spec bytes st' W' R') as (W & E1 & _). eexists. split; [reflexivity|]. split; [exact W|]. cbn. rewrite E1, E'. reflexivity.
Qed.

Lemma WriteRefId_writes v : 0 <= v < 2 ^ 28 -> writes (S.WriteRefId realloc v) (refid v).
Proof.
  intros Hv st Wf. unfold S.WriteRefId. change (2 ^ 28) with 268435456 in Hv.
  assert (IsUint 28 v = true) as -> by (unfold IsUint; replace (v <? 0) with false by lia; cbn; lia).
  destruct (EnsureSpace_spec 4 st Wf) as [-> |(st' & -> & W' & E' & R' & _)]; [unfold kMaxAllocation; lia|left; reflexivity|]. right. cbn [wbind].
  rewrite !Z.shiftr_div_pow2, Z.div_1_r, !land_127, lor_128 by (lia || apply digit_mod). unfold refid, refid_prefix.
  assert (forall (c : bool) b s, well_formed s -> 1 <= S.Remaining s -> let s' := if negb c then S.put [b] s else s in
    well_formed s' /\ everything s' = everything s ++ (if c then [] else [b]) /\ S.Remaining s - 1 <= S.Remaining s') as H.
  { intros [|] b s Ws Rs; cbn [negb]; [rewrite app_nil_r; repeat split; auto; (apply Ws || lia)|]. destruct (put_spec [b] s Ws ltac:(cbn; lia)) as (W & E & R & _).
    split; [exact W|]. split; [exact E|]. cbn in R. lia. }
  destruct (H (v / 2 ^ 21 =? 0) (v / 2 ^ 21 mod 128) st' W' ltac:(lia)) as (W1 & E1 & R1). set (s1 := if negb (v / 2 ^ 21 =? 0) then _ else st') in *.
  destruct (H (v / 2 ^ 14 =? 0) (v / 2 ^ 14 mod 128) s1 W1 ltac:(lia)) as (W2 & E2 & R2). set (s2 := if negb (v / 2 ^ 14 =? 0) then _ else s1) in *.
  destruct (H (v / 2 ^ 7 =? 0) (v / 2 ^ 7 mod 128) s2 W2 ltac:(lia)) as (W3 & E3 & R3). set (s3 := if negb (v / 2 ^ 7 =? 0) then _ else s2) in *.
  destruct (put_spec [v mod 128 + 128] s3 W3 ltac:(cbn; lia)) as (W4 & E4 & _). eexists. split; [reflexivity|]. split; [exact W4|].
  cbn [contents stream_sink]. rewrite E4, E3, E2, E1, E', <- !app_assoc. reflexivity.
Qed.
End Buffer.

(** ** Messages *)

(** A value and the codec it is written with. *)
Inductive item :=
  | Unsigned (T : IntType) (v : Z)
  | Signed (T : IntType) (v : Z)
  | LEB128 (T : IntType) (v : Z)
  | SLEB128 (T : IntType) (v : Z)
  | Fixed5LEB128 (v : Z)
  | RefId (v : Z)
  | Raw (size v : Z)
  | WordAs32Bits (v : Z)
  | Bytes (l : list Z).

Definition has_type (T : IntType) (v : Z) : Prop := (bits T = 32 \/ bits T = 64) /\ if is_signed T then is_sN (bits T) v else is_uN (bits T) v.

Definition valid (i : item) : Prop :=
  match i with
  | Unsigned T v | LEB128 T v => has_type T v /\ 0 <= v
  | Signed T v => has_type T v /\ is_signed T = true
  | SLEB128 T v => has_type T v
  | Fixed5LEB128 v => 0 <= v < 2 ^ 35
  | RefId v => 0 <= v < 2 ^ 28
  | Raw size v => (size = 1 \/ size = 2 \/ size = 4 \/ size = 8) /\ is_uN (8 * size) v
  | WordAs32Bits v => is_uN 64 v
  | Bytes l => Z.of_nat (length l) <= kMaxAllocation
  end.

Definition encode (i : item) : list Z :=
  match i with
  | Unsigned T v => marked 128 (digits stop_unsigned (Z.to_nat (bits T)) v)
  | Signed T v => marked 192 (digits stop_signed (Z.to_nat (bits T)) v)
  | LEB128 T v => leb (digits stop_unsigned (Z.to_nat (bits T)) v)
  | SLEB128 T v => leb (digits stop_signed (Z.to_nat (bits T)) (sN (bits T) v))
  | Fixed5LEB128 v => leb (fixed5 v)
  | RefId v => refid v
  | Raw size v => if size =? 1 then [v] else marked 192 (digits stop_signed (Z.to_nat (8 * size)) (sN (8 * size) v))
  | WordAs32Bits v => marked 192 (digits stop_signed 32 (sN 32 v)) ++ marked 192 (digits stop_signed 32 (sN 32 (v / 2 ^ 32)))
  | Bytes l => l
  end.

(** Read an item of the same shape. *)
Definition read_item (i : item) (st : R.t) : result (item * R.t) :=
  match i with
  | Unsigned T _ => let* (v, st) := R.ReadUnsigned T st in Done (Unsigned T v, st)
  | Signed T _ => let* (v, st) := R.Read T st in Done (Signed T v, st)
  | LEB128 T _ => let* (v, st) := R.ReadLEB128 T st in Done (LEB128 T v, st)
  | SLEB128 T _ => let* (v, st) := R.ReadSLEB128 T st in Done (SLEB128 T v, st)
  | Fixed5LEB128 _ => let* (v, st) := R.ReadLEB128 uint64_t st in Done (Fixed5LEB128 v, st)
  | RefId _ => let* (v, st) := R.ReadRefId st in Done (RefId v, st)
  | Raw size _ => let* (v, st) := R.Raw_Read size st in Done (Raw size v, st)
  | WordAs32Bits _ => let* (v, st) := R.ReadWordWith32BitReads st in Done (WordAs32Bits v, st)
  | Bytes l => let* (v, st) := R.ReadBytes (Z.of_nat (length l)) st in Done (Bytes v, st)
  end.

Fixpoint read_items (l : list item) (st : R.t) : result (list item * R.t) :=
  match l with
  | [] => Done ([], st)
  | i :: l => let* (i, st) := read_item i st in let* (l, st) := read_items l st in Done (i :: l, st)
  end.

Definition write_item (realloc : option (list Z) -> Z -> option (list Z)) {HS : ByteSink S.t} (i : item) (st : S.t) : written S.t :=
  match i with
  | Unsigned T v => WriteUnsigned T v st
  | Signed T v => Write T v st
  | LEB128 T v => WriteLEB128 T v st
  | SLEB128 T v => WriteSLEB128 T v st
  | Fixed5LEB128 v => WriteFixed5LEB128 v st
  | RefId v => S.WriteRefId realloc v st
  | Raw size v => Raw_Write size v st
  | WordAs32Bits v => WriteWordWith32BitWrites v st
  | Bytes l => S.WriteBytes realloc l st
  end.

Fixpoint write_items (realloc : option (list Z) -> Z -> option (list Z)) {HS : ByteSink S.t} (l : list item) (st : S.t) : written S.t :=
  match l with
  | [] => Wrote st
  | i :: l => let^ st := write_item realloc i st in write_items realloc l st
  end.

(** *** Reading an encoded item *)

Lemma reads_map {X Y} (f : R.t -> result (X * R.t)) (g : X -> Y) bs v : reads f bs v -> reads (fun st => let* (v, st) := f st in Done (g v, st)) bs (g v).
Proof. intros H st l Hr E. rewrite (H st l Hr E). reflexivity. Qed.

Lemma reads_app {X Y V} (f : R.t -> result (X * R.t)) (k : X -> R.t -> result (Y * R.t)) (g : X -> Y -> V) bs cs x y :
  reads f bs x -> reads (k x) cs y -> reads (fun st => let* (x, st) := f st in let* (y, st) := k x st in Done (g x y, st)) (bs ++ cs) (g x y).
Proof.
  intros Hf Hk st l Hr E. rewrite <- app_assoc in E. rewrite (Hf st _ Hr E). cbn [rbind]. destruct (advanced_ready st bs _ Hr E) as [Hr' E'].
  rewrite (Hk _ _ Hr' E'). cbn [rbind]. rewrite advanced_advanced, length_app. reflexivity.
Qed.

Lemma convert_has_type T v : has_type T v -> convert T v = v.
Proof. intros [B H]. unfold convert. destruct (is_signed T); [apply sN_small; [lia|exact H]|apply uN_small, H]. Qed.

Lemma signed_reads T v : 8 <= bits T <= 64 -> is_sN (bits T) v -> reads (R.Read_ T 192) (marked 192 (digits stop_signed (Z.to_nat (bits T)) v)) (convert T v).
Proof.
  intros HB Hv. pose proof (signed_spec (Z.to_nat (bits T)) (bits T) v Hv ltac:(lia) ltac:(lia)) as H. pose proof (digit_values stop_signed (Z.to_nat (bits T)) v) as V.
  destruct (digits stop_signed (Z.to_nat (bits T)) v) as [ds l]. destruct H as (S & Hd & Hw & _). rewrite <- V. unfold stop_signed in S. apply Read_reads; (assumption || lia).
Qed.

(** The unsigned digits need no more room than the type gives. *)
Lemma unsigned_digits T v : has_type T v -> 0 <= v ->
  let (ds, l) := digits stop_unsigned (Z.to_nat (bits T)) v in 0 <= l <= 127 /\ Forall is_digit ds /\ 7 * Z.of_nat (length ds) < bits T /\ value (ds, l) = v.
Proof.
  intros [HB Hv] H0. assert (is_uN (bits T) v) as Hu.
  { destruct (is_signed T); [|exact Hv]. unfold is_sN, is_uN in *. pose proof (Z.pow_le_mono_r 2 (bits T - 1) (bits T)). lia. }
  pose proof (unsigned_spec (Z.to_nat (bits T)) (bits T) v Hu ltac:(lia) ltac:(lia)) as H. pose proof (digit_values stop_unsigned (Z.to_nat (bits T)) v) as V.
  destruct (digits stop_unsigned (Z.to_nat (bits T)) v) as [ds l]. destruct H as (S & Hd & Hw & Hl). unfold stop_unsigned in S. destruct Hl. repeat split; (assumption || lia).
Qed.

Lemma Read16_loop m st : R.Read16 m st = R.Read_ (mkType 16 false) m st.
Proof. apply (INIT_tail 16 m ltac:(lia) 15); [|reflexivity]. intros. apply (BODY_tail 16 m ltac:(lia)); [lia|intros]. apply (END_tail 16 m ltac:(lia)). lia. Qed.

Lemma reads_ext {X} (f g : R.t -> result (X * R.t)) bs v : (forall st, g st = f st) -> reads f bs v -> reads g bs v.
Proof. intros E H st l Hr Ep. rewrite E. exact (H st l Hr Ep). Qed.

(** The three unrolled forms, at the width [8 * size]. *)
Lemma unrolled_reads (f : Z -> R.t -> result (Z * R.t)) N v : (forall m st, f m st = R.Read_ (mkType N false) m st) -> 8 <= N <= 64 -> is_uN N v ->
  reads (f 192) (marked 192 (digits stop_signed (Z.to_nat N) (sN N v))) v.
Proof.
  intros E HN Hv. eapply reads_ext; [apply E|]. pose proof (signed_reads (mkType N false) (sN N v) HN (sN_range N v ltac:(lia))) as H.
  unfold convert in H. cbn [bits is_signed] in H. rewrite uN_sN, uN_small in H by (assumption || lia). exact H.
Qed.

Lemma Raw_reads size v : (size = 1 \/ size = 2 \/ size = 4 \/ size = 8) -> is_uN (8 * size) v -> reads (R.Raw_Read size) (encode (Raw size v)) v.
Proof.
  intros [->|[->|[->| ->]]] Hv; [apply reads_byte|apply (unrolled_reads R.Read16 16 v Read16_loop ltac:(lia) Hv)|
    apply (unrolled_reads R.Read32 32 v Read32_loop ltac:(lia) Hv)|apply (unrolled_reads R.Read64 64 v Read64_loop ltac:(lia) Hv)].
Qed.

Lemma Word_reads v : is_uN 64 v -> reads R.ReadWordWith32BitReads (encode (WordAs32Bits v)) v.
Proof.
  intros Hv. unfold R.ReadWordWith32BitReads, encode. change (2 ^ 32) with 4294967296. unfold is_uN in Hv. change (2 ^ 64) with 18446744073709551616 in Hv.
  set (lo := uN 32 v). set (hi := v / 4294967296).
  assert (is_uN 32 hi) as Hhi by (unfold is_uN, hi; change (2 ^ 32) with 4294967296; split; [apply Z.div_pos; lia|apply Z.div_lt_upper_bound; lia]).
  assert (is_uN 32 lo) as Hlo by (apply uN_range; lia).
  replace (sN 32 v) with (sN 32 lo) by (apply sN_uN; lia).
  replace v with (uN 64 (uN 64 (lo << 0) .| uN 64 (hi << 32))) at 1.
  - apply (reads_app (R.Raw_Read 4) (fun _ => R.Raw_Read 4) (fun lo hi => uN 64 (uN 64 (lo << 0) .| uN 64 (hi << 32)))).
    + apply (unrolled_reads R.Read32 32 lo Read32_loop ltac:(lia) Hlo).
    + apply (unrolled_reads R.Read32 32 hi Read32_loop ltac:(lia) Hhi).
  - rewrite uN_lor_uN, Z.shiftl_0_r by lia. rewrite (lor_disjoint lo hi 32) by (lia || exact Hlo). unfold is_uN in *. change (2 ^ 32) with 4294967296 in *.
    assert (lo + hi * 4294967296 = v) as -> by (unfold lo, hi, uN; change (2 ^ 32) with 4294967296; pose proof (Z.div_mod v 4294967296); lia).
    apply uN_small. unfold is_uN. change (2 ^ 64) with 18446744073709551616. exact Hv.
Qed.

Lemma Bytes_reads l : reads (R.ReadBytes (Z.of_nat (length l))) l l.
Proof.
  intros st r Hr E. pose proof (pending_length st Hr) as L. rewrite E, length_app in L. unfold R.ReadBytes.
  rewrite (proj2 (Z.geb_le _ _)), (proj2 (Z.leb_le _ _)) by lia. unfold pending in E. rewrite E, Nat2Z.id, firstn_app, firstn_all, Nat.sub_diag, firstn_O, app_nil_r. reflexivity.
Qed.

Lemma read_item_reads i : valid i -> reads (read_item i) (encode i) i.
Proof.
  destruct i as [T v|T v|T v|T v|v|v|size v|v|l]; cbn [valid]; intros H; unfold read_item.
  - destruct H as [Ht H0]. pose proof (unsigned_digits T v Ht H0) as D. cbn [encode]. destruct (digits stop_unsigned (Z.to_nat (bits T)) v) as [ds l].
    destruct D as (Hl & Hd & Hw & E). apply (reads_map _ (Unsigned T)). rewrite <- (convert_has_type T v Ht), <- E. apply Read_reads; (assumption || lia).
  - destruct H as [Ht Hs]. apply (reads_map _ (Signed T)). rewrite <- (convert_has_type T v Ht) at 2. destruct Ht as [HB Hv]. rewrite Hs in Hv. apply signed_reads; [lia|exact Hv].
  - destruct H as [Ht H0]. pose proof (unsigned_digits T v Ht H0) as D. cbn [encode]. destruct (digits stop_unsigned (Z.to_nat (bits T)) v) as [ds l].
    destruct D as (Hl & Hd & Hw & E). apply (reads_map _ (LEB128 T)). rewrite <- (convert_has_type T v Ht), <- E. unfold leb. cbn [fst snd].
    rewrite (Z.mod_small l) by lia. apply ReadLEB128_reads; (assumption || unfold is_digit; lia).
  - apply (reads_map _ (SLEB128 T)). pose proof H as [HB _]. cbn [encode].
    pose proof (signed_spec (Z.to_nat (bits T)) (bits T) _ (sN_range (bits T) v ltac:(lia)) ltac:(lia) ltac:(lia)) as D.
    pose proof (digit_values stop_signed (Z.to_nat (bits T)) (sN (bits T) v)) as V. destruct (digits stop_signed (Z.to_nat (bits T)) (sN (bits T) v)) as [ds l].
    destruct D as (S & Hd & Hw & _). unfold stop_signed in S.
    pose proof (ReadSLEB128_reads T ds l ltac:(lia) ltac:(lia) Hd Hw) as R. rewrite V in R.
    assert (convert T (sN (bits T) v) = v) as E by (rewrite <- (convert_uN T), uN_sN, convert_uN by lia; apply convert_has_type, H). rewrite E in R. exact R.
  - apply (reads_map _ Fixed5LEB128). change (2 ^ 35) with 34359738368 in H.
    assert (is_digit (v / 128 / 128 / 128 / 128)) as Hl by (unfold is_digit; Z.div_mod_to_equations; lia).
    assert (convert uint64_t (value (fixed5 v)) = v) as E.
    { unfold value, fixed5. cbn [fold_right fst snd]. unfold convert. cbn [is_signed bits uint64_t]. rewrite uN_small; [Z.div_mod_to_equations; lia|].
      unfold is_uN. change (2 ^ 64) with 18446744073709551616. Z.div_mod_to_equations; lia. }
    rewrite <- E at 2. unfold fixed5, encode, leb. cbn [fst snd]. rewrite (Z.mod_small (v / 128 / 128 / 128 / 128)) by exact Hl.
    apply ReadLEB128_reads; [exact Hl|repeat (apply Forall_nil || apply Forall_cons); apply digit_mod|cbn; lia].
  - apply (reads_map _ RefId), ReadRefId_reads, H.
  - apply (reads_map _ (Raw size)), Raw_reads; apply H.
  - apply (reads_map _ WordAs32Bits), Word_reads, H.
  - apply (reads_map _ Bytes), Bytes_reads.
Qed.

Lemma read_items_reads l : Forall valid l -> reads (read_items l) (concat (map encode l)) l.
Proof.
  induction 1 as [|i l Hi _ IH]; cbn [read_items map concat].
  - intros st r _ _. f_equal. f_equal. unfold advanced, R.with_current. cbn. rewrite Z.add_0_r. destruct st; reflexivity.
  - apply (reads_app (read_item i) (fun _ => read_items l) cons), IH. apply read_item_reads, Hi.
Qed.

(** *** Writing an item *)
Section Items.
Context (realloc : option (list Z) -> Z -> option (list Z)) (A : allocator realloc).
Let sink : ByteSink S.t := stream_sink realloc A.

Lemma signed_writes T v : 8 <= bits T <= 64 -> is_sN (bits T) v -> writes (H := sink) (Write (H := sink) T v) (marked 192 (digits stop_signed (Z.to_nat (bits T)) v)).
Proof. intros HB Hv. apply (Write_loop_writes (H := sink) _ (bits T)); (assumption || lia). Qed.

Lemma Raw_writes size v : (size = 1 \/ size = 2 \/ size = 4 \/ size = 8) -> is_uN (8 * size) v -> writes (H := sink) (Raw_Write (H := sink) size v) (encode (Raw size v)).
Proof.
  intros [->|[->|[->| ->]]] Hv; [apply (writes_byte (H := sink)), Hv|apply (signed_writes (mkType 16 true))|apply (signed_writes int32_t)|apply (signed_writes int64_t)];
    (cbn; lia) || (apply sN_range; lia).
Qed.

Lemma has_type_unsigned T v : has_type T v -> 0 <= v -> is_uN (bits T) v.
Proof. intros [HB Hv] H0. destruct (is_signed T); [|exact Hv]. unfold is_sN, is_uN in *. pose proof (Z.pow_le_mono_r 2 (bits T - 1) (bits T)). lia. Qed.

Lemma write_item_writes i : valid i -> writes (H := sink) (write_item realloc (HS := sink) i) (encode i).
Proof.
  destruct i as [T v|T v|T v|T v|v|v|size v|v|l]; cbn [valid encode]; intros H; unfold write_item.
  - destruct H as [Ht H0]. pose proof (has_type_unsigned T v Ht H0) as Hu. destruct Ht as [HB _].
    eapply (writes_same (H := sink)); [|apply (WriteUnsigned_loop_writes (H := sink) _ (bits T) v Hu); lia].
    intros w. unfold WriteUnsigned. rewrite (proj2 (Z.geb_le v 0)) by lia. reflexivity.
  - destruct H as [[HB Hv] Hs]. rewrite Hs in Hv. apply signed_writes; [lia|exact Hv].
  - destruct H as [Ht H0]. pose proof (has_type_unsigned T v Ht H0) as Hu. destruct Ht as [HB _].
    eapply (writes_same (H := sink)); [|apply (WriteLEB128_loop_writes (H := sink) (bits T) _ (bits T) v Hu); lia].
    intros w. unfold WriteLEB128. rewrite (proj2 (Z.geb_le v 0)), orb_true_r, uN_small by (assumption || lia). reflexivity.
  - destruct H as [HB _]. eapply (writes_same (H := sink)); [|apply (WriteSLEB128_loop_writes (H := sink) (bits T) _ ltac:(lia) (bits T) (sN (bits T) v)); [apply sN_range; lia|lia|lia]].
    intros w. reflexivity.
  - apply (WriteFixed5LEB128_writes (H := sink)), H.
  - apply (WriteRefId_writes realloc A), H.
  - apply Raw_writes; apply H.
  - assert (forall x, uN 32 x .& uN 32 (2 ^ 32 - 1) = uN 32 x) as Hm.
    { intros x. change (uN 32 (2 ^ 32 - 1)) with (Z.ones 32). rewrite Z.land_ones by lia. apply uN_uN. }
    eapply (writes_same (H := sink)); [intros w; unfold WriteWordWith32BitWrites; rewrite !Hm, Z.shiftr_0_r, (Z.shiftr_div_pow2 v 32) by lia; reflexivity|].
    pose proof (Raw_writes 4 (uN 32 v) ltac:(auto) (uN_range 32 v ltac:(lia))) as H1. pose proof (Raw_writes 4 (uN 32 (v / 2 ^ 32)) ltac:(auto) (uN_range 32 _ ltac:(lia))) as H2.
    cbn [encode Z.eqb Pos.eqb] in H1, H2. change (8 * 4) with 32 in *. rewrite sN_uN in H1, H2 by lia. exact (writes_bind (H := sink) _ _ _ _ H1 H2).
  - apply (WriteBytes_writes realloc A), H.
Qed.

Lemma write_items_writes l : Forall valid l -> writes (H := sink) (write_items realloc (HS := sink) l) (concat (map encode l)).
Proof.
  induction 1 as [|i l Hi _ IH]; cbn [write_items map concat]; [apply (writes_nothing (H := sink))|].
  apply (writes_bind (H := sink)); [apply write_item_writes, Hi|exact IH].
Qed.
End Items.

(** C10. Messages round trip.  Any sequence of values, each with any of the codecs
    (end-marked signed and unsigned, LEB128, SLEB128, fixed LEB128, reference ids, raw
    integers, words in two halves, byte blocks), written to a stream in any state is
    appended to what was written before, whether it is still in the buffer or was
    flushed; the stream stays well formed; and reading from the position at which the
    writing began gives the same values and ends where the writing ended.  The only
    other outcome is the out-of-memory exception. *)
Theorem message_roundtrip realloc (A : allocator realloc) st items :
  well_formed st -> Forall valid items ->
  let sink := stream_sink realloc A in
  write_items realloc (HS := sink) items st = ThrowOOM \/
  exists st', write_items realloc (HS := sink) items st = Wrote st' /\ well_formed st' /\
    everything st' = everything st ++ concat (map encode items) /\
    read_items items (R.mk (everything st') (S.Position st)) = Done (items, R.mk (everything st') (S.Position st')).
Proof.
  intros Wf Hv sink. destruct (write_items_writes realloc A items Hv st Wf) as [H|(st' & E & Wf' & C)]; [left; exact H|right].
  cbn in Wf', C. exists st'. split; [exact E|]. split; [exact Wf'|]. split; [exact C|].
  rewrite (Position_everything st Wf), (Position_everything st' Wf').
  assert (ready (R.mk (everything st') (Z.of_nat (length (everything st))))) as Hr.
  { unfold ready, R.end_. cbn [R.buffer_ R.current_]. rewrite C, length_app. lia. }
  rewrite (read_items_reads items Hv _ [] Hr).
  - unfold advanced, R.with_current. cbn [R.buffer_ R.current_]. rewrite C, length_app. do 3 f_equal. lia.
  - unfold pending. cbn [R.buffer_ R.current_]. rewrite C, Nat2Z.id, skipn_app, skipn_all, Nat.sub_diag, app_nil_r. reflexivity.
Qed.

(** *** An allocator *)

Definition host_realloc (b : option (list Z)) (n : Z) : option (list Z) :=
  if (0 <=? n) && (n <=? kMaxAllocation)
  then Some (firstn (Z.to_nat n) (S.bytes_of b ++ repeat 0 (Z.to_nat n))) else None.

Lemma host_allocator : allocator host_realloc.
Proof.
  split; intros b n b'; unfold host_realloc; destruct ((0 <=? n) && (n <=? kMaxAllocation)) eqn:E; try discriminate.
  - intros [= <-]. rewrite length_firstn, length_app, repeat_length. lia.
  - intros _. lia.
  - intros k [= <-] Hk Hn. rewrite firstn_firstn, Nat.min_l, firstn_app by lia. replace (k - _)%nat with O by lia. rewrite firstn_O, app_nil_r. reflexivity.
Qed.

Lemma new_well_formed initial_size k : 0 < initial_size <= 2 ^ 56 -> match k with S.NonStreaming => True | S.Streaming sink n => n = Z.of_nat (length sink) end ->
  well_formed (S.new initial_size k).
Proof.
  intros H Hk. unfold S.new. split; cbn [S.initial_size_ S.buffer_ S.capacity_ S.current_ S.kind_ S.bytes_of length].
  - unfold RoundUpToPowerOfTwo, bit_ceil. rewrite (proj2 (Z.eqb_neq _ 0)) by lia. destruct (Z.leb_spec initial_size 1); [exists 0; split; [lia|reflexivity]|].
    unfold bit_width. destruct (Z.eqb_spec (initial_size - 1) 0); [lia|]. exists (Z.log2 (initial_size - 1) + 1). split; [|reflexivity].
    pose proof (Z.log2_nonneg (initial_size - 1)). pose proof (Z.log2_le_mono (initial_size - 1) (2 ^ 56) ltac:(lia)) as L. rewrite Z.log2_pow2 in L by lia. lia.
  - unfold kMaxAllocation. split; [reflexivity|lia].
  - lia.
  - exact Hk.
Qed.

Definition sample_message : list item :=
  [Signed int64_t (-300); Unsigned uint32_t 4000000000; LEB128 uint64_t 1234567890123; SLEB128 int32_t (-70); Fixed5LEB128 5; RefId 5000; Raw 4 4294967295;
   WordAs32Bits 18446744073709551615; Bytes [1; 2; 3]].

Lemma message_roundtrip_witness :
  let sink := stream_sink host_realloc host_allocator in
  let st := S.new 4 S.NonStreaming in
  (write_items host_realloc (HS := sink) sample_message st = ThrowOOM \/
   exists st', write_items host_realloc (HS := sink) sample_message st = Wrote st' /\ well_formed st' /\
     everything st' = everything st ++ concat (map encode sample_message) /\
     read_items sample_message (R.mk (everything st') (S.Position st)) = Done (sample_message, R.mk (everything st') (S.Position st'))) /\
  write_items host_realloc (HS := sink) sample_message st <> ThrowOOM.
Proof.
  intros sink st. split.
  - apply (message_roundtrip host_realloc host_allocator st sample_message).
    + apply new_well_formed; [lia|exact I].
    + repeat (apply Forall_cons || apply Forall_nil); cbn [valid]; unfold has_type, is_sN, is_uN; cbn; try lia.
  - vm_compute. discriminate.
Defined.

(** ** Alignment *)
Section Alignment.
Context (realloc : option (list Z) -> Z -> option (list Z)) (A : allocator realloc).

Lemma SetPosition_room st n : well_formed st -> 0 <= n <= S.Remaining st ->
  S.SetPosition realloc (S.Position st + n) st = Wrote (S.mk (S.initial_size_ st) (S.buffer_ st) (S.current_ st + n) (S.capacity_ st) (S.kind_ st)).
Proof.
  intros Wf Hn. assert (S.BaseSetPosition realloc (S.current_ st + n) st = Wrote (S.mk (S.initial_size_ st) (S.buffer_ st) (S.current_ st + n) (S.capacity_ st) (S.kind_ st))) as H.
  { unfold S.BaseSetPosition, S.EnsureSpace, S.BasePosition. rewrite (proj2 (Z.geb_le _ _)) by lia. reflexivity. }
  unfold S.SetPosition, S.Position, S.BasePosition. destruct (S.kind_ st) as [|sink f]; [exact H|].
  pose proof (s_current _ Wf). rewrite (proj2 (Z.geb_le _ _)) by lia. replace (f + S.current_ st + n - f) with (S.current_ st + n) by lia. exact H.
Qed.
End Alignment.

(** Alignment appends padding.  [Align] brings the position of a stream, counted
    over everything written, to the next one at which [position + offset] is a multiple
    of the alignment; it appends less than [alignment] fill bytes and nothing else, also
    when making room flushes the buffer; and [ReadStream::Align] at the same position
    of the written bytes skips exactly the padding. *)
Theorem alignment_appends_padding realloc (A : allocator realloc) st k offset fill :
  well_formed st -> 0 <= k <= 56 -> 0 <= offset < 2 ^ k -> S.Position st < 2 ^ 60 ->
  S.Align realloc (2 ^ k) offset fill st = ThrowOOM \/
  exists n st', S.Align realloc (2 ^ k) offset fill st = Wrote (n, st') /\ well_formed st' /\ 0 <= n < 2 ^ k /\
    everything st' = everything st ++ repeat fill (Z.to_nat n) /\ (S.Position st' + offset) mod 2 ^ k = 0 /\
    R.Align (2 ^ k) offset (R.mk (everything st') (S.Position st)) = Done (R.mk (everything st') (S.Position st')).
Proof.
  intros Wf Hk Ho HP. unfold S.Align. pose proof (Position_everything st Wf) as EP.
  pose proof (Z.pow_le_mono_r 2 k 56 ltac:(lia) ltac:(lia)) as Pk. change (2 ^ 56) with 72057594037927936 in Pk. change (2 ^ 60) with 1152921504606846976 in HP.
  destruct (RoundUp_spec k (S.Position st) offset ltac:(lia) ltac:(lia)) as (p & Ep & Hp & Hm); [change (2 ^ 61) with 2305843009213693952; lia|].
  rewrite Ep. set (n := p - S.Position st) in *.
  assert (forall st', well_formed st' -> everything st' = everything st ++ repeat fill (Z.to_nat n) ->
    S.Position st' = p /\ R.Align (2 ^ k) offset (R.mk (everything st') (S.Position st)) = Done (R.mk (everything st') p)) as Hread.
  { intros st' Wf' E. pose proof (Position_everything st' Wf') as EP'. rewrite E, length_app, repeat_length in EP'. split; [unfold n in *; lia|].
    unfold R.Align, R.Position, R.Advance, R.end_, R.with_current. cbn [R.current_ R.buffer_]. rewrite Ep, E, length_app, repeat_length.
    rewrite (proj2 (Z.geb_le _ _)) by (unfold n in *; lia). do 2 f_equal. unfold n. lia. }
  destruct (Z.eqb_spec n 0) as [E0|N0]; cbn [negb].
  - right. exists n, st. split; [reflexivity|]. split; [exact Wf|]. split; [unfold n in *; lia|].
    assert (everything st = everything st ++ repeat fill (Z.to_nat n)) as E by (rewrite E0; cbn; rewrite app_nil_r; reflexivity).
    destruct (Hread st Wf E) as [-> HR]. auto.
  - destruct (EnsureSpace_spec realloc A n st Wf) as [-> |(st1 & -> & W1 & E1 & R1 & _)]; [unfold kMaxAllocation; change (2 ^ 57) with 144115188075855872; unfold n in *; lia|left; reflexivity|].
    right. cbn [wbind]. pose proof (Position_everything st1 W1) as EP1. rewrite E1, <- EP in EP1.
    destruct (put_spec (repeat fill (Z.to_nat n)) st1 W1) as (W2 & E2 & _); [rewrite repeat_length; unfold n in *; lia|].
    set (filled := S.mk _ (S.buffer_ (S.put _ _)) _ _ _).
    assert (well_formed filled /\ S.Position filled = S.Position st1 /\ S.Remaining filled = S.Remaining st1) as (Wf1 & Pf & Rf).
    { split; [|split; reflexivity]. destruct W1 as [I1 C1 P1 F1], W2 as [_ [C2 _] _ _]. cbn in C2. split; [exact I1|split; [exact C2|apply C1]|exact P1|exact F1]. }
    replace p with (S.Position filled + n) by (rewrite Pf, EP1; unfold n; lia).
    rewrite (SetPosition_room realloc filled n Wf1) by (rewrite Rf; unfold n in *; lia). cbn [wbind]. exists n. eexists. split; [reflexivity|].
    assert (S.mk (S.initial_size_ filled) (S.buffer_ filled) (S.current_ filled + n) (S.capacity_ filled) (S.kind_ filled) = S.put (repeat fill (Z.to_nat n)) st1) as ->.
    { unfold filled, S.put. cbn. rewrite repeat_length, Z2Nat.id by (unfold n in *; lia). reflexivity. }
    split; [exact W2|]. split; [unfold n in *; lia|]. rewrite E1 in E2. split; [exact E2|]. destruct (Hread _ W2 E2) as [-> HR]. auto.
Qed.

Lemma alignment_appends_padding_witness :
  let st := S.put [1; 2; 3] (S.mk 4 (Some [0; 0; 0; 0]) 0 4 (S.Streaming [] 0)) in
  S.Align host_realloc (2 ^ 3) 0 0 st = ThrowOOM \/
  exists n st', S.Align host_realloc (2 ^ 3) 0 0 st = Wrote (n, st') /\ well_formed st' /\ 0 <= n < 2 ^ 3 /\
    everything st' = everything st ++ repeat 0 (Z.to_nat n) /\ (S.Position st' + 0) mod 2 ^ 3 = 0 /\
    R.Align (2 ^ 3) 0 (R.mk (everything st') (S.Position st)) = Done (R.mk (everything st') (S.Position st')).
Proof.
  intros st. apply (alignment_appends_padding host_realloc host_allocator st 3 0 0).
  - split; cbn; [exists 2; split; [lia|reflexivity]|unfold kMaxAllocation; lia|lia|reflexivity].
  - lia.
  - lia.
  - reflexivity.
Defined.

(** A streaming buffer doubles at every flush.  [StreamingWriteStream::Realloc]
    flushes and then checks whether that gave enough space, but it compares the new
    size, which is always above the capacity, with the capacity: even when the empty
    buffer has room for the bytes asked for, the buffer is at least doubled, each time
    it is full. *)
Theorem streaming_buffer_doubles realloc st sink n size st' :
  allocator realloc -> well_formed st -> S.kind_ st = S.Streaming sink n -> S.Remaining st < size <= S.capacity_ st ->
  S.EnsureSpace realloc size st = Wrote st' -> 2 * S.capacity_ st <= S.capacity_ st' /\ S.current_ st' = 0.
Proof.
  intros A Wf K Hs E. pose proof Wf as [_ [_ L] C _]. unfold kMaxAllocation in L. change (2 ^ 57) with 144115188075855872 in L.
  unfold S.EnsureSpace in E. replace (S.Remaining st >=? size) with false in E by lia. replace (size >? S.capacity_ st) with false in E by lia.
  rewrite (proj2 (Z.leb_le _ kMaxInt64)) in E by (change kMaxInt64 with 9223372036854775807; lia).
  replace (S.capacity_ st + S.capacity_ st >? S.capacity_ st) with true in E by (unfold S.Remaining, S.BasePosition in Hs; lia).
  unfold S.Realloc, S.Flush in E. rewrite K in E. cbn [S.capacity_ S.buffer_ S.initial_size_ S.kind_] in E.
  replace (S.capacity_ st + S.capacity_ st <=? S.capacity_ st) with false in E by (unfold S.Remaining, S.BasePosition in Hs; lia).
  destruct (RoundUp_spec 16 (S.capacity_ st + S.capacity_ st) 0 ltac:(lia) ltac:(cbn; lia)) as (r & Er & Hr & _); [change (2 ^ 61) with 2305843009213693952; lia|].
  change (64 * 1024) with (2 ^ 16) in E. rewrite Er in E. destruct (realloc (S.buffer_ st) r) as [b|]; cbn [wbind S.buffer_] in E; [|discriminate].
  destruct (_ >=? size); [|discriminate]. injection E as <-. cbn [S.capacity_ S.current_]. lia.
Qed.

Lemma streaming_buffer_doubles_witness :
  match S.EnsureSpace host_realloc 1 (S.mk 2 (Some [7; 7]) 2 2 (S.Streaming [] 0)) with
  | Wrote st' => 2 * 2 <= S.capacity_ st' /\ S.current_ st' = 0
  | _ => False
  end.
Proof.
  assert (match S.EnsureSpace host_realloc 1 (S.mk 2 (Some [7; 7]) 2 2 (S.Streaming [] 0)) with Wrote _ => true | _ => false end = true) as H by (vm_compute; reflexivity).
  destruct (S.EnsureSpace host_realloc 1 (S.mk 2 (Some [7; 7]) 2 2 (S.Streaming [] 0))) as [st'| | |] eqn:E; [|discriminate H..].
  apply (streaming_buffer_doubles host_realloc (S.mk 2 (Some [7; 7]) 2 2 (S.Streaming [] 0)) [] 0 1 st').
  - exact host_allocator.
  - split; cbn; [exists 1; split; [lia|reflexivity]|unfold kMaxAllocation; lia|lia|reflexivity].
  - reflexivity.
  - cbn. lia.
  - exact E.
Defined.
