(* ===== verification/Arrays.v ===== *)
(** * Arrays and counted loops

    C arrays as lists with checked accesses: a read or a write out of range is a failed
    assertion, so a theorem that a routine returns also shows that it stays in bounds.
    [for_from] and [all_from] are the counted loops of the sources, the second one with
    an early [return false]. *)

From Stdlib Require Import ZArith Bool List Lia.
From S2P Require Import Prelude Result.
Import ListNotations.
Open Scope Z_scope.

Definition size {A} (l : list A) : Z := Z.of_nat (length l).

Definition get {A} (l : list A) (i : Z) : result A :=
  if i <? 0 then AssertionFailure
  else match nth_error l (Z.to_nat i) with Some x => Done x | None => AssertionFailure end.
Definition set {A} (l : list A) (i : Z) (x : A) : result (list A) :=
  require (0 <=? i) && (i <? size l);; Done (set_nth (Z.to_nat i) x l).

(** [memmove] into [dst] at [i]. *)
Fixpoint store {A} (dst : list A) (i : Z) (xs : list A) : result (list A) :=
  match xs with
  | [] => Done dst
  | x :: xs => let* dst := set dst i x in store dst (i + 1) xs
  end.
(** The [n] elements at [i]. *)
Definition slice {A} (l : list A) (i n : Z) : result (list A) :=
  require (0 <=? i) && (0 <=? n) && (i + n <=? size l);; Done (firstn (Z.to_nat n) (skipn (Z.to_nat i) l)).

(** [for (; i < i + n; i++) body], over a state. *)
Fixpoint for_from {S} (n : nat) (i : Z) (body : Z -> S -> result S) (s : S) : result S :=
  match n with
  | O => Done s
  | Datatypes.S n => let* s := body i s in for_from n (i + 1) body s
  end.
(** [for (; i < i + n; i++) if (!body) return false; return true;]. *)
Fixpoint all_from (n : nat) (i : Z) (body : Z -> result bool) : result bool :=
  match n with
  | O => Done true
  | S n => let* b := body i in if b then all_from n (i + 1) body else Done false
  end.

(** ** Lemmas *)
Lemma size_nonneg {A} (l : list A) : 0 <= size l.
Proof. unfold size. lia. Qed.
Lemma size_app {A} (l l' : list A) : size (l ++ l') = size l + size l'.
Proof. unfold size. rewrite length_app. lia. Qed.
Lemma size_cons {A} (x : A) l : size (x :: l) = 1 + size l.
Proof. unfold size. cbn [length]. lia. Qed.
Lemma size_nil {A} : size (@nil A) = 0.
Proof. reflexivity. Qed.
Lemma size_repeat {A} (x : A) n : 0 <= n -> size (repeat x (Z.to_nat n)) = n.
Proof. intros H. unfold size. rewrite repeat_length. lia. Qed.
Lemma size_skipn {A} (l : list A) n : 0 <= n <= size l -> size (skipn (Z.to_nat n) l) = size l - n.
Proof. unfold size. intros H. rewrite length_skipn. lia. Qed.
Create Rewrite HintDb size.
#[export] Hint Rewrite @size_app @size_cons @size_nil : size.

Ltac known_size l := lazymatch goal with H : 0 <= size l |- _ => fail | _ => pose proof (size_nonneg l) end.
Ltac sizes := autorewrite with size in *; repeat match goal with
  | |- context [size ?l] => known_size l
  | _ : context [size ?l] |- _ => known_size l
  end; lia.

Lemma get_nth {A} (l : list A) i x : nth_error l i = Some x -> get l (Z.of_nat i) = Done x.
Proof. intros H. unfold get. replace (Z.of_nat i <? 0) with false by (symmetry; apply Z.ltb_ge; lia). rewrite Nat2Z.id, H. reflexivity. Qed.
Lemma nth_mid {A} (pre : list A) x post : nth_error (pre ++ x :: post) (length pre) = Some x.
Proof. rewrite nth_error_app2, Nat.sub_diag by lia. reflexivity. Qed.
Lemma get_mid {A} (pre : list A) x post i : i = size pre -> get (pre ++ x :: post) i = Done x.
Proof. intros ->. apply get_nth, nth_mid. Qed.
Lemma get_head {A} (x : A) l : get (x :: l) 0 = Done x.
Proof. reflexivity. Qed.
Lemma get_in {A} (l : list A) i : 0 <= i < size l -> exists x, get l i = Done x /\ nth_error l (Z.to_nat i) = Some x /\ In x l.
Proof.
  intros H. unfold size in H. destruct (nth_error l (Z.to_nat i)) as [x|] eqn:E.
  - exists x. rewrite <- (Z2Nat.id i) at 1 by lia. split; [apply get_nth, E|split; [reflexivity|]]. apply nth_error_In with (1 := E).
  - apply nth_error_None in E. lia.
Qed.
Lemma get_out {A} (l : list A) i : size l <= i -> get l i = AssertionFailure.
Proof.
  intros H. unfold size in H. unfold get. destruct (i <? 0); [reflexivity|].
  replace (nth_error l (Z.to_nat i)) with (@None A) by (symmetry; apply nth_error_None; lia). reflexivity.
Qed.
Lemma get_skipn {A} (l : list A) i j : 0 <= i -> 0 <= j -> get (skipn (Z.to_nat i) l) j = get l (i + j).
Proof.
  intros Hi Hj. unfold get. replace (j <? 0) with false by (symmetry; apply Z.ltb_ge; lia).
  replace (i + j <? 0) with false by (symmetry; apply Z.ltb_ge; lia).
  rewrite nth_error_skipn. replace (Z.to_nat i + Z.to_nat j)%nat with (Z.to_nat (i + j)) by lia. reflexivity.
Qed.

Lemma set_nth_mid {A} (pre : list A) x y post : set_nth (length pre) x (pre ++ y :: post) = pre ++ x :: post.
Proof. induction pre as [|z pre IH]; cbn; [reflexivity|]. rewrite IH. reflexivity. Qed.
Lemma set_mid {A} (pre : list A) x y post i : i = size pre -> set (pre ++ y :: post) i x = Done (pre ++ x :: post).
Proof.
  intros ->. unfold set. replace ((0 <=? size pre) && (size pre <? size (pre ++ y :: post))) with true by (symmetry; apply andb_true_iff; split; [apply Z.leb_le|apply Z.ltb_lt]; sizes).
  unfold size at 1. rewrite Nat2Z.id, set_nth_mid. reflexivity.
Qed.
Lemma store_mid {A} (xs : list A) : forall pre ys post i, length ys = length xs -> i = size pre ->
  store (pre ++ ys ++ post) i xs = Done (pre ++ xs ++ post).
Proof.
  induction xs as [|x xs IH]; intros pre [|y ys] post i HL ->; cbn [length] in HL; try discriminate; [reflexivity|].
  cbn [store app]. rewrite (set_mid pre x y) by reflexivity. cbn [rbind].
  specialize (IH (pre ++ [x]) ys post (size pre + 1)). rewrite <- !app_assoc in IH. cbn [app] in IH.
  rewrite IH; [reflexivity|lia|sizes].
Qed.
Lemma store_all {A} (xs ys : list A) : length ys = length xs -> store ys 0 xs = Done xs.
Proof. intros H. pose proof (store_mid xs [] ys [] 0 H eq_refl) as E. rewrite !app_nil_r in E. exact E. Qed.
Lemma slice_mid {A} (pre xs post : list A) i n : i = size pre -> n = size xs -> slice (pre ++ xs ++ post) i n = Done xs.
Proof.
  intros -> ->. unfold slice.
  replace ((0 <=? size pre) && (0 <=? size xs) && (size pre + size xs <=? size (pre ++ xs ++ post))) with true
    by (symmetry; rewrite !andb_true_iff; repeat split; apply Z.leb_le; sizes).
  unfold size. rewrite !Nat2Z.id, skipn_app, skipn_all, Nat.sub_diag. cbn [skipn app].
  rewrite firstn_app, firstn_all, Nat.sub_diag. cbn [firstn]. rewrite app_nil_r. reflexivity.
Qed.
Lemma slice_all {A} (l : list A) n : n = size l -> slice l 0 n = Done l.
Proof. intros ->. pose proof (slice_mid [] l [] 0 (size l) eq_refl eq_refl) as E. cbn [app] in E. rewrite app_nil_r in E. exact E. Qed.
(** A list cut at an index. *)
Lemma cut {A} (l : list A) n : 0 <= n <= size l -> exists a b, l = a ++ b /\ size a = n.
Proof.
  intros H. exists (firstn (Z.to_nat n) l), (skipn (Z.to_nat n) l). split; [symmetry; apply firstn_skipn|].
  unfold size in *. rewrite length_firstn. lia.
Qed.

(** ** Elements by index *)
Definition item {A} (d : A) (l : list A) (i : Z) : A := nth (Z.to_nat i) l d.
Definition upd {A} (l : list A) (i : Z) (x : A) : list A := set_nth (Z.to_nat i) x l.

Section Items.
Context {A : Type} (d : A).
Lemma get_item (l : list A) i : 0 <= i < size l -> get l i = Done (item d l i).
Proof.
  intros H. destruct (get_in l i H) as (x & E & N & _). rewrite E. unfold item. f_equal. symmetry. apply nth_error_nth, N.
Qed.
Lemma size_upd (l : list A) i x : size (upd l i x) = size l.
Proof. unfold size, upd. rewrite length_set_nth. reflexivity. Qed.
Lemma set_upd (l : list A) i x : 0 <= i < size l -> set l i x = Done (upd l i x).
Proof. intros H. unfold set. replace (_ && _) with true by lia. reflexivity. Qed.
Lemma item_upd (l : list A) i x j : 0 <= i < size l -> 0 <= j < size l -> item d (upd l i x) j = if j =? i then x else item d l j.
Proof.
  intros Hi Hj. pose proof (get_item (upd l i x) j) as G. rewrite size_upd in G. specialize (G Hj).
  unfold get in G. replace (j <? 0) with false in G by lia. unfold upd in G at 1. rewrite nth_error_set_nth in G.
  unfold size in *. destruct (Z.eqb_spec j i) as [->|N].
  - rewrite Nat.eqb_refl in G. replace (Z.to_nat i <? length l)%nat with true in G by (symmetry; apply Nat.ltb_lt; lia). congruence.
  - replace (Z.to_nat i =? Z.to_nat j)%nat with false in G by (symmetry; apply Nat.eqb_neq; lia).
    unfold item at 2. destruct (nth_error l (Z.to_nat j)) eqn:E; [|discriminate]. rewrite (nth_error_nth _ _ _ E). congruence.
Qed.
Lemma split_at (l : list A) i : 0 <= i < size l -> exists a b, l = a ++ item d l i :: b /\ size a = i.
Proof.
  intros H. destruct (nth_error_split l (Z.to_nat i)) with (a := item d l i) as (a & b & E & L).
  - pose proof (get_item l i H) as G. unfold get in G. replace (i <? 0) with false in G by lia.
    destruct (nth_error l (Z.to_nat i)); congruence.
  - exists a, b. split; [exact E|]. unfold size. lia.
Qed.
End Items.

(** ** Loops over the elements of a list *)
Lemma for_from_list {S T} (f : S -> T -> S) (l : list T) : forall i body s,
  (forall pre x post s, l = pre ++ x :: post -> body (i + size pre) s = Done (f s x)) ->
  for_from (length l) i body s = Done (fold_left f l s).
Proof.
  induction l as [|x l IH]; intros i body s H; cbn [length for_from fold_left]; [reflexivity|].
  pose proof (H [] x l s eq_refl) as E. rewrite size_nil, Z.add_0_r in E. rewrite E. cbn [rbind].
  apply IH. intros pre y post s' ->. specialize (H (x :: pre) y post s' eq_refl). rewrite size_cons in H.
  rewrite <- H. f_equal. lia.
Qed.
(** The state after the elements of a prefix. *)
Lemma for_from_returns {S T} (I : list T -> S -> Prop) (l : list T) i body s :
  I [] s -> (forall pre x post s, l = pre ++ x :: post -> I pre s -> returns (I (pre ++ [x])) (body (i + size pre) s)) ->
  returns (I l) (for_from (length l) i body s).
Proof.
  intros H0 H. assert (G : forall post pre s, l = pre ++ post -> I pre s -> returns (I l) (for_from (length post) (i + size pre) body s)).
  { intros post. induction post as [|x post IH]; intros pre s' E HI; cbn [length for_from].
    - apply returns_done. rewrite E, app_nil_r. exact HI.
    - eapply returns_bind; [apply (H pre x post s' E HI)|]. intros s'' HI'. cbn beta.
      specialize (IH (pre ++ [x]) s''). rewrite <- app_assoc in IH. specialize (IH E HI').
      replace (i + size pre + 1) with (i + size (pre ++ [x])) by sizes. exact IH. }
  pose proof (G l [] s eq_refl H0) as R. rewrite size_nil, Z.add_0_r in R. exact R.
Qed.
Lemma all_from_list {T} (p : T -> bool) (l : list T) : forall i body,
  (forall pre x post, l = pre ++ x :: post -> body (i + size pre) = Done (p x)) ->
  all_from (length l) i body = Done (forallb p l).
Proof.
  induction l as [|x l IH]; intros i body H; cbn [length all_from forallb]; [reflexivity|].
  pose proof (H [] x l eq_refl) as E. rewrite size_nil, Z.add_0_r in E. rewrite E. cbn [rbind].
  destruct (p x); [|reflexivity]. cbn [andb].
  apply IH. intros pre y post ->. specialize (H (x :: pre) y post eq_refl). rewrite size_cons in H.
  rewrite <- H. f_equal. lia.
Qed.
