(* ===== verification/Unicode.v ===== *)
(** * Unicode ([platform/unicode.{h,cc}], [vm/unicode.cc])

    UTF-8 and UTF-16: lengths, encoding and decoding of code points, validation, and
    the conversions of byte arrays. *)

From Stdlib Require Import ZArith Bool List Lia.
From S2P Require Import Prelude Result Arrays.
Import ListNotations.
Open Scope Z_scope.
Open Scope cint_scope.

Module Utf.
Definition kMaxCodePoint : Z := 0x10FFFF.
Definition kInvalidChar : Z := sN 32 0xFFFFFFFF.
Definition kReplacementChar : Z := 0xFFFD.
Definition IsLatin1 (code_point : Z) : bool := (code_point >=? 0) && (code_point <=? 0xFF).
Definition IsBmp (code_point : Z) : bool := (code_point >=? 0) && (code_point <=? 0xFFFF).
Definition IsSupplementary (code_point : Z) : bool := (code_point >? 0xFFFF) && (code_point <=? kMaxCodePoint).
Definition IsOutOfRange (code_point : Z) : bool := (code_point <? 0) || (code_point >? kMaxCodePoint).
End Utf.

Module Utf16.
Definition kMaxCodeUnit : Z := 0xFFFF.
Definition kLeadSurrogateOffset : Z := 0xD800 - (0x10000 >> 10).
Definition Length (ch : Z) : Z := if ch <=? kMaxCodeUnit then 1 else 2.
Definition IsSurrogate (ch : Z) : bool := (uN 32 ch .& 0xFFFFF800) =? 0xD800.
Definition IsLeadSurrogate (ch : Z) : bool := (uN 32 ch .& 0xFFFFFC00) =? 0xD800.
Definition IsTrailSurrogate (ch : Z) : bool := (uN 32 ch .& 0xFFFFFC00) =? 0xDC00.
Definition CombineSurrogatePair (lead trail : Z) : Z := uN 32 (0x10000 + ((lead .& 0x3ff) << 10) + (trail .& 0x3ff)).
Definition LeadSurrogate (char_code : Z) : Z := uN 16 (0xd800 + ((uN 32 (char_code - 0x10000) >> 10) .& 0x3ff)).
Definition TrailSurrogate (char_code : Z) : Z := uN 16 (0xdc00 + (char_code .& 0x3ff)).
Definition Decode (lead trail : Z) : Z := 0x10000 + ((lead .& 0x3FF) << 10) + (trail .& 0x3FF).

(** The two code units [Encode] stores. *)
Definition Encode (codepoint : Z) : result (Z * Z) :=
  require codepoint >? kMaxCodeUnit;;
  Done (uN 16 (kLeadSurrogateOffset + (codepoint >> 10)), uN 16 (0xDC00 + (codepoint .& 0x3FF))).

(** The character at [i], and the index of the next one. *)
Definition Next (characters : list Z) (i len : Z) : result (Z * Z) :=
  let* ch := get characters i in
  if IsLeadSurrogate ch && (i <? len - 1) then
    let* ch2 := get characters (i + 1) in
    if IsTrailSurrogate ch2 then Done (Decode ch ch2, i + 2) else Done (ch, i + 1)
  else Done (ch, i + 1).
End Utf16.

Module Utf8.
Inductive Type_ := kLatin1 | kBMP | kSupplementary.

Definition kTrailBytes : list Z :=
  [1; 1; 1; 1; 1; 1; 1; 1; 1; 1; 1; 1; 1; 1; 1; 1;
   1; 1; 1; 1; 1; 1; 1; 1; 1; 1; 1; 1; 1; 1; 1; 1;
   1; 1; 1; 1; 1; 1; 1; 1; 1; 1; 1; 1; 1; 1; 1; 1;
   1; 1; 1; 1; 1; 1; 1; 1; 1; 1; 1; 1; 1; 1; 1; 1;
   1; 1; 1; 1; 1; 1; 1; 1; 1; 1; 1; 1; 1; 1; 1; 1;
   1; 1; 1; 1; 1; 1; 1; 1; 1; 1; 1; 1; 1; 1; 1; 1;
   1; 1; 1; 1; 1; 1; 1; 1; 1; 1; 1; 1; 1; 1; 1; 1;
   1; 1; 1; 1; 1; 1; 1; 1; 1; 1; 1; 1; 1; 1; 1; 1;
   0; 0; 0; 0; 0; 0; 0; 0; 0; 0; 0; 0; 0; 0; 0; 0;
   0; 0; 0; 0; 0; 0; 0; 0; 0; 0; 0; 0; 0; 0; 0; 0;
   0; 0; 0; 0; 0; 0; 0; 0; 0; 0; 0; 0; 0; 0; 0; 0;
   0; 0; 0; 0; 0; 0; 0; 0; 0; 0; 0; 0; 0; 0; 0; 0;
   2; 2; 2; 2; 2; 2; 2; 2; 2; 2; 2; 2; 2; 2; 2; 2;
   2; 2; 2; 2; 2; 2; 2; 2; 2; 2; 2; 2; 2; 2; 2; 2;
   3; 3; 3; 3; 3; 3; 3; 3; 3; 3; 3; 3; 3; 3; 3; 3;
   4; 4; 4; 4; 4; 4; 4; 4; 5; 5; 5; 5; 6; 6; 0; 0].
Definition kMagicBits : list Z := [0; 0x00000000; 0x00003080; 0x000E2080; 0x03C82080; 0xFA082080; 0x82082080].
Definition kOverlongMinimum : list Z := [0; 0x0; 0x80; 0x800; 0x10000; 0xFFFFFFFF; 0xFFFFFFFF].

Definition kMaxOneByteChar : Z := 0x7F.
Definition kMaxTwoByteChar : Z := 0x7FF.
Definition kMaxThreeByteChar : Z := 0xFFFF.
Definition kMaxFourByteChar : Z := Utf.kMaxCodePoint.

Definition IsTrailByte (code_unit : Z) : bool := (code_unit .& 0xC0) =? 0x80.
Definition IsNonShortestForm (code_point num_code_units : Z) : result bool :=
  let* m := get kOverlongMinimum num_code_units in Done (code_point <? m).
Definition IsLatin1SequenceStart (code_unit : Z) : bool := code_unit <=? 0xC3.
Definition IsSupplementarySequenceStart (code_unit : Z) : bool := code_unit >=? 0xF0.

Fixpoint CodeUnitCount_loop (utf8_array : list Z) (len : Z) (char_type : Type_) : Z * Type_ :=
  match utf8_array with
  | [] => (len, char_type)
  | code_unit :: rest =>
      if negb (IsTrailByte code_unit) then
        let len := len + 1 in
        if negb (IsLatin1SequenceStart code_unit) then
          if IsSupplementarySequenceStart code_unit then CodeUnitCount_loop rest (len + 1) kSupplementary
          else CodeUnitCount_loop rest len (match char_type with kLatin1 => kBMP | t => t end)
        else CodeUnitCount_loop rest len char_type
      else CodeUnitCount_loop rest len char_type
  end.
Definition CodeUnitCount (utf8_array : list Z) : Z * Type_ := CodeUnitCount_loop utf8_array 0 kLatin1.

Definition Length (ch : Z) : result Z :=
  if ch <=? kMaxOneByteChar then Done 1
  else if ch <=? kMaxTwoByteChar then Done 2
  else if ch <=? kMaxThreeByteChar then Done 3
  else require ch <=? kMaxFourByteChar;; Done 4.

(** The bytes [Encode] stores in [dst]; it returns their number. *)
Definition kMask : Z := Z.lnot (1 << 6).
Definition Encode (ch : Z) : result (list Z) :=
  if ch <=? kMaxOneByteChar then Done [uN 8 ch]
  else if ch <=? kMaxTwoByteChar then Done [uN 8 (0xC0 .| (ch >> 6)); uN 8 (0x80 .| (ch .& kMask))]
  else if ch <=? kMaxThreeByteChar then
    Done [uN 8 (0xE0 .| (ch >> 12)); uN 8 (0x80 .| ((ch >> 6) .& kMask)); uN 8 (0x80 .| (ch .& kMask))]
  else
    require ch <=? kMaxFourByteChar;;
    Done [uN 8 (0xF0 .| (ch >> 18)); uN 8 (0x80 .| ((ch >> 12) .& kMask)); uN 8 (0x80 .| ((ch >> 6) .& kMask)); uN 8 (0x80 .| (ch .& kMask))].

(** The loop of [Decode] and [IsValid] over the bytes after the first, which is at
    [i]: none when the array ends too early, else the number of bytes, their bits, and
    whether one was no trail byte. *)
Fixpoint trail_loop (n : nat) (utf8_array : list Z) (array_len i num_trail_bytes j ch : Z) (is_malformed : bool) :
  result (option (Z * Z * bool)) :=
  match n with
  | O => OutOfFuel
  | S n =>
      if j <? num_trail_bytes then
        if i + j <? array_len then
          let* code_unit := get utf8_array (i + j) in
          trail_loop n utf8_array array_len i num_trail_bytes (j + 1) (uN 32 ((ch << 6) + code_unit)) (is_malformed || negb (IsTrailByte code_unit))
        else Done None
      else Done (Some (j, ch, is_malformed))
  end.

(** The bytes of the sequence at [i] whose first byte is [ch], and its code point: none
    when it is not valid. *)
Definition DecodeSequence (utf8_array : list Z) (array_len i ch : Z) : result (option (Z * Z)) :=
  let* num_trail_bytes := get kTrailBytes ch in
  let* r := trail_loop 8 utf8_array array_len i num_trail_bytes 1 ch false in
  match r with
  | None => Done None
  | Some (j, ch, is_malformed) =>
      let* magic := get kMagicBits num_trail_bytes in
      let ch := uN 32 (ch - magic) in
      if Bool.eqb is_malformed false && (j =? num_trail_bytes) && negb (Utf.IsOutOfRange (sN 32 ch)) then
        let* short := IsNonShortestForm ch j in
        if negb short then Done (Some (j, ch)) else Done None
      else Done None
  end.

(** The bytes read (0 when the input is not valid) and the code point (then -1). *)
Definition Decode (utf8_array : list Z) (array_len : Z) : result (Z * Z) :=
  let* first := get utf8_array 0 in
  let ch := first .& 0xFF in
  if ch >=? 0x80 then
    let* r := DecodeSequence utf8_array array_len 0 ch in
    match r with None => Done (0, -1) | Some (i, ch) => Done (i, sN 32 ch) end
  else Done (1, sN 32 ch).

Fixpoint IsValid_loop (n : nat) (utf8_array : list Z) (array_len i : Z) : result bool :=
  match n with
  | O => OutOfFuel
  | S n =>
      if i <? array_len then
        let* first := get utf8_array i in
        let ch := first .& 0xFF in
        if ch >=? 0x80 then
          let* r := DecodeSequence utf8_array array_len i ch in
          match r with None => Done false | Some (j, _) => IsValid_loop n utf8_array array_len (i + j) end
        else IsValid_loop n utf8_array array_len (i + 1)
      else Done true
  end.
Definition IsValid (utf8_array : list Z) : result bool :=
  IsValid_loop (S (length utf8_array)) utf8_array (size utf8_array) 0.

(** *** Decoding arrays *)
Section Decoding.
Context (utf8_array : list Z).
Abbreviation array_len := (size utf8_array).

(** [Utf8::Decode(&utf8_array[i], array_len - i, &ch)]. *)
Definition DecodeAt (i : Z) : result (Z * Z) := Decode (skipn (Z.to_nat i) utf8_array) (array_len - i).

(** Whether the input was valid and fitted, and the output. *)
Fixpoint DecodeToLatin1_loop (n : nat) (i j len : Z) (dst : list Z) : result (bool * list Z) :=
  match n with
  | O => OutOfFuel
  | S n =>
      if (i <? array_len) && (j <? len) then
        let* first := get utf8_array i in
        require IsLatin1SequenceStart first;;
        let* (num_bytes, ch) := DecodeAt i in
        if ch =? -1 then Done (false, dst)
        else require Utf.IsLatin1 ch;;
             let* dst := set dst j (uN 8 ch) in
             DecodeToLatin1_loop n (i + num_bytes) (j + 1) len dst
      else Done (negb ((i <? array_len) && (j =? len)), dst)
  end.

Fixpoint DecodeToUTF16_loop (n : nat) (i j len : Z) (dst : list Z) : result (bool * list Z) :=
  match n with
  | O => OutOfFuel
  | S n =>
      if (i <? array_len) && (j <? len) then
        let* first := get utf8_array i in
        let is_supplementary := IsSupplementarySequenceStart first in
        let* (num_bytes, ch) := DecodeAt i in
        if ch =? -1 then Done (false, dst)
        else if is_supplementary then
          if j =? len - 1 then Done (false, dst)
          else let* (lead, trail) := Utf16.Encode ch in
               let* dst := set dst j lead in
               let* dst := set dst (j + 1) trail in
               DecodeToUTF16_loop n (i + num_bytes) (j + 2) len dst
        else let* dst := set dst j (uN 16 ch) in
             DecodeToUTF16_loop n (i + num_bytes) (j + 1) len dst
      else Done (negb ((i <? array_len) && (j =? len)), dst)
  end.

Fixpoint DecodeToUTF32_loop (n : nat) (i j len : Z) (dst : list Z) : result (bool * list Z) :=
  match n with
  | O => OutOfFuel
  | S n =>
      if (i <? array_len) && (j <? len) then
        let* (num_bytes, ch) := DecodeAt i in
        if ch =? -1 then Done (false, dst)
        else let* dst := set dst j ch in DecodeToUTF32_loop n (i + num_bytes) (j + 1) len dst
      else Done (negb ((i <? array_len) && (j =? len)), dst)
  end.

Definition DecodeToLatin1 (dst : list Z) : result (bool * list Z) := DecodeToLatin1_loop (S (length utf8_array)) 0 0 (size dst) dst.
Definition DecodeToUTF16 (dst : list Z) : result (bool * list Z) := DecodeToUTF16_loop (S (length utf8_array)) 0 0 (size dst) dst.
Definition DecodeToUTF32 (dst : list Z) : result (bool * list Z) := DecodeToUTF32_loop (S (length utf8_array)) 0 0 (size dst) dst.

(** The position of the first invalid sequence. *)
Fixpoint ReportInvalidByte_loop (n : nat) (i j len : Z) : result Z :=
  match n with
  | O => OutOfFuel
  | S n =>
      if (i <? array_len) && (j <? len) then
        let* first := get utf8_array i in
        let is_supplementary := IsSupplementarySequenceStart first in
        let* (num_bytes, ch) := DecodeAt i in
        if ch =? -1 then Done i
        else ReportInvalidByte_loop n (i + num_bytes) (if is_supplementary then j + 2 else j + 1) len
      else Done i
  end.
Definition ReportInvalidByte (len : Z) : result Z := ReportInvalidByte_loop (S (length utf8_array)) 0 0 len.
End Decoding.

(** A C string ends at its first zero. *)
Fixpoint c_string (str : list Z) : list Z :=
  match str with [] => [] | b :: rest => if b =? 0 then [] else b :: c_string rest end.
Definition DecodeCStringToUTF32 (str dst : list Z) : result (bool * list Z) := DecodeToUTF32 (c_string str) dst.
End Utf8.
