(* ===== verification/UnicodeProofs.v ===== *)
(** * Correctness of the Unicode conversions

    [utf8_of] and [utf8] define the UTF-8 form of a code point and of a list of code
    points by arithmetic; [Utf8::Encode] produces it, and [Utf8::Decode] accepts exactly
    these sequences. *)

From Stdlib Require Import ZArith Bool List Lia.
From S2P Require Import Prelude Result Arrays Unicode.
Import ListNotations.
Open Scope Z_scope.
Open Scope cint_scope.

(** ** The specification *)
Definition code_point (c : Z) : Prop := 0 <= c <= 0x10FFFF.
Definition byte (b : Z) : Prop := 0 <= b < 256.

Definition utf8_of (c : Z) : list Z :=
  if c <? 0x80 then [c]
  else if c <? 0x800 then [0xC0 + c / 64; 0x80 + c mod 64]
  else if c <? 0x10000 then [0xE0 + c / 4096; 0x80 + c / 64 mod 64; 0x80 + c mod 64]
  else [0xF0 + c / 262144; 0x80 + c / 4096 mod 64; 0x80 + c / 64 mod 64; 0x80 + c mod 64].
Definition utf8 (cs : list Z) : list Z := flat_map utf8_of cs.

Definition utf16_of (c : Z) : list Z :=
  if c <? 0x10000 then [c] else [0xD800 + (c - 0x10000) / 1024; 0xDC00 + c mod 1024].
Definition utf16 (cs : list Z) : list Z := flat_map utf16_of cs.

(** The first code point of a byte sequence and the bytes after it, when it starts with
    a well-formed one.  Surrogates are accepted. *)
Definition trail (b : Z) : bool := (0x80 <=? b) && (b <? 0xC0).
Definition parse (bs : list Z) : option (Z * list Z) :=
  match bs with
  | b0 :: r0 =>
      if b0 <? 0x80 then Some (b0, r0)
      else match r0 with
      | b1 :: r1 =>
          if negb (trail b1) then None
          else if (0xC2 <=? b0) && (b0 <? 0xE0) then Some ((b0 - 0xC0) * 64 + (b1 - 0x80), r1)
          else match r1 with
          | b2 :: r2 =>
              if negb (trail b2) then None
              else if (0xE0 <=? b0) && (b0 <? 0xF0) then
                let c := (b0 - 0xE0) * 4096 + (b1 - 0x80) * 64 + (b2 - 0x80) in
                if 0x800 <=? c then Some (c, r2) else None
              else match r2 with
              | b3 :: r3 =>
                  if negb (trail b3) then None
                  else if (0xF0 <=? b0) && (b0 <? 0xF8) then
                    let c := (b0 - 0xF0) * 262144 + (b1 - 0x80) * 4096 + (b2 - 0x80) * 64 + (b3 - 0x80) in
                    if (0x10000 <=? c) && (c <=? 0x10FFFF) then Some (c, r3) else None
                  else None
              | [] => None
              end
          | [] => None
          end
      | [] => None
      end
  | [] => None
  end.

Ltac ztests := repeat match goal with
  | |- context [?a <? ?b] => destruct (Z.ltb_spec a b)
  | |- context [?a <=? ?b] => destruct (Z.leb_spec a b)
  end.
Ltac zdiv := Z.div_mod_to_equations; lia.

Lemma utf8_of_bytes c : code_point c -> Forall byte (utf8_of c).
Proof. unfold code_point, utf8_of, byte. intros H. ztests; repeat constructor; zdiv. Qed.

Lemma utf8_of_size c : 1 <= size (utf8_of c) <= 4.
Proof. unfold utf8_of. ztests; unfold size; cbn; lia. Qed.

Lemma parse_utf8 c r : code_point c -> parse (utf8_of c ++ r) = Some (c, r).
Proof.
  unfold code_point, utf8_of, parse, trail. intros H.
  destruct (Z.ltb_spec c 0x80); [cbn [app]; destruct (Z.ltb_spec c 0x80); [reflexivity|lia]|].
  destruct (Z.ltb_spec c 0x800); [|destruct (Z.ltb_spec c 0x10000)]; cbn [app];
    repeat match goal with |- context [if ?b then _ else _] =>
      let E := fresh in (assert (b = true) as E by (rewrite ?negb_true_iff, ?andb_true_iff, ?andb_false_iff, ?Z.leb_le, ?Z.ltb_lt, ?Z.ltb_ge, ?Z.leb_gt; zdiv)) ||
      (assert (b = false) as E by (rewrite ?negb_false_iff, ?andb_true_iff, ?andb_false_iff, ?Z.leb_le, ?Z.ltb_lt, ?Z.ltb_ge, ?Z.leb_gt; zdiv)); rewrite E; clear E end;
    do 2 f_equal; zdiv.
Qed.

Lemma parse_inv bs c r : Forall byte bs -> parse bs = Some (c, r) -> code_point c /\ bs = utf8_of c ++ r.
Proof.
  intros HB. unfold parse, trail. destruct bs as [|b0 r0]; [discriminate|]. apply Forall_cons_iff in HB as [B0 HB].
  unfold byte in *. unfold code_point, utf8_of.
  destruct (Z.ltb_spec b0 0x80).
  { intros E. inversion E; subst. split; [lia|]. ztests; try lia; reflexivity. }
  destruct r0 as [|b1 r1]; [discriminate|]. destruct (Z.leb_spec 0x80 b1), (Z.ltb_spec b1 0xC0); cbn [negb andb]; try discriminate.
  destruct (Z.leb_spec 0xC2 b0), (Z.ltb_spec b0 0xE0); cbn [negb andb].
  { intros E. inversion E; subst. split; [lia|]. ztests; try lia. cbn [app]. do 2 f_equal; [|f_equal]; zdiv. }
  all: destruct r1 as [|b2 r2]; [discriminate|]; destruct (Z.leb_spec 0x80 b2), (Z.ltb_spec b2 0xC0); cbn [negb andb]; try discriminate.
  all: destruct (Z.leb_spec 0xE0 b0), (Z.ltb_spec b0 0xF0); cbn [negb andb]; try lia.
  { destruct (Z.leb_spec 0x800 ((b0 - 224) * 4096 + (b1 - 128) * 64 + (b2 - 128))); [|discriminate].
    intros E. inversion E; subst. split; [lia|]. ztests; try lia. cbn [app]. repeat f_equal; zdiv. }
  all: destruct r2 as [|b3 r3]; [discriminate|]; destruct (Z.leb_spec 0x80 b3), (Z.ltb_spec b3 0xC0); cbn [negb andb]; try discriminate.
  all: destruct (Z.leb_spec 0xF0 b0), (Z.ltb_spec b0 0xF8); cbn [negb andb]; try discriminate; try lia.
  destruct (Z.leb_spec 0x10000 ((b0 - 240) * 262144 + (b1 - 128) * 4096 + (b2 - 128) * 64 + (b3 - 128))); [|discriminate].
  match goal with |- context [?a <=? ?b] => destruct (Z.leb_spec a b) end; [|discriminate]. cbn [andb].
  intros E. inversion E; subst. split; [lia|]. ztests; try lia. cbn [app]. repeat f_equal; zdiv.
Qed.

(** ** Encoding *)
Lemma trail_bits x : uN 8 (0x80 .| (x .& Utf8.kMask)) = 0x80 + x mod 64.
Proof.
  pose proof (lor_disjoint (x mod 64) 1 7 ltac:(lia) ltac:(change (2 ^ 7) with 128; pose proof (Z.mod_pos_bound x 64); lia)) as E.
  replace (0x80 + x mod 64) with (x mod 64 .| (1 << 7)) by (rewrite E; lia). clear E.
  apply Z.bits_inj'. intros i Hi. unfold Utf8.kMask. change (1 << 7) with 128. change (1 << 6) with 64.
  rewrite testbit_uN, !Z.lor_spec, Z.land_spec, Z.lnot_spec by lia. fold (uN 6 x). change (x mod 64) with (uN 6 x). rewrite testbit_uN by lia.
  destruct (Z.ltb_spec i 8).
  - assert (i = 0 \/ i = 1 \/ i = 2 \/ i = 3 \/ i = 4 \/ i = 5 \/ i = 6 \/ i = 7) as C by lia.
    destruct C as [C|[C|[C|[C|[C|[C|[C|C]]]]]]]; subst i; cbn; rewrite ?orb_false_r, ?andb_true_r, ?andb_false_r; reflexivity.
  - replace (i <? 6) with false by (symmetry; apply Z.ltb_ge; lia).
    rewrite (testbit_uN_high 8 128 i) by (unfold is_uN; lia). reflexivity.
Qed.

(** A lead byte: the marker [m] above [k] bits. *)
Lemma lead_bits m k x s : 0 <= k -> 0 <= s -> 0 <= x / 2 ^ s < 2 ^ k -> 0 <= m -> (m + 1) * 2 ^ k <= 256 ->
  uN 8 ((m << k) .| (x >> s)) = m * 2 ^ k + x / 2 ^ s.
Proof.
  intros Hk Hs Hx Hm Hb. rewrite Z.lor_comm, Z.shiftr_div_pow2, lor_disjoint by lia. rewrite uN_small; [lia|]. unfold is_uN. change (2 ^ 8) with 256. nia.
Qed.

Lemma Encode_utf8 c : code_point c -> Utf8.Encode c = Done (utf8_of c).
Proof.
  unfold code_point. intros H. unfold Utf8.Encode, utf8_of, Utf8.kMaxOneByteChar, Utf8.kMaxTwoByteChar, Utf8.kMaxThreeByteChar, Utf8.kMaxFourByteChar, Utf.kMaxCodePoint.
  rewrite !trail_bits, !Z.shiftr_div_pow2 by lia.
  ztests; try lia; do 2 f_equal.
  - apply uN_small. unfold is_uN. lia.
  - rewrite <- Z.shiftr_div_pow2 by lia. apply (lead_bits 6 5 c 6); zdiv.
  - rewrite <- Z.shiftr_div_pow2 by lia. apply (lead_bits 14 4 c 12); zdiv.
  - rewrite <- Z.shiftr_div_pow2 by lia. apply (lead_bits 30 3 c 18); zdiv.
Qed.

Lemma Length_utf8 c : code_point c -> Utf8.Length c = Done (size (utf8_of c)).
Proof.
  unfold code_point. intros H. unfold Utf8.Length, utf8_of, Utf8.kMaxOneByteChar, Utf8.kMaxTwoByteChar, Utf8.kMaxThreeByteChar, Utf8.kMaxFourByteChar, Utf.kMaxCodePoint.
  ztests; try lia; reflexivity.
Qed.

(** ** Decoding *)
Lemma IsTrailByte_trail b : byte b -> Utf8.IsTrailByte b = trail b.
Proof.
  intros H. apply eqb_prop. apply (all_below 256 (fun b => Bool.eqb (Utf8.IsTrailByte b) (trail b))); [vm_compute; reflexivity|exact H].
Qed.

Definition sequence_length (b : Z) : Z :=
  if b <? 0x80 then 1 else if b <? 0xC0 then 0 else if b <? 0xE0 then 2 else if b <? 0xF0 then 3
  else if b <? 0xF8 then 4 else if b <? 0xFC then 5 else if b <? 0xFE then 6 else 0.
Lemma kTrailBytes_length b : byte b -> get Utf8.kTrailBytes b = Done (sequence_length b).
Proof.
  intros H. pose proof (all_below 256 (fun b => match get Utf8.kTrailBytes b with Done n => n =? sequence_length b | _ => false end) ltac:(vm_compute; reflexivity) b H) as E.
  cbn beta in E. destruct (get Utf8.kTrailBytes b) as [n| |]; [|discriminate..]. apply Z.eqb_eq in E. rewrite E. reflexivity.
Qed.

Section Sequence.
Context (pre : list Z).

(** One step of the loop, at the bytes that are left. *)
Lemma trail_step n seen bs num ch m : size seen < num -> Forall byte bs ->
  Utf8.trail_loop (S n) (pre ++ seen ++ bs) (size (pre ++ seen ++ bs)) (size pre) num (size seen) ch m =
  match bs with
  | [] => Done None
  | b :: _ => Utf8.trail_loop n (pre ++ seen ++ bs) (size (pre ++ seen ++ bs)) (size pre) num (size seen + 1) (uN 32 (ch * 64 + b)) (m || negb (trail b))
  end.
Proof.
  intros Hn HB. cbn [Utf8.trail_loop]. rewrite (proj2 (Z.ltb_lt _ _)) by exact Hn. destruct bs as [|b bs].
  - rewrite (proj2 (Z.ltb_ge _ _)) by sizes. reflexivity.
  - rewrite (proj2 (Z.ltb_lt _ _)) by sizes. rewrite app_assoc, get_mid by sizes. cbn [rbind].
    rewrite <- IsTrailByte_trail by (inversion HB; assumption). rewrite Z.shiftl_mul_pow2 by lia. reflexivity.
Qed.

Lemma trail_done n arr alen num ch m : Utf8.trail_loop (S n) arr alen (size pre) num num ch m = Done (Some (num, ch, m)).
Proof. cbn [Utf8.trail_loop]. rewrite Z.ltb_irrefl. reflexivity. Qed.

(** The loop returns, with as many bytes as the first one asks for. *)
Lemma trail_returns num : forall n seen bs ch m, 1 <= size seen <= num -> num - size seen < Z.of_nat n -> Forall byte bs ->
  let arr := pre ++ seen ++ bs in
  Utf8.trail_loop n arr (size arr) (size pre) num (size seen) ch m = Done None \/
  exists ch' m', Utf8.trail_loop n arr (size arr) (size pre) num (size seen) ch m = Done (Some (num, ch', m')).
Proof.
  intros n. induction n as [|n IH]; intros seen bs ch m Hs Hn HB arr; [lia|].
  destruct (Z.eq_dec (size seen) num) as [E|E].
  - right. exists ch, m. rewrite E. apply trail_done.
  - unfold arr. rewrite trail_step by (assumption || lia). destruct bs as [|b bs]; [left; reflexivity|].
    specialize (IH (seen ++ [b]) bs (uN 32 (ch * 64 + b)) (m || negb (trail b))). cbn zeta in IH.
    rewrite <- app_assoc in IH. cbn [app] in IH. rewrite size_app in IH. change (size [b]) with 1 in IH. apply IH; [lia..|].
    inversion HB; assumption.
Qed.
End Sequence.

(** What follows the loop. *)
Lemma checked_sequence num ch magic minimum m :
  get Utf8.kMagicBits num = Done magic -> get Utf8.kOverlongMinimum num = Done minimum -> (m = false -> 0 <= ch - magic < 2 ^ 31) ->
  (let* magic := get Utf8.kMagicBits num in
   let ch := uN 32 (ch - magic) in
   if Bool.eqb m false && (num =? num) && negb (Utf.IsOutOfRange (sN 32 ch)) then
     let* short := Utf8.IsNonShortestForm ch num in if negb short then Done (Some (num, ch)) else Done None
   else Done None) =
  Done (if negb m && (minimum <=? ch - magic) && (ch - magic <=? 0x10FFFF) then Some (num, ch - magic) else None).
Proof.
  intros E1 E2 H. rewrite E1. cbn [rbind]. unfold Utf8.IsNonShortestForm. rewrite E2, Z.eqb_refl. cbn [rbind].
  destruct m; cbn [Bool.eqb negb andb]; [reflexivity|]. specialize (H eq_refl).
  rewrite uN_small by (unfold is_uN; lia). rewrite sN_small by (unfold is_sN; lia).
  unfold Utf.IsOutOfRange, Utf.kMaxCodePoint. rewrite Z.gtb_ltb.
  ztests; try lia; reflexivity.
Qed.

(** No sequence is longer than four bytes. *)
Lemma long_sequence num ch m : num = 5 \/ num = 6 ->
  (let* magic := get Utf8.kMagicBits num in
   let ch := uN 32 (ch - magic) in
   if Bool.eqb m false && (num =? num) && negb (Utf.IsOutOfRange (sN 32 ch)) then
     let* short := Utf8.IsNonShortestForm ch num in if negb short then Done (Some (num, ch)) else Done None
   else Done None) = Done None.
Proof.
  intros E. assert (exists magic, get Utf8.kMagicBits num = Done magic) as [magic E1] by (destruct E; subst num; eexists; reflexivity).
  assert (get Utf8.kOverlongMinimum num = Done 0xFFFFFFFF) as E2 by (destruct E; subst num; reflexivity).
  rewrite E1. cbn [rbind]. unfold Utf8.IsNonShortestForm. rewrite E2. cbn [rbind]. clear E1 E2 E.
  set (x := uN 32 (ch - magic)). assert (is_uN 32 x) as R by (apply uN_range; lia). clearbody x. unfold is_uN in R.
  destruct (Z.eq_dec x 0xFFFFFFFF) as [Ex|N]; [subst x; rewrite andb_comm; reflexivity|].
  rewrite (proj2 (Z.ltb_lt x 0xFFFFFFFF)) by lia. destruct (_ && _); reflexivity.
Qed.

(** [parse] by the class of the first byte. *)
Ltac decided := repeat match goal with
  | |- context [?a <? ?b] => first [rewrite (proj2 (Z.ltb_lt a b)) by lia | rewrite (proj2 (Z.ltb_ge a b)) by lia]
  | |- context [?a <=? ?b] => first [rewrite (proj2 (Z.leb_le a b)) by lia | rewrite (proj2 (Z.leb_gt a b)) by lia]
  end; cbn [negb andb].
Ltac parse_class r := unfold parse; decided;
  destruct r as [|b1 [|b2 [|b3 r]]]; try reflexivity;
  repeat match goal with |- context [trail ?b] => is_var b; destruct (trail b) eqn:?; cbn [negb andb]; try reflexivity end;
  unfold trail in *; ztests; cbn [negb andb] in *; try reflexivity; try discriminate; try lia; do 2 f_equal; lia.
Lemma parse_none b0 r : 0x80 <= b0 < 0xC0 \/ 0xF8 <= b0 -> parse (b0 :: r) = None.
Proof.
  intros [H|H]; unfold parse; decided; destruct r as [|b1 [|b2 [|b3 r]]]; try reflexivity;
    repeat match goal with |- context [trail ?b] => destruct (trail b); try reflexivity end.
Qed.
Lemma parse_two b0 r : 0xC0 <= b0 < 0xE0 -> parse (b0 :: r) =
  match r with
  | b1 :: r1 => if trail b1 && (0x80 <=? b0 * 64 + b1 - 0x3080) then Some (b0 * 64 + b1 - 0x3080, r1) else None
  | [] => None end.
Proof. intros H. parse_class r. Qed.
Lemma parse_three b0 r : 0xE0 <= b0 < 0xF0 -> parse (b0 :: r) =
  match r with
  | b1 :: b2 :: r2 =>
      let c := (b0 * 64 + b1) * 64 + b2 - 0xE2080 in
      if trail b1 && trail b2 && (0x800 <=? c) then Some (c, r2) else None
  | _ => None end.
Proof. intros H. cbn zeta. parse_class r. Qed.
Lemma parse_four b0 r : 0xF0 <= b0 < 0xF8 -> parse (b0 :: r) =
  match r with
  | b1 :: b2 :: b3 :: r3 =>
      let c := ((b0 * 64 + b1) * 64 + b2) * 64 + b3 - 0x3C82080 in
      if trail b1 && trail b2 && trail b3 && (0x10000 <=? c) && (c <=? 0x10FFFF) then Some (c, r3) else None
  | _ => None end.
Proof. intros H. cbn zeta. parse_class r. Qed.

Lemma trail_range b : trail b = true -> 0x80 <= b < 0xC0.
Proof. unfold trail. rewrite andb_true_iff, Z.leb_le, Z.ltb_lt. tauto. Qed.
(** The bytes of a sequence that is not malformed. *)
Ltac well_formed := repeat rewrite ?orb_false_iff, ?negb_false_iff; cbn [orb]; intros; repeat match goal with
  | H : _ /\ _ |- _ => destruct H | H : trail _ = true |- _ => apply trail_range in H end; lia.

Lemma DecodeSequence_parse pre b0 r0 : Forall byte (b0 :: r0) -> 0x80 <= b0 ->
  Utf8.DecodeSequence (pre ++ b0 :: r0) (size (pre ++ b0 :: r0)) (size pre) b0 =
  Done (match parse (b0 :: r0) with Some (c, r) => Some (size (b0 :: r0) - size r, c) | None => None end).
Proof.
  intros HB H. apply Forall_cons_iff in HB as [B0 HB]. unfold Utf8.DecodeSequence. rewrite kTrailBytes_length by exact B0. cbn [rbind].
  change (pre ++ b0 :: r0) with (pre ++ [b0] ++ r0). change 1 with (size [b0]) at 1.
  unfold sequence_length. unfold byte in B0. rewrite (proj2 (Z.ltb_ge b0 0x80)) by lia.
  destruct (Z.ltb_spec b0 0xC0); [|destruct (Z.ltb_spec b0 0xE0); [|destruct (Z.ltb_spec b0 0xF0); [|destruct (Z.ltb_spec b0 0xF8)]]].
  - rewrite parse_none by lia. reflexivity.
  - rewrite parse_two by lia. rewrite trail_step by (reflexivity || exact HB). destruct r0 as [|b1 r1]; [reflexivity|].
    apply Forall_cons_iff in HB as [B1 _]. unfold byte in B1. change (size [b0] + 1) with 2. rewrite trail_done. cbn [rbind].
    rewrite uN_small by (unfold is_uN; lia). rewrite (checked_sequence 2 _ 0x3080 0x80) by (reflexivity || well_formed). cbn [orb]. rewrite negb_involutive.
    rewrite (proj2 (Z.leb_le _ 0x10FFFF)) by lia. rewrite andb_true_r. destruct (_ && _); [|reflexivity]. do 3 f_equal. sizes.
  - rewrite parse_three by lia. rewrite trail_step by (reflexivity || exact HB). destruct r0 as [|b1 r1]; [reflexivity|].
    apply Forall_cons_iff in HB as [B1 HB]. change (pre ++ [b0] ++ b1 :: r1) with (pre ++ [b0; b1] ++ r1). change (size [b0] + 1) with (size [b0; b1]).
    rewrite trail_step by (reflexivity || exact HB). destruct r1 as [|b2 r2]; [reflexivity|].
    apply Forall_cons_iff in HB as [B2 _]. unfold byte in B1, B2. change (size [b0; b1] + 1) with 3. rewrite trail_done. cbn [rbind].
    rewrite !uN_small by (unfold is_uN; rewrite ?uN_small by (unfold is_uN; lia); lia). rewrite (checked_sequence 3 _ 0xE2080 0x800) by (reflexivity || well_formed).
    cbn zeta. cbn [orb]. rewrite negb_orb, !negb_involutive.
    rewrite (proj2 (Z.leb_le _ 0x10FFFF)) by lia. rewrite andb_true_r. destruct (_ && _); [|reflexivity]. do 3 f_equal. sizes.
  - rewrite parse_four by lia. rewrite trail_step by (reflexivity || exact HB). destruct r0 as [|b1 r1]; [reflexivity|].
    apply Forall_cons_iff in HB as [B1 HB]. change (pre ++ [b0] ++ b1 :: r1) with (pre ++ [b0; b1] ++ r1). change (size [b0] + 1) with (size [b0; b1]).
    rewrite trail_step by (reflexivity || exact HB). destruct r1 as [|b2 r2]; [reflexivity|].
    apply Forall_cons_iff in HB as [B2 HB]. change (pre ++ [b0; b1] ++ b2 :: r2) with (pre ++ [b0; b1; b2] ++ r2). change (size [b0; b1] + 1) with (size [b0; b1; b2]).
    rewrite trail_step by (reflexivity || exact HB). destruct r2 as [|b3 r3]; [reflexivity|].
    apply Forall_cons_iff in HB as [B3 _]. unfold byte in B1, B2, B3. change (size [b0; b1; b2] + 1) with 4. rewrite trail_done. cbn [rbind].
    rewrite (uN_small 32 (b0 * 64 + b1)) by (unfold is_uN; lia). rewrite (uN_small 32 ((b0 * 64 + b1) * 64 + b2)) by (unfold is_uN; lia).
    rewrite uN_small by (unfold is_uN; lia). rewrite (checked_sequence 4 _ 0x3C82080 0x10000) by (reflexivity || well_formed).
    cbn zeta. cbn [orb]. rewrite !negb_orb, !negb_involutive. destruct (_ && _); [|reflexivity]. do 3 f_equal. sizes.
  - rewrite parse_none by lia.
    set (num := if b0 <? 0xFC then 5 else _). assert (num = 5 \/ num = 6 \/ num = 0) as [N|[N|N]] by (unfold num; ztests; lia).
    1-2: destruct (trail_returns pre num 8 [b0] r0 b0 false ltac:(rewrite N; change (size [b0]) with 1; lia) ltac:(rewrite N; change (size [b0]) with 1; lia) HB) as [E|(ch & m & E)];
      rewrite E; cbn [rbind]; [reflexivity|apply long_sequence; lia].
    rewrite N. reflexivity.
Qed.

Lemma Decode_parse bs : Forall byte bs -> bs <> [] ->
  Utf8.Decode bs (size bs) = Done (match parse bs with Some (c, r) => (size bs - size r, c) | None => (0, -1) end).
Proof.
  intros HB HN. destruct bs as [|b0 r0]; [congruence|]. unfold Utf8.Decode. rewrite get_head. cbn [rbind].
  assert (byte b0) as B0 by (inversion HB; assumption). unfold byte in B0.
  change 0xFF with (Z.ones 8). rewrite Z.land_ones, Z.mod_small by lia. rewrite Z.geb_leb. destruct (Z.leb_spec 0x80 b0).
  - pose proof (DecodeSequence_parse [] b0 r0 HB ltac:(lia)) as E. cbn [app] in E. rewrite size_nil in E. rewrite E. cbn [rbind].
    destruct (parse (b0 :: r0)) as [[c r]|] eqn:P; [|reflexivity]. apply parse_inv in P as [C _]; [|exact HB]. unfold code_point in C.
    rewrite sN_small by (unfold is_sN; lia). reflexivity.
  - unfold parse. rewrite (proj2 (Z.ltb_lt b0 0x80)) by lia. rewrite sN_small by (unfold is_sN; lia). do 2 f_equal. sizes.
Qed.

(** [Decode] at a position of an array. *)
Lemma DecodeAt_parse pre bs : Forall byte bs -> bs <> [] ->
  Utf8.DecodeAt (pre ++ bs) (size pre) = Done (match parse bs with Some (c, r) => (size bs - size r, c) | None => (0, -1) end).
Proof.
  intros HB HN. unfold Utf8.DecodeAt. unfold size at 1. rewrite Nat2Z.id, skipn_app, skipn_all, Nat.sub_diag. cbn [skipn app].
  replace (size (pre ++ bs) - size pre) with (size bs) by sizes. apply Decode_parse; assumption.
Qed.

(** Whether bytes are the UTF-8 form of some code points can be decided from the
    front. *)
Definition valid (bs : list Z) : Prop := exists cs, Forall code_point cs /\ bs = utf8 cs.
Lemma utf8_app cs cs' : utf8 (cs ++ cs') = utf8 cs ++ utf8 cs'.
Proof. apply flat_map_app. Qed.
Lemma utf8_nonempty c : utf8_of c <> [].
Proof. unfold utf8_of. ztests; discriminate. Qed.
Lemma utf8_bytes cs : Forall code_point cs -> Forall byte (utf8 cs).
Proof. intros H. induction H; cbn; [constructor|]. apply Forall_app. split; [apply utf8_of_bytes|]; assumption. Qed.
Lemma valid_app pre bs : valid pre -> valid bs -> valid (pre ++ bs).
Proof. intros (cs & H & ->) (cs' & H' & ->). exists (cs ++ cs'). split; [apply Forall_app; auto|]. symmetry. apply utf8_app. Qed.

(** A valid array that is not empty starts with a code point, and what follows is
    valid. *)
Lemma valid_parse bs : bs <> [] -> valid bs -> exists c r, code_point c /\ parse bs = Some (c, r) /\ bs = utf8_of c ++ r /\ valid r.
Proof.
  intros HN (cs & HC & ->). destruct cs as [|c cs]; [exfalso; apply HN; reflexivity|]. apply Forall_cons_iff in HC as [C HC]. cbn.
  exists c, (utf8 cs). repeat split; try apply C; [apply parse_utf8, C|exists cs; auto].
Qed.
Lemma parse_valid bs c r : Forall byte bs -> parse bs = Some (c, r) -> (valid bs <-> valid r).
Proof.
  intros HB P. pose proof (parse_inv bs c r HB P) as [C E]. split; intros V.
  - destruct (valid_parse bs) as (c' & r' & _ & P' & _ & V'); [rewrite E; pose proof (utf8_nonempty c); destruct (utf8_of c); [congruence|discriminate]|exact V|].
    congruence.
  - rewrite E. apply (valid_app (utf8_of c)); [|exact V]. exists [c]. split; [constructor; [exact C|constructor]|]. cbn. rewrite app_nil_r. reflexivity.
Qed.
Lemma parse_none_invalid bs : bs <> [] -> parse bs = None -> ~ valid bs.
Proof. intros HN P V. destruct (valid_parse bs HN V) as (c & r & _ & P' & _). congruence. Qed.

Lemma utf8_nil cs : utf8 cs = [] -> cs = [].
Proof. destruct cs as [|c cs]; [reflexivity|]. cbn. pose proof (utf8_nonempty c). destruct (utf8_of c); [congruence|discriminate]. Qed.
Lemma parse_utf8_list bs c r cs : parse bs = Some (c, r) -> Forall code_point cs -> bs = utf8 cs -> exists cs', cs = c :: cs' /\ r = utf8 cs' /\ Forall code_point cs'.
Proof.
  intros P HC ->. destruct cs as [|c' cs]; [discriminate|]. apply Forall_cons_iff in HC as [C HC]. cbn in P. rewrite parse_utf8 in P by exact C.
  inversion P; subst. exists cs. auto.
Qed.

(** What the first byte says about the code point. *)
Lemma parse_first b0 r0 c r : Forall byte (b0 :: r0) -> parse (b0 :: r0) = Some (c, r) ->
  (0xF0 <=? b0) = (0x10000 <=? c) /\ (b0 <=? 0xC3) = (c <=? 0xFF) /\ trail b0 = false /\ Forall (fun b => trail b = true) (tl (utf8_of c)).
Proof.
  intros HB P. apply parse_inv in P as [C E]; [|exact HB]. unfold code_point in C. revert E. unfold utf8_of.
  destruct (Z.ltb_spec c 0x80); [|destruct (Z.ltb_spec c 0x800); [|destruct (Z.ltb_spec c 0x10000)]];
    cbn [app tl]; intros E; apply (f_equal (hd 0)) in E; cbn [hd] in E; subst b0; clear HB; repeat split;
    try (apply eq_true_iff_eq; rewrite !Z.leb_le; zdiv);
    try (unfold trail; apply andb_false_iff; rewrite Z.leb_gt, Z.ltb_ge; zdiv);
    repeat apply Forall_cons; try apply Forall_nil; unfold trail; apply andb_true_iff; rewrite Z.leb_le, Z.ltb_lt; zdiv.
Qed.
Lemma parse_shorter bs c r : Forall byte bs -> parse bs = Some (c, r) -> (length r < length bs)%nat /\ Forall byte r /\ exists p, bs = p ++ r /\ p = utf8_of c.
Proof.
  intros HB P. apply parse_inv in P as [C E]; [|exact HB]. subst bs. apply Forall_app in HB as [_ HB]. split; [|eauto].
  rewrite length_app. pose proof (utf8_nonempty c). destruct (utf8_of c); [congruence|cbn; lia].
Qed.

(** ** Validation *)
Lemma IsValid_loop_spec : forall n rest pre, (length rest < n)%nat -> Forall byte rest ->
  exists b, Utf8.IsValid_loop n (pre ++ rest) (size (pre ++ rest)) (size pre) = Done b /\ (b = true <-> valid rest).
Proof.
  induction n as [|n IH]; intros rest pre HL HB; [lia|]. cbn [Utf8.IsValid_loop]. destruct rest as [|b0 r0].
  { rewrite app_nil_r, Z.ltb_irrefl. exists true. split; [reflexivity|]. split; [|reflexivity]. intros _. exists []. split; constructor. }
  rewrite (proj2 (Z.ltb_lt _ _)) by sizes. rewrite get_mid by reflexivity. cbn [rbind].
  assert (byte b0) as B0 by (inversion HB; assumption). unfold byte in B0. change 0xFF with (Z.ones 8). rewrite Z.land_ones, Z.mod_small, Z.geb_leb by lia.
  destruct (parse (b0 :: r0)) as [[c r]|] eqn:P.
  - destruct (parse_shorter _ _ _ HB P) as (HL' & HB' & p & E & _).
    destruct (IH r (pre ++ p) ltac:(lia) HB') as (b & Hb & Hv). exists b. rewrite (parse_valid _ _ _ HB P). split; [|exact Hv].
    rewrite <- app_assoc, <- E in Hb. rewrite <- Hb. clear Hb. destruct (Z.leb_spec 0x80 b0).
    + rewrite DecodeSequence_parse, P by (exact HB || lia). cbn [rbind]. f_equal. rewrite E. sizes.
    + f_equal. unfold parse in P. rewrite (proj2 (Z.ltb_lt b0 0x80)) in P by lia. inversion P; subst. apply (app_inv_tail r [c] p) in E. subst p. sizes.
  - exists false. split; [|split; [discriminate|intros V; apply parse_none_invalid in P; [contradiction|discriminate]]].
    destruct (Z.leb_spec 0x80 b0); [rewrite DecodeSequence_parse, P by (exact HB || lia); reflexivity|].
    unfold parse in P. rewrite (proj2 (Z.ltb_lt b0 0x80)) in P by lia. discriminate.
Qed.
Lemma IsValid_spec bs : Forall byte bs -> exists b, Utf8.IsValid bs = Done b /\ (b = true <-> valid bs).
Proof. intros HB. exact (IsValid_loop_spec (S (length bs)) bs [] (Nat.lt_succ_diag_r _) HB). Qed.

(** ** Counting code units *)
Definition wider (t : Utf8.Type_) (c : Z) : Utf8.Type_ :=
  if c <=? 0xFF then t else if c <? 0x10000 then match t with Utf8.kLatin1 => Utf8.kBMP | _ => t end else Utf8.kSupplementary.
Definition utf8_type (cs : list Z) : Utf8.Type_ := fold_left wider cs Utf8.kLatin1.

Lemma CodeUnitCount_trail bs : forall rest len t, Forall byte bs -> Forall (fun b => trail b = true) bs ->
  Utf8.CodeUnitCount_loop (bs ++ rest) len t = Utf8.CodeUnitCount_loop rest len t.
Proof.
  induction bs as [|b bs IH]; intros rest len t HB HT; [reflexivity|]. apply Forall_cons_iff in HB as [B HB], HT as [T HT].
  cbn [app Utf8.CodeUnitCount_loop]. rewrite IsTrailByte_trail, T by exact B. cbn [negb]. apply IH; assumption.
Qed.
Lemma utf16_of_size c : size (utf16_of c) = if c <? 0x10000 then 1 else 2.
Proof. unfold utf16_of. destruct (c <? 0x10000); reflexivity. Qed.
Lemma CodeUnitCount_step c rest len t : code_point c -> Forall byte rest ->
  Utf8.CodeUnitCount_loop (utf8_of c ++ rest) len t = Utf8.CodeUnitCount_loop rest (len + size (utf16_of c)) (wider t c).
Proof.
  intros C HB. pose proof (parse_utf8 c rest C) as P. pose proof (utf8_of_bytes c C) as HC. rewrite utf16_of_size.
  destruct (utf8_of c) as [|b0 r0] eqn:E; [apply utf8_nonempty in E; contradiction|]. cbn [app] in P |- *.
  destruct (parse_first b0 (r0 ++ rest) c rest) as (E1 & E2 & E3 & E4).
  { apply Forall_cons_iff in HC as [? ?]. constructor; [assumption|]. apply Forall_app. auto. }
  { exact P. }
  rewrite E in E4. cbn [tl] in E4. apply Forall_cons_iff in HC as [B0 HC]. cbn [Utf8.CodeUnitCount_loop]. rewrite IsTrailByte_trail, E3 by exact B0. cbn [negb].
  unfold Utf8.IsLatin1SequenceStart, Utf8.IsSupplementarySequenceStart, wider. rewrite Z.geb_leb, E1, E2.
  destruct (Z.leb_spec c 0xFF); cbn [negb]; [rewrite (proj2 (Z.ltb_lt c 0x10000)) by lia; apply CodeUnitCount_trail; assumption|].
  rewrite Z.leb_antisym. destruct (Z.ltb_spec c 0x10000); cbn [negb]; rewrite <- ?Z.add_assoc; apply CodeUnitCount_trail; assumption.
Qed.
Lemma CodeUnitCount_utf8 cs : Forall code_point cs -> Utf8.CodeUnitCount (utf8 cs) = (size (utf16 cs), utf8_type cs).
Proof.
  intros H. unfold Utf8.CodeUnitCount, utf8_type. enough (forall len t, Utf8.CodeUnitCount_loop (utf8 cs) len t = (len + size (utf16 cs), fold_left wider cs t)) as G by apply G.
  induction H as [|c cs C H IH]; intros len t; cbn [utf8 utf16 flat_map fold_left].
  - cbn [Utf8.CodeUnitCount_loop]. f_equal. change (len = len + 0). lia.
  - fold (utf8 cs) (utf16 cs). rewrite CodeUnitCount_step, IH by (assumption || apply utf8_bytes; assumption). f_equal. sizes.
Qed.

(** On any bytes: the count, and when the type stays Latin-1. *)
Lemma CodeUnitCount_any bs : forall len t, 0 <= len ->
  len <= fst (Utf8.CodeUnitCount_loop bs len t) /\
  (fst (Utf8.CodeUnitCount_loop bs len t) = len -> Forall (fun b => Utf8.IsTrailByte b = true) bs) /\
  (snd (Utf8.CodeUnitCount_loop bs len t) = Utf8.kLatin1 -> t = Utf8.kLatin1 /\ Forall (fun b => Utf8.IsTrailByte b = true \/ b <= 0xC3) bs).
Proof.
  induction bs as [|b bs IH]; intros len t H; cbn [Utf8.CodeUnitCount_loop fst snd].
  { repeat split; try lia; try constructor; assumption. }
  destruct (Utf8.IsTrailByte b) eqn:T; cbn [negb].
  { destruct (IH len t H) as (A & B & D). repeat split; [exact A|intros E; constructor; auto|apply D; assumption|constructor; [auto|apply D; assumption]]. }
  destruct (Utf8.IsLatin1SequenceStart b) eqn:L; cbn [negb].
  { destruct (IH (len + 1) t ltac:(lia)) as (A & B & D). repeat split; try lia; [apply D; assumption|]. constructor; [right; apply Z.leb_le, L|apply D; assumption]. }
  destruct (Utf8.IsSupplementarySequenceStart b).
  { destruct (IH (len + 1 + 1) Utf8.kSupplementary ltac:(lia)) as (A & B & D). repeat split; try lia; exfalso; destruct D; congruence. }
  destruct (IH (len + 1) (match t with Utf8.kLatin1 => Utf8.kBMP | t => t end) ltac:(lia)) as (A & B & D).
  repeat split; try lia; exfalso; destruct D as [D _]; try assumption; destruct t; discriminate.
Qed.
Lemma trail_invalid bs : Forall byte bs -> bs <> [] -> Forall (fun b => Utf8.IsTrailByte b = true) bs -> ~ valid bs.
Proof.
  intros HB HN HT. destruct bs as [|b bs]; [congruence|]. apply parse_none_invalid; [exact HN|].
  apply Forall_cons_iff in HB as [B _], HT as [T _]. rewrite IsTrailByte_trail in T by exact B. apply trail_range in T. apply parse_none. lia.
Qed.

(** ** Decoding arrays *)
Lemma Utf16_Encode_spec c : code_point c -> 0x10000 <= c ->
  Utf16.Encode c = Done (0xD800 + (c - 0x10000) / 1024, 0xDC00 + c mod 1024).
Proof.
  unfold code_point. intros C H. unfold Utf16.Encode, Utf16.kMaxCodeUnit, Utf16.kLeadSurrogateOffset.
  rewrite Z.gtb_ltb, (proj2 (Z.ltb_lt _ _)) by lia. change 0x3FF with (Z.ones 10). rewrite Z.land_ones, !Z.shiftr_div_pow2 by lia.
  change (2 ^ 10) with 1024. rewrite !uN_small by (unfold is_uN; change (2 ^ 16) with 65536; zdiv). do 2 f_equal. zdiv.
Qed.

(** The outcome of a decoding loop: [dst] is [out] followed by room; the rest of the
    input is decoded to [form] when it is valid and fits exactly, and is refused when it
    is not valid. *)
Definition decoded (form : list Z -> list Z) (out room rest : list Z) (r : bool * list Z) : Prop :=
  (forall cs, Forall code_point cs -> rest = utf8 cs -> size (form cs) = size room -> r = (true, out ++ form cs)) /\
  (~ valid rest -> fst r = false).

Lemma decoded_end form out room : (size (form []) = 0) -> decoded form out room [] (true, out ++ room).
Proof.
  intros H. split.
  - intros cs _ E E'. symmetry in E. apply utf8_nil in E. subst cs. rewrite H in E'. destruct room; [|cbn in E'; unfold size in E'; cbn in E'; lia].
    destruct (form []); [reflexivity|unfold size in H; cbn in H; lia].
  - intros V. exfalso. apply V. exists []. split; constructor.
Qed.
Lemma decoded_full form out rest : rest <> [] -> (forall c cs, code_point c -> 0 < size (form (c :: cs))) -> decoded form out [] rest (false, out).
Proof.
  intros HN HF. split; [|reflexivity]. intros cs HC -> E. destruct cs as [|c cs]; [exfalso; apply HN; reflexivity|].
  rewrite size_nil in E. apply Forall_cons_iff in HC as [C _]. specialize (HF c cs C). lia.
Qed.
Lemma decoded_invalid form out room rest d : rest <> [] -> parse rest = None -> decoded form out room rest (false, d).
Proof.
  intros HN P. split; [|reflexivity]. intros cs HC E _. exfalso. apply (parse_none_invalid rest HN P). exists cs. auto.
Qed.
Lemma decoded_step form out room c rest r res u : Forall byte rest -> parse rest = Some (c, r) -> (forall cs, form (c :: cs) = u ++ form cs) ->
  decoded form (out ++ u) (skipn (length u) room) r res -> (length u <= length room)%nat -> decoded form out room rest res.
Proof.
  intros HB P HF [A B] HL. split.
  - intros cs HC E HS. destruct (parse_utf8_list _ _ _ _ P HC E) as (cs' & -> & Er & HC'). rewrite HF in *.
    rewrite (A cs' HC' Er), <- app_assoc; [reflexivity|]. unfold size in *. rewrite length_skipn. rewrite length_app in HS. lia.
  - intros V. apply B. intros V'. apply V. apply (parse_valid _ _ _ HB P), V'.
Qed.

Section Loops.
Context (arr : list Z).

Lemma DecodeToUTF16_loop_spec : forall n rest pre out room, arr = pre ++ rest -> (length rest < n)%nat -> Forall byte rest ->
  returns (decoded utf16 out room rest) (Utf8.DecodeToUTF16_loop arr n (size pre) (size out) (size (out ++ room)) (out ++ room)).
Proof.
  induction n as [|n IH]; intros rest pre out room EA HL HB; [lia|]. cbn [Utf8.DecodeToUTF16_loop]. rewrite EA. destruct rest as [|b0 r0].
  { rewrite app_nil_r, Z.ltb_irrefl. apply returns_done, decoded_end. reflexivity. }
  rewrite (proj2 (Z.ltb_lt (size pre) _)) by sizes. destruct room as [|x room].
  { rewrite app_nil_r, Z.ltb_irrefl, Z.eqb_refl. apply returns_done, decoded_full; [discriminate|]. intros c cs _. cbn. rewrite size_app, utf16_of_size. pose proof (size_nonneg (flat_map utf16_of cs)). destruct (c <? 0x10000); lia. }
  rewrite (proj2 (Z.ltb_lt (size out) _)) by sizes. cbn [andb]. rewrite get_mid by reflexivity. cbn [rbind].
  rewrite DecodeAt_parse by (exact HB || discriminate). cbn [rbind]. destruct (parse (b0 :: r0)) as [[c r]|] eqn:P.
  2: { apply returns_done, decoded_invalid; [discriminate|exact P]. }
  destruct (parse_inv _ _ _ HB P) as [C _]. destruct (parse_shorter _ _ _ HB P) as (HL' & HB' & p & E & Ep).
  destruct (parse_first _ _ _ _ HB P) as (E1 & _). unfold Utf8.IsSupplementarySequenceStart. rewrite Z.geb_leb, E1.
  rewrite (proj2 (Z.eqb_neq c (-1))) by (unfold code_point in C; lia). replace (size pre + (size (b0 :: r0) - size r)) with (size (pre ++ p)) by (rewrite E; sizes).
  rewrite E in EA. rewrite app_assoc in EA.
  rewrite Z.leb_antisym. destruct (Z.ltb_spec c 0x10000); cbn [negb].
  - rewrite uN_small by (unfold code_point, is_uN in *; lia). rewrite set_mid by reflexivity. cbn [rbind].
    pose proof (IH r (pre ++ p) (out ++ [c]) room EA ltac:(lia) HB') as R. rewrite <- app_assoc in R. cbn [app] in R.
    replace (size (out ++ [c])) with (size out + 1) in R by sizes. replace (size (out ++ c :: room)) with (size (out ++ x :: room)) in R by sizes. rewrite EA, <- app_assoc, <- E in R.
    eapply returns_weaken; [exact R|]. intros res HR. apply (decoded_step _ _ _ c _ r _ [c]); [exact HB|exact P| |exact HR|cbn; lia].
    intros cs. cbn [utf16 flat_map]. unfold utf16_of at 1. rewrite (proj2 (Z.ltb_lt c 0x10000)) by lia. reflexivity.
  - destruct room as [|y room].
    { rewrite (proj2 (Z.eqb_eq _ _)) by sizes. apply returns_done. split; [|reflexivity]. intros cs HC Ec HS.
      destruct (parse_utf8_list _ _ _ _ P HC Ec) as (cs' & -> & _). cbn [utf16 flat_map] in HS. rewrite size_app, utf16_of_size, (proj2 (Z.ltb_ge c 0x10000)) in HS by lia.
      pose proof (size_nonneg (flat_map utf16_of cs')). change (size [x]) with 1 in HS. lia. }
    rewrite (proj2 (Z.eqb_neq (size out) _)) by sizes. rewrite Utf16_Encode_spec by (assumption || lia). cbn [rbind].
    set (lead := 0xD800 + _). set (low := 0xDC00 + _). rewrite set_mid by reflexivity. cbn [rbind].
    change (out ++ lead :: y :: room) with (out ++ [lead] ++ y :: room). rewrite app_assoc, set_mid by sizes. cbn [rbind].
    pose proof (IH r (pre ++ p) (out ++ [lead; low]) room EA ltac:(lia) HB') as R. rewrite <- app_assoc in R |- *. cbn [app] in R |- *.
    replace (size (out ++ [lead; low])) with (size out + 2) in R by sizes.
    replace (size (out ++ lead :: low :: room)) with (size (out ++ x :: y :: room)) in R by sizes. rewrite EA, <- app_assoc, <- E in R.
    eapply returns_weaken; [exact R|]. intros res HR. apply (decoded_step _ _ _ c _ r _ [lead; low]); [exact HB|exact P| |exact HR|cbn; lia].
    intros cs. cbn [utf16 flat_map]. unfold utf16_of at 1. rewrite (proj2 (Z.ltb_ge c 0x10000)) by lia. reflexivity.
Qed.

Lemma DecodeToLatin1_loop_spec : forall n rest pre out room, arr = pre ++ rest -> (length rest < n)%nat -> Forall byte rest -> Forall (fun b => b <= 0xC3) rest ->
  returns (decoded (fun cs => cs) out room rest) (Utf8.DecodeToLatin1_loop arr n (size pre) (size out) (size (out ++ room)) (out ++ room)).
Proof.
  induction n as [|n IH]; intros rest pre out room EA HL HB HM; [lia|]. cbn [Utf8.DecodeToLatin1_loop]. rewrite EA. destruct rest as [|b0 r0].
  { rewrite app_nil_r, Z.ltb_irrefl. apply returns_done, decoded_end. reflexivity. }
  rewrite (proj2 (Z.ltb_lt (size pre) _)) by sizes. destruct room as [|x room].
  { rewrite app_nil_r, Z.ltb_irrefl, Z.eqb_refl. apply returns_done, decoded_full; [discriminate|]. intros c cs _. sizes. }
  rewrite (proj2 (Z.ltb_lt (size out) _)) by sizes. cbn [andb]. rewrite get_mid by reflexivity. cbn [rbind].
  assert (b0 <= 0xC3) as M0 by (inversion HM; assumption). unfold Utf8.IsLatin1SequenceStart. rewrite (proj2 (Z.leb_le b0 0xC3)) by exact M0.
  rewrite DecodeAt_parse by (exact HB || discriminate). cbn [rbind]. destruct (parse (b0 :: r0)) as [[c r]|] eqn:P.
  2: { apply returns_done, decoded_invalid; [discriminate|exact P]. }
  destruct (parse_inv _ _ _ HB P) as [C _]. destruct (parse_shorter _ _ _ HB P) as (HL' & HB' & p & E & Ep).
  destruct (parse_first _ _ _ _ HB P) as (_ & E2 & _). rewrite (proj2 (Z.leb_le b0 0xC3)) in E2 by exact M0. symmetry in E2. apply Z.leb_le in E2. unfold code_point in C.
  rewrite (proj2 (Z.eqb_neq c (-1))) by lia. unfold Utf.IsLatin1. rewrite Z.geb_leb, (proj2 (Z.leb_le 0 c)), (proj2 (Z.leb_le c 0xFF)) by lia. cbn [andb].
  rewrite uN_small by (unfold is_uN; lia). rewrite set_mid by reflexivity. cbn [rbind].
  replace (size pre + (size (b0 :: r0) - size r)) with (size (pre ++ p)) by (rewrite E; sizes).
  rewrite E in EA, HM. rewrite app_assoc in EA. apply Forall_app in HM as [_ HM].
  pose proof (IH r (pre ++ p) (out ++ [c]) room EA ltac:(lia) HB' HM) as R. rewrite <- app_assoc in R. cbn [app] in R.
  replace (size (out ++ [c])) with (size out + 1) in R by sizes. replace (size (out ++ c :: room)) with (size (out ++ x :: room)) in R by sizes. rewrite EA, <- app_assoc, <- E in R.
  eapply returns_weaken; [exact R|]. intros res HR. apply (decoded_step _ _ _ c _ r _ [c]); [exact HB|exact P|reflexivity|exact HR|cbn; lia].
Qed.

Lemma DecodeToUTF32_loop_spec : forall n rest pre out room, arr = pre ++ rest -> (length rest < n)%nat -> Forall byte rest ->
  returns (decoded (fun cs => cs) out room rest) (Utf8.DecodeToUTF32_loop arr n (size pre) (size out) (size (out ++ room)) (out ++ room)).
Proof.
  induction n as [|n IH]; intros rest pre out room EA HL HB; [lia|]. cbn [Utf8.DecodeToUTF32_loop]. rewrite EA. destruct rest as [|b0 r0].
  { rewrite app_nil_r, Z.ltb_irrefl. apply returns_done, decoded_end. reflexivity. }
  rewrite (proj2 (Z.ltb_lt (size pre) _)) by sizes. destruct room as [|x room].
  { rewrite app_nil_r, Z.ltb_irrefl, Z.eqb_refl. apply returns_done, decoded_full; [discriminate|]. intros c cs _. sizes. }
  rewrite (proj2 (Z.ltb_lt (size out) _)) by sizes. cbn [andb].
  rewrite DecodeAt_parse by (exact HB || discriminate). cbn [rbind]. destruct (parse (b0 :: r0)) as [[c r]|] eqn:P.
  2: { apply returns_done, decoded_invalid; [discriminate|exact P]. }
  destruct (parse_inv _ _ _ HB P) as [C _]. destruct (parse_shorter _ _ _ HB P) as (HL' & HB' & p & E & Ep). unfold code_point in C.
  rewrite (proj2 (Z.eqb_neq c (-1))) by lia. rewrite set_mid by reflexivity. cbn [rbind].
  replace (size pre + (size (b0 :: r0) - size r)) with (size (pre ++ p)) by (rewrite E; sizes). rewrite E in EA. rewrite app_assoc in EA.
  pose proof (IH r (pre ++ p) (out ++ [c]) room EA ltac:(lia) HB') as R. rewrite <- app_assoc in R. cbn [app] in R.
  replace (size (out ++ [c])) with (size out + 1) in R by sizes. replace (size (out ++ c :: room)) with (size (out ++ x :: room)) in R by sizes. rewrite EA, <- app_assoc, <- E in R.
  eapply returns_weaken; [exact R|]. intros res HR. apply (decoded_step _ _ _ c _ r _ [c]); [exact HB|exact P|reflexivity|exact HR|cbn; lia].
Qed.

Lemma ReportInvalidByte_returns len : forall n rest pre j, arr = pre ++ rest -> (length rest < n)%nat -> Forall byte rest ->
  returns (fun _ => True) (Utf8.ReportInvalidByte_loop arr n (size pre) j len).
Proof.
  induction n as [|n IH]; intros rest pre j EA HL HB; [lia|]. cbn [Utf8.ReportInvalidByte_loop]. rewrite EA. destruct rest as [|b0 r0].
  { rewrite app_nil_r, Z.ltb_irrefl. apply returns_done. exact I. }
  destruct (_ && _); [|apply returns_done; exact I]. rewrite get_mid by reflexivity. cbn [rbind].
  rewrite DecodeAt_parse by (exact HB || discriminate). cbn [rbind]. destruct (parse (b0 :: r0)) as [[c r]|] eqn:P; [|apply returns_done; exact I].
  destruct (parse_inv _ _ _ HB P) as [C _]. destruct (parse_shorter _ _ _ HB P) as (HL' & HB' & p & E & Ep). unfold code_point in C.
  rewrite (proj2 (Z.eqb_neq c (-1))) by lia. replace (size pre + (size (b0 :: r0) - size r)) with (size (pre ++ p)) by (rewrite E; sizes).
  rewrite E in EA |- *. rewrite app_assoc in EA. specialize (IH r (pre ++ p)). rewrite <- EA, app_assoc in *. rewrite <- EA. apply IH; [reflexivity|lia|exact HB'].
Qed.
End Loops.
