(* ===== verification/DartString.v ===== *)
(** * Strings ([String], [OneByteString], [TwoByteString] of [vm/object.{h,cc}],
    [vm/unicode.cc], [vm/hash.h])

    A string is an array of bytes (Latin-1) or of 16-bit code units (UTF-16).  Modelled
    are its constructors from UTF-8, UTF-16 and UTF-32, the code point iterator, the
    conversion to UTF-8, comparison, hashing, concatenation, substrings, case
    conversion, and the escaping of IRIs and of special characters.  [null] is [None];
    the bytes of a fresh string are zero.  Words are 64-bit, little endian. *)

From Stdlib Require Import ZArith Bool List Lia.
From S2P Require Import Prelude Result Arrays Utils Il Unicode CaseMapping.
Import ListNotations.
Open Scope Z_scope.
Open Scope cint_scope.

Inductive String :=
| OneByteString (data : list Z)
| TwoByteString (data : list Z).

Definition units (str : String) : list Z := match str with OneByteString d | TwoByteString d => d end.
Definition IsOneByteString (str : String) : bool := match str with OneByteString _ => true | TwoByteString _ => false end.

Definition kOneByteChar : Z := 1.
Definition kTwoByteChar : Z := 2.
Definition kMaxElements : Z := kSmiMax ÷ kTwoByteChar.
Definition Length (str : String) : Z := size (units str).
Definition CharSize (str : String) : Z := if IsOneByteString str then kOneByteChar else kTwoByteChar.
Definition CharAt (str : String) (index : Z) : result Z := get (units str) index.

(** [*CharAddr(str, index) = code_unit]. *)
Definition SetCharAt (str : String) (index code_unit : Z) : result String :=
  match str with
  | OneByteString d => let* d := set d index (uN 8 code_unit) in Done (OneByteString d)
  | TwoByteString d => let* d := set d index (uN 16 code_unit) in Done (TwoByteString d)
  end.

(** A fresh string; an impossible length is fatal. *)
Definition NewOneByte (len : Z) : result String :=
  require (0 <=? len) && (len <=? kMaxElements);; Done (OneByteString (repeat 0 (Z.to_nat len))).
Definition NewTwoByte (len : Z) : result String :=
  require (0 <=? len) && (len <=? kMaxElements);; Done (TwoByteString (repeat 0 (Z.to_nat len))).

(** ** [String::CodePointIterator] *)
Record CodePointIterator := mkIterator { ch_ : Z; index_ : Z; end_ : Z }.
Definition iterator (str : String) : CodePointIterator := mkIterator 0 (-1) (Length str).
Definition Current (it : CodePointIterator) : result Z :=
  require (0 <=? index_ it) && (index_ it <? end_ it);; Done (ch_ it).
Definition Next (str : String) (it : CodePointIterator) : result (bool * CodePointIterator) :=
  require -1 <=? index_ it;;
  let length := Utf16.Length (ch_ it) in
  if index_ it <? end_ it - length then
    let index := index_ it + length in
    let* ch := CharAt str index in
    if Utf16.IsLeadSurrogate ch && (index <? end_ it - 1) then
      let* ch2 := CharAt str (index + 1) in
      if Utf16.IsTrailSurrogate ch2 then Done (true, mkIterator (Utf16.Decode ch ch2) index (end_ it))
      else Done (true, mkIterator ch index (end_ it))
    else Done (true, mkIterator ch index (end_ it))
  else Done (false, mkIterator (ch_ it) (end_ it) (end_ it)).

(** [while (it.Next()) body(it.Current())]: the body says whether to go on. *)
Fixpoint each_from {S} (n : nat) (str : String) (it : CodePointIterator) (body : Z -> S -> result (bool * S)) (s : S) : result S :=
  match n with
  | O => OutOfFuel
  | Datatypes.S n =>
      let* (more, it) := Next str it in
      if more then
        let* ch := Current it in
        let* (go_on, s) := body ch s in
        if go_on then each_from n str it body s else Done s
      else Done s
  end.
Definition each_code_point {S} (str : String) (body : Z -> S -> result (bool * S)) (s : S) : result S :=
  each_from (Datatypes.S (length (units str))) str (iterator str) body s.

(** ** UTF-8 of a string ([vm/unicode.cc]) *)
Module Utf8String.
Definition kWordSize : Z := 8.
Definition kAsciiWordMask : Z := 0x8080808080808080.

Fixpoint little_endian (bytes : list Z) : Z :=
  match bytes with [] => 0 | b :: rest => b + 256 * little_endian rest end.
Fixpoint to_bytes (n : nat) (word : Z) : list Z :=
  match n with O => [] | S n => uN 8 word :: to_bytes n (word >> 8) end.
(** The word at byte offset [i]. *)
Definition load_word (data : list Z) (i : Z) : result Z :=
  let* bytes := slice data i kWordSize in Done (little_endian bytes).

(** The number of high bits that are left of a word. *)
Definition count_high_bits (chunk : Z) : Z :=
  let chunk := uN 64 (chunk + (chunk >> 32)) in
  let chunk := uN 64 (chunk + (chunk >> 16)) in
  let chunk := uN 64 (chunk + (chunk >> 8)) in
  (chunk >> 7) .& 0xf.

(** The loop over words: where it stops, and the length so far. *)
Fixpoint Length_words (n : nat) (data : list Z) (char_length i length : Z) : result (Z * Z) :=
  match n with
  | O => OutOfFuel
  | S n =>
      if i <=? char_length then
        let* word := load_word data (i - kWordSize) in
        let chunk := word .& kAsciiWordMask in
        let length := if negb (chunk =? 0) then length + count_high_bits chunk else length in
        Length_words n data char_length (i + kWordSize) length
      else Done (i, length)
  end.
Definition Length_ (str : String) : result Z :=
  match str with
  | OneByteString data =>
      let char_length := Length str in
      let* (i, length) := Length_words (S (length data)) data char_length kWordSize char_length in
      let i := i - kWordSize in
      for_from (Z.to_nat (char_length - i)) i
        (fun i length => let* c := CharAt str i in Done (if c >? Utf8.kMaxOneByteChar then length + 1 else length)) length
  | TwoByteString _ =>
      each_code_point str (fun ch length => let* l := Utf8.Length ch in Done (true, length + l)) 0
  end.

(** The characters of one word: whether the function returns, the position, the output. *)
Fixpoint Encode_chars (n : nat) (data : list Z) (p array_len pos : Z) (dst : list Z) : result (bool * Z * list Z) :=
  match n with
  | O => Done (false, pos, dst)
  | S n =>
      let* c := get data p in
      let* bytes := Utf8.Length c in
      if pos + bytes >? array_len then Done (true, pos, dst)
      else let* encoded := Utf8.Encode c in
           let* dst := store dst pos encoded in
           Encode_chars n data (p + 1) array_len (pos + bytes) dst
  end.
Fixpoint Encode_words (n : nat) (data : list Z) (char_length i array_len pos : Z) (dst : list Z) : result (bool * Z * list Z) :=
  match n with
  | O => OutOfFuel
  | S n =>
      if i <? char_length then
        let* word := if i + kWordSize <=? char_length then let* w := load_word data i in Done (Some w) else Done None in
        let ascii := match word with
          | Some w => if ((w .& kAsciiWordMask) =? 0) && (pos + kWordSize <=? array_len) then Some w else None
          | None => None end in
        match ascii with
        | Some w => let* dst := store dst pos (to_bytes 8 w) in
                    Encode_words n data char_length (i + kWordSize) array_len (pos + kWordSize) dst
        | None =>
            let* (done, dst) := Encode_chars (Z.to_nat (Z.min kWordSize (char_length - i))) data i array_len pos dst in
            let (returned, pos) := (done : bool * Z) in
            if returned then Done (true, pos, dst)
            else Encode_words n data char_length (i + kWordSize) array_len pos dst
        end
      else Done (false, pos, dst)
  end.

(** What [Encode] returns, and the array: the loop over words has a [pos] of its own,
    which the last [return] does not see. *)
Definition Encode (src : String) (dst : list Z) (len : Z) : result (Z * list Z) :=
  let array_len := len in
  let pos := 0 in
  let* length := Length_ src in
  require array_len >=? length;;
  match src with
  | OneByteString data =>
      let* (done, dst) := Encode_words (S (List.length data)) data (Length src) 0 array_len 0 dst in
      let (returned, inner_pos) := (done : bool * Z) in
      if returned then Done (inner_pos, dst) else Done (pos, dst)
  | TwoByteString _ =>
      each_code_point src (fun ch (s : Z * list Z) =>
        let (pos, dst) := s in
        require negb (Utf.IsOutOfRange ch);;
        let ch := if Utf16.IsSurrogate ch then Utf.kReplacementChar else ch in
        let* num_bytes := Utf8.Length ch in
        if pos + num_bytes >? len then Done (false, (pos, dst))
        else let* encoded := Utf8.Encode ch in
             let* dst := store dst pos encoded in
             Done (true, (pos + num_bytes, dst))) (pos, dst)
  end.
End Utf8String.

(** ** Conversions *)
Definition ToUTF8 (str : String) (utf8_array : list Z) (array_len : Z) : result (list Z) :=
  let* length := Utf8String.Length_ str in
  require array_len >=? length;;
  let* (_, utf8_array) := Utf8String.Encode str utf8_array array_len in
  Done utf8_array.

(** [malloc] and [zone->Alloc]: some array of that size. *)
Definition ToMallocCString (malloc : Z -> list Z) (str : String) : result (list Z) :=
  let* len := Utf8String.Length_ str in
  let* result := ToUTF8 str (malloc (len + 1)) len in
  set result len 0.

Definition FromUTF8 (utf8_array : list Z) : result (option String) :=
  let (len, type) := Utf8.CodeUnitCount utf8_array in
  match type with
  | Utf8.kLatin1 =>
      let* strobj := NewOneByte len in
      if len >? 0 then
        let* (ok, data) := Utf8.DecodeToLatin1 utf8_array (units strobj) in
        if negb ok then let* _ := Utf8.ReportInvalidByte utf8_array len in Done None
        else Done (Some (OneByteString data))
      else Done (Some strobj)
  | _ =>
      let* strobj := NewTwoByte len in
      let* (ok, data) := Utf8.DecodeToUTF16 utf8_array (units strobj) in
      if negb ok then let* _ := Utf8.ReportInvalidByte utf8_array len in Done None
      else Done (Some (TwoByteString data))
  end.
(** [String::New] of a C string. *)
Definition NewFromCString (cstr : list Z) : result (option String) := FromUTF8 (Utf8.c_string cstr).

(** [OneByteString::New] of 8-, 16- and 32-bit characters. *)
Definition NewOneByteLatin1 (characters : list Z) : result String :=
  let* r := NewOneByte (size characters) in
  if size characters >? 0 then let* d := store (units r) 0 characters in Done (OneByteString d) else Done r.
Definition NewOneByteFrom (characters : list Z) : result String :=
  let* r := NewOneByte (size characters) in
  for_from (length characters) 0 (fun i r =>
    let* c := get characters i in
    require Utf.IsLatin1 c;; SetCharAt r i c) r.
Definition NewTwoByteFrom (utf16_array : list Z) : result String :=
  require size utf16_array >? 0;;
  let* r := NewTwoByte (size utf16_array) in
  let* d := store (units r) 0 utf16_array in Done (TwoByteString d).
Definition NewTwoByteFrom32 (utf16_len : Z) (utf32_array : list Z) : result String :=
  require (size utf32_array >? 0) && (utf16_len >=? size utf32_array);;
  let* r := NewTwoByte utf16_len in
  let* (_, r) := for_from (length utf32_array) 0 (fun i (s : Z * String) =>
    let (j, r) := s in
    let* c := get utf32_array i in
    if Utf.IsSupplementary c then
      require j <? utf16_len - 1;;
      let* (lead, trail) := Utf16.Encode c in
      let* r := SetCharAt r j lead in
      let* r := SetCharAt r (j + 1) trail in
      Done (j + 2, r)
    else
      require j <? utf16_len;;
      let* r := SetCharAt r j c in
      Done (j + 1, r)) (0, r) in
  Done r.

Definition FromLatin1 (latin1_array : list Z) : result String := NewOneByteLatin1 latin1_array.
Definition FromUTF16 (utf16_array : list Z) : result String :=
  let* is_one_byte_string := all_from (length utf16_array) 0 (fun i => let* c := get utf16_array i in Done (Utf.IsLatin1 c)) in
  if (is_one_byte_string : bool) then NewOneByteFrom utf16_array else NewTwoByteFrom utf16_array.
Definition FromUTF32 (utf32_array : list Z) : result String :=
  let* (is_one_byte_string, utf16_len) := for_from (length utf32_array) 0 (fun i (s : bool * Z) =>
    let (one_byte, utf16_len) := s in
    let* c := get utf32_array i in
    Done (if negb (Utf.IsLatin1 c) then (false, if Utf.IsSupplementary c then utf16_len + 1 else utf16_len) else (one_byte, utf16_len)))
    (true, size utf32_array) in
  if (is_one_byte_string : bool) then NewOneByteFrom utf32_array else NewTwoByteFrom32 utf16_len utf32_array.

(** [Dart_NewStringFromUTF8]: an API error, or a handle. *)
Inductive Dart_Handle := ApiError | Handle (str : option String).
Definition Dart_NewStringFromUTF8 (utf8_array : list Z) : result Dart_Handle :=
  if size utf8_array >? kMaxElements then Done ApiError
  else let* valid := Utf8.IsValid utf8_array in
       if negb valid then Done ApiError else let* s := FromUTF8 utf8_array in Done (Handle s).

(** ** Copying, concatenation and substrings *)
Definition CopyLatin1 (dst : String) (dst_offset : Z) (characters : list Z) : result String :=
  let len := size characters in
  require (0 <=? dst_offset) && (len <=? Length dst - dst_offset);;
  match dst with
  | OneByteString d => if len >? 0 then let* d := store d dst_offset characters in Done (OneByteString d) else Done dst
  | TwoByteString _ => for_from (length characters) 0 (fun i dst => let* c := get characters i in SetCharAt dst (i + dst_offset) c) dst
  end.
Definition CopyUTF16 (dst : String) (dst_offset : Z) (utf16_array : list Z) : result String :=
  let array_len := size utf16_array in
  require (0 <=? dst_offset) && (array_len <=? Length dst - dst_offset);;
  match dst with
  | OneByteString _ => for_from (length utf16_array) 0 (fun i dst =>
      let* c := get utf16_array i in require Utf.IsLatin1 c;; SetCharAt dst (i + dst_offset) c) dst
  | TwoByteString d => if array_len >? 0 then let* d := store d dst_offset utf16_array in Done (TwoByteString d) else Done dst
  end.
Definition Copy (dst : String) (dst_offset : Z) (src : String) (src_offset len : Z) : result String :=
  require (0 <=? dst_offset) && (0 <=? src_offset) && (0 <=? len) && (len <=? Length dst - dst_offset) && (len <=? Length src - src_offset);;
  if len >? 0 then
    let* characters := slice (units src) src_offset len in
    if CharSize src =? kOneByteChar then CopyLatin1 dst dst_offset characters else CopyUTF16 dst dst_offset characters
  else Done dst.
(** [String::New(const String&)]. *)
Definition NewCopy (str : String) : result String :=
  let len := Length str in
  let* r := if CharSize str =? kOneByteChar then NewOneByte len else NewTwoByte len in
  Copy r 0 str 0 len.

Definition Concat (str1 str2 : String) : result String :=
  let char_size := Z.max (CharSize str1) (CharSize str2) in
  let len1 := Length str1 in
  let len2 := Length str2 in
  let* r := if char_size =? kTwoByteChar then NewTwoByte (len1 + len2) else NewOneByte (len1 + len2) in
  let* r := Copy r 0 str1 0 len1 in
  Copy r len1 str2 0 len2.

(** [OneByteString::ConcatAll] and [TwoByteString::ConcatAll], into [result]. *)
Definition ConcatAll_ (r : String) (strings : list String) (start end_ : Z) : result String :=
  let* (_, r) := for_from (Z.to_nat (end_ - start)) start (fun i (s : Z * String) =>
    let (pos, r) := s in
    let* str := get strings i in
    let str_len := Length str in
    let* r := Copy r pos str 0 str_len in
    require kMaxElements - pos >=? str_len;;
    Done (pos + str_len, r)) (0, r) in
  Done r.
(** [None] when [Exceptions::ThrowOOM] is called. *)
Definition ConcatAllRange (strings : list String) (start end_ : Z) : result (option String) :=
  require (0 <=? start) && (end_ <=? size strings);;
  let* sizes := for_from (Z.to_nat (end_ - start)) start (fun i (s : option (Z * Z)) =>
    match s with
    | None => Done None
    | Some (result_len, char_size) =>
        let* str := get strings i in
        let str_len := Length str in
        if kMaxElements - result_len <? str_len then Done None
        else Done (Some (result_len + str_len, Z.max char_size (CharSize str)))
    end) (Some (0, kOneByteChar)) in
  match sizes with
  | None => Done None
  | Some (result_len, char_size) =>
      let* r := if char_size =? kOneByteChar then NewOneByte result_len else NewTwoByte result_len in
      let* r := ConcatAll_ r strings start end_ in
      Done (Some r)
  end.

Definition Empty : String := OneByteString [].
Definition SubString (str : String) (begin_index length : Z) : result (option String) :=
  require (0 <=? begin_index) && (0 <=? length);;
  if (begin_index <=? Length str) && (length =? 0) then Done (Some Empty)
  else if begin_index >? Length str then Done None
  else
    let* is_one_byte_string :=
      if CharSize str =? kTwoByteChar then
        all_from (Z.to_nat length) begin_index (fun i => let* c := CharAt str i in Done (Utf.IsLatin1 c))
      else Done true in
    let* r := if (is_one_byte_string : bool) then NewOneByte length else NewTwoByte length in
    let* r := Copy r 0 str begin_index length in
    Done (Some r).
Definition SubStringFrom (str : String) (begin_index : Z) : result (option String) :=
  if begin_index >=? Length str then Done None else SubString str begin_index (Length str - begin_index).

(** ** Comparison *)
Definition EqualsRange (this str : String) (begin_index len : Z) : result bool :=
  require (0 <=? begin_index) && ((begin_index =? 0) || (begin_index <? Length str)) && (0 <=? len) && (len <=? Length str);;
  if negb (len =? Length this) then Done false
  else all_from (Z.to_nat len) 0 (fun i => let* a := CharAt this i in let* b := CharAt str (begin_index + i) in Done (a =? b)).
Definition EqualsConcat (this str1 str2 : String) : result bool :=
  if negb (Length this =? Length str1 + Length str2) then Done false
  else let* a := EqualsRange str1 this 0 (Length str1) in
       if a then EqualsRange str2 this (Length str1) (Length str2) else Done false.
Definition EqualsUTF16 (this : String) (utf16_array : list Z) : result bool :=
  if negb (size utf16_array =? Length this) then Done false
  else all_from (length utf16_array) 0 (fun i => let* a := CharAt this i in let* b := get utf16_array i in Done (a =? b)).

(** [Equals] of a C string: the rest of the C string (without its final zero), and the
    answer once it is known. *)
Definition EqualsCString (this : String) (cstr : list Z) : result bool :=
  let* (answer, rest) := each_code_point this (fun ch (s : option bool * list Z) =>
    let (_, cstr) := s in
    if size cstr =? 0 then Done (false, (Some false, cstr))
    else let* (consumed, ch') := Utf8.Decode cstr (size cstr) in
         if (consumed =? 0) || negb (ch =? ch') then Done (false, (Some false, cstr))
         else Done (true, (None, skipn (Z.to_nat consumed) cstr))) (None, Utf8.c_string cstr) in
  match answer with Some b => Done b | None => Done (size rest =? 0) end.

Fixpoint CompareTo_loop (n : nat) (i : Z) (this other : String) : result Z :=
  match n with
  | O => Done 0
  | S n =>
      let* a := CharAt this i in
      let* b := CharAt other i in
      if a <? b then Done (-1) else if a >? b then Done 1 else CompareTo_loop n (i + 1) this other
  end.
Definition CompareTo (this : String) (other : option String) : result Z :=
  let this_len := Length this in
  let other_len := match other with None => 0 | Some s => Length s end in
  let len := if this_len <? other_len then this_len else other_len in
  let* c := match other with None => Done 0 | Some s => CompareTo_loop (Z.to_nat len) 0 this s end in
  if negb (c =? 0) then Done c
  else if this_len <? other_len then Done (-1) else if this_len >? other_len then Done 1 else Done 0.

Definition StartsWith (str : String) (prefix : option String) : result bool :=
  match prefix with
  | None => Done false
  | Some prefix =>
      if Length prefix >? Length str then Done false
      else all_from (Z.to_nat (Length prefix)) 0 (fun i => let* a := CharAt str i in let* b := CharAt prefix i in Done (a =? b))
  end.
(** The loop's index is an [int], which must not overflow. *)
Definition EndsWith (this : String) (other : option String) : result bool :=
  match other with
  | None => Done false
  | Some other =>
      let offset := Length this - Length other in
      if (Length other =? 0) || (Length other >? Length this) then Done false
      else
        require Length this <=? max_sN 32;;
        all_from (Z.to_nat (Length this - offset)) offset
             (fun i => let* a := CharAt this i in let* b := CharAt other (i - offset) in Done (a =? b))
  end.

(** [EqualsIgnoringPrivateKey<T1, T2>]. *)
Definition kPrivateKeySeparator : Z := 64.
Fixpoint skip_key (n : nat) (str1 : String) (pos : Z) : result Z :=
  match n with
  | O => OutOfFuel
  | S n =>
      if pos <? Length str1 then
        let* c := CharAt str1 pos in
        if negb (c =? 46) && negb (c =? 38) then skip_key n str1 (pos + 1) else Done pos
      else Done pos
  end.
Fixpoint private_loop (n : nat) (str1 str2 : String) (pos str2_pos : Z) : result bool :=
  match n with
  | O => OutOfFuel
  | S n =>
      if pos <? Length str1 then
        let* ch := CharAt str1 pos in
        let pos := pos + 1 in
        let* same := if str2_pos <? Length str2 then let* c := CharAt str2 str2_pos in Done (ch =? c) else Done false in
        if (same : bool) then private_loop n str1 str2 pos (str2_pos + 1)
        else if ch =? kPrivateKeySeparator then
          let* pos := skip_key (S (length (units str1))) str1 pos in
          private_loop n str1 str2 pos str2_pos
        else Done false
      else
        require pos =? Length str1;;
        Done (str2_pos =? Length str2)
  end.
Definition EqualsIgnoringPrivateKey (str1 str2 : String) : result bool :=
  let len := Length str1 in
  let str2_len := Length str2 in
  if len =? str2_len then
    all_from (Z.to_nat len) 0 (fun i => let* a := CharAt str1 i in let* b := CharAt str2 i in Done (a =? b))
  else if len <? str2_len then Done false
  else private_loop (S (length (units str1))) str1 str2 0 0.

(** ** Hashing ([StringHasher], [vm/hash.h]) *)
Definition kHashBits : Z := 30.
Definition CombineHashes (hash other_hash : Z) : Z :=
  let hash := uN 32 (hash + other_hash) in
  let hash := uN 32 (hash + uN 32 (hash << 10)) in
  hash .^ (hash >> 6).
Definition FinalizeHash (hash hashbits : Z) : Z :=
  let hash := uN 32 (hash + uN 32 (hash << 3)) in
  let hash := hash .^ (hash >> 11) in
  let hash := uN 32 (hash + uN 32 (hash << 15)) in
  let hash := if hashbits <? 32 then hash .& (uN 32 (1 << hashbits) - 1) else hash in
  if hash =? 0 then 1 else hash.
(** [StringHasher::Add] of an array, and of a part of a string. *)
Definition HashAdd (hash : Z) (code_units : list Z) : Z := fold_left CombineHashes code_units hash.
Definition HashAddString (hash : Z) (str : String) (begin_index len : Z) : result Z :=
  require (0 <=? begin_index) && (0 <=? len) && (begin_index + len <=? Length str);;
  if len =? 0 then Done hash
  else let* code_units := slice (units str) begin_index len in Done (HashAdd hash code_units).
Definition HashRange (str : String) (begin_index len : Z) : result Z :=
  let* hash := HashAddString 0 str begin_index len in Done (FinalizeHash hash kHashBits).
Definition HashConcat (str1 str2 : String) : result Z :=
  let* hash := HashAddString 0 str1 0 (Length str1) in
  let* hash := HashAddString hash str2 0 (Length str2) in
  Done (FinalizeHash hash kHashBits).
(** [String::Hash(StringPtr)]. *)
Definition Hash (raw : String) : Z := FinalizeHash (HashAdd 0 (units raw)) kHashBits.

(** A string in the heap: where it is, its canonical bit and its cached hash. *)
Record StringPtr := mkString { address : Z; IsCanonical : bool; cached_hash : Z; contents : String }.
Definition HasHash (p : StringPtr) : bool := negb (cached_hash p =? 0).
Definition Equals (this : StringPtr) (str : option StringPtr) : result bool :=
  match str with
  | None => Done false
  | Some str =>
      if address this =? address str then Done true
      else if IsCanonical this && IsCanonical str then Done false
      else if HasHash this && HasHash str && negb (cached_hash this =? cached_hash str) then Done false
      else EqualsRange (contents this) (contents str) 0 (Length (contents str))
  end.

(** ** Case conversion *)
Section Transform.
Context (mapping : Z -> result Z).
Definition TransformOneByte (str : String) : result String :=
  let len := Length str in
  let* r := NewOneByte len in
  for_from (Z.to_nat len) 0 (fun i r =>
    let* c := CharAt str i in
    let* ch := mapping c in
    require Utf.IsLatin1 ch;; SetCharAt r i ch) r.
Definition TransformTwoByte (str : String) : result String :=
  let len := Length str in
  let* r := NewTwoByte len in
  let* (_, r) := each_code_point str (fun src (s : Z * String) =>
    let (i, r) := s in
    let* dst := mapping src in
    require (0 <=? dst) && (dst <=? 0x10FFFF);;
    let len := Utf16.Length dst in
    let* r :=
      if len =? 1 then SetCharAt r i dst
      else require len =? 2;;
           let* (lead, trail) := Utf16.Encode dst in
           let* r := SetCharAt r i lead in
           SetCharAt r (i + 1) trail in
    Done (true, (i + len, r))) (0, r) in
  Done r.
Definition Transform (str : String) : result String :=
  let* (has_mapping, dst_max) := each_code_point str (fun src (s : bool * Z) =>
    let (has_mapping, dst_max) := s in
    let* dst := mapping src in
    Done (true, (has_mapping || negb (src =? dst), Z.max dst_max dst))) (false, 0) in
  if negb has_mapping then Done str
  else if Utf.IsLatin1 dst_max then TransformOneByte str
  else require Utf.IsBmp dst_max || Utf.IsSupplementary dst_max;; TransformTwoByte str.
End Transform.
Definition ToUpperCase (str : String) : result String := Transform CaseMapping.ToUpper str.
Definition ToLowerCase (str : String) : result String := Transform CaseMapping.ToLower str.

(** ** Escapes *)
Definition IsPercent (c : Z) : bool := c =? 37.
Definition IsHexCharacter (c : Z) : bool :=
  if (c >=? 48) && (c <=? 57) then true else if (c >=? 65) && (c <=? 70) then true else false.
Definition IsURISafeCharacter (c : Z) : bool :=
  if (c >=? 48) && (c <=? 57) then true
  else if (c >=? 97) && (c <=? 122) then true
  else if (c >=? 65) && (c <=? 90) then true
  else (c =? 45) || (c =? 95) || (c =? 46) || (c =? 126).
Definition hex : list Z := [48; 49; 50; 51; 52; 53; 54; 55; 56; 57; 65; 66; 67; 68; 69; 70].
Definition GetHexCharacter (c : Z) : result Z := require (0 <=? c) && (c <? 16);; get hex c.
Definition GetHexValue (c : Z) : result Z :=
  if (c >=? 48) && (c <=? 57) then Done (c - 48)
  else if (c >=? 65) && (c <=? 70) then Done (c - 65 + 10)
  else AssertionFailure.
Definition MergeHexCharacters (c1 c2 : Z) : result Z :=
  let* a := GetHexValue c1 in let* b := GetHexValue c2 in Done ((a << 4) .| b).

Section Iri.
Context (alloc : Z -> list Z).
(** The escaped C string, with its final zero. *)
Definition EncodeIRI (str : String) : result (list Z) :=
  let* len := Utf8String.Length_ str in
  require len <=? max_sN 32;;
  let* utf8 := ToUTF8 str (alloc len) len in
  let* num_escapes := for_from (Z.to_nat len) 0 (fun i num_escapes =>
    let* byte := get utf8 i in
    Done (if negb (IsURISafeCharacter byte) then num_escapes + 2 else num_escapes)) 0 in
  let cstr := alloc (len + num_escapes + 1) in
  let* (index, cstr) := for_from (Z.to_nat len) 0 (fun i (s : Z * list Z) =>
    let (index, cstr) := s in
    let* byte := get utf8 i in
    if negb (IsURISafeCharacter byte) then
      let* cstr := set cstr index 37 in
      let* h := GetHexCharacter (byte >> 4) in
      let* cstr := set cstr (index + 1) h in
      let* l := GetHexCharacter (byte .& 0xF) in
      let* cstr := set cstr (index + 2) l in
      Done (index + 3, cstr)
    else
      require byte <=? 127;;
      let* cstr := set cstr index byte in
      Done (index + 1, cstr)) (0, cstr) in
  set cstr index 0.

(** [cpi.Next()] and [cpi.Current()]: none at the end. *)
Definition next_code_point (str : String) (cpi : CodePointIterator) : result (option Z * CodePointIterator) :=
  let* (more, cpi) := Next str cpi in
  if more then let* ch := Current cpi in Done (Some ch, cpi) else Done (None, cpi).
(** The first pass: the number of escapes, or none when one is malformed. *)
Fixpoint count_escapes (n : nat) (str : String) (cpi : CodePointIterator) (num_escapes : Z) : result (option Z) :=
  match n with
  | O => OutOfFuel
  | S n =>
      let* (c, cpi) := next_code_point str cpi in
      match c with
      | None => Done (Some num_escapes)
      | Some code_point =>
          if IsPercent code_point then
            let* (c1, cpi) := next_code_point str cpi in
            match c1 with
            | None => Done None
            | Some c1 =>
                if negb (IsHexCharacter c1) then Done None
                else
                  let* (c2, cpi) := next_code_point str cpi in
                  match c2 with
                  | None => Done None
                  | Some c2 => if negb (IsHexCharacter c2) then Done None else count_escapes n str cpi (num_escapes + 2)
                  end
            end
          else count_escapes n str cpi num_escapes
      end
  end.
(** The second pass. *)
Fixpoint decode_escapes (n : nat) (str : String) (cpi : CodePointIterator) (index utf8_len : Z) (utf8 : list Z) : result (list Z) :=
  match n with
  | O => OutOfFuel
  | S n =>
      let* (c, cpi) := next_code_point str cpi in
      match c with
      | None => Done utf8
      | Some code_point =>
          require index <? utf8_len;;
          if IsPercent code_point then
            let* (_, cpi) := Next str cpi in
            let* ch1 := Current cpi in
            let* (_, cpi) := Next str cpi in
            let* ch2 := Current cpi in
            let* merged := MergeHexCharacters ch1 ch2 in
            require (0 <=? merged) && (merged <? 256);;
            let* utf8 := set utf8 index (uN 8 merged) in
            decode_escapes n str cpi (index + 1) utf8_len utf8
          else
            require (0 <=? code_point) && (code_point <? 256);;
            let* utf8 := set utf8 index (uN 8 code_point) in
            decode_escapes n str cpi (index + 1) utf8_len utf8
      end
  end.
Definition DecodeIRI (str : String) : result (option String) :=
  let fuel := S (length (units str)) in
  let* escapes := count_escapes fuel str (iterator str) 0 in
  match escapes with
  | None => Done None
  | Some num_escapes =>
      let utf8_len := Length str - num_escapes in
      require utf8_len >=? 0;;
      let* utf8 := decode_escapes fuel str (iterator str) 0 utf8_len (alloc utf8_len) in
      FromUTF8 utf8
  end.
End Iri.

Definition IsSpecialCharacter (value : Z) : bool :=
  (value =? 34) || (value =? 10) || (value =? 12) || (value =? 8) || (value =? 9) || (value =? 11) ||
  (value =? 13) || (value =? 92) || (value =? 36).
Definition IsAsciiNonprintable (c : Z) : bool := (0 <=? c) && (c <? 32) || (c =? 127).
Definition EscapeOverhead (c : Z) : Z :=
  if IsSpecialCharacter c then 1 else if IsAsciiNonprintable c then 3 else 0.
Definition SpecialCharacter (value : Z) : result Z :=
  if value =? 34 then Done 34
  else if value =? 10 then Done 110
  else if value =? 12 then Done 102
  else if value =? 8 then Done 98
  else if value =? 9 then Done 116
  else if value =? 11 then Done 118
  else if value =? 13 then Done 114
  else if value =? 92 then Done 92
  else if value =? 36 then Done 36
  else AssertionFailure.
Definition EscapeSpecialCharacters (str : String) : result String :=
  let len := Length str in
  if len >? 0 then
    let* num_escapes := for_from (Z.to_nat len) 0 (fun i n => let* c := CharAt str i in Done (n + EscapeOverhead c)) 0 in
    let* dststr := if IsOneByteString str then NewOneByte (len + num_escapes) else NewTwoByte (len + num_escapes) in
    let* (_, dststr) := for_from (Z.to_nat len) 0 (fun i (s : Z * String) =>
      let (index, dststr) := s in
      let* ch := CharAt str i in
      if IsSpecialCharacter ch then
        let* dststr := SetCharAt dststr index 92 in
        let* c := SpecialCharacter ch in
        let* dststr := SetCharAt dststr (index + 1) c in
        Done (index + 2, dststr)
      else if IsAsciiNonprintable ch then
        let* dststr := SetCharAt dststr index 92 in
        let* dststr := SetCharAt dststr (index + 1) 120 in
        let* h := GetHexCharacter (ch >> 4) in
        let* dststr := SetCharAt dststr (index + 2) h in
        let* l := GetHexCharacter (ch .& 0xF) in
        let* dststr := SetCharAt dststr (index + 3) l in
        Done (index + 4, dststr)
      else
        let* dststr := SetCharAt dststr index ch in
        Done (index + 1, dststr)) (0, dststr) in
    Done dststr
  else if IsOneByteString str then Done Empty else NewTwoByte 0.
