(* ===== verification/DartStringProofs.v ===== *)
(** * Strings and UTF-8

    What the constructors and conversions of strings compute: the string of a valid
    UTF-8 array, the code points an iterator visits, the UTF-8 length counted a word at
    a time, and the UTF-8 form of a string. *)

From Stdlib Require Import ZArith Bool List Lia.
From S2P Require Import Prelude Result Arrays Utils Il Unicode UnicodeProofs CaseMapping DartString.
Import ListNotations.
Open Scope Z_scope.
Open Scope cint_scope.

Definition unit16 (u : Z) : Prop := 0 <= u < 0x10000.
(** A string of the heap. *)
Definition well_formed (str : String) : Prop :=
  Length str <= kMaxElements /\
  match str with OneByteString d => Forall byte d | TwoByteString d => Forall unit16 d end.

Lemma kMaxElements_eq : kMaxElements = 2 ^ 61 - 1.
Proof. reflexivity. Qed.

Lemma well_formed_units str : well_formed str -> Forall unit16 (units str).
Proof. intros [_ H]. destruct str as [d|d]; cbn in *; [|exact H]. eapply Forall_impl; [|exact H]. unfold byte, unit16. lia. Qed.

(** ** From UTF-8 *)
Definition latin1 (c : Z) : bool := c <=? 0xFF.
(** The string of a list of code points. *)
Definition string_of (cs : list Z) : String :=
  if forallb latin1 cs then OneByteString cs else TwoByteString (utf16 cs).

Lemma utf16_latin1 cs : forallb latin1 cs = true -> utf16 cs = cs.
Proof.
  induction cs as [|c cs IH]; intros H; [reflexivity|]. cbn in H. apply andb_true_iff in H as [H1 H2]. apply Z.leb_le in H1. cbn. fold (utf16 cs).
  rewrite IH by exact H2. unfold utf16_of. rewrite (proj2 (Z.ltb_lt c 0x10000)) by lia. reflexivity.
Qed.
Lemma utf8_type_latin1 cs : forall t, fold_left wider cs t = Utf8.kLatin1 <-> t = Utf8.kLatin1 /\ forallb latin1 cs = true.
Proof.
  induction cs as [|c cs IH]; intros t; cbn [fold_left forallb]; [tauto|]. rewrite IH, andb_true_iff. unfold wider, latin1 at 2.
  destruct (Z.leb_spec c 0xFF); [tauto|]. split; intros H'; exfalso; [|destruct H' as [_ [H' _]]; discriminate].
  destruct H' as [H' _]. destruct (c <? 0x10000), t; discriminate.
Qed.

Lemma New_spec len : 0 <= len <= kMaxElements ->
  NewOneByte len = Done (OneByteString (repeat 0 (Z.to_nat len))) /\ NewTwoByte len = Done (TwoByteString (repeat 0 (Z.to_nat len))).
Proof.
  intros H. unfold NewOneByte, NewTwoByte. rewrite (proj2 (Z.leb_le 0 len)), (proj2 (Z.leb_le len _)) by lia. split; reflexivity.
Qed.

Lemma ReportInvalidByte_done bs len : Forall byte bs -> exists i, Utf8.ReportInvalidByte bs len = Done i.
Proof.
  intros HB. destruct (ReportInvalidByte_returns bs len (S (length bs)) bs [] 0 eq_refl ltac:(lia) HB) as (i & Hi & _). exists i. exact Hi.
Qed.
Lemma DecodeToLatin1_spec bs dst : Forall byte bs -> Forall (fun b => b <= 0xC3) bs ->
  exists r, Utf8.DecodeToLatin1 bs dst = Done r /\ decoded (fun cs => cs) [] dst bs r.
Proof.
  intros HB HM. destruct (DecodeToLatin1_loop_spec bs (S (length bs)) bs [] [] dst eq_refl ltac:(lia) HB HM) as (r & Hr & D). exists r. auto.
Qed.
Lemma DecodeToUTF16_spec bs dst : Forall byte bs -> exists r, Utf8.DecodeToUTF16 bs dst = Done r /\ decoded utf16 [] dst bs r.
Proof.
  intros HB. destruct (DecodeToUTF16_loop_spec bs (S (length bs)) bs [] [] dst eq_refl ltac:(lia) HB) as (r & Hr & D). exists r. auto.
Qed.

(** The count of an array of trail bytes is zero, and only of such an array. *)
Lemma count_trails bs : Forall byte bs -> (forallb Utf8.IsTrailByte bs = true -> Utf8.CodeUnitCount bs = (0, Utf8.kLatin1)) /\ (fst (Utf8.CodeUnitCount bs) = 0 -> forallb Utf8.IsTrailByte bs = true).
Proof.
  intros HB. split; intros H.
  - pose proof (CodeUnitCount_trail bs [] 0 Utf8.kLatin1 HB) as E. rewrite app_nil_r in E. unfold Utf8.CodeUnitCount. rewrite E; [reflexivity|].
    rewrite forallb_forall in H. rewrite Forall_forall in *. intros b Hb. rewrite <- IsTrailByte_trail; auto.
  - pose proof (CodeUnitCount_any bs 0 Utf8.kLatin1 ltac:(lia)) as (_ & HZ & _). rewrite forallb_forall, <- Forall_forall. exact (HZ H).
Qed.

Lemma FromUTF8_spec bs : Forall byte bs -> fst (Utf8.CodeUnitCount bs) <= kMaxElements ->
  (forall cs, Forall code_point cs -> bs = utf8 cs -> FromUTF8 bs = Done (Some (string_of cs))) /\
  (~ valid bs -> FromUTF8 bs = Done (if forallb Utf8.IsTrailByte bs then Some Empty else None)).
Proof.
  intros HB HM. pose proof (CodeUnitCount_any bs 0 Utf8.kLatin1 ltac:(lia)) as (HC & HZ & HL). fold (Utf8.CodeUnitCount bs) in HC, HZ, HL.
  destruct (count_trails bs HB) as [HT HT'].
  assert (forall cs, Forall code_point cs -> bs = utf8 cs -> Utf8.CodeUnitCount bs = (size (utf16 cs), utf8_type cs)) as HV by (intros cs Hcs ->; apply CodeUnitCount_utf8, Hcs).
  unfold FromUTF8. destruct (Utf8.CodeUnitCount bs) as [len type]. cbn [fst snd] in *.
  destruct (New_spec len ltac:(lia)) as [N1 N2]. destruct (ReportInvalidByte_done bs len HB) as [i Hi].
  assert (type = Utf8.kLatin1 \/ type <> Utf8.kLatin1) as [T|T] by (destruct type; [left|right..]; congruence).
  - subst type. rewrite N1. cbn [rbind units]. rewrite Z.gtb_ltb.
    assert (Forall (fun b => b <= 0xC3) bs) as HF.
    { destruct (HL eq_refl) as [_ F]. rewrite Forall_forall in *. intros b Hb. destruct (F b Hb) as [F'|F']; [|exact F'].
      rewrite IsTrailByte_trail in F' by auto. apply trail_range in F'. lia. }
    destruct (DecodeToLatin1_spec bs (repeat 0 (Z.to_nat len)) HB HF) as ([ok data] & E & V & NV).
    destruct (Z.ltb_spec 0 len).
    + rewrite E. cbn [rbind]. split.
      * intros cs Hcs Eb. specialize (HV cs Hcs Eb). injection HV as HV1 HV2. symmetry in HV2. apply utf8_type_latin1 in HV2 as [_ HV2].
        rewrite utf16_latin1 in HV1 by exact HV2. specialize (V cs Hcs Eb). rewrite size_repeat in V by lia. specialize (V ltac:(lia)). injection V as -> ->.
        unfold string_of. rewrite HV2. reflexivity.
      * intros NB. specialize (NV NB). cbn in NV. subst ok. cbn [negb]. rewrite Hi. cbn [rbind].
        destruct (forallb Utf8.IsTrailByte bs); [|reflexivity]. injection (HT eq_refl). lia.
    + assert (len = 0) as -> by lia. rewrite (HT' eq_refl). split; [|reflexivity].
      intros cs Hcs Eb. specialize (HV cs Hcs Eb). injection HV as HV1 HV2. symmetry in HV2. apply utf8_type_latin1 in HV2 as [_ HV2].
      rewrite utf16_latin1 in HV1 by exact HV2. destruct cs; [reflexivity|sizes].
  - assert (forall A (x y : A), match type with Utf8.kLatin1 => x | _ => y end = y) as M by (intros; destruct type; congruence).
    rewrite M, N2. cbn [rbind units].
    destruct (DecodeToUTF16_spec bs (repeat 0 (Z.to_nat len)) HB) as ([ok data] & E & V & NV). rewrite E. cbn [rbind]. split.
    + intros cs Hcs Eb. specialize (HV cs Hcs Eb). injection HV as HV1 HV2. specialize (V cs Hcs Eb). rewrite size_repeat in V by lia.
      specialize (V ltac:(lia)). injection V as -> ->. unfold string_of. destruct (forallb latin1 cs) eqn:F; [|reflexivity].
      exfalso. apply T. rewrite HV2. apply utf8_type_latin1. auto.
    + intros NB. specialize (NV NB). cbn in NV. subst ok. cbn [negb]. rewrite Hi. cbn [rbind].
      destruct (forallb Utf8.IsTrailByte bs); [|reflexivity]. injection (HT eq_refl). congruence.
Qed.

(** ** The code points of a string *)
Definition lead_surrogate (u : Z) : bool := (0xD800 <=? u) && (u <? 0xDC00).
Definition trail_surrogate (u : Z) : bool := (0xDC00 <=? u) && (u <? 0xE000).
Definition surrogate (u : Z) : bool := (0xD800 <=? u) && (u <? 0xE000).
Definition paired (u v : Z) : Z := 0x10000 + (u - 0xD800) * 1024 + (v - 0xDC00).

(** The first code point, its code units, and the units after it. *)
Definition first_code_point (us : list Z) : option (Z * list Z * list Z) :=
  match us with
  | [] => None
  | u :: rest =>
      match rest with
      | v :: rest' => if lead_surrogate u && trail_surrogate v then Some (paired u v, [u; v], rest') else Some (u, [u], rest)
      | [] => Some (u, [u], rest)
      end
  end.
Fixpoint code_points (us : list Z) : list Z :=
  match us with
  | [] => []
  | u :: rest =>
      match rest with
      | v :: rest' => if lead_surrogate u && trail_surrogate v then paired u v :: code_points rest' else u :: code_points rest
      | [] => [u]
      end
  end.

Lemma code_points_first us : code_points us = match first_code_point us with None => [] | Some (c, _, rest) => c :: code_points rest end.
Proof. destruct us as [|u [|v rest]]; try reflexivity. cbn [code_points first_code_point]. destruct (_ && _); reflexivity. Qed.

(** The mask of the bits above the lowest [k]. *)
Lemma land_high k c : 0 <= k <= 32 -> 0 <= c < 2 ^ 32 -> c .& (Z.ones (32 - k) << k) = c / 2 ^ k * 2 ^ k.
Proof.
  intros Hk Hc. rewrite <- Z.shiftr_div_pow2, <- Z.shiftl_mul_pow2 by lia. apply Z.bits_inj'. intros i Hi.
  rewrite Z.land_spec, !testbit_shiftl by lia. destruct (Z.ltb_spec i k); [apply andb_false_r|].
  rewrite testbit_shiftr by lia. replace (i - k + k) with i by lia. destruct (Z.ltb_spec i 32).
  - rewrite Z.ones_spec_low by lia. apply andb_true_r.
  - rewrite (testbit_uN_high 32 c i) by (unfold is_uN; lia). reflexivity.
Qed.
Lemma surrogate_bits u : unit16 u -> Utf16.IsLeadSurrogate u = lead_surrogate u /\ Utf16.IsTrailSurrogate u = trail_surrogate u.
Proof.
  unfold unit16, Utf16.IsLeadSurrogate, Utf16.IsTrailSurrogate. intros H. rewrite uN_small by (unfold is_uN; lia).
  pose proof (land_high 10 u ltac:(lia) ltac:(lia)) as E. change (Z.ones (32 - 10) << 10) with 0xFFFFFC00 in E. change (2 ^ 10) with 1024 in E.
  rewrite E. unfold lead_surrogate, trail_surrogate. split; apply eq_true_iff_eq; rewrite andb_true_iff, Z.leb_le, Z.ltb_lt, Z.eqb_eq; zdiv.
Qed.
Lemma Decode_paired u v : lead_surrogate u = true -> trail_surrogate v = true -> Utf16.Decode u v = paired u v.
Proof.
  unfold lead_surrogate, trail_surrogate, paired, Utf16.Decode. rewrite !andb_true_iff, !Z.leb_le, !Z.ltb_lt. intros Hu Hv.
  change 0x3FF with (Z.ones 10). rewrite !Z.land_ones, Z.shiftl_mul_pow2 by lia. change (2 ^ 10) with 1024. zdiv.
Qed.
Lemma paired_range u v : lead_surrogate u = true -> trail_surrogate v = true -> 0x10000 <= paired u v <= 0x10FFFF.
Proof. unfold lead_surrogate, trail_surrogate, paired. rewrite !andb_true_iff, !Z.leb_le, !Z.ltb_lt. lia. Qed.

Lemma first_code_point_spec us c q rest : Forall unit16 us -> first_code_point us = Some (c, q, rest) ->
  us = q ++ rest /\ code_point c /\ Utf16.Length c = size q /\ q = utf16_of c /\ Forall unit16 rest.
Proof.
  intros HU. destruct us as [|u [|v r]]; cbn [first_code_point]; [discriminate|..].
  - intros E. inversion E; subst. apply Forall_cons_iff in HU as [U _]. unfold unit16 in U. unfold code_point, Utf16.Length, Utf16.kMaxCodeUnit, utf16_of.
    rewrite (proj2 (Z.leb_le c 0xFFFF)), (proj2 (Z.ltb_lt c 0x10000)) by lia. repeat split; try lia; constructor.
  - destruct (lead_surrogate u) eqn:L; [destruct (trail_surrogate v) eqn:T|]; cbn [andb]; intros E; inversion E; subst; clear E.
    2,3: (apply Forall_cons_iff in HU as [U HU]; unfold unit16 in U; unfold code_point, Utf16.Length, Utf16.kMaxCodeUnit, utf16_of;
      rewrite (proj2 (Z.leb_le c 0xFFFF)), (proj2 (Z.ltb_lt c 0x10000)) by lia; repeat split; try lia; assumption).
    pose proof (paired_range u v L T). unfold code_point, Utf16.Length, Utf16.kMaxCodeUnit, utf16_of.
    rewrite (proj2 (Z.leb_gt _ 0xFFFF)), (proj2 (Z.ltb_ge _ 0x10000)) by lia. repeat split; try lia.
    + unfold lead_surrogate, trail_surrogate, paired in *. rewrite !andb_true_iff, !Z.leb_le, !Z.ltb_lt in *. do 2 f_equal; [|f_equal]; zdiv.
    + apply Forall_cons_iff in HU as [_ HU]. apply Forall_cons_iff in HU as [_ HU]. exact HU.
Qed.

Lemma Next_spec str p rest it : units str = p ++ rest -> Forall unit16 rest -> end_ it = Length str -> index_ it + Utf16.Length (ch_ it) = size p -> -1 <= index_ it ->
  exists it', Next str it = Done (match rest with [] => false | _ => true end, it') /\ end_ it' = Length str /\
    match first_code_point rest with Some (c, q, _) => it' = mkIterator c (size p) (Length str) | None => True end.
Proof.
  intros EU HU HE HI HL. unfold Next. rewrite (proj2 (Z.leb_le (-1) _)) by lia. rewrite HE. unfold Length in *. rewrite EU.
  destruct rest as [|u rest].
  { rewrite app_nil_r, (proj2 (Z.ltb_ge _ _)) by lia. eexists. repeat split. }
  rewrite (proj2 (Z.ltb_lt _ _)) by sizes. rewrite HI. unfold CharAt. rewrite EU, get_mid by reflexivity. cbn [rbind].
  apply Forall_cons_iff in HU as [U HU]. destruct (surrogate_bits u U) as [-> _]. destruct rest as [|v rest].
  { rewrite (proj2 (Z.ltb_ge (size p) _)) by sizes. rewrite andb_false_r. eexists. repeat split. }
  rewrite (proj2 (Z.ltb_lt (size p) _)) by sizes. rewrite andb_true_r. cbn [first_code_point].
  destruct (lead_surrogate u) eqn:L; cbn [andb]; [|eexists; repeat split].
  change (p ++ u :: v :: rest) with (p ++ [u] ++ v :: rest). rewrite app_assoc, get_mid by sizes. cbn [rbind].
  apply Forall_cons_iff in HU as [V HU]. destruct (surrogate_bits v V) as [_ ->].
  destruct (trail_surrogate v) eqn:T; [rewrite Decode_paired by assumption|]; eexists; repeat split.
Qed.

(** A loop over the code points is a loop over the list of them. *)
Fixpoint each_list {S} (cs : list Z) (body : Z -> S -> result (bool * S)) (s : S) : result S :=
  match cs with
  | [] => Done s
  | c :: cs => let* (go_on, s) := body c s in if go_on then each_list cs body s else Done s
  end.

Section Each.
Context {S : Type} (str : String) (body : Z -> S -> result (bool * S)).
Hypothesis (HU : Forall unit16 (units str)).

Lemma each_from_list : forall n rest p it s, (length rest < n)%nat -> units str = p ++ rest ->
  end_ it = Length str -> index_ it + Utf16.Length (ch_ it) = size p -> -1 <= index_ it ->
  each_from n str it body s = each_list (code_points rest) body s.
Proof.
  induction n as [|n IH]; intros rest p it s HL EU HE HX HM; [lia|]. cbn [each_from].
  assert (Forall unit16 rest) as HR by (rewrite EU in HU; apply Forall_app in HU as [_ HR]; exact HR).
  destruct (Next_spec str p rest it EU HR HE HX HM) as (it' & -> & HE' & H'). cbn [rbind]. rewrite code_points_first.
  destruct (first_code_point rest) as [[[c q] rest']|] eqn:F.
  2: { destruct rest as [|u [|v r]]; cbn in F; try discriminate; [reflexivity|destruct (_ && _); discriminate]. }
  destruct (first_code_point_spec rest c q rest' HR F) as (Eq & C & HLen & _ & _). destruct rest as [|u rest]; [discriminate|].
  subst it'. unfold Current. cbn [index_ end_ ch_]. rewrite (proj2 (Z.leb_le 0 _)), (proj2 (Z.ltb_lt (size p) _)) by (unfold Length; rewrite ?EU; sizes).
  cbn [andb rbind each_list]. destruct (body c s) as [[go_on s']| |]; cbn [rbind]; try reflexivity. destruct go_on; [|reflexivity].
  assert (1 <= size q) by (rewrite <- HLen; unfold Utf16.Length; destruct (_ <=? _); lia).
  assert (size (u :: rest) = size q + size rest') as Z by (rewrite Eq; sizes).
  apply (IH rest' (p ++ q)); cbn [end_ index_ ch_]; [unfold size in *; lia|rewrite EU, Eq; apply app_assoc|reflexivity|rewrite HLen; sizes|sizes].
Qed.
Lemma each_code_point_list s : each_code_point str body s = each_list (code_points (units str)) body s.
Proof. apply (each_from_list _ _ []); cbn; lia || reflexivity. Qed.
End Each.

Lemma code_points_range us : Forall unit16 us -> Forall code_point (code_points us).
Proof.
  remember (length us) as n eqn:E. assert (length us <= n)%nat as L by lia. clear E. revert us L.
  induction n as [|n IH]; intros us L HU; [destruct us; [constructor|cbn in L; lia]|].
  rewrite code_points_first. destruct (first_code_point us) as [[[c q] rest]|] eqn:F; [|constructor].
  destruct (first_code_point_spec us c q rest HU F) as (-> & C & HL & Eq & HR). constructor; [exact C|]. apply IH; [|exact HR].
  rewrite length_app in L. assert (0 < size q) by (rewrite Eq, utf16_of_size; destruct (_ <? _); lia). unfold size in *. lia.
Qed.
(** The state after each code point, or at the early exit. *)
Lemma each_list_returns {S} (body : Z -> S -> result (bool * S)) (I : list Z -> S -> Prop) (Q : S -> Prop) cs :
  (forall pre c post s, cs = pre ++ c :: post -> I pre s -> returns (fun r : bool * S => if fst r then I (pre ++ [c]) (snd r) else Q (snd r)) (body c s)) ->
  forall s, I [] s -> returns (fun s => I cs s \/ Q s) (each_list cs body s).
Proof.
  intros HI. assert (forall post pre s, cs = pre ++ post -> I pre s -> returns (fun s => I cs s \/ Q s) (each_list post body s)) as G.
  { induction post as [|c post IH]; intros pre s E Hs; cbn [each_list].
    - apply returns_done. left. rewrite E, app_nil_r. exact Hs.
    - eapply returns_bind; [apply (HI pre c post s E Hs)|]. intros [go_on s'] H'. cbn [fst snd] in H'. destruct go_on; [|apply returns_done; right; exact H'].
      apply (IH (pre ++ [c])); [rewrite E, <- app_assoc; reflexivity|exact H']. }
  intros s Hs. apply (G cs []); [reflexivity|exact Hs].
Qed.
Lemma each_returns {S} str (body : Z -> S -> result (bool * S)) (I : list Z -> S -> Prop) (Q : S -> Prop) : Forall unit16 (units str) ->
  (forall pre c post s, code_points (units str) = pre ++ c :: post -> code_point c -> I pre s ->
    returns (fun r : bool * S => if fst r then I (pre ++ [c]) (snd r) else Q (snd r)) (body c s)) ->
  forall s, I [] s -> returns (fun s => I (code_points (units str)) s \/ Q s) (each_code_point str body s).
Proof.
  intros HU HI s Hs. rewrite each_code_point_list by exact HU. apply each_list_returns; [|exact Hs]. intros pre c post s' E. apply (HI pre c post s' E).
  pose proof (code_points_range _ HU) as HC. rewrite E in HC. apply Forall_app in HC as [_ HC]. apply Forall_cons_iff in HC as [HC _]. exact HC.
Qed.
Lemma utf16_code_points us : Forall unit16 us -> utf16 (code_points us) = us.
Proof.
  remember (length us) as n eqn:E. assert (length us <= n)%nat as L by lia. clear E. revert us L.
  induction n as [|n IH]; intros us L HU; [destruct us; [reflexivity|cbn in L; lia]|].
  rewrite code_points_first. destruct (first_code_point us) as [[[c q] rest]|] eqn:F.
  2: { destruct us as [|u [|v r]]; cbn in F; try discriminate; [reflexivity|]. destruct (_ && _); discriminate. }
  destruct (first_code_point_spec us c q rest HU F) as (-> & C & HL & Eq & HR). cbn. fold (utf16 (code_points rest)). rewrite <- Eq, IH; [reflexivity| |exact HR].
  rewrite length_app in L. assert (0 < size q) by (rewrite Eq, utf16_of_size; destruct (_ <? _); lia). unfold size in *. lia.
Qed.
Lemma code_points_bytes us : Forall byte us -> code_points us = us.
Proof.
  intros H. induction H as [|u us U H IH]; [reflexivity|]. cbn [code_points]. destruct us as [|v us]; [reflexivity|].
  unfold lead_surrogate. unfold byte in U. rewrite (proj2 (Z.leb_gt 0xD800 u)) by lia. cbn [andb]. rewrite IH. reflexivity.
Qed.

(** ** The length, a word at a time *)
Definition high (us : list Z) : Z := size (filter (fun u => 0x80 <=? u) us).
Lemma high_cons u us : high (u :: us) = (if 0x80 <=? u then 1 else 0) + high us.
Proof. unfold high. cbn [filter]. destruct (0x80 <=? u); sizes. Qed.
Lemma high_app us vs : high (us ++ vs) = high us + high vs.
Proof. unfold high. rewrite filter_app. sizes. Qed.
Lemma utf8_size_bytes us : Forall byte us -> size (utf8 us) = size us + high us.
Proof.
  intros H. induction H as [|u us U H IH]; [reflexivity|]. change (utf8 (u :: us)) with (utf8_of u ++ utf8 us). rewrite size_app, IH, high_cons, size_cons. unfold byte in U. unfold utf8_of.
  destruct (Z.ltb_spec u 0x80), (Z.leb_spec 0x80 u); try lia; [|rewrite (proj2 (Z.ltb_lt u 0x800)) by lia]; sizes.
Qed.

Lemma testbit_byte b w i : 0 <= b < 256 -> 0 <= i -> Z.testbit (b + 256 * w) i = if i <? 8 then Z.testbit b i else Z.testbit w (i - 8).
Proof.
  intros H Hi. replace (b + 256 * w) with (b + w * 2 ^ 8) by lia. rewrite <- lor_disjoint, Z.lor_spec, testbit_shiftl by lia.
  destruct (Z.ltb_spec i 8); [apply orb_false_r|]. rewrite (testbit_uN_high 8 b i) by (unfold is_uN; lia). reflexivity.
Qed.
Lemma land_byte b w m n : 0 <= b < 256 -> 0 <= m < 256 -> (b + 256 * w) .& (m + 256 * n) = (b .& m) + 256 * (w .& n).
Proof.
  intros H1 H2. assert (0 <= b .& m < 256) as H3.
  { replace (b .& m) with (uN 8 (b .& m)); [apply (uN_range 8); lia|]. apply Z.bits_inj'. intros i Hi. rewrite testbit_uN, Z.land_spec by lia.
    destruct (Z.ltb_spec i 8); [reflexivity|]. rewrite (testbit_uN_high 8 b i) by (unfold is_uN; lia). reflexivity. }
  apply Z.bits_inj'. intros i Hi. rewrite Z.land_spec, !testbit_byte by (assumption || lia). destruct (i <? 8); rewrite Z.land_spec; reflexivity.
Qed.

Definition mark (u : Z) : Z := if 0x80 <=? u then 0x80 else 0.
Lemma land_mark u : byte u -> u .& 0x80 = mark u.
Proof. intros H. apply Z.eqb_eq. apply (all_below 256 (fun u => (u .& 0x80) =? mark u)); [vm_compute; reflexivity|exact H]. Qed.

(** A word of eight bytes. *)
Ltac eight us := destruct us as [|? [|? [|? [|? [|? [|? [|? [|? [|? ?]]]]]]]]]; try discriminate.
Lemma mask_word us : length us = 8%nat -> Forall byte us ->
  Utf8String.little_endian us .& Utf8String.kAsciiWordMask = Utf8String.little_endian (map mark us).
Proof.
  intros L H. eight us. unfold Utf8String.kAsciiWordMask. cbn [Utf8String.little_endian map].
  repeat match goal with H : Forall byte (_ :: _) |- _ => apply Forall_cons_iff in H as [? H] end. unfold byte in *.
  replace 0x8080808080808080 with (0x80 + 256 * (0x80 + 256 * (0x80 + 256 * (0x80 + 256 * (0x80 + 256 * (0x80 + 256 * (0x80 + 256 * (0x80 + 256 * 0)))))))) by reflexivity.
  rewrite !land_byte by lia. rewrite !land_mark by assumption. reflexivity.
Qed.
Lemma count_marks us : length us = 8%nat -> Utf8String.count_high_bits (Utf8String.little_endian (map mark us)) = high us.
Proof.
  intros L. eight us. rewrite !high_cons. unfold mark. cbn [map].
  repeat match goal with |- context [0x80 <=? ?u] => destruct (0x80 <=? u) end; reflexivity.
Qed.
Lemma marks_zero us : Forall byte us -> Utf8String.little_endian (map mark us) = 0 <-> high us = 0.
Proof.
  intros H. induction H as [|u us U H IH]; [tauto|]. rewrite high_cons. cbn [map Utf8String.little_endian].
  assert (0 <= Utf8String.little_endian (map mark us)) as P.
  { clear IH. induction us as [|v us IH]; cbn [map Utf8String.little_endian]; [lia|]. inversion H; subst. specialize (IH ltac:(assumption)). unfold mark at 1. destruct (0x80 <=? v); lia. }
  pose proof (size_nonneg (filter (fun u => 0x80 <=? u) us)) as N. fold (high us) in N. unfold mark at 1. destruct (0x80 <=? u); split; intros; try lia; apply IH; lia.
Qed.

Lemma load_word_mid pre us post i : length us = 8%nat -> i = size pre -> Utf8String.load_word (pre ++ us ++ post) i = Done (Utf8String.little_endian us).
Proof. intros L ->. unfold Utf8String.load_word. rewrite slice_mid by (reflexivity || (unfold size, Utf8String.kWordSize; lia)). reflexivity. Qed.

Lemma Length_words_spec data : forall n pre rest length, data = pre ++ rest -> Forall byte rest -> size rest < Z.of_nat n ->
  exists mid rest', rest = mid ++ rest' /\ size rest' < 8 /\
    Utf8String.Length_words n data (size data) (size pre + 8) length = Done (size (pre ++ mid) + 8, length + high mid).
Proof.
  induction n as [|n IH]; intros pre rest len E HB HL; [pose proof (size_nonneg rest); lia|]. cbn [Utf8String.Length_words].
  destruct (Z.leb_spec (size pre + 8) (size data)) as [H|H].
  2: { exists [], rest. rewrite app_nil_r. change (high []) with 0. rewrite Z.add_0_r. repeat split. subst data. sizes. }
  destruct (cut rest 8) as (us & r & Er & Hus); [subst data; sizes|]. subst rest. assert (length us = 8%nat) as L8 by (unfold size in Hus; lia).
  apply Forall_app in HB as [HB1 HB2]. 
  assert (Utf8String.load_word data (size pre + 8 - Utf8String.kWordSize) = Done (Utf8String.little_endian us)) as LW
    by (rewrite E; apply load_word_mid; [exact L8|unfold Utf8String.kWordSize; lia]).
  rewrite LW. cbn [rbind].
  rewrite mask_word by assumption. destruct (IH (pre ++ us) r (len + high us)) as (mid & r' & -> & Hr & R).
  { rewrite E. apply app_assoc. } { exact HB2. } { rewrite size_app in HL. lia. }
  exists (us ++ mid), r'. rewrite !app_assoc in *. repeat split; [exact Hr|].
  replace (if negb (Utf8String.little_endian (map mark us) =? 0) then _ else _) with (len + high us).
  - unfold Utf8String.kWordSize. replace (size pre + 8 + 8) with (size (pre ++ us) + 8) by sizes. rewrite R, high_app. f_equal. f_equal. lia.
  - destruct (Z.eqb_spec (Utf8String.little_endian (map mark us)) 0) as [E0|E0]; cbn [negb]; [|rewrite count_marks by exact L8; reflexivity].
    apply marks_zero in E0; [lia|exact HB1].
Qed.

Lemma fold_high rest : forall len, fold_left (fun len c => if c >? Utf8.kMaxOneByteChar then len + 1 else len) rest len = len + high rest.
Proof.
  induction rest as [|c rest IH]; intros len; cbn [fold_left]; [change (high []) with 0; lia|]. rewrite IH, high_cons, Z.gtb_ltb. unfold Utf8.kMaxOneByteChar.
  destruct (Z.ltb_spec 0x7F c), (Z.leb_spec 0x80 c); lia.
Qed.

Lemma Length_utf8_string str : well_formed str -> Utf8String.Length_ str = Done (size (utf8 (code_points (units str)))).
Proof.
  intros W. pose proof (well_formed_units str W) as HU. destruct W as [_ W]. destruct str as [data|data]; cbn [Utf8String.Length_ units] in *.
  - rewrite code_points_bytes, utf8_size_bytes by exact W. unfold Length. cbn [units].
    destruct (Length_words_spec data (S (length data)) [] data (size data) eq_refl W ltac:(unfold size; lia)) as (mid & rest & E & Hr & R).
    change (size [] + 8) with Utf8String.kWordSize in R. rewrite R. cbn [rbind app].
    unfold Utf8String.kWordSize. replace (size mid + 8 - 8) with (size mid) by lia.
    replace (Z.to_nat (size data - size mid)) with (length rest) by (rewrite E, size_app; unfold size; lia).
    rewrite (for_from_list (fun len c => if c >? Utf8.kMaxOneByteChar then len + 1 else len)).
    + rewrite fold_high. f_equal. replace (high data) with (high mid + high rest) by (rewrite E, high_app; reflexivity). lia.
    + intros pre x post s ->. unfold CharAt. cbn [units]. rewrite E, app_assoc, get_mid by sizes. reflexivity.
  - destruct (each_returns (TwoByteString data) (fun ch length => let* l := Utf8.Length ch in Done (true, length + l))
      (fun pre len => len = size (utf8 pre)) (fun _ => False) HU) with (s := 0) as (len & E & [H|H]); try contradiction; [|reflexivity|rewrite E, H; reflexivity].
    intros pre c post s _ C ->. rewrite Length_utf8 by exact C. cbn [rbind]. apply returns_done. cbn [fst snd]. rewrite utf8_app, size_app.
    change (utf8 [c]) with (utf8_of c ++ []). rewrite app_nil_r. reflexivity.
Qed.

(** ** The UTF-8 form *)
Definition replaced (c : Z) : Z := if surrogate c then 0xFFFD else c.
(** What [Encode] writes. *)
Definition utf8_string (str : String) : list Z := utf8 (map replaced (code_points (units str))).

Lemma replaced_code_point c : code_point c -> code_point (replaced c).
Proof. unfold replaced, code_point. destruct (surrogate c); lia. Qed.
Lemma replaced_byte c : byte c -> replaced c = c.
Proof. unfold byte, replaced, surrogate. intros H. rewrite (proj2 (Z.leb_gt 0xD800 c)) by lia. reflexivity. Qed.
Lemma replaced_size c : code_point c -> size (utf8_of (replaced c)) = size (utf8_of c).
Proof.
  unfold replaced, surrogate. intros C. destruct (Z.leb_spec 0xD800 c), (Z.ltb_spec c 0xE000); cbn [andb]; try reflexivity.
  unfold utf8_of. decided. reflexivity.
Qed.
Lemma replaced_sizes cs : Forall code_point cs -> size (utf8 (map replaced cs)) = size (utf8 cs).
Proof.
  intros H. induction H as [|c cs C H IH]; [reflexivity|]. cbn [map].
  change (size (utf8_of (replaced c) ++ utf8 (map replaced cs)) = size (utf8_of c ++ utf8 cs)). rewrite !size_app, IH, replaced_size by exact C. reflexivity.
Qed.
Lemma utf8_string_bytes data : Forall byte data -> utf8_string (OneByteString data) = utf8 data.
Proof.
  intros H. unfold utf8_string. cbn [units]. rewrite code_points_bytes by exact H. f_equal. induction H as [|b bs B H IH]; [reflexivity|]. cbn. rewrite IH, replaced_byte by exact B. reflexivity.
Qed.
Lemma IsSurrogate_spec c : code_point c -> Utf16.IsSurrogate c = surrogate c.
Proof.
  unfold code_point, Utf16.IsSurrogate, surrogate. intros H. rewrite uN_small by (unfold is_uN; lia).
  pose proof (land_high 11 c ltac:(lia) ltac:(lia)) as E. change (Z.ones (32 - 11) << 11) with 0xFFFFF800 in E. change (2 ^ 11) with 2048 in E.
  rewrite E. apply eq_true_iff_eq. rewrite andb_true_iff, Z.leb_le, Z.ltb_lt, Z.eqb_eq. zdiv.
Qed.

Lemma to_bytes_word us : Forall byte us -> Utf8String.to_bytes (length us) (Utf8String.little_endian us) = us.
Proof.
  intros H. induction H as [|b us B H IH]; [reflexivity|]. cbn [length Utf8String.to_bytes Utf8String.little_endian]. unfold byte in B.
  rewrite Z.shiftr_div_pow2 by lia. unfold uN. change (2 ^ 8) with 256. f_equal; [zdiv|].
  replace ((b + 256 * Utf8String.little_endian us) / 256) with (Utf8String.little_endian us) by zdiv. exact IH.
Qed.
Lemma ascii_utf8 us : Forall byte us -> high us = 0 -> utf8 us = us.
Proof.
  intros H. induction H as [|b us B H IH]; intros HH; [reflexivity|]. rewrite high_cons in HH. pose proof (size_nonneg (filter (fun u => 0x80 <=? u) us)) as N. fold (high us) in N.
  unfold byte in B. destruct (Z.leb_spec 0x80 b); [lia|]. change (utf8 (b :: us)) with (utf8_of b ++ utf8 us). rewrite IH by lia.
  unfold utf8_of. rewrite (proj2 (Z.ltb_lt b 0x80)) by lia. reflexivity.
Qed.

Section Encode.
Context (data : list Z) (array_len : Z).

Lemma Encode_chars_spec : forall xs pre post out room after, data = pre ++ xs ++ post -> Forall byte xs -> size room = size (utf8 xs) -> size out + size room <= array_len ->
  Utf8String.Encode_chars (length xs) data (size pre) array_len (size out) (out ++ room ++ after) = Done (false, size (out ++ utf8 xs), out ++ utf8 xs ++ after).
Proof.
  induction xs as [|x xs IH]; intros pre post out room after E HB HR HL; cbn [length Utf8String.Encode_chars].
  { destruct room; [|cbn in HR; sizes]. cbn. rewrite app_nil_r. reflexivity. }
  apply Forall_cons_iff in HB as [B HB]. assert (code_point x) as C by (unfold byte, code_point in *; lia).
  change (utf8 (x :: xs)) with (utf8_of x ++ utf8 xs) in *. rewrite size_app in HR. destruct (cut room (size (utf8_of x))) as (r1 & r2 & -> & Hr1); [sizes|].
  assert (get data (size pre) = Done x) as G by (rewrite E; apply get_mid; reflexivity).
  rewrite G. cbn [rbind]. rewrite Length_utf8 by exact C. cbn [rbind].
  rewrite Z.gtb_ltb, (proj2 (Z.ltb_ge _ _)) by sizes. rewrite Encode_utf8 by exact C. cbn [rbind].
  rewrite <- app_assoc, store_mid by (reflexivity || (unfold size in *; lia)). cbn [rbind].
  specialize (IH (pre ++ [x]) post (out ++ utf8_of x) r2 after). rewrite <- !app_assoc in IH. cbn [app] in IH.
  replace (size (pre ++ [x])) with (size pre + 1) in IH by sizes. rewrite (size_app out (utf8_of x)) in IH. rewrite IH; [|exact E|exact HB|sizes..].
  rewrite <- app_assoc. reflexivity.
Qed.

Lemma Encode_words_spec : forall n pre rest out room after, data = pre ++ rest -> Forall byte rest -> size rest < Z.of_nat n ->
  size room = size (utf8 rest) -> size out + size room <= array_len ->
  Utf8String.Encode_words n data (size data) (size pre) array_len (size out) (out ++ room ++ after) = Done (false, size (out ++ utf8 rest), out ++ utf8 rest ++ after).
Proof.
  induction n as [|n IH]; intros pre rest out room after E HB HN HR HL; [pose proof (size_nonneg rest); lia|]. cbn [Utf8String.Encode_words].
  destruct (Z.ltb_spec (size pre) (size data)) as [Hlt|Hge].
  2: { assert (rest = []) as -> by (destruct rest; [reflexivity|subst data; sizes]). destruct room; [|cbn in HR; sizes]. cbn. rewrite app_nil_r. reflexivity. }
  assert (exists us r, rest = us ++ r /\ (size us = 8 /\ size pre + 8 <= size data \/ r = [] /\ 0 < size us < 8 /\ size data < size pre + 8)) as (us & r & -> & Hus).
  { destruct (Z.leb_spec 8 (size rest)).
    - destruct (cut rest 8) as (us & r & -> & H8); [lia|]. exists us, r. split; [reflexivity|]. left. subst data. sizes.
    - exists rest, []. rewrite app_nil_r. split; [reflexivity|]. right. split; [reflexivity|]. subst data. sizes. }
  apply Forall_app in HB as [HB1 HB2]. rewrite utf8_app, size_app in HR. pose proof (size_nonneg (utf8 r)). pose proof (size_nonneg (utf8 us)).
  destruct (cut room (size (utf8 us))) as (r1 & r2 & -> & Hr1); [lia|].
  assert (0 < size us) as Hpos by lia.
  assert (forall k, k = size (pre ++ us) \/ r = [] /\ size data <= k ->
    Utf8String.Encode_words n data (size data) k array_len (size (out ++ utf8 us)) ((out ++ utf8 us) ++ r2 ++ after) = Done (false, size (out ++ utf8 us ++ utf8 r), out ++ utf8 us ++ utf8 r ++ after)) as Next.
  { intros k [Hk|[Hr Hk]].
    - subst k. rewrite IH with (rest := r); [rewrite <- !app_assoc; reflexivity|rewrite E; apply app_assoc|exact HB2|sizes..].
    - subst r. destruct n as [|m]; [sizes|]. cbn [Utf8String.Encode_words]. rewrite (proj2 (Z.ltb_ge k _)) by lia.
      destruct r2; [|change (utf8 []) with (@nil Z) in *; sizes]. change (utf8 []) with (@nil Z). rewrite app_nil_r. cbn [app]. rewrite <- app_assoc. reflexivity. }
  rewrite utf8_app. rewrite <- app_assoc in Next. rewrite <- (app_assoc r1).
  assert (forall m, m = length us -> Utf8String.Encode_chars m data (size pre) array_len (size out) (out ++ r1 ++ r2 ++ after) =
    Done (false, size (out ++ utf8 us), out ++ utf8 us ++ r2 ++ after)) as Chars.
  { intros m ->. apply (Encode_chars_spec us pre r); [exact E|exact HB1|exact Hr1|sizes]. }
  rewrite <- (app_assoc (utf8 us)). unfold Utf8String.kWordSize.
  destruct Hus as [[H8 HD]|(Er & H8 & HD)].
  - rewrite (proj2 (Z.leb_le _ (size data))) by lia. assert (length us = 8%nat) as L8 by (unfold size in H8; lia).
    assert (Utf8String.load_word data (size pre) = Done (Utf8String.little_endian us)) as LW by (rewrite E; apply load_word_mid; [exact L8|reflexivity]).
    rewrite LW. cbn [rbind]. rewrite mask_word by assumption. specialize (Next (size pre + 8) ltac:(left; sizes)).
    destruct (_ && _) eqn:A.
    + apply andb_true_iff in A as [A _]. apply Z.eqb_eq, marks_zero in A; [|exact HB1]. pose proof (to_bytes_word us HB1) as TB. rewrite L8 in TB. rewrite TB.
      pose proof (ascii_utf8 us HB1 A) as AU. rewrite AU in Hr1, Next |- *. rewrite store_mid by (reflexivity || (unfold size in *; lia)). cbn [rbind].
      rewrite <- Next. f_equal. sizes.
    + rewrite Chars by (unfold size in *; lia). cbn [rbind]. exact Next.
  - rewrite (proj2 (Z.leb_gt _ (size data))) by lia. cbn [rbind]. subst r. rewrite app_nil_r in E.
    rewrite Chars by (rewrite E, size_app; unfold size in *; lia). cbn [rbind]. apply Next. right. split; [reflexivity|lia].
Qed.
End Encode.

Lemma utf8_string_size str : well_formed str -> size (utf8_string str) = size (utf8 (code_points (units str))).
Proof. intros W. apply replaced_sizes, code_points_range, well_formed_units, W. Qed.

Lemma Encode_string str room after len : well_formed str -> size room = size (utf8_string str) -> size room <= len ->
  Utf8String.Encode str (room ++ after) len = Done (if IsOneByteString str then 0 else size (utf8_string str), utf8_string str ++ after).
Proof.
  intros W HR HL. unfold Utf8String.Encode. rewrite Length_utf8_string by exact W. cbn [rbind]. rewrite <- utf8_string_size by exact W.
  rewrite Z.geb_leb, (proj2 (Z.leb_le _ len)) by lia. pose proof (well_formed_units str W) as HU. destruct W as [_ W].
  destruct str as [data|data]; cbn [IsOneByteString].
  - rewrite utf8_string_bytes in * by exact W. unfold Length. cbn [units].
    pose proof (Encode_words_spec data len (S (length data)) [] data [] room after eq_refl W ltac:(unfold size; lia) HR ltac:(cbn; lia)) as E.
    cbn [app] in E. change (size []) with 0 in E. rewrite E. reflexivity.
  - set (body := fun _ _ => _). set (done pre := utf8 (map replaced pre)).
    destruct (each_returns (TwoByteString data) body
      (fun pre s => exists r1 r2, room = r1 ++ r2 /\ size r1 = size (done pre) /\ s = (size (done pre), done pre ++ r2 ++ after)) (fun _ => False) HU)
      with (s := (0, room ++ after)) as (s & E & [H|H]); try contradiction.
    + intros pre c post s EC C (r1 & r2 & Er & Hr1 & ->). unfold body. unfold Utf.IsOutOfRange, Utf.kMaxCodePoint, Utf.kReplacementChar.
      unfold code_point in C. rewrite Z.gtb_ltb, (proj2 (Z.ltb_ge c 0)), (proj2 (Z.ltb_ge 0x10FFFF c)) by lia. cbn [negb orb].
      rewrite IsSurrogate_spec by exact C. change (if surrogate c then 65533 else c) with (replaced c).
      assert (code_point (replaced c)) as RC by (apply replaced_code_point, C). rewrite Length_utf8 by exact RC. cbn [rbind].
      assert (done (pre ++ [c]) = done pre ++ utf8_of (replaced c)) as D.
      { unfold done. rewrite map_app, utf8_app. cbn. rewrite app_nil_r. reflexivity. }
      assert (size (done pre) + size (utf8_of (replaced c)) <= size room) as Fit.
      { rewrite HR. unfold utf8_string. rewrite EC, map_app, utf8_app. cbn [map]. fold (done pre).
        change (utf8 (replaced c :: map replaced post)) with (utf8_of (replaced c) ++ utf8 (map replaced post)). sizes. }
      rewrite Z.gtb_ltb, (proj2 (Z.ltb_ge len _)) by lia. rewrite Encode_utf8 by exact RC. cbn [rbind].
      destruct (cut r2 (size (utf8_of (replaced c)))) as (r3 & r4 & -> & Hr3); [subst room; sizes|].
      rewrite <- app_assoc, store_mid by (reflexivity || (unfold size in *; lia)). cbn [rbind]. apply returns_done. cbn [fst snd].
      exists (r1 ++ r3), r4. rewrite <- app_assoc. rewrite D. rewrite <- !app_assoc. split; [exact Er|]. split; [sizes|]. f_equal. sizes.
    + exists [], room. repeat split.
    + rewrite E. destruct H as (r1 & r2 & Er & Hr1 & ->). unfold done in *. cbn [units] in *. unfold utf8_string in *. cbn [units] in *.
      destruct r2; [reflexivity|]. exfalso. subst room. sizes.
Qed.

Lemma ToUTF8_spec str room after : well_formed str -> size room = size (utf8_string str) ->
  ToUTF8 str (room ++ after) (size room) = Done (utf8_string str ++ after).
Proof.
  intros W HR. unfold ToUTF8. rewrite Length_utf8_string, <- utf8_string_size by exact W. cbn [rbind]. rewrite Z.geb_leb, (proj2 (Z.leb_le _ (size room))) by lia.
  rewrite Encode_string by (assumption || lia). reflexivity.
Qed.

(** ** Theorems *)
Lemma string_of_units cs : units (string_of cs) = utf16 cs.
Proof. unfold string_of. destruct (forallb latin1 cs) eqn:E; cbn [units]; [symmetry; apply utf16_latin1, E|reflexivity]. Qed.
Lemma replaced_utf16_size cs : Forall code_point cs -> size (utf16 (map replaced cs)) = size (utf16 cs).
Proof.
  intros H. induction H as [|c cs C H IH]; [reflexivity|]. cbn [map].
  change (size (utf16_of (replaced c) ++ utf16 (map replaced cs)) = size (utf16_of c ++ utf16 cs)). rewrite !size_app, IH, !utf16_of_size. f_equal.
  unfold replaced, surrogate. destruct (Z.leb_spec 0xD800 c), (Z.ltb_spec c 0xE000); cbn [andb]; try reflexivity. decided. reflexivity.
Qed.
Lemma utf16_no_longer cs : Forall code_point cs -> size (utf16 cs) <= size (utf8 cs).
Proof.
  intros H. induction H as [|c cs C H IH]; [reflexivity|].
  change (size (utf16_of c ++ utf16 cs) <= size (utf8_of c ++ utf8 cs)). rewrite !size_app, utf16_of_size. unfold utf8_of.
  destruct (Z.ltb_spec c 0x80), (Z.ltb_spec c 0x800), (Z.ltb_spec c 0x10000); try lia; sizes.
Qed.

(** C6. [String::FromUTF8] decodes: an array that is the UTF-8 form of a list of code
    points gives the string of them, one byte per character when all are Latin-1 and
    UTF-16 otherwise; an array that is not gives null, except that an array of trail
    bytes alone gives the empty string.  The routine returns on every array: no read or
    write leaves the arrays, the computed length fits exactly, and no assertion fails. *)
Theorem utf8_array_decodes bs : Forall byte bs -> fst (Utf8.CodeUnitCount bs) <= kMaxElements ->
  (forall cs, Forall code_point cs -> bs = utf8 cs -> FromUTF8 bs = Done (Some (string_of cs))) /\
  (~ valid bs -> FromUTF8 bs = Done (if forallb Utf8.IsTrailByte bs then Some Empty else None)).
Proof. apply FromUTF8_spec. Qed.

Lemma utf8_array_decodes_witness :
  FromUTF8 [0x41; 0xC3; 0xA9; 0xF0; 0x9F; 0x98; 0x80] = Done (Some (TwoByteString [0x41; 0xE9; 0xD83D; 0xDE00])).
Proof.
  refine (proj1 (utf8_array_decodes [0x41; 0xC3; 0xA9; 0xF0; 0x9F; 0x98; 0x80] _ _) [0x41; 0xE9; 0x1F600] _ _).
  - repeat constructor; unfold byte; lia.
  - vm_compute. discriminate.
  - repeat constructor; unfold code_point; lia.
  - reflexivity.
Defined.

(** C30. [Dart_NewStringFromUTF8] returns an error exactly on the arrays that are not the
    UTF-8 form of code points (surrogates included), and the string of the code points
    on all others. *)
Theorem api_accepts_exactly_utf8 bs : Forall byte bs -> size bs <= kMaxElements ->
  (forall cs, Forall code_point cs -> bs = utf8 cs -> Dart_NewStringFromUTF8 bs = Done (Handle (Some (string_of cs)))) /\
  (~ valid bs -> Dart_NewStringFromUTF8 bs = Done ApiError).
Proof.
  intros HB HM. unfold Dart_NewStringFromUTF8. rewrite Z.gtb_ltb, (proj2 (Z.ltb_ge _ _)) by lia.
  destruct (IsValid_spec bs HB) as (b & -> & Hb). cbn [rbind]. split.
  - intros cs Hcs E. rewrite (proj2 Hb) by (exists cs; auto). cbn [negb].
    pose proof (utf16_no_longer cs Hcs). rewrite <- E in *.
    rewrite (proj1 (FromUTF8_spec bs HB ltac:(rewrite E, CodeUnitCount_utf8 by exact Hcs; cbn [fst]; lia)) cs Hcs E). reflexivity.
  - intros NV. destruct b; [exfalso; apply NV, Hb; reflexivity|reflexivity].
Qed.

Lemma api_accepts_exactly_utf8_witness :
  Dart_NewStringFromUTF8 [0x41; 0xC3; 0xA9] = Done (Handle (Some (OneByteString [0x41; 0xE9]))).
Proof.
  refine (proj1 (api_accepts_exactly_utf8 [0x41; 0xC3; 0xA9] _ _) [0x41; 0xE9] _ _).
  - repeat constructor; unfold byte; lia.
  - vm_compute. discriminate.
  - repeat constructor; unfold code_point; lia.
  - reflexivity.
Defined.

(** C31. A string survives the way to UTF-8 and back: [String::ToUTF8] fills an array of
    the computed length, and [String::FromUTF8] of it has the same code units, each
    unpaired surrogate replaced by U+FFFD.  Without such surrogates the code units are
    those of the string. *)
Theorem utf8_string_roundtrip str room : well_formed str -> size room = size (utf8_string str) ->
  exists bytes str', ToUTF8 str room (size room) = Done bytes /\ FromUTF8 bytes = Done (Some str') /\
    units str' = utf16 (map replaced (code_points (units str))) /\
    (forallb (fun c => negb (surrogate c)) (code_points (units str)) = true -> units str' = units str).
Proof.
  intros W HR. pose proof (well_formed_units str W) as HU. pose proof (code_points_range _ HU) as HC.
  assert (Forall code_point (map replaced (code_points (units str)))) as HC' by (apply Forall_map; eapply Forall_impl; [exact replaced_code_point|exact HC]).
  exists (utf8_string str), (string_of (map replaced (code_points (units str)))). rewrite string_of_units. repeat split.
  - pose proof (ToUTF8_spec str room [] W HR) as E. rewrite !app_nil_r in E. exact E.
  - apply (FromUTF8_spec (utf8_string str)); [apply utf8_bytes, HC'| |exact HC'|reflexivity].
    unfold utf8_string. rewrite CodeUnitCount_utf8 by exact HC'. cbn [fst]. rewrite replaced_utf16_size, utf16_code_points by assumption. apply W.
  - intros H. rewrite <- (utf16_code_points (units str) HU) at 2. f_equal. rewrite forallb_forall in H.
    rewrite <- map_id. apply map_ext_in. intros c Hc. specialize (H c Hc). unfold replaced. destruct (surrogate c); [discriminate|reflexivity].
Qed.

Lemma utf8_string_roundtrip_witness : exists bytes str',
  ToUTF8 (TwoByteString [0x41; 0xD83D; 0xDE00]) [0; 0; 0; 0; 0] 5 = Done bytes /\ FromUTF8 bytes = Done (Some str') /\ units str' = [0x41; 0xD83D; 0xDE00].
Proof.
  destruct (utf8_string_roundtrip (TwoByteString [0x41; 0xD83D; 0xDE00]) [0; 0; 0; 0; 0]) as (bytes & str' & H1 & H2 & _ & H4).
  - split; [vm_compute; discriminate|]. repeat constructor; unfold unit16; lia.
  - reflexivity.
  - exists bytes, str'. split; [exact H1|]. split; [exact H2|]. exact (H4 eq_refl).
Defined.

(** [Utf8::Encode] of a string writes its whole UTF-8 form and nothing after it.  It
    returns the number of bytes for a two-byte string; for a one-byte string it returns
    0 whatever it wrote, because the counter of its loop hides the one it returns. *)
Theorem one_byte_encode_returns_zero str room after len : well_formed str -> size room = size (utf8_string str) -> size room <= len ->
  Utf8String.Encode str (room ++ after) len = Done (if IsOneByteString str then 0 else size (utf8_string str), utf8_string str ++ after).
Proof. apply Encode_string. Qed.

Lemma one_byte_encode_returns_zero_witness :
  Utf8String.Encode (OneByteString [0x41; 0xE9]) ([0; 0; 0] ++ [7]) 3 = Done (0, [0x41; 0xC3; 0xA9; 7]).
Proof.
  refine (one_byte_encode_returns_zero (OneByteString [0x41; 0xE9]) [0; 0; 0] [7] 3 _ _ _).
  - split; [vm_compute; discriminate|]. repeat constructor; unfold byte; lia.
  - reflexivity.
  - vm_compute. discriminate.
Defined.
