(* ===== verification/DartStringOps.v ===== *)
(** * The operations on strings

    A string is its sequence of code units, whatever its representation: comparison,
    hashing, copying, concatenation and substrings are those of the sequences.  The
    constructors produce well-formed strings. *)

From Stdlib Require Import ZArith Bool List Lia.
From S2P Require Import Prelude Result Arrays Utils Il Unicode UnicodeProofs CaseMapping DartString DartStringProofs.
Import ListNotations.
Open Scope Z_scope.
Open Scope cint_scope.

(** A string by its representation. *)
Definition mk (one_byte : bool) (d : list Z) : String := if one_byte then OneByteString d else TwoByteString d.
Definition fits (one_byte : bool) (u : Z) : Prop := if one_byte then byte u else unit16 u.

Lemma units_mk r d : units (mk r d) = d.
Proof. destruct r; reflexivity. Qed.
Lemma mk_units s : mk (IsOneByteString s) (units s) = s.
Proof. destruct s; reflexivity. Qed.
Lemma well_formed_mk r d : well_formed (mk r d) <-> size d <= kMaxElements /\ Forall (fits r) d.
Proof. destruct r; reflexivity. Qed.
Lemma well_formed_fits s : well_formed s -> size (units s) <= kMaxElements /\ Forall (fits (IsOneByteString s)) (units s).
Proof. rewrite <- (mk_units s) at 1. apply well_formed_mk. Qed.
Lemma fits_wide r u : fits r u -> unit16 u.
Proof. destruct r; unfold fits, byte, unit16; lia. Qed.
Lemma Length_mk r d : Length (mk r d) = size d.
Proof. unfold Length. rewrite units_mk. reflexivity. Qed.
#[export] Hint Rewrite units_mk Length_mk : size.

Lemma New_mk (r : bool) len : 0 <= len <= kMaxElements -> (if r then NewOneByte len else NewTwoByte len) = Done (mk r (repeat 0 (Z.to_nat len))).
Proof. intros H. destruct (New_spec len H) as [E1 E2], r; [exact E1|exact E2]. Qed.

Lemma SetCharAt_mid r out x room u i : i = size out -> fits r u -> SetCharAt (mk r (out ++ x :: room)) i u = Done (mk r (out ++ u :: room)).
Proof.
  intros -> H. destruct r; cbn [mk SetCharAt fits] in *; rewrite uN_small by (unfold is_uN, byte, unit16 in *; lia); rewrite set_mid by reflexivity; reflexivity.
Qed.

(** A loop that stores the elements of a list one after the other. *)
Lemma fill r xs : forall body i out room after,
  (forall pre x post s, xs = pre ++ x :: post -> body (i + size pre) s = SetCharAt s (size pre + size out) x) ->
  size room = size xs -> Forall (fits r) xs ->
  for_from (length xs) i body (mk r (out ++ room ++ after)) = Done (mk r (out ++ xs ++ after)).
Proof.
  induction xs as [|x xs IH]; intros body i out room after HB HR HF; cbn [length for_from].
  { destruct room; [reflexivity|sizes]. }
  destruct room as [|y room]; [sizes|]. apply Forall_cons_iff in HF as [F HF]. pose proof (HB [] x xs (mk r (out ++ (y :: room) ++ after)) eq_refl) as E.
  rewrite size_nil, Z.add_0_r in E. rewrite E. cbn [app]. rewrite SetCharAt_mid by (exact F || lia). cbn [rbind].
  specialize (IH body (i + 1) (out ++ [x]) room after). rewrite <- !app_assoc in IH. cbn [app] in IH. apply IH; [|sizes|exact HF].
  intros pre z post s ->. specialize (HB (x :: pre) z post s eq_refl). rewrite size_cons in HB. replace (i + 1 + size pre) with (i + (1 + size pre)) by lia. rewrite HB. f_equal. sizes.
Qed.

(** ** Copying *)
Lemma IsLatin1_byte c : Utf.IsLatin1 c = true <-> byte c.
Proof. unfold Utf.IsLatin1, byte. rewrite Z.geb_leb, andb_true_iff, !Z.leb_le. lia. Qed.

Lemma Copy_mid r out room after src a xs b off soff len : units src = a ++ xs ++ b -> size room = size xs -> Forall (fits r) xs -> well_formed src ->
  off = size out -> soff = size a -> len = size xs ->
  Copy (mk r (out ++ room ++ after)) off src soff len = Done (mk r (out ++ xs ++ after)).
Proof.
  intros ES HR HF W -> -> ->. unfold Copy. rewrite Length_mk. unfold Length. rewrite ES.
  rewrite (proj2 (Z.leb_le 0 (size out))), (proj2 (Z.leb_le 0 (size a))), (proj2 (Z.leb_le 0 (size xs))), (proj2 (Z.leb_le (size xs) _)), (proj2 (Z.leb_le (size xs) _)) by sizes.
  cbn [andb]. rewrite Z.gtb_ltb. destruct (Z.ltb_spec 0 (size xs)).
  2: { destruct xs; [|sizes]. destruct room; [reflexivity|sizes]. }
  rewrite slice_mid by reflexivity. cbn [rbind].
  assert (CopyLatin1 (mk r (out ++ room ++ after)) (size out) xs = Done (mk r (out ++ xs ++ after)) /\
          CopyUTF16 (mk r (out ++ room ++ after)) (size out) xs = Done (mk r (out ++ xs ++ after))) as [E1 E2].
  { unfold CopyLatin1, CopyUTF16. rewrite Length_mk, (proj2 (Z.leb_le 0 (size out))), (proj2 (Z.leb_le (size xs) _)) by sizes. cbn [andb].
    rewrite Z.gtb_ltb, (proj2 (Z.ltb_lt 0 (size xs))) by lia. destruct r; cbn [mk].
    - rewrite store_mid by (reflexivity || (unfold size in *; lia)). split; [reflexivity|]. apply (fill true); [|exact HR|exact HF].
      intros pre x post s E. rewrite E, get_mid by lia. cbn [rbind]. rewrite (proj2 (IsLatin1_byte x)); [reflexivity|].
      rewrite E in HF. apply Forall_app in HF as [_ HF]. apply Forall_cons_iff in HF as [HF _]. exact HF.
    - rewrite store_mid by (reflexivity || (unfold size in *; lia)). split; [|reflexivity]. apply (fill false); [|exact HR|exact HF].
      intros pre x post s E. rewrite E, get_mid by lia. reflexivity. }
  destruct (_ =? _); assumption.
Qed.

(** ** Concatenation *)
Lemma CharSize_max s1 s2 : (Z.max (CharSize s1) (CharSize s2) =? kTwoByteChar) = negb (IsOneByteString s1 && IsOneByteString s2).
Proof. destruct s1, s2; reflexivity. Qed.
Lemma fits_weaken a b us : (b = true -> a = true) -> Forall (fits a) us -> Forall (fits b) us.
Proof. intros H. apply Forall_impl. intros u. destruct a, b; unfold fits, byte, unit16; try lia; discriminate (H eq_refl). Qed.

Lemma Concat_spec s1 s2 : well_formed s1 -> well_formed s2 -> Length s1 + Length s2 <= kMaxElements ->
  Concat s1 s2 = Done (mk (IsOneByteString s1 && IsOneByteString s2) (units s1 ++ units s2)).
Proof.
  intros W1 W2 HL. pose proof (proj2 (well_formed_fits s1 W1)) as F1. pose proof (proj2 (well_formed_fits s2 W2)) as F2.
  unfold Concat. rewrite CharSize_max. set (r := IsOneByteString s1 && IsOneByteString s2).
  assert (0 <= Length s1) by apply size_nonneg. assert (0 <= Length s2) by apply size_nonneg.
  replace (if negb r then NewTwoByte (Length s1 + Length s2) else NewOneByte (Length s1 + Length s2)) with (if r then NewOneByte (Length s1 + Length s2) else NewTwoByte (Length s1 + Length s2)) by (destruct r; reflexivity).
  rewrite New_mk by lia. cbn [rbind]. set (fresh := repeat 0 _). assert (size fresh = Length s1 + Length s2) as HS by (apply size_repeat; lia). clearbody fresh.
  destruct (cut fresh (Length s1)) as (a & b & -> & Ha); [lia|].
  rewrite (Copy_mid r [] a b s1 [] (units s1) []) by (try reflexivity; try (rewrite app_nil_r; reflexivity); try exact W1; try exact Ha; apply (fits_weaken _ _ _ (fun E => proj1 (andb_prop _ _ E)) F1)).
  cbn [rbind app]. pose proof (Copy_mid r (units s1) b [] s2 [] (units s2) [] (Length s1) 0 (Length s2)) as E. rewrite !app_nil_r in E. apply E; try reflexivity; try exact W2.
  - unfold Length in *. sizes.
  - apply (fits_weaken _ _ _ (fun E => proj2 (andb_prop _ _ E)) F2).
Qed.

(** ** Substrings *)
Lemma forallb_latin1 xs : forallb Utf.IsLatin1 xs = true <-> Forall byte xs.
Proof. rewrite forallb_forall, Forall_forall. split; intros H x Hx; apply IsLatin1_byte, H, Hx. Qed.

Lemma SubString_spec s a xs b : well_formed s -> units s = a ++ xs ++ b ->
  SubString s (size a) (size xs) = Done (Some (mk (forallb Utf.IsLatin1 xs) xs)).
Proof.
  intros W E. unfold SubString. unfold Length. rewrite E.
  rewrite (proj2 (Z.leb_le 0 (size a))), (proj2 (Z.leb_le 0 (size xs))), (proj2 (Z.leb_le (size a) _)), Z.gtb_ltb, (proj2 (Z.ltb_ge _ (size a))) by sizes. cbn [andb].
  destruct (Z.eqb_spec (size xs) 0) as [Z0|N0]; [destruct xs; [reflexivity|sizes]|].
  assert ((if CharSize s =? kTwoByteChar then all_from (Z.to_nat (size xs)) (size a) (fun i => let* c := CharAt s i in Done (Utf.IsLatin1 c)) else Done true) = Done (forallb Utf.IsLatin1 xs)) as T.
  { destruct (well_formed_fits s W) as [_ F]. rewrite E in F. apply Forall_app in F as [_ F]. apply Forall_app in F as [F _].
    unfold CharSize. destruct (IsOneByteString s); cbn.
    - symmetry. f_equal. apply forallb_latin1, F.
    - replace (Z.to_nat (size xs)) with (length xs) by (unfold size; lia). apply all_from_list. intros pre x post Ex. unfold CharAt. rewrite E, Ex.
      rewrite <- app_assoc. rewrite app_assoc. cbn [app]. rewrite get_mid by sizes. reflexivity. }
  rewrite T. cbn [rbind]. pose proof (proj1 (well_formed_fits s W)) as HM. rewrite E in HM. rewrite New_mk by sizes. cbn [rbind].
  pose proof (Copy_mid (forallb Utf.IsLatin1 xs) [] (repeat 0 (Z.to_nat (size xs))) [] s a xs b 0 (size a) (size xs)) as C. rewrite !app_nil_r in C. cbn [app] in C.
  rewrite C; try reflexivity; try exact W; try exact E; [apply size_repeat; sizes|].
  destruct (forallb Utf.IsLatin1 xs) eqn:L; [apply forallb_latin1, L|]. destruct (well_formed_fits s W) as [_ F]. rewrite E in F. apply Forall_app in F as [_ F]. apply Forall_app in F as [F _].
  eapply Forall_impl; [|exact F]. apply fits_wide.
Qed.

(** ** Comparison *)
Definition same (us vs : list Z) : bool := if list_eq_dec Z.eq_dec us vs then true else false.
Lemma same_cons u us v vs : same (u :: us) (v :: vs) = (u =? v) && same us vs.
Proof.
  unfold same. destruct (Z.eqb_spec u v) as [->|N]; cbn [andb].
  - destruct (list_eq_dec Z.eq_dec us vs) as [->|N]; destruct (list_eq_dec Z.eq_dec _ _) as [E|NE]; congruence.
  - destruct (list_eq_dec Z.eq_dec _ _) as [E|NE]; congruence.
Qed.
Lemma same_true us vs : same us vs = true <-> us = vs.
Proof. unfold same. destruct (list_eq_dec Z.eq_dec us vs); split; congruence. Qed.
Lemma same_size us vs : size us <> size vs -> same us vs = false.
Proof. unfold same. destruct (list_eq_dec Z.eq_dec us vs); congruence. Qed.

(** A loop that compares two lists element by element. *)
Lemma all_from_same xs : forall ys i body, size xs = size ys ->
  (forall p x q p' y q', xs = p ++ x :: q -> ys = p' ++ y :: q' -> size p = size p' -> body (i + size p) = Done (x =? y)) ->
  all_from (length xs) i body = Done (same xs ys).
Proof.
  induction xs as [|x xs IH]; intros [|y ys] i body HS HB; try (exfalso; sizes); cbn [length all_from]; [reflexivity|].
  pose proof (HB [] x xs [] y ys eq_refl eq_refl eq_refl) as E. rewrite size_nil, Z.add_0_r in E. rewrite E, same_cons. cbn [rbind].
  destruct (x =? y); [|reflexivity]. cbn [andb]. apply IH; [sizes|]. intros p a q p' b q' -> -> HP.
  specialize (HB (x :: p) a q (y :: p') b q' eq_refl eq_refl). rewrite !size_cons in HB. rewrite <- HB by lia. f_equal. lia.
Qed.

Lemma CharAt_mid s a x b i : units s = a ++ x :: b -> i = size a -> CharAt s i = Done x.
Proof. intros E ->. unfold CharAt. rewrite E. apply get_mid. reflexivity. Qed.

Lemma EqualsRange_spec this str a xs b : units str = a ++ xs ++ b -> (a = [] \/ xs ++ b <> []) ->
  EqualsRange this str (size a) (size xs) = Done (same (units this) xs).
Proof.
  intros E HA. unfold EqualsRange, Length. rewrite E.
  replace ((0 <=? size a) && ((size a =? 0) || (size a <? size (a ++ xs ++ b))) && (0 <=? size xs) && (size xs <=? size (a ++ xs ++ b))) with true.
  2: { symmetry. rewrite !andb_true_iff, orb_true_iff, !Z.leb_le, Z.eqb_eq, Z.ltb_lt. repeat split; try sizes.
       destruct HA as [->|HA]; [left; reflexivity|right]. destruct (xs ++ b) eqn:Ex; [congruence|]. sizes. }
  destruct (Z.eqb_spec (size xs) (size (units this))) as [ES|NS]; cbn [negb]; [|rewrite same_size by congruence; reflexivity].
  rewrite ES. replace (Z.to_nat (size (units this))) with (length (units this)) by (unfold size; lia). apply all_from_same; [congruence|].
  intros p x q p' y q' E1 E2 HP. rewrite Z.add_0_l. rewrite (CharAt_mid this p x q) by (exact E1 || reflexivity). cbn [rbind].
  rewrite (CharAt_mid str (a ++ p') y (q' ++ b)) by ((rewrite E, E2, <- !app_assoc; reflexivity) || sizes). reflexivity.
Qed.

(** The heap's invariants behind the shortcuts of [Equals]. *)
Record heap_strings (p q : StringPtr) : Prop := {
  one_object : address p = address q -> units (contents p) = units (contents q);
  canonical_unique : IsCanonical p = true -> IsCanonical q = true -> units (contents p) = units (contents q) -> address p = address q;
  hash_cached : cached_hash p = 0 \/ cached_hash p = Hash (contents p);
  hash_cached' : cached_hash q = 0 \/ cached_hash q = Hash (contents q) }.

Lemma Hash_units s t : units s = units t -> Hash s = Hash t.
Proof. unfold Hash. intros ->. reflexivity. Qed.

Lemma Equals_spec p q : heap_strings p q -> Equals p (Some q) = Done (same (units (contents p)) (units (contents q))).
Proof.
  intros [H1 H2 H3 H4]. unfold Equals. set (us := units (contents p)) in *. set (vs := units (contents q)) in *.
  destruct (Z.eqb_spec (address p) (address q)) as [A|A].
  { rewrite (proj2 (same_true us vs) (H1 A)). reflexivity. }
  assert (forall b : bool, (us = vs -> b = false) -> forall r, r = Done (same us vs) -> (if b then Done false else r) = Done (same us vs)) as Cut.
  { intros b Hb r Hr. destruct b; [|exact Hr]. destruct (same us vs) eqn:S; [|reflexivity]. apply same_true in S. specialize (Hb S). discriminate. }
  apply Cut.
  { intros E. apply andb_false_iff. destruct (IsCanonical p); [right|left; reflexivity]. destruct (IsCanonical q); [|reflexivity]. exfalso. apply A, H2; auto. }
  apply Cut.
  { intros E. pose proof (Hash_units _ _ E) as EH. unfold HasHash. destruct H3 as [->|H3]; [reflexivity|]. destruct H4 as [->|H4]; [cbn; rewrite andb_false_r; reflexivity|].
    rewrite H3, H4, EH, Z.eqb_refl. cbn. apply andb_false_r. }
  pose proof (EqualsRange_spec (contents p) (contents q) [] vs []) as E. rewrite app_nil_r in E. cbn [app] in E. exact (E eq_refl (or_introl eq_refl)).
Qed.

Fixpoint compare (us vs : list Z) : Z :=
  match us, vs with
  | [], [] => 0
  | [], _ => -1
  | _, [] => 1
  | u :: us, v :: vs => if u <? v then -1 else if v <? u then 1 else compare us vs
  end.
Lemma CompareTo_spec s t : CompareTo s (Some t) = Done (compare (units s) (units t)).
Proof.
  unfold CompareTo, Length.
  assert (forall us vs a b, units s = a ++ us -> units t = b ++ vs -> size a = size b ->
    (let* c := CompareTo_loop (Z.to_nat (if size us <? size vs then size us else size vs)) (size a) s t in
     if negb (c =? 0) then Done c else if size us <? size vs then Done (-1) else if size us >? size vs then Done 1 else Done 0) = Done (compare us vs)) as G.
  { induction us as [|u us IH]; intros [|v vs] a b Es Et HS.
    - reflexivity.
    - rewrite (proj2 (Z.ltb_lt _ _)) by sizes. reflexivity.
    - rewrite (proj2 (Z.ltb_ge _ _)), Z.gtb_ltb, (proj2 (Z.ltb_lt _ _)) by sizes. reflexivity.
    - replace (size (u :: us) <? size (v :: vs)) with (size us <? size vs) by (apply eq_true_iff_eq; rewrite !Z.ltb_lt; sizes).
      replace (size (u :: us) >? size (v :: vs)) with (size us >? size vs) by (apply eq_true_iff_eq; rewrite !Z.gtb_lt; sizes).
      replace (Z.to_nat (if size us <? size vs then size (u :: us) else size (v :: vs))) with (S (Z.to_nat (if size us <? size vs then size us else size vs)))
        by (destruct (size us <? size vs); rewrite size_cons; unfold size; lia).
      cbn [CompareTo_loop compare]. rewrite (CharAt_mid s a u us) by (exact Es || reflexivity). cbn [rbind]. rewrite (CharAt_mid t b v vs) by (exact Et || lia). cbn [rbind].
      rewrite Z.gtb_ltb. destruct (u <? v); [reflexivity|]. destruct (v <? u); [reflexivity|].
      specialize (IH vs (a ++ [u]) (b ++ [v])). rewrite <- !app_assoc in IH. replace (size (a ++ [u])) with (size a + 1) in IH by sizes. apply IH; [exact Es|exact Et|sizes]. }
  exact (G (units s) (units t) [] [] eq_refl eq_refl eq_refl).
Qed.

(** ** Hashing *)
Lemma HashAddString_all hash s : HashAddString hash s 0 (Length s) = Done (HashAdd hash (units s)).
Proof.
  unfold HashAddString, Length. rewrite (proj2 (Z.leb_le 0 (size _))), Z.add_0_l, !Z.leb_refl by sizes. cbn [andb].
  destruct (Z.eqb_spec (size (units s)) 0) as [Z0|N0]; [destruct (units s); [reflexivity|sizes]|]. rewrite slice_all by reflexivity. reflexivity.
Qed.
Lemma HashConcat_spec s t : HashConcat s t = Done (FinalizeHash (HashAdd 0 (units s ++ units t)) kHashBits).
Proof. unfold HashConcat. rewrite HashAddString_all. cbn [rbind]. rewrite HashAddString_all. cbn [rbind]. unfold HashAdd. rewrite fold_left_app. reflexivity. Qed.
Lemma FinalizeHash_range hash : 1 <= FinalizeHash hash kHashBits < 2 ^ 30.
Proof.
  unfold FinalizeHash. cbn zeta. change (kHashBits <? 32) with true. cbn iota. change (uN 32 (1 << kHashBits) - 1) with (Z.ones 30). set (h := _ .& Z.ones 30).
  assert (0 <= h < 2 ^ 30) as R by (unfold h; rewrite Z.land_ones by lia; apply Z.mod_pos_bound; lia). clearbody h. destruct (Z.eqb_spec h 0); lia.
Qed.

(** ** Prefixes and suffixes *)
Lemma StartsWith_spec s t : StartsWith s (Some t) = Done (same (firstn (length (units t)) (units s)) (units t)).
Proof.
  unfold StartsWith, Length. rewrite Z.gtb_ltb. destruct (Z.ltb_spec (size (units s)) (size (units t))) as [L|L].
  { rewrite same_size; [reflexivity|]. unfold size in *. rewrite length_firstn. lia. }
  destruct (cut (units s) (size (units t))) as (a & b & E & Ha); [sizes|]. assert (length a = length (units t)) as La by (unfold size in Ha; lia).
  rewrite E, <- La, firstn_app, firstn_all, Nat.sub_diag. cbn [firstn]. rewrite app_nil_r.
  replace (Z.to_nat (size (units t))) with (length a) by (unfold size in *; lia). apply all_from_same; [exact Ha|].
  intros p x q p' y q' E1 E2 HP. rewrite Z.add_0_l. rewrite (CharAt_mid s p x (q ++ b)) by ((rewrite E, E1, <- app_assoc; reflexivity) || reflexivity). cbn [rbind].
  rewrite (CharAt_mid t p' y q') by (exact E2 || exact HP). reflexivity.
Qed.

(** ** Many strings *)
Definition total (ss : list String) : Z := size (concat (map units ss)).
Lemma total_app ss ts : total (ss ++ ts) = total ss + total ts.
Proof. unfold total. rewrite map_app, concat_app. sizes. Qed.
Lemma total_one s : total [s] = Length s.
Proof. unfold total, Length. cbn. rewrite app_nil_r. reflexivity. Qed.
Lemma CharSize_all pre s : Z.max (if forallb IsOneByteString pre then 1 else 2) (CharSize s) = if forallb IsOneByteString (pre ++ [s]) then 1 else 2.
Proof. rewrite forallb_app. unfold CharSize, kOneByteChar, kTwoByteChar. cbn [forallb]. destruct (forallb IsOneByteString pre), (IsOneByteString s); reflexivity. Qed.

Lemma ConcatAllRange_spec strings a mid b : strings = a ++ mid ++ b -> Forall well_formed mid ->
  ConcatAllRange strings (size a) (size a + size mid) =
  Done (if total mid <=? kMaxElements then Some (mk (forallb IsOneByteString mid) (concat (map units mid))) else None).
Proof.
  intros E HW. unfold ConcatAllRange. rewrite (proj2 (Z.leb_le 0 (size a))), (proj2 (Z.leb_le _ (size strings))) by (rewrite ?E; sizes). cbn [andb].
  replace (Z.to_nat (size a + size mid - size a)) with (length mid) by (unfold size; lia). set (body := fun _ _ => _).
  assert (forall pre x post, mid = pre ++ x :: post -> get strings (size a + size pre) = Done x) as G.
  { intros pre x post ->. rewrite E. rewrite <- app_assoc. rewrite app_assoc. cbn [app]. apply get_mid. sizes. }
  destruct (for_from_returns (fun pre s => s = if total pre <=? kMaxElements then Some (total pre, if forallb IsOneByteString pre then 1 else 2) else None)
    mid (size a) body (Some (0, kOneByteChar))) as (s & -> & ->).
  { reflexivity. }
  { intros pre x post s Em ->. unfold body. rewrite (G pre x post Em). cbn [rbind]. rewrite total_app, total_one. assert (0 <= Length x) by apply size_nonneg.
    assert (0 <= total pre) by apply size_nonneg. destruct (Z.leb_spec (total pre) kMaxElements); [|rewrite (proj2 (Z.leb_gt _ kMaxElements)) by lia; apply returns_done; reflexivity].
    destruct (Z.ltb_spec (kMaxElements - total pre) (Length x)).
    - rewrite (proj2 (Z.leb_gt _ kMaxElements)) by lia. apply returns_done. reflexivity.
    - rewrite (proj2 (Z.leb_le _ kMaxElements)) by lia. apply returns_done. rewrite CharSize_all. reflexivity. }
  cbn [rbind]. destruct (Z.leb_spec (total mid) kMaxElements) as [HT|HT]; [|reflexivity]. set (r := forallb IsOneByteString mid).
  replace ((if r then 1 else 2) =? kOneByteChar) with r by (destruct r; reflexivity). rewrite New_mk by (split; [apply size_nonneg|exact HT]). cbn [rbind].
  unfold ConcatAll_. replace (Z.to_nat (size a + size mid - size a)) with (length mid) by (unfold size; lia). clear body. set (body := fun _ _ => _).
  destruct (for_from_returns (fun pre s => exists room, s = (total pre, mk r (concat (map units pre) ++ room)) /\ total pre + size room = total mid)
    mid (size a) body (0, mk r (repeat 0 (Z.to_nat (total mid))))) as (s & -> & room & -> & HR).
  - exists (repeat 0 (Z.to_nat (total mid))). split; [reflexivity|]. rewrite size_repeat by apply size_nonneg. reflexivity.
  - intros pre x post s Em (room & -> & HR). unfold body. rewrite (G pre x post Em). cbn [rbind].
    assert (total mid = total pre + Length x + total post) as HM by (rewrite Em; change (x :: post) with ([x] ++ post); rewrite !total_app, total_one; lia).
    assert (0 <= total pre) by apply size_nonneg. assert (0 <= total post) by apply size_nonneg. assert (0 <= Length x) by apply size_nonneg.
    destruct (cut room (Length x)) as (r1 & r2 & -> & Hr1); [sizes|].
    assert (well_formed x) as Wx by (rewrite Em in HW; apply Forall_app in HW as [_ HW]; apply Forall_cons_iff in HW as [HW _]; exact HW).
    rewrite (Copy_mid r (concat (map units pre)) r1 r2 x [] (units x) []); try reflexivity; try exact Wx; try (rewrite app_nil_r; reflexivity); try exact Hr1.
    + cbn [rbind]. rewrite Z.geb_leb, (proj2 (Z.leb_le (Length x) _)) by lia. apply returns_done. exists r2. rewrite total_app, total_one. split; [|sizes].
      rewrite map_app, concat_app. cbn [map concat]. rewrite app_nil_r, <- app_assoc. reflexivity.
    + apply (fits_weaken (IsOneByteString x)); [|apply well_formed_fits, Wx]. unfold r. rewrite Em, forallb_app. cbn [forallb]. destruct (IsOneByteString x); [reflexivity|]. rewrite andb_false_r. discriminate.
  - cbn [rbind]. destruct room; [rewrite app_nil_r; reflexivity|exfalso; sizes].
Qed.

(** ** Private names *)
(** A name without its private keys: each runs from an at-sign to the next dot,
    ampersand or end. *)
Fixpoint strip (in_key : bool) (us : list Z) : list Z :=
  match us with
  | [] => []
  | u :: rest =>
      if in_key then if (u =? 46) || (u =? 38) then u :: strip false rest else strip true rest
      else if u =? kPrivateKeySeparator then strip true rest else u :: strip false rest
  end.
Lemma strip_size us : forall k, size (strip k us) <= size us.
Proof. induction us as [|u us IH]; intros k; cbn [strip]; [reflexivity|]. pose proof (IH true). pose proof (IH false). destruct k; [destruct (_ || _)|destruct (_ =? _)]; sizes. Qed.
Lemma strip_plain us : In kPrivateKeySeparator us \/ strip false us = us.
Proof.
  induction us as [|u us IH]; cbn [strip In]; [right; reflexivity|]. destruct (Z.eqb_spec u kPrivateKeySeparator) as [->|N]; [left; left; reflexivity|].
  destruct IH as [IH|IH]; [left; right; exact IH|right; rewrite IH; reflexivity].
Qed.
Lemma strip_shorter us : In kPrivateKeySeparator us -> size (strip false us) < size us.
Proof.
  induction us as [|u us IH]; cbn [strip In]; [contradiction|]. intros H. destruct (Z.eqb_spec u kPrivateKeySeparator) as [->|N].
  - pose proof (strip_size us true). sizes.
  - destruct H as [H|H]; [congruence|]. specialize (IH H). sizes.
Qed.

Section PrivateKey.
Context (str1 str2 : String).
Hypothesis (HN : ~ In kPrivateKeySeparator (units str2)).

Lemma skip_key_spec : forall n p r, units str1 = p ++ r -> (length r < n)%nat ->
  exists k r', r = k ++ r' /\ skip_key n str1 (size p) = Done (size (p ++ k)) /\ strip true r = strip false r'.
Proof.
  induction n as [|n IH]; intros p r E HL; [lia|]. cbn [skip_key]. unfold Length. rewrite E. destruct r as [|u r].
  { exists [], []. rewrite !app_nil_r, Z.ltb_irrefl. repeat split. }
  rewrite (proj2 (Z.ltb_lt _ _)) by sizes. rewrite (CharAt_mid str1 p u r) by (exact E || reflexivity). cbn [rbind strip].
  destruct (u =? 46) eqn:D; [|destruct (u =? 38) eqn:A]; cbn [negb andb orb].
  1,2: (exists [], (u :: r); rewrite app_nil_r; repeat split; cbn [strip]; replace (u =? kPrivateKeySeparator) with false; [reflexivity|];
    symmetry; apply Z.eqb_neq; apply Z.eqb_eq in D || apply Z.eqb_eq in A; subst u; discriminate).
  destruct (IH (p ++ [u]) r) as (k & r' & -> & K & ST); [rewrite <- app_assoc; exact E|cbn in HL; lia|].
  exists (u :: k), r'. split; [reflexivity|]. split; [|exact ST]. replace (size p + 1) with (size (p ++ [u])) by sizes. rewrite K, <- app_assoc. reflexivity.
Qed.

Lemma private_loop_spec : forall n p r q t, units str1 = p ++ r -> units str2 = q ++ t -> (length r < n)%nat ->
  private_loop n str1 str2 (size p) (size q) = Done (same (strip false r) t).
Proof.
  induction n as [|n IH]; intros p r q t E1 E2 HL; [lia|]. cbn [private_loop]. unfold Length in *. rewrite E2. destruct r as [|u r].
  { rewrite E1, app_nil_r, Z.ltb_irrefl, Z.eqb_refl. f_equal. cbn [strip]. destruct t; [rewrite app_nil_r; apply Z.eqb_refl|]. apply Z.eqb_neq. sizes. }
  rewrite (proj2 (Z.ltb_lt (size p) _)) by (rewrite E1; sizes). rewrite (CharAt_mid str1 p u r) by (exact E1 || reflexivity). cbn [rbind strip].
  assert ((if size q <? size (q ++ t) then let* c := CharAt str2 (size q) in Done (u =? c) else Done false) = Done (match t with v :: _ => u =? v | [] => false end)) as M.
  { destruct t as [|v t]; [rewrite app_nil_r, Z.ltb_irrefl; reflexivity|]. rewrite (proj2 (Z.ltb_lt (size q) _)) by sizes. rewrite (CharAt_mid str2 q v t) by (exact E2 || reflexivity). reflexivity. }
  rewrite M. cbn [rbind]. replace (size p + 1) with (size (p ++ [u])) by sizes.
  assert (units str1 = (p ++ [u]) ++ r) as E1' by (rewrite <- app_assoc; exact E1). cbn in HL.
  destruct (Z.eqb_spec u kPrivateKeySeparator) as [->|NU].
  - destruct t as [|v t]; [|destruct (Z.eqb_spec kPrivateKeySeparator v) as [<-|NV]; [exfalso; apply HN; rewrite E2; apply in_or_app; right; left; reflexivity|]].
    all: (destruct (skip_key_spec (S (length (units str1))) (p ++ [kPrivateKeySeparator]) r E1') as (k & r' & -> & -> & ->); [rewrite E1, length_app; cbn; lia|];
      cbn [rbind]; apply IH; [rewrite E1', <- !app_assoc; reflexivity|exact E2|rewrite length_app in HL; lia]).
  - destruct t as [|v t]; [reflexivity|]. rewrite same_cons. destruct (Z.eqb_spec u v) as [->|NV]; [|reflexivity]. cbn [andb].
    replace (size q + 1) with (size (q ++ [v])) by sizes. apply IH; [exact E1'|rewrite <- app_assoc; exact E2|lia].
Qed.

Lemma EqualsIgnoringPrivateKey_spec : EqualsIgnoringPrivateKey str1 str2 = Done (same (strip false (units str1)) (units str2)).
Proof.
  unfold EqualsIgnoringPrivateKey, Length. destruct (Z.eqb_spec (size (units str1)) (size (units str2))) as [E|NE].
  - replace (Z.to_nat (size (units str1))) with (length (units str1)) by (unfold size; lia). rewrite (all_from_same _ (units str2)); [|exact E|].
    + f_equal. destruct (strip_plain (units str1)) as [H|H]; [|rewrite H; reflexivity]. rewrite (same_size (strip false (units str1))) by (pose proof (strip_shorter _ H); lia).
      destruct (same (units str1) (units str2)) eqn:S; [|reflexivity]. apply same_true in S. rewrite S in H. contradiction.
    + intros p x q p' y q' H1 H2 HP. rewrite Z.add_0_l. rewrite (CharAt_mid str1 p x q), (CharAt_mid str2 p' y q') by (assumption || reflexivity). reflexivity.
  - destruct (Z.ltb_spec (size (units str1)) (size (units str2))) as [L|L].
    + rewrite same_size; [reflexivity|]. pose proof (strip_size (units str1) false). lia.
    + apply (private_loop_spec _ [] (units str1) [] (units str2)); [reflexivity..|lia].
Qed.
End PrivateKey.

(** ** From UTF-16 and UTF-32 *)
Lemma all_latin1 us i body : (forall pre x post, us = pre ++ x :: post -> body (i + size pre) = Done (Utf.IsLatin1 x)) ->
  all_from (length us) i body = Done (forallb Utf.IsLatin1 us).
Proof. apply all_from_list. Qed.

Lemma NewOneByteFrom_spec us : size us <= kMaxElements -> Forall byte us -> NewOneByteFrom us = Done (OneByteString us).
Proof.
  intros HM HF. unfold NewOneByteFrom. rewrite (New_mk true) by sizes. cbn [rbind].
  pose proof (fill true us (fun i r => let* c := get us i in require Utf.IsLatin1 c;; SetCharAt r i c) 0 [] (repeat 0 (Z.to_nat (size us))) []) as E.
  rewrite !app_nil_r in E. cbn [app] in E. apply E; [|apply size_repeat; sizes|exact HF].
  intros pre x post s Ex. rewrite Ex, get_mid by lia. cbn [rbind]. rewrite (proj2 (IsLatin1_byte x)); [f_equal; sizes|].
  rewrite Ex in HF. apply Forall_app in HF as [_ HF]. apply Forall_cons_iff in HF as [HF _]. exact HF.
Qed.

Lemma FromUTF16_spec us : size us <= kMaxElements -> Forall unit16 us -> FromUTF16 us = Done (mk (forallb Utf.IsLatin1 us) us).
Proof.
  intros HM HF. unfold FromUTF16. rewrite all_latin1.
  2: { intros pre x post ->. rewrite get_mid by lia. reflexivity. }
  cbn [rbind]. destruct (forallb Utf.IsLatin1 us) eqn:L; [apply NewOneByteFrom_spec; [exact HM|apply forallb_latin1, L]|].
  unfold NewTwoByteFrom. assert (0 < size us) by (destruct us; [discriminate|sizes]). rewrite Z.gtb_ltb, (proj2 (Z.ltb_lt 0 _)) by lia.
  rewrite (New_mk false) by lia. cbn [rbind units mk]. rewrite store_all; [reflexivity|]. rewrite repeat_length. unfold size. lia.
Qed.

(** The code units of a 32-bit character. *)
Definition utf32_of (c : Z) : list Z := if Utf.IsSupplementary c then utf16_of c else [uN 16 c].
Definition utf32_units (cs : list Z) : list Z := flat_map utf32_of cs.
Lemma utf32_of_units c : Forall unit16 (utf32_of c).
Proof.
  unfold utf32_of, utf16_of, Utf.IsSupplementary, Utf.kMaxCodePoint. rewrite Z.gtb_ltb.
  destruct (Z.ltb_spec 0xFFFF c), (Z.leb_spec c 0x10FFFF); cbn [andb]; try (repeat constructor; apply (uN_range 16); lia).
  rewrite (proj2 (Z.ltb_ge c 0x10000)) by lia. repeat constructor; zdiv.
Qed.
Lemma utf32_units_wide cs : Forall unit16 (utf32_units cs).
Proof. induction cs as [|c cs IH]; cbn; [constructor|]. apply Forall_app. split; [apply utf32_of_units|exact IH]. Qed.
Lemma utf32_units_app cs cs' : utf32_units (cs ++ cs') = utf32_units cs ++ utf32_units cs'.
Proof. apply flat_map_app. Qed.
Lemma utf32_units_latin1 cs : forallb Utf.IsLatin1 cs = true -> utf32_units cs = cs.
Proof.
  induction cs as [|c cs IH]; intros H; [reflexivity|]. cbn [forallb] in H. apply andb_true_iff in H as [H1 H2]. change (utf32_of c ++ utf32_units cs = c :: cs). rewrite IH by exact H2.
  apply IsLatin1_byte in H1. unfold byte in H1. unfold utf32_of, Utf.IsSupplementary. rewrite Z.gtb_ltb, (proj2 (Z.ltb_ge 0xFFFF c)) by lia. cbn [andb app]. rewrite uN_small by (unfold is_uN; lia). reflexivity.
Qed.
Lemma utf32_size c : size (utf32_of c) = if Utf.IsSupplementary c then 2 else 1.
Proof.
  unfold utf32_of. destruct (Utf.IsSupplementary c) eqn:S; [|reflexivity]. unfold Utf.IsSupplementary in S. apply andb_true_iff in S as [S _]. apply Z.gtb_lt in S.
  rewrite utf16_of_size, (proj2 (Z.ltb_ge c 0x10000)) by lia. reflexivity.
Qed.

Lemma NewTwoByteFrom32_spec cs : cs <> [] -> size (utf32_units cs) <= kMaxElements ->
  NewTwoByteFrom32 (size (utf32_units cs)) cs = Done (TwoByteString (utf32_units cs)).
Proof.
  intros HN HM. unfold NewTwoByteFrom32.
  assert (size cs <= size (utf32_units cs)) as HL.
  { clear. induction cs as [|c cs IH]; [reflexivity|]. change (utf32_units (c :: cs)) with (utf32_of c ++ utf32_units cs). rewrite size_app, size_cons, utf32_size. destruct (Utf.IsSupplementary c); lia. }
  assert (0 < size cs) by (destruct cs; [congruence|sizes]). rewrite Z.gtb_ltb, Z.geb_leb, (proj2 (Z.ltb_lt 0 _)), (proj2 (Z.leb_le (size cs) _)) by lia. cbn [andb].
  rewrite (New_mk false) by lia. cbn [rbind]. set (body := fun _ _ => _).
  destruct (for_from_returns (fun pre s => exists room, s = (size (utf32_units pre), mk false (utf32_units pre ++ room)) /\ size (utf32_units pre) + size room = size (utf32_units cs))
    cs 0 body (0, mk false (repeat 0 (Z.to_nat (size (utf32_units cs)))))) as (s & -> & room & -> & HR).
  - exists (repeat 0 (Z.to_nat (size (utf32_units cs)))). split; [reflexivity|]. rewrite size_repeat by lia. reflexivity.
  - intros pre c post s Ec (room & -> & HR). unfold body. assert (get cs (0 + size pre) = Done c) as G by (rewrite Ec; apply get_mid; lia). rewrite G. cbn [rbind].
    rewrite utf32_units_app. assert (utf32_units [c] = utf32_of c) as -> by (cbn; apply app_nil_r).
    assert (size (utf32_units pre) + size (utf32_of c) <= size (utf32_units cs)) as Fit.
    { rewrite Ec, utf32_units_app. change (utf32_units (c :: post)) with (utf32_of c ++ utf32_units post). sizes. }
    pose proof (utf32_of_units c) as U. rewrite utf32_size in Fit. unfold utf32_of in *. destruct (Utf.IsSupplementary c) eqn:S.
    + rewrite (proj2 (Z.ltb_lt _ (size (utf32_units cs) - 1))) by lia. unfold Utf.IsSupplementary, Utf.kMaxCodePoint in S. apply andb_true_iff in S as [S1 S2]. apply Z.gtb_lt in S1. apply Z.leb_le in S2.
      rewrite Utf16_Encode_spec by (unfold code_point; lia). unfold utf16_of in *. rewrite (proj2 (Z.ltb_ge c 0x10000)) in * by lia. cbn [rbind].
      set (lead := 0xD800 + _) in *. set (low := 0xDC00 + _) in *. apply Forall_cons_iff in U as [U1 U]. apply Forall_cons_iff in U as [U2 _].
      destruct room as [|x [|y room]]; try (exfalso; sizes). rewrite (SetCharAt_mid false) by (reflexivity || exact U1). cbn [rbind].
      change (utf32_units pre ++ lead :: y :: room) with (utf32_units pre ++ [lead] ++ y :: room). rewrite app_assoc, (SetCharAt_mid false) by (exact U2 || sizes). cbn [rbind].
      apply returns_done. exists room. rewrite <- !app_assoc. cbn [app]. split; [f_equal; sizes|sizes].
    + rewrite (proj2 (Z.ltb_lt _ (size (utf32_units cs)))) by lia. destruct room as [|x room]; [exfalso; sizes|].
      replace (SetCharAt (mk false (utf32_units pre ++ x :: room)) (size (utf32_units pre)) c) with (SetCharAt (mk false (utf32_units pre ++ x :: room)) (size (utf32_units pre)) (uN 16 c)) by (cbn; rewrite uN_uN; reflexivity).
      apply Forall_cons_iff in U as [U _]. rewrite (SetCharAt_mid false) by (exact U || reflexivity). cbn [rbind]. apply returns_done. exists room. rewrite <- !app_assoc. cbn [app]. split; [f_equal; sizes|sizes].
  - cbn [rbind mk]. destruct room; [rewrite app_nil_r; reflexivity|exfalso; sizes].
Qed.

Lemma FromUTF32_spec cs : size (utf32_units cs) <= kMaxElements ->
  FromUTF32 cs = Done (mk (forallb Utf.IsLatin1 cs) (utf32_units cs)).
Proof.
  intros HM. unfold FromUTF32. set (body := fun _ _ => _).
  destruct (for_from_returns (fun pre s => s = (forallb Utf.IsLatin1 pre, size (utf32_units pre) + (size cs - size pre))) cs 0 body (true, size cs)) as (s & -> & ->).
  { f_equal. change (utf32_units []) with (@nil Z). sizes. }
  { intros pre c post s Ec ->. unfold body. assert (get cs (0 + size pre) = Done c) as G by (rewrite Ec; apply get_mid; lia). rewrite G. cbn [rbind]. apply returns_done. rewrite forallb_app, utf32_units_app.
    assert (utf32_units [c] = utf32_of c) as -> by (cbn; apply app_nil_r). rewrite size_app, utf32_size, (size_app pre). change (size [c]) with 1. cbn [forallb].
    assert (Utf.IsLatin1 c = true -> Utf.IsSupplementary c = false) as LS.
    { intros L. apply IsLatin1_byte in L. unfold byte in L. unfold Utf.IsSupplementary. rewrite Z.gtb_ltb, (proj2 (Z.ltb_ge 0xFFFF c)) by lia. reflexivity. }
    destruct (Utf.IsLatin1 c); cbn [negb andb]; rewrite ?andb_false_r, ?andb_true_r; [rewrite LS by reflexivity|]; f_equal; [lia|destruct (Utf.IsSupplementary c); lia]. }
  cbn [rbind]. replace (size (utf32_units cs) + (size cs - size cs)) with (size (utf32_units cs)) by lia. destruct (forallb Utf.IsLatin1 cs) eqn:L.
  - rewrite utf32_units_latin1 in * by exact L. apply NewOneByteFrom_spec; [exact HM|apply forallb_latin1, L].
  - apply NewTwoByteFrom32_spec; [intros ->; discriminate|exact HM].
Qed.

(** ** Theorems *)
Definition represents (s : String) (us : list Z) : Prop := well_formed s /\ units s = us.
Definition hash_of (us : list Z) : Z := FinalizeHash (HashAdd 0 us) kHashBits.

Lemma represents_mk r us : size us <= kMaxElements -> Forall (fits r) us -> represents (mk r us) us.
Proof. intros H F. split; [apply well_formed_mk; auto|apply units_mk]. Qed.
Lemma represents_latin1 us : size us <= kMaxElements -> Forall unit16 us -> represents (mk (forallb Utf.IsLatin1 us) us) us.
Proof. intros H F. apply represents_mk; [exact H|]. destruct (forallb Utf.IsLatin1 us) eqn:L; [apply forallb_latin1, L|exact F]. Qed.
Lemma represents_concat s t us vs : represents s us -> represents t vs -> size us + size vs <= kMaxElements ->
  returns (fun r => represents r (us ++ vs)) (Concat s t).
Proof.
  intros [W1 E1] [W2 E2] H. exists (mk (IsOneByteString s && IsOneByteString t) (us ++ vs)). subst. rewrite Concat_spec by assumption. split; [reflexivity|].
  apply represents_mk; [sizes|]. apply Forall_app.
  split; [apply (fits_weaken _ _ _ (fun E => proj1 (andb_prop _ _ E))) | apply (fits_weaken _ _ _ (fun E => proj2 (andb_prop _ _ E)))]; apply well_formed_fits; assumption.
Qed.
Lemma represents_substring s a xs b : represents s (a ++ xs ++ b) -> returns (fun r => exists r', r = Some r' /\ represents r' xs) (SubString s (size a) (size xs)).
Proof.
  intros [W E]. exists (Some (mk (forallb Utf.IsLatin1 xs) xs)). split; [apply SubString_spec with (b := b); assumption|]. exists (mk (forallb Utf.IsLatin1 xs) xs). split; [reflexivity|].
  pose proof (well_formed_units s W) as U. pose proof (proj1 (well_formed_fits s W)) as HM. rewrite E in U, HM. apply Forall_app in U as [_ U]. apply Forall_app in U as [U _].
  apply represents_latin1; [sizes|exact U].
Qed.

(** C15. Strings implement sequences of code units: two strings that represent [us] and
    [vs], each in either representation, concatenate to a string that represents
    [us ++ vs]; a substring represents the part of the sequence; [CompareTo] is the
    lexicographic order and [StartsWith] the prefix test of the sequences; and the hash
    depends on the sequence only, so that [HashConcat] is the hash of the
    concatenation. *)
Theorem strings_implement_sequences s t us vs : represents s us -> represents t vs -> size us + size vs <= kMaxElements ->
  returns (fun r => represents r (us ++ vs)) (Concat s t) /\
  (forall a xs b, us = a ++ xs ++ b -> returns (fun r => exists r', r = Some r' /\ represents r' xs) (SubString s (size a) (size xs))) /\
  CompareTo s (Some t) = Done (compare us vs) /\
  StartsWith s (Some t) = Done (same (firstn (length vs) us) vs) /\
  Hash s = hash_of us /\ HashConcat s t = Done (hash_of (us ++ vs)).
Proof.
  intros Hs Ht H. split; [apply represents_concat; assumption|]. split; [intros a xs b ->; apply represents_substring with (b := b); exact Hs|].
  destruct Hs as [_ <-], Ht as [_ <-]. split; [apply CompareTo_spec|]. split; [apply StartsWith_spec|]. split; [reflexivity|apply HashConcat_spec].
Qed.

Lemma strings_implement_sequences_witness : returns (fun r => represents r [0x41; 0xE9; 0x20AC]) (Concat (OneByteString [0x41; 0xE9]) (TwoByteString [0x20AC])).
Proof.
  refine (proj1 (strings_implement_sequences (OneByteString [0x41; 0xE9]) (TwoByteString [0x20AC]) [0x41; 0xE9] [0x20AC] _ _ _)).
  - split; [|reflexivity]. split; [vm_compute; discriminate|]. repeat constructor; unfold byte; lia.
  - split; [|reflexivity]. split; [vm_compute; discriminate|]. repeat constructor; unfold unit16; lia.
  - vm_compute. discriminate.
Defined.



(** [EqualsIgnoringPrivateKey] compares the first name without its private keys with
    the second one, when the second one has none.  The comment above it says that the
    keys are stripped from the second name. *)
Theorem private_keys_are_ignored str1 str2 : ~ In kPrivateKeySeparator (units str2) ->
  EqualsIgnoringPrivateKey str1 str2 = Done (same (strip false (units str1)) (units str2)).
Proof. apply EqualsIgnoringPrivateKey_spec. Qed.

Lemma private_keys_are_ignored_witness : EqualsIgnoringPrivateKey (OneByteString [102; 64; 49; 50; 46; 110]) (OneByteString [102; 46; 110]) = Done true.
Proof.
  refine (private_keys_are_ignored (OneByteString [102; 64; 49; 50; 46; 110]) (OneByteString [102; 46; 110]) _).
  cbn. unfold kPrivateKeySeparator. lia.
Defined.
