(* ===== verification/DartStringIri.v ===== *)
(** * The escaping of IRIs

    [String::EncodeIRI] writes the UTF-8 form of a string with every byte that is not
    safe as a percent sign and two hexadecimal digits; [String::DecodeIRI] undoes it. *)

From Stdlib Require Import ZArith Bool List Lia.
From S2P Require Import Prelude Result Arrays Utils Il Unicode UnicodeProofs CaseMapping DartString DartStringProofs.
Import ListNotations.
Open Scope Z_scope.
Open Scope cint_scope.

Definition hex_digit (d : Z) : Z := nth (Z.to_nat d) hex 0.
Definition escape (b : Z) : list Z := if IsURISafeCharacter b then [b] else [37; hex_digit (b / 16); hex_digit (b mod 16)].
Definition escaped (bs : list Z) : list Z := flat_map escape bs.

Lemma escape_facts b : byte b ->
  GetHexCharacter (b >> 4) = Done (hex_digit (b / 16)) /\ GetHexCharacter (b .& 0xF) = Done (hex_digit (b mod 16)) /\
  IsHexCharacter (hex_digit (b / 16)) = true /\ IsHexCharacter (hex_digit (b mod 16)) = true /\
  MergeHexCharacters (hex_digit (b / 16)) (hex_digit (b mod 16)) = Done b /\ (IsURISafeCharacter b = true -> b < 128 /\ b <> 37).
Proof.
  intros H.
  pose proof (all_below 256 (fun b =>
    match GetHexCharacter (b >> 4), GetHexCharacter (b .& 0xF), MergeHexCharacters (hex_digit (b / 16)) (hex_digit (b mod 16)) with
    | Done h, Done l, Done m => (h =? hex_digit (b / 16)) && (l =? hex_digit (b mod 16)) && (m =? b)
    | _, _, _ => false end && IsHexCharacter (hex_digit (b / 16)) && IsHexCharacter (hex_digit (b mod 16)) && (negb (IsURISafeCharacter b) || (b <? 128) && negb (b =? 37)))
    ltac:(vm_compute; reflexivity) b H) as E. cbn beta in E.
  destruct (GetHexCharacter (b >> 4)) as [h| |]; try discriminate. destruct (GetHexCharacter (b .& 0xF)) as [l| |]; try discriminate.
  destruct (MergeHexCharacters _ _) as [m| |]; try discriminate. rewrite !andb_true_iff, !Z.eqb_eq in E. destruct E as [[[[[-> ->] ->] E1] E2] E3].
  repeat split; try assumption; rewrite H0 in E3; cbn [negb orb] in E3; apply andb_true_iff in E3 as [E3 E4]; [apply Z.ltb_lt, E3|apply Z.eqb_neq; destruct (b =? 37); [discriminate|reflexivity]].
Qed.

Lemma escape_bytes b : byte b -> Forall byte (escape b).
Proof.
  intros H. unfold escape. destruct (IsURISafeCharacter b); [repeat constructor; apply H|].
  assert (forall d, 0 <= d < 16 -> byte (hex_digit d)) as D.
  { intros d Hd. pose proof (all_below 16 (fun d => (0 <=? hex_digit d) && (hex_digit d <? 256)) ltac:(vm_compute; reflexivity) d Hd) as E. cbn beta in E. apply andb_true_iff in E as [E1 E2]. apply Z.leb_le in E1. apply Z.ltb_lt in E2. split; assumption. }
  unfold byte in H. repeat constructor; try lia; apply D; zdiv.
Qed.
Lemma escaped_bytes bs : Forall byte bs -> Forall byte (escaped bs).
Proof. intros H. induction H; cbn; [constructor|]. apply Forall_app. split; [apply escape_bytes|]; assumption. Qed.
Lemma escape_size b : size (escape b) = if IsURISafeCharacter b then 1 else 3.
Proof. unfold escape. destruct (IsURISafeCharacter b); reflexivity. Qed.
Lemma escaped_app bs cs : escaped (bs ++ cs) = escaped bs ++ escaped cs.
Proof. apply flat_map_app. Qed.
Lemma escaped_one b : escaped [b] = escape b.
Proof. cbn. apply app_nil_r. Qed.

(** The allocator returns arrays of the size asked for. *)
Definition allocates (alloc : Z -> list Z) : Prop := forall n, 0 <= n -> size (alloc n) = n.

Section Iri.
Context (alloc : Z -> list Z).
Hypothesis (HA : allocates alloc).

Lemma EncodeIRI_spec str : well_formed str -> size (utf8_string str) <= max_sN 32 -> EncodeIRI alloc str = Done (escaped (utf8_string str) ++ [0]).
Proof.
  intros W HL. unfold EncodeIRI. rewrite Length_utf8_string, <- utf8_string_size by exact W. cbn [rbind]. rewrite (proj2 (Z.leb_le _ (max_sN 32))) by exact HL.
  set (bs := utf8_string str) in *. assert (Forall byte bs) as HB.
  { apply utf8_bytes, Forall_map. eapply Forall_impl; [exact replaced_code_point|]. apply code_points_range, well_formed_units, W. }
  pose proof (ToUTF8_spec str (alloc (size bs)) [] W (HA _ (size_nonneg _))) as T. fold bs in T. rewrite !app_nil_r, HA in T by apply size_nonneg. rewrite T. cbn [rbind].
  replace (Z.to_nat (size bs)) with (length bs) by (unfold size; lia).
  destruct (for_from_returns (fun pre n => size pre + n = size (escaped pre)) bs 0 (fun i num_escapes =>
    let* byte := get bs i in Done (if negb (IsURISafeCharacter byte) then num_escapes + 2 else num_escapes)) 0) as (n & -> & HN).
  { reflexivity. }
  { intros pre x post s E HI. rewrite E, get_mid by lia. cbn [rbind]. apply returns_done. rewrite escaped_app, escaped_one, !size_app, escape_size. change (size [x]) with 1. destruct (IsURISafeCharacter x); cbn [negb]; lia. }
  cbn [rbind]. rewrite HN. set (body := fun _ _ => _).
  assert (size (alloc (size (escaped bs) + 1)) = size (escaped bs) + 1) as HS by (apply HA; sizes).
  destruct (for_from_returns (fun pre s => exists room, s = (size (escaped pre), escaped pre ++ room) /\ size (escaped pre) + size room = size (escaped bs) + 1) bs 0 body (0, alloc (size (escaped bs) + 1))) as (s & -> & room & -> & HR).
  - exists (alloc (size (escaped bs) + 1)). split; [reflexivity|exact HS].
  - intros pre x post s E (room & -> & HR). unfold body. assert (get bs (0 + size pre) = Done x) as G by (rewrite E; apply get_mid; lia). rewrite G. cbn [rbind].
    assert (byte x) as Bx by (rewrite E in HB; apply Forall_app in HB as [_ HB]; apply Forall_cons_iff in HB as [HB _]; exact HB).
    destruct (escape_facts x Bx) as (F1 & F2 & _ & _ & _ & F6). rewrite escaped_app, escaped_one.
    assert (size (escaped pre) + size (escape x) <= size (escaped bs)) as Fit by (rewrite E; change (x :: post) with ([x] ++ post); rewrite !escaped_app, escaped_one; sizes).
    unfold escape in *. destruct (IsURISafeCharacter x) eqn:S; cbn [negb].
    + rewrite (proj2 (Z.leb_le x 127)) by (specialize (F6 eq_refl); lia). destruct room as [|y room]; [exfalso; sizes|]. rewrite set_mid by reflexivity. cbn [rbind]. apply returns_done.
      exists room. rewrite <- app_assoc. cbn [app]. split; [f_equal; sizes|sizes].
    + destruct room as [|y1 [|y2 [|y3 room]]]; try (exfalso; sizes). rewrite set_mid by reflexivity. cbn [rbind]. rewrite F1. cbn [rbind].
      set (h := hex_digit (x / 16)) in *. set (l := hex_digit (x mod 16)) in *.
      change (escaped pre ++ 37 :: y2 :: y3 :: room) with (escaped pre ++ [37] ++ y2 :: y3 :: room). rewrite app_assoc, set_mid by sizes. cbn [rbind]. rewrite F2. cbn [rbind].
      rewrite <- app_assoc. change (escaped pre ++ [37] ++ h :: y3 :: room) with (escaped pre ++ [37; h] ++ y3 :: room). rewrite app_assoc, set_mid by sizes. cbn [rbind]. apply returns_done.
      exists room. rewrite <- !app_assoc. cbn [app]. split; [f_equal; sizes|sizes].
  - cbn [rbind]. destruct room as [|x [|y room]]; try (exfalso; sizes). apply set_mid. reflexivity.
Qed.

(** *** Decoding *)
(** An iterator that has visited the code units [p] of a one-byte string. *)
Definition visited (data p : list Z) (it : CodePointIterator) : Prop :=
  end_ it = size data /\ index_ it + Utf16.Length (ch_ it) = size p /\ -1 <= index_ it.

Lemma next_end data it : visited data data it -> exists it', next_code_point (OneByteString data) it = Done (None, it').
Proof.
  intros (H1 & H2 & H3). destruct (Next_spec (OneByteString data) data [] it) as (it' & E & _); try assumption; [symmetry; apply app_nil_r|constructor|].
  exists it'. unfold next_code_point. rewrite E. reflexivity.
Qed.
Lemma next_step data p u r it : data = p ++ u :: r -> Forall byte data -> visited data p it ->
  exists it', visited data (p ++ [u]) it' /\ Next (OneByteString data) it = Done (true, it') /\ Current it' = Done u.
Proof.
  intros E HB (H1 & H2 & H3). assert (Forall byte (u :: r)) as HR by (rewrite E in HB; apply Forall_app in HB as [_ HR]; exact HR).
  assert (first_code_point (u :: r) = Some (u, [u], r)) as F.
  { cbn [first_code_point]. apply Forall_cons_iff in HR as [U _]. unfold byte in U. unfold lead_surrogate. rewrite (proj2 (Z.leb_gt 0xD800 u)) by lia. destruct r; reflexivity. }
  destruct (Next_spec (OneByteString data) p (u :: r) it) as (it' & E' & _ & I'); try assumption; [eapply Forall_impl; [|exact HR]; unfold byte, unit16; lia|].
  rewrite F in I'. subst it'. exists (mkIterator u (size p) (size data)). apply Forall_cons_iff in HR as [U _]. unfold byte in U. repeat split; cbn [end_ index_ ch_].
  - unfold Utf16.Length, Utf16.kMaxCodeUnit. rewrite (proj2 (Z.leb_le u 0xFFFF)) by lia. sizes.
  - sizes.
  - exact E'.
  - unfold Current. cbn [end_ index_ ch_]. rewrite (proj2 (Z.leb_le 0 _)), (proj2 (Z.ltb_lt (size p) _)) by (rewrite ?E; sizes). reflexivity.
Qed.
Lemma next_code_point_step data p u r it : data = p ++ u :: r -> Forall byte data -> visited data p it ->
  exists it', visited data (p ++ [u]) it' /\ next_code_point (OneByteString data) it = Done (Some u, it').
Proof.
  intros E HB V. destruct (next_step data p u r it E HB V) as (it' & V' & N & C). exists it'. split; [exact V'|]. unfold next_code_point. rewrite N. cbn [rbind]. rewrite C. reflexivity.
Qed.

Lemma count_escapes_spec data : Forall byte data -> forall n bs p it k, data = p ++ escaped bs -> (length bs < n)%nat -> Forall byte bs -> visited data p it ->
  count_escapes n (OneByteString data) it k = Done (Some (k + (size (escaped bs) - size bs))).
Proof.
  intros HD. induction n as [|n IH]; intros bs p it k E HL HB V; [lia|]. cbn [count_escapes]. destruct bs as [|b bs].
  { cbn in E. rewrite app_nil_r in E. subst p. destruct (next_end data it V) as (it' & ->). cbn [rbind]. do 2 f_equal. cbn. unfold size. cbn. lia. }
  apply Forall_cons_iff in HB as [B HB]. destruct (escape_facts b B) as (_ & _ & F3 & F4 & _ & F6). change (escaped (b :: bs)) with (escape b ++ escaped bs) in *.
  rewrite size_app, escape_size, size_cons. cbn in HL. unfold escape in E. destruct (IsURISafeCharacter b) eqn:S; cbn [app] in E.
  - destruct (next_code_point_step data p b _ it E HD V) as (it' & V' & ->). cbn [rbind]. unfold IsPercent. rewrite (proj2 (Z.eqb_neq b 37)) by (apply F6; reflexivity).
    rewrite (IH bs (p ++ [b])); [do 2 f_equal; lia|rewrite <- app_assoc; exact E|lia|exact HB|exact V'].
  - set (h := hex_digit (b / 16)) in *. set (l := hex_digit (b mod 16)) in *.
    destruct (next_code_point_step data p 37 _ it E HD V) as (it1 & V1 & ->). cbn [rbind]. change (IsPercent 37) with true. cbn iota.
    destruct (next_code_point_step data (p ++ [37]) h (l :: escaped bs) it1) as (it2 & V2 & ->); [rewrite <- app_assoc; exact E|exact HD|exact V1|]. cbn [rbind]. rewrite F3. cbn [negb].
    destruct (next_code_point_step data ((p ++ [37]) ++ [h]) l (escaped bs) it2) as (it3 & V3 & ->); [rewrite <- !app_assoc; exact E|exact HD|exact V2|]. cbn [rbind]. rewrite F4. cbn [negb].
    rewrite (IH bs (((p ++ [37]) ++ [h]) ++ [l])); [do 2 f_equal; lia|rewrite <- !app_assoc; exact E|lia|exact HB|exact V3].
Qed.

Lemma decode_escapes_spec data len : Forall byte data -> forall n bs p it out room, data = p ++ escaped bs -> (length bs < n)%nat -> Forall byte bs -> visited data p it ->
  size room = size bs -> len = size out + size bs -> decode_escapes n (OneByteString data) it (size out) len (out ++ room) = Done (out ++ bs).
Proof.
  intros HD. induction n as [|n IH]; intros bs p it out room E HL HB V HR HS; [lia|]. cbn [decode_escapes]. destruct bs as [|b bs].
  { cbn in E. rewrite app_nil_r in E. subst p. destruct (next_end data it V) as (it' & ->). cbn [rbind]. destruct room; [reflexivity|sizes]. }
  apply Forall_cons_iff in HB as [B HB]. destruct (escape_facts b B) as (_ & _ & _ & _ & F5 & F6). change (escaped (b :: bs)) with (escape b ++ escaped bs) in *.
  destruct room as [|y room]; [sizes|]. assert (size out < len) as HO by sizes. cbn in HL. unfold byte in B.
  assert (forall p' it', data = p' ++ escaped bs -> visited data p' it' ->
    (let* utf8 := set (out ++ y :: room) (size out) (uN 8 b) in decode_escapes n (OneByteString data) it' (size out + 1) len utf8) = Done (out ++ b :: bs)) as Step.
  { intros p' it' E' V'. rewrite uN_small by (unfold is_uN; lia). rewrite set_mid by reflexivity. cbn [rbind].
    specialize (IH bs p' it' (out ++ [b]) room E' ltac:(lia) HB V'). rewrite <- !app_assoc in IH. cbn [app] in IH.
    replace (size (out ++ [b])) with (size out + 1) in IH by sizes. apply IH; sizes. }
  unfold escape in E. destruct (IsURISafeCharacter b) eqn:S; cbn [app] in E.
  - destruct (next_code_point_step data p b _ it E HD V) as (it' & V' & ->). cbn [rbind]. rewrite (proj2 (Z.ltb_lt _ len)) by exact HO.
    unfold IsPercent. rewrite (proj2 (Z.eqb_neq b 37)) by (apply F6; reflexivity).
    rewrite (proj2 (Z.leb_le 0 b)), (proj2 (Z.ltb_lt b 256)) by lia. cbn [andb]. apply (Step (p ++ [b])); [rewrite <- app_assoc; exact E|exact V'].
  - set (h := hex_digit (b / 16)) in *. set (l := hex_digit (b mod 16)) in *.
    destruct (next_code_point_step data p 37 _ it E HD V) as (it1 & V1 & ->). cbn [rbind]. rewrite (proj2 (Z.ltb_lt _ len)) by exact HO. change (IsPercent 37) with true. cbn iota.
    destruct (next_step data (p ++ [37]) h (l :: escaped bs) it1) as (it2 & V2 & N2 & C2); [rewrite <- app_assoc; exact E|exact HD|exact V1|]. rewrite N2. cbn [rbind]. rewrite C2. cbn [rbind].
    destruct (next_step data ((p ++ [37]) ++ [h]) l (escaped bs) it2) as (it3 & V3 & N3 & C3); [rewrite <- !app_assoc; exact E|exact HD|exact V2|]. rewrite N3. cbn [rbind]. rewrite C3. cbn [rbind].
    rewrite F5. cbn [rbind]. rewrite (proj2 (Z.leb_le 0 b)), (proj2 (Z.ltb_lt b 256)) by lia. cbn [andb]. apply (Step (((p ++ [37]) ++ [h]) ++ [l])); [rewrite <- !app_assoc; exact E|exact V3].
Qed.

Lemma DecodeIRI_escaped bs : Forall byte bs -> DecodeIRI alloc (OneByteString (escaped bs)) = FromUTF8 bs.
Proof.
  intros HB. pose proof (escaped_bytes bs HB) as HD. unfold DecodeIRI. cbn [units]. unfold Length. cbn [units].
  assert (visited (escaped bs) [] (iterator (OneByteString (escaped bs)))) as V by (repeat split; cbn; lia).
  assert (length bs <= length (escaped bs))%nat as HL.
  { clear. induction bs as [|b bs IH]; [reflexivity|]. change (escaped (b :: bs)) with (escape b ++ escaped bs). pose proof (escape_size b) as S. unfold size in S. rewrite length_app. cbn. destruct (IsURISafeCharacter b); lia. }
  rewrite (count_escapes_spec (escaped bs) HD _ bs [] _ 0 eq_refl) by (exact HB || exact V || lia). cbn [rbind].
  replace (size (escaped bs) - (0 + (size (escaped bs) - size bs))) with (size bs) by lia. rewrite Z.geb_leb, (proj2 (Z.leb_le 0 _)) by apply size_nonneg.
  pose proof (decode_escapes_spec (escaped bs) (size bs) HD (S (length (escaped bs))) bs [] _ [] (alloc (size bs)) eq_refl ltac:(lia) HB V (HA _ (size_nonneg _)) eq_refl) as E.
  cbn [app] in E. change (size (@nil Z)) with 0 in E. rewrite E. reflexivity.
Qed.
End Iri.

(** C29. A string survives the way to an IRI and back: [String::EncodeIRI] writes its
    UTF-8 form with the bytes that are not safe escaped, and [String::DecodeIRI] of that
    C string has the code units of the string (unpaired surrogates replaced by U+FFFD).
    Neither leaves its arrays. *)
Theorem iri_roundtrip alloc str : allocates alloc -> well_formed str -> size (utf8_string str) <= max_sN 32 ->
  exists cstr str', EncodeIRI alloc str = Done (cstr ++ [0]) /\ cstr = escaped (utf8_string str) /\
    DecodeIRI alloc (OneByteString cstr) = Done (Some str') /\ units str' = utf16 (map replaced (code_points (units str))).
Proof.
  intros HA W HL. pose proof (well_formed_units str W) as HU. pose proof (code_points_range _ HU) as HC.
  assert (Forall code_point (map replaced (code_points (units str)))) as HC' by (apply Forall_map; eapply Forall_impl; [exact replaced_code_point|exact HC]).
  exists (escaped (utf8_string str)), (string_of (map replaced (code_points (units str)))). split; [apply EncodeIRI_spec; assumption|]. split; [reflexivity|].
  split; [|apply string_of_units]. rewrite DecodeIRI_escaped by (exact HA || apply utf8_bytes, HC').
  apply (FromUTF8_spec (utf8_string str)); [apply utf8_bytes, HC'| |exact HC'|reflexivity].
  unfold utf8_string. rewrite CodeUnitCount_utf8 by exact HC'. cbn [fst]. rewrite replaced_utf16_size, utf16_code_points by assumption. apply W.
Qed.

Lemma iri_roundtrip_witness : exists cstr str', EncodeIRI (fun n => repeat 7 (Z.to_nat n)) (OneByteString [0x41; 0x2F; 0xE9]) = Done (cstr ++ [0]) /\
  DecodeIRI (fun n => repeat 7 (Z.to_nat n)) (OneByteString cstr) = Done (Some str') /\ units str' = [0x41; 0x2F; 0xE9].
Proof.
  destruct (iri_roundtrip (fun n => repeat 7 (Z.to_nat n)) (OneByteString [0x41; 0x2F; 0xE9])) as (cstr & str' & H1 & _ & H2 & H3).
  - intros n Hn. apply size_repeat, Hn.
  - split; [vm_compute; discriminate|]. repeat constructor; unfold byte; lia.
  - vm_compute. discriminate.
  - exists cstr, str'. split; [exact H1|]. split; [exact H2|exact H3].
Defined.
