(* ===== verification/CaseMappingProofs.v ===== *)
(** * Case conversion

    The tables of the case mappings are complete and in range for every code point but
    one: [Convert] compares with [<=] where the first table has one entry less, so that
    U+10500 reads past its end.  On all other strings, [ToUpperCase] and [ToLowerCase]
    convert code point by code point. *)

From Stdlib Require Import ZArith Bool List Lia.
From S2P Require Import Prelude Result Arrays Utils Il Unicode UnicodeProofs CaseMapping DartString DartStringProofs DartStringOps.
Import ListNotations.
Open Scope Z_scope.
Open Scope cint_scope.

Definition is_mapping (m : Z) : Prop := m = CaseMapping.kUppercase \/ m = CaseMapping.kLowercase.

(** ** The tables *)
(** What [Convert] makes of the table entry of [ch]. *)
Definition apply_info (ch info m : Z) : result Z :=
  let type := info .& CaseMapping.kTypeMask in
  if type =? m then Done (ch + (info >> CaseMapping.kTypeShift))
  else if type =? CaseMapping.kException then
    let* exception := get CaseMapping.stage2_exception_ (info >> CaseMapping.kTypeShift) in
    let* delta := get [fst exception; snd exception] (m - 1) in
    Done (ch + delta)
  else Done ch.

(** The result is a code point of the same length in UTF-16. *)
Definition same_width (ch : Z) (r : result Z) : bool :=
  match r with Done c => (0 <=? c) && (c <=? 0x10FFFF) && Bool.eqb (c <? 0x10000) (ch <? 0x10000) | _ => false end.

Definition numbered (l : list Z) : list (Z * Z) := combine (map Z.of_nat (seq 0 (length l))) l.
Definition block (k : Z) : list Z := firstn 256 (skipn (Z.to_nat (256 * k)) CaseMapping.stage2_).
Definition good_entry (ch info : Z) : bool := same_width ch (apply_info ch info 1) && same_width ch (apply_info ch info 2).
(** The block of the code points without a mapping. *)
Definition no_mapping : Z := 6.
Definition good_block (b k : Z) : bool :=
  (0 <=? k) && (k <? 19) && ((k =? no_mapping) || forallb (fun e => good_entry (b * 256 + fst e) (snd e)) (numbered (block k))).

Lemma tables_good : forallb (fun e => good_block (fst e) (snd e)) (numbered CaseMapping.stage1_) = true.
Proof. vm_compute. reflexivity. Qed.
Lemma no_mapping_zero : forallb (Z.eqb 0) (block no_mapping) = true.
Proof. vm_compute. reflexivity. Qed.
Lemma stage1_size : size CaseMapping.stage1_ = 261.
Proof. vm_compute. reflexivity. Qed.
Lemma stage2_size : size CaseMapping.stage2_ = 4864.
Proof. vm_compute. reflexivity. Qed.
Lemma latin1_no_exception : forallb (fun info => negb ((info .& 3) =? 3)) (block 0) = true.
Proof. vm_compute. reflexivity. Qed.
Lemma stage1_first : get CaseMapping.stage1_ 0 = Done 0.
Proof. reflexivity. Qed.

Lemma numbered_in l i x : nth_error l i = Some x -> In (Z.of_nat i, x) (numbered l).
Proof.
  intros H. unfold numbered. assert (i < length l)%nat as L by (apply nth_error_Some; congruence). revert i x H L. 
  enough (forall l k i x, nth_error l i = Some x -> In (Z.of_nat (k + i), x) (combine (map Z.of_nat (seq k (length l))) l)) as G by (intros i x H _; apply (G l 0%nat i x H)).
  clear. induction l as [|y l IH]; intros k [|i] x H; cbn in *; try discriminate.
  - injection H as ->. left. rewrite Nat.add_0_r. reflexivity.
  - right. replace (k + S i)%nat with (S k + i)%nat by lia. apply IH, H.
Qed.

(** The entry of a code point in the two tables. *)
Lemma entry b k j : get CaseMapping.stage1_ b = Done k -> 0 <= j < 256 -> 0 <= b ->
  exists info, get CaseMapping.stage2_ (sN 16 (k << CaseMapping.kBlockSizeLog2) + j) = Done info /\ nth_error (block k) (Z.to_nat j) = Some info /\ (0 <= k < 19) /\
    (k = no_mapping /\ info = 0 \/ good_entry (b * 256 + j) info = true).
Proof.
  intros Hb Hj Hb0. unfold get in Hb. destruct (b <? 0); [discriminate|]. destruct (nth_error CaseMapping.stage1_ (Z.to_nat b)) as [k'|] eqn:E; [|discriminate]. injection Hb as ->.
  pose proof tables_good as T. rewrite forallb_forall in T. specialize (T _ (numbered_in _ _ _ E)). cbn [fst snd] in T. rewrite Z2Nat.id in T by lia.
  unfold good_block in T. rewrite !andb_true_iff, orb_true_iff, Z.leb_le, Z.ltb_lt, Z.eqb_eq in T. destruct T as [[K1 K2] T].
  change CaseMapping.kBlockSizeLog2 with 8. rewrite Z.shiftl_mul_pow2 by lia. rewrite sN_small by (unfold is_sN; lia).
  destruct (get_in CaseMapping.stage2_ (k * 2 ^ 8 + j)) as (info & G & N & _); [rewrite stage2_size; lia|]. exists info.
  assert (nth_error (block k) (Z.to_nat j) = Some info) as NB.
  { unfold block. rewrite nth_error_firstn. replace (Z.to_nat j <? 256)%nat with true by (symmetry; apply Nat.ltb_lt; lia). rewrite nth_error_skipn.
    replace (Z.to_nat (256 * k) + Z.to_nat j)%nat with (Z.to_nat (k * 2 ^ 8 + j)) by lia. exact N. }
  repeat split; try assumption; try lia. destruct T as [->|T].
  - left. split; [reflexivity|]. pose proof no_mapping_zero as NM. rewrite forallb_forall in NM. specialize (NM info (nth_error_In _ _ NB)). apply Z.eqb_eq in NM. congruence.
  - right. rewrite forallb_forall in T. specialize (T _ (numbered_in _ _ _ NB)). cbn [fst snd] in T. rewrite Z2Nat.id in T by lia. exact T.
Qed.

Lemma good_same_width ch info m : is_mapping m -> code_point ch -> (info = 0 \/ good_entry ch info = true) -> same_width ch (apply_info ch info m) = true.
Proof.
  intros M C [->|G].
  - unfold code_point in C. destruct M; subst m; cbn; rewrite (proj2 (Z.leb_le 0 ch)), (proj2 (Z.leb_le ch _)) by lia; cbn; apply eqb_reflx.
  - unfold good_entry in G. apply andb_true_iff in G as [G1 G2]. destruct M; subst m; assumption.
Qed.

(** U+10500, the code point after the last one of the first table. *)
Definition unmapped : Z := 0x10500.

Lemma Convert_same_width ch m : is_mapping m -> code_point ch -> ch <> unmapped -> same_width ch (CaseMapping.Convert ch m) = true.
Proof.
  intros M C N. unfold code_point, unmapped in *. unfold CaseMapping.Convert. destruct (Utf.IsLatin1 ch) eqn:L.
  - apply IsLatin1_byte in L. unfold byte in L. destruct (entry 0 0 ch stage1_first ltac:(lia) ltac:(lia)) as (info & G & NB & _ & T).
    change (sN 16 (0 << CaseMapping.kBlockSizeLog2) + ch) with ch in G. rewrite G. cbn [rbind].
    pose proof latin1_no_exception as X. rewrite forallb_forall in X. specialize (X info (nth_error_In _ _ NB)).
    pose proof (good_same_width ch info m M C (match T with or_introl (conj _ E) => or_introl E | or_intror E => or_intror E end)) as S.
    unfold apply_info in S. change CaseMapping.kException with 3 in S. change CaseMapping.kTypeMask with 3 in S |- *. destruct ((info .& 3) =? 3); [discriminate|]. exact S.
  - destruct (Z.leb_spec ch (CaseMapping.kStage1Size << CaseMapping.kBlockSizeLog2)) as [H|H].
    2: { cbn. rewrite (proj2 (Z.leb_le 0 ch)), (proj2 (Z.leb_le ch _)) by lia. cbn. apply eqb_reflx. }
    change (CaseMapping.kStage1Size << CaseMapping.kBlockSizeLog2) with 66816 in H. change (CaseMapping.kBlockSize - 1) with (Z.ones 8). rewrite Z.land_ones by lia.
    change (ch >> CaseMapping.kBlockSizeLog2) with (ch >> 8). rewrite (Z.shiftr_div_pow2 ch) by lia. change (2 ^ 8) with 256.
    destruct (get_in CaseMapping.stage1_ (ch / 256)) as (k & G & _); [rewrite stage1_size; zdiv|]. rewrite G. cbn [rbind].
    destruct (entry (ch / 256) k (ch mod 256) G ltac:(zdiv) ltac:(zdiv)) as (info & G2 & _ & _ & T). rewrite G2. cbn [rbind].
    replace (ch / 256 * 256 + ch mod 256) with ch in T by zdiv.
    exact (good_same_width ch info m M C (match T with or_introl (conj _ E) => or_introl E | or_intror E => or_intror E end)).
Qed.
Lemma Convert_unmapped m : CaseMapping.Convert unmapped m = AssertionFailure.
Proof. reflexivity. Qed.

(** The converted code point. *)
Definition converted (m ch : Z) : Z := match CaseMapping.Convert ch m with Done c => c | _ => ch end.
Lemma Convert_converted ch m : is_mapping m -> code_point ch -> ch <> unmapped ->
  CaseMapping.Convert ch m = Done (converted m ch) /\ code_point (converted m ch) /\ (converted m ch <? 0x10000) = (ch <? 0x10000).
Proof.
  intros M C N. pose proof (Convert_same_width ch m M C N) as S. unfold converted, same_width, code_point in *. destruct (CaseMapping.Convert ch m) as [c| |]; try discriminate.
  rewrite !andb_true_iff, !Z.leb_le in S. destruct S as [S1 S2]. apply eqb_prop in S2. auto.
Qed.

(** ** Strings *)
Section Transform.
Context (m : Z).
Hypothesis (M : is_mapping m).
Abbreviation mapping := (fun ch => CaseMapping.Convert ch m).
Abbreviation conv := (converted m).

(** A string without the code point that cannot be looked up. *)
Definition convertible (str : String) : Prop := ~ In unmapped (code_points (units str)).

Lemma conv_in str pre c post : convertible str -> code_points (units str) = pre ++ c :: post -> c <> unmapped.
Proof. intros H E ->. apply H. rewrite E. apply in_or_app. right. left. reflexivity. Qed.

Lemma utf16_narrow cs : forallb (fun c => c <? 0x10000) cs = true -> utf16 cs = cs.
Proof.
  induction cs as [|c cs IH]; intros H; [reflexivity|]. cbn [forallb] in H. apply andb_true_iff in H as [H1 H2]. change (utf16 (c :: cs)) with (utf16_of c ++ utf16 cs). rewrite IH by exact H2. unfold utf16_of. rewrite H1. reflexivity.
Qed.

Lemma converted_size str : well_formed str -> convertible str -> size (utf16 (map conv (code_points (units str)))) = Length str.
Proof.
  intros W HC. pose proof (well_formed_units str W) as HU. unfold Length. rewrite <- (utf16_code_points (units str) HU) at 2. pose proof (code_points_range _ HU) as R.
  assert (forall c, In c (code_points (units str)) -> c <> unmapped) as N by (intros c Hc ->; exact (HC Hc)). clear - R N M. induction R as [|c cs C R IH]; [reflexivity|].
  change (size (utf16_of (conv c) ++ utf16 (map conv cs)) = size (utf16_of c ++ utf16 cs)). rewrite !size_app, IH by (intros; apply N; right; assumption). f_equal. rewrite !utf16_of_size.
  destruct (Convert_converted c m M C (N c (or_introl eq_refl))) as (_ & _ & ->). reflexivity.
Qed.

Lemma TransformTwoByte_spec str : well_formed str -> convertible str ->
  TransformTwoByte mapping str = Done (TwoByteString (utf16 (map conv (code_points (units str))))).
Proof.
  intros W HC. pose proof (well_formed_units str W) as HU. unfold TransformTwoByte. assert (0 <= Length str) by apply size_nonneg. rewrite (New_mk false) by (split; [lia|apply W]). cbn [rbind].
  set (cps := code_points (units str)) in *. set (done pre := utf16 (map conv pre)).
  assert (size (done cps) = Length str) as HD by (apply converted_size; assumption).
  match goal with |- context [each_code_point str ?body _] => set (step := body) end.
  destruct (each_returns str step (fun pre s => exists room, s = (size (done pre), mk false (done pre ++ room)) /\ size (done pre) + size room = Length str) (fun _ => False) HU)
    with (s := (0, mk false (repeat 0 (Z.to_nat (Length str))))) as (s & E & [H'|H']); try contradiction.
  - intros pre c post s E C (room & -> & HR). unfold step. destruct (Convert_converted c m M C (conv_in str pre c post HC E)) as (-> & C' & _). cbn [rbind].
    assert (done (pre ++ [c]) = done pre ++ utf16_of (conv c)) as D by (unfold done, utf16; rewrite map_app, flat_map_app; cbn; rewrite app_nil_r; reflexivity).
    assert (size (done pre) + size (utf16_of (conv c)) <= Length str) as Fit.
    { rewrite <- HD. unfold done, cps. rewrite E, map_app. unfold utf16. rewrite flat_map_app. cbn [map flat_map]. sizes. }
    rewrite D. set (x := conv c) in *. unfold code_point in C'. rewrite (proj2 (Z.leb_le 0 x)), (proj2 (Z.leb_le x _)) by lia. cbn [andb]. unfold Utf16.Length, Utf16.kMaxCodeUnit.
    rewrite utf16_of_size in Fit. unfold utf16_of. destruct (Z.ltb_spec x 0x10000).
    + rewrite (proj2 (Z.leb_le x 0xFFFF)) by lia. cbn [Z.eqb Pos.eqb]. destruct room as [|y room]; [exfalso; sizes|].
      rewrite (SetCharAt_mid false) by (reflexivity || (unfold fits, unit16; lia)). cbn [rbind]. apply returns_done. cbn [fst snd]. exists room. rewrite <- app_assoc. cbn [app]. split; [f_equal; sizes|sizes].
    + rewrite (proj2 (Z.leb_gt x 0xFFFF)) by lia. cbn [Z.eqb Pos.eqb]. rewrite Utf16_Encode_spec by (unfold code_point; lia). cbn [rbind].
      assert (Forall unit16 (utf16_of x)) as U by (unfold utf16_of, unit16; rewrite (proj2 (Z.ltb_ge x 0x10000)) by lia; repeat constructor; zdiv). unfold utf16_of in U. rewrite (proj2 (Z.ltb_ge x 0x10000)) in U by lia.
      set (lead := 0xD800 + _) in *. set (low := 0xDC00 + _) in *. apply Forall_cons_iff in U as [U1 U]. apply Forall_cons_iff in U as [U2 _].
      destruct room as [|y [|z room]]; try (exfalso; sizes). rewrite (SetCharAt_mid false) by (reflexivity || exact U1). cbn [rbind].
      change (done pre ++ lead :: z :: room) with (done pre ++ [lead] ++ z :: room). rewrite app_assoc, (SetCharAt_mid false) by (exact U2 || sizes). cbn [rbind].
      apply returns_done. cbn [fst snd]. exists room. rewrite <- !app_assoc. cbn [app]. split; [f_equal; sizes|sizes].
  - exists (repeat 0 (Z.to_nat (Length str))). split; [reflexivity|]. rewrite size_repeat by lia. reflexivity.
  - rewrite E. destruct H' as (room & -> & HR). cbn [rbind mk]. fold cps in HR |- *. rewrite HD in HR. destruct room; [rewrite app_nil_r; reflexivity|exfalso; sizes].
Qed.

Lemma TransformOneByte_spec str : well_formed str -> convertible str -> forallb latin1 (map conv (code_points (units str))) = true ->
  TransformOneByte mapping str = Done (OneByteString (map conv (units str))) /\ code_points (units str) = units str.
Proof.
  intros W HC HL. pose proof (well_formed_units str W) as HU. pose proof (code_points_range _ HU) as HR.
  assert (code_points (units str) = units str) as E.
  { rewrite <- (utf16_code_points _ HU) at 2. symmetry. apply utf16_narrow. rewrite forallb_forall in *. rewrite Forall_forall in HR. intros c Hc.
    destruct (Convert_converted c m M (HR c Hc)) as (_ & _ & <-); [intros ->; exact (HC Hc)|]. specialize (HL (conv c) (in_map _ _ _ Hc)). apply Z.leb_le in HL. apply Z.ltb_lt. lia. }
  split; [|exact E]. rewrite E in *. unfold TransformOneByte. assert (0 <= Length str) by apply size_nonneg. rewrite (New_mk true) by (split; [lia|apply W]). cbn [rbind].
  assert (forall pre x post, units str = pre ++ x :: post -> CaseMapping.Convert x m = Done (conv x) /\ byte (conv x)) as G.
  { intros pre x post Ex. assert (In x (units str)) as Hx by (rewrite Ex; apply in_or_app; right; left; reflexivity). rewrite Forall_forall in HR.
    destruct (Convert_converted x m M (HR x Hx)) as (C1 & C2 & _); [intros ->; apply HC; rewrite E; exact Hx|]. split; [exact C1|].
    rewrite forallb_forall in HL. specialize (HL (conv x) (in_map _ _ _ Hx)). apply Z.leb_le in HL. unfold code_point, byte in *. lia. }
  set (body := fun _ _ => _).
  pose proof (fill true (map conv (units str)) body 0 [] (repeat 0 (Z.to_nat (Length str))) []) as F. rewrite !app_nil_r, length_map in F. cbn [app] in F.
  replace (Z.to_nat (Length str)) with (length (units str)) in * by (unfold Length, size; lia). apply F.
  - intros pre y post s Ey. apply map_eq_app in Ey as (p & q & Eu & <- & Eq). destruct q as [|x q]; [discriminate|]. cbn in Eq. injection Eq as <- _.
    destruct (G p x q Eu) as [G1 G2]. assert (size (map conv p) = size p) as SM by (unfold size; rewrite length_map; reflexivity). unfold body. rewrite (CharAt_mid str p x q) by (exact Eu || lia). cbn [rbind]. rewrite G1. cbn [rbind].
    rewrite (proj2 (IsLatin1_byte _) G2). f_equal. sizes.
  - unfold size. rewrite repeat_length, length_map. reflexivity.
  - apply Forall_map. rewrite Forall_forall. intros x Hx. apply in_split in Hx as (p & q & Eu). exact (proj2 (G p x q Eu)).
Qed.

Lemma max_latin1 cs : forall k, 0 <= k -> Forall code_point cs ->
  let top := fold_left Z.max cs k in k <= top /\ (Utf.IsLatin1 top = (k <=? 0xFF) && forallb latin1 cs) /\ (k <= 0x10FFFF -> top <= 0x10FFFF).
Proof.
  induction cs as [|c cs IH]; intros k K H; cbn [fold_left forallb].
  - rewrite andb_true_r. repeat split; try lia. unfold Utf.IsLatin1. rewrite Z.geb_leb, (proj2 (Z.leb_le 0 k)) by lia. reflexivity.
  - apply Forall_cons_iff in H as [C H]. unfold code_point in C. destruct (IH (Z.max k c) ltac:(lia) H) as (I1 & I2 & I3). repeat split; try lia.
    rewrite I2, andb_assoc. f_equal. unfold latin1. apply eq_true_iff_eq. rewrite andb_true_iff, !Z.leb_le. lia.
Qed.

Lemma Transform_spec str : well_formed str -> convertible str ->
  exists r, Transform mapping str = Done r /\ represents r (utf16 (map conv (code_points (units str)))).
Proof.
  intros W HC. pose proof (well_formed_units str W) as HU. pose proof (code_points_range _ HU) as HR. unfold Transform. set (cps := code_points (units str)) in *.
  assert (Forall code_point (map conv cps)) as HV.
  { apply Forall_map. rewrite Forall_forall in *. intros c Hc. apply Convert_converted; [exact M|apply HR, Hc|intros ->; exact (HC Hc)]. }
  match goal with |- context [each_code_point str ?body _] => set (step := body) end.
  destruct (each_returns str step (fun pre s => s = (existsb (fun c => negb (c =? conv c)) pre, fold_left Z.max (map conv pre) 0)) (fun _ => False) HU)
    with (s := (false, 0)) as (s & E & [-> |H']); try contradiction; [|reflexivity|].
  { intros pre c post s E C ->. unfold step. destruct (Convert_converted c m M C (conv_in str pre c post HC E)) as (-> & _). cbn [rbind]. apply returns_done. cbn [fst snd].
    rewrite existsb_app, map_app, fold_left_app. cbn [existsb map fold_left]. rewrite orb_false_r. reflexivity. }
  rewrite E. cbn [rbind]. fold cps. destruct (max_latin1 (map conv cps) 0 ltac:(lia) HV) as (T1 & T2 & T3). rewrite T2. cbn [Z.leb andb].
  destruct (existsb (fun c => negb (c =? conv c)) cps) eqn:X; cbn [negb].
  - destruct (forallb latin1 (map conv cps)) eqn:L.
    + destruct (TransformOneByte_spec str W HC L) as [-> EU]. fold cps in EU. eexists. split; [reflexivity|]. rewrite utf16_latin1 by exact L. rewrite EU. apply (represents_mk true).
      * unfold size. rewrite length_map. apply W.
      * rewrite <- EU. rewrite Forall_forall in *. rewrite forallb_forall in L. intros c Hc. specialize (L c Hc). specialize (HV c Hc). apply Z.leb_le in L. unfold fits, byte, code_point in *. lia.
    + rewrite TransformTwoByte_spec by assumption. unfold Utf.IsBmp, Utf.IsSupplementary, Utf.kMaxCodePoint. rewrite Z.geb_leb, Z.gtb_ltb. specialize (T3 ltac:(lia)). set (top := fold_left _ _ _) in *.
      rewrite (proj2 (Z.leb_le 0 top)), (proj2 (Z.leb_le top 0x10FFFF)) by lia.
      replace (true && (top <=? 0xFFFF) || (0xFFFF <? top) && true) with true by (symmetry; destruct (Z.leb_spec top 0xFFFF), (Z.ltb_spec 0xFFFF top); try reflexivity; lia).
      eexists. split; [reflexivity|]. fold cps. apply (represents_mk false).
      * unfold cps. rewrite converted_size by assumption. apply W.
      * clear - HV. induction HV as [|c cs C H IH]; cbn; [constructor|]. apply Forall_app. split; [|exact IH]. unfold utf16_of, fits, unit16, code_point in *. destruct (Z.ltb_spec c 0x10000); repeat constructor; zdiv.
  - exists str. split; [reflexivity|]. split; [exact W|]. rewrite <- (utf16_code_points _ HU) at 1. fold cps. f_equal. clear - X. induction cps as [|c cs IH]; [reflexivity|]. cbn in X. apply orb_false_iff in X as [X1 X2].
    cbn [map]. rewrite <- IH by exact X2. f_equal. destruct (Z.eqb_spec c (conv c)) as [E|E]; [exact E|discriminate].
Qed.

Lemma Transform_unmapped str : well_formed str -> In unmapped (code_points (units str)) -> Transform mapping str = AssertionFailure.
Proof.
  intros W H. pose proof (well_formed_units str W) as HU. pose proof (code_points_range _ HU) as HR. unfold Transform. rewrite each_code_point_list by exact HU.
  match goal with |- context [each_list _ ?body _] => set (step := body) end.
  enough (forall cs s, Forall code_point cs -> In unmapped cs -> each_list cs step s = AssertionFailure) as G by (rewrite G by assumption; reflexivity).
  clear - M. induction cs as [|c cs IH]; intros [b k] HR H; [contradiction|]. cbn [each_list]. unfold step at 1. destruct (Z.eq_dec c unmapped) as [->|N]; [reflexivity|].
  apply Forall_cons_iff in HR as [C HR]. destruct (Convert_converted c m M C N) as (-> & _). cbn [rbind]. apply IH; [exact HR|]. destruct H as [H|H]; [congruence|exact H].
Qed.
End Transform.


