(* ===== verification/HashMap.v ===== *)
(** * The hash map of [platform/hashmap.{h,cc}]

    Open addressing with linear probing.  An [Entry*] is an index of [map_]; null keys
    ([nullptr], 0) mark empty entries.  Keys and values are pointers, hashes and sizes
    [uint32_t].  The match function of the client is an argument. *)

From Stdlib Require Import ZArith Bool List Lia.
From S2P Require Import Prelude Utils Result Arrays.
Import ListNotations.
Open Scope Z_scope.

Definition nullptr : Z := 0.

Module SimpleHashMap.
Record Entry := mkEntry { key : Z; value : Z; hash : Z }.
Definition empty : Entry := mkEntry nullptr nullptr 0.
Definition with_value (e : Entry) (v : Z) : Entry := mkEntry (key e) v (hash e).
Definition with_key (e : Entry) (k : Z) : Entry := mkEntry k (value e) (hash e).

Record t := mk { map_ : list Entry; capacity_ : Z; occupancy_ : Z }.

Definition Initialize (capacity : Z) : result t :=
  require IsPowerOfTwo capacity;;
  Done (mk (repeat empty (Z.to_nat capacity)) capacity 0).

(** The entry at which the search for a hash starts: [hash & (capacity_ - 1)]. *)
Definition start (capacity hash : Z) : Z := hash .& uN 32 (capacity - 1).
(** [p++; if (p >= end) p = map_;] *)
Definition advance (capacity p : Z) : Z := if p + 1 >=? capacity then 0 else p + 1.

(** [p->value = v;] *)
Definition SetValue (p v : Z) (m : t) : result t :=
  let* e := get (map_ m) p in
  let* map := set (map_ m) p (with_value e v) in
  Done (mk map (capacity_ m) (occupancy_ m)).

Section Match.
Context (match_ : Z -> Z -> bool).

Fixpoint Probe_loop (n : nat) (map : list Entry) (capacity k h p : Z) : result Z :=
  match n with
  | O => OutOfFuel
  | S n =>
      let* e := get map p in
      if negb (key e =? nullptr) && (negb (h =? hash e) || negb (match_ k (key e)))
      then Probe_loop n map capacity k h (advance capacity p)
      else Done p
  end.

Definition Probe (k h : Z) (m : t) : result Z :=
  require negb (k =? nullptr);;
  require IsPowerOfTwo (capacity_ m);;
  let p := start (capacity_ m) h in
  require (0 <=? p) && (p <? capacity_ m);;
  require occupancy_ m <? capacity_ m;;
  Probe_loop (S (length (map_ m))) (map_ m) (capacity_ m) k h p.

(** The loop of [Resize] over the old entries, [n] of them still to be found. *)
Fixpoint Resize_loop (Lookup : Z -> Z -> bool -> t -> result (option Z * t)) (fuel : nat) (old : list Entry) (p n : Z) (m : t) : result t :=
  if n =? 0 then Done m
  else match fuel with
  | O => OutOfFuel
  | S fuel =>
      let* e := get old p in
      if negb (key e =? nullptr) then
        let* (r, m) := Lookup (key e) (hash e) true m in
        match r with
        | Some q => let* m := SetValue q (value e) m in Resize_loop Lookup fuel old (p + 1) (n - 1) m
        | None => AssertionFailure
        end
      else Resize_loop Lookup fuel old (p + 1) n m
  end.

Definition Resize (Lookup : Z -> Z -> bool -> t -> result (option Z * t)) (m : t) : result t :=
  let* fresh := Initialize (uN 32 (capacity_ m * 2)) in
  Resize_loop Lookup (S (length (map_ m))) (map_ m) 0 (occupancy_ m) fresh.

(** [Lookup] and [Resize] call each other; [depth] bounds the nesting. *)
Fixpoint Lookup_at (depth : nat) (k h : Z) (insert : bool) (m : t) : result (option Z * t) :=
  match depth with
  | O => OutOfFuel
  | S depth =>
      let* p := Probe k h m in
      let* e := get (map_ m) p in
      if negb (key e =? nullptr) then Done (Some p, m)
      else if insert then
        let* map := set (map_ m) p (mkEntry k nullptr h) in
        let m := mk map (capacity_ m) (uN 32 (occupancy_ m + 1)) in
        if uN 32 (occupancy_ m + occupancy_ m / 4) >=? capacity_ m then
          let* m := Resize (Lookup_at depth) m in
          let* p := Probe k h m in
          Done (Some p, m)
        else Done (Some p, m)
      else Done (None, m)
  end.
Definition Lookup : Z -> Z -> bool -> t -> result (option Z * t) := Lookup_at 2.

(** [Lookup(k, h, true)->value = v;], how clients store a value. *)
Definition Put (k h v : Z) (m : t) : result t :=
  let* (r, m) := Lookup k h true m in
  match r with Some p => SetValue p v m | None => AssertionFailure end.

Fixpoint Remove_loop (n : nat) (map : list Entry) (capacity candidate next : Z) : result (list Entry * Z) :=
  match n with
  | O => OutOfFuel
  | S n =>
      let next := if next + 1 =? capacity then 0 else next + 1 in
      let* e := get map next in
      if key e =? nullptr then Done (map, candidate)
      else
        let start := start capacity (hash e) in
        if (next >? candidate) && ((start <=? candidate) || (start >? next)) ||
           (next <? candidate) && ((start <=? candidate) && (start >? next))
        then let* map := set map candidate e in Remove_loop n map capacity next next
        else Remove_loop n map capacity candidate next
  end.

Definition Remove (k h : Z) (m : t) : result t :=
  let* candidate := Probe k h m in
  let* e := get (map_ m) candidate in
  if key e =? nullptr then Done m
  else
    require occupancy_ m <? capacity_ m;;
    let* (map, candidate) := Remove_loop (S (length (map_ m))) (map_ m) (capacity_ m) candidate candidate in
    let* e := get map candidate in
    let* map := set map candidate (with_key e nullptr) in
    Done (mk map (capacity_ m) (uN 32 (occupancy_ m - 1))).
End Match.

(** The values [clear] is called with, in order, and the empty map. *)
Definition Clear (clear : bool) (m : t) : list Z * t :=
  (if clear then map value (filter (fun e => negb (key e =? nullptr)) (map_ m)) else [],
   mk (map (fun e => with_key e nullptr) (map_ m)) (capacity_ m) 0).

Fixpoint Next_loop (n : nat) (p : Z) (m : t) : result (option Z) :=
  if p <? capacity_ m then
    match n with
    | O => OutOfFuel
    | S n => let* e := get (map_ m) p in
             if negb (key e =? nullptr) then Done (Some p) else Next_loop n (p + 1) m
    end
  else Done None.
Definition Next (p : Z) (m : t) : result (option Z) :=
  require (-1 <=? p) && (p <? capacity_ m);;
  Next_loop (length (map_ m)) (p + 1) m.
Definition Start (m : t) : result (option Z) := Next (-1) m.

(** The entries met by [for (Entry* p = map.Start(); p != nullptr; p = map.Next(p))]. *)
Fixpoint iterate (n : nat) (p : option Z) (m : t) : result (list Entry) :=
  match p, n with
  | None, _ => Done []
  | Some _, O => OutOfFuel
  | Some p, S n => let* e := get (map_ m) p in let* q := Next p m in let* es := iterate n q m in Done (e :: es)
  end.
Definition Entries (m : t) : result (list Entry) := let* p := Start m in iterate (length (map_ m)) p m.

(** [static bool SamePointerValue(void* key1, void* key2)] *)
Definition SamePointerValue (key1 key2 : Z) : bool := key1 =? key2.
End SimpleHashMap.
