(* ===== verification/HashMapProofs.v ===== *)
(** * The hash map implements finite maps

    [table] is the invariant of the array: stored hashes are those of the keys, no two
    entries match, and every entry is found from where its search starts.  [represents m
    f] ties a map to a partial function on keys.  The match function is an equivalence
    that the hash respects; clients pass the hash of the key with each call. *)

From Stdlib Require Import ZArith Bool List Lia.
From S2P Require Import Prelude Utils Result Arrays HashMap.
Import ListNotations.
Import SimpleHashMap.
Open Scope Z_scope.

(** ** Entries by index *)
Abbreviation entry := (item empty).
Definition present (e : Entry) : bool := negb (key e =? nullptr).
Definition count (l : list Entry) : Z := size (filter present l).

Definition one (b : bool) : Z := if b then 1 else 0.
Lemma count_split a e b : count (a ++ e :: b) = count a + one (present e) + count b.
Proof. unfold count. rewrite filter_app. cbn [filter]. unfold one. destruct (present e); sizes. Qed.
Lemma count_upd l i e : 0 <= i < size l -> count (upd l i e) = count l - one (present (entry l i)) + one (present e).
Proof.
  intros H. destruct (split_at empty l i H) as (a & b & E & L). rewrite E at 2. rewrite count_split.
  replace (upd l i e) with (a ++ e :: b); [rewrite count_split; lia|].
  rewrite E at 1. unfold upd. replace (Z.to_nat i) with (length a) by (unfold size in L; lia). symmetry. apply set_nth_mid.
Qed.
Lemma count_bounds l : 0 <= count l <= size l.
Proof. unfold count, size. pose proof (filter_length_le present l). lia. Qed.
Lemma has_empty l : count l < size l -> exists z, 0 <= z < size l /\ present (entry l z) = false.
Proof.
  induction l as [|e l IH]; unfold count; cbn [filter]; [sizes|]. intros H. destruct (present e) eqn:P.
  - destruct IH as (z & Hz & E); [unfold count; sizes|]. exists (z + 1). split; [sizes|].
    unfold item in *. replace (Z.to_nat (z + 1)) with (S (Z.to_nat z)) by lia. exact E.
  - exists 0. split; [sizes|exact P].
Qed.

(** ** Positions around the table *)

(** How far [i] is from [s], going up and around a table of [n] entries. *)
Definition dist (n s i : Z) : Z := if i <? s then i - s + n else i - s.
Ltac around := unfold dist, advance in *; repeat match goal with
  | |- context [?a <? ?b] => destruct (Z.ltb_spec a b)
  | |- context [?a >=? ?b] => rewrite (Z.geb_leb a b)
  | |- context [?a <=? ?b] => destruct (Z.leb_spec a b)
  | H : context [?a <? ?b] |- _ => destruct (Z.ltb_spec a b)
  | H : context [?a >=? ?b] |- _ => rewrite (Z.geb_leb a b) in H
  | H : context [?a <=? ?b] |- _ => destruct (Z.leb_spec a b)
  end; lia.

Lemma advance_range n p : 0 <= p < n -> 0 <= advance n p < n.
Proof. intros. around. Qed.
Lemma dist_range n s i : 0 <= s < n -> 0 <= i < n -> 0 <= dist n s i < n.
Proof. intros. around. Qed.
Lemma dist_inj n s i j : 0 <= s < n -> 0 <= i < n -> 0 <= j < n -> dist n s i = dist n s j -> i = j.
Proof. intros. around. Qed.
Lemma dist_advance n s p : 0 <= s < n -> 0 <= p < n -> dist n s p < n - 1 -> dist n s (advance n p) = dist n s p + 1.
Proof. intros. around. Qed.
Lemma dist_self n s : dist n s s = 0.
Proof. around. Qed.
Lemma start_range j h : 0 <= j <= 31 -> 0 <= start (2 ^ j) h < 2 ^ j.
Proof.
  intros H. unfold start. pose proof (Z.pow_pos_nonneg 2 j ltac:(lia) ltac:(lia)). pose proof (Z.pow_le_mono_r 2 j 31 ltac:(lia) ltac:(lia)).
  rewrite uN_small by (unfold is_uN; lia). replace (2 ^ j - 1) with (Z.ones j) by (rewrite Z.ones_equiv; lia). rewrite Z.land_ones by lia. apply Z.mod_pos_bound. lia.
Qed.

Section Proofs.
Context (match_ : Z -> Z -> bool) (hash_of : Z -> Z).

(** What clients promise about keys. *)
Record hashing : Prop := {
  match_refl : forall k, match_ k k = true;
  match_sym : forall a b, match_ a b = match_ b a;
  match_trans : forall a b c, match_ a b = true -> match_ b c = true -> match_ a c = true;
  match_hash : forall a b, match_ a b = true -> hash_of a = hash_of b }.
Context (HH : hashing).

Definition begin (l : list Entry) (i : Z) : Z := start (size l) (hash (entry l i)).
(** [x] is met before [i] in a search that starts at [s]. *)
Definition before (l : list Entry) (s x i : Z) : Prop := 0 <= x < size l /\ dist (size l) s x < dist (size l) s i.

Record table (l : list Entry) : Prop := {
  hashed : forall i, 0 <= i < size l -> present (entry l i) = true -> hash (entry l i) = hash_of (key (entry l i));
  distinct : forall i j, 0 <= i < size l -> 0 <= j < size l -> present (entry l i) = true -> present (entry l j) = true ->
    match_ (key (entry l i)) (key (entry l j)) = true -> i = j;
  reached : forall i x, 0 <= i < size l -> present (entry l i) = true -> before l (begin l i) x i -> present (entry l x) = true }.

Definition power (n : Z) : Prop := exists j, 0 <= j <= 31 /\ n = 2 ^ j.
Lemma power_start n h : power n -> 0 <= start n h < n.
Proof. intros (j & Hj & ->). apply start_range, Hj. Qed.
Lemma power_IsPowerOfTwo n : power n -> IsPowerOfTwo n = true.
Proof.
  intros (j & Hj & ->). unfold IsPowerOfTwo. pose proof (Z.pow_pos_nonneg 2 j ltac:(lia) ltac:(lia)).
  pose proof (Z.pow_le_mono_r 2 j 31 ltac:(lia) ltac:(lia)).
  rewrite uN_small by (unfold is_uN; lia). apply has_single_bit_pow2; [lia|]. exists j. lia.
Qed.
Lemma power_bounds n : power n -> 1 <= n <= 2 ^ 31.
Proof. intros (j & Hj & ->). pose proof (Z.pow_pos_nonneg 2 j ltac:(lia) ltac:(lia)). pose proof (Z.pow_le_mono_r 2 j 31 ltac:(lia) ltac:(lia)). lia. Qed.

(** ** Probing *)

(** Where the search for [k] ends: at its entry, or at an empty one after entries that
    do not match. *)
Definition search_ends (l : list Entry) (k p : Z) : Prop :=
  0 <= p < size l /\ (forall x, before l (start (size l) (hash_of k)) x p -> present (entry l x) = true /\ match_ k (key (entry l x)) = false) /\
  (present (entry l p) = true -> match_ k (key (entry l p)) = true).

Lemma Probe_loop_ends l k : table l -> power (size l) -> count l < size l ->
  forall fuel p, 0 <= p < size l ->
    (forall x, before l (start (size l) (hash_of k)) x p -> present (entry l x) = true /\ match_ k (key (entry l x)) = false) ->
    size l - dist (size l) (start (size l) (hash_of k)) p < Z.of_nat fuel ->
    returns (search_ends l k) (Probe_loop match_ fuel l (size l) k (hash_of k) p).
Proof.
  intros T P C. pose proof (power_start _ (hash_of k) P) as S. set (s := start (size l) (hash_of k)) in *.
  destruct (has_empty l C) as (z & Hz & Ez).
  induction fuel as [|fuel IH]; intros p Hp B F; [pose proof (dist_range _ s p S Hp); lia|].
  cbn [Probe_loop]. rewrite (get_item empty) by exact Hp. cbn [rbind]. fold (present (entry l p)).
  destruct (present (entry l p)) eqn:E; cbn [andb].
  2: { apply returns_done. split; [exact Hp|split; [exact B|congruence]]. }
  destruct (match_ k (key (entry l p))) eqn:M.
  { rewrite (hashed l T p Hp E), <- (match_hash HH _ _ M), Z.eqb_refl. cbn [negb orb].
    apply returns_done. split; [exact Hp|split; [exact B|auto]]. }
  cbn [negb]. rewrite orb_true_r.
  assert (D : dist (size l) s p < size l - 1).
  { destruct (Z.lt_ge_cases (dist (size l) s z) (dist (size l) s p)) as [L|L].
    - destruct (B z (conj Hz L)). congruence.
    - destruct (Z.eq_dec (dist (size l) s z) (dist (size l) s p)) as [Q|Q]; [apply dist_inj in Q; [congruence|lia..]|].
      pose proof (dist_range _ s z S Hz). lia. }
  apply IH; [apply advance_range, Hp| |rewrite dist_advance by assumption; lia].
  intros x [Hx L]. rewrite dist_advance in L by assumption.
  destruct (Z.eq_dec (dist (size l) s x) (dist (size l) s p)) as [Q|Q].
  - apply dist_inj in Q; [subst; auto|lia..].
  - apply B. split; [exact Hx|lia].
Qed.

(** An entry that matches is where the search ends. *)
Lemma search_finds l k p i : table l -> power (size l) -> search_ends l k p ->
  0 <= i < size l -> present (entry l i) = true -> match_ k (key (entry l i)) = true -> i = p.
Proof.
  intros T P (Hp & B & E) Hi Pi M. pose proof (power_start _ (hash_of k) P) as S.
  assert (Q : begin l i = start (size l) (hash_of k)) by (unfold begin; rewrite (hashed l T i Hi Pi), (match_hash HH _ _ M); reflexivity).
  set (s := start (size l) (hash_of k)) in *.
  destruct (Z.lt_trichotomy (dist (size l) s i) (dist (size l) s p)) as [L|[L|L]].
  - destruct (B i (conj Hi L)). congruence.
  - apply dist_inj in L; lia.
  - assert (present (entry l p) = true) as Pp by (apply (reached l T i p Hi Pi); rewrite Q; split; assumption).
    apply (distinct l T i p Hi Hp Pi Pp). rewrite <- (match_trans HH (key (entry l i)) k (key (entry l p)));
      [reflexivity|rewrite (match_sym HH); exact M|exact (E Pp)].
Qed.

(** ** The finite map of a table *)

(** [p] is the entry of [k]. *)
Definition points (l : list Entry) (k p : Z) : Prop := 0 <= p < size l /\ present (entry l p) = true /\ match_ k (key (entry l p)) = true.
Definition represented (l : list Entry) (f : Z -> option Z) : Prop :=
  forall k v, k <> nullptr -> (f k = Some v <-> exists p, points l k p /\ value (entry l p) = v).
Definition updated (f : Z -> option Z) (k v : Z) : Z -> option Z := fun k' => if match_ k k' then Some v else f k'.
Definition removed (f : Z -> option Z) (k : Z) : Z -> option Z := fun k' => if match_ k k' then None else f k'.

Lemma represented_same l f g : (forall k, k <> nullptr -> f k = g k) -> represented l f -> represented l g.
Proof. intros E H k v K. rewrite <- (E k K). apply H, K. Qed.
Lemma search_absent l f k p : table l -> power (size l) -> represented l f -> k <> nullptr -> search_ends l k p ->
  present (entry l p) = false -> f k = None.
Proof.
  intros T P R K S E. destruct (f k) as [v|] eqn:F; [|reflexivity]. apply R in F as (i & (Hi & Pi & M) & _); [|exact K].
  rewrite (search_finds l k p i T P S Hi Pi M) in Pi. congruence.
Qed.
Lemma search_present l k p : search_ends l k p -> present (entry l p) = true -> points l k p.
Proof. intros (Hp & _ & M) E. split; auto. Qed.
Lemma points_value l f k p : table l -> represented l f -> k <> nullptr -> points l k p -> f k = Some (value (entry l p)).
Proof. intros T R K H. apply R; [exact K|]. eauto. Qed.
Lemma points_unique l k p q : table l -> points l k p -> points l k q -> p = q.
Proof.
  intros T (Hp & Pp & Mp) (Hq & Pq & Mq). apply (distinct l T); auto.
  apply (match_trans HH _ k); [rewrite (match_sym HH)|]; assumption.
Qed.

Lemma add_table l k v p : table l -> power (size l) -> k <> nullptr -> search_ends l k p -> present (entry l p) = false ->
  table (upd l p (mkEntry k v (hash_of k))).
Proof.
  intros T P K S E. pose proof S as (Hp & B & _). set (e := mkEntry k v (hash_of k)).
  assert (N : forall i, 0 <= i < size l -> present (entry l i) = true -> match_ k (key (entry l i)) = true -> False).
  { intros i Hi Pi M. pose proof (search_finds l k p i T P S Hi Pi M). subst. congruence. }
  constructor; rewrite ?size_upd.
  - intros i Hi. rewrite item_upd by assumption. destruct (Z.eqb_spec i p); [reflexivity|]. apply (hashed l T i Hi).
  - intros i j Hi Hj. rewrite !item_upd by assumption. destruct (Z.eqb_spec i p), (Z.eqb_spec j p); intros Pi Pj M; subst; try reflexivity.
    + exfalso. exact (N j Hj Pj M).
    + exfalso. rewrite (match_sym HH) in M. exact (N i Hi Pi M).
    + exact (distinct l T i j Hi Hj Pi Pj M).
  - intros i x Hi Pi [Hx L]. unfold begin in L. rewrite size_upd in *. rewrite item_upd in * by assumption.
    destruct (Z.eqb_spec x p); [cbn; apply negb_true_iff, Z.eqb_neq, K|]. destruct (Z.eqb_spec i p).
    + subst i. apply (B x). split; assumption.
    + apply (reached l T i x Hi Pi). split; assumption.
Qed.
Lemma add_represented l f k v p : table l -> power (size l) -> represented l f -> k <> nullptr -> search_ends l k p -> present (entry l p) = false ->
  represented (upd l p (mkEntry k v (hash_of k))) (updated f k v).
Proof.
  intros T P R K S E k' w K'. pose proof S as (Hp & B & _). unfold points. rewrite size_upd. unfold updated.
  destruct (match_ k k') eqn:M.
  - split.
    + intros [= ->]. exists p. rewrite item_upd, Z.eqb_refl by assumption. repeat split; try lia; cbn; [apply negb_true_iff, Z.eqb_neq, K|].
      rewrite (match_sym HH). exact M.
    + intros (q & (Hq & Pq & Mq) & V). rewrite item_upd in * by assumption. destruct (Z.eqb_spec q p); [cbn in V; congruence|].
      exfalso. pose proof (search_finds l k p q T P S Hq Pq (match_trans HH _ _ _ M Mq)). contradiction.
  - rewrite (R k' w K'). split; intros (q & (Hq & Pq & Mq) & V); exists q; rewrite item_upd in * by assumption.
    + destruct (Z.eqb_spec q p); [subst; congruence|]. unfold points. auto.
    + destruct (Z.eqb_spec q p); [|unfold points; auto]. cbn in Mq. rewrite (match_sym HH) in Mq. congruence.
Qed.
Lemma write_table l p v : table l -> 0 <= p < size l -> table (upd l p (with_value (entry l p) v)).
Proof.
  intros T Hp.
  assert (S : forall i, 0 <= i < size l -> key (entry (upd l p (with_value (entry l p) v)) i) = key (entry l i) /\
                                       hash (entry (upd l p (with_value (entry l p) v)) i) = hash (entry l i)).
  { intros i Hi. rewrite item_upd by assumption. destruct (Z.eqb_spec i p); subst; auto. }
  assert (Q : forall i, 0 <= i < size l -> present (entry (upd l p (with_value (entry l p) v)) i) = present (entry l i)).
  { intros i Hi. unfold present. rewrite (proj1 (S i Hi)). reflexivity. }
  constructor; rewrite ?size_upd.
  - intros i Hi Pi. rewrite (proj1 (S i Hi)), (proj2 (S i Hi)). rewrite Q in Pi by assumption. apply (hashed l T i Hi Pi).
  - intros i j Hi Hj Pi Pj. rewrite Q in Pi, Pj by assumption. rewrite (proj1 (S i Hi)), (proj1 (S j Hj)). apply (distinct l T); assumption.
  - intros i x Hi Pi [Hx L]. unfold begin in L. rewrite size_upd, (proj2 (S i Hi)) in *. rewrite Q in * by assumption.
    apply (reached l T i x Hi Pi). split; assumption.
Qed.
Lemma write_represented l f k p v : table l -> represented l f -> points l k p ->
  represented (upd l p (with_value (entry l p) v)) (updated f k v).
Proof.
  intros T R H k' w K'. pose proof H as (Hp & Pp & Mp). unfold points. rewrite size_upd. unfold updated.
  destruct (match_ k k') eqn:M.
  - assert (points l k' p) as H' by (split; [|split]; auto; apply (match_trans HH _ k); [rewrite (match_sym HH)|]; assumption).
    split.
    + intros [= ->]. exists p. rewrite item_upd, Z.eqb_refl by assumption. destruct H' as (? & ? & ?). auto.
    + intros (q & (Hq & Pq & Mq) & V). rewrite item_upd in * by assumption. destruct (Z.eqb_spec q p); [cbn in V; congruence|].
      exfalso. apply n. apply (points_unique l k'); [assumption| |exact H']. split; auto.
  - rewrite (R k' w K'). split; intros (q & (Hq & Pq & Mq) & V); exists q; rewrite item_upd in * by assumption.
    + destruct (Z.eqb_spec q p) as [->|]; [|unfold points; auto]. exfalso.
      assert (match_ k k' = true); [|congruence]. apply (match_trans HH _ (key (entry l p))); [|rewrite (match_sym HH)]; assumption.
    + destruct (Z.eqb_spec q p) as [->|]; [|unfold points; auto]. exfalso. cbn in Mq.
      assert (match_ k k' = true); [|congruence]. apply (match_trans HH _ (key (entry l p))); [|rewrite (match_sym HH)]; assumption.
Qed.

(** ** Maps *)
Record wf (m : t) : Prop := {
  wf_table : table (map_ m);
  wf_power : power (capacity_ m);
  wf_size : size (map_ m) = capacity_ m;
  wf_count : occupancy_ m = count (map_ m);
  wf_load : occupancy_ m + occupancy_ m / 4 < capacity_ m }.
Definition represents (m : t) (f : Z -> option Z) : Prop := wf m /\ represented (map_ m) f.

Lemma wf_room m : wf m -> 0 <= occupancy_ m < capacity_ m.
Proof.
  intros W. pose proof (wf_load m W). pose proof (count_bounds (map_ m)). rewrite <- (wf_count m W) in *.
  pose proof (Z.div_pos (occupancy_ m) 4). lia.
Qed.
Lemma Probe_ends m k : wf m -> k <> nullptr -> returns (search_ends (map_ m) k) (Probe match_ k (hash_of k) m).
Proof.
  intros W K. unfold Probe. rewrite (proj2 (Z.eqb_neq _ _) K), (power_IsPowerOfTwo _ (wf_power m W)). cbn [negb].
  pose proof (power_start _ (hash_of k) (wf_power m W)) as S. pose proof (wf_room m W).
  replace (_ && _) with true by lia. replace (occupancy_ m <? capacity_ m) with true by lia.
  pose proof (wf_size m W) as E. rewrite <- E in S |- *.
  apply Probe_loop_ends; [apply W|rewrite E; apply W|rewrite E, <- (wf_count m W); lia|exact S| |].
  - intros x [Hx L]. rewrite dist_self in L. pose proof (dist_range _ _ x S Hx). lia.
  - rewrite dist_self. unfold size. lia.
Qed.

(** What [Lookup] does to a map that has no entry for the key and room for one. *)
Definition added (m m' : t) (f : Z -> option Z) (k : Z) (r : option Z) : Prop :=
  exists p, r = Some p /\ points (map_ m') k p /\ represents m' (updated f k nullptr) /\
    occupancy_ m' = occupancy_ m + 1.

Lemma Lookup_present d m f k insert : represents m f -> k <> nullptr -> f k <> None ->
  exists p, Lookup_at match_ (S d) k (hash_of k) insert m = Done (Some p, m) /\ points (map_ m) k p.
Proof.
  intros [W R] K F. cbn [Lookup_at]. destruct (Probe_ends m k W K) as (p & -> & S). cbn [rbind].
  rewrite (get_item empty) by apply S. cbn [rbind]. fold (present (entry (map_ m) p)). destruct (present (entry (map_ m) p)) eqn:E.
  - exists p. split; [reflexivity|]. apply search_present; assumption.
  - exfalso. apply F, (search_absent (map_ m) f k p); auto; [apply W|rewrite (wf_size m W); apply W].
Qed.
Lemma Lookup_absent d m f k : represents m f -> k <> nullptr -> f k = None -> Lookup_at match_ (S d) k (hash_of k) false m = Done (None, m).
Proof.
  intros [W R] K F. cbn [Lookup_at]. destruct (Probe_ends m k W K) as (p & -> & S). cbn [rbind].
  rewrite (get_item empty) by apply S. cbn [rbind]. fold (present (entry (map_ m) p)). destruct (present (entry (map_ m) p)) eqn:E; [|reflexivity].
  pose proof (points_value _ f k p (wf_table m W) R K (search_present _ _ _ S E)). congruence.
Qed.

(** The array after the new entry is in, before a possible [Resize]. *)
Lemma Lookup_inserts d m f k : represents m f -> k <> nullptr -> f k = None ->
  exists p, let l := upd (map_ m) p (mkEntry k nullptr (hash_of k)) in
    let m' := mk l (capacity_ m) (occupancy_ m + 1) in
    points l k p /\ table l /\ represented l (updated f k nullptr) /\ count l = count (map_ m) + 1 /\ size l = capacity_ m /\
    Lookup_at match_ (S d) k (hash_of k) true m =
      if occupancy_ m + 1 + (occupancy_ m + 1) / 4 >=? capacity_ m
      then let* m' := Resize (Lookup_at match_ d) m' in let* p := Probe match_ k (hash_of k) m' in Done (Some p, m')
      else Done (Some p, m').
Proof.
  intros [W R] K F. destruct (Probe_ends m k W K) as (p & EP & S). exists p. cbn zeta.
  pose proof (wf_size m W) as Z. assert (power (size (map_ m))) as P by (rewrite Z; apply W).
  pose proof (power_bounds _ P) as PB. pose proof (wf_room m W) as RM. rewrite <- Z in *.
  assert (E : present (entry (map_ m) p) = false).
  { destruct (present _) eqn:E; [|reflexivity]. pose proof (points_value _ f k p (wf_table m W) R K (search_present _ _ _ S E)). congruence. }
  pose proof S as (Hp & _). split; [|split; [|split; [|split; [|split]]]].
  - split; [rewrite size_upd; exact Hp|]. rewrite item_upd, Z.eqb_refl by assumption. split; [apply negb_true_iff, Z.eqb_neq, K|apply (match_refl HH)].
  - apply add_table; auto; apply W.
  - apply add_represented; auto; apply W.
  - rewrite count_upd, E by assumption. unfold present, one. cbn [key]. rewrite (proj2 (Z.eqb_neq _ _) K). cbn [negb]. lia.
  - apply size_upd.
  - cbn [Lookup_at]. rewrite EP. cbn [rbind]. rewrite (get_item empty) by assumption. cbn [rbind]. fold (present (entry (map_ m) p)). rewrite E.
    rewrite set_upd by assumption. cbn [rbind map_ capacity_ occupancy_]. rewrite <- Z.
    assert (occupancy_ m + 1 + (occupancy_ m + 1) / 4 < 2 ^ 32) by (pose proof (Z.div_lt_upper_bound (occupancy_ m + 1) 4 (2 ^ 30)); lia).
    rewrite (uN_small 32 (occupancy_ m + 1)) by (unfold is_uN; lia).
    rewrite uN_small by (unfold is_uN; pose proof (Z.div_pos (occupancy_ m + 1) 4); lia). reflexivity.
Qed.

Lemma Lookup_adds d m f k : represents m f -> k <> nullptr -> f k = None ->
  occupancy_ m + 1 + (occupancy_ m + 1) / 4 < capacity_ m ->
  returns (fun '(r, m') => added m m' f k r /\ capacity_ m' = capacity_ m) (Lookup_at match_ (S d) k (hash_of k) true m).
Proof.
  intros H K F L. pose proof H as [W _]. destruct (Lookup_inserts d m f k H K F) as (p & HP & T & R & C & Z & ->).
  rewrite Z.geb_leb. replace (_ <=? _) with false by lia. apply returns_done. split; [|reflexivity].
  exists p. split; [reflexivity|]. split; [exact HP|]. split; [|reflexivity].
  split; [|exact R]. constructor; cbn [map_ capacity_ occupancy_]; auto; [apply W|]. rewrite C, (wf_count m W). reflexivity.
Qed.

(** ** Resizing *)
Lemma Initialize_represents c : power c -> exists m, Initialize c = Done m /\ represents m (fun _ => None) /\ capacity_ m = c /\ occupancy_ m = 0.
Proof.
  intros P. unfold Initialize. rewrite (power_IsPowerOfTwo c P). eexists. split; [reflexivity|].
  pose proof (power_bounds c P). assert (S : size (repeat empty (Z.to_nat c)) = c) by (apply size_repeat; lia).
  assert (E : forall i, present (entry (repeat empty (Z.to_nat c)) i) = false).
  { intros i. unfold item. rewrite nth_repeat. reflexivity. }
  split; [|auto]. split; [constructor; cbn [map_ capacity_ occupancy_]; auto|].
  - constructor; intros; rewrite E in *; discriminate.
  - unfold count. clear. induction (Z.to_nat c); [reflexivity|exact IHn].
  - cbn. lia.
  - intros k v _. split; [discriminate|]. intros (p & (_ & Q & _) & _). rewrite E in Q. discriminate.
Qed.

Lemma SetValue_represents m f k p v : represents m f -> points (map_ m) k p ->
  exists m', SetValue p v m = Done m' /\ represents m' (updated f k v) /\ capacity_ m' = capacity_ m /\ occupancy_ m' = occupancy_ m /\ points (map_ m') k p.
Proof.
  intros [W R] P. pose proof P as (Hp & Pp & Mp). unfold SetValue. rewrite (get_item empty) by assumption. cbn [rbind]. rewrite set_upd by assumption. cbn [rbind].
  eexists. split; [reflexivity|]. split; [|cbn; split; [|split]]; auto.
  - split; [|apply write_represented; [apply W|exact R|exact P]].
    constructor; cbn [map_ capacity_ occupancy_].
    + apply write_table; [apply W|exact Hp].
    + apply W.
    + rewrite size_upd. exact (wf_size m W).
    + rewrite count_upd by assumption. change (present (with_value _ _)) with (present (entry (map_ m) p)). rewrite (wf_count m W). lia.
    + apply W.
  - split; [rewrite size_upd; exact Hp|]. rewrite item_upd, Z.eqb_refl by assumption. auto.
Qed.

Lemma count_app a b : count (a ++ b) = count a + count b.
Proof. unfold count. rewrite filter_app. sizes. Qed.
Lemma entry_mid a e b : entry (a ++ e :: b) (size a) = e.
Proof. unfold item, size. rewrite Nat2Z.id, app_nth2, Nat.sub_diag by lia. reflexivity. Qed.
(** The entries of a part of a table have no duplicates. *)
Lemma prefix_absent a e b f : table (a ++ e :: b) -> present e = true -> represented a f -> f (key e) = None.
Proof.
  intros T P R. destruct (f (key e)) as [v|] eqn:F; [|reflexivity].
  apply R in F as (p & (Hp & Pp & M) & _); [|apply negb_true_iff, Z.eqb_neq in P; exact P].
  assert (Q : entry (a ++ e :: b) p = entry a p) by (unfold item, size in *; rewrite app_nth1 by lia; reflexivity).
  pose proof (distinct _ T p (size a)) as D. rewrite Q, entry_mid in D.
  rewrite (match_sym HH) in M. assert (p = size a) by (apply D; [sizes|sizes|assumption|assumption|assumption]). lia.
Qed.
Lemma represented_snoc a e f : (present e = true -> f (key e) = None) -> represented a f ->
  represented (a ++ [e]) (if present e then updated f (key e) (value e) else f).
Proof.
  intros N R k v K. unfold points.
  assert (Q : forall p, 0 <= p < size a -> entry (a ++ [e]) p = entry a p) by (intros p Hp; unfold item, size in *; rewrite app_nth1 by lia; reflexivity).
  assert (L : forall p, 0 <= p < size (a ++ [e]) -> p = size a \/ 0 <= p < size a) by (intros p; sizes).
  destruct (present e) eqn:P.
  - unfold updated. destruct (match_ (key e) k) eqn:M.
    + split.
      * intros [= <-]. exists (size a). rewrite entry_mid, (match_sym HH). repeat split; auto; sizes.
      * intros (p & (Hp & Pp & Mp) & V). destruct (L p Hp) as [->|Hp']; [rewrite entry_mid in V; congruence|]. exfalso.
        rewrite Q in * by assumption. assert (f (key e) = Some (value (entry a p))) as F; [|rewrite N in F; [discriminate|reflexivity]].
        apply R; [apply negb_true_iff, Z.eqb_neq in P; exact P|]. exists p. split; [|reflexivity]. split; [assumption|split; [assumption|]].
        exact (match_trans HH _ _ _ M Mp).
    + rewrite (R k v K). split; intros (p & (Hp & Pp & Mp) & V).
      * exists p. rewrite Q by assumption. repeat split; auto; sizes.
      * destruct (L p Hp) as [->|Hp']; [rewrite entry_mid, (match_sym HH) in Mp; congruence|]. rewrite Q in * by assumption. exists p. unfold points. auto.
  - rewrite (R k v K). split; intros (p & (Hp & Pp & Mp) & V).
    + exists p. rewrite Q by assumption. repeat split; auto; sizes.
    + destruct (L p Hp) as [->|Hp']; [rewrite entry_mid in Pp; congruence|]. rewrite Q in * by assumption. exists p. unfold points. auto.
Qed.
Lemma count_cons e b : count (e :: b) = one (present e) + count b.
Proof. unfold count, one. cbn [filter]. destruct (present e); sizes. Qed.
Lemma represented_empty_tail b : forall a f, count b = 0 -> represented a f -> represented (a ++ b) f.
Proof.
  induction b as [|e b IH]; intros a f C R; [rewrite app_nil_r; exact R|].
  rewrite count_cons in C. pose proof (count_bounds b). unfold one in C.
  destruct (present e) eqn:P; [lia|]. change (e :: b) with ([e] ++ b). rewrite app_assoc. apply IH; [lia|].
  pose proof (represented_snoc a e f ltac:(congruence) R) as Q. rewrite P in Q. exact Q.
Qed.
Lemma represented_unique l f g k : represented l f -> represented l g -> k <> nullptr -> f k = g k.
Proof.
  intros F G K. destruct (f k) as [v|] eqn:E.
  - symmetry. apply G, F; assumption.
  - destruct (g k) as [v|] eqn:E'; [|reflexivity]. apply G, F in E'; [congruence|assumption..].
Qed.

(** The loop of [Resize], with the entries of [a] already in the new map. *)
Lemma Resize_loop_moves d old c : table old -> count old + count old / 4 < c ->
  forall b a fuel m f, old = a ++ b -> represents m f -> represented a f -> occupancy_ m = count a -> capacity_ m = c -> (length b < fuel)%nat ->
  returns (fun m' => exists g, represents m' g /\ represented old g /\ capacity_ m' = c /\ occupancy_ m' = count old)
    (Resize_loop (Lookup_at match_ (S d)) fuel old (size a) (count b) m).
Proof.
  intros T L. induction b as [|e b IH]; intros a fuel m f E RM RA O C F; (destruct fuel as [|fuel]; [cbn in F; lia|]); cbn [Resize_loop].
  - rewrite app_nil_r in E. subst. change (count []) with 0. rewrite Z.eqb_refl. apply returns_done. eauto.
  - destruct (Z.eqb_spec (count (e :: b)) 0) as [N|N].
    { apply returns_done. exists f. rewrite E. split; [exact RM|]. split; [apply represented_empty_tail; assumption|]. rewrite count_app. split; [exact C|lia]. }
    rewrite E, get_mid by reflexivity. cbn [rbind]. fold (present e).
    rewrite count_cons. unfold one.
    assert (E' : old = (a ++ [e]) ++ b) by (rewrite <- app_assoc; exact E).
    replace (size a + 1) with (size (a ++ [e])) by sizes. rewrite <- E.
    destruct (present e) eqn:P.
    + assert (FN : f (key e) = None) by (rewrite E in T; apply (prefix_absent a e b); assumption).
      assert (HE : hash e = hash_of (key e)).
      { pose proof (hashed _ T (size a)) as H. rewrite E, entry_mid in H. apply H; [sizes|exact P]. }
      assert (K : key e <> nullptr) by (apply negb_true_iff, Z.eqb_neq in P; exact P).
      rewrite HE. eapply returns_bind.
      { apply Lookup_adds; [exact RM|exact K|exact FN|]. rewrite C, O. rewrite E, count_app in L.
        rewrite count_cons, P in L. unfold one in L. pose proof (count_bounds b).
        pose proof (Z.div_le_mono (count a + 1) (count a + (1 + count b)) 4). lia. }
      intros [r m'] [(p & -> & PP & R' & O') C']. destruct (SetValue_represents m' _ _ p (value e) R' PP) as (m'' & -> & R'' & C'' & O'' & _). cbn [rbind].
      replace (1 + count b - 1) with (count b) by lia.
      apply (IH (a ++ [e]) fuel m'' (updated f (key e) (value e))); auto.
      * destruct R'' as [W'' R'']. split; [exact W''|]. revert R''. apply represented_same. intros k _. unfold updated. destruct (match_ (key e) k); reflexivity.
      * pose proof (represented_snoc a e f (fun _ => FN) RA) as Q. rewrite P in Q. exact Q.
      * rewrite count_app, count_cons, P. change (count []) with 0. unfold one. lia.
      * congruence.
      * cbn in F. lia.
    + replace (0 + count b) with (count b) by lia. apply (IH (a ++ [e]) fuel m f); auto.
      * pose proof (represented_snoc a e f ltac:(congruence) RA) as Q. rewrite P in Q. exact Q.
      * rewrite count_app, count_cons, P. change (count []) with 0. unfold one. lia.
      * cbn in F. lia.
Qed.

Lemma Resize_represents d l f : table l -> power (size l) -> size l <= 2 ^ 30 -> represented l f ->
  returns (fun m => represents m f /\ occupancy_ m = count l) (Resize (Lookup_at match_ (S d)) (mk l (size l) (count l))).
Proof.
  intros T P B R. unfold Resize. cbn [map_ capacity_ occupancy_]. pose proof (power_bounds _ P).
  rewrite uN_small by (unfold is_uN; lia). assert (power (size l * 2)) as P2.
  { destruct P as (j & Hj & E). exists (j + 1). rewrite Z.pow_add_r, <- E by lia. split; [|lia].
    split; [lia|]. apply Z.nlt_ge. intros G. assert (j = 31) by lia. subst j. rewrite E in B. lia. }
  destruct (Initialize_represents _ P2) as (m & -> & RM & C & O). cbn [rbind]. pose proof (count_bounds l).
  eapply returns_weaken.
  - apply (Resize_loop_moves d l (size l * 2) T) with (b := l) (a := []) (f := fun _ => None); auto.
    + pose proof (Z.div_lt_upper_bound (count l) 4 (size l)). lia.
    + intros k v _. split; [discriminate|]. intros (p & ((Hp0 & Hp) & _) & _). unfold size in Hp. cbn in Hp. lia.
  - intros m' (g & [W G] & R' & _ & O'). split; [|exact O']. split; [exact W|]. revert G. apply represented_same. intros k K.
    apply (represented_unique l); assumption.
Qed.

(** [Lookup] with [insert] on any map below the largest capacity. *)
Lemma Lookup_creates m f k : represents m f -> k <> nullptr -> f k = None -> capacity_ m <= 2 ^ 30 ->
  returns (fun '(r, m') => added m m' f k r) (Lookup match_ k (hash_of k) true m).
Proof.
  intros H K F B. pose proof H as [W _]. unfold Lookup.
  destruct (Z.lt_ge_cases (occupancy_ m + 1 + (occupancy_ m + 1) / 4) (capacity_ m)) as [L|L].
  { eapply returns_weaken; [apply (Lookup_adds 1 m f k); assumption|]. intros [r m'] [A _]. exact A. }
  destruct (Lookup_inserts 1 m f k H K F) as (p & HP & T & R & C & Z & ->). rewrite Z.geb_leb. replace (_ <=? _) with true by lia.
  rewrite (wf_count m W), <- C, <- Z. eapply returns_bind.
  { apply Resize_represents; [exact T|rewrite Z; apply W|rewrite Z; exact B|exact R]. }
  intros m' [R' O']. pose proof R' as [W' Q']. destruct (Probe_ends m' k W' K) as (q & -> & S). apply returns_done. exists q.
  split; [reflexivity|]. assert (points (map_ m') k q) as PQ.
  { apply search_present; [exact S|]. destruct (present _) eqn:E; [reflexivity|]. exfalso.
    assert (updated f k nullptr k = None) as N by (apply (search_absent (map_ m') _ k q); auto; [apply W'|rewrite (wf_size m' W'); apply W']).
    unfold updated in N. rewrite (match_refl HH) in N. discriminate. }
  split; [exact PQ|]. split; [exact R'|]. rewrite O', C, <- (wf_count m W). reflexivity.
Qed.

(** ** Removal *)

(** While [Remove] looks for an entry to fill the one at [c], which counts as free: the
    search for an entry past [nx] may go through it, that for one between [c] and [nx]
    does not. *)
Record holed (l : list Entry) (c nx : Z) : Prop := {
  h_hashed : forall i, 0 <= i < size l -> i <> c -> present (entry l i) = true -> hash (entry l i) = hash_of (key (entry l i));
  h_distinct : forall i j, 0 <= i < size l -> 0 <= j < size l -> i <> c -> j <> c -> present (entry l i) = true -> present (entry l j) = true ->
    match_ (key (entry l i)) (key (entry l j)) = true -> i = j;
  h_reached : forall i x, 0 <= i < size l -> i <> c -> present (entry l i) = true -> before l (begin l i) x i ->
    present (entry l x) = true /\ (x = c -> dist (size l) c nx < dist (size l) c i);
  h_present : present (entry l c) = true }.
(** The entries but the one at [c]. *)
Definition kept (l : list Entry) (c : Z) (e : Entry) : Prop := exists i, 0 <= i < size l /\ i <> c /\ present (entry l i) = true /\ entry l i = e.

Lemma table_holed l c : table l -> 0 <= c < size l -> present (entry l c) = true -> holed l c c.
Proof.
  intros T Hc P. constructor; auto.
  - intros i Hi _. apply (hashed l T i Hi).
  - intros i j Hi Hj _ _. apply (distinct l T); assumption.
  - intros i x Hi N Pi B. split; [apply (reached l T i x); assumption|]. intros ->. around.
Qed.

Definition clear_at (l : list Entry) (c : Z) : list Entry := upd l c (with_key (entry l c) nullptr).
Lemma entry_clear_at l c i : 0 <= c < size l -> 0 <= i < size l -> present (entry (clear_at l c) i) = true -> i <> c /\ present (entry l i) = true /\ entry (clear_at l c) i = entry l i.
Proof. intros Hc Hi. unfold clear_at. rewrite item_upd by assumption. destruct (Z.eqb_spec i c); [discriminate|auto]. Qed.
Lemma entry_kept_at l c i : 0 <= c < size l -> 0 <= i < size l -> i <> c -> entry (clear_at l c) i = entry l i.
Proof. intros Hc Hi N. unfold clear_at. rewrite item_upd by assumption. destruct (Z.eqb_spec i c); [contradiction|reflexivity]. Qed.

(** When the entry after [nx] is empty, the one at [c] can be cleared. *)
Lemma holed_clear l c nx : power (size l) -> 0 <= c < size l -> 0 <= nx < size l -> holed l c nx ->
  present (entry l (advance (size l) nx)) = false -> dist (size l) c nx < size l - 1 -> table (clear_at l c).
Proof.
  intros P Hc Hn H E D. assert (S : size (clear_at l c) = size l) by apply size_upd.
  constructor; unfold begin; rewrite ?S.
  - intros i Hi Pi. apply entry_clear_at in Pi as (N & Pi & ->); [|assumption..]. apply (h_hashed l c nx H); assumption.
  - intros i j Hi Hj Pi Pj. apply entry_clear_at in Pi as (Ni & Pi & ->); [|assumption..]. apply entry_clear_at in Pj as (Nj & Pj & ->); [|assumption..].
    apply (h_distinct l c nx H); assumption.
  - intros i x Hi Pi [Hx L]. apply entry_clear_at in Pi as (N & Pi & Q); [|assumption..]. rewrite S, Q in *. fold (begin l i) in L.
    destruct (h_reached l c nx H i x Hi N Pi (conj Hx L)) as [Px C].
    pose proof (power_start _ (hash (entry l i)) P) as B. fold (begin l i) in B.
    destruct (Z.eq_dec x c) as [->|NC]; [|rewrite entry_kept_at by assumption; exact Px].
    specialize (C eq_refl). pose proof (advance_range _ nx Hn) as A. pose proof (dist_advance (size l) c nx Hc Hn D) as DA.
    exfalso. destruct (Z.eq_dec (advance (size l) nx) i) as [<-|NI]; [congruence|].
    assert (before l (begin l i) (advance (size l) nx) i) as BF.
    { split; [exact A|]. assert (dist (size l) c (advance (size l) nx) < dist (size l) c i).
      { destruct (Z.eq_dec (dist (size l) c (advance (size l) nx)) (dist (size l) c i)) as [Q'|]; [|lia]. apply dist_inj in Q'; lia. }
      clear - L H0 A Hc Hi B. set (a := advance (size l) nx) in *. around. }
    destruct (h_reached l c nx H i _ Hi N Pi BF). congruence.
Qed.

Lemma moves_iff n c nx s : 0 <= c < n -> 0 <= nx < n -> 0 <= s < n -> c <> nx ->
  (nx >? c) && ((s <=? c) || (s >? nx)) || (nx <? c) && ((s <=? c) && (s >? nx)) = (dist n s c <? dist n s nx).
Proof.
  intros. rewrite !Z.gtb_ltb. unfold dist.
  destruct (Z.ltb_spec c nx), (Z.leb_spec s c), (Z.ltb_spec nx s), (Z.ltb_spec nx c), (Z.ltb_spec c s); cbn [andb orb]; symmetry; (apply Z.ltb_lt + apply Z.ltb_ge); lia.
Qed.

(** One turn of the loop: [nx] is the next entry, which is not empty. *)
Lemma holed_skip l c nx : power (size l) -> 0 <= c < size l -> 0 <= nx < size l -> holed l c nx -> dist (size l) c nx < size l - 1 ->
  dist (size l) (begin l (advance (size l) nx)) (advance (size l) nx) <= dist (size l) (begin l (advance (size l) nx)) c ->
  holed l c (advance (size l) nx).
Proof.
  intros P Hc Hn H D L. pose proof (advance_range _ nx Hn) as A. constructor; try apply H. intros i x Hi N Pi B. destruct (h_reached l c nx H i x Hi N Pi B) as [Px C]. split; [exact Px|].
  intros E. specialize (C E). rewrite dist_advance by assumption. subst x.
  destruct (Z.eq_dec (dist (size l) c i) (dist (size l) c nx + 1)) as [Q|]; [|lia]. exfalso.
  rewrite <- (dist_advance (size l) c nx Hc Hn D) in Q. apply dist_inj in Q; [|assumption..]. subst i. destruct B as [_ B]. lia.
Qed.
Lemma holed_move l c n0 nx : power (size l) -> 0 <= c < size l -> 0 <= nx < size l -> nx <> c -> holed l c n0 -> present (entry l nx) = true ->
  dist (size l) (begin l nx) c < dist (size l) (begin l nx) nx -> holed (upd l c (entry l nx)) nx nx.
Proof.
  intros P Hc Hn NC H Pn L. assert (S : size (upd l c (entry l nx)) = size l) by apply size_upd.
  constructor; unfold begin; rewrite ?S.
  - intros i Hi N. rewrite item_upd by assumption. destruct (Z.eqb_spec i c); intros Pi; [apply (h_hashed l c n0 H); auto|apply (h_hashed l c n0 H); assumption].
  - intros i j Hi Hj Ni Nj. rewrite !item_upd by assumption. destruct (Z.eqb_spec i c), (Z.eqb_spec j c); intros Pi Pj M; subst; auto.
    + exfalso. apply Nj. symmetry. apply (h_distinct l c n0 H nx j); auto.
    + exfalso. apply Ni. apply (h_distinct l c n0 H i nx); auto.
    + apply (h_distinct l c n0 H); assumption.
  - intros i x Hi N Pi [Hx B]. rewrite S in *. split.
    + rewrite item_upd in * by assumption. destruct (Z.eqb_spec x c); [exact Pn|].
      destruct (Z.eqb_spec i c) as [->|NI].
      * apply (h_reached l c n0 H nx x); auto. split; [exact Hx|]. unfold begin in *. lia.
      * apply (h_reached l c n0 H i x); auto. split; [exact Hx|exact B].
    + intros ->. rewrite dist_self. pose proof (dist_range (size l) nx i Hn Hi).
      destruct (Z.eq_dec (dist (size l) nx i) 0) as [Q|]; [|lia]. rewrite <- (dist_self (size l) nx) in Q. apply dist_inj in Q; [contradiction|assumption..].
  - rewrite item_upd by assumption. destruct (Z.eqb_spec nx c); [contradiction|exact Pn].
Qed.
Lemma kept_move l c nx e : 0 <= c < size l -> 0 <= nx < size l -> nx <> c -> present (entry l nx) = true ->
  kept (upd l c (entry l nx)) nx e <-> kept l c e.
Proof.
  intros Hc Hn NC Pn. unfold kept. rewrite size_upd. split; intros (i & Hi & N & Pi & E).
  - rewrite item_upd in * by assumption. destruct (Z.eqb_spec i c); [exists nx|exists i]; auto.
  - destruct (Z.eq_dec i nx) as [->|NI].
    + exists c. rewrite item_upd, Z.eqb_refl by assumption. repeat split; auto; lia.
    + exists i. rewrite item_upd by assumption. destruct (Z.eqb_spec i c); [contradiction|]. auto.
Qed.

Lemma Remove_loop_ends : forall fuel l c nx z, power (size l) -> 0 <= c < size l -> 0 <= nx < size l -> 0 <= z < size l ->
  holed l c nx -> present (entry l z) = false -> dist (size l) c nx < dist (size l) c z -> dist (size l) nx z < Z.of_nat fuel ->
  returns (fun '(l', c') => size l' = size l /\ 0 <= c' < size l /\ count l' = count l /\ present (entry l' c') = true /\
    (forall e, kept l' c' e <-> kept l c e) /\ table (clear_at l' c')) (Remove_loop fuel l (size l) c nx).
Proof.
  induction fuel as [|fuel IH]; intros l c nx z P Hc Hn Hz H Ez D F; [pose proof (dist_range _ nx z Hn Hz); lia|].
  cbn [Remove_loop]. replace (if nx + 1 =? size l then 0 else nx + 1) with (advance (size l) nx)
    by (unfold advance; rewrite Z.geb_leb; destruct (Z.eqb_spec (nx + 1) (size l)), (Z.leb_spec (size l) (nx + 1)); lia).
  pose proof (dist_range _ c z Hc Hz) as DZ. pose proof (advance_range _ nx Hn) as A. pose proof (dist_advance _ c nx Hc Hn ltac:(lia)) as DA.
  assert (DN : dist (size l) nx z = dist (size l) (advance (size l) nx) z + 1) by (clear - D Hc Hn Hz; around).
  rewrite (get_item empty) by exact A. cbn [rbind]. rewrite <- (negb_involutive (key (entry l (advance (size l) nx)) =? nullptr)). fold (present (entry l (advance (size l) nx))).
  destruct (present (entry l (advance (size l) nx))) eqn:E; cbn [negb].
  2: { apply returns_done. split; [reflexivity|split; [exact Hc|split; [reflexivity|split; [apply H|split; [reflexivity|]]]]]. apply (holed_clear l c nx); auto; lia. }
  assert (NZ : advance (size l) nx <> z) by congruence.
  assert (NC : advance (size l) nx <> c) by (intros Q; rewrite Q, dist_self in DA; pose proof (dist_range _ c nx Hc Hn); lia).
  assert (D' : dist (size l) c (advance (size l) nx) < dist (size l) c z).
  { destruct (Z.eq_dec (dist (size l) c (advance (size l) nx)) (dist (size l) c z)) as [Q|]; [|lia]. apply dist_inj in Q; [contradiction|assumption..]. }
  pose proof (power_start _ (hash (entry l (advance (size l) nx))) P) as B. fold (begin l (advance (size l) nx)) in *.
  rewrite (moves_iff (size l)) by (assumption || congruence). set (a := advance (size l) nx) in *.
  destruct (Z.ltb_spec (dist (size l) (begin l a) c) (dist (size l) (begin l a) a)) as [L|L].
  - rewrite set_upd by assumption. cbn [rbind]. rewrite <- (size_upd l c (entry l a)).
    assert (HM : holed (upd l c (entry l a)) a a).
    { apply (holed_move l c nx a); auto. }
    eapply returns_weaken.
    + apply (IH (upd l c (entry l a)) a a z); rewrite ?size_upd; auto; [|rewrite dist_self|lia].
      * rewrite item_upd by assumption. destruct (Z.eqb_spec z c) as [->|]; [rewrite (h_present l c nx H) in Ez; discriminate|exact Ez].
      * pose proof (dist_range _ a z A Hz). destruct (Z.eq_dec (dist (size l) a z) 0) as [Q|]; [|lia]. rewrite <- (dist_self (size l) a) in Q. apply dist_inj in Q; congruence.
    + intros [l' c']. rewrite size_upd, count_upd, E, (h_present l c nx H) by assumption. intros (S' & C' & N' & P' & K' & T').
      split; [exact S'|split; [exact C'|split; [lia|split; [exact P'|split; [|exact T']]]]]. intros e. rewrite K'. apply kept_move; assumption.
  - apply (IH l c a z); auto; [|lia]. apply holed_skip; auto; lia.
Qed.

Lemma represented_kept l c k v : 0 <= c < size l ->
  (exists p, points (clear_at l c) k p /\ value (entry (clear_at l c) p) = v) <-> (exists e, kept l c e /\ match_ k (key e) = true /\ value e = v).
Proof.
  intros Hc. unfold points. assert (S : size (clear_at l c) = size l) by apply size_upd. rewrite S. split.
  - intros (p & (Hp & Pp & M) & V). apply entry_clear_at in Pp as (N & Pp & Q); [|assumption..]. rewrite Q in *.
    exists (entry l p). split; [|auto]. exists p. auto.
  - intros (e & (p & Hp & N & Pp & <-) & M & V). exists p. rewrite entry_kept_at by assumption. auto.
Qed.
Lemma represented_match l f a b : represented l f -> a <> nullptr -> b <> nullptr -> match_ a b = true -> f a = f b.
Proof.
  intros R A B M. assert (Q : forall p, points l a p <-> points l b p).
  { intros p. unfold points. split; intros (Hp & Pp & N); (split; [exact Hp|split; [exact Pp|]]); eapply (match_trans HH); eauto. rewrite (match_sym HH). exact M. }
  destruct (f a) as [v|] eqn:E.
  - symmetry. apply R; [exact B|]. apply R in E as (p & H & V); [|exact A]. exists p. rewrite <- Q. auto.
  - destruct (f b) as [v|] eqn:E'; [|reflexivity]. apply R in E' as (p & H & V); [|exact B]. rewrite <- Q in H.
    assert (f a = Some v) by (apply R; eauto). congruence.
Qed.
Lemma removed_represented l f k p : table l -> represented l f -> k <> nullptr -> points l k p ->
  forall k' v, k' <> nullptr -> removed f k k' = Some v <-> exists e, kept l p e /\ match_ k' (key e) = true /\ value e = v.
Proof.
  intros T R K H k' v K'. unfold removed. destruct (match_ k k') eqn:M.
  - split; [discriminate|]. intros (e & (i & Hi & N & Pi & <-) & Me & V). exfalso. apply N, (points_unique l k); auto.
    split; [exact Hi|split; [exact Pi|]]. exact (match_trans HH _ _ _ M Me).
  - rewrite (R k' v K'). split.
    + intros (i & (Hi & Pi & Me) & V). exists (entry l i). split; [|auto]. exists i. repeat split; auto; try apply Hi.
      intros ->. destruct H as (_ & _ & Mp). rewrite (match_sym HH) in Me.
      assert (match_ k k' = true) by exact (match_trans HH _ _ _ Mp Me). congruence.
    + intros (e & (i & Hi & N & Pi & <-) & Me & V). exists i. unfold points. auto.
Qed.
Lemma count_clear_at l c : 0 <= c < size l -> present (entry l c) = true -> count (clear_at l c) = count l - 1.
Proof. intros Hc P. unfold clear_at. rewrite count_upd, P by exact Hc. change (present (with_key (entry l c) nullptr)) with false. cbn. lia. Qed.

Lemma Remove_represents m f k : represents m f -> k <> nullptr ->
  returns (fun m' => represents m' (removed f k) /\ capacity_ m' = capacity_ m /\ occupancy_ m' = occupancy_ m - match f k with Some _ => 1 | None => 0 end)
    (Remove match_ k (hash_of k) m).
Proof.
  intros [W R] K. unfold Remove. destruct (Probe_ends m k W K) as (p & -> & S). cbn [rbind].
  pose proof (wf_size m W) as SZ. assert (power (size (map_ m))) as P by (rewrite SZ; apply W). pose proof (wf_room m W) as RM.
  pose proof S as (Hp & _). rewrite (get_item empty) by exact Hp. cbn [rbind].
  rewrite <- (negb_involutive (key (entry (map_ m) p) =? nullptr)). fold (present (entry (map_ m) p)).
  destruct (present (entry (map_ m) p)) eqn:E; cbn [negb].
  2: { assert (F : f k = None) by (apply (search_absent (map_ m) f k p); auto; apply W). rewrite F.
       apply returns_done. split; [|split; [reflexivity|lia]]. split; [exact W|]. pose proof R as R'. revert R'. apply represented_same. intros k' K'. unfold removed.
       destruct (match_ k k') eqn:M; [|reflexivity]. rewrite <- (represented_match (map_ m) f k k') by assumption. exact F. }
  rewrite (points_value _ f k p (wf_table m W) R K (search_present _ _ _ S E)).
  replace (occupancy_ m <? capacity_ m) with true by lia. rewrite <- SZ.
  destruct (has_empty (map_ m)) as (z & Hz & Ez); [rewrite <- (wf_count m W); lia|].
  eapply returns_bind.
  { apply (Remove_loop_ends _ _ p p z); auto; [apply table_holed; auto; apply W| |].
    - rewrite dist_self. pose proof (dist_range _ p z Hp Hz). destruct (Z.eq_dec (dist (size (map_ m)) p z) 0) as [Q|]; [|lia].
      rewrite <- (dist_self (size (map_ m)) p) in Q. apply dist_inj in Q; congruence.
    - pose proof (dist_range _ p z Hp Hz). unfold size in *. lia. }
  intros [l c] (S' & Hc & C' & P' & K' & T'). rewrite <- S' in Hc. rewrite (get_item empty) by exact Hc. cbn [rbind]. rewrite set_upd by exact Hc. cbn [rbind].
  apply returns_done. fold (clear_at l c).
  pose proof (count_clear_at l c Hc P') as CC. rewrite C', <- (wf_count m W) in CC. pose proof (count_bounds (clear_at l c)) as CB. pose proof (power_bounds _ P).
  assert (U : uN 32 (occupancy_ m - 1) = occupancy_ m - 1) by (apply uN_small; unfold is_uN; lia).
  cbn [capacity_ occupancy_]. rewrite U. split; [|split; [reflexivity|reflexivity]].
  split; [constructor; cbn [map_ capacity_ occupancy_]|].
  - exact T'.
  - exact P.
  - unfold clear_at. rewrite size_upd. exact S'.
  - lia.
  - pose proof (wf_load m W). pose proof (Z.div_le_mono (occupancy_ m - 1) (occupancy_ m) 4). lia.
  - intros k' v K0. cbn [map_]. rewrite represented_kept by exact Hc.
    rewrite (removed_represented (map_ m) f k p (wf_table m W) R K (search_present _ _ _ S E) k' v K0).
    split; intros (e & G & M); exists e; (split; [apply K'; exact G|exact M]).
Qed.

(** ** Clearing and iteration *)
Lemma Clear_represents m f c : represents m f ->
  fst (Clear c m) = (if c then map value (filter present (map_ m)) else []) /\ represents (snd (Clear c m)) (fun _ => None).
Proof.
  intros [W _]. split; [reflexivity|]. cbn [Clear snd]. set (l := map _ _).
  assert (S : size l = size (map_ m)) by (unfold size, l; rewrite length_map; reflexivity).
  assert (N : forall i, present (entry l i) = false).
  { intros i. unfold item, l. change empty with ((fun e => with_key e nullptr) empty). rewrite map_nth. reflexivity. }
  split; [constructor; cbn [map_ capacity_ occupancy_]|].
  - constructor; intros; rewrite N in *; discriminate.
  - apply W.
  - rewrite S. exact (wf_size m W).
  - unfold l, count. clear. induction (map_ m) as [|e es IH]; [reflexivity|exact IH].
  - pose proof (power_bounds _ (wf_power m W)). cbn. lia.
  - intros k v _. split; [discriminate|]. intros (p & (_ & Q & _) & _). cbn [map_] in Q. rewrite N in Q. discriminate.
Qed.

Lemma Next_loop_finds m : size (map_ m) = capacity_ m -> forall b a n, map_ m = a ++ b -> (length b <= n)%nat ->
  (Next_loop n (size a) m = Done None /\ filter present b = []) \/
  (exists a' e b', Next_loop n (size a) m = Done (Some (size a')) /\ map_ m = a' ++ e :: b' /\ filter present b = e :: filter present b' /\ (length b' < length b)%nat).
Proof.
  intros Z. induction b as [|e b IH]; intros a n E F.
  - left. rewrite app_nil_r in E. destruct n; cbn [Next_loop]; rewrite <- Z, E, Z.ltb_irrefl; auto.
  - cbn in F. destruct n as [|n]; [lia|]. cbn [Next_loop]. assert (size (map_ m) = size a + 1 + size b) as L by (rewrite E; sizes).
    pose proof (size_nonneg b). replace (size a <? capacity_ m) with true by lia. rewrite E, get_mid by reflexivity. cbn [rbind]. fold (present e).
    cbn [filter]. destruct (present e) eqn:P.
    + right. exists a, e, b. rewrite <- E. cbn [length]. auto.
    + replace (size a + 1) with (size (a ++ [e])) by sizes. destruct (IH (a ++ [e]) n) as [HN|(a' & e' & b' & H1 & H2 & H3 & H4)]; [rewrite <- app_assoc; exact E|lia|left; exact HN|].
      right. exists a', e', b'. rewrite <- E. cbn [length]. repeat split; auto; lia.
Qed.
Lemma iterate_from m : size (map_ m) = capacity_ m -> forall n a e b, map_ m = a ++ e :: b -> (length b < n)%nat ->
  iterate n (Some (size a)) m = Done (e :: filter present b).
Proof.
  intros Z. induction n as [|n IH]; intros a e b E F; [lia|]. cbn [iterate]. rewrite E at 1. rewrite get_mid by reflexivity. cbn [rbind]. unfold Next.
  assert (size (map_ m) = size a + 1 + size b) as L by (rewrite E; sizes). pose proof (size_nonneg a). pose proof (size_nonneg b).
  replace (_ && _) with true by lia. replace (size a + 1) with (size (a ++ [e])) by sizes.
  destruct (Next_loop_finds m Z b (a ++ [e]) (length (map_ m))) as [[N0 N1]|(a' & e' & b' & N1 & N2 & N3 & N4)].
  - rewrite <- app_assoc. exact E.
  - rewrite E, length_app. cbn. lia.
  - rewrite N0, N1. cbn [rbind]. destruct n; reflexivity.
  - rewrite N1, N3. cbn [rbind]. rewrite (IH a' e' b' N2) by lia. reflexivity.
Qed.
Lemma Entries_present m : wf m -> Entries m = Done (filter present (map_ m)).
Proof.
  intros W. pose proof (wf_size m W) as Z. unfold Entries, Start, Next. pose proof (power_bounds _ (wf_power m W)).
  replace (_ && _) with true by lia. change (-1 + 1) with (size (@nil Entry)).
  destruct (Next_loop_finds m Z (map_ m) [] (length (map_ m)) eq_refl (le_n _)) as [[-> ->]|(a & e & b & -> & E & F & L)]; cbn [rbind].
  - destruct (length (map_ m)); reflexivity.
  - rewrite F. apply iterate_from; [exact Z|exact E|exact L].
Qed.

Lemma Lookup_finds m f k : represents m f -> k <> nullptr ->
  exists r, Lookup match_ k (hash_of k) false m = Done (r, m) /\
    match r with Some p => points (map_ m) k p /\ f k = Some (value (entry (map_ m) p)) | None => f k = None end.
Proof.
  intros H K. destruct (f k) as [v|] eqn:F.
  - destruct (Lookup_present 1 m f k false H K) as (p & E & P); [congruence|]. exists (Some p). split; [exact E|]. split; [exact P|].
    rewrite <- F. destruct H as [W R]. apply points_value; auto. apply W.
  - exists None. split; [apply (Lookup_absent 1 m f k H K F)|reflexivity].
Qed.
Lemma Put_present m f k v : represents m f -> k <> nullptr -> f k <> None ->
  returns (fun m' => represents m' (updated f k v) /\ capacity_ m' = capacity_ m /\ occupancy_ m' = occupancy_ m) (Put match_ k (hash_of k) v m).
Proof.
  intros H K F. destruct (Lookup_present 1 m f k true H K F) as (p & E & P). unfold Put, Lookup. rewrite E. cbn [rbind].
  destruct (SetValue_represents m f k p v H P) as (m' & -> & R & C & O & _). apply returns_done. auto.
Qed.
Lemma Put_represents m f k v : represents m f -> k <> nullptr -> capacity_ m <= 2 ^ 30 ->
  returns (fun m' => represents m' (updated f k v) /\ occupancy_ m' = occupancy_ m + (match f k with Some _ => 0 | None => 1 end)) (Put match_ k (hash_of k) v m).
Proof.
  intros H K B. destruct (f k) as [w|] eqn:F.
  - eapply returns_weaken; [apply Put_present; [exact H|exact K|congruence]|]. intros m' (R & _ & O). split; [exact R|lia].
  - unfold Put. eapply returns_bind; [apply (Lookup_creates m f k); assumption|]. intros [r m'] (p & -> & P & R & O).
    destruct (SetValue_represents m' _ k p v R P) as (m'' & -> & R' & _ & O' & _). apply returns_done. split; [|lia].
    destruct R' as [W' R']. split; [exact W'|]. revert R'. apply represented_same. intros k' _. unfold updated. destruct (match_ k k'); reflexivity.
Qed.
Lemma Entries_represent m f : represents m f ->
  returns (fun es => forall k v, k <> nullptr -> (f k = Some v <-> exists e, In e es /\ match_ k (key e) = true /\ value e = v)) (Entries m).
Proof.
  intros [W R]. rewrite (Entries_present m W). apply returns_done. intros k v K. rewrite (R k v K). split.
  - intros (p & (Hp & P & M) & V). exists (entry (map_ m) p). split; [|auto]. apply filter_In. split; [|exact P].
    unfold item. apply nth_In. unfold size in Hp. lia.
  - intros (e & I & M & V). apply filter_In in I as [I P]. apply (In_nth _ _ empty) in I as (n & L & E).
    exists (Z.of_nat n). unfold points, item. rewrite Nat2Z.id, E. unfold size. repeat split; auto; lia.
Qed.
End Proofs.

(** C8. The hash map implements finite maps.  For a match function that is an equivalence
    the hash respects: a new map is empty; on a map that represents a partial function,
    [Lookup] finds the value of a key and changes nothing; [Lookup] with [insert] followed
    by a store updates the function at the key, also when the table is resized; [Remove],
    which moves entries back so that searches do not stop early, undefines it and keeps
    every other key; [Clear] empties it; and iteration meets each binding.  No search
    runs for ever and no access leaves the table.  Insertion asks for a capacity of at
    most 2^30, so that doubling it stays within 32 bits. *)
Theorem hash_map_implements_finite_map match_ hash_of m f k v :
  hashing match_ hash_of -> represents match_ hash_of m f -> k <> nullptr ->
  (forall c, power c -> returns (fun m => represents match_ hash_of m (fun _ => None)) (Initialize c)) /\
  (exists r, Lookup match_ k (hash_of k) false m = Done (r, m) /\
     match r with Some p => exists e, get (map_ m) p = Done e /\ f k = Some (value e) | None => f k = None end) /\
  (capacity_ m <= 2 ^ 30 -> returns (fun m' => represents match_ hash_of m' (updated match_ f k v)) (Put match_ k (hash_of k) v m)) /\
  returns (fun m' => represents match_ hash_of m' (removed match_ f k)) (Remove match_ k (hash_of k) m) /\
  represents match_ hash_of (snd (Clear true m)) (fun _ => None) /\
  returns (fun es => forall k v, k <> nullptr -> (f k = Some v <-> exists e, In e es /\ match_ k (key e) = true /\ value e = v)) (Entries m).
Proof.
  intros HH R K. split; [|split; [|split; [|split; [|split]]]].
  - intros c P. destruct (Initialize_represents match_ hash_of c P) as (m' & -> & H & _). apply returns_done, H.
  - destruct (Lookup_finds match_ hash_of HH m f k R K) as ([p|] & E & H); [exists (Some p)|exists None]; (split; [exact E|]); [|exact H].
    destruct H as [(Hp & _) F]. exists (entry (map_ m) p). split; [apply get_item, Hp|exact F].
  - intros B. eapply returns_weaken; [apply Put_represents; eassumption|]. intros m' [H _]. exact H.
  - eapply returns_weaken; [apply Remove_represents; eassumption|]. intros m' [H _]. exact H.
  - apply (Clear_represents match_ hash_of m f true R).
  - apply (Entries_represent match_ hash_of m f R).
Qed.

Lemma pointer_hashing : hashing SamePointerValue (uN 32).
Proof.
  unfold SamePointerValue. constructor; intros.
  - apply Z.eqb_refl.
  - apply Z.eqb_sym.
  - apply Z.eqb_eq in H, H0. apply Z.eqb_eq. congruence.
  - apply Z.eqb_eq in H. congruence.
Qed.
Lemma hash_map_implements_finite_map_witness :
  let m := mk [empty; empty; empty; empty] 4 0 in
  Lookup SamePointerValue 8 (uN 32 8) false m = Done (None, m) /\
  returns (fun m' => represents SamePointerValue (uN 32) m' (updated SamePointerValue (fun _ => None) 8 1)) (Put SamePointerValue 8 (uN 32 8) 1 m).
Proof.
  assert (R : represents SamePointerValue (uN 32) (mk [empty; empty; empty; empty] 4 0) (fun _ => None)).
  { destruct (Initialize_represents SamePointerValue (uN 32) 4) as (m & E & R & _); [exists 2; split; [lia|reflexivity]|]. injection E as <-. exact R. }
  split; [reflexivity|].
  apply (hash_map_implements_finite_map SamePointerValue (uN 32) (mk [empty; empty; empty; empty] 4 0) (fun _ => None) 8 1 pointer_hashing R); [discriminate|].
  vm_compute. discriminate.
Defined.
