(* ===== verification/PriorityQueue.v ===== *)
(** * The priority queue of [platform/priority_queue.h] and its client

    A binary heap in an array with a hash map from values to their offsets, for the
    instance [PriorityQueue<int64_t, Dart_Port>] of [bin/eventhandler.h], and the class
    [TimeoutQueue] there.  The memory [malloc] and [realloc] return holds [undefined]
    entries; that they fail is not modelled (the source aborts). *)

From Stdlib Require Import ZArith Bool List.
From S2P Require Import Prelude Result Arrays HashMap.
Import ListNotations.
Open Scope Z_scope.

Module PriorityQueue.
Definition kMinimumSize : Z := 16.

Record Entry := mkEntry { priority : Z; value : Z }.

Record t := mk { min_heap_ : list Entry; min_heap_size_ : Z; size_ : Z; hashmap_ : SimpleHashMap.t }.
Definition with_heap (q : t) (h : list Entry) : t := mk h (min_heap_size_ q) (size_ q) (hashmap_ q).
Definition with_size (q : t) (n : Z) : t := mk (min_heap_ q) (min_heap_size_ q) n (hashmap_ q).
Definition with_map (q : t) (m : SimpleHashMap.t) : t := mk (min_heap_ q) (min_heap_size_ q) (size_ q) m.

(** ** The interface to the hash map *)
Definition MatchFun (key1 key2 : Z) : bool := key1 =? key2.
Definition CastKey (key : Z) : Z := u64 key.
Definition HashKey (key : Z) : Z := uN 32 (s64 (CastKey key)).

Definition FindMapEntry (key : Z) (insert : bool) (m : SimpleHashMap.t) : result (option Z * SimpleHashMap.t) :=
  SimpleHashMap.Lookup MatchFun (CastKey key) (HashKey key) insert m.
Definition RemoveMapEntry (key : Z) (m : SimpleHashMap.t) : result SimpleHashMap.t :=
  let* (r, m) := FindMapEntry key false m in
  match r with
  | Some _ => SimpleHashMap.Remove MatchFun (CastKey key) (HashKey key) m
  | None => AssertionFailure
  end.
Definition SetMapEntry (key value : Z) (m : SimpleHashMap.t) : result SimpleHashMap.t :=
  SimpleHashMap.Put MatchFun (CastKey key) (HashKey key) (u64 value) m.
Definition ValueOfMapEntry (p : Z) (m : SimpleHashMap.t) : result Z :=
  let* e := get (SimpleHashMap.map_ m) p in Done (s64 (SimpleHashMap.value e)).

(** ** The heap *)
Definition Set_ (offset1 : Z) (entry : Entry) (q : t) : result t :=
  let* h := set (min_heap_ q) offset1 entry in
  let* m := SetMapEntry (value entry) offset1 (hashmap_ q) in
  Done (with_map (with_heap q h) m).

Definition Swap (offset1 offset2 : Z) (q : t) : result t :=
  let* temp := get (min_heap_ q) offset1 in
  let* other := get (min_heap_ q) offset2 in
  let* h := set (min_heap_ q) offset1 other in
  let* h := set h offset2 temp in
  let* e1 := get h offset1 in
  let* m := SetMapEntry (value e1) offset1 (hashmap_ q) in
  let* e2 := get h offset2 in
  let* m := SetMapEntry (value e2) offset2 m in
  Done (with_map (with_heap q h) m).

Definition Replace (index with_other : Z) (q : t) : result t :=
  let* e := get (min_heap_ q) index in
  let* m := RemoveMapEntry (value e) (hashmap_ q) in
  let* entry := get (min_heap_ q) with_other in
  let* m := SetMapEntry (value entry) index m in
  let* h := set (min_heap_ q) index entry in
  Done (with_map (with_heap q h) m).

Fixpoint BubbleUp_loop (n : nat) (offset : Z) (q : t) : result t :=
  if offset =? 0 then Done q
  else match n with
  | O => OutOfFuel
  | S n =>
      let parent := Z.quot (offset - 1) 2 in
      let* p := get (min_heap_ q) parent in
      let* e := get (min_heap_ q) offset in
      let* q := if priority p >? priority e then Swap parent offset q else Done q in
      BubbleUp_loop n parent q
  end.
Definition BubbleUp (offset : Z) (q : t) : result t := BubbleUp_loop (Z.to_nat offset) offset q.

Fixpoint BubbleDown_loop (n : nat) (offset : Z) (q : t) : result t :=
  match n with
  | O => OutOfFuel
  | S n =>
      let left_child_index := 2 * offset + 1 in
      if negb (left_child_index <? size_ q) then Done q
      else
        let* l := get (min_heap_ q) left_child_index in
        let* e := get (min_heap_ q) offset in
        let smallest_index := if priority l <? priority e then left_child_index else offset in
        let right_child_index := left_child_index + 1 in
        let* smallest_index :=
          if right_child_index <? size_ q then
            let* r := get (min_heap_ q) right_child_index in
            let* smallest := get (min_heap_ q) smallest_index in
            Done (if priority r <? priority smallest then right_child_index else smallest_index)
          else Done smallest_index in
        if offset =? smallest_index then Done q
        else
          let* q := Swap offset smallest_index q in
          BubbleDown_loop n smallest_index q
  end.
Definition BubbleDown (offset : Z) (q : t) : result t := BubbleDown_loop (S (Z.to_nat (size_ q))) offset q.

Section Memory.
Context (undefined : Entry).

Definition PriorityQueue : result t :=
  let* m := SimpleHashMap.Initialize kMinimumSize in
  Done (mk (repeat undefined (Z.to_nat kMinimumSize)) kMinimumSize 0 m).

Definition realloc (h : list Entry) (n : Z) : list Entry := firstn (Z.to_nat n) (h ++ repeat undefined (Z.to_nat n)).
Definition Resize (new_min_heap_size : Z) (q : t) : result t :=
  require size_ q <? new_min_heap_size;;
  require negb (new_min_heap_size =? min_heap_size_ q);;
  Done (mk (realloc (min_heap_ q) new_min_heap_size) new_min_heap_size (size_ q) (hashmap_ q)).

Definition RemoveAt (offset : Z) (q : t) : result t :=
  require offset <? size_ q;;
  let q := with_size q (size_ q - 1) in
  let* q :=
    if offset =? size_ q then
      let* e := get (min_heap_ q) offset in
      let* m := RemoveMapEntry (value e) (hashmap_ q) in
      Done (with_map q m)
    else
      let* q := Replace offset (size_ q) q in
      BubbleDown offset q in
  if (size_ q <=? (min_heap_size_ q >> 2)) && (kMinimumSize <=? (min_heap_size_ q >> 1))
  then Resize (min_heap_size_ q >> 1) q
  else Done q.

(** ** The operations *)
Definition IsEmpty (q : t) : bool := size_ q =? 0.

Definition ContainsValue (v : Z) (q : t) : result bool :=
  let* (r, _) := FindMapEntry v false (hashmap_ q) in
  Done (match r with Some _ => true | None => false end).

Definition Insert (p v : Z) (q : t) : result t :=
  let* contains := ContainsValue v q in
  require negb contains;;
  let* q := if size_ q =? min_heap_size_ q then Resize (min_heap_size_ q << 1) q else Done q in
  let* q := Set_ (size_ q) (mkEntry p v) q in
  let* q := BubbleUp (size_ q) q in
  Done (with_size q (size_ q + 1)).

Definition Minimum (q : t) : result Entry := require negb (IsEmpty q);; get (min_heap_ q) 0.
Definition RemoveMinimum (q : t) : result t := require negb (IsEmpty q);; RemoveAt 0 q.

Definition RemoveByValue (v : Z) (q : t) : result (bool * t) :=
  let* (r, m) := FindMapEntry v false (hashmap_ q) in
  match r with
  | Some p =>
      let* offset := ValueOfMapEntry p m in
      let* q := RemoveAt offset q in
      require SimpleHashMap.occupancy_ (hashmap_ q) =? size_ q;;
      Done (true, q)
  | None => Done (false, q)
  end.

(** Overflow of the difference of two priorities is undefined. *)
Definition InsertOrChangePriority (p v : Z) (q : t) : result (bool * t) :=
  let* (r, m) := FindMapEntry v false (hashmap_ q) in
  match r with
  | None => let* q := Insert p v q in Done (true, q)
  | Some map_entry =>
      let* offset := ValueOfMapEntry map_entry m in
      require offset <? size_ q;;
      let* entry := get (min_heap_ q) offset in
      let entry := mkEntry p (value entry) in
      let* h := set (min_heap_ q) offset entry in
      let q := with_heap q h in
      let* q :=
        if offset =? 0 then BubbleDown offset q
        else
          let parent := Z.quot (offset - 1) 2 in
          let* e := get (min_heap_ q) parent in
          let diff := priority entry - priority e in
          require (- 2 ^ 63 <=? diff) && (diff <? 2 ^ 63);;
          if diff <? 0 then BubbleUp offset q
          else if diff >? 0 then BubbleDown offset q
          else Done q in
      Done (false, q)
  end.
End Memory.
End PriorityQueue.

(** ** [TimeoutQueue] of [bin/eventhandler.h] *)
Module TimeoutQueue.
Import PriorityQueue.
Definition HasTimeout (q : t) : bool := negb (IsEmpty q).
Definition CurrentTimeout (q : t) : result Z := let* e := Minimum q in Done (priority e).
Definition CurrentPort (q : t) : result Z := let* e := Minimum q in Done (value e).
Definition RemoveCurrent (undefined : Entry) (q : t) : result t := RemoveMinimum undefined q.
Definition UpdateTimeout (undefined : Entry) (port timeout : Z) (q : t) : result t :=
  if timeout <? 0 then let* (_, q) := RemoveByValue undefined port q in Done q
  else let* (_, q) := InsertOrChangePriority undefined timeout port q in Done q.
End TimeoutQueue.
