(* ===== verification/PriorityQueueProofs.v ===== *)
(** * The priority queue

    [indexed q n c]: the first [n] elements of the heap are the bindings of [c], a partial
    function from values to priorities, and the hash map sends each value to its offset;
    [ordered]: no element is below one with a higher priority.  The operations are proved
    against what [HashMapProofs] shows of the hash map. *)

From Stdlib Require Import ZArith Bool List Lia.
From S2P Require Import Prelude Result Arrays HashMap HashMapProofs PriorityQueue.
Import ListNotations.
Import PriorityQueue.
Open Scope Z_scope.

(** ** Offsets of values in the hash map *)

(** [Dart_Port]s; 0 is no port ([ILLEGAL_PORT]). *)
Definition port (v : Z) : Prop := is_sN 64 v /\ v <> 0.

Lemma CastKey_nonnull v : port v -> CastKey v <> nullptr.
Proof.
  intros [R N] E. apply N. rewrite <- (sN_small 64 v) by (lia || assumption). rewrite <- sN_uN by lia. unfold CastKey in E. rewrite E. reflexivity.
Qed.
Lemma CastKey_inj v w : is_sN 64 v -> is_sN 64 w -> CastKey v = CastKey w -> v = w.
Proof.
  intros V W E. rewrite <- (sN_small 64 v), <- (sN_small 64 w) by (lia || assumption). apply uN_eq_sN; [lia|exact E].
Qed.
Lemma HashKey_CastKey v : HashKey v = uN 32 (CastKey v).
Proof.
  unfold HashKey. destruct (sN_cong 64 (CastKey v)) as (k & ->); [lia|]. change (2 ^ 64) with (2 ^ 32 * 2 ^ 32). rewrite Z.mul_assoc. apply uN_add_mult.
Qed.
Lemma MatchFun_hashing : hashing MatchFun (uN 32).
Proof. exact pointer_hashing. Qed.
#[local] Hint Resolve MatchFun_hashing CastKey_nonnull : core.

Definition offsets (m : SimpleHashMap.t) (g : Z -> option Z) : Prop :=
  exists f, represents MatchFun (uN 32) m f /\ forall v, port v -> f (CastKey v) = g v.
Definition bind (g : Z -> option Z) (v i : Z) : Z -> option Z := fun w => if w =? v then Some i else g w.
Definition unbind (g : Z -> option Z) (v : Z) : Z -> option Z := fun w => if w =? v then None else g w.

Lemma MatchFun_CastKey v w : port v -> port w -> MatchFun (CastKey v) (CastKey w) = (w =? v).
Proof.
  intros V W. unfold MatchFun. destruct (Z.eqb_spec (CastKey v) (CastKey w)) as [E|N].
  - apply CastKey_inj in E; [|apply V|apply W]. subst. symmetry. apply Z.eqb_refl.
  - symmetry. apply Z.eqb_neq. intros ->. contradiction.
Qed.
Lemma offsets_same m g g' : (forall v, port v -> g v = g' v) -> offsets m g -> offsets m g'.
Proof. intros E (f & R & F). exists f. split; [exact R|]. intros v V. rewrite F by exact V. apply E, V. Qed.

Lemma FindMapEntry_finds m g v : offsets m g -> port v ->
  exists r, FindMapEntry v false m = Done (r, m) /\ match r with Some p => exists i, ValueOfMapEntry p m = Done (s64 i) /\ g v = Some i | None => g v = None end.
Proof.
  intros (f & R & F) V. unfold FindMapEntry. rewrite HashKey_CastKey.
  destruct (Lookup_finds MatchFun (uN 32) MatchFun_hashing m f (CastKey v) R) as ([p|] & E & H); auto.
  - exists (Some p). split; [exact E|]. destruct H as [(Hp & _) H]. eexists. unfold ValueOfMapEntry. rewrite (get_item SimpleHashMap.empty) by exact Hp.
    split; [reflexivity|]. rewrite <- F by exact V. exact H.
  - exists None. split; [exact E|]. rewrite <- F by exact V. exact H.
Qed.
Lemma SetMapEntry_moves m g v i : offsets m g -> port v -> g v <> None -> 0 <= i < 2 ^ 63 ->
  returns (fun m' => offsets m' (bind g v i) /\ SimpleHashMap.capacity_ m' = SimpleHashMap.capacity_ m /\ SimpleHashMap.occupancy_ m' = SimpleHashMap.occupancy_ m)
    (SetMapEntry v i m).
Proof.
  intros (f & R & F) V G I. unfold SetMapEntry. rewrite HashKey_CastKey, (uN_small 64 i) by (unfold is_uN; lia).
  eapply returns_weaken; [apply (Put_present MatchFun (uN 32) MatchFun_hashing m f); auto; rewrite F by exact V; exact G|].
  intros m' (R' & CO). split; [|exact CO]. eexists. split; [exact R'|]. intros w W. unfold updated, bind. rewrite MatchFun_CastKey by assumption.
  destruct (w =? v); [reflexivity|apply F, W].
Qed.
Lemma SetMapEntry_adds m g v i : offsets m g -> port v -> g v = None -> 0 <= i < 2 ^ 63 -> SimpleHashMap.capacity_ m <= 2 ^ 30 ->
  returns (fun m' => offsets m' (bind g v i) /\ SimpleHashMap.occupancy_ m' = SimpleHashMap.occupancy_ m + 1) (SetMapEntry v i m).
Proof.
  intros (f & R & F) V G I C. unfold SetMapEntry. rewrite HashKey_CastKey, (uN_small 64 i) by (unfold is_uN; lia).
  eapply returns_weaken; [apply (Put_represents MatchFun (uN 32) MatchFun_hashing m f); auto|].
  intros m' (R' & O). rewrite F, G in O by exact V. split; [|exact O]. eexists. split; [exact R'|]. intros w W. unfold updated, bind. rewrite MatchFun_CastKey by assumption.
  destruct (w =? v); [reflexivity|apply F, W].
Qed.
Lemma RemoveMapEntry_removes m g v : offsets m g -> port v -> g v <> None ->
  returns (fun m' => offsets m' (unbind g v) /\ SimpleHashMap.capacity_ m' = SimpleHashMap.capacity_ m /\ SimpleHashMap.occupancy_ m' = SimpleHashMap.occupancy_ m - 1)
    (RemoveMapEntry v m).
Proof.
  intros O V G. unfold RemoveMapEntry. destruct (FindMapEntry_finds m g v O V) as ([p|] & -> & H); [|contradiction]. cbn [rbind]. rewrite HashKey_CastKey.
  destruct O as (f & R & F). eapply returns_weaken; [apply (Remove_represents MatchFun (uN 32) MatchFun_hashing m f); auto|].
  intros m' (R' & C & O). rewrite F in O by exact V. split; [|split; [exact C|destruct (g v); [exact O|contradiction]]].
  eexists. split; [exact R'|]. intros w W. unfold removed, unbind. rewrite MatchFun_CastKey by assumption. destruct (w =? v); [reflexivity|apply F, W].
Qed.
Lemma offsets_room m g : offsets m g -> 0 <= SimpleHashMap.occupancy_ m < 2 ^ 31.
Proof. intros (f & [W _] & _). pose proof (wf_room _ _ _ W). pose proof (power_bounds _ (wf_power _ _ _ W)). lia. Qed.

Section Heap.
Context (undefined : Entry).
Abbreviation at_ := (item undefined).
Definition prio (h : list Entry) (i : Z) : Z := priority (at_ h i).

(** ** Heap order *)
Definition edge (p c : Z) : Prop := 0 <= p /\ (c = 2 * p + 1 \/ c = 2 * p + 2).
Definition ordered (h : list Entry) (n : Z) : Prop := forall p c, edge p c -> c < n -> prio h p <= prio h c.
(** In order but for the element at [k], which may be too low (and may go up) or too
    high (and may go down). *)
Definition bridged (h : list Entry) (n k : Z) : Prop := forall g c, edge g k -> edge k c -> c < n -> prio h g <= prio h c.
Definition up_except (h : list Entry) (n k : Z) : Prop := (forall p c, edge p c -> c < n -> c <> k -> prio h p <= prio h c) /\ bridged h n k.
Definition down_except (h : list Entry) (n k : Z) : Prop := (forall p c, edge p c -> c < n -> p <> k -> prio h p <= prio h c) /\ bridged h n k.

Definition swapped (h : list Entry) (i j : Z) : list Entry := upd (upd h i (at_ h j)) j (at_ h i).
Lemma at_swapped h i j k : 0 <= i < size h -> 0 <= j < size h -> 0 <= k < size h ->
  at_ (swapped h i j) k = if k =? j then at_ h i else if k =? i then at_ h j else at_ h k.
Proof. intros Hi Hj Hk. unfold swapped. rewrite !item_upd by (rewrite ?size_upd; assumption). reflexivity. Qed.

Ltac heap := unfold edge, bridged, prio in *; repeat match goal with
  | |- context [?a =? ?b] => destruct (Z.eqb_spec a b); subst
  | H : context [?a =? ?b] |- _ => destruct (Z.eqb_spec a b); subst
  end; try lia.

Lemma ordered_up_except h n k : ordered h n -> up_except h n k.
Proof.
  intros O. split; [intros p c E C _; apply O; assumption|]. intros g c E E' C.
  pose proof (O g k E ltac:(unfold edge in *; lia)). pose proof (O k c E' C). lia.
Qed.
Lemma swap_up h n p k : 0 <= n <= size h -> 0 < k < n -> edge p k -> prio h p > prio h k -> up_except h n k -> up_except (swapped h p k) n p.
Proof.
  intros N K E G [O B]. split.
  - intros a c EA C NC. unfold prio in *. rewrite !at_swapped by (unfold edge in *; lia).
    pose proof (O a c EA C) as O1. pose proof (B p c E) as B1. pose proof (O p c) as O2. heap.
  - intros g c EG EC C. unfold prio in *. rewrite !at_swapped by (unfold edge in *; lia).
    pose proof (O g p EG) as O1. pose proof (O p c EC C) as O2. heap.
Qed.
Lemma swap_down h n k s : 0 <= n <= size h -> edge k s -> s < n -> prio h s < prio h k ->
  (forall c, edge k c -> c < n -> prio h s <= prio h c) -> down_except h n k -> down_except (swapped h k s) n s.
Proof.
  intros N E S G M [O B]. split.
  - intros a c EA C NA. unfold prio in *. rewrite !at_swapped by (unfold edge in *; lia).
    pose proof (O a c EA C) as O1. pose proof (M c) as M1. pose proof (B a s) as B1. pose proof (O s c) as O2. heap.
  - intros g c EG EC C. unfold prio in *. rewrite !at_swapped by (unfold edge in *; lia).
    pose proof (O s c EC C) as O2. heap.
Qed.

(** ** What the queue holds *)
Definition inverse (h : list Entry) (n : Z) (g : Z -> option Z) : Prop :=
  forall v i, port v -> (g v = Some i <-> 0 <= i < n /\ value (at_ h i) = v).
Definition held (h : list Entry) (n : Z) (c : Z -> option Z) : Prop :=
  forall v p, c v = Some p <-> exists i, 0 <= i < n /\ at_ h i = mkEntry p v.
Definition timeouts (h : list Entry) (n : Z) : Prop := forall i, 0 <= i < n -> port (value (at_ h i)) /\ 0 <= prio h i < 2 ^ 63.
Record indexed (q : t) (n : Z) (c : Z -> option Z) : Prop := {
  i_size : size (min_heap_ q) = min_heap_size_ q;
  i_min : kMinimumSize <= min_heap_size_ q;
  i_room : 0 <= n <= min_heap_size_ q;
  i_offsets : exists g, offsets (hashmap_ q) g /\ inverse (min_heap_ q) n g;
  i_occupancy : SimpleHashMap.occupancy_ (hashmap_ q) = n;
  i_timeouts : timeouts (min_heap_ q) n;
  i_held : held (min_heap_ q) n c }.

Lemma indexed_below q n c : indexed q n c -> n < 2 ^ 31.
Proof. intros I. destruct (i_offsets q n c I) as (g & O & _). pose proof (offsets_room _ g O). pose proof (i_occupancy q n c I). lia. Qed.
Lemma indexed_inj q n c i j : indexed q n c -> 0 <= i < n -> 0 <= j < n -> value (at_ (min_heap_ q) i) = value (at_ (min_heap_ q) j) -> i = j.
Proof.
  intros I Hi Hj E. destruct (i_offsets q n c I) as (g & _ & V). destruct (i_timeouts q n c I j Hj) as [P _].
  pose proof (proj2 (V _ i P) (conj Hi E)). pose proof (proj2 (V _ j P) (conj Hj eq_refl)). congruence.
Qed.

Definition exchange (i j k : Z) : Z := if k =? j then i else if k =? i then j else k.
Lemma at_exchange h i j k : 0 <= i < size h -> 0 <= j < size h -> 0 <= k < size h -> at_ (swapped h i j) k = at_ h (exchange i j k).
Proof. intros. rewrite at_swapped by assumption. unfold exchange. destruct (k =? j); [reflexivity|]. destruct (k =? i); reflexivity. Qed.
Lemma exchange_range i j k n : 0 <= i < n -> 0 <= j < n -> 0 <= k < n -> 0 <= exchange i j k < n.
Proof. intros. unfold exchange. heap. Qed.
Lemma exchange_twice i j k : exchange i j (exchange i j k) = k.
Proof. unfold exchange. heap. Qed.

Lemma Swap_indexed q n c i j : indexed q n c -> 0 <= i < n -> 0 <= j < n -> i <> j ->
  returns (fun q' => indexed q' n c /\ min_heap_ q' = swapped (min_heap_ q) i j /\ size_ q' = size_ q /\
             SimpleHashMap.capacity_ (hashmap_ q') = SimpleHashMap.capacity_ (hashmap_ q)) (Swap i j q).
Proof.
  intros I Hi Hj N. pose proof (i_size q n c I) as SZ. pose proof (i_room q n c I) as RM. pose proof (indexed_below q n c I) as NB.
  destruct (i_offsets q n c I) as (g & O & V). unfold Swap. set (h := min_heap_ q) in *.
  assert (GI : g (value (at_ h i)) = Some i) by (apply V; [apply (i_timeouts q n c I); assumption|auto]).
  assert (GJ : g (value (at_ h j)) = Some j) by (apply V; [apply (i_timeouts q n c I); assumption|auto]).
  assert (NV : value (at_ h i) <> value (at_ h j)) by congruence.
  rewrite (get_item undefined), (get_item undefined) by lia. cbn [rbind]. rewrite set_upd by lia. cbn [rbind]. rewrite set_upd by (rewrite size_upd; lia). cbn [rbind].
  fold (swapped h i j). assert (SS : size (swapped h i j) = size h) by (unfold swapped; rewrite !size_upd; reflexivity).
  rewrite (get_item undefined) by lia. cbn [rbind]. rewrite at_swapped by lia. rewrite Z.eqb_refl. replace (i =? j) with false by lia.
  eapply returns_bind; [apply (SetMapEntry_moves _ g); [exact O|apply (i_timeouts q n c I j Hj)|congruence|lia]|]. intros m1 (O1 & C1 & Q1).
  rewrite (get_item undefined) by lia. cbn [rbind]. rewrite at_swapped by lia. rewrite Z.eqb_refl.
  eapply returns_bind; [apply (SetMapEntry_moves _ _ _ j O1); [apply (i_timeouts q n c I i Hi)|unfold bind; replace (_ =? _) with false by lia; congruence|lia]|].
  intros m2 (O2 & C2 & Q2). apply returns_done. cbn [min_heap_ size_ hashmap_ with_map with_heap]. split; [|split; [reflexivity|split; [reflexivity|congruence]]].
  assert (X : forall k, 0 <= k < n -> at_ (swapped h i j) k = at_ h (exchange i j k) /\ 0 <= exchange i j k < n).
  { intros k Hk. split; [apply at_exchange; lia|apply exchange_range; assumption]. }
  constructor; cbn [min_heap_ min_heap_size_ hashmap_ with_map with_heap].
  - rewrite SS. exact SZ.
  - apply I.
  - exact RM.
  - eexists. split; [exact O2|]. intros v k PV. unfold bind. split.
    + destruct (Z.eqb_spec v (value (at_ h i))) as [->|NI]; [intros [= <-]; split; [lia|]; rewrite (proj1 (X j Hj)); unfold exchange; rewrite Z.eqb_refl; reflexivity|].
      destruct (Z.eqb_spec v (value (at_ h j))) as [->|NJ]; [intros [= <-]; split; [lia|]; rewrite (proj1 (X i Hi)); unfold exchange; rewrite Z.eqb_refl; replace (i =? j) with false by lia; reflexivity|].
      intros G. apply V in G as [Hk E]; [|exact PV]. split; [exact Hk|]. rewrite (proj1 (X k Hk)). unfold exchange.
      destruct (Z.eqb_spec k j); [congruence|]. destruct (Z.eqb_spec k i); congruence.
    + intros [Hk E]. destruct (X k Hk) as [E' HX]. rewrite E' in E. pose proof (proj2 (V v _ PV) (conj HX E)) as G.
      rewrite <- (exchange_twice i j k). set (x := exchange i j k) in *. clearbody x.
      destruct (Z.eqb_spec v (value (at_ h i))) as [Q|NI]; [assert (x = i) by congruence; subst; unfold exchange; rewrite Z.eqb_refl; replace (i =? j) with false by lia; reflexivity|].
      destruct (Z.eqb_spec v (value (at_ h j))) as [Q|NJ]; [assert (x = j) by congruence; subst; unfold exchange; rewrite Z.eqb_refl; reflexivity|].
      rewrite G. unfold exchange. destruct (Z.eqb_spec x j); [congruence|]. destruct (Z.eqb_spec x i); congruence.
  - rewrite Q2, Q1. apply I.
  - intros k Hk. unfold prio. destruct (X k Hk) as [-> HX]. apply (i_timeouts q n c I _ HX).
  - intros v p. rewrite (i_held q n c I v p). split; intros (k & Hk & E); exists (exchange i j k).
    + destruct (X _ (exchange_range i j k n Hi Hj Hk)) as [-> _]. rewrite exchange_twice. split; [apply exchange_range; assumption|exact E].
    + destruct (X k Hk) as [E' HX]. split; [exact HX|]. transitivity (at_ (swapped h i j) k); [symmetry; exact E'|exact E].
Qed.

Definition same_shape (q q' : t) : Prop := size_ q' = size_ q /\ SimpleHashMap.capacity_ (hashmap_ q') = SimpleHashMap.capacity_ (hashmap_ q).

Lemma BubbleUp_orders n c : forall fuel k q, indexed q n c -> 0 <= k < n -> up_except (min_heap_ q) n k -> (Z.to_nat k <= fuel)%nat ->
  returns (fun q' => indexed q' n c /\ ordered (min_heap_ q') n /\ same_shape q q') (BubbleUp_loop fuel k q).
Proof.
  induction fuel as [|fuel IH]; intros k q I K U F.
  - assert (k = 0) by lia. subst. cbn [BubbleUp_loop]. rewrite Z.eqb_refl. apply returns_done. split; [exact I|]. split; [|split; reflexivity].
    intros p c' E C. apply (proj1 U p c' E C). unfold edge in E. lia.
  - cbn [BubbleUp_loop]. destruct (Z.eqb_spec k 0) as [->|NK].
    { apply returns_done. split; [exact I|]. split; [|split; reflexivity]. intros p c' E C. apply (proj1 U p c' E C). unfold edge in E. lia. }
    set (p := Z.quot (k - 1) 2). assert (E : edge p k).
    { unfold edge, p. rewrite Z.quot_div_nonneg by lia. pose proof (Z.div_mod (k - 1) 2). pose proof (Z.mod_pos_bound (k - 1) 2). lia. }
    pose proof (i_size q n c I). pose proof (i_room q n c I). assert (0 <= p < k) as HP by (unfold edge in E; lia).
    rewrite (get_item undefined), (get_item undefined) by lia. cbn [rbind]. rewrite Z.gtb_ltb. fold (prio (min_heap_ q) p) (prio (min_heap_ q) k).
    destruct (Z.ltb_spec (prio (min_heap_ q) k) (prio (min_heap_ q) p)) as [L|L].
    + eapply returns_bind; [apply (Swap_indexed q n c p k I); lia|]. intros q' (I' & H' & S' & C').
      eapply returns_weaken; [apply (IH p q' I'); [lia| |lia]|].
      * rewrite H'. apply swap_up; [lia|lia|exact E|lia|exact U].
      * intros q'' (I'' & O & S2 & C2). split; [exact I''|]. split; [exact O|]. split; congruence.
    + cbn [rbind]. apply (IH p q I); [lia| |lia]. apply ordered_up_except. intros a b EA B.
      destruct (Z.eq_dec b k) as [->|NB]; [|apply (proj1 U a b EA B NB)]. assert (a = p) by (unfold edge in *; lia). subst. exact L.
Qed.
Lemma BubbleDown_orders n c : forall fuel k q, indexed q n c -> size_ q = n -> 0 <= k < n -> (Z.to_nat n - Z.to_nat k < fuel)%nat ->
  returns (fun q' => indexed q' n c /\ (down_except (min_heap_ q) n k -> ordered (min_heap_ q') n) /\ same_shape q q') (BubbleDown_loop fuel k q).
Proof.
  induction fuel as [|fuel IH]; intros k q I S K F; [lia|]. cbn [BubbleDown_loop]. rewrite S.
  pose proof (i_size q n c I). pose proof (i_room q n c I). set (h := min_heap_ q) in *.
  assert (DONE : (forall c', edge k c' -> c' < n -> prio h k <= prio h c') ->
    returns (fun q' => indexed q' n c /\ (down_except h n k -> ordered (min_heap_ q') n) /\ same_shape q q') (Done q)).
  { intros M. apply returns_done. split; [exact I|]. split; [|split; reflexivity]. intros D a b E B.
    destruct (Z.eq_dec a k) as [->|NA]; [apply M; assumption|apply (proj1 D); assumption]. }
  destruct (Z.ltb_spec (2 * k + 1) n) as [L|L]; cbn [negb]; [|apply DONE; unfold edge; lia].
  rewrite (get_item undefined), (get_item undefined) by lia. cbn [rbind]. fold (prio h (2 * k + 1)) (prio h k).
  set (s0 := if prio h (2 * k + 1) <? prio h k then 2 * k + 1 else k).
  assert (S0 : 0 <= s0 < n /\ (s0 = k \/ s0 = 2 * k + 1) /\ prio h s0 <= prio h k /\ prio h s0 <= prio h (2 * k + 1) /\ (s0 <> k -> prio h s0 < prio h k))
    by (unfold s0; destruct (Z.ltb_spec (prio h (2 * k + 1)) (prio h k)); repeat split; lia).
  eapply (returns_bind (fun s => (s = k \/ edge k s) /\ 0 <= s < n /\ (s <> k -> prio h s < prio h k) /\ forall c', edge k c' -> c' < n -> prio h s <= prio h c')).
  { destruct (Z.ltb_spec (2 * k + 1 + 1) n) as [L2|L2].
    - rewrite (get_item undefined), (get_item undefined) by lia. cbn [rbind]. apply returns_done. fold (prio h (2 * k + 1 + 1)) (prio h s0).
      unfold edge. destruct (Z.ltb_spec (prio h (2 * k + 1 + 1)) (prio h s0)).
      + split; [lia|]. split; [lia|]. split; [lia|]. intros c' [_ [->|EC]] _; [lia|]. replace (2 * k + 1 + 1) with c' by lia. lia.
      + split; [lia|]. split; [lia|]. split; [tauto|]. intros c' [_ [->|EC]] _; [lia|]. replace (2 * k + 1 + 1) with c' in * by lia. lia.
    - apply returns_done. unfold edge. split; [lia|]. split; [lia|]. split; [tauto|]. intros c' [_ [->|EC]] C; lia. }
  intros s (E & HS & LT & M). destruct (Z.eqb_spec k s) as [<-|NS]; [apply DONE, M|].
  destruct E as [E|E]; [congruence|]. eapply returns_bind; [apply (Swap_indexed q n c k s I); lia|]. intros q' (I' & H' & S' & C').
  eapply returns_weaken; [apply (IH s q' I'); [congruence|lia|unfold edge in E; lia]|].
  intros q'' (I'' & O & S2 & C2). split; [exact I''|]. split; [|split; congruence]. intros D. apply O. rewrite H'. fold h.
  apply swap_down; [lia|exact E|lia|apply LT; congruence|exact M|exact D].
Qed.

(** ** Changes of the array *)
Definition same_below (h h' : list Entry) (n : Z) : Prop := forall i, 0 <= i < n -> at_ h' i = at_ h i.
Lemma ordered_same h h' n : same_below h h' n -> ordered h n -> ordered h' n.
Proof. intros S O p c E C. unfold prio. rewrite !S by (unfold edge in E; lia). apply O; assumption. Qed.
Lemma indexed_same q q' n c : same_below (min_heap_ q) (min_heap_ q') n -> hashmap_ q' = hashmap_ q -> size (min_heap_ q') = min_heap_size_ q' ->
  kMinimumSize <= min_heap_size_ q' -> n <= min_heap_size_ q' -> indexed q n c -> indexed q' n c.
Proof.
  intros S M Z B L I. pose proof (i_room q n c I). constructor; auto; [lia| | | |].
  - destruct (i_offsets q n c I) as (g & O & V). exists g. rewrite M. split; [exact O|]. intros v i P. rewrite (V v i P).
    split; intros [Hi E]; (split; [exact Hi|]); rewrite S in * by exact Hi; exact E.
  - rewrite M. apply I.
  - intros i Hi. unfold prio. rewrite S by exact Hi. apply (i_timeouts q n c I i Hi).
  - intros v p. rewrite (i_held q n c I v p). split; intros (i & Hi & E); exists i; (split; [exact Hi|]); rewrite S in * by exact Hi; exact E.
Qed.
Lemma realloc_same h n m : 0 <= n <= size h -> n <= m -> same_below h (realloc undefined h m) n.
Proof.
  intros H M i Hi. unfold realloc, item. rewrite nth_firstn. replace (Z.to_nat i <? Z.to_nat m)%nat with true by (symmetry; apply Nat.ltb_lt; lia).
  rewrite app_nth1; [reflexivity|]. unfold size in H. lia.
Qed.
Lemma size_realloc h m : 0 <= m -> size (realloc undefined h m) = m.
Proof. intros M. unfold realloc, size. rewrite length_firstn, length_app, repeat_length. lia. Qed.
Lemma Resize_indexed q n c m : indexed q n c -> size_ q <= n < m \/ size_ q < m /\ n = size_ q -> kMinimumSize <= m -> m <> min_heap_size_ q ->
  exists q', Resize undefined m q = Done q' /\ indexed q' n c /\ same_below (min_heap_ q) (min_heap_ q') n /\ same_shape q q' /\ min_heap_size_ q' = m.
Proof.
  intros I L B N. pose proof (i_room q n c I). pose proof (i_size q n c I). unfold Resize, kMinimumSize in *.
  replace (size_ q <? m) with true by lia. replace (negb (m =? min_heap_size_ q)) with true by lia. eexists. split; [reflexivity|].
  assert (same_below (min_heap_ q) (realloc undefined (min_heap_ q) m) n) as S by (apply realloc_same; lia).
  split; [|split; [exact S|split; [split; reflexivity|reflexivity]]].
  apply (indexed_same q); auto; cbn; [apply size_realloc; lia|lia].
Qed.

(** ** The operations *)
Definition queue (q : t) (c : Z -> option Z) : Prop := indexed q (size_ q) c /\ ordered (min_heap_ q) (size_ q).

Lemma new_queue : returns (fun q => queue q (fun _ => None) /\ SimpleHashMap.capacity_ (hashmap_ q) = kMinimumSize) (PriorityQueue undefined).
Proof.
  unfold PriorityQueue. destruct (Initialize_represents MatchFun (uN 32) kMinimumSize) as (m & -> & R & C & O); [exists 4; split; [lia|reflexivity]|].
  cbn [rbind]. apply returns_done. split; [|exact C]. split; [|intros p c E L; unfold edge in E; cbn in L; lia].
  constructor; cbn [min_heap_ min_heap_size_ hashmap_ size_]; auto; try reflexivity; try (unfold kMinimumSize; lia).
  - exists (fun _ => None). split; [exists (fun _ => None); auto|]. intros v i _. split; [discriminate|lia].
  - intros i Hi. lia.
  - intros v p. split; [discriminate|]. intros (i & Hi & _). lia.
Qed.

(** The offset of a value. *)
Lemma find_value q n c v : indexed q n c -> port v ->
  exists r, FindMapEntry v false (hashmap_ q) = Done (r, hashmap_ q) /\
    match r with
    | Some p => exists i, ValueOfMapEntry p (hashmap_ q) = Done i /\ 0 <= i < n /\ value (at_ (min_heap_ q) i) = v /\ c v = Some (prio (min_heap_ q) i)
    | None => c v = None
    end.
Proof.
  intros I P. pose proof (indexed_below q n c I). destruct (i_offsets q n c I) as (g & O & V).
  destruct (FindMapEntry_finds _ g v O P) as ([p|] & E & FH); [exists (Some p)|exists None]; (split; [exact E|]).
  - destruct FH as (i & E' & G). apply V in G as [Hi W]; [|exact P]. exists i. rewrite E', sN_small by (unfold is_sN; lia).
    repeat split; auto; try lia. apply (i_held q n c I). exists i. split; [exact Hi|]. unfold prio. rewrite <- W. destruct (at_ (min_heap_ q) i). reflexivity.
  - destruct (c v) as [p|] eqn:C; [|reflexivity]. apply (i_held q n c I) in C as (i & Hi & A).
    assert (g v = Some i) by (apply V; [exact P|]; rewrite A; auto). congruence.
Qed.

Lemma free_value q n c g v : indexed q n c -> inverse (min_heap_ q) n g -> port v -> c v = None -> g v = None.
Proof.
  intros I V PV CV. destruct (g v) as [i|] eqn:E; [|reflexivity]. apply V in E as [Hi W]; [|exact PV]. exfalso.
  assert (c v = Some (prio (min_heap_ q) i)); [|congruence]. apply (i_held _ _ _ I). exists i. split; [exact Hi|]. unfold prio.
  rewrite <- W. destruct (at_ (min_heap_ q) i). reflexivity.
Qed.
Lemma Set_adds q n c p v : indexed q n c -> n < min_heap_size_ q -> port v -> 0 <= p < 2 ^ 63 -> c v = None -> SimpleHashMap.capacity_ (hashmap_ q) <= 2 ^ 30 ->
  returns (fun q' => indexed q' (n + 1) (bind c v p) /\ min_heap_ q' = upd (min_heap_ q) n (mkEntry p v) /\ size_ q' = size_ q) (Set_ n (mkEntry p v) q).
Proof.
  intros I L PV HP CV CB. pose proof (i_size _ _ _ I) as SZ. pose proof (i_room _ _ _ I) as RM. pose proof (indexed_below _ _ _ I) as NB.
  destruct (i_offsets _ _ _ I) as (g & G & V). pose proof (free_value q n c g v I V PV CV) as GV. set (h := min_heap_ q) in *.
  unfold Set_. fold h. rewrite set_upd by lia. cbn [rbind value].
  eapply returns_bind; [apply (SetMapEntry_adds _ g); auto; lia|]. intros m (O & OC). apply returns_done.
  split; [|split; reflexivity]. assert (X : forall i, 0 <= i < n + 1 -> at_ (upd h n (mkEntry p v)) i = if i =? n then mkEntry p v else at_ h i) by (intros; apply item_upd; lia).
  constructor; cbn [min_heap_ min_heap_size_ hashmap_ with_map with_heap].
  - rewrite size_upd. exact SZ.
  - apply I.
  - lia.
  - eexists. split; [exact O|]. intros w i PW. unfold bind. destruct (Z.eqb_spec w v) as [->|NV].
    + split; [intros [= <-]; split; [lia|]; rewrite X, Z.eqb_refl by lia; reflexivity|].
      intros [Hi E]. rewrite X in E by lia. destruct (Z.eqb_spec i n); [congruence|]. assert (g v = Some i) by (apply V; [exact PV|]; split; [lia|exact E]). congruence.
    + rewrite (V w i PW). split; intros [Hi E].
      * split; [lia|]. rewrite X by lia. replace (i =? n) with false by lia. exact E.
      * rewrite X in E by lia. destruct (Z.eqb_spec i n); [cbn in E; congruence|]. split; [lia|exact E].
  - rewrite OC, (i_occupancy _ _ _ I). reflexivity.
  - intros i Hi. unfold prio. rewrite X by lia. destruct (Z.eqb_spec i n); [auto|]. apply (i_timeouts _ _ _ I). lia.
  - intros w x. unfold bind. destruct (Z.eqb_spec w v) as [->|NV].
    + split; [intros [= <-]; exists n; split; [lia|]; rewrite X, Z.eqb_refl by lia; reflexivity|].
      intros (i & Hi & E). rewrite X in E by lia. destruct (Z.eqb_spec i n); [congruence|].
      assert (c v = Some x); [|congruence]. apply (i_held _ _ _ I). exists i. split; [lia|exact E].
    + rewrite (i_held _ _ _ I w x). split; intros (i & Hi & E); exists i.
      * split; [lia|]. rewrite X by lia. replace (i =? n) with false by lia. exact E.
      * rewrite X in E by lia. destruct (Z.eqb_spec i n); [congruence|]. split; [lia|exact E].
Qed.
Lemma Insert_queue q c p v : queue q c -> port v -> 0 <= p < 2 ^ 63 -> c v = None -> SimpleHashMap.capacity_ (hashmap_ q) <= 2 ^ 30 ->
  returns (fun q' => queue q' (bind c v p)) (Insert undefined p v q).
Proof.
  intros [I O] PV HP CV CB. unfold Insert, ContainsValue. destruct (find_value q _ c v I PV) as ([x|] & -> & FV).
  { destruct FV as (i & _ & _ & _ & FV). congruence. }
  cbn [rbind negb].
  eapply (returns_bind (fun q' => indexed q' (size_ q) c /\ ordered (min_heap_ q') (size_ q) /\ same_shape q q' /\ size_ q < min_heap_size_ q')).
  { pose proof (i_room _ _ _ I). pose proof (i_min _ _ _ I). destruct (Z.eqb_spec (size_ q) (min_heap_size_ q)) as [E|N].
    - rewrite Z.shiftl_mul_pow2 by lia. change (2 ^ 1) with 2. unfold kMinimumSize in *.
      destruct (Resize_indexed q _ c (min_heap_size_ q * 2) I) as (q' & -> & I' & S & SH & M); unfold kMinimumSize; try lia.
      apply returns_done. split; [exact I'|]. split; [apply (ordered_same _ _ _ S O)|]. split; [exact SH|lia].
    - apply returns_done. split; [exact I|]. split; [exact O|]. split; [split; reflexivity|lia]. }
  intros q1 (I1 & O1 & [S1 C1] & L1). rewrite S1. set (n := size_ q) in *. pose proof (i_size _ _ _ I1) as SZ1. pose proof (i_room _ _ _ I1).
  eapply returns_bind; [apply (Set_adds q1 n c p v); auto; congruence|]. intros q2 (I2 & H2 & S2). rewrite S2, S1. fold n.
  eapply returns_bind; [apply (BubbleUp_orders (n + 1) (bind c v p)); [exact I2|lia| |lia]|].
  - rewrite H2. split; [|intros a b _ E C; unfold edge in E; lia]. intros a b E C N. unfold prio. rewrite !item_upd by (unfold edge in E; lia).
    replace (a =? n) with false by (unfold edge in E; lia). replace (b =? n) with false by lia. apply O1; [exact E|lia].
  - intros q3 (I3 & O3 & S3 & _). apply returns_done. unfold queue. cbn [size_ min_heap_ with_size]. replace (size_ q3 + 1) with (n + 1) by lia. split; [|exact O3].
    apply (indexed_same q3); auto; [intros i _; reflexivity|apply (i_size _ _ _ I3)|apply (i_min _ _ _ I3)|apply (i_room _ _ _ I3)].
Qed.

Lemma root_least h n i : ordered h n -> 0 <= i < n -> prio h 0 <= prio h i.
Proof.
  intros O Hi. assert (G : forall m j, 0 <= j < n -> j < Z.of_nat m -> prio h 0 <= prio h j); [|apply (G (S (Z.to_nat i))); lia].
  induction m as [|m IH]; intros j Hj Hm; [lia|]. destruct (Z.eq_dec j 0) as [->|N]; [lia|].
  assert (E : edge ((j - 1) / 2) j) by (unfold edge; pose proof (Z.div_mod (j - 1) 2); pose proof (Z.mod_pos_bound (j - 1) 2); pose proof (Z.div_pos (j - 1) 2); lia).
  pose proof (O _ _ E ltac:(lia)). pose proof (IH ((j - 1) / 2) ltac:(unfold edge in E; lia) ltac:(unfold edge in E; lia)). lia.
Qed.
Lemma Minimum_least q c : queue q c -> IsEmpty q = false ->
  exists e, Minimum q = Done e /\ c (value e) = Some (priority e) /\ forall v p, c v = Some p -> priority e <= p.
Proof.
  intros [I O] E. unfold Minimum. rewrite E. unfold IsEmpty in E. pose proof (i_room _ _ _ I). pose proof (i_size _ _ _ I).
  exists (at_ (min_heap_ q) 0). split; [apply get_item; lia|]. split.
  - apply (i_held _ _ _ I). exists 0. split; [lia|]. destruct (at_ (min_heap_ q) 0). reflexivity.
  - intros v p C. apply (i_held _ _ _ I) in C as (i & Hi & A). pose proof (root_least _ _ i O Hi) as L. unfold prio in L. rewrite A in L. exact L.
Qed.
Lemma IsEmpty_none q c : queue q c -> IsEmpty q = true -> forall v, c v = None.
Proof.
  intros [I _] E v. unfold IsEmpty in E. destruct (c v) as [p|] eqn:C; [|reflexivity]. apply (i_held _ _ _ I) in C as (i & Hi & _). lia.
Qed.

Lemma held_at q n c i : indexed q n c -> 0 <= i < n -> c (value (at_ (min_heap_ q) i)) = Some (prio (min_heap_ q) i).
Proof. intros I Hi. apply (i_held _ _ _ I). exists i. split; [exact Hi|]. unfold prio. destruct (at_ (min_heap_ q) i). reflexivity. Qed.

(** Taking the element at [k] out: the last one takes its place, if it is not the last. *)
Lemma drop_indexed q q' n c k : indexed q n c -> 0 <= k < n ->
  size (min_heap_ q') = min_heap_size_ q' -> kMinimumSize <= min_heap_size_ q' -> n - 1 <= min_heap_size_ q' ->
  (forall i, 0 <= i < n - 1 -> at_ (min_heap_ q') i = at_ (min_heap_ q) (if i =? k then n - 1 else i)) ->
  (exists g, offsets (hashmap_ q') g /\ inverse (min_heap_ q') (n - 1) g) -> SimpleHashMap.occupancy_ (hashmap_ q') = n - 1 ->
  indexed q' (n - 1) (unbind c (value (at_ (min_heap_ q) k))).
Proof.
  intros I Hk SZ MN RM X O OC. constructor; auto; try lia.
  - intros i Hi. unfold prio. rewrite X by exact Hi. apply (i_timeouts _ _ _ I). destruct (i =? k); lia.
  - intros v p. unfold unbind. destruct (Z.eqb_spec v (value (at_ (min_heap_ q) k))) as [->|N].
    + split; [discriminate|]. intros (i & Hi & E). rewrite X in E by exact Hi. exfalso.
      assert ((if i =? k then n - 1 else i) = k); [|destruct (Z.eqb_spec i k); lia].
      apply (indexed_inj q n c); auto; [destruct (i =? k); lia|]. rewrite E. reflexivity.
    + rewrite (i_held _ _ _ I v p). split; intros (i & Hi & E).
      * destruct (Z.eq_dec i (n - 1)) as [->|NI].
        -- exists k. assert (k <> n - 1) by (intros ->; rewrite E in N; cbn in N; congruence). split; [lia|]. rewrite X, Z.eqb_refl by lia. exact E.
        -- exists i. assert (i <> k) by (intros ->; rewrite E in N; cbn in N; congruence). split; [lia|]. rewrite X by lia. replace (i =? k) with false by lia. exact E.
      * rewrite X in E by exact Hi. exists (if i =? k then n - 1 else i). split; [destruct (i =? k); lia|exact E].
Qed.

Lemma offset_of q n c g i : indexed q n c -> inverse (min_heap_ q) n g -> 0 <= i < n ->
  port (value (at_ (min_heap_ q) i)) /\ g (value (at_ (min_heap_ q) i)) = Some i.
Proof. intros I V Hi. pose proof (proj1 (i_timeouts _ _ _ I i Hi)) as P. split; [exact P|]. apply V; auto. Qed.

(** [RemoveAt] of the last element. *)
Lemma last_dropped q n c : indexed q n c -> 0 < n -> n = size_ q ->
  returns (fun q' => indexed q' (n - 1) (unbind c (value (at_ (min_heap_ q) (n - 1)))) /\ size_ q' = n - 1 /\ min_heap_ q' = min_heap_ q)
    (let q := with_size q (size_ q - 1) in
     let* e := get (min_heap_ q) (n - 1) in let* m := RemoveMapEntry (value e) (hashmap_ q) in Done (with_map q m)).
Proof.
  intros I L ->. set (n := size_ q) in *. pose proof (i_size _ _ _ I) as SZ. pose proof (i_room _ _ _ I) as RM.
  destruct (i_offsets _ _ _ I) as (g & G & V). destruct (offset_of q n c g (n - 1) I V) as [PK GK]; [lia|]. set (h := min_heap_ q) in *.
  cbn zeta. cbn [min_heap_ hashmap_ with_size]. rewrite (get_item undefined) by (fold h; lia). cbn [rbind]. fold h.
  eapply returns_bind; [apply (RemoveMapEntry_removes _ g); auto; congruence|]. intros m (Om & _ & OC). apply returns_done. split; [|split; reflexivity].
  apply (drop_indexed q); cbn [min_heap_ min_heap_size_ hashmap_ with_map with_size]; auto; try lia; try apply I.
  - intros i Hi. replace (i =? n - 1) with false by lia. reflexivity.
  - eexists. split; [exact Om|]. intros v i PV. unfold unbind. destruct (Z.eqb_spec v (value (at_ h (n - 1)))) as [->|NV].
    + split; [discriminate|]. intros [Hi E]. exfalso. assert (g (value (at_ h (n - 1))) = Some i) by (apply V; [exact PV|]; split; [lia|exact E]). assert (i = n - 1) by congruence. lia.
    + rewrite (V v i PV). fold h. split; intros [Hi E]; (split; [|exact E]); [|lia]. assert (i <> n - 1) by (intros ->; congruence). lia.
  - rewrite OC, (i_occupancy _ _ _ I). reflexivity.
Qed.
(** [RemoveAt] of another: the last one takes its place. *)
Lemma Replace_drops q n c k : indexed q n c -> n = size_ q -> 0 <= k < n - 1 ->
  returns (fun q' => indexed q' (n - 1) (unbind c (value (at_ (min_heap_ q) k))) /\ size_ q' = n - 1 /\ min_heap_ q' = upd (min_heap_ q) k (at_ (min_heap_ q) (n - 1)))
    (Replace k (n - 1) (with_size q (n - 1))).
Proof.
  intros I -> Hk. set (n := size_ q) in *. pose proof (i_size _ _ _ I) as SZ. pose proof (i_room _ _ _ I) as RM. pose proof (indexed_below _ _ _ I) as NB.
  destruct (i_offsets _ _ _ I) as (g & G & V). destruct (offset_of q n c g k I V) as [PK GK]; [lia|]. destruct (offset_of q n c g (n - 1) I V) as [PL GL]; [lia|].
  set (h := min_heap_ q) in *. unfold Replace. cbn [min_heap_ hashmap_ with_size]. fold h. rewrite (get_item undefined) by lia. cbn [rbind].
  eapply returns_bind; [apply (RemoveMapEntry_removes _ g); auto; congruence|]. intros m (Om & _ & OC). rewrite (get_item undefined) by lia. cbn [rbind].
  assert (NV : value (at_ h (n - 1)) <> value (at_ h k)) by (intros E; rewrite E in GL; assert (n - 1 = k) by congruence; lia).
  eapply returns_bind; [apply (SetMapEntry_moves m _ _ k Om PL); [unfold unbind; replace (_ =? _) with false by lia; congruence|lia]|].
  intros m' (Om' & _ & OC'). rewrite set_upd by lia. cbn [rbind]. apply returns_done. split; [|split; reflexivity].
  assert (X : forall i, 0 <= i < n - 1 -> at_ (upd h k (at_ h (n - 1))) i = at_ h (if i =? k then n - 1 else i)).
  { intros i Hi. rewrite item_upd by lia. destruct (i =? k); reflexivity. }
  apply (drop_indexed q); cbn [min_heap_ min_heap_size_ hashmap_ with_map with_heap with_size]; auto; try lia; try apply I.
  - rewrite size_upd. exact SZ.
  - eexists. split; [exact Om'|]. intros v i PV. unfold bind, unbind. split.
    + destruct (Z.eqb_spec v (value (at_ h (n - 1)))) as [->|N1]; [intros [= <-]; split; [lia|]; rewrite X, Z.eqb_refl by lia; reflexivity|].
      destruct (Z.eqb_spec v (value (at_ h k))) as [->|N2]; [discriminate|]. intros E. apply V in E as [Hi E]; [|exact PV]. fold h in E.
      assert (i <> n - 1) by congruence. assert (i <> k) by congruence. split; [lia|]. rewrite X by lia. replace (i =? k) with false by lia. exact E.
    + intros [Hi E]. rewrite X in E by exact Hi. assert (HX : 0 <= (if i =? k then n - 1 else i) < n) by (destruct (i =? k); lia).
      pose proof (proj2 (V v _ PV) (conj HX E)) as Q. destruct (Z.eqb_spec i k) as [->|NI]; [rewrite <- E, Z.eqb_refl; reflexivity|].
      destruct (Z.eqb_spec v (value (at_ h (n - 1)))) as [->|]; [assert (i = n - 1) by congruence; lia|].
      destruct (Z.eqb_spec v (value (at_ h k))) as [->|]; [assert (i = k) by congruence; lia|]. exact Q.
  - rewrite OC', OC, (i_occupancy _ _ _ I). reflexivity.
Qed.
Lemma replaced_down_except h n k : ordered h n -> n <= size h -> 0 <= k < n - 1 -> (forall p, edge p k -> prio h p <= prio h (n - 1)) ->
  down_except (upd h k (at_ h (n - 1))) (n - 1) k.
Proof.
  intros O SZ Hk P. assert (X : forall i, 0 <= i < n - 1 -> prio (upd h k (at_ h (n - 1))) i = prio h (if i =? k then n - 1 else i)).
  { intros i Hi. unfold prio. rewrite item_upd by lia. destruct (i =? k); reflexivity. }
  split.
  - intros a b E B NA. rewrite !X by (unfold edge in E; lia). replace (a =? k) with false by lia. destruct (Z.eqb_spec b k) as [->|]; [apply P, E|apply O; [exact E|lia]].
  - intros a b EA EB B. rewrite !X by (unfold edge in *; lia). replace (a =? k) with false by (unfold edge in *; lia). replace (b =? k) with false by (unfold edge in *; lia).
    pose proof (O a k EA ltac:(lia)). pose proof (O k b EB ltac:(lia)). lia.
Qed.

Lemma RemoveAt_indexed q c k : queue q c -> 0 <= k < size_ q ->
  returns (fun q' => indexed q' (size_ q - 1) (unbind c (value (at_ (min_heap_ q) k))) /\ size_ q' = size_ q - 1 /\
    ((forall p, edge p k -> prio (min_heap_ q) p <= prio (min_heap_ q) (size_ q - 1)) -> ordered (min_heap_ q') (size_ q - 1))) (RemoveAt undefined k q).
Proof.
  intros [I O] Hk. set (n := size_ q) in *. pose proof (i_size _ _ _ I) as SZ. pose proof (i_room _ _ _ I) as RM.
  unfold RemoveAt. replace (k <? size_ q) with true by lia. cbn zeta. cbn [size_ with_size]. fold n.
  eapply (returns_bind (fun q' => indexed q' (n - 1) (unbind c (value (at_ (min_heap_ q) k))) /\ size_ q' = n - 1 /\
    ((forall p, edge p k -> prio (min_heap_ q) p <= prio (min_heap_ q) (n - 1)) -> ordered (min_heap_ q') (n - 1)))).
  - destruct (Z.eqb_spec k (n - 1)) as [->|NK].
    + eapply returns_weaken; [apply (last_dropped q n c I); [lia|reflexivity]|]. intros q' (I' & S' & H'). split; [exact I'|]. split; [exact S'|].
      intros _ a b E B. rewrite H'. apply O; [exact E|lia].
    + eapply returns_bind; [apply (Replace_drops q n c k I); [reflexivity|lia]|]. intros q' (I' & S' & H'). unfold BubbleDown. rewrite S'.
      eapply returns_weaken; [apply (BubbleDown_orders (n - 1) (unbind c (value (at_ (min_heap_ q) k))) _ k q' I' S'); lia|].
      intros q'' (I'' & O'' & SH & _). split; [exact I''|]. split; [congruence|]. intros P. apply O''. rewrite H'. apply replaced_down_except; auto; lia.
  - intros q' (I' & S' & O'). pose proof (i_room _ _ _ I'). pose proof (i_min _ _ _ I'). rewrite S'.
    destruct ((n - 1 <=? min_heap_size_ q' >> 2) && (kMinimumSize <=? min_heap_size_ q' >> 1)) eqn:E; [|apply returns_done; auto].
    rewrite !Z.shiftr_div_pow2 in * by lia. change (2 ^ 2) with 4 in *. change (2 ^ 1) with 2 in *. unfold kMinimumSize in *.
    pose proof (Z.div_mod (min_heap_size_ q') 4). pose proof (Z.mod_pos_bound (min_heap_size_ q') 4). pose proof (Z.div_mod (min_heap_size_ q') 2). pose proof (Z.mod_pos_bound (min_heap_size_ q') 2).
    destruct (Resize_indexed q' (n - 1) _ (min_heap_size_ q' / 2) I') as (q'' & -> & I'' & S & [SH _] & _); unfold kMinimumSize; try lia.
    apply returns_done. split; [exact I''|]. split; [congruence|]. intros P. apply (ordered_same _ _ _ S), O', P.
Qed.
Lemma RemoveMinimum_queue q c : queue q c -> IsEmpty q = false ->
  exists e, Minimum q = Done e /\ returns (fun q' => queue q' (unbind c (value e))) (RemoveMinimum undefined q).
Proof.
  intros [I O] E. unfold Minimum, RemoveMinimum. rewrite E. unfold IsEmpty in E. pose proof (i_room _ _ _ I). pose proof (i_size _ _ _ I).
  exists (at_ (min_heap_ q) 0). split; [apply get_item; lia|]. cbn [negb].
  eapply returns_weaken; [apply (RemoveAt_indexed q c 0 (conj I O)); lia|]. intros q' (I' & S' & O'). unfold queue. rewrite S'. split; [exact I'|].
  apply O'. intros p EP. unfold edge in EP. lia.
Qed.
(** The value is removed and all others are kept; the order may be lost (see below). *)
Lemma RemoveByValue_indexed q c v : queue q c -> port v ->
  returns (fun '(b, q') => b = match c v with Some _ => true | None => false end /\ indexed q' (size_ q') (unbind c v)) (RemoveByValue undefined v q).
Proof.
  intros Q PV. pose proof Q as [I O]. unfold RemoveByValue. destruct (find_value q _ c v I PV) as ([p|] & -> & F); cbn [rbind].
  - destruct F as (i & -> & Hi & E & CV). cbn [rbind]. eapply returns_bind; [apply (RemoveAt_indexed q c i Q Hi)|]. intros q' (I' & S' & _). rewrite E in I'.
    rewrite (i_occupancy _ _ _ I'), S', Z.eqb_refl. apply returns_done. rewrite CV, S'. auto.
  - apply returns_done. rewrite F. split; [reflexivity|]. destruct I as [? ? ? ? ? ? H]. constructor; auto.
    intros w x. unfold unbind. destruct (Z.eqb_spec w v) as [->|]; [rewrite <- F|]; apply H.
Qed.

Lemma change_indexed q n c i p : indexed q n c -> 0 <= i < n -> 0 <= p < 2 ^ 63 ->
  indexed (with_heap q (upd (min_heap_ q) i (mkEntry p (value (at_ (min_heap_ q) i))))) n (bind c (value (at_ (min_heap_ q) i)) p).
Proof.
  intros I Hi HP. pose proof (i_size _ _ _ I) as SZ. pose proof (i_room _ _ _ I) as RM. set (h := min_heap_ q) in *. set (v := value (at_ h i)).
  assert (X : forall j, 0 <= j < n -> at_ (upd h i (mkEntry p v)) j = if j =? i then mkEntry p v else at_ h j) by (intros; apply item_upd; lia).
  assert (XV : forall j, 0 <= j < n -> value (at_ (upd h i (mkEntry p v)) j) = value (at_ h j)) by (intros j Hj; rewrite X by exact Hj; destruct (Z.eqb_spec j i); subst; reflexivity).
  constructor; cbn [min_heap_ min_heap_size_ hashmap_ with_heap].
  - rewrite size_upd. exact SZ.
  - apply I.
  - exact RM.
  - destruct (i_offsets _ _ _ I) as (g & G & V). exists g. split; [exact G|]. intros w j PW. rewrite (V w j PW). fold h. split; intros [Hj E]; (split; [exact Hj|]); rewrite XV in * by exact Hj; exact E.
  - apply I.
  - intros j Hj. destruct (i_timeouts _ _ _ I j Hj) as [PJ RJ]. unfold prio. rewrite X by exact Hj. destruct (Z.eqb_spec j i) as [->|]; [|split; [exact PJ|exact RJ]]. split; [exact PJ|exact HP].
  - intros w x. unfold bind. destruct (Z.eqb_spec w v) as [->|NV].
    + split; [intros [= <-]; exists i; split; [lia|]; rewrite X, Z.eqb_refl by lia; reflexivity|].
      intros (j & Hj & E). pose proof (XV j Hj) as EV. rewrite E in EV. assert (j = i) by (apply (indexed_inj q n c); auto).
      subst j. rewrite X, Z.eqb_refl in E by lia. congruence.
    + rewrite (i_held _ _ _ I w x). fold h. split; intros (j & Hj & E); exists j; (split; [exact Hj|]).
      * rewrite X by exact Hj. destruct (Z.eqb_spec j i) as [->|]; [|exact E]. exfalso. apply NV. unfold v. rewrite E. reflexivity.
      * rewrite X in E by exact Hj. destruct (Z.eqb_spec j i) as [->|]; [|exact E]. congruence.
Qed.
(** A changed priority is out of order in one direction only. *)
Lemma changed_order h n i p e : ordered h n -> n <= size h -> 0 <= i < n -> e = mkEntry p (value (at_ h i)) ->
  (forall a, edge a i -> p <= prio h a -> up_except (upd h i e) n i) /\ ((forall a, edge a i -> prio h a <= p) -> down_except (upd h i e) n i) /\
  (forall a, edge a i -> prio h a = p -> ordered (upd h i e) n).
Proof.
  intros O SZ Hi ->. assert (X : forall j, 0 <= j < n -> prio (upd h i (mkEntry p (value (at_ h i)))) j = if j =? i then p else prio h j).
  { intros j Hj. unfold prio. rewrite item_upd by lia. destruct (j =? i); reflexivity. }
  assert (B : bridged (upd h i (mkEntry p (value (at_ h i)))) n i).
  { intros a b EA EB L. rewrite !X by (unfold edge in *; lia). replace (a =? i) with false by (unfold edge in *; lia). replace (b =? i) with false by (unfold edge in *; lia).
    pose proof (O a i EA ltac:(lia)). pose proof (O i b EB L). lia. }
  assert (U : forall a, edge a i -> p <= prio h a -> up_except (upd h i (mkEntry p (value (at_ h i)))) n i).
  { intros x EX LX. split; [|exact B]. intros a b E L N. rewrite !X by (unfold edge in *; lia). replace (b =? i) with false by lia. pose proof (O a b E L).
    destruct (Z.eqb_spec a i) as [->|]; [pose proof (O x i EX ltac:(lia)); lia|lia]. }
  split; [exact U|]. split.
  - intros D. split; [|exact B]. intros a b E L N. rewrite !X by (unfold edge in *; lia). replace (a =? i) with false by lia.
    destruct (Z.eqb_spec b i) as [->|]; [apply D, E|apply O; assumption].
  - intros x EX LX a b E L. destruct (Z.eq_dec b i) as [->|NB]; [|exact (proj1 (U x EX ltac:(lia)) a b E L NB)].
    rewrite !X by (unfold edge in *; lia). rewrite Z.eqb_refl. replace (a =? i) with false by (unfold edge in *; lia).
    assert (a = x) by (unfold edge in *; lia). subst. lia.
Qed.
Lemma InsertOrChangePriority_queue q c p v : queue q c -> port v -> 0 <= p < 2 ^ 63 -> SimpleHashMap.capacity_ (hashmap_ q) <= 2 ^ 30 ->
  returns (fun '(b, q') => b = match c v with Some _ => false | None => true end /\ queue q' (bind c v p)) (InsertOrChangePriority undefined p v q).
Proof.
  intros Q PV HP CB. pose proof Q as [I O]. unfold InsertOrChangePriority. destruct (find_value q _ c v I PV) as ([x|] & -> & F); cbn [rbind].
  2: { rewrite F. eapply returns_bind; [apply (Insert_queue q c p v); auto|]. intros q' H. apply returns_done. auto. }
  destruct F as (i & -> & Hi & E & ->). cbn [rbind]. replace (i <? size_ q) with true by lia. pose proof (i_size _ _ _ I) as SZ. pose proof (i_room _ _ _ I) as RM.
  rewrite (get_item undefined) by lia. cbn [rbind]. rewrite set_upd by lia. cbn [rbind].
  pose proof (change_indexed q _ c i p I Hi HP) as I'. rewrite E in I' |- *. set (h := min_heap_ q) in *. set (e := mkEntry p v) in *.
  destruct (changed_order h (size_ q) i p e O ltac:(lia) Hi ltac:(unfold e; congruence)) as (U & D & S).
  eapply (returns_bind (fun q' => queue q' (bind c v p))); [|intros q' H; apply returns_done; auto].
  assert (DOWN : (forall a, edge a i -> prio h a <= p) -> returns (fun q' => queue q' (bind c v p)) (BubbleDown i (with_heap q (upd h i e)))).
  { intros A. unfold BubbleDown. cbn [size_ with_heap]. eapply returns_weaken; [apply (BubbleDown_orders (size_ q) (bind c v p) _ i _ I'); [reflexivity|lia|lia]|].
    intros q' (I2 & O2 & S2 & _). cbn [size_ with_heap] in S2. unfold queue. rewrite S2. split; [exact I2|]. apply O2, D, A. }
  destruct (Z.eqb_spec i 0) as [->|NI]; [apply DOWN; unfold edge; lia|].
  set (a := Z.quot (i - 1) 2). assert (EA : edge a i).
  { unfold edge, a. rewrite Z.quot_div_nonneg by lia. pose proof (Z.div_mod (i - 1) 2). pose proof (Z.mod_pos_bound (i - 1) 2). lia. }
  assert (EU : forall b, edge b i -> b = a) by (unfold edge in *; lia).
  cbn [min_heap_ with_heap]. rewrite (get_item undefined) by (rewrite size_upd; unfold edge in EA; lia). cbn [rbind]. rewrite item_upd by (unfold edge in EA; lia).
  replace (a =? i) with false by (unfold edge in EA; lia). fold (prio h a). cbn [priority e].
  destruct (i_timeouts _ _ _ I a ltac:(unfold edge in EA; lia)) as [_ RA]. fold h in RA.
  replace ((- 2 ^ 63 <=? p - prio h a) && (p - prio h a <? 2 ^ 63)) with true by lia. rewrite Z.gtb_ltb.
  destruct (Z.ltb_spec (p - prio h a) 0); [|destruct (Z.ltb_spec 0 (p - prio h a))].
  - unfold BubbleUp. eapply returns_weaken; [apply (BubbleUp_orders (size_ q) (bind c v p) _ i _ I'); [lia|apply (U a EA); lia|lia]|].
    intros q' (I2 & O2 & S2 & _). cbn [size_ with_heap] in S2. unfold queue. rewrite S2. auto.
  - apply DOWN. intros b EB. rewrite (EU b EB). lia.
  - apply returns_done. split; [exact I'|]. apply (S a EA). lia.
Qed.
End Heap.

(** C9. The priority queue implements a finite map from values to priorities with
    access to the least priority.  A new queue is empty; [InsertOrChangePriority] binds
    the value, whether it was there or not, and says which; [Minimum] of a queue that is
    not empty is a binding with the least priority, and [RemoveMinimum] removes exactly
    that one; [ContainsValue] finds what is bound.  The heap order and the agreement of
    the hash map with the offsets in the heap are kept, through growing and shrinking of
    the array.  [RemoveByValue] removes the binding and keeps all others and that
    agreement, but not the order. *)
Theorem priority_queue_correct undefined q c p v :
  queue undefined q c -> port v -> 0 <= p < 2 ^ 63 -> SimpleHashMap.capacity_ (hashmap_ q) <= 2 ^ 30 ->
  returns (fun q => queue undefined q (fun _ => None)) (PriorityQueue undefined) /\
  returns (fun '(b, q') => b = match c v with Some _ => false | None => true end /\ queue undefined q' (bind c v p)) (InsertOrChangePriority undefined p v q) /\
  ContainsValue v q = Done (match c v with Some _ => true | None => false end) /\
  (if IsEmpty q then forall v, c v = None
   else exists e, Minimum q = Done e /\ c (value e) = Some (priority e) /\ (forall v p, c v = Some p -> priority e <= p) /\
     returns (fun q' => queue undefined q' (unbind c (value e))) (RemoveMinimum undefined q)) /\
  returns (fun '(b, q') => b = match c v with Some _ => true | None => false end /\ indexed undefined q' (size_ q') (unbind c v)) (RemoveByValue undefined v q).
Proof.
  intros Q PV HP CB. split; [|split; [|split; [|split]]].
  - eapply returns_weaken; [apply new_queue|]. intros q' [H _]. exact H.
  - apply InsertOrChangePriority_queue; assumption.
  - unfold ContainsValue. destruct (find_value undefined q _ c v (proj1 Q) PV) as ([x|] & -> & F); cbn [rbind]; [destruct F as (i & _ & _ & _ & ->)|rewrite F]; reflexivity.
  - destruct (IsEmpty q) eqn:E; [apply (IsEmpty_none undefined q c Q E)|].
    destruct (RemoveMinimum_queue undefined q c Q E) as (e & M & R). destruct (Minimum_least undefined q c Q E) as (e' & M' & C & L).
    exists e. assert (e' = e) by congruence. subst. auto.
  - apply RemoveByValue_indexed; assumption.
Qed.
Lemma priority_queue_correct_witness :
  exists q, PriorityQueue (mkEntry 0 0) = Done q /\
    returns (fun '(b, q') => b = true /\ queue (mkEntry 0 0) q' (bind (fun _ => None) 5 7)) (InsertOrChangePriority (mkEntry 0 0) 7 5 q).
Proof.
  eexists. split; [reflexivity|].
  refine (proj1 (proj2 (priority_queue_correct (mkEntry 0 0) _ (fun _ => None) 7 5 _ _ _ _))).
  - pose proof (new_queue (mkEntry 0 0)) as (q & E & H & _). injection E as <-. exact H.
  - split; [split; [discriminate|reflexivity]|discriminate].
  - split; [discriminate|reflexivity].
  - vm_compute. discriminate.
Defined.

