(* ===== verification/BitSet.v ===== *)
(** * Bit sets ([vm/bit_set.h])

    [BitSet<N>] as the list of its words.  The lemmas describe each operation by the
    bits of the set. *)

From Stdlib Require Import ZArith Bool List Lia.
From S2P Require Import Prelude Utils Result Arrays.
Import ListNotations.
Open Scope Z_scope.

Module BitSet.
Section BitSet.
Context (N : Z).

Definition kBitsPerWord : Z := 64.
Definition kBitsPerWordLog2 : Z := 6.
Definition kLengthInWords : Z := 1 + Z.quot (N - 1) kBitsPerWord.

Definition Reset : list Z := repeat 0 (Z.to_nat kLengthInWords).

Definition Set_ (i : Z) (value : bool) (data : list Z) : result (list Z) :=
  require i >=? 0;; require i <? N;;
  let mask := u64 (1 << (i .& (kBitsPerWord - 1))) in
  let* d := get data (i >> kBitsPerWordLog2) in
  set data (i >> kBitsPerWordLog2) (if value then d .| mask else d .& u64 (Z.lnot mask)).

Definition Test (i : Z) (data : list Z) : result bool :=
  require i >=? 0;; require i <? N;;
  let mask := u64 (1 << (i .& (kBitsPerWord - 1))) in
  let* d := get data (i >> kBitsPerWordLog2) in
  Done (negb ((d .& mask) =? 0)).

(** [while (++w < kLengthInWords)] *)
Fixpoint Next_loop (fuel : nat) (w : Z) (data : list Z) : result Z :=
  if w + 1 <? kLengthInWords then
    match fuel with
    | O => OutOfFuel
    | S fuel =>
        let* d := get data (w + 1) in
        if negb (d =? 0) then Done (((w + 1) << kBitsPerWordLog2) + countr_zero 64 d)
        else Next_loop fuel (w + 1) data
    end
  else Done (-1).
Definition Next (i : Z) (data : list Z) : result Z :=
  require i >=? 0;; require i <? N;;
  let w := i >> kBitsPerWordLog2 in
  let mask := u64 (kMaxUint64 << (i .& (kBitsPerWord - 1))) in
  let* d := get data w in
  if negb ((d .& mask) =? 0) then Done ((w << kBitsPerWordLog2) + countr_zero 64 (d .& mask))
  else Next_loop (length data) w data.

(** [for (int w = kLengthInWords - 1; w >= 0; --w)] *)
Fixpoint Last_loop (n : nat) (data : list Z) : result Z :=
  match n with
  | O => Done (-1)
  | S w =>
      let* d := get data (Z.of_nat w) in
      if negb (d =? 0) then Done (((Z.of_nat w + 1) << kBitsPerWordLog2) - countl_zero 64 d - 1)
      else Last_loop w data
  end.
Definition Last (data : list Z) : result Z := Last_loop (Z.to_nat kLengthInWords) data.

(** [while (bits == 0 && w > 0) bits = data_[--w];] from word [w]. *)
Fixpoint Previous_loop (w : nat) (bits : Z) (data : list Z) : result (Z * Z) :=
  if bits =? 0 then
    match w with
    | O => Done (bits, 0)
    | S w => let* bits := get data (Z.of_nat w) in Previous_loop w bits data
    end
  else Done (bits, Z.of_nat w).
Definition ClearLastAndFindPrevious (current_last : Z) (data : list Z) : result (Z * list Z) :=
  let* test := Test current_last data in
  require test;;
  let* last := Last data in
  require last =? current_last;;
  let w := current_last >> kBitsPerWordLog2 in
  let* bits := get data w in
  let bits := bits .^ u64 (1 << (current_last .& (kBitsPerWord - 1))) in
  let* data := set data w bits in
  let* (bits, w) := Previous_loop (Z.to_nat w) bits data in
  if bits =? 0 then Done (-1, data)
  else Done (((w + 1) << kBitsPerWordLog2) - countl_zero 64 bits - 1, data).

(** ** The bits of a set *)
Abbreviation word := (item 0).
Definition bit (data : list Z) (i : Z) : bool := Z.testbit (word data (i / 64)) (i mod 64).
Record wf (data : list Z) : Prop := {
  wf_length : size data = kLengthInWords;
  wf_words : forall w, 0 <= w < kLengthInWords -> is_uN 64 (word data w);
  wf_below : forall i, 0 <= i < 64 * kLengthInWords -> bit data i = true -> i < N }.

(** The least member from [i] on, and the greatest member; -1 where there is none. *)
Definition first_from (data : list Z) (i r : Z) : Prop :=
  (r = -1 /\ forall j, i <= j < N -> bit data j = false) \/ (i <= r < N /\ bit data r = true /\ forall j, i <= j < r -> bit data j = false).
Definition last (data : list Z) (r : Z) : Prop :=
  (r = -1 /\ forall j, 0 <= j < N -> bit data j = false) \/ (0 <= r < N /\ bit data r = true /\ forall j, r < j < N -> bit data j = false).

Context (HN : 0 < N).
Lemma length_bounds : 0 < kLengthInWords /\ N <= 64 * kLengthInWords.
Proof. unfold kLengthInWords, kBitsPerWord. rewrite Z.quot_div_nonneg by lia. pose proof (Z.div_mod (N - 1) 64). pose proof (Z.mod_pos_bound (N - 1) 64). pose proof (Z.div_pos (N - 1) 64). lia. Qed.
Lemma index_word i : 0 <= i -> i >> kBitsPerWordLog2 = i / 64 /\ i .& (kBitsPerWord - 1) = i mod 64.
Proof. intros Hi. unfold kBitsPerWordLog2, kBitsPerWord. split; [apply Z.shiftr_div_pow2; lia|]. change (64 - 1) with (Z.ones 6). apply Z.land_ones. lia. Qed.
Lemma word_range i : 0 <= i < 64 * kLengthInWords -> 0 <= i / 64 < kLengthInWords /\ 0 <= i mod 64 < 64 /\ i = 64 * (i / 64) + i mod 64.
Proof. intros Hi. pose proof (Z.div_mod i 64). pose proof (Z.mod_pos_bound i 64). pose proof (Z.div_pos i 64). pose proof (Z.div_lt_upper_bound i 64 kLengthInWords). lia. Qed.
Lemma bit_at data w b : 0 <= b < 64 -> bit data (64 * w + b) = Z.testbit (word data w) b.
Proof.
  intros Hb. unfold bit. rewrite Z.add_comm, Z.mul_comm, Z.div_add, Z.mod_add, Z.div_small, Z.mod_small by lia. reflexivity.
Qed.
Lemma is_word_bits x : (forall i, 64 <= i -> Z.testbit x i = false) -> is_uN 64 x.
Proof.
  intros B. assert (E : u64 x = x) by (apply Z.bits_inj'; intros i Hi; rewrite testbit_uN by lia; destruct (Z.ltb_spec i 64); [reflexivity|rewrite B by lia; reflexivity]).
  rewrite <- E. apply uN_range. lia.
Qed.
Lemma one_bit b i : 0 <= b < 64 -> Z.testbit (u64 (1 << b)) i = (i =? b).
Proof.
  intros Hb. destruct (Z.lt_ge_cases i 0) as [L|L]; [rewrite Z.testbit_neg_r by exact L; lia|].
  rewrite testbit_uN, testbit_shiftl by lia. destruct (Z.ltb_spec i b); [lia|]. destruct (Z.eqb_spec i b) as [->|N0]; [rewrite Z.sub_diag; cbn; lia|].
  rewrite (Z.bits_above_log2 1) by (cbn; lia). apply andb_false_r.
Qed.
Lemma land_one_bit d b : 0 <= b < 64 -> negb (d .& u64 (1 << b) =? 0) = Z.testbit d b.
Proof.
  intros Hb. destruct (Z.testbit d b) eqn:E.
  - apply negb_true_iff, Z.eqb_neq. intros Q. assert (Z.testbit (d .& u64 (1 << b)) b = true) by (rewrite Z.land_spec, one_bit, E, Z.eqb_refl by exact Hb; reflexivity).
    rewrite Q, Z.bits_0 in H. discriminate.
  - apply negb_false_iff, Z.eqb_eq. apply Z.bits_inj'. intros i _. rewrite Z.land_spec, one_bit, Z.bits_0 by exact Hb.
    destruct (Z.eqb_spec i b) as [->|]; [rewrite E; reflexivity|apply andb_false_r].
Qed.
Lemma lowest_bit x : 0 < x < 2 ^ 64 -> 0 <= countr_zero 64 x < 64 /\ Z.testbit x (countr_zero 64 x) = true /\ forall i, 0 <= i < countr_zero 64 x -> Z.testbit x i = false.
Proof.
  intros H. destruct (countr_zero_spec 64 x H) as [R (q & E)]. set (c := countr_zero 64 x) in *. split; [exact R|]. rewrite E. split.
  - rewrite Z.mul_pow2_bits, Z.sub_diag by lia. apply Z.testbit_odd_0.
  - intros i Hi. apply Z.mul_pow2_bits_low. lia.
Qed.
Lemma highest_bit x : 0 < x < 2 ^ 64 -> let c := 63 - countl_zero 64 x in 0 <= c < 64 /\ Z.testbit x c = true /\ forall i, c < i -> Z.testbit x i = false.
Proof.
  intros H. cbn zeta. unfold countl_zero, bit_width. replace (x =? 0) with false by lia. replace (63 - (64 - (Z.log2 x + 1))) with (Z.log2 x) by lia.
  split; [split; [apply Z.log2_nonneg|apply Z.log2_lt_pow2; lia]|]. split; [apply Z.bit_log2; lia|]. intros i Hi. apply Z.bits_above_log2; lia.
Qed.
Lemma word_zero x : is_uN 64 x -> (x =? 0) = false -> 0 < x < 2 ^ 64.
Proof. unfold is_uN. lia. Qed.
Lemma word_bits_zero x : is_uN 64 x -> (x =? 0) = true <-> forall b, 0 <= b < 64 -> Z.testbit x b = false.
Proof.
  intros U. split; [intros E b _; apply Z.eqb_eq in E; rewrite E; apply Z.bits_0|]. intros B. apply Z.eqb_eq, Z.bits_inj'. intros i Hi. rewrite Z.bits_0.
  destruct (Z.lt_ge_cases i 64); [apply B; lia|]. apply (testbit_uN_high 64); [exact U|lia].
Qed.
Lemma Reset_empty : wf Reset /\ forall i, bit Reset i = false.
Proof.
  pose proof length_bounds as L. assert (Z0 : forall w, word Reset w = 0).
  { intros w. unfold item, Reset. destruct (nth_in_or_default (Z.to_nat w) (repeat 0 (Z.to_nat kLengthInWords)) 0) as [I|E]; [apply repeat_spec in I; exact I|exact E]. }
  assert (B : forall i, bit Reset i = false) by (intros i; unfold bit; rewrite Z0; apply Z.bits_0).
  split; [|exact B]. split.
  - unfold size, Reset. rewrite repeat_length. lia.
  - intros w _. rewrite Z0. unfold is_uN. lia.
  - intros i _ E. rewrite B in E. discriminate.
Qed.

Section Operations.
Context (data : list Z) (W : wf data).

Lemma get_word w : 0 <= w < kLengthInWords -> get data w = Done (word data w).
Proof. intros Hw. apply (get_item 0). rewrite (wf_length data W). exact Hw. Qed.
Lemma in_words i : 0 <= i < N -> 0 <= i < 64 * kLengthInWords.
Proof. pose proof length_bounds. lia. Qed.

Lemma Test_bit i : 0 <= i < N -> Test i data = Done (bit data i).
Proof.
  intros Hi. destruct (word_range i (in_words i Hi)) as (R & M & E). unfold Test. destruct (index_word i) as [-> ->]; [lia|].
  replace (i >=? 0) with true by lia. replace (i <? N) with true by lia. cbn [rbind]. rewrite get_word by exact R. cbn [rbind].
  rewrite land_one_bit by exact M. reflexivity.
Qed.

(** Storing word [w] changes the bits of that word only. *)
Lemma set_word w x : 0 <= w < kLengthInWords -> is_uN 64 x -> (forall b, 0 <= b < 64 -> Z.testbit x b = true -> 64 * w + b < N) ->
  exists data', set data w x = Done data' /\ wf data' /\
    forall i, 0 <= i < 64 * kLengthInWords -> bit data' i = if i / 64 =? w then Z.testbit x (i mod 64) else bit data i.
Proof.
  intros Hw U B. assert (HB : forall i, 0 <= i < 64 * kLengthInWords -> bit (upd data w x) i = if i / 64 =? w then Z.testbit x (i mod 64) else bit data i).
  { intros i Hi. destruct (word_range i Hi) as (R & M & E). unfold bit. rewrite item_upd by (rewrite ?(wf_length data W); lia). destruct (Z.eqb_spec (i / 64) w); reflexivity. }
  exists (upd data w x). split; [apply set_upd; rewrite (wf_length data W); exact Hw|]. split; [|exact HB]. split.
  - rewrite size_upd. apply wf_length, W.
  - intros v Hv. rewrite item_upd by (rewrite ?(wf_length data W); lia). destruct (v =? w); [exact U|apply (wf_words data W), Hv].
  - intros i Hi E. rewrite HB in E by exact Hi. destruct (word_range i Hi) as (R & M & Q). destruct (Z.eqb_spec (i / 64) w) as [<-|]; [rewrite Q; apply B; assumption|apply (wf_below data W); assumption].
Qed.
Lemma is_word w : 0 <= w < kLengthInWords -> is_uN 64 (word data w).
Proof. apply (wf_words data W). Qed.
Lemma zero_word w i : 0 <= w < kLengthInWords -> (word data w =? 0) = true -> 64 * w <= i < 64 * (w + 1) -> bit data i = false.
Proof. intros Hw E Hi. replace i with (64 * w + (i - 64 * w)) by lia. rewrite bit_at by lia. apply (proj1 (word_bits_zero _ (is_word w Hw)) E). lia. Qed.

Lemma Set_bit i v : 0 <= i < N -> returns (fun data' => wf data' /\ forall j, 0 <= j < N -> bit data' j = if j =? i then v else bit data j) (Set_ i v data).
Proof.
  intros Hi. destruct (word_range i (in_words i Hi)) as (R & M & E). unfold Set_. destruct (index_word i) as [-> ->]; [lia|].
  replace (i >=? 0) with true by lia. replace (i <? N) with true by lia. rewrite get_word by exact R. cbn [rbind].
  set (x := if v then _ else _). assert (X : forall b, 0 <= b < 64 -> Z.testbit x b = if b =? i mod 64 then v else Z.testbit (word data (i / 64)) b).
  { intros b Hb. subst x. destruct v; [rewrite Z.lor_spec|rewrite Z.land_spec, testbit_uN, Z.lnot_spec by lia]; rewrite one_bit by exact M; destruct (Z.eqb_spec b (i mod 64)); cbn;
      rewrite ?orb_true_r, ?orb_false_r, ?andb_true_r, ?andb_false_r; try reflexivity. replace (b <? 64) with true by lia. apply andb_true_r. }
  destruct (set_word (i / 64) x R) as (data' & -> & W' & B).
  - apply is_word_bits. intros b Hb. subst x. pose proof (testbit_uN_high 64 _ b (is_word (i / 64) R)) as Q.
    destruct v; rewrite ?Z.lor_spec, ?Z.land_spec, ?one_bit, Q by lia; [lia|reflexivity].
  - intros b Hb T. rewrite X in T by exact Hb. destruct (Z.eqb_spec b (i mod 64)) as [->|]; [lia|].
    apply (wf_below data W); [lia|]. rewrite bit_at by exact Hb. exact T.
  - apply returns_done. split; [exact W'|]. intros j Hj. destruct (word_range j (in_words j Hj)) as (R' & M' & E'). rewrite B by (apply in_words; exact Hj).
    destruct (Z.eqb_spec (j / 64) (i / 64)) as [Q|Q]; [|replace (j =? i) with false by lia; reflexivity]. rewrite X by exact M'.
    replace (j mod 64 =? i mod 64) with (j =? i) by lia. unfold bit. rewrite Q. reflexivity.
Qed.

(** *** Searching upwards *)
Lemma lowest_of w x : 0 <= w < kLengthInWords -> 0 < x < 2 ^ 64 -> (forall b, 0 <= b < 64 -> Z.testbit x b = true -> Z.testbit (word data w) b = true) ->
  exists r, (w << kBitsPerWordLog2) + countr_zero 64 x = r /\ 64 * w <= r < 64 * (w + 1) /\ r < N /\ bit data r = true /\ Z.testbit x (r - 64 * w) = true /\
    forall j, 64 * w <= j < r -> Z.testbit x (j - 64 * w) = false.
Proof.
  intros Hw Hx S. destruct (lowest_bit x Hx) as (R & T & B). set (c := countr_zero 64 x) in *. exists (64 * w + c). unfold kBitsPerWordLog2. rewrite Z.shiftl_mul_pow2 by lia.
  split; [lia|]. split; [lia|]. assert (Q : bit data (64 * w + c) = true) by (rewrite bit_at by exact R; apply S; assumption).
  split; [apply (wf_below data W); [lia|exact Q]|]. split; [exact Q|]. split; [replace (64 * w + c - 64 * w) with c by lia; exact T|].
  intros j Hj. apply B. lia.
Qed.
Lemma Next_loop_first i n w : (Z.to_nat (kLengthInWords - 1 - w) <= n)%nat -> 0 <= w < kLengthInWords -> 0 <= i < 64 * (w + 1) ->
  (forall j, i <= j < 64 * (w + 1) -> bit data j = false) -> returns (first_from data i) (Next_loop n w data).
Proof.
  pose proof length_bounds as L. revert w. induction n as [|n IH]; intros w Hn Hw Hi Z0; cbn [Next_loop]; destruct (Z.ltb_spec (w + 1) kLengthInWords); try lia;
    try (apply returns_done; left; split; [reflexivity|]; intros j Hj; apply Z0; lia).
  rewrite get_word by lia. cbn [rbind]. destruct (word data (w + 1) =? 0) eqn:E; cbn [negb].
  - apply IH; try lia. intros j Hj. destruct (Z.lt_ge_cases j (64 * (w + 1))); [apply Z0; lia|apply (zero_word (w + 1)); try lia; exact E].
  - destruct (lowest_of (w + 1) (word data (w + 1))) as (r & -> & R & RN & T & _ & B); [lia|apply word_zero; [apply is_word; lia|exact E]|auto|].
    apply returns_done. right. split; [lia|]. split; [exact T|]. intros j Hj. destruct (Z.lt_ge_cases j (64 * (w + 1))); [apply Z0; lia|].
    replace j with (64 * (w + 1) + (j - 64 * (w + 1))) by lia. rewrite bit_at by lia. apply B. lia.
Qed.
Lemma from_mask_bit b i : 0 <= b < 64 -> 0 <= i < 64 -> Z.testbit (u64 (kMaxUint64 << b)) i = (b <=? i).
Proof.
  intros Hb Hi. rewrite testbit_uN, testbit_shiftl by lia. change kMaxUint64 with (Z.ones 64).
  destruct (Z.ltb_spec i b); [rewrite andb_false_r; lia|]. rewrite Z.ones_spec_low by lia. lia.
Qed.
Lemma Next_first i : 0 <= i < N -> returns (first_from data i) (Next i data).
Proof.
  intros Hi. destruct (word_range i (in_words i Hi)) as (R & M & E). unfold Next. destruct (index_word i) as [-> ->]; [lia|].
  replace (i >=? 0) with true by lia. replace (i <? N) with true by lia. rewrite get_word by exact R. cbn [rbind]. set (x := word data (i / 64) .& _).
  assert (X : forall b, 0 <= b < 64 -> Z.testbit x b = Z.testbit (word data (i / 64)) b && (i mod 64 <=? b)) by (intros b Hb; subst x; rewrite Z.land_spec, from_mask_bit by lia; reflexivity).
  assert (U : is_uN 64 x) by (apply is_word_bits; intros b Hb; subst x; rewrite Z.land_spec, (testbit_uN_high 64 _ b (is_word (i / 64) R)) by lia; reflexivity). destruct (x =? 0) eqn:Q; cbn [negb].
  - apply Next_loop_first; try lia; [unfold size in *; pose proof (wf_length data W); unfold size in *; lia|]. intros j Hj.
    replace j with (64 * (i / 64) + (j - 64 * (i / 64))) by lia. rewrite bit_at by lia. pose proof (proj1 (word_bits_zero x U) Q (j - 64 * (i / 64))) as B.
    rewrite X in B by lia. replace (i mod 64 <=? j - 64 * (i / 64)) with true in B by lia. rewrite andb_true_r in B. apply B. lia.
  - destruct (lowest_of (i / 64) x R) as (r & -> & Rr & RN & T & S & B); [apply word_zero; assumption|intros b Hb Tb; rewrite X in Tb by exact Hb; apply andb_prop in Tb; tauto|].
    apply returns_done. right. rewrite X in S by lia. apply andb_prop in S. split; [lia|]. split; [exact T|]. intros j Hj. specialize (B j). rewrite X in B by lia.
    replace (i mod 64 <=? j - 64 * (i / 64)) with true in B by lia. rewrite andb_true_r in B. replace j with (64 * (i / 64) + (j - 64 * (i / 64))) by lia. rewrite bit_at by lia. apply B. lia.
Qed.
(** *** Searching downwards *)
Lemma highest_of w : 0 <= w < kLengthInWords -> (word data w =? 0) = false -> (forall j, 64 * (w + 1) <= j < N -> bit data j = false) ->
  last data (((w + 1) << kBitsPerWordLog2) - countl_zero 64 (word data w) - 1).
Proof.
  intros Hw E Z0. destruct (highest_bit (word data w)) as (R & T & B); [apply word_zero; [apply is_word, Hw|exact E]|]. set (c := 63 - _) in *.
  replace (_ - _ - 1) with (64 * w + c) by (unfold kBitsPerWordLog2; rewrite Z.shiftl_mul_pow2 by lia; subst c; lia).
  assert (Q : bit data (64 * w + c) = true) by (rewrite bit_at by exact R; exact T). pose proof (wf_below data W (64 * w + c)).
  right. split; [lia|]. split; [exact Q|]. intros j Hj. destruct (Z.lt_ge_cases j (64 * (w + 1))); [|apply Z0; lia].
  replace j with (64 * w + (j - 64 * w)) by lia. rewrite bit_at by lia. apply B. lia.
Qed.
Lemma Last_loop_last n : Z.of_nat n <= kLengthInWords -> (forall j, 64 * Z.of_nat n <= j < N -> bit data j = false) -> returns (last data) (Last_loop n data).
Proof.
  induction n as [|w IH]; intros Hn Z0; cbn [Last_loop]; [apply returns_done; left; split; [reflexivity|]; intros j Hj; apply Z0; lia|].
  rewrite get_word by lia. cbn [rbind]. destruct (word data (Z.of_nat w) =? 0) eqn:E; cbn [negb].
  - apply IH; [lia|]. intros j Hj. destruct (Z.lt_ge_cases j (64 * (Z.of_nat w + 1))); [apply (zero_word (Z.of_nat w)); try lia; exact E|apply Z0; lia].
  - apply returns_done, highest_of; [lia|exact E|]. intros j Hj. apply Z0. lia.
Qed.
Lemma Last_last : returns (last data) (Last data).
Proof. pose proof length_bounds. apply Last_loop_last; [lia|]. intros j Hj. lia. Qed.
Lemma Previous_loop_last w : Z.of_nat w < kLengthInWords -> (forall j, 64 * (Z.of_nat w + 1) <= j < N -> bit data j = false) ->
  returns (fun '(bits, v) => if bits =? 0 then last data (-1) else last data (((v + 1) << kBitsPerWordLog2) - countl_zero 64 bits - 1)) (Previous_loop w (word data (Z.of_nat w)) data).
Proof.
  induction w as [|w IH]; intros Hw Z0; cbn [Previous_loop]; destruct (word data _ =? 0) eqn:E.
  - apply returns_done. rewrite E. left. split; [reflexivity|]. intros j Hj. destruct (Z.lt_ge_cases j 64); [apply (zero_word 0); try lia; exact E|apply Z0; lia].
  - apply returns_done. rewrite E. apply highest_of; assumption || lia.
  - rewrite get_word by lia. cbn [rbind]. apply IH; [lia|]. intros j Hj. destruct (Z.lt_ge_cases j (64 * (Z.of_nat (S w) + 1))); [apply (zero_word (Z.of_nat (S w))); try lia; exact E|apply Z0; lia].
  - apply returns_done. rewrite E. apply highest_of; assumption || lia.
Qed.
Lemma last_unique r s : last data r -> last data s -> r = s.
Proof.
  intros [[-> A]|(R & B & A)] [[-> C]|(S & D & C)]; try reflexivity.
  - rewrite A in D by exact S. discriminate.
  - rewrite C in B by exact R. discriminate.
  - destruct (Z.lt_trichotomy r s) as [L|[->|L]]; [rewrite A in D by lia; discriminate|reflexivity|rewrite C in B by lia; discriminate].
Qed.
End Operations.

(** Clearing the greatest member finds the next greatest one. *)
Lemma ClearLast_last data i : wf data -> 0 <= i -> last data i ->
  returns (fun '(r, data') => wf data' /\ last data' r /\ forall j, 0 <= j < N -> bit data' j = if j =? i then false else bit data j) (ClearLastAndFindPrevious i data).
Proof.
  intros W H0 L. assert (K : 0 <= i < N /\ bit data i = true /\ forall j, i < j < N -> bit data j = false) by (destruct L as [[-> _]|L]; [lia|exact L]).
  destruct K as (Hi & T & A). destruct (word_range i (in_words i Hi)) as (R & M & E). unfold ClearLastAndFindPrevious. rewrite Test_bit, T by assumption. cbn [rbind].
  destruct (Last_last data W) as (r & -> & Lr). cbn [rbind]. rewrite (last_unique data r i Lr L), Z.eqb_refl. destruct (index_word i) as [-> ->]; [lia|].
  rewrite get_word by assumption. cbn [rbind]. set (x := word data (i / 64) .^ _).
  assert (X : forall b, Z.testbit x b = if b =? i mod 64 then false else Z.testbit (word data (i / 64)) b).
  { intros b. subst x. rewrite Z.lxor_spec, one_bit by exact M. destruct (Z.eqb_spec b (i mod 64)) as [->|]; [|apply xorb_false_r]. fold (bit data i). rewrite T. reflexivity. }
  destruct (set_word data W (i / 64) x R) as (data' & S & W' & B).
  - apply is_word_bits. intros b Hb. rewrite X, (testbit_uN_high 64 _ b (is_word data W (i / 64) R)) by lia. destruct (b =? _); reflexivity.
  - intros b Hb Tb. rewrite X in Tb. destruct (b =? i mod 64); [discriminate|]. apply (wf_below data W); [lia|]. rewrite bit_at by exact Hb. exact Tb.
  - rewrite S. cbn [rbind]. assert (B' : forall j, 0 <= j < N -> bit data' j = if j =? i then false else bit data j).
    { intros j Hj. destruct (word_range j (in_words j Hj)) as (R' & M' & E'). rewrite B, X by (apply in_words; exact Hj).
      destruct (Z.eqb_spec (j / 64) (i / 64)) as [Q|Q]; [|replace (j =? i) with false by lia; reflexivity]. replace (j mod 64 =? i mod 64) with (j =? i) by lia. unfold bit. rewrite Q. reflexivity. }
    assert (P : x = word data' (i / 64)) by (rewrite (set_upd data (i / 64) x) in S by (rewrite (wf_length data W); exact R); injection S as <-; rewrite item_upd, Z.eqb_refl by (rewrite (wf_length data W); exact R); reflexivity).
    pose proof (Previous_loop_last data' W' (Z.to_nat (i / 64))) as PL. rewrite Z2Nat.id, <- P in PL by lia.
    destruct PL as ((bits & v) & -> & PL); [lia|intros j Hj; rewrite B' by lia; replace (j =? i) with false by lia; apply A; lia|]. cbn [rbind].
    destruct (bits =? 0); apply returns_done; auto.
Qed.
End BitSet.
End BitSet.
