(* ===== verification/FreeList.v ===== *)
(** * The free list of the old generation ([vm/heap/freelist.{h,cc}])

    The blocks that are free are kept in the heap itself: [FreeListElement] puts a header on
    each one and chains it to the next.  The heap is a function from addresses to the words
    there, threaded through the operations beside the fields of [FreeList].  The tags of a
    header are those of [UntaggedObject] ([vm/raw_object.h]).

    The operations are those with [is_protected] false, which differ from the others only in
    the calls that change page protections.  The lock is the caller's: [TryAllocate], [Free]
    and [TryAllocateLarge] are the [Locked] operations under it. *)

From Stdlib Require Import ZArith Bool List Lia.
From S2P Require Import Prelude Utils BitField Result Arrays BitSet.
Import ListNotations.
Open Scope Z_scope.

Local Abbreviation nullptr := 0 (only parsing).

Definition kWordSize : Z := 8.
Definition kWordSizeLog2 : Z := 3.
Definition kNewObjectAlignmentOffset : Z := kWordSize.
Definition kOldObjectAlignmentOffset : Z := 0.
Definition kObjectAlignment : Z := 2 * kWordSize.
Definition kObjectAlignmentLog2 : Z := kWordSizeLog2 + 1.

(** The words of the heap by address. *)
Definition memory : Type := Z -> Z.
Definition write (addr value : Z) (m : memory) : memory := fun a => if a =? addr then u64 value else m a.

Definition checked {A} (x : option A) : result A := match x with Some a => Done a | None => AssertionFailure end.

Module UntaggedObject.
Definition CardRememberedBit : BitField := mkBitField 0 1 false.
Definition CanonicalBit : BitField := mkBitField (kNextBit CardRememberedBit) 1 false.
Definition NotMarkedBit : BitField := mkBitField (kNextBit CanonicalBit) 1 false.
Definition NewOrEvacuationCandidateBit : BitField := mkBitField (kNextBit NotMarkedBit) 1 false.
Definition AlwaysSetBit : BitField := mkBitField (kNextBit NewOrEvacuationCandidateBit) 1 false.
Definition OldAndNotRememberedBit : BitField := mkBitField (kNextBit AlwaysSetBit) 1 false.
Definition SizeTagBits : BitField := mkBitField 8 4 false.
Definition ClassIdTag : BitField := mkBitField (kNextBit SizeTagBits) 20 false.

Definition kMaxSizeTag : Z := BitField.max SizeTagBits * kObjectAlignment.
Definition SizeFits (size : Z) : result bool :=
  require IsAligned size kObjectAlignment 0;; Done (size <=? kMaxSizeTag).
Definition SizeToTagValue (size : Z) : result Z :=
  require IsAligned size kObjectAlignment 0;;
  let* fits := SizeFits size in
  Done (if negb fits then 0 else size >> kObjectAlignmentLog2).
Definition TagValueToSize (value : Z) : Z := value << kObjectAlignmentLog2.
Definition SizeTag_decode (tag : Z) : Z := TagValueToSize (BitField.decode SizeTagBits tag).
Definition SizeTag_update (size tag : Z) : result Z :=
  let* value := SizeToTagValue size in checked (BitField.update SizeTagBits value tag).
End UntaggedObject.
Import UntaggedObject.

Definition kFreeListElement : Z := 2.

Module FreeListElement.
Definition next_address (element : Z) : Z := element + kWordSize.
Definition next (element : Z) (m : memory) : Z := m (next_address element).
Definition set_next (element next : Z) (m : memory) : memory := write (next_address element) next m.
Definition SizeAddress (element : Z) : Z := next_address element + kWordSize.

Definition HeapSize (element : Z) (m : memory) : result Z :=
  let tags := m element in
  require BitField.decode ClassIdTag tags =? kFreeListElement;;
  let size := SizeTag_decode tags in
  if negb (size =? 0) then Done size else Done (s64 (m (SizeAddress element))).

Definition AsElement (addr size : Z) (m : memory) : result memory :=
  require size >=? kObjectAlignment;;
  require IsAligned size kObjectAlignment 0;;
  let* tags := SizeTag_update size 0 in
  let* tags := checked (BitField.update ClassIdTag kFreeListElement tags) in
  require (addr .& kNewObjectAlignmentOffset) =? kOldObjectAlignmentOffset;;
  let* tags := checked (BitField.update AlwaysSetBit 1 tags) in
  let* tags := checked (BitField.update NotMarkedBit 1 tags) in
  let* tags := checked (BitField.update OldAndNotRememberedBit 1 tags) in
  let* tags := checked (BitField.update NewOrEvacuationCandidateBit 0 tags) in
  let m := write addr tags m in
  let m := if size >? kMaxSizeTag then write (SizeAddress addr) size m else m in
  Done (set_next addr nullptr m).

Definition AsElementNew (addr size : Z) (m : memory) : result memory :=
  require size >=? kObjectAlignment;;
  require IsAligned size kObjectAlignment 0;;
  let* tags := SizeTag_update size 0 in
  let* tags := checked (BitField.update ClassIdTag kFreeListElement tags) in
  require (addr .& kNewObjectAlignmentOffset) =? kNewObjectAlignmentOffset;;
  let* tags := checked (BitField.update AlwaysSetBit 1 tags) in
  let* tags := checked (BitField.update NotMarkedBit 1 tags) in
  let* tags := checked (BitField.update OldAndNotRememberedBit 0 tags) in
  let* tags := checked (BitField.update NewOrEvacuationCandidateBit 1 tags) in
  let m := write addr tags m in
  let m := if size >? kMaxSizeTag then write (SizeAddress addr) size m else m in
  Done (set_next addr nullptr m).

Definition HeaderSizeFor (size : Z) : Z :=
  if size =? 0 then 0 else (if size >? kMaxSizeTag then 3 else 2) * kWordSize.
End FreeListElement.
Import FreeListElement.

Module FreeList.
Definition kNumLists : Z := 128.
Definition kInitialFreeListSearchBudget : Z := 1000.

Record t : Type := mk {
  top_ : Z;
  end_ : Z;
  unaccounted_size_ : Z;
  free_map_ : list Z;
  free_lists_ : list Z;
  freelist_search_budget_ : Z;
  last_free_small_size_ : Z }.

Definition with_map (fl : t) map last : t :=
  mk (top_ fl) (end_ fl) (unaccounted_size_ fl) map (free_lists_ fl) (freelist_search_budget_ fl) last.
Definition with_lists (fl : t) lists : t :=
  mk (top_ fl) (end_ fl) (unaccounted_size_ fl) (free_map_ fl) lists (freelist_search_budget_ fl) (last_free_small_size_ fl).
Definition with_budget (fl : t) budget : t :=
  mk (top_ fl) (end_ fl) (unaccounted_size_ fl) (free_map_ fl) (free_lists_ fl) budget (last_free_small_size_ fl).
Definition with_bump (fl : t) top limit : t :=
  mk top limit (unaccounted_size_ fl) (free_map_ fl) (free_lists_ fl) (freelist_search_budget_ fl) (last_free_small_size_ fl).

Definition IndexForSize (size : Z) : result Z :=
  require size >=? kObjectAlignment;;
  require IsAligned size kObjectAlignment 0;;
  let index := size >> kObjectAlignmentLog2 in
  Done (if index >=? kNumLists then kNumLists else index).

Definition Reset (fl : t) : t :=
  with_lists (with_map fl (BitSet.Reset kNumLists) (-1)) (repeat nullptr (Z.to_nat (kNumLists + 1))).

(** The constructor: the fields' initializers, then [Reset]. *)
Definition FreeList : t := Reset (mk 0 0 0 [] [] kInitialFreeListSearchBudget 0).

Definition EnqueueElement (element index : Z) (m : memory) (fl : t) : result (memory * t) :=
  let* next := get (free_lists_ fl) index in
  let* fl :=
    if (next =? nullptr) && negb (index =? kNumLists) then
      let* map := BitSet.Set_ kNumLists index true (free_map_ fl) in
      Done (with_map fl map (Z.max (last_free_small_size_ fl) (index << kObjectAlignmentLog2)))
    else Done fl in
  let m := set_next element next m in
  let* lists := set (free_lists_ fl) index element in
  Done (m, with_lists fl lists).

Definition DequeueElement (index : Z) (m : memory) (fl : t) : result (Z * t) :=
  let* element := get (free_lists_ fl) index in
  require negb (element =? nullptr);;
  let next := next element m in
  let* fl :=
    if (next =? nullptr) && negb (index =? kNumLists) then
      let size := index << kObjectAlignmentLog2 in
      if size =? last_free_small_size_ fl then
        let* (previous, map) := BitSet.ClearLastAndFindPrevious kNumLists index (free_map_ fl) in
        Done (with_map fl map (previous * kObjectAlignment))
      else
        let* map := BitSet.Set_ kNumLists index false (free_map_ fl) in
        Done (with_map fl map (last_free_small_size_ fl))
    else Done fl in
  let* lists := set (free_lists_ fl) index next in
  Done (element, with_lists fl lists).

Definition SplitElementAfterAndEnqueue (element size : Z) (m : memory) (fl : t) : result (memory * t) :=
  let* heap_size := HeapSize element m in
  let remainder_size := heap_size - size in
  if remainder_size =? 0 then Done (m, fl)
  else
    let remainder_address := u64 (element + size) in
    let* m := AsElement remainder_address remainder_size m in
    let* remainder_index := IndexForSize remainder_size in
    EnqueueElement remainder_address remainder_index m fl.

(** The search of the small lists shared by [TryAllocateLocked] and
    [TryAllocateSmallLocked]: [None] where no list has a block. *)
Definition TryAllocateFromLists (size : Z) (m : memory) (fl : t) : result (option (Z * memory * t)) :=
  let* index := IndexForSize size in
  let* exact := if negb (index =? kNumLists) then BitSet.Test kNumLists index (free_map_ fl) else Done false in
  if exact then
    let* (element, fl) := DequeueElement index m fl in
    Done (Some (element, m, fl))
  else if index + 1 <? kNumLists then
    let* next_index := BitSet.Next kNumLists (index + 1) (free_map_ fl) in
    if negb (next_index =? -1) then
      let* (element, fl) := DequeueElement next_index m fl in
      let* (m, fl) := SplitElementAfterAndEnqueue element size m fl in
      Done (Some (element, m, fl))
    else Done None
  else Done None.

(** Take [current] out of the list of the large blocks. *)
Definition Unlink (previous next : Z) (m : memory) (fl : t) : result (memory * t) :=
  if previous =? nullptr then
    let* lists := set (free_lists_ fl) kNumLists next in Done (m, with_lists fl lists)
  else Done (set_next previous next m, fl).

(** [while (current != nullptr)]; the number of tries bounds the passes. *)
Fixpoint Search_loop (fuel : nat) (previous current tries_left size : Z) (m : memory) (fl : t) : result (Z * memory * t) :=
  if current =? nullptr then Done (0, m, fl)
  else match fuel with
  | O => OutOfFuel
  | S fuel =>
      let* heap_size := HeapSize current m in
      if heap_size >=? size then
        let* (m, fl) := Unlink previous (next current m) m fl in
        let* (m, fl) := SplitElementAfterAndEnqueue current size m fl in
        Done (current, m, with_budget fl (Z.min tries_left kInitialFreeListSearchBudget))
      else if tries_left <? 0 then Done (0, m, with_budget fl kInitialFreeListSearchBudget)
      else Search_loop fuel current (next current m) (tries_left - 1) size m fl
  end.

Definition TryAllocateLocked (size : Z) (m : memory) (fl : t) : result (Z * memory * t) :=
  let* small := TryAllocateFromLists size m fl in
  match small with
  | Some done => Done done
  | None =>
      let* current := get (free_lists_ fl) kNumLists in
      let tries_left := freelist_search_budget_ fl + (size >> kWordSizeLog2) in
      Search_loop (Z.to_nat (tries_left + 2)) nullptr current tries_left size m fl
  end.

Definition TryAllocateSmallLocked (size : Z) (m : memory) (fl : t) : result (Z * memory * t) :=
  if size >? last_free_small_size_ fl then Done (0, m, fl)
  else
    let* small := TryAllocateFromLists size m fl in
    match small with Some done => Done done | None => Done (0, m, fl) end.

Fixpoint Large_loop (fuel : nat) (previous current tries_left minimum_size : Z) (m : memory) (fl : t) : result (Z * memory * t) :=
  if current =? nullptr then Done (nullptr, m, fl)
  else match fuel with
  | O => OutOfFuel
  | S fuel =>
      let next := next current m in
      let* heap_size := HeapSize current m in
      if heap_size >=? minimum_size then
        let* (m, fl) := Unlink previous next m fl in
        Done (current, m, with_budget fl (Z.min tries_left kInitialFreeListSearchBudget))
      else if tries_left <? 0 then Done (nullptr, m, with_budget fl kInitialFreeListSearchBudget)
      else Large_loop fuel current next (tries_left - 1) minimum_size m fl
  end.

Definition TryAllocateLargeLocked (minimum_size : Z) (m : memory) (fl : t) : result (Z * memory * t) :=
  let* current := get (free_lists_ fl) kNumLists in
  let tries_left := freelist_search_budget_ fl + (minimum_size >> kWordSizeLog2) in
  Large_loop (Z.to_nat (tries_left + 2)) nullptr current tries_left minimum_size m fl.

Definition FreeLocked (addr size : Z) (m : memory) (fl : t) : result (memory * t) :=
  let* index := IndexForSize size in
  let* m := AsElement addr size m in
  EnqueueElement addr index m fl.

(** [while (element != nullptr)]; the fuel bounds the elements counted. *)
Fixpoint Length_loop (fuel : nat) (element length : Z) (m : memory) : result Z :=
  if element =? nullptr then Done length
  else match fuel with
  | O => OutOfFuel
  | S fuel => Length_loop fuel (next element m) (length + 1) m
  end.
Definition LengthLocked (fuel : nat) (index : Z) (m : memory) (fl : t) : result Z :=
  require index >=? 0;; require index <? kNumLists;;
  let* element := get (free_lists_ fl) index in
  Length_loop fuel element 0 m.

(** ** The bump region *)
Definition TryAllocateBumpLocked (size : Z) (fl : t) : option Z * t :=
  let top := top_ fl in
  let new_top := u64 (top + size) in
  if new_top <=? end_ fl then (Some top, with_bump fl new_top (end_ fl)) else (None, fl).

Definition MakeIterable (m : memory) (fl : t) : result memory :=
  if top_ fl <? end_ fl then AsElement (top_ fl) (s64 (end_ fl - top_ fl)) m else Done m.

Definition ReleaseBumpAllocation (m : memory) (fl : t) : result (Z * memory * t) :=
  let remaining := s64 (end_ fl - top_ fl) in
  if negb (remaining =? 0) then
    let* (m, fl) := FreeLocked (top_ fl) remaining m fl in
    Done (remaining, m, with_bump fl 0 0)
  else Done (remaining, m, fl).

Definition set_top (fl : t) (value : Z) : t := with_bump fl value (end_ fl).
Definition set_end (fl : t) (value : Z) : t := with_bump fl (top_ fl) value.
Definition AddUnaccountedSize (fl : t) (size : Z) : t :=
  mk (top_ fl) (end_ fl) (unaccounted_size_ fl + size) (free_map_ fl) (free_lists_ fl) (freelist_search_budget_ fl) (last_free_small_size_ fl).
Definition TakeUnaccountedSizeLocked (fl : t) : Z * t :=
  (unaccounted_size_ fl, mk (top_ fl) (end_ fl) 0 (free_map_ fl) (free_lists_ fl) (freelist_search_budget_ fl) (last_free_small_size_ fl)).
End FreeList.
