(* ===== verification/FreeListProofs.v ===== *)
(** * Correctness of the free list

    A free block is an address and a size.  The invariant [wf] relates the fields of the free
    list and the headers in the heap to the blocks of each of the 129 lists; every operation
    is described by the blocks before and after it.  At the end the free list is the
    allocator of a heap shared with a program that writes to the blocks it was given. *)

From Stdlib Require Import ZArith Bool List Lia ZifyBool.
From S2P Require Import Prelude Utils BitField Result Arrays BitSet FreeList.
Import ListNotations.
Import UntaggedObject FreeListElement FreeList.
Open Scope Z_scope.

(** ** Headers *)
Definition block : Type := Z * Z.
Definition inside (x : Z) (b : block) : Prop := fst b <= x < fst b + snd b.
Definition apart (b b' : block) : Prop := fst b + snd b <= fst b' \/ fst b' + snd b' <= fst b.
Definition sized (s : Z) : Prop := 16 <= s < 2 ^ 63 /\ s mod 16 = 0.
Definition fits_heap (b : block) : Prop := 0 < fst b /\ fst b mod 16 = 0 /\ sized (snd b) /\ fst b + snd b <= 2 ^ 63.

(** The header of a free block. *)
Definition element (m : memory) (b : block) : Prop :=
  BitField.decode ClassIdTag (m (fst b)) = kFreeListElement /\ SizeTag_decode (m (fst b)) = (if snd b >? 240 then 0 else snd b) /\
  (240 < snd b -> m (fst b + 16) = snd b).

Lemma aligned_mod x : IsAligned x kObjectAlignment 0 = (x mod 16 =? 0).
Proof. unfold IsAligned, kObjectAlignment, kWordSize. change (2 * 8 - 1) with (Z.ones 4). rewrite Z.land_ones by lia. fold (uN 4 (u64 x)). rewrite uN_uN_le by lia. reflexivity. Qed.
Lemma old_aligned a : a mod 16 = 0 -> a .& kNewObjectAlignmentOffset = 0.
Proof.
  intros H. apply Z.bits_inj'. intros i Hi. rewrite Z.land_spec, Z.bits_0. destruct (Z.eqb_spec i 3) as [->|N].
  - replace (Z.testbit a 3) with false; [reflexivity|]. symmetry. apply Z.div_exact in H; [|lia]. rewrite H, Z.mul_comm. apply (Z.mul_pow2_bits_low _ 4). lia.
  - change kNewObjectAlignmentOffset with (2 ^ 3). rewrite Z.pow2_bits_false by lia. apply andb_false_r.
Qed.
Lemma units s : s >> kObjectAlignmentLog2 = s / 16.
Proof. apply Z.shiftr_div_pow2. discriminate. Qed.

Definition tags_of (v : Z) : result Z :=
  let* tags := checked (BitField.update SizeTagBits v 0) in
  let* tags := checked (BitField.update ClassIdTag kFreeListElement tags) in
  let* tags := checked (BitField.update AlwaysSetBit 1 tags) in
  let* tags := checked (BitField.update NotMarkedBit 1 tags) in
  let* tags := checked (BitField.update OldAndNotRememberedBit 1 tags) in
  checked (BitField.update NewOrEvacuationCandidateBit 0 tags).
Lemma tags_decode v : 0 <= v <= 15 -> exists t, tags_of v = Done t /\ u64 t = t /\ BitField.decode ClassIdTag t = kFreeListElement /\ SizeTag_decode t = 16 * v.
Proof.
  intros Hv. assert (C : forallb (fun n => match tags_of (Z.of_nat n) with
      | Done t => (u64 t =? t) && (BitField.decode ClassIdTag t =? kFreeListElement) && (SizeTag_decode t =? 16 * Z.of_nat n) | _ => false end) (seq 0 16) = true) by reflexivity.
  rewrite forallb_forall in C. specialize (C (Z.to_nat v)). rewrite Z2Nat.id in C by lia. specialize (C ltac:(apply in_seq; lia)).
  destruct (tags_of v) as [t| |]; try discriminate. exists t. split; [reflexivity|]. lia.
Qed.

Lemma write_at a v m : write a v m a = u64 v.
Proof. unfold write. rewrite Z.eqb_refl. reflexivity. Qed.
Lemma write_other a v m x : x <> a -> write a v m x = m x.
Proof. intros H. unfold write. replace (x =? a) with false by lia. reflexivity. Qed.

Lemma AsElement_spec a s m : fits_heap (a, s) ->
  returns (fun m' => element m' (a, s) /\ next a m' = 0 /\ forall x, ~ inside x (a, s) -> m' x = m x) (AsElement a s m).
Proof.
  intros (Ha & Al & ((S1 & S2) & Sm) & _). cbn [fst snd] in *. unfold AsElement, SizeTag_update, SizeToTagValue, SizeFits. rewrite !aligned_mod, Sm, units, old_aligned by exact Al. cbn [rbind].
  replace (s >=? kObjectAlignment) with true by (unfold kObjectAlignment, kWordSize; lia). change kMaxSizeTag with 240. cbn [Z.eqb rbind].
  change (kOldObjectAlignmentOffset) with 0. cbn [Z.eqb]. set (v := if negb (s <=? 240) then 0 else s / 16).
  pose proof (Z.div_mod s 16 ltac:(lia)) as D. assert (Hv : 0 <= v <= 15) by (subst v; destruct (Z.leb_spec s 240); cbn [negb]; lia).
  destruct (tags_decode v Hv) as (t & T & U & Dc & Ds). unfold tags_of in T.
  destruct (checked (update SizeTagBits v 0)) as [t1| |]; cbn [rbind] in *; try discriminate. destruct (checked (update ClassIdTag kFreeListElement t1)) as [t2| |]; cbn [rbind] in *; try discriminate.
  destruct (checked (update AlwaysSetBit 1 t2)) as [t3| |]; cbn [rbind] in *; try discriminate. destruct (checked (update NotMarkedBit 1 t3)) as [t4| |]; cbn [rbind] in *; try discriminate.
  destruct (checked (update OldAndNotRememberedBit 1 t4)) as [t5| |]; cbn [rbind] in *; try discriminate. rewrite T. cbn [rbind]. apply returns_done.
  unfold set_next, next, element, inside, SizeAddress, next_address, kWordSize. cbn [fst snd].
  assert (A : write (a + 8) 0 (if s >? 240 then write (a + 8 + 8) s (write a t m) else write a t m) a = t) by (rewrite write_other by lia; destruct (s >? 240); rewrite ?(write_other (a + 8 + 8)) by lia; rewrite write_at; exact U).
  split; [rewrite A; split; [exact Dc|split; [rewrite Ds; subst v; destruct (Z.gtb_spec s 240), (Z.leb_spec s 240); cbn [negb]; lia|]]|split].
  - intros L. replace (s >? 240) with true by lia. rewrite write_other by lia. replace (a + 16) with (a + 8 + 8) by lia. rewrite write_at. apply uN_small. unfold is_uN. lia.
  - rewrite write_at. reflexivity.
  - intros x Hx. rewrite write_other by lia. destruct (Z.gtb_spec s 240); rewrite ?write_other by lia; reflexivity.
Qed.

Lemma HeapSize_element m b : sized (snd b) -> element m b -> HeapSize (fst b) m = Done (snd b).
Proof.
  intros ((S1 & S2) & _) (C & T & L). unfold HeapSize. rewrite C, Z.eqb_refl, T. destruct (Z.gtb_spec (snd b) 240); cbn [negb Z.eqb].
  - f_equal. replace (SizeAddress (fst b)) with (fst b + 16) by (unfold SizeAddress, next_address, kWordSize; lia). rewrite L by lia. apply sN_small; [lia|unfold is_sN; lia].
  - replace (snd b =? 0) with false by lia. reflexivity.
Qed.
Lemma element_frame m m' b : sized (snd b) -> (forall x, inside x b -> x <> fst b + 8 -> m' x = m x) -> element m b -> element m' b.
Proof.
  intros ((S1 & S2) & _) F (C & T & L). unfold element, inside in *. rewrite !(F (fst b)) by lia. split; [exact C|split; [exact T|]]. intros Q. rewrite F by lia. exact (L Q).
Qed.

(** ** Lists of blocks *)
Fixpoint chain (m : memory) (p : Z) (bl : list block) : Prop :=
  match bl with
  | [] => p = 0
  | b :: bl => p = fst b /\ element m b /\ chain m (next (fst b) m) bl
  end.
Definition class (s : Z) : Z := if s / 16 >=? kNumLists then kNumLists else s / 16.
Definition blocks : Type := Z -> list block.
Definition put (i : Z) (l : list block) (C : blocks) : blocks := fun j => if j =? i then l else C j.
Definition free (C : blocks) (b : block) : Prop := exists i, 0 <= i <= kNumLists /\ In b (C i).

(** The largest small size, negative where there is none. *)
Definition last_small (map : list Z) (size : Z) : Prop :=
  exists r, BitSet.last kNumLists map r /\ if r =? -1 then size < 0 else size = 16 * r.

Record wf (m : memory) (fl : t) (C : blocks) : Prop := {
  wf_size : size (free_lists_ fl) = kNumLists + 1;
  wf_chain : forall i, 0 <= i <= kNumLists -> chain m (item 0 (free_lists_ fl) i) (C i);
  wf_class : forall i b, 0 <= i <= kNumLists -> In b (C i) -> fits_heap b /\ class (snd b) = i;
  wf_nodup : forall i, 0 <= i <= kNumLists -> NoDup (C i);
  wf_apart : forall b b', free C b -> free C b' -> b = b' \/ apart b b';
  wf_set : BitSet.wf kNumLists (free_map_ fl);
  wf_bits : forall i, 0 <= i < kNumLists -> BitSet.bit (free_map_ fl) i = match C i with [] => false | _ => true end;
  wf_last : last_small (free_map_ fl) (last_free_small_size_ fl);
  wf_budget : -1 <= freelist_search_budget_ fl <= kInitialFreeListSearchBudget }.

Lemma class_range s : sized s -> 1 <= class s <= kNumLists.
Proof. intros ((S1 & S2) & Sm). pose proof (Z.div_mod s 16 ltac:(lia)). unfold class, kNumLists. destruct (Z.geb_spec (s / 16) 128); lia. Qed.
Lemma class_small s i : sized s -> class s = i -> i < kNumLists -> s = 16 * i.
Proof. intros ((S1 & S2) & Sm) <-. pose proof (Z.div_mod s 16 ltac:(lia)). unfold class, kNumLists. destruct (Z.geb_spec (s / 16) 128); lia. Qed.
Lemma class_large s : sized s -> class s = kNumLists <-> 2048 <= s.
Proof. intros ((S1 & S2) & Sm). pose proof (Z.div_mod s 16 ltac:(lia)). unfold class, kNumLists. destruct (Z.geb_spec (s / 16) 128); lia. Qed.
Lemma IndexForSize_class s : sized s -> IndexForSize s = Done (class s).
Proof.
  intros ((S1 & S2) & Sm). unfold IndexForSize. rewrite aligned_mod, Sm, units. replace (s >=? kObjectAlignment) with true by (unfold kObjectAlignment, kWordSize; lia). reflexivity.
Qed.

Lemma put_same i l C : put i l C i = l.
Proof. unfold put. rewrite Z.eqb_refl. reflexivity. Qed.
Lemma put_other i l C j : j <> i -> put i l C j = C j.
Proof. intros H. unfold put. replace (j =? i) with false by lia. reflexivity. Qed.
Lemma in_put i l C j b : In b (put i l C j) -> (j = i /\ In b l) \/ (j <> i /\ In b (C j)).
Proof. unfold put. destruct (Z.eqb_spec j i); auto. Qed.

Lemma fits_sized b : fits_heap b -> sized (snd b).
Proof. intros (_ & _ & S & _). exact S. Qed.
Lemma next_inside b : sized (snd b) -> inside (fst b + 8) b.
Proof. unfold sized, inside. lia. Qed.
Lemma apart_inside b b' x : apart b b' -> inside x b -> inside x b' -> False.
Proof. unfold apart, inside. lia. Qed.
Lemma apart_sym b b' : apart b b' -> apart b' b.
Proof. unfold apart. lia. Qed.
Lemma not_apart b : sized (snd b) -> ~ apart b b.
Proof. unfold sized, apart. lia. Qed.

Lemma chain_frame m m' bl : forall p, (forall b, In b bl -> sized (snd b)) -> (forall b x, In b bl -> inside x b -> m' x = m x) -> chain m p bl -> chain m' p bl.
Proof.
  induction bl as [|b bl IH]; intros p S F; cbn [chain]; [auto|]. intros (-> & E & Ch). assert (I : In b (b :: bl)) by (left; reflexivity). split; [reflexivity|]. split.
  - apply (element_frame m); [apply S, I|intros x Hx _; apply (F b); assumption|exact E].
  - unfold next, next_address, kWordSize in *. rewrite (F b); [|exact I|apply next_inside, S, I]. apply IH; [intros; apply S; right; assumption|intros c x Hc; apply F; right; exact Hc|exact Ch].
Qed.
Lemma chain_null m p bl : (forall b, In b bl -> 0 < fst b) -> chain m p bl -> (p =? 0) = match bl with [] => true | _ => false end.
Proof. destruct bl as [|b bl]; cbn [chain]; [intros _ ->; reflexivity|]. intros H (-> & _). specialize (H b (or_introl eq_refl)). lia. Qed.
Lemma chain_word m p bl : (forall b, In b bl -> fits_heap b) -> chain m p bl -> is_uN 64 p.
Proof.
  destruct bl as [|b bl]; cbn [chain]; unfold is_uN; [intros _ ->; lia|]. intros H (-> & _). destruct (H b (or_introl eq_refl)) as (P & _ & S & Q). unfold sized in S. lia.
Qed.

Section Wf.
Context {m : memory} {fl : t} {C : blocks} (W : wf m fl C).

Lemma free_fits b : free C b -> fits_heap b.
Proof. intros (i & Hi & I). exact (proj1 (wf_class _ _ _ W i b Hi I)). Qed.
Lemma in_fits i b : 0 <= i <= kNumLists -> In b (C i) -> fits_heap b.
Proof. intros Hi I. exact (proj1 (wf_class _ _ _ W i b Hi I)). Qed.
Lemma free_class b : free C b -> In b (C (class (snd b))).
Proof. intros (i & Hi & I). destruct (wf_class _ _ _ W i b Hi I) as [_ ->]. exact I. Qed.
Lemma head_null i : 0 <= i <= kNumLists -> (item 0 (free_lists_ fl) i =? 0) = match C i with [] => true | _ => false end.
Proof. intros Hi. apply (chain_null m); [intros b I; apply (in_fits i b Hi I)|apply (wf_chain _ _ _ W), Hi]. Qed.
Lemma get_list i : 0 <= i <= kNumLists -> get (free_lists_ fl) i = Done (item 0 (free_lists_ fl) i).
Proof. intros Hi. apply get_item. rewrite (wf_size _ _ _ W). lia. Qed.
Lemma set_list i p : 0 <= i <= kNumLists -> set (free_lists_ fl) i p = Done (upd (free_lists_ fl) i p).
Proof. intros Hi. apply set_upd. rewrite (wf_size _ _ _ W). lia. Qed.
Lemma item_list i p j : 0 <= i <= kNumLists -> 0 <= j <= kNumLists -> item 0 (upd (free_lists_ fl) i p) j = if j =? i then p else item 0 (free_lists_ fl) j.
Proof. intros Hi Hj. apply item_upd; rewrite (wf_size _ _ _ W); lia. Qed.

(** A step that changes the list [i], the words of the heap inside [extra] and the summary
    fields keeps the invariant. *)
Lemma wf_put m' fl' i l p :
  0 <= i <= kNumLists ->
  free_lists_ fl' = upd (free_lists_ fl) i p ->
  chain m' p l -> NoDup l ->
  (forall b, In b l -> fits_heap b /\ class (snd b) = i) ->
  (forall b b', In b l -> In b' l -> b = b' \/ apart b b') ->
  (forall b b', In b l -> free C b' -> class (snd b') <> i -> apart b b') ->
  (forall j b x, 0 <= j <= kNumLists -> j <> i -> In b (C j) -> inside x b -> m' x = m x) ->
  BitSet.wf kNumLists (free_map_ fl') ->
  (forall j, 0 <= j < kNumLists -> BitSet.bit (free_map_ fl') j = match put i l C j with [] => false | _ => true end) ->
  last_small (free_map_ fl') (last_free_small_size_ fl') ->
  -1 <= freelist_search_budget_ fl' <= kInitialFreeListSearchBudget ->
  wf m' fl' (put i l C).
Proof.
  intros Hi L Ch Nd Cl Al Ac F Ws Wb Wl Bu. split; try assumption.
  - rewrite L, size_upd. apply (wf_size _ _ _ W).
  - intros j Hj. rewrite L, item_list by assumption. destruct (Z.eqb_spec j i) as [->|N]; [rewrite put_same; exact Ch|rewrite put_other by exact N].
    apply (chain_frame m); [intros b I; apply fits_sized, (in_fits j); assumption|intros b x I; apply (F j); assumption|apply (wf_chain _ _ _ W), Hj].
  - intros j b Hj I. apply in_put in I. destruct I as [[-> I]|[N I]]; [apply Cl, I|apply (wf_class _ _ _ W); assumption].
  - intros j Hj. destruct (Z.eqb_spec j i) as [->|N]; [rewrite put_same; exact Nd|rewrite put_other by exact N; apply (wf_nodup _ _ _ W), Hj].
  - intros b b' (j & Hj & I) (j' & Hj' & I'). apply in_put in I, I'. destruct I as [[-> I]|[N I]], I' as [[-> I']|[N' I']].
    + apply Al; assumption.
    + right. apply Ac; [exact I|exists j'; auto|]. destruct (wf_class _ _ _ W j' b' Hj' I') as [_ ->]. exact N'.
    + right. apply apart_sym, Ac; [exact I'|exists j; auto|]. destruct (wf_class _ _ _ W j b Hj I) as [_ ->]. exact N.
    + apply (wf_apart _ _ _ W); [exists j; auto|exists j'; auto].
Qed.
End Wf.

Definition bump (fl : t) : Z * Z * Z := (top_ fl, end_ fl, unaccounted_size_ fl).

Section Last.
Context (map map' : list Z) (size i : Z) (Hi : 0 <= i < kNumLists) (L : last_small map size).

Lemma last_small_add : (forall j, 0 <= j < kNumLists -> BitSet.bit map' j = if j =? i then true else BitSet.bit map j) ->
  last_small map' (Z.max size (i << kObjectAlignmentLog2)).
Proof.
  intros B. change (i << kObjectAlignmentLog2) with (i << 4). rewrite Z.shiftl_mul_pow2 by lia. change (2 ^ 4) with 16. destruct L as (r & R & E). destruct R as [[-> A]|(R & T & A)].
  - exists i. cbn in E. replace (i =? -1) with false by lia. split; [|lia]. right. split; [exact Hi|]. split; [rewrite B, Z.eqb_refl by exact Hi; reflexivity|].
    intros j Hj. rewrite B by lia. replace (j =? i) with false by lia. apply A. lia.
  - replace (r =? -1) with false in E by lia. exists (Z.max r i). replace (Z.max r i =? -1) with false by lia. split; [|lia]. right. split; [lia|]. split.
    + rewrite B by lia. destruct (Z.eqb_spec (Z.max r i) i); [reflexivity|]. replace (Z.max r i) with r by lia. exact T.
    + intros j Hj. rewrite B by lia. replace (j =? i) with false by lia. apply A. lia.
Qed.
Lemma last_small_keep : BitSet.bit map i = true -> size <> 16 * i ->
  (forall j, 0 <= j < kNumLists -> BitSet.bit map' j = if j =? i then false else BitSet.bit map j) -> last_small map' size.
Proof.
  intros T N B. destruct L as (r & R & E). destruct R as [[-> A]|(R & T' & A)]; [rewrite A in T by exact Hi; discriminate|]. replace (r =? -1) with false in E by lia.
  exists r. replace (r =? -1) with false by lia. split; [|exact E]. right. split; [exact R|]. split.
  - rewrite B by exact R. replace (r =? i) with false by lia. exact T'.
  - intros j Hj. rewrite B by lia. destruct (j =? i); [reflexivity|]. apply A. exact Hj.
Qed.
Lemma last_small_is : size = 16 * i -> BitSet.last kNumLists map i.
Proof. intros E. destruct L as (r & R & Q). destruct (Z.eqb_spec r (-1)); [lia|]. replace i with r by lia. exact R. Qed.
End Last.

Section Steps.
Context {m : memory} {fl : t} {C : blocks} (W : wf m fl C).

Lemma map_enqueue i b : 0 <= i < kNumLists -> C i = [] ->
  returns (fun map => BitSet.wf kNumLists map /\ last_small map (Z.max (last_free_small_size_ fl) (i << kObjectAlignmentLog2)) /\
    forall j, 0 <= j < kNumLists -> BitSet.bit map j = match put i (b :: C i) C j with [] => false | _ => true end) (BitSet.Set_ kNumLists i true (free_map_ fl)).
Proof.
  intros Hi E. refine (returns_weaken _ _ _ (BitSet.Set_bit kNumLists ltac:(reflexivity) _ (wf_set _ _ _ W) i true Hi) _). intros map [Wm B]. split; [exact Wm|]. split.
  - apply (last_small_add (free_map_ fl)); [exact Hi|apply (wf_last _ _ _ W)|exact B].
  - intros j Hj. rewrite B by exact Hj. unfold put. destruct (j =? i); [reflexivity|]. apply (wf_bits _ _ _ W), Hj.
Qed.

Lemma Enqueue_spec a s : fits_heap (a, s) -> element m (a, s) -> (forall b, free C b -> apart (a, s) b) ->
  returns (fun '(m', fl') => wf m' fl' (put (class s) ((a, s) :: C (class s)) C) /\ (forall x, x <> a + 8 -> m' x = m x) /\ bump fl' = bump fl) (EnqueueElement a (class s) m fl).
Proof.
  intros Fh El Ap. pose proof (class_range s (fits_sized _ Fh)) as R. set (i := class s) in *. assert (Hi : 0 <= i <= kNumLists) by lia. unfold EnqueueElement.
  rewrite (get_list W i Hi). cbn [rbind]. rewrite (head_null W i Hi). set (m' := set_next a _ m).
  assert (F : forall x, x <> a + 8 -> m' x = m x) by (intros x Hx; apply write_other; exact Hx).
  assert (FC : forall b x, free C b -> inside x b -> m' x = m x).
  { intros b x Fb Ix. apply F. intros ->. apply (apart_inside (a, s) b (a + 8) (Ap b Fb)); [apply (next_inside (a, s)), fits_sized, Fh|exact Ix]. }
  assert (K : forall fl', free_lists_ fl' = upd (free_lists_ fl) i a -> BitSet.wf kNumLists (free_map_ fl') ->
      (forall j, 0 <= j < kNumLists -> BitSet.bit (free_map_ fl') j = match put i ((a, s) :: C i) C j with [] => false | _ => true end) ->
      last_small (free_map_ fl') (last_free_small_size_ fl') -> freelist_search_budget_ fl' = freelist_search_budget_ fl -> wf m' fl' (put i ((a, s) :: C i) C)).
  { intros fl' L Ws Wb Wl Bu. apply (wf_put W m' fl' i _ a); try assumption.
    - split; [reflexivity|]. split; [apply (element_frame m); [apply fits_sized, Fh|intros; apply F; assumption|exact El]|].
      unfold next, m', set_next, next_address, kWordSize. cbn [fst]. rewrite write_at. fold (next_address a). apply (chain_frame m).
      + intros b I. apply fits_sized, (in_fits W i); assumption.
      + intros b x I. apply FC. exists i. auto.
      + rewrite uN_small; [|apply (chain_word m _ (C i)); [intros b I; apply (in_fits W i); assumption|]]; apply (wf_chain _ _ _ W), Hi.
    - constructor; [|apply (wf_nodup _ _ _ W), Hi]. intros I. apply (not_apart (a, s)); [apply fits_sized, Fh|]. apply Ap. exists i. auto.
    - intros b [<-|I]; [split; [exact Fh|reflexivity]|apply (wf_class _ _ _ W); assumption].
    - intros b b' [<-|I] [<-|I']; [left; reflexivity|right; apply Ap; exists i; auto|right; apply apart_sym, Ap; exists i; auto|apply (wf_apart _ _ _ W); exists i; auto].
    - intros b b' [<-|I] Fb' N; [apply Ap, Fb'|]. destruct (wf_apart _ _ _ W b b'); [exists i; auto|exact Fb'| |assumption]. subst b'. exfalso. apply N, (wf_class _ _ _ W i b Hi I).
    - intros j b x Hj _ I. apply FC. exists j. auto.
    - rewrite Bu. apply (wf_budget _ _ _ W). }
  destruct (match C i with [] => true | _ => false end && negb (i =? kNumLists)) eqn:Q.
  - assert (E : C i = [] /\ i < kNumLists) by (destruct (C i); [split; [reflexivity|]; lia|discriminate]).
    destruct (map_enqueue i (a, s) ltac:(lia) (proj1 E)) as (map & -> & Wm & Lm & Bm). cbn [rbind]. cbn [free_lists_ with_map].
    rewrite (set_list W i a Hi). cbn [rbind]. apply returns_done. split; [apply K; try reflexivity; assumption|split; [exact F|reflexivity]].
  - cbn [rbind]. rewrite (set_list W i a Hi). cbn [rbind]. apply returns_done. split; [|split; [exact F|reflexivity]]. apply K; try reflexivity; [apply (wf_set _ _ _ W)| |apply (wf_last _ _ _ W)].
    intros j Hj. cbn [free_map_ with_lists]. rewrite (wf_bits _ _ _ W) by exact Hj. unfold put. destruct (Z.eqb_spec j i) as [->|]; [|reflexivity]. destruct (C i); [lia|reflexivity].
Qed.

(** Taking blocks out of a list leaves the others. *)
Lemma wf_sublist m' fl' i l p :
  0 <= i <= kNumLists -> free_lists_ fl' = upd (free_lists_ fl) i p -> chain m' p l -> NoDup l -> incl l (C i) ->
  (forall j b x, 0 <= j <= kNumLists -> j <> i -> In b (C j) -> inside x b -> m' x = m x) ->
  BitSet.wf kNumLists (free_map_ fl') ->
  (forall j, 0 <= j < kNumLists -> BitSet.bit (free_map_ fl') j = match put i l C j with [] => false | _ => true end) ->
  last_small (free_map_ fl') (last_free_small_size_ fl') ->
  -1 <= freelist_search_budget_ fl' <= kInitialFreeListSearchBudget -> wf m' fl' (put i l C).
Proof.
  intros Hi L Ch Nd In_l F Ws Wb Wl Bu. apply (wf_put W m' fl' i l p); try assumption.
  - intros b I. apply (wf_class _ _ _ W); [exact Hi|apply In_l, I].
  - intros b b' I I'. apply (wf_apart _ _ _ W); exists i; auto.
  - intros b b' I Fb' N. destruct (wf_apart _ _ _ W b b'); [exists i; auto|exact Fb'| |assumption]. subst b'. exfalso. apply N, (wf_class _ _ _ W i b Hi), In_l, I.
Qed.

Lemma map_dequeue i b : 0 <= i < kNumLists -> C i = [b] ->
  returns (fun fl' => BitSet.wf kNumLists (free_map_ fl') /\ last_small (free_map_ fl') (last_free_small_size_ fl') /\ free_lists_ fl' = free_lists_ fl /\
      bump fl' = bump fl /\ freelist_search_budget_ fl' = freelist_search_budget_ fl /\
      forall j, 0 <= j < kNumLists -> BitSet.bit (free_map_ fl') j = match put i [] C j with [] => false | _ => true end)
    (if i << kObjectAlignmentLog2 =? last_free_small_size_ fl then
       let* (previous, map) := BitSet.ClearLastAndFindPrevious kNumLists i (free_map_ fl) in Done (with_map fl map (previous * kObjectAlignment))
     else let* map := BitSet.Set_ kNumLists i false (free_map_ fl) in Done (with_map fl map (last_free_small_size_ fl))).
Proof.
  intros Hi E. change (i << kObjectAlignmentLog2) with (i << 4). rewrite Z.shiftl_mul_pow2 by lia. change (2 ^ 4) with 16. pose proof (wf_last _ _ _ W) as L. pose proof (wf_set _ _ _ W) as Ws.
  assert (P : forall map, (forall j, 0 <= j < kNumLists -> BitSet.bit map j = if j =? i then false else BitSet.bit (free_map_ fl) j) ->
      forall j, 0 <= j < kNumLists -> BitSet.bit map j = match put i [] C j with [] => false | _ => true end).
  { intros map B j Hj. rewrite B by exact Hj. unfold put. destruct (j =? i); [reflexivity|]. apply (wf_bits _ _ _ W), Hj. }
  destruct (Z.eqb_spec (i * 16) (last_free_small_size_ fl)) as [Q|Q].
  - pose proof (last_small_is (free_map_ fl) _ i Hi L ltac:(lia)) as Li.
    destruct (BitSet.ClearLast_last kNumLists ltac:(reflexivity) _ i Ws ltac:(lia) Li) as ((r & map) & -> & Wm & Lm & B). cbn [rbind]. apply returns_done.
    repeat (split; [first [exact Wm|reflexivity|idtac]|]); [|apply P, B]. exists r. split; [exact Lm|]. change kObjectAlignment with 16. cbn [last_free_small_size_ with_map]. destruct (Z.eqb_spec r (-1)); lia.
  - destruct (BitSet.Set_bit kNumLists ltac:(reflexivity) _ Ws i false Hi) as (map & -> & Wm & B). cbn [rbind]. apply returns_done.
    repeat (split; [first [exact Wm|reflexivity|idtac]|]); [|apply P, B]. apply (last_small_keep (free_map_ fl) _ _ i); try assumption; [|cbn [last_free_small_size_ with_map]; lia]. rewrite (wf_bits _ _ _ W) by exact Hi. rewrite E. reflexivity.
Qed.

Lemma Dequeue_spec i b rest : 0 <= i <= kNumLists -> C i = b :: rest ->
  returns (fun '(r, fl') => r = fst b /\ wf m fl' (put i rest C) /\ bump fl' = bump fl) (DequeueElement i m fl).
Proof.
  intros Hi E. pose proof (wf_chain _ _ _ W i Hi) as Ch. rewrite E in Ch. cbn [chain] in Ch. destruct Ch as (Hp & El & Ch).
  assert (Nd : NoDup rest) by (pose proof (wf_nodup _ _ _ W i Hi) as N; rewrite E in N; inversion N; assumption).
  assert (Inc : incl rest (C i)) by (rewrite E; intros x Hx; right; exact Hx).
  unfold DequeueElement. rewrite (get_list W i Hi). cbn [rbind]. rewrite (head_null W i Hi), E. cbn [negb]. rewrite Hp.
  assert (Nx : (next (fst b) m =? 0) = match rest with [] => true | _ => false end) by (apply (chain_null m); [intros c I; apply (in_fits W i c Hi), Inc, I|exact Ch]).
  rewrite Nx. destruct (match rest with [] => true | _ => false end && negb (i =? kNumLists)) eqn:Q.
  - assert (K : rest = [] /\ i < kNumLists) by (destruct rest; [split; [reflexivity|]; lia|discriminate]). destruct K as [-> Li].
    destruct (map_dequeue i b ltac:(lia) E) as (fl' & -> & Wm & Lm & Ll & Bp & Bu & Bm). cbn [rbind]. rewrite Ll, (set_list W i _ Hi). cbn [rbind]. apply returns_done.
    split; [reflexivity|]. split; [|exact Bp]. apply (wf_sublist m _ i [] (next (fst b) m)); try assumption; try reflexivity. cbn [freelist_search_budget_ with_lists]. rewrite Bu. apply (wf_budget _ _ _ W).
  - cbn [rbind]. rewrite (set_list W i _ Hi). cbn [rbind]. apply returns_done. split; [reflexivity|]. split; [|reflexivity].
    apply (wf_sublist m _ i rest (next (fst b) m)); try assumption; try reflexivity; try apply W. intros j Hj. cbn [free_map_ with_lists]. rewrite (wf_bits _ _ _ W) by exact Hj.
    unfold put. destruct (Z.eqb_spec j i) as [->|]; [|reflexivity]. rewrite E. destruct rest; [lia|reflexivity].
Qed.

(** A block taken out, or given back, is described by the set of the free ones. *)
Lemma free_removed i pre b post : 0 <= i <= kNumLists -> C i = pre ++ b :: post -> forall x, free (put i (pre ++ post) C) x <-> free C x /\ x <> b.
Proof.
  intros Hi E x. pose proof (wf_nodup _ _ _ W i Hi) as N. rewrite E in N. split.
  - intros (j & Hj & I). apply in_put in I. destruct I as [[-> I]|[Nj I]].
    + split; [exists i; split; [exact Hi|rewrite E; apply in_app_iff in I; apply in_app_iff; cbn; tauto]|]. intros ->. apply (NoDup_remove_2 _ _ _ N), I.
    + split; [exists j; auto|]. intros ->. apply Nj. rewrite <- (proj2 (wf_class _ _ _ W j b Hj I)). apply (wf_class _ _ _ W i b Hi). rewrite E. apply in_app_iff. cbn. auto.
  - intros [(j & Hj & I) Nx]. exists j. split; [exact Hj|]. unfold put. destruct (Z.eqb_spec j i) as [->|]; [|exact I]. rewrite E in I. apply in_app_iff in I. apply in_app_iff. cbn in I. destruct I as [?|[?|?]]; [auto|congruence|auto].
Qed.
Lemma free_added i b : 0 <= i <= kNumLists -> forall x, free (put i (b :: C i) C) x <-> free C x \/ x = b.
Proof.
  intros Hi x. split.
  - intros (j & Hj & I). apply in_put in I. destruct I as [[-> [<-|I]]|[_ I]]; [auto|left; exists i; auto|left; exists j; auto].
  - intros [(j & Hj & I)| ->]; [exists j|exists i]; (split; [assumption|]); unfold put; [|rewrite Z.eqb_refl; left; reflexivity]. destruct (Z.eqb_spec j i) as [->|]; [right|]; exact I.
Qed.
End Steps.

Lemma wf_ext m m' fl fl' C : wf m fl C -> (forall b x, free C b -> inside x b -> m' x = m x) ->
  free_lists_ fl' = free_lists_ fl -> free_map_ fl' = free_map_ fl -> last_free_small_size_ fl' = last_free_small_size_ fl ->
  -1 <= freelist_search_budget_ fl' <= kInitialFreeListSearchBudget -> wf m' fl' C.
Proof.
  intros W F El Em Es Bu. split; rewrite ?El, ?Em, ?Es; try apply W; try exact Bu.
  intros i Hi. apply (chain_frame m); [intros b I; apply fits_sized, (in_fits W i); assumption|intros b x I; apply F; exists i; auto|apply (wf_chain _ _ _ W), Hi].
Qed.

Lemma sized_sub s s' : sized s -> sized s' -> s' < s -> sized (s - s').
Proof. unfold sized. intros ((A & B) & D) ((A' & B') & D') L. rewrite Zminus_mod, D, D'. pose proof (Z.div_mod s 16). pose proof (Z.div_mod s' 16). split; [lia|reflexivity]. Qed.
Lemma fits_rest a s n : fits_heap (a, s) -> sized n -> n < s -> fits_heap (a + n, s - n).
Proof.
  intros (P & Q & S & T) Sn L. pose proof (sized_sub s n S Sn L). unfold fits_heap in *. cbn [fst snd] in *. destruct Sn as ((A & B) & D). rewrite Z.add_mod, Q, D by lia.
  split; [lia|]. split; [reflexivity|]. split; [assumption|lia].
Qed.

(** The free blocks once [size] bytes of [b] are taken. *)
Definition taken (C C' : blocks) (b : block) (size : Z) : Prop :=
  forall x, free C' x <-> (free C x /\ x <> b) \/ (size < snd b /\ x = (fst b + size, snd b - size)).
Definition unchanged (m m' : memory) (C : blocks) : Prop := forall x, (forall b, free C b -> ~ inside x b) -> m' x = m x.
Definition allocated (b : block) (size : Z) (m : memory) (fl : t) (C : blocks) (m' : memory) (fl' : t) : Prop :=
  exists C', free C b /\ size <= snd b /\ wf m' fl' C' /\ taken C C' b size /\ unchanged m m' C /\ bump fl' = bump fl.

Lemma Split_spec m fl C b n : wf m fl C -> fits_heap b -> element m b -> (forall x, free C x -> apart b x) -> sized n -> n <= snd b ->
  returns (fun '(m', fl') => exists C', wf m' fl' C' /\ (forall x, free C' x <-> free C x \/ (n < snd b /\ x = (fst b + n, snd b - n))) /\
    (forall x, ~ inside x b -> m' x = m x) /\ bump fl' = bump fl) (SplitElementAfterAndEnqueue (fst b) n m fl).
Proof.
  destruct b as [a s]. cbn [fst snd]. intros W Fb El Ap Sn Le. unfold SplitElementAfterAndEnqueue. pose proof (HeapSize_element m (a, s) (fits_sized _ Fb) El) as Hs. cbn [fst snd] in Hs. rewrite Hs. cbn [rbind].
  destruct (Z.eqb_spec (s - n) 0).
  - apply returns_done. exists C. split; [exact W|]. split; [|auto]. intros x. split; [auto|]. intros [H|[H _]]; [exact H|lia].
  - assert (Lt : n < s) by lia. pose proof (fits_rest a s n Fb Sn Lt) as Fr. assert (U : u64 (a + n) = a + n) by (apply uN_small; unfold is_uN; unfold fits_heap, sized in *; cbn [fst snd] in *; lia). rewrite U.
    assert (Sub : forall x, inside x (a + n, s - n) -> inside x (a, s)) by (unfold inside, sized in *; cbn [fst snd]; lia).
    destruct (AsElement_spec (a + n) (s - n) m Fr) as (m1 & -> & El1 & _ & F1). cbn [rbind]. rewrite IndexForSize_class by apply (fits_sized _ Fr). cbn [rbind].
    assert (W1 : wf m1 fl C).
    { apply (wf_ext m m1 fl fl C W); try reflexivity; [|apply W]. intros c x Fc Ic. apply F1. intros Ix. exact (apart_inside _ _ x (Ap c Fc) (Sub x Ix) Ic). }
    destruct (Enqueue_spec W1 (a + n) (s - n) Fr El1) as ((m2 & fl2) & -> & W2 & F2 & B2); [intros c Fc; specialize (Ap c Fc); unfold apart, sized in *; cbn [fst snd] in *; lia|].
    apply returns_done. eexists. split; [exact W2|]. split; [|split; [|exact B2]].
    + intros x. rewrite free_added by (pose proof (class_range _ (fits_sized _ Fr)); cbn [snd] in *; lia). split; (intros [H|H]; [auto|right]); [auto|apply H].
    + intros x Nx. rewrite F2, F1; [reflexivity|auto|]. intros ->. apply Nx, Sub. apply (next_inside (a + n, s - n)), fits_sized, Fr.
Qed.

(** Dequeue, split and enqueue the remainder. *)
Lemma Take_spec m fl C i b rest n : wf m fl C -> 0 <= i <= kNumLists -> C i = b :: rest -> sized n -> n <= snd b ->
  returns (fun '(r, m', fl') => r = fst b /\ allocated b n m fl C m' fl')
    (let* (element, fl) := DequeueElement i m fl in let* (m, fl) := SplitElementAfterAndEnqueue element n m fl in Done (element, m, fl)).
Proof.
  intros W Hi E Sn Le. assert (Ib : In b (C i)) by (rewrite E; left; reflexivity). assert (Fb : free C b) by (exists i; auto).
  destruct (Dequeue_spec W i b rest Hi E) as ((r & fl1) & -> & -> & W1 & B1). cbn [rbind]. pose proof (free_removed W i [] b rest Hi E) as R. cbn [app] in R.
  assert (El : element m b) by (pose proof (wf_chain _ _ _ W i Hi) as Ch; rewrite E in Ch; apply Ch).
  destruct (Split_spec m fl1 _ b n W1 (free_fits W b Fb) El) as ((m2 & fl2) & -> & C2 & W2 & R2 & F2 & B2); try assumption.
  { intros x Fx. apply R in Fx. destruct (wf_apart _ _ _ W b x Fb (proj1 Fx)) as [<-|]; [tauto|assumption]. }
  cbn [rbind]. apply returns_done. split; [reflexivity|]. exists C2. split; [exact Fb|]. split; [exact Le|]. split; [exact W2|]. split; [|split; [|congruence]].
  - intros x. rewrite R2, R. reflexivity.
  - intros x Nx. apply F2, Nx, Fb.
Qed.

(** Take a whole block: nothing is left of it. *)
Lemma taken_whole C C' b : (forall x, free C' x <-> free C x /\ x <> b) -> taken C C' b (snd b).
Proof. intros R x. rewrite R. split; [auto|]. intros [H|[H _]]; [exact H|lia]. Qed.

Section Allocation.
Context {m : memory} {fl : t} {C : blocks} (W : wf m fl C) (n : Z) (Sn : sized n).

Lemma bit_set_list i : 0 <= i < kNumLists -> BitSet.bit (free_map_ fl) i = true -> exists b rest, C i = b :: rest /\ free C b /\ snd b = 16 * i.
Proof.
  intros Hi B. rewrite (wf_bits _ _ _ W) in B by exact Hi. destruct (C i) as [|b rest] eqn:E; [discriminate|]. exists b, rest. split; [reflexivity|].
  assert (I : In b (C i)) by (rewrite E; left; reflexivity). split; [exists i; split; [lia|exact I]|].
  destruct (wf_class _ _ _ W i b ltac:(lia) I) as [Fh Cl]. apply (class_small (snd b) i (fits_sized _ Fh) Cl). lia.
Qed.
Lemma bit_free b : free C b -> snd b < 2048 -> exists i, 0 <= i < kNumLists /\ snd b = 16 * i /\ BitSet.bit (free_map_ fl) i = true.
Proof.
  intros Fb L. pose proof (fits_sized _ (free_fits W b Fb)) as S. pose proof (class_range _ S) as R. pose proof (class_large _ S) as G. pose proof (free_class W b Fb) as I.
  exists (class (snd b)). assert (Lt : class (snd b) < kNumLists) by lia. split; [lia|]. split; [apply class_small; auto|].
  rewrite (wf_bits _ _ _ W) by lia. destruct (C (class (snd b))); [destruct I|reflexivity].
Qed.

Definition best_fit (s : Z) : Prop := forall c, free C c -> n <= snd c -> s <= snd c.
Definition small_result (o : option (Z * memory * t)) : Prop :=
  match o with
  | Some (r, m', fl') => exists s, allocated (r, s) n m fl C m' fl' /\ best_fit s
  | None => forall b, free C b -> snd b < 2048 -> snd b < n
  end.

Lemma Exact_spec i : 0 <= i < kNumLists -> n = 16 * i -> BitSet.bit (free_map_ fl) i = true ->
  returns small_result (let* (element, fl) := DequeueElement i m fl in Done (Some (element, m, fl))).
Proof.
  intros Hi En B. destruct (bit_set_list i Hi B) as (b & rest & E & Fb & Sb). destruct (Dequeue_spec W i b rest ltac:(lia) E) as ((r & fl1) & -> & -> & W1 & B1). cbn [rbind].
  apply returns_done. exists (snd b). replace (fst b, snd b) with b by (destruct b; reflexivity). split; [|intros c _ L; lia].
  exists (put i rest C). split; [exact Fb|]. split; [lia|]. split; [exact W1|]. split; [|split; [intros x _; reflexivity|exact B1]].
  replace n with (snd b) by lia. apply taken_whole. exact (free_removed W i [] b rest ltac:(lia) E).
Qed.

Lemma FromLists_spec : returns small_result (TryAllocateFromLists n m fl).
Proof.
  unfold TryAllocateFromLists. rewrite IndexForSize_class by exact Sn. cbn [rbind]. pose proof (class_range n Sn) as R. pose proof (class_large n Sn) as G. set (i := class n) in *.
  pose proof (wf_set _ _ _ W) as Ws. assert (Ei : i < kNumLists -> n = 16 * i) by (intros L; apply class_small; [exact Sn|reflexivity|exact L]).
  assert (T : (if negb (i =? kNumLists) then BitSet.Test kNumLists i (free_map_ fl) else Done false) = Done ((i <? kNumLists) && BitSet.bit (free_map_ fl) i)).
  { destruct (Z.eqb_spec i kNumLists) as [->|Ni]; cbn [negb]; [rewrite Z.ltb_irrefl; reflexivity|]. rewrite (BitSet.Test_bit kNumLists); [|reflexivity|exact Ws|lia]. replace (i <? kNumLists) with true by lia. reflexivity. }
  rewrite T. cbn [rbind]. destruct ((i <? kNumLists) && BitSet.bit (free_map_ fl) i) eqn:X.
  - apply andb_prop in X. destruct X as [L B]. apply Exact_spec; [lia|apply Ei; lia|exact B].
  - assert (None_ : (forall j, i + 1 <= j < kNumLists -> BitSet.bit (free_map_ fl) j = false) -> small_result None).
    { intros A b Fb Lb. destruct (bit_free b Fb Lb) as (j & Hj & Sj & Bj). destruct (Z.lt_trichotomy j i) as [Lt|[->|Gt]]; [|rewrite Bj in X; lia|rewrite A in Bj by lia; discriminate].
      destruct (Z.eq_dec i kNumLists) as [Q|Q]; [apply G in Q; lia|rewrite Ei by lia; lia]. }
    destruct (Z.ltb_spec (i + 1) kNumLists) as [L|L]; [|apply returns_done, None_; lia].
    destruct (BitSet.Next_first kNumLists ltac:(reflexivity) _ Ws (i + 1) ltac:(lia)) as (r & -> & [[-> A]|(Rr & Br & Ar)]); cbn [rbind]; [apply returns_done, None_, A|].
    replace (r =? -1) with false by lia. cbn [negb]. destruct (bit_set_list r ltac:(lia) Br) as (b & rest & E & Fb & Sb). specialize (Ei ltac:(lia)).
    destruct (Take_spec m fl C r b rest n W ltac:(lia) E Sn ltac:(lia)) as (((r' & m') & fl') & Q & -> & Al).
    destruct (DequeueElement r m fl) as [(el & fl1)| |]; cbn [rbind] in *; try discriminate. destruct (SplitElementAfterAndEnqueue el n m fl1) as [(m2 & fl2)| |]; cbn [rbind] in *; try discriminate.
    injection Q as -> -> ->. apply returns_done. exists (snd b). replace (fst b, snd b) with b by (destruct b; reflexivity). split; [exact Al|].
    intros c Fc Lc. destruct (Z.lt_ge_cases (snd c) 2048) as [Ls|Ls]; [|unfold kNumLists in *; lia]. destruct (bit_free c Fc Ls) as (j & Hj & Sj & Bj).
    destruct (Z.lt_ge_cases j r); [|lia]. destruct (Z.eq_dec j i) as [->|]; [rewrite Bj in X; lia|]. rewrite Ar in Bj by lia. discriminate.
Qed.
End Allocation.

(** ** Searching the large blocks *)
Definition last_address (pre : list block) : Z := last (map fst pre) 0.
Lemma last_address_snoc pre c : last_address (pre ++ [c]) = fst c.
Proof. unfold last_address. rewrite map_app. apply last_last. Qed.
Lemma snoc_cases {A} (l : list A) : l = [] \/ exists l' x, l = l' ++ [x].
Proof. destruct l as [|y l]; [left; reflexivity|right]. destruct (exists_last (l := y :: l)) as (l' & x & E); [discriminate|eauto]. Qed.

Lemma chain_unlink m c b post : forall pre p, sized (snd c) -> (forall d, In d (pre ++ post) -> sized (snd d) /\ apart c d) -> is_uN 64 (next (fst b) m) ->
  chain m p (pre ++ c :: b :: post) -> chain (set_next (fst c) (next (fst b) m) m) p (pre ++ c :: post).
Proof.
  set (m' := set_next _ _ m). intros pre p Sc H U. assert (F : forall x, x <> fst c + 8 -> m' x = m x) by (intros; apply write_other; assumption).
  assert (Fd : forall d x, In d (pre ++ post) -> inside x d -> m' x = m x).
  { intros d x I Ix. apply F. intros ->. exact (apart_inside c d _ (proj2 (H d I)) (next_inside c Sc) Ix). }
  revert p H Fd. induction pre as [|d pre IH]; intros p H Fd; cbn [app chain].
  - intros (-> & Ec & Hb & Eb & Ch). split; [reflexivity|]. split; [apply (element_frame m); auto|]. unfold next at 1, m', set_next. unfold next_address at 1 2, kWordSize. rewrite write_at, uN_small by exact U.
    apply (chain_frame m); [intros d I; apply H; exact I|exact Fd|exact Ch].
  - intros (-> & Ed & Ch). assert (Id : In d ((d :: pre) ++ post)) by (left; reflexivity). destruct (H d Id) as [Sd Ad]. split; [reflexivity|]. split; [apply (element_frame m); eauto|].
    assert (Nx : next (fst d) m' = next (fst d) m) by (apply (Fd d); [exact Id|apply next_inside, Sd]). rewrite Nx. apply IH; [intros e I; apply H; right; exact I|intros e x I; apply Fd; right; exact I|exact Ch].
Qed.

Section Large.
Context {m : memory} {fl : t} {C : blocks} (W : wf m fl C).

Lemma large_bits fl' l : free_map_ fl' = free_map_ fl -> forall j, 0 <= j < kNumLists -> BitSet.bit (free_map_ fl') j = match put kNumLists l C j with [] => false | _ => true end.
Proof. intros -> j Hj. rewrite put_other by lia. apply (wf_bits _ _ _ W), Hj. Qed.
Lemma upd_item (l : list Z) i : 0 <= i < size l -> upd l i (item 0 l i) = l.
Proof.
  intros Hi. destruct (split_at 0 l i Hi) as (a & b & E & S). unfold upd. rewrite E at 2. replace (Z.to_nat i) with (length a) by (unfold size in S; lia). rewrite set_nth_mid. symmetry. exact E.
Qed.
Lemma large_range : 0 <= kNumLists <= kNumLists.
Proof. split; discriminate. Qed.

Lemma Unlink_spec pre b post : C kNumLists = pre ++ b :: post ->
  returns (fun '(m', fl') => wf m' fl' (put kNumLists (pre ++ post) C) /\ (forall x, (forall c, In c pre -> ~ inside x c) -> m' x = m x) /\ bump fl' = bump fl)
    (Unlink (last_address pre) (next (fst b) m) m fl).
Proof.
  intros E. pose proof large_range as Hk. pose proof (wf_nodup _ _ _ W _ Hk) as Nd. pose proof (wf_chain _ _ _ W _ Hk) as Ch. rewrite E in Nd, Ch.
  assert (Inc : incl (pre ++ post) (C kNumLists)) by (rewrite E; intros x; rewrite !in_app_iff; cbn; tauto).
  assert (Ib : In b (C kNumLists)) by (rewrite E; apply in_app_iff; cbn; auto). pose proof (NoDup_remove_1 _ _ _ Nd) as Nd'. unfold Unlink.
  destruct (snoc_cases pre) as [->|(pre' & c & ->)].
  - cbn [app last_address map last] in *. cbn [Z.eqb]. rewrite (set_list W _ _ Hk). cbn [rbind]. apply returns_done. split; [|auto].
    cbn [chain] in Ch. destruct Ch as (_ & _ & Ch). apply (wf_sublist W m _ kNumLists post (next (fst b) m)); try assumption; try reflexivity; try apply W. apply large_bits. reflexivity.
  - rewrite last_address_snoc. assert (Ic : In c (C kNumLists)) by (apply Inc; rewrite !in_app_iff; cbn; auto). pose proof (in_fits W _ c Hk Ic) as Fc. destruct Fc as (Pc & _ & Sc & _).
    replace (fst c =? 0) with false by lia. apply returns_done. rewrite <- !app_assoc in *. cbn [app] in *.
    assert (Fm : forall x, x <> fst c + 8 -> set_next (fst c) (next (fst b) m) m x = m x) by (intros; apply write_other; assumption). split; [|split; [|reflexivity]].
    + apply (wf_sublist W _ fl kNumLists (pre' ++ c :: post) (item 0 (free_lists_ fl) kNumLists)); try assumption; try apply W; [symmetry; apply upd_item; rewrite (wf_size _ _ _ W); lia| | |apply large_bits; reflexivity].
      * apply chain_unlink; try assumption.
        -- intros d I. assert (Id : In d (C kNumLists)) by (apply Inc; apply in_app_iff in I; apply in_app_iff; cbn; tauto). split; [apply fits_sized, (in_fits W _ d Hk Id)|].
           destruct (wf_apart _ _ _ W c d) as [<-|]; [exists kNumLists; auto|exists kNumLists; auto| |assumption]. exfalso. apply (NoDup_remove_2 _ _ _ Nd'), I.
        -- apply (chain_word m _ post); [intros d I; apply (in_fits W _ d Hk), Inc, in_app_iff; cbn; auto|]. clear - Ch. revert Ch. generalize (item 0 (free_lists_ fl) kNumLists). induction pre' as [|e pre' IH]; cbn [app chain]; intros p; [tauto|]. intros (_ & _ & Ch). exact (IH _ Ch).
      * intros j d x Hj Nj Id Ix. apply Fm. intros ->. destruct (wf_apart _ _ _ W c d) as [<-|Ap]; [exists kNumLists; auto|exists j; auto| |exact (apart_inside c d _ Ap (next_inside c Sc) Ix)].
        apply Nj. rewrite <- (proj2 (wf_class _ _ _ W j c Hj Id)). exact (proj2 (wf_class _ _ _ W _ c Hk Ic)).
    + intros x Nx. apply Fm. intros ->. apply (Nx c); [apply in_app_iff; cbn; auto|apply next_inside, Sc].
Qed.

(** Taking a large block out, and splitting it. *)
Lemma large_element pre b post : C kNumLists = pre ++ b :: post -> free C b /\ element m b.
Proof.
  intros E. pose proof (wf_chain _ _ _ W _ large_range) as Ch. rewrite E in Ch. split; [exists kNumLists; split; [apply large_range|rewrite E; apply in_app_iff; cbn; auto]|].
  revert Ch. generalize (item 0 (free_lists_ fl) kNumLists). clear E. induction pre as [|e pre IH]; cbn [app chain]; intros p; [tauto|]. intros (_ & _ & Ch). exact (IH _ Ch).
Qed.
Lemma unlinked_apart pre b post x : C kNumLists = pre ++ b :: post -> free (put kNumLists (pre ++ post) C) x -> apart b x.
Proof.
  intros E Fx. apply (free_removed W _ _ _ _ large_range E) in Fx. destruct (wf_apart _ _ _ W b x (proj1 (large_element _ _ _ E)) (proj1 Fx)) as [<-|]; [tauto|assumption].
Qed.
Lemma unlinked_same pre b post m' x : C kNumLists = pre ++ b :: post -> (forall x, (forall c, In c pre -> ~ inside x c) -> m' x = m x) -> inside x b -> m' x = m x.
Proof.
  intros E F Ix. apply F. intros c Ic Jx. apply (apart_inside b c x); try assumption. apply (unlinked_apart pre b post c E). exists kNumLists. split; [apply large_range|]. rewrite put_same. apply in_app_iff. auto.
Qed.
Definition budget_ok (fl : t) : Prop := -1 <= freelist_search_budget_ fl <= kInitialFreeListSearchBudget.

Lemma Found_large pre b post : C kNumLists = pre ++ b :: post -> forall tries, -1 <= tries ->
  returns (fun '(m', fl') => allocated b (snd b) m fl C m' (with_budget fl' (Z.min tries kInitialFreeListSearchBudget)) /\ element m' b)
    (Unlink (last_address pre) (next (fst b) m) m fl).
Proof.
  intros E tries T. refine (returns_weaken _ _ _ (Unlink_spec pre b post E) _). intros (m1 & fl1) (W1 & F1 & B1). destruct (large_element _ _ _ E) as [Fb El].
  split; [|apply (element_frame m); [apply fits_sized, (free_fits W b Fb)|intros x Ix _; apply (unlinked_same pre b post); assumption|exact El]].
  exists (put kNumLists (pre ++ post) C). split; [exact Fb|]. split; [lia|]. split; [|split; [|split; [|exact B1]]].
  - apply (wf_ext m1 m1 fl1); try reflexivity; [exact W1|]. cbn [freelist_search_budget_ with_budget]. unfold kInitialFreeListSearchBudget. lia.
  - apply taken_whole, (free_removed W _ _ _ _ large_range E).
  - intros x Nx. apply F1. intros c Ic. apply Nx. exists kNumLists. split; [apply large_range|]. rewrite E. apply in_app_iff. auto.
Qed.
Lemma Found_split pre b post n : C kNumLists = pre ++ b :: post -> sized n -> n <= snd b -> forall tries, -1 <= tries ->
  returns (fun '(m', fl') => allocated b n m fl C m' (with_budget fl' (Z.min tries kInitialFreeListSearchBudget)))
    (let* (m', fl') := Unlink (last_address pre) (next (fst b) m) m fl in SplitElementAfterAndEnqueue (fst b) n m' fl').
Proof.
  intros E Sn Le tries T. destruct (Unlink_spec pre b post E) as ((m1 & fl1) & -> & W1 & F1 & B1). cbn [rbind]. destruct (large_element _ _ _ E) as [Fb El]. pose proof (free_fits W b Fb) as Fh.
  assert (El1 : element m1 b) by (apply (element_frame m); [apply fits_sized, Fh|intros x Ix _; apply (unlinked_same pre b post); assumption|exact El]).
  refine (returns_weaken _ _ _ (Split_spec m1 fl1 _ b n W1 Fh El1 (fun x => unlinked_apart pre b post x E) Sn Le) _). intros (m2 & fl2) (C2 & W2 & R2 & F2 & B2).
  exists C2. split; [exact Fb|]. split; [exact Le|]. split; [|split; [|split; [|unfold bump in *; cbn [top_ end_ unaccounted_size_ with_budget]; congruence]]].
  - apply (wf_ext m2 m2 fl2); try reflexivity; [exact W2|]. cbn [freelist_search_budget_ with_budget]. unfold kInitialFreeListSearchBudget. lia.
  - intros x. rewrite R2, (free_removed W _ _ _ _ large_range E). reflexivity.
  - intros x Nx. rewrite F2 by (apply Nx, Fb). apply F1. intros c Ic. apply Nx. exists kNumLists. split; [apply large_range|]. rewrite E. apply in_app_iff. auto.
Qed.

(** None of the first blocks searched fits: the answer is 0 and nothing has changed. *)
Definition refused (n tries : Z) (post : list block) (r : Z) (m' : memory) (fl' : t) : Prop :=
  r = 0 /\ m' = m /\ wf m fl' C /\ bump fl' = bump fl /\ forall b, In b (firstn (Z.to_nat (tries + 2)) post) -> snd b < n.
Lemma refused_empty n tries m' : m' = m -> refused n tries [] 0 m' fl.
Proof. intros ->. split; [reflexivity|]. split; [reflexivity|]. split; [exact W|]. split; [reflexivity|]. intros b. rewrite firstn_nil. intros []. Qed.
Lemma refused_budget n tries b post : tries < 0 -> -1 <= tries -> snd b < n -> refused n tries (b :: post) 0 m (with_budget fl kInitialFreeListSearchBudget).
Proof.
  intros L1 L2 Lt. split; [reflexivity|]. split; [reflexivity|]. split; [apply (wf_ext m m fl); try reflexivity; [exact W|cbn [freelist_search_budget_ with_budget]; unfold kInitialFreeListSearchBudget; lia]|]. split; [reflexivity|].
  replace (Z.to_nat (tries + 2)) with 1%nat by lia. intros c [<-|[]]. exact Lt.
Qed.
Lemma refused_next n tries b post r m' fl' : 0 <= tries -> snd b < n -> refused n (tries - 1) post r m' fl' -> refused n tries (b :: post) r m' fl'.
Proof.
  intros T Lt (-> & -> & Wf & B & A). split; [reflexivity|]. split; [reflexivity|]. split; [exact Wf|]. split; [exact B|].
  replace (Z.to_nat (tries + 2)) with (S (Z.to_nat (tries - 1 + 2))) by lia. intros c [<-|I]; [exact Lt|apply A, I].
Qed.

Lemma Search_loop_spec n : sized n -> forall fuel pre post current tries, C kNumLists = pre ++ post -> chain m current post -> fuel = Z.to_nat (tries + 2) -> -1 <= tries ->
  returns (fun '(r, m', fl') => refused n tries post r m' fl' \/ exists b, In b post /\ r = fst b /\ allocated b n m fl C m' fl')
    (Search_loop fuel (last_address pre) current tries n m fl).
Proof.
  intros Sn. induction fuel as [|fuel IH]; intros pre post current tries E Ch Hf T; [lia|]. cbn [Search_loop].
  assert (P : forall b, In b post -> fits_heap b) by (intros b I; apply (in_fits W _ b large_range); rewrite E; apply in_app_iff; auto).
  rewrite (chain_null m current post) by (assumption || (intros b I; apply P, I)). destruct post as [|b post]; [apply returns_done; left; apply refused_empty; reflexivity|].
  cbn [chain] in Ch. destruct Ch as (-> & El & Ch). rewrite (HeapSize_element m b) by (assumption || (apply fits_sized, P; left; reflexivity)). cbn [rbind].
  destruct (Z.geb_spec (snd b) n) as [L|L].
  - destruct (Found_split pre b post n E Sn L tries T) as ((m' & fl') & Q & Al). destruct (Unlink _ _ m fl) as [(m1 & fl1)| |]; cbn [rbind] in *; try discriminate. rewrite Q. cbn [rbind].
    apply returns_done. right. exists b. split; [left; reflexivity|]. split; [reflexivity|exact Al].
  - destruct (Z.ltb_spec tries 0); [apply returns_done; left; apply refused_budget; lia|].
    rewrite <- (last_address_snoc pre b). rewrite (last_address_snoc pre b) at 2. refine (returns_weaken _ _ _ (IH (pre ++ [b]) post _ (tries - 1) _ Ch _ _) _); [rewrite <- app_assoc; exact E|lia|lia|].
    intros ((r & m') & fl') [R|(c & I & Q)]; [left; apply refused_next; assumption || lia|right; exists c; split; [right; exact I|exact Q]].
Qed.
Lemma Large_loop_spec n : forall fuel pre post current tries, C kNumLists = pre ++ post -> chain m current post -> fuel = Z.to_nat (tries + 2) -> -1 <= tries ->
  returns (fun '(r, m', fl') => refused n tries post r m' fl' \/ exists b, In b post /\ r = fst b /\ n <= snd b /\ allocated b (snd b) m fl C m' fl' /\ element m' b)
    (Large_loop fuel (last_address pre) current tries n m fl).
Proof.
  induction fuel as [|fuel IH]; intros pre post current tries E Ch Hf T; [lia|]. cbn [Large_loop].
  assert (P : forall b, In b post -> fits_heap b) by (intros b I; apply (in_fits W _ b large_range); rewrite E; apply in_app_iff; auto).
  rewrite (chain_null m current post) by (assumption || (intros b I; apply P, I)). destruct post as [|b post]; [apply returns_done; left; apply refused_empty; reflexivity|].
  cbn [chain] in Ch. destruct Ch as (-> & El & Ch). rewrite (HeapSize_element m b) by (assumption || (apply fits_sized, P; left; reflexivity)). cbn [rbind].
  destruct (Z.geb_spec (snd b) n) as [L|L].
  - destruct (Found_large pre b post E tries T) as ((m' & fl') & -> & Al & El'). cbn [rbind]. apply returns_done. right. exists b. split; [left; reflexivity|]. auto.
  - destruct (Z.ltb_spec tries 0); [apply returns_done; left; apply refused_budget; lia|].
    rewrite <- (last_address_snoc pre b). rewrite (last_address_snoc pre b) at 2. refine (returns_weaken _ _ _ (IH (pre ++ [b]) post _ (tries - 1) _ Ch _ _) _); [rewrite <- app_assoc; exact E|lia|lia|].
    intros ((r & m') & fl') [R|(c & I & Q)]; [left; apply refused_next; assumption || lia|right; exists c; split; [right; exact I|exact Q]].
Qed.
End Large.

(** ** The operations *)
Lemma tries_ok m fl C n : wf m fl C -> sized n -> -1 <= freelist_search_budget_ fl + (n >> kWordSizeLog2).
Proof. intros W ((S1 & S2) & _). pose proof (wf_budget _ _ _ W). pose proof (Z.shiftr_nonneg n kWordSizeLog2). lia. Qed.

Definition no_small (C : blocks) (n : Z) : Prop := forall b, free C b -> snd b < 2048 -> snd b < n.
Definition tries (fl : t) (n : Z) : nat := Z.to_nat (freelist_search_budget_ fl + (n >> kWordSizeLog2) + 2).
Definition no_large (fl : t) (C : blocks) (n : Z) : Prop := forall b, In b (firstn (tries fl n) (C kNumLists)) -> snd b < n.
Definition same_blocks (m : memory) (fl : t) (C : blocks) (r : Z) (m' : memory) (fl' : t) : Prop :=
  r = 0 /\ m' = m /\ wf m fl' C /\ bump fl' = bump fl.

Lemma Length_loop_spec m fuel : forall bl p k, (forall b, In b bl -> 0 < fst b) -> chain m p bl -> (length bl <= fuel)%nat -> Length_loop fuel p k m = Done (k + size bl).
Proof.
  induction fuel as [|fuel IH]; intros bl p k P Ch Hl; cbn [Length_loop]; rewrite (chain_null m p bl P Ch); destruct bl as [|b bl]; cbn [length] in Hl; try lia; try (f_equal; unfold size; cbn [length]; lia).
  cbn [chain] in Ch. destruct Ch as (-> & _ & Ch). rewrite (IH bl); [f_equal; unfold size; cbn [length]; lia|intros c I; apply P; right; exact I|exact Ch|lia].
Qed.

Section Operations.
Context {m : memory} {fl : t} {C : blocks} (W : wf m fl C).

Lemma TryAllocateLocked_spec n : sized n ->
  returns (fun '(r, m', fl') => (same_blocks m fl C r m' fl' /\ no_small C n /\ no_large fl C n) \/
      exists s, allocated (r, s) n m fl C m' fl' /\ forall c, free C c -> snd c < 2048 -> n <= snd c -> s <= snd c) (TryAllocateLocked n m fl).
Proof.
  intros Sn. unfold TryAllocateLocked. destruct (FromLists_spec W n Sn) as (o & -> & R). cbn [rbind]. destruct o as [((r & m') & fl')|].
  - destruct R as (s & A & B). apply returns_done. right. exists s. split; [exact A|]. intros c Fc _. apply B, Fc.
  - cbn [small_result] in R. rewrite (get_list W _ large_range). cbn [rbind].
    refine (returns_weaken _ _ _ (Search_loop_spec W n Sn _ [] (C kNumLists) _ _ eq_refl (wf_chain _ _ _ W _ large_range) eq_refl (tries_ok _ _ _ n W Sn)) _).
    intros ((r & m') & fl') [(E1 & E2 & W' & B & A)|(b & I & -> & A)]; [left; repeat (split; [assumption|]); [split; [|split]; [split; assumption || auto|exact R|exact A]]|right].
    exists (snd b). replace (fst b, snd b) with b by (destruct b; reflexivity). split; [exact A|]. intros c Fc L G. specialize (R c Fc L). lia.
Qed.

Lemma TryAllocateSmallLocked_spec n : sized n ->
  returns (fun '(r, m', fl') => (same_blocks m fl C r m' fl' /\ no_small C n) \/ exists s, allocated (r, s) n m fl C m' fl' /\ forall c, free C c -> n <= snd c -> s <= snd c)
    (TryAllocateSmallLocked n m fl).
Proof.
  intros Sn. unfold TryAllocateSmallLocked. assert (Same : same_blocks m fl C 0 m fl) by (repeat (split; [reflexivity || exact W|]); reflexivity). destruct (Z.gtb_spec n (last_free_small_size_ fl)) as [G|G].
  - apply returns_done. left. split; [exact Same|]. intros b Fb L. destruct (bit_free W b Fb L) as (i & Hi & Sb & Bi). destruct (wf_last _ _ _ W) as (r & [[-> A]|(Rr & _ & A)] & E); [rewrite A in Bi by exact Hi; discriminate|].
    replace (r =? -1) with false in E by lia. destruct (Z.lt_ge_cases r i) as [L'|L']; [rewrite A in Bi by lia; discriminate|lia].
  - destruct (FromLists_spec W n Sn) as (o & -> & R). cbn [rbind]. destruct o as [((r & m') & fl')|]; apply returns_done; [right|left; split; [exact Same|exact R]]. destruct R as (s & A & B). exists s. split; assumption.
Qed.

Lemma TryAllocateLargeLocked_spec n : sized n ->
  returns (fun '(r, m', fl') => (same_blocks m fl C r m' fl' /\ no_large fl C n) \/ exists s, n <= s /\ 2048 <= s /\ allocated (r, s) s m fl C m' fl' /\ HeapSize r m' = Done s) (TryAllocateLargeLocked n m fl).
Proof.
  intros Sn. unfold TryAllocateLargeLocked. rewrite (get_list W _ large_range). cbn [rbind].
  refine (returns_weaken _ _ _ (Large_loop_spec W n _ [] (C kNumLists) _ _ eq_refl (wf_chain _ _ _ W _ large_range) eq_refl (tries_ok _ _ _ n W Sn)) _).
  intros ((r & m') & fl') [(E1 & E2 & W' & B & A)|(b & I & -> & L & A & El)]; [left; split; [split; [|split; [|split]]; assumption|exact A]|right].
  destruct (wf_class _ _ _ W _ b large_range I) as [Fb Cl]. exists (snd b). replace (fst b, snd b) with b by (destruct b; reflexivity). split; [exact L|]. split; [apply class_large; [apply fits_sized, Fb|exact Cl]|]. split; [exact A|apply HeapSize_element; [apply fits_sized, Fb|exact El]].
Qed.

Lemma FreeLocked_spec b : fits_heap b -> (forall c, free C c -> apart b c) ->
  returns (fun '(m', fl') => exists C', wf m' fl' C' /\ (forall x, free C' x <-> free C x \/ x = b) /\ (forall x, ~ inside x b -> m' x = m x) /\ bump fl' = bump fl)
    (FreeLocked (fst b) (snd b) m fl).
Proof.
  destruct b as [a s]. cbn [fst snd]. intros Fb Ap. unfold FreeLocked. rewrite IndexForSize_class by apply (fits_sized _ Fb). cbn [rbind].
  destruct (AsElement_spec a s m Fb) as (m1 & -> & El & _ & F1). cbn [rbind].
  assert (W1 : wf m1 fl C) by (apply (wf_ext m m1 fl fl C W); try reflexivity; [|apply W]; intros c x Fc Ic; apply F1; intros Ix; exact (apart_inside _ _ x (Ap c Fc) Ix Ic)).
  refine (returns_weaken _ _ _ (Enqueue_spec W1 a s Fb El Ap) _). intros (m2 & fl2) (W2 & F2 & B2). eexists. split; [exact W2|]. split; [|split; [|exact B2]].
  - apply free_added. pose proof (class_range _ (fits_sized _ Fb)). cbn [snd] in *. lia.
  - intros x Nx. rewrite F2, F1; [reflexivity|exact Nx|]. intros ->. apply Nx, (next_inside (a, s)), fits_sized, Fb.
Qed.

Lemma LengthLocked_spec i fuel : 0 <= i < kNumLists -> (length (C i) <= fuel)%nat -> LengthLocked fuel i m fl = Done (size (C i)).
Proof.
  intros Hi Hf. unfold LengthLocked. replace (i >=? 0) with true by lia. replace (i <? kNumLists) with true by lia. rewrite (get_list W i) by lia. cbn [rbind].
  rewrite (Length_loop_spec m fuel (C i)); [f_equal; lia|intros b I; apply (in_fits W i b ltac:(lia) I)|apply (wf_chain _ _ _ W); lia|exact Hf].
Qed.
End Operations.

Lemma Reset_wf m fl : -1 <= freelist_search_budget_ fl <= kInitialFreeListSearchBudget -> wf m (Reset fl) (fun _ => []).
Proof.
  intros Bu. destruct (BitSet.Reset_empty kNumLists ltac:(reflexivity)) as [Ws B]. split; cbn [Reset free_lists_ free_map_ last_free_small_size_ freelist_search_budget_ with_lists with_map]; try assumption.
  - reflexivity.
  - intros i Hi. cbn [chain]. unfold item. destruct (nth_in_or_default (Z.to_nat i) (repeat 0 (Z.to_nat (kNumLists + 1))) 0) as [I|E]; [apply repeat_spec in I; exact I|exact E].
  - intros i b _ [].
  - constructor.
  - intros b b' (i & _ & []).
  - intros i _. apply B.
  - exists (-1). split; [left; split; [reflexivity|intros; apply B]|reflexivity].
Qed.

(** C4.  The free list allocates best fit from its small blocks and keeps the set of free blocks.  From any well-formed
    state: allocating either takes a free block that is large enough, the smallest such one where a small block fits,
    and puts what is left of it back as a free block, or answers 0 and changes nothing, only when no small block fits
    and none of the large blocks that the search budget allows does; allocating from the small lists does the same
    without the search, and exactly when a small block fits; a large allocation takes a whole block, whose header
    still tells its size; freeing a block that overlaps no free one adds it; and the memory outside the free blocks is
    never written.  No operation fails an assertion or runs forever. *)
Theorem free_list_correct m fl C : wf m fl C ->
  (forall n, sized n ->
    returns (fun '(r, m', fl') => (same_blocks m fl C r m' fl' /\ no_small C n /\ no_large fl C n) \/
      exists s, allocated (r, s) n m fl C m' fl' /\ forall c, free C c -> snd c < 2048 -> n <= snd c -> s <= snd c) (TryAllocateLocked n m fl) /\
    returns (fun '(r, m', fl') => (same_blocks m fl C r m' fl' /\ no_small C n) \/
      exists s, allocated (r, s) n m fl C m' fl' /\ forall c, free C c -> n <= snd c -> s <= snd c) (TryAllocateSmallLocked n m fl) /\
    returns (fun '(r, m', fl') => (same_blocks m fl C r m' fl' /\ no_large fl C n) \/
      exists s, n <= s /\ 2048 <= s /\ allocated (r, s) s m fl C m' fl' /\ HeapSize r m' = Done s) (TryAllocateLargeLocked n m fl)) /\
  (forall b, fits_heap b -> (forall c, free C c -> apart b c) ->
    returns (fun '(m', fl') => exists C', wf m' fl' C' /\ (forall x, free C' x <-> free C x \/ x = b) /\ (forall x, ~ inside x b -> m' x = m x) /\ bump fl' = bump fl)
      (FreeLocked (fst b) (snd b) m fl)) /\
  (forall i fuel, 0 <= i < kNumLists -> (length (C i) <= fuel)%nat -> LengthLocked fuel i m fl = Done (size (C i))) /\
  wf m (Reset fl) (fun _ => []).
Proof.
  intros W. split; [|split; [|split]].
  - intros n Sn. split; [apply TryAllocateLocked_spec; assumption|]. split; [apply TryAllocateSmallLocked_spec; assumption|apply TryAllocateLargeLocked_spec; assumption].
  - intros b. apply FreeLocked_spec, W.
  - intros i fuel. apply LengthLocked_spec, W.
  - apply Reset_wf, W.
Qed.
Lemma free_list_correct_witness : returns (fun '(m', fl') => exists C', wf m' fl' C' /\ (forall x, free C' x <-> free (fun _ => []) x \/ x = (65536, 4096)) /\
  (forall x, ~ inside x (65536, 4096) -> m' x = 0) /\ bump fl' = bump FreeList.FreeList) (FreeLocked 65536 4096 (fun _ => 0) FreeList.FreeList).
Proof.
  apply (free_list_correct (fun _ => 0) FreeList.FreeList (fun _ => []) ltac:(apply Reset_wf; cbn; unfold kInitialFreeListSearchBudget; lia)) with (b := (65536, 4096)).
  - unfold fits_heap, sized. cbn [fst snd]. split; [lia|]. split; [reflexivity|]. split; [split; [lia|reflexivity]|lia].
  - intros c (i & _ & []).
Defined.
