(* ===== verification/FreeListHeap.v ===== *)
(** * A heap on the free list

    The pages of a heap are divided into the blocks the program uses, the bump region, the
    garbage not yet given back, and the free blocks.  The steps are the operations of
    [FreeList] as [PageSpace], the sweeper and the scavenger call them; between them the
    program writes to its blocks.  In every reachable heap the blocks in use are disjoint, no
    operation fails, and none changes the contents of a block in use. *)

From Stdlib Require Import ZArith Bool List Lia ZifyBool Permutation.
From S2P Require Import Prelude Utils BitField Result Arrays BitSet FreeList FreeListProofs.
Import ListNotations.
Import FreeListElement FreeList.
Open Scope Z_scope.

(** ** Disjoint blocks *)
Definition disjoint_blocks (l : list block) : Prop := ForallOrdPairs apart l.
Definition within (b p : block) : Prop := fst p <= fst b /\ fst b + snd b <= fst p + snd p.

Lemma disjoint_cons b l : disjoint_blocks (b :: l) <-> (forall c, In c l -> apart b c) /\ disjoint_blocks l.
Proof.
  split; [intros H; inversion H as [|? ? F D]; subst; split; [apply Forall_forall, F|exact D]|].
  intros [F D]. constructor; [apply Forall_forall, F|exact D].
Qed.
Lemma disjoint_perm l l' : Permutation l l' -> disjoint_blocks l -> disjoint_blocks l'.
Proof.
  induction 1 as [|b l l' P IH|b c l|l l1 l2 P1 IH1 P2 IH2]; auto; rewrite ?disjoint_cons.
  - intros [F D]. split; [intros c I; apply F, (Permutation_in _ (Permutation_sym P)), I|auto].
  - intros [F [G D]]. split; [|split; [|exact D]].
    + intros d [<-|I]; [apply apart_sym, F; left; reflexivity|apply G, I].
    + intros d I. apply F. right. exact I.
Qed.
Lemma disjoint_app l l' : disjoint_blocks (l ++ l') -> disjoint_blocks l /\ disjoint_blocks l'.
Proof.
  induction l as [|b l IH]; cbn [app]; [intros D; split; [constructor|exact D]|]. rewrite !disjoint_cons. intros [F D]. destruct (IH D) as [D1 D2].
  split; [split; [|exact D1]|exact D2]. intros c I. apply F, in_app_iff. auto.
Qed.

(** ** Owned and free blocks *)
Record good (m : memory) (fl : t) (C : blocks) (owned pages : list block) : Prop := {
  good_wf : wf m fl C;
  good_fits : forall b, In b owned -> fits_heap b;
  good_disjoint : disjoint_blocks owned;
  good_apart : forall b c, In b owned -> free C c -> apart b c;
  good_within : forall b, In b owned \/ free C b -> exists p, In p pages /\ within b p }.

Lemma good_perm m fl C owned owned' pages : Permutation owned owned' -> good m fl C owned pages -> good m fl C owned' pages.
Proof.
  intros P G. assert (I : forall b, In b owned' -> In b owned) by (intros b; apply Permutation_in, Permutation_sym, P). split; try apply G.
  - intros b Hb. apply (good_fits _ _ _ _ _ G), I, Hb.
  - apply (disjoint_perm owned); [exact P|apply G].
  - intros b c Hb. apply (good_apart _ _ _ _ _ G), I, Hb.
  - intros b [Hb|Hb]; apply (good_within _ _ _ _ _ G); auto.
Qed.
Lemma good_drop m fl C b owned pages : good m fl C (b :: owned) pages -> good m fl C owned pages.
Proof.
  intros G. split; try apply G.
  - intros c I. apply (good_fits _ _ _ _ _ G). right. exact I.
  - exact (proj2 (proj1 (disjoint_cons _ _) (good_disjoint _ _ _ _ _ G))).
  - intros c d I. apply (good_apart _ _ _ _ _ G). right. exact I.
  - intros c [I|I]; apply (good_within _ _ _ _ _ G); [left; right|right]; exact I.
Qed.
Lemma good_frame m m' fl C owned pages : good m fl C owned pages -> (forall x, (forall b, In b owned -> ~ inside x b) -> m' x = m x) -> good m' fl C owned pages.
Proof.
  intros G F. split; try apply G. apply (wf_ext m m' fl fl C); try reflexivity; try apply G. intros b x Fb Ix. apply F. intros c Ic Jx. exact (apart_inside c b x (good_apart _ _ _ _ _ G c b Ic Fb) Jx Ix).
Qed.
Lemma good_fields m fl fl' C owned pages : good m fl C owned pages -> free_lists_ fl' = free_lists_ fl -> free_map_ fl' = free_map_ fl ->
  last_free_small_size_ fl' = last_free_small_size_ fl -> freelist_search_budget_ fl' = freelist_search_budget_ fl -> good m fl' C owned pages.
Proof. intros G E1 E2 E3 E4. split; try apply G. apply (wf_ext m m fl fl' C); try assumption; try reflexivity; [apply G|]. rewrite E4. apply G. Qed.

(** An allocation takes a block that nothing owns and leaves what is owned as it is. *)
Lemma good_allocated m fl C owned pages b n m' fl' : good m fl C owned pages -> allocated b n m fl C m' fl' -> sized n ->
  (exists C', good m' fl' C' ((fst b, n) :: owned) pages) /\ forall c x, In c owned -> inside x c -> m' x = m x.
Proof.
  intros G (C' & Fb & Le & W' & Tk & Un & _) Sn. pose proof (good_wf _ _ _ _ _ G) as W. pose proof (free_fits W b Fb) as Fh. split.
  - exists C'. split; [exact W'| | | |].
    + intros c [<-|I]; [|apply (good_fits _ _ _ _ _ G), I]. unfold fits_heap, sized in *. cbn [fst snd]. split; [apply Fh|]. split; [apply Fh|]. split; [exact Sn|lia].
    + apply disjoint_cons. split; [|apply G]. intros c I. pose proof (good_apart _ _ _ _ _ G c b I Fb). unfold apart in *. cbn [fst snd]. lia.
    + intros c d [<-|I] Fd; apply Tk in Fd; destruct Fd as [[Fd Nd]|[L ->]]; unfold apart in *; cbn [fst snd].
      * destruct (wf_apart _ _ _ W b d Fb Fd) as [->|Ap]; [congruence|]. unfold apart in Ap. lia.
      * lia.
      * exact (good_apart _ _ _ _ _ G c d I Fd).
      * pose proof (good_apart _ _ _ _ _ G c b I Fb) as Ap. unfold apart, sized in *. lia.
    + destruct (good_within _ _ _ _ _ G b (or_intror Fb)) as (p & Ip & Wp). unfold within in *. intros c [[<-|I]|Fc].
      * exists p. cbn [fst snd]. split; [exact Ip|lia].
      * apply (good_within _ _ _ _ _ G). auto.
      * apply Tk in Fc. destruct Fc as [[Fc _]|[L ->]]; [apply (good_within _ _ _ _ _ G); auto|]. exists p. cbn [fst snd]. unfold sized in Sn. split; [exact Ip|lia].
  - intros c x Ic Ix. apply Un. intros d Fd Jx. exact (apart_inside c d x (good_apart _ _ _ _ _ G c d Ic Fd) Ix Jx).
Qed.
Lemma good_same m fl C owned pages r m' fl' : good m fl C owned pages -> same_blocks m fl C r m' fl' -> good m' fl' C owned pages.
Proof. intros G (_ & -> & W' & _). split; try apply G. exact W'. Qed.

(** A block given back. *)
Lemma good_freed m fl C owned pages b : good m fl C (b :: owned) pages ->
  returns (fun '(m', fl') => (exists C', good m' fl' C' owned pages) /\ (forall x, ~ inside x b -> m' x = m x) /\ bump fl' = bump fl) (FreeLocked (fst b) (snd b) m fl).
Proof.
  intros G. assert (Ib : In b (b :: owned)) by (left; reflexivity). pose proof (good_disjoint _ _ _ _ _ G) as D. apply disjoint_cons in D. destruct D as [Db _].
  refine (returns_weaken _ _ _ (FreeLocked_spec (good_wf _ _ _ _ _ G) b (good_fits _ _ _ _ _ G b Ib) (fun c => good_apart _ _ _ _ _ G b c Ib)) _).
  intros (m' & fl') (C' & W' & R & F & B). split; [|split; assumption]. pose proof (good_drop _ _ _ _ _ _ G) as G'. exists C'. split; [exact W'|apply G'|apply G'| |].
  - intros c d Ic Fd. apply R in Fd. destruct Fd as [Fd| ->]; [exact (good_apart _ _ _ _ _ G' c d Ic Fd)|apply apart_sym, Db, Ic].
  - intros c [I|Fc]; [apply (good_within _ _ _ _ _ G'); auto|]. apply R in Fc. destruct Fc as [Fc| ->]; apply (good_within _ _ _ _ _ G); auto.
Qed.

(** The lists emptied, the owned blocks chosen afresh. *)
Lemma good_reset m fl C owned pages owned' : good m fl C owned pages -> (forall b, In b owned' -> fits_heap b) -> disjoint_blocks owned' ->
  (forall b, In b owned' -> exists p, In p pages /\ within b p) -> good m (Reset fl) (fun _ => []) owned' pages.
Proof.
  intros G Fh D Wi. split; try assumption; [apply Reset_wf, G| |].
  - intros b c _ (i & _ & []).
  - intros b [I|(i & _ & [])]. apply Wi, I.
Qed.
Lemma good_grow m fl C owned pages p : good m fl C owned pages -> fits_heap p -> (forall q, In q pages -> apart p q) -> good m fl C (p :: owned) (p :: pages).
Proof.
  intros G Fp Ap. assert (K : forall b, In b owned \/ free C b -> apart p b).
  { intros b Hb. destruct (good_within _ _ _ _ _ G b Hb) as (q & Iq & Wq). specialize (Ap q Iq). unfold apart, within in *. lia. }
  split; [apply G| | | |].
  - intros b [<-|I]; [exact Fp|apply (good_fits _ _ _ _ _ G), I].
  - apply disjoint_cons. split; [intros c I; apply K; auto|apply G].
  - intros b c [<-|I] Fc; [apply K; auto|apply (good_apart _ _ _ _ _ G); assumption].
  - intros b [[<-|I]|Fb]; [exists p; split; [left; reflexivity|unfold within; lia]| |]; destruct (good_within _ _ _ _ _ G b) as (q & Iq & Wq); auto; exists q; (split; [right; exact Iq|exact Wq]).
Qed.
Lemma good_split m fl C owned pages b n : good m fl C (b :: owned) pages -> sized n -> n < snd b ->
  good m fl C ((fst b + n, snd b - n) :: (fst b, n) :: owned) pages.
Proof.
  destruct b as [a s]. cbn [fst snd]. intros G Sn L. pose proof (good_fits _ _ _ _ _ G (a, s) (or_introl eq_refl)) as Fb. pose proof (fits_rest a s n Fb Sn L) as Fr.
  pose proof (good_disjoint _ _ _ _ _ G) as D. apply disjoint_cons in D. destruct D as [Db D]. pose proof (proj1 (proj1 Sn)) as S0.
  assert (K : forall c, In c owned \/ free C c -> apart (a, s) c) by (intros c [I|I]; [apply Db, I|apply (good_apart _ _ _ _ _ G); [left; reflexivity|exact I]]).
  destruct (good_within _ _ _ _ _ G (a, s)) as (p & Ip & Wp); [left; left; reflexivity|]. split; [apply G| | | |].
  - intros c [<-|[<-|I]]; [exact Fr| |apply (good_fits _ _ _ _ _ G); right; exact I]. unfold fits_heap in *. cbn [fst snd] in *. split; [lia|]. split; [apply Fb|]. split; [exact Sn|lia].
  - apply disjoint_cons. split; [|apply disjoint_cons; split; [|exact D]].
    + intros c [<-|I]; [unfold apart; cbn [fst snd]; lia|]. pose proof (K c (or_introl I)). unfold apart in *. cbn [fst snd] in *. lia.
    + intros c I. pose proof (K c (or_introl I)). unfold apart in *. cbn [fst snd] in *. lia.
  - intros c d [<-|[<-|I]] Fd; [| |apply (good_apart _ _ _ _ _ G); [right; exact I|exact Fd]]; pose proof (K d (or_intror Fd)); unfold apart in *; cbn [fst snd] in *; lia.
  - intros c [[<-|[<-|I]]|Fc]; [exists p|exists p|apply (good_within _ _ _ _ _ G); left; right; exact I|apply (good_within _ _ _ _ _ G); auto]; (split; [exact Ip|]); unfold within in *; cbn [fst snd] in *; lia.
Qed.
