(* ===== verification/PageSpace.v ===== *)
(** * Allocation in the old generation ([vm/heap/pages.{h,cc}])

    How [PageSpace] allocates data objects on regular pages: from the free list, from the bump
    region, or at the start of a fresh page, with the counters it keeps of the words in use and
    of the live bytes of each page.  The functions are given what [AllocatePage] returns, the
    first and the last address of the objects of a new page, or [None].  The growth policy is
    [kForceGrowth], the one of the callers that hold the lock.  Objects of [kAllocatablePageSize]
    bytes or more have pages of their own, which are not modelled. *)

From Stdlib Require Import ZArith Bool List Lia.
From S2P Require Import Prelude Utils Result FreeList.
Import ListNotations.
Import FreeListElement.
Open Scope Z_scope.

Definition kAllocatablePageSize : Z := 64 * 1024.
Definition IsAllocatableViaFreeLists (size : Z) : bool := size <? kAllocatablePageSize.

Module Page.
Definition kPageSize : Z := 2 * 1024 * 1024.
Definition kPageMask : Z := Z.lnot (kPageSize - 1).
Definition Of (addr : Z) : Z := addr .& u64 kPageMask.
End Page.

Module PageSpace.
Record t : Type := mk {
  freelist : FreeList.t;
  used_in_words : Z;
  live_bytes : Z -> Z }.

Definition with_freelist (s : t) fl : t := mk fl (used_in_words s) (live_bytes s).
Definition with_used (s : t) used : t := mk (freelist s) used (live_bytes s).
Definition add_live_bytes (s : t) (page value : Z) : t :=
  mk (freelist s) (used_in_words s) (fun p => if p =? page then live_bytes s p + value else live_bytes s p).

Section Allocation.
Context (AllocatePage : option (Z * Z)).

Definition TryAllocateInFreshPage (size : Z) (m : memory) (s : t) : result (Z * memory * t) :=
  require IsAllocatableViaFreeLists size;;
  match AllocatePage with
  | None => Done (0, m, s)
  | Some (object_start, object_end) =>
      let result := object_start in
      let s := add_live_bytes s (Page.Of result) size in
      let s := with_used s (used_in_words s + (size >> kWordSizeLog2)) in
      let free_start := u64 (result + size) in
      let free_size := s64 (object_end - free_start) in
      if free_size >? 0 then
        let* (m, fl) := FreeList.FreeLocked free_start free_size m (freelist s) in
        Done (result, m, with_freelist s fl)
      else Done (result, m, s)
  end.

(** For a [size] that goes on a regular page. *)
Definition TryAllocateInternal (size : Z) (m : memory) (s : t) : result (Z * memory * t) :=
  require size >=? kObjectAlignment;;
  require IsAligned size kObjectAlignment 0;;
  require IsAllocatableViaFreeLists size;;
  let* (result, m, fl) := FreeList.TryAllocateLocked size m (freelist s) in
  let s := with_freelist s fl in
  let* (result, m, s) :=
    if result =? 0 then TryAllocateInFreshPage size m s
    else
      let s := add_live_bytes s (Page.Of result) size in
      Done (result, m, with_used s (used_in_words s + (size >> kWordSizeLog2))) in
  require (result .& (kObjectAlignment - 1)) =? kOldObjectAlignmentOffset;;
  Done (result, m, s).

(** Take a new bump area, once the large block at [block] is found. *)
Definition SwitchBumpArea (remaining block : Z) (m : memory) (s : t) : result (Z * memory * t) :=
  let* block_size := HeapSize block m in
  let* (m, s) :=
    if remaining >? 0 then
      let s := with_used s (used_in_words s - (remaining >> kWordSizeLog2)) in
      let s := add_live_bytes s (Page.Of (FreeList.top_ (freelist s))) remaining in
      let* (m, fl) := FreeList.FreeLocked (FreeList.top_ (freelist s)) remaining m (freelist s) in
      Done (m, with_freelist s fl)
    else Done (m, s) in
  let s := with_freelist s (FreeList.set_top (freelist s) block) in
  let s := with_freelist s (FreeList.set_end (freelist s) (u64 (FreeList.top_ (freelist s) + block_size))) in
  let s := with_used s (used_in_words s + (block_size >> kWordSizeLog2)) in
  let s := add_live_bytes s (Page.Of block) block_size in
  Done (block_size, m, s).

Definition TakeFromBumpArea (size : Z) (m : memory) (s : t) : Z * memory * t :=
  let result := FreeList.top_ (freelist s) in
  let s := with_freelist s (FreeList.set_top (freelist s) (u64 (result + size))) in
  let m := if FreeList.top_ (freelist s) <? FreeList.end_ (freelist s) then write (FreeList.top_ (freelist s)) 0 m else m in
  (result, m, s).

Definition TryAllocateDataBumpLocked (size : Z) (m : memory) (s : t) : result (Z * memory * t) :=
  require size >=? kObjectAlignment;;
  require IsAligned size kObjectAlignment 0;;
  require IsAllocatableViaFreeLists size;;
  let remaining := s64 (FreeList.end_ (freelist s) - FreeList.top_ (freelist s)) in
  if remaining <? size then
    let* (block, m, fl) := FreeList.TryAllocateLargeLocked size m (freelist s) in
    let s := with_freelist s fl in
    if block =? 0 then TryAllocateInFreshPage size m s
    else
      let* (remaining, m, s) := SwitchBumpArea remaining block m s in
      require remaining >=? size;;
      Done (TakeFromBumpArea size m s)
  else
    require remaining >=? size;;
    Done (TakeFromBumpArea size m s).

Definition TryAllocatePromoLockedSlow (size : Z) (m : memory) (s : t) : result (Z * memory * t) :=
  let* (result, m, fl) := FreeList.TryAllocateSmallLocked size m (freelist s) in
  let s := with_freelist s fl in
  if negb (result =? 0) then
    let s := add_live_bytes s (Page.Of result) size in
    Done (result, m, with_freelist s (FreeList.AddUnaccountedSize (freelist s) size))
  else TryAllocateDataBumpLocked size m s.

Definition TryAllocatePromoLocked (size : Z) (m : memory) (s : t) : result (Z * memory * t) :=
  if IsAllocatableViaFreeLists size then
    match FreeList.TryAllocateBumpLocked size (freelist s) with
    | (Some result, fl) => Done (result, m, with_freelist s fl)
    | (None, fl) => TryAllocatePromoLockedSlow size m (with_freelist s fl)
    end
  else TryAllocatePromoLockedSlow size m s.

(** [OUT_OF_MEMORY] ends the process. *)
Definition AllocateSnapshotLockedSlow (size : Z) (m : memory) (s : t) : result (Z * memory * t) :=
  let* (result, m, s) := TryAllocateDataBumpLocked size m s in
  if negb (result =? 0) then Done (result, m, s) else AssertionFailure.

Definition AllocateSnapshotLocked (size : Z) (m : memory) (s : t) : result (Z * memory * t) :=
  if IsAllocatableViaFreeLists size then
    match FreeList.TryAllocateBumpLocked size (freelist s) with
    | (Some result, fl) => Done (result, m, with_freelist s fl)
    | (None, fl) => AllocateSnapshotLockedSlow size m (with_freelist s fl)
    end
  else AllocateSnapshotLockedSlow size m s.
End Allocation.

Definition ReleaseLock (m : memory) (s : t) : result (memory * t) :=
  let (unaccounted, fl) := FreeList.TakeUnaccountedSizeLocked (freelist s) in
  let s := with_freelist (with_used s (used_in_words s + (unaccounted >> kWordSizeLog2))) fl in
  let* (leftover, m, fl) := FreeList.ReleaseBumpAllocation m (freelist s) in
  Done (m, with_freelist (with_used s (used_in_words s - (leftover >> kWordSizeLog2))) fl).

(** For one free list. *)
Definition ReleaseBumpAllocation (m : memory) (s : t) : result (memory * t) :=
  let* (leftover, m, fl) := FreeList.ReleaseBumpAllocation m (freelist s) in
  Done (m, with_freelist (with_used s (used_in_words s - (leftover >> kWordSizeLog2))) fl).
End PageSpace.
