(* ===== verification/PageSpaceProofs.v ===== *)
(** * Correctness of allocation in the old generation

    A heap is its memory, its [PageSpace], the blocks in use, the garbage and the pages.  Its
    steps are the allocations of [PageSpace], the return of the bump region, a collection
    (objects die, the lists are reset, garbage is given back) and writes of the program.  In
    every reachable heap the blocks in use are disjoint and lie on the pages, no operation
    fails or changes the contents of a block in use, and the counter of the words in use is
    exact. *)

From Stdlib Require Import ZArith Bool List Lia ZifyBool Permutation.
From S2P Require Import Prelude Utils BitField Result Arrays BitSet FreeList FreeListProofs FreeListHeap PageSpace.
Import ListNotations.
Import FreeListElement FreeList PageSpace.
Open Scope Z_scope.

(** ** The bump region and the counters *)
Definition region (fl : FreeList.t) : list block := if top_ fl <? end_ fl then [(top_ fl, end_ fl - top_ fl)] else [].
Definition remaining (fl : FreeList.t) : Z := end_ fl - top_ fl.
Definition charge (s : t) : Z := 8 * used_in_words s + unaccounted_size_ (freelist s) - remaining (freelist s).

Record heap_ok (m : memory) (s : t) (owned pages : list block) : Prop := {
  ok_good : exists C, good m (freelist s) C (region (freelist s) ++ owned) pages;
  ok_area : 0 <= top_ (freelist s) <= end_ (freelist s) /\ end_ (freelist s) <= 2 ^ 63;
  ok_unaccounted : unaccounted_size_ (freelist s) mod 16 = 0 }.

Lemma words n : n mod 16 = 0 -> 8 * (n >> kWordSizeLog2) = n.
Proof. intros H. unfold kWordSizeLog2. rewrite Z.shiftr_div_pow2 by lia. change (2 ^ 3) with 8. pose proof (Z.div_mod n 16 ltac:(lia)). replace n with ((n / 16 * 2) * 8) at 1 by lia. rewrite Z.div_mul by lia. lia. Qed.
Lemma region_bump fl fl' : bump fl' = bump fl -> region fl' = region fl /\ top_ fl' = top_ fl /\ end_ fl' = end_ fl /\ unaccounted_size_ fl' = unaccounted_size_ fl.
Proof. unfold bump, region. intros [= -> -> ->]. auto. Qed.

(** The object area of the page a call may allocate. *)
Definition page_block (page : Z * Z) : block := (fst page, snd page - fst page).
Definition fresh (page : option (Z * Z)) (pages : list block) : Prop :=
  match page with
  | None => True
  | Some p => fits_heap (page_block p) /\ kAllocatablePageSize <= snd (page_block p) /\ forall q, In q pages -> apart (page_block p) q
  end.
Definition grown (page : option (Z * Z)) (pages : list block) : list block :=
  match page with None => pages | Some p => page_block p :: pages end.

(** What an allocation of [n] bytes may answer: 0, or the address of a new block. *)
Definition issue (r n : Z) (live : list block) : list block := if r =? 0 then live else (r, n) :: live.
Definition outcome (n : Z) (m : memory) (s : t) (owned pages : list block) : Z * memory * t -> Prop :=
  fun '(r, m', s') => heap_ok m' s' (issue r n owned) pages /\ charge s' = charge s + (if r =? 0 then 0 else n) /\
    forall c x, In c owned -> inside x c -> m' x = m x.

Lemma good_more m fl C owned pages page : good m fl C owned pages -> good m fl C owned (grown page pages).
Proof.
  intros G. split; try apply G. intros b Hb. destruct (good_within _ _ _ _ _ G b Hb) as (p & Ip & Wp). exists p. split; [|exact Wp]. destruct page; [right|]; exact Ip.
Qed.
Lemma ok_more m s owned pages page : heap_ok m s owned pages -> heap_ok m s owned (grown page pages).
Proof. intros [(C & G) A U]. split; [exists C; apply good_more, G|exact A|exact U]. Qed.

Lemma region_inside m s owned pages : heap_ok m s owned pages -> top_ (freelist s) < end_ (freelist s) -> fits_heap (top_ (freelist s), remaining (freelist s)).
Proof.
  intros [(C & G) A _] L. apply (good_fits _ _ _ _ _ G). unfold region. replace (top_ (freelist s) <? end_ (freelist s)) with true by lia. left. reflexivity.
Qed.
Lemma remaining_value m s owned pages : heap_ok m s owned pages -> s64 (end_ (freelist s) - top_ (freelist s)) = remaining (freelist s) /\ 0 <= remaining (freelist s) < 2 ^ 63 /\ remaining (freelist s) mod 16 = 0.
Proof.
  intros H. destruct (ok_area _ _ _ _ H) as [A B]. assert (K : 0 <= remaining (freelist s) < 2 ^ 63 /\ remaining (freelist s) mod 16 = 0).
  { destruct (Z.lt_ge_cases (top_ (freelist s)) (end_ (freelist s))) as [L|L]; [destruct (region_inside _ _ _ _ H L) as (_ & _ & ((S1 & S2) & S3) & _); cbn [snd] in *; lia|].
    unfold remaining. replace (end_ (freelist s) - top_ (freelist s)) with 0 by lia. split; [lia|reflexivity]. }
  split; [|exact K]. unfold remaining in *. apply sN_small; [lia|unfold is_sN; lia].
Qed.

(** *** Taking from the bump area *)
Lemma Take_ok m s owned pages n : heap_ok m s owned pages -> sized n -> n <= remaining (freelist s) -> forall s',
  freelist s' = with_bump (freelist s) (top_ (freelist s) + n) (end_ (freelist s)) -> 0 < top_ (freelist s) /\ heap_ok m s' ((top_ (freelist s), n) :: owned) pages.
Proof.
  intros H Sn L s' E. pose proof (proj1 (proj1 Sn)) as S0. destruct (ok_area _ _ _ _ H) as [A B]. unfold remaining in L. assert (Lt : top_ (freelist s) < end_ (freelist s)) by lia.
  pose proof (region_inside _ _ _ _ H Lt) as (P & _). split; [exact P|]. destruct (ok_good _ _ _ _ H) as (C & G). unfold region in G. replace (top_ (freelist s) <? end_ (freelist s)) with true in G by lia. cbn [app] in G.
  split; rewrite E; cbn [top_ end_ unaccounted_size_ with_bump]; [exists C|lia|apply H]. unfold region. cbn [top_ end_ with_bump]. destruct (Z.ltb_spec (top_ (freelist s) + n) (end_ (freelist s))) as [L'|L'].
  - apply (good_fields m (freelist s)); try reflexivity. cbn [app]. replace (end_ (freelist s) - (top_ (freelist s) + n)) with (end_ (freelist s) - top_ (freelist s) - n) by lia.
    apply (good_split _ _ _ _ _ _ n G Sn). cbn [snd]. lia.
  - apply (good_fields m (freelist s)); try reflexivity. cbn [app]. replace (end_ (freelist s) - top_ (freelist s)) with n in G by lia. exact G.
Qed.

(** *** A fresh page *)
Lemma Fresh_ok page m s owned pages n : heap_ok m s owned pages -> sized n -> n < kAllocatablePageSize -> fresh page pages ->
  returns (outcome n m s owned (grown page pages)) (TryAllocateInFreshPage page n m s).
Proof.
  intros H Sn L Fr. unfold TryAllocateInFreshPage. replace (IsAllocatableViaFreeLists n) with true by (unfold IsAllocatableViaFreeLists; lia).
  destruct page as [(a & e)|]; cbn [grown]; [|apply returns_done; split; [exact H|split; [cbn [Z.eqb]; lia|reflexivity]]].
  destruct Fr as (Fp & Le & Ap). unfold page_block in *. cbn [fst snd] in *. pose proof (fits_rest a (e - a) n Fp Sn ltac:(lia)) as Ff. destruct (ok_good _ _ _ _ H) as (C & G).
  destruct Fp as (P & Q & S & T). cbn [fst snd] in *. destruct Sn as ((S1 & S2) & S3). replace (u64 (a + n)) with (a + n) by (symmetry; apply uN_small; unfold is_uN, kAllocatablePageSize in *; lia).
  replace (s64 (e - (a + n))) with (e - a - n) by (rewrite sN_small; [lia|lia|unfold is_sN, sized in *; lia]). replace (e - a - n >? 0) with true by lia. cbn [freelist with_used add_live_bytes].
  pose proof (good_split _ _ _ _ _ (a, e - a) n (good_grow _ _ _ _ _ (a, e - a) G (conj P (conj Q (conj S T))) Ap) (conj (conj S1 S2) S3) ltac:(cbn [snd]; lia)) as Gs. cbn [fst snd] in Gs.
  destruct (good_freed _ _ _ _ _ _ Gs) as ((m' & fl') & E & (C' & G') & F & B). cbn [fst snd] in E. rewrite E. cbn [rbind]. apply returns_done.
  destruct (region_bump _ _ B) as (Er & Et & Ee & Eu). unfold outcome, issue. replace (a =? 0) with false by lia. split; [|split].
  - split; cbn [freelist with_freelist]; rewrite ?Er, ?Et, ?Ee, ?Eu; try apply H. exists C'. apply (good_perm _ _ _ ((a, n) :: region (freelist s) ++ owned)); [apply Permutation_middle|exact G'].
  - unfold charge, remaining. cbn [freelist used_in_words with_freelist with_used add_live_bytes]. rewrite Et, Ee, Eu. pose proof (words n S3). lia.
  - intros c x Ic Ix. apply F. intros Jx. pose proof (good_disjoint _ _ _ _ _ Gs) as D. apply disjoint_cons in D. apply (apart_inside _ c x (proj1 D c ltac:(right; apply in_app_iff; auto)) Jx Ix).
Qed.

(** *** The lists *)
Section Heap.
Context {m : memory} {s : t} {owned pages : list block} (H : heap_ok m s owned pages) (C : blocks) (G : good m (freelist s) C (region (freelist s) ++ owned) pages).

Lemma listed n r z m' fl' s' : sized n -> allocated (r, z) n m (freelist s) C m' fl' -> freelist s' = fl' ->
  0 < r /\ heap_ok m' s' ((r, n) :: owned) pages /\ remaining fl' = remaining (freelist s) /\ unaccounted_size_ fl' = unaccounted_size_ (freelist s) /\ forall c x, In c owned -> inside x c -> m' x = m x.
Proof.
  intros Sn Al E. destruct (good_allocated _ _ _ _ _ _ _ _ _ G Al Sn) as [(C' & G') F]. destruct Al as (_ & Fb & _ & _ & _ & _ & B). destruct (region_bump _ _ B) as (Er & Et & Ee & Eu).
  split; [apply (free_fits (good_wf _ _ _ _ _ G) _ Fb)|]. split; [|split; [unfold remaining; congruence|split; [exact Eu|intros c x Ic; apply F, in_app_iff; auto]]].
  split; rewrite E, ?Er, ?Et, ?Ee, ?Eu; try apply H. exists C'. apply (good_perm _ _ _ _ _ _ (Permutation_middle _ _ _)). exact G'.
Qed.
Lemma unlisted r m' fl' s' : same_blocks m (freelist s) C r m' fl' -> freelist s' = fl' ->
  r = 0 /\ m' = m /\ heap_ok m s' owned pages /\ remaining fl' = remaining (freelist s) /\ unaccounted_size_ fl' = unaccounted_size_ (freelist s).
Proof.
  intros Sb E. pose proof (good_same _ _ _ _ _ _ _ _ G Sb) as G'. destruct Sb as (-> & -> & W' & B). destruct (region_bump _ _ B) as (Er & Et & Ee & Eu).
  split; [reflexivity|]. split; [reflexivity|]. split; [|split; [unfold remaining; congruence|exact Eu]]. split; rewrite E, ?Er, ?Et, ?Ee, ?Eu; try apply H. exists C. exact G'.
Qed.
End Heap.

Lemma old_address r : r mod 16 = 0 -> (r .& (kObjectAlignment - 1) =? kOldObjectAlignmentOffset) = true.
Proof. intros E. change (kObjectAlignment - 1) with (Z.ones 4). rewrite Z.land_ones by lia. change (2 ^ 4) with 16. unfold kOldObjectAlignmentOffset. lia. Qed.
Lemma issued_aligned n m s owned pages r m' s' : outcome n m s owned pages (r, m', s') -> r mod 16 = 0.
Proof.
  intros (H & _). destruct (ok_good _ _ _ _ H) as (C & G). unfold issue in G. destruct (Z.eqb_spec r 0) as [->|]; [reflexivity|].
  apply (good_fits _ _ _ _ _ G (r, n)). apply in_app_iff. right. left. reflexivity.
Qed.

Section Operations.
Context {m : memory} {s : t} {owned pages : list block} (H : heap_ok m s owned pages) (page : option (Z * Z)) (Fr : fresh page pages)
  (n : Z) (Sn : sized n) (L : n < kAllocatablePageSize).

Lemma guards : (n >=? kObjectAlignment) = true /\ IsAligned n kObjectAlignment 0 = true /\ IsAllocatableViaFreeLists n = true.
Proof. rewrite aligned_mod. destruct Sn as ((S1 & S2) & S3). unfold IsAllocatableViaFreeLists. change kObjectAlignment with 16. lia. Qed.

Lemma Internal_ok : returns (outcome n m s owned (grown page pages)) (TryAllocateInternal page n m s).
Proof.
  unfold TryAllocateInternal. destruct guards as (-> & -> & ->). destruct (ok_good _ _ _ _ H) as (C & G).
  destruct (TryAllocateLocked_spec (good_wf _ _ _ _ _ G) n Sn) as (((r & m') & fl') & -> & R). cbn [rbind].
  assert (O : returns (outcome n m s owned (grown page pages)) (if r =? 0 then TryAllocateInFreshPage page n m' (with_freelist s fl') else
      let s := add_live_bytes (with_freelist s fl') (Page.Of r) n in Done (r, m', with_used s (used_in_words s + (n >> kWordSizeLog2))))).
  { destruct R as [[Sb _]|(z & Al & _)].
    - destruct (unlisted H C G r m' fl' (with_freelist s fl') Sb eq_refl) as (-> & -> & H' & Er & Eu). cbn [Z.eqb].
      refine (returns_weaken _ _ _ (Fresh_ok page m _ owned pages n H' Sn L Fr) _). intros ((r & m1) & s1) (O1 & O2 & O3). split; [exact O1|]. split; [|exact O3].
      rewrite O2. unfold charge. cbn [freelist used_in_words with_freelist]. lia.
    - destruct (listed H C G n r z m' fl' (with_freelist s fl') Sn Al eq_refl) as (P & H' & Er & Eu & F). replace (r =? 0) with false by lia. apply returns_done. unfold outcome, issue. replace (r =? 0) with false by lia.
      split; [|split; [|exact F]]; [apply ok_more; destruct H' as [A1 A2 A3]; split; assumption|]. unfold charge. cbn [freelist used_in_words with_freelist with_used add_live_bytes]. pose proof (words n (proj2 Sn)). lia. }
  cbv zeta in O |- *. destruct O as (((r1 & m1) & s1) & -> & O). cbn [rbind]. rewrite (old_address r1 (issued_aligned _ _ _ _ _ _ _ _ O)). apply returns_done, O.
Qed.

(** *** The bump area *)
Lemma HeapOk_write a v s0 owned0 pages0 m0 : heap_ok m0 s0 owned0 pages0 -> top_ (freelist s0) <= a < end_ (freelist s0) -> heap_ok (write a v m0) s0 owned0 pages0.
Proof.
  intros [(C & G) A U] R. split; [exists C|exact A|exact U]. apply (good_frame m0); [exact G|]. intros x Nx. apply write_other. intros ->.
  apply (Nx (top_ (freelist s0), end_ (freelist s0) - top_ (freelist s0))); [|unfold inside; cbn [fst snd]; lia]. unfold region. replace (top_ (freelist s0) <? end_ (freelist s0)) with true by lia. left. reflexivity.
Qed.
Lemma region_keeps m0 s0 owned0 pages0 a v : heap_ok m0 s0 owned0 pages0 -> top_ (freelist s0) <= a < end_ (freelist s0) -> forall c x, In c owned0 -> inside x c -> write a v m0 x = m0 x.
Proof.
  intros [(C & G) _ _] R c x Ic Ix. apply write_other. intros ->. pose proof (good_disjoint _ _ _ _ _ G) as D. unfold region in D. replace (top_ (freelist s0) <? end_ (freelist s0)) with true in D by lia. cbn [app] in D.
  apply disjoint_cons in D. apply (apart_inside _ c a (proj1 D c Ic)); [unfold inside; cbn [fst snd]; lia|exact Ix].
Qed.

Lemma TakeFrom_ok m0 s0 : heap_ok m0 s0 owned pages -> n <= remaining (freelist s0) -> outcome n m0 s0 owned pages (TakeFromBumpArea n m0 s0).
Proof.
  intros H0 Le. destruct (ok_area _ _ _ _ H0) as [A B]. pose proof (proj1 (proj1 Sn)) as S0. unfold TakeFromBumpArea. cbv zeta.
  replace (u64 (top_ (freelist s0) + n)) with (top_ (freelist s0) + n) by (symmetry; apply uN_small; unfold is_uN, remaining in *; lia).
  set (s' := with_freelist s0 (set_top (freelist s0) (top_ (freelist s0) + n))). destruct (Take_ok m0 s0 owned pages n H0 Sn Le s' eq_refl) as [P H']. unfold outcome, issue. replace (top_ (freelist s0) =? 0) with false by lia.
  split; [destruct (Z.ltb_spec (top_ (freelist s')) (end_ (freelist s'))); [apply HeapOk_write; [exact H'|lia]|exact H']|]. split.
  - unfold charge, remaining, s'. cbn [freelist used_in_words with_freelist set_top with_bump unaccounted_size_ top_ end_]. lia.
  - intros c x Ic Ix. destruct (Z.ltb_spec (top_ (freelist s')) (end_ (freelist s'))); [|reflexivity]. apply (region_keeps m0 s' ((top_ (freelist s0), n) :: owned) pages (top_ (freelist s')) 0 H' ltac:(lia) c x); [right; exact Ic|exact Ix].
Qed.

(** The old area given back, the new one in its place. *)
Lemma Switch_ok block z : 0 < block -> HeapSize block m = Done z -> heap_ok m s ((block, z) :: owned) pages ->
  returns (fun '(z', m', s') => z' = z /\ heap_ok m' s' owned pages /\ remaining (freelist s') = z /\ charge s' = charge s /\ forall c x, In c owned -> inside x c -> m' x = m x)
    (SwitchBumpArea (remaining (freelist s)) block m s).
Proof.
  intros Pb Hz Hb. unfold SwitchBumpArea. rewrite Hz. cbn [rbind]. destruct (remaining_value _ _ _ _ H) as (_ & R & Rm). pose proof (words _ Rm) as Rw. destruct (ok_good _ _ _ _ Hb) as (C & G).
  assert (Fz : fits_heap (block, z)) by (apply (good_fits _ _ _ _ _ G), in_app_iff; right; left; reflexivity).
  pose proof Fz as (_ & _ & (Sz & Zm) & Tz). cbn [fst snd] in *. pose proof (words z Zm) as Zw.
  assert (K : forall m1 s1 C1, good m1 (freelist s1) C1 ((block, z) :: owned) pages -> unaccounted_size_ (freelist s1) = unaccounted_size_ (freelist s) ->
      8 * used_in_words s1 = 8 * used_in_words s - remaining (freelist s) -> (forall c x, In c owned -> inside x c -> m1 x = m x) ->
      returns (fun '(z', m', s') => z' = z /\ heap_ok m' s' owned pages /\ remaining (freelist s') = z /\ charge s' = charge s /\ forall c x, In c owned -> inside x c -> m' x = m x)
        (let s := with_freelist s1 (set_top (freelist s1) block) in let s := with_freelist s (set_end (freelist s) (u64 (top_ (freelist s) + z))) in
         let s := with_used s (used_in_words s + (z >> kWordSizeLog2)) in Done (z, m1, add_live_bytes s (Page.Of block) z))).
  { intros m1 s1 C1 G1 E1 E2 F. cbv zeta. apply returns_done. split; [reflexivity|]. cbn [freelist used_in_words with_freelist with_used add_live_bytes set_top set_end with_bump top_ end_ unaccounted_size_].
    replace (u64 (block + z)) with (block + z) by (symmetry; apply uN_small; unfold is_uN; lia). split; [|split; [|split; [|exact F]]].
    - split; cbn [freelist with_freelist with_used add_live_bytes top_ end_ unaccounted_size_ with_bump set_top set_end]; [exists C1|lia|rewrite E1; apply H]. unfold region. cbn [top_ end_ with_bump set_top set_end]. replace (block <? block + z) with true by lia.
      replace (block + z - block) with z by lia. apply (good_fields m1 (freelist s1)); try reflexivity. exact G1.
    - unfold remaining. cbn [freelist with_used with_freelist add_live_bytes top_ end_ with_bump set_top set_end]. lia.
    - unfold charge, remaining. cbn [freelist used_in_words with_freelist with_used add_live_bytes top_ end_ unaccounted_size_ with_bump set_top set_end]. unfold remaining in *. lia. }
  destruct (Z.gtb_spec (remaining (freelist s)) 0) as [Gt|Gt].
  - cbn [freelist with_used add_live_bytes]. unfold region in G. unfold remaining in Gt. replace (top_ (freelist s) <? end_ (freelist s)) with true in G by lia. cbn [app] in G.
    destruct (good_freed _ _ _ _ _ _ G) as ((m1 & fl1) & E & (C1 & G1) & F & B). cbn [fst snd] in E. fold (remaining (freelist s)) in E. rewrite E. cbn [rbind]. destruct (region_bump _ _ B) as (_ & _ & _ & Eu).
    apply (K m1 _ C1); cbn [freelist used_in_words with_freelist with_used add_live_bytes]; [exact G1|exact Eu|lia|]. intros c x Ic Ix. apply F. intros Jx.
    pose proof (good_disjoint _ _ _ _ _ G) as D. apply disjoint_cons in D. apply (apart_inside _ c x (proj1 D c (or_intror Ic)) Jx Ix).
  - cbn [rbind]. apply (K m s C); try reflexivity; [|lia]. unfold region in G. unfold remaining in Gt. replace (top_ (freelist s) <? end_ (freelist s)) with false in G by lia. exact G.
Qed.
End Operations.

Lemma ok_perm m s owned owned' pages : Permutation owned owned' -> heap_ok m s owned pages -> heap_ok m s owned' pages.
Proof. intros P [(C & G) A U]. split; [exists C|exact A|exact U]. apply (good_perm _ _ _ _ _ _ (Permutation_app_head _ P)), G. Qed.
Lemma ok_drop m s b owned pages : heap_ok m s (b :: owned) pages -> heap_ok m s owned pages.
Proof. intros [(C & G) A U]. split; [exists C|exact A|exact U]. apply (good_drop _ _ _ b). apply (good_perm _ _ _ _ _ _ (Permutation_sym (Permutation_middle _ _ _))), G. Qed.
Lemma outcome_more n m s owned pages page o : outcome n m s owned pages o -> outcome n m s owned (grown page pages) o.
Proof. destruct o as ((r & m') & s'). intros (A & B). split; [apply ok_more, A|exact B]. Qed.
Lemma outcome_from n m s m1 s1 owned pages o : (forall c x, In c owned -> inside x c -> m1 x = m x) -> charge s1 = charge s -> outcome n m1 s1 owned pages o -> outcome n m s owned pages o.
Proof.
  destruct o as ((r & m') & s'). intros F E (A & B & D). split; [exact A|]. split; [rewrite B, E; reflexivity|]. intros c x Ic Ix. rewrite (D c x Ic Ix). apply (F c); assumption.
Qed.

Section Allocations.
Context (page : option (Z * Z)) (n : Z) (Sn : sized n) (L : n < kAllocatablePageSize).

Lemma DataBump_ok m s owned pages : heap_ok m s owned pages -> fresh page pages -> returns (outcome n m s owned (grown page pages)) (TryAllocateDataBumpLocked page n m s).
Proof.
  intros H Fr. unfold TryAllocateDataBumpLocked. destruct (guards n Sn L) as (-> & -> & ->). destruct (remaining_value _ _ _ _ H) as (-> & R & _). destruct (Z.ltb_spec (remaining (freelist s)) n) as [Lt|Ge].
  - destruct (ok_good _ _ _ _ H) as (C & G). destruct (TryAllocateLargeLocked_spec (good_wf _ _ _ _ _ G) n Sn) as (((r & m') & fl') & -> & [[Sb _]|(z & Lz & _ & Al & Hz)]); cbn [rbind].
    + destruct (unlisted H C G r m' fl' (with_freelist s fl') Sb eq_refl) as (-> & -> & H' & Er & Eu). cbn [Z.eqb]. refine (returns_weaken _ _ _ (Fresh_ok page m _ owned pages n H' Sn L Fr) _).
      intros o. apply outcome_from; [reflexivity|]. unfold charge. cbn [freelist used_in_words with_freelist]. lia.
    + assert (Sz : sized z) by (destruct Al as (C' & Fb & _); apply (free_fits (good_wf _ _ _ _ _ G) _ Fb)).
      destruct (listed H C G z r z m' fl' (with_freelist s fl') Sz Al eq_refl) as (P & H' & Er & Eu & F). replace (r =? 0) with false by lia. rewrite <- Er. change fl' with (freelist (with_freelist s fl')) at 1.
      destruct (Switch_ok (ok_drop _ _ _ _ _ H') r z P Hz H') as (((z' & m2) & s2) & -> & -> & H2 & Rm & Ch & F2). cbn [rbind]. replace (z >=? n) with true by lia. apply returns_done, outcome_more.
      apply (outcome_from n m s m2 s2); [intros c x Ic Ix; rewrite (F2 c x Ic Ix); apply (F c); assumption| |apply TakeFrom_ok; [exact Sn|exact H2|lia]].
      rewrite Ch. unfold charge. cbn [freelist used_in_words with_freelist]. lia.
  - replace (remaining (freelist s) >=? n) with true by lia. apply returns_done, outcome_more, TakeFrom_ok; assumption.
Qed.

Lemma PromoSlow_ok m s owned pages : heap_ok m s owned pages -> fresh page pages -> returns (outcome n m s owned (grown page pages)) (TryAllocatePromoLockedSlow page n m s).
Proof.
  intros H Fr. unfold TryAllocatePromoLockedSlow. destruct (ok_good _ _ _ _ H) as (C & G).
  destruct (TryAllocateSmallLocked_spec (good_wf _ _ _ _ _ G) n Sn) as (((r & m') & fl') & -> & [[Sb _]|(z & Al & _)]); cbn [rbind].
  - destruct (unlisted H C G r m' fl' (with_freelist s fl') Sb eq_refl) as (-> & -> & H' & Er & Eu). cbn [Z.eqb negb]. refine (returns_weaken _ _ _ (DataBump_ok m _ owned pages H' Fr) _).
    intros o. apply outcome_from; [reflexivity|]. unfold charge. cbn [freelist used_in_words with_freelist]. lia.
  - destruct (listed H C G n r z m' fl' (with_freelist s fl') Sn Al eq_refl) as (P & H' & Er & Eu & F). unfold outcome, issue. replace (r =? 0) with false by lia. cbn [negb]. apply returns_done. replace (r =? 0) with false by lia.
    split; [|split; [|exact F]].
    + apply ok_more. destruct H' as [(C' & G') A U]. split; [exists C'|exact A|]; cbn [freelist with_freelist add_live_bytes AddUnaccountedSize unaccounted_size_] in *; [apply (good_fields m' fl'); try reflexivity; exact G'|].
      rewrite Z.add_mod, U, (proj2 Sn) by lia. reflexivity.
    + unfold charge, remaining in *. cbn [freelist used_in_words with_freelist add_live_bytes AddUnaccountedSize unaccounted_size_ top_ end_] in *. lia.
Qed.

Lemma Bump_ok m s owned pages : heap_ok m s owned pages ->
  match TryAllocateBumpLocked n (freelist s) with
  | (Some r, fl') => outcome n m s owned pages (r, m, with_freelist s fl')
  | (None, fl') => with_freelist s fl' = s
  end.
Proof.
  intros H. destruct (ok_area _ _ _ _ H) as [A B]. unfold TryAllocateBumpLocked. pose proof (proj1 (proj1 Sn)) as S0.
  replace (u64 (top_ (freelist s) + n)) with (top_ (freelist s) + n) by (symmetry; apply uN_small; unfold is_uN, kAllocatablePageSize in *; lia). destruct (Z.leb_spec (top_ (freelist s) + n) (end_ (freelist s))) as [Le|Gt]; [|destruct s; reflexivity].
  set (s' := with_freelist s _). destruct (Take_ok m s owned pages n H Sn ltac:(unfold remaining; lia) s' eq_refl) as [P H']. unfold outcome, issue. replace (top_ (freelist s) =? 0) with false by lia.
  split; [exact H'|]. split; [|reflexivity]. unfold charge, remaining, s'. cbn [freelist used_in_words with_freelist with_bump unaccounted_size_ top_ end_]. lia.
Qed.

Lemma Promo_ok m s owned pages : heap_ok m s owned pages -> fresh page pages -> returns (outcome n m s owned (grown page pages)) (TryAllocatePromoLocked page n m s).
Proof.
  intros H Fr. unfold TryAllocatePromoLocked. destruct (guards n Sn L) as (_ & _ & ->). pose proof (Bump_ok m s owned pages H) as B.
  destruct (TryAllocateBumpLocked n (freelist s)) as [[r|] fl']; [apply returns_done, outcome_more, B|]. rewrite B. apply PromoSlow_ok; assumption.
Qed.

(** The allocation for a snapshot ends the process where there is no page left. *)
Lemma Snapshot_ok m s owned pages : heap_ok m s owned pages -> fresh page pages ->
  ensures (fun '(r, m', s') => r <> 0 /\ outcome n m s owned (grown page pages) (r, m', s')) (AllocateSnapshotLocked page n m s).
Proof.
  intros H Fr. unfold AllocateSnapshotLocked, AllocateSnapshotLockedSlow. destruct (guards n Sn L) as (_ & _ & ->). pose proof (Bump_ok m s owned pages H) as B.
  destruct (TryAllocateBumpLocked n (freelist s)) as [[r|] fl'] eqn:E.
  - cbn [ensures]. split; [|apply outcome_more, B]. unfold TryAllocateBumpLocked in E. destruct (_ <=? _) eqn:Q; [|discriminate]. injection E as <- _. intros Z0.
    destruct B as (H' & _). destruct (ok_good _ _ _ _ H') as (C & G). destruct (ok_area _ _ _ _ H) as [A1 A2]. pose proof (proj1 (proj1 Sn)). rewrite Z0 in Q.
    rewrite uN_small in Q by (unfold is_uN, kAllocatablePageSize in *; lia). destruct (region_inside _ _ _ _ H ltac:(lia)) as (P & _). cbn [fst] in P. lia.
  - rewrite B. destruct (DataBump_ok m s owned pages H Fr) as (((r & m') & s') & -> & O). cbn [rbind]. destruct (Z.eqb_spec r 0); cbn [negb ensures]; auto.
Qed.
End Allocations.

(** *** Giving the bump area back *)
Lemma ReleaseBump_ok m s owned pages : heap_ok m s owned pages ->
  returns (fun '(leftover, m', fl') => leftover = remaining (freelist s) /\ remaining fl' = 0 /\ unaccounted_size_ fl' = unaccounted_size_ (freelist s) /\
      (forall s', freelist s' = fl' -> heap_ok m' s' owned pages) /\ forall c x, In c owned -> inside x c -> m' x = m x) (FreeList.ReleaseBumpAllocation m (freelist s)).
Proof.
  intros H. unfold FreeList.ReleaseBumpAllocation. destruct (remaining_value _ _ _ _ H) as (-> & R & _). destruct (ok_good _ _ _ _ H) as (C & G). destruct (ok_area _ _ _ _ H) as [A1 A2].
  destruct (Z.eqb_spec (remaining (freelist s)) 0) as [E|E]; cbn [negb].
  - apply returns_done. split; [reflexivity|]. split; [exact E|]. split; [reflexivity|]. split; [|reflexivity]. intros s' Es. split; rewrite Es; try apply H. 
  - unfold region in G. replace (top_ (freelist s) <? end_ (freelist s)) with true in G by (unfold remaining in *; lia). cbn [app] in G.
    destruct (good_freed _ _ _ _ _ _ G) as ((m1 & fl1) & Q & (C1 & G1) & F & B). cbn [fst snd] in Q. fold (remaining (freelist s)) in Q. rewrite Q. cbn [rbind]. destruct (region_bump _ _ B) as (_ & _ & _ & Eu).
    apply returns_done. split; [reflexivity|]. split; [reflexivity|]. split; [exact Eu|]. split.
    + intros s' Es. split; rewrite Es; cbn [top_ end_ unaccounted_size_ with_bump]; [|lia|rewrite Eu; apply H]. exists C1. apply (good_fields m1 fl1); try reflexivity. exact G1.
    + intros c x Ic Ix. apply F. intros Jx. pose proof (good_disjoint _ _ _ _ _ G) as D. apply disjoint_cons in D. apply (apart_inside _ c x (proj1 D c Ic) Jx Ix).
Qed.
Lemma ReleaseLock_ok m s owned pages : heap_ok m s owned pages ->
  returns (fun '(m', s') => heap_ok m' s' owned pages /\ charge s' = charge s /\ remaining (freelist s') = 0 /\ unaccounted_size_ (freelist s') = 0 /\
    forall c x, In c owned -> inside x c -> m' x = m x) (ReleaseLock m s).
Proof.
  intros H. unfold ReleaseLock. cbn [TakeUnaccountedSizeLocked]. set (s1 := with_freelist _ _). assert (H1 : heap_ok m s1 owned pages).
  { destruct H as [(C & G) A U]. split; [exists C|exact A|reflexivity]. apply (good_fields m (freelist s)); try reflexivity. exact G. }
  destruct (ReleaseBump_ok m s1 owned pages H1) as (((lo & m') & fl') & -> & -> & R & Eu & K & F). cbn [rbind]. apply returns_done. split; [apply K; reflexivity|]. split; [|split; [exact R|split; [exact Eu|exact F]]].
  unfold charge. cbn [freelist used_in_words with_freelist with_used]. rewrite R, Eu. destruct (remaining_value _ _ _ _ H1) as (_ & _ & Rm). pose proof (words _ Rm) as Rw. pose proof (words _ (ok_unaccounted _ _ _ _ H)) as Uw.
  unfold s1 in *. cbn [freelist used_in_words with_freelist with_used unaccounted_size_] in *. unfold remaining in *. cbn [top_ end_] in *. lia.
Qed.
Lemma MakeIterable_ok m s owned pages : heap_ok m s owned pages ->
  returns (fun m' => heap_ok m' s owned pages /\ forall c x, In c owned -> inside x c -> m' x = m x) (FreeList.MakeIterable m (freelist s)).
Proof.
  intros H. unfold FreeList.MakeIterable. destruct (Z.ltb_spec (top_ (freelist s)) (end_ (freelist s))) as [L|L]; [|apply returns_done; split; [exact H|reflexivity]].
  destruct (remaining_value _ _ _ _ H) as (-> & _). pose proof (region_inside _ _ _ _ H L) as Fr. destruct (AsElement_spec _ _ m Fr) as (m' & -> & _ & _ & F). apply returns_done.
  destruct (ok_good _ _ _ _ H) as (C & G). assert (E : region (freelist s) = [(top_ (freelist s), remaining (freelist s))]) by (unfold region, remaining; replace (top_ (freelist s) <? end_ (freelist s)) with true by lia; reflexivity).
  split; [split; try apply H; exists C; apply (good_frame m); [exact G|]|].
  - intros x Nx. apply F. apply Nx. rewrite E. left. reflexivity.
  - intros c x Ic Ix. apply F. intros Jx. pose proof (good_disjoint _ _ _ _ _ G) as D. rewrite E in D. cbn [app] in D. apply disjoint_cons in D. apply (apart_inside _ c x (proj1 D c Ic) Jx Ix).
Qed.

(** ** The heap *)
Record heap : Type := mk_heap { mem : memory; space : t; live : list block; garbage : list block; pages : list block; issued : Z }.
Definition initial (m : memory) : heap := mk_heap m (mk FreeList.FreeList 0 (fun _ => 0)) [] [] [] 0.
Definition allocation (h : heap) (page : option (Z * Z)) (n : Z) (o : Z * memory * t) : heap :=
  let '(r, m, s) := o in mk_heap m s (issue r n (live h)) (garbage h) (grown page (pages h)) (issued h + if r =? 0 then 0 else n).

(** The calls of the old generation, for a scavenger that promotes objects, a program that
    allocates, and a collector. *)
Inductive heap_step (h : heap) : heap -> Prop :=
| step_promote page n o : sized n -> n < kAllocatablePageSize -> fresh page (pages h) ->
    TryAllocatePromoLocked page n (mem h) (space h) = Done o -> heap_step h (allocation h page n o)
| step_allocate page n o : sized n -> n < kAllocatablePageSize -> fresh page (pages h) ->
    TryAllocateInternal page n (mem h) (space h) = Done o -> heap_step h (allocation h page n o)
| step_snapshot page n o : sized n -> n < kAllocatablePageSize -> fresh page (pages h) ->
    AllocateSnapshotLocked page n (mem h) (space h) = Done o -> heap_step h (allocation h page n o)
| step_release m s : ReleaseLock (mem h) (space h) = Done (m, s) -> heap_step h (mk_heap m s (live h) (garbage h) (pages h) (issued h))
| step_iterable m : FreeList.MakeIterable (mem h) (freelist (space h)) = Done m -> heap_step h (mk_heap m (space h) (live h) (garbage h) (pages h) (issued h))
| step_die b rest : Permutation (live h) (b :: rest) -> heap_step h (mk_heap (mem h) (space h) rest (b :: garbage h) (pages h) (issued h))
| step_reset garbage' : (forall b, In b garbage' -> fits_heap b) -> disjoint_blocks (region (freelist (space h)) ++ live h ++ garbage') ->
    (forall b, In b garbage' -> exists p, In p (pages h) /\ within b p) ->
    heap_step h (mk_heap (mem h) (with_freelist (space h) (FreeList.Reset (freelist (space h)))) (live h) garbage' (pages h) (issued h))
| step_free b rest m fl : Permutation (garbage h) (b :: rest) -> FreeLocked (fst b) (snd b) (mem h) (freelist (space h)) = Done (m, fl) ->
    heap_step h (mk_heap m (with_freelist (space h) fl) (live h) rest (pages h) (issued h)).

Inductive reachable : heap -> Prop :=
| reachable_initial m : reachable (initial m)
| reachable_step h h' : reachable h -> heap_step h h' -> reachable h'
| reachable_write h m : reachable h -> (forall x, (forall b, In b (live h) -> ~ inside x b) -> m x = mem h x) ->
    reachable (mk_heap m (space h) (live h) (garbage h) (pages h) (issued h)).

Record ok (h : heap) : Prop := {
  ok_heap : heap_ok (mem h) (space h) (live h ++ garbage h) (pages h);
  ok_issued : charge (space h) = issued h }.
Definition keeps (h h' : heap) : Prop := forall b x, In b (live h) -> inside x b -> mem h' x = mem h x.

Lemma initial_ok m : ok (initial m).
Proof.
  split; [|reflexivity]. split; [|cbn; lia|reflexivity]. exists (fun _ => []). assert (W : wf m (Reset (FreeList.mk 0 0 0 [] [] kInitialFreeListSearchBudget 0)) (fun _ => [])) by (apply Reset_wf; cbn; unfold kInitialFreeListSearchBudget; lia).
  split; [exact W|intros b []|constructor|intros b c []|intros b [[]|(i & _ & [])]].
Qed.
Lemma allocation_ok h page n o : ok h -> outcome n (mem h) (space h) (live h ++ garbage h) (grown page (pages h)) o -> ok (allocation h page n o) /\ keeps h (allocation h page n o).
Proof.
  destruct o as ((r & m') & s'). intros [H E] (H' & Ch & F). cbn [allocation]. split; [split; cbn [mem space live garbage pages issued]|].
  - unfold issue in *. destruct (r =? 0); exact H'.
  - lia.
  - intros b x Ib. apply F, in_app_iff. auto.
Qed.

Lemma done_returns {A} (P : A -> Prop) x a : returns P x -> x = Done a -> P a.
Proof. intros (b & -> & Hb) [= <-]. exact Hb. Qed.
Lemma owned_fits h b : ok h -> In b (live h ++ garbage h) -> fits_heap b /\ exists p, In p (pages h) /\ within b p.
Proof.
  intros [H _] I. destruct (ok_good _ _ _ _ H) as (C & G). assert (J : In b (region (freelist (space h)) ++ live h ++ garbage h)) by (apply in_app_iff; auto).
  split; [apply (good_fits _ _ _ _ _ G), J|apply (good_within _ _ _ _ _ G); auto].
Qed.

Lemma free_garbage h b rest : ok h -> Permutation (garbage h) (b :: rest) ->
  returns (fun '(m, fl) => let h' := mk_heap m (with_freelist (space h) fl) (live h) rest (pages h) (issued h) in ok h' /\ keeps h h') (FreeLocked (fst b) (snd b) (mem h) (freelist (space h))).
Proof.
  intros [H E] P. destruct (ok_good _ _ _ _ H) as (C & G).
  assert (P' : Permutation (region (freelist (space h)) ++ live h ++ garbage h) (b :: region (freelist (space h)) ++ live h ++ rest)).
  { rewrite P. rewrite <- !Permutation_middle. reflexivity. }
  pose proof (good_perm _ _ _ _ _ _ P' G) as G1. refine (returns_weaken _ _ _ (good_freed _ _ _ _ _ _ G1) _). intros (m & fl) ((C' & G') & F & B). destruct (region_bump _ _ B) as (Er & Et & Ee & Eu).
  split; [split; cbn [mem space live garbage pages issued]|].
  - split; cbn [freelist with_freelist]; rewrite ?Er, ?Et, ?Ee, ?Eu; try apply H. exists C'. exact G'.
  - unfold charge, remaining in *. cbn [freelist used_in_words with_freelist]. rewrite Et, Ee, Eu. exact E.
  - intros c x Ic Ix. apply F. intros Jx. pose proof (good_disjoint _ _ _ _ _ G1) as D. apply disjoint_cons in D. apply (apart_inside _ c x (proj1 D c ltac:(rewrite !in_app_iff; auto)) Jx Ix).
Qed.

Lemma reset_ok h garbage' : ok h -> (forall b, In b garbage' -> fits_heap b) -> disjoint_blocks (region (freelist (space h)) ++ live h ++ garbage') ->
  (forall b, In b garbage' -> exists p, In p (pages h) /\ within b p) ->
  ok (mk_heap (mem h) (with_freelist (space h) (FreeList.Reset (freelist (space h)))) (live h) garbage' (pages h) (issued h)).
Proof.
  intros O Fg D Wi. pose proof O as [H E]. split; [|exact E]. cbn [mem space live garbage pages]. destruct (ok_good _ _ _ _ H) as (C & G). split; try apply H. exists (fun _ => []).
  apply (good_reset (mem h) _ C (region (freelist (space h)) ++ live h ++ garbage h)); try assumption; intros b I; rewrite !in_app_iff in I; destruct I as [I|[I|I]]; auto;
    try solve [apply (owned_fits h b O); apply in_app_iff; auto]; [apply (good_fits _ _ _ _ _ G)|apply (good_within _ _ _ _ _ G); left]; apply in_app_iff; auto.
Qed.

Lemma step_ok h h' : ok h -> heap_step h h' -> ok h' /\ keeps h h'.
Proof.
  intros O St. pose proof O as [H E]. destruct St as [page n o Sn L Fr Q|page n o Sn L Fr Q|page n o Sn L Fr Q|m s Q|m Q|b rest P|g Fg D Wi|b rest m fl P Q].
  - apply allocation_ok; [exact O|]. exact (done_returns _ _ _ (Promo_ok page n Sn L _ _ _ _ H Fr) Q).
  - apply allocation_ok; [exact O|]. exact (done_returns _ _ _ (Internal_ok H page Fr n Sn L) Q).
  - apply allocation_ok; [exact O|]. pose proof (Snapshot_ok page n Sn L _ _ _ _ H Fr) as S. rewrite Q in S. cbn [ensures] in S. destruct o as ((r & m) & s). apply S.
  - destruct (done_returns _ _ _ (ReleaseLock_ok _ _ _ _ H) Q) as (H' & Ch & _ & _ & F). split; [split; cbn [mem space live garbage pages issued]; [exact H'|lia]|]. intros b x I. apply F, in_app_iff. auto.
  - destruct (done_returns _ _ _ (MakeIterable_ok _ _ _ _ H) Q) as (H' & F). split; [split; [exact H'|exact E]|]. intros b x I. apply F, in_app_iff. auto.
  - split; [split; [|exact E]|intros c x _ _; reflexivity]. cbn [mem space live garbage pages]. apply (ok_perm _ _ (live h ++ garbage h)); [|exact H]. rewrite P. cbn [app]. apply Permutation_middle.
  - split; [apply reset_ok; assumption|]. intros c x _ _. reflexivity.
  - exact (done_returns _ _ _ (free_garbage h b rest O P) Q).
Qed.

Lemma reachable_ok h : reachable h -> ok h.
Proof.
  induction 1 as [m|h h' _ IH St|h m _ IH F]; [apply initial_ok|exact (proj1 (step_ok h h' IH St))|]. destruct IH as [H E]. split; [|exact E]. cbn [mem space live garbage pages].
  destruct H as [(C & G) A U]. split; [exists C|exact A|exact U]. apply (good_frame (mem h)); [exact G|]. intros x Nx. apply F. intros b I. apply Nx. rewrite !in_app_iff. auto.
Qed.


Definition promoted (page : option (Z * Z)) (n : Z) (h : heap) : heap :=
  match TryAllocatePromoLocked page n (mem h) (space h) with Done o => allocation h page n o | _ => h end.
Lemma reachable_promoted page n h : reachable h -> sized n -> n < kAllocatablePageSize -> fresh page (pages h) -> reachable (promoted page n h).
Proof.
  intros R Sn L Fr. destruct (Promo_ok page n Sn L _ _ _ _ (ok_heap _ (reachable_ok h R)) Fr) as (o & E & _). unfold promoted. rewrite E. apply (reachable_step h); [exact R|]. apply step_promote; assumption.
Qed.

(** Two objects are promoted, the first to a fresh page and the second to the bump area made of its rest. *)
Definition first_page : Z * Z := (2098176, 4194304).
Definition two_objects : heap := promoted None 32 (promoted (Some first_page) 48 (initial (fun _ => 0))).

(** ** Live bytes
    The first page's bump area is filled but for 64960 bytes, a second page is added, and the
    next promotion switches to it. *)
Definition second_page : Z * Z := (4195328, 6291456).
Definition switched : heap :=
  promoted None 65520 (promoted (Some second_page) 65520 (Nat.iter 31 (promoted None 65520) (promoted (Some first_page) 48 (initial (fun _ => 0))))).
Definition used_on (h : heap) (page : Z) : Z := fold_right Z.add 0 (map snd (filter (fun b => Page.Of (fst b) =? page) (live h))).

