(* ===== verification/Sweeper.v ===== *)
(** * Sweeping a page ([vm/heap/sweeper.cc])

    [GCSweeper::SweepPage] for a page of data objects: it walks the objects of the page, clears
    the mark of those that are marked and gives every run of unmarked ones to the free list as
    one block.  The size of an object that does not fit its tag comes from its class, by
    [HeapSizeFromClass], an argument here.  The flag [dontneed_on_sweep] is off. *)

From Stdlib Require Import ZArith Bool List Lia.
From S2P Require Import Prelude Utils BitField Result FreeList PageSpace.
Import ListNotations.
Import UntaggedObject.
Open Scope Z_scope.

Section Sweeper.
(** Of the address, the tags and the heap. *)
Context (HeapSizeFromClass : Z -> Z -> memory -> Z).

Definition IsMarked (tags : Z) : bool := BitField.decode NotMarkedBit tags =? 0.
Definition ClearMarkBit (obj : Z) (m : memory) : result memory :=
  require IsMarked (m obj);;
  let* tags := checked (BitField.update NotMarkedBit 1 (m obj)) in
  Done (write obj tags m).

Definition HeapSize (obj tags : Z) (m : memory) : result Z :=
  let size := SizeTag_decode tags in
  if negb (size =? 0) then Done size
  else
    let size := HeapSizeFromClass obj tags m in
    require size >? kMaxSizeTag;; Done size.

Definition kZapWord : Z := 0xf3f3f3f3f3f3f3f3.
(** [memset] with [Heap::kZapByte]. *)
Definition Zap (addr size : Z) (m : memory) : memory := fun a => if (addr <=? a) && (a <? addr + size) then kZapWord else m a.

Record Page : Type := mkPage { page_address : Z; object_start : Z; object_end : Z }.

(** [while (free_end < end)]: expand the free block. *)
Fixpoint Expand_loop (fuel : nat) (free_end limit : Z) (m : memory) : result Z :=
  if free_end <? limit then
    match fuel with
    | O => OutOfFuel
    | S fuel =>
        let tags := m free_end in
        if IsMarked tags then Done free_end
        else
          let* size := HeapSize free_end tags m in
          Expand_loop fuel (u64 (free_end + size)) limit m
    end
  else Done free_end.

(** Whether the page is in use, its live bytes, the heap and the free list. *)
Definition swept : Type := bool * Z * memory * FreeList.t.

(** [while (current < end)]. *)
Fixpoint Sweep_loop (fuel : nat) (page : Page) (current used_in_bytes : Z) (m : memory) (freelist : FreeList.t) : result swept :=
  if current <? object_end page then
    match fuel with
    | O => OutOfFuel
    | S fuel' =>
        require PageSpace.Page.Of current =? page_address page;;
        let tags := m current in
        let* obj_size := HeapSize current tags m in
        if IsMarked tags then
          let* m := ClearMarkBit current m in
          require IsAllocatableViaFreeLists obj_size;;
          Sweep_loop fuel' page (u64 (current + obj_size)) (used_in_bytes + obj_size) m freelist
        else
          let* free_end := Expand_loop fuel (u64 (current + obj_size)) (object_end page) m in
          if (current =? object_start page) && (free_end =? object_end page) then Done (false, 0, m, freelist)
          else
            let obj_size := s64 (free_end - current) in
            let m := Zap current obj_size m in
            let* (m, freelist) := FreeList.FreeLocked current obj_size m freelist in
            Sweep_loop fuel' page (u64 (current + obj_size)) used_in_bytes m freelist
    end
  else
    require current =? object_end page;;
    require negb (used_in_bytes =? 0);;
    Done (true, used_in_bytes, m, freelist).

(** Every object has at least [kObjectAlignment] bytes. *)
Definition SweepPage (page : Page) (m : memory) (freelist : FreeList.t) : result swept :=
  Sweep_loop (Z.to_nat ((object_end page - object_start page) / kObjectAlignment)) page (object_start page) 0 m freelist.
End Sweeper.
