(* ===== verification/SweeperProofs.v ===== *)
(** * Correctness of sweeping

    A page is a sequence of objects, each with its size and whether it is marked.  Sweeping
    gives exactly the maximal runs of unmarked objects to the free list. *)

From Stdlib Require Import ZArith Bool List Lia ZifyBool.
From S2P Require Import Prelude Utils BitField Result Arrays BitSet FreeList FreeListProofs PageSpace Sweeper.
Import ListNotations.
Import UntaggedObject FreeListElement.
Open Scope Z_scope.

(** ** Sequences of objects *)
Definition object : Type := Z * bool.
Definition total (objs : list object) : Z := fold_right (fun o n => fst o + n) 0 objs.
Definition marked_bytes (objs : list object) : Z := fold_right (fun o n => (if snd o : bool then fst o else 0) + n) 0 objs.

(** The maximal runs of unmarked objects. *)
Definition join (a s : Z) (l : list block) : list block :=
  match l with
  | (b, t) :: l' => if b =? a + s then (a, s + t) :: l' else (a, s) :: l
  | [] => [(a, s)]
  end.
Fixpoint runs (a : Z) (objs : list object) : list block :=
  match objs with
  | [] => []
  | (s, true) :: objs => runs (a + s) objs
  | (s, false) :: objs => join a s (runs (a + s) objs)
  end.

Lemma total_cons o l : total (o :: l) = fst o + total l.
Proof. reflexivity. Qed.
Lemma total_sum l l' : total (l ++ l') = total l + total l'.
Proof. induction l as [|o l IH]; cbn [app]; [reflexivity|]. rewrite !total_cons, IH. lia. Qed.
Lemma runs_above objs : forall a, (forall o, In o objs -> 0 < fst o) -> forall b, In b (runs a objs) -> a <= fst b.
Proof.
  induction objs as [|(s, k) objs IH]; intros a P b; cbn [runs]; [intros []|]. assert (P' : forall o, In o objs -> 0 < fst o) by (intros; apply P; right; assumption). pose proof (P (s, k) (or_introl eq_refl)) as Ps. cbn [fst] in Ps.
  pose proof (IH (a + s) P') as K. destruct k; [intros I; specialize (K b I); lia|]. unfold join. destruct (runs (a + s) objs) as [|(c, t) l]; [intros [<-|[]]; cbn [fst]; lia|].
  destruct (c =? a + s); intros [<-|I]; cbn [fst]; try lia; [specialize (K b (or_intror I)); lia|specialize (K b I); lia].
Qed.

(** Blocks in order, with something between any two. *)
Fixpoint spaced (lo : Z) (l : list block) : Prop :=
  match l with
  | [] => True
  | (b, t) :: l => lo <= b /\ 0 < t /\ spaced (b + t + 1) l
  end.
Lemma spaced_weaken lo lo' l : lo' <= lo -> spaced lo l -> spaced lo' l.
Proof. destruct l as [|(b, t) l]; cbn [spaced]; [auto|]. intros L (A & B & D). split; [lia|auto]. Qed.
Lemma runs_spaced objs : forall a, (forall o, In o objs -> 0 < fst o) -> spaced a (runs a objs).
Proof.
  induction objs as [|(s, k) objs IH]; intros a P; cbn [runs]; [exact I|]. pose proof (P (s, k) (or_introl eq_refl)) as Ps. cbn [fst] in Ps. specialize (IH (a + s) (fun o I => P o (or_intror I))).
  destruct k; [apply (spaced_weaken (a + s)); [lia|exact IH]|]. unfold join. destruct (runs (a + s) objs) as [|(b, t) l]; cbn [spaced] in *; [repeat split; lia|]. destruct IH as (A & B & D).
  destruct (Z.eqb_spec b (a + s)) as [->|N]; cbn [spaced]; (split; [lia|]; split; [lia|]); [replace (a + (s + t) + 1) with (a + s + t + 1) by lia; exact D|split; [lia|auto]].
Qed.
Definition block_bytes (l : list block) : Z := fold_right (fun b n => snd b + n) 0 l.
Lemma runs_bytes objs : forall a, block_bytes (runs a objs) + marked_bytes objs = total objs.
Proof.
  induction objs as [|(s, k) objs IH]; intros a; [reflexivity|]. rewrite total_cons. specialize (IH (a + s)). cbn [runs marked_bytes fold_right fst snd]. fold (marked_bytes objs). destruct k; [lia|]. unfold join.
  destruct (runs (a + s) objs) as [|(b, t) l]; [|destruct (b =? a + s)]; cbn [block_bytes fold_right snd] in *; lia.
Qed.

(** A run ends at the end of the page or at a marked object. *)
Definition ends_run (rest : list object) : Prop := rest = [] \/ exists s r, rest = (s, true) :: r.
Lemma runs_run rest run : ends_run rest -> forall a s, (forall o, In o ((s, false) :: run ++ rest) -> 0 < fst o) -> (forall o, In o run -> snd o = false) ->
  runs a ((s, false) :: run ++ rest) = (a, s + total run) :: runs (a + (s + total run)) rest.
Proof.
  intros E. induction run as [|(t, k) run IH]; intros a s P U; cbn [app] in *.
  - cbn [runs total fold_right]. rewrite !Z.add_0_r. destruct E as [->|(t & r & ->)]; [reflexivity|]. cbn [runs].
    assert (Pt : 0 < t) by (apply (P (t, true)); right; left; reflexivity). pose proof (runs_above r (a + s + t) (fun o I => P o (or_intror (or_intror I)))) as K. unfold join.
    destruct (runs (a + s + t) r) as [|(b, u) l]; [reflexivity|]. specialize (K (b, u) (or_introl eq_refl)). cbn [fst] in K. replace (b =? a + s) with false by lia. reflexivity.
  - pose proof (U (t, k) (or_introl eq_refl)) as K. cbn [snd] in K. subst k. cbn [runs]. fold (runs (a + s) ((t, false) :: run ++ rest)). change (join (a + s) t (runs (a + s + t) (run ++ rest))) with (runs (a + s) ((t, false) :: run ++ rest)).
    rewrite IH; [|intros o I; apply P; right; exact I|intros o I; apply U; right; exact I]. cbn [join]. rewrite Z.eqb_refl, total_cons. cbn [fst]. do 2 f_equal. lia.
Qed.
Lemma marked_cons o l : marked_bytes (o :: l) = (if snd o then fst o else 0) + marked_bytes l.
Proof. reflexivity. Qed.
Lemma marked_run rest run : (forall o, In o run -> snd o = false) -> marked_bytes (run ++ rest) = marked_bytes rest /\ existsb snd (run ++ rest) = existsb snd rest.
Proof.
  induction run as [|o run IH]; intros U; cbn [app]; [split; reflexivity|]. destruct IH as [A B]; [intros c I; apply U; right; exact I|].
  rewrite marked_cons. cbn [existsb]. rewrite (U o (or_introl eq_refl)), A, B. split; reflexivity.
Qed.

Section Sweep.
Context (HeapSizeFromClass : Z -> Z -> memory -> Z).
Abbreviation HeapSize := (Sweeper.HeapSize HeapSizeFromClass).

(** The size of an object is found in the object itself. *)
Hypothesis size_local : forall a tags m m', (forall x, a <= x < a + HeapSizeFromClass a tags m -> m' x = m x) -> HeapSizeFromClass a tags m' = HeapSizeFromClass a tags m.

Lemma HeapSize_local a tags m m' s : HeapSize a tags m = Done s -> (forall x, a <= x < a + s -> m' x = m x) -> HeapSize a tags m' = Done s.
Proof.
  unfold Sweeper.HeapSize. destruct (negb (SizeTag_decode tags =? 0)); [auto|]. destruct (HeapSizeFromClass a tags m >? kMaxSizeTag) eqn:E; [|discriminate]. intros [= <-] F. rewrite (size_local a tags m m' F), E. reflexivity.
Qed.

(** The objects [objs] one after the other from [a]. *)
Fixpoint laid (m : memory) (a : Z) (objs : list object) : Prop :=
  match objs with
  | [] => True
  | (s, k) :: objs => (sized s /\ (k = true -> s < kAllocatablePageSize)) /\ HeapSize a (m a) m = Done s /\ IsMarked (m a) = k /\ laid m (a + s) objs
  end.
Lemma laid_frame m m' objs : forall a, (forall x, a <= x < a + total objs -> m' x = m x) -> (forall o, In o objs -> 0 <= fst o) -> laid m a objs -> laid m' a objs.
Proof.
  induction objs as [|(s, k) objs IH]; intros a F P; [auto|]. rewrite total_cons in F. cbn [fst laid] in *. intros (S & Hs & Mk & L).
  assert (T : 0 <= total objs) by (clear - P; induction objs as [|o l IHl]; [reflexivity|rewrite total_cons; pose proof (P o (or_intror (or_introl eq_refl))); assert (0 <= total l); [apply IHl; intros c [I|I]; apply P; [left|right; right]; exact I|lia]]).
  pose proof (proj1 (proj1 (proj1 S))) as S0. rewrite F by lia. split; [exact S|]. split; [apply (HeapSize_local a (m a) m); [exact Hs|intros x Hx; apply F; lia]|]. split; [exact Mk|].
  apply IH; [intros x Hx; apply F; lia|intros o I; apply P; right; exact I|exact L].
Qed.
Lemma laid_positive m objs : forall a, laid m a objs -> forall o, In o objs -> 16 <= fst o /\ sized (fst o).
Proof. induction objs as [|(s, k) objs IH]; intros a; cbn [laid]; [intros _ o []|]. intros ((S & _) & _ & _ & L) o [<-|I]; [cbn [fst]; split; [apply S|exact S]|apply (IH _ L o I)]. Qed.
Lemma laid_app m l l' : forall a, laid m a (l ++ l') -> laid m (a + total l) l'.
Proof. induction l as [|(s, k) l IH]; intros a; cbn [app laid]; [cbn; rewrite Z.add_0_r; auto|]. intros (_ & _ & _ & L). rewrite total_cons. cbn [fst]. replace (a + (s + total l)) with (a + s + total l) by lia. apply IH, L. Qed.
Lemma total_nonneg (l : list object) : (forall o, In o l -> 16 <= fst o /\ sized (fst o)) -> 16 * Z.of_nat (length l) <= total l /\ total l mod 16 = 0.
Proof.
  induction l as [|o l IH]; intros P; [split; reflexivity|]. rewrite total_cons. cbn [length]. destruct IH as [A B]; [intros c I; apply P; right; exact I|]. destruct (P o (or_introl eq_refl)) as (Q & _ & M). rewrite Z.add_mod, M, B by lia. split; [lia|reflexivity].
Qed.

Lemma Expand_spec m limit : limit <= 2 ^ 63 -> forall fuel objs a, laid m a objs -> a + total objs = limit -> 0 <= a -> (length objs <= fuel)%nat ->
  exists run rest, objs = run ++ rest /\ (forall o, In o run -> snd o = false) /\ ends_run rest /\ Expand_loop HeapSizeFromClass fuel a limit m = Done (a + total run).
Proof.
  intros Hl. induction fuel as [|fuel IH]; intros objs a L E Ha Hf; destruct objs as [|(s, k) objs]; cbn [length] in Hf; try lia;
    try (exists [], []; split; [reflexivity|]; split; [intros o []|]; split; [left; reflexivity|]; cbn [Expand_loop total fold_right] in *; replace (a <? limit) with false by lia; f_equal; lia).
  cbn [laid] in L. destruct L as ((S & Sk) & Hs & Mk & L). pose proof (total_nonneg objs (laid_positive m objs _ L)) as [T _]. rewrite total_cons in E. cbn [fst] in E. pose proof (proj1 (proj1 S)).
  cbn [Expand_loop]. replace (a <? limit) with true by lia. rewrite Mk. destruct k.
  - exists [], ((s, true) :: objs). split; [reflexivity|]. split; [intros o []|]. split; [right; eauto|]. cbn. f_equal. lia.
  - rewrite Hs. cbn [rbind]. replace (u64 (a + s)) with (a + s) by (symmetry; apply uN_small; unfold is_uN; lia). destruct (IH objs (a + s) L) as (run & rest & -> & U & Er & ->); try lia.
    exists ((s, false) :: run), rest. split; [reflexivity|]. split; [intros o [<-|I]; [reflexivity|apply U, I]|]. split; [exact Er|]. rewrite total_cons. cbn [fst]. f_equal. lia.
Qed.

(** What becomes of the marked objects: they are unmarked, and otherwise as they were. *)
Definition unmarked (tags tags' : Z) : Prop :=
  IsMarked tags' = false /\ forall b, BitField.fits b -> BitField.disjoint NotMarkedBit b -> BitField.decode b tags' = BitField.decode b tags.
Fixpoint kept (m m' : memory) (a : Z) (objs : list object) : Prop :=
  match objs with
  | [] => True
  | (s, k) :: objs => (k = true -> unmarked (m a) (m' a) /\ forall x, a < x < a + s -> m' x = m x) /\ kept m m' (a + s) objs
  end.
Lemma decode_u64 b x : BitField.decode b (u64 x) = BitField.decode b x.
Proof. unfold BitField.decode. rewrite uN_uN. reflexivity. Qed.
Lemma ClearMarkBit_spec a m : IsMarked (m a) = true -> returns (fun m' => unmarked (m a) (m' a) /\ forall x, x <> a -> m' x = m x) (ClearMarkBit a m).
Proof.
  intros Mk. unfold ClearMarkBit. rewrite Mk. assert (Ft : BitField.fits NotMarkedBit) by (vm_compute; repeat split; discriminate).
  destruct (bitfield_update NotMarkedBit 1 (m a) Ft) as (_ & u & _ & -> & _ & D & O & _); [vm_compute; split; discriminate|]. cbn [checked rbind]. apply returns_done.
  split; [|intros x Hx; apply write_other, Hx]. rewrite write_at. unfold unmarked, IsMarked. rewrite decode_u64, D. split; [reflexivity|]. intros b Fb Db. rewrite decode_u64. apply O; assumption.
Qed.
Lemma kept_frame m m1 m' objs : forall a, (forall x, a <= x < a + total objs -> m1 x = m x) -> (forall o, In o objs -> 16 <= fst o /\ sized (fst o)) -> kept m1 m' a objs -> kept m m' a objs.
Proof.
  induction objs as [|(s, k) objs IH]; intros a F P; cbn [kept]; [auto|]. intros [K R]. rewrite total_cons in F. cbn [fst] in F. destruct (P (s, k) (or_introl eq_refl)) as [S0 _]. cbn [fst] in S0.
  assert (P' : forall o, In o objs -> 16 <= fst o /\ sized (fst o)) by (intros o I; apply P; right; exact I). pose proof (total_nonneg objs P') as [T _]. split.
  - intros E. destruct (K E) as [A B]. rewrite <- (F a) by lia. split; [exact A|]. intros x Hx. rewrite B by exact Hx. apply F. lia.
  - apply IH; [intros x Hx; apply F; lia|exact P'|exact R].
Qed.
Lemma kept_run m m' run rest : (forall o, In o run -> snd o = false) -> forall a, kept m m' (a + total run) rest -> kept m m' a (run ++ rest).
Proof.
  induction run as [|(s, k) run IH]; intros U a K; cbn [app kept]; [cbn in K; rewrite Z.add_0_r in K; exact K|]. pose proof (U (s, k) (or_introl eq_refl)) as E. cbn [snd] in E. subst k. split; [discriminate|].
  apply IH; [intros o I; apply U; right; exact I|]. rewrite total_cons in K. cbn [fst] in K. replace (a + s + total run) with (a + (s + total run)) by lia. exact K.
Qed.

Section Page.
Context (page : Page) (Hstart : 0 < object_start page) (Hend : object_end page <= 2 ^ 63) (Hpage : forall x, object_start page <= x < object_end page -> PageSpace.Page.Of x = page_address page).

Definition swept_ok (used : Z) (m : memory) (fl : FreeList.t) (C : blocks) (a : Z) (objs : list object) : swept -> Prop :=
  fun '(in_use, bytes, m', fl') => in_use = true /\ bytes = used + marked_bytes objs /\
    (exists C', wf m' fl' C' /\ forall x, free C' x <-> free C x \/ In x (runs a objs)) /\
    kept m m' a objs /\ (forall x, ~ (a <= x < object_end page) -> m' x = m x) /\ bump fl' = bump fl.

Lemma swept_marked used m fl C a s objs m1 o : 16 <= s -> unmarked (m a) (m1 a) -> (forall x, x <> a -> m1 x = m x) -> a + s <= object_end page -> a + s + total objs = object_end page ->
  (forall o, In o objs -> 16 <= fst o /\ sized (fst o)) -> swept_ok (used + s) m1 fl C (a + s) objs o -> swept_ok used m fl C a ((s, true) :: objs) o.
Proof.
  destruct o as (((u & bytes) & m') & fl'). intros S0 Un F Le E P (-> & -> & Fr & K & O & B). split; [reflexivity|]. split; [rewrite marked_cons; cbn [fst snd]; lia|]. split; [exact Fr|]. split; [|split; [|exact B]].
  - cbn [kept]. split; [intros _; rewrite !O by lia; split; [exact Un|]; intros x Hx; rewrite O, F by lia; reflexivity|]. apply (kept_frame m m1); [intros x Hx; apply F; lia|exact P|exact K].
  - intros x Hx. rewrite O, F by lia. reflexivity.
Qed.

(** Freeing a run of unmarked objects from [a] to [a + n]. *)
Lemma swept_run used m fl C a n objs rest m1 fl1 C1 o : 0 < n -> a + n + total rest = object_end page -> runs a objs = (a, n) :: runs (a + n) rest -> marked_bytes objs = marked_bytes rest ->
  (forall m', kept m m' (a + n) rest -> kept m m' a objs) -> (forall o, In o rest -> 16 <= fst o /\ sized (fst o)) ->
  (forall x, free C1 x <-> free C x \/ x = (a, n)) -> (forall x, ~ (a <= x < a + n) -> m1 x = m x) -> bump fl1 = bump fl -> swept_ok used m1 fl1 C1 (a + n) rest o -> swept_ok used m fl C a objs o.
Proof.
  destruct o as (((u & bytes) & m') & fl'). intros N E R Mb Kp P Fr F Bp (-> & -> & (C' & W' & F') & K & O & B). pose proof (total_nonneg rest P) as [T _].
  split; [reflexivity|]. split; [lia|]. split; [|split; [|split; [|congruence]]].
  - exists C'. split; [exact W'|]. intros x. rewrite F', Fr, R. cbn [In]. split; intros H; repeat destruct H as [H|H]; auto.
  - apply Kp, (kept_frame m m1); [intros x Hx; apply F; lia|exact P|exact K].
  - intros x Hx. rewrite O, F by lia. reflexivity.
Qed.

Lemma Zap_free m fl C a n : wf m fl C -> fits_heap (a, n) -> (forall b, free C b -> apart (a, n) b) ->
  returns (fun '(m', fl') => exists C', wf m' fl' C' /\ (forall x, free C' x <-> free C x \/ x = (a, n)) /\ (forall x, ~ (a <= x < a + n) -> m' x = m x) /\ bump fl' = bump fl)
    (FreeList.FreeLocked a n (Zap a n m) fl).
Proof.
  intros W Ft Ap. assert (Z0 : forall x, ~ (a <= x < a + n) -> Zap a n m x = m x) by (intros x Hx; unfold Zap; replace ((a <=? x) && (x <? a + n)) with false by lia; reflexivity).
  assert (W1 : wf (Zap a n m) fl C).
  { apply (wf_ext m _ fl fl C W); try reflexivity; [|apply W]. intros b x Fb Ix. apply Z0. intros Jx. exact (apart_inside (a, n) b x (Ap b Fb) Jx Ix). }
  refine (returns_weaken _ _ _ (FreeLocked_spec W1 (a, n) Ft Ap) _). intros (m' & fl') (C' & W' & R & F & B). exists C'. split; [exact W'|]. split; [exact R|]. split; [|exact B].
  intros x Hx. rewrite F by exact Hx. apply Z0, Hx.
Qed.

Lemma Sweep_loop_spec fuel : forall objs a used m fl C, (length objs <= fuel)%nat -> laid m a objs -> a + total objs = object_end page -> object_start page <= a -> a mod 16 = 0 ->
  wf m fl C -> (forall b, free C b -> fst b + snd b <= a \/ object_end page <= fst b) -> (0 < used /\ a <> object_start page) \/ (0 <= used /\ existsb snd objs = true) ->
  returns (swept_ok used m fl C a objs) (Sweep_loop HeapSizeFromClass fuel page a used m fl).
Proof.
  induction fuel as [|fuel IH]; intros objs a used m fl C Hf L E Hs Al W Ap Us; (destruct objs as [|(s, k) objs]; cbn [length] in Hf; [|try lia]);
    try (cbn [Sweep_loop total fold_right existsb] in *; replace (a <? object_end page) with false by lia; replace (a =? object_end page) with true by lia; replace (used =? 0) with false by lia; apply returns_done;
      split; [reflexivity|]; split; [cbn; lia|]; split; [exists C; split; [exact W|cbn; tauto]|]; split; [exact I|auto]).
  pose proof (laid_positive m _ a L) as P. assert (P' : forall o, In o objs -> 16 <= fst o /\ sized (fst o)) by (intros o I; apply P; right; exact I). pose proof (total_nonneg objs P') as [T _].
  cbn [laid] in L. destruct L as ((S & Sk) & Hz & Mk & L). rewrite total_cons in E. cbn [fst] in E. pose proof (proj1 (proj1 S)) as S0. cbn [Sweep_loop]. replace (a <? object_end page) with true by lia.
  rewrite Hpage, Z.eqb_refl by lia. rewrite Hz. cbn [rbind]. rewrite Mk. replace (u64 (a + s)) with (a + s) by (symmetry; apply uN_small; unfold is_uN; lia). destruct k.
  - destruct (ClearMarkBit_spec a m Mk) as (m1 & -> & Un & F). cbn [rbind]. replace (IsAllocatableViaFreeLists s) with true by (unfold IsAllocatableViaFreeLists; specialize (Sk eq_refl); lia).
    refine (returns_weaken _ _ _ (IH objs (a + s) (used + s) m1 fl C _ _ _ _ _ _ _ _) _); try lia.
    + apply (laid_frame m); [intros x Hx; apply F; lia|intros o I; destruct (P' o I); lia|exact L].
    + rewrite Z.add_mod, Al, (proj2 S) by lia. reflexivity.
    + apply (wf_ext m m1 fl fl C W); try reflexivity; [|apply W]. intros b x Fb Ix. apply F. intros ->. specialize (Ap b Fb). unfold inside in Ix. lia.
    + intros b Fb. specialize (Ap b Fb). lia.
    + intros o. apply swept_marked; assumption || lia.
  - destruct (Expand_spec m _ Hend (Datatypes.S fuel) objs (a + s) L) as (run & rest & -> & U & Er & ->); try lia. cbn [rbind]. set (n := s + total run). replace (a + s + total run) with (a + n) by lia.
    rewrite total_sum in E. assert (Pr : forall o, In o rest -> 16 <= fst o /\ sized (fst o)) by (intros o I; apply P', in_app_iff; auto). pose proof (total_nonneg rest Pr) as [Tr _].
    pose proof (total_nonneg run (fun o I => P' o (proj2 (in_app_iff _ _ _) (or_introl I)))) as [Tu Mu]. assert (Sn : sized n) by (subst n; split; [lia|]; rewrite Z.add_mod, (proj2 S), Mu by lia; reflexivity).
    destruct (marked_run rest ((s, false) :: run)) as [Mb Ex]; [intros o [<-|I]; [reflexivity|apply U, I]|]. cbn [app] in Mb, Ex. assert (Us' : (0 < used /\ a <> object_start page) \/ (0 <= used /\ existsb snd rest = true)) by (rewrite <- Ex; exact Us).
    replace ((a =? object_start page) && (a + n =? object_end page)) with false.
    2:{ symmetry. destruct (Z.eqb_spec a (object_start page)); [|reflexivity]. cbn [andb]. destruct Er as [->|(t & r & ->)]; [destruct Us' as [[_ ?]|[_ ?]]; [contradiction|discriminate]|]. destruct (Pr (t, true) (or_introl eq_refl)) as [Pt _]. rewrite total_cons in E, Tr. cbn [fst] in *. cbn [length] in Tr. pose proof (total_nonneg r (fun o I => Pr o (or_intror I))). lia. }
    replace (s64 (a + n - a)) with n by (rewrite sN_small; [lia|lia|unfold is_sN, sized in *; lia]).
    assert (Ft : fits_heap (a, n)) by (unfold fits_heap; cbn [fst snd]; split; [lia|split; [exact Al|split; [exact Sn|lia]]]).
    destruct (Zap_free m fl C a n W Ft) as ((m1 & fl1) & -> & C1 & W1 & F1 & O1 & B1); [intros b Fb; specialize (Ap b Fb); unfold apart; cbn [fst snd]; lia|]. cbn [rbind]. replace (u64 (a + n)) with (a + n) by (symmetry; apply uN_small; unfold is_uN; lia).
    pose proof (laid_app m run rest _ L) as Lr. replace (a + s + total run) with (a + n) in Lr by lia.
    refine (returns_weaken _ _ _ (IH rest (a + n) used m1 fl1 C1 _ _ _ _ _ _ _ _) _); try lia; try assumption.
    + rewrite length_app in Hf. lia.
    + apply (laid_frame m); [intros x Hx; apply O1; lia|intros o I; destruct (Pr o I); lia|exact Lr].
    + rewrite Z.add_mod, Al, (proj2 Sn) by lia. reflexivity.
    + intros b Fb. apply F1 in Fb. destruct Fb as [Fb| ->]; [specialize (Ap b Fb); lia|cbn [fst snd]; lia].
    + intros o. apply (swept_run used m fl C a n _ rest m1 fl1 C1 o); try assumption; try lia.
      * apply (runs_run rest run Er a s); [intros c I; destruct (P c I); lia|exact U].
      * intros m' K. apply (kept_run m m' ((s, false) :: run) rest); [intros c [<-|I]; [reflexivity|apply U, I]|exact K].
Qed.

(** C7.  Sweeping a page frees exactly its unmarked objects.  For a page made of objects one after the other, none of it
    free before: if no object is marked, the page is reported as not in use and nothing is changed.  Otherwise the page
    is in use and its live bytes are those of its marked objects; every marked object has its mark cleared and is
    otherwise as it was, nothing outside the page changes, and the free list gains the maximal runs of unmarked
    objects: blocks in order, never adjacent, that with the marked objects make up the page.  The walk ends, and no
    assertion fails. *)
Theorem sweep_page_correct objs m fl C : object_start page mod 16 = 0 -> laid m (object_start page) objs -> object_start page + total objs = object_end page -> objs <> [] ->
  wf m fl C -> (forall b, free C b -> fst b + snd b <= object_start page \/ object_end page <= fst b) ->
  (if existsb snd objs then returns (swept_ok 0 m fl C (object_start page) objs) (SweepPage HeapSizeFromClass page m fl)
   else SweepPage HeapSizeFromClass page m fl = Done (false, 0, m, fl)) /\
  spaced (object_start page) (runs (object_start page) objs) /\ block_bytes (runs (object_start page) objs) + marked_bytes objs = object_end page - object_start page.
Proof.
  intros Al L E Ne W Ap. pose proof (laid_positive m _ _ L) as P. pose proof (total_nonneg objs P) as [T _].
  split; [|split; [apply runs_spaced; intros o I; destruct (P o I); lia|rewrite runs_bytes; lia]].
  assert (Hf : (length objs <= Z.to_nat ((object_end page - object_start page) / kObjectAlignment))%nat).
  { change kObjectAlignment with 16. apply Nat2Z.inj_le. rewrite Z2Nat.id by (apply Z.div_pos; lia). apply Z.div_le_lower_bound; lia. }
  unfold SweepPage. destruct (existsb snd objs) eqn:Ex; [apply Sweep_loop_spec; try assumption; lia|].
  set (fuel := Z.to_nat _) in *. destruct objs as [|(s, k) objs]; [congruence|]. destruct fuel as [|fuel]; cbn [length] in Hf; [lia|]. cbn [existsb snd] in Ex. destruct k; [discriminate|]. cbn [orb] in Ex.
  cbn [laid] in L. destruct L as ((S & _) & Hz & Mk & L). rewrite total_cons in *. cbn [fst] in *. pose proof (proj1 (proj1 S)) as S0. cbn [length] in T. pose proof (total_nonneg objs (fun o I => P o (or_intror I))) as [T' _].
  cbn [Sweep_loop]. replace (object_start page <? object_end page) with true by lia. rewrite Hpage, Z.eqb_refl by lia. rewrite Hz. cbn [rbind]. rewrite Mk.
  replace (u64 (object_start page + s)) with (object_start page + s) by (symmetry; apply uN_small; unfold is_uN; lia).
  destruct (Expand_spec m _ Hend (Datatypes.S fuel) objs _ L) as (run & rest & -> & U & Er & ->); try lia. cbn [rbind].
  destruct Er as [->|(t & r & ->)]; [|rewrite existsb_app in Ex; cbn [existsb snd orb] in Ex; rewrite orb_true_r in Ex; discriminate].
  rewrite app_nil_r in *. rewrite Z.eqb_refl. replace (_ =? object_end page) with true by lia. reflexivity.
Qed.
End Page.
End Sweep.

(** A page with a live object of 32 bytes between two dead ones, the second followed by another. *)
Definition swept_page : Page := mkPage 2097152 2098176 2098304.
Definition swept_objects : list object := [(16, false); (32, true); (48, false); (32, false)].
Definition swept_memory : memory := fun a =>
  if a =? 2098176 then 0x1104 else if a =? 2098192 then 0x1200 else if a =? 2098224 then 0x1304 else if a =? 2098272 then 0x1204 else 0.
Lemma sweep_page_correct_witness : runs 2098176 swept_objects = [(2098176, 16); (2098224, 80)] /\
  returns (swept_ok swept_page 0 swept_memory FreeList.FreeList (fun _ => []) 2098176 swept_objects) (SweepPage (fun _ _ _ => 256) swept_page swept_memory FreeList.FreeList).
Proof.
  split; [reflexivity|]. apply (sweep_page_correct (fun _ _ _ => 256) (fun _ _ _ _ _ => eq_refl) swept_page ltac:(reflexivity) ltac:(vm_compute; discriminate)) with (objs := swept_objects).
  - intros x [A B]. cbn [object_start object_end page_address swept_page] in *.
    assert (K : forallb (fun n => PageSpace.Page.Of (2098176 + Z.of_nat n) =? 2097152) (seq 0 128) = true) by reflexivity.
    rewrite forallb_forall in K. specialize (K (Z.to_nat (x - 2098176)) ltac:(apply in_seq; lia)). rewrite Z2Nat.id in K by lia. replace (2098176 + (x - 2098176)) with x in K by lia. lia.
  - reflexivity.
  - cbn [laid swept_objects]. unfold sized, kAllocatablePageSize. repeat (split; [first [reflexivity|split; [split; [lia|reflexivity]|intros; lia || discriminate]]|]). exact I.
  - reflexivity.
  - discriminate.
  - apply Reset_wf. cbn. unfold FreeList.kInitialFreeListSearchBudget. lia.
  - intros b (i & _ & []).
Defined.
